(* ===== verification/_CoqProject ===== *)
-Q . S2P
Prelude.v
Bytes.v
Text.v
Utf8.v
Decimal.v
Temporal.v
Float64.v
FloatArith.v
BTree.v
Scalars.v
Model.v
Coerce.v
OrderedKey.v
Codec.v
Matching.v
Coverage.v
Catalog.v
Schema.v
Expression.v
Typing.v
EvalOps.v
Soundness.v
IndexPredicate.v
Query.v
MatchResult.v
Database.v
MatchSafety.v
Wire.v
WireLaws.v
Access.v
Stages.v
Aggregates.v
Ranges.v
Postings.v
Rows.v
Tables.v
Predicates.v
StageLaws.v
Paging.v
Targets.v
Execution.v
Streaming.v
PagingLaws.v
WindowLaws.v
GroupKeys.v
Grouping.v
AggregateLaws.v
References.v
Mutations.v
Updates.v
Links.v
Invariant.v
Effects.v
Planning.v
Candidates.v
TargetLaws.v
ExecutionLaws.v
PageOrder.v
Receipts.v
Engine.v
EngineLaws.v
EngineSafety.v
