(* ===== verification/Prelude.v ===== *)
(** * unionid: a verified model of the database core

    unionid is a typed database with algebraic data types, written in Rust
    (src/src/).  This library translates its core to executable Rocq definitions and
    proves what the rest of the system relies on.

    ** The program and its parts

    A _catalog_ of named types (model.rs) gives every type, field and variant a
    stable ID.  Values are _coerced_ to the canonical form of a declared type before
    they are stored; canonical values are written by the _durable codec_ (codec.rs)
    and, when indexed, by the _ordered key encoding_ (ordered_key.rs), whose byte
    order is the order of the values.  Exact decimals, dates, durations, timestamps,
    UUIDs and byte strings (scalars/) are the scalar domains.  Queries are built of
    _scalar expressions_ (expression.rs) and _pattern matches_ (matching.rs), bound
    against the catalog before they run.  The _database_ (db.rs, db/) keeps tables of
    rows with secondary indexes, partial unique indexes, references between tables
    and generated defaults; a statement works on a copy that is published when it
    succeeds, and leaves a write set for the storage layer.  The _engine_ (engine.rs) runs
    the scripts of requests on a candidate of the committed database, commits it to the
    durable store together with the _receipt_ of an idempotent request (idempotency.rs),
    and publishes it.

    ** Files

    - Prelude (this file): results and the error monad, iteration over lists with
      errors and with state, bounded integers, shared tactics and hints.  Bytes, Text
      and Utf8: byte strings, big-endian integers, Rust strings, UTF-8.
      BTree: [BTreeMap] and [BTreeSet] over a key type with a [TotalOrder].
    - Decimal: scalars/decimal.rs.  Temporal: scalars/temporal.rs.  Scalars:
      scalars/mod.rs.  Float64, FloatArith: the [f64] comparisons, conversions and
      arithmetic that the sources use, on bit patterns.
    - Model: the types, values and orders of model.rs, and [Catalog::coerce]; Coerce:
      its correctness.  Catalog: the schema operations of model.rs; Schema: their
      correctness.
    - OrderedKey: ordered_key.rs.  Codec: codec.rs.
    - Matching: patterns, coverage analysis and pattern evaluation of matching.rs;
      Coverage: their correctness.  MatchResult: what the branches of a match yield;
      MatchSafety: a bound match evaluates safely.
    - Expression: expression.rs; Typing, EvalOps and Soundness: its type soundness.
    - IndexPredicate: db/index_predicate.rs.
    - Database: the state of db.rs, index maintenance, inserts, upserts, updates, deletes and
      schema statements, db/reference.rs and db/generated.rs.  Postings, Rows, Tables:
      what indexes, rows and tables rely on; References: what references rely on, and
      that checked row changes keep it; Mutations and Updates: row mutations keep the database
      consistent; Links: schema statements keep the references; Invariant: every
      statement keeps the database consistent.  Effects: what single statements do.
    - Query: the pipelines of query.rs.  Access: the access planning of db.rs, from the
      leading filters of a query to the index scan and the candidate rows.  Ranges (byte
      bounds), Predicates (what filters say of a row), Planning and Candidates: its
      correctness.  Targets: how updates and deletes select their rows; TargetLaws: the
      selection is the same however it is executed.  Execution: the execution of a prepared
      query; ExecutionLaws: it computes what its stages mean.  Streaming: a loop over rows
      with an early end does what evaluating stage by stage does, for both.
    - Stages: the limits, projection, sorting, set operations and windows of db.rs on
      rows that a query holds; StageLaws and WindowLaws: their correctness.  Aggregates:
      the aggregate stage; GroupKeys (printed keys identify values), Grouping (the single
      pass keeps the groups apart) and AggregateLaws: its correctness.
    - Paging: the cursors of pagination.rs and the page stage of db.rs; PagingLaws: cursors
      resume where they were made and pages partition the rows; PageOrder: the sort of an
      accepted page separates the rows of its table.
    - Wire: the transport form of values, protocol.rs and scalars/serde.rs; WireLaws: its
      round trip.
    - Receipts: the receipts of idempotency.rs with their limits and retention, and the
      statement summaries of script.rs.  Engine: requests, scripts, commits and pruning of
      engine.rs over the interface [Executor]; EngineLaws: what one event does to the file
      and the process; EngineSafety: the guarantees over histories, and the interface
      discharged by Database.

    ** How the code is represented

    A [Result] is [result]: [Ok], or [Err] with the stable error code; message text,
    spans and hints are dropped.  A panic ([expect], [unreachable!], an index out of
    range) is [Err PANIC].  A [BTreeMap] or [imbl::OrdMap] is a strictly ascending
    association list, a [HashMap] key set a [gset] or [gmap].  Machine integers are
    [Z] with the code's own checks written out; an [f64] is its 64-bit pattern; a
    Rust [String] is a Stdlib [string] of UTF-8 bytes.  A [&mut self] operation takes
    and returns the state; a mutated buffer is returned.  Code that is not part of
    the repository is a parameter: the base64 engine ([Base64], and an argument of
    Scalars), the Unicode tables of the standard library ([TextLib], with
    [TextLibLaws] for what it documents), the JSON text and digest behind an index
    predicate's identity ([PredicateText]), the text of floats and base64 on the wire
    ([WireText]), the length and text of JSON ([RowJson], [JsonText]), the hasher of rows
    ([RowHasher], with no law: no theorem depends on the hash function), the JSON text and
    MAC of cursors ([CursorLib]) and the text and digest of a plan ([PlanText], with no
    law), the JSON text of a receipt ([ReceiptJson], with no law), the clock and
    the entropy source (arguments of the database operations).  The redb store is the
    state that opening the file finds ([w_disk]); the environment chooses whether a commit
    succeeds, fails, or fails with an uncertain outcome, applied or not.

    Bounds and fuel.  The code bounds its recursions by [check_depth] with
    [MAX_DEPTH = 64]; a recursion takes the levels that are left as fuel, so fuel
    running out is the code's own [E_LIMIT], at the same depth.  Where the code
    recurses without a bound, the fuel is proved to be enough: the date searches
    (Temporal), the coverage analysis, whose every call takes a step of its budget
    ([coverage_terminates]), and the catalog checks, whose fuel is the number of
    declared types (Schema).

    ** What the theorems show

    - Scalars: [round_ratio_correct] and [decimal_arithmetic_correct] (every result
      is the exact rational, rounded as asked), print/parse round trips for decimals,
      dates and timestamps, [truncate_at_offset_floor], [float_to_integer_rounds].
    - Values: [coerce_canonical] (coercion is a projection onto canonical values),
      [cmp_typed_total_order].
    - Encodings: [encode_tuple_ordered] (byte order of keys is the typed order, with
      directions), [encode_complete_ordered];
      [codec_roundtrip], and [decode_value_canonical] for arbitrary input bytes.
    - Catalog: [reachable_catalog_invariant] (well-formedness in every catalog that
      declarations reach), the acceptance checks decide exactly finiteness and the
      absence of mutual recursion, declarations keep the meaning of existing types.
    - Matching: an accepted match is exhaustive and binds well-typed values
      ([bind_patterns_exhaustive]); a rejected arm is redundant; the analysis
      terminates within its budget.
    - Expressions: [bound_expression_safe] and [bound_scalar_safe] (type soundness);
      [bound_match_value_safe] for match branches.
    - Database: in every database that statements reach, indexes equal the ones
      rebuilt from the rows ([reachable_indexes_exact]), rows are canonical values of
      their columns ([reachable_rows_typed]), primary keys are unique
      ([reachable_primary_keys_unique]), and every stored reference has its target
      ([reachable_references_hold]).  [candidate_indexes_exact]: a batch is rejected
      exactly when its final rows collide.  [update_effect] (an update is a simultaneous
      assignment), [scan_index_exact], [upsert_effect],
      [write_set_net], [sequence_consecutive], [uuid_v7_correct].
    - Access planning: [planned_access_exact] (an index access reads every row that the
      leading filters accept, in table order or in the order of the satisfied sort),
      [candidate_bounds_never_panic].  [mutation_targets_exact]: an update or delete changes
      the rows that evaluating its target stage by stage on the whole table gives, where no
      index satisfies a sort of the target; [delete_target_effect]: a delete removes exactly
      the rows selected; [targeted_statements_consistent]: both keep the invariants of the
      database.
    - Query stages: [sort_by_typed_stable], [set_operation_exact] (for every hash
      function), [window_counts] (the window functions are the counts that define them)
      and [aggregation_exact] (one row per group, with the aggregates of its rows, sums over
      named decimal types excepted).  [query_prepared_exact]: a query answers with the rows
      that evaluating its stages one after the other on the whole table gives.
    - Pages: [page_traversal] (following the cursors of a query ends, and its pages cut the
      sorted rows in order, forwards and backwards), [page_order_unique] (the sort of an
      accepted page is unique) and [cursor_decode_encoded] (a cursor is accepted exactly
      where it was made).
    - Wire: [wire_transport] (values travel unchanged).
    - Engine: for any history of requests, prunings, failed and uncertain commits and
      restarts, a request with an idempotency key takes effect at most once and every
      answer to it is the recorded one ([idempotent_exactly_once]), scripts are atomic
      ([script_atomic]) and the file can be opened again ([receipts_always_valid]).  Where
      statements run on the full candidate, the file keeps its indexes, references and
      primary keys ([file_integrity], which composes the engine with the database; it says
      nothing of the single row mutations that a redb store runs from the rows they need,
      nor of migrations).  [prune_selects_oldest].

    Three theorems document defects: [membership_bind_panics] (binding [in] with an item of
    known type and a computed collection of unknown type panics), [huge_take_panics] (a
    large [take] after an indexed sort reserves more memory than there is) and
    [named_decimal_sum_fails] (a [sum] over a named decimal type passes binding and fails
    on the second row).  Two more are shown on examples: [inline_recursion_exhausts_budget]
    (the coverage analysis rejects a trivially exhaustive match over a recursive type) and
    [bound_constructor_fails] (constructors of match branches that pass binding and fail).

    ** Not modelled

    Deadlines and cancellation, profiling counters and returned rows of mutations; the
    preparation of query pipelines with their local definitions, and row sinks; reading
    single rows from a store, and the row mutations that a redb store runs that way; the
    parser, formatter and command line; migrations and backups; the redb storage layer; the
    JSON requests, server and clients.  The last three groups are mostly I/O over
    third-party libraries.  The queries that a query runs inside it are an argument of the
    execution, since they are prepared first. *)
From stdpp Require Export base tactics list strings numbers.
From Stdlib Require Export ZArith Lia.
From Stdlib Require Import Ascii Sorting.Sorted.
Global Open Scope Z_scope.

(** ** Results

    [Result<T>] of src/src/error.rs.  An [Error] is represented by its stable
    [code]; message text, spans and hints are presentation. *)
Inductive result (A : Type) : Type :=
  | Ok (a : A)
  | Err (code : string).
Arguments Ok {A} a.
Arguments Err {A} code.

Global Instance result_ret : MRet result := λ A, Ok.
Global Instance result_bind : MBind result := λ A B f m,
  match m with Ok a => f a | Err e => Err e end.
Global Instance result_fmap : FMap result := λ A B f m,
  match m with Ok a => Ok (f a) | Err e => Err e end.

Definition is_ok {A} (m : result A) : bool :=
  match m with Ok _ => true | Err _ => false end.

(** [Option::ok_or_else]. *)
Definition ok_or {A} (o : option A) (code : string) : result A :=
  match o with Some a => Ok a | None => Err code end.

(** [Result::map_err] to a fixed code. *)
Definition map_err {A} (code : string) (m : result A) : result A :=
  match m with Ok a => Ok a | Err _ => Err code end.

(** [iter().map(f).collect::<Result<Vec<_>>>()]: stops at the first error. *)
Fixpoint mapR {A B} (f : A → result B) (l : list A) : result (list B) :=
  match l with
  | [] => Ok []
  | x :: l => y ← f x; ys ← mapR f l; Ok (y :: ys)
  end.

(** A [for] loop that threads a state and may return early with an error. *)
Fixpoint foldR {A S} (f : S → A → result S) (s : S) (l : list A) : result S :=
  match l with
  | [] => Ok s
  | x :: l => s' ← f s x; foldR f s' l
  end.

Lemma Ok_inj {A} (a b : A) : Ok a = Ok b → a = b.
Proof. by intros [=]. Qed.

Lemma bind_Ok {A B} (m : result A) (f : A → result B) b :
  m ≫= f = Ok b ↔ ∃ a, m = Ok a ∧ f a = Ok b.
Proof. destruct m; simpl; naive_solver. Qed.

Lemma fmap_Ok {A B} (m : result A) (f : A → B) b :
  f <$> m = Ok b ↔ ∃ a, m = Ok a ∧ b = f a.
Proof. destruct m; simpl; naive_solver. Qed.

Lemma ok_or_Ok {A} (o : option A) e a : ok_or o e = Ok a ↔ o = Some a.
Proof. destruct o; simpl; naive_solver. Qed.

Lemma map_err_Ok {A} e (m : result A) a : map_err e m = Ok a ↔ m = Ok a.
Proof. destruct m; simpl; naive_solver. Qed.

Lemma mapR_Ok {A B} (f : A → result B) l k :
  mapR f l = Ok k ↔ Forall2 (λ x y, f x = Ok y) l k.
Proof.
  revert k. induction l as [|x l IH]; intros k; simpl.
  - split; [intros [= <-]; constructor | by inversion 1].
  - rewrite bind_Ok. setoid_rewrite bind_Ok. split.
    + intros (y & Hy & ys & Hys & [= <-]). constructor; [done | by apply IH].
    + inversion 1; subst. eexists; split; [done|]. eexists; split; [by apply IH | done].
Qed.

Lemma mapR_length {A B} (f : A → result B) l k : mapR f l = Ok k → length k = length l.
Proof. intros H%mapR_Ok. by apply Forall2_length in H. Qed.

Lemma mapR_total {A B} (f : A → result B) l : (∀ x, x ∈ l → ∃ y, f x = Ok y) → ∃ k, mapR f l = Ok k.
Proof.
  induction l as [|x l IH]; intros Hf; [by eexists|]. destruct (Hf x) as [y Hy]; [by left|].
  destruct IH as [k Hk]; [intros; apply Hf; by right|]. exists (y :: k). simpl. by rewrite Hy, Hk.
Qed.

Lemma foldR_app {A S} (f : S → A → result S) s l k :
  foldR f s (l ++ k) = foldR f s l ≫= λ s', foldR f s' k.
Proof. revert s. induction l as [|x l IH]; intros s; simpl; [done|]. destruct (f s x); simpl; auto. Qed.

Lemma foldR_inv {A S} (P : S → Prop) (f : S → A → result S) s l s' :
  (∀ s x s', P s → f s x = Ok s' → P s') → P s → foldR f s l = Ok s' → P s'.
Proof.
  intros Hf. revert s. induction l as [|x l IH]; intros s Hs H; simpl in H; [by injection H as <-|].
  apply bind_Ok in H as (s1 & Hs1 & H). eauto.
Qed.

(** ** Machine integers

    A [w]-bit integer is a [Z] in the range of its Rust type. *)
Definition in_range (lo hi z : Z) : bool := (lo <=? z) && (z <=? hi).
Definition is_u8 (z : Z) : bool := in_range 0 (2 ^ 8 - 1) z.
Definition is_u16 (z : Z) : bool := in_range 0 (2 ^ 16 - 1) z.
Definition is_u32 (z : Z) : bool := in_range 0 (2 ^ 32 - 1) z.
Definition is_u64 (z : Z) : bool := in_range 0 (2 ^ 64 - 1) z.
Definition is_i32 (z : Z) : bool := in_range (- 2 ^ 31) (2 ^ 31 - 1) z.
Definition is_i64 (z : Z) : bool := in_range (- 2 ^ 63) (2 ^ 63 - 1) z.
Definition is_i128 (z : Z) : bool := in_range (- 2 ^ 127) (2 ^ 127 - 1) z.

(** The [checked_*] operations: the exact result when it fits. *)
Definition checked (fits : Z → bool) (z : Z) : option Z :=
  if fits z then Some z else None.

(** [as u64] and the like: reduction modulo [2^w]. *)
Definition wrap (w z : Z) : Z := z `mod` 2 ^ w.

(** Two's complement reading of a [w]-bit pattern. *)
Definition signed (w u : Z) : Z := if u <? 2 ^ (w - 1) then u else u - 2 ^ w.

(** [usize::saturating_sub]. *)
Definition sat_sub (a b : Z) : Z := Z.max 0 (a - b).

Definition zlen {A} (l : list A) : Z := Z.of_nat (length l).

Lemma in_range_spec lo hi z : in_range lo hi z = true ↔ lo ≤ z ≤ hi.
Proof. unfold in_range. rewrite andb_true_iff, !Z.leb_le. done. Qed.

Lemma checked_Some fits z r : checked fits z = Some r ↔ fits z = true ∧ r = z.
Proof. unfold checked. destruct (fits z); naive_solver. Qed.

Lemma zlen_nonneg {A} (l : list A) : 0 ≤ zlen l.
Proof. unfold zlen. lia. Qed.

Lemma zlen_app {A} (l k : list A) : zlen (l ++ k) = zlen l + zlen k.
Proof. unfold zlen. rewrite length_app. lia. Qed.

Lemma zlen_cons {A} (x : A) l : zlen (x :: l) = 1 + zlen l.
Proof. unfold zlen. simpl. lia. Qed.

Lemma signed_wrap w z : 0 < w → - 2 ^ (w - 1) ≤ z < 2 ^ (w - 1) → signed w (wrap w z) = z.
Proof.
  intros Hw Hz. unfold signed, wrap.
  assert (H2 : 2 ^ w = 2 * 2 ^ (w - 1)).
  { replace w with (1 + (w - 1)) at 1 by lia. rewrite Z.pow_add_r by lia. lia. }
  destruct (decide (0 ≤ z)) as [Hp|Hn].
  - rewrite Z.mod_small by lia. destruct (Z.ltb_spec z (2 ^ (w - 1))); lia.
  - assert (Hm : z `mod` 2 ^ w = z + 2 ^ w).
    { rewrite <-(Z_mod_plus_full z 1). rewrite Z.mod_small; lia. }
    rewrite Hm. destruct (Z.ltb_spec (z + 2 ^ w) (2 ^ (w - 1))); lia.
Qed.

Ltac unrange :=
  unfold is_u8, is_u16, is_u32, is_u64, is_i32, is_i64, is_i128 in *;
  repeat match goal with
  | H : in_range _ _ _ = true |- _ => apply in_range_spec in H
  | |- in_range _ _ _ = true => apply in_range_spec
  end.

(** ** Tactics *)

(** Invert every hypothesis that says a monadic computation succeeded. *)
Ltac res_step :=
  match goal with
  | H : _ ≫= _ = Ok _ |- _ =>
      let x := fresh "x" in let Hx := fresh "Hx" in
      apply bind_Ok in H as (x & Hx & H)
  | H : _ <$> _ = Ok _ |- _ =>
      let x := fresh "x" in let Hx := fresh "Hx" in
      apply fmap_Ok in H as (x & Hx & H)
  | H : ok_or _ _ = Ok _ |- _ => apply ok_or_Ok in H
  | H : map_err _ _ = Ok _ |- _ => apply map_err_Ok in H
  | H : checked _ _ = Some _ |- _ => apply checked_Some in H as [? ->]
  | H : Ok _ = Ok _ |- _ => injection H as H
  | H : Err _ = Ok _ |- _ => discriminate H
  | H : Ok _ = Err _ |- _ => discriminate H
  | H : mret _ = Ok _ |- _ => injection H as H
  | u : unit |- _ => destruct u
  end.
Ltac res_inv := repeat (res_step; simpl in *); try done.

(** Split the boolean tests of a hypothesis into arithmetic facts. *)
Ltac bool_step :=
  match goal with
  | H : (_ && _) = true |- _ => apply andb_true_iff in H as [? ?]
  | H : (_ || _) = false |- _ => apply orb_false_iff in H as [? ?]
  | H : negb _ = true |- _ => apply negb_true_iff in H
  | H : negb _ = false |- _ => apply negb_false_iff in H
  | H : (_ <=? _) = true |- _ => apply Z.leb_le in H
  | H : (_ <=? _) = false |- _ => apply Z.leb_gt in H
  | H : (_ <? _) = true |- _ => apply Z.ltb_lt in H
  | H : (_ <? _) = false |- _ => apply Z.ltb_ge in H
  | H : (_ =? _) = true |- _ => apply Z.eqb_eq in H
  | H : (_ =? _) = false |- _ => apply Z.eqb_neq in H
  | H : (_ >? _) = true |- _ => rewrite Z.gtb_ltb in H
  | H : (_ >? _) = false |- _ => rewrite Z.gtb_ltb in H
  | H : (_ >=? _) = true |- _ => rewrite Z.geb_leb in H
  | H : (_ >=? _) = false |- _ => rewrite Z.geb_leb in H
  | H : String.eqb _ _ = true |- _ => apply String.eqb_eq in H
  | H : String.eqb _ _ = false |- _ => apply String.eqb_neq in H
  | H : bool_decide _ = true |- _ => apply bool_decide_eq_true in H
  | H : bool_decide _ = false |- _ => apply bool_decide_eq_false in H
  end.
Ltac bool_inv := repeat bool_step.

(** Destruct the scrutinee of an [if] in a hypothesis, keeping its equation. *)
Ltac case_if_in H :=
  match type of H with
  | context [if ?b then _ else _] =>
      let E := fresh "E" in destruct b eqn:E
  end.

(** ** Orderings and stable sorting *)

(** [Ordering::then]. *)
Definition then_cmp (c d : comparison) : comparison :=
  match c with Eq => d | _ => c end.

Definition rev_if (b : bool) (c : comparison) : comparison :=
  if b then CompOpp c else c.

Lemma then_cmp_assoc a b c : then_cmp (then_cmp a b) c = then_cmp a (then_cmp b c).
Proof. by destruct a. Qed.

Lemma then_cmp_Eq a b : then_cmp a b = Eq ↔ a = Eq ∧ b = Eq.
Proof. destruct a; simpl; naive_solver. Qed.

Lemma CompOpp_then a b : CompOpp (then_cmp a b) = then_cmp (CompOpp a) (CompOpp b).
Proof. by destruct a. Qed.

(** [slice::sort_by_key]: a stable sort by an integer key. *)
Section sort.
Context {A : Type} (key : A → Z).

Fixpoint sort_insert (x : A) (l : list A) : list A :=
  match l with
  | [] => [x]
  | y :: l' => if key x <=? key y then x :: l else y :: sort_insert x l'
  end.

Fixpoint sort_by_key (l : list A) : list A :=
  match l with
  | [] => []
  | x :: l => sort_insert x (sort_by_key l)
  end.

Lemma sort_insert_perm x l : sort_insert x l ≡ₚ x :: l.
Proof.
  induction l as [|y l IH]; simpl; [done|].
  destruct (key x <=? key y); [done|]. rewrite IH. apply Permutation_swap.
Qed.

Lemma sort_by_key_perm l : sort_by_key l ≡ₚ l.
Proof. induction l as [|x l IH]; simpl; [done|]. by rewrite sort_insert_perm, IH. Qed.

Lemma sort_insert_sorted x l :
  Sorted (λ a b, key a ≤ key b) l → Sorted (λ a b, key a ≤ key b) (sort_insert x l).
Proof.
  induction 1 as [|y l Hs IH Hd]; simpl; [by repeat constructor|].
  destruct (Z.leb_spec (key x) (key y)).
  - by repeat constructor.
  - constructor; [done|]. destruct l as [|z l]; simpl; [constructor; lia|].
    destruct (Z.leb_spec (key x) (key z)); constructor; [lia|]. by inversion Hd.
Qed.

Lemma sort_by_key_sorted l : Sorted (λ a b, key a ≤ key b) (sort_by_key l).
Proof. induction l; simpl; [constructor|]. by apply sort_insert_sorted. Qed.

Lemma sort_by_key_length l : length (sort_by_key l) = length l.
Proof. by rewrite sort_by_key_perm. Qed.
End sort.

Create HintDb unionid discriminated.
#[export] Hint Resolve zlen_nonneg : unionid.
Create Rewrite HintDb zlen.
#[export] Hint Rewrite @zlen_app @zlen_cons : zlen.
