(* ===== verification/Bytes.v ===== *)
(** * Byte strings

    Big-endian integers, lexicographic byte order, the "first difference"
    relation that every order-preserving encoding of the development satisfies,
    Rust strings as byte strings, and UTF-8 validation. *)
From Stdlib Require Import Ascii.
From S2P Require Import Prelude.

(** A byte is a [Z] below 256. *)
Definition is_byte (b : Z) : bool := (0 <=? b) && (b <? 256).
Definition all_bytes (l : list Z) : bool := forallb is_byte l.

Lemma is_byte_spec b : is_byte b = true ↔ 0 ≤ b < 256.
Proof. unfold is_byte. rewrite andb_true_iff, Z.leb_le, Z.ltb_lt. done. Qed.

Lemma all_bytes_app l k : all_bytes (l ++ k) = all_bytes l && all_bytes k.
Proof. apply forallb_app. Qed.

Lemma all_bytes_Forall l : all_bytes l = true ↔ Forall (λ b, 0 ≤ b < 256) l.
Proof.
  unfold all_bytes. rewrite forallb_forall, Forall_forall.
  by setoid_rewrite is_byte_spec.
Qed.

(** ** Big-endian integers ([to_be_bytes] and [from_be_bytes]) *)
Fixpoint be_bytes (n : nat) (z : Z) : list Z :=
  match n with
  | O => []
  | S n => (z / 256 ^ Z.of_nat n) `mod` 256 :: be_bytes n z
  end.

Definition of_be (l : list Z) : Z := fold_left (λ acc b, acc * 256 + b) l 0.

Lemma be_bytes_length n z : length (be_bytes n z) = n.
Proof. induction n; simpl; auto. Qed.

Lemma be_bytes_all_bytes n z : all_bytes (be_bytes n z) = true.
Proof.
  induction n as [|n IH]; simpl; [done|]. rewrite IH, andb_true_r.
  apply is_byte_spec. apply Z.mod_pos_bound. lia.
Qed.

Lemma of_be_acc l acc :
  fold_left (λ acc b, acc * 256 + b) l acc = acc * 256 ^ zlen l + of_be l.
Proof.
  unfold of_be. revert acc. induction l as [|x l IH]; intros acc; cbn [fold_left].
  - unfold zlen; simpl. lia.
  - rewrite IH, (IH (0 * 256 + x)), zlen_cons.
    rewrite Z.pow_add_r by (try apply zlen_nonneg; lia). lia.
Qed.

Lemma of_be_be_bytes n z : of_be (be_bytes n z) = z `mod` 256 ^ Z.of_nat n.
Proof.
  induction n as [|n IH]; [simpl; by rewrite Z.mod_1_r|].
  unfold of_be. cbn [be_bytes fold_left]. rewrite of_be_acc, IH.
  unfold zlen. rewrite be_bytes_length, Z.mul_0_l, Z.add_0_l.
  rewrite Nat2Z.inj_succ, <-Z.add_1_r, Z.pow_add_r, Z.pow_1_r by lia.
  rewrite Z.rem_mul_r by lia. lia.
Qed.

Lemma of_be_bound l : all_bytes l = true → 0 ≤ of_be l < 256 ^ zlen l.
Proof.
  unfold of_be. induction l as [|x l IH]; simpl; [unfold zlen; simpl; lia|].
  rewrite andb_true_iff, is_byte_spec. intros [Hx Hl]. specialize (IH Hl).
  rewrite of_be_acc, zlen_cons. unfold of_be in *.
  rewrite Z.pow_add_r by (try apply zlen_nonneg; lia). nia.
Qed.

Lemma be_bytes_mod n z : be_bytes n (z `mod` 256 ^ Z.of_nat n) = be_bytes n z.
Proof.
  enough (H : ∀ m, (n ≤ m)%nat → be_bytes n (z `mod` 256 ^ Z.of_nat m) = be_bytes n z) by (by apply H).
  induction n as [|n IH]; intros m Hm; simpl; [done|]. f_equal; [|apply IH; lia].
  replace (Z.of_nat m) with (Z.of_nat n + (1 + (Z.of_nat m - Z.of_nat n - 1))) by lia.
  rewrite Z.pow_add_r, Z.rem_mul_r by (try apply Z.pow_nonzero; lia).
  rewrite Z.mul_comm, Z.div_add by (apply Z.pow_nonzero; lia).
  rewrite (Z.div_small (z `mod` _)), Z.add_0_l by (apply Z.mod_pos_bound; lia).
  rewrite Z.pow_add_r, Z.pow_1_r by lia. apply Z.mod_mod_divide. exists (256 ^ (Z.of_nat m - Z.of_nat n - 1)). lia.
Qed.

Lemma be_bytes_of_be l : all_bytes l = true → be_bytes (length l) (of_be l) = l.
Proof.
  induction l as [|x l IH]; [done|]. cbn [all_bytes forallb].
  rewrite andb_true_iff, is_byte_spec. intros [Hx Hl]. specialize (IH Hl).
  pose proof (of_be_bound l Hl) as Hb. unfold zlen in Hb.
  assert (E : of_be (x :: l) = x * 256 ^ Z.of_nat (length l) + of_be l).
  { unfold of_be at 1. cbn [fold_left]. rewrite of_be_acc. unfold zlen. lia. }
  cbn [length be_bytes]. rewrite E. f_equal.
  - rewrite Z.div_add_l, (Z.div_small (of_be l)), Z.add_0_r by lia. apply Z.mod_small. lia.
  - rewrite <-be_bytes_mod, Z.add_comm, Z_mod_plus_full, be_bytes_mod. done.
Qed.

(** ** Lexicographic byte order *)
Fixpoint bytes_cmp (a b : list Z) : comparison :=
  match a, b with
  | [], [] => Eq
  | [], _ :: _ => Lt
  | _ :: _, [] => Gt
  | x :: a, y :: b => then_cmp (x ?= y) (bytes_cmp a b)
  end.

Lemma bytes_cmp_refl a : bytes_cmp a a = Eq.
Proof. induction a as [|x a IH]; simpl; [done|]. by rewrite Z.compare_refl. Qed.

Lemma bytes_cmp_Eq a b : bytes_cmp a b = Eq ↔ a = b.
Proof.
  split; [|intros ->; apply bytes_cmp_refl].
  revert b. induction a as [|x a IH]; intros [|y b]; simpl; try done.
  rewrite then_cmp_Eq, Z.compare_eq_iff. intros [-> H]. f_equal. auto.
Qed.

Lemma bytes_cmp_antisym a b : bytes_cmp b a = CompOpp (bytes_cmp a b).
Proof.
  revert b. induction a as [|x a IH]; intros [|y b]; simpl; try done.
  by rewrite CompOpp_then, <-IH, (Z.compare_antisym x y).
Qed.

Lemma bytes_cmp_Lt_trans a b c : bytes_cmp a b = Lt → bytes_cmp b c = Lt → bytes_cmp a c = Lt.
Proof.
  revert b c. induction a as [|x a IH]; intros [|y b] [|z c]; simpl; try done.
  destruct (Z.compare_spec x y), (Z.compare_spec y z), (Z.compare_spec x z);
    simpl; intros; subst; try done; try lia; eauto.
Qed.

(** ** Order codes

    [code_cmp c a b]: the codes [a] and [b] are equal when [c] is [Eq], and
    otherwise neither is a prefix of the other and they compare as [c] at their
    first difference.  Unlike [bytes_cmp a b = c] this is preserved when codes
    are extended and is reversed when every byte is complemented. *)
Inductive code_cmp : comparison → list Z → list Z → Prop :=
  | cc_eq l : code_cmp Eq l l
  | cc_diff p x y s t c : c ≠ Eq → (x ?= y) = c → code_cmp c (p ++ x :: s) (p ++ y :: t).

Lemma code_cmp_bytes c a b : code_cmp c a b → bytes_cmp a b = c.
Proof.
  intros [l | p x y s t c' Hne <-]; [apply bytes_cmp_refl|].
  induction p as [|z p IH]; simpl.
  - by destruct (x ?= y).
  - by rewrite Z.compare_refl.
Qed.

Lemma code_cmp_app c d a b s t :
  code_cmp c a b → code_cmp d s t → code_cmp (then_cmp c d) (a ++ s) (b ++ t).
Proof.
  intros [l | p x y s' t' c' Hne <-] H2; simpl.
  - inversion H2; subst; [constructor|]. rewrite !app_assoc. by constructor.
  - rewrite <-!app_assoc. replace (then_cmp (x ?= y) d) with (x ?= y) by (by destruct (x ?= y)).
    by constructor.
Qed.

Lemma code_cmp_ne c a b s t : c ≠ Eq → code_cmp c a b → code_cmp c (a ++ s) (b ++ t).
Proof. intros Hc H. destruct H as [l | p x y s' t' c' Hne Hxy]; [done|]. rewrite <-!app_assoc. by constructor. Qed.

Lemma code_cmp_cons c x a b : code_cmp c a b → code_cmp c (x :: a) (x :: b).
Proof. intros [l | p y z s t c' Hne Hc]; [constructor|]. by apply (cc_diff (x :: p)). Qed.

Lemma code_cmp_byte x y s t : x ≠ y → code_cmp (x ?= y) (x :: s) (y :: t).
Proof. intros H. apply (cc_diff []); [|done]. by rewrite Z.compare_eq_iff. Qed.

(** [for byte in &mut output[start..] { *byte = !*byte }]. *)
Definition complement (l : list Z) : list Z := (λ b, 255 - b) <$> l.

Lemma code_cmp_complement c a b :
  code_cmp c a b → code_cmp (CompOpp c) (complement a) (complement b).
Proof.
  intros [l | p x y s t c' Hne <-]; [constructor|].
  unfold complement. rewrite !fmap_app, !fmap_cons. constructor.
  - by destruct (x ?= y).
  - rewrite <-Z.compare_antisym. destruct (Z.compare_spec (255 - x) (255 - y)),
      (Z.compare_spec y x); try done; lia.
Qed.

Lemma complement_all_bytes l : all_bytes l = true → all_bytes (complement l) = true.
Proof.
  rewrite !all_bytes_Forall. unfold complement. rewrite Forall_fmap.
  apply Forall_impl. simpl. lia.
Qed.

Lemma code_cmp_be n a b :
  0 ≤ a < 256 ^ Z.of_nat n → 0 ≤ b < 256 ^ Z.of_nat n →
  code_cmp (a ?= b) (be_bytes n a) (be_bytes n b).
Proof.
  revert a b. induction n as [|n IH]; intros a b Ha Hb.
  { simpl in *. replace b with a by lia. rewrite Z.compare_refl. constructor. }
  cbn [be_bytes]. rewrite Nat2Z.inj_succ, <-Z.add_1_r, Z.pow_add_r, Z.pow_1_r in * by lia.
  set (B := 256 ^ Z.of_nat n) in *. assert (HB : 0 < B) by (apply Z.pow_pos_nonneg; lia).
  rewrite !(Z.mod_small (_ / B)) by (split; [apply Z.div_pos | apply Z.div_lt_upper_bound]; lia).
  assert (Hda := Z.div_mod a B ltac:(lia)). assert (Hdb := Z.div_mod b B ltac:(lia)).
  assert (Hma := Z.mod_pos_bound a B HB). assert (Hmb := Z.mod_pos_bound b B HB).
  destruct (Z.eq_dec (a / B) (b / B)) as [E|E].
  - rewrite E. apply code_cmp_cons.
    rewrite <-(be_bytes_mod n a), <-(be_bytes_mod n b). fold B.
    replace (a ?= b) with (a `mod` B ?= b `mod` B); [by apply IH|].
    destruct (Z.compare_spec (a `mod` B) (b `mod` B)), (Z.compare_spec a b); try done; nia.
  - replace (a ?= b) with (a / B ?= b / B); [by apply code_cmp_byte|].
    destruct (Z.compare_spec (a / B) (b / B)), (Z.compare_spec a b); try done; nia.
Qed.

Create HintDb codes discriminated.
#[export] Hint Resolve code_cmp_app code_cmp_cons code_cmp_byte code_cmp_be
  code_cmp_complement : codes.
#[export] Hint Constructors code_cmp : codes.
