(* ===== verification/Text.v ===== *)
(** * Text

    Rust strings and the parts of [str] and [fmt] the sources use: the byte
    view of a string, byte order, UTF-8 validation ([std::str::from_utf8]),
    splitting, ASCII digits and decimal printing. *)
From Stdlib Require Import Ascii.
From S2P Require Import Prelude Bytes.

(** ** Strings as byte strings *)
Definition byte_of_ascii (c : ascii) : Z := Z.of_N (N_of_ascii c).
Definition ascii_of_byte (b : Z) : ascii := ascii_of_N (Z.to_N b).

(** [str::as_bytes]. *)
Fixpoint as_bytes (s : string) : list Z :=
  match s with
  | EmptyString => []
  | String c s => byte_of_ascii c :: as_bytes s
  end.

Fixpoint of_bytes (l : list Z) : string :=
  match l with
  | [] => EmptyString
  | b :: l => String (ascii_of_byte b) (of_bytes l)
  end.

(** [String::len], in bytes. *)
Definition str_len (s : string) : Z := zlen (as_bytes s).

(** [str]'s [Ord]: byte order. *)
Definition str_cmp (s t : string) : comparison := bytes_cmp (as_bytes s) (as_bytes t).
Definition str_ltb (s t : string) : bool :=
  match str_cmp s t with Lt => true | _ => false end.

Lemma byte_of_ascii_range c : 0 ≤ byte_of_ascii c < 256.
Proof. unfold byte_of_ascii. pose proof (N_ascii_bounded c). lia. Qed.

Lemma ascii_of_byte_of_ascii c : ascii_of_byte (byte_of_ascii c) = c.
Proof. unfold ascii_of_byte, byte_of_ascii. by rewrite N2Z.id, ascii_N_embedding. Qed.

Lemma byte_of_ascii_of_byte b : 0 ≤ b < 256 → byte_of_ascii (ascii_of_byte b) = b.
Proof.
  intros H. unfold ascii_of_byte, byte_of_ascii.
  rewrite N_ascii_embedding by lia. lia.
Qed.

Lemma of_bytes_as_bytes s : of_bytes (as_bytes s) = s.
Proof. induction s; simpl; [done|]. by rewrite ascii_of_byte_of_ascii, IHs. Qed.

Lemma as_bytes_of_bytes l : all_bytes l = true → as_bytes (of_bytes l) = l.
Proof.
  induction l as [|b l IH]; simpl; [done|]. rewrite andb_true_iff, is_byte_spec.
  intros [Hb Hl]. by rewrite byte_of_ascii_of_byte, IH.
Qed.

Lemma as_bytes_all_bytes s : all_bytes (as_bytes s) = true.
Proof.
  induction s; simpl; [done|]. rewrite IHs, andb_true_r.
  apply is_byte_spec, byte_of_ascii_range.
Qed.

Global Instance as_bytes_inj : Inj (=) (=) as_bytes.
Proof. intros s t H. by rewrite <-(of_bytes_as_bytes s), H, of_bytes_as_bytes. Qed.

Lemma str_cmp_Eq s t : str_cmp s t = Eq ↔ s = t.
Proof. unfold str_cmp. rewrite bytes_cmp_Eq. split; [apply (inj as_bytes) | by intros ->]. Qed.

Lemma str_cmp_refl s : str_cmp s s = Eq.
Proof. by apply str_cmp_Eq. Qed.

Lemma str_cmp_antisym s t : str_cmp t s = CompOpp (str_cmp s t).
Proof. apply bytes_cmp_antisym. Qed.

Lemma str_cmp_trans s t u : str_cmp s t = Lt → str_cmp t u = Lt → str_cmp s u = Lt.
Proof. apply bytes_cmp_Lt_trans. Qed.

(** ** UTF-8 ([std::str::from_utf8])

    One scalar value at a time, with the lead and continuation ranges of the
    Unicode well-formedness table (no overlong forms, no surrogates, nothing
    above U+10FFFF). *)
Definition cont (b : Z) : bool := in_range 128 191 b.

Fixpoint utf8_go (fuel : nat) (l : list Z) : bool :=
  match fuel with
  | O => false
  | S fuel =>
      match l with
      | [] => true
      | b0 :: r =>
          if in_range 0 127 b0 then utf8_go fuel r
          else match r with
          | [] => false
          | b1 :: r =>
              if in_range 194 223 b0 then cont b1 && utf8_go fuel r
              else match r with
              | [] => false
              | b2 :: r =>
                  if b0 =? 224 then in_range 160 191 b1 && cont b2 && utf8_go fuel r
                  else if b0 =? 237 then in_range 128 159 b1 && cont b2 && utf8_go fuel r
                  else if in_range 225 239 b0 then cont b1 && cont b2 && utf8_go fuel r
                  else match r with
                  | [] => false
                  | b3 :: r =>
                      if b0 =? 240 then in_range 144 191 b1 && cont b2 && cont b3 && utf8_go fuel r
                      else if in_range 241 243 b0 then cont b1 && cont b2 && cont b3 && utf8_go fuel r
                      else if b0 =? 244 then in_range 128 143 b1 && cont b2 && cont b3 && utf8_go fuel r
                      else false
                  end
              end
          end
      end
  end.

Definition utf8_valid (l : list Z) : bool := utf8_go (S (length l)) l.

Definition from_utf8 (l : list Z) : option string :=
  if utf8_valid l then Some (of_bytes l) else None.

(** A [String] holds valid UTF-8. *)
Definition wf_string (s : string) : bool := utf8_valid (as_bytes s).

Lemma from_utf8_as_bytes s : wf_string s = true → from_utf8 (as_bytes s) = Some s.
Proof. unfold wf_string, from_utf8. intros ->. by rewrite of_bytes_as_bytes. Qed.

Lemma from_utf8_wf l s :
  all_bytes l = true → from_utf8 l = Some s → wf_string s = true ∧ as_bytes s = l.
Proof.
  intros Hl. unfold from_utf8, wf_string. destruct (utf8_valid l) eqn:E; [|done].
  intros [= <-]. rewrite as_bytes_of_bytes by done. done.
Qed.

(** ** Splitting *)

(** [str::split_once] on bytes. *)
Fixpoint split_once (sep : Z) (l : list Z) : option (list Z * list Z) :=
  match l with
  | [] => None
  | b :: l => if b =? sep then Some ([], l)
              else prod_map (cons b) id <$> split_once sep l
  end.

(** [str::strip_prefix] with a one-byte character. *)
Definition strip_byte (b : Z) (l : list Z) : option (list Z) :=
  match l with
  | c :: r => if c =? b then Some r else None
  | [] => None
  end.

(** [str::rsplit_once] with a single-character separator. *)
Fixpoint rsplit_once (sep : ascii) (s : string) : option (string * string) :=
  match s with
  | EmptyString => None
  | String c s' =>
      match rsplit_once sep s' with
      | Some (q, n) => Some (String c q, n)
      | None => if Ascii.eqb c sep then Some (EmptyString, s') else None
      end
  end.

Lemma split_once_app sep a r :
  Forall (λ b, b ≠ sep) a → split_once sep (a ++ sep :: r) = Some (a, r).
Proof.
  induction 1 as [|b a Hb Ha IH]; simpl; [by rewrite Z.eqb_refl|].
  destruct (Z.eqb_spec b sep); [done|]. by rewrite IH.
Qed.

Lemma split_once_None sep a : Forall (λ b, b ≠ sep) a → split_once sep a = None.
Proof.
  induction 1 as [|b a Hb Ha IH]; simpl; [done|].
  destruct (Z.eqb_spec b sep); [done|]. by rewrite IH.
Qed.

(** ** Decimal digits *)
Definition is_digit (b : Z) : bool := in_range 48 57 b.
Definition all_digits (l : list Z) : bool := forallb is_digit l.
Definition parse_digits (l : list Z) : Z := fold_left (λ n b, n * 10 + (b - 48)) l 0.

Fixpoint show_go (fuel : nat) (z : Z) (acc : list Z) : list Z :=
  match fuel with
  | O => acc
  | S fuel => if z <? 10 then 48 + z :: acc
              else show_go fuel (z / 10) (48 + z `mod` 10 :: acc)
  end.

(** [{}] of a non-negative integer. *)
Definition show_nat (z : Z) : list Z := show_go (S (S (Z.to_nat (Z.log2 z)))) z [].

(** [{:0width$}]. *)
Definition pad0 (w : nat) (l : list Z) : list Z := replicate (w - length l) 48 ++ l.

Lemma is_digit_spec b : is_digit b = true ↔ 48 ≤ b ≤ 57.
Proof. apply in_range_spec. Qed.

Lemma all_digits_Forall l : all_digits l = true ↔ Forall (λ b, 48 ≤ b ≤ 57) l.
Proof.
  unfold all_digits. rewrite forallb_forall, Forall_forall. by setoid_rewrite is_digit_spec.
Qed.

Lemma parse_digits_acc l acc :
  fold_left (λ n b, n * 10 + (b - 48)) l acc = acc * 10 ^ zlen l + parse_digits l.
Proof.
  unfold parse_digits. revert acc. induction l as [|x l IH]; intros acc; cbn [fold_left].
  - unfold zlen; simpl. lia.
  - rewrite IH, (IH (0 * 10 + _)), zlen_cons, Z.pow_add_r by (try apply zlen_nonneg; lia). lia.
Qed.

Lemma parse_digits_app l k : parse_digits (l ++ k) = parse_digits l * 10 ^ zlen k + parse_digits k.
Proof. unfold parse_digits at 1. by rewrite fold_left_app, parse_digits_acc. Qed.

Lemma parse_digits_cons x l : parse_digits (x :: l) = (x - 48) * 10 ^ zlen l + parse_digits l.
Proof. unfold parse_digits at 1. cbn [fold_left]. by rewrite parse_digits_acc, Z.mul_0_l, Z.add_0_l. Qed.

Lemma parse_digits_bound l : all_digits l = true → 0 ≤ parse_digits l < 10 ^ zlen l.
Proof.
  induction l as [|x l IH]; cbn [all_digits forallb]; [unfold zlen, parse_digits; simpl; lia|].
  rewrite andb_true_iff, is_digit_spec, parse_digits_cons, zlen_cons.
  intros [Hx Hl]. specialize (IH Hl). rewrite Z.pow_add_r by (try apply zlen_nonneg; lia). nia.
Qed.

Lemma parse_digits_zeros n : parse_digits (replicate n 48) = 0.
Proof. induction n as [|n IH]; [done|]. cbn [replicate]. rewrite parse_digits_cons, IH. lia. Qed.

Lemma parse_digits_pad0 w l : parse_digits (pad0 w l) = parse_digits l.
Proof. unfold pad0. by rewrite parse_digits_app, parse_digits_zeros. Qed.

(** What [show_go] writes: digits that read back as [z], before [acc]. *)
Lemma show_go_spec fuel z acc :
  0 ≤ z → z < 2 ^ Z.of_nat fuel →
  ∃ ds, show_go (S fuel) z acc = ds ++ acc ∧ all_digits ds = true ∧ parse_digits ds = z ∧
        (1 ≤ length ds)%nat ∧ ∀ w, 0 < w → z < 10 ^ w → zlen ds ≤ w.
Proof.
  revert z acc. induction fuel as [|fuel IH]; intros z acc Hz Hf; cbn [show_go].
  - simpl in Hf. assert (z = 0) as -> by lia. exists [48]. split_and!; try done. intros; unfold zlen; simpl; lia.
  - destruct (Z.ltb_spec z 10) as [Hlt|Hge].
    + exists [48 + z]. split_and!; [done| | | |].
      * cbn. rewrite andb_true_r. apply is_digit_spec. lia.
      * rewrite parse_digits_cons. unfold zlen, parse_digits; simpl. lia.
      * simpl; lia.
      * intros; unfold zlen; simpl; lia.
    + destruct (IH (z / 10) (48 + z `mod` 10 :: acc)) as (ds & E & Hd & Hp & Hl & Hw).
      * apply Z.div_pos; lia.
      * rewrite Nat2Z.inj_succ, Z.pow_succ_r in Hf by lia. apply Z.div_lt_upper_bound; lia.
      * pose proof (Z.mod_pos_bound z 10 ltac:(lia)) as Hm.
        exists (ds ++ [48 + z `mod` 10]). split_and!.
        -- change (show_go (S fuel) (z / 10) (48 + z `mod` 10 :: acc) = (ds ++ [48 + z `mod` 10]) ++ acc).
           by rewrite E, <-app_assoc.
        -- unfold all_digits in *. rewrite forallb_app, Hd. cbn. rewrite andb_true_r. apply is_digit_spec. lia.
        -- rewrite parse_digits_app, Hp. unfold zlen, parse_digits; cbn -[Z.mul Z.add Z.sub Z.div Z.modulo].
           pose proof (Z.div_mod z 10). lia.
        -- rewrite length_app; simpl; lia.
        -- intros w Hw0 Hzw. rewrite zlen_app. change (zlen [48 + z `mod` 10]) with 1.
           assert (w ≠ 1) by (intros ->; rewrite Z.pow_1_r in Hzw; lia).
           enough (zlen ds ≤ w - 1) by lia. apply Hw; [lia|].
           apply Z.div_lt_upper_bound; [lia|].
           by rewrite <-Z.pow_succ_r, Z.sub_1_r, Z.succ_pred by lia.
Qed.

Lemma show_nat_spec z :
  0 ≤ z → all_digits (show_nat z) = true ∧ parse_digits (show_nat z) = z ∧
          (1 ≤ length (show_nat z))%nat ∧ ∀ w, 0 < w → z < 10 ^ w → zlen (show_nat z) ≤ w.
Proof.
  intros Hz. unfold show_nat.
  destruct (show_go_spec (S (Z.to_nat (Z.log2 z))) z []) as (ds & -> & H); [lia| |].
  - rewrite Nat2Z.inj_succ, Z2Nat.id by apply Z.log2_nonneg.
    destruct (decide (z = 0)) as [->|Hn]; [done|]. apply Z.log2_spec. lia.
  - by rewrite app_nil_r.
Qed.

Lemma show_nat_digits z : 0 ≤ z → all_digits (show_nat z) = true.
Proof. apply show_nat_spec. Qed.

Lemma parse_show_nat z : 0 ≤ z → parse_digits (show_nat z) = z.
Proof. apply show_nat_spec. Qed.

Lemma show_nat_length_le z w : 0 < w → 0 ≤ z < 10 ^ w → zlen (show_nat z) ≤ w.
Proof. intros Hw [Hz Hlt]. by apply (show_nat_spec z Hz). Qed.

Lemma show_nat_nonempty z : 0 ≤ z → show_nat z ≠ [].
Proof. intros Hz. destruct (show_nat_spec z Hz) as (_ & _ & Hl & _). destruct (show_nat z); [simpl in Hl; lia | done]. Qed.

Lemma pad0_digits w l : all_digits l = true → all_digits (pad0 w l) = true.
Proof.
  intros H. unfold pad0, all_digits in *. rewrite forallb_app, H, andb_true_r.
  induction (w - length l)%nat; simpl; auto.
Qed.

Lemma pad0_length w z :
  (0 < w)%nat → 0 ≤ z < 10 ^ Z.of_nat w → length (pad0 w (show_nat z)) = w.
Proof.
  intros Hw Hz. unfold pad0. rewrite length_app, length_replicate.
  pose proof (show_nat_length_le z (Z.of_nat w) ltac:(lia) Hz) as H. unfold zlen in H. lia.
Qed.

Lemma parse_digits_inj l k :
  length l = length k → all_digits l = true → all_digits k = true →
  parse_digits l = parse_digits k → l = k.
Proof.
  revert k. induction l as [|x l IH]; intros [|y k] Hl; try done.
  cbn [all_digits forallb]. rewrite !andb_true_iff, !is_digit_spec, !parse_digits_cons.
  injection Hl as Hl. assert (Hz : zlen l = zlen k) by (unfold zlen; lia). rewrite Hz.
  intros [Hx Hdl] [Hy Hdk] E.
  pose proof (parse_digits_bound l Hdl) as Bl. pose proof (parse_digits_bound k Hdk) as Bk.
  rewrite Hz in Bl. assert (x = y) by nia. subst y. f_equal. apply IH; auto. lia.
Qed.

Lemma pad0_show_parse l :
  l ≠ [] → all_digits l = true → pad0 (length l) (show_nat (parse_digits l)) = l.
Proof.
  intros Hne Hd. pose proof (parse_digits_bound l Hd) as Hb. unfold zlen in Hb.
  assert (0 < length l)%nat by (destruct l; simpl; [done|lia]).
  apply parse_digits_inj; [by apply pad0_length|..|done|].
  - apply pad0_digits, show_nat_digits. lia.
  - rewrite parse_digits_pad0. apply parse_show_nat. lia.
Qed.
