(* ===== verification/Utf8.v ===== *)
(** * UTF-8 text as a sequence of characters

    A valid byte string is the concatenation of the encodings of its characters:
    what [str] slicing at character boundaries, concatenation and ASCII printing
    rely on. *)
From Stdlib Require Import ZifyBool.
From S2P Require Import Prelude Bytes Text.

(** The encoding of one scalar value. *)
Definition utf8_char (c : list Z) : bool :=
  match c with
  | [b0] => in_range 0 127 b0
  | [b0; b1] => in_range 194 223 b0 && cont b1
  | [b0; b1; b2] =>
      cont b2 && (if b0 =? 224 then in_range 160 191 b1
                  else if b0 =? 237 then in_range 128 159 b1
                  else in_range 225 239 b0 && cont b1)
  | [b0; b1; b2; b3] =>
      cont b2 && cont b3 && (if b0 =? 240 then in_range 144 191 b1
                             else if b0 =? 244 then in_range 128 143 b1
                             else in_range 241 243 b0 && cont b1)
  | _ => false
  end.

(** Split the range tests of a hypothesis and leave linear arithmetic on booleans. *)
Ltac range_lia := unfold cont, in_range in *; repeat case_match; simplify_eq/=; try lia.

Lemma utf8_go_chunks fuel l :
  utf8_go fuel l = true → ∃ chunks, l = concat chunks ∧ Forall (λ c, utf8_char c = true) chunks.
Proof.
  revert l. induction fuel as [|fuel IH]; intros l H; [done|]. cbn [utf8_go] in H.
  destruct l as [|b0 r0]; [by exists []|].
  assert (Hstep : ∀ c r, b0 :: r0 = c ++ r → utf8_char c = true → utf8_go fuel r = true →
    ∃ chunks, b0 :: r0 = concat chunks ∧ Forall (λ c, utf8_char c = true) chunks).
  { intros c r -> Hc Hr. destruct (IH r Hr) as (chunks & -> & Hall). exists (c :: chunks). split; [done|by constructor]. }
  case_if_in H; [by apply (Hstep [b0] r0)|]. destruct r0 as [|b1 r1]; [done|].
  case_if_in H; [bool_inv; apply (Hstep [b0; b1] r1); try done; simpl; by rewrite E0, H|].
  destruct r1 as [|b2 r2]; [done|].
  destruct (b0 =? 224) eqn:E224; [bool_inv; apply (Hstep [b0; b1; b2] r2); try done; simpl; by rewrite H1, (proj2 (Z.eqb_eq _ _) E224), H|].
  destruct (b0 =? 237) eqn:E237; [bool_inv; apply (Hstep [b0; b1; b2] r2); try done; simpl; by rewrite H1, (proj2 (Z.eqb_neq _ _) E224), (proj2 (Z.eqb_eq _ _) E237), H|].
  case_if_in H; [bool_inv; apply (Hstep [b0; b1; b2] r2); try done; simpl;
    by rewrite H1, (proj2 (Z.eqb_neq _ _) E224), (proj2 (Z.eqb_neq _ _) E237), E1, H|].
  destruct r2 as [|b3 r3]; [done|].
  destruct (b0 =? 240) eqn:E240; [bool_inv; apply (Hstep [b0; b1; b2; b3] r3); try done; simpl; by rewrite H2, H1, (proj2 (Z.eqb_eq _ _) E240), H|].
  case_if_in H.
  { bool_inv. apply (Hstep [b0; b1; b2; b3] r3); try done. simpl. rewrite H2, H1, (proj2 (Z.eqb_neq _ _) E240), E2, H.
    destruct (Z.eqb_spec b0 244); [|done]. subst. done. }
  destruct (b0 =? 244) eqn:E244; [|done]. bool_inv. apply (Hstep [b0; b1; b2; b3] r3); try done. simpl.
  by rewrite H2, H1, (proj2 (Z.eqb_neq _ _) E240), (proj2 (Z.eqb_eq _ _) E244), H.
Qed.

Lemma utf8_char_cons c :
  utf8_char c = true → ∃ b0 r, c = b0 :: r ∧ cont b0 = false ∧ forallb cont r = true.
Proof.
  intros H. destruct c as [|b0 [|b1 [|b2 [|b3 [|b4 r]]]]]; try done; exists b0; eexists; (split; [done|]); simpl in H |- *;
    range_lia.
Qed.

Lemma utf8_go_cons fuel c r : utf8_char c = true → utf8_go fuel r = true → utf8_go (S fuel) (c ++ r) = true.
Proof.
  intros H Hr. destruct c as [|b0 [|b1 [|b2 [|b3 [|b4 c]]]]]; try done; simpl in H; cbn [utf8_go app].
  - by rewrite H.
  - bool_inv. rewrite H, H0, Hr. range_lia.
  - bool_inv. rewrite Hr, H, !andb_true_r. range_lia.
  - bool_inv. rewrite Hr, H, H1, !andb_true_r. range_lia.
Qed.

Lemma utf8_go_fuel fuel fuel' l : (fuel ≤ fuel')%nat → utf8_go fuel l = true → utf8_go fuel' l = true.
Proof.
  revert fuel' l. induction fuel as [|fuel IH]; intros fuel' l Hle H; [done|]. destruct fuel' as [|fuel']; [lia|].
  cbn [utf8_go] in *. repeat (case_match; try done); bool_inv; rewrite ?andb_true_iff; split_and?; eauto with lia.
Qed.

Lemma utf8_chunks l : utf8_valid l = true ↔ ∃ chunks, l = concat chunks ∧ Forall (λ c, utf8_char c = true) chunks.
Proof.
  split; [apply utf8_go_chunks|]. intros (chunks & -> & Hall). unfold utf8_valid.
  assert (H : utf8_go (S (length chunks)) (concat chunks) = true).
  { induction Hall as [|c chunks Hc _ IH]; [done|]. cbn [concat length]. by apply utf8_go_cons. }
  eapply utf8_go_fuel; [|done]. apply le_n_S. clear H.
  induction Hall as [|c chunks Hc _ IH]; [done|]. cbn [concat length]. rewrite length_app.
  destruct (utf8_char_cons _ Hc) as (b0 & r & -> & _). simpl. lia.
Qed.

Lemma utf8_app a b : utf8_valid a = true → utf8_valid b = true → utf8_valid (a ++ b) = true.
Proof.
  rewrite !utf8_chunks. intros (ca & -> & Ha) (cb & -> & Hb). exists (ca ++ cb). by rewrite concat_app, Forall_app.
Qed.

Lemma utf8_ascii l : Forall (λ b, 0 ≤ b < 128) l → utf8_valid l = true.
Proof.
  intros H. apply utf8_chunks. exists ((λ b, [b]) <$> l). split.
  - induction l as [|b l IH]; [done|]. simpl. f_equal. apply IH. by inversion H.
  - apply list.Forall_fmap. revert H. apply Forall_impl. simpl. intros b Hb. apply in_range_spec. lia.
Qed.

Lemma as_bytes_app s t : as_bytes (s +:+ t) = as_bytes s ++ as_bytes t.
Proof. induction s as [|c s IH]; [done|]. change (String c s +:+ t) with (String c (s +:+ t)). simpl. by rewrite IH. Qed.

Lemma wf_string_app s t : wf_string s = true → wf_string t = true → wf_string (s +:+ t) = true.
Proof. unfold wf_string. rewrite as_bytes_app. apply utf8_app. Qed.

Lemma wf_string_of_bytes l : all_bytes l = true → utf8_valid l = true → wf_string (of_bytes l) = true.
Proof. intros Hb Hu. unfold wf_string. by rewrite as_bytes_of_bytes. Qed.

Lemma wf_string_ascii l : Forall (λ b, 0 ≤ b < 128) l → wf_string (of_bytes l) = true.
Proof.
  intros H. apply wf_string_of_bytes; [|by apply utf8_ascii]. apply all_bytes_Forall. revert H. apply Forall_impl. lia.
Qed.
