(* ===== verification/Decimal.v ===== *)
(** * Exact decimals (src/src/scalars/decimal.rs)

    Coefficient-and-scale decimals with checked arithmetic.  [num_bigint]'s
    [BigInt] is [Z]; [i128] operations keep their overflow checks. *)
From S2P Require Import Prelude Bytes Text.

Inductive DecimalRounding :=
  | Exact | TowardZero | AwayFromZero | Floor | Ceil | HalfUp | HalfEven.

Global Instance DecimalRounding_eq_dec : EqDecision DecimalRounding.
Proof. solve_decision. Defined.

Definition rounding_as_str (r : DecimalRounding) : string :=
  match r with
  | Exact => "exact" | TowardZero => "toward_zero" | AwayFromZero => "away_from_zero"
  | Floor => "floor" | Ceil => "ceil" | HalfUp => "half_up" | HalfEven => "half_even"
  end.

Definition rounding_from_str (s : string) : result DecimalRounding :=
  if String.eqb s "exact" then Ok Exact
  else if String.eqb s "toward_zero" then Ok TowardZero
  else if String.eqb s "away_from_zero" then Ok AwayFromZero
  else if String.eqb s "floor" then Ok Floor
  else if String.eqb s "ceil" then Ok Ceil
  else if String.eqb s "half_up" then Ok HalfUp
  else if String.eqb s "half_even" then Ok HalfEven
  else Err "E_DECIMAL_ROUNDING".

Record Decimal := mkDecimal { coefficient : Z; scale : Z }.

Global Instance Decimal_eq_dec : EqDecision Decimal.
Proof. solve_decision. Defined.

Definition power_of_ten (exponent : Z) : Z := 10 ^ exponent.

Definition round_ratio (numerator denominator : Z) (rounding : DecimalRounding) : result Z :=
  if denominator =? 0 then Err "E_ARITH"
  else
    let negative := xorb (numerator <? 0) (denominator <? 0) in
    let numerator := Z.abs numerator in
    let denominator := Z.abs denominator in
    let quotient := numerator / denominator in
    let remainder := numerator `mod` denominator in
    if remainder =? 0 then Ok (if negative then - quotient else quotient)
    else if bool_decide (rounding = Exact) then Err "E_ARITH"
    else
      let increment :=
        match rounding with
        | Exact | TowardZero => false
        | AwayFromZero => true
        | Floor => negative
        | Ceil => negb negative
        | HalfUp => denominator <=? remainder * 2
        | HalfEven =>
            let doubled := remainder * 2 in
            (denominator <? doubled)
            || ((doubled =? denominator) && negb (quotient `mod` 2 =? 0))
        end in
      let rounded := quotient + (if increment then 1 else 0) in
      Ok (if negative then - rounded else rounded).

Definition validate_type (precision scale : Z) : result unit :=
  if negb (in_range 1 38 precision) || (scale >? precision) then Err "E_DECIMAL_TYPE"
  else Ok tt.

(** [Decimal::new]. *)
Definition decimal_new (coefficient precision scale : Z) : result Decimal :=
  _ ← validate_type precision scale;
  if Z.abs coefficient >=? 10 ^ precision then Err "E_DECIMAL_RANGE"
  else Ok (mkDecimal coefficient scale).

(** [checked_ilog10().unwrap_or(0)] of an unsigned integer. *)
Fixpoint ilog10_go (fuel : nat) (z : Z) : Z :=
  match fuel with
  | O => 0
  | S fuel => if z <? 10 then 0 else 1 + ilog10_go fuel (z / 10)
  end.
Definition ilog10 (z : Z) : Z := ilog10_go (Z.to_nat (Z.log2 z)) z.

Definition precision (d : Decimal) : Z :=
  Z.max (ilog10 (Z.abs (coefficient d)) + 1) (scale d).

(** The digit loop of [Decimal::parse], in [i128]. *)
Definition parse_coefficient (digits : list Z) : result Z :=
  foldR (λ n digit,
    ok_or (m ← checked is_i128 (n * 10); checked is_i128 (m + (digit - 48)))
          "E_DECIMAL_RANGE") 0 digits.

Definition decimal_parse (source : list Z) (precision scale : Z) : result Decimal :=
  _ ← validate_type precision scale;
  let negative := bool_decide (is_Some (strip_byte 45 source)) in
  let body := default source (strip_byte 45 source) in
  '(integer, fraction) ←
    match split_once 46 body with
    | Some (integer, fraction) =>
        if bool_decide (fraction = []) then Err "E_DECIMAL_RANGE" else Ok (integer, fraction)
    | None => Ok (body, [])
    end;
  if bool_decide (integer = []) || negb (all_digits (integer ++ fraction))
  then Err "E_DECIMAL_RANGE"
  else if existsb (λ b, negb (b =? 48)) (drop (Z.to_nat scale) fraction)
  then Err "E_DECIMAL_RANGE"
  else
    n ← parse_coefficient (integer ++ take (Z.to_nat scale) fraction);
    let padding := sat_sub scale (zlen fraction) in
    n ← ok_or (checked is_i128 (n * 10 ^ padding)) "E_DECIMAL_RANGE";
    decimal_new (if negative then - n else n) precision scale.

Definition decimal_infer (source : list Z) : result Decimal :=
  let scale := match split_once 46 source with Some (_, f) => zlen f | None => 0 end in
  if scale >? 38 then Err "E_DECIMAL_RANGE" else decimal_parse source 38 scale.

Definition rescale (d : Decimal) (precision s : Z) : result Decimal :=
  _ ← validate_type precision s;
  c ← (if s >=? scale d
       then ok_or (checked is_i128 (coefficient d * 10 ^ (s - scale d))) "E_DECIMAL_RANGE"
       else
         let divisor := 10 ^ (scale d - s) in
         if negb (Z.rem (coefficient d) divisor =? 0) then Err "E_DECIMAL_RANGE"
         else Ok (Z.quot (coefficient d) divisor));
  decimal_new c precision s.

Definition from_bigint (c precision s : Z) : result Decimal :=
  c ← ok_or (checked is_i128 c) "E_ARITH";
  match decimal_new c precision s with
  | Ok d => Ok d
  | Err e => if String.eqb e "E_DECIMAL_RANGE" then Err "E_ARITH" else Err e
  end.

Definition rescale_with_rounding (d : Decimal) (precision s : Z) (r : DecimalRounding)
    : result Decimal :=
  _ ← validate_type precision s;
  c ← (if s >=? scale d
       then Ok (coefficient d * power_of_ten (s - scale d))
       else round_ratio (coefficient d) (power_of_ten (scale d - s)) r);
  from_bigint c precision s.

Definition checked_mul_to (d e : Decimal) (precision s : Z) (r : DecimalRounding)
    : result Decimal :=
  _ ← validate_type precision s;
  let product := coefficient d * coefficient e in
  let source_scale := scale d + scale e in
  c ← (if s >=? source_scale
       then Ok (product * power_of_ten (s - source_scale))
       else round_ratio product (power_of_ten (source_scale - s)) r);
  from_bigint c precision s.

Definition checked_div_to (d e : Decimal) (precision s : Z) (r : DecimalRounding)
    : result Decimal :=
  _ ← validate_type precision s;
  if coefficient e =? 0 then Err "E_ARITH"
  else
    let numerator_exponent := s + scale e in
    let denominator_exponent := scale d in
    let '(numerator, denominator) :=
      if numerator_exponent >=? denominator_exponent
      then (coefficient d * power_of_ten (numerator_exponent - denominator_exponent), coefficient e)
      else (coefficient d, coefficient e * power_of_ten (denominator_exponent - numerator_exponent)) in
    c ← round_ratio numerator denominator r;
    from_bigint c precision s.

Definition average_coefficients (c source_scale count precision s : Z) (r : DecimalRounding)
    : result Decimal :=
  _ ← validate_type precision s;
  let '(numerator, denominator) :=
    if s >=? source_scale
    then (c * power_of_ten (s - source_scale), count)
    else (c, count * power_of_ten (source_scale - s)) in
  c ← round_ratio numerator denominator r;
  from_bigint c precision s.

Definition checked_add (d e : Decimal) : result Decimal :=
  if negb (scale d =? scale e) then Err "E_TYPE"
  else
    c ← ok_or (checked is_i128 (coefficient d + coefficient e)) "E_ARITH";
    map_err "E_ARITH" (decimal_new c 38 (scale d)).

Definition checked_sub (d e : Decimal) : result Decimal :=
  if negb (scale d =? scale e) then Err "E_TYPE"
  else
    c ← ok_or (checked is_i128 (coefficient d - coefficient e)) "E_ARITH";
    map_err "E_ARITH" (decimal_new c 38 (scale d)).

Definition checked_neg (d : Decimal) : result Decimal :=
  c ← ok_or (checked is_i128 (- coefficient d)) "E_ARITH";
  map_err "E_ARITH" (decimal_new c 38 (scale d)).

(** [Display]. *)
Definition decimal_display (d : Decimal) : list Z :=
  let sign := if coefficient d <? 0 then [45] else [] in
  let unsigned := Z.abs (coefficient d) in
  if scale d =? 0 then sign ++ show_nat unsigned
  else
    let divisor := 10 ^ scale d in
    sign ++ show_nat (unsigned / divisor) ++ 46 :: pad0 (Z.to_nat (scale d)) (show_nat (unsigned `mod` divisor)).

(** The invariant of the type: every constructor goes through [Decimal::new]. *)
Definition wf_decimal (d : Decimal) : bool :=
  (Z.abs (coefficient d) <? 10 ^ 38) && in_range 0 38 (scale d).

(** ** Specification of rounding

    [rounds_to r n d q]: [q] is the rational [n/d] rounded in mode [r]. *)
Definition rounds_to (r : DecimalRounding) (n d q : Z) : Prop :=
  match r with
  | Exact => q * d = n
  | TowardZero => Z.abs (q * d) ≤ Z.abs n ∧ Z.abs (n - q * d) < Z.abs d
  | AwayFromZero => Z.abs n ≤ Z.abs (q * d) ∧ Z.abs (n - q * d) < Z.abs d
  | Floor => 0 ≤ (n - q * d) * Z.sgn d < Z.abs d
  | Ceil => 0 ≤ (q * d - n) * Z.sgn d < Z.abs d
  | HalfUp => 2 * Z.abs (n - q * d) ≤ Z.abs d ∧
              (2 * Z.abs (n - q * d) = Z.abs d → Z.abs n ≤ Z.abs (q * d))
  | HalfEven => 2 * Z.abs (n - q * d) ≤ Z.abs d ∧
              (2 * Z.abs (n - q * d) = Z.abs d → Z.even q = true)
  end.

(** The magnitude that [round_ratio] rounds: quotient, remainder, increment. *)
Lemma round_ratio_Ok n d r q :
  round_ratio n d r = Ok q →
  ∃ a b k neg, 0 < b ∧ 0 ≤ a ∧ a = Z.abs n ∧ b = Z.abs d ∧ neg = xorb (n <? 0) (d <? 0) ∧
    q = (if neg : bool then - (a / b + k) else a / b + k) ∧
    (a `mod` b = 0 ∧ k = 0 ∨
     a `mod` b ≠ 0 ∧ r ≠ Exact ∧
     k = match r with
         | Exact | TowardZero => 0 | AwayFromZero => 1
         | Floor => if neg then 1 else 0 | Ceil => if neg then 0 else 1
         | HalfUp => if b <=? a `mod` b * 2 then 1 else 0
         | HalfEven => if (b <? a `mod` b * 2)
             || ((a `mod` b * 2 =? b) && negb ((a / b) `mod` 2 =? 0)) then 1 else 0
         end).
Proof.
  unfold round_ratio. destruct (Z.eqb_spec d 0) as [|Hd]; [done|].
  destruct (Z.eqb_spec (Z.abs n `mod` Z.abs d) 0) as [Hr|Hr].
  - intros [= <-]. exists (Z.abs n), (Z.abs d), 0, (xorb (n <? 0) (d <? 0)).
    rewrite Z.add_0_r. split_and!; try lia; try done.
  - case_bool_decide as Hx; [done|]. intros [= <-].
    eexists (Z.abs n), (Z.abs d), _, (xorb (n <? 0) (d <? 0)).
    split_and!; try lia; try done. right. split_and!; try done.
    by destruct r, (n <? 0), (d <? 0).
Qed.

Lemma abs_cases n d (neg : bool) :
  neg = xorb (n <? 0) (d <? 0) → d ≠ 0 →
  ∃ s t, (s = 1 ∨ s = -1) ∧ (t = 1 ∨ t = -1) ∧ n = s * Z.abs n ∧ d = t * Z.abs d ∧ Z.sgn d = t ∧
         (if neg then s * t = -1 else s * t = 1).
Proof.
  intros -> Hd. exists (if n <? 0 then -1 else 1), (if d <? 0 then -1 else 1).
  destruct (Z.ltb_spec n 0), (Z.ltb_spec d 0); simpl; split_and!; lia.
Qed.

Lemma round_ratio_rounds n d r q : round_ratio n d r = Ok q → rounds_to r n d q.
Proof.
  intros (a & b & k & neg & Hb & Ha & Ea & Eb & Hneg & Hq & Hk)%round_ratio_Ok.
  destruct (abs_cases n d neg Hneg ltac:(lia)) as (s & t & Hs & Ht & Hn & Hd & Hsgn & Hst).
  rewrite <-Ea in Hn. rewrite <-Eb in Hd.
  pose proof (Z.div_mod a b ltac:(lia)) as Hdm. pose proof (Z.mod_pos_bound a b Hb) as Hm.
  set (Q := a / b) in *. set (R := a `mod` b) in *.
  assert (HQ : 0 ≤ Q) by (apply Z.div_pos; lia).
  assert (Hqd : q * d = s * ((Q + k) * b)).
  { destruct neg; subst q; rewrite Hd; destruct Hs as [-> | ->], Ht as [-> | ->]; lia. }
  assert (Hdiff : n - q * d = s * (R - k * b)) by (rewrite Hqd, Hn, Hdm; ring).
  assert (Habsqd : 0 ≤ k → Z.abs (q * d) = Q * b + k * b).
  { intros Hk0. rewrite Hqd. destruct Hs as [-> | ->]; [rewrite Z.abs_eq|rewrite Z.abs_neq]; nia. }
  assert (Habsn : Z.abs n = b * Q + R) by lia.
  assert (HkB : 0 ≤ k ≤ 1).
  { destruct Hk as [[_ ->]|(_ & _ & ->)]; [lia|]. destruct r, neg; repeat case_match; lia. }
  assert (Habsd : Z.abs (n - q * d) = Z.abs (R - k * b)).
  { rewrite Hdiff. destruct Hs as [-> | ->]; lia. }
  assert (Hkk : k = 0 ∨ k = 1) by lia.
  destruct r; cbn [rounds_to]; rewrite ?Habsd, ?Habsn, ?Habsqd, <-?Eb, ?Hsgn by lia.
  - destruct Hk as [[HR ->]|(_ & ? & _)]; [|done]. rewrite Hqd, Hn. f_equal. lia.
  - destruct Hk as [[HR ->]|(HR & _ & ->)]; lia.
  - destruct Hk as [[HR ->]|(HR & _ & ->)]; lia.
  - rewrite Hdiff. destruct Hk as [[HR ->]|(HR & _ & ->)], neg, Hs as [-> | ->], Ht as [-> | ->]; lia.
  - replace (q * d - n) with (s * (k * b - R)) by lia.
    destruct Hk as [[HR ->]|(HR & _ & ->)], neg, Hs as [-> | ->], Ht as [-> | ->]; lia.
  - destruct Hk as [[HR ->]|(HR & _ & ->)]; [lia|]. destruct (Z.leb_spec b (R * 2)); lia.
  - destruct Hk as [[HR ->]|(HR & _ & Ek)]; [lia|].
    assert (Heven : Z.even q = Z.even (Q + k)) by (subst q; destruct neg; [apply Z.even_opp|done]).
    rewrite Heven, Z.even_add. rewrite Zmod_even in Ek.
    destruct (Z.ltb_spec b (R * 2)), (Z.eqb_spec (R * 2) b), (Z.even Q); simpl in Ek; subst k; simpl;
      split; try lia; try done.
Qed.

Lemma rounds_to_exact r n d q : d ≠ 0 → q * d = n → rounds_to r n d q.
Proof.
  intros Hd <-. destruct r; cbn [rounds_to]; rewrite ?Z.sub_diag, ?Z.mul_0_l;
    repeat split; try intros; try lia.
Qed.

Lemma rounds_to_scale r n d q k : 0 < k → rounds_to r n d q → rounds_to r (n * k) (d * k) q.
Proof.
  intros Hk. destruct r; cbn [rounds_to];
    rewrite ?Z.sgn_mul, ?(Z.sgn_pos k), ?Z.mul_1_r by done;
    rewrite ?Z.mul_assoc, <-?Z.mul_sub_distr_r, ?Z.abs_mul, ?(Z.abs_eq k) by lia; try nia.
  intros [H1 H2]. split; [nia|]. intros H3. apply H2. nia.
Qed.

Lemma round_ratio_err n d r :
  (∃ e, round_ratio n d r = Err e) ↔ d = 0 ∨ (r = Exact ∧ n `mod` d ≠ 0).
Proof.
  unfold round_ratio. destruct (Z.eqb_spec d 0) as [->|Hd]; [naive_solver|].
  assert (Hz : Z.abs n `mod` Z.abs d = 0 ↔ n `mod` d = 0).
  { rewrite !Z.mod_divide, Z.divide_abs_l, Z.divide_abs_r by lia. done. }
  destruct (Z.eqb_spec (Z.abs n `mod` Z.abs d) 0); [naive_solver|].
  case_bool_decide; naive_solver.
Qed.

(** ** Construction and ranges *)
Lemma validate_type_Ok p s u : validate_type p s = Ok u ↔ 1 ≤ p ≤ 38 ∧ s ≤ p.
Proof.
  unfold validate_type. destruct u. rewrite Z.gtb_ltb.
  destruct (in_range 1 38 p) eqn:E; simpl.
  - apply in_range_spec in E. destruct (Z.ltb_spec p s); naive_solver lia.
  - split; [done|]. intros [H _]. apply in_range_spec in H. congruence.
Qed.

Lemma decimal_new_Ok c p s d :
  decimal_new c p s = Ok d ↔ 1 ≤ p ≤ 38 ∧ s ≤ p ∧ Z.abs c < 10 ^ p ∧ d = mkDecimal c s.
Proof.
  unfold decimal_new. rewrite bind_Ok. setoid_rewrite validate_type_Ok.
  rewrite Z.geb_leb. destruct (Z.leb_spec (10 ^ p) (Z.abs c)); split.
  - intros ([] & ? & ?); done.
  - intros (? & ? & ? & ?); lia.
  - intros ([] & ? & [= <-]); naive_solver.
  - intros (? & ? & ? & ->); exists tt; naive_solver.
Qed.

Lemma pow10_mono p q : 0 ≤ p ≤ q → 10 ^ p ≤ 10 ^ q.
Proof. intros. apply Z.pow_le_mono_r; lia. Qed.

Lemma pow10_pos p : 0 ≤ p → 0 < 10 ^ p.
Proof. intros. apply Z.pow_pos_nonneg; lia. Qed.

Lemma is_i128_small c : Z.abs c < 10 ^ 38 → is_i128 c = true.
Proof. intros. unrange. lia. Qed.

(** [fits d p s]: a decimal of the schema type [decimal p s]. *)
Definition fits (d : Decimal) (p s : Z) : Prop :=
  1 ≤ p ≤ 38 ∧ 0 ≤ s ≤ p ∧ scale d = s ∧ Z.abs (coefficient d) < 10 ^ p.

Lemma fits_wf d p s : fits d p s → wf_decimal d = true.
Proof.
  intros (Hp & Hs & <- & Hc). unfold wf_decimal. apply andb_true_iff. split.
  - apply Z.ltb_lt. pose proof (pow10_mono p 38). lia.
  - apply in_range_spec. lia.
Qed.

Lemma decimal_new_fits c p s d : 0 ≤ s → decimal_new c p s = Ok d → fits d p s ∧ coefficient d = c.
Proof. intros Hs (? & ? & ? & ->)%decimal_new_Ok. unfold fits; simpl. lia. Qed.

Lemma from_bigint_Ok c p s d : 0 ≤ s → from_bigint c p s = Ok d → fits d p s ∧ coefficient d = c.
Proof.
  intros Hs H. unfold from_bigint in H. res_inv.
  destruct (decimal_new c p s) eqn:E; [|by destruct (String.eqb _ _)].
  injection H as ->. by apply decimal_new_fits.
Qed.

(** [decimal_new] and the arithmetic operations report a representable result. *)
Lemma from_bigint_complete c p s :
  1 ≤ p ≤ 38 → s ≤ p → Z.abs c < 10 ^ p → from_bigint c p s = Ok (mkDecimal c s).
Proof.
  intros Hp Hs Hc. unfold from_bigint, checked. pose proof (pow10_mono p 38).
  rewrite is_i128_small by lia. simpl.
  assert (E : decimal_new c p s = Ok (mkDecimal c s)) by (apply decimal_new_Ok; split_and!; lia || done).
  by rewrite E.
Qed.

(** The common tail of the rounding operations: scaling up is exact, scaling
    down rounds. *)
Lemma scaled_round n src s r q :
  0 ≤ src → 0 ≤ s →
  (if s >=? src then Ok (n * power_of_ten (s - src))
   else round_ratio n (power_of_ten (src - s)) r) = Ok q →
  rounds_to r (n * 10 ^ s) (10 ^ src) q.
Proof.
  intros Hsrc Hs. unfold power_of_ten. rewrite Z.geb_leb. destruct (Z.leb_spec src s).
  - intros [= <-]. apply rounds_to_exact; [pose proof (pow10_pos src); lia|].
    rewrite <-Z.mul_assoc, <-Z.pow_add_r by lia. do 2 f_equal. lia.
  - intros Hq%round_ratio_rounds. apply (rounds_to_scale _ _ _ _ (10 ^ s)) in Hq; [|by apply pow10_pos].
    rewrite <-Z.pow_add_r in Hq by lia. by replace (src - s + s) with src in Hq by lia.
Qed.

Lemma ratio_round n d src s r q :
  0 ≤ src → 0 ≤ s →
  (let '(a, b) := if s >=? src then (n * power_of_ten (s - src), d) else (n, d * power_of_ten (src - s)) in
   round_ratio a b r) = Ok q →
  rounds_to r (n * 10 ^ s) (d * 10 ^ src) q.
Proof.
  intros Hsrc Hs. unfold power_of_ten. rewrite Z.geb_leb. destruct (Z.leb_spec src s); intros Hq%round_ratio_rounds.
  - apply (rounds_to_scale _ _ _ _ (10 ^ src)) in Hq; [|by apply pow10_pos].
    rewrite <-Z.mul_assoc, <-Z.pow_add_r in Hq by lia. by replace (s - src + src) with s in Hq by lia.
  - apply (rounds_to_scale _ _ _ _ (10 ^ s)) in Hq; [|by apply pow10_pos].
    rewrite <-Z.mul_assoc, <-Z.pow_add_r in Hq by lia. by replace (src - s + s) with src in Hq by lia.
Qed.

Lemma wf_decimal_spec d :
  wf_decimal d = true ↔ Z.abs (coefficient d) < 10 ^ 38 ∧ 0 ≤ scale d ≤ 38.
Proof. unfold wf_decimal. by rewrite andb_true_iff, Z.ltb_lt, in_range_spec. Qed.

(** ** Properties *)

(** [round_ratio] returns the correctly rounded quotient in every mode, and
    fails exactly when the denominator is zero or [exact] would discard a
    remainder. *)
Theorem round_ratio_correct n d r :
  match round_ratio n d r with
  | Ok q => d ≠ 0 ∧ rounds_to r n d q
  | Err e => e = "E_ARITH" ∧ (d = 0 ∨ (r = Exact ∧ n `mod` d ≠ 0))
  end.
Proof.
  destruct (round_ratio n d r) as [q|e] eqn:E.
  - split; [|by apply round_ratio_rounds]. intros ->. done.
  - split; [|apply round_ratio_err; eauto].
    unfold round_ratio in E. repeat case_match; naive_solver.
Qed.

(** C35: checked multiplication, division, rounding and averaging return the
    exact rational result rounded in the requested mode, and the result fits the
    requested precision and scale. *)
Theorem decimal_arithmetic_correct a b p s r x :
  wf_decimal a = true → wf_decimal b = true → 0 ≤ s →
  (checked_mul_to a b p s r = Ok x →
     fits x p s ∧ rounds_to r (coefficient a * coefficient b * 10 ^ s)
                              (10 ^ (scale a + scale b)) (coefficient x)) ∧
  (checked_div_to a b p s r = Ok x →
     fits x p s ∧ rounds_to r (coefficient a * 10 ^ (s + scale b))
                              (coefficient b * 10 ^ scale a) (coefficient x)) ∧
  (rescale_with_rounding a p s r = Ok x →
     fits x p s ∧ rounds_to r (coefficient a * 10 ^ s) (10 ^ scale a) (coefficient x)) ∧
  (∀ total count, average_coefficients total (scale a) count p s r = Ok x →
     fits x p s ∧ rounds_to r (total * 10 ^ s) (count * 10 ^ scale a) (coefficient x)).
Proof.
  intros [_ Ha]%wf_decimal_spec [_ Hb]%wf_decimal_spec Hs. split_and!.
  - unfold checked_mul_to. intros H. res_inv.
    apply from_bigint_Ok in H as [Hf ->]; [|done]. split; [done|]. apply scaled_round; [lia..|done].
  - unfold checked_div_to. intros H. res_inv. case_if_in H; [done|].
    destruct (if _ >=? _ then _ else _) as [u v] eqn:Huv. res_inv.
    apply from_bigint_Ok in H as [Hf ->]; [|done]. split; [done|].
    apply ratio_round; [lia..|]. by rewrite Huv.
  - unfold rescale_with_rounding. intros H. res_inv.
    apply from_bigint_Ok in H as [Hf ->]; [|done]. split; [done|]. apply scaled_round; [lia..|done].
  - intros total count. unfold average_coefficients. intros H. res_inv.
    destruct (if _ >=? _ then _ else _) as [u v] eqn:Huv. res_inv.
    apply from_bigint_Ok in H as [Hf ->]; [|done]. split; [done|].
    apply ratio_round; [lia..|]. by rewrite Huv.
Qed.

Lemma decimal_arithmetic_correct_witness :
  wf_decimal (mkDecimal 10 0) = true ∧
  rounds_to HalfEven (10 * 10 ^ (4 + 0)) (3 * 10 ^ 0) 33333.
Proof.
  split; [reflexivity|].
  destruct (decimal_arithmetic_correct (mkDecimal 10 0) (mkDecimal 3 0) 10 4 HalfEven
              (mkDecimal 33333 4) eq_refl eq_refl ltac:(lia)) as (_ & H & _).
  exact (proj2 (H eq_refl)).
Defined.

Lemma rescale_iff d p s x :
  wf_decimal d = true → 0 ≤ s →
  rescale d p s = Ok x ↔ fits x p s ∧ coefficient x * 10 ^ scale d = coefficient d * 10 ^ s.
Proof.
  intros [Hc Hd]%wf_decimal_spec Hs. unfold rescale. rewrite Z.geb_leb.
  destruct (Z.leb_spec (scale d) s) as [Hle|Hlt].
  - assert (Hpow : 10 ^ s = 10 ^ (s - scale d) * 10 ^ scale d)
      by (rewrite <-Z.pow_add_r by lia; f_equal; lia).
    pose proof (pow10_pos (scale d)). split.
    + intros HR. res_inv.
      apply decimal_new_fits in HR as [Hf ->]; [|done]. split; [done|]. rewrite Hpow. ring.
    + intros [(Hp & Hsp & Hsc & Hcx) Hv]. rewrite Hpow, Z.mul_assoc in Hv.
      apply Z.mul_reg_r in Hv; [|lia]. pose proof (pow10_mono p 38).
      rewrite (proj2 (validate_type_Ok p s tt)) by lia. simpl. unfold checked.
      rewrite <-Hv, is_i128_small by lia. simpl. apply decimal_new_Ok. split_and!; try lia.
      destruct x; simpl in *; by subst.
  - assert (Hpow : 10 ^ scale d = 10 ^ (scale d - s) * 10 ^ s)
      by (rewrite <-Z.pow_add_r by lia; f_equal; lia).
    pose proof (pow10_pos s). pose proof (pow10_pos (scale d - s)). split.
    + intros HR. res_inv. case_if_in Hx0; [done|]. bool_inv. res_inv.
      apply decimal_new_fits in HR as [Hf ->]; [|done]. split; [done|].
      rewrite Hpow, Z.mul_assoc. f_equal.
      pose proof (Z.quot_rem' (coefficient d) (10 ^ (scale d - s))). lia.
    + intros [(Hp & Hsp & Hsc & Hcx) Hv]. rewrite Hpow, Z.mul_assoc in Hv.
      apply Z.mul_reg_r in Hv; [|lia]. pose proof (pow10_mono p 38).
      rewrite (proj2 (validate_type_Ok p s tt)) by lia. simpl.
      rewrite <-Hv, Z.rem_mul, Z.quot_mul by lia. simpl.
      apply decimal_new_Ok. split_and!; try lia. destruct x; simpl in *; by subst.
Qed.

(** Rescaling to [decimal p s] succeeds exactly when the same numerical value
    is representable in that type, and returns it; no digit is ever lost. *)
Theorem rescale_exact d p s x :
  wf_decimal d = true → 0 ≤ s →
  rescale d p s = Ok x ↔ fits x p s ∧ coefficient x * 10 ^ scale d = coefficient d * 10 ^ s.
Proof. apply rescale_iff. Qed.

Lemma rescale_exact_witness :
  wf_decimal (mkDecimal 1500 3) = true ∧ fits (mkDecimal 15 1) 5 1.
Proof.
  split; [reflexivity|].
  exact (proj1 (proj1 (rescale_exact (mkDecimal 1500 3) 5 1 (mkDecimal 15 1) eq_refl ltac:(lia)) eq_refl)).
Defined.

(** C36: checked addition, subtraction and negation are exact and succeed exactly
    when the result has at most 38 digits; mismatched scales are a type error. *)
Theorem decimal_add_sub_neg_exact a b :
  wf_decimal a = true → wf_decimal b = true →
  let result_of n := if Z.abs n <? 10 ^ 38 then Ok (mkDecimal n (scale a)) else Err "E_ARITH" in
  checked_add a b = (if scale a =? scale b then result_of (coefficient a + coefficient b) else Err "E_TYPE") ∧
  checked_sub a b = (if scale a =? scale b then result_of (coefficient a - coefficient b) else Err "E_TYPE") ∧
  checked_neg a = Ok (mkDecimal (- coefficient a) (scale a)).
Proof.
  intros [Hca Hsa]%wf_decimal_spec [Hcb Hsb]%wf_decimal_spec result_of.
  assert (Hnew : ∀ n, is_i128 n = true →
    map_err "E_ARITH" (decimal_new n 38 (scale a)) = result_of n).
  { intros n _. unfold result_of, decimal_new.
    rewrite (proj2 (validate_type_Ok 38 (scale a) tt)) by lia. simpl.
    rewrite Z.geb_leb, Z.ltb_antisym. by destruct (10 ^ 38 <=? Z.abs n). }
  assert (Hi : ∀ n, Z.abs n < 2 * 10 ^ 38 → is_i128 n = false → result_of n = Err "E_ARITH").
  { intros n _ Hn. unfold result_of. destruct (Z.ltb_spec (Z.abs n) (10 ^ 38)); [|done].
    rewrite is_i128_small in Hn; done. }
  unfold checked_add, checked_sub, checked_neg, checked. split_and!.
  - destruct (scale a =? scale b); simpl; [|done].
    destruct (is_i128 (coefficient a + coefficient b)) eqn:E; simpl; [by apply Hnew|].
    symmetry. apply Hi; [lia|done].
  - destruct (scale a =? scale b); simpl; [|done].
    destruct (is_i128 (coefficient a - coefficient b)) eqn:E; simpl; [by apply Hnew|].
    symmetry. apply Hi; [lia|done].
  - rewrite is_i128_small by lia. simpl. rewrite Hnew by (apply is_i128_small; lia).
    unfold result_of. destruct (Z.ltb_spec (Z.abs (- coefficient a)) (10 ^ 38)); [done|lia].
Qed.

Lemma decimal_add_sub_neg_exact_witness :
  checked_add (mkDecimal 25 1) (mkDecimal (-30) 1) = Ok (mkDecimal (-5) 1).
Proof.
  destruct (decimal_add_sub_neg_exact (mkDecimal 25 1) (mkDecimal (-30) 1) eq_refl eq_refl) as [H _].
  exact H.
Defined.

(** ** Parsing and printing *)
Lemma foldR_digits ds n :
  all_digits ds = true → 0 ≤ n → n * 10 ^ zlen ds + parse_digits ds < 2 ^ 127 →
  foldR (λ n digit,
    ok_or (m ← checked is_i128 (n * 10); checked is_i128 (m + (digit - 48)))
          "E_DECIMAL_RANGE") n ds = Ok (n * 10 ^ zlen ds + parse_digits ds).
Proof.
  revert n. induction ds as [|x ds IH]; intros n Hd Hn Hb.
  { unfold zlen, parse_digits; simpl. f_equal. lia. }
  cbn [all_digits forallb] in Hd. apply andb_true_iff in Hd as [Hx%is_digit_spec Hd].
  pose proof (parse_digits_bound ds Hd).
  rewrite zlen_cons, parse_digits_cons, Z.pow_add_r in * by (try apply zlen_nonneg; lia).
  assert (0 < 10 ^ zlen ds) by (apply pow10_pos, zlen_nonneg).
  assert (E1 : is_i128 (n * 10) = true) by (unrange; nia).
  assert (E2 : is_i128 (n * 10 + (x - 48)) = true) by (unrange; nia).
  cbn [foldR]. unfold checked. rewrite E1. simpl. rewrite E2. simpl.
  rewrite IH by (done || nia). f_equal. ring.
Qed.

Lemma parse_coefficient_digits ds :
  all_digits ds = true → parse_digits ds < 2 ^ 127 → parse_coefficient ds = Ok (parse_digits ds).
Proof. intros Hd Hb. unfold parse_coefficient. rewrite foldR_digits; [done|done|lia..]. Qed.

(** What [decimal_parse] returns on plain digits with an optional fraction. *)
Lemma decimal_parse_digits (neg : bool) i f p s :
  1 ≤ p ≤ 38 → 0 ≤ s ≤ p → i ≠ [] → all_digits i = true → all_digits f = true → zlen f = s →
  parse_digits (i ++ f) < 10 ^ p →
  decimal_parse ((if neg then [45] else []) ++ i ++ (if s =? 0 then [] else 46 :: f)) p s =
    Ok (mkDecimal (if neg then - parse_digits (i ++ f) else parse_digits (i ++ f)) s).
Proof.
  intros Hp Hs Hi Hdi Hdf Hf Hb.
  assert (Hnd : Forall (λ b, b ≠ 46) i).
  { apply all_digits_Forall in Hdi. revert Hdi. apply Forall_impl. lia. }
  set (body := i ++ (if s =? 0 then [] else 46 :: f)).
  assert (Hsrc : strip_byte 45 ((if neg then [45] else []) ++ body) = if neg then Some body else None).
  { destruct neg; [done|]. simpl. destruct i as [|x i]; [done|]. simpl.
    apply andb_true_iff in Hdi as [Hx%is_digit_spec _]. destruct (Z.eqb_spec x 45); [lia|done]. }
  assert (Hfs : s = 0 → f = []).
  { intros ->. destruct f; [done|]. rewrite zlen_cons in Hf. pose proof (zlen_nonneg f). lia. }
  assert (Hsplit : match split_once 46 body with
    | Some (a, b) => if bool_decide (b = []) then Err "E_DECIMAL_RANGE" else Ok (a, b)
    | None => Ok (body, []) end = Ok (i, f)).
  { unfold body. destruct (Z.eqb_spec s 0) as [H0|H0].
    - rewrite app_nil_r, split_once_None by done. by rewrite Hfs.
    - rewrite split_once_app by done. case_bool_decide; [|done].
      subst f. unfold zlen in Hf. simpl in Hf. lia. }
  assert (Hnil : existsb (λ b, negb (b =? 48)) (drop (Z.to_nat s) f) = false).
  { rewrite drop_ge; [done|]. unfold zlen in Hf. lia. }
  assert (Htake : take (Z.to_nat s) f = f) by (apply take_ge; unfold zlen in Hf; lia).
  assert (Hall : all_digits (i ++ f) = true) by (unfold all_digits in *; by rewrite forallb_app, Hdi, Hdf).
  pose proof (parse_digits_bound _ Hall) as Hbd. pose proof (pow10_mono p 38).
  unfold decimal_parse. rewrite (proj2 (validate_type_Ok p s tt)) by lia. cbn [mbind result_bind].
  rewrite Hsrc. replace (default _ (if neg then _ else _)) with body by (by destruct neg).
  rewrite Hsplit. cbn [mbind result_bind]. rewrite bool_decide_eq_false_2, Hall, Hnil by done. simpl orb.
  cbv iota. rewrite Htake, parse_coefficient_digits by (done || lia). cbn [mbind result_bind].
  unfold sat_sub. rewrite Hf, Z.sub_diag, Z.max_id, Z.pow_0_r, Z.mul_1_r.
  unfold checked. rewrite is_i128_small by lia. simpl.
  apply decimal_new_Ok. destruct neg; simpl; split_and!; (lia || done).
Qed.

Lemma pow10_split c s : 0 ≤ s → c = c / 10 ^ s * 10 ^ s + c `mod` 10 ^ s.
Proof. intros Hs. pose proof (Z.div_mod c (10 ^ s)). pose proof (pow10_pos s Hs). lia. Qed.

Lemma decimal_display_parse d p s : fits d p s → decimal_parse (decimal_display d) p s = Ok d.
Proof.
  intros (Hp & Hs & Hsc & Hc). unfold decimal_display. rewrite Hsc.
  set (u := Z.abs (coefficient d)) in *. assert (Hu : 0 ≤ u) by lia.
  pose proof (pow10_pos s ltac:(lia)) as H10. pose proof (Z.mod_pos_bound u (10 ^ s) H10) as Hm.
  assert (Hq : 0 ≤ u / 10 ^ s) by (apply Z.div_pos; lia).
  set (f := if s =? 0 then [] else pad0 (Z.to_nat s) (show_nat (u `mod` 10 ^ s))).
  set (i := if s =? 0 then show_nat u else show_nat (u / 10 ^ s)).
  assert (Hval : parse_digits (i ++ f) = u ∧ zlen f = s ∧ all_digits f = true).
  { unfold i, f. destruct (Z.eqb_spec s 0) as [->|Hs0].
    - rewrite app_nil_r. split_and!; [by apply parse_show_nat|done|done].
    - assert (Hl : zlen (pad0 (Z.to_nat s) (show_nat (u `mod` 10 ^ s))) = s).
      { unfold zlen. rewrite pad0_length by (rewrite ?Z2Nat.id; lia). lia. }
      rewrite parse_digits_app, parse_digits_pad0, !parse_show_nat, Hl by lia.
      split_and!; [by rewrite <-pow10_split by lia|done|]. apply pad0_digits, show_nat_digits. lia. }
  destruct Hval as (Hv & Hl & Hdf).
  assert (Hdi : all_digits i = true ∧ i ≠ []).
  { unfold i. destruct (s =? 0); (split; [apply show_nat_digits | apply show_nat_nonempty]); lia. }
  pose proof (decimal_parse_digits (coefficient d <? 0) i f p s) as HP.
  rewrite Hv in HP. specialize (HP ltac:(lia) ltac:(lia) (proj2 Hdi) (proj1 Hdi) Hdf Hl Hc).
  assert (Hd : d = mkDecimal (if coefficient d <? 0 then - u else u) s).
  { destruct d as [c' s']; simpl in *. subst s'. f_equal. destruct (Z.ltb_spec c' 0); lia. }
  transitivity (Ok (mkDecimal (if coefficient d <? 0 then - u else u) s)); [|by rewrite <-Hd].
  rewrite <-HP. f_equal. unfold i, f.
  destruct (Z.eqb_spec s 0); [by rewrite app_nil_r|done].
Qed.

(** printing a decimal and parsing the text back at its schema type returns
    the same coefficient and scale, so decimal text is a lossless form. *)
Theorem decimal_print_parse d p s : fits d p s → decimal_parse (decimal_display d) p s = Ok d.
Proof. apply decimal_display_parse. Qed.

Lemma decimal_print_parse_witness :
  decimal_parse (as_bytes "-0.050") 10 3 = Ok (mkDecimal (-50) 3).
Proof.
  apply (decimal_print_parse (mkDecimal (-50) 3) 10 3).
  unfold fits; simpl; lia.
Defined.
