(* ===== verification/Temporal.v ===== *)
(** * Dates, durations and timestamps (src/src/scalars/temporal.rs)

    Text is a list of bytes.  [Date], [Duration] and [Timestamp] are newtypes of
    an [i32]/[i64]; their wrapped integer is used directly and the range checks
    of their constructors are kept. *)
From S2P Require Import Prelude Bytes Text.

Definition EPOCH_DAYS : Z := 719162.
Definition DAY_MICROS : Z := 86400000000.
Definition E_LITERAL : string := "E_SCALAR_LITERAL".

Definition leap (year : Z) : bool :=
  (Z.rem year 4 =? 0) && (negb (Z.rem year 100 =? 0) || (Z.rem year 400 =? 0)).

Definition year_days (year : Z) : Z :=
  let previous := year - 1 in
  previous * 365 + Z.quot previous 4 - Z.quot previous 100 + Z.quot previous 400.

Definition month_days (year month : Z) : Z :=
  if month =? 2 then (if leap year then 29 else 28)
  else if (month =? 4) || (month =? 6) || (month =? 9) || (month =? 11) then 30
  else 31.

Definition digits (source : list Z) : result Z :=
  if bool_decide (source = []) || negb (all_digits source) then Err E_LITERAL
  else Ok (parse_digits source).

(** [&bytes[i..j]] and [bytes[i]] of an in-bounds slice. *)
Definition slice (i j : nat) (l : list Z) : list Z := take (j - i) (drop i l).
Definition at_ (l : list Z) (i : nat) : Z := nth i l 0.

Definition fixed_offset_seconds (source : list Z) : result Z :=
  if bool_decide (source = as_bytes "Z") || bool_decide (source = as_bytes "z") then Ok 0
  else if negb (length source =? 6)%nat
          || negb ((at_ source 0 =? 43) || (at_ source 0 =? 45))
          || negb (at_ source 3 =? 58) then Err E_LITERAL
  else
    hours ← digits (slice 1 3 source);
    minutes ← digits (slice 4 6 source);
    if (hours >? 23) || (minutes >? 59) || bool_decide (source = as_bytes "-00:00")
    then Err E_LITERAL
    else Ok ((hours * 3600 + minutes * 60) * (if at_ source 0 =? 45 then -1 else 1)).

Inductive TimestampUnit :=
  | Year | Month | Week | Day | Hour | Minute | Second | Millisecond | Microsecond.

Definition TimestampUnit_parse (source : string) : option TimestampUnit :=
  if String.eqb source "year" then Some Year
  else if String.eqb source "month" then Some Month
  else if String.eqb source "week" then Some Week
  else if String.eqb source "day" then Some Day
  else if String.eqb source "hour" then Some Hour
  else if String.eqb source "minute" then Some Minute
  else if String.eqb source "second" then Some Second
  else if String.eqb source "millisecond" then Some Millisecond
  else if String.eqb source "microsecond" then Some Microsecond
  else None.

(** ** Date *)
Definition MIN_DAYS : Z := - EPOCH_DAYS.
Definition MAX_DAYS : Z := 2932896.

Definition from_epoch_days (days : Z) : result Z :=
  if negb (in_range MIN_DAYS MAX_DAYS days) then Err E_LITERAL else Ok days.

(** The binary search over years of [Date::components]. *)
Fixpoint year_search (fuel : nat) (days low high : Z) : Z * Z :=
  match fuel with
  | O => (low, high)
  | S fuel =>
      if low + 1 <? high then
        let middle := Z.quot (low + high) 2 in
        if year_days middle <=? days then year_search fuel days middle high
        else year_search fuel days low middle
      else (low, high)
  end.

(** Its month loop: [while remaining >= month_days(low, month)]. *)
Fixpoint month_search (fuel : nat) (year month remaining : Z) : Z * Z :=
  match fuel with
  | O => (month, remaining)
  | S fuel =>
      if remaining >=? month_days year month
      then month_search fuel year (month + 1) (remaining - month_days year month)
      else (month, remaining)
  end.

(** [Date::components]; 14 halvings exhaust the 9,999 years and a year has 12
    months, see [year_search_spec] and [month_search_spec]. *)
Definition components (date : Z) : Z * Z * Z :=
  let days := date + EPOCH_DAYS in
  let '(low, _) := year_search 14 days 1 10000 in
  let '(month, remaining) := month_search 12 low 1 (days - year_days low) in
  (low, month, remaining + 1).

(** [(1..month).map(|m| month_days(year, m)).sum()]. *)
Definition days_before_month (year month : Z) : Z :=
  foldr (λ m acc, month_days year m + acc) 0 (seqZ 1 (month - 1)).

Definition date_from_str (source : list Z) : result Z :=
  if negb (length source =? 10)%nat || negb (at_ source 4 =? 45) || negb (at_ source 7 =? 45)
  then Err E_LITERAL
  else
    year ← digits (slice 0 4 source);
    month ← digits (slice 5 7 source);
    day ← digits (drop 8 source);
    if (year =? 0) || negb (in_range 1 12 month) || (day =? 0) || (day >? month_days year month)
    then Err E_LITERAL
    else from_epoch_days (year_days year + days_before_month year month + day - 1 - EPOCH_DAYS).

Definition date_display (date : Z) : list Z :=
  let '(year, month, day) := components date in
  pad0 4 (show_nat year) ++ 45 :: pad0 2 (show_nat month) ++ 45 :: pad0 2 (show_nat day).

(** ** Duration *)
Definition UNITS : list (string * Z) :=
  [("week", 604800000000); ("day", DAY_MICROS); ("hour", 3600000000); ("minute", 60000000);
   ("second", 1000000); ("millisecond", 1000); ("microsecond", 1)].

Fixpoint take_digits (l : list Z) : list Z * list Z :=
  match l with
  | b :: r => if is_digit b then let '(ds, rest) := take_digits r in (b :: ds, rest) else ([], l)
  | [] => ([], [])
  end.

(** [strip_suffix('s')]. *)
Definition strip_suffix (b : Z) (l : list Z) : option (list Z) :=
  match rev l with
  | c :: r => if c =? b then Some (rev r) else None
  | [] => None
  end.

Definition duration_from_str (source : list Z) : result Z :=
  let negative := bool_decide (is_Some (strip_byte 45 source)) in
  let '(ds, rest) := take_digits (default source (strip_byte 45 source)) in
  if bool_decide (ds = []) then Err E_LITERAL
  else
    amount ← ok_or (checked is_i64 (if negative then - parse_digits ds else parse_digits ds)) E_LITERAL;
    let unit := default rest (strip_suffix 115 rest) in
    multiplier ← ok_or (snd <$> find (λ u, bool_decide (as_bytes u.1 = unit)) UNITS) E_LITERAL;
    ok_or (checked is_i64 (amount * multiplier)) E_LITERAL.

Definition duration_display (d : Z) : list Z :=
  if d =? 0 then as_bytes "0microseconds"
  else
    match find (λ u, Z.rem d u.2 =? 0) UNITS with
    | Some (unit, size) =>
        let amount := Z.quot d size in
        (if amount <? 0 then [45] else []) ++ show_nat (Z.abs amount) ++ as_bytes unit
        ++ (if (amount =? 1) || (amount =? -1) then [] else as_bytes "s")
    | None => []
    end.

(** ** Timestamp *)
Definition from_epoch_microseconds (value : Z) : result Z :=
  let days := value / DAY_MICROS in
  if negb (in_range MIN_DAYS MAX_DAYS days) then Err E_LITERAL else Ok value.

Definition local_at_offset (t offset_seconds : Z) : result Z :=
  shifted ← ok_or (checked is_i64 (t + offset_seconds * 1000000)) "E_ARITH";
  map_err "E_ARITH" (from_epoch_microseconds shifted).

Definition date_at_offset (t offset_seconds : Z) : result Z :=
  local ← local_at_offset t offset_seconds;
  map_err "E_ARITH" (from_epoch_days (local / DAY_MICROS)).

Definition unit_micros (unit : TimestampUnit) : Z :=
  match unit with
  | Day => DAY_MICROS | Hour => 3600000000 | Minute => 60000000 | Second => 1000000
  | Millisecond => 1000 | _ => 1
  end.

(** The local start of [unit] in [truncate_at_offset]. *)
Definition unit_start (unit : TimestampUnit) (local : Z) : Z :=
  let days := local / DAY_MICROS in
  let '(year, month, _) := components days in
  match unit with
  | Year => (year_days year - EPOCH_DAYS) * DAY_MICROS
  | Month => (year_days year - EPOCH_DAYS + days_before_month year month) * DAY_MICROS
  | Week => (days - (days + 3) `mod` 7) * DAY_MICROS
  | unit => local / unit_micros unit * unit_micros unit
  end.

Definition truncate_at_offset (t : Z) (unit : TimestampUnit) (offset_seconds : Z) : result Z :=
  local ← local_at_offset t offset_seconds;
  utc ← ok_or (checked is_i64 (unit_start unit local - offset_seconds * 1000000)) "E_ARITH";
  map_err "E_ARITH" (from_epoch_microseconds utc).

(** The fraction loop of [Timestamp::from_str]: [n] digits read so far. *)
Fixpoint fraction_loop (l : list Z) (n micros : Z) : result (Z * Z * list Z) :=
  match l with
  | b :: r =>
      if is_digit b then
        if n <? 6 then fraction_loop r (n + 1) (micros * 10 + (b - 48))
        else if negb (b =? 48) then Err E_LITERAL
        else fraction_loop r (n + 1) micros
      else Ok (n, micros, l)
  | [] => Ok (n, micros, [])
  end.

Definition timestamp_fraction (rest : list Z) : result (Z * list Z) :=
  match strip_byte 46 rest with
  | Some body =>
      '(n, micros, rest) ← fraction_loop body 0 0;
      if n =? 0 then Err E_LITERAL else Ok (micros * 10 ^ sat_sub 6 n, rest)
  | None => Ok (0, rest)
  end.

Definition timestamp_from_str (source : list Z) : result Z :=
  if (length source <? 20)%nat || negb (forallb (in_range 0 127) source)
     || negb ((at_ source 10 =? 84) || (at_ source 10 =? 116))
     || negb (at_ source 13 =? 58) || negb (at_ source 16 =? 58)
  then Err E_LITERAL
  else
    date ← date_from_str (take 10 source);
    hour ← digits (slice 11 13 source);
    minute ← digits (slice 14 16 source);
    second ← digits (slice 17 19 source);
    if (hour >? 23) || (minute >? 59) || (second >? 59) then Err E_LITERAL
    else
      '(micros, offset) ← timestamp_fraction (drop 19 source);
      offset_seconds ← fixed_offset_seconds offset;
      from_epoch_microseconds
        (date * DAY_MICROS + (hour * 3600 + minute * 60 + second - offset_seconds) * 1000000 + micros).

(** [trim_end_matches('0')]. *)
Fixpoint drop_zeros (l : list Z) : list Z :=
  match l with
  | b :: r => if b =? 48 then drop_zeros r else l
  | [] => []
  end.
Definition trim_zeros (l : list Z) : list Z := rev (drop_zeros (rev l)).

Definition timestamp_display (t : Z) : list Z :=
  let date := t / DAY_MICROS in
  let remainder := t `mod` DAY_MICROS in
  let seconds := remainder / 1000000 in
  let fraction := remainder `mod` 1000000 in
  date_display date ++ as_bytes "T" ++ pad0 2 (show_nat (seconds / 3600)) ++ as_bytes ":"
  ++ pad0 2 (show_nat ((seconds / 60) `mod` 60)) ++ as_bytes ":" ++ pad0 2 (show_nat (seconds `mod` 60))
  ++ (if fraction =? 0 then [] else 46 :: trim_zeros (pad0 6 (show_nat fraction)))
  ++ as_bytes "Z".

(** ** The Gregorian calendar *)

Lemma year_days_succ y :
  1 ≤ y → year_days (y + 1) = year_days y + 365 + (if leap y then 1 else 0).
Proof.
  intros Hy. unfold year_days, leap.
  rewrite !Z.quot_div_nonneg, !Z.rem_mod_nonneg by lia.
  destruct (Z.eqb_spec (y `mod` 4) 0), (Z.eqb_spec (y `mod` 100) 0), (Z.eqb_spec (y `mod` 400) 0);
    simpl; Z.div_mod_to_equations; lia.
Qed.

(** A month's length depends on the year only through [leap]. *)
Definition leap_class (y : Z) : Z := if leap y then 4 else 1.

Lemma month_days_class y m : month_days y m = month_days (leap_class y) m.
Proof. unfold month_days, leap_class. by destruct (leap y). Qed.

Lemma days_before_class y m : days_before_month y m = days_before_month (leap_class y) m.
Proof.
  unfold days_before_month. induction (seqZ 1 (m - 1)) as [|x l IH]; simpl; [done|].
  by rewrite IH, month_days_class.
Qed.

Lemma month_search_class fuel y m r : month_search fuel y m r = month_search fuel (leap_class y) m r.
Proof.
  revert m r. induction fuel as [|fuel IH]; intros m r; simpl; [done|].
  by rewrite IH, <-!month_days_class.
Qed.

Definition year_length (y : Z) : Z := 365 + (if leap y then 1 else 0).

Definition month_search_ok (y r : Z) : bool :=
  let '(m, k) := month_search 12 y 1 r in
  in_range 1 12 m && in_range 0 (month_days y m - 1) k && (days_before_month y m + k =? r).

Definition month_split_ok (y m k : Z) : bool :=
  let r := days_before_month y m + k in
  in_range 0 (year_length y - 1) r && bool_decide (month_search 12 y 1 r = (m, k)).

Lemma forallb_seqZ (P : Z → bool) (lo len x : Z) :
  forallb P (seqZ lo len) = true → lo ≤ x < lo + len → P x = true.
Proof. rewrite forallb_forall. intros H Hx. apply H, list_elem_of_In, elem_of_seqZ. lia. Qed.

Lemma month_search_table :
  forallb (λ y, forallb (month_search_ok y) (seqZ 0 (year_length y))) [1; 4] = true.
Proof. vm_compute. done. Qed.

Lemma month_split_table :
  forallb (λ y, forallb (λ m, forallb (month_split_ok y m) (seqZ 0 (month_days y m))) (seqZ 1 12)) [1; 4]
  = true.
Proof. vm_compute. done. Qed.

Lemma leap_class_In y : In (leap_class y) [1; 4].
Proof. unfold leap_class. destruct (leap y); simpl; auto. Qed.

Lemma year_length_class y : year_length y = year_length (leap_class y).
Proof. unfold year_length, leap_class. by destruct (leap y) eqn:E. Qed.

(** The month loop splits a day of the year into month and day; 12 steps suffice. *)
Lemma month_search_spec y r m k :
  0 ≤ r < year_length y → month_search 12 y 1 r = (m, k) →
  1 ≤ m ≤ 12 ∧ 0 ≤ k < month_days y m ∧ days_before_month y m + k = r.
Proof.
  intros Hr. rewrite month_search_class, month_days_class, days_before_class. intros E.
  rewrite year_length_class in Hr.
  pose proof (proj1 (forallb_forall _ _) month_search_table _ (leap_class_In y)) as H.
  cbv beta in H. apply (forallb_seqZ _ _ _ r) in H; [|lia].
  unfold month_search_ok in H. rewrite E in H. bool_inv.
  repeat match goal with H : in_range _ _ _ = true |- _ => apply in_range_spec in H end. lia.
Qed.

Lemma month_search_split y m k :
  1 ≤ m ≤ 12 → 0 ≤ k < month_days y m →
  0 ≤ days_before_month y m + k < year_length y ∧
  month_search 12 y 1 (days_before_month y m + k) = (m, k).
Proof.
  intros Hm. rewrite month_search_class, month_days_class, days_before_class, year_length_class. intros Hk.
  pose proof (proj1 (forallb_forall _ _) month_split_table _ (leap_class_In y)) as H.
  cbv beta in H. apply (forallb_seqZ _ _ _ m) in H; [|lia]. apply (forallb_seqZ _ _ _ k) in H; [|lia].
  unfold month_split_ok in H. bool_inv.
  repeat match goal with H : in_range _ _ _ = true |- _ => apply in_range_spec in H end. split; [lia|done].
Qed.

(** The binary search brackets [days] between two consecutive years; each step
    halves the bracket, so 14 steps suffice for 9,999 years. *)
Lemma year_search_spec fuel days low high y h :
  1 ≤ low < high → high - low ≤ 2 ^ Z.of_nat fuel →
  year_days low ≤ days < year_days high → year_search fuel days low high = (y, h) →
  low ≤ y < high ∧ year_days y ≤ days < year_days (y + 1).
Proof.
  revert low high. induction fuel as [|fuel IH]; intros low high Hl Hw Hd; simpl.
  { intros [= <- <-]. replace (low + 1) with high by (simpl in Hw; lia). lia. }
  rewrite Nat2Z.inj_succ, Z.pow_succ_r in Hw by lia.
  destruct (Z.ltb_spec (low + 1) high).
  - rewrite Z.quot_div_nonneg by lia. set (mid := (low + high) / 2).
    assert (Hmid : low < mid < high ∧ mid - low ≤ 2 ^ Z.of_nat fuel ∧ high - mid ≤ 2 ^ Z.of_nat fuel).
    { unfold mid. destruct fuel as [|f].
      - simpl in *. Z.div_mod_to_equations; lia.
      - rewrite Nat2Z.inj_succ, Z.pow_succ_r in * by lia. Z.div_mod_to_equations; lia. }
    destruct (Z.leb_spec (year_days mid) days); intros E; apply IH in E; lia.
  - intros [= <- <-]. replace (low + 1) with high by lia. lia.
Qed.

Lemma year_days_mono a b : 1 ≤ a ≤ b → year_days a ≤ year_days b.
Proof.
  intros H. replace b with (a + Z.of_nat (Z.to_nat (b - a))) by lia.
  generalize (Z.to_nat (b - a)) as n. induction n as [|n IH]; [by rewrite Z.add_0_r|].
  rewrite Nat2Z.inj_succ, <-Z.add_1_r, Z.add_assoc, year_days_succ by lia.
  destruct (leap _); lia.
Qed.

(** A civil date of the supported years. *)
Definition valid_civil (y m d : Z) : Prop :=
  1 ≤ y ≤ 9999 ∧ 1 ≤ m ≤ 12 ∧ 1 ≤ d ≤ month_days y m.

(** The day number [Date::from_str] computes. *)
Definition civil_days (y m d : Z) : Z := year_days y + days_before_month y m + d - 1 - EPOCH_DAYS.

Lemma components_spec date y m d :
  MIN_DAYS ≤ date ≤ MAX_DAYS → components date = (y, m, d) →
  valid_civil y m d ∧ civil_days y m d = date.
Proof.
  unfold MIN_DAYS, MAX_DAYS, EPOCH_DAYS, components. intros Hr.
  destruct (year_search _ _ _ _) as [low high] eqn:Ey. unfold EPOCH_DAYS in *.
  apply year_search_spec in Ey; [|lia|vm_compute; done|change (year_days 1) with 0; change (year_days 10000) with 3652059; lia].
  destruct Ey as [Hl Hd]. rewrite year_days_succ in Hd by lia.
  destruct (month_search _ _ _ _) as [month rest] eqn:Em. intros [= <- <- <-].
  apply month_search_spec in Em; [|unfold year_length; lia].
  unfold valid_civil, civil_days, EPOCH_DAYS. lia.
Qed.

Lemma civil_days_range y m d : valid_civil y m d → MIN_DAYS ≤ civil_days y m d ≤ MAX_DAYS.
Proof.
  intros (Hy & Hm & Hd). destruct (month_search_split y m (d - 1)) as [Hr _]; [lia..|].
  pose proof (year_days_mono 1 y ltac:(lia)). pose proof (year_days_mono (y + 1) 10000 ltac:(lia)).
  pose proof (year_days_succ y ltac:(lia)). change (year_days 1) with 0 in *. change (year_days 10000) with 3652059 in *.
  unfold MIN_DAYS, MAX_DAYS, civil_days, EPOCH_DAYS, year_length in *. lia.
Qed.

Lemma components_civil y m d : valid_civil y m d → components (civil_days y m d) = (y, m, d).
Proof.
  intros Hv. pose proof (civil_days_range y m d Hv) as Hr. destruct Hv as (Hy & Hm & Hd).
  destruct (month_search_split y m (d - 1)) as [Hrem Hms]; [lia..|].
  unfold components. destruct (year_search _ _ _ _) as [low high] eqn:Ey.
  unfold MIN_DAYS, MAX_DAYS, civil_days, EPOCH_DAYS in *.
  apply year_search_spec in Ey; [|lia|vm_compute; done|change (year_days 1) with 0; change (year_days 10000) with 3652059; unfold EPOCH_DAYS; lia].
  destruct Ey as [Hl Hdl]. pose proof (year_days_succ y ltac:(lia)). unfold year_length, EPOCH_DAYS in *.
  assert (low = y) as ->.
  { destruct (Z.lt_trichotomy low y) as [Hlt|[Heq|Hgt]]; [|done|].
    - pose proof (year_days_mono (low + 1) y ltac:(lia)). lia.
    - pose proof (year_days_mono (y + 1) low ltac:(lia)). lia. }
  replace (_ - year_days y) with (days_before_month y m + (d - 1)) by lia.
  rewrite Hms. do 2 f_equal. lia.
Qed.

Lemma digits_Ok l z : digits l = Ok z ↔ l ≠ [] ∧ all_digits l = true ∧ z = parse_digits l.
Proof.
  unfold digits. case_bool_decide as E; simpl; [naive_solver|].
  destruct (all_digits l); simpl; naive_solver.
Qed.

Lemma digits_pad0 w z :
  (0 < w)%nat → 0 ≤ z < 10 ^ Z.of_nat w → digits (pad0 w (show_nat z)) = Ok z.
Proof.
  intros Hw Hz. apply digits_Ok. split_and!.
  - intros E. pose proof (pad0_length w z Hw Hz) as Hl. rewrite E in Hl. simpl in Hl. lia.
  - apply pad0_digits, show_nat_digits. lia.
  - by rewrite parse_digits_pad0, parse_show_nat by lia.
Qed.

Lemma list_len4 (l : list Z) : length l = 4%nat → ∃ a b c d, l = [a; b; c; d].
Proof. destruct l as [|a [|b [|c [|d [|]]]]]; naive_solver. Qed.
Lemma list_len2 (l : list Z) : length l = 2%nat → ∃ a b, l = [a; b].
Proof. destruct l as [|a [|b [|]]]; naive_solver. Qed.

(** [Date::from_str] on three digit groups. *)
Lemma date_from_str_groups ys ms ds :
  length ys = 4%nat → length ms = 2%nat → length ds = 2%nat →
  date_from_str (ys ++ 45 :: ms ++ 45 :: ds) =
    (year ← digits ys; month ← digits ms; day ← digits ds;
     if (year =? 0) || negb (in_range 1 12 month) || (day =? 0) || (day >? month_days year month)
     then Err E_LITERAL else from_epoch_days (civil_days year month day)).
Proof.
  intros (a & b & c & d & ->)%list_len4 (e & f & ->)%list_len2 (g & h & ->)%list_len2. done.
Qed.

Lemma month_days_range y m : 28 ≤ month_days y m ≤ 31.
Proof. unfold month_days. repeat case_match; lia. Qed.

Lemma civil_accepted y m d :
  valid_civil y m d →
  (y =? 0) || negb (in_range 1 12 m) || (d =? 0) || (d >? month_days y m) = false ∧
  from_epoch_days (civil_days y m d) = Ok (civil_days y m d).
Proof.
  intros Hv. pose proof (civil_days_range y m d Hv) as Hr. destruct Hv as (Hy & Hm & Hd).
  unfold from_epoch_days. rewrite (proj2 (in_range_spec MIN_DAYS MAX_DAYS _) Hr).
  rewrite (proj2 (in_range_spec 1 12 m) Hm), Z.gtb_ltb.
  destruct (Z.eqb_spec y 0), (Z.eqb_spec d 0), (Z.ltb_spec (month_days y m) d); simpl; try lia; done.
Qed.

Lemma date_display_parse date :
  MIN_DAYS ≤ date ≤ MAX_DAYS → date_from_str (date_display date) = Ok date ∧ length (date_display date) = 10%nat.
Proof.
  intros Hr. unfold date_display. destruct (components date) as [[y m] d] eqn:E.
  apply components_spec in E as [Hv <-]; [|done]. pose proof (month_days_range y m).
  destruct (civil_accepted y m d Hv) as [Hc He]. destruct Hv as (Hy & Hm & Hd).
  split; [|rewrite length_app; cbn [length]; rewrite length_app; cbn [length];
           rewrite !pad0_length by (simpl; lia); done].
  rewrite date_from_str_groups by (apply pad0_length; simpl; lia).
  rewrite !digits_pad0 by (simpl; lia). cbn [mbind result_bind]. by rewrite Hc.
Qed.

Lemma date_parse_display source date :
  date_from_str source = Ok date → MIN_DAYS ≤ date ≤ MAX_DAYS ∧ date_display date = source.
Proof.
  intros H. unfold date_from_str in H. case_if_in H; [done|]. bool_inv.
  rewrite Nat.eqb_eq in *. unfold at_ in *.
  destruct source as [|s0 [|s1 [|s2 [|s3 [|s4 [|s5 [|s6 [|s7 [|s8 [|s9 [|]]]]]]]]]]]; try done.
  cbn in *. subst s4 s7. res_inv. case_if_in H; [done|]. bool_inv.
  repeat match goal with H : digits _ = Ok _ |- _ => apply digits_Ok in H as (_ & ? & ?) end.
  match goal with H : in_range 1 12 _ = true |- _ => apply in_range_spec in H end.
  unfold from_epoch_days in H. case_if_in H; [done|]. bool_inv. injection H as <-.
  match goal with H : in_range MIN_DAYS _ _ = true |- _ => apply in_range_spec in H; rename H into Hr end.
  split; [done|].
  assert (Hy : 0 ≤ x < 10 ^ 4) by (subst x; by apply (parse_digits_bound [s0; s1; s2; s3])).
  assert (Hd : 0 ≤ x1 < 10 ^ 2) by (subst x1; by apply (parse_digits_bound [s8; s9])).
  change (_ - 1 - EPOCH_DAYS) with (civil_days x x0 x1).
  unfold date_display. rewrite components_civil by (unfold valid_civil; lia). subst.
  change (pad0 (length [s0; s1; s2; s3]) (show_nat (parse_digits [s0; s1; s2; s3])) ++
    45 :: pad0 (length [s5; s6]) (show_nat (parse_digits [s5; s6])) ++
    45 :: pad0 (length [s8; s9]) (show_nat (parse_digits [s8; s9])) =
    [s0; s1; s2; s3] ++ 45 :: [s5; s6] ++ 45 :: [s8; s9]).
  by rewrite !pad0_show_parse.
Qed.

(** ** Properties: dates *)

(** a date's text and its day number determine each other: printing any date
    of years 0001 to 9999 parses back to it, and every text the parser accepts is
    exactly the text printed for the date it denotes. *)
Theorem date_text_bijection source date :
  (MIN_DAYS ≤ date ≤ MAX_DAYS ∧ date_display date = source) ↔ date_from_str source = Ok date.
Proof.
  split; [intros [Hr <-]; by apply date_display_parse | apply date_parse_display].
Qed.

(** [Date::components] yields a valid civil date whose day number is the
    date, and is the inverse of the day number on valid civil dates. *)
Theorem components_correct :
  (∀ date y m d, MIN_DAYS ≤ date ≤ MAX_DAYS → components date = (y, m, d) →
     valid_civil y m d ∧ civil_days y m d = date) ∧
  (∀ y m d, valid_civil y m d → components (civil_days y m d) = (y, m, d)).
Proof. split; [apply components_spec | apply components_civil]. Qed.

Lemma components_correct_witness : components (civil_days 2024 2 29) = (2024, 2, 29).
Proof. apply components_correct. unfold valid_civil. vm_compute. repeat split; discriminate. Defined.

(** ** Truncation *)
Lemma from_epoch_microseconds_Ok v x :
  from_epoch_microseconds v = Ok x ↔ x = v ∧ MIN_DAYS ≤ v / DAY_MICROS ≤ MAX_DAYS.
Proof.
  unfold from_epoch_microseconds. destruct (in_range _ _ _) eqn:E; simpl.
  - apply in_range_spec in E. naive_solver.
  - split; [done|]. intros [-> H%in_range_spec]. congruence.
Qed.

(** The start of a unit is at or before the local time, within its own unit:
    truncating the start gives the start. *)
Lemma unit_start_spec unit local :
  MIN_DAYS ≤ local / DAY_MICROS ≤ MAX_DAYS →
  unit_start unit local ≤ local ∧ unit_start unit (unit_start unit local) = unit_start unit local.
Proof.
  intros Hr. pose proof (Z.mul_div_le local DAY_MICROS ltac:(done)) as Hl.
  destruct (components (local / DAY_MICROS)) as [[y m] d] eqn:E.
  assert (E0 : unit_start unit local = match unit with
    | Year => (year_days y - EPOCH_DAYS) * DAY_MICROS
    | Month => (year_days y - EPOCH_DAYS + days_before_month y m) * DAY_MICROS
    | Week => (local / DAY_MICROS - (local / DAY_MICROS + 3) `mod` 7) * DAY_MICROS
    | u => local / unit_micros u * unit_micros u
    end) by (unfold unit_start; by rewrite E).
  rewrite E0. apply components_spec in E as [Hv Hc]; [|done]. unfold valid_civil, civil_days in *.
  pose proof (month_days_range y 1) as Hmd. pose proof (month_days_range y m) as Hmd2.
  assert (Hdbm : 0 ≤ days_before_month y m) by (pose proof (month_search_split y m 0); lia).
  assert (Hy1 : valid_civil y 1 1) by (unfold valid_civil; lia).
  assert (Hm1 : valid_civil y m 1) by (unfold valid_civil; lia).
  assert (Hfix : ∀ k, unit_start unit (k * DAY_MICROS) =
    let '(y, m, _) := components k in
    match unit with
    | Year => (year_days y - EPOCH_DAYS) * DAY_MICROS
    | Month => (year_days y - EPOCH_DAYS + days_before_month y m) * DAY_MICROS
    | Week => (k - (k + 3) `mod` 7) * DAY_MICROS
    | u => k * DAY_MICROS / unit_micros u * unit_micros u
    end) by (intros k; unfold unit_start; by rewrite Z.div_mul).
  destruct unit.
  4-9: (split; [rewrite Z.mul_comm; by apply Z.mul_div_le|]; unfold unit_start;
        rewrite (Z.div_mul _ (unit_micros _)) by done; by destruct (components _) as [[]]).
  - split; [unfold DAY_MICROS in *; lia|]. rewrite Hfix.
    replace (year_days y - EPOCH_DAYS) with (civil_days y 1 1) at 1
      by (unfold civil_days; change (days_before_month y 1) with 0; lia).
    by rewrite components_civil.
  - split; [unfold DAY_MICROS in *; lia|]. rewrite Hfix.
    replace (year_days y - EPOCH_DAYS + days_before_month y m) with (civil_days y m 1) at 1
      by (unfold civil_days; lia).
    by rewrite components_civil.
  - pose proof (Z.mod_pos_bound (local / DAY_MICROS + 3) 7 ltac:(lia)) as Hw.
    split; [unfold DAY_MICROS in *; lia|]. rewrite Hfix. destruct (components _) as [[y' m'] d'].
    f_equal. Z.div_mod_to_equations. lia.
Qed.

Lemma unit_start_lower unit local :
  MIN_DAYS ≤ local / DAY_MICROS ≤ MAX_DAYS → MIN_DAYS * DAY_MICROS ≤ unit_start unit local.
Proof.
  intros Hr. unfold unit_start. destruct (components (local / DAY_MICROS)) as [[y m] d] eqn:E.
  apply components_spec in E as [(Hy & Hm & Hd) Hc]; [|done]. unfold civil_days in *.
  pose proof (year_days_mono 1 y ltac:(lia)) as Hy1. change (year_days 1) with 0 in Hy1.
  pose proof (month_search_split y m 0 ltac:(lia)) as Hdbm. pose proof (month_days_range y m).
  assert (Hfloor : ∀ u j, 0 < u → MIN_DAYS * DAY_MICROS = j * u → MIN_DAYS * DAY_MICROS ≤ local / u * u).
  { intros u j Hu Hj. rewrite Hj. apply Z.mul_le_mono_nonneg_r; [lia|].
    apply Z.div_le_lower_bound; [lia|]. rewrite Z.mul_comm, <-Hj.
    pose proof (Z.mul_div_le local DAY_MICROS ltac:(done)). unfold MIN_DAYS, DAY_MICROS in *. lia. }
  unfold MIN_DAYS in *.
  destruct unit; cbn [unit_micros].
  - unfold DAY_MICROS. lia.
  - unfold DAY_MICROS. lia.
  - unfold DAY_MICROS, EPOCH_DAYS in *. Z.div_mod_to_equations. lia.
  - by apply (Hfloor _ (- EPOCH_DAYS)).
  - by apply (Hfloor _ (- EPOCH_DAYS * 24)).
  - by apply (Hfloor _ (- EPOCH_DAYS * 1440)).
  - by apply (Hfloor _ (- EPOCH_DAYS * 86400)).
  - by apply (Hfloor _ (- EPOCH_DAYS * 86400000)).
  - by apply (Hfloor _ (- EPOCH_DAYS * DAY_MICROS)).
Qed.

Lemma day_range_i64 v : MIN_DAYS ≤ v / DAY_MICROS ≤ MAX_DAYS → is_i64 v = true.
Proof.
  intros H. pose proof (Z.div_mod v DAY_MICROS ltac:(done)). pose proof (Z.mod_pos_bound v DAY_MICROS ltac:(done)).
  unfold MIN_DAYS, MAX_DAYS, EPOCH_DAYS, DAY_MICROS in *. unrange. lia.
Qed.

Lemma local_at_offset_Ok t off x :
  local_at_offset t off = Ok x ↔ x = t + off * 1000000 ∧ MIN_DAYS ≤ x / DAY_MICROS ≤ MAX_DAYS.
Proof.
  unfold local_at_offset. split.
  - intros H. res_inv. apply from_epoch_microseconds_Ok in H. naive_solver.
  - intros [-> Hr]. unfold checked. rewrite day_range_i64 by done. simpl.
    by rewrite (proj2 (from_epoch_microseconds_Ok _ _) (conj eq_refl Hr)).
Qed.

(** truncation at a fixed offset never moves a timestamp forward, returns the
    local start of the unit, and is idempotent: the result truncates to itself. *)
Theorem truncate_at_offset_floor t unit off r :
  truncate_at_offset t unit off = Ok r →
  r ≤ t ∧ r + off * 1000000 = unit_start unit (t + off * 1000000) ∧
  truncate_at_offset r unit off = Ok r.
Proof.
  unfold truncate_at_offset. intros H. res_inv.
  apply local_at_offset_Ok in Hx as [-> Hr]. apply from_epoch_microseconds_Ok in H as [-> Hu].
  destruct (unit_start_spec unit _ Hr) as [Hle Hfix]. pose proof (unit_start_lower unit _ Hr) as Hlo.
  remember (t + off * 1000000) as local eqn:El. remember (unit_start unit local) as st eqn:Est.
  assert (Hst : MIN_DAYS ≤ st / DAY_MICROS ≤ MAX_DAYS).
  { split; [apply Z.div_le_lower_bound; [done|lia]|].
    transitivity (local / DAY_MICROS); [by apply Z.div_le_mono|lia]. }
  assert (Hl2 : local_at_offset (st - off * 1000000) off = Ok st).
  { apply local_at_offset_Ok. split; [lia|done]. }
  assert (Hb2 : from_epoch_microseconds (st - off * 1000000) = Ok (st - off * 1000000)).
  { by apply from_epoch_microseconds_Ok. }
  split_and!; [lia|lia|].
  apply bind_Ok. exists st. split; [done|]. rewrite Hfix.
  apply bind_Ok. eexists. split; [by apply ok_or_Ok, checked_Some|]. by apply map_err_Ok.
Qed.

Lemma truncate_at_offset_floor_witness :
  truncate_at_offset 1708876800000000 Week 28800 = Ok 1708876800000000.
Proof.
  refine (proj2 (proj2 (truncate_at_offset_floor 1709181296789000 Week 28800 1708876800000000 _))).
  vm_compute. reflexivity.
Defined.

(** ** Durations *)
Lemma take_digits_app ds rest :
  all_digits ds = true → match rest with b :: _ => is_digit b = false | [] => True end →
  take_digits (ds ++ rest) = (ds, rest).
Proof.
  intros Hd Hr. induction ds as [|x ds IH]; simpl.
  - destruct rest; [done|]. simpl. by rewrite Hr.
  - cbn in Hd. apply andb_true_iff in Hd as [Hx Hd]. by rewrite Hx, IH.
Qed.

(** Every unit name, singular or plural, reads back as its size. *)
Definition unit_text_ok (u : string * Z) : bool :=
  forallb (λ suffix,
    let text := as_bytes u.1 ++ suffix in
    bool_decide (snd <$> find (λ v, bool_decide (as_bytes v.1 = default text (strip_suffix 115 text))) UNITS
                 = Some u.2)
    && match text with b :: _ => negb (is_digit b) | [] => false end) [[]; as_bytes "s"].

Lemma units_table : forallb unit_text_ok UNITS = true.
Proof. vm_compute. done. Qed.

Lemma units_positive : forallb (λ u : string * Z, 0 <? u.2) UNITS = true.
Proof. vm_compute. done. Qed.

Lemma duration_from_text (neg : bool) n u suffix :
  In u UNITS → In suffix [[]; as_bytes "s"] → 0 ≤ n →
  let amount := if neg then - n else n in
  is_i64 amount = true → is_i64 (amount * u.2) = true →
  duration_from_str ((if neg then [45] else []) ++ show_nat n ++ as_bytes u.1 ++ suffix) = Ok (amount * u.2).
Proof.
  intros Hu Hs Hn amount Ha Hm.
  pose proof (proj1 (forallb_forall _ _) (proj1 (forallb_forall _ _) units_table u Hu) suffix Hs) as Ht.
  cbv beta zeta in Ht. apply andb_true_iff in Ht as [Hf Hd]. apply bool_decide_eq_true in Hf.
  set (text := as_bytes u.1 ++ suffix) in *.
  pose proof (show_nat_digits n Hn) as Hdig. pose proof (show_nat_nonempty n Hn) as Hne.
  assert (Hstrip : strip_byte 45 ((if neg then [45] else []) ++ show_nat n ++ text) =
                   if neg then Some (show_nat n ++ text) else None).
  { destruct neg; [done|]. simpl. destruct (show_nat n) as [|x l]; [done|]. simpl.
    cbn in Hdig. apply andb_true_iff in Hdig as [Hx%is_digit_spec _]. destruct (Z.eqb_spec x 45); [lia|done]. }
  unfold duration_from_str. rewrite Hstrip.
  replace (default _ (if neg then _ else _)) with (show_nat n ++ text) by (by destruct neg).
  rewrite take_digits_app; [|done|destruct text; [done|by apply negb_true_iff]].
  rewrite bool_decide_eq_false_2 by done. rewrite parse_show_nat by done.
  replace (if bool_decide _ then - n else n) with amount by (by destruct neg).
  unfold checked. rewrite Ha. cbn [ok_or mbind result_bind]. rewrite Hf. cbn [ok_or mbind result_bind].
  by rewrite Hm.
Qed.

(** Every duration prints in its largest exact unit and parses back to the
    same number of microseconds. *)
Theorem duration_print_parse d : is_i64 d = true → duration_from_str (duration_display d) = Ok d.
Proof.
  intros Hd. unfold duration_display. destruct (Z.eqb_spec d 0) as [->|Hz]; [done|].
  destruct (find _ UNITS) as [[unit size]|] eqn:Ef.
  - apply find_some in Ef as [Hin Hrem]. cbn [snd] in Hrem. apply Z.eqb_eq in Hrem.
    pose proof (proj1 (forallb_forall _ _) units_positive _ Hin) as Hpos. cbn [snd] in Hpos. bool_inv.
    pose proof (Z.quot_rem' d size) as Hqr. rewrite Hrem, Z.add_0_r in Hqr.
    set (a := Z.quot d size) in *.
    assert (Ha : is_i64 a = true) by (unrange; nia).
    assert (Hsign : a = if a <? 0 then - Z.abs a else Z.abs a) by (destruct (Z.ltb_spec a 0); lia).
    rewrite (duration_from_text (a <? 0) (Z.abs a) (unit, size)); cbn [snd].
    + rewrite <-Hsign. f_equal. lia.
    + done.
    + destruct ((a =? 1) || (a =? -1)); simpl; auto.
    + lia.
    + by rewrite <-Hsign.
    + rewrite <-Hsign. replace (a * size) with d by lia. done.
  - pose proof (find_none _ _ Ef ("microsecond", 1) ltac:(simpl; tauto)) as Hn.
    cbn [snd] in Hn. by rewrite Z.rem_1_r in Hn.
Qed.

Lemma duration_print_parse_witness :
  is_i64 (-7200000000) = true ∧ duration_from_str (as_bytes "-2hours") = Ok (-7200000000).
Proof. split; [reflexivity|]. exact (duration_print_parse (-7200000000) eq_refl). Defined.

(** ** Timestamps *)
Lemma fraction_loop_digits ds rest n micros :
  all_digits ds = true → 0 ≤ n → n + zlen ds ≤ 6 →
  match rest with b :: _ => is_digit b = false | [] => True end →
  fraction_loop (ds ++ rest) n micros = Ok (n + zlen ds, micros * 10 ^ zlen ds + parse_digits ds, rest).
Proof.
  intros Hd Hn Hl Hr. revert n micros Hn Hl. induction ds as [|x ds IH]; intros n micros Hn Hl.
  - change (zlen []) with 0. change (parse_digits []) with 0. rewrite Z.pow_0_r, Z.mul_1_r, !Z.add_0_r.
    destruct rest as [|b rest]; simpl; [done|]. by rewrite Hr.
  - cbn [all_digits forallb] in Hd. apply andb_true_iff in Hd as [Hx Hd].
    rewrite zlen_cons, parse_digits_cons in *. pose proof (zlen_nonneg ds).
    cbn [app fraction_loop]. rewrite Hx. destruct (Z.ltb_spec n 6); [|lia].
    rewrite IH by (done || lia). rewrite Z.pow_add_r by lia. do 3 f_equal; lia.
Qed.

Lemma drop_zeros_spec l : ∃ k, l = replicate k 48 ++ drop_zeros l.
Proof.
  induction l as [|x l [k IH]]; [by exists 0%nat|]. simpl. destruct (Z.eqb_spec x 48) as [->|].
  - exists (S k). simpl. by f_equal.
  - by exists 0%nat.
Qed.

Lemma trim_zeros_spec l : ∃ k, l = trim_zeros l ++ replicate k 48.
Proof.
  unfold trim_zeros. destruct (drop_zeros_spec (rev l)) as [k Hk]. exists k.
  rewrite <-(rev_involutive l) at 1. rewrite Hk at 1. rewrite rev_app_distr. f_equal.
  rewrite rev_alt. apply reverse_replicate.
Qed.

(** The printed fraction reads back as the microseconds. *)
Lemma timestamp_fraction_display f :
  0 ≤ f < 10 ^ 6 →
  timestamp_fraction ((if f =? 0 then [] else 46 :: trim_zeros (pad0 6 (show_nat f))) ++ [90]) = Ok (f, [90]).
Proof.
  intros Hf. destruct (Z.eqb_spec f 0) as [->|Hf0]; [done|].
  set (l := pad0 6 (show_nat f)).
  assert (Hlen : length l = 6%nat) by (apply pad0_length; [lia|done]).
  assert (Hdig : all_digits l = true) by (apply pad0_digits, show_nat_digits; lia).
  assert (Hval : parse_digits l = f) by (unfold l; by rewrite parse_digits_pad0, parse_show_nat by lia).
  destruct (trim_zeros_spec l) as [k Hk]. set (z := trim_zeros l) in *.
  assert (Hz : all_digits z = true).
  { rewrite Hk in Hdig. unfold all_digits in *. rewrite forallb_app in Hdig. by apply andb_true_iff in Hdig as [? _]. }
  assert (Hkl : zlen z + Z.of_nat k = 6).
  { rewrite Hk, length_app, length_replicate in Hlen. unfold zlen. lia. }
  assert (Hv : f = parse_digits z * 10 ^ Z.of_nat k).
  { rewrite <-Hval, Hk at 1. rewrite parse_digits_app, parse_digits_zeros. unfold zlen. rewrite length_replicate. lia. }
  assert (Hzne : zlen z ≠ 0).
  { intros E. destruct z as [|z0 z']; [|rewrite zlen_cons in E; pose proof (zlen_nonneg z'); lia].
    change (parse_digits []) with 0 in Hv. lia. }
  unfold timestamp_fraction. cbn [app strip_byte]. rewrite Z.eqb_refl.
  rewrite fraction_loop_digits by (done || lia). cbn [mbind result_bind].
  rewrite Z.add_0_l. destruct (Z.eqb_spec (zlen z) 0); [done|].
  unfold sat_sub. rewrite Z.max_r by lia. do 2 f_equal. rewrite Hv. replace (6 - zlen z) with (Z.of_nat k) by lia. lia.
Qed.

Lemma list_len10 (l : list Z) :
  length l = 10%nat → ∃ a b c d e f g h i j, l = [a; b; c; d; e; f; g; h; i; j].
Proof. destruct l as [|? [|? [|? [|? [|? [|? [|? [|? [|? [|? [|]]]]]]]]]]]; naive_solver. Qed.

Lemma timestamp_from_str_groups dt hh mm ss rest :
  length dt = 10%nat → length hh = 2%nat → length mm = 2%nat → length ss = 2%nat → rest ≠ [] →
  forallb (in_range 0 127) (dt ++ 84 :: hh ++ 58 :: mm ++ 58 :: ss ++ rest) = true →
  timestamp_from_str (dt ++ 84 :: hh ++ 58 :: mm ++ 58 :: ss ++ rest) =
    (date ← date_from_str dt; hour ← digits hh; minute ← digits mm; second ← digits ss;
     if (hour >? 23) || (minute >? 59) || (second >? 59) then Err E_LITERAL
     else
       '(micros, offset) ← timestamp_fraction rest;
       offset_seconds ← fixed_offset_seconds offset;
       from_epoch_microseconds
         (date * DAY_MICROS + (hour * 3600 + minute * 60 + second - offset_seconds) * 1000000 + micros)).
Proof.
  intros (a & b & c & d & e & f & g & h & i & j & ->)%list_len10 (k & l & ->)%list_len2
    (m & n & ->)%list_len2 (o & p & ->)%list_len2 Hr Ha. destruct rest as [|r0 rest]; [done|].
  unfold timestamp_from_str. rewrite Ha. done.
Qed.

Lemma digits_ascii l : all_digits l = true → forallb (in_range 0 127) l = true.
Proof.
  unfold all_digits. rewrite !forallb_forall. intros H x Hx. apply in_range_spec.
  apply H, is_digit_spec in Hx. lia.
Qed.

Lemma pad0_ascii w z : 0 ≤ z → forallb (in_range 0 127) (pad0 w (show_nat z)) = true.
Proof. intros Hz. by apply digits_ascii, pad0_digits, show_nat_digits. Qed.

Lemma date_display_ascii date :
  MIN_DAYS ≤ date ≤ MAX_DAYS → forallb (in_range 0 127) (date_display date) = true.
Proof.
  intros Hr. unfold date_display. destruct (components date) as [[y m] d] eqn:E.
  apply components_spec in E as [(Hy & Hm & Hd) _]; [|done].
  rewrite forallb_app. cbn [forallb]. rewrite forallb_app. cbn [forallb]. by rewrite !pad0_ascii by lia.
Qed.

Lemma fraction_ascii f :
  0 ≤ f < 10 ^ 6 →
  forallb (in_range 0 127) ((if f =? 0 then [] else 46 :: trim_zeros (pad0 6 (show_nat f))) ++ [90]) = true.
Proof.
  intros Hf. rewrite forallb_app, andb_true_r. destruct (f =? 0); [done|]. cbn [forallb].
  destruct (trim_zeros_spec (pad0 6 (show_nat f))) as [k Hk].
  pose proof (pad0_ascii 6 f ltac:(lia)) as H. rewrite Hk, forallb_app in H. by apply andb_true_iff in H as [-> _].
Qed.

Lemma timestamp_display_parse t :
  from_epoch_microseconds t = Ok t → timestamp_from_str (timestamp_display t) = Ok t.
Proof.
  intros Ht. pose proof Ht as [_ Hr]%from_epoch_microseconds_Ok.
  destruct (date_display_parse _ Hr) as [Hdp Hdl].
  pose proof (Z.div_mod t DAY_MICROS ltac:(done)) as Hdm.
  pose proof (Z.mod_pos_bound t DAY_MICROS ltac:(done)) as Hm.
  unfold timestamp_display. set (rem := t `mod` DAY_MICROS) in *. set (sec := rem / 1000000).
  assert (Hsec : 0 ≤ sec < 86400) by (unfold sec, DAY_MICROS in *; Z.div_mod_to_equations; lia).
  assert (Hh : 0 ≤ sec / 3600 ≤ 23) by (Z.div_mod_to_equations; lia).
  assert (Hmi : 0 ≤ (sec / 60) `mod` 60 ≤ 59) by (Z.div_mod_to_equations; lia).
  assert (Hse : 0 ≤ sec `mod` 60 ≤ 59) by (Z.div_mod_to_equations; lia).
  assert (Hfr : 0 ≤ rem `mod` 1000000 < 10 ^ 6) by (apply Z.mod_pos_bound; lia).
  change (as_bytes "T") with [84]. change (as_bytes ":") with [58]. change (as_bytes "Z") with [90].
  cbn [app]. rewrite timestamp_from_str_groups.
  - rewrite Hdp, !digits_pad0 by (simpl; lia). cbn [mbind result_bind].
    rewrite !Z.gtb_ltb. destruct (Z.ltb_spec 23 (sec / 3600)), (Z.ltb_spec 59 ((sec / 60) `mod` 60)),
      (Z.ltb_spec 59 (sec `mod` 60)); try lia. cbn [orb].
    rewrite timestamp_fraction_display by done. cbn [mbind result_bind].
    change (fixed_offset_seconds [90]) with (Ok 0 : result Z). cbn [mbind result_bind].
    etransitivity; [|exact Ht]. f_equal. clearbody rem. subst sec. clear -Hdm.
    Z.div_mod_to_equations; lia.
  - done.
  - apply pad0_length; simpl; lia.
  - apply pad0_length; simpl; lia.
  - apply pad0_length; simpl; lia.
  - destruct (_ =? 0); done.
  - rewrite forallb_app. cbn [forallb]. rewrite forallb_app. cbn [forallb]. rewrite forallb_app.
    cbn [forallb]. rewrite forallb_app. rewrite date_display_ascii, !pad0_ascii, fraction_ascii by (done || lia). done.
Qed.

(** Printing a UTC timestamp in RFC 3339 form and parsing the text returns
    the same instant, to the microsecond, over the whole supported range. *)
Theorem timestamp_print_parse t :
  from_epoch_microseconds t = Ok t → timestamp_from_str (timestamp_display t) = Ok t.
Proof. apply timestamp_display_parse. Qed.

Lemma timestamp_print_parse_witness :
  timestamp_from_str (as_bytes "2024-02-29T04:34:56.789Z") = Ok 1709181296789000.
Proof.
  change (as_bytes "2024-02-29T04:34:56.789Z") with (timestamp_display 1709181296789000).
  apply timestamp_print_parse. reflexivity.
Defined.
