(* ===== verification/Float64.v ===== *)
(** * IEEE-754 binary64

    A Rust [f64] is its 64-bit pattern, a [Z] below [2^64].  Its numerical value
    is given exactly by [scaled], the value multiplied by [2^1074], so that
    comparison and conversion are integer operations and evaluate. *)
From S2P Require Import Prelude Bytes.

Definition f64_negative (b : Z) : bool := 2 ^ 63 <=? b.
Definition f64_exponent (b : Z) : Z := (b / 2 ^ 52) `mod` 2 ^ 11.
Definition f64_fraction (b : Z) : Z := b `mod` 2 ^ 52.

(** [f64::is_finite], [f64::is_nan] and [*v == 0.0]. *)
Definition is_finite (b : Z) : bool := negb (f64_exponent b =? 2047).
Definition is_nan (b : Z) : bool := (f64_exponent b =? 2047) && negb (f64_fraction b =? 0).
Definition is_zero (b : Z) : bool := b `mod` 2 ^ 63 =? 0.

(** Magnitude and value, times [2^1074]; infinities sit above every finite value. *)
Definition mag (b : Z) : Z :=
  let e := f64_exponent b in
  if e =? 0 then f64_fraction b else (2 ^ 52 + f64_fraction b) * 2 ^ (e - 1).
Definition scaled (b : Z) : Z := if f64_negative b then - mag b else mag b.

(** [f64::partial_cmp] and [==]. *)
Definition f64_partial_cmp (a b : Z) : option comparison :=
  if is_nan a || is_nan b then None else Some (scaled a ?= scaled b).
Definition f64_eq (a b : Z) : bool :=
  match f64_partial_cmp a b with Some Eq => true | _ => false end.

(** [v as f64] for an [i64]: round to nearest, ties to even. *)
Definition i64_as_f64 (v : Z) : Z :=
  let s := if v <? 0 then 2 ^ 63 else 0 in
  let m := Z.abs v in
  if m =? 0 then 0
  else
    let n := Z.log2 m in
    if n <=? 52 then s + (n + 1023) * 2 ^ 52 + (m * 2 ^ (52 - n) - 2 ^ 52)
    else
      let sh := n - 52 in
      let q := m / 2 ^ sh in
      let r := m `mod` 2 ^ sh in
      let half := 2 ^ (sh - 1) in
      let q := q + (if (half <? r) || ((r =? half) && Z.odd q) then 1 else 0) in
      s + (n + 1023) * 2 ^ 52 + (q - 2 ^ 52).

(** [f as i128]: truncation, saturating, with NaN going to zero. *)
Definition f64_as_i128 (b : Z) : Z :=
  if is_nan b then 0
  else Z.max (- 2 ^ 127) (Z.min (2 ^ 127 - 1) (Z.quot (scaled b) (2 ^ 1074))).

(** The order-preserving bit pattern used by index keys: flip the sign bit of a
    non-negative number, complement a negative one, identify the two zeros. *)
Definition ordered_bits (b : Z) : Z :=
  let bits := if is_zero b then 0 else b in
  if Z.land bits (2 ^ 63) =? 0 then Z.lxor bits (2 ^ 63) else 2 ^ 64 - 1 - bits.

Lemma mag_mono x y : 0 ≤ x < y → y < 2 ^ 63 → mag x < mag y.
Proof.
  intros Hxy Hy. unfold mag, f64_exponent, f64_fraction.
  assert (Hx52 := Z.div_mod x (2 ^ 52) ltac:(lia)). assert (Hy52 := Z.div_mod y (2 ^ 52) ltac:(lia)).
  assert (Hfx := Z.mod_pos_bound x (2 ^ 52) ltac:(lia)). assert (Hfy := Z.mod_pos_bound y (2 ^ 52) ltac:(lia)).
  assert (0 ≤ x / 2 ^ 52 < 2 ^ 11) by (split; [apply Z.div_pos | apply Z.div_lt_upper_bound]; lia).
  assert (0 ≤ y / 2 ^ 52 < 2 ^ 11) by (split; [apply Z.div_pos | apply Z.div_lt_upper_bound]; lia).
  rewrite !(Z.mod_small (_ / 2 ^ 52)) by done.
  set (ex := x / 2 ^ 52) in *. set (ey := y / 2 ^ 52) in *.
  set (fx := x `mod` 2 ^ 52) in *. set (fy := y `mod` 2 ^ 52) in *.
  assert (Hle : ex ≤ ey) by nia.
  destruct (Z.eq_dec ex ey) as [E|E].
  - rewrite E. assert (fx < fy) by nia. destruct (Z.eqb_spec ey 0); [lia|].
    apply Z.mul_lt_mono_pos_r; [apply Z.pow_pos_nonneg|]; lia.
  - destruct (Z.eqb_spec ey 0); [lia|].
    assert (Hup : (if ex =? 0 then fx else (2 ^ 52 + fx) * 2 ^ (ex - 1)) < 2 ^ (52 + ex)).
    { destruct (Z.eqb_spec ex 0) as [->|]; [lia|].
      replace (52 + ex) with (53 + (ex - 1)) by lia. rewrite (Z.pow_add_r 2 53) by lia.
      apply Z.mul_lt_mono_pos_r; [apply Z.pow_pos_nonneg|]; lia. }
    assert (2 ^ (52 + ex) ≤ 2 ^ (51 + ey)) by (apply Z.pow_le_mono_r; lia).
    assert (2 ^ (51 + ey) = 2 ^ 52 * 2 ^ (ey - 1)) by (rewrite <-Z.pow_add_r by lia; f_equal; lia).
    assert (0 < 2 ^ (ey - 1)) by (apply Z.pow_pos_nonneg; lia). nia.
Qed.

Lemma mag_nonneg b : 0 ≤ mag b.
Proof.
  unfold mag, f64_fraction, f64_exponent. pose proof (Z.mod_pos_bound b (2 ^ 52) ltac:(lia)).
  pose proof (Z.mod_pos_bound (b / 2 ^ 52) (2 ^ 11) ltac:(lia)).
  destruct (_ =? 0); [lia|]. apply Z.mul_nonneg_nonneg; [lia|]. apply Z.pow_nonneg. lia.
Qed.

(** The sign bit does not enter the magnitude. *)
Lemma mag_low b : 0 ≤ b → mag (b + 2 ^ 63) = mag b.
Proof.
  intros Hb. unfold mag, f64_exponent, f64_fraction.
  replace (b + 2 ^ 63) with (b + 2 ^ 11 * 2 ^ 52) by lia.
  rewrite Z_div_plus_full, Z_mod_plus_full by lia.
  by replace ((b / 2 ^ 52 + 2 ^ 11) `mod` 2 ^ 11) with ((b / 2 ^ 52) `mod` 2 ^ 11)
    by (by rewrite <-(Z_mod_plus_full (b / 2 ^ 52) 1), Z.mul_1_l).
Qed.

Lemma mag_compare x y : 0 ≤ x < 2 ^ 63 → 0 ≤ y < 2 ^ 63 → (mag x ?= mag y) = (x ?= y).
Proof.
  intros Hx Hy. destruct (Z.compare_spec x y) as [->|H|H].
  - apply Z.compare_refl.
  - apply Z.compare_lt_iff, mag_mono; lia.
  - apply Z.compare_gt_iff, mag_mono; lia.
Qed.

Lemma mag_pos x : 0 < x < 2 ^ 63 → 0 < mag x.
Proof. intros. change 0 with (mag 0). apply mag_mono; lia. Qed.

(** Each pattern is a sign and a 63-bit magnitude pattern. *)
Lemma f64_cases b :
  is_u64 b = true →
  (∃ x, 0 ≤ x < 2 ^ 63 ∧ b = x ∧ scaled b = mag x ∧ (is_zero b = true ↔ x = 0) ∧
        ordered_bits b = x + 2 ^ 63) ∨
  (∃ x, 0 ≤ x < 2 ^ 63 ∧ b = x + 2 ^ 63 ∧ scaled b = - mag x ∧ (is_zero b = true ↔ x = 0) ∧
        ordered_bits b = if x =? 0 then 2 ^ 63 else 2 ^ 63 - 1 - x).
Proof.
  intros Hb. unrange. unfold scaled, f64_negative, is_zero, ordered_bits, is_zero.
  assert (Hland : ∀ x, 0 ≤ x < 2 ^ 63 → Z.land x (2 ^ 63) = 0).
  { intros x Hx. apply Z.bits_inj'. intros n Hn. rewrite Z.land_spec, Z.bits_0, Z.pow2_bits_eqb by lia.
    destruct (Z.eqb_spec 63 n) as [<-|]; [|apply andb_false_r].
    rewrite andb_true_r. apply Z.testbit_false; [lia|]. by rewrite Z.div_small. }
  destruct (Z.leb_spec (2 ^ 63) b) as [Hge|Hlt].
  - right. exists (b - 2 ^ 63).
    assert (Hm : b `mod` 2 ^ 63 = b - 2 ^ 63).
    { replace b with (b - 2 ^ 63 + 1 * 2 ^ 63) at 1 by lia. rewrite Z_mod_plus_full. apply Z.mod_small. lia. }
    rewrite <-(mag_low (b - 2 ^ 63)), Hm by lia. replace (b - 2 ^ 63 + 2 ^ 63) with b by lia.
    split_and!; try lia.
    destruct (Z.eqb_spec (b - 2 ^ 63) 0) as [E|E]; [done|].
    assert (Hl : Z.land b (2 ^ 63) ≠ 0).
    { intros H0. apply (f_equal (λ z, Z.testbit z 63)) in H0.
      rewrite Z.land_spec, Z.pow2_bits_true, Z.bits_0, andb_true_r in H0 by lia.
      apply Z.testbit_false in H0; [|lia]. replace (b / 2 ^ 63) with 1 in H0; [done|].
      apply Z.div_unique with (b - 2 ^ 63); lia. }
    destruct (Z.eqb_spec (Z.land b (2 ^ 63)) 0); [done|lia].
  - left. exists b. rewrite (Z.mod_small b (2 ^ 63)) by lia.
    split_and!; try lia.
    assert (Hx : ∀ x, 0 ≤ x < 2 ^ 63 → (if Z.land x (2 ^ 63) =? 0 then Z.lxor x (2 ^ 63) else 2 ^ 64 - 1 - x) = x + 2 ^ 63).
    { intros x Hx. rewrite Hland by done. simpl. symmetry. apply Z.add_nocarry_lxor. by apply Hland. }
    destruct (Z.eqb_spec b 0) as [->|]; apply Hx; lia.
Qed.

(** The ordered bit pattern sorts floats by value. *)
Lemma ordered_bits_compare a b :
  is_u64 a = true → is_u64 b = true → (ordered_bits a ?= ordered_bits b) = (scaled a ?= scaled b).
Proof.
  intros Ha Hb.
  destruct (f64_cases a Ha) as [(x & Hx & _ & -> & _ & ->)|(x & Hx & _ & -> & _ & ->)],
           (f64_cases b Hb) as [(y & Hy & _ & -> & _ & ->)|(y & Hy & _ & -> & _ & ->)].
  - rewrite mag_compare by done. destruct (Z.compare_spec x y), (Z.compare_spec (x + 2 ^ 63) (y + 2 ^ 63)); try done; lia.
  - pose proof (mag_nonneg x). destruct (Z.eqb_spec y 0) as [->|Hy0].
    + change (- mag 0) with (mag 0). rewrite mag_compare by lia.
      destruct (Z.compare_spec x 0), (Z.compare_spec (x + 2 ^ 63) (2 ^ 63)); try done; lia.
    + pose proof (mag_pos y ltac:(lia)).
      destruct (Z.compare_spec (x + 2 ^ 63) (2 ^ 63 - 1 - y)), (Z.compare_spec (mag x) (- mag y)); try done; lia.
  - pose proof (mag_nonneg y). destruct (Z.eqb_spec x 0) as [->|Hx0].
    + change (- mag 0) with (mag 0). rewrite mag_compare by lia.
      destruct (Z.compare_spec 0 y), (Z.compare_spec (2 ^ 63) (y + 2 ^ 63)); try done; lia.
    + pose proof (mag_pos x ltac:(lia)).
      destruct (Z.compare_spec (2 ^ 63 - 1 - x) (y + 2 ^ 63)), (Z.compare_spec (- mag x) (mag y)); try done; lia.
  - rewrite Z.compare_opp, mag_compare by done.
    destruct (Z.eqb_spec x 0) as [->|], (Z.eqb_spec y 0) as [->|].
    + done.
    + destruct (Z.compare_spec (2 ^ 63) (2 ^ 63 - 1 - y)), (Z.compare_spec y 0); try done; lia.
    + destruct (Z.compare_spec (2 ^ 63 - 1 - x) (2 ^ 63)), (Z.compare_spec 0 x); try done; lia.
    + destruct (Z.compare_spec (2 ^ 63 - 1 - x) (2 ^ 63 - 1 - y)), (Z.compare_spec y x); try done; lia.
Qed.

Lemma ordered_bits_u64 b : is_u64 b = true → 0 ≤ ordered_bits b < 2 ^ 64.
Proof.
  intros Hb. destruct (f64_cases b Hb) as [(x & Hx & _ & _ & _ & ->)|(x & Hx & _ & _ & _ & ->)]; [lia|].
  destruct (x =? 0); lia.
Qed.

(** ** Conversion from [i64] *)

Lemma i64_as_f64_fields v :
  is_i64 v = true → v ≠ 0 →
  ∃ e f k, 1023 ≤ e ≤ 1087 ∧ 0 ≤ f < 2 ^ 52 ∧
    i64_as_f64 v = (if v <? 0 then 2 ^ 63 else 0) + e * 2 ^ 52 + f ∧
    (2 ^ 52 + f) * 2 ^ (e - 1) = k * 2 ^ 1074 ∧ 0 ≤ k ≤ 2 ^ 64 ∧
    (Z.abs v < 2 ^ 53 → k = Z.abs v).
Proof.
  intros Hv H0. unrange. unfold i64_as_f64.
  destruct (Z.eqb_spec (Z.abs v) 0) as [|Hm]; [lia|].
  set (m := Z.abs v) in *. assert (Hm1 : 0 < m) by lia.
  pose proof (Z.log2_spec m Hm1) as Hn. set (n := Z.log2 m) in *.
  assert (0 ≤ n) by apply Z.log2_nonneg.
  assert (n ≤ 63) by (change 63 with (Z.log2 (2 ^ 63)); apply Z.log2_le_mono; lia).
  destruct (Z.leb_spec n 52).
  - exists (n + 1023), (m * 2 ^ (52 - n) - 2 ^ 52), m.
    assert (2 ^ n * 2 ^ (52 - n) = 2 ^ 52) by (rewrite <-Z.pow_add_r by lia; f_equal; lia).
    assert (2 ^ Z.succ n * 2 ^ (52 - n) = 2 ^ 53) by (rewrite <-Z.pow_add_r by lia; f_equal; lia).
    assert (0 < 2 ^ (52 - n)) by (apply Z.pow_pos_nonneg; lia).
    split_and!; try lia; try nia.
    replace (2 ^ 52 + (m * 2 ^ (52 - n) - 2 ^ 52)) with (m * 2 ^ (52 - n)) by lia.
    rewrite <-Z.mul_assoc, <-Z.pow_add_r by lia. do 2 f_equal. lia.
  - assert (2 ^ 53 ≤ m) by (apply Z.le_trans with (2 ^ n); [apply Z.pow_le_mono_r|]; lia).
    set (q := m / 2 ^ (n - 52)).
    assert (Hp : 0 < 2 ^ (n - 52) ≤ 2 ^ 11) by (split; [apply Z.pow_pos_nonneg | apply Z.pow_le_mono_r]; lia).
    assert (Hq : 2 ^ 52 ≤ q < 2 ^ 53).
    { assert (2 ^ n = 2 ^ 52 * 2 ^ (n - 52)) by (rewrite <-Z.pow_add_r by lia; f_equal; lia).
      assert (2 ^ Z.succ n = 2 ^ 53 * 2 ^ (n - 52)) by (rewrite <-Z.pow_add_r by lia; f_equal; lia).
      split; [apply Z.div_le_lower_bound | apply Z.div_lt_upper_bound]; lia. }
    match goal with |- context [q + ?c0] => set (c := c0) end.
    assert (0 ≤ c ≤ 1) by (subst c; case_match; lia). clearbody c q.
    assert (Hk : ∀ a : Z, (a * 2 ^ (n - 52)) * 2 ^ 1074 = a * 2 ^ (n + 1022)).
    { intros a. rewrite <-Z.mul_assoc, <-Z.pow_add_r by lia. do 2 f_equal. lia. }
    destruct (decide (q + c = 2 ^ 53)) as [Ec|Ec].
    + exists (n + 1024), 0, ((q + c) * 2 ^ (n - 52)). rewrite Hk, Ec. split_and!; try lia.
      replace (n + 1024 - 1) with (1 + (n + 1022)) by lia. rewrite Z.pow_add_r by lia. lia.
    + exists (n + 1023), (q + c - 2 ^ 52), ((q + c) * 2 ^ (n - 52)). rewrite Hk.
      split_and!; try lia; try nia. replace (n + 1023 - 1) with (n + 1022) by lia. f_equal. lia.
Qed.

Lemma fields_exponent s e f :
  s = 0 ∨ s = 2 ^ 63 → 0 ≤ e < 2 ^ 11 → 0 ≤ f < 2 ^ 52 →
  f64_exponent (s + e * 2 ^ 52 + f) = e ∧ f64_fraction (s + e * 2 ^ 52 + f) = f.
Proof.
  intros Hs He Hf. unfold f64_exponent, f64_fraction.
  assert (∃ k, s = k * 2 ^ 11 * 2 ^ 52) as [k ->] by (destruct Hs as [->| ->]; [by exists 0 | by exists 1]).
  replace (k * 2 ^ 11 * 2 ^ 52 + e * 2 ^ 52 + f) with (f + (e + k * 2 ^ 11) * 2 ^ 52) by lia.
  rewrite Z_div_plus_full, Z_mod_plus_full by lia. rewrite Z.div_small, (Z.mod_small f) by lia.
  split; [|done]. rewrite Z.add_0_l, Z_mod_plus_full, Z.mod_small by lia. done.
Qed.

(** An [i64] converts to a finite number that is not a negative zero. *)
Lemma i64_as_f64_finite v :
  is_i64 v = true →
  is_u64 (i64_as_f64 v) = true ∧ is_finite (i64_as_f64 v) = true ∧
  (is_zero (i64_as_f64 v) = true → i64_as_f64 v = 0).
Proof.
  intros Hv. destruct (decide (v = 0)) as [->|H0]; [done|].
  destruct (i64_as_f64_fields v Hv H0) as (e & f & k & He & Hf & -> & _).
  set (s := if v <? 0 then 2 ^ 63 else 0).
  assert (Hs : s = 0 ∨ s = 2 ^ 63) by (subst s; case_match; auto).
  destruct (fields_exponent s e f Hs ltac:(lia) Hf) as [Ee Ef].
  split_and!.
  - unrange. lia.
  - unfold is_finite. rewrite Ee. destruct (Z.eqb_spec e 2047); [lia|done].
  - unfold is_zero. intros H%Z.eqb_eq. exfalso.
    replace (s + e * 2 ^ 52 + f) with ((e * 2 ^ 52 + f) + (s / 2 ^ 63) * 2 ^ 63) in H
      by (destruct Hs as [->| ->]; [by rewrite Z.add_0_r | change (2 ^ 63 / 2 ^ 63) with 1; lia]).
    rewrite Z_mod_plus_full, Z.mod_small in H; lia.
Qed.

(** The converted value is a whole number [k]; it is [v] itself below [2^53]. *)
Lemma i64_as_f64_whole v :
  is_i64 v = true →
  ∃ k, scaled (i64_as_f64 v) = k * 2 ^ 1074 ∧ f64_as_i128 (i64_as_f64 v) = k ∧ (Z.abs v ≤ 2 ^ 53 → k = v).
Proof.
  intros Hv. destruct (decide (v = 0)) as [->|H0]; [by exists 0|].
  destruct (decide (Z.abs v = 2 ^ 53)) as [Hb|Hb].
  { exists v. assert (v = 2 ^ 53 ∨ v = - 2 ^ 53) as [->| ->] by lia; done. }
  destruct (i64_as_f64_fields v Hv H0) as (e & f & k & He & Hf & E & Hk & Hkb & Hkv).
  assert (Hneg : f64_negative (i64_as_f64 v) = (v <? 0)).
  { unfold f64_negative. rewrite E. destruct (v <? 0); [apply Z.leb_le | apply Z.leb_gt]; lia. }
  assert (Hs : scaled (i64_as_f64 v) = (if v <? 0 then - k else k) * 2 ^ 1074).
  { destruct (fields_exponent (if v <? 0 then 2 ^ 63 else 0) e f) as [Ee Ef]; [case_match; auto|lia|done|].
    unfold scaled. rewrite Hneg. unfold mag. rewrite E, Ee, Ef. destruct (Z.eqb_spec e 0); [lia|]. rewrite Hk.
    destruct (v <? 0); lia. }
  destruct (i64_as_f64_finite v Hv) as (_ & Hfin & _).
  assert (Hnan : is_nan (i64_as_f64 v) = false).
  { unfold is_nan, is_finite in *. apply negb_true_iff in Hfin. by rewrite Hfin. }
  exists (if v <? 0 then - k else k). split; [done|]. unfold f64_as_i128. rewrite Hnan, Hs.
  rewrite Z.quot_mul by (apply Z.pow_nonzero; lia).
  destruct (Z.ltb_spec v 0); split; try lia; intros Hle; rewrite Hkv; lia.
Qed.

(** Truncating the conversion back and comparing with [v], as the coercion does,
    accepts exact conversions only. *)
Lemma i64_as_f64_exact v :
  is_i64 v = true → f64_as_i128 (i64_as_f64 v) = v → scaled (i64_as_f64 v) = v * 2 ^ 1074.
Proof. intros Hv H. by destruct (i64_as_f64_whole v Hv) as (k & Hs & <- & _); rewrite Hs, H. Qed.
