(* ===== verification/FloatArith.v ===== *)
(** * Floating-point arithmetic

    The [f64] operations that scalar expressions use (src/src/expression.rs):
    [+], [-], [*], [/], negation and the integer roundings.  Results are the exact
    rational value rounded to nearest, ties to even, as IEEE-754 prescribes. *)
From S2P Require Import Prelude Bytes Decimal Float64.

Definition f64_infinity : Z := 2047 * 2 ^ 52.
Definition f64_nan : Z := f64_infinity + 2 ^ 51.
Definition sign_bit (negative : bool) : Z := if negative then 2 ^ 63 else 0.
Definition is_infinite (b : Z) : bool := b `mod` 2 ^ 63 =? f64_infinity.

(** Quotient rounded to nearest, ties to even. *)
Definition rne (n d : Z) : Z :=
  let q := n / d in
  let r := n `mod` d in
  if (d <? 2 * r) || ((2 * r =? d) && Z.odd q) then q + 1 else q.

(** The positive float nearest to [n / d], in units of [2^-1074].  Below [2^53] units
    the patterns are the integers themselves; above, [m * 2^k] with [m] of 53 bits
    has pattern [k * 2^52 + m]. *)
Definition f64_of_ratio (n d : Z) : Z :=
  let k := Z.max 0 (Z.log2 (n / d) - 52) in
  Z.min (k * 2 ^ 52 + rne n (d * 2 ^ k)) f64_infinity.

(** Negation flips the sign bit. *)
Definition f64_neg (a : Z) : Z := if f64_negative a then a - 2 ^ 63 else a + 2 ^ 63.

Definition f64_add (a b : Z) : Z :=
  if is_nan a || is_nan b then f64_nan
  else if is_infinite a then
    if is_infinite b && negb (Bool.eqb (f64_negative a) (f64_negative b)) then f64_nan else a
  else if is_infinite b then b
  else
    let sum := scaled a + scaled b in
    if sum =? 0 then sign_bit (f64_negative a && f64_negative b)
    else sign_bit (sum <? 0) + f64_of_ratio (Z.abs sum) 1.

Definition f64_sub (a b : Z) : Z := f64_add a (f64_neg b).

Definition f64_mul (a b : Z) : Z :=
  let s := sign_bit (xorb (f64_negative a) (f64_negative b)) in
  if is_nan a || is_nan b then f64_nan
  else if is_infinite a || is_infinite b then
    if is_zero a || is_zero b then f64_nan else s + f64_infinity
  else s + f64_of_ratio (mag a * mag b) (2 ^ 1074).

Definition f64_div (a b : Z) : Z :=
  let s := sign_bit (xorb (f64_negative a) (f64_negative b)) in
  if is_nan a || is_nan b then f64_nan
  else if is_infinite a then if is_infinite b then f64_nan else s + f64_infinity
  else if is_infinite b then s
  else if is_zero b then if is_zero a then f64_nan else s + f64_infinity
  else s + f64_of_ratio (mag a * 2 ^ 1074) (mag b).

(** Integer roundings of a finite float; the code's intermediate float holds the same
    integer exactly. *)
Definition f64_trunc (b : Z) : Z := Z.quot (scaled b) (2 ^ 1074).
Definition f64_floor (b : Z) : Z := scaled b / 2 ^ 1074.
Definition f64_ceil (b : Z) : Z := - (- scaled b / 2 ^ 1074).
Definition f64_round (b : Z) : Z := Z.sgn (scaled b) * ((2 * Z.abs (scaled b) + 2 ^ 1074) / (2 * 2 ^ 1074)).
Definition f64_round_ties_even (b : Z) : Z := Z.sgn (scaled b) * rne (Z.abs (scaled b)) (2 ^ 1074).
Definition f64_has_fraction (b : Z) : bool := negb (Z.rem (scaled b) (2 ^ 1074) =? 0).

(** [float_to_integer] of src/src/expression.rs. *)
Definition float_to_integer (value : Z) (rounding : DecimalRounding) : result Z :=
  if negb (is_finite value) then Err "E_CAST_RANGE"
  else
    rounded ← match rounding with
              | Exact => if f64_has_fraction value then Err "E_CAST_PRECISION" else Ok (f64_trunc value)
              | TowardZero => Ok (f64_trunc value)
              | AwayFromZero => Ok (if scaled value <? 0 then f64_floor value else f64_ceil value)
              | Floor => Ok (f64_floor value)
              | Ceil => Ok (f64_ceil value)
              | HalfUp => Ok (f64_round value)
              | HalfEven => Ok (f64_round_ties_even value)
              end;
    if negb (in_range (- 2 ^ 63) (2 ^ 63 - 1) rounded) then Err "E_CAST_RANGE" else Ok rounded.

(** [finite_float]. *)
Definition finite_float (value : Z) : result Z :=
  if negb (is_finite value) then Err "E_ARITH" else Ok (if is_zero value then 0 else value).

Lemma rne_bounds n d : 0 ≤ n → 0 < d → n / d ≤ rne n d ≤ n / d + 1.
Proof. intros Hn Hd. unfold rne. destruct ((d <? _) || _); lia. Qed.

Lemma f64_of_ratio_range n d : 0 ≤ n → 0 < d → 0 ≤ f64_of_ratio n d ≤ f64_infinity.
Proof.
  intros Hn Hd. unfold f64_of_ratio. set (k := Z.max 0 (Z.log2 (n / d) - 52)).
  assert (0 < d * 2 ^ k) by (apply Z.mul_pos_pos; [lia|apply Z.pow_pos_nonneg; lia]).
  pose proof (rne_bounds n (d * 2 ^ k) Hn ltac:(lia)). pose proof (Z.div_pos n (d * 2 ^ k) Hn ltac:(lia)).
  unfold f64_infinity. assert (0 ≤ k) by lia. lia.
Qed.

Lemma sign_bit_u64 s x : 0 ≤ x ≤ f64_infinity → is_u64 (sign_bit s + x) = true.
Proof. intros Hx. unrange. unfold f64_infinity in Hx. destruct s; simpl; lia. Qed.

Lemma f64_neg_u64 a : is_u64 a = true → is_u64 (f64_neg a) = true.
Proof. intros H. unrange. unfold f64_neg, f64_negative. destruct (Z.leb_spec (2 ^ 63) a); lia. Qed.

Lemma f64_add_u64 a b : is_u64 a = true → is_u64 b = true → is_u64 (f64_add a b) = true.
Proof.
  intros Ha Hb. unfold f64_add. repeat case_match; try done.
  - by destruct (_ && _).
  - apply sign_bit_u64, f64_of_ratio_range; lia.
Qed.

Lemma f64_mul_u64 a b : is_u64 (f64_mul a b) = true.
Proof.
  unfold f64_mul. repeat case_match; try done; apply sign_bit_u64; [done|].
  apply f64_of_ratio_range; [|by apply Z.pow_pos_nonneg]. apply Z.mul_nonneg_nonneg; apply mag_nonneg.
Qed.

Lemma is_zero_mag b : is_u64 b = true → is_zero b = false → 0 < mag b.
Proof.
  intros Hb Hz. unfold is_zero in Hz. bool_inv. unrange. destruct (decide (b < 2 ^ 63)) as [Hl|Hl].
  - apply mag_pos. rewrite Z.mod_small in Hz by lia. lia.
  - replace b with (b - 2 ^ 63 + 2 ^ 63) by lia. rewrite mag_low by lia. apply mag_pos.
    rewrite <-(Z_mod_plus_full b (-1)), Z.mod_small in Hz by lia. lia.
Qed.

Lemma f64_div_u64 a b : is_u64 b = true → is_u64 (f64_div a b) = true.
Proof.
  intros Hb. unfold f64_div. repeat case_match; try done; try (by apply sign_bit_u64).
  - by destruct (xorb _ _).
  - apply sign_bit_u64, f64_of_ratio_range; [|by apply is_zero_mag]. apply Z.mul_nonneg_nonneg; [apply mag_nonneg|done].
Qed.

(** ** Rounding to integers *)

Lemma rne_half_even n d : 0 ≤ n → 0 < d → rounds_to HalfEven n d (rne n d).
Proof.
  intros Hn Hd. pose proof (Z.div_mod n d ltac:(lia)) as E. pose proof (Z.mod_pos_bound n d Hd) as Hr. cbn [rounds_to]. unfold rne.
  set (q := n / d) in *. set (r := n `mod` d) in *. clearbody q r. subst n. rewrite (Z.abs_eq d) by lia.
  destruct (Z.ltb_spec d (2 * r)); cbn [orb].
  { replace (d * q + r - (q + 1) * d) with (r - d) by ring. lia. }
  destruct (Z.eqb_spec (2 * r) d); cbn [andb].
  - destruct (Z.odd q) eqn:Eo.
    + replace (d * q + r - (q + 1) * d) with (r - d) by ring. split; [lia|]. intros _. rewrite Z.even_add, <-Z.negb_odd, Eo. done.
    + replace (d * q + r - q * d) with r by ring. split; [lia|]. intros _. by rewrite <-Z.negb_odd, Eo.
  - replace (d * q + r - q * d) with r by ring. split; lia.
Qed.

Lemma rounds_to_sgn r n d q :
  (r = HalfUp ∨ r = HalfEven) → rounds_to r (Z.abs n) d q → rounds_to r n d (Z.sgn n * q).
Proof.
  intros Hr H. destruct (Z.abs_spec n) as [[Hn E]|[Hn E]]; rewrite E in H.
  - destruct (decide (n = 0)) as [->|Hz].
    + rewrite Z.sgn_0, Z.mul_0_l. destruct Hr as [-> | ->]; cbn [rounds_to] in *; lia || (split; [lia|done]).
    + rewrite Z.sgn_pos, Z.mul_1_l by lia. done.
  - rewrite Z.sgn_neg by lia. replace (-1 * q) with (- q) by ring. destruct Hr as [-> | ->]; cbn [rounds_to] in *.
    + replace (n - - q * d) with (- (- n - q * d)) by ring. rewrite Z.mul_opp_l, !Z.abs_opp in *. done.
    + replace (n - - q * d) with (- (- n - q * d)) by ring. rewrite Z.abs_opp, Z.even_opp. done.
Qed.

(** The mode's rounding of [n / d], as the code computes it on floats. *)
Lemma half_up_rounds n d : 0 ≤ n → 0 < d → rounds_to HalfUp n d ((2 * n + d) / (2 * d)).
Proof.
  intros Hn Hd. pose proof (Z.div_mod (2 * n + d) (2 * d) ltac:(lia)) as E. pose proof (Z.mod_pos_bound (2 * n + d) (2 * d) ltac:(lia)) as Hr.
  set (q := (2 * n + d) / (2 * d)) in *. set (r := (2 * n + d) `mod` (2 * d)) in *. clearbody q r. cbn [rounds_to].
  assert (E' : 2 * (n - q * d) = r - d) by lia. split; [lia|]. intros Ha. assert (0 ≤ q * d) by lia. lia.
Qed.

Lemma floor_rounds n d : 0 < d → rounds_to Floor n d (n / d).
Proof.
  intros Hd. cbn [rounds_to]. rewrite Z.sgn_pos, Z.mul_1_r, Z.abs_eq by lia. pose proof (Z.div_mod n d ltac:(lia)).
  pose proof (Z.mod_pos_bound n d Hd). lia.
Qed.

Lemma ceil_rounds n d : 0 < d → rounds_to Ceil n d (- (- n / d)).
Proof.
  intros Hd. cbn [rounds_to]. rewrite Z.sgn_pos, Z.mul_1_r, Z.abs_eq by lia. pose proof (Z.div_mod (- n) d ltac:(lia)).
  pose proof (Z.mod_pos_bound (- n) d Hd). lia.
Qed.

Lemma trunc_rounds n d : 0 < d → rounds_to TowardZero n d (Z.quot n d).
Proof.
  intros Hd. cbn [rounds_to]. pose proof (Z.quot_rem n d ltac:(lia)) as E. pose proof (Z.rem_bound_abs n d ltac:(lia)) as Hr.
  pose proof (Z.rem_sign_nz n d ltac:(lia)). split; [|lia].
  destruct (Z.le_ge_cases 0 n).
  - pose proof (Z.rem_nonneg n d ltac:(lia) ltac:(lia)). pose proof (Z.quot_pos n d ltac:(lia) ltac:(lia)). nia.
  - pose proof (Z.rem_nonpos n d ltac:(lia) ltac:(lia)). pose proof (Z.quot_opp_l n d ltac:(lia)) as Ho.
    pose proof (Z.quot_pos (- n) d ltac:(lia) ltac:(lia)). nia.
Qed.

Lemma away_rounds n d :
  0 < d → rounds_to AwayFromZero n d (if n <? 0 then n / d else - (- n / d)).
Proof.
  intros Hd. destruct (Z.ltb_spec n 0) as [Hn|Hn].
  - pose proof (floor_rounds n d Hd) as Hf. cbn [rounds_to] in *. rewrite Z.sgn_pos, Z.mul_1_r in Hf by lia. nia.
  - pose proof (ceil_rounds n d Hd) as Hf. cbn [rounds_to] in *. rewrite Z.sgn_pos, Z.mul_1_r in Hf by lia. nia.
Qed.

(** C37: The conversion of a float to an integer returns the exact value of the float
    rounded in the requested mode, as a 64-bit integer; it fails only for infinite and
    undefined floats, for a fraction in exact mode, and when the rounded value is out
    of range. *)
Theorem float_to_integer_rounds b mode :
  match float_to_integer b mode with
  | Ok z => is_finite b = true ∧ is_i64 z = true ∧ rounds_to mode (scaled b) (2 ^ 1074) z
  | Err code =>
      code = "E_CAST_RANGE" ∧ (is_finite b = false ∨ ∃ z, rounds_to mode (scaled b) (2 ^ 1074) z ∧ is_i64 z = false) ∨
      code = "E_CAST_PRECISION" ∧ mode = Exact ∧ ¬ ∃ z, z * 2 ^ 1074 = scaled b
  end.
Proof.
  assert (Hd : 0 < 2 ^ 1074) by (by apply Z.pow_pos_nonneg). unfold float_to_integer. destruct (is_finite b); [|left; auto]. cbn [negb].
  unfold f64_has_fraction, f64_trunc, f64_floor, f64_ceil, f64_round, f64_round_ties_even.
  revert Hd. generalize (scaled b) as n, (2 ^ 1074) as d. intros n d Hd.
  assert (Hfin : ∀ z, rounds_to mode n d z →
    match (if negb (in_range (- 2 ^ 63) (2 ^ 63 - 1) z) then Err "E_CAST_RANGE" else Ok z : result Z) with
    | Ok z => true = true ∧ is_i64 z = true ∧ rounds_to mode n d z
    | Err code => code = "E_CAST_RANGE"%string ∧ (true = false ∨ ∃ z, rounds_to mode n d z ∧ is_i64 z = false) ∨
        code = "E_CAST_PRECISION"%string ∧ mode = Exact ∧ ¬ ∃ z, z * d = n
    end).
  { intros z Hz. change (in_range _ _ z) with (is_i64 z). destruct (is_i64 z) eqn:E; cbn [negb]; [done|]. left. eauto. }
  destruct mode; cbn [mbind result_bind].
  - destruct (Z.eqb_spec (Z.rem n d) 0) as [E|E]; cbn [negb mbind result_bind].
    + apply Hfin. cbn [rounds_to]. pose proof (Z.quot_rem n d ltac:(lia)). lia.
    + right. split_and!; [done..|]. intros [z <-]. by rewrite Z.rem_mul in E by lia.
  - by apply Hfin, trunc_rounds.
  - by apply Hfin, away_rounds.
  - by apply Hfin, floor_rounds.
  - by apply Hfin, ceil_rounds.
  - apply Hfin, rounds_to_sgn; [auto|]. apply half_up_rounds; lia.
  - apply Hfin, rounds_to_sgn; [auto|]. apply rne_half_even; lia.
Qed.
