(* ===== verification/BTree.v ===== *)
(** * Ordered maps and sets

    [std::collections::BTreeMap] and [BTreeSet] as strictly ascending association
    lists: iteration order is list order, and two maps with the same entries are
    equal.  Keys are any type with a total order: strings (byte order, as Rust
    compares [String]s) and machine integers. *)
From S2P Require Import Prelude Bytes Text.

Class TotalOrder (K : Type) := {
  tcmp : K → K → comparison;
  tcmp_Eq a b : tcmp a b = Eq ↔ a = b;
  tcmp_antisym a b : tcmp b a = CompOpp (tcmp a b);
  tcmp_trans a b c : tcmp a b = Lt → tcmp b c = Lt → tcmp a c = Lt
}.

#[export] Instance string_order : TotalOrder string :=
  { tcmp := str_cmp; tcmp_Eq := str_cmp_Eq; tcmp_antisym := str_cmp_antisym;
    tcmp_trans := str_cmp_trans }.

#[export] Instance Z_order : TotalOrder Z :=
  { tcmp := Z.compare; tcmp_Eq := Z.compare_eq_iff; tcmp_antisym a b := Z.compare_antisym a b;
    tcmp_trans := Z.lt_trans }.

Section btree.
Context {K A : Type} `{TotalOrder K}.
Implicit Types m : list (K * A).

(** [BTreeMap::get]. *)
Fixpoint bt_get (k : K) (m : list (K * A)) : option A :=
  match m with
  | [] => None
  | (k', a) :: m => match tcmp k k' with Eq => Some a | _ => bt_get k m end
  end.

(** [BTreeMap::contains_key]. *)
Definition bt_mem (k : K) (m : list (K * A)) : bool :=
  match bt_get k m with Some _ => true | None => false end.

(** [BTreeMap::insert]: replaces the value of an existing key. *)
Fixpoint bt_insert (k : K) (a : A) (m : list (K * A)) : list (K * A) :=
  match m with
  | [] => [(k, a)]
  | (k', a') :: m' =>
      match tcmp k k' with
      | Lt => (k, a) :: m
      | Eq => (k, a) :: m'
      | Gt => (k', a') :: bt_insert k a m'
      end
  end.

(** [BTreeMap::remove]. *)
Fixpoint bt_remove (k : K) (m : list (K * A)) : list (K * A) :=
  match m with
  | [] => []
  | (k', a) :: m => match tcmp k k' with Eq => m | _ => (k', a) :: bt_remove k m end
  end.

(** Representation invariant: strictly ascending keys. *)
Definition bt_below (k : K) (m : list (K * A)) : bool :=
  forallb (λ e, match tcmp k e.1 with Lt => true | _ => false end) m.
Fixpoint bt_sorted (m : list (K * A)) : bool :=
  match m with [] => true | (k, _) :: m => bt_below k m && bt_sorted m end.

Lemma tcmp_refl k : tcmp k k = Eq.
Proof. by apply tcmp_Eq. Qed.

Lemma tcmp_Gt a b : tcmp a b = Gt ↔ tcmp b a = Lt.
Proof. rewrite (tcmp_antisym a b). by destruct (tcmp a b). Qed.

Lemma bt_below_spec k m : bt_below k m = true ↔ ∀ e, e ∈ m → tcmp k e.1 = Lt.
Proof.
  unfold bt_below. rewrite forallb_forall. setoid_rewrite <-list_elem_of_In.
  split; intros Hm e He; specialize (Hm e He); by destruct (tcmp k e.1).
Qed.

Lemma bt_below_trans j k m : tcmp j k = Lt → bt_below k m = true → bt_below j m = true.
Proof. rewrite !bt_below_spec. eauto using tcmp_trans. Qed.

Lemma bt_get_below k m : bt_below k m = true → bt_get k m = None.
Proof.
  induction m as [|[k' a] m IH]; simpl; [done|]. intros Hb. bool_inv. by destruct (tcmp k k'); auto.
Qed.

Lemma bt_get_elem k a m : bt_get k m = Some a → (k, a) ∈ m.
Proof.
  induction m as [|[k' a'] m IH]; simpl; [done|]. destruct (tcmp k k') eqn:E.
  - intros [= ->]. apply tcmp_Eq in E as ->. by left.
  - right; auto.
  - right; auto.
Qed.

Lemma bt_get_iff k a m : bt_sorted m = true → bt_get k m = Some a ↔ (k, a) ∈ m.
Proof.
  intros Hs. split; [apply bt_get_elem|]. revert Hs.
  induction m as [|[k' a'] m IH]; simpl; intros Hs Hin; [by apply elem_of_nil in Hin|].
  bool_inv. apply elem_of_cons in Hin as [[= -> ->]|Hin]; [by rewrite tcmp_refl|].
  match goal with Hb : bt_below _ _ = true |- _ =>
    pose proof (proj1 (bt_below_spec _ _) Hb _ Hin) as Hlt end.
  simpl in Hlt. rewrite tcmp_antisym, Hlt. auto.
Qed.

Lemma bt_get_insert k j a m :
  bt_get k (bt_insert j a m) = match tcmp k j with Eq => Some a | _ => bt_get k m end.
Proof.
  induction m as [|[k' a'] m IH]; simpl; [done|].
  destruct (tcmp j k') eqn:E; simpl.
  - apply tcmp_Eq in E as ->. by destruct (tcmp k k').
  - done.
  - rewrite IH. destruct (tcmp k k') eqn:E2; try done. apply tcmp_Eq in E2 as ->.
    apply tcmp_Gt in E. by rewrite E.
Qed.

Lemma bt_get_insert_eq k a m : bt_get k (bt_insert k a m) = Some a.
Proof. by rewrite bt_get_insert, tcmp_refl. Qed.

Lemma bt_get_insert_ne k j a m : k ≠ j → bt_get k (bt_insert j a m) = bt_get k m.
Proof.
  intros Hne. rewrite bt_get_insert. destruct (tcmp k j) eqn:E; try done. by apply tcmp_Eq in E.
Qed.

Lemma bt_insert_elem k a m e : e ∈ bt_insert k a m → e = (k, a) ∨ e ∈ m.
Proof.
  induction m as [|[k' a'] m IH]; simpl; rewrite ?elem_of_cons; [naive_solver|].
  destruct (tcmp k k'); rewrite ?elem_of_cons; naive_solver.
Qed.

Lemma bt_insert_sorted k a m : bt_sorted m = true → bt_sorted (bt_insert k a m) = true.
Proof.
  induction m as [|[k' a'] m IH]; simpl; [done|]. intros Hs. bool_inv.
  destruct (tcmp k k') eqn:E; simpl; rewrite ?andb_true_iff.
  - by apply tcmp_Eq in E as ->.
  - rewrite E. split_and!; try done. by apply (bt_below_trans _ k').
  - split; [|auto]. apply bt_below_spec. intros e [->|He]%bt_insert_elem.
    + by apply tcmp_Gt.
    + by apply bt_below_spec with m.
Qed.

(** A map is determined by its lookups. *)
Lemma bt_ext m1 m2 :
  bt_sorted m1 = true → bt_sorted m2 = true → (∀ k, bt_get k m1 = bt_get k m2) → m1 = m2.
Proof.
  revert m2. induction m1 as [|[k1 a1] m1 IH]; intros [|[k2 a2] m2]; simpl; intros Hs1 Hs2 Hg; try done.
  - specialize (Hg k2). by rewrite tcmp_refl in Hg.
  - specialize (Hg k1). by rewrite tcmp_refl in Hg.
  - bool_inv. assert (Hk : tcmp k1 k2 = Eq).
    { destruct (tcmp k1 k2) eqn:E; [done| |].
      - specialize (Hg k1). rewrite tcmp_refl, E in Hg. symmetry in Hg.
        rewrite bt_get_below in Hg; [done|]. by apply (bt_below_trans _ k2).
      - apply tcmp_Gt in E. specialize (Hg k2). rewrite tcmp_refl, E in Hg.
        rewrite bt_get_below in Hg; [done|]. by apply (bt_below_trans _ k1). }
    apply tcmp_Eq in Hk as ->. pose proof (Hg k2) as Hk2. rewrite tcmp_refl in Hk2. injection Hk2 as ->.
    f_equal. apply IH; try done. intros k. specialize (Hg k). destruct (tcmp k k2) eqn:E; try done.
    apply tcmp_Eq in E as ->. by rewrite !bt_get_below.
Qed.

Lemma bt_insert_length_new k a m : bt_get k m = None → length (bt_insert k a m) = S (length m).
Proof.
  induction m as [|[k' a'] m IH]; simpl; [done|]. destruct (tcmp k k') eqn:E; simpl; intros Hg; try done.
  by rewrite IH.
Qed.

Lemma bt_insert_length k a m : (length (bt_insert k a m) ≤ S (length m))%nat.
Proof. induction m as [|[k' a'] m IH]; simpl; [lia|]. destruct (tcmp k k'); simpl; lia. Qed.

Lemma bt_mem_insert k j a m :
  bt_mem k (bt_insert j a m) = match tcmp k j with Eq => true | _ => bt_mem k m end.
Proof. unfold bt_mem. rewrite bt_get_insert. by destruct (tcmp k j). Qed.

Lemma bt_sorted_NoDup m : bt_sorted m = true → NoDup m.*1.
Proof.
  induction m as [|[k a] m IH]; simpl; intros Hs; [constructor|]. bool_inv. constructor; [|auto].
  intros ([k' a'] & -> & Hin)%list_elem_of_fmap.
  match goal with Hb : bt_below _ _ = true |- _ => pose proof (proj1 (bt_below_spec _ _) Hb _ Hin) as Hlt end.
  simpl in Hlt. by rewrite tcmp_refl in Hlt.
Qed.

Lemma bt_insert_perm k a m : bt_get k m = None → bt_insert k a m ≡ₚ (k, a) :: m.
Proof.
  induction m as [|[k' a'] m IH]; simpl; [done|]. destruct (tcmp k k') eqn:E; simpl; intros Hg; try done.
  rewrite IH by done. apply Permutation_swap.
Qed.

Lemma bt_insert_insert k a b m : bt_insert k b (bt_insert k a m) = bt_insert k b m.
Proof.
  induction m as [|[k' a'] m IH]; simpl; [by rewrite tcmp_refl|].
  destruct (tcmp k k') eqn:E; simpl; rewrite ?tcmp_refl, ?E; [done..|]. by rewrite IH.
Qed.

(** Appending an entry with the greatest key is an insertion at the end. *)
Lemma bt_insert_last k a m : forallb (λ e, match tcmp e.1 k with Lt => true | _ => false end) m = true →
  bt_insert k a m = m ++ [(k, a)].
Proof.
  induction m as [|[k' a'] m IH]; simpl; intros Hs; [done|]. bool_inv.
  destruct (tcmp k' k) eqn:E; try done. apply tcmp_Gt in E. rewrite E. by rewrite IH.
Qed.
Lemma bt_remove_elem k m e : e ∈ bt_remove k m → e ∈ m.
Proof.
  induction m as [|[k' a'] m IH]; simpl; [done|]. destruct (tcmp k k'); rewrite !elem_of_cons; naive_solver.
Qed.

Lemma bt_remove_sorted k m : bt_sorted m = true → bt_sorted (bt_remove k m) = true.
Proof.
  induction m as [|[k' a'] m IH]; simpl; [done|]. intros Hs. bool_inv.
  destruct (tcmp k k') eqn:E; simpl; rewrite ?andb_true_iff; try done;
    (split; [|auto]); apply bt_below_spec; intros e He%bt_remove_elem; by apply bt_below_spec with m.
Qed.

Lemma bt_get_remove k j m : bt_sorted m = true →
  bt_get k (bt_remove j m) = match tcmp k j with Eq => None | _ => bt_get k m end.
Proof.
  induction m as [|[k' a'] m IH]; simpl; intros Hs; [by destruct (tcmp k j)|]. bool_inv.
  destruct (tcmp j k') eqn:E; simpl.
  - apply tcmp_Eq in E as ->. destruct (tcmp k k') eqn:E; try done. apply tcmp_Eq in E as ->. by rewrite bt_get_below.
  - destruct (tcmp k k') eqn:E2; rewrite ?IH by done; try done. apply tcmp_Eq in E2 as ->.
    rewrite tcmp_antisym, E. done.
  - destruct (tcmp k k') eqn:E2; rewrite ?IH by done; try done. apply tcmp_Eq in E2 as ->.
    rewrite tcmp_antisym, E. done.
Qed.

Lemma bt_get_remove_ne k j m : k ≠ j → bt_get k (bt_remove j m) = bt_get k m.
Proof.
  intros Hne. induction m as [|[k' a'] m IH]; simpl; [done|]. destruct (tcmp j k') eqn:E; simpl; rewrite ?IH; try done.
  apply tcmp_Eq in E as ->. destruct (tcmp k k') eqn:E2; try done. by apply tcmp_Eq in E2.
Qed.
End btree.

(** [BTreeSet<K>]: the keys of a map to [unit]. *)
Notation bset K := (list (K * unit)).
Definition bs_insert {K} `{TotalOrder K} (k : K) (s : bset K) : bset K := bt_insert k tt s.
Definition bs_mem {K} `{TotalOrder K} (k : K) (s : bset K) : bool := bt_mem k s.

Lemma bs_mem_insert {K} `{TotalOrder K} (k j : K) s :
  bs_mem k (bs_insert j s) = true ↔ k = j ∨ bs_mem k s = true.
Proof.
  unfold bs_mem, bs_insert. rewrite bt_mem_insert. destruct (tcmp k j) eqn:E.
  - apply tcmp_Eq in E as ->. naive_solver.
  - split; [auto|]. intros [->|]; [by rewrite tcmp_refl in E|done].
  - split; [auto|]. intros [->|]; [by rewrite tcmp_refl in E|done].
Qed.

Create HintDb btree discriminated.
#[export] Hint Resolve bt_insert_sorted bt_remove_sorted bt_get_elem bt_get_insert_eq : btree.
