(* ===== verification/Scalars.v ===== *)
(** * UUIDs and byte strings

    Models src/src/scalars/mod.rs.  A [Uuid] is its 16 bytes and a [Bytes] its byte
    list; the base64 engine is a third-party crate and is a parameter. *)
From S2P Require Import Prelude Bytes Text.

Definition MAX_BYTES : Z := 16 * 1024 * 1024.
Definition MAX_INDEXED_BYTES : Z := 8 * 1024.

Definition hex_digit (b : Z) : result Z :=
  if in_range 48 57 b then Ok (b - 48)
  else if in_range 97 102 b then Ok (b - 97 + 10)
  else if in_range 65 70 b then Ok (b - 65 + 10)
  else Err "E_SCALAR_LITERAL".

(** [chunks_exact(2)] and the digit pairs. *)
Fixpoint decode_pairs (l : list Z) : result (list Z) :=
  match l with
  | hi :: lo :: l =>
      h ← hex_digit hi; d ← hex_digit lo; bs ← decode_pairs l; Ok (h * 16 + d :: bs)
  | _ => Ok []
  end.

Definition decode_hex (source : list Z) : result (list Z) :=
  if (zlen source >? MAX_BYTES * 2) || negb (zlen source `mod` 2 =? 0) then Err "E_SCALAR_LITERAL"
  else decode_pairs source.

(** [write!(f, "{byte:02x}")]. *)
Definition hex_char (d : Z) : Z := if d <? 10 then 48 + d else 87 + d.
Definition hex_byte (b : Z) : list Z := [hex_char (b / 16); hex_char (b `mod` 16)].

(** One step of the loop of [Uuid::from_str] at position [index]. *)
Definition uuid_step (st : list Z * nat) (p : nat * Z) : result (list Z * nat) :=
  let '(bytes, offset) := st in
  let '(index, byte) := p in
  if existsb (Nat.eqb index) [8; 13; 18; 23]%nat then
    if byte =? 45 then Ok st else Err "E_SCALAR_LITERAL"
  else
    digit ← hex_digit byte;
    Ok (alter (λ b, b * 16 + digit) (offset / 2)%nat bytes, S offset).

Definition uuid_from_str (source : list Z) : result (list Z) :=
  if negb (zlen source =? 36) then Err "E_SCALAR_LITERAL"
  else fst <$> foldR uuid_step (replicate 16 0, 0%nat) (imap pair source).

Definition uuid_display (u : list Z) : list Z :=
  concat (imap (λ index byte,
    (if existsb (Nat.eqb index) [4; 6; 8; 10]%nat then [45] else []) ++ hex_byte byte) u).

Definition wf_uuid (u : list Z) : bool := (zlen u =? 16) && all_bytes u.

Definition bytes_new (value : list Z) : result (list Z) :=
  if zlen value >? MAX_BYTES then Err "E_SCALAR_LITERAL" else Ok value.
Definition bytes_from_str (source : list Z) : result (list Z) := decode_hex source.
Definition bytes_display (bs : list Z) : list Z := concat (hex_byte <$> bs).

Definition wf_bytes (bs : list Z) : bool := (zlen bs <=? MAX_BYTES) && all_bytes bs.

(** Base64url transport; [engine_decode] and [engine_encode] are the base64 crate's. *)
Section base64.
Context (engine_decode : list Z → option (list Z)) (engine_encode : list Z → list Z).

Definition from_base64url (source : list Z) : result (list Z) :=
  if zlen source >? (MAX_BYTES * 4 + 2) / 3 then Err "E_SCALAR_LITERAL"
  else bs ← ok_or (engine_decode source) "E_SCALAR_LITERAL"; bytes_new bs.
Definition to_base64url (bs : list Z) : list Z := engine_encode bs.
End base64.

Lemma hex_digit_char d : 0 ≤ d < 16 → hex_digit (hex_char d) = Ok d.
Proof.
  intros Hd. unfold hex_char, hex_digit, in_range.
  destruct (Z.ltb_spec d 10).
  - replace (_ && _) with true by (symmetry; apply andb_true_iff; rewrite !Z.leb_le; lia).
    f_equal. lia.
  - replace (_ && _) with false by (symmetry; apply andb_false_iff; rewrite !Z.leb_gt; lia).
    replace (_ && _) with true by (symmetry; apply andb_true_iff; rewrite !Z.leb_le; lia).
    f_equal. lia.
Qed.

Lemma byte_digits b : 0 ≤ b < 256 →
  hex_digit (hex_char (b / 16)) = Ok (b / 16) ∧
  hex_digit (hex_char (b `mod` 16)) = Ok (b `mod` 16) ∧
  (0 * 16 + b / 16) * 16 + b `mod` 16 = b.
Proof.
  intros Hb. pose proof (Z.mod_pos_bound b 16 ltac:(lia)).
  assert (0 ≤ b / 16 < 16) by (split; [apply Z.div_pos | apply Z.div_lt_upper_bound]; lia).
  pose proof (Z.div_mod b 16 ltac:(lia)).
  split_and!; [by apply hex_digit_char | by apply hex_digit_char | lia].
Qed.

(** Two digits of one UUID byte. *)
Lemma uuid_step_digit bytes offset index c d :
  existsb (Nat.eqb index) [8; 13; 18; 23]%nat = false → hex_digit c = Ok d →
  uuid_step (bytes, offset) (index, c) = Ok (alter (λ b, b * 16 + d) (offset / 2)%nat bytes, S offset).
Proof. intros E Hd. unfold uuid_step. by rewrite E, Hd. Qed.

Lemma uuid_step_byte b l bytes offset i :
  0 ≤ b < 256 → Nat.even offset = true → bytes !! (offset / 2)%nat = Some 0 →
  existsb (Nat.eqb i) [8; 13; 18; 23]%nat = false → existsb (Nat.eqb (S i)) [8; 13; 18; 23]%nat = false →
  foldR uuid_step (bytes, offset) ((i, hex_char (b / 16)) :: (S i, hex_char (b `mod` 16)) :: l) =
  foldR uuid_step (<[(offset / 2)%nat := b]> bytes, S (S offset)) l.
Proof.
  intros Hb [k ->]%Nat.even_spec Hk Hi Hi'. destruct (byte_digits b Hb) as (H1 & H2 & H3).
  cbn [foldR]. rewrite (uuid_step_digit _ _ _ _ (b / 16)) by done. cbn [mbind result_bind].
  rewrite (uuid_step_digit _ _ _ _ (b `mod` 16)) by done. cbn [mbind result_bind].
  replace (S (2 * k) / 2)%nat with k by (rewrite <-Nat.add_1_r, Nat.mul_comm, Nat.div_add_l by lia; simpl; lia).
  replace (2 * k / 2)%nat with k in * by (rewrite Nat.mul_comm, Nat.div_mul by lia; lia).
  do 3 f_equal. apply list_eq. intros j. destruct (decide (j = k)) as [->|].
  - rewrite list_lookup_insert_eq by (by eapply lookup_lt_Some).
    rewrite list_lookup_alter_eq, list_lookup_alter_eq, Hk. simpl. f_equal. lia.
  - by rewrite list_lookup_insert_ne, !list_lookup_alter_ne.
Qed.

(** [uuid_display] is the canonical hyphenated form: parsing what it prints
    returns the same 16 bytes. *)
Theorem uuid_print_parse (u : list Z) :
  wf_uuid u = true → uuid_from_str (uuid_display u) = Ok u.
Proof.
  intros Hu. unfold wf_uuid in Hu. bool_inv.
  match goal with H : zlen u = 16 |- _ => rename H into Hl end.
  match goal with H : all_bytes u = true |- _ => apply all_bytes_Forall in H as Hb end.
  unfold zlen in Hl. do 16 (destruct u as [|? u]; [simpl in Hl; lia|]).
  destruct u; [|simpl in Hl; lia].
  repeat match goal with H : Forall _ (_ :: _) |- _ => apply Forall_cons_1 in H as [? H] end.
  unfold uuid_from_str. change (zlen (uuid_display _)) with 36. cbn [Z.eqb negb Pos.eqb].
  cbn -[Z.div Z.modulo hex_char foldR uuid_step].
  repeat first
    [ rewrite uuid_step_byte; [|done|reflexivity|reflexivity|done|done]; cbn [Nat.div Nat.divmod fst insert list_insert]
    | match goal with |- context [foldR uuid_step ?st (?p :: ?l)] =>
        change (foldR uuid_step st (p :: l)) with (foldR uuid_step st l) end ].
  done.
Qed.

Lemma uuid_print_parse_witness :
  uuid_from_str (uuid_display (imap (λ i b, Z.of_nat i * 17 + b) (replicate 16 0))) =
  Ok [0; 17; 34; 51; 68; 85; 102; 119; 136; 153; 170; 187; 204; 221; 238; 255].
Proof. apply (uuid_print_parse (imap (λ i b, Z.of_nat i * 17 + b) (replicate 16 0))). reflexivity. Defined.

Lemma decode_pairs_hex bs : all_bytes bs = true → decode_pairs (bytes_display bs) = Ok bs.
Proof.
  unfold bytes_display. induction bs as [|b bs IH]; [done|]. cbn [all_bytes forallb]. intros Hb.
  bool_inv. apply is_byte_spec in H as Hb. destruct (byte_digits b Hb) as (H1 & H2 & H3).
  cbn [fmap list_fmap concat hex_byte app decode_pairs]. rewrite H1, H2. cbn [mbind result_bind].
  rewrite IH by done. cbn [mbind result_bind]. do 2 f_equal. lia.
Qed.

Lemma decode_pairs_all_bytes n l bs :
  (length l ≤ n)%nat → decode_pairs l = Ok bs →
  all_bytes bs = true ∧ (2 * length bs ≤ length l)%nat.
Proof.
  revert l bs. induction n as [|n IH]; intros [|hi [|lo l]] bs Hn; cbn [decode_pairs]; intros H; res_inv;
    subst; simpl in *; try (split; [done|lia]); try lia.
  rename x into h, x0 into d, x1 into tl.
  destruct (IH l tl) as [Ha Hl]; [lia|done|]. split; [|lia].
  assert (∀ c v, hex_digit c = Ok v → 0 ≤ v < 16) as Hd.
  { intros c v. unfold hex_digit, in_range. repeat case_match; intros; res_inv; bool_inv; lia. }
  rewrite Ha, andb_true_r. apply is_byte_spec. apply Hd in Hx, Hx0. lia.
Qed.

(** Hexadecimal text is a faithful, bounded transport of byte strings: what is
    printed parses back unchanged, and whatever parses is a byte string within
    the 16 MiB limit whose printed form parses to it again. *)
Theorem bytes_hex_roundtrip (bs source : list Z) :
  (wf_bytes bs = true → bytes_from_str (bytes_display bs) = Ok bs) ∧
  (bytes_from_str source = Ok bs →
     wf_bytes bs = true ∧ bytes_from_str (bytes_display bs) = Ok bs).
Proof.
  assert (Hlen : ∀ l, zlen (bytes_display l) = 2 * zlen l).
  { unfold bytes_display, zlen. induction l as [|b l IH]; [done|].
    change (concat (hex_byte <$> b :: l)) with (hex_byte b ++ concat (hex_byte <$> l)).
    rewrite length_app. simpl length at 1 3. lia. }
  assert (Hgo : wf_bytes bs = true → bytes_from_str (bytes_display bs) = Ok bs).
  { unfold wf_bytes, bytes_from_str, decode_hex. intros H. bool_inv.
    rewrite Hlen, Z.mul_comm, Z_mod_mult, decode_pairs_hex by done.
    destruct (Z.gtb_spec (zlen bs * 2) (MAX_BYTES * 2)); [lia|done]. }
  split; [done|]. intros Hs. assert (wf_bytes bs = true) as Hwf; [|auto].
  unfold bytes_from_str, decode_hex in Hs. case_if_in Hs; [done|]. bool_inv.
  apply (decode_pairs_all_bytes (length source)) in Hs as [Ha Hl]; [|lia].
  unfold wf_bytes. rewrite Ha, andb_true_r. apply Z.leb_le. unfold zlen in *. lia.
Qed.

Lemma bytes_hex_roundtrip_witness :
  bytes_from_str (bytes_display [0; 171; 255]) = Ok [0; 171; 255] ∧ wf_bytes [171; 205] = true.
Proof.
  split.
  - exact (proj1 (bytes_hex_roundtrip [0; 171; 255] []) eq_refl).
  - exact (proj1 (proj2 (bytes_hex_roundtrip [171; 205] (as_bytes "ABcd")) eq_refl)).
Defined.
