(* ===== verification/Model.v ===== *)
(** * Types, values and the type catalog

    Models the data model of src/src/model.rs: [ScalarType], [Value], [Catalog], the
    structural equality and partial order of values, the typed total order
    [cmp_typed], and [coerce], which turns a supplied value into the canonical
    value of a declared type.  The invariants of the Rust types (machine ranges,
    UTF-8, ordered maps) are [wf_value], [wf_type] and [wf_catalog]; [conforms]
    says that a value is a canonical value of a type.

    A recursion that the code bounds by [check_depth] takes [fuel], the number of
    levels left: [MAX_DEPTH] at the entry points, and running out is the code's
    own [E_LIMIT] error. *)
From Stdlib Require Import Ascii.
From S2P Require Import Prelude Bytes Text Decimal Temporal Float64 BTree Scalars.

Definition MAX_DEPTH : nat := 64.
Definition MAX_MAP_ENTRIES : Z := 4096.
Definition MAX_MAP_KEY_BYTES : Z := 4096.

(** ** Data *)

Inductive Value : Type :=
  | VInt (v : Z)
  | VFloat (bits : Z)
  | VBool (b : bool)
  | VText (s : string)
  | VUuid (u : list Z)
  | VDate (days : Z)
  | VTimestamp (micros : Z)
  | VDuration (micros : Z)
  | VDecimal (d : Decimal)
  | VBytes (bs : list Z)
  | VNull
  | VEnum (variant : string) (args : list Value) (id : Z)
  | VRecord (fields : list (string * Value))
  | VTuple (items : list Value)
  | VList (items : list Value)
  | VMap (entries : list (string * Value))
  | VOption (o : option Value)
  | VNamed (type_id : Z) (value : Value).

(** [Column] and [EnumVariantDef], parametric in the types they nest in. *)
Record ColumnOf (T : Type) := Column {
  col_name : string;
  col_ty : T;
  col_default : option Value;
  col_id : Z
}.
Arguments Column {T} _ _ _ _.
Arguments col_name {T} _.
Arguments col_ty {T} _.
Arguments col_default {T} _.
Arguments col_id {T} _.

Record VariantOf (T : Type) := EnumVariantDef {
  var_name : string;
  var_args : list T;
  var_id : Z
}.
Arguments EnumVariantDef {T} _ _ _.
Arguments var_name {T} _.
Arguments var_args {T} _.
Arguments var_id {T} _.

Inductive ScalarType : Type :=
  | TInt | TFloat | TBool | TText | TUuid | TDate | TTimestamp | TDuration
  | TDecimal (precision scale : Z)
  | TBytes
  | TEnum (variants : list (VariantOf ScalarType))
  | TRecord (columns : list (ColumnOf ScalarType))
  | TTuple (items : list ScalarType)
  | TOption (inner : ScalarType)
  | TList (inner : ScalarType)
  | TMap (inner : ScalarType)
  | TNamed (name : string)
  | TRef (id : Z).

Record TypeDefinition := mkTypeDefinition { def_id : Z; def_name : string; def_ty : ScalarType }.

Record Catalog := mkCatalog { types : list (string * TypeDefinition); next_id : Z }.

Definition default_catalog : Catalog := mkCatalog [] 1.

(** ** Value operations *)

Fixpoint unwrapped (v : Value) : Value :=
  match v with VNamed _ v => unwrapped v | _ => v end.

(** [str::split('.')]. *)
Fixpoint split_dots (s : string) : list string :=
  match s with
  | EmptyString => [EmptyString]
  | String c s =>
      if Ascii.eqb c "."%char then EmptyString :: split_dots s
      else match split_dots s with
           | [] => [String c EmptyString]
           | p :: ps => String c p :: ps
           end
  end.

Definition field (v : Value) (path : string) : option Value :=
  foldl (λ o component,
    v ← o; match unwrapped v with VRecord fields => bt_get component fields | _ => None end)
    (Some v) (split_dots path).

(** Pairwise test of two lists of the same length. *)
Definition all2 {A B} (f : A → B → bool) : list A → list B → bool :=
  fix go l k := match l, k with
    | [], [] => true
    | x :: l, y :: k => f x y && go l k
    | _, _ => false
    end.

Definition decimal_eqb (a b : Decimal) : bool :=
  (coefficient a =? coefficient b) && (scale a =? scale b).

Fixpoint cmp_eq (a b : Value) {struct a} : bool :=
  match a, b with
  | VInt a, VInt b => a =? b
  | VFloat a, VFloat b => f64_eq a b
  | VBool a, VBool b => Bool.eqb a b
  | VText a, VText b => String.eqb a b
  | VUuid a, VUuid b => bool_decide (a = b)
  | VDate a, VDate b => a =? b
  | VTimestamp a, VTimestamp b => a =? b
  | VDuration a, VDuration b => a =? b
  | VDecimal a, VDecimal b => decimal_eqb a b
  | VBytes a, VBytes b => bool_decide (a = b)
  | VNull, VNull => true
  | VNamed a av, VNamed b bv => (a =? b) && cmp_eq av bv
  | VEnum an aargs aid, VEnum bn bargs bid =>
      (if (aid =? 0) || (bid =? 0) then (aid =? bid) && String.eqb an bn else aid =? bid) &&
      all2 cmp_eq aargs bargs
  | VRecord a, VRecord b | VMap a, VMap b =>
      (zlen a =? zlen b) &&
      forallb (λ kv, match bt_get kv.1 b with Some w => cmp_eq kv.2 w | None => false end) a
  | VTuple a, VTuple b | VList a, VList b => all2 cmp_eq a b
  | VOption None, VOption None => true
  | VOption (Some a), VOption (Some b) => cmp_eq a b
  | _, _ => false
  end.

Fixpoint cmp_ord (a b : Value) : option comparison :=
  match a, b with
  | VInt a, VInt b => Some (a ?= b)
  | VFloat a, VFloat b => f64_partial_cmp a b
  | VUuid a, VUuid b => Some (bytes_cmp a b)
  | VDate a, VDate b => Some (a ?= b)
  | VTimestamp a, VTimestamp b => Some (a ?= b)
  | VDuration a, VDuration b => Some (a ?= b)
  | VBytes a, VBytes b => Some (bytes_cmp a b)
  | VDecimal a, VDecimal b =>
      if scale a =? scale b then Some (coefficient a ?= coefficient b) else None
  | VText a, VText b => Some (str_cmp a b)
  | VNamed a av, VNamed b bv => if a =? b then cmp_ord av bv else None
  | _, _ => None
  end.

Fixpoint value_requires_protocol_v2 (v : Value) : bool :=
  match v with
  | VUuid _ | VDate _ | VTimestamp _ | VDuration _ | VDecimal _ | VBytes _ => true
  | VNamed _ v | VOption (Some v) => value_requires_protocol_v2 v
  | VEnum _ args _ => existsb value_requires_protocol_v2 args
  | VRecord fields => existsb (λ kv, value_requires_protocol_v2 kv.2) fields
  | VMap _ => true
  | VTuple items | VList items => existsb value_requires_protocol_v2 items
  | _ => false
  end.

(** ** Catalog lookups *)

Definition definition (cat : Catalog) (id : Z) : result TypeDefinition :=
  ok_or (snd <$> List.find (λ e, def_id e.2 =? id) (types cat)) "E_SCHEMA".

Fixpoint underlying_loop (fuel : nat) (cat : Catalog) (ty : ScalarType) : result ScalarType :=
  match fuel with
  | O => Err "E_LIMIT"
  | S fuel =>
      match ty with
      | TRef id => d ← definition cat id; underlying_loop fuel cat (def_ty d)
      | _ => Ok ty
      end
  end.
Definition underlying (cat : Catalog) (ty : ScalarType) : result ScalarType :=
  underlying_loop MAX_DEPTH cat ty.

Notation Columns := (list (ColumnOf ScalarType)).

Definition find_column (columns : Columns) (name : string) : option (ColumnOf ScalarType) :=
  List.find (λ c, String.eqb (col_name c) name) columns.

Fixpoint field_type_loop (cat : Catalog) (ty : ScalarType) (parts : list string) : result ScalarType :=
  match parts with
  | [] => Ok ty
  | part :: parts =>
      u ← underlying cat ty;
      match u with
      | TRecord columns =>
          c ← ok_or (find_column columns part) "E_FIELD"; field_type_loop cat (col_ty c) parts
      | _ => Err "E_TYPE"
      end
  end.

Definition field_type (cat : Catalog) (fields : Columns) (path : string) : result ScalarType :=
  match find_column fields path with
  | Some f => Ok (col_ty f)
  | None =>
      match split_dots path with
      | [] => Err "E_FIELD"
      | first :: parts =>
          f ← ok_or (find_column fields first) "E_FIELD"; field_type_loop cat (col_ty f) parts
      end
  end.

Fixpoint field_path_ids_loop (cat : Catalog) (columns : Columns) (parts : list string) : result (list Z) :=
  match parts with
  | [] => Ok []
  | part :: parts =>
      f ← ok_or (find_column columns part) "E_FIELD";
      match parts with
      | [] => Ok [col_id f]
      | _ =>
          u ← underlying cat (col_ty f);
          match u with
          | TRecord nested => ids ← field_path_ids_loop cat nested parts; Ok (col_id f :: ids)
          | _ => Err "E_TYPE"
          end
      end
  end.
Definition field_path_ids (cat : Catalog) (fields : Columns) (path : string) : result (list Z) :=
  field_path_ids_loop cat fields (split_dots path).

(** Does the complete type need the production-scalar protocol?  [seen] is the set
    of type IDs already entered. *)
Fixpoint requires_visit (fuel : nat) (cat : Catalog) (ty : ScalarType) (seen : bset Z) : result (bool * bset Z) :=
  match fuel with
  | O => Err "E_LIMIT"
  | S fuel =>
      let any := foldR (λ '(r, seen) ty,
        '(r', seen) ← requires_visit fuel cat ty seen; Ok (r || r', seen)) (false, seen) in
      match ty with
      | TUuid | TDate | TTimestamp | TDuration | TBytes => Ok (true, seen)
      | TDecimal p s => validate_type p s;; Ok (true, seen)
      | TRef id =>
          if bs_mem id seen then Ok (false, seen)
          else d ← definition cat id; requires_visit fuel cat (def_ty d) (bs_insert id seen)
      | TRecord fields => any (col_ty <$> fields)
      | TEnum variants => any (concat (var_args <$> variants))
      | TTuple items => any items
      | TOption inner | TList inner => requires_visit fuel cat inner seen
      | TMap _ => Ok (true, seen)
      | TNamed _ => Err "E_SCHEMA"
      | _ => Ok (false, seen)
      end
  end.
Definition requires_protocol_v2 (cat : Catalog) (ty : ScalarType) : result bool :=
  fst <$> requires_visit MAX_DEPTH cat ty [].

(** ** The typed total order *)

(** A comparison loop that stops at the first error or difference. *)
Fixpoint lexR {A} (f : A → result comparison) (l : list A) : result comparison :=
  match l with
  | [] => Ok Eq
  | x :: l => c ← f x; match c with Eq => lexR f l | _ => Ok c end
  end.

Definition bool_cmp (a b : bool) : comparison :=
  match a, b with false, true => Lt | true, false => Gt | _, _ => Eq end.

(** [variants.iter().find(|v| v.id == id && v.id != 0)]. *)
Definition find_variant_id (variants : list (VariantOf ScalarType)) (id : Z) : option (VariantOf ScalarType) :=
  List.find (λ v, negb (var_id v =? 0) && (var_id v =? id)) variants.

(** [cmp_typed_items], with the recursive comparison as an argument. *)
Definition cmp_typed_items (cmp : ScalarType → Value → Value → result comparison)
    (tys : list ScalarType) (l r : list Value) : result comparison :=
  if negb (zlen l =? zlen tys) || negb (zlen r =? zlen tys) then Err "E_TYPE"
  else lexR (λ '(ty, l, r), cmp ty l r) (zip (zip tys l) r).

Fixpoint cmp_typed_inner (fuel : nat) (cat : Catalog) (ty : ScalarType) (left right : Value) : result comparison :=
  match fuel with
  | O => Err "E_LIMIT"
  | S fuel =>
      let cmp := cmp_typed_inner fuel cat in
      match ty with
      | TInt => match left, right with VInt a, VInt b => Ok (a ?= b) | _, _ => Err "E_TYPE" end
      | TFloat =>
          match left, right with
          | VFloat a, VFloat b =>
              if negb (is_finite a) || negb (is_finite b) then Err "E_TYPE"
              else if is_zero a && is_zero b then Ok Eq
              else ok_or (f64_partial_cmp a b) "E_TYPE"
          | _, _ => Err "E_TYPE"
          end
      | TBool => match left, right with VBool a, VBool b => Ok (bool_cmp a b) | _, _ => Err "E_TYPE" end
      | TText => match left, right with VText a, VText b => Ok (str_cmp a b) | _, _ => Err "E_TYPE" end
      | TUuid => match left, right with VUuid a, VUuid b => Ok (bytes_cmp a b) | _, _ => Err "E_TYPE" end
      | TDate => match left, right with VDate a, VDate b => Ok (a ?= b) | _, _ => Err "E_TYPE" end
      | TTimestamp => match left, right with VTimestamp a, VTimestamp b => Ok (a ?= b) | _, _ => Err "E_TYPE" end
      | TDuration => match left, right with VDuration a, VDuration b => Ok (a ?= b) | _, _ => Err "E_TYPE" end
      | TDecimal _ s =>
          match left, right with
          | VDecimal a, VDecimal b =>
              if (scale a =? s) && (scale b =? s) then Ok (coefficient a ?= coefficient b) else Err "E_TYPE"
          | _, _ => Err "E_TYPE"
          end
      | TBytes => match left, right with VBytes a, VBytes b => Ok (bytes_cmp a b) | _, _ => Err "E_TYPE" end
      | TRef id =>
          match left, right with
          | VNamed lid l, VNamed rid r =>
              if (lid =? id) && (rid =? id) then d ← definition cat id; cmp (def_ty d) l r else Err "E_TYPE"
          | _, _ => Err "E_TYPE"
          end
      | TEnum variants =>
          match left, right with
          | VEnum _ largs lid, VEnum _ rargs rid =>
              lv ← ok_or (find_variant_id variants lid) "E_TYPE";
              rv ← ok_or (find_variant_id variants rid) "E_TYPE";
              if negb (zlen largs =? zlen (var_args lv)) || negb (zlen rargs =? zlen (var_args rv)) then Err "E_TYPE"
              else match lid ?= rid with
                   | Eq => cmp_typed_items cmp (var_args lv) largs rargs
                   | tag => Ok tag
                   end
          | _, _ => Err "E_TYPE"
          end
      | TRecord columns =>
          match left, right with
          | VRecord l, VRecord r =>
              if negb (zlen l =? zlen columns) || negb (zlen r =? zlen columns) then Err "E_TYPE"
              else lexR (λ column,
                     lv ← ok_or (bt_get (col_name column) l) "E_TYPE";
                     rv ← ok_or (bt_get (col_name column) r) "E_TYPE";
                     cmp (col_ty column) lv rv) (sort_by_key col_id columns)
          | _, _ => Err "E_TYPE"
          end
      | TTuple tys =>
          match left, right with
          | VTuple l, VTuple r => cmp_typed_items cmp tys l r
          | _, _ => Err "E_TYPE"
          end
      | TOption inner =>
          match left, right with
          | VOption None, VOption None => Ok Eq
          | VOption None, VOption (Some _) => Ok Lt
          | VOption (Some _), VOption None => Ok Gt
          | VOption (Some l), VOption (Some r) => cmp inner l r
          | _, _ => Err "E_TYPE"
          end
      | TList inner =>
          match left, right with
          | VList l, VList r =>
              o ← lexR (λ '(x, y), cmp inner x y) (zip l r);
              Ok (then_cmp o (zlen l ?= zlen r))
          | _, _ => Err "E_TYPE"
          end
      | TMap inner =>
          match left, right with
          | VMap l, VMap r =>
              o ← lexR (λ '((lk, lv), (rk, rv)),
                    match str_cmp lk rk with Eq => cmp inner lv rv | o => Ok o end) (zip l r);
              Ok (then_cmp o (zlen l ?= zlen r))
          | _, _ => Err "E_TYPE"
          end
      | TNamed _ => Err "E_SCHEMA"
      end
  end.
Definition cmp_typed (cat : Catalog) (ty : ScalarType) (left right : Value) : result comparison :=
  cmp_typed_inner MAX_DEPTH cat ty left right.

(** ** Coercion to a declared type *)

(** The value a [Named] type coerces: its own payload, the record of a constructor
    application [Name { .. }], or the value itself. *)
Definition coerce_raw (d : TypeDefinition) (id : Z) (v : Value) : result Value :=
  match v with
  | VNamed tid value => if tid =? id then Ok value else Err "E_TYPE"
  | VEnum variant [VRecord fields] _ => if String.eqb variant (def_name d) then Ok (VRecord fields) else Ok v
  | _ => Ok v
  end.

(** The qualifier check and variant lookup of an enum value. *)
Definition coerce_variant (cat : Catalog) (variants : list (VariantOf ScalarType)) (name : string) (id : Z)
    : result (VariantOf ScalarType) :=
  let '(qualifier, variant_name) :=
    match rsplit_once "."%char name with Some (q, n) => (Some q, n) | None => (None, name) end in
  _ ← match qualifier with
      | None => Ok tt
      | Some q =>
          d ← ok_or (bt_get q (types cat)) "E_TYPE";
          match def_ty d with
          | TEnum expected =>
              if existsb (λ ev, existsb (λ actual, negb (var_id ev =? 0) && (var_id ev =? var_id actual)) variants) expected
              then Ok tt else Err "E_TYPE"
          | _ => Err "E_TYPE"
          end
      end;
  ok_or (if id =? 0 then List.find (λ d, String.eqb (var_name d) variant_name) variants
         else List.find (λ d, var_id d =? id) variants) "E_TYPE".

Fixpoint coerce_inner (fuel : nat) (cat : Catalog) (value : Value) (ty : ScalarType) : result Value :=
  match fuel with
  | O => Err "E_LIMIT"
  | S fuel =>
      let coerce := coerce_inner fuel cat in
      match ty, value with
      | TRef id, v =>
          d ← definition cat id;
          raw ← coerce_raw d id v;
          VNamed id <$> coerce raw (def_ty d)
      | TInt, VInt v => Ok (VInt v)
      | TFloat, VInt v =>
          if f64_as_i128 (i64_as_f64 v) =? v then Ok (VFloat (i64_as_f64 v)) else Err "E_TYPE"
      | TFloat, VFloat v =>
          if is_finite v then Ok (VFloat (if is_zero v then 0 else v)) else Err "E_TYPE"
      | TBool, VBool v => Ok (VBool v)
      | TUuid, VUuid v => Ok (VUuid v)
      | TDate, VDate v => Ok (VDate v)
      | TTimestamp, VTimestamp v => Ok (VTimestamp v)
      | TDuration, VDuration v => Ok (VDuration v)
      | TBytes, VBytes v => Ok (VBytes v)
      | TDecimal p s, VDecimal v => VDecimal <$> rescale v p s
      | TText, VText v => Ok (VText v)
      | TRecord columns, VRecord fields =>
          out ← foldR (λ out column,
                  v ← match bt_get (col_name column) fields with
                      | Some v => coerce v (col_ty column)
                      | None => d ← ok_or (col_default column) "E_FIELD"; coerce d (col_ty column)
                      end;
                  Ok (bt_insert (col_name column) v out)) [] columns;
          if existsb (λ kv, negb (existsb (λ c, String.eqb (col_name c) kv.1) columns)) fields
          then Err "E_FIELD" else Ok (VRecord out)
      | TTuple tys, VTuple vs =>
          if zlen vs =? zlen tys then VTuple <$> mapR (λ '(v, t), coerce v t) (zip vs tys) else Err "E_TYPE"
      | TList t, VList vs => VList <$> mapR (λ v, coerce v t) vs
      | TMap t, VMap entries =>
          if zlen entries >? MAX_MAP_ENTRIES then Err "E_MAP_LIMIT"
          else VMap <$> mapR (λ '(key, v),
                 if str_len key >? MAX_MAP_KEY_BYTES then Err "E_MAP_LIMIT"
                 else v ← coerce v t; Ok (key, v)) entries
      | TOption t, VEnum variant args _ =>
          match args with
          | [] => if String.eqb variant "None" then Ok (VOption None) else Err "E_TYPE"
          | [v] => if String.eqb variant "Some" then (λ v, VOption (Some v)) <$> coerce v t else Err "E_TYPE"
          | _ => Err "E_TYPE"
          end
      | TOption _, VOption None => Ok (VOption None)
      | TOption t, VOption (Some v) => (λ v, VOption (Some v)) <$> coerce v t
      | TEnum variants, VEnum name args id =>
          variant ← coerce_variant cat variants name id;
          if negb (zlen (var_args variant) =? zlen args) then Err "E_TYPE"
          else args ← mapR (λ '(v, t), coerce v t) (zip args (var_args variant));
               Ok (VEnum (var_name variant) args (var_id variant))
      | _, _ => Err "E_TYPE"
      end
  end.
Definition coerce (cat : Catalog) (value : Value) (ty : ScalarType) : result Value :=
  coerce_inner MAX_DEPTH cat value ty.

(** ** Invariants *)

(** What the Rust types of a [Value] guarantee. *)
Fixpoint wf_value (v : Value) : bool :=
  match v with
  | VInt z => is_i64 z
  | VFloat b => is_u64 b
  | VBool _ | VNull => true
  | VText s => wf_string s
  | VUuid u => wf_uuid u
  | VDate d => in_range MIN_DAYS MAX_DAYS d
  | VTimestamp t => is_ok (from_epoch_microseconds t)
  | VDuration t => is_i64 t
  | VDecimal d => wf_decimal d
  | VBytes bs => wf_bytes bs
  | VEnum name args id => wf_string name && is_u64 id && forallb wf_value args
  | VRecord m | VMap m => bt_sorted m && forallb (λ kv, wf_string kv.1 && wf_value kv.2) m
  | VTuple l | VList l => forallb wf_value l
  | VOption o => match o with Some v => wf_value v | None => true end
  | VNamed id v => is_u64 id && wf_value v
  end.

Definition no_dot (s : string) : bool :=
  match rsplit_once "."%char s with None => true | Some _ => false end.

Definition nodupb {A} `{EqDecision A} (l : list A) : bool := bool_decide (NoDup l).

(** What a resolved type guarantees: distinct field names and IDs, distinct nonzero
    variant IDs, identifiers without dots, canonical machine ranges. *)
Fixpoint wf_type (ty : ScalarType) : bool :=
  match ty with
  | TEnum variants =>
      nodupb (var_id <$> variants) &&
      forallb (λ v, negb (var_id v =? 0) && is_u64 (var_id v) && wf_string (var_name v) && no_dot (var_name v) &&
                    forallb wf_type (var_args v)) variants
  | TRecord columns =>
      nodupb (col_name <$> columns) && nodupb (col_id <$> columns) &&
      forallb (λ c, wf_string (col_name c) && is_u64 (col_id c) &&
                    match col_default c with Some v => wf_value v | None => true end &&
                    wf_type (col_ty c)) columns
  | TDecimal p s => is_u8 p && is_u8 s
  | TTuple items => forallb wf_type items
  | TOption t | TList t | TMap t => wf_type t
  | TRef id => is_u64 id
  | _ => true
  end.

Definition wf_catalog (cat : Catalog) : bool :=
  bt_sorted (types cat) && nodupb ((λ e, def_id e.2) <$> types cat) &&
  forallb (λ e, String.eqb (def_name e.2) e.1 && (1 <=? def_id e.2) && (def_id e.2 <? next_id cat) &&
                wf_type (def_ty e.2)) (types cat) &&
  is_u64 (next_id cat) && (1 <=? next_id cat).

(** Canonical values of a type, to a nesting depth of [fuel]. *)
Fixpoint conforms (fuel : nat) (cat : Catalog) (ty : ScalarType) (v : Value) : bool :=
  match fuel with
  | O => false
  | S fuel =>
      let conf := conforms fuel cat in
      match ty, v with
      | TInt, VInt _ | TBool, VBool _ | TText, VText _ | TUuid, VUuid _ | TDate, VDate _
      | TTimestamp, VTimestamp _ | TDuration, VDuration _ | TBytes, VBytes _ => true
      | TFloat, VFloat b => is_finite b && implb (is_zero b) (b =? 0)
      | TDecimal p s, VDecimal d =>
          is_ok (validate_type p s) && (scale d =? s) && (Z.abs (coefficient d) <? 10 ^ p)
      | TRef id, VNamed tid v =>
          (tid =? id) && match definition cat id with Ok d => conf (def_ty d) v | Err _ => false end
      | TEnum variants, VEnum name args id =>
          match find_variant_id variants id with
          | Some variant => String.eqb name (var_name variant) && all2 conf (var_args variant) args
          | None => false
          end
      | TRecord columns, VRecord fields =>
          (zlen fields =? zlen columns) &&
          forallb (λ c, match bt_get (col_name c) fields with Some v => conf (col_ty c) v | None => false end) columns
      | TTuple tys, VTuple vs => all2 conf tys vs
      | TOption _, VOption None => true
      | TOption t, VOption (Some v) => conf t v
      | TList t, VList vs => forallb (conf t) vs
      | TMap t, VMap entries =>
          (zlen entries <=? MAX_MAP_ENTRIES) &&
          forallb (λ kv, (str_len kv.1 <=? MAX_MAP_KEY_BYTES) && conf t kv.2) entries
      | _, _ => false
      end
  end.
