(* ===== verification/Coerce.v ===== *)
(** * Coercion: canonical values

    [coerce] of src/src/model.rs produces canonical values of the declared type, and
    leaves canonical values alone, so it is a projection onto them. *)
From S2P Require Import Prelude Bytes Text Decimal Temporal Float64 BTree Scalars Model.

Lemma all2_Forall2 {A B} (f : A → B → bool) l k : all2 f l k = true ↔ Forall2 (λ x y, f x y = true) l k.
Proof.
  revert k. induction l as [|x l IH]; intros [|y k]; simpl; split; try done; try (by inversion 1).
  - intros H. bool_inv. constructor; [done|]. by apply IH.
  - inversion 1; subst. apply andb_true_iff. split; [done|]. by apply IH.
Qed.

Lemma forallb_Forall {A} (f : A → bool) l : forallb f l = true ↔ Forall (λ x, f x = true) l.
Proof. by rewrite forallb_forall, Forall_forall. Qed.

Lemma nodupb_spec {A} `{EqDecision A} (l : list A) : nodupb l = true ↔ NoDup l.
Proof. apply bool_decide_eq_true. Qed.

Lemma find_Some_elem {A} (f : A → bool) l x : List.find f l = Some x → x ∈ l ∧ f x = true.
Proof. intros H%find_some. by rewrite list_elem_of_In. Qed.

(** A lookup by a key that is unique in the list finds the element. *)
Lemma find_unique {A} (f : A → bool) l x :
  x ∈ l → f x = true → (∀ y, y ∈ l → f y = true → y = x) → List.find f l = Some x.
Proof.
  intros Hx Hf Hu. destruct (List.find f l) as [y|] eqn:E.
  - apply find_Some_elem in E as [Hy Hfy]. by rewrite (Hu y Hy Hfy).
  - rewrite (find_none _ _ E x) in Hf by (by apply list_elem_of_In). done.
Qed.

Lemma NoDup_fmap_key {A B} (f : A → B) l x y : NoDup (f <$> l) → x ∈ l → y ∈ l → f x = f y → x = y.
Proof.
  induction l as [|z l IH]; simpl; [intros _ Hx; by apply elem_of_nil in Hx|].
  intros [Hz Hn]%list.NoDup_cons [->|Hx]%elem_of_cons [->|Hy]%elem_of_cons Hf; auto.
  - destruct Hz. rewrite Hf. by apply list_elem_of_fmap_2.
  - destruct Hz. rewrite <-Hf. by apply list_elem_of_fmap_2.
Qed.

(** Well-formedness of the parts of a type. *)
Lemma wf_type_variant variants v :
  wf_type (TEnum variants) = true → v ∈ variants →
  var_id v ≠ 0 ∧ is_u64 (var_id v) = true ∧ wf_string (var_name v) = true ∧ no_dot (var_name v) = true ∧
  Forall (λ t, wf_type t = true) (var_args v).
Proof.
  simpl. intros Hw Hv. bool_inv. match goal with H : forallb _ _ = true |- _ => apply forallb_Forall in H;
    rewrite list.Forall_forall in H; specialize (H v Hv) end.
  bool_inv. split_and!; try done. by apply forallb_Forall.
Qed.

Lemma wf_type_column columns c :
  wf_type (TRecord columns) = true → c ∈ columns →
  wf_string (col_name c) = true ∧ is_u64 (col_id c) = true ∧ wf_type (col_ty c) = true ∧
  (∀ v, col_default c = Some v → wf_value v = true).
Proof.
  simpl. intros Hw Hc. bool_inv. match goal with H : forallb _ _ = true |- _ => apply forallb_Forall in H;
    rewrite list.Forall_forall in H; specialize (H c Hc) end.
  bool_inv. split_and!; try done. intros v Hv. by rewrite Hv in *.
Qed.

Lemma wf_type_nodup_columns columns :
  wf_type (TRecord columns) = true → NoDup (col_name <$> columns) ∧ NoDup (col_id <$> columns).
Proof. simpl. intros. bool_inv. by rewrite <-!nodupb_spec. Qed.

Lemma wf_type_nodup_variants variants : wf_type (TEnum variants) = true → NoDup (var_id <$> variants).
Proof. simpl. intros. bool_inv. by apply nodupb_spec. Qed.

Lemma definition_Ok cat id d : definition cat id = Ok d → ∃ name, (name, d) ∈ types cat ∧ def_id d = id.
Proof.
  unfold definition. intros H%ok_or_Ok. destruct (List.find _ _) as [[name d']|] eqn:E; [|done].
  injection H as <-. apply find_Some_elem in E as [Hin Heq]. simpl in *. bool_inv. eauto.
Qed.

Lemma definition_wf cat id d :
  wf_catalog cat = true → definition cat id = Ok d → wf_type (def_ty d) = true ∧ is_u64 id = true ∧ def_id d = id.
Proof.
  intros Hw (name & Hin & <-)%definition_Ok. unfold wf_catalog in Hw. bool_inv.
  match goal with H : forallb _ (types cat) = true |- _ => apply forallb_Forall in H;
    rewrite list.Forall_forall in H; specialize (H _ Hin) end.
  simpl in *. bool_inv. split_and!; try done. unrange. lia.
Qed.

Lemma find_variant_id_Some variants id v :
  find_variant_id variants id = Some v → v ∈ variants ∧ var_id v = id ∧ id ≠ 0.
Proof. intros [Hv Hf]%find_Some_elem. bool_inv. naive_solver. Qed.

Lemma find_variant_id_elem variants v :
  wf_type (TEnum variants) = true → v ∈ variants → find_variant_id variants (var_id v) = Some v.
Proof.
  intros Hw Hv. destruct (wf_type_variant _ _ Hw Hv) as (H0 & _). apply find_unique; [done| |].
  - apply andb_true_iff. split; [by apply negb_true_iff, Z.eqb_neq | apply Z.eqb_refl].
  - intros y Hy Hf. bool_inv. by eapply NoDup_fmap_key; [apply wf_type_nodup_variants|..].
Qed.

(** The loop that fills a record field by field. *)
Lemma foldR_insert_spec (f : ColumnOf ScalarType → result Value) columns acc out :
  foldR (λ out c, v ← f c; Ok (bt_insert (col_name c) v out)) acc columns = Ok out →
  NoDup (col_name <$> columns) → (∀ c, c ∈ columns → bt_get (col_name c) acc = None) → bt_sorted acc = true →
  bt_sorted out = true ∧ length out = (length acc + length columns)%nat ∧
  (∀ c, c ∈ columns → ∃ v, f c = Ok v ∧ bt_get (col_name c) out = Some v) ∧
  (∀ k, k ∉ col_name <$> columns → bt_get k out = bt_get k acc).
Proof.
  revert acc. induction columns as [|c columns IH]; intros acc H Hn Hacc Hs; cbn [foldR] in H.
  - injection H as <-. split_and!; try done; try (simpl; lia). intros c Hc. by apply elem_of_nil in Hc.
  - res_inv. subst. apply list.NoDup_cons in Hn as [Hc Hn].
    assert (Hne : ∀ c', c' ∈ columns → col_name c' ≠ col_name c).
    { intros c' Hc' E. apply Hc. rewrite <-E. by apply list_elem_of_fmap_2. }
    destruct (IH _ H) as (Hs' & Hl & Hin & Hout); [done| |by apply bt_insert_sorted|].
    { intros c' Hc'. rewrite bt_get_insert_ne by auto. apply Hacc. by right. }
    split_and!; [done| | |].
    + rewrite Hl, bt_insert_length_new by (apply Hacc; by left). simpl. lia.
    + intros c' [->|Hc']%elem_of_cons; [|auto]. exists x0. rewrite Hout by done. auto using bt_get_insert_eq.
    + intros k [Hk Hk']%not_elem_of_cons. rewrite Hout by done. by apply bt_get_insert_ne.
Qed.

Lemma rescale_conforms d p s r :
  is_u8 s = true → rescale d p s = Ok r →
  is_ok (validate_type p s) && (scale r =? s) && (Z.abs (coefficient r) <? 10 ^ p) = true ∧ wf_decimal r = true.
Proof.
  intros Hs H. unfold rescale in H. apply bind_Ok in H as ([] & Hv & H). apply bind_Ok in H as (c & _ & H).
  unrange. apply decimal_new_fits in H as [Hf _]; [|lia]. split; [|by eapply fits_wf].
  rewrite Hv. destruct Hf as (_ & _ & -> & Hc). rewrite Z.eqb_refl. by apply Z.ltb_lt.
Qed.

Lemma rescale_same d p s :
  is_ok (validate_type p s) && (scale d =? s) && (Z.abs (coefficient d) <? 10 ^ p) = true → rescale d p s = Ok d.
Proof.
  intros H. bool_inv. destruct (validate_type p s) as [[]|] eqn:Hv; [|done].
  unfold rescale. rewrite Hv. cbn [mbind result_bind]. subst s. rewrite Z.geb_leb, Z.leb_refl, Z.sub_diag, Z.pow_0_r, Z.mul_1_r.
  apply validate_type_Ok in Hv as Hps. pose proof (pow10_mono p 38 ltac:(lia)).
  replace (checked is_i128 (coefficient d)) with (Some (coefficient d)).
  - cbn [ok_or mbind result_bind]. apply decimal_new_Ok. destruct d; simpl in *; split_and!; done || lia.
  - unfold checked. rewrite is_i128_small; [done|lia].
Qed.

Lemma wf_entries_elem (m : list (string * Value)) k v :
  forallb (λ kv, wf_string kv.1 && wf_value kv.2) m = true → (k, v) ∈ m → wf_string k = true ∧ wf_value v = true.
Proof.
  rewrite forallb_Forall, list.Forall_forall. intros Hm Hin. specialize (Hm _ Hin). simpl in Hm. by bool_inv.
Qed.

(** ** Coerced values are canonical

    The cases with components, for any component coercion [co] whose results are
    canonical for [conf]. *)
Section sound.
Context (co : Value → ScalarType → result Value) (conf : ScalarType → Value → bool).
Context (IH : ∀ v t r, wf_type t = true → wf_value v = true → co v t = Ok r → conf t r = true ∧ wf_value r = true).

Lemma coerce_items vs tys rs :
  Forall (λ t, wf_type t = true) tys → forallb wf_value vs = true → zlen vs = zlen tys →
  mapR (λ '(v, t), co v t) (zip vs tys) = Ok rs → all2 conf tys rs = true ∧ forallb wf_value rs = true.
Proof.
  intros Ht. revert vs rs. induction Ht as [|t tys Ht _ IHt]; intros [|v vs] rs Hv Hl H;
    unfold zlen in *; simpl in *; try lia.
  - by injection H as <-.
  - res_inv. subst. bool_inv. destruct (IH _ _ _ Ht H Hx) as [E1 E2]. simpl. rewrite E1, E2. apply (IHt vs); [done|lia|done].
Qed.

Lemma coerce_list t vs rs :
  wf_type t = true → forallb wf_value vs = true → mapR (λ v, co v t) vs = Ok rs →
  forallb (conf t) rs = true ∧ forallb wf_value rs = true.
Proof.
  intros Ht. revert rs. induction vs as [|v vs IHv]; intros rs Hv H; simpl in *.
  - by injection H as <-.
  - res_inv. subst. bool_inv. destruct (IH _ _ _ Ht H Hx) as [E1 E2]. simpl. rewrite E1, E2. by apply IHv.
Qed.

Lemma coerce_map t m rs :
  wf_type t = true → forallb (λ kv, wf_string kv.1 && wf_value kv.2) m = true →
  mapR (λ '(key, v), if str_len key >? MAX_MAP_KEY_BYTES then Err "E_MAP_LIMIT" else v ← co v t; Ok (key, v)) m = Ok rs →
  rs.*1 = m.*1 ∧ forallb (λ kv, (str_len kv.1 <=? MAX_MAP_KEY_BYTES) && conf t kv.2) rs = true ∧
  forallb (λ kv, wf_string kv.1 && wf_value kv.2) rs = true.
Proof.
  intros Ht. revert rs. induction m as [|[k v] m IHm]; intros rs Hm H; cbn [mapR] in H.
  - by injection H as <-.
  - case_if_in H; [done|]. simpl in Hm. bool_inv. res_inv. subst.
    destruct (IHm x0) as (E1 & E2 & E3); [done..|].
    match goal with Hv : wf_value v = true, Hc : co v t = Ok _ |- _ => destruct (IH _ _ _ Ht Hv Hc) as [C1 C2] end.
    split_and!; [simpl; f_equal; apply E1| |].
    + apply andb_true_iff. split; [|done]. apply andb_true_iff. split; [apply Z.leb_le; exact E|done].
    + apply andb_true_iff. split; [|done]. by apply andb_true_iff.
Qed.

Lemma coerce_record columns fields out :
  wf_type (TRecord columns) = true → wf_value (VRecord fields) = true →
  foldR (λ out column,
    v ← match bt_get (col_name column) fields with
        | Some v => co v (col_ty column)
        | None => d ← ok_or (col_default column) "E_FIELD"; co d (col_ty column)
        end;
    Ok (bt_insert (col_name column) v out)) [] columns = Ok out →
  zlen out = zlen columns ∧
  forallb (λ c, match bt_get (col_name c) out with Some v => conf (col_ty c) v | None => false end) columns = true ∧
  wf_value (VRecord out) = true.
Proof.
  intros Ht Hf H. destruct (wf_type_nodup_columns _ Ht) as [Hn _].
  apply foldR_insert_spec in H as (Hs & Hl & Hin & Hout); [|done..].
  simpl in Hf. apply andb_true_iff in Hf as [_ Hf].
  assert (Hc : ∀ c, c ∈ columns → ∃ v, bt_get (col_name c) out = Some v ∧ conf (col_ty c) v = true ∧ wf_value v = true).
  { intros c Hc. destruct (Hin c Hc) as (v & Hv & Hg). exists v. split; [done|].
    destruct (wf_type_column _ _ Ht Hc) as (_ & _ & Hct & Hd).
    destruct (bt_get (col_name c) fields) as [w|] eqn:Eg.
    - apply bt_get_elem in Eg. destruct (wf_entries_elem _ _ _ Hf Eg). by apply (IH w).
    - apply bind_Ok in Hv as (d & Hd'%ok_or_Ok & Hv). apply (IH d); auto. }
  split_and!.
  - unfold zlen. rewrite Hl. simpl. lia.
  - apply forallb_Forall, list.Forall_forall. intros c Hcc. by destruct (Hc c Hcc) as (v & -> & ? & _).
  - simpl. apply andb_true_iff. split; [done|]. apply forallb_Forall, list.Forall_forall. intros [k v] Hkv. simpl.
    apply (bt_get_iff _ _ _ Hs) in Hkv.
    destruct (decide (k ∈ col_name <$> columns)) as [(c & -> & Hcc)%list_elem_of_fmap|Hk];
      [|by rewrite Hout in Hkv].
    destruct (Hc c Hcc) as (v' & Hv' & _ & Hw). rewrite Hkv in Hv'. injection Hv' as <-.
    by rewrite (proj1 (wf_type_column _ _ Ht Hcc)), Hw.
Qed.
End sound.

Lemma bt_sorted_keys {A B} (m : list (string * A)) (m' : list (string * B)) :
  m.*1 = m'.*1 → bt_sorted m = bt_sorted m'.
Proof.
  assert (Hb : ∀ k (m : list (string * A)) (m' : list (string * B)), m.*1 = m'.*1 → bt_below k m = bt_below k m').
  { intros k. induction m0 as [|e m0 IH]; intros [|e' m'0] H; try discriminate H; [done|].
    injection H as E1 E2. unfold bt_below. cbn [forallb]. rewrite E1. f_equal. by apply IH. }
  revert m'. induction m as [|[k a] m IH]; intros [|[k' a'] m']; simpl; intros [=]; [done|].
  subst. f_equal; auto.
Qed.

Lemma coerce_raw_wf d id v raw : wf_value v = true → coerce_raw d id v = Ok raw → wf_value raw = true.
Proof.
  intros Hv H. destruct v as [| | | | | | | | | | |n args i| | | | | |tid w]; simpl in H; try (by injection H as <-).
  - destruct args as [|[] [|]]; try (by injection H as <-).
    case_if_in H; injection H as <-; [|done]. simpl in *. bool_inv. by apply andb_true_iff.
  - case_if_in H; [|done]. injection H as <-. simpl in Hv. by bool_inv.
Qed.

Lemma coerce_variant_elem cat variants name id v :
  coerce_variant cat variants name id = Ok v → v ∈ variants.
Proof.
  unfold coerce_variant. destruct (match rsplit_once _ _ with Some _ => _ | None => _ end) as [q n].
  intros H. apply bind_Ok in H as (_ & _ & H%ok_or_Ok). case_if_in H; by apply find_Some_elem in H as [??].
Qed.

Lemma coerce_inner_sound fuel cat v ty r :
  wf_catalog cat = true → wf_type ty = true → wf_value v = true → coerce_inner fuel cat v ty = Ok r →
  conforms fuel cat ty r = true ∧ wf_value r = true.
Proof.
  intros Hcat. revert v ty r. induction fuel as [|fuel IH]; intros v ty r Ht Hv H; [done|].
  assert (IH' : ∀ v t r, wf_type t = true → wf_value v = true → coerce_inner fuel cat v t = Ok r →
                conforms fuel cat t r = true ∧ wf_value r = true) by eauto.
  clear IH. cbn [coerce_inner] in H. cbn [conforms].
  destruct ty; try (destruct v; try discriminate H; by injection H as <-).
  - destruct v; try discriminate H; case_if_in H; try done; injection H as <-.
    + bool_inv. destruct (i64_as_f64_finite v Hv) as (? & -> & Hz). split; [|done].
      destruct (is_zero _); [|done]. simpl. by apply Z.eqb_eq, Hz.
    + simpl in Hv. destruct (is_zero bits) eqn:Ez; [done|]. by rewrite E, Ez.
  - destruct v; try discriminate H. apply fmap_Ok in H as (d' & H & ->). simpl in Ht. bool_inv.
    by apply rescale_conforms in H.
  - destruct v as [| | | | | | | | | | |n args i| | | | | |]; try discriminate H.
    apply bind_Ok in H as (var & Hvar%coerce_variant_elem & H). case_if_in H; [done|].
    apply bind_Ok in H as (rs & Hrs & [= <-]). bool_inv.
    destruct (wf_type_variant _ _ Ht Hvar) as (_ & Hu & Hn & _ & Ha). simpl in Hv. bool_inv.
    rewrite find_variant_id_elem by done. cbn [wf_value]. rewrite String.eqb_refl, Hu, Hn.
    by eapply coerce_items.
  - destruct v; try discriminate H. apply bind_Ok in H as (out & Hout & H). case_if_in H; [done|].
    injection H as <-. destruct (coerce_record _ _ IH' _ _ _ Ht Hv Hout) as (-> & -> & Hw).
    by rewrite Z.eqb_refl.
  - destruct v; try discriminate H. case_if_in H; [|done]. apply fmap_Ok in H as (rs & Hrs & ->).
    bool_inv. eapply coerce_items; try done. by apply forallb_Forall.
  - destruct v as [| | | | | | | | | | |n args i| | | | |[w|]|]; try discriminate H.
    + simpl in Hv. bool_inv. destruct args as [|w [|]]; try done; case_if_in H; try done; [by injection H as <-|].
      apply fmap_Ok in H as (w' & Hw & ->). simpl in *. bool_inv. by apply (IH' w).
    + apply fmap_Ok in H as (w' & Hw & ->). by destruct (IH' w ty w').
    + by injection H as <-.
  - destruct v; try discriminate H. apply fmap_Ok in H as (rs & Hrs & ->). by eapply coerce_list.
  - destruct v; try discriminate H. case_if_in H; [done|]. apply fmap_Ok in H as (rs & Hrs & ->).
    simpl in Hv. bool_inv. pose proof (mapR_length _ _ _ Hrs) as Hl.
    apply (coerce_map _ _ IH') in Hrs as (Hk & Hc & Hw); [|done..].
    cbn [wf_value]. rewrite Hc, Hw, (bt_sorted_keys _ _ Hk). split; [|by rewrite andb_true_r].
    rewrite andb_true_r. apply Z.leb_le. unfold zlen in *. lia.
  - apply bind_Ok in H as (d & Hd & H). apply bind_Ok in H as (raw & Hraw & H).
    apply fmap_Ok in H as (w & Hw & ->). rewrite Z.eqb_refl, Hd. cbn [wf_value].
    destruct (definition_wf _ _ _ Hcat Hd) as (Hdt & -> & _). apply coerce_raw_wf in Hraw; [|done].
    by apply (IH' raw).
Qed.

(** ** Canonical values are fixed points *)

Lemma foldR_insert_total (f : ColumnOf ScalarType → result Value) columns acc :
  (∀ c, c ∈ columns → ∃ v, f c = Ok v) →
  ∃ out, foldR (λ out c, v ← f c; Ok (bt_insert (col_name c) v out)) acc columns = Ok out.
Proof.
  revert acc. induction columns as [|c columns IH]; intros acc Hf; [by eexists|].
  destruct (Hf c) as [v Hv]; [by left|]. cbn [foldR]. rewrite Hv. apply IH. intros c' Hc. apply Hf. by right.
Qed.

(** A record with as many fields as columns, covering every column, has no others. *)
Lemma record_keys (columns : Columns) (fields : list (string * Value)) :
  NoDup (col_name <$> columns) → bt_sorted fields = true → zlen fields = zlen columns →
  (∀ c, c ∈ columns → is_Some (bt_get (col_name c) fields)) →
  col_name <$> columns ≡ₚ fields.*1.
Proof.
  intros Hn Hs Hl Hc. apply submseteq_length_Permutation.
  - apply NoDup_submseteq; [done|]. intros k (c & -> & Hin)%list_elem_of_fmap.
    destruct (Hc c Hin) as [v Hv]. apply bt_get_elem in Hv. change (col_name c) with (col_name c, v).1.
    by apply list_elem_of_fmap_2.
  - rewrite !length_fmap. unfold zlen in Hl. lia.
Qed.

Section stable.
Context (co : Value → ScalarType → result Value) (conf : ScalarType → Value → bool).
Context (IH : ∀ v t, wf_type t = true → wf_value v = true → conf t v = true → co v t = Ok v).

Lemma stable_items tys vs :
  Forall (λ t, wf_type t = true) tys → forallb wf_value vs = true → all2 conf tys vs = true →
  zlen vs = zlen tys ∧ mapR (λ '(v, t), co v t) (zip vs tys) = Ok vs.
Proof.
  intros Ht. revert vs. induction Ht as [|t tys Ht _ IHt]; intros [|v vs] Hv Hc; try done.
  simpl in Hv, Hc. bool_inv. destruct (IHt vs) as [Hl Hm]; [done..|]. split; [unfold zlen in *; simpl; lia|].
  cbn [zip zip_with mapR]. by rewrite IH, Hm.
Qed.

Lemma stable_list t vs :
  wf_type t = true → forallb wf_value vs = true → forallb (conf t) vs = true → mapR (λ v, co v t) vs = Ok vs.
Proof.
  intros Ht Hv Hc. apply mapR_Ok. apply Forall2_same_length_lookup_2; [done|]. intros i x y Hx Hy.
  rewrite Hx in Hy. injection Hy as <-. rewrite forallb_Forall, list.Forall_lookup in Hv, Hc. eauto.
Qed.

Lemma stable_map t m :
  wf_type t = true → forallb (λ kv, wf_string kv.1 && wf_value kv.2) m = true →
  forallb (λ kv, (str_len kv.1 <=? MAX_MAP_KEY_BYTES) && conf t kv.2) m = true →
  mapR (λ '(key, v), if str_len key >? MAX_MAP_KEY_BYTES then Err "E_MAP_LIMIT" else v ← co v t; Ok (key, v)) m = Ok m.
Proof.
  intros Ht Hv Hc. induction m as [|[k v] m IHm]; [done|]. simpl in Hv, Hc. bool_inv. cbn [mapR].
  rewrite Z.gtb_ltb. destruct (Z.ltb_spec MAX_MAP_KEY_BYTES (str_len k)); [lia|].
  rewrite IH by done. cbn [mbind result_bind]. by rewrite IHm.
Qed.

Lemma stable_record columns fields :
  wf_type (TRecord columns) = true → wf_value (VRecord fields) = true → zlen fields = zlen columns →
  forallb (λ c, match bt_get (col_name c) fields with Some v => conf (col_ty c) v | None => false end) columns = true →
  foldR (λ out column,
    v ← match bt_get (col_name column) fields with
        | Some v => co v (col_ty column)
        | None => d ← ok_or (col_default column) "E_FIELD"; co d (col_ty column)
        end;
    Ok (bt_insert (col_name column) v out)) [] columns = Ok fields ∧
  existsb (λ kv, negb (existsb (λ c, String.eqb (col_name c) kv.1) columns)) fields = false.
Proof.
  intros Ht Hf Hl Hc. destruct (wf_type_nodup_columns _ Ht) as [Hn _].
  rewrite forallb_Forall, list.Forall_forall in Hc. simpl in Hf. apply andb_true_iff in Hf as [Hs Hf].
  assert (Hco : ∀ c, c ∈ columns → ∃ v, bt_get (col_name c) fields = Some v ∧ co v (col_ty c) = Ok v).
  { intros c Hin. specialize (Hc c Hin). destruct (bt_get (col_name c) fields) as [v|] eqn:E; [|done].
    exists v. split; [done|]. destruct (wf_type_column _ _ Ht Hin) as (_ & _ & Hct & _).
    apply bt_get_elem in E. destruct (wf_entries_elem _ _ _ Hf E). by apply IH. }
  assert (Hkeys : col_name <$> columns ≡ₚ fields.*1).
  { apply record_keys; try done. intros c Hin. destruct (Hco c Hin) as (v & -> & _). by eexists. }
  split.
  - edestruct (foldR_insert_total (λ column, match bt_get (col_name column) fields with
        | Some v => co v (col_ty column)
        | None => d ← ok_or (col_default column) "E_FIELD"; co d (col_ty column) end) columns []) as [out Hout].
    { intros c Hin. destruct (Hco c Hin) as (v & -> & Hv). eauto. }
    rewrite Hout. f_equal. apply foldR_insert_spec in Hout as (Hs' & _ & Hin & Hout); [|done..].
    apply bt_ext; [done..|]. intros k. destruct (decide (k ∈ col_name <$> columns)) as [Hk|Hk].
    + apply list_elem_of_fmap in Hk as (c & -> & Hcc). destruct (Hin c Hcc) as (v & Hv & ->).
      destruct (Hco c Hcc) as (w & Hw & Hcw). rewrite Hw in Hv. congruence.
    + rewrite Hout by done. destruct (bt_get k fields) as [v|] eqn:E; [|done]. exfalso. apply Hk.
      rewrite Hkeys. apply bt_get_elem in E. change k with (k, v).1. by apply list_elem_of_fmap_2.
  - apply not_true_is_false. rewrite existsb_exists. intros ([k v] & Hin & Hneg). bool_inv.
    apply not_true_iff_false in Hneg. apply Hneg, existsb_exists.
    assert (Hk : k ∈ col_name <$> columns).
    { rewrite Hkeys. change k with (k, v).1. apply list_elem_of_fmap_2. by apply list_elem_of_In. }
    apply list_elem_of_fmap in Hk as (c & -> & Hcc). exists c. rewrite <-list_elem_of_In. split; [done|]. apply String.eqb_refl.
Qed.
End stable.

Lemma coerce_variant_canonical cat variants v :
  wf_type (TEnum variants) = true → v ∈ variants → coerce_variant cat variants (var_name v) (var_id v) = Ok v.
Proof.
  intros Hw Hv. destruct (wf_type_variant _ _ Hw Hv) as (H0 & _ & _ & Hd & _). unfold coerce_variant, no_dot in *.
  destruct (rsplit_once _ _) as [[q n]|]; [done|]. cbn [mbind result_bind].
  destruct (Z.eqb_spec (var_id v) 0); [done|]. apply ok_or_Ok, find_unique; [done|apply Z.eqb_refl|].
  intros y Hy E. bool_inv. by eapply NoDup_fmap_key; [apply wf_type_nodup_variants|..].
Qed.

Lemma coerce_inner_stable fuel cat v ty :
  wf_catalog cat = true → wf_type ty = true → wf_value v = true → conforms fuel cat ty v = true →
  coerce_inner fuel cat v ty = Ok v.
Proof.
  intros Hcat. revert v ty. induction fuel as [|fuel IH]; intros v ty Ht Hv H; [done|].
  assert (IH' : ∀ v t, wf_type t = true → wf_value v = true → conforms fuel cat t v = true →
                coerce_inner fuel cat v t = Ok v) by eauto.
  clear IH. cbn [conforms] in H. cbn [coerce_inner].
  destruct ty, v as [| | | | | | | | | | |n args i| | | | |[w|]|]; try discriminate H; try done.
  - bool_inv. match goal with Hf : is_finite bits = true |- _ => rewrite Hf end.
    destruct (is_zero bits); [|done]. simpl in *. bool_inv. by subst.
  - by rewrite rescale_same.
  - destruct (find_variant_id variants i) as [var|] eqn:E; [|done].
    apply find_variant_id_Some in E as (Hin & <- & _). bool_inv. subst n.
    rewrite coerce_variant_canonical by done. cbn [mbind result_bind].
    destruct (wf_type_variant _ _ Ht Hin) as (_ & _ & _ & _ & Ha). simpl in Hv. bool_inv.
    destruct (stable_items _ _ IH' (var_args var) args) as [-> ->]; try done. by rewrite Z.eqb_refl.
  - bool_inv. destruct (stable_record _ _ IH' _ _ Ht Hv) as [-> Hex]; [done..|]. cbn [mbind result_bind]. by rewrite Hex.
  - destruct (stable_items _ _ IH' items items0) as [-> ->]; try done; [by apply forallb_Forall|]. by rewrite Z.eqb_refl.
  - by rewrite IH'.
  - by rewrite (stable_list _ _ IH').
  - simpl in Hv. bool_inv. rewrite Z.gtb_ltb. destruct (Z.ltb_spec MAX_MAP_ENTRIES (zlen entries)); [lia|].
    by rewrite (stable_map _ _ IH').
  - bool_inv. subst. destruct (definition cat id) as [d|] eqn:Ed; [|done]. cbn [mbind result_bind coerce_raw].
    rewrite Z.eqb_refl. cbn [mbind result_bind]. destruct (definition_wf _ _ _ Hcat Ed) as (Hdt & _).
    simpl in Hv. bool_inv. by rewrite IH'.
Qed.

(** The same at the entry point. *)
Lemma coerce_sound cat v ty r :
  wf_catalog cat = true → wf_type ty = true → wf_value v = true → coerce cat v ty = Ok r →
  conforms MAX_DEPTH cat ty r = true ∧ wf_value r = true.
Proof. unfold coerce. generalize MAX_DEPTH. intros fuel. apply coerce_inner_sound. Qed.

Lemma coerce_stable cat v ty :
  wf_catalog cat = true → wf_type ty = true → wf_value v = true → conforms MAX_DEPTH cat ty v = true →
  coerce cat v ty = Ok v.
Proof. unfold coerce. generalize MAX_DEPTH. intros fuel. apply coerce_inner_stable. Qed.

(** ** Properties *)

(** C32: a successful coercion returns a canonical value of the declared type, with
    every machine-level invariant of a value, and coercing it again changes
    nothing. *)
Theorem coerce_canonical cat v ty r :
  wf_catalog cat = true → wf_type ty = true → wf_value v = true → coerce cat v ty = Ok r →
  conforms MAX_DEPTH cat ty r = true ∧ wf_value r = true ∧ coerce cat r ty = Ok r.
Proof.
  intros Hc Ht Hv H. destruct (coerce_sound _ _ _ _ Hc Ht Hv H) as [Hr Hw]. auto using coerce_stable.
Qed.

(** A catalog with one recursive nominal type,
    [type Tree = Leaf | Node { left: Tree, value: float = 7 }]. *)
Definition tree_catalog : Catalog :=
  mkCatalog [("Tree", mkTypeDefinition 5 "Tree" (TEnum
    [EnumVariantDef "Leaf" [] 1;
     EnumVariantDef "Node" [TRecord [Column "left" (TRef 5) None 2; Column "value" TFloat (Some (VInt 7)) 3]] 4]))] 6.
Definition tree_input : Value := VEnum "Node" [VRecord [("left", VEnum "Leaf" [] 0)]] 0.
Definition tree_value : Value :=
  VNamed 5 (VEnum "Node" [VRecord [("left", VNamed 5 (VEnum "Leaf" [] 1)); ("value", VFloat 4619567317775286272)]] 4).

Lemma coerce_canonical_witness :
  conforms MAX_DEPTH tree_catalog (TRef 5) tree_value = true ∧ wf_value tree_value = true ∧
  coerce tree_catalog tree_value (TRef 5) = Ok tree_value.
Proof. apply (coerce_canonical tree_catalog tree_input (TRef 5) tree_value); vm_compute; reflexivity. Defined.

(** The fixed points of coercion are exactly the canonical values of the type. *)
Theorem coerce_fixpoints cat v ty :
  wf_catalog cat = true → wf_type ty = true → wf_value v = true →
  coerce cat v ty = Ok v ↔ conforms MAX_DEPTH cat ty v = true.
Proof.
  intros Hc Ht Hv. split; [|by apply coerce_stable]. intros H. by destruct (coerce_sound _ _ _ _ Hc Ht Hv H).
Qed.

Lemma coerce_fixpoints_witness : coerce tree_catalog tree_value (TRef 5) = Ok tree_value.
Proof.
  apply (coerce_fixpoints tree_catalog tree_value (TRef 5)); vm_compute; reflexivity.
Defined.

(** an integer is accepted where a float is declared exactly when the conversion
    loses nothing: every accepted integer keeps its numerical value, and every
    integer of magnitude at most [2^53] is accepted. *)
Theorem coerce_int_to_float_exact cat v :
  is_i64 v = true →
  (∀ r, coerce cat (VInt v) TFloat = Ok r → ∃ b, r = VFloat b ∧ is_finite b = true ∧ scaled b = v * 2 ^ 1074) ∧
  (Z.abs v ≤ 2 ^ 53 → ∃ b, coerce cat (VInt v) TFloat = Ok (VFloat b)).
Proof.
  intros Hv. unfold coerce. change MAX_DEPTH with (S 63). cbn [coerce_inner]. split.
  - intros r H. case_if_in H; [|done]. injection H as <-. bool_inv. eexists; split; [done|].
    split; [by apply i64_as_f64_finite | by apply i64_as_f64_exact].
  - intros Hs. destruct (i64_as_f64_whole v Hv) as (k & _ & Hk & Hkv).
    rewrite Hk, (Hkv Hs), Z.eqb_refl. by eexists.
Qed.

Lemma coerce_int_to_float_exact_witness : ∃ b, coerce default_catalog (VInt (- 2 ^ 53)) TFloat = Ok (VFloat b).
Proof. exact (proj2 (coerce_int_to_float_exact default_catalog (- 2 ^ 53) eq_refl) ltac:(lia)). Defined.
