(* ===== verification/OrderedKey.v ===== *)
(** * Ordered index keys

    Models src/src/ordered_key.rs: the byte encoding of index components whose
    unsigned lexicographic order is the typed order of the values
    ([Catalog::cmp_typed]), component direction, and the framing of complete
    secondary-index keys.  [encode_value] returns the bytes that the code appends
    to its output buffer. *)
From S2P Require Import Prelude Bytes Text Decimal Temporal Float64 BTree Scalars Model Coerce.

Definition INDEX_KEY_CODEC_VERSION : Z := 3.
Definition MAP_INDEX_KEY_CODEC_VERSION : Z := 4.
Definition MAX_COMPLETE_INDEX_KEY_BYTES : Z := 64 * 1024.
Definition MAX_INDEX_COMPONENTS : Z := 16.
Definition INDEX_MAGIC : list Z := as_bytes "UIDI".

Definition encode_escaped (bytes : list Z) : list Z :=
  concat ((λ b, if b =? 0 then [0; 255] else [b]) <$> bytes) ++ [0; 0].

(** [(v as uW) ^ (1 << (W - 1))], big endian in [n] bytes. *)
Definition sign_flipped (w : Z) (n : nat) (v : Z) : list Z :=
  be_bytes n (Z.lxor (wrap w v) (2 ^ (w - 1))).

Fixpoint encode_value (fuel : nat) (cat : Catalog) (version : Z) (ty : ScalarType) (value : Value) : result (list Z) :=
  match fuel with
  | O => Err "E_LIMIT"
  | S fuel =>
      let enc := encode_value fuel cat version in
      match ty with
      | TInt => match value with VInt v => Ok (sign_flipped 64 8 v) | _ => Err "E_TYPE" end
      | TFloat =>
          match value with
          | VFloat v => if is_finite v then Ok (be_bytes 8 (ordered_bits v)) else Err "E_TYPE"
          | _ => Err "E_TYPE"
          end
      | TBool => match value with VBool v => Ok [if v then 1 else 0] | _ => Err "E_TYPE" end
      | TText => match value with VText v => Ok (encode_escaped (as_bytes v)) | _ => Err "E_TYPE" end
      | TUuid => match value with VUuid v => Ok v | _ => Err "E_TYPE" end
      | TDate => match value with VDate v => Ok (sign_flipped 32 4 v) | _ => Err "E_TYPE" end
      | TTimestamp => match value with VTimestamp v => Ok (sign_flipped 64 8 v) | _ => Err "E_TYPE" end
      | TDuration => match value with VDuration v => Ok (sign_flipped 64 8 v) | _ => Err "E_TYPE" end
      | TDecimal _ s =>
          match value with
          | VDecimal v => if scale v =? s then Ok (sign_flipped 128 16 (coefficient v)) else Err "E_TYPE"
          | _ => Err "E_TYPE"
          end
      | TBytes => match value with VBytes v => Ok (encode_escaped v) | _ => Err "E_TYPE" end
      | TRef id =>
          match value with
          | VNamed tid v => if tid =? id then d ← definition cat id; enc (def_ty d) v else Err "E_TYPE"
          | _ => Err "E_TYPE"
          end
      | TEnum variants =>
          match value with
          | VEnum _ args id =>
              variant ← ok_or (find_variant_id variants id) "E_TYPE";
              if negb (zlen args =? zlen (var_args variant)) then Err "E_TYPE"
              else chunks ← mapR (λ '(t, v), enc t v) (zip (var_args variant) args);
                   Ok (be_bytes 8 id ++ concat chunks)
          | _ => Err "E_TYPE"
          end
      | TRecord columns =>
          match value with
          | VRecord values =>
              if negb (zlen values =? zlen columns) then Err "E_TYPE"
              else concat (A:=Z) <$> mapR (λ column,
                     v ← ok_or (bt_get (col_name column) values) "E_TYPE"; enc (col_ty column) v)
                     (sort_by_key col_id columns)
          | _ => Err "E_TYPE"
          end
      | TTuple tys =>
          match value with
          | VTuple values =>
              if negb (zlen values =? zlen tys) then Err "E_TYPE"
              else concat (A:=Z) <$> mapR (λ '(t, v), enc t v) (zip tys values)
          | _ => Err "E_TYPE"
          end
      | TOption inner =>
          match value with
          | VOption None => Ok [0]
          | VOption (Some v) => cons 1 <$> enc inner v
          | _ => Err "E_TYPE"
          end
      | TList inner =>
          match value with
          | VList values =>
              chunks ← mapR (λ v, cons 1 <$> enc inner v) values;
              Ok (concat chunks ++ [0])
          | _ => Err "E_TYPE"
          end
      | TMap inner =>
          if version <? MAP_INDEX_KEY_CODEC_VERSION then Err "E_STORAGE_UPGRADE_REQUIRED"
          else match value with
               | VMap entries =>
                   chunks ← mapR (λ '(key, v),
                     e ← enc inner v; Ok (1 :: encode_escaped (as_bytes key) ++ e)) entries;
                   Ok (concat chunks ++ [0])
               | _ => Err "E_TYPE"
               end
      | TNamed _ => Err "E_SCHEMA"
      end
  end.

Record Component := mkComponent { comp_ty : ScalarType; comp_value : Value; comp_descending : bool }.

Definition encode_component (cat : Catalog) (version : Z) (c : Component) : result (list Z) :=
  bytes ← encode_value MAX_DEPTH cat version (comp_ty c) (comp_value c);
  Ok (if comp_descending c then complement bytes else bytes).

Definition encode_tuple_version (cat : Catalog) (components : list Component) (version : Z) : result (list Z) :=
  if (zlen components =? 0) || (zlen components >? MAX_INDEX_COMPONENTS) then Err "E_INDEX_SHAPE"
  else concat (A:=Z) <$> mapR (encode_component cat version) components.
Definition encode_tuple (cat : Catalog) (components : list Component) : result (list Z) :=
  encode_tuple_version cat components MAP_INDEX_KEY_CODEC_VERSION.

Definition encode_complete_version (cat : Catalog) (index_id : Z) (components : list Component) (row_id version : Z)
    : result (list Z) :=
  tuple ← encode_tuple_version cat components version;
  count ← ok_or (checked is_u8 (zlen components)) "E_INDEX_SHAPE";
  let output := INDEX_MAGIC ++ be_bytes 2 version ++ be_bytes 8 index_id ++ [count] ++ tuple ++ be_bytes 8 row_id in
  if zlen output >? MAX_COMPLETE_INDEX_KEY_BYTES then Err "E_INDEX_KEY_LIMIT" else Ok output.
Definition encode_complete (cat : Catalog) (index_id : Z) (components : list Component) (row_id : Z) : result (list Z) :=
  encode_complete_version cat index_id components row_id INDEX_KEY_CODEC_VERSION.
Definition encode_complete_v4 (cat : Catalog) (index_id : Z) (components : list Component) (row_id : Z) : result (list Z) :=
  encode_complete_version cat index_id components row_id MAP_INDEX_KEY_CODEC_VERSION.

Definition validate_complete_version (key : list Z) (expected : Z) : result unit :=
  if (zlen key <? 23) || (zlen key >? MAX_COMPLETE_INDEX_KEY_BYTES) || negb (bool_decide (take 4 key = INDEX_MAGIC))
  then Err "E_STORAGE"
  else
    let version := of_be (take 2 (drop 4 key)) in
    if negb (version =? expected) then Err "E_STORAGE"
    else
      let count := nth 14 key 0 in
      if (count =? 0) || (count >? MAX_INDEX_COMPONENTS) then Err "E_STORAGE" else Ok tt.
Definition validate_complete (key : list Z) : result unit := validate_complete_version key INDEX_KEY_CODEC_VERSION.
Definition validate_complete_v4 (key : list Z) : result unit := validate_complete_version key MAP_INDEX_KEY_CODEC_VERSION.

(** ** Codes of scalars *)

Lemma lxor_flip w z : 0 < w → - 2 ^ (w - 1) ≤ z < 2 ^ (w - 1) → Z.lxor (wrap w z) (2 ^ (w - 1)) = z + 2 ^ (w - 1).
Proof.
  intros Hw Hz. unfold wrap.
  assert (H2 : 2 ^ w = 2 * 2 ^ (w - 1)) by (rewrite <-Z.pow_succ_r by lia; f_equal; lia).
  set (h := 2 ^ (w - 1)) in *. assert (0 < h) by (apply Z.pow_pos_nonneg; lia).
  assert (Hland : ∀ x, 0 ≤ x < h → Z.land x h = 0).
  { intros x Hx. apply Z.bits_inj'. intros n Hn. subst h. rewrite Z.land_spec, Z.bits_0, Z.pow2_bits_eqb by lia.
    destruct (Z.eqb_spec (w - 1) n) as [<-|]; [|apply andb_false_r].
    rewrite andb_true_r. apply Z.testbit_false; [lia|]. by rewrite Z.div_small. }
  destruct (decide (0 ≤ z)).
  - rewrite Z.mod_small by lia. symmetry. apply Z.add_nocarry_lxor, Hland. lia.
  - assert (Hm : z `mod` 2 ^ w = (z + h) + h).
    { rewrite <-(Z_mod_plus_full z 1), Z.mod_small; lia. }
    rewrite Hm, Z.add_nocarry_lxor by (apply Hland; lia).
    by rewrite Z.lxor_assoc, Z.lxor_nilpotent, Z.lxor_0_r.
Qed.

Lemma sign_flipped_code w n a b :
  2 ^ w = 256 ^ Z.of_nat n → 0 < w → - 2 ^ (w - 1) ≤ a < 2 ^ (w - 1) → - 2 ^ (w - 1) ≤ b < 2 ^ (w - 1) →
  code_cmp (a ?= b) (sign_flipped w n a) (sign_flipped w n b).
Proof.
  intros Hn Hw Ha Hb. unfold sign_flipped. rewrite !lxor_flip by done.
  assert (H2 : 2 ^ w = 2 * 2 ^ (w - 1)) by (rewrite <-Z.pow_succ_r by lia; f_equal; lia).
  rewrite <-(Z.add_compare_mono_l (2 ^ (w - 1)) a b), !(Z.add_comm (2 ^ (w - 1))). apply code_cmp_be; lia.
Qed.

Lemma code_cmp_same_length a b : length a = length b → code_cmp (bytes_cmp a b) a b.
Proof.
  revert b. induction a as [|x a IH]; intros [|y b] Hl; try done; [constructor|].
  simpl. destruct (decide (x = y)) as [->|Hne].
  - rewrite Z.compare_refl. apply code_cmp_cons, IH. by injection Hl.
  - replace (then_cmp (x ?= y) (bytes_cmp a b)) with (x ?= y); [by apply code_cmp_byte|].
    destruct (Z.compare_spec x y); done.
Qed.

(** Escaping terminates a string below every continuation of it. *)
Lemma encode_escaped_code a b :
  all_bytes a = true → all_bytes b = true → code_cmp (bytes_cmp a b) (encode_escaped a) (encode_escaped b).
Proof.
  unfold encode_escaped. revert b. induction a as [|x a IH]; intros [|y b] Ha Hb; simpl in *; bool_inv;
    rewrite ?is_byte_spec in *.
  - constructor.
  - destruct (Z.eqb_spec y 0) as [->|].
    + by apply (code_cmp_cons _ 0), (code_cmp_byte 0 255).
    + replace Lt with (0 ?= y) by (apply Z.compare_lt_iff; lia). by apply code_cmp_byte.
  - destruct (Z.eqb_spec x 0) as [->|].
    + by apply (code_cmp_cons _ 0), (code_cmp_byte 255 0).
    + replace Gt with (x ?= 0) by (apply Z.compare_gt_iff; lia). by apply code_cmp_byte.
  - destruct (decide (x = y)) as [->|Hne].
    + rewrite Z.compare_refl, <-!app_assoc. simpl. apply (code_cmp_app Eq); [constructor|]. by apply IH.
    + replace (then_cmp (x ?= y) (bytes_cmp a b)) with (x ?= y) by (by destruct (Z.compare_spec x y)).
      rewrite <-!app_assoc. destruct (Z.eqb_spec x 0), (Z.eqb_spec y 0); subst; try done; by apply code_cmp_byte.
Qed.

(** ** Codes of composite values

    Each loop of the encoder against the matching loop of [cmp_typed]. *)

Lemma lexR_code {A} (gl gr : A → result (list Z)) (h : A → result comparison) cs la lb :
  (∀ c a b, c ∈ cs → gl c = Ok a → gr c = Ok b → ∃ o, h c = Ok o ∧ code_cmp o a b) →
  mapR gl cs = Ok la → mapR gr cs = Ok lb →
  ∃ o, lexR h cs = Ok o ∧ code_cmp o (concat la) (concat lb).
Proof.
  revert la lb. induction cs as [|c cs IH]; intros la lb Hh Hl Hr; cbn [mapR] in *.
  - injection Hl as <-. injection Hr as <-. exists Eq. split; [done|constructor].
  - res_inv. subst. destruct (Hh c x1 x) as (o & Ho & Hc); [by left|done..|].
    destruct (IH x2 x0) as (o' & Ho' & Hc'); [|done..|].
    { intros c' a b Hin. apply Hh. by right. }
    cbn [lexR concat]. rewrite Ho. cbn [mbind result_bind]. exists (then_cmp o o'). split.
    + by destruct o.
    + by apply code_cmp_app.
Qed.

Lemma lexR_ext {A} (f g : A → result comparison) l : (∀ x, f x = g x) → lexR f l = lexR g l.
Proof. intros H. induction l as [|x l IH]; simpl; [done|]. by rewrite H, IH. Qed.

Section order.
Context (enc : ScalarType → Value → result (list Z)) (cmp : ScalarType → Value → Value → result comparison).
Context (IH : ∀ t v w a b, wf_value v = true → wf_value w = true → enc t v = Ok a → enc t w = Ok b →
              ∃ o, cmp t v w = Ok o ∧ code_cmp o a b).

Lemma order_items tys l r la lb :
  forallb wf_value l = true → forallb wf_value r = true → zlen l = zlen tys → zlen r = zlen tys →
  mapR (λ '(t, v), enc t v) (zip tys l) = Ok la → mapR (λ '(t, v), enc t v) (zip tys r) = Ok lb →
  ∃ o, cmp_typed_items cmp tys l r = Ok o ∧ code_cmp o (concat la) (concat lb).
Proof.
  intros Hwl Hwr Hl Hr Ha Hb. unfold cmp_typed_items. rewrite Hl, Hr, Z.eqb_refl. simpl.
  revert l r la lb Hwl Hwr Hl Hr Ha Hb.
  induction tys as [|t tys IHt]; intros [|v l] [|w r] la lb Hwl Hwr Hl Hr Ha Hb;
    unfold zlen in Hl, Hr; simpl in Hl, Hr; try lia.
  - apply Ok_inj in Ha as <-. apply Ok_inj in Hb as <-. exists Eq. split; [done|constructor].
  - cbn [zip zip_with mapR] in Ha, Hb. simpl in Hwl, Hwr. bool_inv. res_inv. subst.
    destruct (IH t v w x1 x) as (o & Ho & Hc); [done..|].
    destruct (IHt l r x2 x0) as (o' & Ho' & Hc'); [done..|unfold zlen; lia|unfold zlen; lia|done|done|].
    cbn [zip zip_with lexR concat]. rewrite Ho. cbn [mbind result_bind]. exists (then_cmp o o'). split.
    + by destruct o.
    + by apply code_cmp_app.
Qed.

(** A list is coded as its items, each behind a [1], closed by a [0]. *)
Lemma order_seq {A} (e : A → result (list Z)) (f : A → A → result comparison) l r la lb :
  (∀ x y a b, x ∈ l → y ∈ r → e x = Ok a → e y = Ok b → ∃ o, f x y = Ok o ∧ code_cmp o a b) →
  mapR (λ x, cons 1 <$> e x) l = Ok la → mapR (λ x, cons 1 <$> e x) r = Ok lb →
  ∃ o, lexR (λ '(x, y), f x y) (zip l r) = Ok o ∧
       code_cmp (then_cmp o (zlen l ?= zlen r)) (concat la ++ [0]) (concat lb ++ [0]).
Proof.
  revert r la lb. induction l as [|x l IHl]; intros [|y r] la lb Hf Ha Hb; cbn [mapR] in *.
  - res_inv. subst. exists Eq. split; [done|constructor].
  - res_inv. subst. exists Eq. split; [done|]. apply (code_cmp_byte 0 1). done.
  - res_inv. subst. exists Eq. split; [done|]. apply (code_cmp_byte 1 0). done.
  - apply bind_Ok in Ha as (xa & Hxa & (al & Hal & <-%Ok_inj)%bind_Ok). apply fmap_Ok in Hxa as (a & Hxa & ->).
    apply bind_Ok in Hb as (yb & Hyb & (bl & Hbl & <-%Ok_inj)%bind_Ok). apply fmap_Ok in Hyb as (b & Hyb & ->).
    destruct (Hf x y a b) as (o & Ho & Hc); [by left|by left|done..|].
    destruct (IHl r al bl) as (o' & Ho' & Hc'); [|done..|].
    { intros x' y' a' b' Hx' Hy'. apply Hf; by right. }
    cbn [zip zip_with lexR concat]. rewrite Ho. cbn [mbind result_bind]. exists (then_cmp o o'). split.
    + by destruct o.
    + rewrite then_cmp_assoc, !zlen_cons, Z.add_compare_mono_l. cbn [app]. rewrite <-!app_assoc.
      apply code_cmp_cons. by apply code_cmp_app.
Qed.

Lemma order_record columns l r la lb :
  wf_value (VRecord l) = true → wf_value (VRecord r) = true →
  mapR (λ column, v ← ok_or (bt_get (col_name column) l) "E_TYPE"; enc (col_ty column) v) columns = Ok la →
  mapR (λ column, v ← ok_or (bt_get (col_name column) r) "E_TYPE"; enc (col_ty column) v) columns = Ok lb →
  ∃ o, lexR (λ column,
         lv ← ok_or (bt_get (col_name column) l) "E_TYPE";
         rv ← ok_or (bt_get (col_name column) r) "E_TYPE";
         cmp (col_ty column) lv rv) columns = Ok o ∧ code_cmp o (concat la) (concat lb).
Proof.
  intros Hl Hr. apply lexR_code. intros c a b _ Ha Hb.
  apply bind_Ok in Ha as (v & Hv%ok_or_Ok & Ha). apply bind_Ok in Hb as (w & Hw%ok_or_Ok & Hb).
  rewrite Hv, Hw. cbn [ok_or mbind result_bind]. simpl in Hl, Hr. bool_inv.
  apply bt_get_elem in Hv, Hw. eapply wf_entries_elem in Hv as [_ ?], Hw as [_ ?]; [|done..]. by apply IH.
Qed.

Lemma order_enum variants n args i n' args' i' a b :
  wf_value (VEnum n args i) = true → wf_value (VEnum n' args' i') = true →
  (variant ← ok_or (find_variant_id variants i) "E_TYPE";
   if negb (zlen args =? zlen (var_args variant)) then Err "E_TYPE"
   else chunks ← mapR (λ '(t, v), enc t v) (zip (var_args variant) args);
        Ok (be_bytes 8 i ++ concat chunks)) = Ok a →
  (variant ← ok_or (find_variant_id variants i') "E_TYPE";
   if negb (zlen args' =? zlen (var_args variant)) then Err "E_TYPE"
   else chunks ← mapR (λ '(t, v), enc t v) (zip (var_args variant) args');
        Ok (be_bytes 8 i' ++ concat chunks)) = Ok b →
  ∃ o, (lv ← ok_or (find_variant_id variants i) "E_TYPE";
        rv ← ok_or (find_variant_id variants i') "E_TYPE";
        if negb (zlen args =? zlen (var_args lv)) || negb (zlen args' =? zlen (var_args rv)) then Err "E_TYPE"
        else match i ?= i' with
             | Eq => cmp_typed_items cmp (var_args lv) args args'
             | tag => Ok tag
             end) = Ok o ∧ code_cmp o a b.
Proof.
  intros Hv Hw Ha Hb. simpl in Hv, Hw. bool_inv.
  apply bind_Ok in Ha as (lv & Hlv%ok_or_Ok & Ha). apply bind_Ok in Hb as (rv & Hrv%ok_or_Ok & Hb).
  case_if_in Ha; [done|]. case_if_in Hb; [done|]. rewrite Hlv, Hrv. cbn [ok_or mbind result_bind]. rewrite E, E0.
  apply bind_Ok in Ha as (la & Ha & <-%Ok_inj). apply bind_Ok in Hb as (lb & Hb & <-%Ok_inj). bool_inv. cbn [orb].
  assert (Hid : code_cmp (i ?= i') (be_bytes 8 i) (be_bytes 8 i')) by (unrange; apply code_cmp_be; lia).
  destruct (Z.compare_spec i i') as [<-|Hlt|Hgt].
  - rewrite Hlv in Hrv. injection Hrv as <-. destruct (order_items (var_args lv) args args' la lb) as (o & -> & Hc); try done.
    exists o. split; [done|]. by apply (code_cmp_app Eq).
  - exists Lt. split; [done|]. by apply code_cmp_ne.
  - exists Gt. split; [done|]. by apply code_cmp_ne.
Qed.

Lemma order_map t l r la lb :
  wf_value (VMap l) = true → wf_value (VMap r) = true →
  mapR (λ '(key, v), e ← enc t v; Ok (1 :: encode_escaped (as_bytes key) ++ e)) l = Ok la →
  mapR (λ '(key, v), e ← enc t v; Ok (1 :: encode_escaped (as_bytes key) ++ e)) r = Ok lb →
  ∃ o, lexR (λ '((lk, lv), (rk, rv)), match str_cmp lk rk with Eq => cmp t lv rv | o => Ok o end) (zip l r) = Ok o ∧
       code_cmp (then_cmp o (zlen l ?= zlen r)) (concat la ++ [0]) (concat lb ++ [0]).
Proof.
  intros Hl Hr Ha Hb. set (e := λ kv : string * Value, (λ x, encode_escaped (as_bytes kv.1) ++ x) <$> enc t kv.2).
  assert (Hext : ∀ m chunks, mapR (λ '(key, v), e ← enc t v; Ok (1 :: encode_escaped (as_bytes key) ++ e)) m = Ok chunks →
                 mapR (λ kv, cons 1 <$> e kv) m = Ok chunks).
  { intros m chunks Hm. rewrite <-Hm. clear. induction m as [|[k v] m IHm]; [done|]. cbn [mapR]. rewrite IHm.
    unfold e. simpl. by destruct (enc t v). }
  apply Hext in Ha, Hb. simpl in Hl, Hr. bool_inv.
  destruct (order_seq e (λ x y, match str_cmp x.1 y.1 with Eq => cmp t x.2 y.2 | o => Ok o end) l r la lb)
    as (o & Ho & Hc); [|done..|].
  - intros [lk lv] [rk rv] a b Hx Hy Hea Heb. unfold e in Hea, Heb. simpl in *.
    eapply wf_entries_elem in Hx as [_ ?], Hy as [_ ?]; [|done..]. res_inv. subst.
    destruct (IH t lv rv x0 x) as (o & Ho & Hc); [done..|]. unfold str_cmp.
    pose proof (encode_escaped_code _ _ (as_bytes_all_bytes lk) (as_bytes_all_bytes rk)) as Hk.
    pose proof (code_cmp_app _ _ _ _ _ _ Hk Hc) as Hkc. unfold as_bytes in *.
    destruct (bytes_cmp _ _); eauto.
  - exists o. split; [|done]. rewrite <-Ho. apply lexR_ext. by intros [[??] [??]].
Qed.
End order.

Lemma float_code a b :
  is_u64 a = true → is_u64 b = true → is_finite a = true → is_finite b = true →
  ∃ o, (if is_zero a && is_zero b then Ok Eq
        else ok_or (f64_partial_cmp a b) "E_TYPE") = Ok o ∧
       code_cmp o (be_bytes 8 (ordered_bits a)) (be_bytes 8 (ordered_bits b)).
Proof.
  intros Ha Hb Hfa Hfb.
  assert (Hnan : ∀ x, is_finite x = true → is_nan x = false).
  { intros x. unfold is_finite, is_nan. by destruct (_ =? 2047). }
  pose proof (ordered_bits_compare a b Ha Hb) as Hc.
  pose proof (code_cmp_be 8 _ _ (ordered_bits_u64 a Ha) (ordered_bits_u64 b Hb)) as Hk.
  destruct (is_zero a) eqn:Za, (is_zero b) eqn:Zb; simpl;
    try (exists (scaled a ?= scaled b); rewrite <-Hc; unfold f64_partial_cmp;
         rewrite !Hnan by done; simpl; rewrite Hc; split; [done|by rewrite <-Hc]).
  exists Eq. split; [done|]. replace Eq with (ordered_bits a ?= ordered_bits b); [done|].
  rewrite Z.compare_eq_iff. unfold ordered_bits. by rewrite Za, Zb.
Qed.

Lemma i64_bounds z : is_i64 z = true → - 2 ^ (64 - 1) ≤ z < 2 ^ (64 - 1).
Proof. intros. unrange. lia. Qed.

Lemma timestamp_i64 t : is_ok (from_epoch_microseconds t) = true → is_i64 t = true.
Proof.
  destruct (from_epoch_microseconds t) as [m|] eqn:E; [|done]. intros _.
  apply from_epoch_microseconds_Ok in E as [_ E]. by apply day_range_i64.
Qed.

Lemma date_i32 d : in_range MIN_DAYS MAX_DAYS d = true → - 2 ^ (32 - 1) ≤ d < 2 ^ (32 - 1).
Proof. intros H%in_range_spec. unfold MIN_DAYS, MAX_DAYS, EPOCH_DAYS in H. lia. Qed.

Lemma decimal_i128 d : wf_decimal d = true → - 2 ^ (128 - 1) ≤ coefficient d < 2 ^ (128 - 1).
Proof. intros [H _]%wf_decimal_spec. lia. Qed.

Lemma encode_value_order fuel cat version ty v w a b :
  wf_value v = true → wf_value w = true →
  encode_value fuel cat version ty v = Ok a → encode_value fuel cat version ty w = Ok b →
  ∃ c, cmp_typed_inner fuel cat ty v w = Ok c ∧ code_cmp c a b.
Proof.
  revert ty v w a b. induction fuel as [|fuel IH]; intros ty v w a b Hv Hw Ha Hb; [done|].
  cbn [encode_value] in Ha, Hb. cbn [cmp_typed_inner].
  destruct ty; try (case_if_in Ha; [done|]);
    destruct v as [| | | | | | | | | | |n args i| | | | |[v|]|]; try discriminate Ha;
    destruct w as [| | | | | | | | | | |n' args' i'| | | | |[w|]|]; try discriminate Hb.
  - apply Ok_inj in Ha as <-. apply Ok_inj in Hb as <-. eexists; split; [done|].
    by apply sign_flipped_code; [..|apply i64_bounds|apply i64_bounds].
  - case_if_in Ha; [|done]. case_if_in Hb; [|done]. apply Ok_inj in Ha as <-. apply Ok_inj in Hb as <-. cbn [negb orb]. by apply float_code.
  - apply Ok_inj in Ha as <-. apply Ok_inj in Hb as <-. eexists; split; [done|]. destruct b0, b1; [apply cc_eq|by apply (code_cmp_byte 1 0)|by apply (code_cmp_byte 0 1)|apply cc_eq].
  - apply Ok_inj in Ha as <-. apply Ok_inj in Hb as <-. eexists; split; [done|]. apply encode_escaped_code; apply as_bytes_all_bytes.
  - apply Ok_inj in Ha as <-. apply Ok_inj in Hb as <-. eexists; split; [done|]. apply code_cmp_same_length.
    simpl in Hv, Hw. unfold wf_uuid, zlen in *. bool_inv. lia.
  - apply Ok_inj in Ha as <-. apply Ok_inj in Hb as <-. eexists; split; [done|].
    by apply sign_flipped_code; [..|apply date_i32|apply date_i32].
  - apply Ok_inj in Ha as <-. apply Ok_inj in Hb as <-. eexists; split; [done|].
    by apply sign_flipped_code; [..|apply i64_bounds, timestamp_i64|apply i64_bounds, timestamp_i64].
  - apply Ok_inj in Ha as <-. apply Ok_inj in Hb as <-. eexists; split; [done|].
    by apply sign_flipped_code; [..|apply i64_bounds|apply i64_bounds].
  - case_if_in Ha; [|done]. case_if_in Hb; [|done]. apply Ok_inj in Ha as <-. apply Ok_inj in Hb as <-.
    eexists; split; [done|]. by apply sign_flipped_code; [..|apply decimal_i128|apply decimal_i128].
  - apply Ok_inj in Ha as <-. apply Ok_inj in Hb as <-. eexists; split; [done|]. simpl in Hv, Hw. unfold wf_bytes in *. bool_inv.
    by apply encode_escaped_code.
  - by eapply order_enum.
  - case_if_in Ha; [done|]. case_if_in Hb; [done|]. bool_inv.
    apply fmap_Ok in Ha as (la & Ha & ->). apply fmap_Ok in Hb as (lb & Hb & ->).
    cbn [orb]. by apply (order_record (encode_value fuel cat version)).
  - case_if_in Ha; [done|]. case_if_in Hb; [done|]. bool_inv.
    apply fmap_Ok in Ha as (la & Ha & ->). apply fmap_Ok in Hb as (lb & Hb & ->).
    by apply (order_items (encode_value fuel cat version)).
  - apply fmap_Ok in Ha as (la & Ha & ->). apply fmap_Ok in Hb as (lb & Hb & ->).
    destruct (IH ty v w la lb) as (o & Ho & Hc); [done..|]. exists o. split; [done|]. by apply code_cmp_cons.
  - apply fmap_Ok in Ha as (la & Ha & ->). apply Ok_inj in Hb as <-. eexists; split; [done|]. by apply (code_cmp_byte 1 0).
  - apply fmap_Ok in Hb as (lb & Hb & ->). apply Ok_inj in Ha as <-. eexists; split; [done|]. by apply (code_cmp_byte 0 1).
  - apply Ok_inj in Ha as <-. apply Ok_inj in Hb as <-. eexists; split; [done|constructor].
  - apply bind_Ok in Ha as (la & Ha & <-%Ok_inj). apply bind_Ok in Hb as (lb & Hb & <-%Ok_inj).
    simpl in Hv, Hw. rewrite forallb_Forall, list.Forall_forall in Hv, Hw.
    destruct (order_seq (encode_value fuel cat version ty) (cmp_typed_inner fuel cat ty) items items0 la lb)
      as (o & -> & Hc); [|done..|by eexists].
    intros x y a' b' Hx Hy. apply IH; auto.
  - apply bind_Ok in Ha as (la & Ha & <-%Ok_inj). apply bind_Ok in Hb as (lb & Hb & <-%Ok_inj).
    destruct (order_map _ _ IH ty entries entries0 la lb) as (o & -> & Hc); [done..|by eexists].
  - case_if_in Ha; [|done]. case_if_in Hb; [|done]. bool_inv. subst. simpl in Hv, Hw. bool_inv. cbn [andb].
    apply bind_Ok in Ha as (d & Hd & Ha). apply bind_Ok in Hb as (d' & Hd' & Hb).
    rewrite Hd in Hd' |- *. injection Hd' as <-. simpl. by apply IH.
Qed.

(** ** Canonical values have keys *)

Lemma zip_elem {A B} (l : list A) (k : list B) (P : A → B → Prop) x y :
  Forall2 P l k → (x, y) ∈ zip l k → P x y.
Proof.
  intros H. induction H as [|a b l k Hab _ IH]; simpl; [intros Hin; by apply elem_of_nil in Hin|].
  intros [[= -> ->]|Hin]%elem_of_cons; auto.
Qed.

Lemma encode_items_total {T V} (enc : T → V → result (list Z)) (conf : T → V → bool) tys vs :
  (∀ t v, conf t v = true → ∃ a, enc t v = Ok a) → all2 conf tys vs = true →
  zlen vs = zlen tys ∧ ∃ chunks, mapR (λ '(t, v), enc t v) (zip tys vs) = Ok chunks.
Proof.
  intros IH H%all2_Forall2. split; [unfold zlen; by rewrite (Forall2_length H)|].
  apply mapR_total. intros [t v] Hin. eapply (zip_elem _ _ _ _ _ H) in Hin. auto.
Qed.

(** Reduce the success of a loop to the success of each iteration. *)
Ltac mapR_ok :=
  match goal with |- context [mapR ?f ?l] => destruct (mapR_total f l) as [chunks ->]; [|by eexists] end.

Lemma encode_value_total fuel cat ty v :
  conforms fuel cat ty v = true → ∃ a, encode_value fuel cat MAP_INDEX_KEY_CODEC_VERSION ty v = Ok a.
Proof.
  revert ty v. induction fuel as [|fuel IH]; intros ty v H; [done|].
  cbn [conforms] in H. cbn [encode_value].
  destruct ty, v as [| | | | | | | | | | |n args i| | | | |[w|]|]; try discriminate H; try (by eexists).
  - bool_inv. match goal with Hf : is_finite bits = true |- _ => rewrite Hf end. by eexists.
  - bool_inv. subst. rewrite Z.eqb_refl. by eexists.
  - destruct (find_variant_id variants i) as [var|]; [|done]. bool_inv.
    edestruct (encode_items_total (encode_value fuel cat MAP_INDEX_KEY_CODEC_VERSION) (conforms fuel cat))
      as (Hl & chunks & Hch); [exact IH|done|].
    cbn [ok_or mbind result_bind]. rewrite Hl, Z.eqb_refl, Hch. by eexists.
  - bool_inv. match goal with Hl : zlen fields = _ |- _ => rewrite Hl end. rewrite Z.eqb_refl. simpl.
    mapR_ok.
    intros c Hc. rewrite sort_by_key_perm in Hc.
    match goal with Hf : forallb _ columns = true |- _ => rewrite forallb_Forall, list.Forall_forall in Hf; specialize (Hf c Hc) end.
    simpl in *. destruct (bt_get _ _) as [v|]; [|done]. by apply IH.
  - edestruct (encode_items_total (encode_value fuel cat MAP_INDEX_KEY_CODEC_VERSION) (conforms fuel cat))
      as (Hl & chunks & Hch); [exact IH|done|].
    rewrite Hl, Z.eqb_refl, Hch. by eexists.
  - destruct (IH _ _ H) as [a ->]. by eexists.
  - mapR_ok.
    rewrite forallb_Forall, list.Forall_forall in H. intros x Hx. destruct (IH _ _ (H x Hx)) as [a ->]. by eexists.
  - bool_inv. rewrite Z.ltb_irrefl. mapR_ok.
    match goal with Hf : forallb _ entries = true |- _ => rewrite forallb_Forall, list.Forall_forall in Hf; rename Hf into Hall end.
    intros [k x] Hx. specialize (Hall _ Hx). simpl in Hall. bool_inv.
    destruct (IH ty x) as [a ->]; [done|]. by eexists.
  - bool_inv. subst. rewrite Z.eqb_refl. destruct (definition cat id) as [d|]; [|done]. by apply IH.
Qed.

(** ** Comparison of canonical values decides equality *)

Lemma lexR_Eq {A} (f : A → result comparison) l : lexR f l = Ok Eq → ∀ x, x ∈ l → f x = Ok Eq.
Proof.
  induction l as [|y l IH]; simpl; intros H x Hx; [by apply elem_of_nil in Hx|].
  apply bind_Ok in H as (c & Hc & H). destruct c; try discriminate H.
  apply elem_of_cons in Hx as [->|Hx]; auto.
Qed.

Lemma zip_eq {A} (l r : list A) : zlen l = zlen r → (∀ x y, (x, y) ∈ zip l r → x = y) → l = r.
Proof.
  revert r. induction l as [|x l IH]; intros [|y r] Hl Hz; unfold zlen in *; simpl in *; try done; try lia.
  f_equal; [apply Hz; by left|]. apply IH; [lia|]. intros a b Hab. apply Hz. by right.
Qed.

Lemma float_canonical_eq a b :
  is_u64 a = true → is_u64 b = true → implb (is_zero a) (a =? 0) = true → implb (is_zero b) (b =? 0) = true →
  ordered_bits a = ordered_bits b → a = b.
Proof.
  intros Ha Hb Za Zb.
  destruct (f64_cases a Ha) as [(x & Hx & Ea & _ & Hza & ->)|(x & Hx & Ea & _ & Hza & ->)],
           (f64_cases b Hb) as [(y & Hy & Eb & _ & Hzb & ->)|(y & Hy & Eb & _ & Hzb & ->)].
  - lia.
  - destruct (Z.eqb_spec y 0) as [->|]; [|lia]. rewrite (proj2 Hzb eq_refl) in Zb. simpl in Zb. bool_inv. lia.
  - destruct (Z.eqb_spec x 0) as [->|]; [|lia]. rewrite (proj2 Hza eq_refl) in Za. simpl in Za. bool_inv. lia.
  - destruct (Z.eqb_spec x 0), (Z.eqb_spec y 0); lia.
Qed.

Section injective.
Context (cat : Catalog) (conf : ScalarType → Value → bool) (cmp : ScalarType → Value → Value → result comparison).
Context (IH : ∀ t v w, wf_type t = true → wf_value v = true → wf_value w = true → conf t v = true → conf t w = true →
              cmp t v w = Ok Eq → v = w).

Lemma eq_items tys l r :
  Forall (λ t, wf_type t = true) tys → forallb wf_value l = true → forallb wf_value r = true →
  all2 conf tys l = true → all2 conf tys r = true → cmp_typed_items cmp tys l r = Ok Eq → l = r.
Proof.
  intros Ht Hl Hr Hcl Hcr H. unfold cmp_typed_items in H. case_if_in H; [done|]. clear E.
  revert l r Hl Hr Hcl Hcr H. induction Ht as [|t tys Ht _ IHt]; intros [|v l] [|w r] Hl Hr Hcl Hcr H; try done.
  simpl in *. bool_inv. apply bind_Ok in H as (c & Hc & H). destruct c; try discriminate H.
  f_equal; [by apply (IH t)|by apply IHt].
Qed.

Lemma eq_record columns l r :
  wf_type (TRecord columns) = true → wf_value (VRecord l) = true → wf_value (VRecord r) = true →
  zlen l = zlen columns → zlen r = zlen columns →
  forallb (λ c, match bt_get (col_name c) l with Some v => conf (col_ty c) v | None => false end) columns = true →
  forallb (λ c, match bt_get (col_name c) r with Some v => conf (col_ty c) v | None => false end) columns = true →
  lexR (λ column,
     lv ← ok_or (bt_get (col_name column) l) "E_TYPE";
     rv ← ok_or (bt_get (col_name column) r) "E_TYPE";
     cmp (col_ty column) lv rv) (sort_by_key col_id columns) = Ok Eq → l = r.
Proof.
  intros Ht Hl Hr Hll Hlr Hcl Hcr H. destruct (wf_type_nodup_columns _ Ht) as [Hn _].
  rewrite forallb_Forall, list.Forall_forall in Hcl, Hcr. simpl in Hl, Hr. bool_inv.
  assert (Hkeys : ∀ m : list (string * Value), bt_sorted m = true → zlen m = zlen columns →
    (∀ c, c ∈ columns → match bt_get (col_name c) m with Some v => conf (col_ty c) v | None => false end = true) →
    ∀ k, k ∉ col_name <$> columns → bt_get k m = None).
  { intros m Hs Hlm Hm k Hk. destruct (bt_get k m) as [v|] eqn:E; [|done]. destruct Hk.
    rewrite (record_keys columns m); try done.
    - apply bt_get_elem in E. change k with (k, v).1. by apply list_elem_of_fmap_2.
    - intros c Hc. specialize (Hm c Hc). destruct (bt_get _ _); [by eexists|done]. }
  apply bt_ext; [done..|]. intros k.
  destruct (decide (k ∈ col_name <$> columns)) as [(c & -> & Hc)%list_elem_of_fmap|Hk].
  - pose proof (lexR_Eq _ _ H c ltac:(by rewrite sort_by_key_perm)) as Hcc. specialize (Hcl c Hc). specialize (Hcr c Hc).
    simpl in *. destruct (bt_get (col_name c) l) as [v|] eqn:Ev, (bt_get (col_name c) r) as [w|] eqn:Ew; try done.
    apply bt_get_elem in Ev, Ew. eapply wf_entries_elem in Ev as [_ ?], Ew as [_ ?]; [|done..].
    f_equal. destruct (wf_type_column _ _ Ht Hc) as (_ & _ & ? & _). by apply (IH (col_ty c)).
  - by rewrite !Hkeys.
Qed.
End injective.

Lemma cmp_typed_Eq fuel cat ty v w :
  wf_catalog cat = true → wf_type ty = true → wf_value v = true → wf_value w = true →
  conforms fuel cat ty v = true → conforms fuel cat ty w = true →
  cmp_typed_inner fuel cat ty v w = Ok Eq → v = w.
Proof.
  intros Hcat. revert ty v w. induction fuel as [|fuel IH]; intros ty v w Ht Hv Hw Cv Cw H; [done|].
  cbn [conforms] in Cv, Cw. cbn [cmp_typed_inner] in H.
  destruct ty; destruct v as [| | | | | | | | | | |n args i| | | | |[v|]|]; try discriminate Cv;
    destruct w as [| | | | | | | | | | |n' args' i'| | | | |[w|]|]; try discriminate Cw; try discriminate H; try done;
    try (injection H as H; apply Z.compare_eq in H; by subst);
    try (injection H as H; apply bytes_cmp_Eq in H; by subst).
  - bool_inv. f_equal. apply float_canonical_eq; try done.
    apply Z.compare_eq. rewrite ordered_bits_compare by done.
    match goal with H1 : is_finite bits = true, H2 : is_finite bits0 = true |- _ => rewrite H1, H2 in H end. simpl in H.
    case_if_in H.
    + bool_inv. apply Z.compare_eq_iff. unfold ordered_bits in *. 
      repeat match goal with Hz : is_zero ?b = true, Hi : implb (is_zero ?b) _ = true |- _ => rewrite Hz in Hi; simpl in Hi end.
      bool_inv. by subst.
    + apply ok_or_Ok in H. unfold f64_partial_cmp in H. case_if_in H; [done|]. by injection H.
  - destruct b, b0; done.
  - injection H as H. apply str_cmp_Eq in H. by subst.
  - bool_inv. subst. rewrite H2, Z.eqb_refl in H. simpl in H. injection H as H. apply Z.compare_eq in H.
    destruct d, d0; simpl in *; congruence.
  - destruct (find_variant_id variants i) as [lv|] eqn:El; [|done]. destruct (find_variant_id variants i') as [rv|] eqn:Er; [|done].
    bool_inv. subst. simpl in H. case_if_in H; [done|]. destruct (Z.compare_spec i i') as [<-| |]; try discriminate H.
    rewrite El in Er. injection Er as <-. apply find_variant_id_Some in El as (Hin & _).
    destruct (wf_type_variant _ _ Ht Hin) as (_ & _ & _ & _ & Ha). simpl in Hv, Hw. bool_inv. f_equal.
    by apply (eq_items _ _ IH (var_args lv)).
  - bool_inv. case_if_in H; [done|]. f_equal. by apply (eq_record _ _ IH columns).
  - f_equal. apply (eq_items _ _ IH items); try done. by apply forallb_Forall.
  - do 2 f_equal. by apply (IH ty).
  - apply bind_Ok in H as (o & Ho & H). injection H as [-> Hl]%then_cmp_Eq. f_equal.
    apply zip_eq; [by apply Z.compare_eq|]. intros x y Hxy.
    simpl in Hv, Hw. rewrite forallb_Forall, list.Forall_forall in Hv, Hw, Cv, Cw.
    pose proof (elem_of_zip_l _ _ _ _ Hxy). pose proof (elem_of_zip_r _ _ _ _ Hxy).
    apply (IH ty); auto. by apply (lexR_Eq _ _ Ho (x, y)).
  - apply bind_Ok in H as (o & Ho & H). injection H as [-> Hl]%then_cmp_Eq. f_equal.
    apply zip_eq; [by apply Z.compare_eq|]. intros [k x] [k' y] Hxy.
    simpl in Hv, Hw. bool_inv. pose proof (elem_of_zip_l _ _ _ _ Hxy) as Hx. pose proof (elem_of_zip_r _ _ _ _ Hxy) as Hy.
    pose proof (lexR_Eq _ _ Ho ((k, x), (k', y)) Hxy) as He. simpl in He.
    destruct (str_cmp k k') eqn:Ek; try done. apply str_cmp_Eq in Ek as <-. f_equal.
    repeat match goal with Hf : forallb _ _ = true |- _ => rewrite forallb_Forall, list.Forall_forall in Hf end.
    apply (IH ty); try done;
      repeat match goal with Hf : ∀ x, x ∈ _ → _ |- _ => first [specialize (Hf _ Hx) | specialize (Hf _ Hy)]; simpl in Hf end; bool_inv; done.
  - bool_inv. subst. destruct (definition cat id) as [d|] eqn:Ed; [|done]. rewrite Z.eqb_refl in H. simpl in *. bool_inv.
    f_equal. destruct (definition_wf _ _ _ Hcat Ed) as (? & _). by apply (IH (def_ty d)).
Qed.

(** ** Specification of component order *)

(** The order of two rows under an index: each component in its typed order,
    reversed for a descending component, the first difference deciding. *)
Definition cmp_components (cat : Catalog) (l r : list Component) : result comparison :=
  lexR (λ '(a, b), rev_if (comp_descending a) <$> cmp_typed cat (comp_ty a) (comp_value a) (comp_value b)) (zip l r).

(** Two instances of one index: same types and directions. *)
Definition same_shape (l r : list Component) : Prop :=
  Forall2 (λ a b, comp_ty a = comp_ty b ∧ comp_descending a = comp_descending b) l r.

Definition wf_components (l : list Component) : bool := forallb (λ c, wf_value (comp_value c)) l.
Definition canonical_component (cat : Catalog) (c : Component) : bool :=
  wf_type (comp_ty c) && wf_value (comp_value c) && conforms MAX_DEPTH cat (comp_ty c) (comp_value c).

Lemma components_code cat version l r la lb :
  same_shape l r → wf_components l = true → wf_components r = true →
  mapR (encode_component cat version) l = Ok la → mapR (encode_component cat version) r = Ok lb →
  ∃ c, cmp_components cat l r = Ok c ∧ code_cmp c (concat la) (concat lb).
Proof.
  unfold cmp_components, encode_component, cmp_typed. generalize MAX_DEPTH. intros fuel Hs. revert la lb.
  induction Hs as [|x y l r [Ht Hd] _ IH]; intros la lb Hl Hr Ha Hb; cbn [mapR] in Ha, Hb.
  { apply Ok_inj in Ha as <-. apply Ok_inj in Hb as <-. exists Eq. split; [done|constructor]. }
  simpl in Hl, Hr. bool_inv.
  apply bind_Ok in Ha as (xa & (a & Hxa & <-%Ok_inj)%bind_Ok & (al & Hal & <-%Ok_inj)%bind_Ok).
  apply bind_Ok in Hb as (yb & (b & Hyb & <-%Ok_inj)%bind_Ok & (bl & Hbl & <-%Ok_inj)%bind_Ok).
  rewrite <-Ht in Hyb. destruct (encode_value_order _ _ _ _ _ _ _ _ H1 H Hxa Hyb) as (c & Hc & Hk).
  destruct (IH al bl) as (c' & Hc' & Hk'); [done..|]. cbn [zip zip_with lexR concat]. rewrite Hc, <-Hd.
  exists (then_cmp (rev_if (comp_descending x) c) c'). split.
  - cbn [fmap result_fmap mbind result_bind]. by destruct (rev_if _ c).
  - apply code_cmp_app; [|done]. destruct (comp_descending x); [by apply code_cmp_complement|done].
Qed.

Lemma encode_tuple_version_Ok cat l version a :
  encode_tuple_version cat l version = Ok a →
  1 ≤ zlen l ≤ MAX_INDEX_COMPONENTS ∧ ∃ la, mapR (encode_component cat version) l = Ok la ∧ a = concat la.
Proof.
  unfold encode_tuple_version. intros H. case_if_in H; [done|]. bool_inv. pose proof (zlen_nonneg l).
  split; [lia|]. by apply fmap_Ok in H.
Qed.

Lemma encode_complete_Ok cat index_id l row_id version key :
  encode_complete_version cat index_id l row_id version = Ok key →
  ∃ tuple, encode_tuple_version cat l version = Ok tuple ∧ zlen key ≤ MAX_COMPLETE_INDEX_KEY_BYTES ∧
    key = INDEX_MAGIC ++ be_bytes 2 version ++ be_bytes 8 index_id ++ [zlen l] ++ tuple ++ be_bytes 8 row_id.
Proof.
  unfold encode_complete_version. intros H. apply bind_Ok in H as (tuple & Ht & H).
  apply bind_Ok in H as (count & Hc%ok_or_Ok & H). apply checked_Some in Hc as [_ ->]. exists tuple.
  case_if_in H; [done|]. apply Ok_inj in H as <-. bool_inv. split_and!; done.
Qed.

(** ** Properties *)

(** C1: unsigned byte order of tuple keys is the typed order of the components, with
    descending components reversed: a range scan over encoded keys visits rows
    in the order the query language defines. *)
Theorem encode_tuple_ordered cat l r a b :
  same_shape l r → wf_components l = true → wf_components r = true →
  encode_tuple cat l = Ok a → encode_tuple cat r = Ok b →
  ∃ c, cmp_components cat l r = Ok c ∧ bytes_cmp a b = c.
Proof.
  intros Hs Hl Hr Ha Hb. apply encode_tuple_version_Ok in Ha as (_ & la & Ha & ->), Hb as (_ & lb & Hb & ->).
  destruct (components_code _ _ _ _ _ _ Hs Hl Hr Ha Hb) as (c & Hc & Hk). eauto using code_cmp_bytes.
Qed.

(** Two rows indexed by [(text asc, Tree desc)]. *)
Definition sample_components (s : string) (t : Value) : list Component :=
  [mkComponent TText (VText s) false; mkComponent (TRef 5) t true].
Definition leaf_value : Value := VNamed 5 (VEnum "Leaf" [] 1).

Lemma encode_tuple_ordered_witness :
  ∃ a b, encode_tuple tree_catalog (sample_components "a" tree_value) = Ok a ∧
         encode_tuple tree_catalog (sample_components "a" leaf_value) = Ok b ∧ bytes_cmp a b = Lt.
Proof.
  eexists _, _. split; [vm_compute; reflexivity|]. split; [vm_compute; reflexivity|].
  edestruct (encode_tuple_ordered tree_catalog (sample_components "a" tree_value) (sample_components "a" leaf_value))
    as (c & Hc & Hb); [repeat constructor| | | | |].
  1-4: vm_compute; reflexivity.
  rewrite Hb. vm_compute in Hc. injection Hc as <-. reflexivity.
Defined.

(** Complete secondary-index keys group by index, then follow the component
    order, and break ties by row identity, so distinct rows never share a key. *)
Theorem encode_complete_ordered cat version i j l r m n a b :
  is_u64 i = true → is_u64 j = true → is_u64 m = true → is_u64 n = true →
  (i = j → same_shape l r) → wf_components l = true → wf_components r = true →
  encode_complete_version cat i l m version = Ok a → encode_complete_version cat j r n version = Ok b →
  (i ≠ j ∧ bytes_cmp a b = (i ?= j)) ∨
  (i = j ∧ ∃ c, cmp_components cat l r = Ok c ∧ bytes_cmp a b = then_cmp c (m ?= n)).
Proof.
  intros Hi Hj Hm Hn Hs Hl Hr Ha Hb.
  apply encode_complete_Ok in Ha as (ta & Ha & _ & ->), Hb as (tb & Hb & _ & ->).
  assert (Hbe : ∀ x y, is_u64 x = true → is_u64 y = true → code_cmp (x ?= y) (be_bytes 8 x) (be_bytes 8 y)).
  { intros x y Hx Hy. unrange. apply code_cmp_be; lia. }
  assert (Hhead : ∀ c s t, code_cmp c s t → code_cmp c (INDEX_MAGIC ++ be_bytes 2 version ++ s) (INDEX_MAGIC ++ be_bytes 2 version ++ t)).
  { intros c s t H. apply (code_cmp_app Eq c); [constructor|]. apply (code_cmp_app Eq c); [constructor|done]. }
  destruct (decide (i = j)) as [<-|Hne]; [right|left].
  - split; [done|]. specialize (Hs eq_refl).
    apply encode_tuple_version_Ok in Ha as (_ & la & Ha & ->), Hb as (_ & lb & Hb & ->).
    destruct (components_code _ _ _ _ _ _ Hs Hl Hr Ha Hb) as (c & Hc & Hk). exists c. split; [done|].
    apply code_cmp_bytes, Hhead, (code_cmp_app Eq); [constructor|]. unfold zlen. rewrite (Forall2_length Hs).
    apply (code_cmp_app Eq); [constructor|]. apply code_cmp_app; auto.
  - split; [done|]. apply code_cmp_bytes, Hhead, code_cmp_ne; [by rewrite Z.compare_eq_iff|auto].
Qed.

Lemma encode_complete_ordered_witness :
  ∃ a b, encode_complete tree_catalog 9 (sample_components "a" leaf_value) 1 = Ok a ∧
         encode_complete tree_catalog 9 (sample_components "a" leaf_value) 2 = Ok b ∧ bytes_cmp a b = Lt.
Proof.
  eexists _, _. split; [vm_compute; reflexivity|]. split; [vm_compute; reflexivity|].
  edestruct (encode_complete_ordered tree_catalog INDEX_KEY_CODEC_VERSION 9 9 (sample_components "a" leaf_value)
    (sample_components "a" leaf_value) 1 2) as [[? _]|(_ & c & Hc & Hb)];
    [.. | exfalso; done | rewrite Hb; vm_compute in Hc; injection Hc as <-; reflexivity].
  1-4: reflexivity.
  { intros _. repeat constructor. }
  all: vm_compute; reflexivity.
Defined.

(** every key the encoder produces passes the storage validator of its own
    version and fails the validator of the other one. *)
Theorem encode_complete_validated cat i l m version key :
  is_u16 version = true → encode_complete_version cat i l m version = Ok key →
  validate_complete_version key version = Ok tt ∧
  (∀ other, other ≠ version → validate_complete_version key other = Err "E_STORAGE").
Proof.
  intros Hv (tuple & Ht & Hlen & ->)%encode_complete_Ok.
  apply encode_tuple_version_Ok in Ht as (Hc & la & _ & ->).
  set (key := INDEX_MAGIC ++ _) in *.
  assert (E2 : of_be (take 2 (drop 4 key)) = version).
  { change (take 2 (drop 4 key)) with (be_bytes 2 version). rewrite of_be_be_bytes. apply Z.mod_small. unrange. lia. }
  assert (E3 : nth 14 key 0 = zlen l) by done.
  assert (E4 : 23 ≤ zlen key).
  { subst key. rewrite !zlen_app. unfold zlen.
    rewrite !be_bytes_length. change (length INDEX_MAGIC) with 4%nat. cbn [length]. lia. }
  unfold validate_complete_version. rewrite E2, E3.
  change (take 4 key) with INDEX_MAGIC. rewrite bool_decide_true by done.
  rewrite Z.gtb_ltb, (proj2 (Z.ltb_ge _ _) E4), (proj2 (Z.ltb_ge _ _) Hlen). cbn [orb negb].
  split.
  - rewrite Z.eqb_refl, Z.gtb_ltb, (proj2 (Z.eqb_neq (zlen l) 0)) by lia.
    by rewrite (proj2 (Z.ltb_ge MAX_INDEX_COMPONENTS (zlen l))) by lia.
  - intros other Ho. destruct (Z.eqb_spec version other); [congruence|done].
Qed.

Lemma encode_complete_validated_witness :
  ∃ key, encode_complete tree_catalog 9 (sample_components "a" leaf_value) 1 = Ok key ∧
         validate_complete key = Ok tt ∧ validate_complete_v4 key = Err "E_STORAGE".
Proof.
  eexists. split; [vm_compute; reflexivity|].
  edestruct (encode_complete_validated tree_catalog 9 (sample_components "a" leaf_value) 1 INDEX_KEY_CODEC_VERSION)
    as [H1 H2]; [reflexivity|vm_compute; reflexivity|]. split; [exact H1|]. apply H2. done.
Defined.

(** Every row whose components are canonical values of their types has a tuple
    key: indexing never rejects a stored value. *)
Theorem encode_tuple_total cat l :
  forallb (canonical_component cat) l = true → 1 ≤ zlen l ≤ MAX_INDEX_COMPONENTS →
  ∃ a, encode_tuple cat l = Ok a.
Proof.
  intros Hc Hl. unfold encode_tuple, encode_tuple_version.
  rewrite (proj2 (Z.eqb_neq (zlen l) 0)), Z.gtb_ltb, (proj2 (Z.ltb_ge MAX_INDEX_COMPONENTS (zlen l))) by lia.
  cbn [orb]. destruct (mapR_total (encode_component cat MAP_INDEX_KEY_CODEC_VERSION) l) as [la ->]; [|by eexists].
  rewrite forallb_Forall, list.Forall_forall in Hc. intros c Hin. specialize (Hc c Hin).
  unfold canonical_component in Hc. apply andb_true_iff in Hc as [_ Hc].
  revert Hc. unfold encode_component. generalize MAX_DEPTH. intros fuel Hc.
  apply encode_value_total in Hc as [a Ha]. rewrite Ha. by eexists.
Qed.

Lemma encode_tuple_total_witness : ∃ a, encode_tuple tree_catalog (sample_components "x" tree_value) = Ok a.
Proof. apply encode_tuple_total; [vm_compute; reflexivity|]. split; vm_compute; discriminate. Defined.

(** On the canonical values of a type, [cmp_typed] is a total order: it always
    answers, swapping its arguments reverses the answer, it is transitive, and
    it answers [Eq] exactly on equal values. *)
Theorem cmp_typed_total_order cat ty u v w :
  wf_catalog cat = true → wf_type ty = true →
  (∀ x, x ∈ [u; v; w] → wf_value x = true ∧ conforms MAX_DEPTH cat ty x = true) →
  ∃ c, cmp_typed cat ty u v = Ok c ∧ cmp_typed cat ty v u = Ok (CompOpp c) ∧ (c = Eq ↔ u = v) ∧
       (c = Lt → cmp_typed cat ty v w = Ok Lt → cmp_typed cat ty u w = Ok Lt).
Proof.
  unfold cmp_typed. generalize MAX_DEPTH. intros fuel Hcat Ht Hall.
  destruct (Hall u) as [Hu Cu]; [by left|]. destruct (Hall v) as [Hv Cv]; [right; by left|].
  destruct (Hall w) as [Hw Cw]; [right; right; by left|].
  destruct (encode_value_total _ _ _ _ Cu) as [a Ha], (encode_value_total _ _ _ _ Cv) as [b Hb],
    (encode_value_total _ _ _ _ Cw) as [d Hd].
  assert (Hcmp : ∀ x y ex ey, wf_value x = true → wf_value y = true →
    encode_value fuel cat MAP_INDEX_KEY_CODEC_VERSION ty x = Ok ex →
    encode_value fuel cat MAP_INDEX_KEY_CODEC_VERSION ty y = Ok ey → cmp_typed_inner fuel cat ty x y = Ok (bytes_cmp ex ey)).
  { intros x y ex ey Hx Hy Hex Hey. destruct (encode_value_order _ _ _ _ _ _ _ _ Hx Hy Hex Hey) as (c & -> & Hc).
    by rewrite (code_cmp_bytes _ _ _ Hc). }
  exists (bytes_cmp a b). rewrite (Hcmp u v a b), (Hcmp v u b a), (Hcmp v w b d), (Hcmp u w a d) by done.
  split_and!; [done|by rewrite <-bytes_cmp_antisym| |].
  - split; [|intros <-; rewrite Hb in Ha; injection Ha as <-; apply bytes_cmp_refl].
    intros He. apply (cmp_typed_Eq fuel cat ty); try done. by rewrite (Hcmp u v a b), He.
  - intros H1 [= H2]. by rewrite (bytes_cmp_Lt_trans a b d).
Qed.

Lemma cmp_typed_total_order_witness :
  cmp_typed tree_catalog (TRef 5) leaf_value tree_value = Ok Lt ∧
  cmp_typed tree_catalog (TRef 5) tree_value leaf_value = Ok Gt.
Proof.
  destruct (cmp_typed_total_order tree_catalog (TRef 5) leaf_value tree_value tree_value) as (c & H1 & H2 & _);
    [vm_compute; reflexivity|reflexivity| |].
  - intros x Hx. repeat (apply elem_of_cons in Hx as [->|Hx]; [split; vm_compute; reflexivity|]). by apply elem_of_nil in Hx.
  - vm_compute in H1. injection H1 as <-. split; [vm_compute; reflexivity|exact H2].
Defined.
