(* ===== verification/Codec.v ===== *)
(** * The durable value codec

    Models src/src/codec.rs: the versioned, type-directed encoding of values.  The
    encoder threads its output buffer; the decoder threads the bytes that are
    still unread. *)
From S2P Require Import Prelude Bytes Text Decimal Temporal Float64 BTree Scalars Model Coerce.

Definition MAGIC : list Z := as_bytes "UIDV".
Definition VALUE_CODEC_VERSION : Z := 1.
Definition PRODUCTION_VALUE_CODEC_VERSION : Z := 2.
Definition MAP_VALUE_CODEC_VERSION : Z := 3.
Definition MAX_VALUE_BYTES : Z := 16 * 1024 * 1024.
Definition MAX_COLLECTION_ITEMS : Z := 1000000.

Notation E_CODEC := "E_CODEC"%string.

Definition check_items (n : Z) : result unit :=
  if n >? MAX_COLLECTION_ITEMS then Err E_CODEC else Ok tt.

(** ** Encoder *)

Definition enc_bytes (bs out : list Z) : result (list Z) :=
  if zlen out + zlen bs >? MAX_VALUE_BYTES then Err E_CODEC else Ok (out ++ bs).
Definition enc_u8 (b : Z) : list Z → result (list Z) := enc_bytes [b].
Definition enc_u16 (v : Z) : list Z → result (list Z) := enc_bytes (be_bytes 2 v).
Definition enc_u64 (v : Z) : list Z → result (list Z) := enc_bytes (be_bytes 8 v).
Definition enc_len (n : Z) (out : list Z) : result (list Z) :=
  len ← ok_or (checked is_u32 n) E_CODEC; enc_bytes (be_bytes 4 len) out.

(** [variants.iter().find(|variant| variant.id == id)]. *)
Definition find_variant (variants : list (VariantOf ScalarType)) (id : Z) : option (VariantOf ScalarType) :=
  List.find (λ v, var_id v =? id) variants.

Fixpoint enc_value (fuel : nat) (cat : Catalog) (version : Z) (ty : ScalarType) (value : Value) (out : list Z)
    : result (list Z) :=
  match fuel with
  | O => Err E_CODEC
  | S fuel =>
      let enc := enc_value fuel cat version in
      match ty with
      | TInt => match value with VInt v => enc_bytes (be_bytes 8 v) out | _ => Err E_CODEC end
      | TFloat =>
          match value with
          | VFloat v =>
              if is_finite v then enc_bytes (be_bytes 8 (if is_zero v then 0 else v)) out else Err E_CODEC
          | _ => Err E_CODEC
          end
      | TBool => match value with VBool b => enc_u8 (if b then 1 else 0) out | _ => Err E_CODEC end
      | TUuid => match value with VUuid v => enc_bytes v out | _ => Err E_CODEC end
      | TDate => match value with VDate v => enc_bytes (be_bytes 4 v) out | _ => Err E_CODEC end
      | TTimestamp => match value with VTimestamp v => enc_bytes (be_bytes 8 v) out | _ => Err E_CODEC end
      | TDuration => match value with VDuration v => enc_bytes (be_bytes 8 v) out | _ => Err E_CODEC end
      | TDecimal _ _ => match value with VDecimal v => enc_bytes (be_bytes 16 (coefficient v)) out | _ => Err E_CODEC end
      | TBytes => match value with VBytes v => out ← enc_len (zlen v) out; enc_bytes v out | _ => Err E_CODEC end
      | TText =>
          match value with
          | VText v => out ← enc_len (str_len v) out; enc_bytes (as_bytes v) out
          | _ => Err E_CODEC
          end
      | TRef type_id =>
          match value with
          | VNamed actual v =>
              if negb (actual =? type_id) then Err E_CODEC
              else out ← enc_u64 type_id out; d ← definition cat type_id; enc (def_ty d) v out
          | _ => Err E_CODEC
          end
      | TRecord columns =>
          match value with
          | VRecord fields =>
              out ← enc_len (zlen columns) out;
              foldR (λ out column,
                out ← enc_u64 (col_id column) out;
                v ← ok_or (bt_get (col_name column) fields) E_CODEC;
                enc (col_ty column) v out) out (sort_by_key col_id columns)
          | _ => Err E_CODEC
          end
      | TTuple tys =>
          match value with
          | VTuple values =>
              if negb (zlen values =? zlen tys) then Err E_CODEC
              else out ← enc_len (zlen tys) out; foldR (λ out '(t, v), enc t v out) out (zip tys values)
          | _ => Err E_CODEC
          end
      | TOption inner =>
          match value with
          | VOption None => enc_u8 0 out
          | VOption (Some v) => out ← enc_u8 1 out; enc inner v out
          | _ => Err E_CODEC
          end
      | TList inner =>
          match value with
          | VList values =>
              _ ← check_items (zlen values);
              out ← enc_len (zlen values) out; foldR (λ out v, enc inner v out) out values
          | _ => Err E_CODEC
          end
      | TMap inner =>
          if version <? MAP_VALUE_CODEC_VERSION then Err E_CODEC
          else match value with
               | VMap entries =>
                   if zlen entries >? MAX_MAP_ENTRIES then Err E_CODEC
                   else out ← enc_len (zlen entries) out;
                        foldR (λ out '(key, v),
                          if str_len key >? MAX_MAP_KEY_BYTES then Err E_CODEC
                          else out ← enc_len (str_len key) out;
                               out ← enc_bytes (as_bytes key) out; enc inner v out) out entries
               | _ => Err E_CODEC
               end
      | TEnum variants =>
          match value with
          | VEnum _ args id =>
              variant ← ok_or (find_variant variants id) E_CODEC;
              if negb (zlen args =? zlen (var_args variant)) then Err E_CODEC
              else out ← enc_u64 id out; out ← enc_len (zlen args) out;
                   foldR (λ out '(t, v), enc t v out) out (zip (var_args variant) args)
          | _ => Err E_CODEC
          end
      | TNamed _ => Err E_CODEC
      end
  end.

Definition encode_value_version (cat : Catalog) (ty : ScalarType) (value : Value) (version : Z) : result (list Z) :=
  v2 ← requires_protocol_v2 cat ty;
  if v2 && (version <? PRODUCTION_VALUE_CODEC_VERSION) then Err E_CODEC
  else
    value ← coerce cat value ty;
    out ← enc_bytes MAGIC [];
    out ← enc_u16 version out;
    enc_value MAX_DEPTH cat version ty value out.
Definition encode_value (cat : Catalog) (ty : ScalarType) (value : Value) : result (list Z) :=
  encode_value_version cat ty value VALUE_CODEC_VERSION.
Definition encode_value_v2 (cat : Catalog) (ty : ScalarType) (value : Value) : result (list Z) :=
  encode_value_version cat ty value PRODUCTION_VALUE_CODEC_VERSION.
Definition encode_value_v3 (cat : Catalog) (ty : ScalarType) (value : Value) : result (list Z) :=
  encode_value_version cat ty value MAP_VALUE_CODEC_VERSION.

(** ** Decoder *)

Definition dec_take (n : Z) (rest : list Z) : result (list Z * list Z) :=
  if n <=? zlen rest then Ok (take (Z.to_nat n) rest, drop (Z.to_nat n) rest) else Err E_CODEC.
Definition dec_u8 (rest : list Z) : result (Z * list Z) := '(b, rest) ← dec_take 1 rest; Ok (of_be b, rest).
Definition dec_u16 (rest : list Z) : result (Z * list Z) := '(b, rest) ← dec_take 2 rest; Ok (of_be b, rest).
Definition dec_u64 (rest : list Z) : result (Z * list Z) := '(b, rest) ← dec_take 8 rest; Ok (of_be b, rest).
Definition dec_length (rest : list Z) : result (Z * list Z) := '(b, rest) ← dec_take 4 rest; Ok (of_be b, rest).
Definition dec_signed (bytes : Z) (rest : list Z) : result (Z * list Z) :=
  '(b, rest) ← dec_take bytes rest; Ok (signed (8 * bytes) (of_be b), rest).

(** One value per type, in order. *)
Fixpoint dec_items (dec : ScalarType → list Z → result (Value * list Z)) (tys : list ScalarType) (rest : list Z)
    : result (list Value * list Z) :=
  match tys with
  | [] => Ok ([], rest)
  | ty :: tys =>
      '(v, rest) ← dec ty rest; '(vs, rest) ← dec_items dec tys rest; Ok (v :: vs, rest)
  end.

(** The field loop of a record: [n] fields left. *)
Fixpoint dec_fields (dec : ScalarType → list Z → result (Value * list Z)) (columns : Columns) (n : nat)
    (fields : list (string * Value)) (seen : bset Z) (rest : list Z) : result (list (string * Value) * list Z) :=
  match n with
  | O => Ok (fields, rest)
  | S n =>
      '(field_id, rest) ← dec_u64 rest;
      if bs_mem field_id seen then Err E_CODEC
      else
        column ← ok_or (List.find (λ c, col_id c =? field_id) columns) E_CODEC;
        '(v, rest) ← dec (col_ty column) rest;
        dec_fields dec columns n (bt_insert (col_name column) v fields) (bs_insert field_id seen) rest
  end.

(** The entry loop of a map: [n] entries left, [previous] is the last key. *)
Fixpoint dec_entries (dec : list Z → result (Value * list Z)) (n : nat) (entries : list (string * Value))
    (previous : option string) (rest : list Z) : result (list (string * Value) * list Z) :=
  match n with
  | O => Ok (entries, rest)
  | S n =>
      '(length, rest) ← dec_length rest;
      if length >? MAX_MAP_KEY_BYTES then Err E_CODEC
      else
        '(b, rest) ← dec_take length rest;
        key ← ok_or (from_utf8 b) E_CODEC;
        if match previous with Some p => negb (str_ltb p key) | None => false end then Err E_CODEC
        else
          '(v, rest) ← dec rest;
          dec_entries dec n (bt_insert key v entries) (Some key) rest
  end.

Fixpoint dec_value (fuel : nat) (cat : Catalog) (version : Z) (ty : ScalarType) (rest : list Z)
    : result (Value * list Z) :=
  match fuel with
  | O => Err E_CODEC
  | S fuel =>
      let dec := dec_value fuel cat version in
      match ty with
      | TInt => '(v, rest) ← dec_signed 8 rest; Ok (VInt v, rest)
      | TFloat =>
          '(v, rest) ← dec_u64 rest;
          if negb (is_finite v) then Err E_CODEC else Ok (VFloat (if is_zero v then 0 else v), rest)
      | TBool =>
          '(tag, rest) ← dec_u8 rest;
          if tag =? 0 then Ok (VBool false, rest) else if tag =? 1 then Ok (VBool true, rest) else Err E_CODEC
      | TUuid => '(b, rest) ← dec_take 16 rest; Ok (VUuid b, rest)
      | TDate => '(v, rest) ← dec_signed 4 rest; d ← map_err E_CODEC (from_epoch_days v); Ok (VDate d, rest)
      | TTimestamp =>
          '(v, rest) ← dec_signed 8 rest; t ← map_err E_CODEC (from_epoch_microseconds v); Ok (VTimestamp t, rest)
      | TDuration => '(v, rest) ← dec_signed 8 rest; Ok (VDuration v, rest)
      | TDecimal p s =>
          '(v, rest) ← dec_signed 16 rest; d ← map_err E_CODEC (decimal_new v p s); Ok (VDecimal d, rest)
      | TBytes =>
          '(len, rest) ← dec_length rest; '(b, rest) ← dec_take len rest;
          bs ← map_err E_CODEC (bytes_new b); Ok (VBytes bs, rest)
      | TText =>
          '(len, rest) ← dec_length rest; '(b, rest) ← dec_take len rest;
          s ← ok_or (from_utf8 b) E_CODEC; Ok (VText s, rest)
      | TRef type_id =>
          '(actual, rest) ← dec_u64 rest;
          if negb (actual =? type_id) then Err E_CODEC
          else d ← definition cat type_id; '(v, rest) ← dec (def_ty d) rest; Ok (VNamed type_id v, rest)
      | TRecord columns =>
          '(count, rest) ← dec_length rest;
          if negb (count =? zlen columns) then Err E_CODEC
          else '(fields, rest) ← dec_fields dec columns (Z.to_nat count) [] [] rest; Ok (VRecord fields, rest)
      | TTuple tys =>
          '(count, rest) ← dec_length rest;
          if negb (count =? zlen tys) then Err E_CODEC
          else '(vs, rest) ← dec_items dec tys rest; Ok (VTuple vs, rest)
      | TOption inner =>
          '(tag, rest) ← dec_u8 rest;
          if tag =? 0 then Ok (VOption None, rest)
          else if tag =? 1 then '(v, rest) ← dec inner rest; Ok (VOption (Some v), rest)
          else Err E_CODEC
      | TList inner =>
          '(count, rest) ← dec_length rest;
          _ ← check_items count;
          if count >? zlen rest then Err E_CODEC
          else '(vs, rest) ← dec_items dec (replicate (Z.to_nat count) inner) rest; Ok (VList vs, rest)
      | TMap inner =>
          if version <? MAP_VALUE_CODEC_VERSION then Err E_CODEC
          else
            '(count, rest) ← dec_length rest;
            if count >? MAX_MAP_ENTRIES then Err E_CODEC
            else '(entries, rest) ← dec_entries (dec inner) (Z.to_nat count) [] None rest; Ok (VMap entries, rest)
      | TEnum variants =>
          '(variant_id, rest) ← dec_u64 rest;
          variant ← ok_or (find_variant variants variant_id) E_CODEC;
          '(count, rest) ← dec_length rest;
          if negb (count =? zlen (var_args variant)) then Err E_CODEC
          else '(args, rest) ← dec_items dec (var_args variant) rest;
               Ok (VEnum (var_name variant) args variant_id, rest)
      | TNamed _ => Err E_CODEC
      end
  end.

Definition decode_value (cat : Catalog) (ty : ScalarType) (bytes : list Z) : result Value :=
  if zlen bytes >? MAX_VALUE_BYTES then Err E_CODEC
  else
    '(magic, rest) ← dec_take (zlen MAGIC) bytes;
    if negb (bool_decide (magic = MAGIC)) then Err E_CODEC
    else
      '(version, rest) ← dec_u16 rest;
      if negb (version =? VALUE_CODEC_VERSION) && negb (version =? PRODUCTION_VALUE_CODEC_VERSION) &&
         negb (version =? MAP_VALUE_CODEC_VERSION) then Err E_CODEC
      else
        v2 ← requires_protocol_v2 cat ty;
        if v2 && (version <? PRODUCTION_VALUE_CODEC_VERSION) then Err E_CODEC
        else
          '(value, rest) ← dec_value MAX_DEPTH cat version ty rest;
          if negb (zlen rest =? 0) then Err E_CODEC else Ok value.

(** ** Round trip *)

Lemma enc_bytes_Ok bs out out' :
  enc_bytes bs out = Ok out' → out' = out ++ bs ∧ zlen out' ≤ MAX_VALUE_BYTES.
Proof.
  unfold enc_bytes. intros H. case_if_in H; [done|]. apply Ok_inj in H as <-. bool_inv. by rewrite zlen_app.
Qed.

Lemma enc_len_Ok n out out' : enc_len n out = Ok out' → is_u32 n = true ∧ out' = out ++ be_bytes 4 n.
Proof.
  unfold enc_len. intros H. apply bind_Ok in H as (len & Hl%ok_or_Ok & H).
  apply checked_Some in Hl as [Hn ->]. by apply enc_bytes_Ok in H as [-> _].
Qed.

Lemma dec_take_app n a r : zlen a = n → dec_take n (a ++ r) = Ok (a, r).
Proof.
  intros <-. unfold dec_take. rewrite zlen_app. pose proof (zlen_nonneg r).
  rewrite (proj2 (Z.leb_le _ _)) by lia. unfold zlen. rewrite Nat2Z.id. by rewrite take_app_length, drop_app_length.
Qed.

Lemma zlen_be n z : zlen (be_bytes n z) = Z.of_nat n.
Proof. unfold zlen. by rewrite be_bytes_length. Qed.

Lemma dec_u64_be v r : is_u64 v = true → dec_u64 (be_bytes 8 v ++ r) = Ok (v, r).
Proof.
  intros Hv. unfold dec_u64. rewrite dec_take_app by apply zlen_be. cbn [mbind result_bind].
  rewrite of_be_be_bytes, Z.mod_small; [done|]. unrange. lia.
Qed.

Lemma dec_length_be v r : is_u32 v = true → dec_length (be_bytes 4 v ++ r) = Ok (v, r).
Proof.
  intros Hv. unfold dec_length. rewrite dec_take_app by apply zlen_be. cbn [mbind result_bind].
  rewrite of_be_be_bytes, Z.mod_small; [done|]. unrange. lia.
Qed.

Lemma dec_signed_be n v r :
  (0 < n)%nat → - 2 ^ (8 * Z.of_nat n - 1) ≤ v < 2 ^ (8 * Z.of_nat n - 1) →
  dec_signed (Z.of_nat n) (be_bytes n v ++ r) = Ok (v, r).
Proof.
  intros Hn Hv. unfold dec_signed. rewrite dec_take_app by apply zlen_be. cbn [mbind result_bind].
  rewrite of_be_be_bytes. change 256 with (2 ^ 8). rewrite <-Z.pow_mul_r by lia.
  change (v `mod` 2 ^ (8 * Z.of_nat n)) with (wrap (8 * Z.of_nat n) v). by rewrite signed_wrap by lia.
Qed.

(** An encoding step [f] that appends a code which [dec] reads back as [v]. *)
Definition codes (f : list Z → result (list Z)) (n : nat) {V} (dec : list Z → result (V * list Z)) (v : V) : Prop :=
  ∀ out out', f out = Ok out' →
    ∃ chunk, out' = out ++ chunk ∧ (n ≤ length chunk)%nat ∧ ∀ rest, dec (chunk ++ rest) = Ok (v, rest).

Lemma codes_bytes {V} bs n (dec : list Z → result (V * list Z)) v :
  (n ≤ length bs)%nat → (∀ rest, dec (bs ++ rest) = Ok (v, rest)) → codes (enc_bytes bs) n dec v.
Proof. intros Hn Hd out out' [-> _]%enc_bytes_Ok. by exists bs. Qed.

(** A fixed prefix followed by a coded part. *)
Lemma codes_prefix {V W} bs n f (dec : list Z → result (V * list Z)) v (decw : list Z → result (W * list Z)) w :
  codes f n dec v → (∀ rest rest', dec rest = Ok (v, rest') → decw (bs ++ rest) = Ok (w, rest')) →
  codes (λ out, out ← enc_bytes bs out; f out) n decw w.
Proof.
  intros Hf Hd out out' H. apply bind_Ok in H as (o & [-> _]%enc_bytes_Ok & H).
  destruct (Hf _ _ H) as (chunk & -> & Hn & Hr). exists (bs ++ chunk).
  split; [by rewrite app_assoc|]. split; [rewrite length_app; lia|]. intros rest. rewrite <-app_assoc. auto.
Qed.

Lemma codes_len {V W} k n f (dec : list Z → result (V * list Z)) v (decw : list Z → result (W * list Z)) w :
  codes f n dec v →
  (∀ rest rest', is_u32 k = true → dec rest = Ok (v, rest') → (n ≤ length rest)%nat → decw (be_bytes 4 k ++ rest) = Ok (w, rest')) →
  codes (λ out, out ← enc_len k out; f out) (S n) decw w.
Proof.
  intros Hf Hd out out' H. apply bind_Ok in H as (o & [Hk ->]%enc_len_Ok & H).
  destruct (Hf _ _ H) as (chunk & -> & Hn & Hr). exists (be_bytes 4 k ++ chunk).
  split; [by rewrite app_assoc|]. split; [rewrite length_app, be_bytes_length; lia|]. intros rest.
  rewrite <-app_assoc. apply Hd; [done|auto|rewrite length_app; lia].
Qed.

Lemma codes_weaken {V} f n m (dec : list Z → result (V * list Z)) v : (m ≤ n)%nat → codes f n dec v → codes f m dec v.
Proof. intros Hm Hf out out' H. destruct (Hf _ _ H) as (chunk & -> & Hn & Hr). exists chunk. split_and!; [done|lia|done]. Qed.

Section roundtrip.
Context (enc : ScalarType → Value → list Z → result (list Z)) (dec : ScalarType → list Z → result (Value * list Z)).
Context (conf : ScalarType → Value → bool).
Context (IH : ∀ t v, wf_type t = true → wf_value v = true → conf t v = true → codes (enc t v) 1 (dec t) v).

Lemma roundtrip_items tys vs :
  Forall (λ t, wf_type t = true) tys → forallb wf_value vs = true → all2 conf tys vs = true →
  codes (λ out, foldR (λ out '(t, v), enc t v out) out (zip tys vs)) (length tys) (dec_items dec tys) vs.
Proof.
  intros Ht. revert vs. induction Ht as [|t tys Ht _ IHt]; intros [|v vs] Hv Hc out out' H; try done.
  - apply Ok_inj in H as <-. exists []. by rewrite app_nil_r.
  - simpl in Hv, Hc. bool_inv. cbn [zip zip_with foldR] in H. apply bind_Ok in H as (o & Ho & H).
    eapply IH in Ho as (c1 & -> & Hl1 & Hd1); [|done..].
    destruct (IHt vs ltac:(done) ltac:(done) _ _ H) as (c2 & -> & Hl2 & Hd2). exists (c1 ++ c2).
    split; [by rewrite app_assoc|]. split; [rewrite length_app; simpl; lia|]. intros rest. cbn [dec_items].
    rewrite <-app_assoc, Hd1. cbn [mbind result_bind]. rewrite Hd2. done.
Qed.

Lemma roundtrip_list t vs :
  wf_type t = true → forallb wf_value vs = true → forallb (conf t) vs = true →
  codes (λ out, foldR (λ out v, enc t v out) out vs) (length vs) (dec_items dec (replicate (length vs) t)) vs.
Proof.
  intros Ht Hv Hc.
  assert (Hext : ∀ out, foldR (λ out v, enc t v out) out vs = foldR (λ out '(t, v), enc t v out) out (zip (replicate (length vs) t) vs)).
  { clear. induction vs as [|v vs IHv]; intros out; [done|]. cbn [length replicate zip zip_with foldR].
    destruct (enc t v out); [apply IHv|done]. }
  assert (Hi : codes (λ out, foldR (λ out '(t, v), enc t v out) out (zip (replicate (length vs) t) vs))
                 (length (replicate (length vs) t)) (dec_items dec (replicate (length vs) t)) vs).
  { apply roundtrip_items; [by apply Forall_replicate|done|]. apply all2_Forall2, Forall2_replicate_l.
    all: try done. by apply forallb_Forall. }
  rewrite length_replicate in Hi. intros out out' H. rewrite Hext in H. by apply Hi.
Qed.

Lemma roundtrip_fields columns fields cs :
  wf_type (TRecord columns) = true → wf_value (VRecord fields) = true → NoDup (col_id <$> cs) →
  (∀ c, c ∈ cs → c ∈ columns ∧ ∃ v, bt_get (col_name c) fields = Some v ∧ conf (col_ty c) v = true) →
  ∀ acc seen, (∀ c, c ∈ cs → bs_mem (col_id c) seen = false) →
  ∃ m, foldR (λ out c, v ← ok_or (bt_get (col_name c) fields) E_CODEC; Ok (bt_insert (col_name c) v out)) acc cs = Ok m ∧
  codes (λ out, foldR (λ out column,
      out ← enc_u64 (col_id column) out;
      v ← ok_or (bt_get (col_name column) fields) E_CODEC;
      enc (col_ty column) v out) out cs) 0 (dec_fields dec columns (length cs) acc seen) m.
Proof.
  intros Ht Hf. induction cs as [|c cs IHc]; intros Hn Hcs acc seen Hseen.
  { exists acc. split; [done|]. intros out out' H. apply Ok_inj in H as <-. exists []. by rewrite app_nil_r. }
  apply list.NoDup_cons in Hn as [Hc Hn]. destruct (Hcs c) as (Hin & v & Hv & Hconf); [by left|].
  destruct (IHc Hn) with (acc := bt_insert (col_name c) v acc) (seen := bs_insert (col_id c) seen) as (m & Hm & Hcode).
  { intros c' Hc'. apply Hcs. by right. }
  { intros c' Hc'. apply not_true_iff_false. rewrite bs_mem_insert. intros [E|E].
    - apply Hc. rewrite <-E. by apply list_elem_of_fmap_2.
    - rewrite Hseen in E; [done|by right]. }
  exists m. cbn [foldR length dec_fields]. rewrite Hv. cbn [ok_or mbind result_bind]. split; [done|].
  destruct (wf_type_column _ _ Ht Hin) as (_ & Hid & Hct & _).
  assert (Hwv : wf_value v = true).
  { simpl in Hf. bool_inv. apply bt_get_elem in Hv. by eapply wf_entries_elem in Hv as [_ ?]. }
  intros out out' H. apply bind_Ok in H as (o & Ho & H). apply bind_Ok in Ho as (o' & [-> _]%enc_bytes_Ok & Ho).
  eapply IH in Ho as (c1 & -> & _ & Hd1); [|done..]. destruct (Hcode _ _ H) as (c2 & -> & _ & Hd2).
  exists (be_bytes 8 (col_id c) ++ c1 ++ c2). split; [by rewrite <-!app_assoc|]. split; [lia|]. intros rest.
  rewrite <-!app_assoc, dec_u64_be by done. cbn [mbind result_bind]. rewrite Hseen by (by left).
  rewrite (find_unique _ _ c); [|done|apply Z.eqb_refl|].
  - cbn [ok_or mbind result_bind]. rewrite Hd1. cbn [mbind result_bind]. apply Hd2.
  - intros y Hy E. bool_inv. destruct (wf_type_nodup_columns _ Ht) as [_ Hni]. by eapply NoDup_fmap_key.
Qed.

(** Filling a record from its own fields, in any column order, rebuilds it. *)
Lemma refill_record (columns cs : Columns) (fields m : list (string * Value)) :
  NoDup (col_name <$> columns) → cs ≡ₚ columns → bt_sorted fields = true → zlen fields = zlen columns →
  (∀ c, c ∈ columns → is_Some (bt_get (col_name c) fields)) →
  foldR (λ out c, v ← ok_or (bt_get (col_name c) fields) E_CODEC; Ok (bt_insert (col_name c) v out)) [] cs = Ok m →
  m = fields.
Proof.
  intros Hn Hp Hs Hl Hc Hm. apply foldR_insert_spec in Hm as (Hs' & _ & Hin & Hout); [|by rewrite Hp|done|done].
  apply bt_ext; [done..|]. intros k. destruct (decide (k ∈ col_name <$> cs)) as [Hk|Hk].
  - apply list_elem_of_fmap in Hk as (c & -> & Hcc). destruct (Hin c Hcc) as (v & Hv%ok_or_Ok & ->). done.
  - rewrite Hout by done. destruct (bt_get k fields) as [v|] eqn:E; [|done]. exfalso. apply Hk.
    rewrite Hp, (record_keys columns fields) by done. apply bt_get_elem in E.
    change k with (k, v).1. by apply list_elem_of_fmap_2.
Qed.

Lemma roundtrip_entries t m acc previous :
  wf_type t = true → bt_sorted m = true → forallb (λ kv, wf_string kv.1 && wf_value kv.2) m = true →
  forallb (λ kv, (str_len kv.1 <=? MAX_MAP_KEY_BYTES) && conf t kv.2) m = true →
  (∀ p, previous = Some p → bt_below p m = true) → (∀ e e', e ∈ acc → e' ∈ m → str_cmp e.1 e'.1 = Lt) →
  codes (λ out, foldR (λ out '(key, v),
      if str_len key >? MAX_MAP_KEY_BYTES then Err E_CODEC
      else out ← enc_len (str_len key) out;
           out ← enc_bytes (as_bytes key) out; enc t v out) out m) 0
    (dec_entries (dec t) (length m) acc previous) (acc ++ m).
Proof.
  intros Ht. revert acc previous. induction m as [|[k v] m IHm]; intros acc previous Hs Hw Hc Hp Hacc out out' H.
  { apply Ok_inj in H as <-. exists []. by rewrite !app_nil_r. }
  cbn [bt_sorted forallb fst snd] in Hs, Hw, Hc. bool_inv. cbn [foldR] in H. apply bind_Ok in H as (o & Ho & H).
  case_if_in Ho; [done|]. apply bind_Ok in Ho as (o1 & [Hu ->]%enc_len_Ok & Ho).
  apply bind_Ok in Ho as (o2 & [-> _]%enc_bytes_Ok & Ho). eapply IH in Ho as (c1 & -> & _ & Hd1); [|done..].
  edestruct (IHm (acc ++ [(k, v)]) (Some k)) as (c2 & -> & _ & Hd2); [done|done|done| | |exact H|].
  { by intros p [= <-]. }
  { intros e e' [He| ->%list_elem_of_singleton]%elem_of_app He'; [apply Hacc; [done|by right]|].
    match goal with Hb : bt_below k m = true |- _ => by apply (proj1 (bt_below_spec _ _) Hb) end. }
  exists (be_bytes 4 (str_len k) ++ as_bytes k ++ c1 ++ c2). split; [by rewrite <-!app_assoc|]. split; [lia|].
  intros rest. cbn [length dec_entries]. rewrite <-!app_assoc, dec_length_be by done. cbn [mbind result_bind].
  rewrite E, dec_take_app by done. cbn [mbind result_bind]. rewrite from_utf8_as_bytes by done. cbn [ok_or mbind result_bind].
  replace (match previous with Some p => negb (str_ltb p k) | None => false end) with false.
  - rewrite Hd1. cbn [mbind result_bind]. rewrite bt_insert_last.
    + rewrite Hd2. by rewrite <-app_assoc.
    + apply forallb_Forall, list.Forall_forall. intros e He. change (tcmp e.1 k) with (str_cmp e.1 (k, v).1).
      rewrite Hacc; [done|done|by left].
  - destruct previous as [p|]; [|done]. specialize (Hp p eq_refl). unfold bt_below in Hp. cbn [forallb fst] in Hp.
    unfold str_ltb. change (tcmp p k) with (str_cmp p k) in Hp. by destruct (str_cmp p k).
Qed.
End roundtrip.

Lemma find_variant_elem variants v :
  wf_type (TEnum variants) = true → v ∈ variants → find_variant variants (var_id v) = Some v.
Proof.
  intros Hw Hv. apply find_unique; [done|apply Z.eqb_refl|]. intros y Hy E. bool_inv.
  by eapply NoDup_fmap_key; [apply wf_type_nodup_variants|..].
Qed.

Lemma is_ok_Ok {A} (m : result A) : is_ok m = true ↔ ∃ a, m = Ok a.
Proof. destruct m; simpl; naive_solver. Qed.

(** The scalar codes. *)
Lemma roundtrip_scalar fuel cat version ty v :
  wf_type ty = true → wf_value v = true → conforms (S fuel) cat ty v = true →
  match ty with TInt | TFloat | TBool | TText | TUuid | TDate | TTimestamp | TDuration | TDecimal _ _ | TBytes => true | _ => false end = true →
  codes (enc_value (S fuel) cat version ty v) 1 (dec_value (S fuel) cat version ty) v.
Proof.
  intros Ht Hv Hc Hs. cbn [conforms] in Hc. destruct ty; try discriminate Hs; destruct v; try discriminate Hc;
    cbn [enc_value dec_value].
  - apply codes_bytes; [rewrite be_bytes_length; lia|]. intros rest.
    change 8 with (Z.of_nat 8) at 1. rewrite dec_signed_be; [done|lia|]. simpl in Hv. unrange. lia.
  - simpl in Hv. bool_inv. match goal with Hf : is_finite bits = true |- _ => rewrite Hf; rename Hf into Hfin end.
    assert (Hz : (if is_zero bits then 0 else bits) = bits).
    { destruct (is_zero bits); [|done]. simpl in *. by bool_inv. }
    rewrite Hz. apply codes_bytes; [rewrite be_bytes_length; lia|]. intros rest. rewrite dec_u64_be by done.
    cbn [mbind result_bind]. by rewrite Hfin, Hz.
  - apply codes_bytes; [simpl; lia|]. intros rest. unfold dec_u8. rewrite dec_take_app by done.
    by destruct b.
  - simpl in Hv. eapply codes_len; [apply (codes_bytes _ 0 (dec_take (str_len s)) (as_bytes s)); [lia|]; intros; by apply dec_take_app|].
    intros rest rest' Hu Hd _. rewrite dec_length_be by done. cbn [mbind result_bind]. rewrite Hd. cbn [mbind result_bind].
    by rewrite from_utf8_as_bytes.
  - simpl in Hv. unfold wf_uuid in Hv. bool_inv. apply codes_bytes; [unfold zlen in *; lia|]. intros rest. by rewrite dec_take_app.
  - simpl in Hv. apply codes_bytes; [rewrite be_bytes_length; lia|]. intros rest. change 4 with (Z.of_nat 4) at 1.
    rewrite dec_signed_be; [|lia|apply in_range_spec in Hv; unfold MIN_DAYS, MAX_DAYS, EPOCH_DAYS in Hv; lia].
    cbn [mbind result_bind]. unfold from_epoch_days. by rewrite Hv.
  - simpl in Hv. apply codes_bytes; [rewrite be_bytes_length; lia|]. intros rest. change 8 with (Z.of_nat 8) at 1.
    apply is_ok_Ok in Hv as [t Htm]. pose proof Htm as [-> Hr]%from_epoch_microseconds_Ok.
    apply day_range_i64 in Hr. rewrite dec_signed_be; [|lia|unrange; lia]. cbn [mbind result_bind]. by rewrite Htm.
  - apply codes_bytes; [rewrite be_bytes_length; lia|]. intros rest.
    change 8 with (Z.of_nat 8) at 1. rewrite dec_signed_be; [done|lia|]. simpl in Hv. unrange. lia.
  - simpl in Hv. apply wf_decimal_spec in Hv as [Hb _]. apply codes_bytes; [rewrite be_bytes_length; lia|]. intros rest.
    change 16 with (Z.of_nat 16) at 1. rewrite dec_signed_be; [|lia|lia]. cbn [mbind result_bind]. bool_inv.
    match goal with Hk : is_ok _ = true |- _ => apply is_ok_Ok in Hk as [[] Hk]; apply validate_type_Ok in Hk end.
    assert (Hd : decimal_new (coefficient d) precision scale = Ok d).
    { apply decimal_new_Ok. destruct d; simpl in *; subst. split_and!; done || lia. }
    by rewrite Hd.
  - simpl in Hv. unfold wf_bytes in Hv. bool_inv.
    eapply codes_len; [apply (codes_bytes _ 0 (dec_take (zlen bs)) bs); [lia|]; intros; by apply dec_take_app|].
    intros rest rest' Hu Hd _. rewrite dec_length_be by done. cbn [mbind result_bind]. rewrite Hd. cbn [mbind result_bind].
    unfold bytes_new. by rewrite Z.gtb_ltb, (proj2 (Z.ltb_ge _ _)) by lia.
Qed.

Lemma enc_value_codes fuel cat version ty v :
  wf_catalog cat = true → wf_type ty = true → wf_value v = true → conforms fuel cat ty v = true →
  codes (enc_value fuel cat version ty v) 1 (dec_value fuel cat version ty) v.
Proof.
  intros Hcat. revert ty v. induction fuel as [|fuel IH]; intros ty v Ht Hv Hc; [done|].
  destruct (match ty with TInt | TFloat | TBool | TText | TUuid | TDate | TTimestamp | TDuration | TDecimal _ _ | TBytes => true | _ => false end) eqn:Hs.
  { by apply roundtrip_scalar. }
  cbn [conforms] in Hc. cbn [enc_value dec_value].
  destruct ty; try discriminate Hs; destruct v as [| | | | | | | | | | |n args i| | | | |[w|]|]; try discriminate Hc.
  - destruct (find_variant_id variants i) as [var|] eqn:E; [|done]. apply find_variant_id_Some in E as (Hin & <- & _).
    bool_inv. subst n. rewrite find_variant_elem by done. cbn [ok_or mbind result_bind].
    destruct (wf_type_variant _ _ Ht Hin) as (_ & Hid & _ & _ & Ha). simpl in Hv. bool_inv.
    pose proof (roundtrip_items _ _ _ IH (var_args var) args Ha ltac:(done) ltac:(done)) as Hi.
    assert (Hl : zlen args = zlen (var_args var)).
    { match goal with H : all2 _ _ _ = true |- _ => apply all2_Forall2 in H; unfold zlen; by rewrite (Forall2_length H) end. }
    rewrite Hl, Z.eqb_refl. cbn [negb].
    apply (codes_weaken _ (S (length (var_args var)))); [lia|]. eapply codes_prefix.
    + eapply (codes_len _ _ _ _ _ (λ rest, '(count, rest) ← dec_length rest; if negb (count =? zlen (var_args var)) then Err E_CODEC else dec_items (dec_value fuel cat version) (var_args var) rest)); [exact Hi|].
      intros rest rest' Hu Hd _. rewrite dec_length_be by done. cbn [mbind result_bind]. by rewrite Z.eqb_refl.
    + intros rest rest' Hd. rewrite dec_u64_be by done. cbn [mbind result_bind]. rewrite find_variant_elem by done.
      cbn [ok_or mbind result_bind]. apply bind_Ok in Hd as ([count r] & Hlen & Hd). rewrite Hlen. cbn [mbind result_bind].
      destruct (negb _); [done|]. by rewrite Hd.
  - bool_inv. pose proof Hv as Hf. simpl in Hf. bool_inv. destruct (wf_type_nodup_columns _ Ht) as [Hn Hni].
    match goal with H : forallb _ columns = true |- _ => rewrite forallb_Forall, list.Forall_forall in H; rename H into Hall end.
    assert (Hget : ∀ c, c ∈ columns → ∃ v, bt_get (col_name c) fields = Some v ∧ conforms fuel cat (col_ty c) v = true).
    { intros c Hcc. specialize (Hall c Hcc). destruct (bt_get _ _) as [v|]; [by exists v|done]. }
    destruct (roundtrip_fields _ _ _ IH columns fields (sort_by_key col_id columns) Ht Hv) with (acc := @nil (string * Value)) (seen := @nil (Z * unit))
      as (m & Hm & Hcode); [by rewrite sort_by_key_perm|by intros c; rewrite sort_by_key_perm; auto|done|].
    apply (refill_record columns) in Hm as ->; [|done|apply sort_by_key_perm|done|done|].
    2:{ intros c Hcc. destruct (Hget c Hcc) as (v & -> & _). by eexists. }
    eapply codes_len; [exact Hcode|]. intros rest rest' Hu Hd _. rewrite dec_length_be by done. cbn [mbind result_bind].
    rewrite Z.eqb_refl. cbn [negb]. unfold zlen. rewrite Nat2Z.id. rewrite sort_by_key_length in Hd. by rewrite Hd.
  - pose proof (roundtrip_items _ _ _ IH items items0 (proj1 (forallb_Forall _ _) Ht) Hv Hc) as Hi.
    assert (Hl : zlen items0 = zlen items) by (apply all2_Forall2 in Hc; unfold zlen; by rewrite (Forall2_length Hc)).
    rewrite Hl, Z.eqb_refl. cbn [negb]. apply (codes_weaken _ (S (length items))); [lia|].
    eapply codes_len; [exact Hi|]. intros rest rest' Hu Hd _. rewrite dec_length_be by done. cbn [mbind result_bind].
    rewrite Z.eqb_refl. cbn [negb]. by rewrite Hd.
  - eapply codes_prefix; [by apply (IH ty w)|]. intros rest rest' Hd. unfold dec_u8. rewrite dec_take_app by done.
    cbn [mbind result_bind of_be fold_left Z.eqb Pos.eqb]. by rewrite Hd.
  - apply codes_bytes; [simpl; lia|]. intros rest. unfold dec_u8. by rewrite dec_take_app.
  - pose proof (roundtrip_list _ _ _ IH ty items Ht Hv Hc) as Hi.
    destruct (check_items (zlen items)) as [u|] eqn:Hu; [|done]. cbn [mbind result_bind].
    apply (codes_weaken _ (S (length items))); [lia|].
    eapply codes_len; [exact Hi|]. intros rest rest' Hu32 Hd Hlen. rewrite dec_length_be by done. cbn [mbind result_bind].
    rewrite Hu. cbn [mbind result_bind]. rewrite Z.gtb_ltb, (proj2 (Z.ltb_ge _ _)) by (unfold zlen; lia).
    unfold zlen. rewrite Nat2Z.id. by rewrite Hd.
  - destruct (version <? _); [done|]. bool_inv. rewrite Z.gtb_ltb, (proj2 (Z.ltb_ge _ _)) by lia.
    simpl in Hv. bool_inv.
    pose proof (roundtrip_entries _ _ _ IH ty entries [] None Ht ltac:(done) ltac:(done) ltac:(done) ltac:(done)
      ltac:(by intros ?? ?%elem_of_nil)) as Hi.
    eapply codes_len; [exact Hi|]. intros rest rest' Hu Hd _. rewrite dec_length_be by done. cbn [mbind result_bind].
    rewrite Z.gtb_ltb, (proj2 (Z.ltb_ge _ _)) by lia. unfold zlen. rewrite Nat2Z.id. by rewrite Hd.
  - bool_inv. subst. rewrite Z.eqb_refl. cbn [negb]. simpl in Hv. bool_inv.
    destruct (definition cat id) as [d|] eqn:Ed; [|done]. destruct (definition_wf _ _ _ Hcat Ed) as (Hdt & _).
    cbn [mbind result_bind]. eapply codes_prefix; [by apply (IH (def_ty d) v)|]. intros rest rest' Hd.
    rewrite dec_u64_be by done. cbn [mbind result_bind]. rewrite Z.eqb_refl. cbn [negb]. by rewrite Hd.
Qed.

(** ** Decoded values are canonical *)

Lemma dec_take_Ok n rest b r :
  0 ≤ n → all_bytes rest = true → dec_take n rest = Ok (b, r) → zlen b = n ∧ all_bytes b = true ∧ all_bytes r = true.
Proof.
  unfold dec_take. intros Hn Hr H. case_if_in H; [|done]. injection H as <- <-. bool_inv.
  rewrite <-(take_drop (Z.to_nat n) rest), all_bytes_app in Hr. bool_inv. split_and!; try done.
  unfold zlen in *. rewrite length_take. lia.
Qed.

Lemma dec_be_Ok (k : Z) n rest v r :
  k = Z.of_nat n → all_bytes rest = true → ('(b, rest) ← dec_take k rest; Ok (of_be b, rest)) = Ok (v, r) →
  0 ≤ v < 256 ^ k ∧ all_bytes r = true.
Proof.
  intros -> Hr H. apply bind_Ok in H as ([b r'] & H & E). injection E as <- <-.
  apply dec_take_Ok in H as (Hl & Hb & Hr'); [|lia|done]. split; [|done]. rewrite <-Hl. by apply of_be_bound.
Qed.

Lemma dec_signed_Ok n rest v r :
  (0 < n)%nat → all_bytes rest = true → dec_signed (Z.of_nat n) rest = Ok (v, r) →
  - 2 ^ (8 * Z.of_nat n - 1) ≤ v < 2 ^ (8 * Z.of_nat n - 1) ∧ all_bytes r = true.
Proof.
  intros Hn Hr H. unfold dec_signed in H. apply bind_Ok in H as ([b r'] & H & E). injection E as <- <-.
  apply dec_take_Ok in H as (Hl & Hb & Hr'); [|lia|done]. split; [|done].
  pose proof (of_be_bound b Hb) as Hbound. rewrite Hl in Hbound. change 256 with (2 ^ 8) in Hbound.
  rewrite <-Z.pow_mul_r in Hbound by lia.
  assert (H2 : 2 ^ (8 * Z.of_nat n) = 2 * 2 ^ (8 * Z.of_nat n - 1)) by (rewrite <-Z.pow_succ_r by lia; f_equal; lia).
  unfold signed. destruct (Z.ltb_spec (of_be b) (2 ^ (8 * Z.of_nat n - 1))); lia.
Qed.

Definition sound (conf : Value → bool) (dec : list Z → result (Value * list Z)) : Prop :=
  ∀ rest v r, all_bytes rest = true → dec rest = Ok (v, r) → conf v = true ∧ wf_value v = true ∧ all_bytes r = true.

Section decode_sound.
Context (conf : ScalarType → Value → bool) (dec : ScalarType → list Z → result (Value * list Z)).
Context (IH : ∀ t, wf_type t = true → sound (conf t) (dec t)).

Lemma dec_items_sound tys rest vs r :
  Forall (λ t, wf_type t = true) tys → all_bytes rest = true → dec_items dec tys rest = Ok (vs, r) →
  all2 conf tys vs = true ∧ forallb wf_value vs = true ∧ all_bytes r = true.
Proof.
  intros Ht. revert rest vs. induction Ht as [|t tys Ht _ IHt]; intros rest vs Hr H; cbn [dec_items] in H.
  - by injection H as <- <-.
  - apply bind_Ok in H as ([v r1] & Hv & H). apply bind_Ok in H as ([vs' r2] & Hvs & H). injection H as <- <-.
    apply IH in Hv as (Hc & Hw & Hr1); [|done..]. apply IHt in Hvs as (Hcs & Hws & Hr2); [|done..].
    simpl. by rewrite Hc, Hw, Hcs, Hws.
Qed.

(** The field loop keeps [fields] a partial record whose decoded columns are
    exactly those in [seen]. *)
Lemma dec_fields_sound columns n fields seen ids rest m r :
  wf_type (TRecord columns) = true → all_bytes rest = true →
  dec_fields dec columns n fields seen rest = Ok (m, r) →
  NoDup ids → ids ⊆ (col_id <$> columns) → (∀ i, bs_mem i seen = true ↔ i ∈ ids) → length fields = length ids →
  wf_value (VRecord fields) = true →
  (∀ c, c ∈ columns → col_id c ∈ ids → ∃ v, bt_get (col_name c) fields = Some v ∧ conf (col_ty c) v = true) →
  (∀ c, c ∈ columns → col_id c ∉ ids → bt_get (col_name c) fields = None) →
  ∃ ids', NoDup ids' ∧ ids' ⊆ (col_id <$> columns) ∧ length ids' = (n + length ids)%nat ∧ length m = length ids' ∧
    wf_value (VRecord m) = true ∧ all_bytes r = true ∧
    (∀ c, c ∈ columns → col_id c ∈ ids' → ∃ v, bt_get (col_name c) m = Some v ∧ conf (col_ty c) v = true).
Proof.
  intros Ht. destruct (wf_type_nodup_columns _ Ht) as [Hnn Hni]. revert fields seen ids rest.
  induction n as [|n IHn]; intros fields seen ids rest Hr H Hnd Hsub Hseen Hlen Hw Hin Hout; cbn [dec_fields] in H.
  { injection H as <- <-. exists ids. done. }
  apply bind_Ok in H as ([fid r1] & Hfid & H). eapply (dec_be_Ok 8 8) in Hfid as [_ Hr1]; [|done..].
  case_if_in H; [done|]. apply bind_Ok in H as (c & Hc%ok_or_Ok & H). apply find_Some_elem in Hc as [Hcc Hid]. bool_inv. subst fid.
  apply bind_Ok in H as ([v r2] & Hv & H). destruct (wf_type_column _ _ Ht Hcc) as (Hns & _ & Hct & _).
  apply IH in Hv as (Hconf & Hwv & Hr2); [|done..].
  assert (Hni' : col_id c ∉ ids) by (rewrite <-Hseen; by apply not_true_iff_false).
  assert (Hne : ∀ c', c' ∈ columns → col_id c' ≠ col_id c → col_name c' ≠ col_name c).
  { intros c' Hc' Hne E'. apply Hne. f_equal. by apply (NoDup_fmap_key col_name columns). }
  eapply (IHn _ _ (col_id c :: ids)) in H as (ids' & H1 & H2 & H3 & H4 & H5 & H6 & H7); try done.
  - exists ids'. split_and!; try done. rewrite H3. simpl. lia.
  - by constructor.
  - intros i [->|Hi]%elem_of_cons; [by apply list_elem_of_fmap_2|auto].
  - intros i. rewrite bs_mem_insert, Hseen. by rewrite elem_of_cons.
  - rewrite bt_insert_length_new by auto. simpl. by rewrite Hlen.
  - simpl in Hw |- *. bool_inv. rewrite bt_insert_sorted by done. simpl. apply forallb_Forall, list.Forall_forall.
    intros e [->|He]%bt_insert_elem; [simpl; by rewrite Hns, Hwv|].
    match goal with Hf : forallb _ fields = true |- _ => rewrite forallb_Forall, list.Forall_forall in Hf; by apply Hf end.
  - intros c' Hc' Hi. destruct (decide (col_id c' = col_id c)) as [E'|Hne'].
    + assert (c' = c) as -> by (by apply (NoDup_fmap_key col_id columns)). exists v. by rewrite bt_get_insert_eq.
    + rewrite bt_get_insert_ne by auto. apply Hin; [done|]. by apply elem_of_cons in Hi as [?|?].
  - intros c' Hc' [Hi1 Hi2]%not_elem_of_cons. rewrite bt_get_insert_ne by auto. auto.
Qed.

Lemma dec_entries_sound t n entries previous rest m r :
  wf_type t = true → all_bytes rest = true → dec_entries (dec t) n entries previous rest = Ok (m, r) →
  wf_value (VMap entries) = true → forallb (λ kv, (str_len kv.1 <=? MAX_MAP_KEY_BYTES) && conf t kv.2) entries = true →
  wf_value (VMap m) = true ∧ forallb (λ kv, (str_len kv.1 <=? MAX_MAP_KEY_BYTES) && conf t kv.2) m = true ∧
  (length m ≤ n + length entries)%nat ∧ all_bytes r = true.
Proof.
  intros Ht. revert entries previous rest. induction n as [|n IHn]; intros entries previous rest Hr H Hw Hc; cbn [dec_entries] in H.
  { by injection H as <- <-. }
  apply bind_Ok in H as ([len r1] & Hlen & H). eapply (dec_be_Ok 4 4) in Hlen as [Hl Hr1]; [|done..].
  case_if_in H; [done|]. apply bind_Ok in H as ([b r2] & Hb & H).
  apply dec_take_Ok in Hb as (Hlb & Hab & Hr2); [|lia|done].
  apply bind_Ok in H as (key & Hk%ok_or_Ok & H). case_if_in H; [done|].
  apply bind_Ok in H as ([v r3] & Hv & H). apply IH in Hv as (Hconf & Hwv & Hr3); [|done..].
  destruct (from_utf8_wf b key Hab Hk) as [Hkw Hkb].
  eapply IHn in H as (H1 & H2 & H3 & H4); [| done | |].
  - split_and!; try done. pose proof (bt_insert_length key v entries). lia.
  - simpl in Hw |- *. bool_inv. rewrite bt_insert_sorted by done. simpl. apply forallb_Forall, list.Forall_forall.
    intros e [->|He]%bt_insert_elem; [simpl; by rewrite Hkw, Hwv|].
    match goal with Hf : forallb _ entries = true |- _ => rewrite forallb_Forall, list.Forall_forall in Hf; by apply Hf end.
  - bool_inv. rewrite forallb_Forall, list.Forall_forall in Hc |- *. intros e [->|He]%bt_insert_elem; [|auto].
    simpl. rewrite Hconf, andb_true_r. apply Z.leb_le. unfold str_len. rewrite Hkb. lia.
Qed.
End decode_sound.

Lemma all2_replicate {A B} (f : A → B → bool) n t vs : all2 f (replicate n t) vs = true → forallb (f t) vs = true.
Proof.
  revert vs. induction n as [|n IH]; intros [|v vs]; simpl; try done. intros H. bool_inv.
  apply andb_true_iff. auto.
Qed.

Lemma dec_scalar_sound fuel cat version ty :
  wf_type ty = true →
  match ty with TInt | TFloat | TBool | TText | TUuid | TDate | TTimestamp | TDuration | TDecimal _ _ | TBytes => true | _ => false end = true →
  sound (conforms (S fuel) cat ty) (dec_value (S fuel) cat version ty).
Proof.
  intros Ht Hs rest v r Hr H. cbn [dec_value] in H. destruct ty; try discriminate Hs.
  - apply bind_Ok in H as ([z r'] & Hd & E). injection E as <- <-. change 8 with (Z.of_nat 8) in Hd.
    apply dec_signed_Ok in Hd as [Hz Hr']; [|lia|done]. split_and!; try done. simpl. unrange. lia.
  - apply bind_Ok in H as ([z r'] & Hd & E). eapply (dec_be_Ok 8 8) in Hd as [Hz Hr']; [|done..].
    case_if_in E; [done|]. injection E as <- <-. bool_inv. split_and!; try done.
    + cbn [conforms]. destruct (is_zero z) eqn:Ez; [done|]. by rewrite E0, Ez.
    + simpl. unrange. destruct (is_zero z); lia.
  - apply bind_Ok in H as ([z r'] & Hd & E). eapply (dec_be_Ok 1 1) in Hd as [Hz Hr']; [|done..].
    case_if_in E; [by injection E as <- <-|]. case_if_in E; [by injection E as <- <-|done].
  - apply bind_Ok in H as ([len r1] & Hd & H). eapply (dec_be_Ok 4 4) in Hd as [Hz Hr1]; [|done..].
    apply bind_Ok in H as ([b r2] & Hd & H). apply dec_take_Ok in Hd as (_ & Hb & Hr2); [|lia|done].
    apply bind_Ok in H as (s & Hu%ok_or_Ok & E). injection E as <- <-. by destruct (from_utf8_wf b s Hb Hu) as [Hw _].
  - apply bind_Ok in H as ([b r'] & Hd & E). injection E as <- <-.
    apply dec_take_Ok in Hd as (Hl & Hb & Hr'); [|lia|done]. split_and!; try done. simpl. unfold wf_uuid. by rewrite Hl, Hb.
  - apply bind_Ok in H as ([z r'] & Hd & H). change 4 with (Z.of_nat 4) in Hd.
    apply dec_signed_Ok in Hd as [Hz Hr']; [|lia|done]. apply bind_Ok in H as (d & He%map_err_Ok & E). injection E as <- <-.
    unfold from_epoch_days in He. case_if_in He; [done|]. injection He as <-. bool_inv. done.
  - apply bind_Ok in H as ([z r'] & Hd & H). change 8 with (Z.of_nat 8) in Hd.
    apply dec_signed_Ok in Hd as [Hz Hr']; [|lia|done]. apply bind_Ok in H as (d & He%map_err_Ok & E). injection E as <- <-.
    pose proof He as [-> _]%from_epoch_microseconds_Ok. split_and!; try done. simpl. by rewrite He.
  - apply bind_Ok in H as ([z r'] & Hd & E). injection E as <- <-. change 8 with (Z.of_nat 8) in Hd.
    apply dec_signed_Ok in Hd as [Hz Hr']; [|lia|done]. split_and!; try done. simpl. unrange. lia.
  - apply bind_Ok in H as ([z r'] & Hd & H). change 16 with (Z.of_nat 16) in Hd.
    apply dec_signed_Ok in Hd as [Hz Hr']; [|lia|done]. apply bind_Ok in H as (d & He%map_err_Ok & E). injection E as <- <-.
    simpl in Ht. bool_inv. unrange. pose proof He as (Hp & Hps & Hc & ->)%decimal_new_Ok.
    apply decimal_new_fits in He as [Hf _]; [|lia]. split_and!; [|by apply fits_wf in Hf|done].
    cbn [conforms]. rewrite Z.eqb_refl, (proj2 (validate_type_Ok precision scale tt)) by lia. by apply Z.ltb_lt.
  - apply bind_Ok in H as ([len r1] & Hd & H). eapply (dec_be_Ok 4 4) in Hd as [Hz Hr1]; [|done..].
    apply bind_Ok in H as ([b r2] & Hd & H). apply dec_take_Ok in Hd as (_ & Hb & Hr2); [|lia|done].
    apply bind_Ok in H as (s & Hu%map_err_Ok & E). injection E as <- <-. unfold bytes_new in Hu. case_if_in Hu; [done|].
    injection Hu as <-. bool_inv. split_and!; try done. simpl. unfold wf_bytes. rewrite Hb, andb_true_r. by apply Z.leb_le.
Qed.

Lemma dec_value_sound fuel cat version ty :
  wf_catalog cat = true → wf_type ty = true → sound (conforms fuel cat ty) (dec_value fuel cat version ty).
Proof.
  intros Hcat. revert ty. induction fuel as [|fuel IH]; intros ty Ht; [done|].
  destruct (match ty with TInt | TFloat | TBool | TText | TUuid | TDate | TTimestamp | TDuration | TDecimal _ _ | TBytes => true | _ => false end) eqn:Hs.
  { by apply dec_scalar_sound. }
  intros rest v r Hr H. cbn [conforms]. cbn [dec_value] in H. destruct ty; try discriminate Hs; try discriminate H.
  - apply bind_Ok in H as ([vid r1] & Hd & H). eapply (dec_be_Ok 8 8) in Hd as [_ Hr1]; [|done..].
    apply bind_Ok in H as (var & Hv%ok_or_Ok & H). apply find_Some_elem in Hv as [Hin Hid]. bool_inv. subst vid.
    apply bind_Ok in H as ([count r2] & Hd & H). eapply (dec_be_Ok 4 4) in Hd as [_ Hr2]; [|done..].
    case_if_in H; [done|]. apply bind_Ok in H as ([args r3] & Ha & E2). injection E2 as <- <-.
    destruct (wf_type_variant _ _ Ht Hin) as (_ & Hid & Hn & _ & Hargs). rewrite find_variant_id_elem by done.
    apply (dec_items_sound _ _ IH) in Ha as (Hc & Hw & Hr3); [|done..].
    rewrite String.eqb_refl. cbn [wf_value]. by rewrite Hn, Hid, Hw.
  - apply bind_Ok in H as ([count r1] & Hd & H). eapply (dec_be_Ok 4 4) in Hd as [_ Hr1]; [|done..].
    case_if_in H; [done|]. bool_inv. subst count. apply bind_Ok in H as ([m r2] & Hm & E2). injection E2 as <- <-.
    apply (dec_fields_sound _ _ IH _ _ _ _ [] _ _ _ Ht Hr1) in Hm as (ids & Hnd & Hsub & Hl & Hlm & Hw & Hr2 & Hall);
      try done; [|by constructor|by intros ? ?%elem_of_nil|by intros; split; [|intros ?%elem_of_nil]|by intros ?? ?%elem_of_nil].
    assert (Hids : ids ≡ₚ col_id <$> columns).
    { apply submseteq_length_Permutation; [by apply NoDup_submseteq|]. rewrite length_fmap, Hl. unfold zlen. simpl. lia. }
    split_and!; try done. apply andb_true_iff. split.
    + apply Z.eqb_eq. unfold zlen. rewrite Hlm, Hids, length_fmap. done.
    + apply forallb_Forall, list.Forall_forall. intros c Hc.
      destruct (Hall c Hc) as (w & -> & Hw'); [|done]. rewrite Hids. by apply list_elem_of_fmap_2.
  - apply bind_Ok in H as ([count r1] & Hd & H). eapply (dec_be_Ok 4 4) in Hd as [_ Hr1]; [|done..].
    case_if_in H; [done|]. apply bind_Ok in H as ([vs r2] & Ha & E2). injection E2 as <- <-.
    by apply (dec_items_sound _ _ IH) in Ha; [|by apply forallb_Forall|].
  - apply bind_Ok in H as ([tag r1] & Hd & H). eapply (dec_be_Ok 1 1) in Hd as [_ Hr1]; [|done..].
    case_if_in H; [by injection H as <- <-|]. case_if_in H; [|done].
    apply bind_Ok in H as ([w r2] & Ha & E2). injection E2 as <- <-. by apply IH in Ha.
  - apply bind_Ok in H as ([count r1] & Hd & H). eapply (dec_be_Ok 4 4) in Hd as [_ Hr1]; [|done..].
    apply bind_Ok in H as (_ & _ & H). case_if_in H; [done|].
    apply bind_Ok in H as ([vs r2] & Ha & E2). injection E2 as <- <-.
    apply (dec_items_sound _ _ IH) in Ha as (Hc & Hw & Hr2); [|by apply Forall_replicate|done].
    split_and!; try done. by eapply all2_replicate.
  - case_if_in H; [done|]. apply bind_Ok in H as ([count r1] & Hd & H).
    eapply (dec_be_Ok 4 4) in Hd as [Hz Hr1]; [|done..]. case_if_in H; [done|]. bool_inv.
    apply bind_Ok in H as ([m r2] & Ha & E2). injection E2 as <- <-.
    apply (dec_entries_sound _ _ IH) in Ha as (Hw & Hc & Hl & Hr2); [|done..].
    split_and!; try done. rewrite Hc, andb_true_r. apply Z.leb_le. unfold zlen. simpl in Hl. lia.
  - apply bind_Ok in H as ([actual r1] & Hd & H). eapply (dec_be_Ok 8 8) in Hd as [_ Hr1]; [|done..].
    case_if_in H; [done|]. bool_inv. subst. apply bind_Ok in H as (d & Hdef & H).
    apply bind_Ok in H as ([w r2] & Ha & E2). injection E2 as <- <-.
    destruct (definition_wf _ _ _ Hcat Hdef) as (Hdt & Hid & _). rewrite Z.eqb_refl, Hdef. cbn [wf_value]. rewrite Hid.
    by apply IH in Ha.
Qed.

(** ** Properties *)

Lemma encode_value_version_Ok cat ty v version bytes :
  encode_value_version cat ty v version = Ok bytes →
  ∃ v2 r, requires_protocol_v2 cat ty = Ok v2 ∧ v2 && (version <? PRODUCTION_VALUE_CODEC_VERSION) = false ∧
    coerce cat v ty = Ok r ∧ enc_value MAX_DEPTH cat version ty r (MAGIC ++ be_bytes 2 version) = Ok bytes.
Proof.
  unfold encode_value_version. generalize MAX_DEPTH. intros fuel H. apply bind_Ok in H as (v2 & Hv2 & H). case_if_in H; [done|].
  apply bind_Ok in H as (r & Hr & H). apply bind_Ok in H as (o & [-> _]%enc_bytes_Ok & H).
  apply bind_Ok in H as (o & [-> _]%enc_bytes_Ok & H). by exists v2, r.
Qed.

(** Every byte the encoder appends is checked against the size limit. *)
Lemma enc_value_bound fuel cat version ty v out out' :
  zlen out ≤ MAX_VALUE_BYTES → enc_value fuel cat version ty v out = Ok out' → zlen out' ≤ MAX_VALUE_BYTES.
Proof.
  revert ty v out out'. induction fuel as [|fuel IH]; intros ty v out out' Ho H; [done|]. cbn [enc_value] in H.
  assert (Hb : ∀ bs o o', enc_bytes bs o = Ok o' → zlen o' ≤ MAX_VALUE_BYTES) by (by intros bs o o' [_ ?]%enc_bytes_Ok).
  assert (Hl : ∀ k o o', enc_len k o = Ok o' → zlen o' ≤ MAX_VALUE_BYTES).
  { unfold enc_len. intros k o o' Hk. apply bind_Ok in Hk as (len & _ & Hk). eauto. }
  unfold enc_u8, enc_u64 in H.
  destruct ty; destruct v as [| | | | | | | | | | |n args i| | | | |[w|]|]; try discriminate H; try (by eapply Hb);
    repeat match type of H with (if ?b then _ else _) = _ => destruct b; try discriminate H; try (by eapply Hb) end;
    repeat match type of H with _ ≫= _ = _ => apply bind_Ok in H as (?o & ? & H) end;
    repeat match type of H with (if ?b then _ else _) = _ => destruct b; try discriminate H; try (by eapply Hb) end;
    repeat match type of H with _ ≫= _ = _ => apply bind_Ok in H as (?o & ? & H) end;
    try (by eapply Hb); try (by eapply IH; [|exact H]; eauto);
    (eapply (foldR_inv (λ o, zlen o ≤ MAX_VALUE_BYTES)); [|by eapply Hl|exact H]); clear -IH Hb Hl.
  - intros s [t v] s' Hs H. exact (IH _ _ _ _ Hs H).
  - intros s c s' Hs H. apply bind_Ok in H as (o & Ho & H). apply bind_Ok in H as (v & _ & H). eauto.
  - intros s [t v] s' Hs H. exact (IH _ _ _ _ Hs H).
  - intros s v s' Hs H. exact (IH _ _ _ _ Hs H).
  - intros s [k v] s' Hs H. case_if_in H; [done|]. apply bind_Ok in H as (o & _ & H). apply bind_Ok in H as (o' & Ho' & H). eauto.
Qed.

Lemma decode_value_frame cat ty version v2 code r :
  1 ≤ version ≤ 3 → zlen (MAGIC ++ be_bytes 2 version ++ code) ≤ MAX_VALUE_BYTES →
  requires_protocol_v2 cat ty = Ok v2 → v2 && (version <? PRODUCTION_VALUE_CODEC_VERSION) = false →
  dec_value MAX_DEPTH cat version ty code = Ok (r, []) →
  decode_value cat ty (MAGIC ++ be_bytes 2 version ++ code) = Ok r.
Proof.
  intros Hver Hbound Hv2 Hpv Hd. unfold decode_value.
  rewrite Z.gtb_ltb, (proj2 (Z.ltb_ge _ _) Hbound), dec_take_app by done. cbn [mbind result_bind].
  rewrite bool_decide_true by done. cbn [negb].
  unfold dec_u16. rewrite dec_take_app by apply zlen_be. cbn [mbind result_bind].
  rewrite of_be_be_bytes, Z.mod_small by lia.
  assert (negb (version =? VALUE_CODEC_VERSION) && negb (version =? PRODUCTION_VALUE_CODEC_VERSION) &&
          negb (version =? MAP_VALUE_CODEC_VERSION) = false) as ->.
  { assert (version = 1 ∨ version = 2 ∨ version = 3) as [->|[->| ->]] by lia; done. }
  rewrite Hv2. cbn [mbind result_bind]. rewrite Hpv, Hd. done.
Qed.

(** C2: the codec round trip.  Whatever the encoder writes, in any of its three
    versions, the decoder reads back as the canonical value that was written. *)
Theorem codec_roundtrip cat ty v version bytes :
  wf_catalog cat = true → wf_type ty = true → wf_value v = true → 1 ≤ version ≤ 3 →
  encode_value_version cat ty v version = Ok bytes →
  ∃ r, coerce cat v ty = Ok r ∧ decode_value cat ty bytes = Ok r ∧ zlen bytes ≤ MAX_VALUE_BYTES.
Proof.
  intros Hcat Ht Hv Hver H. destruct (encode_value_version_Ok _ _ _ _ _ H) as (v2 & r & Hv2 & Hpv & Hr & He). clear H.
  exists r. destruct (coerce_sound _ _ _ _ Hcat Ht Hv Hr) as [Hc Hw].
  assert (Hstart : zlen (MAGIC ++ be_bytes 2 version) ≤ MAX_VALUE_BYTES) by (rewrite zlen_app, zlen_be; vm_compute; discriminate).
  pose proof (enc_value_bound _ _ _ _ _ _ _ Hstart He) as Hbound.
  destruct (enc_value_codes _ _ version _ _ Hcat Ht Hw Hc _ _ He) as (code & -> & _ & Hd).
  specialize (Hd []). rewrite app_nil_r in Hd. rewrite <-app_assoc in Hbound |- *.
  split; [exact Hr|]. split; [|exact Hbound]. exact (decode_value_frame _ _ _ _ _ _ Hver Hbound Hv2 Hpv Hd).
Qed.

Lemma codec_roundtrip_witness :
  ∃ bytes, encode_value tree_catalog (TRef 5) tree_input = Ok bytes ∧ decode_value tree_catalog (TRef 5) bytes = Ok tree_value.
Proof.
  eexists. split; [vm_compute; reflexivity|].
  edestruct (codec_roundtrip tree_catalog (TRef 5) tree_input VALUE_CODEC_VERSION) as (r & Hr & Hd & _);
    [vm_compute; reflexivity|reflexivity|vm_compute; reflexivity|vm_compute; split; discriminate|vm_compute; reflexivity|].
  rewrite Hd. vm_compute in Hr. symmetry. exact Hr.
Defined.

(** C30: the decoder is safe on arbitrary bytes: whatever it accepts is a canonical
    value of the requested type with every machine-level invariant, and the
    value survives coercion unchanged. *)
Theorem decode_value_canonical cat ty bytes v :
  wf_catalog cat = true → wf_type ty = true → all_bytes bytes = true → decode_value cat ty bytes = Ok v →
  conforms MAX_DEPTH cat ty v = true ∧ wf_value v = true ∧ coerce cat v ty = Ok v.
Proof.
  intros Hcat Ht Hb H. unfold decode_value in H. case_if_in H; [done|].
  apply bind_Ok in H as ([magic r1] & Hd & H). apply dec_take_Ok in Hd as (_ & _ & Hr1); [|done..].
  case_if_in H; [done|]. apply bind_Ok in H as ([version r2] & Hd & H). eapply (dec_be_Ok 2 2) in Hd as [_ Hr2]; [|done..].
  case_if_in H; [done|]. apply bind_Ok in H as (v2 & _ & H). case_if_in H; [done|].
  apply bind_Ok in H as ([w r3] & Hd & H). case_if_in H; [done|]. injection H as <-.
  destruct (dec_value_sound MAX_DEPTH cat version ty Hcat Ht _ _ _ Hr2 Hd) as (Hc & Hw & _).
  split; [exact Hc|]. split; [exact Hw|]. by apply coerce_stable.
Qed.

Lemma decode_value_canonical_witness :
  conforms MAX_DEPTH default_catalog (TList TBool) (VList [VBool true; VBool false]) = true ∧
  wf_value (VList [VBool true; VBool false]) = true ∧
  coerce default_catalog (VList [VBool true; VBool false]) (TList TBool) = Ok (VList [VBool true; VBool false]).
Proof.
  apply (decode_value_canonical default_catalog (TList TBool) [85; 73; 68; 86; 0; 1; 0; 0; 0; 2; 1; 0]);
    vm_compute; reflexivity.
Defined.
