(* ===== verification/Matching.v ===== *)
(** * Pattern matching

    Models src/src/matching.rs: binding of patterns to catalog identities
    ([bind_patterns]), the pattern-matrix coverage analysis behind it
    ([pattern_is_useful], [uncovered_patterns]) and the evaluation of bound
    patterns on values ([match_value_pattern]).  Diagnostic text is dropped.

    The coverage budget is threaded as in the code.  Every call of the analysis
    takes one step of it, so recursion with fuel [budget + 1] never runs out. *)
From Stdlib Require Import Ascii.
From S2P Require Import Prelude Bytes Text BTree Model Coerce.

(** ** Patterns (src/src/query.rs) *)

Inductive MatchTag := TagVariant (id : Z) | TagNone | TagSome.

Inductive MatchPayloadOf (P : Type) :=
  | PayUnit
  | PayRecord (fields : list (string * P)) (rest : bool)
  | PayPositional (patterns : list P).
Arguments PayUnit {P}.
Arguments PayRecord {P} fields rest.
Arguments PayPositional {P} patterns.

Inductive MatchPattern :=
  | PWildcard
  | PBinding (name : string)
  | PConstructor (name : string) (payload : MatchPayloadOf MatchPattern) (tag : option MatchTag)
  | PRecord (fields : list (string * MatchPattern)) (rest : bool)
  | PTuple (patterns : list MatchPattern).
Notation MatchPayload := (MatchPayloadOf MatchPattern).

(** ** Binding patterns to the catalog *)

Inductive MatchSource := SourceEnum (variants : list (VariantOf ScalarType)) | SourceOption (inner : ScalarType).

Definition match_source (cat : Catalog) (ty : ScalarType) : result MatchSource :=
  u ← underlying cat ty;
  match u with
  | TEnum variants => Ok (SourceEnum variants)
  | TOption inner => Ok (SourceOption inner)
  | _ => Err "E_TYPE"
  end.

Definition qualifier_matches_enum (cat : Catalog) (qualifier : string) (expected : list (VariantOf ScalarType)) : result bool :=
  d ← ok_or (bt_get qualifier (types cat)) "E_MATCH";
  u ← underlying cat (def_ty d);
  match u with
  | TEnum actual =>
      Ok ((zlen actual =? zlen expected) && forallb (λ '(a, e), var_id a =? var_id e) (zip actual expected))
  | _ => Ok false
  end.

Definition resolve_constructor (cat : Catalog) (source : MatchSource) (name : string)
    : result (MatchTag * list ScalarType * string) :=
  match source with
  | SourceEnum variants =>
      let '(qualifier, variant_name) :=
        match rsplit_once "."%char name with Some (q, n) => (Some q, n) | None => (None, name) end in
      _ ← match qualifier with
          | Some q => ok ← qualifier_matches_enum cat q variants; if ok : bool then Ok tt else Err "E_MATCH"
          | None => Ok tt
          end;
      variant ← ok_or (List.find (λ v, String.eqb (var_name v) variant_name) variants) "E_MATCH";
      Ok (TagVariant (var_id variant), var_args variant, var_name variant)
  | SourceOption inner =>
      if String.eqb name "None" then Ok (TagNone, [], "None"%string)
      else if String.eqb name "Some" then Ok (TagSome, [inner], "Some"%string)
      else Err "E_MATCH"
  end.

Definition binding (name : string) (ty : ScalarType) : ColumnOf ScalarType := Column name ty None 0.

(** Concatenate the bindings of sibling patterns, rejecting a repeated name. *)
Fixpoint combine_bindings (seen : bset string) (bindings : Columns) : result unit :=
  match bindings with
  | [] => Ok tt
  | c :: bindings =>
      if bs_mem (col_name c) seen then Err "E_MATCH" else combine_bindings (bs_insert (col_name c) seen) bindings
  end.
Definition combine_patterns (infos : list Columns) : result Columns :=
  _ ← combine_bindings [] (concat infos); Ok (concat infos).

Section bind.
Context (cat : Catalog) (bind : ScalarType → MatchPattern → result (MatchPattern * Columns)).

(** Bind sibling patterns against their types. *)
Definition bind_all : list MatchPattern → list ScalarType → result (list MatchPattern * list Columns) :=
  fix go patterns tys := match patterns, tys with
    | p :: patterns, ty :: tys =>
        '(p, info) ← bind ty p; '(ps, infos) ← go patterns tys; Ok (p :: ps, info :: infos)
    | _, _ => Ok ([], [])
    end.

Definition bind_fields (definitions : Columns)
    : bset string → list (string * MatchPattern) → result (list (string * MatchPattern) * list Columns * bset string) :=
  fix go seen fields := match fields with
    | [] => Ok ([], [], seen)
    | (f, p) :: fields =>
        if bs_mem f seen then Err "E_MATCH"
        else
          d ← ok_or (find_column definitions f) "E_MATCH";
          '(p, info) ← bind (col_ty d) p;
          '(fs, infos, seen) ← go (bs_insert f seen) fields;
          Ok ((f, p) :: fs, info :: infos, seen)
    end.

Definition bind_record_fields (definitions : Columns) (fields : list (string * MatchPattern)) (rest : bool)
    : result (list (string * MatchPattern) * Columns) :=
  '(fields, infos, seen) ← bind_fields definitions [] fields;
  if negb rest && existsb (λ c, negb (bs_mem (col_name c) seen)) definitions then Err "E_MATCH"
  else info ← combine_patterns infos; Ok (fields, info).

Definition bind_payload (argument_types : list ScalarType) (payload : MatchPayload) : result (MatchPayload * Columns) :=
  match payload with
  | PayUnit => if zlen argument_types =? 0 then Ok (PayUnit, []) else Err "E_MATCH"
  | PayRecord fields rest =>
      match argument_types with
      | [ty] =>
          u ← underlying cat ty;
          match u with
          | TRecord payload_fields =>
              '(fields, info) ← bind_record_fields payload_fields fields rest; Ok (PayRecord fields rest, info)
          | _ => Err "E_MATCH"
          end
      | _ => Err "E_MATCH"
      end
  | PayPositional patterns =>
      if negb (zlen patterns =? zlen argument_types) then Err "E_MATCH"
      else '(ps, infos) ← bind_all patterns argument_types;
           info ← combine_patterns infos; Ok (PayPositional ps, info)
  end.
End bind.

Fixpoint bind_nested_pattern (cat : Catalog) (expected : ScalarType) (pattern : MatchPattern)
    : result (MatchPattern * Columns) :=
  match pattern with
  | PWildcard => Ok (PWildcard, [])
  | PBinding name => Ok (PBinding name, [binding name expected])
  | PConstructor name payload _ =>
      source ← match_source cat expected;
      '(tag, argument_types, _) ← resolve_constructor cat source name;
      '(payload, info) ← bind_payload cat (bind_nested_pattern cat) argument_types payload;
      Ok (PConstructor name payload (Some tag), info)
  | PRecord fields rest =>
      u ← underlying cat expected;
      match u with
      | TRecord definitions =>
          '(fields, info) ← bind_record_fields (bind_nested_pattern cat) definitions fields rest;
          Ok (PRecord fields rest, info)
      | _ => Err "E_MATCH"
      end
  | PTuple patterns =>
      u ← underlying cat expected;
      match u with
      | TTuple items =>
          if negb (zlen patterns =? zlen items) then Err "E_MATCH"
          else '(ps, infos) ← bind_all (bind_nested_pattern cat) patterns items;
               info ← combine_patterns infos; Ok (PTuple ps, info)
      | _ => Err "E_MATCH"
      end
  end.

(** ** Coverage analysis *)

Definition MAX_COVERAGE_STEPS : Z := 100000.

Inductive CoverageConstructor :=
  | CVariant (id : Z) (name : string)
  | CNone
  | CSome
  | CRecord (fields : list string)
  | CTuple.
#[export] Instance CoverageConstructor_eq : EqDecision CoverageConstructor.
Proof. solve_decision. Defined.

Inductive CoveragePattern :=
  | CWildcard
  | CConstructor (constructor : CoverageConstructor) (arguments : list CoveragePattern).

Record ConstructorSpec := mkSpec { spec_constructor : CoverageConstructor; spec_arguments : list ScalarType }.

Definition budget_step (remaining : Z) : result Z :=
  if remaining =? 0 then Err "E_LIMIT" else Ok (remaining - 1).

Section coverage.
Context (cat : Catalog) (cover : ScalarType → MatchPattern → result CoveragePattern).

(** Pair each pattern with a type, as far as both go. *)
Definition cover_all : list MatchPattern → list ScalarType → result (list CoveragePattern) :=
  fix go patterns tys := match patterns, tys with
    | p :: patterns, ty :: tys => c ← cover ty p; cs ← go patterns tys; Ok (c :: cs)
    | _, _ => Ok []
    end.

(** The pattern of one field: [fields.iter().find(..)], or a wildcard. *)
Definition cover_field (name : string) (ty : ScalarType) : list (string * MatchPattern) → result CoveragePattern :=
  fix go fields := match fields with
    | [] => Ok CWildcard
    | (f, p) :: fields => if String.eqb f name then cover ty p else go fields
    end.

Definition coverage_record_pattern (expected : ScalarType) (fields : list (string * MatchPattern)) : result CoveragePattern :=
  u ← underlying cat expected;
  match u with
  | TRecord definitions =>
      values ← mapR (λ d, cover_field (col_name d) (col_ty d) fields) definitions;
      Ok (CConstructor (CRecord (col_name <$> definitions)) values)
  | _ => Err "E_MATCH"
  end.
End coverage.

Fixpoint coverage_pattern (cat : Catalog) (expected : ScalarType) (pattern : MatchPattern) : result CoveragePattern :=
  match pattern with
  | PWildcard | PBinding _ => Ok CWildcard
  | PConstructor name payload _ =>
      source ← match_source cat expected;
      '(tag, arguments, display_name) ← resolve_constructor cat source name;
      let constructor := match tag with TagVariant id => CVariant id display_name | TagNone => CNone | TagSome => CSome end in
      values ← match payload with
               | PayUnit => Ok []
               | PayRecord fields _ =>
                   match arguments with
                   | [record_type] =>
                       c ← coverage_record_pattern cat (coverage_pattern cat) record_type fields; Ok [c]
                   | _ => Err "E_MATCH"
                   end
               | PayPositional patterns => cover_all (coverage_pattern cat) patterns arguments
               end;
      Ok (CConstructor constructor values)
  | PRecord fields _ => coverage_record_pattern cat (coverage_pattern cat) expected fields
  | PTuple patterns =>
      u ← underlying cat expected;
      match u with
      | TTuple items => values ← cover_all (coverage_pattern cat) patterns items; Ok (CConstructor CTuple values)
      | _ => Err "E_MATCH"
      end
  end.

Fixpoint type_contains_ref (ty : ScalarType) (target : Z) : bool :=
  match ty with
  | TRef id => id =? target
  | TRecord fields => existsb (λ f, type_contains_ref (col_ty f) target) fields
  | TEnum variants => existsb (λ v, existsb (λ a, type_contains_ref a target) (var_args v)) variants
  | TTuple items => existsb (λ i, type_contains_ref i target) items
  | TOption inner | TList inner | TMap inner => type_contains_ref inner target
  | _ => false
  end.

Definition variant_spec (v : VariantOf ScalarType) : ConstructorSpec :=
  mkSpec (CVariant (var_id v) (var_name v)) (var_args v).

Definition constructor_specs (cat : Catalog) (ty : ScalarType) : result (option (list ConstructorSpec)) :=
  u ← underlying cat ty;
  Ok match u with
     | TEnum variants =>
         let variants :=
           match ty with
           | TRef id =>
               sort_by_key (λ v, if existsb (λ a, type_contains_ref a id) (var_args v) then 1 else 0) variants
           | _ => variants
           end in
         Some (variant_spec <$> variants)
     | TOption inner => Some [mkSpec CNone []; mkSpec CSome [inner]]
     | TRecord fields => Some [mkSpec (CRecord (col_name <$> fields)) (col_ty <$> fields)]
     | TTuple items => Some [mkSpec CTuple items]
     | _ => None
     end.

Definition is_wildcard (p : CoveragePattern) : bool := match p with CWildcard => true | _ => false end.

Definition specialize_row (constructor : CoverageConstructor) (arity : nat) (row : list CoveragePattern)
    : option (list CoveragePattern) :=
  match row with
  | [] => None
  | CWildcard :: tail => Some (replicate arity CWildcard ++ tail)
  | CConstructor candidate arguments :: tail =>
      if bool_decide (candidate = constructor) then Some (arguments ++ tail) else None
  end.
Definition specialize_matrix (matrix : list (list CoveragePattern)) (constructor : CoverageConstructor) (arity : nat)
    : list (list CoveragePattern) :=
  omap (specialize_row constructor arity) matrix.

Definition default_row (row : list CoveragePattern) : option (list CoveragePattern) :=
  match row with CWildcard :: tail => Some tail | _ => None end.
Definition default_matrix (matrix : list (list CoveragePattern)) : list (list CoveragePattern) :=
  omap default_row matrix.

(** [matrix.iter().any(|row| row.len() == n && row.iter().all(Wildcard))]. *)
Definition has_wildcard_row (matrix : list (list CoveragePattern)) (n : Z) : bool :=
  existsb (λ row, (zlen row =? n) && forallb is_wildcard row) matrix.

(** A loop over [l] that stops at the first [Some]. *)
Fixpoint find_mapS {A B S} (f : A → S → result (option B * S)) (l : list A) (s : S) : result (option B * S) :=
  match l with
  | [] => Ok (None, s)
  | x :: l => '(o, s) ← f x s; match o with Some b => Ok (Some b, s) | None => find_mapS f l s end
  end.

Fixpoint pattern_is_useful (fuel : nat) (cat : Catalog) (matrix : list (list CoveragePattern))
    (query : list CoveragePattern) (types : list ScalarType) (budget : Z) : result (option unit * Z) :=
  match fuel with
  | O => Err "E_LIMIT"
  | S fuel =>
      budget ← budget_step budget;
      if has_wildcard_row matrix (zlen query) then Ok (None, budget)
      else match query with
      | [] => Ok (match matrix with [] => Some tt | _ => None end, budget)
      | head :: query_tail =>
          match types with
          | [] => Err "E_MATCH"
          | head_type :: tail_types =>
              match head with
              | CWildcard =>
                  specs ← constructor_specs cat head_type;
                  match specs with
                  | Some constructors =>
                      find_mapS (λ c,
                        let arity := length (spec_arguments c) in
                        pattern_is_useful fuel cat (specialize_matrix matrix (spec_constructor c) arity)
                          (replicate arity CWildcard ++ query_tail) (spec_arguments c ++ tail_types))
                        constructors budget
                  | None => pattern_is_useful fuel cat (default_matrix matrix) query_tail tail_types budget
                  end
              | CConstructor constructor arguments =>
                  specs ← constructor_specs cat head_type;
                  spec ← ok_or (specs ≫= List.find (λ c, bool_decide (spec_constructor c = constructor))) "E_MATCH";
                  pattern_is_useful fuel cat
                    (specialize_matrix matrix constructor (length (spec_arguments spec)))
                    (arguments ++ query_tail) (spec_arguments spec ++ tail_types) budget
              end
          end
      end
  end.

Fixpoint uncovered_patterns (fuel : nat) (cat : Catalog) (matrix : list (list CoveragePattern))
    (types : list ScalarType) (budget : Z) : result (option (list CoveragePattern) * Z) :=
  match fuel with
  | O => Err "E_LIMIT"
  | S fuel =>
      budget ← budget_step budget;
      if has_wildcard_row matrix (zlen types) then Ok (None, budget)
      else match types with
      | [] => Ok (match matrix with [] => Some [] | _ => None end, budget)
      | head_type :: tail_types =>
          specs ← constructor_specs cat head_type;
          match specs with
          | Some constructors =>
              find_mapS (λ c budget,
                let arity := length (spec_arguments c) in
                '(o, budget) ← uncovered_patterns fuel cat (specialize_matrix matrix (spec_constructor c) arity)
                  (spec_arguments c ++ tail_types) budget;
                Ok (option_map (λ witness, CConstructor (spec_constructor c) (take arity witness) :: drop arity witness) o, budget))
                constructors budget
          | None =>
              '(o, budget) ← uncovered_patterns fuel cat (default_matrix matrix) tail_types budget;
              Ok (option_map (cons CWildcard) o, budget)
          end
      end
  end.

(** Fuel that the budget cannot exhaust. *)
Definition coverage_fuel (budget : Z) : nat := S (Z.to_nat budget).

Definition missing_top_level_constructors (cat : Catalog) (source_type : ScalarType)
    (matrix : list (list CoveragePattern)) (budget : Z) : result (list CoverageConstructor * Z) :=
  specs ← constructor_specs cat source_type;
  constructors ← ok_or specs "E_MATCH";
  foldR (λ '(missing, budget) c,
    let pattern := CConstructor (spec_constructor c) (replicate (length (spec_arguments c)) CWildcard) in
    '(useful, budget) ← pattern_is_useful (coverage_fuel budget) cat matrix [pattern] [source_type] budget;
    Ok (match useful with Some _ => missing ++ [spec_constructor c] | None => missing end, budget))
    ([], budget) constructors.

(** One arm of [bind_patterns]; [last] says whether it is the final one. *)
Definition bind_top_pattern (cat : Catalog) (source_ty : ScalarType) (source : MatchSource) (last : bool) (pattern : MatchPattern)
    : result (MatchPattern * Columns) :=
  match pattern with
  | PWildcard => if last then Ok (PWildcard, []) else Err "E_MATCH"
  | PBinding name => if last then Ok (PBinding name, [binding name source_ty]) else Err "E_MATCH"
  | PConstructor name payload _ =>
      '(tag, argument_types, _) ← resolve_constructor cat source name;
      '(payload, info) ← bind_payload cat (bind_nested_pattern cat) argument_types payload;
      Ok (PConstructor name payload (Some tag), info)
  | PRecord _ _ | PTuple _ => Err "E_MATCH"
  end.

(** The arm loop: the matrix of the earlier arms and the budget are threaded. *)
Fixpoint bind_arms (cat : Catalog) (source_ty : ScalarType) (source : MatchSource) (patterns : list MatchPattern)
    (matrix : list (list CoveragePattern)) (budget : Z)
    : result (list (MatchPattern * Columns) * list (list CoveragePattern) * Z) :=
  match patterns with
  | [] => Ok ([], matrix, budget)
  | pattern :: patterns =>
      '(pattern, bindings) ← bind_top_pattern cat source_ty source (match patterns with [] => true | _ => false end) pattern;
      coverage ← coverage_pattern cat source_ty pattern;
      '(useful, budget) ← pattern_is_useful (coverage_fuel budget) cat matrix [coverage] [source_ty] budget;
      match useful with
      | None => Err "E_MATCH"
      | Some _ =>
          '(arms, matrix, budget) ← bind_arms cat source_ty source patterns (matrix ++ [[coverage]]) budget;
          Ok ((pattern, bindings) :: arms, matrix, budget)
      end
  end.

Definition bind_patterns (cat : Catalog) (source_ty : ScalarType) (patterns : list MatchPattern)
    : result (list (MatchPattern * Columns)) :=
  source ← match_source cat source_ty;
  '(arms, matrix, budget) ← bind_arms cat source_ty source patterns [] MAX_COVERAGE_STEPS;
  '(uncovered, budget) ← uncovered_patterns (coverage_fuel budget) cat matrix [source_ty] budget;
  match uncovered with
  | Some _ => _ ← missing_top_level_constructors cat source_ty matrix budget; Err "E_MATCH"
  | None => Ok arms
  end.

(** ** Evaluation of bound patterns *)

(** Thread the bindings through a conjunction of matches. *)
Section match_all.
Context (matches : Value → MatchPattern → list (string * Value) → option (list (string * Value))).

Definition match_all : list MatchPattern → list Value → list (string * Value) → option (list (string * Value)) :=
  fix go patterns values bindings := match patterns, values with
    | p :: patterns, v :: values => bindings ← matches v p bindings; go patterns values bindings
    | _, _ => Some bindings
    end.

Definition match_fields (record : list (string * Value))
    : list (string * MatchPattern) → list (string * Value) → option (list (string * Value)) :=
  fix go fields bindings := match fields with
    | [] => Some bindings
    | (f, p) :: fields => v ← bt_get f record; bindings ← matches v p bindings; go fields bindings
    end.

Definition match_payload (values : list Value) (payload : MatchPayload) (bindings : list (string * Value))
    : option (list (string * Value)) :=
  match payload with
  | PayUnit => match values with [] => Some bindings | _ => None end
  | PayRecord fields _ =>
      match values with
      | [v] => match unwrapped v with VRecord record => match_fields record fields bindings | _ => None end
      | _ => None
      end
  | PayPositional patterns =>
      if zlen patterns =? zlen values then match_all patterns values bindings else None
  end.
End match_all.

(** Returns the extended bindings, or [None] when the code returns [false]. *)
Fixpoint match_value_pattern (value : Value) (pattern : MatchPattern) (bindings : list (string * Value))
    : option (list (string * Value)) :=
  match pattern with
  | PWildcard => Some bindings
  | PBinding name => if bt_mem name bindings then None else Some (bt_insert name value bindings)
  | PConstructor _ payload tag =>
      match tag with
      | None => None
      | Some tag =>
          match tag, unwrapped value with
          | TagVariant expected, VEnum _ args id =>
              if expected =? id then match_payload match_value_pattern args payload bindings else None
          | TagNone, VOption None => match_payload match_value_pattern [] payload bindings
          | TagSome, VOption (Some v) => match_payload match_value_pattern [v] payload bindings
          | _, _ => None
          end
      end
  | PRecord fields _ =>
      match unwrapped value with
      | VRecord record => match_fields match_value_pattern record fields bindings
      | _ => None
      end
  | PTuple patterns =>
      match unwrapped value with
      | VTuple values => if zlen patterns =? zlen values then match_all match_value_pattern patterns values bindings else None
      | _ => None
      end
  end.

Definition match_bindings (value : Value) (pattern : MatchPattern) : option (list (string * Value)) :=
  match_value_pattern value pattern [].

(** The arm loop of [evaluate] and [evaluate_value_match]: the first arm that matches. *)
Fixpoint select_arm (value : Value) (arms : list MatchPattern) : option (nat * list (string * Value)) :=
  match arms with
  | [] => None
  | p :: arms =>
      match match_bindings value p with
      | Some bindings => Some (0%nat, bindings)
      | None => '(i, bindings) ← select_arm value arms; Some (S i, bindings)
      end
  end.

(** [str::split_once('.')]. *)
Fixpoint split_dot (s : string) : option (string * string) :=
  match s with
  | EmptyString => None
  | String c s =>
      if Ascii.eqb c "."%char then Some (EmptyString, s)
      else '(h, t) ← split_dot s; Some (String c h, t)
  end.

Definition binding_value (bindings : list (string * Value)) (path : string) : option Value :=
  let '(head, tail) := match split_dot path with Some ht => ht | None => (path, EmptyString) end in
  v ← bt_get head bindings;
  if String.eqb tail EmptyString then Some v else field v tail.

Definition row_field (row : list (string * Value)) (path : string) : option Value :=
  match bt_get path row with
  | Some v => Some v
  | None => '(head, tail) ← split_dot path; v ← bt_get head row; field v tail
  end.
