(* ===== verification/Coverage.v ===== *)
(** * Correctness of pattern matching

    The coverage analysis of Matching.v against the meaning of patterns: what
    [uncovered_patterns] and [pattern_is_useful] answer about a pattern matrix is
    true of every value of the matched types, and a match accepted by
    [bind_patterns] always selects an arm and binds values of the declared types. *)
From S2P Require Import Prelude Bytes Text BTree Model Coerce Matching.

(** ** Meaning of coverage patterns *)

(** A value is a canonical value of a type, at some nesting depth. *)
Definition inhabits (cat : Catalog) (ty : ScalarType) (v : Value) : Prop := ∃ fuel, conforms fuel cat ty v = true.

(** The arguments of a value built with a constructor. *)
Definition deconstruct (k : CoverageConstructor) (v : Value) : option (list Value) :=
  match k, unwrapped v with
  | CVariant id _, VEnum _ args i => if id =? i then Some args else None
  | CNone, VOption None => Some []
  | CSome, VOption (Some w) => Some [w]
  | CRecord names, VRecord m => mapM (λ n, bt_get n m) names
  | CTuple, VTuple vs => Some vs
  | _, _ => None
  end.

Fixpoint cmatch (p : CoveragePattern) (v : Value) : bool :=
  match p with
  | CWildcard => true
  | CConstructor k args =>
      match deconstruct k v with Some ws => all2 cmatch args ws | None => false end
  end.

(** A coverage pattern uses the constructors of its type at their arities. *)
Fixpoint cov_typed (cat : Catalog) (p : CoveragePattern) (ty : ScalarType) : bool :=
  match p with
  | CWildcard => true
  | CConstructor k args =>
      match constructor_specs cat ty with
      | Ok (Some specs) =>
          existsb (λ s, bool_decide (spec_constructor s = k) && all2 (cov_typed cat) args (spec_arguments s)) specs
      | _ => false
      end
  end.

Definition row_matches (row : list CoveragePattern) (vs : list Value) : bool := all2 cmatch row vs.
Definition matrix_matches (matrix : list (list CoveragePattern)) (vs : list Value) : bool :=
  existsb (λ row, row_matches row vs) matrix.
Definition row_typed (cat : Catalog) (types : list ScalarType) (row : list CoveragePattern) : bool :=
  all2 (cov_typed cat) row types.
Definition matrix_typed (cat : Catalog) (types : list ScalarType) (matrix : list (list CoveragePattern)) : bool :=
  forallb (row_typed cat types) matrix.

(** ** Lists *)

Lemma all2_length {A B} (f : A → B → bool) l k : all2 f l k = true → length l = length k.
Proof. intros H%all2_Forall2. by apply Forall2_length in H. Qed.

Lemma all2_app {A B} (f : A → B → bool) a b c d :
  length a = length c → all2 f (a ++ b) (c ++ d) = all2 f a c && all2 f b d.
Proof.
  revert c. induction a as [|x a IH]; intros [|y c] Hl; try done. simpl. rewrite IH by (by injection Hl). by rewrite andb_assoc.
Qed.

Lemma all2_wildcards n ws : length ws = n → all2 cmatch (replicate n CWildcard) ws = true.
Proof. intros <-. by induction ws. Qed.

Lemma forallb_wildcards row vs : forallb is_wildcard row = true → length row = length vs → row_matches row vs = true.
Proof.
  revert vs. induction row as [|p row IH]; intros [|v vs] Hw Hl; try done. simpl in Hw. bool_inv.
  destruct p; [|done]. apply IH; [done|]. by injection Hl.
Qed.

Lemma find_mapS_None {A B S} (f : A → S → result (option B * S)) l s s' :
  find_mapS f l s = Ok (None, s') → ∀ x, x ∈ l → ∃ s1 s2, f x s1 = Ok (None, s2).
Proof.
  revert s. induction l as [|y l IH]; intros s H x Hx; [by apply elem_of_nil in Hx|].
  cbn [find_mapS] in H. apply bind_Ok in H as ([o s1] & Hy & H). destruct o as [b|]; [done|].
  apply elem_of_cons in Hx as [->|Hx]; eauto.
Qed.

Lemma find_mapS_Some {A B S} (f : A → S → result (option B * S)) l s b s' :
  find_mapS f l s = Ok (Some b, s') → ∃ x s1 s2, x ∈ l ∧ f x s1 = Ok (Some b, s2).
Proof.
  revert s. induction l as [|y l IH]; intros s H; [done|].
  cbn [find_mapS] in H. apply bind_Ok in H as ([o s1] & Hy & H). destruct o as [b'|].
  - injection H as -> ->. exists y, s, s'. split; [by left|done].
  - destruct (IH _ H) as (x & t1 & t2 & Hx & Hf). exists x, t1, t2. split; [by right|done].
Qed.

Lemma all2_inhabits fuel cat tys vs : all2 (conforms fuel cat) tys vs = true → Forall2 (inhabits cat) tys vs.
Proof. intros H%all2_Forall2. induction H; constructor; [by exists fuel|done]. Qed.

Lemma elem_fst {A B} (l : list (A * B)) x y : (x, y) ∈ l → x ∈ l.*1.
Proof. intros H. apply (list_elem_of_fmap_2 fst) in H. exact H. Qed.

(** ** Values under their types *)

Lemma underlying_inhabits n cat ty u v :
  underlying_loop n cat ty = Ok u → inhabits cat ty v → inhabits cat u (unwrapped v).
Proof.
  revert ty v. induction n as [|n IH]; intros ty v Hu [fuel Hv]; [done|]. cbn [underlying_loop] in Hu.
  destruct fuel as [|fuel]; [done|].
  destruct ty; try (injection Hu as <-; exists (S fuel); cbn [conforms] in Hv |- *; by destruct v).
  apply bind_Ok in Hu as (d & Hd & Hu). cbn [conforms] in Hv. destruct v; try done. bool_inv. rewrite Hd in *. simpl.
  eapply IH; [done|]. by exists fuel.
Qed.

Lemma underlying_wf n cat ty u :
  wf_catalog cat = true → wf_type ty = true → underlying_loop n cat ty = Ok u → wf_type u = true.
Proof.
  intros Hcat. revert ty. induction n as [|n IH]; intros ty Ht Hu; [done|]. cbn [underlying_loop] in Hu.
  destruct ty; try (by injection Hu as <-). apply bind_Ok in Hu as (d & Hd & Hu).
  destruct (definition_wf _ _ _ Hcat Hd) as (? & _). eauto.
Qed.

(** Constructors of an enum type, in whatever order the analysis tries them. *)
Lemma constructor_specs_enum cat ty variants specs :
  underlying cat ty = Ok (TEnum variants) → constructor_specs cat ty = Ok (Some specs) → specs ≡ₚ variant_spec <$> variants.
Proof.
  unfold constructor_specs. intros -> H. cbn [mbind result_bind] in H. injection H as <-.
  destruct ty; try done. by rewrite sort_by_key_perm.
Qed.

Section specs.
Context (cat : Catalog) (Hcat : wf_catalog cat = true).
Context (ty : ScalarType) (Hty : wf_type ty = true).
Context (specs : list ConstructorSpec) (Hspecs : constructor_specs cat ty = Ok (Some specs)).

Lemma specs_wf s : s ∈ specs → Forall (λ t, wf_type t = true) (spec_arguments s).
Proof.
  intros Hs. unfold underlying in *. pose proof Hspecs as Hsp. unfold constructor_specs in Hsp.
  apply bind_Ok in Hsp as (u & Hu & Hsp). pose proof (underlying_wf _ _ _ _ Hcat Hty Hu) as Hw.
  destruct u; try discriminate Hsp.
  - rewrite (constructor_specs_enum cat ty variants) in Hs by done.
    apply list_elem_of_fmap in Hs as (v & -> & Hv). by destruct (wf_type_variant _ _ Hw Hv) as (_ & _ & _ & _ & ?).
  - injection Hsp as <-. apply list_elem_of_singleton in Hs as ->. simpl. apply list.Forall_forall. intros t (c & -> & Hc)%list_elem_of_fmap.
    by destruct (wf_type_column _ _ Hw Hc) as (_ & _ & ? & _).
  - injection Hsp as <-. apply list_elem_of_singleton in Hs as ->. by apply forallb_Forall.
  - injection Hsp as <-. apply elem_of_cons in Hs as [->|Hs%list_elem_of_singleton]; [constructor|]. subst s. simpl. by repeat constructor.
Qed.

(** Every value of the type is built with exactly one of its constructors. *)
Lemma specs_complete v :
  inhabits cat ty v → ∃ s ws, s ∈ specs ∧ deconstruct (spec_constructor s) v = Some ws ∧ Forall2 (inhabits cat) (spec_arguments s) ws.
Proof.
  intros Hv. pose proof Hspecs as Hsp. unfold constructor_specs in Hsp.
  apply bind_Ok in Hsp as (u & Hu & Hsp). destruct (underlying_inhabits _ _ _ _ _ Hu Hv) as [fuel Hc].
  pose proof (underlying_wf _ _ _ _ Hcat Hty Hu) as Hw. destruct fuel as [|fuel]; [done|]. cbn [conforms] in Hc.
  unfold deconstruct. destruct u; try discriminate Hsp; destruct (unwrapped v) as [| | | | | | | | | | |n args i|m|vs| | |[w|]|]; try discriminate Hc.
  - destruct (find_variant_id variants i) as [var|] eqn:Ev; [|done]. bool_inv.
    apply find_variant_id_Some in Ev as (Hin & <- & _). exists (variant_spec var), args. split_and!.
    + rewrite (constructor_specs_enum cat ty variants) by done. by apply list_elem_of_fmap_2.
    + simpl. by rewrite Z.eqb_refl.
    + by apply (all2_inhabits fuel).
  - injection Hsp as <-. bool_inv. eexists _, (omap (λ c, bt_get (col_name c) m) columns). split; [by left|]. simpl.
    match goal with H : forallb _ columns = true |- _ => rename H into Hall end. clear -Hall.
    induction columns as [|c columns IHc]; simpl in *; [done|]. bool_inv.
    destruct (bt_get (col_name c) m) as [w|]; [|done]. destruct (IHc ltac:(done)) as [IH1 IH2]. change (list_fmap (ColumnOf ScalarType) string col_name columns) with (col_name <$> columns). rewrite IH1.
    split; [done|]. constructor; [by exists fuel|done].
  - injection Hsp as <-. eexists _, vs. split_and!; [by left|done|]. by apply (all2_inhabits fuel).
  - injection Hsp as <-. exists (mkSpec CSome [u]), [w]. split_and!; [right; by left|done|]. simpl. constructor; [by exists fuel|constructor].
  - injection Hsp as <-. exists (mkSpec CNone []), []. split_and!; [by left|done|constructor].
Qed.

Lemma specs_disjoint s s' v ws ws' :
  s ∈ specs → s' ∈ specs → deconstruct (spec_constructor s) v = Some ws → deconstruct (spec_constructor s') v = Some ws' → s = s'.
Proof.
  intros Hs Hs'. pose proof Hspecs as Hsp. unfold constructor_specs in Hsp.
  apply bind_Ok in Hsp as (u & Hu & Hsp). pose proof (underlying_wf _ _ _ _ Hcat Hty Hu) as Hw.
  destruct u; try discriminate Hsp.
  - rewrite (constructor_specs_enum cat ty variants) in Hs, Hs' by done.
    apply list_elem_of_fmap in Hs as (x & -> & Hx), Hs' as (y & -> & Hy). unfold deconstruct. simpl.
    destruct (unwrapped v); try done. intros H1 H2. case_if_in H1; [|done]. case_if_in H2; [|done]. bool_inv.
    f_equal. eapply NoDup_fmap_key; [by apply wf_type_nodup_variants|done|done|congruence].
  - injection Hsp as <-. by apply list_elem_of_singleton in Hs as ->, Hs' as ->.
  - injection Hsp as <-. by apply list_elem_of_singleton in Hs as ->, Hs' as ->.
  - injection Hsp as <-. apply elem_of_cons in Hs as [->|Hs%list_elem_of_singleton], Hs' as [->|Hs'%list_elem_of_singleton]; subst; try done;
      unfold deconstruct; simpl; destruct (unwrapped v) as [| | | | | | | | | | | | | | | |[w|]|]; done.
Qed.

Lemma specs_unique s s' : s ∈ specs → s' ∈ specs → spec_constructor s' = spec_constructor s → s' = s.
Proof.
  intros Hs Hs' E. pose proof Hspecs as Hsp. unfold constructor_specs in Hsp.
  apply bind_Ok in Hsp as (u & Hu & Hsp). pose proof (underlying_wf _ _ _ _ Hcat Hty Hu) as Hw.
  destruct u; try discriminate Hsp.
  - rewrite (constructor_specs_enum cat ty variants) in Hs, Hs' by done.
    apply list_elem_of_fmap in Hs as (x & -> & Hx), Hs' as (y & -> & Hy). injection E as Hid _.
    f_equal. by eapply NoDup_fmap_key; [apply wf_type_nodup_variants|..].
  - injection Hsp as <-. by apply list_elem_of_singleton in Hs as ->, Hs' as ->.
  - injection Hsp as <-. by apply list_elem_of_singleton in Hs as ->, Hs' as ->.
  - injection Hsp as <-. by apply elem_of_cons in Hs as [->|Hs%list_elem_of_singleton], Hs' as [->|Hs'%list_elem_of_singleton]; subst.
Qed.

Lemma specs_arguments s v ws :
  s ∈ specs → inhabits cat ty v → deconstruct (spec_constructor s) v = Some ws → Forall2 (inhabits cat) (spec_arguments s) ws.
Proof.
  intros Hs Hv Hd. destruct (specs_complete v Hv) as (s' & ws' & Hs' & Hd' & Hf).
  assert (s' = s) as -> by (by eapply specs_disjoint). congruence.
Qed.

(** Specialising a row to a constructor keeps its meaning on the values built with it. *)
Lemma specialize_row_spec s tys row v vs ws :
  s ∈ specs → inhabits cat ty v → deconstruct (spec_constructor s) v = Some ws → row_typed cat (ty :: tys) row = true →
  row_matches row (v :: vs) =
    match specialize_row (spec_constructor s) (length (spec_arguments s)) row with
    | Some row' => row_matches row' (ws ++ vs)
    | None => false
    end.
Proof.
  intros Hs Hv Hd Ht. pose proof (specs_arguments _ _ _ Hs Hv Hd) as Hargs. apply Forall2_length in Hargs as Hlen.
  destruct row as [|[|k args] row]; [done| |]; unfold row_matches, row_typed in *; cbn [specialize_row all2] in *.
  - rewrite all2_app by (by rewrite length_replicate). by rewrite all2_wildcards.
  - cbn [cov_typed] in Ht. rewrite Hspecs in Ht. bool_inv. apply existsb_exists in H as (s' & Hs'%list_elem_of_In & Hk). bool_inv. subst k.
    cbn [cmatch]. destruct (decide (spec_constructor s' = spec_constructor s)) as [E|E].
    + rewrite bool_decide_true by done. rewrite E, Hd.
      assert (s' = s) as -> by (eapply specs_disjoint; [done|done|by rewrite E|done]).
      rewrite all2_app; [done|]. by rewrite (all2_length _ _ _ H1).
    + rewrite bool_decide_false by done. destruct (deconstruct (spec_constructor s') v) as [ws'|] eqn:E'; [|done].
      destruct E. f_equal. by eapply specs_disjoint.
Qed.

Lemma specialize_row_typed s tys row row' :
  s ∈ specs → row_typed cat (ty :: tys) row = true →
  specialize_row (spec_constructor s) (length (spec_arguments s)) row = Some row' →
  row_typed cat (spec_arguments s ++ tys) row' = true.
Proof.
  intros Hs Ht Hr. destruct row as [|[|k args] row]; [done| |]; unfold row_typed in *; cbn [specialize_row all2] in *.
  - injection Hr as <-. rewrite all2_app by (by rewrite length_replicate). simpl in Ht. rewrite Ht, andb_true_r.
    clear. induction (spec_arguments s); [done|]. done.
  - case_bool_decide as E; [|done]. injection Hr as <-. cbn [cov_typed] in Ht. rewrite Hspecs in Ht. bool_inv.
    apply existsb_exists in H as (s' & Hs'%list_elem_of_In & Hk). bool_inv. subst k.
    assert (s' = s) as -> by (by apply specs_unique). rewrite all2_app by (by apply all2_length in H1). by rewrite H1, H0.
Qed.
End specs.

Lemma specialize_matrix_matches cat ty specs s tys matrix v vs ws :
  wf_catalog cat = true → wf_type ty = true → constructor_specs cat ty = Ok (Some specs) → s ∈ specs →
  inhabits cat ty v → deconstruct (spec_constructor s) v = Some ws → matrix_typed cat (ty :: tys) matrix = true →
  matrix_matches (specialize_matrix matrix (spec_constructor s) (length (spec_arguments s))) (ws ++ vs) =
  matrix_matches matrix (v :: vs).
Proof.
  intros Hcat Hty Hsp Hs Hv Hd. induction matrix as [|row matrix IH]; [done|]. unfold matrix_typed, matrix_matches, specialize_matrix in *.
  cbn [forallb existsb omap list_omap]. intros Ht. bool_inv.
  rewrite (specialize_row_spec cat Hcat ty Hty specs Hsp s tys row v vs ws) by done.
  destruct (specialize_row _ _ row) as [row'|]; [simpl; by rewrite IH|by rewrite IH].
Qed.

Lemma specialize_matrix_typed cat ty specs s tys matrix :
  wf_catalog cat = true → wf_type ty = true → constructor_specs cat ty = Ok (Some specs) → s ∈ specs →
  matrix_typed cat (ty :: tys) matrix = true →
  matrix_typed cat (spec_arguments s ++ tys) (specialize_matrix matrix (spec_constructor s) (length (spec_arguments s))) = true.
Proof.
  intros Hcat Hty Hsp Hs. unfold matrix_typed, specialize_matrix. rewrite !forallb_Forall, !list.Forall_forall.
  intros Ht row' (row & Hin & Hr)%list_elem_of_omap. eapply specialize_row_typed; eauto.
Qed.

(** A type without constructors admits only wildcards. *)
Lemma default_matrix_spec cat ty tys matrix v vs :
  constructor_specs cat ty = Ok None → matrix_typed cat (ty :: tys) matrix = true →
  matrix_typed cat tys (default_matrix matrix) = true ∧
  matrix_matches (default_matrix matrix) vs = matrix_matches matrix (v :: vs).
Proof.
  intros Hsp. unfold matrix_typed, matrix_matches, default_matrix.
  induction matrix as [|row matrix IH]; [done|]. cbn [forallb existsb omap list_omap]. intros Ht. bool_inv.
  destruct (IH ltac:(done)) as [IH1 IH2].
  destruct row as [|[|k args] row]; unfold row_typed, row_matches in *; cbn [all2 cov_typed] in *; try done.
  - simpl in *. by rewrite H, IH1, IH2.
  - by rewrite Hsp in H.
Qed.

(** ** The analysis *)

Lemma has_wildcard_row_matches matrix n vs :
  has_wildcard_row matrix n = true → zlen vs = n → matrix_matches matrix vs = true.
Proof.
  unfold has_wildcard_row, matrix_matches. rewrite !existsb_exists. intros (row & Hin & H) <-. bool_inv.
  exists row. split; [done|]. apply forallb_wildcards; [done|]. unfold zlen in *. lia.
Qed.

(** The cases of an empty type vector. *)
Lemma matrix_typed_nil cat matrix : matrix_typed cat [] matrix = true → matrix ≠ [] → matrix_matches matrix [] = true.
Proof. destruct matrix as [|row matrix]; [done|]. simpl. intros Ht _. bool_inv. by destruct row. Qed.

Lemma inhabits_all_length cat tys vs : Forall2 (inhabits cat) tys vs → zlen vs = zlen tys.
Proof. intros H. unfold zlen. by rewrite (Forall2_length H). Qed.

Lemma row_split cat s tys w vs1 vs2 :
  Forall2 (inhabits cat) (spec_arguments s) vs1 → row_typed cat (spec_arguments s ++ tys) w = true →
  all2 cmatch (take (length (spec_arguments s)) w) vs1 && all2 cmatch (drop (length (spec_arguments s)) w) vs2 =
  row_matches w (vs1 ++ vs2).
Proof.
  intros Hv Ht. apply all2_length in Ht. rewrite length_app in Ht. unfold row_matches.
  rewrite <-(take_drop (length (spec_arguments s)) w) at 3. rewrite all2_app; [done|].
  rewrite length_take, <-(Forall2_length Hv). lia.
Qed.

Lemma uncovered_sound fuel cat matrix types budget o budget' :
  wf_catalog cat = true → Forall (λ t, wf_type t = true) types → matrix_typed cat types matrix = true →
  uncovered_patterns fuel cat matrix types budget = Ok (o, budget') →
  match o with
  | None => ∀ vs, Forall2 (inhabits cat) types vs → matrix_matches matrix vs = true
  | Some w => row_typed cat types w = true ∧
      ∀ vs, Forall2 (inhabits cat) types vs → row_matches w vs = true → matrix_matches matrix vs = false
  end.
Proof.
  intros Hcat. revert matrix types budget o budget'.
  induction fuel as [|fuel IH]; intros matrix types budget o budget' Ht Hm H; [done|].
  cbn [uncovered_patterns] in H. apply bind_Ok in H as (b & _ & H). case_if_in H.
  { injection H as <- <-. intros vs Hv. eapply has_wildcard_row_matches; [done|]. by eapply inhabits_all_length. }
  destruct types as [|ty tys].
  { injection H as <- <-. destruct matrix as [|row matrix]; [done|]. intros vs Hv. apply Forall2_nil_inv_l in Hv as ->.
    by eapply matrix_typed_nil. }
  apply list.Forall_cons in Ht as [Hty Htys]. apply bind_Ok in H as (specs & Hsp & H). destruct specs as [specs|].
  - destruct o as [w|].
    + apply find_mapS_Some in H as (s & b1 & b2 & Hs & H). apply bind_Ok in H as ([o b3] & Hu & H).
      destruct o as [w'|]; [|done]. cbn [option_map] in H. injection H as <- <-.
      assert (Hsa := specs_wf cat Hcat ty Hty specs Hsp s Hs).
      apply IH in Hu as [Hw' Hu]; [|by apply Forall_app|by eapply specialize_matrix_typed].
      pose proof (all2_length _ _ _ Hw') as Hl. rewrite length_app in Hl. split.
      * unfold row_typed in *. cbn [all2 cov_typed]. rewrite Hsp. apply andb_true_iff.
        rewrite <-(take_drop (length (spec_arguments s)) w'), all2_app in Hw' by (rewrite length_take; lia). bool_inv.
        split; [|done]. apply existsb_exists. exists s. rewrite <-list_elem_of_In. split; [done|].
        by rewrite bool_decide_true.
      * intros vs Hv Hr. destruct vs as [|v vs]; [by inversion Hv|]. apply list.Forall2_cons in Hv as [Hv Hvs].
        unfold row_matches in Hr. cbn [all2 cmatch] in Hr. destruct (deconstruct _ v) as [ws|] eqn:Ed; [|done].
        pose proof (specs_arguments cat Hcat ty Hty specs Hsp s v ws Hs Hv Ed) as Hws.
        rewrite <-(specialize_matrix_matches cat ty specs s tys matrix v vs ws) by done.
        apply Hu; [by apply Forall2_app|]. by rewrite (row_split cat s tys) in Hr.
    + intros vs Hv. destruct vs as [|v vs]; [by inversion Hv|]. apply list.Forall2_cons in Hv as [Hv Hvs].
      destruct (specs_complete cat Hcat ty Hty specs Hsp v Hv) as (s & ws & Hs & Hd & Hws).
      rewrite <-(specialize_matrix_matches cat ty specs s tys matrix v vs ws) by done.
      apply (find_mapS_None _ _ _ _ H) in Hs as Hu. destruct Hu as (b1 & b2 & Hu).
      apply bind_Ok in Hu as ([o b3] & Hu & E2). destruct o; [done|].
      apply (IH _ _ _ _ _) in Hu; [|apply Forall_app; split; [by eapply specs_wf|done]|by eapply specialize_matrix_typed].
      apply Hu. by apply Forall2_app.
  - apply bind_Ok in H as ([o' b1] & Hu & H). injection H as <- <-.
    assert (Hdef : ∀ v vs, matrix_typed cat tys (default_matrix matrix) = true ∧
      matrix_matches (default_matrix matrix) vs = matrix_matches matrix (v :: vs)) by (intros; by eapply default_matrix_spec).
    apply IH in Hu; [|done|by apply (Hdef VNull [])]. destruct o' as [w|]; simpl.
    + destruct Hu as [Hw Hu]. split; [done|]. intros [|v vs] Hv Hr; [by inversion Hv|]. apply list.Forall2_cons in Hv as [Hv Hvs].
      rewrite <-(proj2 (Hdef v vs)). by apply Hu.
    + intros [|v vs] Hv; [by inversion Hv|]. apply list.Forall2_cons in Hv as [Hv Hvs]. rewrite <-(proj2 (Hdef v vs)). by apply Hu.
Qed.

Lemma useful_sound fuel cat matrix query types budget budget' :
  wf_catalog cat = true → Forall (λ t, wf_type t = true) types → matrix_typed cat types matrix = true →
  row_typed cat types query = true → pattern_is_useful fuel cat matrix query types budget = Ok (None, budget') →
  ∀ vs, Forall2 (inhabits cat) types vs → row_matches query vs = true → matrix_matches matrix vs = true.
Proof.
  intros Hcat. revert matrix query types budget budget'.
  induction fuel as [|fuel IH]; intros matrix query types budget budget' Ht Hm Hq H vs Hv Hr; [done|].
  cbn [pattern_is_useful] in H. apply bind_Ok in H as (b & _ & H). case_if_in H.
  { eapply has_wildcard_row_matches; [done|]. unfold zlen. by rewrite (all2_length _ _ _ Hr). }
  destruct query as [|head query].
  { destruct matrix as [|row matrix]; [done|]. apply all2_length in Hr. destruct vs; [|done]. apply Forall2_nil_inv_r in Hv as ->.
    by eapply matrix_typed_nil. }
  destruct types as [|ty tys]; [done|]. destruct vs as [|v vs]; [by inversion Hv|].
  apply list.Forall_cons in Ht as [Hty Htys]. apply list.Forall2_cons in Hv as [Hv Hvs].
  unfold row_typed, row_matches in Hq, Hr. cbn [all2] in Hq, Hr. bool_inv. destruct head as [|k args].
  - apply bind_Ok in H as (specs & Hsp & H). destruct specs as [specs|].
    + destruct (specs_complete cat Hcat ty Hty specs Hsp v Hv) as (s & ws & Hs & Hd & Hws).
      rewrite <-(specialize_matrix_matches cat ty specs s tys matrix v vs ws) by done.
      apply (find_mapS_None _ _ _ _ H) in Hs as Hu. destruct Hu as (b1 & b2 & Hu).
      eapply (IH _ _ _ _ _) in Hu; [exact Hu|apply Forall_app; split; [by eapply specs_wf|done]|by eapply specialize_matrix_typed| | |].
      * unfold row_typed. rewrite all2_app by (by rewrite length_replicate). apply andb_true_iff. split; [|done].
        clear. induction (spec_arguments s); done.
      * by apply Forall2_app.
      * unfold row_matches. rewrite all2_app by (by rewrite length_replicate, (Forall2_length Hws)). apply andb_true_iff.
        split; [|done]. apply all2_wildcards. by rewrite (Forall2_length Hws).
    + destruct (default_matrix_spec cat ty tys matrix v vs) as [Hd <-]; [done..|]. by eapply (IH _ query tys).
  - apply bind_Ok in H as (specs & Hsp & H). apply bind_Ok in H as (s & Hs%ok_or_Ok & H).
    destruct specs as [specs|]; [|done]. simpl in Hs. apply find_Some_elem in Hs as [Hs Hk]. bool_inv. subst k.
    cbn [cmatch] in *. destruct (deconstruct _ v) as [ws|] eqn:Ed; [|done].
    pose proof (specs_arguments cat Hcat ty Hty specs Hsp s v ws Hs Hv Ed) as Hws.
    rewrite <-(specialize_matrix_matches cat ty specs s tys matrix v vs ws) by done.
    match goal with Hc : cov_typed _ _ _ = true |- _ => cbn [cov_typed] in Hc; rewrite Hsp in Hc;
      apply existsb_exists in Hc as (s' & Hs'%list_elem_of_In & Hk') end. bool_inv.
    assert (s' = s) as -> by (by eapply specs_unique).
    eapply (IH _ _ _ _ _) in H; [exact H|apply Forall_app; split; [by eapply specs_wf|done]|by eapply specialize_matrix_typed| | |].
    + unfold row_typed. rewrite all2_app by (by eapply all2_length). by apply andb_true_iff.
    + by apply Forall2_app.
    + unfold row_matches. rewrite all2_app by (by eapply all2_length). by apply andb_true_iff.
Qed.

(** ** Termination: the budget bounds the recursion *)

Lemma find_mapS_budget {A B} (f : A → Z → result (option B * Z)) l b o b' :
  (∀ x b o b', 0 ≤ b → f x b = Ok (o, b') → 0 ≤ b' ≤ b) → 0 ≤ b → find_mapS f l b = Ok (o, b') → 0 ≤ b' ≤ b.
Proof.
  intros Hf. revert b. induction l as [|x l IH]; intros b Hb H; cbn [find_mapS] in H; [injection H as _ <-; lia|].
  apply bind_Ok in H as ([o1 b1] & Hx & H). apply Hf in Hx; [|done]. destruct o1; [injection H as _ <-; lia|].
  apply IH in H; lia.
Qed.

Lemma find_mapS_ext {A B} (f g : A → Z → result (option B * Z)) l b :
  (∀ x b1 o b', 0 ≤ b1 → f x b1 = Ok (o, b') → 0 ≤ b' ≤ b1) → 0 ≤ b → (∀ x b1, 0 ≤ b1 ≤ b → f x b1 = g x b1) →
  find_mapS f l b = find_mapS g l b.
Proof.
  intros Hf. revert b. induction l as [|x l IH]; intros b Hb Hg; cbn [find_mapS]; [done|].
  rewrite <-Hg by lia. destruct (f x b) as [[o1 b1]|] eqn:Hx; [|done]. apply Hf in Hx; [|done].
  cbn [mbind result_bind]. destruct o1; [done|]. apply IH; [lia|]. intros y b2 Hb2. apply Hg. lia.
Qed.

Lemma budget_step_Ok b b' : budget_step b = Ok b' → b ≠ 0 ∧ b' = b - 1.
Proof. unfold budget_step. intros H. case_if_in H; [done|]. injection H as <-. by bool_inv. Qed.

Lemma useful_budget fuel cat matrix query types b o b' :
  0 ≤ b → pattern_is_useful fuel cat matrix query types b = Ok (o, b') → 0 ≤ b' ≤ b.
Proof.
  revert matrix query types b o b'. induction fuel as [|fuel IH]; intros matrix query types b o b' Hb H; [done|].
  cbn [pattern_is_useful] in H. apply bind_Ok in H as (b1 & [Hb0 ->]%budget_step_Ok & H).
  case_if_in H; [injection H as _ <-; lia|]. destruct query as [|head query]; [injection H as _ <-; lia|].
  destruct types as [|ty tys]; [done|]. destruct head as [|k args]; apply bind_Ok in H as (specs & _ & H).
  - destruct specs as [specs|].
    + apply find_mapS_budget in H; [lia| |lia]. intros c b2 o2 b3 Hb2 Hc. by eapply IH.
    + apply IH in H; lia.
  - apply bind_Ok in H as (s & _ & H). apply IH in H; lia.
Qed.

Lemma uncovered_budget fuel cat matrix types b o b' :
  0 ≤ b → uncovered_patterns fuel cat matrix types b = Ok (o, b') → 0 ≤ b' ≤ b.
Proof.
  revert matrix types b o b'. induction fuel as [|fuel IH]; intros matrix types b o b' Hb H; [done|].
  cbn [uncovered_patterns] in H. apply bind_Ok in H as (b1 & [Hb0 ->]%budget_step_Ok & H).
  case_if_in H; [injection H as _ <-; lia|]. destruct types as [|ty tys]; [injection H as _ <-; lia|].
  apply bind_Ok in H as (specs & _ & H). destruct specs as [specs|].
  - apply find_mapS_budget in H; [lia| |lia]. intros c b2 o2 b3 Hb2 Hc.
    apply bind_Ok in Hc as ([o3 b4] & Hc & E2). injection E2 as _ <-. by eapply IH.
  - apply bind_Ok in H as ([o3 b4] & H & E2). injection E2 as _ <-. apply IH in H; lia.
Qed.

Lemma useful_fuel fuel fuel' cat matrix query types b :
  0 ≤ b < Z.of_nat fuel → b < Z.of_nat fuel' →
  pattern_is_useful fuel cat matrix query types b = pattern_is_useful fuel' cat matrix query types b.
Proof.
  revert fuel' matrix query types b. induction fuel as [|fuel IH]; intros fuel' matrix query types b Hb Hb'; [lia|].
  destruct fuel' as [|fuel']; [lia|]. cbn [pattern_is_useful].
  destruct (budget_step b) as [b1|] eqn:Hs; [|done]. apply budget_step_Ok in Hs as [Hb0 ->]. cbn [mbind result_bind].
  destruct (has_wildcard_row _ _); [done|]. destruct query as [|head query]; [done|]. destruct types as [|ty tys]; [done|].
  destruct head as [|k args]; (destruct (constructor_specs cat ty) as [specs|]; [|done]); cbn [mbind result_bind].
  - destruct specs as [specs|]; [|apply IH; lia]. apply find_mapS_ext; [|lia|intros; apply IH; lia].
    intros x b1 o b' Hb1 Hx. by eapply useful_budget.
  - destruct (ok_or _ _) as [s|]; [|done]. cbn [mbind result_bind]. apply IH; lia.
Qed.

Lemma uncovered_fuel fuel fuel' cat matrix types b :
  0 ≤ b < Z.of_nat fuel → b < Z.of_nat fuel' →
  uncovered_patterns fuel cat matrix types b = uncovered_patterns fuel' cat matrix types b.
Proof.
  revert fuel' matrix types b. induction fuel as [|fuel IH]; intros fuel' matrix types b Hb Hb'; [lia|].
  destruct fuel' as [|fuel']; [lia|]. cbn [uncovered_patterns].
  destruct (budget_step b) as [b1|] eqn:Hs; [|done]. apply budget_step_Ok in Hs as [Hb0 ->]. cbn [mbind result_bind].
  destruct (has_wildcard_row _ _); [done|]. destruct types as [|ty tys]; [done|].
  destruct (constructor_specs cat ty) as [[specs|]|]; [| |done]; cbn [mbind result_bind].
  - apply find_mapS_ext; [|lia|].
    + intros x b1 o b' Hb1 Hx. apply bind_Ok in Hx as ([o3 b4] & Hx & E2). injection E2 as _ <-. by eapply uncovered_budget.
    + intros x b1 Hb1. by rewrite (IH fuel') by lia.
  - by rewrite (IH fuel') by lia.
Qed.

(** ** Evaluation agrees with coverage *)

(** Induction over patterns and the patterns inside them. *)
Definition payload_all (P : MatchPattern → Prop) (payload : MatchPayload) : Prop :=
  match payload with
  | PayUnit => True
  | PayRecord fields _ => Forall (λ e, P e.2) fields
  | PayPositional patterns => Forall P patterns
  end.

Lemma MatchPattern_nested_ind (P : MatchPattern → Prop) :
  P PWildcard → (∀ name, P (PBinding name)) →
  (∀ name payload tag, payload_all P payload → P (PConstructor name payload tag)) →
  (∀ fields rest, Forall (λ e, P e.2) fields → P (PRecord fields rest)) →
  (∀ patterns, Forall P patterns → P (PTuple patterns)) → ∀ p, P p.
Proof.
  intros Hw Hb Hc Hr Ht. fix IH 1. intros [|name|name payload tag|fields rest|patterns]; [exact Hw|apply Hb| | |].
  - apply Hc. destruct payload as [|fields rest|patterns]; simpl; [done| |].
    + induction fields as [|[f p] fields IHf]; constructor; [apply IH|done].
    + induction patterns as [|p patterns IHp]; constructor; [apply IH|done].
  - apply Hr. induction fields as [|[f p] fields IHf]; constructor; [apply IH|done].
  - apply Ht. induction patterns as [|p patterns IHp]; constructor; [apply IH|done].
Qed.

Section eval.
Context (cat : Catalog) (Hcat : wf_catalog cat = true).

(** A matcher succeeds exactly when [hit], extends the bindings by the declared
    names only, and binds values of the declared types. *)
Definition matches_as (m : list (string * Value) → option (list (string * Value))) (hit : bool) (bs : Columns) : Prop :=
  ∀ b, (∀ c, c ∈ bs → bt_get (col_name c) b = None) →
    match m b with
    | Some b' => hit = true ∧ (∀ k, k ∉ col_name <$> bs → bt_get k b' = bt_get k b) ∧
        (∀ c, c ∈ bs → ∃ w, bt_get (col_name c) b' = Some w ∧ inhabits cat (col_ty c) w)
    | None => hit = false
    end.

Lemma matches_as_nil : matches_as Some true [].
Proof. intros b _. split_and!; try done. intros c Hc. by apply elem_of_nil in Hc. Qed.

Lemma matches_as_ext m m' h bs : (∀ b, m' b = m b) → matches_as m h bs → matches_as m' h bs.
Proof. intros E H b. rewrite E. apply H. Qed.

(** Conjunction of two matchers with disjoint bindings. *)
Lemma matches_as_seq m1 h1 bs1 m2 h2 bs2 :
  NoDup (col_name <$> bs1 ++ bs2) → matches_as m1 h1 bs1 → matches_as m2 h2 bs2 →
  matches_as (λ b, m1 b ≫= m2) (h1 && h2) (bs1 ++ bs2).
Proof.
  intros Hn H1 H2 b Hb. rewrite fmap_app, list.NoDup_app in Hn. destruct Hn as (_ & Hdis & _).
  specialize (H1 b). destruct (m1 b) as [b1|]; simpl.
  2:{ rewrite H1; [done|]. intros c Hc. apply Hb. apply elem_of_app. by left. }
  destruct H1 as (-> & Hk1 & Hc1); [intros c Hc; apply Hb, elem_of_app; by left|].
  assert (Hd : ∀ c, c ∈ bs2 → col_name c ∉ col_name <$> bs1).
  { intros c Hc Hin. by apply (Hdis _ Hin), list_elem_of_fmap_2. }
  specialize (H2 b1). destruct (m2 b1) as [b2|].
  2:{ rewrite H2; [done|]. intros c Hc. rewrite Hk1 by auto. apply Hb, elem_of_app. by right. }
  destruct H2 as (-> & Hk2 & Hc2); [intros c Hc; rewrite Hk1 by auto; apply Hb, elem_of_app; by right|].
  split_and!; [done| |].
  - intros k Hk. rewrite fmap_app, elem_of_app in Hk. rewrite Hk2, Hk1 by naive_solver. done.
  - intros c [Hc|Hc]%elem_of_app; [|auto]. destruct (Hc1 c Hc) as (w & Hw & Hi). exists w. split; [|done].
    rewrite Hk2; [done|]. intros Hin. apply list_elem_of_fmap in Hin as (c' & E & Hc'). apply (Hd c' Hc').
    rewrite <-E. by apply list_elem_of_fmap_2.
Qed.

Lemma combine_bindings_NoDup seen bs : combine_bindings seen bs = Ok tt → NoDup (col_name <$> bs) ∧ ∀ c, c ∈ bs → bs_mem (col_name c) seen = false.
Proof.
  revert seen. induction bs as [|c bs IH]; intros seen H; cbn [combine_bindings] in H.
  { split; [constructor|]. intros c Hc. by apply elem_of_nil in Hc. }
  case_if_in H; [done|]. apply IH in H as [Hn Hs]. split.
  - constructor; [|done]. intros (c' & E' & Hc')%list_elem_of_fmap. specialize (Hs c' Hc').
    apply not_true_iff_false in Hs. apply Hs, bs_mem_insert. by left.
  - intros c' [->|Hc']%elem_of_cons; [done|]. specialize (Hs c' Hc'). apply not_true_iff_false. intros Hm.
    apply not_true_iff_false in Hs. apply Hs, bs_mem_insert. by right.
Qed.

Lemma combine_patterns_Ok infos info :
  combine_patterns infos = Ok info → info = concat infos ∧ NoDup (col_name <$> info).
Proof.
  unfold combine_patterns. intros H. apply bind_Ok in H as ([] & Hc & H). injection H as <-.
  split; [done|]. by destruct (combine_bindings_NoDup _ _ Hc).
Qed.

(** What binding and coverage of one pattern establish. *)
Definition pattern_ok (ty : ScalarType) (p : MatchPattern) (bs : Columns) (c : CoveragePattern) : Prop :=
  cov_typed cat c ty = true ∧ ∀ v, inhabits cat ty v → matches_as (match_value_pattern v p) (cmatch c v) bs.

Definition binds_well (p : MatchPattern) : Prop :=
  ∀ ty p' bs c, wf_type ty = true → bind_nested_pattern cat ty p = Ok (p', bs) → coverage_pattern cat ty p' = Ok c →
  pattern_ok ty p' bs c.

Lemma bind_all_ok patterns tys ps infos cs :
  Forall binds_well patterns → Forall (λ t, wf_type t = true) tys → zlen patterns = zlen tys →
  bind_all (bind_nested_pattern cat) patterns tys = Ok (ps, infos) → cover_all (coverage_pattern cat) ps tys = Ok cs →
  NoDup (col_name <$> concat infos) →
  zlen ps = zlen tys ∧ all2 (cov_typed cat) cs tys = true ∧
  ∀ vs, Forall2 (inhabits cat) tys vs → matches_as (match_all match_value_pattern ps vs) (all2 cmatch cs vs) (concat infos).
Proof.
  intros Hp. revert tys ps infos cs. induction Hp as [|p patterns Hp _ IH]; intros [|ty tys] ps infos cs Ht Hl Hb Hc Hn;
    unfold zlen in Hl; simpl in Hl; try lia.
  - injection Hb as <- <-. injection Hc as <-. split_and!; try done. intros vs Hv. apply Forall2_nil_inv_l in Hv as ->. apply matches_as_nil.
  - cbn [bind_all] in Hb. apply bind_Ok in Hb as ([p' info] & Hp' & Hb). apply bind_Ok in Hb as ([ps' infos'] & Hb & E). injection E as <- <-.
    cbn [cover_all] in Hc. apply bind_Ok in Hc as (c & Hcp & Hc). apply bind_Ok in Hc as (cs' & Hcs & E). injection E as <-.
    apply list.Forall_cons in Ht as [Hty Htys]. destruct (Hp _ _ _ _ Hty Hp' Hcp) as [Hct Hm].
    cbn [concat] in Hn. pose proof Hn as Hn'. rewrite fmap_app, list.NoDup_app in Hn'. destruct Hn' as (_ & _ & Hn2).
    destruct (IH tys ps' infos' cs' Htys) as (Hl' & Hct' & Hm'); [unfold zlen; lia|done..|].
    split_and!; [rewrite !zlen_cons; lia|simpl; by rewrite Hct|]. intros vs Hv. destruct vs as [|v vs]; [by inversion Hv|].
    apply list.Forall2_cons in Hv as [Hv Hvs]. cbn [match_all all2 concat]. apply matches_as_seq; auto.
Qed.

(** The fields of a record pattern: each is bound against its own definition. *)
Lemma bind_fields_ok definitions fields seen fs infos seen' :
  Forall (λ e, binds_well e.2) fields → wf_type (TRecord definitions) = true →
  bind_fields (bind_nested_pattern cat) definitions seen fields = Ok (fs, infos, seen') →
  NoDup (col_name <$> concat infos) →
  (∀ f p, (f, p) ∈ fs → ∃ d, find_column definitions f = Some d ∧ ∃ c, coverage_pattern cat (col_ty d) p = Ok c) →
  NoDup fs.*1 ∧ (∀ f, f ∈ fs.*1 → bs_mem f seen = false) ∧
  (∀ f p d c, (f, p) ∈ fs → find_column definitions f = Some d → coverage_pattern cat (col_ty d) p = Ok c → cov_typed cat c (col_ty d) = true) ∧
  ∀ record, (∀ d, d ∈ definitions → ∃ v, bt_get (col_name d) record = Some v ∧ inhabits cat (col_ty d) v) →
    matches_as (match_fields match_value_pattern record fs)
      (forallb (λ e, match find_column definitions e.1, bt_get e.1 record with
                     | Some d, Some v => match coverage_pattern cat (col_ty d) e.2 with Ok c => cmatch c v | Err _ => false end
                     | _, _ => false end) fs) (concat infos).
Proof.
  intros Hp Ht. revert seen fs infos seen'. induction Hp as [|[f p] fields Hp _ IH]; intros seen fs infos seen' Hb Hn Hcov; cbn [bind_fields] in Hb.
  { injection Hb as <- <- <-. split; [constructor|]. split; [intros f Hf; by apply elem_of_nil in Hf|].
    split; [intros f p d c Hf; by apply elem_of_nil in Hf|]. intros record _. apply matches_as_nil. }
  case_if_in Hb; [done|]. apply bind_Ok in Hb as (d & Hd%ok_or_Ok & Hb). apply bind_Ok in Hb as ([p' info] & Hp' & Hb).
  apply bind_Ok in Hb as ([[fs' infos'] seen1] & Hb & E2). injection E2 as <- <- <-.
  cbn [concat] in Hn. pose proof Hn as Hn'. rewrite fmap_app, list.NoDup_app in Hn'. destruct Hn' as (_ & _ & Hn2).
  apply IH in Hb as (Hnd & Hseen & Htyped & Hm); [|done|intros f' p0 Hin; apply Hcov; by right].
  destruct (Hcov f p') as (d' & Hd' & c & Hc); [by left|]. rewrite Hd in Hd'. injection Hd' as <-.
  apply find_Some_elem in Hd as Hdin. destruct Hdin as [Hdin Hdn]. bool_inv.
  destruct (wf_type_column _ _ Ht Hdin) as (_ & _ & Hdt & _). destruct (Hp _ _ _ _ Hdt Hp' Hc) as [Hct Hmp].
  split_and!.
  - constructor; [|done]. intros Hin. specialize (Hseen f Hin). apply not_true_iff_false in Hseen. apply Hseen, bs_mem_insert. by left.
  - intros f' [->|Hin]%elem_of_cons; [done|]. specialize (Hseen f' Hin). apply not_true_iff_false. intros Hmem.
    apply not_true_iff_false in Hseen. apply Hseen, bs_mem_insert. by right.
  - intros f' p0 d0 c0 [[= -> ->]|Hin]%elem_of_cons Hd0 Hc0; [|by eapply Htyped]. congruence.
  - intros record Hrec. destruct (Hrec d Hdin) as (v & Hv & Hi). cbn [match_fields forallb concat fst snd].
    rewrite <-Hdn, Hv. rewrite Hdn, Hd, Hc. apply matches_as_seq; [done|by apply Hmp|by apply Hm].
Qed.
Lemma bind_fields_shape bind definitions fields seen fs infos seen' :
  bind_fields bind definitions seen fields = Ok (fs, infos, seen') →
  NoDup fs.*1 ∧ ∀ f, f ∈ fs.*1 → bs_mem f seen = false ∧ ∃ d, find_column definitions f = Some d.
Proof.
  revert seen fs infos. induction fields as [|[f p] fields IH]; intros seen fs infos Hb; cbn [bind_fields] in Hb.
  { injection Hb as <- <- <-. split; [constructor|]. intros f Hf. by apply elem_of_nil in Hf. }
  case_if_in Hb; [done|]. apply bind_Ok in Hb as (d & Hd%ok_or_Ok & Hb). apply bind_Ok in Hb as ([p' info] & _ & Hb).
  apply bind_Ok in Hb as ([[fs' infos'] seen1] & Hb & E2). injection E2 as <- <- <-. apply IH in Hb as [Hn Hs]. split.
  - constructor; [|done]. intros Hin. destruct (Hs f Hin) as [Hm _]. apply not_true_iff_false in Hm. apply Hm, bs_mem_insert. by left.
  - intros f' [->|Hin]%elem_of_cons; [eauto|]. destruct (Hs f' Hin) as [Hm Hd']. split; [|done].
    apply not_true_iff_false. intros Hm'. apply not_true_iff_false in Hm. apply Hm, bs_mem_insert. by right.
Qed.

Lemma cover_field_elem cover name ty fs p :
  NoDup fs.*1 → (name, p) ∈ fs → cover_field cover name ty fs = cover ty p.
Proof.
  induction fs as [|[f q] fs IH]; intros Hn Hin; [by apply elem_of_nil in Hin|]. cbn [cover_field].
  rewrite fmap_cons in Hn. apply list.NoDup_cons in Hn as [Hf Hn].
  apply elem_of_cons in Hin as [[= -> ->]|Hin]; [by rewrite String.eqb_refl|].
  destruct (String.eqb_spec f name) as [->|]; [|auto]. destruct Hf. by eapply elem_fst.
Qed.

Lemma cover_field_absent cover name ty fs : name ∉ fs.*1 → cover_field cover name ty fs = Ok CWildcard.
Proof.
  induction fs as [|[f q] fs IH]; intros Hn; [done|]. cbn [cover_field]. rewrite fmap_cons in Hn.
  apply not_elem_of_cons in Hn as [Hne Hn]. destruct (String.eqb_spec f name) as [->|]; [done|auto].
Qed.

Lemma find_column_elem (definitions : Columns) d :
  NoDup (col_name <$> definitions) → d ∈ definitions → find_column definitions (col_name d) = Some d.
Proof.
  intros Hn Hd. apply find_unique; [done|apply String.eqb_refl|]. intros y Hy E. bool_inv. by eapply NoDup_fmap_key.
Qed.

Lemma record_all2 (cover : ColumnOf ScalarType → result CoveragePattern) definitions values record ws :
  mapR cover definitions = Ok values → mapM (λ n, bt_get n record) (col_name <$> definitions) = Some ws →
  all2 cmatch values ws = true ↔
  ∀ d, d ∈ definitions → ∃ c w, cover d = Ok c ∧ bt_get (col_name d) record = Some w ∧ cmatch c w = true.
Proof.
  revert values ws. induction definitions as [|d ds IH]; intros values ws Hv Hw.
  { injection Hv as <-. injection Hw as <-. split; [|done]. intros _ d Hd. by apply elem_of_nil in Hd. }
  cbn [mapR] in Hv. apply bind_Ok in Hv as (c & Hc & Hv). apply bind_Ok in Hv as (cs & Hv & E). injection E as <-.
  rewrite fmap_cons in Hw. cbn [mapM] in Hw. apply bind_Some in Hw as (w & Hg & Hw). apply bind_Some in Hw as (ws' & Hw & E).
  injection E as <-. cbn [all2]. rewrite andb_true_iff, (IH cs ws') by done. split.
  - intros [Hcw Hall] d' [->|Hd]%elem_of_cons; [by exists c, w|auto].
  - intros Hall. split; [|intros d' Hd; apply Hall; by right]. destruct (Hall d) as (c' & w' & Hc' & Hg' & Hm); [by left|]. congruence.
Qed.

Lemma mapM_get (definitions : Columns) (record : list (string * Value)) ws (P : ScalarType → Value → Prop) :
  mapM (λ n, bt_get n record) (col_name <$> definitions) = Some ws → Forall2 P (col_ty <$> definitions) ws →
  ∀ d, d ∈ definitions → ∃ w, bt_get (col_name d) record = Some w ∧ P (col_ty d) w.
Proof.
  revert ws. induction definitions as [|d ds IH]; intros ws Hw HP d' Hd; [by apply elem_of_nil in Hd|].
  rewrite fmap_cons in Hw. cbn [mapM] in Hw. apply bind_Some in Hw as (w & Hg & Hw). apply bind_Some in Hw as (ws' & Hw & E).
  injection E as <-. rewrite fmap_cons in HP. apply list.Forall2_cons in HP as [HP HPs].
  apply elem_of_cons in Hd as [->|Hd]; eauto.
Qed.

(** Matching a record against the per-definition coverage is matching the listed
    fields. *)
Lemma record_cover definitions fs values record ws :
  NoDup (col_name <$> definitions) → NoDup fs.*1 → (∀ f, f ∈ fs.*1 → ∃ d, find_column definitions f = Some d) →
  mapR (λ d, cover_field (coverage_pattern cat) (col_name d) (col_ty d) fs) definitions = Ok values →
  mapM (λ n, bt_get n record) (col_name <$> definitions) = Some ws →
  all2 cmatch values ws =
  forallb (λ e, match find_column definitions e.1, bt_get e.1 record with
                | Some d, Some v => match coverage_pattern cat (col_ty d) e.2 with Ok c => cmatch c v | Err _ => false end
                | _, _ => false end) fs.
Proof.
  intros Hn Hnf Hfs Hv Hw. apply eq_true_iff_eq. rewrite (record_all2 _ _ _ _ _ Hv Hw), forallb_Forall, list.Forall_forall. split.
  - intros Hall [f p] Hin. simpl. destruct (Hfs f) as [d Hd].
    { by eapply elem_fst. }
    rewrite Hd. apply find_Some_elem in Hd as [Hdin Hdn]. bool_inv. subst f.
    destruct (Hall d Hdin) as (c & w & Hc & -> & Hm). rewrite (cover_field_elem _ _ _ _ p) in Hc by done. by rewrite Hc.
  - intros Hall d Hd. destruct (decide (col_name d ∈ fs.*1)) as [([f p] & E & Hin)%list_elem_of_fmap|Hno].
    + simpl in E. subst f. specialize (Hall _ Hin). simpl in Hall. rewrite find_column_elem in Hall by done.
      destruct (bt_get (col_name d) record) as [w|]; [|done].
      destruct (coverage_pattern cat (col_ty d) p) as [c|] eqn:Ec; [|done]. exists c, w. by rewrite (cover_field_elem _ _ _ _ p).
    + destruct (mapM_get definitions record ws (λ _ _, True)) with (d := d) as (w & Hw' & _); [done| |done|].
      * apply length_mapM in Hw. apply Forall2_same_length_lookup_2; [rewrite !length_fmap in *; lia|done].
      * exists CWildcard, w. by rewrite cover_field_absent.
Qed.

Lemma record_ok ty definitions fields rest fs info c :
  Forall (λ e, binds_well e.2) fields → wf_type ty = true → underlying cat ty = Ok (TRecord definitions) →
  bind_record_fields (bind_nested_pattern cat) definitions fields rest = Ok (fs, info) →
  coverage_record_pattern cat (coverage_pattern cat) ty fs = Ok c →
  NoDup (col_name <$> info) ∧ cov_typed cat c ty = true ∧
  ∀ v, inhabits cat ty v → ∃ record, unwrapped v = VRecord record ∧
    matches_as (match_fields match_value_pattern record fs) (cmatch c v) info.
Proof.
  intros Hp Hty Hu Hb Hc. unfold bind_record_fields in Hb. apply bind_Ok in Hb as ([[fs' infos] seen] & Hb & H).
  case_if_in H; [done|]. apply bind_Ok in H as (info' & Hcp & H). injection H as <- <-. apply combine_patterns_Ok in Hcp as [-> Hn].
  unfold coverage_record_pattern in Hc. rewrite Hu in Hc. cbn [mbind result_bind] in Hc.
  apply bind_Ok in Hc as (values & Hv & Hc). injection Hc as <-.
  pose proof (underlying_wf _ _ _ _ Hcat Hty Hu) as Hw. destruct (wf_type_nodup_columns _ Hw) as [Hnn _].
  destruct (bind_fields_shape _ _ _ _ _ _ _ Hb) as [Hnf Hsh].
  assert (Hvals : ∀ d, d ∈ definitions → ∃ c, cover_field (coverage_pattern cat) (col_name d) (col_ty d) fs' = Ok c).
  { intros d Hd. apply mapR_Ok in Hv. apply list_elem_of_lookup in Hd as [i Hd]. destruct (Forall2_lookup_l _ _ _ _ _ Hv Hd) as (c & _ & Hc). eauto. }
  destruct (bind_fields_ok _ _ _ _ _ _ Hp Hw Hb Hn) as (_ & _ & Htyped & Hm).
  { intros f p Hin. destruct (Hsh f) as (_ & d & Hd); [by eapply elem_fst|].
    exists d. split; [done|]. apply find_Some_elem in Hd as [Hdin Hdn]. bool_inv. subst f.
    destruct (Hvals d Hdin) as [c Hc]. exists c. by rewrite <-(cover_field_elem _ (col_name d) _ fs' p). }
  assert (Hspec : constructor_specs cat ty = Ok (Some [mkSpec (CRecord (col_name <$> definitions)) (col_ty <$> definitions)])).
  { unfold constructor_specs. by rewrite Hu. }
  split; [done|]. split.
  - cbn [cov_typed]. rewrite Hspec. cbn [existsb]. rewrite bool_decide_true by done. simpl. rewrite orb_false_r.
    apply all2_Forall2. apply mapR_Ok in Hv. clear -Hv Hnn Hnf Hsh Htyped.
    assert (Hty : ∀ d c, d ∈ definitions → cover_field (coverage_pattern cat) (col_name d) (col_ty d) fs' = Ok c → cov_typed cat c (col_ty d) = true).
    { intros d c Hd Hc. destruct (decide (col_name d ∈ fs'.*1)) as [([f p] & E & Hin)%list_elem_of_fmap|Hno].
      - simpl in E. subst f. rewrite (cover_field_elem _ _ _ _ p) in Hc by done. eapply Htyped; [done| |done]. by apply find_column_elem.
      - rewrite cover_field_absent in Hc by done. by injection Hc as <-. }
    clear Htyped Hsh Hnn. induction Hv as [|d c ds cs Hdc _ IH]; constructor; [apply Hty; [by left|done]|].
    apply IH. intros d' c' Hd'. apply Hty. by right.
  - intros v Hv'. destruct (specs_complete cat Hcat ty Hty _ Hspec v Hv') as (s & ws & Hs & Hd & Hws).
    apply list_elem_of_singleton in Hs as ->. simpl in Hd, Hws. unfold deconstruct in Hd.
    destruct (unwrapped v) as [| | | | | | | | | | | |record| | | | |] eqn:Eu; try done. exists record. split; [done|].
    cbn [cmatch]. unfold deconstruct. rewrite Eu, Hd, (record_cover _ _ _ _ _ Hnn Hnf) with (2 := Hv) (3 := Hd) by (intros; by apply Hsh).
    apply Hm. by eapply mapM_get.
Qed.
(** The coverage of a constructor's payload. *)
Definition cover_payload (arguments : list ScalarType) (payload : MatchPayload) : result (list CoveragePattern) :=
  match payload with
  | PayUnit => Ok []
  | PayRecord fields _ =>
      match arguments with
      | [record_type] => c ← coverage_record_pattern cat (coverage_pattern cat) record_type fields; Ok [c]
      | _ => Err "E_MATCH"
      end
  | PayPositional patterns => cover_all (coverage_pattern cat) patterns arguments
  end.

Lemma payload_ok arguments payload payload' info values :
  payload_all binds_well payload → Forall (λ t, wf_type t = true) arguments →
  bind_payload cat (bind_nested_pattern cat) arguments payload = Ok (payload', info) →
  cover_payload arguments payload' = Ok values →
  all2 (cov_typed cat) values arguments = true ∧
  ∀ ws, Forall2 (inhabits cat) arguments ws → matches_as (match_payload match_value_pattern ws payload') (all2 cmatch values ws) info.
Proof.
  intros Hp Ht Hb Hc. destruct payload as [|fields rest|patterns]; cbn [bind_payload] in Hb.
  - case_if_in Hb; [|done]. injection Hb as <- <-. injection Hc as <-. bool_inv.
    destruct arguments; [|unfold zlen in *; simpl in *; lia]. split; [done|]. intros ws Hw. apply Forall2_nil_inv_l in Hw as ->. apply matches_as_nil.
  - destruct arguments as [|ty [|]]; try discriminate Hb. apply bind_Ok in Hb as (u & Hu & Hb). destruct u; try discriminate Hb.
    apply bind_Ok in Hb as ([fs info'] & Hb & E). injection E as <- <-. cbn [cover_payload] in Hc.
    apply bind_Ok in Hc as (c & Hc & E). injection E as <-. apply list.Forall_cons in Ht as [Hty _].
    destruct (record_ok _ _ _ _ _ _ _ Hp Hty Hu Hb Hc) as (_ & Hct & Hm). simpl. rewrite Hct. split; [done|].
    intros ws Hw. apply Forall2_cons_inv_l in Hw as (w & ws' & Hw & Hws & ->). apply Forall2_nil_inv_l in Hws as ->.
    destruct (Hm w Hw) as (record & Er & Hrec). cbn [all2]. rewrite andb_true_r. eapply matches_as_ext; [|exact Hrec].
    intros b. cbn [match_payload]. by rewrite Er.
  - case_if_in Hb; [done|]. apply bind_Ok in Hb as ([ps infos] & Hb & H). apply bind_Ok in H as (info' & Hcp & E2). injection E2 as <- <-.
    apply combine_patterns_Ok in Hcp as [-> Hn]. bool_inv. cbn [cover_payload] in Hc.
    destruct (bind_all_ok _ _ _ _ _ Hp Ht E Hb Hc Hn) as (Hl & Hct & Hm). split; [done|]. intros ws Hw. eapply matches_as_ext; [|by apply Hm].
    intros b. cbn [match_payload]. by rewrite Hl, (inhabits_all_length _ _ _ Hw), Z.eqb_refl.
Qed.

Definition tag_constructor (tag : MatchTag) (name : string) : CoverageConstructor :=
  match tag with TagVariant id => CVariant id name | TagNone => CNone | TagSome => CSome end.

Lemma resolve_constructor_spec ty source name tag arguments display :
  match_source cat ty = Ok source → resolve_constructor cat source name = Ok (tag, arguments, display) →
  ∃ specs, constructor_specs cat ty = Ok (Some specs) ∧ mkSpec (tag_constructor tag display) arguments ∈ specs.
Proof.
  intros Hs Hr. unfold match_source in Hs. apply bind_Ok in Hs as (u & Hu & Hs). unfold constructor_specs. rewrite Hu. cbn [mbind result_bind].
  destruct u; try discriminate Hs; injection Hs as <-; eexists; (split; [done|]); unfold resolve_constructor in Hr.
  - destruct (match rsplit_once _ _ with Some _ => _ | None => _ end) as [q n]. apply bind_Ok in Hr as (_ & _ & Hr).
    apply bind_Ok in Hr as (v & Hv%ok_or_Ok & E). injection E as <- <- <-. apply find_Some_elem in Hv as [Hv _].
    apply (list_elem_of_fmap_2 variant_spec). destruct ty; try done. by rewrite sort_by_key_perm.
  - case_if_in Hr; [injection Hr as <- <- <-; by left|]. case_if_in Hr; [|done]. injection Hr as <- <- <-. right. by left.
Qed.

Lemma constructor_ok ty source name tag arguments display payload payload' info values :
  wf_type ty = true → match_source cat ty = Ok source → resolve_constructor cat source name = Ok (tag, arguments, display) →
  payload_all binds_well payload → bind_payload cat (bind_nested_pattern cat) arguments payload = Ok (payload', info) →
  cover_payload arguments payload' = Ok values →
  pattern_ok ty (PConstructor name payload' (Some tag)) info (CConstructor (tag_constructor tag display) values).
Proof.
  intros Hty Hs Hr Hp Hb Hc. destruct (resolve_constructor_spec _ _ _ _ _ _ Hs Hr) as (specs & Hsp & Hin).
  pose proof (specs_wf cat Hcat ty Hty specs Hsp _ Hin) as Ht. simpl in Ht.
  destruct (payload_ok _ _ _ _ _ Hp Ht Hb Hc) as [Hct Hm]. split.
  - cbn [cov_typed]. rewrite Hsp. apply existsb_exists. eexists. rewrite <-list_elem_of_In. split; [done|]. simpl.
    by rewrite bool_decide_true.
  - intros v Hv. cbn [match_value_pattern cmatch].
    assert (Hd : ∀ ws, deconstruct (tag_constructor tag display) v = Some ws → Forall2 (inhabits cat) arguments ws).
    { intros ws Hws. exact (specs_arguments cat Hcat ty Hty specs Hsp _ v ws Hin Hv Hws). }
    unfold deconstruct in *. destruct tag as [id| |]; cbn [tag_constructor] in *;
      destruct (unwrapped v) as [| | | | | | | | | | |n args i| | | | |[w|]|]; try (by intros ? _).
    + destruct (Z.eqb_spec id i); [|by intros ? _]. by apply Hm, Hd.
    + by apply Hm, Hd.
    + by apply Hm, Hd.
Qed.

Lemma all_binds_well p : binds_well p.
Proof.
  induction p as [|name|name payload tag Hp|fields rest Hf|patterns Hps] using MatchPattern_nested_ind;
    intros ty p' bs c Hty Hb Hc; cbn [bind_nested_pattern] in Hb.
  - injection Hb as <- <-. injection Hc as <-. split; [done|]. intros v _. apply matches_as_nil.
  - injection Hb as <- <-. injection Hc as <-. split; [done|]. intros v Hv b Hfree. cbn [match_value_pattern].
    specialize (Hfree (binding name ty)). simpl in Hfree. unfold bt_mem. rewrite Hfree by (by left). split_and!; [done| |].
    + intros k Hk. apply bt_get_insert_ne. intros ->. apply Hk. by left.
    + intros d ->%list_elem_of_singleton. exists v. simpl. by rewrite bt_get_insert_eq.
  - apply bind_Ok in Hb as (source & Hs & Hb). apply bind_Ok in Hb as ([[t args] dn] & Hr & Hb).
    apply bind_Ok in Hb as ([payload' info] & Hpay & E). injection E as <- <-. cbn [coverage_pattern] in Hc.
    rewrite Hs in Hc. cbn [mbind result_bind] in Hc. rewrite Hr in Hc. cbn [mbind result_bind] in Hc.
    apply bind_Ok in Hc as (values & Hv & E). injection E as <-. by eapply constructor_ok.
  - apply bind_Ok in Hb as (u & Hu & Hb). destruct u; try discriminate Hb. apply bind_Ok in Hb as ([fs info] & Hb & E). injection E as <- <-.
    cbn [coverage_pattern] in Hc. destruct (record_ok _ _ _ _ _ _ _ Hf Hty Hu Hb Hc) as (_ & Hct & Hm). split; [done|].
    intros v Hv. destruct (Hm v Hv) as (record & Er & Hrec). eapply matches_as_ext; [|exact Hrec].
    intros b. cbn [match_value_pattern]. by rewrite Er.
  - apply bind_Ok in Hb as (u & Hu & Hb). destruct u; try discriminate Hb. case_if_in Hb; [done|]. bool_inv.
    apply bind_Ok in Hb as ([ps infos] & Hb & H). apply bind_Ok in H as (info & Hcp & E2). injection E2 as <- <-.
    apply combine_patterns_Ok in Hcp as [-> Hn]. cbn [coverage_pattern] in Hc. rewrite Hu in Hc. cbn [mbind result_bind] in Hc.
    apply bind_Ok in Hc as (values & Hv & E2). injection E2 as <-.
    pose proof (underlying_wf _ _ _ _ Hcat Hty Hu) as Hw. apply forallb_Forall in Hw.
    assert (Hspec : constructor_specs cat ty = Ok (Some [mkSpec CTuple items])) by (unfold constructor_specs; by rewrite Hu).
    destruct (bind_all_ok _ _ _ _ _ Hps Hw E Hb Hv Hn) as (Hl & Hct & Hm). split.
    + cbn [cov_typed]. rewrite Hspec. cbn [existsb]. rewrite bool_decide_true by done. simpl. by rewrite Hct.
    + intros v Hiv. destruct (specs_complete cat Hcat ty Hty _ Hspec v Hiv) as (s & ws & Hs & Hd & Hws).
      apply list_elem_of_singleton in Hs as ->. cbn [spec_constructor spec_arguments] in Hd, Hws. cbn [cmatch]. rewrite Hd. unfold deconstruct in Hd.
      destruct (unwrapped v) eqn:Eu; try done. injection Hd as ->. eapply matches_as_ext; [|by apply Hm].
      intros b. cbn [match_value_pattern]. by rewrite Eu, Hl, (inhabits_all_length _ _ _ Hws), Z.eqb_refl.
Qed.

(** ** The arm loop *)

Lemma bind_top_ok source_ty source last p p' bs c :
  wf_type source_ty = true → match_source cat source_ty = Ok source →
  bind_top_pattern cat source_ty source last p = Ok (p', bs) → coverage_pattern cat source_ty p' = Ok c →
  pattern_ok source_ty p' bs c.
Proof.
  intros Hty Hs Hb Hc. assert (Hn : bind_nested_pattern cat source_ty p = Ok (p', bs)).
  { destruct p; cbn [bind_top_pattern bind_nested_pattern] in *; try done; [by case_if_in Hb|by case_if_in Hb|by rewrite Hs]. }
  by eapply all_binds_well.
Qed.

Lemma bind_arms_ok source_ty source patterns matrix budget arms matrix' budget' :
  wf_type source_ty = true → match_source cat source_ty = Ok source → matrix_typed cat [source_ty] matrix = true →
  bind_arms cat source_ty source patterns matrix budget = Ok (arms, matrix', budget') →
  matrix_typed cat [source_ty] matrix' = true ∧
  ∃ cs, matrix' = matrix ++ ((λ c, [c]) <$> cs) ∧ Forall2 (λ arm c, pattern_ok source_ty arm.1 arm.2 c) arms cs.
Proof.
  intros Hty Hs. revert matrix budget arms. induction patterns as [|p patterns IH]; intros matrix budget arms Hm H; cbn [bind_arms] in H.
  { injection H as <- <- <-. split; [done|]. exists []. split; [by rewrite app_nil_r|constructor]. }
  apply bind_Ok in H as ([p' bs] & Hp & H). apply bind_Ok in H as (c & Hc & H). apply bind_Ok in H as ([useful b1] & _ & H).
  destruct useful; [|done]. apply bind_Ok in H as ([[arms' m'] b2] & H & E). injection E as <- <- <-.
  pose proof (bind_top_ok _ _ _ _ _ _ _ Hty Hs Hp Hc) as Hok. apply IH in H as (Hm' & cs & -> & Hf).
  - split; [done|]. exists (c :: cs). split; [by rewrite <-app_assoc|by constructor].
  - unfold matrix_typed in *. rewrite forallb_app, Hm. simpl. unfold row_typed. simpl. by rewrite (proj1 Hok).
Qed.
End eval.

(** ** Properties *)

Lemma select_arm_Some v ps i p :
  ps !! i = Some p → is_Some (match_bindings v p) →
  ∃ j b p', select_arm v ps = Some (j, b) ∧ ps !! j = Some p' ∧ match_bindings v p' = Some b.
Proof.
  revert i. induction ps as [|q ps IH]; intros i Hi Hm; [done|]. cbn [select_arm].
  destruct (match_bindings v q) as [b|] eqn:Eq; [by exists 0%nat, b, q|].
  destruct i as [|i]; simpl in Hi; [injection Hi as ->; rewrite Eq in Hm; by destruct Hm|].
  destruct (IH i Hi Hm) as (j & b & p' & Hs & Hj & Hb). exists (S j), b, p'. by rewrite Hs.
Qed.

(** The arm that an exhaustive match selects, and what it binds. *)
Lemma bind_patterns_select cat source_ty patterns arms v :
  wf_catalog cat = true → wf_type source_ty = true → bind_patterns cat source_ty patterns = Ok arms → inhabits cat source_ty v →
  ∃ i b p bindings, select_arm v arms.*1 = Some (i, b) ∧ arms !! i = Some (p, bindings) ∧
    ∀ c, c ∈ bindings → ∃ w, bt_get (col_name c) b = Some w ∧ inhabits cat (col_ty c) w.
Proof.
  intros Hcat Hty H Hv. unfold bind_patterns in H. revert H. generalize MAX_COVERAGE_STEPS. intros steps H.
  apply bind_Ok in H as (source & Hs & H). apply bind_Ok in H as ([[arms' matrix] budget] & Ha & H).
  apply bind_Ok in H as ([o budget'] & Hu & H). destruct o; [apply bind_Ok in H as (_ & _ & H); done|]. injection H as <-.
  assert (H0 : matrix_typed cat [source_ty] [] = true) by done.
  destruct (bind_arms_ok _ Hcat _ _ _ _ _ _ _ _ Hty Hs H0 Ha) as (Hm & cs & -> & Hf).
  pose proof (uncovered_sound _ _ _ _ _ _ _ Hcat (List.Forall_cons _ _ _ Hty (Forall_nil _)) Hm Hu) as Hall. simpl in Hall.
  specialize (Hall [v] ltac:(by repeat constructor)). clear Hu. rename Hall into Hu. unfold matrix_matches in Hu. apply existsb_exists in Hu as (row & Hin & Hr).
  apply list_elem_of_In, list_elem_of_fmap in Hin as (c & -> & Hc). unfold row_matches in Hr. simpl in Hr. rewrite andb_true_r in Hr.
  apply list_elem_of_lookup in Hc as [i Hi]. destruct (Forall2_lookup_r _ _ _ _ _ Hf Hi) as ([p bs] & Hp & Hok). simpl in Hok.
  assert (Hhit : ∀ p bs c, pattern_ok cat source_ty p bs c →
    match match_bindings v p with
    | Some b => ∀ d, d ∈ bs → ∃ w, bt_get (col_name d) b = Some w ∧ inhabits cat (col_ty d) w
    | None => cmatch c v = false end).
  { intros p0 bs0 c0 [_ Hm0]. specialize (Hm0 v Hv [] ltac:(done)). unfold match_bindings.
    destruct (match_value_pattern v p0 []); [by destruct Hm0 as (_ & _ & ?)|done]. }
  destruct (select_arm_Some v arms'.*1 i p) as (j & b & p' & Hsel & Hj & Hb).
  { by rewrite list_lookup_fmap, Hp. }
  { specialize (Hhit p bs c Hok). destruct (match_bindings v p); [by eexists|congruence]. }
  rewrite list_lookup_fmap in Hj. apply fmap_Some in Hj as ([p'' bs'] & Hj & E). simpl in E. subst p''.
  exists j, b, p', bs'. split_and!; try done. destruct (Forall2_lookup_l _ _ _ _ _ Hf Hj) as (c' & _ & Hok').
  specialize (Hhit p' bs' c' Hok'). by rewrite Hb in Hhit.
Qed.

(** C3: a match that the binder accepts is exhaustive and its bindings are typed.
    Every value of the matched type selects an arm, so the internal error
    [exhaustive match did not select a branch] cannot occur, and each name the
    arm declares is bound to a value of the type it was declared with. *)
Theorem bind_patterns_exhaustive cat source_ty patterns arms v :
  wf_catalog cat = true → wf_type source_ty = true → bind_patterns cat source_ty patterns = Ok arms → inhabits cat source_ty v →
  ∃ i b p bindings, select_arm v arms.*1 = Some (i, b) ∧ arms !! i = Some (p, bindings) ∧
    ∀ c, c ∈ bindings → ∃ w, bt_get (col_name c) b = Some w ∧ inhabits cat (col_ty c) w.
Proof. exact (bind_patterns_select cat source_ty patterns arms v). Qed.

(** [match tree { Leaf -> .., Node { left = Node { .. }, value } -> .., other -> .. }]. *)
Definition tree_patterns : list MatchPattern :=
  [PConstructor "Leaf" PayUnit None;
   PConstructor "Tree.Node" (PayRecord [("left"%string, PConstructor "Node" (PayRecord [] true) None); ("value"%string, PBinding "v")] false) None;
   PBinding "other"].

Lemma bind_patterns_exhaustive_witness :
  let arms := match bind_patterns tree_catalog (TRef 5) tree_patterns with Ok arms => arms | Err _ => [] end in
  ∃ i b p bindings, bind_patterns tree_catalog (TRef 5) tree_patterns = Ok arms ∧
    select_arm tree_value arms.*1 = Some (i, b) ∧ arms !! i = Some (p, bindings) ∧
    ∀ c, c ∈ bindings → ∃ w, bt_get (col_name c) b = Some w ∧ inhabits tree_catalog (col_ty c) w.
Proof.
  intros arms. destruct (bind_patterns_exhaustive tree_catalog (TRef 5) tree_patterns arms tree_value)
    as (i & b & p & bindings & H1 & H2 & H3);
    [vm_compute; reflexivity|reflexivity|vm_compute; reflexivity|exists MAX_DEPTH; vm_compute; reflexivity|].
  exists i, b, p, bindings. split; [vm_compute; reflexivity|]. split; [exact H1|]. split; [exact H2|exact H3].
Defined.

(** C31: the exhaustiveness analysis answers truthfully about a well-typed pattern
    matrix: when it reports nothing uncovered, every vector of values is matched
    by a row; when it reports a witness, the witness is a well-typed pattern and
    no value it describes is matched by any row. *)
Theorem uncovered_patterns_correct cat matrix types budget o budget' :
  wf_catalog cat = true → forallb wf_type types = true → matrix_typed cat types matrix = true →
  uncovered_patterns (coverage_fuel budget) cat matrix types budget = Ok (o, budget') →
  match o with
  | None => ∀ vs, Forall2 (inhabits cat) types vs → matrix_matches matrix vs = true
  | Some w => row_typed cat types w = true ∧
      ∀ vs, Forall2 (inhabits cat) types vs → row_matches w vs = true → matrix_matches matrix vs = false
  end.
Proof. intros Hcat Ht. apply uncovered_sound; [done|by apply forallb_Forall]. Qed.

Lemma uncovered_patterns_correct_witness :
  row_typed tree_catalog [TRef 5] [CConstructor (CVariant 1 "Leaf") []] = true ∧
  ∀ vs, Forall2 (inhabits tree_catalog) [TRef 5] vs → row_matches [CConstructor (CVariant 1 "Leaf") []] vs = true →
    matrix_matches [[CConstructor (CVariant 4 "Node") [CWildcard]]] vs = false.
Proof.
  apply (uncovered_patterns_correct tree_catalog [[CConstructor (CVariant 4 "Node") [CWildcard]]] [TRef 5] 10
           (Some [CConstructor (CVariant 1 "Leaf") []]) 8); vm_compute; reflexivity.
Defined.

(** an arm rejected as unreachable is redundant: every value it matches is
    already matched by an earlier arm. *)
Theorem useless_pattern_redundant cat matrix query types budget budget' vs :
  wf_catalog cat = true → forallb wf_type types = true → matrix_typed cat types matrix = true → row_typed cat types query = true →
  pattern_is_useful (coverage_fuel budget) cat matrix query types budget = Ok (None, budget') →
  Forall2 (inhabits cat) types vs → row_matches query vs = true → matrix_matches matrix vs = true.
Proof. intros Hcat Ht Hm Hq H. eapply useful_sound; try done. by apply forallb_Forall. Qed.

Lemma useless_pattern_redundant_witness :
  matrix_matches [[CConstructor CNone []]; [CConstructor CSome [CWildcard]]] [VOption (Some (VInt 3))] = true.
Proof.
  apply (useless_pattern_redundant default_catalog [[CConstructor CNone []]; [CConstructor CSome [CWildcard]]] [CWildcard] [TOption TInt] 20 17 [VOption (Some (VInt 3))]);
    [reflexivity|reflexivity|vm_compute; reflexivity|reflexivity|vm_compute; reflexivity| |vm_compute; reflexivity].
  constructor; [exists 5%nat; reflexivity|constructor].
Defined.

(** C33: the coverage analysis terminates within its step budget: the recursion depth
    never exceeds the remaining steps, so no larger recursion bound changes
    any answer. *)
Theorem coverage_terminates cat matrix query types budget (extra : nat) :
  0 ≤ budget →
  pattern_is_useful (coverage_fuel budget + extra) cat matrix query types budget =
    pattern_is_useful (coverage_fuel budget) cat matrix query types budget ∧
  uncovered_patterns (coverage_fuel budget + extra) cat matrix types budget =
    uncovered_patterns (coverage_fuel budget) cat matrix types budget.
Proof. intros Hb. unfold coverage_fuel. split; [apply useful_fuel | apply uncovered_fuel]; lia. Qed.

Lemma coverage_terminates_witness :
  pattern_is_useful (coverage_fuel 100 + 7) tree_catalog [] [CWildcard] [TRef 5] 100 = Ok (Some tt, 98).
Proof. rewrite (proj1 (coverage_terminates tree_catalog [] [CWildcard] [TRef 5] 100 7 ltac:(lia))). vm_compute. reflexivity. Defined.

(** A recursive type whose recursion goes through an inline enum,
    [type Chain = Link { next: enum(More(Chain), Stop) }].  Constructors are tried
    with terminating branches first only at a nominal type, so the analysis
    descends through [More] until its budget is spent and refuses the one-arm
    match [_], which every value satisfies. *)
Definition chain_catalog : Catalog :=
  mkCatalog [("Chain"%string, mkTypeDefinition 5 "Chain" (TEnum [EnumVariantDef "Link"
    [TRecord [Column "next" (TEnum [EnumVariantDef "More" [TRef 5] 1; EnumVariantDef "Stop" [] 2]) None 3]] 4]))] 6.

(** An example where the analysis gives up on a match that is exhaustive: on this type it descends until the step budget is spent, and the
    single arm [_] is refused although every value satisfies it. *)
Lemma inline_recursion_exhausts_budget :
  wf_catalog chain_catalog = true ∧
  conforms MAX_DEPTH chain_catalog (TRef 5) (VNamed 5 (VEnum "Link" [VRecord [("next"%string, VEnum "Stop" [] 2)]] 4)) = true ∧
  bind_patterns chain_catalog (TRef 5) [PWildcard] = Err "E_LIMIT".
Proof. split_and!; vm_compute; reflexivity. Qed.
