(* ===== verification/Catalog.v ===== *)
(** * The type catalog

    Models the schema operations of [Catalog] in src/src/model.rs: stable-ID
    allocation, resolution of parsed types to stable references, normalisation of
    field defaults, the checks that references exist, that named types are not
    mutually recursive and that every named type has a finite value, and
    [define], which composes them and restores the catalog on failure. *)
From S2P Require Import Prelude Bytes Text Decimal Temporal Float64 BTree Scalars Model Coerce.

(** A loop that maps a list while threading a state. *)
Fixpoint mapS {A B S} (f : A → S → result (B * S)) (l : list A) (s : S) : result (list B * S) :=
  match l with
  | [] => Ok ([], s)
  | x :: l => '(y, s) ← f x s; '(ys, s) ← mapS f l s; Ok (y :: ys, s)
  end.

Definition restore_next_id (cat : Catalog) (next : Z) : result Catalog :=
  if next =? 0 then Err "E_STORAGE" else Ok (mkCatalog (types cat) next).

Definition allocate (cat : Catalog) : result (Z * Catalog) :=
  next ← ok_or (checked is_u64 (next_id cat + 1)) "E_SCHEMA";
  Ok (next_id cat, mkCatalog (types cat) next).

Definition checked_add_id (a b : Z) : result Z := ok_or (checked is_u64 (a + b)) "E_SCHEMA".

(** How many stable IDs a type body allocates when it is resolved. *)
Fixpoint structural_id_count (fuel : nat) (ty : ScalarType) : result Z :=
  match fuel with
  | O => Err "E_LIMIT"
  | S fuel =>
      let add count ty := n ← structural_id_count fuel ty; checked_add_id count n in
      match ty with
      | TRecord fields => foldR (λ count f, count ← checked_add_id count 1; add count (col_ty f)) 0 fields
      | TEnum variants =>
          foldR (λ count v, count ← checked_add_id count 1; foldR add count (var_args v)) 0 variants
      | TTuple items => foldR add 0 items
      | TOption inner | TList inner | TMap inner => structural_id_count fuel inner
      | _ => Ok 0
      end
  end.

(** The loop over fields or variants: [seen] holds the names met so far. *)
Fixpoint each_named {A B} (name : A → string) (step : A → Catalog → result (B * Catalog))
    (l : list A) (seen : bset string) (cat : Catalog) : result (list B * Catalog) :=
  match l with
  | [] => Ok ([], cat)
  | x :: l =>
      if bs_mem (name x) seen then Err "E_SCHEMA"
      else '(y, cat) ← step x cat;
           '(ys, cat) ← each_named name step l (bs_insert (name x) seen) cat;
           Ok (y :: ys, cat)
  end.

Fixpoint resolve_inner (fuel : nat) (ty : ScalarType) (cat : Catalog) : result (ScalarType * Catalog) :=
  match fuel with
  | O => Err "E_LIMIT"
  | S fuel =>
      let resolve := resolve_inner fuel in
      match ty with
      | TDecimal p s => _ ← validate_type p s; Ok (TDecimal p s, cat)
      | TNamed name => d ← ok_or (bt_get name (types cat)) "E_SCHEMA"; Ok (TRef (def_id d), cat)
      | TRecord columns =>
          '(resolved, cat) ← each_named col_name (λ column cat,
              '(ty, cat) ← resolve (col_ty column) cat;
              '(id, cat) ← allocate cat;
              Ok (Column (col_name column) ty (col_default column) id, cat)) columns [] cat;
          Ok (TRecord resolved, cat)
      | TEnum variants =>
          '(resolved, cat) ← each_named var_name (λ v cat,
              '(args, cat) ← mapS resolve (var_args v) cat;
              '(id, cat) ← allocate cat;
              Ok (EnumVariantDef (var_name v) args id, cat)) variants [] cat;
          Ok (TEnum resolved, cat)
      | TOption t => '(t, cat) ← resolve t cat; Ok (TOption t, cat)
      | TList t => '(t, cat) ← resolve t cat; Ok (TList t, cat)
      | TMap t => '(t, cat) ← resolve t cat; Ok (TMap t, cat)
      | TTuple ts => '(ts, cat) ← mapS resolve ts cat; Ok (TTuple ts, cat)
      | other => Ok (other, cat)
      end
  end.

Fixpoint normalize_defaults (fuel : nat) (cat : Catalog) (ty : ScalarType) : result ScalarType :=
  match fuel with
  | O => Err "E_LIMIT"
  | S fuel =>
      let normalize := normalize_defaults fuel cat in
      match ty with
      | TRecord columns =>
          TRecord <$> mapR (λ column,
            ty ← normalize (col_ty column);
            default ← match col_default column with
                      | Some value => Some <$> coerce_inner fuel cat value ty
                      | None => Ok None
                      end;
            Ok (Column (col_name column) ty default (col_id column))) columns
      | TEnum variants =>
          TEnum <$> mapR (λ v,
            args ← mapR normalize (var_args v); Ok (EnumVariantDef (var_name v) args (var_id v))) variants
      | TTuple items => TTuple <$> mapR normalize items
      | TOption inner => TOption <$> normalize inner
      | TList inner => TList <$> normalize inner
      | TMap inner => TMap <$> normalize inner
      | other => Ok other
      end
  end.

Definition resolve (cat : Catalog) (ty : ScalarType) (fuel : nat) : result (ScalarType * Catalog) :=
  '(ty, cat) ← resolve_inner fuel ty cat;
  ty ← normalize_defaults fuel cat ty;
  Ok (ty, cat).

(** ** Validation *)

Fixpoint validate_type_references (fuel : nat) (cat : Catalog) (ty : ScalarType) : result unit :=
  match fuel with
  | O => Err "E_LIMIT"
  | S fuel =>
      let all := foldR (λ _ t, validate_type_references fuel cat t) tt in
      match ty with
      | TDecimal p s => validate_type p s
      | TRef id => _ ← definition cat id; Ok tt
      | TRecord fields => all (col_ty <$> fields)
      | TEnum variants => all (concat (var_args <$> variants))
      | TTuple items => all items
      | TOption inner | TList inner | TMap inner => validate_type_references fuel cat inner
      | TNamed _ => Err "E_SCHEMA"
      | _ => Ok tt
      end
  end.

Fixpoint collect_type_references (ty : ScalarType) (references : bset Z) : bset Z :=
  match ty with
  | TRef id => bs_insert id references
  | TRecord fields => fold_left (λ r f, collect_type_references (col_ty f) r) fields references
  | TEnum variants =>
      fold_left (λ r v, fold_left (λ r a, collect_type_references a r) (var_args v) r) variants references
  | TTuple items => fold_left (λ r i, collect_type_references i r) items references
  | TOption inner | TList inner | TMap inner => collect_type_references inner references
  | _ => references
  end.

(** Depth-first search over named types: [visiting] is the current path, [visited]
    the finished types.  A path has distinct, defined types, so fuel one above
    their number is never used up. *)
Fixpoint visit_cycles (fuel : nat) (cat : Catalog) (id : Z) (visiting visited : bset Z) : result (bset Z) :=
  match fuel with
  | O => Err "E_LIMIT"
  | S fuel =>
      if bs_mem id visited then Ok visited
      else
        let visiting := bs_insert id visiting in
        d ← definition cat id;
        visited ← foldR (λ visited reference,
            if reference =? id then Ok visited
            else if bs_mem reference visiting then Err "E_SCHEMA"
            else visit_cycles fuel cat reference visiting visited)
          visited (fst <$> collect_type_references (def_ty d) []);
        Ok (bs_insert id visited)
  end.

Definition validate_no_mutual_cycles (cat : Catalog) : result unit :=
  _ ← foldR (λ visited e, visit_cycles (S (length (types cat))) cat (def_id e.2) [] visited) [] (types cat);
  Ok tt.

Fixpoint type_is_finite (ty : ScalarType) (finite : bset Z) : bool :=
  match ty with
  | TRef id => bs_mem id finite
  | TTuple items => forallb (λ i, type_is_finite i finite) items
  | TRecord fields => forallb (λ f, type_is_finite (col_ty f) finite) fields
  | TEnum variants => existsb (λ v, forallb (λ a, type_is_finite a finite) (var_args v)) variants
  | TNamed _ => false
  | _ => true
  end.

(** One pass of the fixpoint loop over the definitions, adding as it goes. *)
Definition finite_pass (cat : Catalog) (finite : bset Z) : bset Z :=
  fold_left (λ finite e,
    if negb (bs_mem (def_id e.2) finite) && type_is_finite (def_ty e.2) finite then bs_insert (def_id e.2) finite
    else finite) (types cat) finite.

(** The loop runs until a pass changes nothing; each changing pass adds a type. *)
Fixpoint finite_loop (fuel : nat) (cat : Catalog) (finite : bset Z) : bset Z :=
  match fuel with
  | O => finite
  | S fuel =>
      let next := finite_pass cat finite in
      if bool_decide (length next = length finite) then next else finite_loop fuel cat next
  end.

Definition validate_finite_types (cat : Catalog) : result unit :=
  _ ← foldR (λ _ e, validate_type_references MAX_DEPTH cat (def_ty e.2)) tt (types cat);
  _ ← validate_no_mutual_cycles cat;
  let finite := finite_loop (S (length (types cat))) cat [] in
  if forallb (λ e, bs_mem (def_id e.2) finite) (types cat) then Ok tt else Err "E_SCHEMA".

(** ** Declaring a type *)

Definition with_type (cat : Catalog) (name : string) (d : TypeDefinition) : Catalog :=
  mkCatalog (bt_insert name d (types cat)) (next_id cat).

(** The closure of [define]: the new catalog and the allocated nominal ID, or an error. *)
Definition define_body (cat : Catalog) (name : string) (ty : ScalarType) : result (Catalog * Z * Z) :=
  body_ids ← structural_id_count MAX_DEPTH ty;
  id ← checked_add_id (next_id cat) body_ids;
  '(ty, cat) ← resolve_inner MAX_DEPTH ty (with_type cat name (mkTypeDefinition id name TBool));
  '(allocated, cat) ← allocate cat;
  let cat := with_type cat name (mkTypeDefinition id name ty) in
  ty ← normalize_defaults MAX_DEPTH cat ty;
  let cat := with_type cat name (mkTypeDefinition id name ty) in
  _ ← validate_finite_types cat;
  Ok (cat, id, allocated).

(** [define]: the outcome and the catalog afterwards. *)
Definition define (cat : Catalog) (name : string) (ty : ScalarType) : result unit * Catalog :=
  if bt_mem name (types cat) then (Err "E_SCHEMA", cat)
  else match define_body cat name ty with
       | Ok (cat', _, _) => (Ok tt, cat')
       | Err e => (Err e, cat)
       end.
