(* ===== verification/Schema.v ===== *)
(** * Schema evolution: what the catalog guarantees

    Proofs about src/src/model.rs's [Catalog] operations as modelled in Catalog:
    stable IDs are allocated without gaps or reuse, declaring a type keeps the
    catalog well formed, and the acceptance checks decide exactly what they are
    meant to. *)
From stdpp Require Import relations.
From S2P Require Import Prelude Bytes Text Decimal Temporal Float64 BTree Scalars Model Coerce Catalog.

(** ** Stable IDs *)

(** The IDs of the fields and variants of a type, in allocation order. *)
Fixpoint type_ids (ty : ScalarType) : list Z :=
  match ty with
  | TRecord columns => flat_map (λ c, type_ids (col_ty c) ++ [col_id c]) columns
  | TEnum variants => flat_map (λ v, flat_map type_ids (var_args v) ++ [var_id v]) variants
  | TTuple items => flat_map type_ids items
  | TOption t | TList t | TMap t => type_ids t
  | _ => []
  end.

(** [n] IDs were taken from the catalog, which is otherwise unchanged, and [ids] are
    those IDs. *)
Definition allocated (cat cat' : Catalog) (n : Z) (ids : list Z) : Prop :=
  0 ≤ n ∧ cat' = mkCatalog (types cat) (next_id cat + n) ∧ is_u64 (next_id cat + n) = true ∧
  ids = seqZ (next_id cat) n.

Lemma allocated_refl cat : is_u64 (next_id cat) = true → allocated cat cat 0 [].
Proof. intros H. destruct cat as [t i]. unfold allocated. simpl in *. rewrite Z.add_0_r. split_and!; [lia|done..]. Qed.

Lemma allocated_app cat1 cat2 cat3 n m ids js :
  allocated cat1 cat2 n ids → allocated cat2 cat3 m js → allocated cat1 cat3 (n + m) (ids ++ js).
Proof.
  intros (Hn & -> & Hu & ->) (Hm & -> & Hu' & ->). simpl in *. unfold allocated.
  rewrite Z.add_assoc. split_and!; [lia|done..|]. by rewrite seqZ_app by lia.
Qed.

Lemma allocated_u64 cat cat' n ids : allocated cat cat' n ids → is_u64 (next_id cat') = true.
Proof. by intros (_ & -> & ? & _). Qed.

Lemma allocate_allocated cat id cat' :
  is_u64 (next_id cat) = true → allocate cat = Ok (id, cat') → allocated cat cat' 1 [id].
Proof. unfold allocate. intros Hu H. res_inv. simplify_eq. by split_and!. Qed.

Lemma checked_add_id_Ok a b c : checked_add_id a b = Ok c ↔ is_u64 (a + b) = true ∧ c = a + b.
Proof. unfold checked_add_id. rewrite ok_or_Ok, checked_Some. done. Qed.

(** [count] predicts the number [n] of IDs, unless the running total overflows. *)
Definition counts {A} (count : Z → A → result Z) (x : A) (n : Z) : Prop :=
  0 ≤ n ∧ ∀ c, 0 ≤ c → is_u64 (c + n) = true → count c x = Ok (c + n).

Lemma counts_foldR_cons {A} (count : Z → A → result Z) x l n m :
  counts count x n → counts (foldR count) l m → counts (foldR count) (x :: l) (n + m).
Proof.
  intros [Hn Hx] [Hm Hl]. split; [lia|]. intros c Hc Hu. cbn [foldR]. rewrite Hx by (try done; unrange; lia).
  cbn [mbind result_bind]. rewrite Z.add_assoc in *. apply Hl; [lia|done].
Qed.

Lemma counts_foldR_nil {A} (count : Z → A → result Z) : counts (foldR count) [] 0.
Proof. split; [done|]. intros c _ _. by rewrite Z.add_0_r. Qed.

(** One for the element itself, then its contents. *)
Lemma counts_succ {A} (count : Z → A → result Z) x n :
  counts count x n → counts (λ c x, c ← checked_add_id c 1; count c x) x (n + 1).
Proof.
  intros [Hn Hx]. split; [lia|]. intros c Hc Hu. unfold checked_add_id, checked.
  replace (is_u64 (c + 1)) with true by (symmetry; unrange; lia). cbn [ok_or mbind result_bind].
  rewrite Hx; [f_equal; lia|lia|]. unrange; lia.
Qed.

Lemma counts_add (count : ScalarType → result Z) ty n :
  0 ≤ n → count ty = Ok n → counts (λ c ty, n ← count ty; checked_add_id c n) ty n.
Proof. intros Hn H. split; [done|]. intros c _ Hu. rewrite H. by apply checked_add_id_Ok. Qed.

Section resolve_lists.
Context (count : ScalarType → result Z) (res : ScalarType → Catalog → result (ScalarType * Catalog)).
Context (IH : ∀ ty cat ty' cat', is_u64 (next_id cat) = true → res ty cat = Ok (ty', cat') →
  ∃ n, count ty = Ok n ∧ allocated cat cat' n (type_ids ty')).

Lemma resolve_items tys cat tys' cat' :
  is_u64 (next_id cat) = true → mapS res tys cat = Ok (tys', cat') →
  ∃ n, counts (foldR (λ c ty, n ← count ty; checked_add_id c n)) tys n ∧
       allocated cat cat' n (flat_map type_ids tys').
Proof.
  revert cat tys'. induction tys as [|ty tys IHt]; intros cat tys' Hu H; cbn [mapS] in H.
  - injection H as <- <-. exists 0. split; [apply counts_foldR_nil|by apply allocated_refl].
  - apply bind_Ok in H as ([ty' cat1] & H1 & H). apply bind_Ok in H as ([ys cat2] & H2 & [= <- <-]).
    destruct (IH _ _ _ _ Hu H1) as (n & Hn & Ha).
    destruct (IHt cat1 ys) as (m & Hm & Hb); [by eapply allocated_u64|done|].
    exists (n + m). split; [|by eapply allocated_app].
    apply counts_foldR_cons; [|done]. apply counts_add; [by destruct Ha|done].
Qed.

(** The shared shape of the field and variant loops. *)
Lemma resolve_named {A B} (name : A → string) (step : A → Catalog → result (B * Catalog))
    (count1 : Z → A → result Z) (ids1 : B → list Z) l seen cat l' cat' :
  (∀ x cat y cat', is_u64 (next_id cat) = true → step x cat = Ok (y, cat') →
     ∃ n, counts count1 x n ∧ allocated cat cat' n (ids1 y)) →
  is_u64 (next_id cat) = true → each_named name step l seen cat = Ok (l', cat') →
  ∃ n, counts (foldR count1) l n ∧ allocated cat cat' n (flat_map ids1 l').
Proof.
  intros Hstep. revert seen cat l'. induction l as [|x l IHl]; intros seen cat l' Hu H; cbn [each_named] in H.
  - injection H as <- <-. exists 0. split; [apply counts_foldR_nil|by apply allocated_refl].
  - case_if_in H; [done|]. apply bind_Ok in H as ([y cat1] & H1 & H).
    apply bind_Ok in H as ([ys cat2] & H2 & [= <- <-]).
    destruct (Hstep _ _ _ _ Hu H1) as (n & Hn & Ha).
    destruct (IHl _ cat1 ys (allocated_u64 _ _ _ _ Ha) H2) as (m & Hm & Hb).
    exists (n + m). split; [by apply counts_foldR_cons|by eapply allocated_app].
Qed.

Lemma resolve_column x cat y cat' :
  is_u64 (next_id cat) = true →
  ('(ty, cat) ← res (col_ty x) cat; '(id, cat) ← allocate cat;
   Ok (Column (col_name x) ty (col_default x) id, cat)) = Ok (y, cat') →
  ∃ n, counts (λ c f, c ← checked_add_id c 1; n ← count (col_ty f); checked_add_id c n) x n ∧
       allocated cat cat' n (type_ids (col_ty y) ++ [col_id y]).
Proof.
  intros Hu H. apply bind_Ok in H as ([ty cat1] & H1 & H). apply bind_Ok in H as ([id cat2] & H2 & [= <- <-]).
  destruct (IH _ _ _ _ Hu H1) as (n & Hn & Ha). apply allocate_allocated in H2; [|by eapply allocated_u64].
  exists (n + 1). split; [|by eapply allocated_app].
  apply (counts_succ (λ c f, n ← count (col_ty f); checked_add_id c n)).
  exact (counts_add count _ _ (proj1 Ha) Hn).
Qed.

Lemma resolve_variant x cat y cat' :
  is_u64 (next_id cat) = true →
  ('(args, cat) ← mapS res (var_args x) cat; '(id, cat) ← allocate cat;
   Ok (EnumVariantDef (var_name x) args id, cat)) = Ok (y, cat') →
  ∃ n, counts (λ c v, c ← checked_add_id c 1; foldR (λ c ty, n ← count ty; checked_add_id c n) c (var_args v)) x n ∧
       allocated cat cat' n (flat_map type_ids (var_args y) ++ [var_id y]).
Proof.
  intros Hu H. apply bind_Ok in H as ([args cat1] & H1 & H). apply bind_Ok in H as ([id cat2] & H2 & [= <- <-]).
  destruct (resolve_items _ _ _ _ Hu H1) as (n & Hn & Ha). apply allocate_allocated in H2; [|by eapply allocated_u64].
  exists (n + 1). split; [|by eapply allocated_app].
  apply (counts_succ (λ c v, foldR (λ c ty, n ← count ty; checked_add_id c n) c (var_args v))). exact Hn.
Qed.
End resolve_lists.

Lemma counts_zero {A} (count : Z → A → result Z) l cat cat' n ids :
  counts (foldR count) l n → allocated cat cat' n ids → is_u64 (next_id cat) = true → foldR count 0 l = Ok n.
Proof.
  intros [_ Hc] (? & _ & Hu & _) Hcat. apply Hc; [done|]. unrange. lia.
Qed.

(** Resolving a type allocates exactly the IDs that [structural_id_count] predicts,
    without gaps, to its fields and variants. *)
Lemma resolve_inner_spec fuel ty cat ty' cat' :
  is_u64 (next_id cat) = true → resolve_inner fuel ty cat = Ok (ty', cat') →
  ∃ n, structural_id_count fuel ty = Ok n ∧ allocated cat cat' n (type_ids ty').
Proof.
  revert ty cat ty' cat'. induction fuel as [|fuel IH]; intros ty cat ty' cat' Hu H; [done|].
  cbn [resolve_inner structural_id_count] in *.
  destruct ty; try (injection H as <- <-; exists 0; split; [done|by apply allocated_refl]).
  - apply bind_Ok in H as (_ & _ & [= <- <-]). exists 0; split; [done|by apply allocated_refl].
  - apply bind_Ok in H as ([vs cat1] & H & [= <- <-]).
    eapply resolve_named in H as (n & Hn & Ha); [|by apply resolve_variant|done].
    exists n. split; [|done]. by eapply (counts_zero _ _ _ _ _ _ Hn).
  - apply bind_Ok in H as ([vs cat1] & H & [= <- <-]).
    eapply resolve_named in H as (n & Hn & Ha); [|by apply resolve_column|done].
    exists n. split; [|done]. by eapply (counts_zero _ _ _ _ _ _ Hn).
  - apply bind_Ok in H as ([vs cat1] & H & [= <- <-]).
    destruct (resolve_items _ _ IH _ _ _ _ Hu H) as (n & Hn & Ha).
    exists n. split; [|done]. by eapply (counts_zero _ _ _ _ _ _ Hn).
  - apply bind_Ok in H as ([t cat1] & H & [= <- <-]). by apply (IH ty cat t cat1).
  - apply bind_Ok in H as ([t cat1] & H & [= <- <-]). by apply (IH ty cat t cat1).
  - apply bind_Ok in H as ([t cat1] & H & [= <- <-]). by apply (IH ty cat t cat1).
  - apply bind_Ok in H as (d & _ & [= <- <-]). exists 0; split; [done|by apply allocated_refl].
Qed.

(** ** Well-formedness of resolved types *)

(** What a type guarantees before it is resolved: its IDs are not set yet. *)
Fixpoint wf_source (ty : ScalarType) : bool :=
  match ty with
  | TEnum variants =>
      forallb (λ v, wf_string (var_name v) && no_dot (var_name v) && forallb wf_source (var_args v)) variants
  | TRecord columns =>
      forallb (λ c, wf_string (col_name c) && match col_default c with Some v => wf_value v | None => true end &&
                    wf_source (col_ty c)) columns
  | TDecimal p s => is_u8 p && is_u8 s
  | TTuple items => forallb wf_source items
  | TOption t | TList t | TMap t => wf_source t
  | TRef id => is_u64 id
  | _ => true
  end.

(** Positive, 64-bit and distinct. *)
Definition good_ids (ids : list Z) : Prop := NoDup ids ∧ Forall (λ i, 1 ≤ i ∧ is_u64 i = true) ids.

Lemma good_ids_app ids js : good_ids (ids ++ js) → good_ids ids ∧ good_ids js.
Proof. intros [(? & _ & ?)%list.NoDup_app [? ?]%Forall_app]. done. Qed.

Lemma good_ids_flat_map {A} (f : A → list Z) (key : A → Z) l :
  good_ids (flat_map (λ x, f x ++ [key x]) l) →
  NoDup (key <$> l) ∧ ∀ x, x ∈ l → good_ids (f x) ∧ 1 ≤ key x ∧ is_u64 (key x) = true.
Proof.
  induction l as [|x l IH]; intros Hg; [by split; [constructor|intros ? ?%elem_of_nil]|].
  cbn [flat_map] in Hg. pose proof (good_ids_app _ _ Hg) as [Hx Hl]. destruct (IH Hl) as [Hn Hall].
  apply good_ids_app in Hx as [Hfx Hk]. split.
  - cbn [fmap list_fmap]. constructor; [|done]. intros (y & Hy & Hin)%list_elem_of_fmap.
    destruct Hg as [(_ & Hd & _)%list.NoDup_app _]. apply (Hd (key x)); [apply elem_of_app; right; by left|].
    apply list_elem_of_In, in_flat_map. exists y. rewrite <-!list_elem_of_In. split; [done|].
    apply elem_of_app. right. rewrite Hy. by left.
  - intros y [->|Hy]%elem_of_cons; [|auto]. split; [done|]. destruct Hk as [_ Hk]. by inversion Hk.
Qed.

Lemma good_ids_flat_map_all {A} (f : A → list Z) l : good_ids (flat_map f l) → Forall (λ x, good_ids (f x)) l.
Proof.
  induction l as [|x l IH]; intros Hg; constructor; cbn [flat_map] in Hg; apply good_ids_app in Hg as [? ?]; auto.
Qed.

(** The elements of a state-threading loop, each run from a state with the loop's
    invariant. *)
Lemma mapS_Forall2 {A B S} (P : S → Prop) (f : A → S → result (B * S)) l s l' s' :
  (∀ x s y s', P s → f x s = Ok (y, s') → P s') → P s → mapS f l s = Ok (l', s') →
  Forall2 (λ x y, ∃ s s', P s ∧ f x s = Ok (y, s')) l l'.
Proof.
  intros Hf. revert s l'. induction l as [|x l IH]; intros s l' Hs H; cbn [mapS] in H.
  - injection H as <- <-. constructor.
  - apply bind_Ok in H as ([y s1] & H1 & H). apply bind_Ok in H as ([ys s2] & H2 & [= <- <-]).
    constructor; eauto 6.
Qed.

Lemma each_named_Forall2 {A B} (P : Catalog → Prop) (name : A → string) (step : A → Catalog → result (B * Catalog))
    l seen cat l' cat' :
  (∀ x s y s', P s → step x s = Ok (y, s') → P s') → P cat → each_named name step l seen cat = Ok (l', cat') →
  Forall2 (λ x y, ∃ s s', P s ∧ step x s = Ok (y, s')) l l' ∧ NoDup (name <$> l) ∧
  ∀ x, x ∈ l → bs_mem (name x) seen = false.
Proof.
  intros Hf. revert seen cat l'. induction l as [|x l IH]; intros seen cat l' Hs H; cbn [each_named] in H.
  - injection H as <- <-. split_and!; [constructor..|]. by intros ? ?%elem_of_nil.
  - case_if_in H; [done|]. apply bind_Ok in H as ([y s1] & H1 & H). apply bind_Ok in H as ([ys s2] & H2 & [= <- <-]).
    destruct (IH _ _ _ (Hf _ _ _ _ Hs H1) H2) as (Hfa & Hn & Hseen).
    assert (Hx : ∀ z, z ∈ l → name z ≠ name x ∧ bs_mem (name z) seen = false).
    { intros z Hz. specialize (Hseen z Hz). apply not_true_iff_false in Hseen. rewrite bs_mem_insert in Hseen.
      split; [naive_solver|]. apply not_true_iff_false. naive_solver. }
    split_and!; [constructor; eauto| |].
    + cbn [fmap list_fmap]. constructor; [|done]. intros (z & Hz & Hin)%list_elem_of_fmap. by destruct (Hx z Hin).
    + intros z [->|Hz]%elem_of_cons; [done|]. by apply Hx.
Qed.

(** The state of resolution: the same definitions, and an ID that fits. *)
Definition same_types (T : list (string * TypeDefinition)) (cat : Catalog) : Prop :=
  types cat = T ∧ is_u64 (next_id cat) = true.

Lemma allocated_same_types T cat cat' n ids : allocated cat cat' n ids → same_types T cat → same_types T cat'.
Proof. intros (_ & -> & ? & _) [? _]. done. Qed.

Lemma resolve_same_types fuel T ty cat ty' cat' :
  same_types T cat → resolve_inner fuel ty cat = Ok (ty', cat') → same_types T cat'.
Proof.
  intros HT H. destruct (resolve_inner_spec _ _ _ _ _ (proj2 HT) H) as (n & _ & Ha). by eapply allocated_same_types.
Qed.

Lemma mapS_same_types fuel T l cat l' cat' :
  same_types T cat → mapS (resolve_inner fuel) l cat = Ok (l', cat') → same_types T cat'.
Proof.
  intros HT H. destruct (resolve_items _ _ (resolve_inner_spec fuel) _ _ _ _ (proj2 HT) H) as (n & _ & Ha).
  by eapply allocated_same_types.
Qed.

Lemma allocate_same_types T cat id cat' : same_types T cat → allocate cat = Ok (id, cat') → same_types T cat'.
Proof. intros HT H. apply allocate_allocated in H; [|apply HT]. by eapply allocated_same_types. Qed.

Section resolve_wf.
Context (T : list (string * TypeDefinition)) (fuel : nat).
Context (IH : ∀ ty cat ty' cat', same_types T cat → wf_source ty = true → resolve_inner fuel ty cat = Ok (ty', cat') →
  good_ids (type_ids ty') → wf_type ty' = true).

Lemma resolve_items_wf tys cat tys' cat' :
  same_types T cat → forallb wf_source tys = true → mapS (resolve_inner fuel) tys cat = Ok (tys', cat') →
  good_ids (flat_map type_ids tys') → forallb wf_type tys' = true.
Proof.
  intros HT Hw H Hg%good_ids_flat_map_all.
  apply (mapS_Forall2 (same_types T)) in H; [|intros ???? ??; by eapply resolve_same_types|done].
  apply forallb_Forall. rewrite forallb_Forall in Hw. induction H as [|x y l l' (s & s' & Hs & Hr) _ IHl]; [constructor|].
  apply list.Forall_cons in Hg as [??], Hw as [??]. constructor; eauto.
Qed.

Lemma resolve_record_wf columns cat columns' cat' :
  same_types T cat → wf_source (TRecord columns) = true →
  each_named col_name (λ column cat, '(ty, cat) ← resolve_inner fuel (col_ty column) cat; '(id, cat) ← allocate cat;
    Ok (Column (col_name column) ty (col_default column) id, cat)) columns [] cat = Ok (columns', cat') →
  good_ids (type_ids (TRecord columns')) → wf_type (TRecord columns') = true.
Proof.
  intros HT Hw H Hg%(good_ids_flat_map (λ c, type_ids (col_ty c)) col_id). destruct Hg as [Hn Hg].
  apply (each_named_Forall2 (same_types T)) in H as (Hf & Hnames & _); [| |done].
  - assert (Hcols : Forall2 (λ c c', col_name c = col_name c' ∧ wf_string (col_name c') && is_u64 (col_id c') &&
        match col_default c' with Some v => wf_value v | None => true end && wf_type (col_ty c') = true) columns columns').
    { simpl in Hw. rewrite forallb_Forall in Hw. clear Hn Hnames. induction Hf as [|c c' l l' (s & s' & Hs & Hr) _ IHl]; [constructor|].
      apply list.Forall_cons in Hw as [Hc Hw]. constructor; [|apply IHl; [done|intros; apply Hg; by right]].
      apply bind_Ok in Hr as ([ty s1] & Hr & H). apply bind_Ok in H as ([id s2] & _ & [= <- <-]). simpl in *.
      split; [done|]. destruct (Hg (Column (col_name c) ty (col_default c) id)) as (Hgi & _ & Hu); [by left|]. simpl in *.
      bool_inv. rewrite !andb_true_iff. split_and!; eauto. }
    cbn [wf_type]. rewrite (proj2 (nodupb_spec _) Hn). rewrite andb_true_r, andb_true_iff, nodupb_spec, forallb_Forall. split.
    + replace (col_name <$> columns') with (col_name <$> columns); [done|].
      clear -Hcols. induction Hcols as [|c c' l l' [E _] _ IHl]; [done|]. cbn. by rewrite E, IHl.
    + clear -Hcols. induction Hcols as [|c c' l l' [_ E] _ IHl]; constructor; done.
  - intros x s y s' Hs Hr. apply bind_Ok in Hr as ([ty s1] & Hr & Hr'). apply bind_Ok in Hr' as ([id s2] & Ha & [= <- <-]).
    eapply allocate_same_types; [|done]. by eapply resolve_same_types.
Qed.

Lemma resolve_enum_wf variants cat variants' cat' :
  same_types T cat → wf_source (TEnum variants) = true →
  each_named var_name (λ v cat, '(args, cat) ← mapS (resolve_inner fuel) (var_args v) cat; '(id, cat) ← allocate cat;
    Ok (EnumVariantDef (var_name v) args id, cat)) variants [] cat = Ok (variants', cat') →
  good_ids (type_ids (TEnum variants')) → wf_type (TEnum variants') = true.
Proof.
  intros HT Hw H Hg%(good_ids_flat_map (λ v, flat_map type_ids (var_args v)) var_id). destruct Hg as [Hn Hg].
  apply (each_named_Forall2 (same_types T)) in H as (Hf & _ & _); [| |done].
  - cbn [wf_type]. rewrite (proj2 (nodupb_spec _) Hn). rewrite andb_true_l, forallb_Forall.
    simpl in Hw. rewrite forallb_Forall in Hw. clear Hn. induction Hf as [|v v' l l' (s & s' & Hs & Hr) _ IHl]; [constructor|].
    apply list.Forall_cons in Hw as [Hv Hw]. constructor; [|apply IHl; [done|intros; apply Hg; by right]].
    apply bind_Ok in Hr as ([args s1] & Hr & H). apply bind_Ok in H as ([id s2] & _ & [= <- <-]). simpl in *.
    destruct (Hg (EnumVariantDef (var_name v) args id)) as (Hgi & H1 & Hu); [by left|]. simpl in *.
    bool_inv. rewrite !andb_true_iff; split_and!; try done; [apply negb_true_iff, Z.eqb_neq; lia|].
    by eapply resolve_items_wf.
  - intros x s y s' Hs Hr. apply bind_Ok in Hr as ([ty s1] & Hr & Hr'). apply bind_Ok in Hr' as ([id s2] & Ha & [= <- <-]).
    eapply allocate_same_types; [|done]. by eapply mapS_same_types.
Qed.
End resolve_wf.

Lemma resolve_inner_wf fuel T ty cat ty' cat' :
  Forall (λ e, is_u64 (def_id e.2) = true) T → same_types T cat → wf_source ty = true →
  resolve_inner fuel ty cat = Ok (ty', cat') → good_ids (type_ids ty') → wf_type ty' = true.
Proof.
  intros HTu. revert ty cat ty' cat'. induction fuel as [|fuel IH]; intros ty cat ty' cat' HT Hw H Hg; [done|].
  cbn [resolve_inner] in H. destruct ty; try (injection H as <- <-; done).
  - apply bind_Ok in H as (_ & _ & [= <- <-]). done.
  - apply bind_Ok in H as ([vs cat1] & H & [= <- <-]). by eapply resolve_enum_wf.
  - apply bind_Ok in H as ([vs cat1] & H & [= <- <-]). by eapply resolve_record_wf.
  - apply bind_Ok in H as ([vs cat1] & H & [= <- <-]). by apply (resolve_items_wf _ _ IH items cat vs cat1).
  - apply bind_Ok in H as ([t cat1] & H & [= <- <-]). by apply (IH ty cat t cat1).
  - apply bind_Ok in H as ([t cat1] & H & [= <- <-]). by apply (IH ty cat t cat1).
  - apply bind_Ok in H as ([t cat1] & H & [= <- <-]). by apply (IH ty cat t cat1).
  - apply bind_Ok in H as (d & Hd%ok_or_Ok & [= <- <-]). destruct HT as [<- _].
    apply bt_get_elem in Hd. rewrite list.Forall_forall in HTu. exact (HTu _ Hd).
Qed.

Section normalize.
Context (norm : ScalarType → result ScalarType) (co : Value → ScalarType → result Value).
Context (IH : ∀ t t', wf_type t = true → norm t = Ok t' → wf_type t' = true ∧ type_ids t' = type_ids t).
Context (Hco : ∀ v t r, wf_type t = true → wf_value v = true → co v t = Ok r → wf_value r = true).

Lemma normalize_items tys tys' :
  forallb wf_type tys = true → mapR norm tys = Ok tys' →
  forallb wf_type tys' = true ∧ flat_map type_ids tys' = flat_map type_ids tys.
Proof.
  rewrite mapR_Ok. intros Hw H. induction H as [|t t' l l' Ht _ IHl]; [done|]. simpl in *. bool_inv.
  destruct (IH t t') as [-> ->]; [done..|]. destruct IHl as [-> ->]; done.
Qed.

Lemma normalize_columns columns columns' :
  wf_type (TRecord columns) = true →
  mapR (λ column, ty ← norm (col_ty column);
    default ← match col_default column with Some value => Some <$> co value ty | None => Ok None end;
    Ok (Column (col_name column) ty default (col_id column))) columns = Ok columns' →
  wf_type (TRecord columns') = true ∧ type_ids (TRecord columns') = type_ids (TRecord columns).
Proof.
  rewrite mapR_Ok. intros Hw H. cbn [wf_type] in *. bool_inv.
  assert (Hc : col_name <$> columns' = col_name <$> columns ∧ col_id <$> columns' = col_id <$> columns ∧
    forallb (λ c, wf_string (col_name c) && is_u64 (col_id c) &&
      match col_default c with Some v => wf_value v | None => true end && wf_type (col_ty c)) columns' = true ∧
    type_ids (TRecord columns') = type_ids (TRecord columns)).
  { repeat match goal with Hn : nodupb _ = true |- _ => clear Hn end.
    induction H as [|c c' l l' Hc _ IHl]; [done|]. cbn [forallb] in *. bool_inv.
    destruct IHl as (En & Ei & Ew & Et); [done|]. apply bind_Ok in Hc as (x & Hx & Hc).
    apply bind_Ok in Hc as (default & Hd & [= <-]). destruct (IH (col_ty c) x) as [Hwx Ex]; [done..|]. cbn [type_ids flat_map] in *. cbn [fmap list_fmap forallb col_name col_ty col_id col_default var_name var_args var_id].
    rewrite En, Ei, Ew, Et, Ex.
    split_and!; try done. rewrite !andb_true_iff. split_and!; try done.
    destruct (col_default c) as [v|]; [|by injection Hd as <-].
    apply fmap_Ok in Hd as (r & Hr & ->). by eapply Hco. }
  destruct Hc as (-> & -> & -> & ->). by rewrite !andb_true_iff.
Qed.

Lemma normalize_variants variants variants' :
  wf_type (TEnum variants) = true →
  mapR (λ v, args ← mapR norm (var_args v); Ok (EnumVariantDef (var_name v) args (var_id v))) variants = Ok variants' →
  wf_type (TEnum variants') = true ∧ type_ids (TEnum variants') = type_ids (TEnum variants).
Proof.
  rewrite mapR_Ok. intros Hw H. cbn [wf_type] in *. bool_inv.
  assert (Hc : var_id <$> variants' = var_id <$> variants ∧
    forallb (λ v, negb (var_id v =? 0) && is_u64 (var_id v) && wf_string (var_name v) && no_dot (var_name v) &&
                  forallb wf_type (var_args v)) variants' = true ∧
    type_ids (TEnum variants') = type_ids (TEnum variants)).
  { match goal with Hn : nodupb _ = true |- _ => clear Hn end.
    induction H as [|v v' l l' Hv _ IHl]; [done|]. cbn [forallb] in *. bool_inv.
    destruct IHl as (Ei & Ew & Et); [done|]. apply bind_Ok in Hv as (args & Hargs & [= <-]).
    apply normalize_items in Hargs as [Hx Ex]; [|done]. cbn [type_ids flat_map] in *. cbn [fmap list_fmap forallb col_name col_ty col_id col_default var_name var_args var_id].
    rewrite Ei, Ew, Et, Ex, Hx.
    split_and!; try done. rewrite !andb_true_iff, negb_true_iff, Z.eqb_neq. by split_and!. }
  destruct Hc as (-> & -> & ->). by rewrite !andb_true_iff.
Qed.
End normalize.

Lemma normalize_defaults_wf fuel cat ty ty' :
  wf_catalog cat = true → wf_type ty = true → normalize_defaults fuel cat ty = Ok ty' →
  wf_type ty' = true ∧ type_ids ty' = type_ids ty.
Proof.
  intros Hcat. revert ty ty'. induction fuel as [|fuel IH]; intros ty ty' Hw H; [done|].
  cbn [normalize_defaults] in H. destruct ty; try (injection H as <-; done);
    apply fmap_Ok in H as (t & H & ->); try (by apply (IH ty t)).
  - by apply (normalize_variants _ IH) in H.
  - apply (normalize_columns _ (coerce_inner fuel cat) IH) in H; try done.
    intros v t' r Ht Hv Hr. by eapply coerce_inner_sound.
  - by apply (normalize_items _ IH) in H.
Qed.

(** ** Declaring a type *)

(** Every stable ID of the catalog: nominal types, fields and variants. *)
Definition catalog_ids (cat : Catalog) : list Z :=
  flat_map (λ e, type_ids (def_ty e.2) ++ [def_id e.2]) (types cat).

(** No ID is used twice, and none is at or above the next one to be allocated. *)
Definition ids_unique (cat : Catalog) : Prop :=
  NoDup (catalog_ids cat) ∧ Forall (λ i, 1 ≤ i < next_id cat) (catalog_ids cat).

Lemma wf_catalog_parts cat :
  wf_catalog cat = true → bt_sorted (types cat) = true ∧ is_u64 (next_id cat) = true ∧ 1 ≤ next_id cat ∧
  NoDup ((λ e, def_id e.2) <$> types cat) ∧
  Forall (λ e, def_name e.2 = e.1 ∧ 1 ≤ def_id e.2 < next_id cat ∧ wf_type (def_ty e.2) = true) (types cat).
Proof.
  unfold wf_catalog. intros H. bool_inv. split_and!; try done; [by apply nodupb_spec|].
  rewrite <-forallb_Forall || idtac. match goal with H : forallb _ _ = true |- _ => apply forallb_Forall in H; revert H end.
  apply Forall_impl. intros e He. by bool_inv.
Qed.

Lemma wf_catalog_defs_u64 cat : wf_catalog cat = true → Forall (λ e, is_u64 (def_id e.2) = true) (types cat).
Proof.
  intros (_ & Hu & _ & _ & Hf)%wf_catalog_parts. revert Hf. apply Forall_impl. intros e (_ & ? & _). unrange. lia.
Qed.

Lemma with_type_wf cat name id ty next :
  wf_catalog cat = true → bt_get name (types cat) = None → next_id cat ≤ id < next → is_u64 next = true →
  wf_type ty = true → wf_catalog (mkCatalog (bt_insert name (mkTypeDefinition id name ty) (types cat)) next) = true.
Proof.
  intros (Hs & Hu & H1 & Hn & Hf)%wf_catalog_parts Hnew Hid Hnext Hty. unfold wf_catalog. cbn [types next_id].
  pose proof (bt_insert_perm name (mkTypeDefinition id name ty) _ Hnew) as Hperm.
  rewrite bt_insert_sorted by done. rewrite !andb_true_iff, nodupb_spec, forallb_Forall, Hperm. cbn [fmap list_fmap].
  split_and!; try done; [| |apply Z.leb_le; lia].
  - constructor; [|done]. intros (e & He & Hin)%list_elem_of_fmap. rewrite list.Forall_forall in Hf.
    destruct (Hf e Hin) as (_ & ? & _). simpl in He. lia.
  - constructor.
    + simpl. by rewrite String.eqb_refl, Hty, (proj2 (Z.leb_le _ _)), (proj2 (Z.ltb_lt _ _)) by lia.
    + revert Hf. apply Forall_impl. intros e (-> & ? & ->).
      by rewrite String.eqb_refl, (proj2 (Z.leb_le _ _)), (proj2 (Z.ltb_lt _ _)) by lia.
Qed.

Lemma seqZ_good_ids start n :
  1 ≤ start → 0 ≤ n → is_u64 (start + n) = true → good_ids (seqZ start n).
Proof.
  intros Hs Hn Hu. split; [apply NoDup_seqZ|]. apply list.Forall_forall. intros i Hi%elem_of_seqZ. split; [lia|].
  unrange. lia.
Qed.

(** The whole of a successful declaration. *)
Lemma define_body_spec cat name ty cat' id alloc :
  wf_catalog cat = true → wf_source ty = true → bt_get name (types cat) = None →
  define_body cat name ty = Ok (cat', id, alloc) →
  ∃ ty', structural_id_count MAX_DEPTH ty = Ok (id - next_id cat) ∧ alloc = id ∧ next_id cat ≤ id ∧
    cat' = mkCatalog (bt_insert name (mkTypeDefinition id name ty') (types cat)) (id + 1) ∧
    type_ids ty' ++ [id] = seqZ (next_id cat) (id + 1 - next_id cat) ∧
    wf_catalog cat' = true ∧ validate_finite_types cat' = Ok tt.
Proof.
  unfold define_body. generalize MAX_DEPTH at 1 2 3 4. intros fuel Hw Hsrc Hnew H.
  destruct (wf_catalog_parts _ Hw) as (Hs & Hu & H1 & _ & _).
  apply bind_Ok in H as (n & Hn & H). apply bind_Ok in H as (id' & [Hidu ->]%checked_add_id_Ok & H).
  apply bind_Ok in H as ([ty1 cat1] & Hr & H). apply bind_Ok in H as ([al cat2] & Hal & H).
  apply bind_Ok in H as (ty2 & Hnorm & H). apply bind_Ok in H as ([] & Hval & [= <- <- <-]).
  destruct (resolve_inner_spec _ _ (with_type _ _ _) _ _ Hu Hr) as (n' & Hn' & Ha). rewrite Hn in Hn'. injection Hn' as <-.
  unfold allocate in Hal. apply bind_Ok in Hal as (nx & [Hnx ->]%ok_or_Ok%checked_Some & [= <- <-]).
  pose proof Ha as (Hn0 & -> & _ & Hids). cbn [types next_id with_type] in *.
  unfold with_type in Hnorm, Hval |- *. cbn [types next_id] in Hnorm, Hval |- *.
  rewrite !bt_insert_insert in *. set (id := next_id cat + n) in *.
  assert (Hw1 : wf_type ty1 = true).
  { eapply resolve_inner_wf in Hr; [done| |by split|done|rewrite Hids; by apply seqZ_good_ids].
    cbn [types with_type]. rewrite bt_insert_perm by done. constructor; [done|by apply wf_catalog_defs_u64]. }
  apply normalize_defaults_wf in Hnorm as [Hw2 Hids2]; [|apply with_type_wf; try done; lia|done].
  exists ty2. replace (id - next_id cat) with n by lia. split_and!; try done; [lia| |apply with_type_wf; try done; lia].
  rewrite Hids2, Hids. replace (id + 1 - next_id cat) with (n + 1) by lia. by rewrite seqZ_app by lia.
Qed.

Lemma flat_map_Permutation {A B} (f : A → list B) l k : l ≡ₚ k → flat_map f l ≡ₚ flat_map f k.
Proof.
  induction 1; simpl; [done|by f_equiv| |by etrans]. rewrite !app_assoc. f_equiv. apply Permutation_app_comm.
Qed.

Lemma define_body_ids cat name ty cat' id alloc :
  wf_catalog cat = true → wf_source ty = true → bt_get name (types cat) = None →
  define_body cat name ty = Ok (cat', id, alloc) →
  catalog_ids cat' ≡ₚ seqZ (next_id cat) (next_id cat' - next_id cat) ++ catalog_ids cat ∧ next_id cat < next_id cat'.
Proof.
  intros Hw Hs Hn H. apply define_body_spec in H as (ty' & _ & _ & Hid & -> & Hids & _); [|done..].
  cbn [next_id]. rewrite <-Hids. split; [|lia]. unfold catalog_ids. cbn [types].
  by rewrite (flat_map_Permutation _ _ _ (bt_insert_perm _ _ _ Hn)).
Qed.

Lemma ids_unique_extend cat cat' :
  catalog_ids cat' ≡ₚ seqZ (next_id cat) (next_id cat' - next_id cat) ++ catalog_ids cat → 1 ≤ next_id cat →
  next_id cat ≤ next_id cat' → ids_unique cat → ids_unique cat'.
Proof.
  intros Hp H1 Hle [Hn Hf]. unfold ids_unique. rewrite Hp, list.NoDup_app, Forall_app. rewrite list.Forall_forall in Hf.
  split_and!; [apply NoDup_seqZ| |done| |].
  - intros i Hi%elem_of_seqZ Hc. specialize (Hf _ Hc). simpl in Hf. lia.
  - apply list.Forall_forall. intros i Hi%elem_of_seqZ. lia.
  - apply list.Forall_forall. intros i Hi. specialize (Hf _ Hi). simpl in Hf. lia.
Qed.

(** ** Inhabited types *)

Lemma forallb_impl {A} (f g : A → bool) l :
  (∀ x, x ∈ l → f x = true → g x = true) → forallb f l = true → forallb g l = true.
Proof. rewrite !forallb_Forall, !list.Forall_forall. eauto. Qed.

Lemma all2_impl {A B} (f g : A → B → bool) l k :
  (∀ x y, f x y = true → g x y = true) → all2 f l k = true → all2 g l k = true.
Proof. rewrite !all2_Forall2. intros Hi. apply Forall2_impl. by apply Hi. Qed.

(** A catalog extends another one when it keeps its definitions. *)
Definition extends (cat cat' : Catalog) : Prop :=
  (∀ id d, definition cat id = Ok d → definition cat' id = Ok d) ∧
  (∀ name d, bt_get name (types cat) = Some d → bt_get name (types cat') = Some d).

Global Instance extends_preorder : PreOrder extends.
Proof. split; [done|]. intros a b c [? ?] [? ?]. split; eauto. Qed.

Lemma extends_same_types cat cat' : types cat' = types cat → extends cat cat'.
Proof. intros E. unfold extends, definition. by rewrite E. Qed.

(** Canonical values stay canonical when the catalog grows and the depth bound rises. *)
Lemma conforms_mono fuel fuel' cat cat' ty v :
  extends cat cat' → (fuel ≤ fuel')%nat → conforms fuel cat ty v = true → conforms fuel' cat' ty v = true.
Proof.
  intros [Hext _]. revert fuel' ty v. induction fuel as [|fuel IH]; intros [|fuel'] ty v Hle H; [done..|lia|].
  assert (IH' : ∀ t w, conforms fuel cat t w = true → conforms fuel' cat' t w = true) by (intros; apply IH; [lia|done]).
  clear IH. cbn [conforms] in *.
  destruct ty, v as [| | | | | | | | | | |n args i| | | | |[w|]|]; try discriminate H; try done.
  - destruct (find_variant_id _ _); [|done]. bool_inv. apply andb_true_iff. split; [by apply String.eqb_eq|].
    by eapply all2_impl; [apply IH'|].
  - bool_inv. apply andb_true_iff. split; [by apply Z.eqb_eq|]. revert H0. apply forallb_impl. intros c _.
    destruct (bt_get _ _); auto.
  - by eapply all2_impl; [apply IH'|].
  - auto.
  - revert H. apply forallb_impl. auto.
  - bool_inv. apply andb_true_iff. split; [by apply Z.leb_le|]. revert H0. apply forallb_impl. intros [k w] _ Hk.
    bool_inv. apply andb_true_iff. split; [by apply Z.leb_le|auto].
  - bool_inv. apply andb_true_iff. split; [by apply Z.eqb_eq|]. destruct (definition cat id) as [d|] eqn:Ed; [|done].
    rewrite (Hext _ _ Ed). auto.
Qed.

Lemma conforms_le fuel fuel' cat ty v : (fuel ≤ fuel')%nat → conforms fuel cat ty v = true → conforms fuel' cat ty v = true.
Proof. by apply conforms_mono. Qed.

(** A type has a canonical value. *)
Definition inhabited (cat : Catalog) (ty : ScalarType) : Prop :=
  ∃ fuel v, conforms fuel cat ty v = true ∧ wf_value v = true.

Lemma inhabited_items cat tys :
  Forall (inhabited cat) tys → ∃ fuel vs, all2 (conforms fuel cat) tys vs = true ∧ forallb wf_value vs = true.
Proof.
  induction 1 as [|t tys (f & v & Hc & Hv) _ (f' & vs & Hcs & Hvs)]; [by exists 0%nat, []|].
  exists (Nat.max f f'), (v :: vs). simpl. rewrite Hv, Hvs. split; [|done]. apply andb_true_iff. split.
  - by eapply conforms_le; [|done]; lia.
  - eapply all2_impl; [|done]. intros x y. apply conforms_le. lia.
Qed.

Lemma inhabited_record cat (columns : Columns) :
  NoDup (col_name <$> columns) → Forall (λ c, wf_string (col_name c) = true ∧ inhabited cat (col_ty c)) columns →
  ∃ fuel fields, bt_sorted fields = true ∧ length fields = length columns ∧
    (∀ k, k ∉ col_name <$> columns → bt_get k fields = None) ∧
    forallb (λ kv, wf_string kv.1 && wf_value kv.2) fields = true ∧
    forallb (λ c, match bt_get (col_name c) fields with Some v => conforms fuel cat (col_ty c) v | None => false end)
      columns = true.
Proof.
  induction columns as [|c columns IH]; intros Hn Hf; [by exists 0%nat, []|].
  apply list.NoDup_cons in Hn as [Hc Hn]. apply list.Forall_cons in Hf as [[Hw (f & v & Hcv & Hv)] Hf].
  destruct (IH Hn Hf) as (f' & fields & Hs & Hl & Hout & Hwf & Hall). exists (Nat.max f f'), (bt_insert (col_name c) v fields).
  split_and!.
  - by apply bt_insert_sorted.
  - rewrite bt_insert_length_new by auto. simpl. by rewrite Hl.
  - intros k [Hk Hk']%not_elem_of_cons. rewrite bt_get_insert_ne by done. auto.
  - rewrite forallb_Forall, bt_insert_perm by auto. constructor; [cbn [fst snd]; by rewrite Hw, Hv|by apply forallb_Forall].
  - cbn [forallb]. rewrite bt_get_insert_eq. apply andb_true_iff. split; [by eapply conforms_le; [|done]; lia|].
    revert Hall. apply forallb_impl. intros c' Hc'. rewrite bt_get_insert_ne.
    + destruct (bt_get _ _); [|done]. apply conforms_le. lia.
    + intros E. apply Hc. rewrite <-E. by apply list_elem_of_fmap_2.
Qed.

Lemma foldR_unit_all {A} (f : A → result unit) l : foldR (λ _ x, f x) tt l = Ok tt ↔ Forall (λ x, f x = Ok tt) l.
Proof.
  induction l as [|x l IH]; cbn [foldR]; [by split|]. rewrite bind_Ok, list.Forall_cons, <-IH. split.
  - by intros ([] & ? & ?).
  - intros [? ?]. by exists tt.
Qed.

Lemma definition_elem cat name d : wf_catalog cat = true → (name, d) ∈ types cat → definition cat (def_id d) = Ok d.
Proof.
  intros (_ & _ & _ & Hn & _)%wf_catalog_parts Hin. unfold definition. rewrite (find_unique _ _ (name, d)); [done|done|apply Z.eqb_refl|].
  intros y Hy E. bool_inv. by eapply (NoDup_fmap_key (λ e, def_id e.2)).
Qed.

(** The set only holds inhabited types ... *)
Definition finite_sound (cat : Catalog) (finite : bset Z) : Prop :=
  ∀ id, bs_mem id finite = true → inhabited cat (TRef id).

(** ... and every type it does not hold still waits for another one. *)
Definition finite_closed (cat : Catalog) (finite : bset Z) : Prop :=
  ∀ e, e ∈ types cat → type_is_finite (def_ty e.2) finite = true → bs_mem (def_id e.2) finite = true.

Lemma type_is_finite_inhabited k cat ty finite :
  wf_catalog cat = true → finite_sound cat finite → wf_type ty = true → validate_type_references k cat ty = Ok tt →
  type_is_finite ty finite = true → inhabited cat ty.
Proof.
  intros Hcat Hs. revert ty. induction k as [|k IH]; intros ty Hw Hr Hf; [done|]. cbn [validate_type_references] in Hr.
  destruct ty.
  - by exists 1%nat, (VInt 0).
  - by exists 1%nat, (VFloat 0).
  - by exists 1%nat, (VBool false).
  - by exists 1%nat, (VText "").
  - by exists 1%nat, (VUuid (replicate 16 0)).
  - by exists 1%nat, (VDate 0).
  - by exists 1%nat, (VTimestamp 0).
  - by exists 1%nat, (VDuration 0).
  - exists 1%nat, (VDecimal (mkDecimal 0 scale)). cbn [conforms Decimal.scale coefficient]. rewrite Hr, Z.eqb_refl. simpl in Hw. bool_inv.
    apply validate_type_Ok in Hr. unrange. split; [apply Z.ltb_lt; simpl; apply Z.pow_pos_nonneg; lia|].
    apply wf_decimal_spec. simpl. lia.
  - by exists 1%nat, (VBytes []).
  - apply foldR_unit_all in Hr. simpl in Hf. apply existsb_exists in Hf as (v & Hv%list_elem_of_In & Hfv).
    destruct (wf_type_variant _ _ Hw Hv) as (_ & Hu & Hname & _ & Hargs).
    destruct (inhabited_items cat (var_args v)) as (f & vs & Hc & Hvs).
    { rewrite forallb_Forall, list.Forall_forall in Hfv. rewrite list.Forall_forall in Hargs, Hr |- *. intros t Ht.
      apply IH; auto. apply Hr. apply list_elem_of_In, in_concat. exists (var_args v). rewrite <-!list_elem_of_In.
      split; [|done]. by apply list_elem_of_fmap_2. }
    exists (S f), (VEnum (var_name v) vs (var_id v)). cbn [conforms wf_value].
    by rewrite find_variant_id_elem, String.eqb_refl, Hname, Hu, Hc, Hvs.
  - apply foldR_unit_all in Hr. simpl in Hf. rewrite forallb_Forall, list.Forall_forall in Hf.
    destruct (inhabited_record cat columns) as (f & fields & Hso & Hl & _ & Hwf & Hall).
    { by apply wf_type_nodup_columns. }
    { apply list.Forall_forall. intros c Hc. destruct (wf_type_column _ _ Hw Hc) as (Hn & _ & Ht & _).
      split; [done|]. apply IH; auto. rewrite list.Forall_forall in Hr. apply Hr. by apply list_elem_of_fmap_2. }
    exists (S f), (VRecord fields). cbn [conforms wf_value]. unfold zlen. by rewrite Hl, Z.eqb_refl, Hall, Hso, Hwf.
  - apply foldR_unit_all in Hr. simpl in Hf, Hw. rewrite forallb_Forall, list.Forall_forall in Hf, Hw.
    rewrite list.Forall_forall in Hr. destruct (inhabited_items cat items) as (f & vs & Hc & Hvs).
    { apply list.Forall_forall. auto. }
    by exists (S f), (VTuple vs).
  - by exists 1%nat, (VOption None).
  - by exists 1%nat, (VList []).
  - by exists 1%nat, (VMap []).
  - done.
  - by apply Hs.
Qed.

(** A canonical value witnesses every type it is built from. *)
Lemma conforms_finite fuel cat ty v finite :
  finite_closed cat finite → conforms fuel cat ty v = true → type_is_finite ty finite = true.
Proof.
  intros Hcl. revert ty v. induction fuel as [|fuel IH]; intros ty v H; [done|]. cbn [conforms] in H.
  assert (Hitems : ∀ tys vs, all2 (conforms fuel cat) tys vs = true → forallb (λ t, type_is_finite t finite) tys = true).
  { intros tys vs Hall%all2_Forall2. induction Hall; [done|]. simpl. apply andb_true_iff. eauto. }
  destruct ty, v as [| | | | | | | | | | |n args i| | | | |[w|]|]; try discriminate H; try done; simpl.
  - destruct (find_variant_id variants i) as [var|] eqn:E; [|done]. apply find_variant_id_Some in E as (Hin & _).
    bool_inv. apply existsb_exists. exists var. rewrite <-list_elem_of_In. eauto.
  - bool_inv. match goal with Hc : forallb _ columns = true |- _ => revert Hc end. apply forallb_impl. intros c _.
    destruct (bt_get _ _); [apply IH|done].
  - eauto.
  - bool_inv. destruct (definition cat id) as [d|] eqn:Ed; [|done]. apply definition_Ok in Ed as (name & Hin & <-).
    apply (Hcl _ Hin). eauto.
Qed.

Lemma type_is_finite_mono ty finite finite' :
  (∀ id, bs_mem id finite = true → bs_mem id finite' = true) → type_is_finite ty finite = true → type_is_finite ty finite' = true.
Proof.
  intros Hm. revert ty. fix IH 1. intros ty. destruct ty; simpl; auto.
  - induction variants as [|v vs IHv]; simpl; [done|]. rewrite !orb_true_iff. intros [H|H]; [left|by right; apply IHv].
    revert H. induction (var_args v) as [|a args IHa]; simpl; [done|]. rewrite !andb_true_iff. intros [H1 H2]. auto.
  - induction columns as [|c cs IHc]; simpl; [done|]. rewrite !andb_true_iff. intros [H1 H2]. auto.
  - induction items as [|c cs IHc]; simpl; [done|]. rewrite !andb_true_iff. intros [H1 H2]. auto.
Qed.

(** What one pass of the loop keeps. *)
Definition finite_inv (cat : Catalog) (finite : bset Z) : Prop :=
  bt_sorted finite = true ∧ finite_sound cat finite ∧ ∀ id, bs_mem id finite = true → id ∈ (λ e, def_id e.2) <$> types cat.

Definition references_valid (cat : Catalog) : Prop :=
  ∀ e, e ∈ types cat → validate_type_references MAX_DEPTH cat (def_ty e.2) = Ok tt.

Lemma finite_step cat e finite :
  wf_catalog cat = true → references_valid cat → e ∈ types cat → finite_inv cat finite →
  type_is_finite (def_ty e.2) finite = true → finite_inv cat (bs_insert (def_id e.2) finite).
Proof.
  intros Hcat Hrefs He (Hso & Hs & Hin) Hf. destruct e as [name d]. simpl in *. split_and!.
  - by apply bt_insert_sorted.
  - intros id [->|Hid]%bs_mem_insert; [|auto].
    pose proof (definition_elem _ _ _ Hcat He) as Hd. destruct (definition_wf _ _ _ Hcat Hd) as (Hw & Hu & _).
    pose proof (Hrefs _ He) as Hr. revert Hr. generalize MAX_DEPTH. intros k Hr.
    destruct (type_is_finite_inhabited _ _ _ _ Hcat Hs Hw Hr Hf) as (f & v & Hc & Hv).
    exists (S f), (VNamed (def_id d) v). cbn [conforms wf_value]. by rewrite Z.eqb_refl, Hd, Hu, Hv, Hc.
  - intros id [->|Hid]%bs_mem_insert; [|auto]. by apply (list_elem_of_fmap_2 (λ e, def_id e.2) _ (name, d)).
Qed.

Lemma finite_pass_spec cat l finite :
  wf_catalog cat = true → references_valid cat → (∀ e, e ∈ l → e ∈ types cat) → finite_inv cat finite →
  let next := fold_left (λ finite e,
    if negb (bs_mem (def_id e.2) finite) && type_is_finite (def_ty e.2) finite then bs_insert (def_id e.2) finite
    else finite) l finite in
  finite_inv cat next ∧ (length finite ≤ length next)%nat ∧
  (length next = length finite → next = finite ∧
     ∀ e, e ∈ l → type_is_finite (def_ty e.2) finite = true → bs_mem (def_id e.2) finite = true).
Proof.
  intros Hcat Hrefs. revert finite. induction l as [|e l IH]; intros finite Hl Hinv; cbn [fold_left].
  - split_and!; [done|lia|]. intros _. split; [done|]. by intros ? ?%elem_of_nil.
  - destruct (negb (bs_mem (def_id e.2) finite)) eqn:Em; simpl.
    + destruct (type_is_finite (def_ty e.2) finite) eqn:Ef.
      * destruct (IH (bs_insert (def_id e.2) finite)) as (Hi & Hle & _); [intros; apply Hl; by right| |].
        { apply finite_step; try done. apply Hl. by left. }
        assert (Hlen : length (bs_insert (def_id e.2) finite) = S (length finite)).
        { apply bt_insert_length_new. unfold bs_mem, bt_mem in Em. by destruct (bt_get (def_id e.2) finite). }
        split_and!; [done|lia|lia].
      * destruct (IH finite) as (Hi & Hle & Heq); [intros; apply Hl; by right|done|]. split_and!; [done..|].
        intros E. destruct (Heq E) as [-> Hall]. split; [done|]. intros x [->|Hx]%elem_of_cons Hxf; [congruence|auto].
    + destruct (IH finite) as (Hi & Hle & Heq); [intros; apply Hl; by right|done|]. split_and!; [done..|].
      intros E. destruct (Heq E) as [-> Hall]. split; [done|]. bool_inv. intros x [->|Hx]%elem_of_cons Hxf; auto.
Qed.

Lemma finite_inv_length cat finite : finite_inv cat finite → (length finite ≤ length (types cat))%nat.
Proof.
  intros (Hs & _ & Hin). rewrite <-(length_fmap fst finite), <-(length_fmap (λ e, def_id e.2) (types cat)).
  apply submseteq_length, NoDup_submseteq; [by apply bt_sorted_NoDup|].
  intros id ([id' []] & -> & He)%list_elem_of_fmap. apply Hin. unfold bs_mem, bt_mem. simpl.
  by rewrite (proj2 (bt_get_iff _ _ _ Hs) He).
Qed.

Lemma finite_loop_spec fuel cat finite :
  wf_catalog cat = true → references_valid cat → finite_inv cat finite →
  (length (types cat) < fuel + length finite)%nat →
  finite_inv cat (finite_loop fuel cat finite) ∧ finite_closed cat (finite_loop fuel cat finite).
Proof.
  intros Hcat Hrefs. revert finite. induction fuel as [|fuel IH]; intros finite Hinv Hfuel.
  - pose proof (finite_inv_length _ _ Hinv). lia.
  - cbn [finite_loop]. destruct (finite_pass_spec cat (types cat) finite) as (Hi & Hle & Heq); [done..|].
    fold (finite_pass cat finite) in Hi, Hle, Heq. case_bool_decide as E.
    + destruct (Heq E) as [-> Hall]. done.
    + apply IH; [done|lia].
Qed.

(** ** Declaration order *)

Fixpoint mentions (id : Z) (ty : ScalarType) : bool :=
  match ty with
  | TRef r => id =? r
  | TRecord columns => existsb (λ c, mentions id (col_ty c)) columns
  | TEnum variants => existsb (λ v, existsb (mentions id) (var_args v)) variants
  | TTuple items => existsb (mentions id) items
  | TOption t | TList t | TMap t => mentions id t
  | _ => false
  end.

Lemma bs_mem_insert_eqb (id r : Z) s : bs_mem id (bs_insert r s) = (id =? r) || bs_mem id s.
Proof. apply eq_true_iff_eq. by rewrite bs_mem_insert, orb_true_iff, Z.eqb_eq. Qed.

Lemma collect_mem id ty s : bs_mem id (collect_type_references ty s) = mentions id ty || bs_mem id s.
Proof.
  revert ty s. fix IH 1. intros ty s. destruct ty; simpl; auto.
  - revert s. induction variants as [|v vs IHv]; intros s; simpl; [done|]. rewrite IHv.
    assert (E : bs_mem id (fold_left (λ r a, collect_type_references a r) (var_args v) s) =
                existsb (mentions id) (var_args v) || bs_mem id s).
    { revert s. induction (var_args v) as [|a args IHa]; intros s; simpl; [done|]. rewrite IHa, IH.
      by destruct (mentions id a), (existsb _ args). }
    rewrite E. by destruct (existsb _ (var_args v)), (existsb _ vs).
  - revert s. induction columns as [|c cs IHc]; intros s; simpl; [done|]. rewrite IHc, IH.
    by destruct (mentions id (col_ty c)), (existsb _ cs).
  - revert s. induction items as [|c cs IHc]; intros s; simpl; [done|]. rewrite IHc, IH.
    by destruct (mentions id c), (existsb _ cs).
  - apply bs_mem_insert_eqb.
Qed.

Lemma bs_mem_elem (id : Z) (s : bset Z) : id ∈ s.*1 ↔ bs_mem id s = true.
Proof.
  induction s as [|[k []] s IH]; [by split; [intros ?%elem_of_nil|]|]. cbn [fmap list_fmap fst]. rewrite elem_of_cons, IH.
  unfold bs_mem, bt_mem. simpl. destruct (Z.compare_spec id k); naive_solver lia.
Qed.

(** The definitions in an order, latest first, in which each one refers only to
    itself and to earlier ones. *)
Inductive declared_in_order (cat : Catalog) : list Z → Prop :=
  | order_nil : declared_in_order cat []
  | order_cons id d earlier :
      definition cat id = Ok d → id ∉ earlier → (∀ r, mentions r (def_ty d) = true → r = id ∨ r ∈ earlier) →
      declared_in_order cat earlier → declared_in_order cat (id :: earlier).

Definition finished (cat : Catalog) (visited : bset Z) : Prop :=
  ∃ order, declared_in_order cat order ∧ ∀ x, bs_mem x visited = true ↔ x ∈ order.

Lemma visit_sound fuel cat id visiting visited visited' :
  visit_cycles fuel cat id visiting visited = Ok visited' → finished cat visited →
  finished cat visited' ∧ bs_mem id visited' = true ∧ ∀ x, bs_mem x visited = true → bs_mem x visited' = true.
Proof.
  revert id visiting visited visited'. induction fuel as [|fuel IH]; intros id visiting visited visited' H Hfin; [done|].
  cbn [visit_cycles] in H. case_if_in H; [by injection H as <-|].
  apply bind_Ok in H as (d & Hd & H). apply bind_Ok in H as (v1 & Hfold & [= <-]).
  assert (Hv1 : ∀ l v0, finished cat v0 → foldR (λ visited reference,
      if reference =? id then Ok visited
      else if bs_mem reference (bs_insert id visiting) then Err "E_SCHEMA"
      else visit_cycles fuel cat reference (bs_insert id visiting) visited) v0 l = Ok v1 →
    finished cat v1 ∧ (∀ r, r ∈ l → r = id ∨ bs_mem r v1 = true) ∧ ∀ x, bs_mem x v0 = true → bs_mem x v1 = true).
  { clear Hfold. induction l as [|r l IHl]; intros v0 Hv0 Hf; cbn [foldR] in Hf.
    - injection Hf as <-. split_and!; [done|by intros ? ?%elem_of_nil|done].
    - apply bind_Ok in Hf as (v2 & Hr & Hf).
      assert (Hstep : finished cat v2 ∧ (r = id ∨ bs_mem r v2 = true) ∧ ∀ x, bs_mem x v0 = true → bs_mem x v2 = true).
      { destruct (Z.eqb_spec r id); [injection Hr as <-; auto|]. case_if_in Hr; [done|].
        apply IH in Hr as (? & ? & ?); auto. }
      destruct Hstep as (Hv2 & Hr2 & Hsub2). destruct (IHl _ Hv2 Hf) as (? & Hall & Hsub). split_and!; [done| |auto].
      intros x [->|Hx]%elem_of_cons; [|auto]. destruct Hr2; auto. }
  apply Hv1 in Hfold as ((order & Hord & Hmem) & Hall & Hsub); [|done]. split_and!.
  - destruct (decide (id ∈ order)) as [Hin|Hnin].
    + exists order. split; [done|]. intros x. rewrite bs_mem_insert, Hmem. naive_solver.
    + exists (id :: order). split; [|intros x; by rewrite bs_mem_insert, Hmem, elem_of_cons].
      apply (order_cons _ _ d); try done. intros r Hr. destruct (Hall r) as [->|?]; [|by left|by right; apply Hmem].
      apply bs_mem_elem. by rewrite collect_mem, Hr.
  - apply bs_mem_insert. by left.
  - intros x Hx. apply bs_mem_insert. right. auto.
Qed.

Lemma declared_NoDup cat order : declared_in_order cat order → NoDup order.
Proof. induction 1; by constructor. Qed.

(** The definition of a type in the order, and the part of the order before it. *)
Lemma declared_split cat order id :
  declared_in_order cat order → id ∈ order →
  ∃ d earlier, definition cat id = Ok d ∧ declared_in_order cat earlier ∧ (length earlier < length order)%nat ∧
    id ∉ earlier ∧ (∀ x, x ∈ earlier → x ∈ order) ∧ ∀ r, mentions r (def_ty d) = true → r = id ∨ r ∈ earlier.
Proof.
  induction 1 as [|x d earlier Hd Hx Hr Ho IH]; [by intros ?%elem_of_nil|]. intros [->|Hin]%elem_of_cons.
  - exists d, earlier. split_and!; try done; [simpl; lia|]. by right.
  - destruct (IH Hin) as (d' & e & ? & ? & ? & ? & ? & ?). exists d', e. split_and!; try done; [simpl; lia|]. right; auto.
Qed.

Lemma visit_complete fuel cat order id visiting visited :
  declared_in_order cat order → (length order < fuel)%nat → id ∈ order → (∀ x, x ∈ order → bs_mem x visiting = false) →
  ∃ visited', visit_cycles fuel cat id visiting visited = Ok visited'.
Proof.
  revert order id visiting visited. induction fuel as [|fuel IH]; intros order id visiting visited Ho Hf Hid Hv; [lia|].
  cbn [visit_cycles]. destruct (bs_mem id visited); [by eexists|].
  destruct (declared_split _ _ _ Ho Hid) as (d & earlier & -> & Ho' & Hl & Hnid & Hsub & Hr). cbn [mbind result_bind].
  assert (Hrefs : ∀ r, r ∈ (collect_type_references (def_ty d) []).*1 → r = id ∨ r ∈ earlier).
  { intros r Hin%bs_mem_elem. rewrite collect_mem in Hin. unfold bs_mem, bt_mem in Hin. simpl in Hin. rewrite orb_false_r in Hin. auto. }
  revert visited Hrefs. generalize ((collect_type_references (def_ty d) []).*1). intros refs.
  induction refs as [|r refs IHr]; intros visited Hrefs; [by eexists|]. cbn [foldR].
  destruct (Z.eqb_spec r id); [apply IHr; intros; apply Hrefs; by right|].
  assert (Hin : r ∈ earlier) by (destruct (Hrefs r); [by left|done|done]).
  assert (Hvis : ∀ x, x ∈ earlier → bs_mem x (bs_insert id visiting) = false).
  { intros x Hx. rewrite bs_mem_insert_eqb, Hv by auto. destruct (Z.eqb_spec x id); [by subst|done]. }
  rewrite Hvis by done. destruct (IH earlier r (bs_insert id visiting) visited) as [v' ->]; [done|lia|done..|].
  apply IHr. intros; apply Hrefs; by right.
Qed.

(** The search never runs out of fuel: its path has distinct, defined types. *)
Lemma visit_error fuel cat id visiting visited e :
  bt_sorted visiting = true → (∀ x, bs_mem x visiting = true → x ∈ (λ e, def_id e.2) <$> types cat) →
  bs_mem id visiting = false → (length (types cat) < fuel + length visiting)%nat →
  visit_cycles fuel cat id visiting visited = Err e → e = "E_SCHEMA".
Proof.
  revert id visiting visited. induction fuel as [|fuel IH]; intros id visiting visited Hs Hdef Hid Hf H.
  - assert (length visiting ≤ length (types cat))%nat; [|lia].
    rewrite <-(length_fmap fst visiting), <-(length_fmap (λ e, def_id e.2) (types cat)).
    apply submseteq_length, NoDup_submseteq; [by apply bt_sorted_NoDup|]. intros x Hx%bs_mem_elem. auto.
  - cbn [visit_cycles] in H. case_if_in H; [done|]. destruct (definition cat id) as [d|e'] eqn:Ed; cbn [mbind result_bind] in H.
    + revert visited E H. generalize ((collect_type_references (def_ty d) []).*1). intros refs visited _. revert visited.
      induction refs as [|r refs IHr]; intros visited H; [done|]. cbn [foldR] in H.
      destruct (r =? id); [by apply (IHr visited)|]. destruct (bs_mem r (bs_insert id visiting)) eqn:Er; [by injection H as <-|].
      destruct (visit_cycles fuel cat r (bs_insert id visiting) visited) as [v'|e'] eqn:Ev; [by apply (IHr v')|].
      injection H as <-. apply (IH r (bs_insert id visiting) visited); [by apply bt_insert_sorted| |done| |done].
      * intros x [->|Hx]%bs_mem_insert; [|auto]. apply definition_Ok in Ed as (name & Hin & <-).
        by apply (list_elem_of_fmap_2 (λ e, def_id e.2) _ (name, d)).
      * unfold bs_insert. rewrite bt_insert_length_new; [lia|]. unfold bs_mem, bt_mem in Hid. by destruct (bt_get id visiting).
    + injection H as <-. unfold definition, ok_or in Ed. destruct (snd <$> _); congruence.
Qed.

Lemma no_mutual_cycles_order cat :
  wf_catalog cat = true → validate_no_mutual_cycles cat = Ok tt →
  ∃ order, declared_in_order cat order ∧ order ≡ₚ (λ e, def_id e.2) <$> types cat.
Proof.
  intros Hcat H. unfold validate_no_mutual_cycles in H. apply bind_Ok in H as (visited & H & _).
  assert (Hall : ∀ (l : list (string * TypeDefinition)) v0, finished cat v0 → foldR (λ visited e,
      visit_cycles (S (length (types cat))) cat (def_id e.2) [] visited) v0 l = Ok visited →
    finished cat visited ∧ (∀ x, bs_mem x v0 = true → bs_mem x visited = true) ∧
    ∀ e, e ∈ l → bs_mem (def_id e.2) visited = true).
  { clear H. induction l as [|e l IHl]; intros v0 Hv0 Hf; cbn [foldR] in Hf.
    - injection Hf as <-. split_and!; [done..|by intros ? ?%elem_of_nil].
    - apply bind_Ok in Hf as (v1 & Hv & Hf). apply visit_sound in Hv as (Hv1 & He & Hsub); [|done].
      destruct (IHl _ Hv1 Hf) as (? & Hsub' & ?). split_and!; [done|auto|]. intros x [->|Hx]%elem_of_cons; auto. }
  apply Hall in H as ((order & Ho & Hmem) & _ & Hdef); [|exists []; split; [constructor|]; intros x; by rewrite elem_of_nil].
  exists order. split; [done|]. destruct (wf_catalog_parts _ Hcat) as (_ & _ & _ & Hn & _).
  apply NoDup_Permutation; [by eapply declared_NoDup|done|]. intros x. split.
  - intros Hx. destruct (declared_split _ _ _ Ho Hx) as (d & _ & (name & Hin & <-)%definition_Ok & _).
    by apply (list_elem_of_fmap_2 (λ e, def_id e.2) _ (name, d)).
  - intros (e & -> & He)%list_elem_of_fmap. by apply Hmem, Hdef.
Qed.

Lemma order_no_mutual_cycles cat order :
  declared_in_order cat order → order ≡ₚ (λ e, def_id e.2) <$> types cat → validate_no_mutual_cycles cat = Ok tt.
Proof.
  intros Ho Hp. unfold validate_no_mutual_cycles.
  assert (Hl : length order = length (types cat)) by (by rewrite Hp, length_fmap).
  assert (Hall : ∀ (l : list (string * TypeDefinition)) v, (∀ e, e ∈ l → def_id e.2 ∈ order) → ∃ v', foldR (λ visited e,
      visit_cycles (S (length (types cat))) cat (def_id e.2) [] visited) v l = Ok v').
  { induction l as [|e l IH]; intros v He; [by eexists|]. cbn [foldR].
    destruct (visit_complete (S (length (types cat))) cat order (def_id e.2) [] v) as [v' ->]; try done; [lia|apply He; by left|].
    apply IH. intros; apply He; by right. }
  destruct (Hall (types cat) []) as [v' ->]; [|done]. intros e He. rewrite Hp. by apply (list_elem_of_fmap_2 (λ e, def_id e.2)).
Qed.

Lemma declared_in_order_mono cat cat' order :
  extends cat cat' → declared_in_order cat order → declared_in_order cat' order.
Proof. intros [Hext _]. induction 1; econstructor; eauto. Qed.

Lemma inhabited_mono cat cat' ty : extends cat cat' → inhabited cat ty → inhabited cat' ty.
Proof. intros Hext (f & v & Hc & Hv). exists f, v. split; [|done]. by eapply conforms_mono. Qed.

Lemma with_type_extends cat name id ty next :
  wf_catalog cat = true → bt_get name (types cat) = None → next_id cat ≤ id < next → is_u64 next = true →
  wf_type ty = true → extends cat (mkCatalog (bt_insert name (mkTypeDefinition id name ty) (types cat)) next).
Proof.
  intros Hw Hn Hid Hu Ht. pose proof (with_type_wf _ _ _ _ _ Hw Hn Hid Hu Ht) as Hw'. split.
  - intros i d (n & Hin & <-)%definition_Ok. apply (definition_elem _ n); [done|]. cbn [types].
    rewrite bt_insert_perm by done. by right.
  - intros n d Hd. cbn [types]. rewrite bt_get_insert_ne; [done|]. intros ->. congruence.
Qed.

(** What the acceptance check decides. *)
Lemma validate_finite_types_spec cat :
  wf_catalog cat = true →
  validate_finite_types cat = Ok tt ↔
  references_valid cat ∧
  (∃ order, declared_in_order cat order ∧ order ≡ₚ (λ e, def_id e.2) <$> types cat) ∧
  ∀ e, e ∈ types cat → inhabited cat (TRef (def_id e.2)).
Proof.
  intros Hcat. unfold validate_finite_types. rewrite bind_Ok.
  assert (Hloop : references_valid cat → finite_inv cat (finite_loop (S (length (types cat))) cat []) ∧
    finite_closed cat (finite_loop (S (length (types cat))) cat [])).
  { intros Hrefs. apply finite_loop_spec; [done..| |simpl; lia]. by split_and!. }
  revert Hloop. generalize (finite_loop (S (length (types cat))) cat []). intros finite Hloop.
  assert (Href : foldR (λ _ e, validate_type_references MAX_DEPTH cat (def_ty e.2)) tt (types cat) = Ok tt ↔ references_valid cat).
  { unfold references_valid. rewrite (foldR_unit_all (λ e, validate_type_references MAX_DEPTH cat (def_ty e.2))).
    by rewrite list.Forall_forall. }
  split.
  - intros ([] & Hr%Href & H). apply bind_Ok in H as ([] & Hc & H). case_if_in H; [|done].
    split_and!; [done|by apply no_mutual_cycles_order|]. intros e He.
    rewrite forallb_Forall, list.Forall_forall in E. destruct (Hloop Hr) as ((_ & Hs & _) & _). by apply Hs, E.
  - intros (Hr & (order & Ho & Hp) & Hinh). exists tt. split; [by apply Href|].
    rewrite (order_no_mutual_cycles _ _ Ho Hp). cbn [mbind result_bind].
    replace (forallb (λ e, bs_mem (def_id e.2) finite) (types cat)) with true; [done|]. symmetry.
    apply forallb_Forall, list.Forall_forall. intros e He. destruct (Hloop Hr) as [_ Hcl].
    destruct (Hinh e He) as (f & v & Hc & _). exact (conforms_finite f cat _ v finite Hcl Hc).
Qed.

(** ** Coercion and growth of the catalog *)

Lemma mapR_mono {A B} (f g : A → result B) l k :
  (∀ x y, f x = Ok y → g x = Ok y) → mapR f l = Ok k → mapR g l = Ok k.
Proof. rewrite !mapR_Ok. intros Hi. apply Forall2_impl. by apply Hi. Qed.

Lemma foldR_mono {A S} (f g : S → A → result S) l s s' :
  (∀ s x s', f s x = Ok s' → g s x = Ok s') → foldR f s l = Ok s' → foldR g s l = Ok s'.
Proof.
  intros Hi. revert s. induction l as [|x l IH]; intros s; cbn [foldR]; [done|].
  intros (s1 & Hs1 & H)%bind_Ok. rewrite (Hi _ _ _ Hs1). by apply IH.
Qed.

Lemma coerce_variant_extends cat cat' variants name id v :
  extends cat cat' → coerce_variant cat variants name id = Ok v → coerce_variant cat' variants name id = Ok v.
Proof.
  intros [_ Hext]. unfold coerce_variant. destruct (match rsplit_once _ _ with Some _ => _ | None => _ end) as [[q|] n]; [|done].
  intros ([] & H1 & H2)%bind_Ok. apply bind_Ok in H1 as (d & Hd%ok_or_Ok & H1). 
  rewrite (Hext _ _ Hd). cbn [ok_or mbind result_bind]. by rewrite H1.
Qed.

Lemma coerce_inner_extends fuel cat cat' v ty r :
  extends cat cat' → coerce_inner fuel cat v ty = Ok r → coerce_inner fuel cat' v ty = Ok r.
Proof.
  intros Hext. revert v ty r. induction fuel as [|fuel IH]; intros v ty r H; [done|]. cbn [coerce_inner] in *.
  assert (Hitems : ∀ l k, mapR (λ '(v, t), coerce_inner fuel cat v t) l = Ok k → mapR (λ '(v, t), coerce_inner fuel cat' v t) l = Ok k).
  { intros l k. apply mapR_mono. intros [w t] y. apply IH. }
  assert (Href : ∀ id v r, (d ← definition cat id; raw ← coerce_raw d id v; VNamed id <$> coerce_inner fuel cat raw (def_ty d)) = Ok r →
    (d ← definition cat' id; raw ← coerce_raw d id v; VNamed id <$> coerce_inner fuel cat' raw (def_ty d)) = Ok r).
  { clear H. intros id w r' (d & Hd & H)%bind_Ok. apply bind_Ok in H as (raw & Hraw & H). apply fmap_Ok in H as (w' & Hw & ->).
    rewrite (proj1 Hext _ _ Hd). cbn [mbind result_bind]. rewrite Hraw. cbn [mbind result_bind]. by rewrite (IH _ _ _ Hw). }
  destruct ty, v as [| | | | | | | | | | |n args i| | | | |[w|]|]; try discriminate H; try done; try (by apply Href).
  - apply bind_Ok in H as (var & Hvar & H). rewrite (coerce_variant_extends _ _ _ _ _ _ Hext Hvar). cbn [mbind result_bind].
    case_if_in H; [done|]. apply bind_Ok in H as (rs & Hrs & <-). by rewrite (Hitems _ _ Hrs).
  - apply bind_Ok in H as (out & Hout & H). erewrite foldR_mono; [exact H| |exact Hout]. simpl.
    intros s c s' (w & Hw & <-)%bind_Ok. apply bind_Ok. exists w. split; [|done].
    destruct (bt_get (col_name c) fields); [by apply IH|]. apply bind_Ok in Hw as (d & -> & Hw). by apply IH.
  - case_if_in H; [|done]. apply fmap_Ok in H as (rs & Hrs & ->). by rewrite (Hitems _ _ Hrs).
  - destruct args as [|w [|]]; try done. case_if_in H; [|done]. apply fmap_Ok in H as (w' & Hw & ->). by rewrite (IH _ _ _ Hw).
  - apply fmap_Ok in H as (w' & Hw & ->). by rewrite (IH _ _ _ Hw).
  - apply fmap_Ok in H as (rs & Hrs & ->). erewrite mapR_mono; [done| |exact Hrs]. intros; by apply IH.
  - case_if_in H; [done|]. apply fmap_Ok in H as (rs & Hrs & ->). erewrite mapR_mono; [done| |exact Hrs].
    intros [k w] y Hy. cbn beta iota in *. case_if_in Hy; [done|]. apply bind_Ok in Hy as (w' & Hw & <-). by rewrite (IH _ _ _ Hw).
Qed.

(** ** Properties *)

(** A declaration that succeeds gives fresh stable IDs to the type, its fields
    and its variants: exactly the next [n + 1] IDs, where [n] is what
    [structural_id_count] predicts, so the reserved nominal ID is the one allocated
    after the body (the [debug_assert] of [define] holds) and no ID of the catalog
    is ever reused. *)
Theorem define_allocates_fresh_ids cat name ty cat' id alloc :
  wf_catalog cat = true → ids_unique cat → wf_source ty = true → bt_mem name (types cat) = false →
  define_body cat name ty = Ok (cat', id, alloc) →
  alloc = id ∧ structural_id_count MAX_DEPTH ty = Ok (id - next_id cat) ∧ next_id cat' = id + 1 ∧
  catalog_ids cat' ≡ₚ seqZ (next_id cat) (next_id cat' - next_id cat) ++ catalog_ids cat ∧ ids_unique cat'.
Proof.
  intros Hw Hi Hs Hn H. assert (Hn' : bt_get name (types cat) = None) by (unfold bt_mem in Hn; by destruct (bt_get _ _)).
  pose proof (define_body_ids _ _ _ _ _ _ Hw Hs Hn' H) as [Hp Hlt].
  destruct (wf_catalog_parts _ Hw) as (_ & _ & H1 & _).
  destruct (define_body_spec _ _ _ _ _ _ Hw Hs Hn' H) as (ty' & Hc & -> & _ & Hcat' & _).
  split_and!; try done; [by rewrite Hcat'|]. apply (ids_unique_extend cat); try done. lia.
Qed.

(** [type Tree = Leaf | Node { left: Tree, value: float = 7 }] as it is parsed. *)
Definition tree_source : ScalarType :=
  TEnum [EnumVariantDef "Leaf" [] 0;
         EnumVariantDef "Node" [TRecord [Column "left" (TNamed "Tree") None 0; Column "value" TFloat (Some (VInt 7)) 0]] 0].
(** [type Loop = Loop(Loop)], which has no finite value. *)
Definition loop_source : ScalarType := TEnum [EnumVariantDef "Loop" [TNamed "Loop"] 0].
Definition one_type_catalog : Catalog := (define default_catalog "Tree" tree_source).2.

Lemma define_allocates_fresh_ids_witness :
  5 = 5 ∧ structural_id_count MAX_DEPTH tree_source = Ok (5 - 1) ∧ next_id one_type_catalog = 5 + 1 ∧
  catalog_ids one_type_catalog ≡ₚ seqZ 1 (next_id one_type_catalog - 1) ++ [] ∧ ids_unique one_type_catalog.
Proof.
  apply (define_allocates_fresh_ids default_catalog "Tree" tree_source one_type_catalog 5 5).
  - vm_compute; reflexivity.
  - split; constructor.
  - vm_compute; reflexivity.
  - vm_compute; reflexivity.
  - vm_compute; reflexivity.
Defined.

Lemma define_cases cat name ty r cat' :
  wf_catalog cat = true → wf_source ty = true → define cat name ty = (r, cat') →
  (∃ d, r = Ok tt ∧ bt_get name (types cat) = None ∧ types cat' = bt_insert name d (types cat) ∧ extends cat cat' ∧
     wf_catalog cat' = true ∧ validate_finite_types cat' = Ok tt ∧
     catalog_ids cat' ≡ₚ seqZ (next_id cat) (next_id cat' - next_id cat) ++ catalog_ids cat ∧ next_id cat < next_id cat') ∨
  (∃ e, r = Err e) ∧ cat' = cat.
Proof.
  intros Hw Hs H. unfold define, bt_mem in H. destruct (bt_get name (types cat)) as [d|] eqn:Hn; [right; simplify_eq; eauto|].
  destruct (define_body cat name ty) as [[[cat1 id] alloc]|e] eqn:Hb; [|right; simplify_eq; eauto].
  injection H as <- <-. left. pose proof (define_body_ids _ _ _ _ _ _ Hw Hs Hn Hb) as Hids.
  apply define_body_spec in Hb as (ty' & _ & _ & Hid & -> & _ & Hw' & Hv); [|done..].
  exists (mkTypeDefinition id name ty'). split_and!; try done; try apply Hids.
  destruct (wf_catalog_parts _ Hw') as (_ & Hu & _). apply with_type_extends; try done; [lia|].
  apply (definition_wf _ id (mkTypeDefinition id name ty') Hw'). apply (definition_elem _ name (mkTypeDefinition id name ty') Hw'). cbn [types].
  rewrite bt_insert_perm by done. by left.
Qed.

(** declaring a type keeps the catalog well formed, keeps every earlier definition
    by name and by ID, and never reuses a stable ID.  When it succeeds, the type is
    declared under its own, new name and every declared type has a value; when it
    fails, the catalog is what it was. *)
Theorem define_preserves_catalog cat name ty r cat' :
  wf_catalog cat = true → wf_source ty = true → define cat name ty = (r, cat') →
  wf_catalog cat' = true ∧ extends cat cat' ∧ (ids_unique cat → ids_unique cat') ∧
  match r with
  | Ok _ => bt_mem name (types cat) = false ∧ bt_mem name (types cat') = true ∧
            ∀ e, e ∈ types cat' → inhabited cat' (TRef (def_id e.2))
  | Err _ => cat' = cat
  end.
Proof.
  intros Hw Hs H. destruct (define_cases _ _ _ _ _ Hw Hs H)
    as [(d & -> & Hn & Ht & Hext & Hw' & Hv & Hp & Hlt)|[[e ->] ->]]; [|done].
  split_and!; try done.
  - destruct (wf_catalog_parts _ Hw) as (_ & _ & H1 & _). apply ids_unique_extend; [done..|lia].
  - unfold bt_mem. by rewrite Hn.
  - rewrite Ht. unfold bt_mem. by rewrite bt_get_insert_eq.
  - by apply (validate_finite_types_spec _ Hw').
Qed.

Lemma define_preserves_catalog_witness :
  wf_catalog one_type_catalog = true ∧ extends one_type_catalog one_type_catalog ∧
  (ids_unique one_type_catalog → ids_unique one_type_catalog) ∧ one_type_catalog = one_type_catalog.
Proof.
  apply (define_preserves_catalog one_type_catalog "Loop" loop_source (Err "E_SCHEMA") one_type_catalog);
    vm_compute; reflexivity.
Defined.

(** C34: the acceptance check of a catalog is exact: it succeeds precisely when every
    type reference and decimal type is valid, the types can be declared one after
    another with references only to themselves and to earlier ones (no mutual
    recursion), and every declared type has a finite, canonical value. *)
Theorem validate_finite_types_exact cat :
  wf_catalog cat = true →
  validate_finite_types cat = Ok tt ↔
  references_valid cat ∧
  (∃ order, declared_in_order cat order ∧ order ≡ₚ (λ e, def_id e.2) <$> types cat) ∧
  ∀ e, e ∈ types cat → inhabited cat (TRef (def_id e.2)).
Proof. apply validate_finite_types_spec. Qed.

(** [type Loop = Loop(Loop)] entered into a catalog. *)
Definition loop_catalog : Catalog :=
  mkCatalog [("Loop"%string, mkTypeDefinition 2 "Loop" (TEnum [EnumVariantDef "Loop" [TRef 2] 1]))] 3.

Lemma validate_finite_types_exact_witness :
  (∃ order, declared_in_order one_type_catalog order ∧ order ≡ₚ [5]) ∧
  validate_finite_types loop_catalog = Err "E_SCHEMA".
Proof.
  split; [|vm_compute; reflexivity].
  apply (validate_finite_types_exact one_type_catalog); vm_compute; reflexivity.
Defined.

(** the search for mutual recursion succeeds exactly when the types can be declared
    one after another, fails only with a schema error, and never exceeds the depth
    its path of distinct types allows. *)
Theorem validate_no_mutual_cycles_exact cat :
  wf_catalog cat = true →
  (validate_no_mutual_cycles cat = Ok tt ↔
   ∃ order, declared_in_order cat order ∧ order ≡ₚ (λ e, def_id e.2) <$> types cat) ∧
  (∀ e, validate_no_mutual_cycles cat = Err e → e = "E_SCHEMA"%string).
Proof.
  intros Hw. split; [split; [by apply no_mutual_cycles_order|intros (order & ? & ?); by eapply order_no_mutual_cycles]|].
  intros e. unfold validate_no_mutual_cycles.
  assert (He : ∀ l v, foldR (λ visited e, visit_cycles (S (length (types cat))) cat (def_id (e : string * TypeDefinition).2) [] visited) v l = Err e → e = "E_SCHEMA"%string).
  { induction l as [|x l IH]; intros v H; [done|]. cbn [foldR] in H.
    destruct (visit_cycles _ _ _ _ _) as [v'|e'] eqn:Ev; cbn [mbind result_bind] in H; [by apply (IH v')|].
    injection H as <-. apply visit_error in Ev; try done. simpl. lia. }
  specialize (He (types cat) []). destruct (foldR _ _ _); cbn [mbind result_bind]; [done|]. intros [= <-]. auto.
Qed.

(** Two types that refer to each other. *)
Definition mutual_catalog : Catalog :=
  mkCatalog [("A"%string, mkTypeDefinition 1 "A" (TOption (TRef 2))); ("B"%string, mkTypeDefinition 2 "B" (TList (TRef 1)))] 3.

Lemma validate_no_mutual_cycles_exact_witness :
  (validate_no_mutual_cycles mutual_catalog = Ok tt ↔
   ∃ order, declared_in_order mutual_catalog order ∧ order ≡ₚ [1; 2]) ∧
  (∀ e, validate_no_mutual_cycles mutual_catalog = Err e → e = "E_SCHEMA"%string).
Proof. apply (validate_no_mutual_cycles_exact mutual_catalog). vm_compute. reflexivity. Defined.

(** One operation on the catalog of a running database: a declaration, whatever its
    outcome, or the allocation of table and column IDs. *)
Inductive catalog_step (cat : Catalog) : Catalog → Prop :=
  | step_define name ty : wf_source ty = true → catalog_step cat (define cat name ty).2
  | step_allocate id cat' : allocate cat = Ok (id, cat') → catalog_step cat cat'
  | step_resolve ty fuel ty' cat' : resolve cat ty fuel = Ok (ty', cat') → catalog_step cat cat'.

(** What every catalog of a running database satisfies. *)
Definition catalog_inv (cat : Catalog) : Prop :=
  wf_catalog cat = true ∧ ids_unique cat ∧
  (∃ order, declared_in_order cat order ∧ order ≡ₚ (λ e, def_id e.2) <$> types cat) ∧
  ∀ e, e ∈ types cat → inhabited cat (TRef (def_id e.2)).

Lemma allocated_inv cat cat' n ids : allocated cat cat' n ids → catalog_inv cat → catalog_inv cat'.
Proof.
  intros (Hn & -> & Hu & _) (Hw & [Hnd Hf] & (order & Ho & Hp) & Hi).
  assert (Hext : extends cat (mkCatalog (types cat) (next_id cat + n))) by (by apply extends_same_types).
  destruct (wf_catalog_parts _ Hw) as (Hs & _ & H1 & Hnd' & Hall). split_and!.
  - unfold wf_catalog. cbn [types next_id]. rewrite Hs, (proj2 (nodupb_spec _) Hnd'), Hu, (proj2 (Z.leb_le _ _)) by lia.
    rewrite !andb_true_r. simpl. apply forallb_Forall. revert Hall. apply Forall_impl. intros e (-> & ? & ->).
    by rewrite String.eqb_refl, (proj2 (Z.leb_le _ _)), (proj2 (Z.ltb_lt _ _)) by lia.
  - split; [done|]. revert Hf. apply Forall_impl. simpl. lia.
  - exists order. split; [by eapply declared_in_order_mono|done].
  - intros e He. eapply inhabited_mono; [done|]. by apply Hi.
Qed.

Lemma catalog_step_inv cat cat' : catalog_step cat cat' → catalog_inv cat → catalog_inv cat'.
Proof.
  intros Hstep Hinv. pose proof Hinv as (Hw & Hids & _). destruct (wf_catalog_parts _ Hw) as (_ & Hu & H1 & _).
  destruct Hstep as [name ty Hs|id cat' H|ty fuel ty' cat' H].
  - destruct (define cat name ty) as [r cat'] eqn:E. destruct (define_cases _ _ _ _ _ Hw Hs E)
      as [(d & -> & _ & _ & _ & Hw' & Hv & Hp & Hlt)|[_ ->]]; [|done]. simpl.
    apply (validate_finite_types_spec _ Hw') in Hv as (_ & Ho & Hi). split_and!; try done.
    apply (ids_unique_extend cat); try done. lia.
  - apply allocate_allocated in H; [|done]. by eapply allocated_inv.
  - unfold resolve in H. apply bind_Ok in H as ([ty1 cat1] & H & Hn). apply bind_Ok in Hn as (ty2 & _ & [= _ <-]).
    destruct (resolve_inner_spec _ _ _ _ _ Hu H) as (n & _ & Ha). by eapply allocated_inv.
Qed.

(** C6: whatever sequence of declarations, successful or not, and ID allocations has run
    since the empty catalog, the catalog is well formed, no stable ID occurs twice or
    awaits allocation, the types have a declaration order without mutual recursion,
    and every declared type has a finite canonical value. *)
Theorem reachable_catalog_invariant cat :
  rtc catalog_step default_catalog cat → catalog_inv cat.
Proof.
  intros H. assert (H0 : catalog_inv default_catalog).
  { split_and!; [done|by split; constructor|by exists []; split; [constructor|]|by intros ? ?%elem_of_nil]. }
  induction H as [|cat1 cat2 cat3 Hstep _ IH]; [done|]. apply IH. by eapply catalog_step_inv.
Qed.

Lemma reachable_catalog_invariant_witness : catalog_inv (define one_type_catalog "Loop" loop_source).2.
Proof.
  apply (reachable_catalog_invariant (define one_type_catalog "Loop" loop_source).2).
  apply (rtc_l _ _ one_type_catalog); [apply (step_define default_catalog); reflexivity|].
  apply rtc_once. apply (step_define one_type_catalog). reflexivity.
Defined.

(** Declaring a type never changes what was accepted before: a value that was
    coerced to a type is coerced to the same canonical value afterwards, and
    canonical values stay canonical. *)
Theorem define_keeps_coercion cat name decl r cat' v ty w :
  wf_catalog cat = true → wf_source decl = true → define cat name decl = (r, cat') →
  (coerce cat v ty = Ok w → coerce cat' v ty = Ok w) ∧
  (conforms MAX_DEPTH cat ty v = true → conforms MAX_DEPTH cat' ty v = true).
Proof.
  intros Hw Hs H. assert (Hext : extends cat cat') by (destruct (define_cases _ _ _ _ _ Hw Hs H) as [(? & ? & ? & ? & ? & ?)|[_ ->]]; done).
  unfold coerce. generalize MAX_DEPTH. intros fuel. split; [by apply coerce_inner_extends|by apply conforms_mono].
Qed.

Definition list_source : ScalarType := TList (TNamed "Tree").
Lemma define_keeps_coercion_witness :
  coerce (define one_type_catalog "Forest" list_source).2 tree_input (TRef 5) = Ok tree_value.
Proof.
  refine (proj1 (define_keeps_coercion one_type_catalog "Forest" list_source (Ok tt)
    (define one_type_catalog "Forest" list_source).2 tree_input (TRef 5) tree_value _ _ _) _); vm_compute; reflexivity.
Defined.
