(* ===== verification/Expression.v ===== *)
(** * Scalar and boolean expressions

    Models src/src/expression.rs: type inference ([infer_scalar]), binding
    ([bind_scalar], [bind_in_scope]), which checks an expression and annotates it
    with types, and evaluation ([evaluate_scalar], [evaluate_resolved]).  A panic
    of the code ([expect], an index out of range) is the error [PANIC].  Spans,
    paths and message text are dropped.

    Unicode case mapping, whitespace trimming and the shortest decimal form of a
    float are tables of Rust's standard library; [TextLib] stands for them. *)
From Stdlib Require Import Ascii.
From S2P Require Import Prelude Bytes Text Decimal Temporal Float64 FloatArith BTree Scalars Model Codec.

Class TextLib := {
  to_lowercase : string → string;
  to_uppercase : string → string;
  trim : string → string;
  float_debug : Z → string
}.

Definition PANIC : string := "PANIC".

(** ** Syntax (src/src/query.rs) *)

Inductive ArithmeticOp := OpAdd | OpSubtract | OpMultiply | OpDivide.
Inductive CmpOp := CmpEq | CmpNe | CmpGt | CmpGte | CmpLt | CmpLte.

Inductive ScalarExpression :=
  | SReference (path : string)
  | SParameter (name : string) (ty : option ScalarType)
  | SLiteral (value : Value)
  | SAscribed (value : ScalarExpression) (ty : ScalarType)
  | SCall (name : string) (arguments : list ScalarExpression)
  | SLength (value : ScalarExpression)
  | SNegate (value : ScalarExpression) (ty : option ScalarType)
  | SArithmetic (left : ScalarExpression) (op : ArithmeticOp) (right : ScalarExpression) (ty : option ScalarType).

Inductive BoolExpression :=
  | BValue (value : ScalarExpression)
  | BCompare (left : ScalarExpression) (op : CmpOp) (right : ScalarExpression) (operand_type : option ScalarType)
  | BContains (collection item : ScalarExpression)
  | BMembership (item collection : ScalarExpression) (negated : bool)
  | BAny (collection : ScalarExpression) (binding : string) (predicate : BoolExpression)
  | BAll (collection : ScalarExpression) (binding : string) (predicate : BoolExpression)
  | BIsSome (value : ScalarExpression)
  | BIsNone (value : ScalarExpression)
  | BNot (value : BoolExpression)
  | BAnd (left right : BoolExpression)
  | BOr (left right : BoolExpression).

(** ** Functions by name *)

Definition one_of (names : list string) (name : string) : bool := existsb (String.eqb name) names.

Definition is_map_scalar_function : string → bool :=
  one_of ["contains_key"; "get"; "keys"; "values"; "entries"]%string.
Definition is_text_predicate : string → bool := one_of ["starts_with"; "ends_with"; "contains_text"]%string.
Definition is_temporal_projection : string → bool := one_of ["date_of"; "timestamp_trunc"]%string.
Definition is_builtin_scalar_function (name : string) : bool :=
  is_map_scalar_function name || is_text_predicate name || is_temporal_projection name ||
  one_of ["lower"; "upper"; "trim"; "concat"; "substring"; "int_to_float"; "float_to_int"; "int_to_decimal"; "to_text";
          "uuid_parse"; "bytes_parse_hex"; "date_parse"; "timestamp_parse"; "duration_parse"; "decimal_parse";
          "decimal_rescale"; "decimal_round"; "decimal_mul"; "decimal_div"]%string name.

(** The decimal functions, whose target type is given by literal arguments. *)
Definition is_decimal_function : string → bool :=
  one_of ["int_to_decimal"; "decimal_parse"; "decimal_rescale"; "decimal_round"; "decimal_mul"; "decimal_div"]%string.
Definition is_decimal_binary : string → bool := one_of ["decimal_mul"; "decimal_div"]%string.
Definition is_decimal_rounded : string → bool := one_of ["decimal_round"; "decimal_mul"; "decimal_div"]%string.

Definition builtin_scalar_arity (name : string) : option Z :=
  if one_of ["contains_key"; "get"; "concat"; "float_to_int"; "date_of"]%string name || is_text_predicate name then Some 2
  else if one_of ["keys"; "values"; "entries"]%string name then Some 1
  else if one_of ["int_to_decimal"; "decimal_parse"; "decimal_rescale"; "substring"; "timestamp_trunc"]%string name
  then Some 3
  else if String.eqb name "decimal_round" then Some 4
  else if is_decimal_binary name then Some 5
  else if is_builtin_scalar_function name then Some 1
  else None.

Definition temporal_result_type (name : string) : ScalarType :=
  if String.eqb name "date_of" then TDate else TTimestamp.

Definition map_scalar_result (name : string) (value_ty : ScalarType) : result ScalarType :=
  if String.eqb name "contains_key" then Ok TBool
  else if String.eqb name "get" then Ok (TOption value_ty)
  else if String.eqb name "keys" then Ok (TList TText)
  else if String.eqb name "values" then Ok (TList value_ty)
  else if String.eqb name "entries" then Ok (TList (TTuple [TText; value_ty]))
  else Err "E_QUERY".

Definition builtin_scalar_result (name : string) : option ScalarType :=
  if String.eqb name "int_to_float" then Some TFloat
  else if String.eqb name "float_to_int" then Some TInt
  else if one_of ["starts_with"; "ends_with"; "contains_text"]%string name then Some TBool
  else if one_of ["lower"; "upper"; "trim"; "concat"; "substring"; "to_text"]%string name then Some TText
  else if String.eqb name "uuid_parse" then Some TUuid
  else if String.eqb name "bytes_parse_hex" then Some TBytes
  else if String.eqb name "date_parse" then Some TDate
  else if String.eqb name "timestamp_parse" then Some TTimestamp
  else if String.eqb name "duration_parse" then Some TDuration
  else None.

Definition builtin_scalar_input_type (name : string) (position : nat) : ScalarType :=
  if String.eqb name "float_to_int" && (position =? 0)%nat then TFloat
  else if (String.eqb name "substring" && (0 <? position)%nat) || String.eqb name "int_to_float" then TInt
  else TText.

(** ** Types *)

Fixpoint same_type (l r : ScalarType) : bool :=
  match l, r with
  | TInt, TInt | TFloat, TFloat | TBool, TBool | TText, TText | TUuid, TUuid | TDate, TDate
  | TTimestamp, TTimestamp | TDuration, TDuration | TBytes, TBytes => true
  | TDecimal a b, TDecimal c d => (a =? c) && (b =? d)
  | TRef l, TRef r => l =? r
  | TOption l, TOption r | TList l, TList r | TMap l, TMap r => same_type l r
  | TTuple l, TTuple r => all2 same_type l r
  | TRecord l, TRecord r =>
      all2 (λ l r, String.eqb (col_name l) (col_name r) && same_type (col_ty l) (col_ty r)) l r
  | TEnum l, TEnum r => all2 (λ l r, (var_id l =? var_id r) && all2 same_type (var_args l) (var_args r)) l r
  | _, _ => false
  end.

(** [collect::<Result<Option<Vec<_>>>>()] on options. *)
Fixpoint all_some {A} (l : list (option A)) : option (list A) :=
  match l with
  | [] => Some []
  | Some x :: l => (x ::.) <$> all_some l
  | None :: _ => None
  end.

Fixpoint infer_literal (v : Value) : option ScalarType :=
  match v with
  | VInt _ => Some TInt
  | VFloat _ => Some TFloat
  | VBool _ => Some TBool
  | VText _ => Some TText
  | VUuid _ => Some TUuid
  | VDate _ => Some TDate
  | VTimestamp _ => Some TTimestamp
  | VDuration _ => Some TDuration
  | VBytes _ => Some TBytes
  | VDecimal d => Some (TDecimal (precision d) (scale d))
  | VNamed id _ => Some (TRef id)
  | VTuple vs => TTuple <$> all_some (infer_literal <$> vs)
  | VList (v :: vs) =>
      match infer_literal v with
      | Some first =>
          if forallb (λ w, match infer_literal w with Some ty => same_type first ty | None => false end) vs
          then Some (TList first) else None
      | None => None
      end
  | _ => None
  end.

Fixpoint is_constant (e : ScalarExpression) : bool :=
  match e with
  | SLiteral _ | SParameter _ _ => true
  | SReference _ => false
  | SCall name arguments => is_builtin_scalar_function name && forallb is_constant arguments
  | SAscribed value _ | SLength value | SNegate value _ => is_constant value
  | SArithmetic l _ r _ => is_constant l && is_constant r
  end.

Section checks.
Context (cat : Catalog).

Definition require_underlying (accept : ScalarType → bool) (ty : ScalarType) : result unit :=
  u ← underlying cat ty; if accept u then Ok tt else Err "E_TYPE".

Definition is_numeric (u : ScalarType) : bool := match u with TInt | TFloat | TDecimal _ _ => true | _ => false end.
Definition is_negatable (u : ScalarType) : bool :=
  match u with TInt | TFloat | TDuration | TDecimal _ _ => true | _ => false end.
Definition is_text_convertible (u : ScalarType) : bool :=
  match u with
  | TInt | TFloat | TBool | TText | TUuid | TDate | TTimestamp | TDuration | TDecimal _ _ | TBytes => true
  | _ => false
  end.
Definition is_bool (u : ScalarType) : bool := match u with TBool => true | _ => false end.
Definition is_timestamp (u : ScalarType) : bool := match u with TTimestamp => true | _ => false end.
Definition is_decimal (u : ScalarType) : bool := match u with TDecimal _ _ => true | _ => false end.
Definition has_length (u : ScalarType) : bool :=
  match u with TList _ | TMap _ | TText | TBytes => true | _ => false end.
Definition is_option (u : ScalarType) : bool := match u with TOption _ => true | _ => false end.

Definition require_numeric := require_underlying is_numeric.
Definition require_negatable := require_underlying is_negatable.
Definition require_text_convertible := require_underlying is_text_convertible.
Definition require_timestamp_input := require_underlying is_timestamp.
Definition require_bool := require_underlying is_bool.

Definition orderable (ty : ScalarType) : result bool :=
  match ty with
  | TRef id => _ ← definition cat id; Ok true
  | TNamed _ => Ok false
  | _ => Ok true
  end.

Definition require_fresh_scalar_result (actual : ScalarType) (expected : option ScalarType) : result unit :=
  match expected with
  | Some expected => u ← underlying cat expected; if same_type actual u then Ok tt else Err "E_TYPE"
  | None => Ok tt
  end.

Definition reference_type (scope : Columns) (path reference_kind : string) : result ScalarType :=
  match field_type cat scope path with
  | Ok ty => Ok ty
  | Err e => if String.eqb reference_kind "match binding" && String.eqb e "E_FIELD" then Err "E_MATCH" else Err e
  end.

Definition underlying_opt (ty : option ScalarType) : result (option ScalarType) :=
  match ty with Some ty => Some <$> underlying cat ty | None => Ok None end.

Definition is_temporal (u : option ScalarType) : bool :=
  match u with Some TTimestamp | Some TDuration => true | _ => false end.

(** The operand types and the result of timestamp and duration arithmetic. *)
Definition temporal_arithmetic_signature (l : option ScalarType) (op : ArithmeticOp) (r expected : option ScalarType)
    : result (option (ScalarType * ScalarType * ScalarType)) :=
  left_kind ← underlying_opt l;
  right_kind ← underlying_opt r;
  expected_kind ← underlying_opt expected;
  let signature :=
    match left_kind, op, right_kind, expected_kind with
    | Some TDuration, (OpAdd | OpSubtract), Some TDuration, _ => Some (TDuration, TDuration, TDuration)
    | Some TTimestamp, (OpAdd | OpSubtract), Some TDuration, _ => Some (TTimestamp, TDuration, TTimestamp)
    | Some TTimestamp, OpSubtract, Some TTimestamp, _ => Some (TTimestamp, TTimestamp, TDuration)
    | Some TDuration, (OpAdd | OpSubtract), None, _ => Some (TDuration, TDuration, TDuration)
    | None, (OpAdd | OpSubtract), Some TDuration, Some TDuration => Some (TDuration, TDuration, TDuration)
    | Some TTimestamp, (OpAdd | OpSubtract), None, Some TTimestamp => Some (TTimestamp, TDuration, TTimestamp)
    | None, OpSubtract, Some TTimestamp, Some TDuration => Some (TTimestamp, TTimestamp, TDuration)
    | _, _, _, _ => None
    end in
  match signature with
  | None => if is_temporal left_kind || is_temporal right_kind then Err "E_TYPE" else Ok None
  | _ => Ok signature
  end.
End checks.

(** [arguments[i]]. *)
Definition arg_at (arguments : list ScalarExpression) (i : nat) : result ScalarExpression := ok_or (arguments !! i) PANIC.

(** An integer literal that fits [u8]. *)
Definition decimal_literal (e : ScalarExpression) : result Z :=
  match e with
  | SLiteral (VInt v) => ok_or (checked is_u8 v) "E_DECIMAL_TYPE"
  | _ => Err "E_DECIMAL_TYPE"
  end.

Definition decimal_target (p s : ScalarExpression) : result (Z * Z) :=
  p ← decimal_literal p;
  s ← decimal_literal s;
  _ ← validate_type p s;
  Ok (p, s).

Definition decimal_rounding (e : ScalarExpression) : result DecimalRounding :=
  match e with SLiteral (VText v) => rounding_from_str v | _ => Err "E_DECIMAL_ROUNDING" end.

Definition float_rounding (e : ScalarExpression) : result DecimalRounding :=
  match e with SLiteral (VText v) => map_err "E_CAST_MODE" (rounding_from_str v) | _ => Err "E_CAST_MODE" end.

(** The offset and the unit that the literal arguments of a projection give. *)
Definition temporal_function_arguments (name : string) (arguments : list ScalarExpression)
    : result (Z * option TimestampUnit) :=
  let arity := if String.eqb name "date_of" then 2%nat else 3%nat in
  if negb (length arguments =? arity)%nat then Err "E_TYPE"
  else
    unit ← (if String.eqb name "timestamp_trunc"
            then u ← arg_at arguments 1;
                 match u with
                 | SLiteral (VText unit) => Some <$> ok_or (TimestampUnit_parse unit) "E_TEMPORAL_UNIT"
                 | _ => Err "E_TEMPORAL_UNIT"
                 end
            else Ok None);
    o ← arg_at arguments (arity - 1);
    match o with
    | SLiteral (VText offset) =>
        offset ← map_err "E_TEMPORAL_OFFSET" (fixed_offset_seconds (as_bytes offset)); Ok (offset, unit)
    | _ => Err "E_TEMPORAL_OFFSET"
    end.

(** The target type of a decimal function, after its rounding mode is checked. *)
Definition decimal_function_target (name : string) (arguments : list ScalarExpression) : result (Z * Z) :=
  let i := if is_decimal_binary name then 2%nat else 1%nat in
  p ← arg_at arguments i;
  s ← arg_at arguments (S i);
  decimal_target p s.

Definition decimal_function_rounding (name : string) (arguments : list ScalarExpression) : result (option DecimalRounding) :=
  let i := if is_decimal_binary name then 3%nat else 2%nat in
  if is_decimal_rounded name then m ← arg_at arguments (S i); Some <$> decimal_rounding m else Ok None.

(** The decisions of [infer_arithmetic_type] on the operands' inferred types. *)
Definition infer_arithmetic_type (cat : Catalog) (left_ty right_ty : option ScalarType) (left_constant right_constant : bool)
    (op : ArithmeticOp) : result (option ScalarType) :=
  res ← match left_ty, right_ty with
        | Some l, Some r =>
            if same_type l r then Ok (Some l)
            else if left_constant then Ok (Some r)
            else if right_constant then Ok (Some l)
            else Err "E_TYPE"
        | None, Some r => Ok (Some r)
        | Some l, None => Ok (Some l)
        | None, None => Ok None
        end;
  match res with
  | Some ty =>
      u ← underlying cat ty;
      if match op, u with (OpMultiply | OpDivide), (TDuration | TDecimal _ _) => true | _, _ => false end then Err "E_TYPE"
      else _ ← require_numeric cat ty; Ok (Some ty)
  | None => Ok None
  end.

(** [arguments.iter().enumerate().map(f).collect::<Result<_>>()]. *)
Definition map_positions {A B} (f : nat → A → result B) : nat → list A → result (list B) :=
  fix go position l :=
    match l with
    | [] => Ok []
    | a :: l => b ← f position a; l ← go (S position) l; Ok (b :: l)
    end.

(** ** Inference *)

Section infer.
Context (cat : Catalog) (scope : Columns) (reference_kind : string).

(** [if let Some(ty) = ty && !accept(ty)? { return Err }]. *)
Definition if_known (ty : option ScalarType) (check : ScalarType → result unit) : result unit :=
  match ty with Some ty => check ty | None => Ok tt end.

Definition require_same (expected ty : ScalarType) : result unit := if same_type ty expected then Ok tt else Err "E_TYPE".

Fixpoint infer_scalar (e : ScalarExpression) : result (option ScalarType) :=
  match e with
  | SReference path => Some <$> reference_type cat scope path reference_kind
  | SParameter _ ty => Ok ty
  | SLiteral v => Ok (infer_literal v)
  | SAscribed _ ty => Ok (Some ty)
  | SCall name arguments =>
      if is_map_scalar_function name then
        if negb (bool_decide (builtin_scalar_arity name = Some (zlen arguments))) then Err "E_TYPE"
        else
          match arguments with
          | [] => Err PANIC
          | m :: rest =>
              o ← infer_scalar m;
              match o with
              | None =>
                  Ok (if String.eqb name "contains_key" then Some TBool
                      else if String.eqb name "keys" then Some (TList TText) else None)
              | Some map_ty =>
                  u ← underlying cat map_ty;
                  match u with
                  | TMap value_ty =>
                      _ ← match rest with
                          | key :: _ => k ← infer_scalar key; if_known k (require_same TText)
                          | [] => Ok tt
                          end;
                      Some <$> map_scalar_result name value_ty
                  | _ => Err "E_TYPE"
                  end
              end
          end
      else if is_temporal_projection name then
        _ ← temporal_function_arguments name arguments;
        match arguments with
        | [] => Err PANIC
        | a :: _ =>
            o ← infer_scalar a;
            _ ← if_known o (require_timestamp_input cat);
            Ok (Some (temporal_result_type name))
        end
      else if String.eqb name "to_text" then
        match arguments with
        | [a] => o ← infer_scalar a; _ ← if_known o (require_text_convertible cat); Ok (Some TText)
        | _ => Err "E_TYPE"
        end
      else if is_builtin_scalar_function name then
        if negb (bool_decide (builtin_scalar_arity name = Some (zlen arguments))) then Err "E_TYPE"
        else if is_decimal_function name then
          _ ← (if String.eqb name "int_to_decimal"
               then match arguments with a :: _ => o ← infer_scalar a; if_known o (require_same TInt) | [] => Err PANIC end
               else if String.eqb name "decimal_parse" then Ok tt
               else match arguments with
                    | a :: rest =>
                        o ← infer_scalar a;
                        _ ← if_known o (require_underlying cat is_decimal);
                        match is_decimal_binary name, rest with
                        | true, b :: _ => o ← infer_scalar b; if_known o (require_underlying cat is_decimal)
                        | true, [] => Err PANIC
                        | false, _ => Ok tt
                        end
                    | [] => Err PANIC
                    end);
          _ ← decimal_function_rounding name arguments;
          '(p, s) ← decimal_function_target name arguments;
          Ok (Some (TDecimal p s))
        else
          _ ← (if String.eqb name "float_to_int"
               then m ← arg_at arguments 1; _ ← float_rounding m; Ok tt else Ok tt);
          _ ← map_positions (λ position a,
                 o ← infer_scalar a; if_known o (require_same (builtin_scalar_input_type name position))) 0 arguments;
          Ok (builtin_scalar_result name)
      else Err "E_QUERY"
  | SLength value =>
      o ← infer_scalar value; _ ← if_known o (require_underlying cat has_length); Ok (Some TInt)
  | SNegate value _ => o ← infer_scalar value; _ ← if_known o (require_negatable cat); Ok o
  | SArithmetic l op r _ =>
      lt ← infer_scalar l;
      rt ← infer_scalar r;
      signature ← temporal_arithmetic_signature cat lt op rt None;
      match signature with
      | Some (_, _, res) => Ok (Some res)
      | None => infer_arithmetic_type cat lt rt (is_constant l) (is_constant r) op
      end
  end.
End infer.

(** ** Binding *)

(** The final check of [bind_scalar]. *)
Definition check_expected (expected : option ScalarType) (e : ScalarExpression) (ty : ScalarType)
    : result (ScalarExpression * ScalarType) :=
  match expected with
  | Some expected => if same_type ty expected then Ok (e, ty) else Err "E_TYPE"
  | None => Ok (e, ty)
  end.

(** [expected.cloned().or(inferred)]. *)
Definition expected_or (expected inferred : option ScalarType) : option ScalarType :=
  match expected with Some ty => Some ty | None => inferred end.

Section bind.
Context (cat : Catalog) (scope : Columns) (reference_kind : string).
Notation infer := (infer_scalar cat scope reference_kind).

Fixpoint bind_scalar (e : ScalarExpression) (expected : option ScalarType) : result (ScalarExpression * ScalarType) :=
  match e with
  | SReference path => ty ← reference_type cat scope path reference_kind; check_expected expected e ty
  | SParameter name ty =>
      ty ← ok_or (expected_or expected ty) "E_TYPE"; check_expected expected (SParameter name (Some ty)) ty
  | SLiteral v =>
      match expected with
      | Some ty => v ← coerce cat v ty; check_expected expected (SLiteral v) ty
      | None => ty ← ok_or (infer_literal v) "E_TYPE"; Ok (SLiteral v, ty)
      end
  | SAscribed value ty => '(value, _) ← bind_scalar value (Some ty); check_expected expected (SAscribed value ty) ty
  | SCall name arguments =>
      if is_map_scalar_function name then
        if negb (bool_decide (builtin_scalar_arity name = Some (zlen arguments))) then Err "E_TYPE"
        else
          match arguments with
          | [] => Err PANIC
          | m :: rest =>
              o ← infer m;
              map_ty ← ok_or o "E_TYPE";
              u ← underlying cat map_ty;
              match u with
              | TMap value_ty =>
                  '(m, _) ← bind_scalar m (Some map_ty);
                  rest ← match rest with
                         | key :: rest => '(key, _) ← bind_scalar key (Some TText); Ok (key :: rest)
                         | [] => Ok []
                         end;
                  ty ← map_scalar_result name value_ty;
                  check_expected expected (SCall name (m :: rest)) ty
              | _ => Err "E_TYPE"
              end
          end
      else if is_temporal_projection name then
        _ ← temporal_function_arguments name arguments;
        match arguments with
        | [] => Err PANIC
        | a :: rest =>
            o ← infer a;
            let input := default TTimestamp o in
            _ ← require_timestamp_input cat input;
            '(a, _) ← bind_scalar a (Some input);
            let res := temporal_result_type name in
            _ ← require_fresh_scalar_result cat res expected;
            Ok (SCall name (a :: rest), res)
        end
      else if String.eqb name "to_text" then
        match arguments with
        | [a] =>
            o ← infer a;
            input ← ok_or o "E_TYPE";
            _ ← require_text_convertible cat input;
            '(a, _) ← bind_scalar a (Some input);
            check_expected expected (SCall name [a]) TText
        | _ => Err "E_TYPE"
        end
      else if is_builtin_scalar_function name then
        if negb (bool_decide (builtin_scalar_arity name = Some (zlen arguments))) then Err "E_TYPE"
        else if is_decimal_function name then
          '(p, s) ← decimal_function_target name arguments;
          _ ← decimal_function_rounding name arguments;
          match arguments with
          | [] => Err PANIC
          | a :: rest =>
              input ← (if String.eqb name "int_to_decimal" then Ok TInt
                       else if String.eqb name "decimal_parse" then Ok TText
                       else o ← infer a; ok_or o "E_TYPE");
              _ ← (if one_of ["decimal_parse"; "int_to_decimal"]%string name then Ok tt
                   else require_underlying cat is_decimal input);
              '(a, _) ← bind_scalar a (Some input);
              rest ← match is_decimal_binary name, rest with
                     | true, b :: rest =>
                         o ← infer b;
                         right ← ok_or o "E_TYPE";
                         _ ← require_underlying cat is_decimal right;
                         '(b, _) ← bind_scalar b (Some right);
                         Ok (b :: rest)
                     | true, [] => Err PANIC
                     | false, _ => Ok rest
                     end;
              let target := TDecimal p s in
              _ ← require_fresh_scalar_result cat target expected;
              Ok (SCall name (a :: rest), target)
          end
        else
          _ ← (if String.eqb name "float_to_int"
               then m ← arg_at arguments 1; _ ← float_rounding m; Ok tt else Ok tt);
          arguments ← map_positions (λ position a,
                 fst <$> bind_scalar a (Some (builtin_scalar_input_type name position))) 0 arguments;
          ty ← ok_or (builtin_scalar_result name) PANIC;
          check_expected expected (SCall name arguments) ty
      else Err "E_QUERY"
  | SLength value =>
      '(value, ty) ← bind_scalar value None;
      _ ← require_underlying cat has_length ty;
      check_expected expected (SLength value) TInt
  | SNegate value _ =>
      inferred ← infer value;
      res ← ok_or (expected_or expected inferred) "E_TYPE";
      _ ← require_negatable cat res;
      '(value, _) ← bind_scalar value (Some res);
      check_expected expected (SNegate value (Some res)) res
  | SArithmetic l op r _ =>
      lt ← infer l;
      rt ← infer r;
      signature ← temporal_arithmetic_signature cat lt op rt expected;
      match signature with
      | Some (left_ty, right_ty, res) =>
          '(l, _) ← bind_scalar l (Some left_ty);
          '(r, _) ← bind_scalar r (Some right_ty);
          _ ← require_fresh_scalar_result cat res expected;
          Ok (SArithmetic l op r (Some res), res)
      | None =>
          inferred ← infer_arithmetic_type cat lt rt (is_constant l) (is_constant r) op;
          res ← ok_or (expected_or expected inferred) "E_TYPE";
          _ ← require_numeric cat res;
          '(l, _) ← bind_scalar l (Some res);
          '(r, _) ← bind_scalar r (Some res);
          check_expected expected (SArithmetic l op r (Some res)) res
      end
  end.
End bind.

(** [matches!(collection, Literal(_) | Parameter { ty: None, .. })]. *)
Definition contextual_collection (e : ScalarExpression) : bool :=
  match e with SLiteral _ | SParameter _ None => true | _ => false end.

(** The element type of a list type, [None] if it is something else. *)
Definition list_item (u : ScalarType) : option ScalarType := match u with TList t => Some t | _ => None end.

Fixpoint bind_in_scope (cat : Catalog) (scope : Columns) (e : BoolExpression) (reference_kind : string)
    : result BoolExpression :=
  let infer := infer_scalar cat scope reference_kind in
  let bind := bind_scalar cat scope reference_kind in
  match e with
  | BValue value => '(value, ty) ← bind value None; _ ← require_bool cat ty; Ok (BValue value)
  | BCompare l op r _ =>
      inferred_left ← infer l;
      inferred_right ← infer r;
      expected ← ok_or (if is_constant l then expected_or inferred_right inferred_left
                        else expected_or inferred_left inferred_right) "E_TYPE";
      '(l, left_ty) ← bind l (Some expected);
      '(r, right_ty) ← bind r (Some expected);
      if negb (same_type left_ty right_ty) then Err "E_TYPE"
      else
        ordered ← match op with CmpEq | CmpNe => Ok true | _ => orderable cat left_ty end;
        if negb ordered then Err "E_TYPE" else Ok (BCompare l op r (Some left_ty))
  | BContains collection item =>
      inferred_collection ← infer collection;
      '(collection_ty, item_ty) ←
        match inferred_collection with
        | Some collection_ty =>
            u ← underlying cat collection_ty;
            match u with
            | TList item_ty => Ok (collection_ty, item_ty)
            | TBytes => Ok (collection_ty, TBytes)
            | _ => Err "E_TYPE"
            end
        | None => o ← infer item; item_ty ← ok_or o "E_TYPE"; Ok (TList item_ty, item_ty)
        end;
      '(collection, _) ← bind collection (Some collection_ty);
      '(item, _) ← bind item (Some item_ty);
      Ok (BContains collection item)
  | BMembership item collection negated =>
      inferred_item ← infer item;
      inferred_collection ← infer collection;
      collection_item_ty ←
        match inferred_collection with
        | Some collection_ty => u ← underlying cat collection_ty; Some <$> ok_or (list_item u) "E_TYPE"
        | None => Ok None
        end;
      let contextual := contextual_collection collection in
      item_ty ← ok_or (if contextual then expected_or inferred_item collection_item_ty
                       else expected_or collection_item_ty inferred_item) "E_TYPE";
      collection_ty ← (if contextual then Ok (TList item_ty) else ok_or inferred_collection PANIC);
      '(item, _) ← bind item (Some item_ty);
      '(collection, _) ← bind collection (Some collection_ty);
      Ok (BMembership item collection negated)
  | BAny collection binding predicate =>
      '(collection, collection_ty) ← bind collection None;
      u ← underlying cat collection_ty;
      item_ty ← ok_or (list_item u) "E_TYPE";
      predicate ← bind_in_scope cat (Column binding item_ty None 0 :: scope) predicate "list predicate binding";
      Ok (BAny collection binding predicate)
  | BAll collection binding predicate =>
      '(collection, collection_ty) ← bind collection None;
      u ← underlying cat collection_ty;
      item_ty ← ok_or (list_item u) "E_TYPE";
      predicate ← bind_in_scope cat (Column binding item_ty None 0 :: scope) predicate "list predicate binding";
      Ok (BAll collection binding predicate)
  | BIsSome value => '(value, ty) ← bind value None; _ ← require_underlying cat is_option ty; Ok (BIsSome value)
  | BIsNone value => '(value, ty) ← bind value None; _ ← require_underlying cat is_option ty; Ok (BIsNone value)
  | BNot value => value ← bind_in_scope cat scope value reference_kind; Ok (BNot value)
  | BAnd l r =>
      l ← bind_in_scope cat scope l reference_kind; r ← bind_in_scope cat scope r reference_kind; Ok (BAnd l r)
  | BOr l r =>
      l ← bind_in_scope cat scope l reference_kind; r ← bind_in_scope cat scope r reference_kind; Ok (BOr l r)
  end.

Definition bind (cat : Catalog) (scope : Columns) (e : BoolExpression) : result BoolExpression :=
  bind_in_scope cat scope e "field".

Definition bind_match (cat : Catalog) (scope : Columns) (e : BoolExpression) : result BoolExpression :=
  bind_in_scope cat scope e "match binding".

Definition bind_derive (cat : Catalog) (scope : Columns) (e : BoolExpression) : result (BoolExpression * ScalarType) :=
  match e with
  | BValue value => '(value, ty) ← bind_scalar cat scope "field" value None; Ok (BValue value, ty)
  | _ => e ← bind_in_scope cat scope e "field"; Ok (e, TBool)
  end.

Definition infer_value_expression (cat : Catalog) (scope : Columns) (e : BoolExpression) (reference_kind : string)
    : result (option ScalarType) :=
  match e with
  | BValue value => infer_scalar cat scope reference_kind value
  | _ => Ok (Some TBool)
  end.

Definition bind_value_expression (cat : Catalog) (scope : Columns) (e : BoolExpression) (expected : ScalarType)
    (reference_kind : string) : result BoolExpression :=
  match e with
  | BValue value => '(value, _) ← bind_scalar cat scope reference_kind value (Some expected); Ok (BValue value)
  | _ => _ ← require_bool cat expected; bind_in_scope cat scope e reference_kind
  end.

(** ** Text *)

Definition is_prefix (a b : list Z) : bool := bool_decide (take (length a) b = a).

(** [str::contains], and [windows(n).any(..)] for a nonempty needle. *)
Fixpoint is_infix (needle hay : list Z) : bool :=
  is_prefix needle hay || match hay with [] => false | _ :: hay => is_infix needle hay end.

Definition ends_with (needle hay : list Z) : bool :=
  (length needle <=? length hay)%nat && bool_decide (drop (length hay - length needle) hay = needle).

(** Byte offsets of the characters of a UTF-8 string, and its end. *)
Fixpoint char_boundaries (offset : nat) (l : list Z) : list nat :=
  match l with
  | [] => [offset]
  | b :: l => if cont b then char_boundaries (S offset) l else offset :: char_boundaries (S offset) l
  end.

Definition chars_count (s : string) : Z := zlen (char_boundaries 0 (as_bytes s)) - 1.

Definition substring_text (source : string) (start end_ : Z) : result string :=
  if (start <? 0) || (end_ <? 0) || (end_ <? start) then Err "E_TEXT_RANGE"
  else
    let bounds := char_boundaries 0 (as_bytes source) in
    if zlen bounds <=? end_ then Err "E_TEXT_RANGE"
    else
      s ← ok_or (bounds !! Z.to_nat start) PANIC;
      e ← ok_or (bounds !! Z.to_nat end_) PANIC;
      let selected := slice s e (as_bytes source) in
      if zlen selected >? MAX_VALUE_BYTES then Err "E_LIMIT" else Ok (of_bytes selected).

Definition show_int (z : Z) : list Z := if z <? 0 then 45 :: show_nat (- z) else show_nat z.

Definition scalar_to_text `{TextLib} (value : Value) : result string :=
  match unwrapped value with
  | VText s => if str_len s <=? MAX_VALUE_BYTES then Ok s else Err "E_LIMIT"
  | VBytes b => if zlen b * 2 <=? MAX_VALUE_BYTES then Ok (of_bytes (bytes_display b)) else Err "E_LIMIT"
  | VInt v => Ok (of_bytes (show_int v))
  | VBool b => Ok (if b then "true" else "false")
  | VFloat v => if is_finite v then Ok (float_debug (if is_zero v then 0 else v)) else Err "E_ARITH"
  | VUuid u => Ok (of_bytes (uuid_display u))
  | VDate d => Ok (of_bytes (date_display d))
  | VTimestamp t => Ok (of_bytes (timestamp_display t))
  | VDuration d => Ok (of_bytes (duration_display d))
  | VDecimal d => Ok (of_bytes (decimal_display d))
  | _ => Err "E_TYPE"
  end.

(** ** Evaluation *)

Definition MAX_COLLECTION_PREDICATE_EVALUATIONS : Z := 100000.

(** A computation that threads the evaluation budget and may have no value. *)
Definition eval (A : Type) : Type := Z → result (A * Z).

Definition eret {A} (a : A) : eval A := λ budget, Ok (a, budget).
Definition ebind {A B} (m : eval A) (k : A → eval B) : eval B := λ budget, '(a, budget) ← m budget; k a budget.
Definition elift {A B} (m : result A) (k : A → eval B) : eval B := λ budget, a ← m; k a budget.

(** [let Some(x) = m? else { return Ok(none) }]. *)
Definition evalue {A B} (m : eval (option A)) (none : B) (k : A → eval B) : eval B :=
  ebind m (λ o, match o with Some a => k a | None => eret none end).

Definition consume_collection_predicate : eval unit :=
  λ budget, if budget =? 0 then Err "E_LIMIT" else Ok (tt, budget - 1).

(** A loop that consumes budget for every element. *)
Fixpoint consume_each {A B} (f : A → B) (l : list A) : eval (list B) :=
  match l with
  | [] => eret []
  | x :: l => ebind consume_collection_predicate (λ _, ebind (consume_each f l) (λ ys, eret (f x :: ys)))
  end.

(** [str::strip_prefix]. *)
Fixpoint strip_prefix (prefix s : string) : option string :=
  match prefix, s with
  | EmptyString, _ => Some s
  | String a prefix, String b s => if Ascii.eqb a b then strip_prefix prefix s else None
  | String _ _, EmptyString => None
  end.

(** [ScopedResolver]: a list element bound over the outer values. *)
Definition scoped_resolve (binding : string) (item : Value) (outer : string → option Value) (path : string) : option Value :=
  if String.eqb path binding then Some item
  else match suffix ← strip_prefix binding path; strip_prefix "." suffix with
       | Some path => field item path
       | None => outer path
       end.

Definition evaluate_arithmetic (l : Value) (op : ArithmeticOp) (r : Value) : result Value :=
  match unwrapped l, unwrapped r with
  | VInt l, VInt r =>
      v ← match op with
          | OpAdd => ok_or (checked is_i64 (l + r)) "E_ARITH"
          | OpSubtract => ok_or (checked is_i64 (l - r)) "E_ARITH"
          | OpMultiply => ok_or (checked is_i64 (l * r)) "E_ARITH"
          | OpDivide => if r =? 0 then Err "E_ARITH" else ok_or (checked is_i64 (Z.quot l r)) "E_ARITH"
          end;
      Ok (VInt v)
  | VFloat l, VFloat r =>
      if match op with OpDivide => is_zero r | _ => false end then Err "E_ARITH"
      else VFloat <$> finite_float match op with
                                   | OpAdd => f64_add l r
                                   | OpSubtract => f64_sub l r
                                   | OpMultiply => f64_mul l r
                                   | OpDivide => f64_div l r
                                   end
  | VDecimal l, VDecimal r =>
      match op with
      | OpAdd => VDecimal <$> checked_add l r
      | OpSubtract => VDecimal <$> checked_sub l r
      | _ => Err "E_TYPE"
      end
  | VDuration l, VDuration r =>
      match op with
      | OpAdd => VDuration <$> ok_or (checked is_i64 (l + r)) "E_ARITH"
      | OpSubtract => VDuration <$> ok_or (checked is_i64 (l - r)) "E_ARITH"
      | _ => Err "E_ARITH"
      end
  | VTimestamp l, VDuration r =>
      v ← match op with
          | OpAdd => ok_or (checked is_i64 (l + r)) "E_ARITH"
          | OpSubtract => ok_or (checked is_i64 (l - r)) "E_ARITH"
          | _ => Err "E_ARITH"
          end;
      VTimestamp <$> from_epoch_microseconds v
  | VTimestamp l, VTimestamp r =>
      match op with
      | OpSubtract => VDuration <$> ok_or (checked is_i64 (l - r)) "E_ARITH"
      | _ => Err "E_TYPE"
      end
  | _, _ => Err "E_TYPE"
  end.

Definition coerce_arithmetic_result (cat : Catalog) (ty : option ScalarType) (value : Value) : result Value :=
  ty ← ok_or ty "E_TYPE";
  match coerce cat value ty with
  | Ok v => Ok v
  | Err e => if is_decimal ty && String.eqb e "E_DECIMAL_RANGE" then Err "E_ARITH" else Err e
  end.

Definition negate_value (v : Value) : result Value :=
  match unwrapped v with
  | VInt v => VInt <$> ok_or (checked is_i64 (- v)) "E_ARITH"
  | VFloat v => VFloat <$> finite_float (f64_neg v)
  | VDuration v => VDuration <$> ok_or (checked is_i64 (- v)) "E_ARITH"
  | VDecimal v => VDecimal <$> checked_neg v
  | _ => Err "E_TYPE"
  end.

Definition length_value (v : Value) : option Z :=
  match unwrapped v with
  | VList vs => Some (zlen vs)
  | VMap m => Some (zlen m)
  | VText s => Some (chars_count s)
  | VBytes b => Some (zlen b)
  | _ => None
  end.

(** The dispatch of a decimal function on its evaluated operands. *)
Definition decimal_function (name : string) (p s : Z) (rounding : option DecimalRounding) (l : Value) (r : option Value)
    : result Decimal :=
  match l with
  | VInt v => if String.eqb name "int_to_decimal" then d ← decimal_new v 38 0; rescale d p s else Err "E_TYPE"
  | VText source => if String.eqb name "decimal_parse" then decimal_parse (as_bytes source) p s else Err "E_TYPE"
  | VDecimal d =>
      if String.eqb name "decimal_rescale" then rescale d p s
      else if String.eqb name "decimal_round" then m ← ok_or rounding PANIC; rescale_with_rounding d p s m
      else if String.eqb name "decimal_mul" then
        match r with Some (VDecimal e) => m ← ok_or rounding PANIC; checked_mul_to d e p s m | _ => Err "E_TYPE" end
      else if String.eqb name "decimal_div" then
        match r with Some (VDecimal e) => m ← ok_or rounding PANIC; checked_div_to d e p s m | _ => Err "E_TYPE" end
      else Err "E_TYPE"
  | _ => Err "E_TYPE"
  end.

(** The text functions of one argument. *)
Definition text_function `{TextLib} (name source : string) : result Value :=
  value ← (if String.eqb name "lower" then Ok (VText (to_lowercase source))
           else if String.eqb name "upper" then Ok (VText (to_uppercase source))
           else if String.eqb name "trim" then Ok (VText (trim source))
           else if String.eqb name "uuid_parse" then VUuid <$> uuid_from_str (as_bytes source)
           else if String.eqb name "bytes_parse_hex" then VBytes <$> bytes_from_str (as_bytes source)
           else if String.eqb name "date_parse" then VDate <$> date_from_str (as_bytes source)
           else if String.eqb name "timestamp_parse" then VTimestamp <$> timestamp_from_str (as_bytes source)
           else if String.eqb name "duration_parse" then VDuration <$> duration_from_str (as_bytes source)
           else Err PANIC);
  match value with
  | VText s => if str_len s >? MAX_VALUE_BYTES then Err "E_LIMIT" else Ok value
  | _ => Ok value
  end.

(** The text functions of two arguments. *)
Definition text_binary (name source needle : string) : result Value :=
  if String.eqb name "concat" then
    if str_len source + str_len needle >? MAX_VALUE_BYTES then Err "E_LIMIT" else Ok (VText (source +:+ needle))
  else if String.eqb name "starts_with" then Ok (VBool (is_prefix (as_bytes needle) (as_bytes source)))
  else if String.eqb name "ends_with" then Ok (VBool (ends_with (as_bytes needle) (as_bytes source)))
  else if String.eqb name "contains_text" then Ok (VBool (is_infix (as_bytes needle) (as_bytes source)))
  else Err PANIC.

(** The results of the map functions. *)
Definition map_function (name : string) (entries : list (string * Value)) (key : option string) : eval (option Value) :=
  if String.eqb name "contains_key" then elift (ok_or key PANIC) (λ key, eret (Some (VBool (bt_mem key entries))))
  else if String.eqb name "get" then elift (ok_or key PANIC) (λ key, eret (Some (VOption (bt_get key entries))))
  else if String.eqb name "keys" then ebind (consume_each (λ e, VText e.1) entries) (λ l, eret (Some (VList l)))
  else if String.eqb name "values" then ebind (consume_each (λ e, e.2) entries) (λ l, eret (Some (VList l)))
  else if String.eqb name "entries" then
    ebind (consume_each (λ e, VTuple [VText e.1; e.2]) entries) (λ l, eret (Some (VList l)))
  else elift (Err PANIC) eret.

Definition int_to_float (v : Z) : result Z :=
  let converted := i64_as_f64 v in if f64_as_i128 converted =? v then Ok converted else Err "E_CAST_PRECISION".

Section evaluate.
Context `{TextLib} (cat : Catalog).

Fixpoint evaluate_scalar (e : ScalarExpression) (values : string → option Value) : eval (option Value) :=
  match e with
  | SReference path => eret (values path)
  | SParameter _ _ => elift (Err "E_PARAM_MISSING") eret
  | SLiteral v => eret (Some v)
  | SAscribed value ty =>
      evalue (evaluate_scalar value values) None (λ v, elift (coerce cat v ty) (λ v, eret (Some v)))
  | SCall name arguments =>
      if is_map_scalar_function name then
        match arguments with
        | [] => elift (Err PANIC) eret
        | m :: rest =>
            evalue (evaluate_scalar m values) None (λ m,
              match unwrapped m with
              | VMap entries =>
                  match rest with
                  | [key] =>
                      evalue (evaluate_scalar key values) None (λ key,
                        match unwrapped key with
                        | VText key => map_function name entries (Some key)
                        | _ => elift (Err "E_TYPE") eret
                        end)
                  | _ => map_function name entries None
                  end
              | _ => elift (Err "E_TYPE") eret
              end)
        end
      else if is_builtin_scalar_function name then
        if is_decimal_function name then
          elift (decimal_function_target name arguments) (λ '(p, s),
            match arguments with
            | [] => elift (Err PANIC) eret
            | a :: rest =>
                evalue (evaluate_scalar a values) None (λ l,
                  let finish r := elift (decimal_function_rounding name arguments) (λ rounding,
                    elift (decimal_function name p s rounding (unwrapped l) r) (λ d, eret (Some (VDecimal d)))) in
                  match is_decimal_binary name, rest with
                  | true, b :: _ => evalue (evaluate_scalar b values) None (λ r, finish (Some (unwrapped r)))
                  | true, [] => elift (Err PANIC) eret
                  | false, _ => finish None
                  end)
            end)
        else
          match arguments with
          | [] => elift (Err "E_TYPE") eret
          | a :: rest =>
              evalue (evaluate_scalar a values) None (λ v,
                if String.eqb name "to_text" then elift (scalar_to_text v) (λ s, eret (Some (VText s)))
                else if is_temporal_projection name then
                  match unwrapped v with
                  | VTimestamp t =>
                      elift (temporal_function_arguments name arguments) (λ '(offset, unit),
                        elift match unit with
                              | Some unit => VTimestamp <$> truncate_at_offset t unit offset
                              | None => VDate <$> date_at_offset t offset
                              end (λ v, eret (Some v)))
                  | _ => elift (Err "E_TYPE") eret
                  end
                else if String.eqb name "float_to_int" then
                  match unwrapped v with
                  | VFloat f =>
                      elift (m ← arg_at arguments 1; mode ← float_rounding m; float_to_integer f mode)
                        (λ z, eret (Some (VInt z)))
                  | _ => elift (Err "E_TYPE") eret
                  end
                else if String.eqb name "int_to_float" then
                  match unwrapped v with
                  | VInt z => elift (int_to_float z) (λ f, eret (Some (VFloat f)))
                  | _ => elift (Err "E_TYPE") eret
                  end
                else
                  match unwrapped v with
                  | VText source =>
                      if String.eqb name "substring" then
                        match rest with
                        | start :: rest =>
                            evalue (evaluate_scalar start values) None (λ start,
                              match unwrapped start with
                              | VInt start =>
                                  match rest with
                                  | end_ :: _ =>
                                      evalue (evaluate_scalar end_ values) None (λ end_,
                                        match unwrapped end_ with
                                        | VInt end_ => elift (substring_text source start end_) (λ s, eret (Some (VText s)))
                                        | _ => elift (Err "E_TYPE") eret
                                        end)
                                  | [] => elift (Err PANIC) eret
                                  end
                              | _ => elift (Err "E_TYPE") eret
                              end)
                        | [] => elift (Err PANIC) eret
                        end
                      else if is_text_predicate name || String.eqb name "concat" then
                        match rest with
                        | needle :: _ =>
                            evalue (evaluate_scalar needle values) None (λ needle,
                              match unwrapped needle with
                              | VText needle => elift (text_binary name source needle) (λ v, eret (Some v))
                              | _ => elift (Err "E_TYPE") eret
                              end)
                        | [] => elift (Err PANIC) eret
                        end
                      else elift (text_function name source) (λ v, eret (Some v))
                  | _ => elift (Err "E_TYPE") eret
                  end)
          end
      else elift (Err "E_QUERY") eret
  | SLength value =>
      evalue (evaluate_scalar value values) None (λ v,
        match length_value v with
        | Some n => elift (ok_or (checked is_i64 n) "E_LIMIT") (λ n, eret (Some (VInt n)))
        | None => eret None
        end)
  | SNegate value ty =>
      evalue (evaluate_scalar value values) None (λ v,
        elift (negate_value v) (λ raw, elift (coerce_arithmetic_result cat ty raw) (λ v, eret (Some v))))
  | SArithmetic l op r ty =>
      evalue (evaluate_scalar l values) None (λ l,
        evalue (evaluate_scalar r values) None (λ r,
          elift (evaluate_arithmetic l op r) (λ raw, elift (coerce_arithmetic_result cat ty raw) (λ v, eret (Some v)))))
  end.

Definition compare (l : Value) (op : CmpOp) (r : Value) (operand_type : option ScalarType) : result bool :=
  match op with
  | CmpEq => Ok (cmp_eq l r)
  | CmpNe => Ok (negb (cmp_eq l r))
  | _ =>
      ty ← ok_or operand_type "E_TYPE";
      ordering ← cmp_typed cat ty l r;
      Ok match op, ordering with
         | CmpGt, Gt | CmpLt, Lt | CmpGte, (Eq | Gt) | CmpLte, (Lt | Eq) => true
         | _, _ => false
         end
  end.

(** The search loop of [in]. *)
Fixpoint membership (item : Value) (items : list Value) : eval bool :=
  match items with
  | [] => eret false
  | candidate :: items =>
      ebind consume_collection_predicate (λ _, if cmp_eq candidate item then eret true else membership item items)
  end.

Definition contains (collection item : Value) : bool :=
  match unwrapped collection with
  | VList vs => existsb (λ v, cmp_eq v item) vs
  | VBytes hay =>
      match unwrapped item with
      | VBytes needle => bool_decide (needle = []) || is_infix needle hay
      | _ => false
      end
  | _ => false
  end.

Fixpoint evaluate_resolved (e : BoolExpression) (values : string → option Value) : eval bool :=
  match e with
  | BValue value =>
      evalue (evaluate_scalar value values) false (λ v,
        eret match unwrapped v with VBool true => true | _ => false end)
  | BCompare l op r operand_type =>
      evalue (evaluate_scalar l values) false (λ l,
        evalue (evaluate_scalar r values) false (λ r, elift (compare l op r operand_type) eret))
  | BContains collection item =>
      evalue (evaluate_scalar collection values) false (λ collection,
        evalue (evaluate_scalar item values) false (λ item, eret (contains collection item)))
  | BMembership item collection negated =>
      evalue (evaluate_scalar item values) false (λ item,
        evalue (evaluate_scalar collection values) false (λ collection,
          match unwrapped collection with
          | VList items => ebind (membership item items) (λ matched, eret (if negated then negb matched else matched))
          | _ => elift (Err "E_TYPE") eret
          end))
  | BAny collection binding predicate =>
      evalue (evaluate_scalar collection values) false (λ collection,
        match unwrapped collection with
        | VList items =>
            (fix go items :=
               match items with
               | [] => eret false
               | item :: items =>
                   ebind consume_collection_predicate (λ _,
                     ebind (evaluate_resolved predicate (scoped_resolve binding item values)) (λ matched,
                       if matched then eret true else go items))
               end) items
        | _ => elift (Err "E_TYPE") eret
        end)
  | BAll collection binding predicate =>
      evalue (evaluate_scalar collection values) false (λ collection,
        match unwrapped collection with
        | VList items =>
            (fix go items :=
               match items with
               | [] => eret true
               | item :: items =>
                   ebind consume_collection_predicate (λ _,
                     ebind (evaluate_resolved predicate (scoped_resolve binding item values)) (λ matched,
                       if matched then go items else eret false))
               end) items
        | _ => elift (Err "E_TYPE") eret
        end)
  | BIsSome value =>
      evalue (evaluate_scalar value values) false (λ v,
        match unwrapped v with
        | VOption o => eret match o with Some _ => true | None => false end
        | _ => elift (Err "E_TYPE") eret
        end)
  | BIsNone value =>
      evalue (evaluate_scalar value values) false (λ v,
        match unwrapped v with
        | VOption o => eret match o with Some _ => false | None => true end
        | _ => elift (Err "E_TYPE") eret
        end)
  | BNot value => ebind (evaluate_resolved value values) (λ b, eret (negb b))
  | BAnd l r =>
      ebind (evaluate_resolved l values) (λ b, if b then evaluate_resolved r values else eret false)
  | BOr l r =>
      ebind (evaluate_resolved l values) (λ b, if b then eret true else evaluate_resolved r values)
  end.

Definition evaluate := evaluate_resolved.

Definition evaluate_scalar_value (e : ScalarExpression) (values : string → option Value) : eval Value :=
  ebind (evaluate_scalar e values) (λ o, elift (ok_or o "E_QUERY") eret).

Definition evaluate_derive (e : BoolExpression) (values : string → option Value) : eval Value :=
  match e with
  | BValue value => evaluate_scalar_value value values
  | _ => ebind (evaluate e values) (λ b, eret (VBool b))
  end.

Definition evaluate_value (e : ScalarExpression) (values : string → option Value) : result Value :=
  fst <$> evaluate_scalar_value e values MAX_COLLECTION_PREDICATE_EVALUATIONS.
End evaluate.

(** The comparison of a field with a literal that an index can serve. *)
Fixpoint strip_ascription (e : ScalarExpression) : ScalarExpression :=
  match e with SAscribed value _ => strip_ascription value | e => e end.

Definition simple_index_comparison (e : BoolExpression) : option (string * CmpOp * Value) :=
  match e with
  | BCompare l op r _ =>
      match strip_ascription l, strip_ascription r with
      | SReference path, SLiteral v => match op with CmpNe => None | _ => Some (path, op, v) end
      | SLiteral v, SReference path =>
          match op with
          | CmpEq => Some (path, CmpEq, v)
          | CmpGt => Some (path, CmpLt, v)
          | CmpGte => Some (path, CmpLte, v)
          | CmpLt => Some (path, CmpGt, v)
          | CmpLte => Some (path, CmpGte, v)
          | CmpNe => None
          end
      | _, _ => None
      end
  | _ => None
  end.
