(* ===== verification/Typing.v ===== *)
(** * Type soundness of expressions

    What binding promises about evaluation (src/src/expression.rs): an expression
    that [bind_scalar] accepts with type [ty], evaluated on a row of the declared
    columns, yields a canonical value of [ty] or a run-time error such as overflow
    or a resource limit, never a type error, a missing field or a panic. *)
From Stdlib Require Import Ascii.
From S2P Require Import Prelude Bytes Text Decimal Temporal Float64 FloatArith BTree Scalars Model Coerce OrderedKey Codec Matching Coverage Catalog Schema Expression.

(** ** Fuel

    A recursion that stops at [E_LIMIT] agrees with every deeper one otherwise. *)
Definition limited {A} (r r' : result A) : Prop := r = Err "E_LIMIT" ∨ r' = r.

Lemma limited_refl {A} (r : result A) : limited r r.
Proof. by right. Qed.

Lemma limited_bind {A B} (m m' : result A) (k k' : A → result B) :
  limited m m' → (∀ a, limited (k a) (k' a)) → limited (m ≫= k) (m' ≫= k').
Proof. intros [->| ->] Hk; [by left|]. destruct m; [apply Hk|by right]. Qed.

Lemma limited_fmap {A B} (m m' : result A) (f : A → B) : limited m m' → limited (f <$> m) (f <$> m').
Proof. intros [->| ->]; [by left|by right]. Qed.

Lemma limited_if {A} (b : bool) (x y x' y' : result A) :
  limited x x' → limited y y' → limited (if b then x else y) (if b then x' else y').
Proof. by destruct b. Qed.

Lemma limited_mapR {A B} (f g : A → result B) l : (∀ x, limited (f x) (g x)) → limited (mapR f l) (mapR g l).
Proof.
  intros Hf. induction l as [|x l IH]; [by right|]. cbn [mapR].
  apply limited_bind; [done|]. intros y. apply limited_bind; [done|]. intros ys. by right.
Qed.

Lemma limited_foldR {A S} (f g : S → A → result S) l s :
  (∀ s x, limited (f s x) (g s x)) → limited (foldR f s l) (foldR g s l).
Proof. intros Hf. revert s. induction l as [|x l IH]; intros s; [by right|]. cbn [foldR]. by apply limited_bind. Qed.

Lemma limited_lexR {A} (f g : A → result comparison) l : (∀ x, limited (f x) (g x)) → limited (lexR f l) (lexR g l).
Proof.
  intros Hf. induction l as [|x l IH]; [by right|]. cbn [lexR]. apply limited_bind; [done|]. intros []; [done|by right..].
Qed.

Lemma coerce_inner_fuel n m cat v ty : (n ≤ m)%nat → limited (coerce_inner n cat v ty) (coerce_inner m cat v ty).
Proof.
  revert m v ty. induction n as [|n IH]; intros m v ty Hle; [by left|]. destruct m as [|m]; [lia|].
  assert (IH' : ∀ v t, limited (coerce_inner n cat v t) (coerce_inner m cat v t)) by (intros; apply IH; lia). clear IH.
  cbn [coerce_inner].
  destruct ty, v as [| | | | | | | | | | |nm args i| | | | |[w|]|]; try (by right);
    try (apply limited_bind; [by right|]; intros ?; apply limited_bind; [by right|]; intros ?; apply limited_fmap, IH').
  - apply limited_bind; [by right|]. intros var. apply limited_if; [by right|]. apply limited_bind; [|by right].
    apply limited_mapR. intros [w t]. apply IH'.
  - apply limited_bind; [|by right]. apply limited_foldR. intros s c. apply limited_bind; [|by right].
    destruct (bt_get _ _); [apply IH'|]. apply limited_bind; [by right|]. intros d. apply IH'.
  - apply limited_if; [|by right]. apply limited_fmap, limited_mapR. intros [w t]. apply IH'.
  - destruct args as [|w [|]]; try (by right). apply limited_if; [|by right]. apply limited_fmap, IH'.
  - apply limited_fmap, IH'.
  - apply limited_fmap, limited_mapR. intros w. apply IH'.
  - apply limited_if; [by right|]. apply limited_fmap, limited_mapR. intros [k w]. apply limited_if; [by right|].
    apply limited_bind; [apply IH'|by right].
Qed.

Lemma cmp_items_fuel (f g : ScalarType → Value → Value → result comparison) tys l r :
  (∀ t v w, limited (f t v w) (g t v w)) → limited (cmp_typed_items f tys l r) (cmp_typed_items g tys l r).
Proof. intros Hf. unfold cmp_typed_items. apply limited_if; [by right|]. apply limited_lexR. intros [[t v] w]. apply Hf. Qed.

Lemma cmp_typed_inner_fuel n m cat ty v w : (n ≤ m)%nat → limited (cmp_typed_inner n cat ty v w) (cmp_typed_inner m cat ty v w).
Proof.
  revert m ty v w. induction n as [|n IH]; intros m ty v w Hle; [by left|]. destruct m as [|m]; [lia|].
  assert (IH' : ∀ t v w, limited (cmp_typed_inner n cat t v w) (cmp_typed_inner m cat t v w)) by (intros; apply IH; lia). clear IH.
  cbn [cmp_typed_inner]. destruct ty; try (by right).
  - destruct v, w; try (by right). apply limited_bind; [by right|]. intros lv. apply limited_bind; [by right|]. intros rv.
    apply limited_if; [by right|]. destruct (_ ?= _); [|by right..]. by apply cmp_items_fuel.
  - destruct v, w; try (by right). apply limited_if; [by right|]. apply limited_lexR. intros c.
    apply limited_bind; [by right|]. intros lv. apply limited_bind; [by right|]. intros rv. apply IH'.
  - destruct v, w; try (by right). by apply cmp_items_fuel.
  - destruct v as [| | | | | | | | | | | | | | | |[v|]|], w as [| | | | | | | | | | | | | | | |[w|]|]; try (by right). apply IH'.
  - destruct v, w; try (by right). apply limited_bind; [|by right]. apply limited_lexR. intros [x y]. apply IH'.
  - destruct v, w; try (by right). apply limited_bind; [|by right]. apply limited_lexR. intros [[lk lv] [rk rv]].
    destruct (str_cmp lk rk); [apply IH'|by right..].
  - destruct v, w; try (by right). apply limited_if; [|by right]. apply limited_bind; [by right|]. intros d. apply IH'.
Qed.

(** ** Values of a type *)

(** The errors that report a defect of the query rather than of the data: an
    expression that passed binding must not raise them. *)
Definition internal_error (e : string) : bool :=
  one_of ["E_TYPE"; "E_QUERY"; "E_FIELD"; "E_SCHEMA"; "E_MATCH"; PANIC]%string e.

(** The result is a value satisfying [P] or a run-time error. *)
Definition safe {A} (P : A → Prop) (r : result A) : Prop :=
  match r with Ok a => P a | Err e => internal_error e = false end.

Lemma safe_Ok {A} (P : A → Prop) a : P a → safe P (Ok a).
Proof. done. Qed.

Lemma safe_Err {A} (P : A → Prop) e : internal_error e = false → safe P (Err e : result A).
Proof. done. Qed.

Lemma safe_bind {A B} (P : A → Prop) (Q : B → Prop) m k :
  safe P m → (∀ a, P a → safe Q (k a)) → safe Q (m ≫= k).
Proof. destruct m; simpl; auto. Qed.

Lemma safe_fmap {A B} (P : A → Prop) (Q : B → Prop) (f : A → B) m : safe P m → (∀ a, P a → Q (f a)) → safe Q (f <$> m).
Proof. destruct m; simpl; auto. Qed.

Lemma safe_impl {A} (P Q : A → Prop) m : safe P m → (∀ a, P a → Q a) → safe Q m.
Proof. destruct m; simpl; auto. Qed.

Lemma safe_ok_or {A} (P : A → Prop) o e :
  internal_error e = false → (∀ a, o = Some a → P a) → safe P (ok_or o e).
Proof. destruct o; simpl; auto. Qed.

Lemma safe_and {A} (P Q : A → Prop) m : safe P m → (∀ a, m = Ok a → Q a) → safe (λ a, P a ∧ Q a) m.
Proof. destruct m; simpl; auto. Qed.

(** A well-formed canonical value of a type. *)
Definition has_type (cat : Catalog) (ty : ScalarType) (v : Value) : Prop :=
  inhabits cat ty v ∧ wf_value v = true.

(** Variant IDs determine variant names: [names] gives the name of each ID. *)
Fixpoint variants_named (names : Z → string) (ty : ScalarType) : bool :=
  match ty with
  | TEnum variants =>
      forallb (λ v, String.eqb (var_name v) (names (var_id v)) && forallb (variants_named names) (var_args v)) variants
  | TRecord columns => forallb (λ c, variants_named names (col_ty c)) columns
  | TTuple items => forallb (variants_named names) items
  | TOption t | TList t | TMap t => variants_named names t
  | _ => true
  end.

(** A type the catalog can hold. *)
Definition good_type (names : Z → string) (ty : ScalarType) : Prop :=
  wf_type ty = true ∧ variants_named names ty = true.

Definition good_catalog (names : Z → string) (cat : Catalog) : Prop :=
  wf_catalog cat = true ∧ Forall (λ e, variants_named names (def_ty e.2) = true) (types cat).

Section types.
Context (names : Z → string).

Lemma good_column columns c : good_type names (TRecord columns) → c ∈ columns → good_type names (col_ty c).
Proof.
  intros [Hw Hn] Hc. destruct (wf_type_column _ _ Hw Hc) as (_ & _ & ? & _). split; [done|].
  simpl in Hn. rewrite forallb_Forall, list.Forall_forall in Hn. auto.
Qed.

Lemma good_variant variants v :
  good_type names (TEnum variants) → v ∈ variants →
  var_name v = names (var_id v) ∧ Forall (good_type names) (var_args v).
Proof.
  intros [Hw Hn] Hv. destruct (wf_type_variant _ _ Hw Hv) as (_ & _ & _ & _ & Ha).
  simpl in Hn. rewrite forallb_Forall, list.Forall_forall in Hn. specialize (Hn v Hv). simpl in Hn. bool_inv.
  split; [done|]. rewrite forallb_Forall in *. rewrite list.Forall_forall in *. intros t Ht. split; auto.
Qed.

Lemma good_items items : good_type names (TTuple items) → Forall (good_type names) items.
Proof.
  intros [Hw Hn]. simpl in *. rewrite forallb_Forall, list.Forall_forall in Hw, Hn. apply list.Forall_forall. split; auto.
Qed.

Lemma good_definition cat id d : good_catalog names cat → definition cat id = Ok d → good_type names (def_ty d).
Proof.
  intros [Hw Hn] Hd. destruct (definition_wf _ _ _ Hw Hd) as (? & _). split; [done|].
  apply definition_Ok in Hd as (name & Hin & _). rewrite list.Forall_forall in Hn. exact (Hn _ Hin).
Qed.

Lemma good_underlying cat n ty u :
  good_catalog names cat → good_type names ty → underlying_loop n cat ty = Ok u → good_type names u.
Proof.
  intros Hcat. revert ty. induction n as [|n IH]; intros ty Ht H; [done|]. cbn [underlying_loop] in H.
  destruct ty; try (by injection H as <-). apply bind_Ok in H as (d & Hd & H). eapply IH; [|done]. by eapply good_definition.
Qed.

(** Structurally equal types have the same values. *)
Lemma same_type_conforms fuel cat a b v :
  good_type names a → good_type names b → same_type a b = true → conforms fuel cat a v = true → conforms fuel cat b v = true.
Proof.
  revert a b v. induction fuel as [|fuel IH]; intros a b v Ha Hb Hs H; [done|]. cbn [conforms] in *.
  assert (Hitems : ∀ l r vs, Forall (good_type names) l → Forall (good_type names) r → all2 same_type l r = true →
    all2 (conforms fuel cat) l vs = true → all2 (conforms fuel cat) r vs = true).
  { induction l as [|x l IHl]; intros [|y r] [|w vs] Hl Hr Hlr Hv; try done. simpl in *. bool_inv.
    apply list.Forall_cons in Hl as [? ?], Hr as [? ?]. apply andb_true_iff. split; eauto. }
  destruct a, b; try discriminate Hs; try done.
  - simpl in Hs. by bool_inv; subst.
  - destruct v as [| | | | | | | | | | |n args i| | | | | |]; try discriminate H.
    destruct (find_variant_id variants i) as [va|] eqn:Ea; [|done]. apply find_variant_id_Some in Ea as (Hva & <- & _).
    simpl in Hs. apply all2_Forall2 in Hs. apply list_elem_of_lookup in Hva as [j Hj].
    destruct (Forall2_lookup_l _ _ _ _ _ Hs Hj) as (vb & Hj' & Hab). bool_inv.
    apply list_elem_of_lookup_2 in Hj, Hj'. match goal with E : var_id va = var_id vb |- _ => rewrite E end.
    rewrite (find_variant_id_elem _ _ (proj1 Hb) Hj'). destruct (good_variant _ _ Ha Hj) as [Ena ?], (good_variant _ _ Hb Hj') as [Enb ?].
    apply andb_true_iff. split; [apply String.eqb_eq; congruence|]. eauto.
  - destruct v; try discriminate H. simpl in Hs. apply all2_Forall2 in Hs. apply Forall2_length in Hs as Hl. bool_inv.
    apply andb_true_iff. split; [apply Z.eqb_eq; unfold zlen in *; lia|].
    match goal with Hc : forallb _ columns = true |- _ => rename Hc into Hcols end. clear Hl H.
    assert (Hga : ∀ c, c ∈ columns → good_type names (col_ty c)) by (intros; by apply (good_column columns)).
    assert (Hgb : ∀ c, c ∈ columns0 → good_type names (col_ty c)) by (intros; by apply (good_column columns0)). clear Ha Hb.
    induction Hs as [|ca cb l r Hab _ IHs]; [done|]. simpl in Hcols |- *. bool_inv.
    match goal with E : col_name ca = col_name cb |- _ => rewrite <-E end. apply andb_true_iff. split.
    + destruct (bt_get (col_name ca) fields); [|done]. eapply IH; [apply Hga; by left|apply Hgb; by left|done..].
    + apply IHs; [done|intros; apply Hga; by right|intros; apply Hgb; by right].
  - destruct v; try discriminate H. eauto using good_items.
  - destruct v as [| | | | | | | | | | | | | | | |[w|]|]; try discriminate H; [|done]. exact (IH a b w Ha Hb Hs H).
  - destruct v; try discriminate H. revert H. apply forallb_impl. intros x _. exact (IH a b x Ha Hb Hs).
  - destruct v; try discriminate H. bool_inv. apply andb_true_iff. split; [by apply Z.leb_le|].
    match goal with Hc : forallb _ _ = true |- _ => revert Hc end. apply forallb_impl. intros [k w] _ Hk. bool_inv.
    apply andb_true_iff. split; [by apply Z.leb_le|]. by apply (IH a b w Ha Hb Hs).
  - simpl in Hs. by bool_inv; subst.
Qed.

Lemma same_type_sym : ∀ l r, same_type l r = true → same_type r l = true.
Proof.
  fix go 1. intros l r H. destruct l, r; try discriminate H; cbn [same_type] in *; try done.
  - bool_inv. subst. by rewrite !Z.eqb_refl.
  - revert variants0 H. induction variants as [|x xs IH]; intros [|y ys] H; try done. cbn [all2] in *. bool_inv.
    apply andb_true_iff. split; [|by apply IH]. apply andb_true_iff. split; [by apply Z.eqb_eq|].
    match goal with Ha : all2 same_type _ _ = true |- _ => revert Ha end. generalize (var_args y). destruct x as [xn xa xi]. cbn [var_args].
    induction xa as [|t ts IHt]; intros [|u us] Ha; try done. cbn [all2] in *. bool_inv. apply andb_true_iff. split; [by apply go|by apply IHt].
  - revert columns0 H. induction columns as [|x xs IH]; intros [|y ys] H; try done. cbn [all2] in *. bool_inv.
    apply andb_true_iff. split; [|by apply IH]. apply andb_true_iff. split; [by apply String.eqb_eq|].
    destruct x as [xn xt xd xi]. cbn [col_ty] in *. by apply go.
  - revert items0 H. induction items as [|x xs IH]; intros [|y ys] H; try done. cbn [all2] in *. bool_inv.
    apply andb_true_iff. split; [by apply go|by apply IH].
  - by apply go.
  - by apply go.
  - by apply go.
  - bool_inv. subst. by rewrite Z.eqb_refl.
Qed.

Lemma same_type_has_type cat a b v :
  good_type names a → good_type names b → same_type a b = true → has_type cat a v → has_type cat b v.
Proof. intros Ha Hb Hs [[f Hc] Hw]. split; [|done]. exists f. exact (same_type_conforms f cat a b v Ha Hb Hs Hc). Qed.
End types.

Section catalog.
Context (names : Z → string) (cat : Catalog) (Hcat : good_catalog names cat).

(** Coercing a value of the type can only hit the depth limit. *)
Lemma coerce_has_type ty v : good_type names ty → has_type cat ty v → safe (λ r, r = v) (coerce cat v ty).
Proof.
  intros [Hw _] [[f Hc] Hv]. unfold coerce. generalize MAX_DEPTH. intros n.
  destruct (coerce_inner_fuel n (Nat.max n f) cat v ty ltac:(lia)) as [->| <-]; [done|].
  rewrite (coerce_inner_stable (Nat.max n f)); [done|apply Hcat|done..|]. eapply conforms_le; [|done]. lia.
Qed.

(** Comparing two values of the type too. *)
Lemma cmp_typed_has_type ty v w : has_type cat ty v → has_type cat ty w → safe (λ _, True) (cmp_typed cat ty v w).
Proof.
  intros [[f Hv] Hwv] [[g Hw] Hww]. unfold cmp_typed. generalize MAX_DEPTH. intros n.
  destruct (cmp_typed_inner_fuel n (Nat.max n (Nat.max f g)) cat ty v w ltac:(lia)) as [->| <-]; [done|].
  destruct (encode_value_total (Nat.max n (Nat.max f g)) cat ty v) as [a Ha]; [eapply conforms_le; [|done]; lia|].
  destruct (encode_value_total (Nat.max n (Nat.max f g)) cat ty w) as [b Hb]; [eapply conforms_le; [|done]; lia|].
  destruct (encode_value_order _ _ _ _ _ _ _ _ Hwv Hww Ha Hb) as (c & -> & _). done.
Qed.

Lemma underlying_has_type ty u v :
  underlying cat ty = Ok u → has_type cat ty v → has_type cat u (unwrapped v).
Proof.
  intros Hu [Hi Hw]. split; [by eapply underlying_inhabits|]. clear -Hw.
  induction v; simpl in *; try done. bool_inv. auto.
Qed.

(** The shapes of the values of a type. *)
Lemma has_type_shape ty v : has_type cat ty v →
  match ty with
  | TInt => ∃ z, v = VInt z ∧ is_i64 z = true
  | TFloat => ∃ b, v = VFloat b ∧ is_finite b = true ∧ is_u64 b = true ∧ implb (is_zero b) (b =? 0) = true
  | TBool => ∃ b, v = VBool b
  | TText => ∃ s, v = VText s ∧ wf_string s = true
  | TUuid => ∃ u, v = VUuid u ∧ wf_uuid u = true
  | TDate => ∃ d, v = VDate d ∧ in_range MIN_DAYS MAX_DAYS d = true
  | TTimestamp => ∃ t, v = VTimestamp t ∧ is_ok (from_epoch_microseconds t) = true
  | TDuration => ∃ t, v = VDuration t ∧ is_i64 t = true
  | TDecimal p s => ∃ d, v = VDecimal d ∧ scale d = s ∧ wf_decimal d = true
  | TBytes => ∃ b, v = VBytes b ∧ wf_bytes b = true
  | TOption t => ∃ o, v = VOption o ∧ ∀ w, o = Some w → has_type cat t w
  | TList t => ∃ l, v = VList l ∧ Forall (has_type cat t) l
  | TMap t => ∃ m, v = VMap m ∧ bt_sorted m = true ∧ Forall (λ e, wf_string e.1 = true ∧ has_type cat t e.2) m
  | TRecord columns => ∃ m, v = VRecord m ∧ ∀ c, c ∈ columns → ∃ w, bt_get (col_name c) m = Some w ∧ has_type cat (col_ty c) w
  | _ => True
  end.
Proof.
  intros [[[|f] Hc] Hw]; [done|]. cbn [conforms] in Hc.
  destruct ty, v as [| | | | | | | | | | |n args i| | | | |[w|]|]; try discriminate Hc; simpl in Hw; try done; try (by eauto).
  - bool_inv. eauto 6.
  - bool_inv. eauto 6.
  - bool_inv. eexists; split; [done|]. intros c Hin.
    match goal with H : forallb _ columns = true |- _ => rewrite forallb_Forall, list.Forall_forall in H; specialize (H c Hin); simpl in H end.
    destruct (bt_get (col_name c) fields) as [x|] eqn:E; [|done]. exists x. split; [done|]. split; [by exists f|].
    apply bt_get_elem in E. by eapply wf_entries_elem.
  - eexists; split; [done|]. intros x [= <-]. split; [by exists f|done].
  - eexists; split; [done|]. by intros ? [=].
  - eexists; split; [done|]. rewrite forallb_Forall, list.Forall_forall in Hc, Hw. apply list.Forall_forall. intros x Hx.
    split; [exists f|]; auto.
  - bool_inv. eexists; split_and!; [done..|]. apply list.Forall_forall. intros [k x] Hx.
    match goal with H : forallb _ entries = true, H' : forallb _ entries = true |- _ =>
      rewrite forallb_Forall, list.Forall_forall in H, H'; specialize (H _ Hx); specialize (H' _ Hx); simpl in H, H' end.
    bool_inv. split; [done|]. split; [by exists f|done].
Qed.
End catalog.

(** ** Paths *)

Lemma no_dot_cons c s : no_dot (String c s) = true → Ascii.eqb c "." = false ∧ no_dot s = true.
Proof.
  unfold no_dot. simpl. destruct (rsplit_once "." s) as [[q n]|]; [done|]. by destruct (Ascii.eqb c ".").
Qed.

Lemma split_dots_no_dot s : no_dot s = true → split_dots s = [s].
Proof.
  induction s as [|c s IH]; [done|]. intros [Hc Hs]%no_dot_cons. simpl. by rewrite Hc, IH.
Qed.

Lemma append_cons c a r : String c a +:+ r = String c (a +:+ r).
Proof. done. Qed.

Lemma append_nil r : EmptyString +:+ r = r.
Proof. done. Qed.

Lemma split_dots_app a r : no_dot a = true → split_dots (a +:+ String "." r) = a :: split_dots r.
Proof.
  induction a as [|c a IH]; [done|]. intros [Hc Ha]%no_dot_cons. rewrite append_cons. cbn [split_dots]. by rewrite Hc, IH.
Qed.

Lemma split_dots_nonempty s : split_dots s ≠ [].
Proof. destruct s as [|c s]; [done|]. simpl. destruct (Ascii.eqb c "."); [done|]. by destruct (split_dots s). Qed.

(** A path is its first component, or its first component, a dot and the rest. *)
Lemma split_dots_cases path first parts :
  split_dots path = first :: parts →
  parts = [] ∧ path = first ∨
  ∃ rest, parts = split_dots rest ∧ path = first +:+ String "." rest ∧ split_dot path = Some (first, rest).
Proof.
  revert first. induction path as [|c path IH]; intros first H.
  - injection H as <- <-. by left.
  - cbn [split_dots split_dot] in *. destruct (Ascii.eqb_spec c "."%char) as [->|Hc].
    + injection H as <- <-. right. by exists path.
    + destruct (split_dots path) as [|p ps] eqn:E; [by apply split_dots_nonempty in E|].
      injection H as <- <-. destruct (IH p eq_refl) as [[-> ->]|(rest & -> & -> & Hs)]; [by left|].
      right. exists rest. rewrite Hs. done.
Qed.

Lemma strip_prefix_app a r : strip_prefix a (a +:+ r) = Some r.
Proof. induction a as [|c a IH]; [done|]. rewrite append_cons. cbn [strip_prefix]. by rewrite Ascii.eqb_refl. Qed.

Lemma strip_prefix_Some a s r : strip_prefix a s = Some r → s = a +:+ r.
Proof.
  revert s. induction a as [|c a IH]; intros s H; [by injection H as ->|]. destruct s as [|d s]; [done|].
  cbn [strip_prefix] in H. destruct (Ascii.eqb_spec c d) as [->|]; [|done]. by rewrite append_cons, (IH _ H).
Qed.

(** ** Environments *)

Section env.
Context (names : Z → string) (cat : Catalog) (Hcat : good_catalog names cat).

Definition scope_ok (scope : Columns) : Prop :=
  Forall (λ c, good_type names (col_ty c) ∧ no_dot (col_name c) = true) scope.

(** Every path that has a type has a value of that type. *)
Definition typed_env (scope : Columns) (values : string → option Value) : Prop :=
  ∀ path ty, field_type cat scope path = Ok ty → ∃ v, values path = Some v ∧ has_type cat ty v.

Definition field_step (o : option Value) (component : string) : option Value :=
  v ← o; match unwrapped v with VRecord fields => bt_get component fields | _ => None end.

Lemma find_column_Some columns name c : find_column columns name = Some c → c ∈ columns ∧ col_name c = name.
Proof. intros [? H]%find_Some_elem. by bool_inv. Qed.

Lemma field_type_loop_typed ty parts t v :
  good_type names ty → has_type cat ty v → field_type_loop cat ty parts = Ok t →
  ∃ w, foldl field_step (Some v) parts = Some w ∧ has_type cat t w.
Proof.
  revert ty v. induction parts as [|p parts IH]; intros ty v Ht Hv H; cbn [field_type_loop] in H.
  - injection H as <-. by exists v.
  - apply bind_Ok in H as (u & Hu & H). destruct u; try discriminate H.
    apply bind_Ok in H as (c & Hc%ok_or_Ok & H). apply find_column_Some in Hc as [Hc <-].
    pose proof (underlying_has_type _ _ _ _ Hu Hv) as Hs. apply has_type_shape in Hs as (m & Em & Hm).
    destruct (Hm c Hc) as (w & Hw & Hwt). cbn [foldl field_step mbind option_bind]. rewrite Em, Hw.
    eapply IH; [|done..]. eapply good_column; [|done]. by eapply good_underlying.
Qed.

Lemma field_type_loop_good ty parts t : good_type names ty → field_type_loop cat ty parts = Ok t → good_type names t.
Proof.
  revert ty. induction parts as [|p parts IH]; intros ty Ht H; cbn [field_type_loop] in H; [by injection H as <-|].
  apply bind_Ok in H as (u & Hu & H). destruct u; try discriminate H.
  apply bind_Ok in H as (c & Hc%ok_or_Ok & H). apply find_column_Some in Hc as [Hc <-]. eapply IH; [|done].
  eapply good_column; [|done]. by eapply good_underlying.
Qed.

Lemma field_type_good scope path t : scope_ok scope → field_type cat scope path = Ok t → good_type names t.
Proof.
  intros Hs H. unfold scope_ok in Hs. rewrite list.Forall_forall in Hs. unfold field_type in H. destruct (find_column scope path) as [f|] eqn:Ef.
  - injection H as <-. apply find_column_Some in Ef as [Hf _]. by apply Hs.
  - destruct (split_dots path) as [|first parts]; [done|]. apply bind_Ok in H as (c & Hc%ok_or_Ok & H).
    apply find_column_Some in Hc as [Hc _]. eapply field_type_loop_good; [|done]. by apply Hs.
Qed.

(** The typing of a path, by its shape. *)
Lemma field_type_cases scope path t :
  field_type cat scope path = Ok t →
  (∃ c, find_column scope path = Some c ∧ col_ty c = t) ∨
  find_column scope path = None ∧
  ∃ first rest c, path = first +:+ String "." rest ∧ split_dot path = Some (first, rest) ∧
    split_dots path = first :: split_dots rest ∧
    find_column scope first = Some c ∧ field_type_loop cat (col_ty c) (split_dots rest) = Ok t.
Proof.
  unfold field_type. destruct (find_column scope path) as [f|] eqn:Ef; [intros [= <-]; eauto|]. intros H. right. split; [done|].
  destruct (split_dots path) as [|first parts] eqn:Es; [done|]. apply bind_Ok in H as (c & Hc%ok_or_Ok & H).
  destruct (split_dots_cases _ _ _ Es) as [[-> ->]|(rest & -> & Ep & Hd)]; [by rewrite Hc in Ef|].
  exists first, rest, c. done.
Qed.

(** A row of the declared columns is an environment for them. *)
Lemma row_typed_env scope row :
  good_type names (TRecord scope) → has_type cat (TRecord scope) (VRecord row) → typed_env scope (row_field row).
Proof.
  intros Hg Hrow path ty H. pose proof (has_type_shape _ _ _ Hrow) as (m & [= <-] & Hm).
  apply field_type_cases in H as [(c & Hc & <-)|(Hnone & first & rest & c & Ep & Hd & _ & Hc & H)];
    apply find_column_Some in Hc as [Hc Hn]; destruct (Hm c Hc) as (w & Hw & Hwt); unfold row_field.
  - subst path. rewrite Hw. eauto.
  - destruct (bt_get path row) as [x|] eqn:Ex.
    + exfalso. assert (Hk : path ∈ col_name <$> scope).
      { destruct Hrow as [[[|f] Hf] Hwf]; [done|]. cbn [conforms] in Hf. simpl in Hwf. bool_inv.
        rewrite (record_keys scope row); try done.
        - apply bt_get_elem in Ex. change path with (path, x).1. by apply list_elem_of_fmap_2.
        - apply wf_type_nodup_columns, Hg.
        - intros c' Hc'. destruct (Hm c' Hc') as (? & -> & _). by eexists. }
      apply list_elem_of_fmap in Hk as (c' & -> & Hc'). unfold find_column in Hnone.
      pose proof (find_none _ _ Hnone c' (proj1 (list_elem_of_In _ _) Hc')) as Hx. cbn beta in Hx. by rewrite String.eqb_refl in Hx.
    + rewrite Hd. subst first. cbn [mbind option_bind]. rewrite Hw. cbn [mbind option_bind].
      unfold field. eapply (field_type_loop_typed (col_ty c)); try done. by eapply good_column.
Qed.

(** Binding a list element extends the environment. *)
Lemma scoped_typed_env scope values binding item item_ty :
  scope_ok scope → no_dot binding = true → good_type names item_ty → has_type cat item_ty item → typed_env scope values →
  typed_env (Column binding item_ty None 0 :: scope) (scoped_resolve binding item values).
Proof.
  intros Hs Hb Ht Hi Henv path ty H. unfold scope_ok in Hs. rewrite list.Forall_forall in Hs. unfold scoped_resolve.
  destruct (String.eqb_spec path binding) as [->|Hne].
  { unfold field_type in H. cbn [find_column List.find col_name] in H. rewrite String.eqb_refl in H. injection H as <-. eauto. }
  assert (Hcol : find_column (Column binding item_ty None 0 :: scope) path = find_column scope path).
  { unfold find_column. cbn [List.find col_name]. by rewrite (proj2 (String.eqb_neq _ _)). }
  assert (Hout : ∀ suffix, strip_prefix binding path = Some suffix → ∀ rest, strip_prefix "." suffix = Some rest →
    path = binding +:+ String "." rest).
  { intros suffix ->%strip_prefix_Some rest ->%strip_prefix_Some. done. }
  apply field_type_cases in H as [(c & Hc & <-)|(Hnone & first & rest & c & Ep & Hd & Hsd & Hc & H)].
  - rewrite Hcol in Hc. pose proof (find_column_Some _ _ _ Hc) as [Hin <-].
    destruct (strip_prefix binding (col_name c)) as [suffix|] eqn:E1; cbn [mbind option_bind];
      [destruct (strip_prefix "." suffix) as [rest|] eqn:E2|].
    + exfalso. pose proof (Hout _ eq_refl _ E2) as E. destruct (Hs c Hin) as [_ Hnd].
      pose proof (split_dots_no_dot _ Hnd) as E'. rewrite E, split_dots_app in E' by done. injection E' as _ E'.
      by apply split_dots_nonempty in E'.
    + apply Henv. unfold field_type. by rewrite Hc.
    + apply Henv. unfold field_type. by rewrite Hc.
  - unfold find_column in Hc. cbn [List.find col_name] in Hc. destruct (String.eqb_spec binding first) as [<-|Hf].
    + injection Hc as <-. subst path. rewrite strip_prefix_app. cbn [mbind option_bind strip_prefix]. rewrite Ascii.eqb_refl.
      cbn [strip_prefix]. unfold field. by eapply (field_type_loop_typed item_ty).
    + assert (Hv : ∃ v, values path = Some v ∧ has_type cat ty v).
      { apply Henv. unfold field_type. rewrite <-Hcol, Hnone, Hsd. unfold find_column. by rewrite Hc. }
      destruct (strip_prefix binding path) as [suffix|] eqn:E1; cbn [mbind option_bind];
        [destruct (strip_prefix "." suffix) as [rest'|] eqn:E2|]; try done.
      exfalso. pose proof (Hout _ eq_refl _ E2) as E. rewrite E, split_dots_app in Hsd by done. injection Hsd as ? _. done.
Qed.
End env.
