(* ===== verification/EvalOps.v ===== *)
(** * The operations of expressions are well typed

    For each operation of src/src/expression.rs's evaluator: on operands of the types
    that binding established it returns a well-formed value of the result type, or
    a run-time error. *)
From Stdlib Require Import Ascii.
From S2P Require Import Prelude Bytes Text Utf8 Decimal Temporal Float64 FloatArith BTree Scalars Model Coerce OrderedKey Codec Matching Coverage Catalog Schema Expression Typing.

(** ** Text *)

Lemma boundaries_conts off c l : forallb cont c = true → char_boundaries off (c ++ l) = char_boundaries (off + length c) l.
Proof.
  revert off. induction c as [|b c IH]; intros off H; simpl in *; [by rewrite Nat.add_0_r|]. bool_inv.
  match goal with Hb : cont b = true |- _ => rewrite Hb end. rewrite IH by done. f_equal. lia.
Qed.

(** The boundaries are the ends of the characters. *)
Lemma boundaries_chunks off chunks i :
  Forall (λ c, utf8_char c = true) chunks →
  length (char_boundaries off (concat chunks)) = S (length chunks) ∧
  ((i ≤ length chunks)%nat →
   char_boundaries off (concat chunks) !! i = Some (off + length (concat (take i chunks)))%nat).
Proof.
  intros H. revert off i. induction H as [|c chunks Hc _ IH]; intros off i.
  - split; [done|]. intros Hi. simpl in Hi. replace i with 0%nat by lia. simpl. f_equal. lia.
  - destruct (utf8_char_cons _ Hc) as (b0 & r & -> & Hb0 & Hr). cbn [concat app char_boundaries]. rewrite Hb0.
    rewrite boundaries_conts by done. destruct (IH (S off + length r)%nat (i - 1)%nat) as [Hl Hi]. split; [cbn [length]; by rewrite Hl|].
    intros Hle. destruct i as [|i]; [simpl; f_equal; lia|]. simpl in Hle.
    replace (S i - 1)%nat with i in Hi by lia. specialize (Hi ltac:(lia)). simpl in Hi |- *. rewrite Hi. rewrite length_app. f_equal. lia.
Qed.

Lemma slice_chunks (chunks : list (list Z)) i j :
  (i ≤ j)%nat → slice (length (concat (take i chunks))) (length (concat (take j chunks))) (concat chunks) =
  concat (take (j - i) (drop i chunks)).
Proof.
  intros Hij. unfold slice.
  assert (E : concat chunks = concat (take i chunks) ++ concat (take (j - i) (drop i chunks)) ++ concat (drop j chunks)).
  { rewrite <-!concat_app. f_equal. replace (drop j chunks) with (drop (j - i) (drop i chunks)) by (rewrite drop_drop; f_equal; lia).
    by rewrite !take_drop. }
  assert (Ej : concat (take j chunks) = concat (take i chunks) ++ concat (take (j - i) (drop i chunks))).
  { rewrite <-concat_app. f_equal. replace j with (i + (j - i))%nat at 1 by lia. by rewrite <-take_take_drop. }
  rewrite E, drop_app_length, Ej, length_app.
  replace (length (concat (take i chunks)) + length (concat (take (j - i) (drop i chunks))) - length (concat (take i chunks)))%nat
    with (length (concat (take (j - i) (drop i chunks)))) by lia.
  by rewrite take_app_length.
Qed.

(** [substring] selects whole characters. *)
Lemma substring_text_chunks chunks source start end_ t :
  as_bytes source = concat chunks → Forall (λ c, utf8_char c = true) chunks → substring_text source start end_ = Ok t →
  0 ≤ start ≤ end_ ∧ end_ ≤ zlen chunks ∧
  t = of_bytes (concat (take (Z.to_nat end_ - Z.to_nat start) (drop (Z.to_nat start) chunks))).
Proof.
  intros Hs Hall H. unfold substring_text in H. rewrite Hs in H. case_if_in H; [done|]. bool_inv.
  destruct (boundaries_chunks 0 chunks (Z.to_nat start) Hall) as [Hl Hi].
  destruct (boundaries_chunks 0 chunks (Z.to_nat end_) Hall) as [_ Hj]. unfold zlen in *. rewrite Hl in H.
  case_if_in H; [done|]. bool_inv. rewrite Hi, Hj in H by lia. cbn [ok_or mbind result_bind] in H.
  rewrite !Nat.add_0_l, slice_chunks in H by lia. case_if_in H; [done|]. injection H as <-. split_and!; lia || done.
Qed.

Lemma all_bytes_slice l chunks n m : l = concat chunks → all_bytes l = true → all_bytes (concat (take n (drop m chunks))) = true.
Proof.
  intros -> H. rewrite all_bytes_Forall in *. rewrite <-(take_drop m chunks), concat_app in H. apply Forall_app in H as [_ H].
  rewrite <-(take_drop n (drop m chunks)), concat_app in H. by apply Forall_app in H as [H _].
Qed.

Lemma substring_text_safe source start end_ :
  wf_string source = true → safe (λ t, wf_string t = true) (substring_text source start end_).
Proof.
  intros Hw. pose proof Hw as (chunks & Hc & Hall)%utf8_chunks.
  destruct (substring_text source start end_) as [t|e] eqn:E.
  - destruct (substring_text_chunks _ _ _ _ _ Hc Hall E) as (_ & _ & ->). apply wf_string_of_bytes.
    + eapply all_bytes_slice; [done|apply as_bytes_all_bytes].
    + apply utf8_chunks. eexists; split; [done|]. by apply Forall_take, Forall_drop.
  - unfold substring_text in E. rewrite Hc in E. case_if_in E; [injection E as <-; done|]. bool_inv.
    destruct (boundaries_chunks 0 chunks (Z.to_nat start) Hall) as [Hl Hi].
    destruct (boundaries_chunks 0 chunks (Z.to_nat end_) Hall) as [_ Hj]. unfold zlen in *. rewrite Hl in E.
    case_if_in E; [injection E as <-; done|]. bool_inv. rewrite Hi, Hj in E by lia. cbn [ok_or mbind result_bind] in E.
    case_if_in E; [injection E as <-; done|done].
Qed.

(** What the standard library's text functions promise: they return strings. *)
Class TextLibLaws `{TextLib} := {
  to_lowercase_wf s : wf_string s = true → wf_string (to_lowercase s) = true;
  to_uppercase_wf s : wf_string s = true → wf_string (to_uppercase s) = true;
  trim_wf s : wf_string s = true → wf_string (trim s) = true;
  float_debug_wf b : wf_string (float_debug b) = true
}.

Definition ascii_bytes (l : list Z) : Prop := forallb (in_range 0 127) l = true.

Lemma wf_string_ascii_bytes l : ascii_bytes l → wf_string (of_bytes l) = true.
Proof.
  intros H. apply wf_string_ascii. unfold ascii_bytes in H. rewrite forallb_Forall in H. revert H.
  apply Forall_impl. intros b Hb. unrange. lia.
Qed.

Lemma ascii_bytes_app a b : ascii_bytes (a ++ b) ↔ ascii_bytes a ∧ ascii_bytes b.
Proof. unfold ascii_bytes. by rewrite forallb_app, andb_true_iff. Qed.

Lemma ascii_bytes_cons x a : ascii_bytes (x :: a) ↔ 0 ≤ x ≤ 127 ∧ ascii_bytes a.
Proof. unfold ascii_bytes. simpl. by rewrite andb_true_iff, in_range_spec. Qed.

Lemma show_nat_ascii z : 0 ≤ z → ascii_bytes (show_nat z).
Proof. intros. by apply digits_ascii, show_nat_digits. Qed.

Lemma show_int_ascii z : ascii_bytes (show_int z).
Proof.
  unfold show_int. destruct (Z.ltb_spec z 0); [|by apply show_nat_ascii]. apply ascii_bytes_cons. split; [lia|].
  apply show_nat_ascii. lia.
Qed.

Lemma decimal_display_ascii d : wf_decimal d = true → ascii_bytes (decimal_display d).
Proof.
  intros [_ Hs]%wf_decimal_spec. unfold decimal_display.
  assert (Hsign : ascii_bytes (if coefficient d <? 0 then [45] else [])) by (by destruct (_ <? _)).
  pose proof (pow10_pos (scale d)). destruct (scale d =? 0); rewrite ascii_bytes_app; (split; [done|]).
  - apply show_nat_ascii. lia.
  - apply ascii_bytes_app. split; [apply show_nat_ascii, Z.div_pos; lia|]. apply ascii_bytes_cons. split; [lia|].
    apply pad0_ascii. apply Z.mod_pos_bound. lia.
Qed.

Lemma duration_display_ascii d : ascii_bytes (duration_display d).
Proof.
  unfold duration_display. destruct (d =? 0); [done|]. destruct (find _ UNITS) as [[u size]|] eqn:E; [|done].
  rewrite !ascii_bytes_app. split_and!.
  - by destruct (_ <? _).
  - apply show_nat_ascii. lia.
  - apply find_some in E as [Hin _].
    assert (Hall : forallb (λ u : string * Z, forallb (in_range 0 127) (as_bytes u.1)) UNITS = true) by done.
    rewrite forallb_forall in Hall. exact (Hall _ Hin).
  - by destruct (_ || _).
Qed.

Lemma hex_byte_ascii b : 0 ≤ b < 256 → ascii_bytes (hex_byte b).
Proof.
  intros Hb. unfold hex_byte, hex_char. rewrite !ascii_bytes_cons.
  assert (0 ≤ b / 16 < 16) by (split; [apply Z.div_pos; lia|apply Z.div_lt_upper_bound; lia]).
  pose proof (Z.mod_pos_bound b 16). split_and!; [destruct (_ <? _); lia..|done].
Qed.

Lemma concat_ascii (l : list (list Z)) : Forall ascii_bytes l → ascii_bytes (concat l).
Proof. induction 1; [done|]. simpl. by apply ascii_bytes_app. Qed.

Lemma bytes_display_ascii bs : all_bytes bs = true → ascii_bytes (bytes_display bs).
Proof.
  rewrite all_bytes_Forall. intros H. apply concat_ascii. apply list.Forall_fmap. revert H. apply Forall_impl. apply hex_byte_ascii.
Qed.

Lemma uuid_display_ascii u : all_bytes u = true → ascii_bytes (uuid_display u).
Proof.
  rewrite all_bytes_Forall, list.Forall_lookup. intros H. apply concat_ascii. apply list.Forall_lookup. intros i l Hl.
  rewrite list_lookup_imap in Hl. destruct (u !! i) as [b|] eqn:E; [|done]. injection Hl as <-. apply ascii_bytes_app.
  split; [by case_match|]. apply hex_byte_ascii. eauto.
Qed.

Lemma timestamp_display_ascii t : is_ok (from_epoch_microseconds t) = true → ascii_bytes (timestamp_display t).
Proof.
  intros H. destruct (from_epoch_microseconds t) as [x|] eqn:E; [|done]. apply from_epoch_microseconds_Ok in E as [-> Hd].
  unfold timestamp_display. assert (Hr : 0 ≤ t `mod` DAY_MICROS < DAY_MICROS) by (apply Z.mod_pos_bound; by vm_compute).
  assert (Hq : 0 ≤ t `mod` DAY_MICROS / 1000000) by (apply Z.div_pos; lia).
  rewrite !ascii_bytes_app. split_and!; try done.
  - by apply date_display_ascii.
  - apply pad0_ascii, Z.div_pos; lia.
  - apply pad0_ascii, Z.mod_pos_bound. lia.
  - apply pad0_ascii, Z.mod_pos_bound. lia.
  - destruct (_ =? 0) eqn:E0; [done|]. bool_inv. pose proof (Z.mod_pos_bound (t `mod` DAY_MICROS) 1000000).
    pose proof (fraction_ascii ((t `mod` DAY_MICROS) `mod` 1000000) ltac:(lia)) as Hf.
    rewrite (proj2 (Z.eqb_neq _ _)) in Hf by done. by apply ascii_bytes_app in Hf as [Hf _].
Qed.

(** ** Parsing *)

Lemma hex_digit_range c d : hex_digit c = Ok d → 0 ≤ d < 16.
Proof. unfold hex_digit, in_range. repeat case_match; intros; res_inv; bool_inv; lia. Qed.

Lemma hex_digit_safe c : safe (λ d, 0 ≤ d < 16) (hex_digit c).
Proof.
  destruct (hex_digit c) as [d|e] eqn:E; [by eapply hex_digit_range|]. unfold hex_digit in E. repeat case_match; simplify_eq; done.
Qed.

Lemma safe_foldR {A S} (P : S → Prop) (f : S → A → result S) l s :
  (∀ s x, P s → safe P (f s x)) → P s → safe P (foldR f s l).
Proof.
  intros Hf. revert s. induction l as [|x l IH]; intros s Hs; [done|]. cbn [foldR].
  eapply safe_bind; [by apply Hf|]. apply IH.
Qed.

(** The digits written so far: each byte has received the two digits of its pair. *)
Definition uuid_inv (st : list Z * nat) : Prop :=
  length st.1 = 16%nat ∧
  ∀ i b, st.1 !! i = Some b → 0 ≤ b < 256 ∧ ((st.2 ≤ 2 * i)%nat → b = 0) ∧ (st.2 = (2 * i + 1)%nat → b < 16).

Lemma uuid_step_inv st p : uuid_inv st → safe uuid_inv (uuid_step st p).
Proof.
  destruct st as [bytes off], p as [index byte]. intros [Hl Hb]. cbn [fst snd] in Hl, Hb. unfold uuid_step.
  destruct (existsb (Nat.eqb index) _); [by destruct (byte =? 45)|].
  eapply safe_bind; [apply hex_digit_safe|]. intros d Hd. cbn beta in Hd. split; [cbn [fst]; by rewrite length_alter|]. intros i b Hib. cbn [fst snd] in Hib |- *.
  pose proof (Nat.div_mod off 2 ltac:(lia)) as Ho. pose proof (Nat.mod_upper_bound off 2 ltac:(lia)).
  destruct (decide (i = (off / 2)%nat)) as [->|Hne].
  - rewrite list_lookup_alter_eq in Hib. destruct (bytes !! (off / 2)%nat) as [b0|] eqn:E; [|done]. injection Hib as <-.
    destruct (Hb _ _ E) as (Hr & H0 & H1). destruct (decide (off mod 2 = 0)%nat).
    + rewrite H0 by lia. split_and!; intros; lia.
    + assert (b0 < 16) by (apply H1; lia). split_and!; intros; lia.
  - rewrite list_lookup_alter_ne in Hib by done. destruct (Hb _ _ Hib) as (Hr & H0 & H1). split_and!; [lia..| |].
    + intros. apply H0. lia.
    + intros. exfalso. apply Hne. lia.
Qed.

Lemma uuid_from_str_safe source : safe (λ u, wf_uuid u = true) (uuid_from_str source).
Proof.
  unfold uuid_from_str. destruct (negb _); [done|]. eapply safe_fmap; [apply (safe_foldR uuid_inv)|].
  - intros. by apply uuid_step_inv.
  - split; [done|]. intros i b Hb. cbn [fst snd] in *. apply lookup_replicate in Hb as [-> Hi]. split_and!; intros; lia.
  - intros [bytes off] [Hl Hb]. simpl in *. unfold wf_uuid, zlen. rewrite Hl. simpl. apply all_bytes_Forall, list.Forall_lookup.
    intros i b Hib. by destruct (Hb i b Hib).
Qed.

Lemma decode_pairs_safe n l : (length l ≤ n)%nat → safe (λ bs, all_bytes bs = true ∧ (2 * length bs ≤ length l)%nat) (decode_pairs l).
Proof.
  intros Hn. destruct (decode_pairs l) as [bs|e] eqn:E; [by eapply decode_pairs_all_bytes|]. simpl.
  revert l Hn E. induction n as [|n IH]; intros [|hi [|lo l]] Hn E; cbn [decode_pairs length] in *; try done; try lia.
  pose proof (hex_digit_safe hi). destruct (hex_digit hi); cbn [mbind result_bind] in E; [|by injection E as <-].
  pose proof (hex_digit_safe lo). destruct (hex_digit lo); cbn [mbind result_bind] in E; [|by injection E as <-].
  destruct (decode_pairs l) eqn:El; cbn [mbind result_bind] in E; [done|]. injection E as <-. apply (IH l); [lia|done].
Qed.

Lemma bytes_from_str_safe source : safe (λ b, wf_bytes b = true) (bytes_from_str source).
Proof.
  unfold bytes_from_str, decode_hex. destruct (_ || _) eqn:E; [done|]. bool_inv.
  eapply safe_impl; [by apply (decode_pairs_safe (length source))|]. simpl. intros bs [Ha Hl]. unfold wf_bytes. rewrite Ha, andb_true_r.
  apply Z.leb_le. unfold zlen in *. lia.
Qed.

Lemma digits_safe l : safe (λ _, True) (digits l).
Proof. unfold digits. by destruct (_ || _). Qed.

Lemma from_epoch_days_safe d : safe (λ r, in_range MIN_DAYS MAX_DAYS r = true) (from_epoch_days d).
Proof. unfold from_epoch_days. by destruct (in_range _ _ d) eqn:E. Qed.

Lemma from_epoch_microseconds_safe t : safe (λ r, is_ok (from_epoch_microseconds r) = true) (from_epoch_microseconds t).
Proof.
  destruct (from_epoch_microseconds t) as [x|e] eqn:E.
  - apply from_epoch_microseconds_Ok in E as E'. destruct E' as [-> _]. simpl. by rewrite E.
  - unfold from_epoch_microseconds in E. case_match; by simplify_eq.
Qed.

Lemma date_from_str_safe source : safe (λ r, in_range MIN_DAYS MAX_DAYS r = true) (date_from_str source).
Proof.
  unfold date_from_str. destruct (_ || _); [done|]. repeat (eapply safe_bind; [apply digits_safe|]; intros ? _).
  destruct (_ || _); [done|]. apply from_epoch_days_safe.
Qed.

Lemma fraction_loop_safe l n m : safe (λ _, True) (fraction_loop l n m).
Proof.
  revert n m. induction l as [|b l IH]; intros n m; [done|]. cbn [fraction_loop]. destruct (is_digit b); [|done].
  destruct (n <? 6); [apply IH|]. destruct (negb _); [done|apply IH].
Qed.

Lemma fixed_offset_seconds_safe source : safe (λ _, True) (fixed_offset_seconds source).
Proof.
  unfold fixed_offset_seconds. repeat first [done | case_match | eapply safe_bind; [apply digits_safe|]; intros ? _].
Qed.

Lemma timestamp_from_str_safe source : safe (λ r, is_ok (from_epoch_microseconds r) = true) (timestamp_from_str source).
Proof.
  unfold timestamp_from_str. destruct (_ || _ || _ || _); [done|]. eapply safe_bind; [apply date_from_str_safe|]. intros date _.
  repeat (eapply safe_bind; [apply digits_safe|]; intros ? _). destruct (_ || _ || _); [done|].
  eapply (safe_bind (λ _, True)).
  { unfold timestamp_fraction. destruct (strip_byte _ _); [|done]. eapply safe_bind; [apply fraction_loop_safe|].
    intros [[n m] r] _. by destruct (n =? 0). }
  intros [m off] _. eapply safe_bind; [apply fixed_offset_seconds_safe|]. intros ? _. apply from_epoch_microseconds_safe.
Qed.

Lemma duration_from_str_safe source : safe (λ r, is_i64 r = true) (duration_from_str source).
Proof.
  unfold duration_from_str. destruct (take_digits _) as [ds rest]. case_bool_decide; [done|].
  eapply (safe_bind (λ _, True)); [by apply safe_ok_or|]. intros amount _.
  eapply (safe_bind (λ _, True)); [by apply safe_ok_or|]. intros multiplier _. apply safe_ok_or; [done|].
  by intros r [? ->]%checked_Some.
Qed.

Lemma truncate_at_offset_safe t unit off : safe (λ r, is_ok (from_epoch_microseconds r) = true) (truncate_at_offset t unit off).
Proof.
  unfold truncate_at_offset, local_at_offset.
  assert (Hm : ∀ x, safe (λ r, is_ok (from_epoch_microseconds r) = true) (map_err "E_ARITH" (from_epoch_microseconds x))).
  { intros x. pose proof (from_epoch_microseconds_safe x). by destruct (from_epoch_microseconds x). }
  eapply (safe_bind (λ _, True)).
  { eapply (safe_bind (λ _, True)); [by apply safe_ok_or|]. intros x _. eapply safe_impl; [apply Hm|done]. }
  intros x _. eapply (safe_bind (λ _, True)); [by apply safe_ok_or|]. intros y _. apply Hm.
Qed.

Lemma date_at_offset_safe t off : safe (λ r, in_range MIN_DAYS MAX_DAYS r = true) (date_at_offset t off).
Proof.
  unfold date_at_offset, local_at_offset. eapply (safe_bind (λ _, True)).
  { eapply (safe_bind (λ _, True)); [by apply safe_ok_or|]. intros x _. by destruct (from_epoch_microseconds x). }
  intros x _. pose proof (from_epoch_days_safe (x / DAY_MICROS)). by destruct (from_epoch_days _).
Qed.

(** ** Decimals *)

Lemma validate_type_safe p s : safe (λ _, 1 ≤ p ≤ 38 ∧ s ≤ p) (validate_type p s).
Proof. destruct (validate_type p s) as [u|e] eqn:E; [by apply validate_type_Ok in E|]. unfold validate_type in E. by case_if_in E; simplify_eq. Qed.

Lemma decimal_new_safe c p s : 0 ≤ s → safe (λ d, fits d p s) (decimal_new c p s).
Proof.
  intros Hs. destruct (decimal_new c p s) as [d|e] eqn:E; [by apply decimal_new_fits in E as [? _]|].
  unfold decimal_new in E. pose proof (validate_type_safe p s) as Hv. destruct (validate_type p s); cbn [mbind result_bind] in E.
  - by case_if_in E; simplify_eq.
  - by injection E as <-.
Qed.

Lemma from_bigint_safe c p s : 0 ≤ s → safe (λ d, fits d p s) (from_bigint c p s).
Proof.
  intros Hs. unfold from_bigint. eapply (safe_bind (λ _, True)); [by apply safe_ok_or|]. intros z _.
  pose proof (decimal_new_safe z p s Hs) as H. destruct (decimal_new z p s); [done|]. by destruct (String.eqb _ _).
Qed.

Lemma round_ratio_safe n d r : safe (λ _, True) (round_ratio n d r).
Proof. unfold round_ratio. repeat case_match; done. Qed.

Lemma rescale_safe d p s : 0 ≤ s → safe (λ x, fits x p s) (rescale d p s).
Proof.
  intros Hs. unfold rescale. eapply safe_bind; [apply validate_type_safe|]. intros _ _.
  eapply (safe_bind (λ _, True)); [|intros; by apply decimal_new_safe].
  destruct (_ >=? _); [by apply safe_ok_or|]. by destruct (negb _).
Qed.

Lemma rescale_with_rounding_safe d p s r : 0 ≤ s → safe (λ x, fits x p s) (rescale_with_rounding d p s r).
Proof.
  intros Hs. unfold rescale_with_rounding. eapply safe_bind; [apply validate_type_safe|]. intros _ _.
  eapply (safe_bind (λ _, True)); [|intros; by apply from_bigint_safe]. destruct (_ >=? _); [done|apply round_ratio_safe].
Qed.

Lemma checked_mul_to_safe d e p s r : 0 ≤ s → safe (λ x, fits x p s) (checked_mul_to d e p s r).
Proof.
  intros Hs. unfold checked_mul_to. eapply safe_bind; [apply validate_type_safe|]. intros _ _. cbv zeta.
  eapply (safe_bind (λ _, True)); [|intros; by apply from_bigint_safe]. destruct (_ >=? _); [done|apply round_ratio_safe].
Qed.

Lemma checked_div_to_safe d e p s r : 0 ≤ s → safe (λ x, fits x p s) (checked_div_to d e p s r).
Proof.
  intros Hs. unfold checked_div_to. eapply safe_bind; [apply validate_type_safe|]. intros _ _.
  destruct (_ =? 0); [done|]. cbv zeta. destruct (if _ >=? _ then _ else _) as [n m].
  eapply (safe_bind (λ _, True)); [apply round_ratio_safe|]. intros; by apply from_bigint_safe.
Qed.

Lemma decimal_parse_safe source p s : 0 ≤ s → safe (λ x, fits x p s) (decimal_parse source p s).
Proof.
  intros Hs. unfold decimal_parse. eapply safe_bind; [apply validate_type_safe|]. intros _ _. cbv zeta.
  eapply (safe_bind (λ _, True)). { destruct (split_once _ _) as [[? ?]|]; [|done]. by case_bool_decide. }
  intros [i f] _. destruct (_ || _); [done|]. destruct (existsb _ _); [done|].
  eapply (safe_bind (λ _, True)). { unfold parse_coefficient. apply safe_foldR; [|done]. intros. by apply safe_ok_or. }
  intros n _. eapply (safe_bind (λ _, True)); [by apply safe_ok_or|]. intros. by apply decimal_new_safe.
Qed.

(** Sums at 38 digits of operands of one scale. *)
Lemma decimal_sum_safe c s : 0 ≤ s ≤ 38 → safe (λ d, wf_decimal d = true) (map_err "E_ARITH" (decimal_new c 38 s)).
Proof.
  intros Hs. pose proof (decimal_new_safe c 38 s ltac:(lia)) as H. destruct (decimal_new c 38 s); [|done]. by eapply fits_wf.
Qed.

Lemma checked_add_safe d e : wf_decimal d = true → scale d = scale e → safe (λ x, wf_decimal x = true) (checked_add d e).
Proof.
  intros [_ Hs]%wf_decimal_spec E. unfold checked_add. rewrite E, Z.eqb_refl. rewrite E in Hs. cbn [negb].
  eapply (safe_bind (λ _, True)); [by apply safe_ok_or|]. intros. by apply decimal_sum_safe.
Qed.

Lemma checked_sub_safe d e : wf_decimal d = true → scale d = scale e → safe (λ x, wf_decimal x = true) (checked_sub d e).
Proof.
  intros [_ Hs]%wf_decimal_spec E. unfold checked_sub. rewrite E, Z.eqb_refl. rewrite E in Hs. cbn [negb].
  eapply (safe_bind (λ _, True)); [by apply safe_ok_or|]. intros. by apply decimal_sum_safe.
Qed.

Lemma checked_neg_safe d : wf_decimal d = true → safe (λ x, wf_decimal x = true) (checked_neg d).
Proof.
  intros [_ Hs]%wf_decimal_spec. unfold checked_neg.
  eapply (safe_bind (λ _, True)); [by apply safe_ok_or|]. intros. by apply decimal_sum_safe.
Qed.

(** ** Floats *)

Lemma finite_float_safe b :
  is_u64 b = true → safe (λ r, is_finite r = true ∧ is_u64 r = true ∧ implb (is_zero r) (r =? 0) = true) (finite_float b).
Proof.
  intros Hb. unfold finite_float. destruct (is_finite b) eqn:Ef; [|done]. destruct (is_zero b) eqn:Ez; [done|]. simpl. by rewrite Ez.
Qed.

Lemma float_to_integer_safe b mode : safe (λ z, is_i64 z = true) (float_to_integer b mode).
Proof.
  unfold float_to_integer. destruct (negb _); [done|].
  eapply (safe_bind (λ _, True)). { destruct mode; try done. by destruct (f64_has_fraction b). }
  intros z _. change (in_range _ _ z) with (is_i64 z). by destruct (is_i64 z) eqn:E.
Qed.

Lemma int_to_float_safe z :
  is_i64 z = true →
  safe (λ r, is_finite r = true ∧ is_u64 r = true ∧ implb (is_zero r) (r =? 0) = true) (int_to_float z).
Proof.
  intros Hz. unfold int_to_float. destruct (_ =? z); [|done]. destruct (i64_as_f64_finite z Hz) as (Hu & Hf & H0). simpl.
  split_and!; [done..|]. destruct (is_zero (i64_as_f64 z)); [|done]. by rewrite H0.
Qed.

(** ** Results of primitive types *)

(** A value of primitive type [u] before it is coerced to the annotated type: a float
    may be a negative zero, a decimal may have more digits than [u] allows. *)
Definition raw_of (u : ScalarType) (v : Value) : Prop :=
  wf_value v = true ∧
  match u, v with
  | TInt, VInt _ | TDate, VDate _ | TTimestamp, VTimestamp _ | TDuration, VDuration _ | TDecimal _ _, VDecimal _ => True
  | TFloat, VFloat b => is_finite b = true
  | _, _ => False
  end.

Lemma raw_of_coerce_raw u v d id : raw_of u v → coerce_raw d id v = Ok v.
Proof. intros [_ H]. by destruct u, v. Qed.

Section results.
Context (names : Z → string) (cat : Catalog) (Hcat : good_catalog names cat).

Lemma coerce_raw_of_safe n k ty u v :
  wf_type ty = true → underlying_loop k cat ty = Ok u → raw_of u v → safe (λ _, True) (coerce_inner n cat v ty).
Proof.
  revert k ty. induction n as [|n IH]; intros k ty Ht Hu Hr; [done|]. destruct k as [|k]; [done|]. cbn [underlying_loop] in Hu.
  assert ((∃ id, ty = TRef id) ∨ u = ty) as [[id ->]| ->] by (destruct ty; simplify_eq; eauto).
  - apply bind_Ok in Hu as (d & Hd & Hu). cbn [coerce_inner]. rewrite Hd. cbn [mbind result_bind].
    rewrite (raw_of_coerce_raw _ _ _ _ Hr). cbn [mbind result_bind]. eapply safe_fmap; [|done]. eapply (IH k); [|done..].
    by destruct (definition_wf _ _ _ (proj1 Hcat) Hd) as (? & _).
  - destruct Hr as [Hw Hr]. cbn [coerce_inner]. destruct ty, v; try done.
    + by rewrite Hr.
    + simpl in Ht. eapply safe_fmap; [apply rescale_safe; bool_inv; unrange; lia|done].
Qed.

(** Coercing such a value to a type with that underlying type. *)
Lemma coerce_raw_of ty u v :
  wf_type ty = true → underlying cat ty = Ok u → raw_of u v → safe (has_type cat ty) (coerce cat v ty).
Proof.
  intros Ht Hu Hr. unfold coerce, underlying in *. revert Hu. generalize MAX_DEPTH at 1. intros k Hu. generalize MAX_DEPTH. intros n.
  pose proof (coerce_raw_of_safe n k ty u v Ht Hu Hr) as Hs. destruct (coerce_inner n cat v ty) as [r|e] eqn:E; [|done].
  destruct (coerce_inner_sound _ _ _ _ _ (proj1 Hcat) Ht (proj1 Hr) E) as [Hc Hw]. split; [by exists n|done].
Qed.

Lemma coerce_arithmetic_result_safe ty u v :
  wf_type ty = true → underlying cat ty = Ok u → raw_of u v →
  safe (has_type cat ty) (coerce_arithmetic_result cat (Some ty) v).
Proof.
  intros Ht Hu Hr. pose proof (coerce_raw_of ty u v Ht Hu Hr) as H. unfold coerce_arithmetic_result. cbn [ok_or mbind result_bind].
  destruct (coerce cat v ty); [done|]. by destruct (_ && _).
Qed.

Lemma has_type_raw u v :
  has_type cat u v → match u with TInt | TFloat | TDate | TTimestamp | TDuration | TDecimal _ _ => True | _ => False end →
  raw_of u v.
Proof.
  intros Hv Hu. split; [apply Hv|]. apply has_type_shape in Hv. destruct u; try done.
  - by destruct Hv as (? & -> & _).
  - by destruct Hv as (? & -> & ? & _).
  - by destruct Hv as (? & -> & _).
  - by destruct Hv as (? & -> & _).
  - by destruct Hv as (? & -> & _).
  - by destruct Hv as (? & -> & _).
Qed.

Lemma checked_i64_safe {A} (f : Z → A) (P : A → Prop) z e :
  internal_error e = false → (is_i64 z = true → P (f z)) → safe P (f <$> ok_or (checked is_i64 z) e).
Proof. intros He H. unfold checked. destruct (is_i64 z) eqn:E; [by apply H|done]. Qed.

Lemma float_raw b : is_u64 b = true → safe (raw_of TFloat) (VFloat <$> finite_float b).
Proof. intros Hb. eapply safe_fmap; [by apply finite_float_safe|]. by intros r (? & ? & _). Qed.

Lemma evaluate_arithmetic_safe u l op r :
  is_numeric u = true → has_type cat u (unwrapped l) → has_type cat u (unwrapped r) →
  (is_decimal u = true → op = OpAdd ∨ op = OpSubtract) →
  safe (raw_of u) (evaluate_arithmetic l op r).
Proof.
  intros Hu Hl Hr Hop. apply has_type_shape in Hl, Hr. unfold evaluate_arithmetic. destruct u; try done.
  - destruct Hl as (x & -> & Hx), Hr as (y & -> & Hy).
    eapply (safe_bind (λ z, is_i64 z = true)); [|by intros].
    assert (Hc : ∀ z, safe (λ z, is_i64 z = true) (ok_or (checked is_i64 z) "E_ARITH")).
    { intros z. apply safe_ok_or; [done|]. by intros ? [? ->]%checked_Some. }
    destruct op; try apply Hc. by destruct (y =? 0).
  - destruct Hl as (x & -> & Hx & Hxu & _), Hr as (y & -> & Hy & Hyu & _).
    destruct (match op with OpDivide => is_zero y | _ => false end); [done|]. apply float_raw.
    destruct op; [by apply f64_add_u64| |by apply f64_mul_u64|by apply f64_div_u64].
    unfold f64_sub. apply f64_add_u64; [done|]. by apply f64_neg_u64.
  - destruct Hl as (x & -> & Hx & Hxw), Hr as (y & -> & Hy & Hyw).
    destruct (Hop eq_refl) as [-> | ->]; (eapply safe_fmap; [first [apply checked_add_safe|apply checked_sub_safe]; [done|congruence]|by intros]).
Qed.

Lemma negate_value_safe u v :
  is_negatable u = true → has_type cat u (unwrapped v) → safe (raw_of u) (negate_value v).
Proof.
  intros Hu Hv. apply has_type_shape in Hv. unfold negate_value. destruct u; try done.
  - destruct Hv as (x & -> & Hx). by apply checked_i64_safe.
  - destruct Hv as (x & -> & Hx & Hxu & _). by apply float_raw, f64_neg_u64.
  - destruct Hv as (x & -> & Hx). by apply checked_i64_safe.
  - destruct Hv as (x & -> & Hx & Hw). eapply safe_fmap; [by apply checked_neg_safe|by intros].
Qed.

(** Timestamps and durations, at the signatures of [temporal_arithmetic_signature]. *)
Definition temporal_signature (op : ArithmeticOp) (l r res : ScalarType) : Prop :=
  match l, r, res with
  | TDuration, TDuration, TDuration | TTimestamp, TDuration, TTimestamp => op = OpAdd ∨ op = OpSubtract
  | TTimestamp, TTimestamp, TDuration => op = OpSubtract
  | _, _, _ => False
  end.

Lemma evaluate_temporal_safe lt op rt res l r :
  temporal_signature op lt rt res → has_type cat lt (unwrapped l) → has_type cat rt (unwrapped r) →
  safe (raw_of res) (evaluate_arithmetic l op r).
Proof.
  intros Hs Hl Hr. apply has_type_shape in Hl, Hr. unfold evaluate_arithmetic.
  assert (Ht : ∀ z, safe (raw_of TTimestamp) (v ← ok_or (checked is_i64 z) "E_ARITH"; VTimestamp <$> from_epoch_microseconds v)).
  { intros z. eapply (safe_bind (λ _, True)); [by apply safe_ok_or|]. intros t _. eapply safe_fmap; [apply from_epoch_microseconds_safe|by intros]. }
  destruct lt, rt, res; try done;
    destruct Hl as (x & -> & Hx), Hr as (y & -> & Hy); simpl in Hs.
  - subst op. by apply checked_i64_safe.
  - by destruct Hs as [-> | ->]; apply Ht.
  - destruct Hs as [-> | ->]; by apply checked_i64_safe.
Qed.

(** Well-formed values of the primitive types. *)
Lemma prim_has_type ty v :
  match ty, v with
  | TInt, VInt _ | TBool, VBool _ | TText, VText _ | TUuid, VUuid _ | TDate, VDate _
  | TTimestamp, VTimestamp _ | TDuration, VDuration _ | TBytes, VBytes _ => wf_value v = true
  | TFloat, VFloat b => is_finite b = true ∧ is_u64 b = true ∧ implb (is_zero b) (b =? 0) = true
  | TDecimal p s, VDecimal d => fits d p s
  | _, _ => False
  end → has_type cat ty v.
Proof.
  intros H. destruct ty, v; try done; try (by split; [exists 1%nat|]).
  - destruct H as (Hf & Hu & Hz). split; [|done]. exists 1%nat. cbn [conforms]. by rewrite Hf.
  - split; [|by eapply fits_wf]. exists 1%nat. cbn [conforms]. destruct H as (Hp & Hs & <- & Hc).
    assert (validate_type precision (scale d) = Ok tt) as -> by (apply validate_type_Ok; lia).
    rewrite Z.eqb_refl. cbn [is_ok andb]. by apply Z.ltb_lt.
Qed.

Lemma list_has_type t l : Forall (has_type cat t) l → has_type cat (TList t) (VList l).
Proof.
  intros H. split.
  - assert (∃ f, forallb (conforms f cat t) l = true) as [f Hf].
    { induction H as [|v l [[f Hf] _] _ [g Hg]]; [by exists 0%nat|]. exists (Nat.max f g). simpl. apply andb_true_iff. split.
      - eapply conforms_le; [|done]. lia.
      - revert Hg. apply forallb_impl. intros w _. apply conforms_le. lia. }
    exists (S f). exact Hf.
  - simpl. apply forallb_Forall. revert H. apply Forall_impl. by intros v [_ ?].
Qed.

Lemma option_has_type t o : (∀ v, o = Some v → has_type cat t v) → has_type cat (TOption t) (VOption o).
Proof.
  intros H. destruct o as [v|]; [|by split; [exists 1%nat|]]. destruct (H v eq_refl) as [[f Hf] Hw]. split; [by exists (S f)|done].
Qed.

Lemma entry_has_type t k v : wf_string k = true → has_type cat t v → has_type cat (TTuple [TText; t]) (VTuple [VText k; v]).
Proof.
  intros Hk [[[|f] Hf] Hw]; [done|]. split.
  - exists (S (S f)). cbn [conforms all2 andb]. cbn [conforms] in Hf. by rewrite Hf.
  - simpl. by rewrite Hk, Hw.
Qed.

Section text.
Context `{TL : TextLib} {Laws : TextLibLaws}.

Lemma scalar_to_text_safe u v :
  is_text_convertible u = true → has_type cat u (unwrapped v) → safe (λ s, wf_string s = true) (scalar_to_text v).
Proof.
  intros Hu Hv. pose proof Hv as [_ Hw]. apply has_type_shape in Hv. unfold scalar_to_text. destruct u; try done;
    first [destruct Hv as (x & Ex & Hx)|destruct Hv as (x & Ex)]; rewrite Ex; cbn [safe]; try (by apply wf_string_ascii_bytes, show_int_ascii).
  - destruct Hx as (-> & _). apply float_debug_wf.
  - by destruct x.
  - by destruct (_ <=? _).
  - apply wf_string_ascii_bytes, uuid_display_ascii. unfold wf_uuid in Hx. by bool_inv.
  - apply wf_string_ascii_bytes. apply date_display_ascii. by apply in_range_spec.
  - by apply wf_string_ascii_bytes, timestamp_display_ascii.
  - apply wf_string_ascii_bytes, duration_display_ascii.
  - destruct Hx as [_ Hx]. by apply wf_string_ascii_bytes, decimal_display_ascii.
  - destruct (_ <=? _); [|done]. cbn [safe]. apply wf_string_ascii_bytes, bytes_display_ascii. unfold wf_bytes in Hx. by bool_inv.
Qed.

(** The text functions of one argument return values of the declared result type. *)
Lemma text_function_safe name source ty :
  one_of ["lower"; "upper"; "trim"; "uuid_parse"; "bytes_parse_hex"; "date_parse"; "timestamp_parse"; "duration_parse"]%string
    name = true →
  builtin_scalar_result name = Some ty → wf_string source = true → safe (has_type cat ty) (text_function name source).
Proof.
  intros Hn Hty Hs. unfold one_of in Hn. cbn [existsb] in Hn.
  assert (Ht : ∀ s, wf_string s = true →
    safe (has_type cat TText) (if str_len s >? MAX_VALUE_BYTES then Err "E_LIMIT" else Ok (VText s))).
  { intros s Hw. destruct (_ >? _); [done|]. by apply (prim_has_type TText (VText s)). }
  repeat (apply orb_true_iff in Hn as [->%String.eqb_eq|Hn]); [..|done]; injection Hty as <-; unfold text_function; simpl.
  - by apply Ht, to_lowercase_wf.
  - by apply Ht, to_uppercase_wf.
  - by apply Ht, trim_wf.
  - pose proof (uuid_from_str_safe (as_bytes source)) as Hr. destruct (uuid_from_str _); [|done]. by apply (prim_has_type TUuid).
  - pose proof (bytes_from_str_safe (as_bytes source)) as Hr. destruct (bytes_from_str _); [|done]. by apply (prim_has_type TBytes).
  - pose proof (date_from_str_safe (as_bytes source)) as Hr. destruct (date_from_str _); [|done]. by apply (prim_has_type TDate).
  - pose proof (timestamp_from_str_safe (as_bytes source)) as Hr. destruct (timestamp_from_str _); [|done]. by apply (prim_has_type TTimestamp).
  - pose proof (duration_from_str_safe (as_bytes source)) as Hr. destruct (duration_from_str _); [|done]. by apply (prim_has_type TDuration).
Qed.
End text.

Lemma text_binary_safe name source needle ty :
  is_text_predicate name || String.eqb name "concat" = true → builtin_scalar_result name = Some ty →
  wf_string source = true → wf_string needle = true → safe (has_type cat ty) (text_binary name source needle).
Proof.
  intros Hn Hty Hs Hd. unfold is_text_predicate, one_of in Hn. cbn [existsb] in Hn. rewrite <-!orb_assoc in Hn.
  repeat (apply orb_true_iff in Hn as [->%String.eqb_eq|Hn]); try done;
    try (apply String.eqb_eq in Hn as ->); injection Hty as <-; unfold text_binary; simpl;
    try (by apply (prim_has_type TBool)).
  destruct (_ >? _); [done|]. apply (prim_has_type TText). by apply wf_string_app.
Qed.
End results.
