(* ===== verification/Soundness.v ===== *)
(** * Binding makes evaluation safe

    An expression that [bind_scalar] or [bind] (src/src/expression.rs) accepts, evaluated
    on a row of the declared columns, yields a canonical value of the bound type or
    a run-time error (overflow, a resource limit, a parse failure of the data, a
    missing parameter), never a type error, a missing field or a panic. *)
From Stdlib Require Import Ascii.
From S2P Require Import Prelude Bytes Text Utf8 Decimal Temporal Float64 FloatArith BTree Scalars Model Coerce OrderedKey Codec Matching Coverage Catalog Schema Expression Typing EvalOps.

(** The depth bound is never computed with in these proofs. *)
#[local] Strategy 1000 [MAX_DEPTH underlying coerce cmp_typed].

(** ** Evaluations *)

Definition safeE {A} (P : A → Prop) (m : eval A) : Prop := ∀ budget, safe (λ r, P r.1) (m budget).

Lemma safeE_ret {A} (P : A → Prop) a : P a → safeE P (eret a).
Proof. intros H b. exact H. Qed.

Lemma safeE_bind {A B} (P : A → Prop) (Q : B → Prop) m k : safeE P m → (∀ a, P a → safeE Q (k a)) → safeE Q (ebind m k).
Proof. intros Hm Hk b. unfold ebind. eapply safe_bind; [apply Hm|]. intros [a b'] Ha. by apply Hk. Qed.

Lemma safeE_lift {A B} (P : A → Prop) (Q : B → Prop) m k : safe P m → (∀ a, P a → safeE Q (k a)) → safeE Q (elift m k).
Proof. intros Hm Hk b. unfold elift. eapply safe_bind; [apply Hm|]. intros a Ha. by apply Hk. Qed.

Lemma safeE_impl {A} (P Q : A → Prop) m : safeE P m → (∀ a, P a → Q a) → safeE Q m.
Proof. intros Hm H b. eapply safe_impl; [apply Hm|]. intros [a ?]. apply H. Qed.

(** The computation has a value, and it satisfies [P]. *)
Definition valued {A} (P : A → Prop) (o : option A) : Prop := ∃ v, o = Some v ∧ P v.

Lemma safeE_value {A} (P : A → Prop) (m : result A) :
  safe P m → safeE (valued P) (elift m (λ v, eret (Some v))).
Proof. intros Hm. eapply safeE_lift; [exact Hm|]. intros a Ha. apply safeE_ret. by exists a. Qed.

Lemma safeE_evalue {A B} (P : A → Prop) (Q : B → Prop) m none k :
  safeE (valued P) m → (∀ v, P v → (∃ b b', m b = Ok (Some v, b')) → safeE Q (k v)) → safeE Q (evalue m none k).
Proof.
  intros Hm Hk b. unfold evalue, ebind. specialize (Hm b). destruct (m b) as [[o b']|e] eqn:E; [|exact Hm].
  destruct Hm as (v & Ev & Hv). cbn [fst] in Ev. subst o. cbn [mbind result_bind]. apply Hk; [done|]. by exists b, b'.
Qed.

Lemma consume_safe : safeE (λ _, True) consume_collection_predicate.
Proof. intros b. unfold consume_collection_predicate. by destruct (b =? 0). Qed.

Lemma consume_each_safe {A B} (P : B → Prop) (f : A → B) l :
  Forall (λ x, P (f x)) l → safeE (Forall P) (consume_each f l).
Proof.
  induction 1 as [|x l Hx _ IH]; [by apply safeE_ret|]. cbn [consume_each]. eapply safeE_bind; [apply consume_safe|]. intros _ _.
  eapply safeE_bind; [apply IH|]. intros ys Hys. apply safeE_ret. by constructor.
Qed.

(** ** Expressions *)

(** Induction on expressions, through the arguments of calls. *)
Lemma ScalarExpression_nested_ind (P : ScalarExpression → Prop) :
  (∀ path, P (SReference path)) →
  (∀ name ty, P (SParameter name ty)) →
  (∀ v, P (SLiteral v)) →
  (∀ e ty, P e → P (SAscribed e ty)) →
  (∀ name args, Forall P args → P (SCall name args)) →
  (∀ e, P e → P (SLength e)) →
  (∀ e ty, P e → P (SNegate e ty)) →
  (∀ l op r ty, P l → P r → P (SArithmetic l op r ty)) →
  ∀ e, P e.
Proof.
  intros Href Hpar Hlit Hasc Hcall Hlen Hneg Har. fix go 1. intros [path|name ty|v|e ty|name args|e|e ty|l op r ty].
  - apply Href.
  - apply Hpar.
  - apply Hlit.
  - apply Hasc, go.
  - apply Hcall. induction args as [|a args IH]; constructor; [apply go|apply IH].
  - apply Hlen, go.
  - apply Hneg, go.
  - apply Har; apply go.
Qed.

Lemma map_positions_cons {A B} (f : nat → A → result B) p x l :
  map_positions f p (x :: l) = (y ← f p x; ys ← map_positions f (S p) l; Ok (y :: ys)).
Proof. done. Qed.

Lemma map_positions_Ok {A B} (f : nat → A → result B) p l k :
  map_positions f p l = Ok k ↔
  length k = length l ∧ ∀ i a b, l !! i = Some a → k !! i = Some b → f (p + i)%nat a = Ok b.
Proof.
  revert p k. induction l as [|x l IH]; intros p k.
  - split; [intros [= <-]; by split|]. intros [Hl _]. by destruct k.
  - rewrite map_positions_cons. split.
    + intros (y & Hy & (ys & Hys & [= <-])%bind_Ok)%bind_Ok. apply IH in Hys as [Hl Hys]. split; [simpl; lia|].
      intros [|i] a b; simpl; [intros [= <-] [= <-]; by rewrite Nat.add_0_r|].
      intros. rewrite <-Nat.add_succ_comm. by apply Hys.
    + intros [Hl H]. destruct k as [|y k]; [done|]. pose proof (H 0%nat x y eq_refl eq_refl) as Hy. rewrite Nat.add_0_r in Hy.
      rewrite Hy. cbn [mbind result_bind]. rewrite (proj2 (IH (S p) k)); [done|].
      split; [simpl in Hl; lia|]. intros i a b Ha Hb. rewrite Nat.add_succ_comm. by apply (H (S i)).
Qed.

Tactic Notation "bind_step" hyp(H) ident(x) ident(Hx) := apply bind_Ok in H as (x & Hx & H).

Section sound.
Context (names : Z → string) (cat : Catalog) (Hcat : good_catalog names cat).
Notation good := (good_type names).

(** A literal is a Rust value, and has the type that is inferred for it. *)
Definition literal_ok (v : Value) : Prop :=
  wf_value v = true ∧ ∀ ty, infer_literal v = Some ty → good ty ∧ has_type cat ty v.

(** The annotations and literals of a parsed expression. *)
Fixpoint expr_ok (e : ScalarExpression) : Prop :=
  match e with
  | SReference _ => True
  | SParameter _ ty => match ty with Some ty => good ty | None => True end
  | SLiteral v => literal_ok v
  | SAscribed e ty => expr_ok e ∧ good ty
  | SCall _ args => foldr (λ a P, expr_ok a ∧ P) True args
  | SLength e | SNegate e _ => expr_ok e
  | SArithmetic l _ r _ => expr_ok l ∧ expr_ok r
  end.

Lemma expr_ok_args args : foldr (λ a P, expr_ok a ∧ P) True args ↔ Forall expr_ok args.
Proof. induction args; simpl; [done|]. rewrite list.Forall_cons. naive_solver. Qed.

(** Types that a fresh (unnamed) result may have. *)
Definition fresh (ty : ScalarType) : Prop :=
  match ty with TDate | TTimestamp | TDuration | TDecimal _ _ => True | _ => False end.

(** A bound expression of type [ty] where [t] is expected: the type itself, or an
    unnamed result of its underlying type. *)
Definition serves (ty t : ScalarType) : Prop :=
  same_type ty t = true ∨ fresh ty ∧ ∃ u, underlying cat t = Ok u ∧ same_type ty u = true.

Lemma underlying_prim ty : match ty with TRef _ => False | _ => True end → underlying cat ty = Ok ty.
Proof. unfold underlying, MAX_DEPTH. by destruct ty. Qed.

Lemma good_underlying' ty u : good ty → underlying cat ty = Ok u → good u.
Proof. intros. by eapply good_underlying. Qed.

(** What evaluation of an operand gives. *)
Lemma served_kind ty t u v :
  good ty → good t → serves ty t → underlying cat t = Ok u → has_type cat ty v → has_type cat u (unwrapped v).
Proof.
  intros Hty Ht [Hs|(Hf & u' & Hu' & Hs)] Hu Hv.
  - eapply underlying_has_type; [done|]. eapply same_type_has_type; [exact Hty|exact Ht|done..].
  - rewrite Hu in Hu'. injection Hu' as <-. assert (Hv' : has_type cat u v).
    { eapply same_type_has_type; [exact Hty|by eapply good_underlying'|done..]. }
    assert (unwrapped v = v) as ->; [|done]. apply has_type_shape in Hv. destruct ty; try done; by destruct Hv as (? & -> & _).
Qed.

Lemma coerce_served ty t v : good ty → good t → serves ty t → has_type cat ty v → safe (has_type cat t) (coerce cat v t).
Proof.
  intros Hty Ht Hs Hv. destruct Hs as [Hs|(Hf & u & Hu & Hs)].
  - assert (Hv' : has_type cat t v) by (eapply same_type_has_type; [exact Hty|exact Ht|done..]).
    eapply safe_impl; [by eapply coerce_has_type|]. by intros ? ->.
  - eapply coerce_raw_of; [done|apply Ht|done|].
    apply (has_type_raw cat); [eapply same_type_has_type; [exact Hty|by eapply good_underlying'|done..]|].
    by destruct ty, u.
Qed.

Lemma coerce_result t v w : good t → wf_value v = true → coerce cat v t = Ok w → has_type cat t w.
Proof.
  intros [Ht _] Hv. unfold coerce. generalize MAX_DEPTH. intros n Hw.
  destruct (coerce_inner_sound _ _ _ _ _ (proj1 Hcat) Ht Hv Hw) as [Hc Hwf]. split; [by exists n|done].
Qed.

Lemma check_expected_Ok expected e ty e' ty' :
  check_expected expected e ty = Ok (e', ty') → e' = e ∧ ty' = ty ∧ ∀ t, expected = Some t → serves ty t.
Proof.
  unfold check_expected. destruct expected as [t|]; [destruct (same_type ty t) eqn:E; [|done]|]; intros [= <- <-]; (split_and!; [done..|]); [|done].
  intros ? [= <-]. by left.
Qed.

Lemma require_fresh_Ok ty expected x :
  fresh ty → require_fresh_scalar_result cat ty expected = Ok x → ∀ t, expected = Some t → serves ty t.
Proof.
  intros Hf H t ->. simpl in H. bind_step H u Hu. case_if_in H; [|done]. right. split; [done|]. by exists u.
Qed.

Lemma require_underlying_Ok accept ty x :
  require_underlying cat accept ty = Ok x → ∃ u, underlying cat ty = Ok u ∧ accept u = true.
Proof. intros H. unfold require_underlying in H. bind_step H u Hu. case_if_in H; [|done]. eauto. Qed.

(** ** Inferred types *)

Section scope.
Context (scope : Columns) (kind : string) (Hscope : scope_ok names scope).
Notation infer := (infer_scalar cat scope kind).
Notation bind := (bind_scalar cat scope kind).

Lemma reference_type_Ok path ty : reference_type cat scope path kind = Ok ty → field_type cat scope path = Ok ty.
Proof. unfold reference_type. destruct (field_type cat scope path); [done|]. by destruct (_ && _). Qed.

Lemma good_TMap t : good (TMap t) → good t.
Proof. intros [??]. by split. Qed.

Lemma good_TList t : good (TList t) ↔ good t.
Proof. done. Qed.

Lemma map_scalar_result_good name t ty : good t → map_scalar_result name t = Ok ty → good ty.
Proof.
  intros [Hw Hn] H. unfold map_scalar_result in H. repeat case_if_in H; try discriminate H; injection H as <-; try done.
  split; simpl; [by rewrite Hw|by rewrite Hn].
Qed.

Lemma decimal_literal_Ok e z : decimal_literal e = Ok z → is_u8 z = true.
Proof. destruct e as [| |[]| | | | |]; try done. simpl. by intros [? ->]%ok_or_Ok%checked_Some. Qed.

Lemma decimal_target_good p s x y : decimal_target p s = Ok (x, y) → good (TDecimal x y) ∧ 0 ≤ y.
Proof.
  intros H. unfold decimal_target in H. bind_step H a Ha. bind_step H b Hb. bind_step H u Hu. injection H as <- <-.
  apply decimal_literal_Ok in Ha, Hb. split; [split; [simpl; by rewrite Ha, Hb|done]|]. unrange. lia.
Qed.

Lemma decimal_function_target_good name args x y :
  decimal_function_target name args = Ok (x, y) → good (TDecimal x y) ∧ 0 ≤ y.
Proof. intros H. unfold decimal_function_target in H. bind_step H p Hp. bind_step H s Hs. by eapply decimal_target_good. Qed.

Lemma temporal_result_good name : good (temporal_result_type name).
Proof. unfold temporal_result_type. by destruct (String.eqb _ _). Qed.

(** The results of the functions with fixed signatures. *)
Lemma builtin_scalar_result_prim name ty :
  builtin_scalar_result name = Some ty →
  match ty with
  | TInt | TFloat | TBool | TText | TUuid | TBytes | TDate | TTimestamp | TDuration => True
  | _ => False
  end.
Proof. unfold builtin_scalar_result. intros H. repeat case_if_in H; try discriminate H; by injection H as <-. Qed.

Lemma builtin_scalar_result_good name ty : builtin_scalar_result name = Some ty → good ty.
Proof. intros H%builtin_scalar_result_prim. by destruct ty. Qed.

Lemma input_type_good name i : good (builtin_scalar_input_type name i).
Proof. unfold builtin_scalar_input_type. by repeat case_match. Qed.

Lemma signature_result l op r expected a b res :
  temporal_arithmetic_signature cat l op r expected = Ok (Some (a, b, res)) → temporal_signature op a b res.
Proof.
  intros H. unfold temporal_arithmetic_signature in H. bind_step H x Hx. bind_step H y Hy. bind_step H z Hz.
  repeat case_match; simplify_eq; simpl; auto.
Qed.

Lemma temporal_signature_good op a b res : temporal_signature op a b res → good a ∧ good b ∧ good res ∧ fresh res.
Proof. intros H. destruct a; try done; destruct b; try done; by destruct res. Qed.

Lemma temporal_signature_underlying op a b res :
  temporal_signature op a b res → underlying cat a = Ok a ∧ underlying cat b = Ok b ∧ underlying cat res = Ok res.
Proof.
  intros H. split_and!; apply underlying_prim; (destruct a; try done; destruct b; try done; by destruct res).
Qed.

Lemma infer_arithmetic_type_Some l r cl cr op ty :
  infer_arithmetic_type cat l r cl cr op = Ok (Some ty) → l = Some ty ∨ r = Some ty.
Proof.
  intros H. unfold infer_arithmetic_type in H. bind_step H o Ho. destruct o as [t|]; [|done].
  bind_step H u Hu. case_if_in H; [done|]. bind_step H x Hx. injection H as <-.
  repeat case_match; simplify_eq; auto.
Qed.

Lemma infer_good e ty : expr_ok e → infer e = Ok (Some ty) → good ty.
Proof.
  revert ty. induction e as [path|name t|v|e t _|name args IH|e IH|e t IH|l op r t IHl IHr] using ScalarExpression_nested_ind;
    intros ty He H; cbn [infer_scalar expr_ok] in *.
  - apply fmap_Ok in H as (t & Ht%reference_type_Ok & [= <-]). by eapply field_type_good.
  - injection H as ->. done.
  - injection H as H. by apply He in H as [? _].
  - injection H as <-. apply He.
  - apply expr_ok_args in He. destruct (is_map_scalar_function name).
    { case_if_in H; [done|]. destruct args as [|m rest]; [done|]. bind_step H o Ho.
      apply list.Forall_cons in IH as [IH _], He as [He _]. destruct o as [mt|].
      - bind_step H u Hu. destruct u; try discriminate H. bind_step H x Hx. apply fmap_Ok in H as (t & Ht & [= <-]).
        eapply map_scalar_result_good; [|done]. apply good_TMap. eapply good_underlying'; [|done]. eauto.
      - repeat case_if_in H; simplify_eq; done. }
    destruct (is_temporal_projection name).
    { bind_step H x Hx. destruct args as [|a rest]; [done|]. bind_step H o Ho. bind_step H y Hy. injection H as <-.
      apply temporal_result_good. }
    destruct (String.eqb name "to_text").
    { destruct args as [|a [|]]; try done. bind_step H o Ho. bind_step H y Hy. by injection H as <-. }
    destruct (is_builtin_scalar_function name); [|done]. case_if_in H; [done|].
    destruct (is_decimal_function name).
    { bind_step H x Hx. bind_step H y Hy. bind_step H z Hz. destruct z as [p s]. injection H as <-.
      by eapply decimal_function_target_good. }
    bind_step H x Hx. bind_step H y Hy. injection H as H. by eapply builtin_scalar_result_good.
  - bind_step H o Ho. bind_step H x Hx. by injection H as <-.
  - bind_step H o Ho. bind_step H x Hx. injection H as ->. eauto.
  - bind_step H lt Hl. bind_step H rt Hr. bind_step H sg Hs. destruct sg as [[[a b] res]|].
    + injection H as <-. apply signature_result in Hs. by apply temporal_signature_good in Hs as (_ & _ & ? & _).
    + destruct He. apply infer_arithmetic_type_Some in H as [-> | ->]; eauto.
Qed.

(** ** Decimal operands

    Products and quotients of decimals are rejected by inference, which sees the
    type of every operand except of parameters; those have no value. *)

Section values.
Context `{TL : TextLib} {Laws : TextLibLaws} (values : string → option Value).

(** A computation that never has a value. *)
Definition valueless {A} (m : eval (option A)) : Prop := ∀ b v b', m b ≠ Ok (Some v, b').
Definition stuck (e : ScalarExpression) : Prop := valueless (evaluate_scalar cat e values).

Lemma evalue_stuck {A B} (m : eval (option A)) (k : A → eval (option B)) : valueless m → valueless (evalue m None k).
Proof.
  intros Hm b v b' H. unfold evalue, ebind in H. destruct (m b) as [[[a|] b1]|] eqn:E; try discriminate H. by apply Hm in E.
Qed.

Lemma evalue_stuck_r {A B} (m : eval (option A)) (k : A → eval (option B)) :
  (∀ a, valueless (k a)) → valueless (evalue m None k).
Proof.
  intros Hk b v b' H. unfold evalue, ebind in H. destruct (m b) as [[[a|] b1]|] eqn:E; try discriminate H. by apply Hk in H.
Qed.

Definition decimal_type (t : ScalarType) : Prop := ∃ p s, underlying cat t = Ok (TDecimal p s).

Lemma served_decimal ty t : serves ty t → decimal_type t → decimal_type ty.
Proof.
  intros [Hs|(Hf & u & Hu & Hs)] (p & s & Ht).
  - destruct t; try (by rewrite underlying_prim in Ht by done; injection Ht as Ht); destruct ty; try discriminate Hs.
    + by eexists _, _.
    + simpl in Hs. bool_inv. subst. by exists p, s.
  - rewrite Hu in Ht. injection Ht as ->. destruct ty; try discriminate Hs. by eexists _, _.
Qed.

Lemma not_decimal ty : match ty with TRef _ | TDecimal _ _ => False | _ => True end → ¬ decimal_type ty.
Proof. intros Hty (p & s & H). rewrite underlying_prim in H by (by destruct ty). injection H as ->. done. Qed.

(** A literal that coerces to a decimal type is a decimal or a value of that type. *)
Lemma coerce_decimal n k v t r p s :
  coerce_inner n cat v t = Ok r → underlying_loop k cat t = Ok (TDecimal p s) →
  (∃ d, v = VDecimal d) ∨ ∃ id w, v = VNamed id w ∧ t = TRef id.
Proof.
  revert k v t r. induction n as [|n IH]; intros k v t r H Ht; [done|]. destruct k as [|k]; [done|].
  cbn [coerce_inner underlying_loop] in *. destruct t; try (by injection Ht as Ht).
  - destruct v; try discriminate H. eauto.
  - bind_step H d Hd. bind_step H raw Hraw. apply fmap_Ok in H as (w & Hw & _). rewrite Hd in Ht. cbn [mbind result_bind] in Ht.
    pose proof (IH _ _ _ _ Hw Ht) as Hr. destruct v as [| | | | | | | | | | |n' args i| | | | | |tid w']; simpl in Hraw;
      try (injection Hraw as <-; destruct Hr as [[? [=]]|(? & ? & [=] & _)]; by eauto).
    + assert (raw = VEnum n' args i ∨ ∃ f, raw = VRecord f) as [-> | [f ->]].
      { destruct args as [|[] [|]]; try (injection Hraw as <-; by left). case_if_in Hraw; injection Hraw as <-; eauto. }
      * by destruct Hr as [[? [=]]|(? & ? & [=] & _)].
      * by destruct Hr as [[? [=]]|(? & ? & [=] & _)].
    + case_if_in Hraw; [|done]. bool_inv. subst. right. by eexists _, _.
Qed.

Lemma coerce_to_decimal v t r :
  coerce cat v t = Ok r → decimal_type t → (∃ d, v = VDecimal d) ∨ ∃ id w, v = VNamed id w ∧ t = TRef id.
Proof.
  unfold coerce, decimal_type, underlying. generalize MAX_DEPTH. intros k H (p & s & Hu). by eapply coerce_decimal.
Qed.

(** Arithmetic on two decimals is a sum or a difference of decimal type. *)
Lemma infer_arithmetic_decimal t1 t2 cl cr op o :
  infer_arithmetic_type cat (Some t1) (Some t2) cl cr op = Ok o → decimal_type t1 → decimal_type t2 →
  (∃ t, o = Some t ∧ decimal_type t) ∧ (op = OpAdd ∨ op = OpSubtract).
Proof.
  intros H H1 H2. unfold infer_arithmetic_type in H. bind_step H x Hx.
  assert (∃ t, x = Some t ∧ decimal_type t) as (t & -> & p & s & Ht) by (repeat case_if_in Hx; simplify_eq; eauto).
  rewrite Ht in H. cbn [mbind result_bind] in H. destruct op; try discriminate H;
    (bind_step H u Hu; injection H as <-; split; [by eexists; split; [|eexists _, _]|auto]).
Qed.

Lemma decimal_signature t1 op t2 expected sg :
  temporal_arithmetic_signature cat (Some t1) op t2 expected = Ok sg → decimal_type t1 → sg = None.
Proof.
  intros H (p & s & Ht). unfold temporal_arithmetic_signature in H. cbn [underlying_opt] in H. rewrite Ht in H.
  cbn [fmap result_fmap mbind result_bind] in H. bind_step H y Hy. bind_step H z Hz. by repeat case_match; simplify_eq.
Qed.

Lemma decimal_inferred e t e' ty o :
  bind e (Some t) = Ok (e', ty) → decimal_type t → infer e = Ok o → (∃ t', o = Some t' ∧ decimal_type t') ∨ stuck e'.
Proof.
  revert t e' ty o.
  induction e as [path|name t0|v|e _ t0|name args|e IH|e IH t0|l IHl op r IHr t0]; intros t e' ty o H Hd Hi;
    cbn [infer_scalar bind_scalar] in *.
  - bind_step H ty0 Hty. rewrite Hty in Hi. injection Hi as <-.
    apply check_expected_Ok in H as (_ & _ & Hs). left. eexists; split; [done|]. eapply served_decimal; eauto.
  - bind_step H ty0 Hty. apply check_expected_Ok in H as (-> & _). right. by intros b v b' [=].
  - bind_step H w Hw. injection Hi as <-.
    destruct (coerce_to_decimal _ _ _ Hw Hd) as [[d ->]|(id & x & -> & ->)]; left; [|by eexists].
    eexists; split; [done|]. eexists _, _. by apply underlying_prim.
  - bind_step H x Hx. destruct x as [v' tv]. injection Hi as <-. apply check_expected_Ok in H as (_ & _ & Hs).
    left. eexists; split; [done|]. eapply served_decimal; eauto.
  - assert (Hno : ∀ e0 ty0, match ty0 with TRef _ | TDecimal _ _ => False | _ => True end →
      check_expected (Some t) e0 ty0 = Ok (e', ty) → False).
    { intros e0 ty0 Hp (_ & _ & Hs)%check_expected_Ok. eapply (not_decimal ty0); [done|]. eapply served_decimal; eauto. }
    destruct (is_map_scalar_function name).
    { exfalso. case_if_in H; [done|]. destruct args as [|m rest]; [done|]. bind_step H om Hm. bind_step H mt Hmt. bind_step H u Hu.
      destruct u; try discriminate H. bind_step H x Hx. destruct x as [m' tm]. bind_step H rest' Hr. bind_step H ty0 Hty.
      eapply Hno; [|exact H]. unfold map_scalar_result in Hty. repeat case_if_in Hty; simplify_eq; done. }
    destruct (is_temporal_projection name).
    { exfalso. bind_step H x Hx. destruct args as [|a rest]; [done|]. bind_step H oa Ha. bind_step H y Hy. bind_step H z Hz.
      destruct z as [a' ta]. bind_step H f Hf.
      assert (Hs : serves (temporal_result_type name) t).
      { eapply require_fresh_Ok; [|done..]. unfold temporal_result_type. by destruct (String.eqb _ _). }
      eapply (not_decimal (temporal_result_type name)); [|by eapply served_decimal].
      unfold temporal_result_type. by destruct (String.eqb _ _). }
    destruct (String.eqb name "to_text").
    { exfalso. destruct args as [|a [|]]; try done. bind_step H oa Ha. bind_step H y Hy. bind_step H z Hz. bind_step H w Hw.
      destruct w as [a' ta]. by eapply Hno; [|exact H]. }
    destruct (is_builtin_scalar_function name); [|done]. case_if_in H; [done|]. destruct (is_decimal_function name).
    { left. rewrite ?E in Hi. bind_step Hi x Hx. bind_step Hi y Hy. bind_step Hi z Hz. destruct z as [p s]. injection Hi as <-.
      eexists; split; [done|]. eexists _, _. by apply underlying_prim. }
    exfalso. bind_step H x Hx. bind_step H args' Hargs. bind_step H ty0 Hty. apply ok_or_Ok in Hty.
    eapply Hno; [|exact H]. apply builtin_scalar_result_prim in Hty. by destruct ty0.
  - exfalso. bind_step H x Hx. destruct x as [v' tv]. bind_step H y Hy. apply check_expected_Ok in H as (_ & _ & Hs).
    eapply (not_decimal TInt); [done|]. eapply served_decimal; eauto.
  - bind_step H ov Hv. bind_step H res Hres. bind_step H x Hx. bind_step H y Hy. destruct y as [v' tv].
    apply check_expected_Ok in H as (-> & -> & Hs). bind_step Hi oi Hoi. bind_step Hi z Hz. injection Hi as <-.
    rewrite Hv in Hoi. injection Hoi as <-. destruct (IH res v' tv ov Hy) as [?|Hst]; [|done|by left|].
    + eapply served_decimal; eauto.
    + right. by apply evalue_stuck.
  - bind_step H lt Hl. bind_step H rt Hr. bind_step H sg Hs. rewrite Hl, Hr in Hi. cbn [mbind result_bind] in Hi.
    destruct sg as [[[a b] res]|].
    { exfalso. bind_step H x Hx. destruct x as [l' tl]. bind_step H y Hy. destruct y as [r' tr]. bind_step H f Hf.
      apply signature_result in Hs. pose proof (temporal_signature_good _ _ _ _ Hs) as (_ & _ & _ & Hfr).
      eapply (not_decimal res); [clear -Hs; destruct a; try done; destruct b; try done; by destruct res|]. eapply served_decimal; [|done]. by eapply require_fresh_Ok. }
    bind_step H inf Hinf. bind_step H res Hres. bind_step H x Hx. bind_step H y Hy. destruct y as [l' tl].
    bind_step H z Hz. destruct z as [r' tr]. apply check_expected_Ok in H as (-> & -> & Hse).
    assert (Hdr : decimal_type res) by (eapply served_decimal; eauto).
    destruct (IHl _ _ _ _ Hy Hdr Hl) as [(t1 & -> & Ht1)|Hst]; [|right; by apply evalue_stuck].
    destruct (IHr _ _ _ _ Hz Hdr Hr) as [(t2 & -> & Ht2)|Hst].
    + left. bind_step Hi sg Hsg. rewrite (decimal_signature _ _ _ _ _ Hsg Ht1) in Hi.
      by apply infer_arithmetic_decimal in Hi as [? _].
    + right. apply evalue_stuck_r. intros v. by apply evalue_stuck.
Qed.

(** ** Scalar expressions *)

Context (Henv : typed_env cat scope values).
Notation eval_scalar := (λ e, evaluate_scalar cat e values).

(** A bound expression evaluates to a value of its type. *)
Definition bound_sound (expected : option ScalarType) (e : ScalarExpression) (ty : ScalarType) : Prop :=
  good ty ∧ (∀ t, expected = Some t → serves ty t) ∧ safeE (valued (has_type cat ty)) (eval_scalar e).

Definition sound (e : ScalarExpression) : Prop :=
  ∀ expected e' ty, (∀ t, expected = Some t → good t) → bind e expected = Ok (e', ty) → bound_sound expected e' ty.

Lemma sound_at e t u e' ty :
  sound e → good t → underlying cat t = Ok u → bind e (Some t) = Ok (e', ty) →
  safeE (valued (λ v, has_type cat u (unwrapped v))) (eval_scalar e').
Proof.
  intros He Ht Hu Hb. destruct (He (Some t) e' ty) as (Hty & Hs & Hv); [by intros ? [= <-]|done|].
  eapply safeE_impl; [exact Hv|]. intros o (v & -> & Hvt). exists v. split; [done|]. exact (served_kind ty t u v Hty Ht (Hs t eq_refl) Hu Hvt).
Qed.

Lemma map_function_safe name t entries key ty :
  is_map_scalar_function name = true → map_scalar_result name t = Ok ty →
  bt_sorted entries = true → Forall (λ e, wf_string e.1 = true ∧ has_type cat t e.2) entries →
  (one_of ["contains_key"; "get"]%string name = true → is_Some key) →
  safeE (valued (has_type cat ty)) (map_function name entries key).
Proof.
  intros Hn Hty Hs Hm Hk. unfold is_map_scalar_function, one_of in Hn. cbn [existsb] in Hn.
  assert (Hlist : ∀ (f : string * Value → Value) tl, Forall (λ e, has_type cat tl (f e)) entries →
    safeE (valued (has_type cat (TList tl))) (ebind (consume_each f entries) (λ l, eret (Some (VList l))))).
  { intros f tl Hf. eapply safeE_bind; [by apply consume_each_safe|]. intros l Hl. apply safeE_ret. eexists; split; [done|].
    by apply list_has_type. }
  repeat (apply orb_true_iff in Hn as [->%String.eqb_eq|Hn]); [..|done]; injection Hty as <-; unfold map_function; simpl.
  - destruct (Hk eq_refl) as [k ->]. apply safeE_ret. eexists; split; [done|]. by apply (prim_has_type cat TBool).
  - destruct (Hk eq_refl) as [k ->]. apply safeE_ret. eexists; split; [done|]. apply option_has_type. intros v Hv%bt_get_elem.
    rewrite list.Forall_forall in Hm. by apply (Hm _ Hv).
  - apply Hlist. revert Hm. apply Forall_impl. intros e [He _]. by apply (prim_has_type cat TText).
  - apply Hlist. revert Hm. apply Forall_impl. by intros e [_ He].
  - apply Hlist. revert Hm. apply Forall_impl. intros e [Hk' He]. by apply entry_has_type.
Qed.

Lemma sound_map name args expected e' ty :
  is_map_scalar_function name = true → Forall expr_ok args → Forall sound args →
  bind (SCall name args) expected = Ok (e', ty) → bound_sound expected e' ty.
Proof.
  intros Hn Hok Hs H. cbn [bind_scalar] in H. rewrite Hn in H. case_if_in H; [done|]. bool_inv.
  destruct args as [|m rest]; [done|]. bind_step H om Hom. bind_step H mt Hmt. apply ok_or_Ok in Hmt as ->. bind_step H u Hu.
  destruct u as [| | | | | | | | | | | | | | |t| |]; try discriminate H. bind_step H x Hx. destruct x as [m' tm]. bind_step H rest' Hrest. bind_step H ty0 Hty.
  apply list.Forall_cons in Hok as [Hok1 Hok], Hs as [Hs1 Hs].
  apply check_expected_Ok in H as (-> & -> & Hserves).
  pose proof (infer_good _ _ Hok1 Hom) as Hgm. pose proof (good_underlying' _ _ Hgm Hu) as Hgt%good_TMap.
  split_and!; [by eapply map_scalar_result_good|done|]. cbn [evaluate_scalar]. rewrite Hn.
  eapply safeE_evalue; [exact (sound_at m mt (TMap t) m' tm Hs1 Hgm Hu Hx)|]. intros v Hv _. apply has_type_shape in Hv as (entries & -> & Hsorted & Hall).
  assert (Hmf : ∀ key, (one_of ["contains_key"; "get"]%string name = true → is_Some key) →
    safeE (valued (has_type cat ty0)) (map_function name entries key)) by (intros; by eapply map_function_safe).
  match goal with Ha : builtin_scalar_arity name = _ |- _ => rename Ha into Harity end. rewrite zlen_cons in Harity.
  destruct rest as [|k rest].
  - injection Hrest as <-. apply Hmf. intros Hg. exfalso. unfold builtin_scalar_arity in Harity.
    replace (one_of ["contains_key"; "get"; "concat"; "float_to_int"; "date_of"]%string name) with true in Harity; [done|].
    unfold one_of in *. cbn [existsb] in *. destruct (String.eqb name "contains_key"), (String.eqb name "get"); done.
  - assert (rest = []) as ->.
    { unfold builtin_scalar_arity in Harity. destruct rest; [done|]. exfalso. rewrite !zlen_cons in Harity.
      pose proof (zlen_nonneg rest). unfold is_map_scalar_function, one_of in Hn. cbn [existsb] in Hn.
      repeat (apply orb_true_iff in Hn as [->%String.eqb_eq|Hn]); [..|done]; simpl in Harity; injection Harity; lia. }
    bind_step Hrest y Hy. destruct y as [k' tk]. injection Hrest as <-. apply list.Forall_cons in Hs as [Hs2 _].
    eapply safeE_evalue; [by apply (sound_at k TText TText k' tk)|]. intros kv Hkv _. apply has_type_shape in Hkv as (s & -> & _).
    apply Hmf. by eexists.
Qed.

(** The literal arguments of a projection are those after the first. *)
Lemma temporal_function_arguments_tail name a a' rest :
  temporal_function_arguments name (a :: rest) = temporal_function_arguments name (a' :: rest).
Proof. unfold temporal_function_arguments. by destruct (String.eqb name "date_of"). Qed.

Lemma temporal_unit name args off unit :
  temporal_function_arguments name args = Ok (off, unit) → is_temporal_projection name = true →
  temporal_result_type name = match unit with Some _ => TTimestamp | None => TDate end.
Proof.
  intros H Hn. unfold temporal_function_arguments in H. case_if_in H; [done|]. bind_step H u Hu. bind_step H o Ho.
  assert (unit = u) as ->.
  { destruct o as [| |[]| | | | |]; try discriminate H. bind_step H z Hz. by injection H as _ <-. }
  unfold is_temporal_projection, one_of in Hn. cbn [existsb] in Hn.
  repeat (apply orb_true_iff in Hn as [->%String.eqb_eq|Hn]); [..|done].
  - by injection Hu as <-.
  - simpl in Hu. bind_step Hu x Hx. destruct x as [| |[]| | | | |]; try discriminate Hu. apply fmap_Ok in Hu as (y & _ & ->). done.
Qed.

Lemma sound_temporal name args expected e' ty :
  is_map_scalar_function name = false → is_temporal_projection name = true → Forall expr_ok args → Forall sound args →
  bind (SCall name args) expected = Ok (e', ty) → bound_sound expected e' ty.
Proof.
  intros Hn Ht Hok Hs H. cbn [bind_scalar] in H. rewrite Hn, Ht in H. bind_step H x Hx. destruct x as [off unit].
  destruct args as [|a rest]; [done|]. bind_step H oa Ha. bind_step H y Hy. bind_step H z Hz. destruct z as [a' ta]. bind_step H f Hf.
  injection H as <- <-. apply list.Forall_cons in Hok as [Hok _], Hs as [Hs _].
  assert (Hg : good (default TTimestamp oa)) by (destruct oa; [by eapply infer_good|done]).
  apply require_underlying_Ok in Hy as (u & Hu & Hut). destruct u; try discriminate Hut.
  split_and!; [apply temporal_result_good| |].
  { eapply require_fresh_Ok; [|done]. unfold temporal_result_type. by destruct (String.eqb _ _). }
  cbn [evaluate_scalar]. rewrite Hn.
  assert (is_builtin_scalar_function name = true ∧ is_decimal_function name = false ∧ String.eqb name "to_text" = false) as (-> & -> & ->).
  { unfold is_temporal_projection, one_of in Ht. cbn [existsb] in Ht.
    by repeat (apply orb_true_iff in Ht as [->%String.eqb_eq|Ht]). }
  eapply safeE_evalue; [exact (sound_at _ _ _ _ _ Hs Hg Hu Hz)|]. intros v Hv _. apply has_type_shape in Hv as (t & -> & Htv). rewrite Ht.
  rewrite (temporal_function_arguments_tail _ _ a), Hx. rewrite (temporal_unit _ _ _ _ Hx Ht).
  eapply (safeE_lift (λ p, p = (off, unit))); [done|]. intros [? ?] [= -> ->]. apply safeE_value. destruct unit.
  - eapply safe_fmap; [apply truncate_at_offset_safe|]. intros r Hr. by apply (prim_has_type cat TTimestamp).
  - eapply safe_fmap; [apply date_at_offset_safe|]. intros r Hr. by apply (prim_has_type cat TDate).
Qed.

Lemma sound_to_text args expected e' ty :
  Forall expr_ok args → Forall sound args → bind (SCall "to_text" args) expected = Ok (e', ty) → bound_sound expected e' ty.
Proof.
  intros Hok Hs H. cbn [bind_scalar] in H. change (is_map_scalar_function "to_text") with false in H.
  change (is_temporal_projection "to_text") with false in H. change (String.eqb "to_text" "to_text") with true in H.
  destruct args as [|a [|]]; try done. bind_step H oa Ha. bind_step H t Ht. apply ok_or_Ok in Ht as ->. bind_step H y Hy.
  bind_step H z Hz. destruct z as [a' ta]. apply check_expected_Ok in H as (-> & -> & Hse).
  apply list.Forall_cons in Hok as [Hok _], Hs as [Hs _]. apply require_underlying_Ok in Hy as (u & Hu & Hut).
  split_and!; [done..|]. cbn [evaluate_scalar]. change (is_map_scalar_function "to_text") with false.
  change (is_builtin_scalar_function "to_text") with true. change (is_decimal_function "to_text") with false. cbv iota.
  eapply safeE_evalue; [exact (sound_at _ _ _ _ _ Hs (infer_good _ _ Hok Ha) Hu Hz)|]. intros v Hv _. cbv iota beta.
  eapply safeE_lift; [exact (scalar_to_text_safe cat u v Hut Hv)|]. intros s Hw. apply safeE_ret. eexists; split; [done|].
  by apply (prim_has_type cat TText).
Qed.

(** The input type of the first operand of a decimal function. *)
Definition decimal_operand (name : string) (u : ScalarType) : Prop :=
  if String.eqb name "int_to_decimal" then u = TInt
  else if String.eqb name "decimal_parse" then u = TText else is_decimal u = true.

Lemma decimal_function_safe name p s rounding u l r :
  is_decimal_function name = true → 0 ≤ s → decimal_operand name u → has_type cat u l →
  (is_decimal_binary name = true → ∃ e, r = Some (VDecimal e)) → (is_decimal_rounded name = true → is_Some rounding) →
  safe (λ d, has_type cat (TDecimal p s) (VDecimal d)) (decimal_function name p s rounding l r).
Proof.
  intros Hn Hs Hu Hl Hb Hr. apply (safe_impl (λ d, fits d p s)); [|intros d Hd; by apply (prim_has_type cat (TDecimal p s))].
  apply has_type_shape in Hl. unfold is_decimal_function, one_of in Hn. cbn [existsb] in Hn.
  repeat (apply orb_true_iff in Hn as [->%String.eqb_eq|Hn]); [..|done];
    unfold decimal_operand in Hu; simpl in Hu; try subst u; try (destruct u; try discriminate Hu);
    destruct Hl as (x & -> & Hx); unfold decimal_function; simpl.
  - eapply safe_bind; [by apply decimal_new_safe|]. intros d _. by apply rescale_safe.
  - by apply decimal_parse_safe.
  - by apply rescale_safe.
  - destruct (Hr eq_refl) as [m ->]. by apply rescale_with_rounding_safe.
  - destruct (Hr eq_refl) as [m ->], (Hb eq_refl) as [e ->]. by apply checked_mul_to_safe.
  - destruct (Hr eq_refl) as [m ->], (Hb eq_refl) as [e ->]. by apply checked_div_to_safe.
Qed.

Lemma decimal_arguments_unary name a a' rest :
  is_decimal_binary name = false →
  decimal_function_target name (a :: rest) = decimal_function_target name (a' :: rest) ∧
  decimal_function_rounding name (a :: rest) = decimal_function_rounding name (a' :: rest).
Proof. intros H. unfold decimal_function_target, decimal_function_rounding. by rewrite H. Qed.

Lemma decimal_arguments_binary name a b a' b' rest :
  is_decimal_binary name = true →
  decimal_function_target name (a :: b :: rest) = decimal_function_target name (a' :: b' :: rest) ∧
  decimal_function_rounding name (a :: b :: rest) = decimal_function_rounding name (a' :: b' :: rest).
Proof. intros H. unfold decimal_function_target, decimal_function_rounding. by rewrite H. Qed.

Lemma decimal_rounding_given name args rounding :
  decimal_function_rounding name args = Ok rounding → is_decimal_rounded name = true → is_Some rounding.
Proof.
  intros H Hr. unfold decimal_function_rounding in H. rewrite Hr in H. bind_step H m Hm.
  apply fmap_Ok in H as (x & _ & ->). by eexists.
Qed.

Lemma sound_decimal name args expected e' ty :
  is_map_scalar_function name = false → is_temporal_projection name = false → String.eqb name "to_text" = false →
  is_builtin_scalar_function name = true → is_decimal_function name = true → Forall expr_ok args → Forall sound args →
  bind (SCall name args) expected = Ok (e', ty) → bound_sound expected e' ty.
Proof.
  intros Hn1 Hn2 Hn3 Hn4 Hn5 Hok Hs H. cbn [bind_scalar] in H. rewrite Hn1, Hn2, Hn3, Hn4, Hn5 in H. case_if_in H; [done|]. clear E.
  bind_step H x Hx. destruct x as [p s]. bind_step H rounding Hr. destruct args as [|a rest]; [done|].
  bind_step H t Ht. bind_step H y Hy. bind_step H z Hz. destruct z as [a' ta]. bind_step H rest' Hrest. bind_step H f Hf.
  injection H as <- <-. apply list.Forall_cons in Hok as [Hok1 Hok], Hs as [Hs1 Hs].
  destruct (decimal_function_target_good _ _ _ _ Hx) as [Hgood Hps].
  assert (∃ u, good t ∧ underlying cat t = Ok u ∧ decimal_operand name u) as (u & Hgt & Hu & Hop).
  { unfold decimal_operand, one_of in *. cbn [existsb] in Hy. destruct (String.eqb name "int_to_decimal").
    { injection Ht as <-. by exists TInt. }
    destruct (String.eqb name "decimal_parse"). { injection Ht as <-. by exists TText. }
    bind_step Ht oa Hoa. apply ok_or_Ok in Ht as ->. apply require_underlying_Ok in Hy as (u & Hu & Hd). exists u.
    split_and!; [by eapply infer_good|done..]. }
  split_and!; [done|by eapply require_fresh_Ok|].
  assert (Hfin : ∀ l r, has_type cat u l → (is_decimal_binary name = true → ∃ e, r = Some (VDecimal e)) →
    safeE (valued (has_type cat (TDecimal p s)))
      (elift (decimal_function name p s rounding l r) (λ d, eret (Some (VDecimal d))))).
  { intros l r Hl Hb. eapply safeE_lift; [eapply decimal_function_safe; eauto using decimal_rounding_given|]. intros d Hd.
    apply safeE_ret. by eexists. }
  cbn [evaluate_scalar]. rewrite Hn1, Hn4, Hn5. destruct (is_decimal_binary name) eqn:Eb.
  - destruct rest as [|b rest]; [done|]. bind_step Hrest ob Hob. bind_step Hrest tb Htb. apply ok_or_Ok in Htb as ->.
    bind_step Hrest w Hw. bind_step Hrest v Hv. destruct v as [b' tb']. injection Hrest as <-.
    apply list.Forall_cons in Hok as [Hok2 _], Hs as [Hs2 _]. apply require_underlying_Ok in Hw as (ub & Hub & Hdb).
    destruct (decimal_arguments_binary name a b a' b' rest Eb) as [Et Er]. rewrite <-Et, <-Er, Hx, Hr.
    eapply (safeE_lift (λ q, q = (p, s))); [done|]. intros [? ?] [= -> ->].
    eapply safeE_evalue; [exact (sound_at _ _ _ _ _ Hs1 Hgt Hu Hz)|]. intros l Hl _.
    eapply safeE_evalue; [exact (sound_at _ _ _ _ _ Hs2 (infer_good _ _ Hok2 Hob) Hub Hv)|]. intros r Hrt _.
    eapply (safeE_lift (λ q, q = rounding)); [done|]. intros ? ->. apply Hfin; [done|]. intros _.
    apply has_type_shape in Hrt. destruct ub; try discriminate Hdb. destruct Hrt as (d & -> & _). by eexists.
  - injection Hrest as <-. destruct (decimal_arguments_unary name a a' rest Eb) as [Et Er]. rewrite <-Et, <-Er, Hx, Hr.
    eapply (safeE_lift (λ q, q = (p, s))); [done|]. intros [? ?] [= -> ->].
    eapply safeE_evalue; [exact (sound_at _ _ _ _ _ Hs1 Hgt Hu Hz)|]. intros l Hl _.
    eapply (safeE_lift (λ q, q = rounding)); [done|]. intros ? ->. by apply Hfin.
Qed.

(** The functions whose arguments and result have fixed types. *)
Lemma fixed_names name :
  is_map_scalar_function name = false → is_temporal_projection name = false → String.eqb name "to_text" = false →
  is_builtin_scalar_function name = true → is_decimal_function name = false →
  one_of ["lower"; "upper"; "trim"; "uuid_parse"; "bytes_parse_hex"; "date_parse"; "timestamp_parse"; "duration_parse"]%string
    name = true ∨ is_text_predicate name || String.eqb name "concat" = true ∨
  name = "substring"%string ∨ name = "int_to_float"%string ∨ name = "float_to_int"%string.
Proof.
  intros H1 H2 H3 H4 H5. unfold is_builtin_scalar_function in H4. rewrite H1, H2 in H4. cbn [orb] in H4.
  rewrite orb_false_r in H4. destruct (is_text_predicate name); [right; by left|]. cbn [orb] in *. unfold one_of in H4. cbn [existsb] in H4.
  repeat (apply orb_true_iff in H4 as [->%String.eqb_eq|H4]); try discriminate; auto 6.
Qed.

(** What binding checks about the arguments of such a function. *)
Lemma bind_fixed name args expected e' ty :
  is_map_scalar_function name = false → is_temporal_projection name = false → String.eqb name "to_text" = false →
  is_builtin_scalar_function name = true → is_decimal_function name = false →
  bind (SCall name args) expected = Ok (e', ty) →
  ∃ args', e' = SCall name args' ∧ builtin_scalar_result name = Some ty ∧ (∀ t, expected = Some t → serves ty t) ∧
    builtin_scalar_arity name = Some (zlen args') ∧ length args' = length args ∧
    (∀ i a a', args !! i = Some a → args' !! i = Some a' →
       ∃ ta, bind a (Some (builtin_scalar_input_type name i)) = Ok (a', ta)) ∧
    (name = "float_to_int"%string → ∃ m mode, args !! 1%nat = Some m ∧ float_rounding m = Ok mode).
Proof.
  intros Hn1 Hn2 Hn3 Hn4 Hn5 H. cbn [bind_scalar] in H. rewrite Hn1, Hn2, Hn3, Hn4, Hn5 in H. case_if_in H; [done|].
  apply negb_false_iff, bool_decide_eq_true in E. bind_step H x Hx. bind_step H args' Hargs. bind_step H ty0 Hty. apply ok_or_Ok in Hty.
  apply check_expected_Ok in H as (-> & -> & Hs). apply map_positions_Ok in Hargs as [Hl Hargs]. exists args'.
  split_and!; try done.
  - unfold zlen in *. congruence.
  - intros i a a' Ha Ha'. pose proof (Hargs i a a' Ha Ha') as Hb. apply fmap_Ok in Hb as ([a'' ta] & Hb & ->). simpl in Hb |- *. by exists ta.
  - intros ->. simpl in Hx. bind_step Hx m Hm. bind_step Hx mode Hmode. apply ok_or_Ok in Hm. by exists m, mode.
Qed.

(** An argument of such a function. *)
Lemma fixed_argument name args args' i a' :
  Forall sound args → length args' = length args →
  (∀ i a a', args !! i = Some a → args' !! i = Some a' →
     ∃ ta, bind a (Some (builtin_scalar_input_type name i)) = Ok (a', ta)) →
  args' !! i = Some a' →
  safeE (valued (λ v, has_type cat (builtin_scalar_input_type name i) (unwrapped v))) (eval_scalar a').
Proof.
  intros Hs Hl Hb Ha'. destruct (args !! i) as [a|] eqn:Ha; [|apply lookup_ge_None in Ha; apply lookup_lt_Some in Ha'; lia].
  destruct (Hb i a a' Ha Ha') as [ta Hbind]. rewrite list.Forall_lookup in Hs.
  eapply (sound_at a); [by eapply Hs|apply input_type_good| |done]. apply underlying_prim.
  unfold builtin_scalar_input_type. by repeat case_match.
Qed.

(** A float's rounding mode is a text literal, which binding at [text] keeps. *)
Lemma float_rounding_bound m mode m' t :
  float_rounding m = Ok mode → bind m (Some TText) = Ok (m', t) → m' = m.
Proof.
  destruct m as [| |v| | | | |]; try done. destruct v as [| | |s| | | | | | | | | | | | | |]; try done. intros _ H. cbn [bind_scalar] in H.
  bind_step H w Hw. unfold coerce, MAX_DEPTH in Hw. cbn [coerce_inner] in Hw. injection Hw as <-. by apply check_expected_Ok in H as [-> _].
Qed.

Lemma sound_fixed name args expected e' ty :
  is_map_scalar_function name = false → is_temporal_projection name = false → String.eqb name "to_text" = false →
  is_builtin_scalar_function name = true → is_decimal_function name = false → Forall sound args →
  bind (SCall name args) expected = Ok (e', ty) → bound_sound expected e' ty.
Proof.
  intros Hn1 Hn2 Hn3 Hn4 Hn5 Hs H. destruct (bind_fixed _ _ _ _ _ Hn1 Hn2 Hn3 Hn4 Hn5 H) as (args' & -> & Hty & Hse & Har & Hl & Hb & Hm).
  split_and!; [by eapply builtin_scalar_result_good|done|].
  assert (Harg : ∀ i a', args' !! i = Some a' →
    safeE (valued (λ v, has_type cat (builtin_scalar_input_type name i) (unwrapped v))) (eval_scalar a')).
  { intros i a' Ha'. by eapply fixed_argument. }
  assert (Hvalue : ∀ m : result Value, safe (has_type cat ty) m → safeE (valued (has_type cat ty)) (elift m (λ v, eret (Some v)))).
  { intros m. apply safeE_value. }
  cbn [evaluate_scalar]. rewrite Hn1, Hn4, Hn5, Hn3, Hn2.
  destruct (fixed_names _ Hn1 Hn2 Hn3 Hn4 Hn5) as [Hg|[Hg|[-> |[-> | ->]]]].
  - assert (builtin_scalar_arity name = Some 1 ∧ builtin_scalar_input_type name 0 = TText ∧ String.eqb name "float_to_int" = false ∧
      String.eqb name "int_to_float" = false ∧ String.eqb name "substring" = false ∧
      is_text_predicate name || String.eqb name "concat" = false) as (Ha & Hi & -> & -> & -> & ->).
    { clear -Hg. unfold one_of in Hg. cbn [existsb] in Hg. by repeat (apply orb_true_iff in Hg as [->%String.eqb_eq|Hg]). }
    rewrite Ha in Har. injection Har as Har. unfold zlen in Har. destruct args' as [|a []]; simpl in Har; try lia. specialize (Harg 0%nat a eq_refl). rewrite Hi in Harg.
    eapply safeE_evalue; [exact Harg|]. intros v (s & -> & Hw)%has_type_shape _. apply Hvalue. by apply text_function_safe.
  - assert (builtin_scalar_arity name = Some 2 ∧ builtin_scalar_input_type name 0 = TText ∧ builtin_scalar_input_type name 1 = TText ∧
      String.eqb name "float_to_int" = false ∧ String.eqb name "int_to_float" = false ∧ String.eqb name "substring" = false)
      as (Ha & Hi & Hi' & -> & -> & ->).
    { clear -Hg. unfold is_text_predicate, one_of in Hg. cbn [existsb] in Hg. rewrite <-!orb_assoc in Hg.
      repeat (apply orb_true_iff in Hg as [->%String.eqb_eq|Hg]); try done. by apply String.eqb_eq in Hg as ->. }
    rewrite Ha in Har. injection Har as Har. unfold zlen in Har. destruct args' as [|a [|b []]]; simpl in Har; try lia. pose proof (Harg 0%nat a eq_refl) as Ha0. pose proof (Harg 1%nat b eq_refl) as Hb1.
    rewrite Hi in Ha0. rewrite Hi' in Hb1. eapply safeE_evalue; [exact Ha0|]. intros v (s & -> & Hw)%has_type_shape _. rewrite Hg.
    eapply safeE_evalue; [exact Hb1|]. intros w (n & -> & Hwn)%has_type_shape _. apply Hvalue. by apply text_binary_safe.
  - injection Har as Har. unfold zlen in Har. destruct args' as [|a [|b [|c []]]]; simpl in Har; try lia. injection Hty as <-.
    eapply safeE_evalue; [exact (Harg 0%nat a eq_refl)|]. intros v (s & -> & Hw)%has_type_shape _.
    eapply safeE_evalue; [exact (Harg 1%nat b eq_refl)|]. intros w (x & -> & _)%has_type_shape _.
    eapply safeE_evalue; [exact (Harg 2%nat c eq_refl)|]. intros w' (y & -> & _)%has_type_shape _.
    eapply safeE_lift; [by apply substring_text_safe|]. intros t Ht. apply safeE_ret. eexists; split; [done|]. by apply (prim_has_type cat TText).
  - injection Har as Har. unfold zlen in Har. destruct args' as [|a []]; simpl in Har; try lia. injection Hty as <-.
    eapply safeE_evalue; [exact (Harg 0%nat a eq_refl)|]. intros v (x & -> & Hx)%has_type_shape _.
    eapply safeE_lift; [by apply int_to_float_safe|]. intros f Hf. apply safeE_ret. eexists; split; [done|]. by apply (prim_has_type cat TFloat).
  - injection Har as Har. unfold zlen in Har. destruct args' as [|a [|b []]]; simpl in Har; try lia. injection Hty as <-.
    destruct args as [|a0 [|b0 []]]; try done.
    destruct (Hm eq_refl) as (m & mode & [= <-] & Hmode). destruct (Hb 1%nat b0 b eq_refl eq_refl) as [tb Hbb].
    apply (float_rounding_bound _ mode) in Hbb; [|done]. subst b.
    eapply safeE_evalue; [exact (Harg 0%nat a eq_refl)|]. intros v (x & -> & Hx)%has_type_shape _.
    eapply (safeE_lift (λ z, is_i64 z = true)).
    { cbn [arg_at lookup list_lookup ok_or mbind result_bind]. rewrite Hmode. apply float_to_integer_safe. }
    intros z Hz. apply safeE_ret. eexists; split; [done|]. by apply (prim_has_type cat TInt).
Qed.

Lemma sound_call name args : Forall expr_ok args → Forall sound args → sound (SCall name args).
Proof.
  intros Hok Hs expected e' ty Hex H. destruct (is_map_scalar_function name) eqn:E1; [by eapply sound_map|].
  destruct (is_temporal_projection name) eqn:E2; [by eapply sound_temporal|].
  destruct (String.eqb name "to_text") eqn:E3; [apply String.eqb_eq in E3 as ->; by eapply sound_to_text|].
  destruct (is_builtin_scalar_function name) eqn:E4.
  - destruct (is_decimal_function name) eqn:E5; [by eapply sound_decimal|by eapply sound_fixed].
  - exfalso. cbn [bind_scalar] in H. by rewrite E1, E2, E3, E4 in H.
Qed.

Lemma sound_length e : sound e → sound (SLength e).
Proof.
  intros He expected e' ty Hex H. cbn [bind_scalar] in H. bind_step H x Hx. destruct x as [v tv]. bind_step H y Hy.
  apply check_expected_Ok in H as (-> & -> & Hs). destruct (He None v tv) as (Hg & _ & Hv); [done..|].
  apply require_underlying_Ok in Hy as (u & Hu & Hl). split_and!; [done..|]. cbn [evaluate_scalar].
  eapply safeE_evalue; [exact Hv|]. intros w Hw _. pose proof (underlying_has_type _ _ _ _ Hu Hw) as Hwu. apply has_type_shape in Hwu.
  assert (∃ n, length_value w = Some n) as [n ->].
  { unfold length_value. destruct u; try discriminate Hl; destruct Hwu as (x & -> & _); eauto. }
  eapply (safeE_lift (λ z, is_i64 z = true)).
  - apply safe_ok_or; [done|]. by intros ? [? ->]%checked_Some.
  - intros z Hz. apply safeE_ret. eexists; split; [done|]. by apply (prim_has_type cat TInt).
Qed.

Lemma expected_or_good expected inferred res :
  (∀ t, expected = Some t → good t) → (∀ t, inferred = Some t → good t) →
  ok_or (expected_or expected inferred) "E_TYPE" = Ok res → good res.
Proof. intros H1 H2 H%ok_or_Ok. destruct expected; simpl in H; [injection H as <-|]; auto. Qed.

Lemma sound_negate e t0 : expr_ok e → sound e → sound (SNegate e t0).
Proof.
  intros Hok He expected e' ty Hex H. cbn [bind_scalar] in H. bind_step H o Ho. bind_step H res Hres. bind_step H x Hx.
  bind_step H y Hy. destruct y as [v tv]. apply check_expected_Ok in H as (-> & -> & Hs).
  assert (Hg : good res). { eapply expected_or_good; [exact Hex| |exact Hres]. intros t ->. by eapply infer_good. }
  apply require_underlying_Ok in Hx as (u & Hu & Hn). split_and!; [done..|]. cbn [evaluate_scalar].
  eapply safeE_evalue; [exact (sound_at _ _ _ _ _ He Hg Hu Hy)|]. intros w Hw _.
  eapply safeE_lift; [exact (negate_value_safe cat u w Hn Hw)|]. intros raw Hraw. apply safeE_value.
  eapply coerce_arithmetic_result_safe; [exact Hcat|apply Hg|done..].
Qed.

Lemma sound_arithmetic l op r t0 : expr_ok l → expr_ok r → sound l → sound r → sound (SArithmetic l op r t0).
Proof.
  intros Hokl Hokr Hl Hr expected e' ty Hex H. cbn [bind_scalar] in H. bind_step H lt Hlt. bind_step H rt Hrt. bind_step H sg Hsg.
  destruct sg as [[[a b] res]|].
  - bind_step H x Hx. destruct x as [l' tl]. bind_step H y Hy. destruct y as [r' tr]. bind_step H f Hf. injection H as <- <-.
    apply signature_result in Hsg. pose proof (temporal_signature_good _ _ _ _ Hsg) as (Hga & Hgb & Hgr & Hfr).
    destruct (temporal_signature_underlying _ _ _ _ Hsg) as (Hua & Hub & Hur).
    split_and!; [done|by eapply require_fresh_Ok|]. cbn [evaluate_scalar].
    eapply safeE_evalue; [exact (sound_at _ _ _ _ _ Hl Hga Hua Hx)|]. intros v Hv _.
    eapply safeE_evalue; [exact (sound_at _ _ _ _ _ Hr Hgb Hub Hy)|]. intros w Hw _.
    eapply safeE_lift; [exact (evaluate_temporal_safe cat a op b res v w Hsg Hv Hw)|]. intros raw Hraw. apply safeE_value.
    eapply coerce_arithmetic_result_safe; [exact Hcat|apply Hgr|exact Hur|done].
  - bind_step H inf Hinf. bind_step H res Hres. bind_step H x Hx. bind_step H y Hy. destruct y as [l' tl].
    bind_step H z Hz. destruct z as [r' tr]. apply check_expected_Ok in H as (-> & -> & Hs).
    assert (Hg : good res).
    { eapply expected_or_good; [exact Hex| |exact Hres]. intros t ->. apply infer_arithmetic_type_Some in Hinf as [-> | ->].
      - exact (infer_good _ _ Hokl Hlt).
      - exact (infer_good _ _ Hokr Hrt). }
    apply require_underlying_Ok in Hx as (u & Hu & Hn). split_and!; [done..|]. cbn [evaluate_scalar].
    eapply safeE_evalue; [exact (sound_at _ _ _ _ _ Hl Hg Hu Hy)|]. intros v Hv (b1 & b2 & Ev).
    eapply safeE_evalue; [exact (sound_at _ _ _ _ _ Hr Hg Hu Hz)|]. intros w Hw (b3 & b4 & Ew).
    eapply safeE_lift.
    { eapply evaluate_arithmetic_safe; [exact Hn|exact Hv|exact Hw|]. intros Hd.
      assert (Hdt : decimal_type res) by (destruct u; try discriminate Hd; by eexists _, _).
      destruct (decimal_inferred _ _ _ _ _ Hy Hdt Hlt) as [(t1 & -> & Ht1)|Hst]; [|by apply Hst in Ev].
      destruct (decimal_inferred _ _ _ _ _ Hz Hdt Hrt) as [(t2 & -> & Ht2)|Hst]; [|by apply Hst in Ew].
      by apply infer_arithmetic_decimal in Hinf as [_ ?]. }
    intros raw Hraw. apply safeE_value. eapply coerce_arithmetic_result_safe; [exact Hcat|apply Hg|done..].
Qed.

Lemma scalar_sound e : expr_ok e → sound e.
Proof.
  induction e as [path|name t|v|e t IH|name args IH|e IH|e t IH|l op r t IHl IHr] using ScalarExpression_nested_ind; intros Hok.
  - intros expected e' ty Hex H. cbn [bind_scalar] in H. bind_step H t Ht. apply check_expected_Ok in H as (-> & -> & Hs).
    apply reference_type_Ok in Ht. destruct (Henv _ _ Ht) as (v & Ev & Hv). split_and!; [by eapply field_type_good|done|].
    cbn [evaluate_scalar]. rewrite Ev. apply safeE_ret. by eexists.
  - intros expected e' ty Hex H. cbn [bind_scalar] in H. bind_step H t' Ht. apply check_expected_Ok in H as (-> & -> & Hs).
    split_and!; [|done|by intros b]. eapply expected_or_good; [exact Hex| |exact Ht]. intros ? ->. exact Hok.
  - intros expected e' ty Hex H. cbn [bind_scalar] in H. destruct expected as [t|].
    + bind_step H w Hw. apply check_expected_Ok in H as (-> & -> & Hs). pose proof (Hex t eq_refl) as Hg.
      split_and!; [done..|]. apply safeE_ret. eexists; split; [done|]. exact (coerce_result _ _ _ Hg (proj1 Hok) Hw).
    + bind_step H t Ht. injection H as <- <-. apply ok_or_Ok in Ht. destruct (proj2 Hok _ Ht) as [? ?].
      split_and!; [done..|]. apply safeE_ret. by eexists.
  - destruct Hok as [Hok Hg]. intros expected e' ty Hex H. cbn [bind_scalar] in H. bind_step H x Hx. destruct x as [v tv].
    apply check_expected_Ok in H as (-> & -> & Hs). destruct (IH Hok (Some t) v tv) as (Hgv & Hsv & Hv); [by intros ? [= <-]|done|].
    split_and!; [done..|]. cbn [evaluate_scalar]. eapply safeE_evalue; [exact Hv|]. intros w Hw _. apply safeE_value.
    exact (coerce_served _ _ _ Hgv Hg (Hsv t eq_refl) Hw).
  - apply expr_ok_args in Hok. apply sound_call; [done|]. rewrite list.Forall_forall in *. auto.
  - apply sound_length; auto.
  - apply sound_negate; auto.
  - destruct Hok. apply sound_arithmetic; auto.
Qed.
End values.
End scope.

(** ** Boolean expressions *)

Fixpoint bool_ok (e : BoolExpression) : Prop :=
  match e with
  | BValue v | BIsSome v | BIsNone v => expr_ok v
  | BCompare l _ r _ => expr_ok l ∧ expr_ok r
  | BContains c i => expr_ok c ∧ expr_ok i
  | BMembership i c _ => expr_ok i ∧ expr_ok c
  | BAny c binding p | BAll c binding p => expr_ok c ∧ no_dot binding = true ∧ bool_ok p
  | BNot e => bool_ok e
  | BAnd l r | BOr l r => bool_ok l ∧ bool_ok r
  end.

Section bool.
Context `{TL : TextLib} {Laws : TextLibLaws}.

Section scope.
Context (scope : Columns) (kind : string) (Hscope : scope_ok names scope).
Context (values : string → option Value) (Henv : typed_env cat scope values).

Lemma bound_value e e' ty :
  expr_ok e → bind_scalar cat scope kind e None = Ok (e', ty) →
  good ty ∧ safeE (valued (has_type cat ty)) (evaluate_scalar cat e' values).
Proof.
  intros Hok H. destruct (scalar_sound scope kind Hscope values Henv e Hok None e' ty) as (? & _ & ?); [done..|]. auto.
Qed.

Lemma bound_at e t u e' ty :
  expr_ok e → good t → underlying cat t = Ok u → bind_scalar cat scope kind e (Some t) = Ok (e', ty) →
  safeE (valued (λ v, has_type cat u (unwrapped v))) (evaluate_scalar cat e' values).
Proof. intros Hok Ht Hu Hb. exact (sound_at scope kind values e t u e' ty (scalar_sound scope kind Hscope values Henv e Hok) Ht Hu Hb). Qed.

(** An operand of a value's kind, for predicates on options and booleans. *)
Lemma bound_kind e e' ty accept x :
  expr_ok e → bind_scalar cat scope kind e None = Ok (e', ty) → require_underlying cat accept ty = Ok x →
  ∃ u, accept u = true ∧ safeE (valued (λ v, has_type cat u (unwrapped v))) (evaluate_scalar cat e' values).
Proof.
  intros Hok Hb Hr. destruct (bound_value _ _ _ Hok Hb) as [Hg Hv]. apply require_underlying_Ok in Hr as (u & Hu & Ha).
  exists u. split; [done|]. eapply safeE_impl; [exact Hv|]. intros o (v & -> & Hvt). exists v. split; [done|]. by eapply underlying_has_type.
Qed.

(** The collection of a quantifier, with the type of its elements. *)
Lemma bound_list e e' ty u t :
  expr_ok e → bind_scalar cat scope kind e None = Ok (e', ty) → underlying cat ty = Ok u → list_item u = Some t →
  good t ∧ safeE (valued (λ v, ∃ items, unwrapped v = VList items ∧ Forall (has_type cat t) items)) (evaluate_scalar cat e' values).
Proof.
  intros Hok Hb Hu Ht. destruct (bound_value _ _ _ Hok Hb) as [Hg Hv]. destruct u; try discriminate Ht. injection Ht as ->.
  split; [exact (proj1 (good_TList t) (good_underlying' _ _ Hg Hu))|]. eapply safeE_impl; [exact Hv|]. intros o (v & -> & Hvt). exists v.
  split; [done|]. pose proof (underlying_has_type _ _ _ _ Hu Hvt) as Hl. by apply has_type_shape in Hl.
Qed.

Lemma compare_safe l op r ty : has_type cat ty l → has_type cat ty r → safe (λ _, True) (compare cat l op r (Some ty)).
Proof.
  intros Hl Hr. unfold compare. destruct op; [by apply safe_Ok..| | | |];
    (apply (safe_bind (λ t, t = ty)); [by apply safe_Ok|]; intros ? ->;
     apply (safe_bind (λ _, True)); [exact (cmp_typed_has_type cat ty l r Hl Hr)|]; intros c _; by apply safe_Ok).
Qed.

Lemma membership_safe item items : safeE (λ _, True) (membership item items).
Proof.
  induction items as [|x items IH]; [by apply safeE_ret|]. cbn [membership]. eapply safeE_bind; [apply consume_safe|].
  intros _ _. destruct (cmp_eq x item); [by apply safeE_ret|exact IH].
Qed.

Lemma compare_sound l op r t0 e' :
  expr_ok l → expr_ok r → bind_in_scope cat scope (BCompare l op r t0) kind = Ok e' →
  safeE (λ _, True) (evaluate_resolved cat e' values).
Proof.
  intros Hl Hr H. cbn [bind_in_scope] in H. bind_step H lt Hlt. bind_step H rt Hrt. bind_step H t Ht.
  bind_step H x Hx. destruct x as [l' tl]. bind_step H y Hy. destruct y as [r' tr]. case_if_in H; [done|]. apply negb_false_iff in E.
  bind_step H o Ho. case_if_in H; [done|]. injection H as <-.
  assert (Hg : good t).
  { apply ok_or_Ok in Ht. destruct (is_constant l); [destruct rt as [t1|]|destruct lt as [t1|]]; simpl in Ht; simplify_eq;
      first [exact (infer_good scope kind Hscope _ _ Hr Hrt) | exact (infer_good scope kind Hscope _ _ Hl Hlt)]. }
  destruct (scalar_sound scope kind Hscope values Henv l Hl (Some t) l' tl) as (Hgl & _ & Hvl); [by intros ? [= <-]|done|].
  destruct (scalar_sound scope kind Hscope values Henv r Hr (Some t) r' tr) as (Hgr & _ & Hvr); [by intros ? [= <-]|done|].
  cbn [evaluate_resolved]. eapply safeE_evalue; [exact Hvl|]. intros v Hv _. eapply safeE_evalue; [exact Hvr|]. intros w Hw _.
  eapply safeE_lift; [apply compare_safe; [exact Hv|]|by intros; apply safeE_ret].
  exact (same_type_has_type names cat tr tl _ Hgr Hgl (same_type_sym _ _ E) Hw).
Qed.
End scope.

Lemma scope_ok_bind scope binding t :
  scope_ok names scope → no_dot binding = true → good t → scope_ok names (Column binding t None 0 :: scope).
Proof. intros Hs Hb Ht. by apply list.Forall_cons. Qed.

Lemma membership_sound scope kind values item collection negated e' :
  scope_ok names scope → typed_env cat scope values → expr_ok item → expr_ok collection →
  bind_in_scope cat scope (BMembership item collection negated) kind = Ok e' →
  safeE (λ _, True) (evaluate_resolved cat e' values).
Proof.
  intros Hscope Henv Hi Hc H. cbn [bind_in_scope] in H. bind_step H oi Hoi. bind_step H oc Hoc. bind_step H ot Hot.
  bind_step H ti Hti. bind_step H tc Htc. bind_step H x Hx. destruct x as [i' ti']. bind_step H y Hy. destruct y as [c' tc']. injection H as <-.
  assert (Hcol : ∀ t, oc = Some t → good t ∧ ∃ u, underlying cat t = Ok (TList u) ∧ ot = Some u).
  { intros t ->. split; [exact (infer_good scope kind Hscope _ _ Hc Hoc)|]. bind_step Hot u Hu.
    apply fmap_Ok in Hot as (w & Hw%ok_or_Ok & ->). destruct u; try discriminate Hw. injection Hw as ->. eauto. }
  assert (Hgi : good ti).
  { assert (∀ t, oi = Some t → good t) by (intros t ->; exact (infer_good scope kind Hscope _ _ Hi Hoi)).
    assert (∀ t, ot = Some t → good t).
    { intros t ->. destruct oc as [t'|]; [|done]. destruct (Hcol t' eq_refl) as [Hg (u & Hu & [= <-])].
      exact (proj1 (good_TList t) (good_underlying' _ _ Hg Hu)). }
    apply ok_or_Ok in Hti. destruct (contextual_collection collection), oi, ot; simpl in Hti; simplify_eq; auto. }
  assert (∃ u, good tc ∧ underlying cat tc = Ok (TList u)) as (u & Hgc & Hu).
  { destruct (contextual_collection collection).
    - injection Htc as <-. exists ti. split; [by apply good_TList|by apply underlying_prim].
    - apply ok_or_Ok in Htc as ->. destruct (Hcol tc eq_refl) as [? (u & ? & _)]. eauto. }
  destruct (scalar_sound scope kind Hscope values Henv item Hi (Some ti) i' ti') as (_ & _ & Hvi); [by intros ? [= <-]|done|].
  cbn [evaluate_resolved]. eapply safeE_evalue; [exact Hvi|]. intros v _ _.
  eapply safeE_evalue; [exact (bound_at scope kind Hscope values Henv _ _ _ _ _ Hc Hgc Hu Hy)|]. intros w (items & -> & _)%has_type_shape _.
  eapply safeE_bind; [apply membership_safe|]. intros. by apply safeE_ret.
Qed.

Lemma contains_sound scope kind values collection item e' :
  scope_ok names scope → typed_env cat scope values → expr_ok collection → expr_ok item →
  bind_in_scope cat scope (BContains collection item) kind = Ok e' →
  safeE (λ _, True) (evaluate_resolved cat e' values).
Proof.
  intros Hscope Henv Hc Hi H. cbn [bind_in_scope] in H. bind_step H oc Hoc. bind_step H x Hx. destruct x as [tc ti].
  bind_step H y Hy. destruct y as [c' tc']. bind_step H z Hz. destruct z as [i' ti']. injection H as <-.
  assert (good tc ∧ good ti) as [Hgc Hgi].
  { destruct oc as [t|].
    - bind_step Hx u Hu. pose proof (infer_good scope kind Hscope _ _ Hc Hoc) as Hg.
      destruct u; try discriminate Hx; injection Hx as <- <-; [done|]. split; [done|].
      exact (proj1 (good_TList _) (good_underlying' _ _ Hg Hu)).
    - bind_step Hx oi Hoi. bind_step Hx t Ht. apply ok_or_Ok in Ht as ->. injection Hx as <- <-.
      pose proof (infer_good scope kind Hscope _ _ Hi Hoi). done. }
  destruct (scalar_sound scope kind Hscope values Henv collection Hc (Some tc) c' tc') as (_ & _ & Hvc); [by intros ? [= <-]|done|].
  destruct (scalar_sound scope kind Hscope values Henv item Hi (Some ti) i' ti') as (_ & _ & Hvi); [by intros ? [= <-]|done|].
  cbn [evaluate_resolved]. eapply safeE_evalue; [exact Hvc|]. intros v _ _.
  eapply safeE_evalue; [exact Hvi|]. intros w _ _. by apply safeE_ret.
Qed.

Lemma bool_sound e scope kind values e' :
  scope_ok names scope → typed_env cat scope values → bool_ok e → bind_in_scope cat scope e kind = Ok e' →
  safeE (λ _, True) (evaluate_resolved cat e' values).
Proof.
  revert scope kind values e'.
  induction e as [v|l op r t|c i|i c n|c b p IH|c b p IH|v|v|e IH|l IHl r IHr|l IHl r IHr]; intros scope kind values e' Hscope Henv Hok H.
  - cbn [bind_in_scope] in H. bind_step H x Hx. destruct x as [v' tv]. bind_step H y Hy. injection H as <-.
    destruct (bound_value scope kind Hscope values Henv _ _ _ Hok Hx) as [_ Hv]. cbn [evaluate_resolved].
    eapply safeE_evalue; [exact Hv|]. intros. by apply safeE_ret.
  - destruct Hok as [Hl Hr]. exact (compare_sound scope kind Hscope values Henv l op r t e' Hl Hr H).
  - destruct Hok as [Hc Hi]. exact (contains_sound scope kind values c i e' Hscope Henv Hc Hi H).
  - destruct Hok as [Hi Hc]. exact (membership_sound scope kind values i c n e' Hscope Henv Hi Hc H).
  - destruct Hok as (Hc & Hb & Hp). cbn [bind_in_scope] in H. bind_step H x Hx. destruct x as [c' tc]. bind_step H u Hu.
    bind_step H t Ht. apply ok_or_Ok in Ht. bind_step H p' Hp'. injection H as <-.
    destruct (bound_list scope kind Hscope values Henv _ _ _ _ _ Hc Hx Hu Ht) as [Hg Hv]. cbn [evaluate_resolved].
    eapply safeE_evalue; [exact Hv|]. intros w (items & -> & Hitems) _.
    induction Hitems as [|item items Hitem _ IHi]; [by apply safeE_ret|]. eapply safeE_bind; [apply consume_safe|]. intros _ _.
    eapply safeE_bind; [exact (IH _ _ _ _ (scope_ok_bind _ _ _ Hscope Hb Hg) (scoped_typed_env _ _ Hcat _ _ _ _ _ Hscope Hb Hg Hitem Henv) Hp Hp')|].
    intros [] _; [by apply safeE_ret|exact IHi].
  - destruct Hok as (Hc & Hb & Hp). cbn [bind_in_scope] in H. bind_step H x Hx. destruct x as [c' tc]. bind_step H u Hu.
    bind_step H t Ht. apply ok_or_Ok in Ht. bind_step H p' Hp'. injection H as <-.
    destruct (bound_list scope kind Hscope values Henv _ _ _ _ _ Hc Hx Hu Ht) as [Hg Hv]. cbn [evaluate_resolved].
    eapply safeE_evalue; [exact Hv|]. intros w (items & -> & Hitems) _.
    induction Hitems as [|item items Hitem _ IHi]; [by apply safeE_ret|]. eapply safeE_bind; [apply consume_safe|]. intros _ _.
    eapply safeE_bind; [exact (IH _ _ _ _ (scope_ok_bind _ _ _ Hscope Hb Hg) (scoped_typed_env _ _ Hcat _ _ _ _ _ Hscope Hb Hg Hitem Henv) Hp Hp')|].
    intros [] _; [exact IHi|by apply safeE_ret].
  - cbn [bind_in_scope] in H. bind_step H x Hx. destruct x as [v' tv]. bind_step H y Hy. injection H as <-.
    destruct (bound_kind scope kind Hscope values Henv _ _ _ _ _ Hok Hx Hy) as (u & Hu & Hv). cbn [evaluate_resolved].
    eapply safeE_evalue; [exact Hv|]. intros w Hw _. apply has_type_shape in Hw. destruct u; try discriminate Hu.
    destruct Hw as (o & -> & _). by apply safeE_ret.
  - cbn [bind_in_scope] in H. bind_step H x Hx. destruct x as [v' tv]. bind_step H y Hy. injection H as <-.
    destruct (bound_kind scope kind Hscope values Henv _ _ _ _ _ Hok Hx Hy) as (u & Hu & Hv). cbn [evaluate_resolved].
    eapply safeE_evalue; [exact Hv|]. intros w Hw _. apply has_type_shape in Hw. destruct u; try discriminate Hu.
    destruct Hw as (o & -> & _). by apply safeE_ret.
  - cbn [bind_in_scope] in H. bind_step H v' Hv. injection H as <-. cbn [evaluate_resolved].
    eapply safeE_bind; [exact (IH _ _ _ _ Hscope Henv Hok Hv)|]. intros. by apply safeE_ret.
  - destruct Hok as [Hokl Hokr]. cbn [bind_in_scope] in H. bind_step H l' Hl. bind_step H r' Hr. injection H as <-. cbn [evaluate_resolved].
    eapply safeE_bind; [exact (IHl _ _ _ _ Hscope Henv Hokl Hl)|]. intros [] _; [exact (IHr _ _ _ _ Hscope Henv Hokr Hr)|by apply safeE_ret].
  - destruct Hok as [Hokl Hokr]. cbn [bind_in_scope] in H. bind_step H l' Hl. bind_step H r' Hr. injection H as <-. cbn [evaluate_resolved].
    eapply safeE_bind; [exact (IHl _ _ _ _ Hscope Henv Hokl Hl)|]. intros [] _; [by apply safeE_ret|exact (IHr _ _ _ _ Hscope Henv Hokr Hr)].
Qed.
End bool.
End sound.

(** ** Rows of a table *)

Lemma row_scope_ok names scope :
  good_type names (TRecord scope) → Forall (λ c, no_dot (col_name c) = true) scope → scope_ok names scope.
Proof.
  intros Hg Hn. unfold scope_ok. rewrite list.Forall_forall in *. intros c Hc. split; [by eapply good_column|auto].
Qed.

(** A scalar expression that [bind_scalar] accepts with type [ty] evaluates, on
    every row of the declared columns and with every budget, to a canonical value of
    [ty] or to a run-time error: never to a type error, a missing field, a broken
    reference or a panic. *)
Theorem bound_scalar_safe `{TL : TextLib} {Laws : TextLibLaws} names cat scope row e e' ty budget :
  good_catalog names cat → good_type names (TRecord scope) → Forall (λ c, no_dot (col_name c) = true) scope →
  has_type cat (TRecord scope) (VRecord row) → expr_ok names cat e →
  bind_scalar cat scope "field" e None = Ok (e', ty) →
  match evaluate_scalar cat e' (row_field row) budget with
  | Ok (Some v, _) => has_type cat ty v
  | Ok (None, _) => False
  | Err code => internal_error code = false
  end.
Proof.
  intros Hcat Hg Hn Hrow Hok Hb.
  destruct (bound_value names cat Hcat scope "field" (row_scope_ok _ _ Hg Hn) (row_field row)
    (row_typed_env names cat Hcat scope row Hg Hrow) e e' ty Hok Hb) as [_ Hs].
  specialize (Hs budget). destruct (evaluate_scalar _ _ _ _) as [[[v|] b]|code]; [|by destruct Hs as (v & [=] & _)|exact Hs].
  by destruct Hs as (w & [= ->] & Hw).
Qed.

(** C26: A boolean expression that [bind] accepts evaluates, on every row of the declared
    columns and with every budget, to a boolean or to a run-time error: the operands
    of comparisons are comparable, the collections of [in], [any] and [all] are
    lists, the operands of [is_some] and [is_none] are options, and no element
    binding escapes its scope. *)
Theorem bound_expression_safe `{TL : TextLib} {Laws : TextLibLaws} names cat scope row e e' budget :
  good_catalog names cat → good_type names (TRecord scope) → Forall (λ c, no_dot (col_name c) = true) scope →
  has_type cat (TRecord scope) (VRecord row) → bool_ok names cat e →
  bind cat scope e = Ok e' →
  match evaluate cat e' (row_field row) budget with Ok _ => True | Err code => internal_error code = false end.
Proof.
  intros Hcat Hg Hn Hrow Hok Hb.
  pose proof (bool_sound names cat Hcat e scope "field" (row_field row) e' (row_scope_ok _ _ Hg Hn)
    (row_typed_env names cat Hcat scope row Hg Hrow) Hok Hb budget) as Hs.
  unfold evaluate. by destruct (evaluate_resolved _ _ _ _).
Qed.

(** A text library that maps nothing, for the examples. *)
Definition plain_text : TextLib :=
  {| to_lowercase := λ s, s; to_uppercase := λ s, s; trim := λ s, s; float_debug := λ _, "0.0"%string |}.
Lemma plain_text_laws : @TextLibLaws plain_text.
Proof. split; done. Qed.

Definition example_catalog : Catalog := mkCatalog [("Money"%string, mkTypeDefinition 1 "Money" (TDecimal 10 2))] 2.
Definition example_scope : Columns := [Column "price" (TRef 1) None 1; Column "tags" (TList TText) None 2].
Definition example_row : list (string * Value) :=
  [("price"%string, VNamed 1 (VDecimal (mkDecimal 150 2))); ("tags"%string, VList [VText "a"; VText "b"])].
Definition example_sum : ScalarExpression := SArithmetic (SReference "price") OpAdd (SReference "price") None.
Definition example_filter : BoolExpression :=
  BAnd (BCompare example_sum CmpGt (SLiteral (VDecimal (mkDecimal 100 2))) None)
       (BAny (SReference "tags") "t" (BCompare (SCall "lower" [SReference "t"]) CmpEq (SLiteral (VText "b")) None)).

Lemma bound_scalar_safe_witness :
  ∃ e' ty, bind_scalar example_catalog example_scope "field" example_sum None = Ok (e', ty) ∧
    match @evaluate_scalar plain_text example_catalog e' (row_field example_row) 10 with
    | Ok (Some v, _) => has_type example_catalog ty v
    | Ok (None, _) => False
    | Err code => internal_error code = false
    end.
Proof.
  eexists _, _. split; [vm_compute; reflexivity|].
  apply (@bound_scalar_safe plain_text plain_text_laws (λ _, ""%string) example_catalog example_scope example_row example_sum).
  - split; [reflexivity|]. repeat constructor.
  - split; reflexivity.
  - repeat constructor.
  - split; [exists 3%nat; reflexivity|reflexivity].
  - split; exact I.
  - vm_compute; reflexivity.
Defined.

Lemma bound_expression_safe_witness :
  ∃ e', bind example_catalog example_scope example_filter = Ok e' ∧
    match @evaluate plain_text example_catalog e' (row_field example_row) 10 with
    | Ok _ => True
    | Err code => internal_error code = false
    end.
Proof.
  eexists. split; [vm_compute; reflexivity|].
  apply (@bound_expression_safe plain_text plain_text_laws (λ _, ""%string) example_catalog example_scope example_row example_filter).
  - split; [reflexivity|]. repeat constructor.
  - split; reflexivity.
  - repeat constructor.
  - split; [exists 3%nat; reflexivity|reflexivity].
  - assert (Hd : literal_ok (λ _, ""%string) example_catalog (VDecimal (mkDecimal 100 2))).
    { split; [reflexivity|]. intros ty [= <-]. split; [split; reflexivity|]. split; [exists 1%nat; reflexivity|reflexivity]. }
    assert (Ht : literal_ok (λ _, ""%string) example_catalog (VText "b")).
    { split; [reflexivity|]. intros ty [= <-]. split; [split; reflexivity|]. split; [exists 1%nat; reflexivity|reflexivity]. }
    cbn. split_and!; first [exact I|exact Hd|exact Ht|reflexivity].
  - vm_compute; reflexivity.
Defined.

(** C38: A membership test over a collection that is neither a literal nor an untyped
    parameter and whose type inference leaves unknown, such as [values $m], cannot be bound.
    Tested against an item that is untyped as well it is rejected with a type error; tested
    against an item of known type, such as a field, it panics. *)
Theorem membership_bind_panics cat scope item item_ty collection negated :
  infer_scalar cat scope "field" item = Ok item_ty → infer_scalar cat scope "field" collection = Ok None → contextual_collection collection = false →
  bind cat scope (BMembership item collection negated) = match item_ty with Some _ => Err PANIC | None => Err "E_TYPE" end.
Proof.
  intros Hi Hc Hx. unfold bind. cbn [bind_in_scope]. rewrite Hi, Hc, Hx. by destruct item_ty.
Qed.

Lemma membership_bind_panics_witness :
  bind example_catalog example_scope (BMembership (SReference "price") (SCall "values" [SParameter "m" None]) false) = Err PANIC ∧
  bind example_catalog example_scope (BMembership (SParameter "x" None) (SCall "values" [SParameter "m" None]) false) = Err "E_TYPE".
Proof.
  split.
  - apply (membership_bind_panics example_catalog example_scope (SReference "price") (Some (TRef 1)) (SCall "values" [SParameter "m" None]) false); reflexivity.
  - apply (membership_bind_panics example_catalog example_scope (SParameter "x" None) None (SCall "values" [SParameter "m" None]) false); reflexivity.
Defined.
