(* ===== verification/IndexPredicate.v ===== *)
(** * Partial index predicates

    Models src/src/db/index_predicate.rs: the conjunctions of equalities and option
    tests that restrict a partial unique index, how they are bound and normalised,
    and the conservative test that a query's filters imply them.

    The canonical text of an atom and its digest come from [serde_json] and [sha2];
    [PredicateText] stands for them. *)
From S2P Require Import Prelude Bytes Text Decimal BTree Model Coerce OrderedKey Matching Expression.

Definition MAX_INDEX_PREDICATE_ATOMS : Z := 64.

Inductive IndexPredicateAtom :=
  | AEqual (column : string) (field_path : list Z) (value_type : ScalarType) (value : Value)
  | AIsNone (column : string) (field_path : list Z)
  | AIsSome (column : string) (field_path : list Z).

Record IndexPredicate := mkIndexPredicate { atoms : list IndexPredicateAtom }.

Class PredicateText := {
  atom_payload_key : IndexPredicateAtom → list Z;
  predicate_digest : list (list Z * list Z) → string
}.

Definition atom_column (a : IndexPredicateAtom) : string :=
  match a with AEqual c _ _ _ | AIsNone c _ | AIsSome c _ => c end.

Definition atom_path (a : IndexPredicateAtom) : list Z :=
  match a with AEqual _ p _ _ | AIsNone _ p | AIsSome _ p => p end.

Definition identity_key `{PredicateText} (p : IndexPredicate) : string :=
  predicate_digest ((λ a, (atom_path a, atom_payload_key a)) <$> atoms p).

(** One atom on a row. *)
Definition atom_matches (fields : list (string * Value)) (a : IndexPredicateAtom) : bool :=
  match row_field fields (atom_column a) with
  | None => false
  | Some v =>
      match a with
      | AEqual _ _ _ expected => cmp_eq v expected
      | AIsNone _ _ => match unwrapped v with VOption None => true | _ => false end
      | AIsSome _ _ => match unwrapped v with VOption (Some _) => true | _ => false end
      end
  end.

Definition matches (p : IndexPredicate) (fields : list (string * Value)) : bool := forallb (atom_matches fields) (atoms p).

Definition equivalent (l r : IndexPredicateAtom) : bool :=
  bool_decide (atom_path l = atom_path r) &&
  match l, r with
  | AEqual _ _ _ l, AEqual _ _ _ r => cmp_eq l r
  | AIsNone _ _, AIsNone _ _ | AIsSome _ _, AIsSome _ _ => true
  | _, _ => false
  end.

Definition implied_by (p : IndexPredicate) (query : list IndexPredicateAtom) : bool :=
  forallb (λ a, existsb (equivalent a) query) (atoms p).

Definition conflicts (l r : IndexPredicateAtom) : bool :=
  match l, r with
  | AEqual _ _ _ l, AEqual _ _ _ r => negb (cmp_eq l r)
  | AIsNone _ _, AIsSome _ _ | AIsSome _ _, AIsNone _ _ | AIsNone _ _, AEqual _ _ _ _ | AEqual _ _ _ _, AIsNone _ _ => true
  | _, _ => false
  end.

Fixpoint is_literal (e : ScalarExpression) : bool :=
  match e with SLiteral _ => true | SNegate v _ => is_literal v | _ => false end.

Fixpoint validate_shape (e : BoolExpression) : result unit :=
  match e with
  | BAnd l r => _ ← validate_shape l; validate_shape r
  | BCompare (SReference _) CmpEq r _ => if is_literal r then Ok tt else Err "E_INDEX_PREDICATE"
  | BIsNone (SReference _) | BIsSome (SReference _) => Ok tt
  | _ => Err "E_INDEX_PREDICATE"
  end.

(** [Ord] of [Vec<u64>] and of byte vectors: lexicographic. *)
Definition path_cmp (a b : list Z) : comparison := bytes_cmp a b.

Section predicate.
Context `{TextLib} `{PredicateText} (cat : Catalog) (fields : Columns).

Fixpoint collect_atoms (e : BoolExpression) (acc : list IndexPredicateAtom) : result (list IndexPredicateAtom) :=
  match e with
  | BAnd l r => acc ← collect_atoms l acc; collect_atoms r acc
  | BCompare (SReference column) CmpEq r (Some value_type) =>
      if is_literal r then
        field_path ← field_path_ids cat fields column;
        value ← evaluate_value cat r (λ _, None);
        match value with
        | VOption None => Ok (acc ++ [AIsNone column field_path])
        | _ => v ← coerce cat value value_type; Ok (acc ++ [AEqual column field_path value_type v])
        end
      else Err "E_INDEX_PREDICATE"
  | BIsNone (SReference column) => p ← field_path_ids cat fields column; Ok (acc ++ [AIsNone column p])
  | BIsSome (SReference column) => p ← field_path_ids cat fields column; Ok (acc ++ [AIsSome column p])
  | _ => Err "E_INDEX_PREDICATE"
  end.

(** The conditions that a query's leading filter guarantees. *)
Fixpoint collect_query_atoms (e : BoolExpression) (acc : list IndexPredicateAtom) : result (list IndexPredicateAtom) :=
  match e with
  | BAnd l r => acc ← collect_query_atoms l acc; collect_query_atoms r acc
  | BCompare (SReference column) CmpEq r (Some value_type) =>
      if is_literal r then
        field_path ← field_path_ids cat fields column;
        value ← evaluate_value cat r (λ _, None);
        match unwrapped value with
        | VOption None => Ok (acc ++ [AIsNone column field_path])
        | u =>
            v ← coerce cat value value_type;
            Ok (acc ++ match u with VOption (Some _) => [AIsSome column field_path] | _ => [] end
                    ++ [AEqual column field_path value_type v])
        end
      else Ok acc
  | BIsNone (SReference column) => p ← field_path_ids cat fields column; Ok (acc ++ [AIsNone column p])
  | BIsSome (SReference column) => p ← field_path_ids cat fields column; Ok (acc ++ [AIsSome column p])
  | _ => Ok acc
  end.

Definition atom_cmp (l r : IndexPredicateAtom) : comparison :=
  then_cmp (path_cmp (atom_path l) (atom_path r)) (bytes_cmp (atom_payload_key l) (atom_payload_key r)).

(** [sort_by]: a stable insertion. *)
Fixpoint insert_atom (x : IndexPredicateAtom) (l : list IndexPredicateAtom) : list IndexPredicateAtom :=
  match l with
  | [] => [x]
  | y :: l' => match atom_cmp x y with Gt => y :: insert_atom x l' | _ => x :: l end
  end.
Definition sort_atoms (l : list IndexPredicateAtom) : list IndexPredicateAtom := foldr insert_atom [] l.

(** [dedup_by(equivalent)]: an element is dropped when it is equivalent to the one kept before it. *)
Fixpoint dedup_after (kept : IndexPredicateAtom) (l : list IndexPredicateAtom) : list IndexPredicateAtom :=
  match l with
  | [] => []
  | x :: l => if equivalent x kept then dedup_after kept l else x :: dedup_after x l
  end.
Definition dedup (l : list IndexPredicateAtom) : list IndexPredicateAtom :=
  match l with [] => [] | x :: l => x :: dedup_after x l end.

(** The inner loop: later atoms of the same field. *)
Fixpoint conflict_free (left : IndexPredicateAtom) (l : list IndexPredicateAtom) : bool :=
  match l with
  | [] => true
  | next :: l =>
      if negb (bool_decide (atom_path left = atom_path next)) then true
      else negb (conflicts left next) && conflict_free left l
  end.
Fixpoint all_conflict_free (l : list IndexPredicateAtom) : bool :=
  match l with [] => true | x :: l => conflict_free x l && all_conflict_free l end.

Definition normalize (l : list IndexPredicateAtom) : result IndexPredicate :=
  let l := dedup (sort_atoms l) in
  if all_conflict_free l then Ok (mkIndexPredicate l) else Err "E_INDEX_PREDICATE_CONTRADICTION".

Definition predicate_bind (e : BoolExpression) : result IndexPredicate :=
  _ ← validate_shape e;
  bound ← Expression.bind cat fields e;
  l ← collect_atoms bound [];
  if zlen l >? MAX_INDEX_PREDICATE_ATOMS then Err "E_INDEX_PREDICATE" else normalize l.
End predicate.
