(* ===== verification/Query.v ===== *)
(** * Pipelines

    The pipeline part of src/src/query.rs: a table and the stages that its rows run
    through.  Source spans are left out. *)
From S2P Require Import Prelude Text Decimal BTree Model Matching Expression.

Record SortKey := mkSortKey { sk_column : string; sk_descending : bool; sk_ty : option ScalarType }.

Inductive PageDirection := Forward | Backward.

Record PageSpec := mkPageSpec { ps_limit : Z; ps_direction : PageDirection; ps_cursor : option string }.

Inductive AggregateFunction :=
  | Count
  | CountDistinct
  | Average
  | DecimalAverage (precision scale : Z) (rounding : DecimalRounding)
  | Sum
  | Min
  | Max.

Record AggregateAssignment := mkAggregateAssignment {
  ag_name : string;
  ag_function : AggregateFunction;
  ag_input : option ScalarExpression;
  ag_output_type : option ScalarType
}.

Record Aggregate := mkAggregate { agg_group_by : list string; agg_assignments : list AggregateAssignment }.

Inductive WindowFunction := RowNumber | Rank | DenseRank.

Record WindowAssignment := mkWindowAssignment { wa_name : string; wa_function : WindowFunction }.

Record Window := mkWindow { win_partition_by : list string; win_order_by : list SortKey; win_assignments : list WindowAssignment }.

Record LocalParameter := mkLocalParameter { lp_name : string; lp_annotation : option ScalarType }.

Record LocalBinding := mkLocalBinding {
  lb_name : string;
  lb_annotation : option ScalarType;
  lb_parameters : list LocalParameter;
  lb_expression : BoolExpression
}.

Record DeriveExpression := mkDeriveExpression { de_name : string; de_expression : BoolExpression; de_output_type : option ScalarType }.

Record MatchArm := mkMatchArm { ma_pattern : MatchPattern; ma_condition : BoolExpression }.

Record MatchPredicate := mkMatchPredicate { mp_column : string; mp_arms : list MatchArm }.

Inductive MatchValue :=
  | MVBinding (name : string)
  | MVLiteral (value : Value)
  | MVExpression (e : BoolExpression)
  | MVConstructor (name : string) (payload : MatchValuePayload)
  | MVRecord (fields : list (string * MatchValue))
  | MVTuple (items : list MatchValue)
  | MVList (items : list MatchValue)
with MatchValuePayload :=
  | MVUnit
  | MVFields (fields : list (string * MatchValue))
  | MVPositional (items : list MatchValue).

Record MatchValueArm := mkMatchValueArm { mva_pattern : MatchPattern; mva_result : MatchValue }.

Record DeriveMatch := mkDeriveMatch {
  dm_name : string;
  dm_source : string;
  dm_arms : list MatchValueArm;
  dm_output_type : option ScalarType
}.

Record Lookup := mkLookup {
  lk_name : string;
  lk_table : string;
  lk_target_key : string;
  lk_source_key : string;
  lk_limit : Z;
  lk_output_type : option ScalarType;
  lk_index : option string
}.

Inductive SetOperator := Union | Intersect | Except.

Record ExistsCorrelation := mkExistsCorrelation { ec_target : string; ec_outer : string }.

Inductive Stage :=
  | StLet (binding : LocalBinding)
  | StFilter (e : BoolExpression)
  | StFilterExists (exists_ : ExistsFilter)
  | StFilterMatch (m : MatchPredicate)
  | StDerive (d : DeriveExpression)
  | StDeriveMatch (d : DeriveMatch)
  | StLookup (l : Lookup)
  | StAggregate (a : Aggregate)
  | StWindow (w : Window)
  | StSetOperation (s : SetOperation)
  | StSelect (fields : list string)
  | StSort (keys : list SortKey)
  | StTake (offset limit : Z)
  | StPage (spec : PageSpec)
with Pipeline := mkPipeline (from : string) (stages : list Stage)
with ExistsFilter := mkExistsFilter (pipeline : Pipeline) (negated : bool) (correlations : list ExistsCorrelation)
    (index index_target index_shape : option string)
with SetOperation := mkSetOperation (operator : SetOperator) (pipeline : Pipeline) (columns : Columns).

Definition pl_from (p : Pipeline) : string := match p with mkPipeline from _ => from end.
Definition pl_stages (p : Pipeline) : list Stage := match p with mkPipeline _ stages => stages end.
Definition so_operator (s : SetOperation) : SetOperator := match s with mkSetOperation op _ _ => op end.
Definition so_pipeline (s : SetOperation) : Pipeline := match s with mkSetOperation _ p _ => p end.
Definition so_columns (s : SetOperation) : Columns := match s with mkSetOperation _ _ c => c end.
