(* ===== verification/MatchResult.v ===== *)
(** * Results of match expressions

    The second half of src/src/matching.rs: the branches of a match used as a filter, as a
    derived column or as the value of an update.  A branch result is a
    [MatchValue] (src/src/query.rs); binding infers the common type of the branches or
    takes it from the context, checks every branch against it and completes records
    with their defaults; evaluation selects an arm and builds the value.

    The functions [bind], [bind_derive], [evaluate], [evaluate_derive] and [same_type]
    of that file are called [bind_match_predicate], [bind_match_derive],
    [evaluate_match_predicate], [evaluate_match_derive] and [match_same_type] here. *)
From Stdlib Require Import Ascii.
From S2P Require Import Prelude Bytes Text Decimal BTree Model Matching Expression Query.

(** ** Types of results *)

(** Variants are compared by their identities only. *)
Fixpoint match_same_type (l r : ScalarType) : bool :=
  match l, r with
  | TInt, TInt | TFloat, TFloat | TBool, TBool | TText, TText | TUuid, TUuid | TDate, TDate
  | TTimestamp, TTimestamp | TDuration, TDuration | TBytes, TBytes => true
  | TDecimal a b, TDecimal c d => (a =? c) && (b =? d)
  | TRef l, TRef r => l =? r
  | TOption l, TOption r | TList l, TList r | TMap l, TMap r => match_same_type l r
  | TTuple l, TTuple r => all2 match_same_type l r
  | TRecord l, TRecord r =>
      all2 (λ l r, String.eqb (col_name l) (col_name r) && match_same_type (col_ty l) (col_ty r)) l r
  | TEnum l, TEnum r => all2 (λ l r, negb (var_id l =? 0) && (var_id l =? var_id r)) l r
  | TNamed l, TNamed r => String.eqb l r
  | _, _ => false
  end.

Definition binding_type (cat : Catalog) (bindings : Columns) (path : string) : result ScalarType :=
  map_err "E_MATCH" (field_type cat bindings path).

(** [collect::<Result<Option<Vec<_>>>>()]: stops at the first error or [None]. *)
Definition collect_known {A B} (f : A → result (option B)) : list A → result (option (list B)) :=
  fix go l := match l with
    | [] => Ok (Some [])
    | x :: l => o ← f x; match o with Some b => option_map (cons b) <$> go l | None => Ok None end
    end.

(** The element type of a list, known from its first element, if all agree. *)
Definition common_type (first : ScalarType) (rest : list (option ScalarType)) : option ScalarType :=
  if forallb (λ o, match o with Some ty => match_same_type first ty | None => false end) rest
  then Some (TList first) else None.

(** [literal_type] never fails. *)
Fixpoint literal_type (cat : Catalog) (v : Value) : option ScalarType :=
  match v with
  | VInt _ => Some TInt
  | VFloat _ => Some TFloat
  | VBool _ => Some TBool
  | VText _ => Some TText
  | VUuid _ => Some TUuid
  | VDate _ => Some TDate
  | VTimestamp _ => Some TTimestamp
  | VDuration _ => Some TDuration
  | VBytes _ => Some TBytes
  | VDecimal d => Some (TDecimal (precision d) (scale d))
  | VNamed id _ => Some (TRef id)
  | VTuple vs => TTuple <$> all_some (map (literal_type cat) vs)
  | VList (v :: vs) => first ← literal_type cat v; common_type first (map (literal_type cat) vs)
  | VOption (Some v) => TOption <$> literal_type cat v
  | VEnum name _ _ => '(q, _) ← rsplit_once "."%char name; d ← bt_get q (types cat); Some (TRef (def_id d))
  | VNull | VRecord _ | VMap _ | VList [] | VOption None => None
  end.

Section infer.
Context (cat : Catalog) (infer : MatchValue → result (option ScalarType)).

Definition infer_record_type (fields : list (string * MatchValue)) : result (option ScalarType) :=
  match fields with
  | [] => Ok None
  | _ =>
      option_map TRecord <$>
        collect_known (λ '(name, v), option_map (λ ty, Column name ty None 0) <$> infer v) fields
  end.

Definition infer_single_payload (payload : MatchValuePayload) : result (option ScalarType) :=
  match payload with
  | MVUnit => Ok None
  | MVFields fields => infer_record_type fields
  | MVPositional [v] => infer v
  | MVPositional _ => Ok None
  end.

(** The type of a named record [Name { .. }]. *)
Definition infer_named_record (name : string) (payload : MatchValuePayload) : result (option ScalarType) :=
  match bt_get name (types cat), payload with
  | Some d, MVFields _ =>
      u ← underlying cat (def_ty d);
      Ok match u with TRecord _ => Some (TRef (def_id d)) | _ => None end
  | _, _ => Ok None
  end.

Definition infer_constructor (name : string) (payload : MatchValuePayload) : result (option ScalarType) :=
  named ← infer_named_record name payload;
  match named, rsplit_once "."%char name with
  | Some ty, _ => Ok (Some ty)
  | None, Some (q, _) => Ok ((λ d, TRef (def_id d)) <$> bt_get q (types cat))
  | None, None => if String.eqb name "Some" then option_map TOption <$> infer_single_payload payload else Ok None
  end.
End infer.

Fixpoint infer_result_type (cat : Catalog) (bindings : Columns) (v : MatchValue) : result (option ScalarType) :=
  match v with
  | MVBinding path => Some <$> binding_type cat bindings path
  | MVLiteral v => Ok (literal_type cat v)
  | MVExpression e => infer_value_expression cat bindings e "match binding"
  | MVConstructor name payload => infer_constructor cat (infer_result_type cat bindings) name payload
  | MVRecord fields => infer_record_type (infer_result_type cat bindings) fields
  | MVTuple vs => option_map TTuple <$> collect_known (infer_result_type cat bindings) vs
  | MVList [] => Ok None
  | MVList (v :: vs) =>
      first ← infer_result_type cat bindings v;
      match first with
      | None => Ok None
      | Some first => common_type first <$> mapR (infer_result_type cat bindings) vs
      end
  end.

(** ** Binding of results *)

(** [iter().position(..)] and [Vec::remove] on the supplied fields. *)
Fixpoint remove_field {A} (name : string) (supplied : list (string * A)) : option (A * list (string * A)) :=
  match supplied with
  | [] => None
  | (n, a) :: supplied =>
      if String.eqb n name then Some (a, supplied)
      else '(b, rest) ← remove_field name supplied; Some (b, (n, a) :: rest)
  end.

Section bind.
Context (cat : Catalog) (bind : ScalarType → MatchValue → result MatchValue).

(** [for (value, ty) in values.iter_mut().zip(items)] over lists of one length. *)
Definition bind_results : list MatchValue → list ScalarType → result (list MatchValue) :=
  fix go values tys := match values, tys with
    | v :: values, ty :: tys => v ← bind ty v; vs ← go values tys; Ok (v :: vs)
    | _, _ => Ok []
    end.

(** The loop over the declared fields; [supplied] holds, for each field still to be
    consumed, the binding of its value. *)
Fixpoint order_fields (supplied : list (string * (ScalarType → result MatchValue))) (definitions : Columns)
    : result (list (string * MatchValue) * list (string * (ScalarType → result MatchValue))) :=
  match definitions with
  | [] => Ok ([], supplied)
  | d :: definitions =>
      '(value, supplied) ←
        match remove_field (col_name d) supplied with
        | Some (bind_field, rest) => v ← bind_field (col_ty d); Ok (v, rest)
        | None => default ← ok_or (col_default d) "E_FIELD"; Ok (MVLiteral default, supplied)
        end;
      '(ordered, rest) ← order_fields supplied definitions;
      Ok ((col_name d, value) :: ordered, rest)
  end.

Definition bind_record_result (expected : ScalarType) (fields : list (string * MatchValue))
    : result (list (string * MatchValue)) :=
  u ← underlying cat expected;
  match u with
  | TRecord definitions =>
      '(ordered, rest) ← order_fields (map (λ '(n, v), (n, λ ty, bind ty v)) fields) definitions;
      match rest with [] => Ok ordered | _ => Err "E_FIELD" end
  | _ => Err "E_TYPE"
  end.

Definition bind_value_payload (argument_types : list ScalarType) (payload : MatchValuePayload) : result MatchValuePayload :=
  match payload with
  | MVUnit => match argument_types with [] => Ok MVUnit | _ => Err "E_TYPE" end
  | MVFields fields =>
      match argument_types with
      | [record_type] => MVFields <$> bind_record_result record_type fields
      | _ => Err "E_TYPE"
      end
  | MVPositional values =>
      if negb (zlen values =? zlen argument_types) then Err "E_TYPE"
      else MVPositional <$> bind_results values argument_types
  end.

(** The constructor names the record type that is expected. *)
Definition names_record (expected : ScalarType) (name : string) : result bool :=
  match expected with
  | TRef id =>
      d ← definition cat id;
      if String.eqb (def_name d) name then u ← underlying cat (def_ty d); Ok match u with TRecord _ => true | _ => false end
      else Ok false
  | _ => Ok false
  end.

(** The argument types of a constructor of the expected type. *)
Definition constructor_arguments (expected : ScalarType) (name : string) : result (list ScalarType) :=
  u ← underlying cat expected;
  match u with
  | TOption item =>
      if String.eqb name "None" then Ok [] else if String.eqb name "Some" then Ok [item] else Err "E_TYPE"
  | TEnum variants => '(_, argument_types, _) ← resolve_constructor cat (SourceEnum variants) name; Ok argument_types
  | _ => Err "E_TYPE"
  end.

Definition bind_constructor_result (expected : ScalarType) (name : string) (payload : MatchValuePayload)
    : result MatchValuePayload :=
  named ← names_record expected name;
  if named : bool then
    match payload with
    | MVFields fields => MVFields <$> bind_record_result expected fields
    | _ => Err "E_TYPE"
    end
  else argument_types ← constructor_arguments expected name; bind_value_payload argument_types payload.
End bind.

Fixpoint bind_result (cat : Catalog) (bindings : Columns) (expected : ScalarType) (v : MatchValue) : result MatchValue :=
  match v with
  | MVBinding path =>
      actual ← binding_type cat bindings path;
      if match_same_type expected actual then Ok (MVBinding path) else Err "E_TYPE"
  | MVLiteral v => MVLiteral <$> coerce cat v expected
  | MVExpression e => MVExpression <$> bind_value_expression cat bindings e expected "match binding"
  | MVConstructor name payload =>
      MVConstructor name <$> bind_constructor_result cat (bind_result cat bindings) expected name payload
  | MVRecord fields => MVRecord <$> bind_record_result cat (bind_result cat bindings) expected fields
  | MVTuple values =>
      u ← underlying cat expected;
      match u with
      | TTuple items =>
          if negb (zlen values =? zlen items) then Err "E_TYPE"
          else MVTuple <$> bind_results (bind_result cat bindings) values items
      | _ => Err "E_TYPE"
      end
  | MVList values =>
      u ← underlying cat expected;
      match u with
      | TList item => MVList <$> mapR (bind_result cat bindings item) values
      | _ => Err "E_TYPE"
      end
  end.

Definition bind_migration_result (cat : Catalog) (expected : ScalarType) (v : MatchValue) (name : string) (ty : ScalarType)
    : result MatchValue :=
  widened ← match v, ty with
            | MVBinding path, TInt =>
                if String.eqb path name then u ← underlying cat expected; Ok match u with TFloat => true | _ => false end
                else Ok false
            | _, _ => Ok false
            end;
  if widened : bool then Ok v else bind_result cat [binding name ty] expected v.

(** ** Binding of whole matches *)

(** A loop over the arms and the bindings of their patterns. *)
Fixpoint bind_each {A B} (f : A → Columns → result B) (arms : list A) (bound : list (MatchPattern * Columns)) : result (list B) :=
  match arms, bound with
  | a :: arms, (_, bindings) :: bound => b ← f a bindings; bs ← bind_each f arms bound; Ok (b :: bs)
  | _, _ => Ok []
  end.

Definition bind_match_predicate (cat : Catalog) (schema : Columns) (p : MatchPredicate) : result MatchPredicate :=
  source_ty ← field_type cat schema (mp_column p);
  bound ← bind_patterns cat source_ty (ma_pattern <$> mp_arms p);
  conditions ← bind_each (λ arm bindings, bind_match cat bindings (ma_condition arm)) (mp_arms p) bound;
  Ok (mkMatchPredicate (mp_column p) (zip_with mkMatchArm bound.*1 conditions)).

(** The first arm whose type is known ([find_map] with [transpose]). *)
Fixpoint infer_arms (cat : Catalog) (arms : list MatchValueArm) (bound : list (MatchPattern * Columns)) : result (option ScalarType) :=
  match arms, bound with
  | arm :: arms, (_, bindings) :: bound =>
      o ← infer_result_type cat bindings (mva_result arm);
      match o with Some ty => Ok (Some ty) | None => infer_arms cat arms bound end
  | _, _ => Ok None
  end.

(** The branches of a match at their common type. *)
Definition bind_match_results (cat : Catalog) (expected : ScalarType) (d : DeriveMatch) (bound : list (MatchPattern * Columns))
    : result DeriveMatch :=
  results ← bind_each (λ arm bindings, bind_result cat bindings expected (mva_result arm)) (dm_arms d) bound;
  Ok (mkDeriveMatch (dm_name d) (dm_source d) (zip_with mkMatchValueArm bound.*1 results) (Some expected)).

Definition bind_match_derive (cat : Catalog) (schema : Columns) (d : DeriveMatch) : result (DeriveMatch * ColumnOf ScalarType) :=
  source_ty ← field_type cat schema (dm_source d);
  bound ← bind_patterns cat source_ty (mva_pattern <$> dm_arms d);
  inferred ← infer_arms cat (dm_arms d) bound;
  output_type ← ok_or inferred "E_TYPE";
  d ← bind_match_results cat output_type d bound;
  Ok (d, Column (dm_name d) output_type None 0).

Definition bind_assignment (cat : Catalog) (schema : Columns) (expected : ScalarType) (d : DeriveMatch) : result DeriveMatch :=
  source_ty ← field_type cat schema (dm_source d);
  bound ← bind_patterns cat source_ty (mva_pattern <$> dm_arms d);
  bind_match_results cat expected d bound.

(** ** Evaluation *)

(** Evaluate a list in order. *)
Definition mapE {A B} (f : A → eval B) : list A → eval (list B) :=
  fix go l := match l with [] => eret [] | x :: l => ebind (f x) (λ y, ebind (go l) (λ ys, eret (y :: ys))) end.

Section evaluate.
Context (cat : Catalog) (eval_result : ScalarType → MatchValue → eval Value).

Definition evaluate_results : list MatchValue → list ScalarType → eval (list Value) :=
  fix go values tys := match values, tys with
    | v :: values, ty :: tys => ebind (eval_result ty v) (λ w, ebind (go values tys) (λ ws, eret (w :: ws)))
    | _, _ => eret []
    end.

Definition evaluate_fields (definitions : Columns) : list (string * MatchValue) → list (string * Value) → eval (list (string * Value)) :=
  fix go fields values := match fields with
    | [] => eret values
    | (name, v) :: fields =>
        elift (ok_or (find_column definitions name) "E_FIELD") (λ d,
          ebind (eval_result (col_ty d) v) (λ w, go fields (bt_insert name w values)))
    end.

Definition evaluate_record (expected : ScalarType) (fields : list (string * MatchValue)) : eval Value :=
  elift (underlying cat expected) (λ u,
    match u with
    | TRecord definitions => ebind (evaluate_fields definitions fields []) (λ values, eret (VRecord values))
    | _ => elift (Err "E_TYPE") eret
    end).

Definition evaluate_value_payload (argument_types : list ScalarType) (payload : MatchValuePayload) : eval (list Value) :=
  match payload with
  | MVUnit => eret []
  | MVFields fields =>
      match argument_types with
      | [record_type] => ebind (evaluate_record record_type fields) (λ v, eret [v])
      | _ => elift (Err "E_TYPE") eret
      end
  | MVPositional values => evaluate_results values argument_types
  end.

Definition evaluate_constructor (expected : ScalarType) (name : string) (payload : MatchValuePayload) : eval Value :=
  elift (names_record cat expected name) (λ named,
    if named : bool then
      match payload with
      | MVFields fields => evaluate_record expected fields
      | _ => elift (Err "E_TYPE") eret
      end
    else elift (constructor_arguments cat expected name) (λ argument_types,
      ebind (evaluate_value_payload argument_types payload) (λ args, eret (VEnum name args 0)))).
End evaluate.

Section text.
Context `{TextLib}.

Fixpoint evaluate_result (cat : Catalog) (bindings : list (string * Value)) (expected : ScalarType) (v : MatchValue) : eval Value :=
  match v with
  | MVBinding path => elift (ok_or (binding_value bindings path) "E_MATCH") eret
  | MVLiteral v => eret v
  | MVExpression e => evaluate_derive cat e (binding_value bindings)
  | MVConstructor name payload => evaluate_constructor cat (evaluate_result cat bindings) expected name payload
  | MVRecord fields => evaluate_record cat (evaluate_result cat bindings) expected fields
  | MVTuple values =>
      elift (underlying cat expected) (λ u,
        match u with
        | TTuple items => ebind (evaluate_results (evaluate_result cat bindings) values items) (λ vs, eret (VTuple vs))
        | _ => elift (Err "E_TYPE") eret
        end)
  | MVList values =>
      elift (underlying cat expected) (λ u,
        match u with
        | TList item => ebind (mapE (evaluate_result cat bindings item) values) (λ vs, eret (VList vs))
        | _ => elift (Err "E_TYPE") eret
        end)
  end.

Definition evaluate_migration_result (cat : Catalog) (expected : ScalarType) (v : MatchValue) (name : string) (value : Value)
    : result Value :=
  '(raw, _) ← evaluate_result cat [(name, value)] expected v MAX_COLLECTION_PREDICATE_EVALUATIONS;
  coerce cat raw expected.

Fixpoint evaluate_predicate_arms (cat : Catalog) (value : Value) (arms : list MatchArm) : eval bool :=
  match arms with
  | [] => eret false
  | arm :: arms =>
      match match_bindings value (ma_pattern arm) with
      | Some bindings => evaluate cat (ma_condition arm) (binding_value bindings)
      | None => evaluate_predicate_arms cat value arms
      end
  end.

Definition evaluate_match_predicate (cat : Catalog) (row : list (string * Value)) (p : MatchPredicate) : eval bool :=
  match row_field row (mp_column p) with
  | None => eret false
  | Some value => evaluate_predicate_arms cat value (mp_arms p)
  end.

Fixpoint evaluate_value_arms (cat : Catalog) (output_type : option ScalarType) (value : Value) (arms : list MatchValueArm)
    : eval Value :=
  match arms with
  | [] => elift (Err "E_MATCH") eret
  | arm :: arms =>
      match match_bindings value (mva_pattern arm) with
      | Some bindings =>
          elift (ok_or output_type "E_TYPE") (λ ty,
            ebind (evaluate_result cat bindings ty (mva_result arm)) (λ raw, elift (coerce cat raw ty) eret))
      | None => evaluate_value_arms cat output_type value arms
      end
  end.

Definition evaluate_value_match (cat : Catalog) (row : list (string * Value)) (d : DeriveMatch) : eval Value :=
  elift (ok_or (row_field row (dm_source d)) "E_FIELD") (λ value,
    evaluate_value_arms cat (dm_output_type d) value (dm_arms d)).

(** They differ in the text of their errors only. *)
Definition evaluate_match_derive := evaluate_value_match.
Definition evaluate_match_assignment := evaluate_value_match.
End text.
