(* ===== verification/Database.v ===== *)
(** * The database: tables, indexes, references and generated values

    Models the state of src/src/db.rs ([Database]), the maintenance of its secondary
    indexes (src/src/db.rs), foreign references (src/src/db/reference.rs) and generated
    defaults (src/src/db/generated.rs), and the row mutations over them.

    Every mutation is a function from a database to a result: [Database::execute]
    works on a clone that it publishes only on success, so an error leaves the
    database as it was.  Deadlines ([ExecutionControl]) never expire here. *)
From Stdlib Require Import Ascii.
From stdpp Require Import gmap countable.
From S2P Require Import Prelude Bytes Text Decimal Temporal Float64 Scalars BTree Model Coerce OrderedKey Codec Matching Catalog Expression IndexPredicate Query MatchResult.

#[export] Instance bytes_order : TotalOrder (list Z) :=
  { tcmp := bytes_cmp; tcmp_Eq := bytes_cmp_Eq; tcmp_antisym := bytes_cmp_antisym; tcmp_trans := bytes_cmp_Lt_trans }.

(** ** State *)

Notation Fields := (list (string * Value)).

Record Row := mkRow { row_id : Z; row_fields : Fields }.

Inductive BoundGeneratedDefault := GNext (id : Z) | GUuidV7 | GNow.

Record Table := mkTable {
  tbl_id : Z;
  tbl_name : string;
  tbl_schema : Columns;
  tbl_rows : list Row;
  tbl_next_row_id : Z;
  tbl_row_type : option Z;
  tbl_primary_key : option string;
  tbl_generated_defaults : list (Z * BoundGeneratedDefault)
}.

Inductive IndexKind := Ordinary | Unique.

Record IndexComponentDefinition := mkIndexComponent {
  ic_column : string;
  ic_field_path : list Z;
  ic_descending : bool
}.

Record IndexDefinition := mkIndexDefinition {
  ix_id : Z;
  ix_table_id : Z;
  ix_column : string;
  ix_field_path : list Z;
  ix_components : list IndexComponentDefinition;
  ix_kind : IndexKind;
  ix_predicate : option IndexPredicate
}.

(** Rows by encoded key; the row IDs of a key ascend. *)
Notation IndexPosting := (list (list Z * list Z)).

Inductive ReferenceMode := RefExact | RefOptional.
Inductive ReferenceTarget := PrimaryKey | UniqueIndex (index_id : Z).

Record ReferenceComponent := mkReferenceComponent {
  rc_column : string;
  rc_field_path : list Z;
  rc_target_column : string;
  rc_target_field_path : list Z;
  rc_mode : ReferenceMode;
  rc_target_type : ScalarType
}.

Record ReferenceDefinition := mkReferenceDefinition {
  rd_id : Z;
  rd_table_id : Z;
  rd_target_table_id : Z;
  rd_target : ReferenceTarget;
  rd_components : list ReferenceComponent
}.

Record ReferenceSpec := mkReferenceSpec {
  rs_table : string;
  rs_fields : list string;
  rs_target_table : string;
  rs_target_fields : list string
}.

Record Sequence := mkSequence { seq_id : Z; seq_name : string; seq_start : Z; seq_next : option Z }.

Record RowChange := mkRowChange { before : option Row; after : option Row }.

Definition inserted (row : Row) : RowChange := mkRowChange None (Some row).
Definition updated (old new : Row) : RowChange := mkRowChange (Some old) (Some new).
Definition deleted (row : Row) : RowChange := mkRowChange (Some row) None.

(** [RowChange::row_id]; a change has a before or an after image. *)
Definition change_id (c : RowChange) : Z :=
  match before c, after c with
  | Some row, _ | None, Some row => row_id row
  | None, None => 0
  end.

(** *** Keys of values

    [Value::index_key] prints a JSON value; distinct JSON values print differently,
    so the key is the JSON value itself.  [JDecimal] is the object that a decimal
    serializes to, with its coefficient and scale. *)
Inductive Json :=
  | JNull
  | JBool (b : bool)
  | JNum (z : Z)
  | JStr (s : string)
  | JDecimal (coefficient : string) (scale : Z)
  | JArr (items : list Json).

Fixpoint json_tree (j : Json) : gen_tree (bool + Z + string * option Z) :=
  match j with
  | JNull => GenNode 0 []
  | JBool b => GenLeaf (inl (inl b))
  | JNum z => GenLeaf (inl (inr z))
  | JStr s => GenLeaf (inr (s, None))
  | JDecimal c s => GenLeaf (inr (c, Some s))
  | JArr items => GenNode 1 (json_tree <$> items)
  end.

Fixpoint tree_json (t : gen_tree (bool + Z + string * option Z)) : Json :=
  match t with
  | GenLeaf (inl (inl b)) => JBool b
  | GenLeaf (inl (inr z)) => JNum z
  | GenLeaf (inr (s, None)) => JStr s
  | GenLeaf (inr (c, Some s)) => JDecimal c s
  | GenNode 0 _ => JNull
  | GenNode _ items => JArr (tree_json <$> items)
  end.

Lemma tree_json_tree : ∀ j, tree_json (json_tree j) = j.
Proof.
  fix go 1. intros [|b|z|s|c s|items]; try reflexivity. cbn. f_equal.
  induction items as [|x items IH]; [reflexivity|]. cbn. f_equal; [apply go|apply IH].
Qed.

#[export] Instance Json_eq_dec : EqDecision Json.
Proof. refine (inj_eq_dec json_tree). intros a b H. rewrite <-(tree_json_tree a), <-(tree_json_tree b). congruence. Defined.
#[export] Instance Json_countable : Countable Json := inj_countable' json_tree tree_json tree_json_tree.

(** The base64 crate's URL-safe encoding. *)
Class Base64 := { base64_encode : list Z → list Z }.

Fixpoint index_key `{Base64} (v : Value) : Json :=
  match v with
  | VInt z => JArr [JStr "int"; JStr (of_bytes (show_int z))]
  | VFloat b => JArr [JStr "float"; JNum (if is_zero b then 0 else b)]
  | VBool b => JArr [JStr "bool"; JBool b]
  | VText s => JArr [JStr "text"; JStr s]
  | VUuid u => JArr [JStr "uuid"; JStr (of_bytes (uuid_display u))]
  | VDate d => JArr [JStr "date"; JStr (of_bytes (date_display d))]
  | VTimestamp t => JArr [JStr "timestamp"; JStr (of_bytes (timestamp_display t))]
  | VDuration d => JArr [JStr "duration"; JStr (of_bytes (show_int d))]
  | VDecimal d => JArr [JStr "decimal"; JDecimal (of_bytes (show_int (coefficient d))) (scale d)]
  | VBytes bs => JArr [JStr "bytes"; JStr (of_bytes (to_base64url base64_encode bs))]
  | VNull => JArr [JStr "null"]
  | VNamed id v => JArr [JStr "named"; JNum id; index_key v]
  | VEnum variant args id =>
      JArr [JStr "enum"; JNum id; JStr (if id =? 0 then variant else ""); JArr (index_key <$> args)]
  | VRecord m => JArr [JStr "record"; JArr ((λ e, JArr [JStr e.1; index_key e.2]) <$> m)]
  | VTuple l => JArr [JStr "tuple"; JArr (index_key <$> l)]
  | VList l => JArr [JStr "list"; JArr (index_key <$> l)]
  | VMap m => JArr [JStr "map"; JArr ((λ e, JArr [JStr e.1; index_key e.2]) <$> m)]
  | VOption o => JArr [JStr "option"; match o with Some v => index_key v | None => JNull end]
  end.

(** *** Pending writes *)

Record IndexEntryChange := mkIndexEntryChange {
  ie_index_id : Z;
  ie_value : Value;
  ie_row_id : Z;
  ie_before : bool;
  ie_after : bool
}.

Record LogicalWriteSet := mkLogicalWriteSet {
  ws_rows : gmap (string * Z) RowChange;
  ws_table_watermarks : gmap string (Z * Z);
  ws_index_entries : gmap (Z * Json * Z) IndexEntryChange;
  ws_receipt_keys : gset string;
  ws_sequence_counters : gmap Z (option Z * option Z)
}.

Definition empty_write_set : LogicalWriteSet := mkLogicalWriteSet ∅ ∅ ∅ ∅ ∅.

(** The fields that row mutations read or write; [db_sample] is the clock reading that a
    request has taken, [db_entropy_reads] counts its reads of the entropy source. *)
Record Database := mkDatabase {
  db_reference_definitions : list (Z * ReferenceDefinition);
  db_reference_states : list (Z * IndexPosting);
  db_sequences : list (string * Sequence);
  db_sample : option Z;
  db_entropy_reads : nat;
  db_objects : list (string * Table);
  db_indexes : list (string * list (string * IndexPosting));
  db_index_definitions : list (string * list (string * IndexDefinition));
  db_catalog : Catalog;
  db_pending_writes : LogicalWriteSet
}.

Definition set_reference_states x db := mkDatabase (db_reference_definitions db) x (db_sequences db) (db_sample db)
  (db_entropy_reads db) (db_objects db) (db_indexes db) (db_index_definitions db) (db_catalog db) (db_pending_writes db).
Definition set_references d s db := mkDatabase d s (db_sequences db) (db_sample db)
  (db_entropy_reads db) (db_objects db) (db_indexes db) (db_index_definitions db) (db_catalog db) (db_pending_writes db).
Definition set_sequences x db := mkDatabase (db_reference_definitions db) (db_reference_states db) x (db_sample db)
  (db_entropy_reads db) (db_objects db) (db_indexes db) (db_index_definitions db) (db_catalog db) (db_pending_writes db).
Definition set_generation s n db := mkDatabase (db_reference_definitions db) (db_reference_states db) (db_sequences db) s
  n (db_objects db) (db_indexes db) (db_index_definitions db) (db_catalog db) (db_pending_writes db).
Definition set_objects x db := mkDatabase (db_reference_definitions db) (db_reference_states db) (db_sequences db) (db_sample db)
  (db_entropy_reads db) x (db_indexes db) (db_index_definitions db) (db_catalog db) (db_pending_writes db).
Definition set_indexes x db := mkDatabase (db_reference_definitions db) (db_reference_states db) (db_sequences db) (db_sample db)
  (db_entropy_reads db) (db_objects db) x (db_index_definitions db) (db_catalog db) (db_pending_writes db).
Definition set_index_definitions x db := mkDatabase (db_reference_definitions db) (db_reference_states db) (db_sequences db)
  (db_sample db) (db_entropy_reads db) (db_objects db) (db_indexes db) x (db_catalog db) (db_pending_writes db).
Definition set_catalog x db := mkDatabase (db_reference_definitions db) (db_reference_states db) (db_sequences db) (db_sample db)
  (db_entropy_reads db) (db_objects db) (db_indexes db) (db_index_definitions db) x (db_pending_writes db).
Definition set_pending_writes x db := mkDatabase (db_reference_definitions db) (db_reference_states db) (db_sequences db)
  (db_sample db) (db_entropy_reads db) (db_objects db) (db_indexes db) (db_index_definitions db) (db_catalog db) x.

Definition default_database : Database := mkDatabase [] [] [] None 0 [] [] [] default_catalog empty_write_set.

(** ** Index definitions *)

Definition is_unique (k : IndexKind) : bool := match k with Unique => true | Ordinary => false end.

Definition effective_components (d : IndexDefinition) : list IndexComponentDefinition :=
  match ix_components d with
  | [] => [mkIndexComponent (ix_column d) (ix_field_path d) false]
  | components => components
  end.

Definition index_shape_key (components : list IndexComponentDefinition) : string :=
  String.concat "," ((λ c, (if ic_descending c then "-" else "") +:+ ic_column c)%string <$> components).

Definition includes (d : IndexDefinition) (fields : Fields) : bool :=
  match ix_predicate d with Some p => matches p fields | None => true end.

Definition is_primary_index (d : IndexDefinition) (primary_key : option string) : bool :=
  match effective_components d with
  | [c] => negb (ic_descending c) && bool_decide (primary_key = Some (ic_column c))
  | _ => false
  end.

Fixpoint oversized (v : Value) : bool :=
  match v with
  | VNamed _ v => oversized v
  | VBytes b => zlen b >? MAX_INDEXED_BYTES
  | VEnum _ args _ => existsb oversized args
  | VRecord m => existsb (λ e, oversized e.2) m
  | VTuple l | VList l => existsb oversized l
  | VOption (Some v) => oversized v
  | _ => false
  end.

Definition validate_index_value (v : Value) : result unit := if oversized v then Err "E_INDEX_KEY_LIMIT" else Ok tt.

Definition index_component_value (fields : Fields) (c : IndexComponentDefinition) : result Value :=
  v ← ok_or (row_field fields (ic_column c)) "E_FIELD"; _ ← validate_index_value v; Ok v.

Definition index_values (fields : Fields) (components : list IndexComponentDefinition) : result (list Value) :=
  mapR (index_component_value fields) components.

Definition index_value (fields : Fields) (components : list IndexComponentDefinition) : result Value :=
  values ← index_values fields components;
  Ok match values with [v] => v | _ => VTuple values end.

Section shape.
Context `{PredicateText}.

Definition shape_key (d : IndexDefinition) : string :=
  let components := index_shape_key (effective_components d) in
  match ix_predicate d with
  | Some p => (components +:+ " if " +:+ identity_key p)%string
  | None => components
  end.
End shape.

Definition table (db : Database) (name : string) : result Table := ok_or (bt_get name (db_objects db)) "E_TABLE".

(** [definitions.get(name).cloned().unwrap_or_default()]. *)
Definition definitions_of (db : Database) (name : string) : list (string * IndexDefinition) :=
  default [] (bt_get name (db_index_definitions db)).
Definition indexes_of (db : Database) (name : string) : list (string * IndexPosting) :=
  default [] (bt_get name (db_indexes db)).

Definition index_tuple_key (db : Database) (name : string) (components : list IndexComponentDefinition) (fields : Fields)
    : result (list Z) :=
  t ← table db name;
  values ← index_values fields components;
  types ← mapR (λ c, field_type (db_catalog db) (tbl_schema t) (ic_column c)) components;
  key ← encode_tuple (db_catalog db)
          (zip_with (λ '(c, ty) v, mkComponent ty v (ic_descending c)) (zip components types) values);
  if 23 + zlen key >? MAX_COMPLETE_INDEX_KEY_BYTES then Err "E_INDEX_KEY_LIMIT" else Ok key.

Definition included_index_tuple_key (db : Database) (name : string) (d : IndexDefinition) (fields : Fields)
    : result (option (list Z)) :=
  if includes d fields then Some <$> index_tuple_key db name (effective_components d) fields else Ok None.

Definition single_index_key (db : Database) (name column : string) (v : Value) : result (list Z) :=
  t ← table db name;
  ty ← field_type (db_catalog db) (tbl_schema t) column;
  encode_tuple (db_catalog db) [mkComponent ty v false].

(** ** Postings *)

(** [entry(key).or_default().push_back(id)]. *)
Definition posting_push (p : IndexPosting) (key : list Z) (id : Z) : IndexPosting :=
  bt_insert key (default [] (bt_get key p) ++ [id]) p.

(** [binary_search] of an ascending list: whether the element is there, and its place. *)
Fixpoint binary_search (l : list Z) (id : Z) : bool * nat :=
  match l with
  | [] => (false, 0%nat)
  | x :: l =>
      match x ?= id with
      | Lt => let '(found, n) := binary_search l id in (found, S n)
      | Eq => (true, 0%nat)
      | Gt => (false, 0%nat)
      end
  end.

(** [rows.binary_search_by_key(&id, |row| row.id)]. *)
Definition row_position (rows : list Row) (id : Z) : result nat :=
  match binary_search (row_id <$> rows) id with
  | (true, n) => Ok n
  | (false, _) => Err "E_INDEX"
  end.

Definition posting_remove (p : IndexPosting) (key : list Z) (id : Z) : result IndexPosting :=
  ids ← ok_or (bt_get key p) "E_INDEX";
  match binary_search ids id with
  | (true, n) =>
      let ids := delete n ids in
      Ok (if bool_decide (ids = []) then bt_remove key p else bt_insert key ids p)
  | (false, _) => Err "E_INDEX"
  end.

Definition posting_add (unique : bool) (p : IndexPosting) (key : list Z) (id : Z) : result IndexPosting :=
  let ids := default [] (bt_get key p) in
  if unique && negb (bool_decide (ids = [])) then Err "E_CONSTRAINT"
  else match binary_search ids id with
       | (true, _) => Err "E_INDEX"
       | (false, n) => Ok (bt_insert key (take n ids ++ id :: drop n ids) p)
       end.

Definition build_index (db : Database) (name : string) (d : IndexDefinition) : result IndexPosting :=
  t ← table db name;
  foldR (λ p row,
    if includes d (row_fields row) then
      key ← index_tuple_key db name (effective_components d) (row_fields row); Ok (posting_push p key (row_id row))
    else Ok p) [] (tbl_rows t).

(** *** Ranges *)

Inductive Bound := Included (k : list Z) | Excluded (k : list Z) | Unbounded.

Definition above (lower : Bound) (k : list Z) : bool :=
  match lower with
  | Included b => match bytes_cmp b k with Gt => false | _ => true end
  | Excluded b => match bytes_cmp b k with Lt => true | _ => false end
  | Unbounded => true
  end.
Definition below (upper : Bound) (k : list Z) : bool :=
  match upper with
  | Included b => match bytes_cmp k b with Gt => false | _ => true end
  | Excluded b => match bytes_cmp k b with Lt => true | _ => false end
  | Unbounded => true
  end.

Definition posting_range (bounds : Bound * Bound) (p : IndexPosting) : IndexPosting :=
  List.filter (λ e, above bounds.1 e.1 && below bounds.2 e.1) p.

(** [BTreeMap::range] panics on bounds that are the wrong way round. *)
Definition range_panics (bounds : Bound * Bound) : bool :=
  match bounds with
  | ((Included s | Excluded s), (Included e | Excluded e)) =>
      match bytes_cmp s e with
      | Lt => false
      | Gt => true
      | Eq => match bounds with (Excluded _, Excluded _) => true | _ => false end
      end
  | _ => false
  end.

Definition entry_hits (e : list Z * list Z) : list (list Z * Z) := List.map (pair e.1) e.2.

(** The hits of an index scan: in key order, or in reverse key order with the rows of one
    key still ascending.  The limit is checked after each hit, so a limit of zero is none. *)
Definition scan_index (db : Database) (name shape : string) (bounds : Bound * Bound) (reverse_order : bool)
    (read_limit : option nat) : result (list (list Z * Z)) :=
  p ← ok_or (bt_get shape (indexes_of db name)) "E_STORAGE";
  if range_panics bounds then Err PANIC
  else
  let entries := posting_range bounds p in
  let hits := flat_map entry_hits (if reverse_order then reverse entries else entries) in
  Ok match read_limit with Some (S limit) => take (S limit) hits | _ => hits end.

(** ** Recording writes *)

Definition record_row_change (name : string) (ws : gmap (string * Z) RowChange) (c : RowChange) : gmap (string * Z) RowChange :=
  let key := (name, change_id c) in
  match ws !! key with
  | None => <[key := c]> ws
  | Some e =>
      match before e, after c with
      | None, None => delete key ws
      | _, _ => <[key := mkRowChange (before e) (after c)]> ws
      end
  end.

Definition record_row_changes (name : string) (changes : list RowChange) (db : Database) : Database :=
  let ws := db_pending_writes db in
  set_pending_writes (mkLogicalWriteSet (foldl (record_row_change name) (ws_rows ws) changes) (ws_table_watermarks ws)
    (ws_index_entries ws) (ws_receipt_keys ws) (ws_sequence_counters ws)) db.

Definition record_table_watermark (name : string) (old new : Z) (db : Database) : Database :=
  if old =? new then db
  else
    let ws := db_pending_writes db in
    let w := match ws_table_watermarks ws !! name with Some (first, _) => (first, new) | None => (old, new) end in
    set_pending_writes (mkLogicalWriteSet (ws_rows ws) (<[name := w]> (ws_table_watermarks ws))
      (ws_index_entries ws) (ws_receipt_keys ws) (ws_sequence_counters ws)) db.

Section keys.
Context `{Base64}.

Definition record_index_entry (index_id : Z) (value : Value) (id : Z) (old new : bool)
    (ws : gmap (Z * Json * Z) IndexEntryChange) : gmap (Z * Json * Z) IndexEntryChange :=
  let key := (index_id, index_key value, id) in
  match ws !! key with
  | None => <[key := mkIndexEntryChange index_id value id old new]> ws
  | Some e =>
      if Bool.eqb (ie_before e) new then delete key ws
      else <[key := mkIndexEntryChange (ie_index_id e) (ie_value e) (ie_row_id e) (ie_before e) new]> ws
  end.

(** The entry of one change under its old and new values; [same] compares them. *)
Definition record_entry_change (index_id : Z) (old new : option Value) (id : Z)
    (ws : gmap (Z * Json * Z) IndexEntryChange) : gmap (Z * Json * Z) IndexEntryChange :=
  let ws := match old with Some v => record_index_entry index_id v id true false ws | None => ws end in
  match new with Some v => record_index_entry index_id v id false true ws | None => ws end.

Definition included_index_value (d : IndexDefinition) (row : option Row) : result (option Value) :=
  match row with
  | Some row =>
      if includes d (row_fields row) then Some <$> index_value (row_fields row) (effective_components d) else Ok None
  | None => Ok None
  end.

(** [values(fields, source)] of a reference: the values of its columns, [None] if an optional one is absent. *)
Fixpoint reference_values (components : list ReferenceComponent) (fields : Fields) (source : bool) : result (option (list Value)) :=
  match components with
  | [] => Ok (Some [])
  | c :: components =>
      v ← ok_or (row_field fields (if source then rc_column c else rc_target_column c)) "E_FIELD";
      let rest v := option_map (cons v) <$> reference_values components fields source in
      match source, rc_mode c with
      | true, RefOptional =>
          match v with
          | VOption None => Ok None
          | VOption (Some v) => rest v
          | _ => Err "E_TYPE"
          end
      | _, _ => rest v
      end
  end.

Definition source_value (d : ReferenceDefinition) (fields : Fields) : result (option Value) :=
  option_map (λ l, match l with [v] => v | _ => VTuple l end) <$> reference_values (rd_components d) fields true.

Definition optional_source_value (d : ReferenceDefinition) (row : option Row) : result (option Value) :=
  match row with Some row => source_value d (row_fields row) | None => Ok None end.

Definition record_reference_changes (name : string) (changes : list RowChange) (db : Database) : result Database :=
  t ← table db name;
  let ws := db_pending_writes db in
  entries ← foldR (λ entries '(_, d),
    if negb (rd_table_id d =? tbl_id t) then Ok entries
    else foldR (λ entries c,
      old ← optional_source_value d (before c);
      new ← optional_source_value d (after c);
      Ok (if bool_decide (index_key <$> old = index_key <$> new) then entries
          else record_entry_change (rd_id d) old new (change_id c) entries)) entries changes)
    (ws_index_entries ws) (db_reference_definitions db);
  Ok (set_pending_writes (mkLogicalWriteSet (ws_rows ws) (ws_table_watermarks ws) entries (ws_receipt_keys ws)
       (ws_sequence_counters ws)) db).

Definition record_index_changes (name : string) (definitions : list (string * IndexDefinition)) (changes : list RowChange)
    (db : Database) : result Database :=
  let ws := db_pending_writes db in
  entries ← foldR (λ entries '(_, d),
    foldR (λ entries c,
      old ← included_index_value d (before c);
      new ← included_index_value d (after c);
      Ok match old, new with
         | Some o, Some n =>
             if bool_decide (index_key o = index_key n) then entries
             else record_entry_change (ix_id d) old new (change_id c) entries
         | _, _ => record_entry_change (ix_id d) old new (change_id c) entries
         end) entries changes) (ws_index_entries ws) definitions;
  record_reference_changes name changes
    (set_pending_writes (mkLogicalWriteSet (ws_rows ws) (ws_table_watermarks ws) entries (ws_receipt_keys ws)
       (ws_sequence_counters ws)) db).
End keys.

(** ** References *)

Definition reference_key (db : Database) (d : ReferenceDefinition) (fields : Fields) (source : bool)
    : result (option (list Z)) :=
  o ← reference_values (rd_components d) fields source;
  match o with
  | None => Ok None
  | Some values =>
      key ← encode_tuple (db_catalog db)
              (zip_with (λ c v, mkComponent (rc_target_type c) v false) (rd_components d) values);
      if zlen key + 23 >? MAX_COMPLETE_INDEX_KEY_BYTES then Err "E_INDEX_KEY_LIMIT" else Ok (Some key)
  end.

Definition reference_target_index (db : Database) (d : ReferenceDefinition) : result (Table * IndexDefinition) :=
  '(_, target) ← ok_or (List.find (λ e, tbl_id e.2 =? rd_target_table_id d) (db_objects db)) "E_STORAGE";
  '(_, index) ← ok_or (List.find (λ e,
      match rd_target d with
      | PrimaryKey => is_primary_index e.2 (tbl_primary_key target)
      | UniqueIndex id => ix_id e.2 =? id
      end) (definitions_of db (tbl_name target))) "E_STORAGE";
  Ok (target, index).

(** The key that a row's reference has in the target's index. *)
Definition reference_target_boundary (db : Database) (d : ReferenceDefinition) (fields : Fields) : result (option (list Z)) :=
  o ← reference_values (rd_components d) fields true;
  match o with
  | None => Ok None
  | Some values =>
      '(_, index) ← reference_target_index db d;
      Some <$> encode_tuple (db_catalog db)
        (zip_with (λ '(c, ic) v, mkComponent (rc_target_type c) v (ic_descending ic))
           (zip (rd_components d) (effective_components index)) values)
  end.

(** [reference_source_exists] of the in-memory source. *)
Definition memory_reference_source_exists (db : Database) (reference_id : Z) (key : list Z) (excluded : list Z) : result bool :=
  state ← ok_or (bt_get reference_id (db_reference_states db)) "E_STORAGE";
  Ok (existsb (λ id, negb (existsb (Z.eqb id) excluded)) (default [] (bt_get key state))).

Definition GENERAL_WORKING_MAX_BYTES : Z := 64 * 1024 * 1024.

(** The keys that a statement's changes remove, add and reference; [account] bounds their size. *)
Record ReferenceKeys := mkReferenceKeys {
  rk_source_keys : list (list Z * list Z);
  rk_removed_targets : bset (list Z);
  rk_new_targets : bset (list Z);
  rk_bytes : Z
}.

Definition account (bytes : Z) (key : list Z) : result Z :=
  let bytes := bytes + zlen key + 64 in
  if bytes >? GENERAL_WORKING_MAX_BYTES then Err "E_LIMIT" else Ok bytes.

(** [definition.key(..)?.expect("exact target")] of one image of a target row. *)
Definition target_key (db : Database) (d : ReferenceDefinition) (row : Row) : result (list Z) :=
  o ← reference_key db d (row_fields row) false; ok_or o PANIC.

Definition collect_change (db : Database) (d : ReferenceDefinition) (source_changed target_changed : bool)
    (k : ReferenceKeys) (c : RowChange) : result ReferenceKeys :=
  k ← (if target_changed then
         k ← match before c with
             | Some row =>
                 key ← target_key db d row;
                 bytes ← account (rk_bytes k) key;
                 Ok (mkReferenceKeys (rk_source_keys k) (bs_insert key (rk_removed_targets k)) (rk_new_targets k) bytes)
             | None => Ok k
             end;
         match after c with
         | Some row =>
             key ← target_key db d row;
             bytes ← account (rk_bytes k) key;
             Ok (mkReferenceKeys (rk_source_keys k) (rk_removed_targets k) (bs_insert key (rk_new_targets k)) bytes)
         | None => Ok k
         end
       else Ok k);
  match source_changed, after c with
  | true, Some row =>
      o ← reference_key db d (row_fields row) true;
      match o with
      | Some key =>
          b ← reference_target_boundary db d (row_fields row);
          boundary ← ok_or b PANIC;
          bytes ← account (rk_bytes k) key;
          bytes ← account bytes boundary;
          Ok (mkReferenceKeys (bt_insert key boundary (rk_source_keys k)) (rk_removed_targets k) (rk_new_targets k) bytes)
      | None => Ok k
      end
  | _, _ => Ok k
  end.

(** A removed target key must not be referenced by a remaining source row. *)
Definition check_removed (db : Database) (d : ReferenceDefinition) (k : ReferenceKeys) (excluded : list Z) (key : list Z)
    : result unit :=
  if bs_mem key (rk_new_targets k) then Ok tt
  else
    b ← (if bt_mem key (rk_source_keys k) then Ok true
         else memory_reference_source_exists db (rd_id d) key excluded);
    if b : bool then Err "E_CONSTRAINT" else Ok tt.

(** A referenced key must exist in the target after the changes. *)
Definition check_source (db : Database) (target : Table) (index_shape : string) (target_changed : bool) (changed_ids : list Z)
    (k : ReferenceKeys) (e : list Z * list Z) : result unit :=
  if bs_mem e.1 (rk_new_targets k) then Ok tt
  else
    hits ← scan_index db (tbl_name target) index_shape (Included e.2, Included e.2) false None;
    if existsb (λ h, negb target_changed || negb (existsb (Z.eqb h.2) changed_ids)) hits then Ok tt
    else Err "E_CONSTRAINT".

(** [for x in l { f(x)?; }]. *)
Fixpoint eachR {A} (f : A → result unit) (l : list A) : result unit :=
  match l with [] => Ok tt | x :: l => _ ← f x; eachR f l end.

Section references.
Context `{PredicateText}.

Definition validate_reference (db : Database) (table_id : Z) (changes : list RowChange) (d : ReferenceDefinition) : result unit :=
  let source_changed := rd_table_id d =? table_id in
  let target_changed := rd_target_table_id d =? table_id in
  let changed_ids := change_id <$> changes in
  if negb source_changed && negb target_changed then Ok tt
  else
    '(target, index) ← reference_target_index db d;
    k ← foldR (collect_change db d source_changed target_changed) (mkReferenceKeys [] [] [] 0) changes;
    _ ← eachR (check_removed db d k (if source_changed then changed_ids else [])) (rk_removed_targets k).*1;
    eachR (check_source db target (shape_key index) target_changed changed_ids k) (rk_source_keys k).

Definition validate_source_reference_changes (db : Database) (name : string) (changes : list RowChange) : result unit :=
  match changes, db_reference_definitions db with
  | [], _ | _, [] => Ok tt
  | _, definitions => t ← table db name; eachR (validate_reference db (tbl_id t) changes) definitions.*2
  end.
End references.

(** *** Reverse postings *)

(** [OrdSet::insert] and [OrdSet::remove] on ascending row IDs. *)
Definition ids_insert (id : Z) (ids : list Z) : list Z :=
  match binary_search ids id with
  | (true, _) => ids
  | (false, n) => take n ids ++ id :: drop n ids
  end.
Definition ids_remove (id : Z) (ids : list Z) : list Z :=
  match binary_search ids id with
  | (true, n) => delete n ids
  | (false, _) => ids
  end.

Definition source_add (p : IndexPosting) (key : list Z) (id : Z) : IndexPosting :=
  bt_insert key (ids_insert id (default [] (bt_get key p))) p.
Definition source_remove (p : IndexPosting) (key : list Z) (id : Z) : IndexPosting :=
  match bt_get key p with
  | Some ids =>
      let ids := ids_remove id ids in
      if bool_decide (ids = []) then bt_remove key p else bt_insert key ids p
  | None => p
  end.

Definition with_source_key (db : Database) (d : ReferenceDefinition) (row : option Row)
    (f : IndexPosting → list Z → Z → IndexPosting) (p : IndexPosting) : result IndexPosting :=
  match row with
  | Some row =>
      o ← reference_key db d (row_fields row) true;
      Ok match o with Some key => f p key (row_id row) | None => p end
  | None => Ok p
  end.

Section mutations.
Context `{TextLib} `{PredicateText} `{Base64}.

Definition reference_candidate (db : Database) (name : string) (changes : list RowChange)
    : result (list (Z * IndexPosting)) :=
  let states := db_reference_states db in
  match changes, db_reference_definitions db with
  | [], _ | _, [] => Ok states
  | _, definitions =>
      _ ← validate_source_reference_changes db name changes;
      t ← table db name;
      foldR (λ states '(_, d),
        if negb (rd_table_id d =? tbl_id t) then Ok states
        else
          p ← ok_or (bt_get (rd_id d) states) "E_STORAGE";
          p ← foldR (λ p c, with_source_key db d (before c) source_remove p) p changes;
          p ← foldR (λ p c, with_source_key db d (after c) source_add p) p changes;
          Ok (bt_insert (rd_id d) p states)) states definitions
  end.

Definition same_shape (l r : ReferenceDefinition) : bool :=
  (rd_table_id l =? rd_table_id r) && (rd_target_table_id l =? rd_target_table_id r) &&
  all2 (λ l r, bool_decide (rc_field_path l = rc_field_path r) && bool_decide (rc_target_field_path l = rc_target_field_path r))
    (rd_components l) (rd_components r).

Definition reference_component (db : Database) (source target : Table) (e : string * string) : result ReferenceComponent :=
  let '(column, target_column) := e in
  source_type ← field_type (db_catalog db) (tbl_schema source) column;
  target_type ← field_type (db_catalog db) (tbl_schema target) target_column;
  mode ← (if same_type source_type target_type then Ok RefExact
          else match source_type with
               | TOption inner => if same_type inner target_type then Ok RefOptional else Err "E_TYPE"
               | _ => Err "E_TYPE"
               end);
  field_path ← field_path_ids (db_catalog db) (tbl_schema source) column;
  target_field_path ← field_path_ids (db_catalog db) (tbl_schema target) target_column;
  Ok (mkReferenceComponent column field_path target_column target_field_path mode target_type).

(** [min] of the index IDs. *)
Definition min_id (l : list Z) : option Z :=
  match l with [] => None | x :: l => Some (foldl Z.min x l) end.

Definition bind_reference (db : Database) (spec : ReferenceSpec) : result ReferenceDefinition :=
  let n := zlen (rs_fields spec) in
  if (n =? 0) || (n >? MAX_INDEX_COMPONENTS) || negb (n =? zlen (rs_target_fields spec)) then Err "E_SCHEMA"
  else if negb (nodupb (rs_fields spec)) || negb (nodupb (rs_target_fields spec)) then Err "E_SCHEMA"
  else
    source ← table db (rs_table spec);
    target ← table db (rs_target_table spec);
    components ← mapR (reference_component db source target) (zip (rs_fields spec) (rs_target_fields spec));
    let primary :=
      match components, tbl_primary_key target with
      | [c], Some key =>
          match field_path_ids (db_catalog db) (tbl_schema target) key with
          | Ok path => bool_decide (path = rc_target_field_path c)
          | Err _ => false
          end
      | _, _ => false
      end in
    key ← (if primary : bool then Ok PrimaryKey
           else
             let candidates := List.filter (λ e,
               is_unique (ix_kind e.2) && match ix_predicate e.2 with None => true | Some _ => false end &&
               all2 (λ t s, bool_decide (ic_field_path t = rc_target_field_path s)) (effective_components e.2) components)
               (definitions_of db (rs_target_table spec)) in
             UniqueIndex <$> ok_or (min_id ((λ e, ix_id e.2) <$> candidates)) "E_SCHEMA");
    Ok (mkReferenceDefinition 0 (tbl_id source) (tbl_id target) key components).

Definition build_reference_state (db : Database) (d : ReferenceDefinition) (source target : string) : result IndexPosting :=
  '(_, index) ← reference_target_index db d;
  t ← table db source;
  foldR (λ p row,
    o ← reference_key db d (row_fields row) true;
    match o with
    | None => Ok p
    | Some key =>
        b ← reference_target_boundary db d (row_fields row);
        boundary ← ok_or b PANIC;
        hits ← scan_index db target (shape_key index) (Included boundary, Included boundary) false None;
        match hits with
        | [] => Err "E_CONSTRAINT"
        | _ => Ok (source_add p key (row_id row))
        end
    end) [] (tbl_rows t).

Definition create_reference (db : Database) (spec : ReferenceSpec) : result Database :=
  d ← bind_reference db spec;
  if existsb (λ e, same_shape e.2 d) (db_reference_definitions db) then Err "E_SCHEMA"
  else
    state ← build_reference_state db d (rs_table spec) (rs_target_table spec);
    '(id, cat) ← allocate (db_catalog db);
    let d := mkReferenceDefinition id (rd_table_id d) (rd_target_table_id d) (rd_target d) (rd_components d) in
    Ok (set_references (bt_insert id d (db_reference_definitions db)) (bt_insert id state (db_reference_states db))
         (set_catalog cat db)).

Definition drop_reference (db : Database) (spec : ReferenceSpec) : result Database :=
  bound ← bind_reference db spec;
  '(id, _) ← ok_or (List.find (λ e, same_shape e.2 bound) (db_reference_definitions db)) "E_SCHEMA";
  Ok (set_references (bt_remove id (db_reference_definitions db)) (bt_remove id (db_reference_states db)) db).

(** ** Row mutations *)

Definition set_table (name : string) (t : Table) (db : Database) : Database := set_objects (bt_insert name t (db_objects db)) db.

Definition with_rows (rows : list Row) (next : Z) (t : Table) : Table :=
  mkTable (tbl_id t) (tbl_name t) (tbl_schema t) rows next (tbl_row_type t) (tbl_primary_key t) (tbl_generated_defaults t).

(** The key of one image of a change under an index, if the index includes it. *)
Definition image_key (db : Database) (name : string) (d : IndexDefinition) (row : option Row) : result (option (list Z)) :=
  match row with Some row => included_index_tuple_key db name d (row_fields row) | None => Ok None end.

(** The first pass of [replace_rows_and_indexes]: updates keep row IDs, and every new image has its keys. *)
Definition check_change (db : Database) (name : string) (definitions : list (string * IndexDefinition)) (c : RowChange)
    : result unit :=
  _ ← match before c, after c with
      | Some o, Some n => if row_id o =? row_id n then Ok tt else Err "E_INDEX"
      | _, _ => Ok tt
      end;
  match after c with
  | Some row => eachR (λ '(_, d), _ ← included_index_tuple_key db name d (row_fields row); Ok tt) definitions
  | None => Ok tt
  end.

(** The second pass, on one index and one change: the old entry goes, unless the key stays. *)
Definition remove_old_entry (db : Database) (name : string) (d : IndexDefinition) (p : IndexPosting) (c : RowChange)
    : result IndexPosting :=
  match before c with
  | None => Ok p
  | Some old =>
      o ← included_index_tuple_key db name d (row_fields old);
      match o with
      | None => Ok p
      | Some key =>
          after_key ← image_key db name d (after c);
          if bool_decide (after_key = Some key) then Ok p else posting_remove p key (row_id old)
      end
  end.

(** The third pass: the new entry is added, unless the key stayed. *)
Definition add_new_entry (db : Database) (name : string) (d : IndexDefinition) (unique : bool) (p : IndexPosting) (c : RowChange)
    : result IndexPosting :=
  match after c with
  | None => Ok p
  | Some new =>
      o ← included_index_tuple_key db name d (row_fields new);
      match o with
      | None => Ok p
      | Some key =>
          before_key ← image_key db name d (before c);
          if bool_decide (before_key = Some key) then Ok p else posting_add unique p key (row_id new)
      end
  end.

(** A pass over every index: [indexes.get_mut(&shape)] is updated by the changes. *)
Definition update_indexes (f : IndexDefinition → IndexPosting → RowChange → result IndexPosting)
    (definitions : list (string * IndexDefinition)) (changes : list RowChange) (indexes : list (string * IndexPosting))
    : result (list (string * IndexPosting)) :=
  foldR (λ indexes '(_, d),
    p ← ok_or (bt_get (shape_key d) indexes) "E_INDEX";
    p ← foldR (f d) p changes;
    Ok (bt_insert (shape_key d) p indexes)) indexes definitions.

(** An index whose keys are unique. *)
Definition guarded (primary_key : option string) (d : IndexDefinition) : bool :=
  is_unique (ix_kind d) || is_primary_index d primary_key.

(** The indexes of a table after the changes: every before image is removed first, so that
    unique keys are checked against the final rows. *)
Definition candidate_indexes (db : Database) (name : string) (t : Table) (changes : list RowChange)
    : result (list (string * IndexPosting)) :=
  let definitions := definitions_of db name in
  _ ← eachR (check_change db name definitions) changes;
  indexes ← update_indexes (remove_old_entry db name) definitions changes (indexes_of db name);
  update_indexes (λ d, add_new_entry db name d (guarded (tbl_primary_key t) d)) definitions changes indexes.

Definition replace_rows_and_indexes (db : Database) (name : string) (rows : list Row) (changes : list RowChange)
    : result Database :=
  t ← table db name;
  let definitions := definitions_of db name in
  indexes ← candidate_indexes db name t changes;
  states ← reference_candidate db name changes;
  let db := set_reference_states states (set_table name (with_rows rows (tbl_next_row_id t) t) db) in
  let db := match definitions with
            | [] => db
            | _ => set_indexes (bt_insert name indexes (db_indexes db)) db
            end in
  record_index_changes name definitions changes (record_row_changes name changes db).

(** The posting of the index whose shape is the primary key. *)
Definition primary_posting (db : Database) (name key : string) : option IndexPosting :=
  ixs ← bt_get name (db_indexes db); bt_get key ixs.

Definition insert_fields (db : Database) (name : string) (fields : Fields) : result (Database * Z) :=
  t ← table db name;
  let definitions := definitions_of db name in
  _ ← eachR (λ '(_, d), if includes d fields then _ ← index_value fields (effective_components d); Ok tt else Ok tt)
        definitions;
  _ ← match tbl_primary_key t with
      | Some key =>
          v ← ok_or (row_field fields key) "E_FIELD";
          bytes ← single_index_key db name key v;
          match primary_posting db name key with
          | Some p => if bt_mem bytes p then Err "E_CONSTRAINT" else Ok tt
          | None => Ok tt
          end
      | None => Ok tt
      end;
  _ ← eachR (λ '(_, d),
        if is_unique (ix_kind d) && includes d fields then
          key ← index_tuple_key db name (effective_components d) fields;
          match primary_posting db name (shape_key d) with
          | Some p => if bt_mem key p then Err "E_CONSTRAINT" else Ok tt
          | None => Ok tt
          end
        else Ok tt) definitions;
  let id := tbl_next_row_id t in
  next ← ok_or (checked is_u64 (id + 1)) "E_LIMIT";
  entries ← mapR (λ '(_, d), key ← index_tuple_key db name (effective_components d) fields; Ok (shape_key d, key))
              (List.filter (λ e, includes e.2 fields) definitions);
  let row := mkRow id fields in
  let changes := [inserted row] in
  states ← reference_candidate db name changes;
  db1 ← match bt_get name (db_indexes db) with
        | Some indexes =>
            indexes ← foldR (λ indexes '(shape, key),
              p ← ok_or (bt_get shape indexes) PANIC; Ok (bt_insert shape (posting_push p key id) indexes)) indexes entries;
            Ok (set_indexes (bt_insert name indexes (db_indexes db)) db)
        | None => Ok db
        end;
  let db1 := set_reference_states states (set_table name (with_rows (tbl_rows t ++ [row]) next t) db1) in
  db1 ← record_index_changes name definitions changes (record_row_changes name changes db1);
  Ok (record_table_watermark name id next db1, id).


(** ** Generated values *)

(** [Sequence::allocate]: the value and the advanced sequence. *)
Definition sequence_allocate (s : Sequence) : result (Z * Sequence) :=
  v ← ok_or (seq_next s) "E_ARITH";
  Ok (v, mkSequence (seq_id s) (seq_name s) (seq_start s) (checked is_i64 (v + 1))).

(** Nanoseconds since the epoch to a timestamp, rounding toward the past. *)
Definition timestamp_from_system_time (nanos : Z) : result Z :=
  micros ← ok_or (checked is_i64 (nanos / 1000)) "E_GENERATION";
  map_err "E_GENERATION" (from_epoch_microseconds micros).

(** [random] holds the ten entropy bytes. *)
Definition uuid_v7 (timestamp : Z) (random : list Z) : result (list Z) :=
  millis ← ok_or (checked is_u64 (timestamp / 1000)) "E_GENERATION";
  if millis >=? 2 ^ 48 then Err "E_GENERATION"
  else Ok (be_bytes 6 millis ++
           [Z.lor 0x70 (Z.land (nth 0 random 0) 0x0f); nth 1 random 0; Z.lor 0x80 (Z.land (nth 2 random 0) 0x3f)] ++
           drop 3 random).

Inductive GeneratedDefault := DefaultNext (sequence : string) | DefaultUuidV7 | DefaultNow.
Record TableDefault := mkTableDefault { td_field : string; td_generator : GeneratedDefault }.

Definition create_sequence (db : Database) (name : string) (start : Z) : result Database :=
  if bt_mem name (db_objects db) || bt_mem name (types (db_catalog db)) || bt_mem name (db_sequences db)
  then Err "E_SCHEMA"
  else
    '(id, cat) ← allocate (db_catalog db);
    Ok (set_sequences (bt_insert name (mkSequence id name start (Some start)) (db_sequences db)) (set_catalog cat db)).

Definition bind_generated_default (db : Database) (columns : Columns) (generators : list (Z * BoundGeneratedDefault))
    (d : TableDefault) : result (list (Z * BoundGeneratedDefault)) :=
  c ← ok_or (find_column columns (td_field d)) "E_FIELD";
  generator ← match td_generator d with
              | DefaultNext name => s ← ok_or (bt_get name (db_sequences db)) "E_SCHEMA"; Ok (GNext (seq_id s))
              | DefaultUuidV7 => Ok GUuidV7
              | DefaultNow => Ok GNow
              end;
  ty ← underlying (db_catalog db) (col_ty c);
  if match ty, generator with TInt, GNext _ | TUuid, GUuidV7 | TTimestamp, GNow => true | _, _ => false end
  then if bt_mem (col_id c) generators then Err "E_SCHEMA" else Ok (bt_insert (col_id c) generator generators)
  else Err "E_TYPE".

Definition bind_generated_defaults (db : Database) (columns : Columns) (defaults : list TableDefault)
    : result (list (Z * BoundGeneratedDefault)) :=
  foldR (bind_generated_default db columns) [] defaults.

Definition begin_generation_request (db : Database) : Database := set_generation None (db_entropy_reads db) db.

(** The counters of the pending writes: the first value before, the last value after. *)
Definition record_sequence_counter (id : Z) (old new : option Z) (db : Database) : Database :=
  let ws := db_pending_writes db in
  let w := match ws_sequence_counters ws !! id with Some (first, _) => (first, new) | None => (old, new) end in
  set_pending_writes (mkLogicalWriteSet (ws_rows ws) (ws_table_watermarks ws) (ws_index_entries ws) (ws_receipt_keys ws)
    (<[id := w]> (ws_sequence_counters ws))) db.

(** The clock reading of every request, in nanoseconds since the epoch, and the operating
    system's entropy: the bytes of its n-th read, or its failure. *)
Section generation.
Context (clock : Z) (entropy : nat → option (list Z)).

Definition generation_timestamp (db : Database) : result (Z * Database) :=
  match db_sample db with
  | Some sample => Ok (sample, db)
  | None =>
      sample ← timestamp_from_system_time clock;
      Ok (sample, set_generation (Some sample) (db_entropy_reads db) db)
  end.

Definition generation_uuid (db : Database) : result (list Z * Database) :=
  '(timestamp, db) ← generation_timestamp db;
  random ← ok_or (entropy (db_entropy_reads db)) "E_GENERATION";
  uuid ← uuid_v7 timestamp random;
  Ok (uuid, set_generation (db_sample db) (S (db_entropy_reads db)) db).

Definition generate_default (db : Database) (generator : BoundGeneratedDefault) : result (Value * Database) :=
  match generator with
  | GNext id =>
      '(name, s) ← ok_or (List.find (λ e, seq_id e.2 =? id) (db_sequences db)) "E_SCHEMA";
      '(v, s') ← sequence_allocate s;
      Ok (VInt v, record_sequence_counter id (seq_next s) (seq_next s') (set_sequences (bt_insert name s' (db_sequences db)) db))
  | GUuidV7 => '(u, db) ← generation_uuid db; Ok (VUuid u, db)
  | GNow => '(t, db) ← generation_timestamp db; Ok (VTimestamp t, db)
  end.

(** ** Row values *)

Definition table_row_type (db : Database) (name : string) : result ScalarType :=
  t ← table db name;
  Ok match tbl_row_type t with Some id => TRef id | None => TRecord (tbl_schema t) end.

Definition placeholder (generator : BoundGeneratedDefault) : Value :=
  match generator with GNext _ => VInt 0 | GUuidV7 => VUuid (replicate 16 0) | GNow => VTimestamp 0 end.

(** The record that [record_mut] finds, filled with placeholders for the missing generated
    fields; the names that were missing. *)
Definition fill_column (t : Table) (state : Fields * list string) (column : ColumnOf ScalarType) : Fields * list string :=
  let '(fields, missing) := state in
  match bt_get (col_name column) fields, bt_get (col_id column) (tbl_generated_defaults t) with
  | None, Some generator => (bt_insert (col_name column) (placeholder generator) fields, missing ++ [col_name column])
  | _, _ => (fields, missing)
  end.
Definition fill_record (t : Table) (fields : Fields) : Fields * list string :=
  foldl (fill_column t) (fields, []) (tbl_schema t).

Fixpoint fill_generated (fuel : nat) (t : Table) (v : Value) : result (Value * list string) :=
  match fuel with
  | O => Err "E_LIMIT"
  | S fuel =>
      match v with
      | VRecord fields => let '(fields, missing) := fill_record t fields in Ok (VRecord fields, missing)
      | VNamed id v => '(v, missing) ← fill_generated fuel t v; Ok (VNamed id v, missing)
      | VEnum variant [v] id => '(v, missing) ← fill_generated fuel t v; Ok (VEnum variant [v] id, missing)
      | _ => Ok (v, [])
      end
  end.

(** The row of a complete record; [upsert] is whether the operation's name starts with it. *)
Definition coerce_row (db : Database) (name : string) (values : Value) (upsert : bool) : result Fields :=
  t ← table db name;
  match tbl_generated_defaults t with
  | [] =>
      ty ← table_row_type db name;
      value ← coerce (db_catalog db) values ty;
      match unwrapped value with VRecord fields => Ok fields | _ => Err "E_TYPE" end
  | _ =>
      if upsert && match tbl_primary_key t with
                   | Some key => match field values key with None => true | Some _ => false end
                   | None => false
                   end
      then Err "E_FIELD"
      else
        '(candidate, missing) ← fill_generated MAX_DEPTH t values;
        ty ← table_row_type db name;
        value ← coerce (db_catalog db) candidate ty;
        match unwrapped value with
        | VRecord fields => Ok (foldl (λ fields name, bt_remove name fields) fields missing)
        | _ => Err "E_TYPE"
        end
  end.

(** One column of the loop: a missing field with a generator gets its value. *)
Definition generate_column (defaults : list (Z * BoundGeneratedDefault)) (state : Fields * Database) (column : ColumnOf ScalarType)
    : result (Fields * Database) :=
  let '(fields, db) := state in
  if bt_mem (col_name column) fields then Ok (fields, db)
  else match bt_get (col_id column) defaults with
       | Some generator =>
           '(v, db) ← generate_default db generator;
           v ← coerce (db_catalog db) v (col_ty column);
           Ok (bt_insert (col_name column) v fields, db)
       | None => Ok (fields, db)
       end.

Definition materialize_generated_row (db : Database) (name : string) (values : Value) (upsert : bool)
    : result (Fields * Database) :=
  fields ← coerce_row db name values upsert;
  t ← table db name;
  match tbl_generated_defaults t with
  | [] => Ok (fields, db)
  | defaults => foldR (generate_column defaults) (fields, db) (tbl_schema t)
  end.

(** ** Inserts and upserts *)

Definition MAX_BULK_INSERT_ROWS : Z := 100000.

Definition list_items (values : Value) : result (list Value) :=
  match values with VList l => Ok l | _ => Err "E_TYPE" end.

Definition insert (db : Database) (name : string) (values : Value) : result Database :=
  _ ← table db name;
  '(fields, db) ← materialize_generated_row db name values false;
  '(db, _) ← insert_fields db name fields;
  Ok db.

(** Consecutive row IDs from [first]. *)
Fixpoint number_rows (first : Z) (l : list Fields) : list Row :=
  match l with [] => [] | fields :: l => mkRow first fields :: number_rows (first + 1) l end.

Definition materialize_rows (db : Database) (name : string) (values : list Value) (upsert : bool) : result (list Fields * Database) :=
  mapS (λ v db, materialize_generated_row db name v upsert) values db.

Definition set_next_row_id (name : string) (next : Z) (db : Database) : result Database :=
  t ← ok_or (bt_get name (db_objects db)) PANIC;
  Ok (set_table name (with_rows (tbl_rows t) next t) db).

Definition insert_many (db : Database) (name : string) (values : Value) : result Database :=
  _ ← table db name;
  values ← list_items values;
  if zlen values >? MAX_BULK_INSERT_ROWS then Err "E_LIMIT"
  else
    '(fields, db) ← materialize_rows db name values false;
    t ← table db name;
    let first := tbl_next_row_id t in
    next ← ok_or (checked is_u64 (first + zlen fields)) "E_LIMIT";
    let rows := number_rows first fields in
    db ← replace_rows_and_indexes db name (tbl_rows t ++ rows) (inserted <$> rows);
    db ← set_next_row_id name next db;
    Ok (record_table_watermark name first next db).

Inductive UpsertAction := Inserted | Updated.

(** The first row of the primary-key posting under a key. *)
Definition posting_front (p : IndexPosting) (key : list Z) : option Z :=
  match bt_get key p with Some (id :: _) => Some id | _ => None end.

Definition upsert (db : Database) (name : string) (values : Value) : result (Database * UpsertAction) :=
  t ← table db name;
  key ← ok_or (tbl_primary_key t) "E_CONSTRAINT";
  '(fields, db) ← materialize_generated_row db name values true;
  v ← ok_or (row_field fields key) "E_FIELD";
  bytes ← single_index_key db name key v;
  match primary_posting db name key with
  | Some p =>
      match posting_front p bytes with
      | Some id =>
          t ← table db name;
          n ← row_position (tbl_rows t) id;
          old ← ok_or (tbl_rows t !! n) PANIC;
          let new := mkRow id fields in
          db ← replace_rows_and_indexes db name (<[n := new]> (tbl_rows t)) [updated old new];
          Ok (db, Updated)
      | None => '(db, _) ← insert_fields db name fields; Ok (db, Inserted)
      end
  | None => '(db, _) ← insert_fields db name fields; Ok (db, Inserted)
  end.

(** One row of a batch, whose primary keys must differ. *)
Definition collect_row (name key : string) (s : list Fields * gset Json * Database) (v : Value)
    : result (list Fields * gset Json * Database) :=
  let '(rows, seen, db) := s in
  '(row, db) ← materialize_generated_row db name v true;
  k ← ok_or (row_field row key) "E_FIELD";
  if bool_decide (index_key k ∈ seen) then Err "E_CONSTRAINT" else Ok (rows ++ [row], {[index_key k]} ∪ seen, db).

Definition upsert_rows (db : Database) (name key : string) (values : list Value) : result (list Fields * Database) :=
  '(fields, _, db) ← foldR (collect_row name key) ([], ∅, db) values;
  Ok (fields, db).

(** The loop of [upsert_many]: the rows, the next row ID, the changes and the actions so far. *)
Record UpsertState := mkUpsertState {
  up_rows : list Row; up_next : Z; up_changes : list RowChange; up_actions : list UpsertAction
}.

Definition upsert_step (db : Database) (name key : string) (posting : IndexPosting) (s : UpsertState) (fields : Fields)
    : result UpsertState :=
  v ← ok_or (row_field fields key) PANIC;
  bytes ← single_index_key db name key v;
  match posting_front posting bytes with
  | Some id =>
      n ← row_position (up_rows s) id;
      old ← ok_or (up_rows s !! n) PANIC;
      let new := mkRow id fields in
      Ok (mkUpsertState (<[n := new]> (up_rows s)) (up_next s) (up_changes s ++ [updated old new]) (up_actions s ++ [Updated]))
  | None =>
      next ← ok_or (checked is_u64 (up_next s + 1)) "E_LIMIT";
      let row := mkRow (up_next s) fields in
      Ok (mkUpsertState (up_rows s ++ [row]) next (up_changes s ++ [inserted row]) (up_actions s ++ [Inserted]))
  end.

Definition upsert_many (db : Database) (name : string) (values : Value) : result (Database * list UpsertAction) :=
  t ← table db name;
  key ← ok_or (tbl_primary_key t) "E_CONSTRAINT";
  values ← list_items values;
  if zlen values >? MAX_BULK_INSERT_ROWS then Err "E_LIMIT"
  else
    '(fields, db) ← upsert_rows db name key values;
    t ← table db name;
    posting ← ok_or (primary_posting db name key) "E_INDEX";
    s ← foldR (upsert_step db name key posting) (mkUpsertState (tbl_rows t) (tbl_next_row_id t) [] []) fields;
    db ← replace_rows_and_indexes db name (up_rows s) (up_changes s);
    db ← set_next_row_id name (up_next s) db;
    Ok (record_table_watermark name (tbl_next_row_id t) (up_next s) db, up_actions s).
End generation.

(** ** Deletes *)

(** [positions.sort(descending)], then [rows.remove(position)] for each. *)
Fixpoint insert_descending (n : nat) (l : list nat) : list nat :=
  match l with
  | [] => [n]
  | m :: l' => if (m <=? n)%nat then n :: l else m :: insert_descending n l'
  end.
Definition sort_descending (l : list nat) : list nat := foldr insert_descending [] l.

Definition remove_positions (rows : list Row) (positions : list nat) : list Row :=
  foldl (λ rows n, delete n rows) rows (sort_descending positions).

(** The mutation of [delete] on the rows that its target selects, in their order. *)
Definition delete_rows (db : Database) (name : string) (targets : list Z) : result Database :=
  t ← table db name;
  positions ← mapR (row_position (tbl_rows t)) targets;
  changes ← mapR (λ n, row ← ok_or (tbl_rows t !! n) PANIC; Ok (deleted row)) positions;
  replace_rows_and_indexes db name (remove_positions (tbl_rows t) positions) changes.

(** ** Field assignment *)

(** [left.strip_prefix(right).is_some_and(|suffix| suffix.starts_with('.'))]. *)
Definition dotted_prefix (left right : string) : bool :=
  match strip_prefix right left with Some (String c _) => Ascii.eqb c "."%char | _ => false end.

(** The same path, or one dotted prefix of the other. *)
Definition paths_overlap (left right : string) : bool :=
  String.eqb left right || dotted_prefix left right || dotted_prefix right left.

(** Both recursions: on the path, and through the names around a record. *)
Fixpoint set_nested_field (path : list string) (new : Value) : Value → result Value :=
  match path with
  | [] => λ _, Ok new
  | p :: path =>
      fix through current := match current with
        | VNamed id v => VNamed id <$> through v
        | VRecord fields =>
            v ← ok_or (bt_get p fields) "E_FIELD";
            v ← set_nested_field path new v;
            Ok (VRecord (bt_insert p v fields))
        | _ => Err "E_FIELD"
        end
  end.

Definition set_row_field (row : Fields) (path : string) (new : Value) : result Fields :=
  match split_dots path with
  | [] => Err "E_FIELD"
  | head :: tail =>
      v ← ok_or (bt_get head row) "E_FIELD";
      v ← set_nested_field tail new v;
      Ok (bt_insert head v row)
  end.

(** ** Update *)

Inductive SetValue := SetExpression (value : BoolExpression) | SetMatch (value : DeriveMatch).
Record SetAssignment := mkSetAssignment { sa_path : string; sa_value : SetValue }.

Definition bind_set_value (cat : Catalog) (schema : Columns) (expected : ScalarType) (v : SetValue) : result SetValue :=
  match v with
  | SetExpression e => SetExpression <$> bind_value_expression cat schema e expected "field"
  | SetMatch d => SetMatch <$> bind_assignment cat schema expected d
  end.

(** The loop of [bind_update_operation]: [paths] are the ones before. *)
Fixpoint bind_sets (cat : Catalog) (schema : Columns) (paths : list string) (assignments : list SetAssignment) : result (list SetAssignment) :=
  match assignments with
  | [] => Ok []
  | a :: assignments =>
      if existsb (λ earlier, paths_overlap earlier (sa_path a)) paths then Err "E_QUERY"
      else
        expected ← field_type cat schema (sa_path a);
        v ← bind_set_value cat schema expected (sa_value a);
        rest ← bind_sets cat schema (paths ++ [sa_path a]) assignments;
        Ok (mkSetAssignment (sa_path a) v :: rest)
  end.

(** The schema, the row type and the bound assignments. *)
Definition bind_update_operation (db : Database) (name : string) (assignments : list SetAssignment) : result (Columns * ScalarType * list SetAssignment) :=
  t ← table db name;
  assignments ← bind_sets (db_catalog db) (tbl_schema t) [] assignments;
  Ok (tbl_schema t, match tbl_row_type t with Some id => TRef id | None => TRecord (tbl_schema t) end, assignments).

Definition evaluate_set (cat : Catalog) (original : Fields) (v : SetValue) : eval Value :=
  match v with
  | SetExpression e => evaluate_derive cat e (row_field original)
  | SetMatch d => evaluate_match_assignment cat original d
  end.

(** The new values, all computed from the original row. *)
Fixpoint evaluate_sets (cat : Catalog) (schema : Columns) (original : Fields) (assignments : list SetAssignment) : eval (list (string * Value)) :=
  match assignments with
  | [] => eret []
  | a :: assignments =>
      elift (field_type cat schema (sa_path a)) (λ expected,
        ebind (evaluate_set cat original (sa_value a)) (λ value,
          elift (coerce cat value expected) (λ value,
            ebind (evaluate_sets cat schema original assignments) (λ rest, eret ((sa_path a, value) :: rest)))))
  end.

Definition set_fields (original : Fields) (values : list (string * Value)) : result Fields :=
  foldR (λ fields e, set_row_field fields e.1 e.2) original values.

Definition update_row (cat : Catalog) (schema : Columns) (row_type : ScalarType) (assignments : list SetAssignment) (before : Row) : eval Row :=
  ebind (evaluate_sets cat schema (row_fields before) assignments) (λ values,
    elift (set_fields (row_fields before) values) (λ fields,
      elift (coerce cat (VRecord fields) row_type) (λ checked,
        match unwrapped checked with
        | VRecord fields => eret (mkRow (row_id before) fields)
        | _ => elift (Err PANIC) eret
        end))).

(** The loop over the targets. *)
Fixpoint update_targets (cat : Catalog) (schema : Columns) (row_type : ScalarType) (assignments : list SetAssignment)
    (targets : list Z) (rows : list Row) (changes : list RowChange) : eval (list Row * list RowChange) :=
  match targets with
  | [] => eret (rows, changes)
  | id :: targets =>
      elift (row_position rows id) (λ position,
        elift (ok_or (rows !! position) PANIC) (λ before,
          ebind (update_row cat schema row_type assignments before) (λ after,
            update_targets cat schema row_type assignments targets (<[position := after]> rows) (changes ++ [updated before after]))))
  end.

(** [update] on the rows that its target selects, in their order. *)
Definition update (db : Database) (name : string) (targets : list Z) (assignments : list SetAssignment) : result Database :=
  '(schema, row_type, assignments) ← bind_update_operation db name assignments;
  t ← table db name;
  '(rows, changes, _) ← update_targets (db_catalog db) schema row_type assignments targets (tbl_rows t) [] MAX_COLLECTION_PREDICATE_EVALUATIONS;
  replace_rows_and_indexes db name rows changes.

(** ** Schema operations *)

Record IndexComponent := mkComponentSpec { cs_column : string; cs_descending : bool }.

(** [entry(name).or_default().insert(key, x)]. *)
Definition insert_under {A} (name key : string) (x : A) (m : list (string * list (string * A))) : list (string * list (string * A)) :=
  bt_insert name (bt_insert key x (default [] (bt_get name m))) m.

Definition index_components (db : Database) (t : Table) (components : list IndexComponent)
    : result (list IndexComponentDefinition) :=
  '(_, definitions) ← foldR (λ '(seen, definitions) c,
    if bs_mem (cs_column c) seen then Err "E_INDEX_SHAPE"
    else
      _ ← field_type (db_catalog db) (tbl_schema t) (cs_column c);
      path ← field_path_ids (db_catalog db) (tbl_schema t) (cs_column c);
      Ok (bs_insert (cs_column c) seen, definitions ++ [mkIndexComponent (cs_column c) path (cs_descending c)]))
    ([], []) components;
  Ok definitions.

Definition with_index_id (id : Z) (d : IndexDefinition) : IndexDefinition :=
  mkIndexDefinition id (ix_table_id d) (ix_column d) (ix_field_path d) (ix_components d) (ix_kind d) (ix_predicate d).

Definition create_index (db : Database) (name : string) (components : list IndexComponent) (unique : bool)
    (predicate : option BoolExpression) : result Database :=
  bound ← match predicate with
          | Some e =>
              if unique then t ← table db name; Some <$> predicate_bind (db_catalog db) (tbl_schema t) e
              else Err "E_INDEX_PREDICATE"
          | None => Ok None
          end;
  if (zlen components =? 0) || (zlen components >? MAX_INDEX_COMPONENTS) then Err "E_INDEX_SHAPE"
  else
    t ← table db name;
    definitions ← index_components db t components;
    let d := mkIndexDefinition 0 (tbl_id t) "" [] definitions (if unique then Unique else Ordinary) bound in
    let shape := shape_key d in
    if bt_mem shape (indexes_of db name) then Err "E_INDEX_DUPLICATE"
    else
      posting ← build_index db name d;
      if unique && existsb (λ e, 1 <? zlen e.2) posting then Err "E_CONSTRAINT"
      else
        '(id, cat) ← allocate (db_catalog db);
        Ok (set_indexes (insert_under name shape posting (db_indexes db))
             (set_index_definitions (insert_under name shape (with_index_id id d) (db_index_definitions db))
                (set_catalog cat db))).

Definition create_table (db : Database) (name : string) (columns : Columns) (row_type : option Z) (key : option string)
    : result Database :=
  if bt_mem name (db_objects db) then Err "E_SCHEMA"
  else if bt_mem name (types (db_catalog db)) || bt_mem name (db_sequences db) then Err "E_SCHEMA"
  else
    _ ← match key with
        | Some key =>
            ty ← field_type (db_catalog db) columns key;
            u ← underlying (db_catalog db) ty;
            match u with TInt | TText | TUuid => Ok tt | _ => Err "E_TYPE" end
        | None => Ok tt
        end;
    '(id, cat) ← allocate (db_catalog db);
    let db := set_table name (mkTable id name columns [] 0 row_type key []) (set_catalog cat db) in
    match key with
    | Some key => create_index db name [mkComponentSpec key false] false None
    | None => Ok db
    end.

(** [Statement::CreateTable]. *)
Definition create_plain_table (db : Database) (name : string) (columns : Columns) : result Database :=
  '(ty, cat) ← resolve (db_catalog db) (TRecord columns) MAX_DEPTH;
  match ty with
  | TRecord columns => create_table (set_catalog cat db) name columns None None
  | _ => Err PANIC
  end.

(** [Statement::TypedTable]. *)
Definition create_typed_table (db : Database) (name row_type : string) (key : option string) (defaults : list TableDefault)
    : result Database :=
  def ← ok_or (bt_get row_type (types (db_catalog db))) "E_SCHEMA";
  ty ← underlying (db_catalog db) (def_ty def);
  match ty with
  | TRecord columns =>
      generators ← bind_generated_defaults db columns defaults;
      db ← create_table db name columns (Some (def_id def)) key;
      t ← ok_or (bt_get name (db_objects db)) PANIC;
      Ok (set_table name (mkTable (tbl_id t) (tbl_name t) (tbl_schema t) (tbl_rows t) (tbl_next_row_id t) (tbl_row_type t)
           (tbl_primary_key t) generators) db)
  | _ => Err "E_TYPE"
  end.

(** [Statement::DefineType]. *)
Definition define_type (db : Database) (name : string) (ty : ScalarType) : result Database :=
  if bt_mem name (db_objects db) || bt_mem name (db_sequences db) then Err "E_SCHEMA"
  else let '(r, cat) := define (db_catalog db) name ty in _ ← r; Ok (set_catalog cat db).

(** ** Statements *)

(** The mutating statements whose effect is modelled here; the target of an update or a
    delete is given by the row IDs that it selects, in their order. *)
Inductive Statement :=
  | CreateSequence (name : string) (start : Z)
  | DefineType (name : string) (ty : ScalarType)
  | CreateTable (name : string) (columns : Columns)
  | TypedTable (name row_type : string) (key : option string) (defaults : list TableDefault)
  | CreateReference (spec : ReferenceSpec)
  | DropReference (spec : ReferenceSpec)
  | CreateIndex (name : string) (components : list IndexComponent) (unique : bool) (predicate : option BoolExpression)
  | Insert (name : string) (values : Value)
  | InsertMany (name : string) (values : Value)
  | Upsert (name : string) (values : Value)
  | UpsertMany (name : string) (values : Value)
  | Update (name : string) (targets : list Z) (assignments : list SetAssignment)
  | Delete (name : string) (targets : list Z).

(** The arms of [execute_with_deadline]. *)
Definition execute_statement (clock : Z) (entropy : nat → option (list Z)) (db : Database) (s : Statement) : result Database :=
  match s with
  | CreateSequence name start => create_sequence db name start
  | DefineType name ty => define_type db name ty
  | CreateTable name columns => create_plain_table db name columns
  | TypedTable name row_type key defaults => create_typed_table db name row_type key defaults
  | CreateReference spec => create_reference db spec
  | DropReference spec => drop_reference db spec
  | CreateIndex name components unique predicate => create_index db name components unique predicate
  | Insert name values => insert clock entropy db name values
  | InsertMany name values => insert_many clock entropy db name values
  | Upsert name values => fst <$> upsert clock entropy db name values
  | UpsertMany name values => fst <$> upsert_many clock entropy db name values
  | Update name targets assignments => update db name targets assignments
  | Delete name targets => delete_rows db name targets
  end.

(** [Database::execute] of a mutating statement: the candidate is published on success only. *)
Definition execute (clock : Z) (entropy : nat → option (list Z)) (db : Database) (s : Statement) : result unit * Database :=
  match execute_statement clock entropy (begin_generation_request db) s with
  | Ok db' => (Ok tt, db')
  | Err e => (Err e, db)
  end.
End mutations.
