(* ===== verification/MatchSafety.v ===== *)
(** * Matches are safe once bound

    A match that [bind_match_predicate], [bind_match_derive] or [bind_assignment]
    accepts, run on a row of the declared columns, selects an arm and yields a
    boolean or a canonical value of the bound type, or a run-time error; never a
    type error, a missing binding or the error for a match without a branch. *)
From Stdlib Require Import Ascii.
From S2P Require Import Prelude Bytes Text Utf8 Decimal Temporal Float64 FloatArith BTree Scalars Model Coerce OrderedKey Codec Matching Coverage Catalog Schema Expression Typing EvalOps Soundness Query MatchResult.

#[local] Strategy 1000 [MAX_DEPTH underlying field_type coerce cmp_typed].

(** ** Types *)

(** A property of a type and of all types inside it. *)
Fixpoint every (P : ScalarType → Prop) (ty : ScalarType) : Prop :=
  P ty ∧
  match ty with
  | TEnum variants => foldr (λ v Q, foldr (λ t R, every P t ∧ R) True (var_args v) ∧ Q) True variants
  | TRecord columns => foldr (λ c Q, every P (col_ty c) ∧ Q) True columns
  | TTuple items => foldr (λ t Q, every P t ∧ Q) True items
  | TOption t | TList t | TMap t => every P t
  | _ => True
  end.

Lemma foldr_and {A} (P : A → Prop) l : foldr (λ x Q, P x ∧ Q) True l ↔ Forall P l.
Proof. induction l as [|x l IH]; simpl; [done|]. rewrite list.Forall_cons, IH. done. Qed.

Section safety.
Context (names : Z → string) (arguments : Z → list ScalarType) (cat : Catalog).

(** Variant IDs determine the argument types of variants, fields have names, and
    defaults are values of their field. *)
Definition declared (ty : ScalarType) : Prop :=
  match ty with
  | TEnum variants => Forall (λ v, var_args v = arguments (var_id v)) variants
  | TRecord columns =>
      Forall (λ c, col_name c ≠ EmptyString ∧ ∀ v, col_default c = Some v → has_type cat (col_ty c) v) columns
  | TNamed _ => False
  | _ => True
  end.

Definition declared_type (ty : ScalarType) : Prop := good_type names ty ∧ every declared ty.
Definition declared_catalog : Prop :=
  good_catalog names cat ∧ Forall (λ e, every declared (def_ty e.2)) (types cat).

Context (Hcat : declared_catalog).
Local Notation good := (good_type names).

Lemma declared_column columns c : declared_type (TRecord columns) → c ∈ columns →
  declared_type (col_ty c) ∧ col_name c ≠ EmptyString ∧ ∀ v, col_default c = Some v → has_type cat (col_ty c) v.
Proof.
  intros [Hg [Hd He]] Hc. cbn in Hd. apply foldr_and in He. rewrite list.Forall_forall in Hd, He.
  destruct (Hd c Hc). split_and!; [split; [by eapply good_column|by apply He]|done..].
Qed.

Lemma declared_variant variants v : declared_type (TEnum variants) → v ∈ variants →
  var_args v = arguments (var_id v) ∧ Forall declared_type (var_args v).
Proof.
  intros [Hg [Hd He]] Hv. cbn in Hd. apply foldr_and in He. rewrite list.Forall_forall in Hd, He.
  split; [by apply Hd|]. specialize (He v Hv). apply foldr_and in He. destruct (good_variant _ _ _ Hg Hv) as [_ Ha].
  rewrite list.Forall_forall in *. split; auto.
Qed.

Lemma declared_items items : declared_type (TTuple items) → Forall declared_type items.
Proof.
  intros [Hg [_ He]]. apply foldr_and in He. pose proof (good_items _ _ Hg) as Ha. rewrite list.Forall_forall in *. split; auto.
Qed.

Lemma declared_option t : declared_type (TOption t) → declared_type t.
Proof. intros [[? ?] [_ ?]]. by split. Qed.

Lemma declared_list t : declared_type (TList t) → declared_type t.
Proof. intros [[? ?] [_ ?]]. by split. Qed.

Lemma declared_definition id d : definition cat id = Ok d → declared_type (def_ty d).
Proof.
  intros Hd. split; [by eapply good_definition; [apply Hcat|]|]. apply definition_Ok in Hd as (name & Hin & _).
  destruct Hcat as [_ He]. rewrite list.Forall_forall in He. exact (He _ Hin).
Qed.

Lemma declared_loop n ty u : declared_type ty → underlying_loop n cat ty = Ok u → declared_type u.
Proof.
  revert ty. induction n as [|n IH]; intros ty Ht H; [done|]. cbn [underlying_loop] in H.
  destruct ty; try (by injection H as <-). apply bind_Ok in H as (d & Hd & H). eapply IH; [|done]. by eapply declared_definition.
Qed.

Lemma declared_underlying ty u : declared_type ty → underlying cat ty = Ok u → declared_type u.
Proof. apply declared_loop. Qed.

(** Types with the same variants by ID are the same. *)
Lemma same_type_refl : ∀ ty, every declared ty → same_type ty ty = true.
Proof.
  fix go 1. intros ty H. destruct ty; destruct H as [Hd He]; cbn [same_type]; try done.
  - by rewrite !Z.eqb_refl.
  - clear Hd. induction variants as [|v vs IH]; [done|]. cbn [foldr] in He. destruct He as [Hv He]. cbn [all2].
    rewrite (IH He), Z.eqb_refl, andb_true_r. clear IH He. destruct v as [n args i]. cbn [var_args] in *.
    induction args as [|t ts IHt]; [done|]. destruct Hv as [Ht Hv]. cbn [all2]. by rewrite (go t Ht), (IHt Hv).
  - clear Hd. induction columns as [|c cs IH]; [done|]. destruct He as [Hc He]. cbn [all2]. rewrite (IH He), String.eqb_refl, andb_true_r.
    destruct c as [n t d i]. exact (go t Hc).
  - clear Hd. induction items as [|t ts IH]; [done|]. destruct He as [Ht He]. cbn [all2]. by rewrite (go t Ht), (IH He).
  - by apply go.
  - by apply go.
  - by apply go.
  - by apply Z.eqb_refl.
Qed.

Lemma match_same_type_same : ∀ a b, every declared a → every declared b → match_same_type a b = true → same_type a b = true.
Proof.
  fix go 1. intros a b Ha Hb H. destruct a, b; try discriminate H; destruct Ha as [Ha Ea], Hb as [Hb Eb]; cbn [match_same_type same_type] in *; try done.
  - apply foldr_and in Ea. cbn [declared] in Ha, Hb. apply all2_Forall2 in H. apply all2_Forall2.
    apply list.Forall2_same_length_lookup_2; [by eapply Forall2_length|]. intros i x y Hx Hy.
    pose proof (Forall2_lookup_lr _ _ _ _ _ _ H Hx Hy) as Hxy. apply list_elem_of_lookup_2 in Hx, Hy.
    rewrite list.Forall_forall in Ha, Hb, Ea. cbn beta in Hxy. apply andb_true_iff in Hxy as [_ Hxy]. rewrite Hxy. apply Z.eqb_eq in Hxy.
    rewrite (Hb y Hy), <-Hxy, <-(Ha x Hx). specialize (Ea x Hx). apply foldr_and in Ea.
    clear -Ea. induction Ea as [|t ts Ht _ IH]; [done|]. cbn [all2]. by rewrite (same_type_refl t Ht), IH.
  - clear Ha Hb. revert columns0 Eb H. induction columns as [|x xs IH]; intros [|y ys] Eb H; try done. cbn [all2 foldr] in *. bool_inv.
    destruct Ea as [Ex Ea], Eb as [Ey Eb]. apply andb_true_iff. split; [|by apply IH]. apply andb_true_iff. split; [by apply String.eqb_eq|].
    destruct x as [n t d i]. by apply go.
  - clear Ha Hb. revert items0 Eb H. induction items as [|x xs IH]; intros [|y ys] Eb H; try done. cbn [all2 foldr] in *. bool_inv.
    destruct Ea as [Ex Ea], Eb as [Ey Eb]. apply andb_true_iff. split; [by apply go|by apply IH].
  - by apply go.
  - by apply go.
  - by apply go.
Qed.

Lemma match_same_type_has_type a b v :
  declared_type a → declared_type b → match_same_type a b = true → has_type cat b v → has_type cat a v.
Proof.
  intros [Ga Ea] [Gb Eb] H Hv. eapply (same_type_has_type names); [exact Gb|exact Ga| |exact Hv].
  by apply same_type_sym, match_same_type_same.
Qed.

(** ** Results before their final coercion *)

(** Coercing the value to the type can only hit a limit. *)
Definition raw (ty : ScalarType) (v : Value) : Prop :=
  wf_value v = true ∧ ∀ n, safe (λ _, True) (coerce_inner n cat v ty).

Lemma raw_coerce ty v : good ty → raw ty v → safe (has_type cat ty) (coerce cat v ty).
Proof.
  intros [Ht _] [Hw Hs]. unfold coerce. generalize MAX_DEPTH. intros n. specialize (Hs n). destruct (coerce_inner n cat v ty) as [w|e] eqn:E; [|exact Hs].
  destruct (coerce_inner_sound _ _ _ _ _ (proj1 (proj1 Hcat)) Ht Hw E) as [Hc Hwf]. split; [by exists n|done].
Qed.

Lemma raw_has_type ty v : good ty → has_type cat ty v → raw ty v.
Proof.
  intros [Hw _] [[f Hc] Hv]. split; [done|]. intros n. destruct (coerce_inner_fuel n (Nat.max n f) cat v ty ltac:(lia)) as [->| <-]; [done|].
  rewrite (coerce_inner_stable (Nat.max n f)); [done|apply Hcat|done..|]. eapply conforms_le; [|done]. lia.
Qed.

(** Through the names of a type. *)
Lemma raw_through k ty u v :
  underlying_loop k cat ty = Ok u → raw u v →
  (∀ j id d, definition cat id = Ok d → underlying_loop j cat (def_ty d) = Ok u → coerce_raw d id v = Ok v) → raw ty v.
Proof.
  intros Hu [Hw Hr] Hraw. split; [done|]. intros n. revert k ty Hu. induction n as [|n IH]; intros k ty Hu; [done|].
  destruct k as [|k]; [done|]. cbn [underlying_loop] in Hu.
  assert ((∃ id, ty = TRef id) ∨ u = ty) as [[id ->]| ->] by (destruct ty; simplify_eq; eauto); [|apply Hr].
  apply bind_Ok in Hu as (d & Hd & Hu). cbn [coerce_inner]. rewrite Hd. cbn [mbind result_bind].
  rewrite (Hraw _ _ _ Hd Hu). cbn [mbind result_bind]. eapply safe_fmap; [by eapply IH|done].
Qed.

(** Values that are not named and not constructors. *)
Lemma raw_plain ty u v :
  underlying cat ty = Ok u → raw u v → match v with VNamed _ _ | VEnum _ _ _ => False | _ => True end → raw ty v.
Proof. intros Hu Hr Hv. eapply raw_through; [exact Hu|done|]. intros. by destruct v. Qed.

Lemma raw_served ty t v : good ty → good t → serves cat ty t → has_type cat ty v → raw t v.
Proof.
  intros Hty Ht [Hs|(Hf & u & Hu & Hs)] Hv.
  - apply raw_has_type; [done|]. eapply (same_type_has_type names); [exact Hty|exact Ht|done..].
  - split; [apply Hv|]. intros n. eapply (coerce_raw_of_safe names cat (proj1 Hcat)); [apply Ht|exact Hu|].
    apply (has_type_raw cat); [|by destruct ty, u].
    eapply (same_type_has_type names); [exact Hty|eapply good_underlying'; [apply Hcat|done..]|done..].
Qed.

Lemma raw_bool ty b : require_bool cat ty = Ok tt → raw ty (VBool b).
Proof.
  unfold require_bool. intros H. apply require_underlying_Ok in H as (u & Hu & Hb). eapply raw_plain; [exact Hu| |done]. destruct u; try discriminate Hb. split; [done|]. by intros [|n].
Qed.

Lemma safe_mapR {A B} (f : A → result B) l : Forall (λ x, safe (λ _, True) (f x)) l → safe (λ _, True) (mapR f l).
Proof.
  induction 1 as [|x l Hx _ IH]; [done|]. cbn [mapR]. eapply safe_bind; [exact Hx|]. intros y _. by eapply safe_bind; [exact IH|].
Qed.

Lemma safe_zip n tys vs : Forall2 raw tys vs → safe (λ _, True) (mapR (λ '(v, t), coerce_inner n cat v t) (zip vs tys)).
Proof.
  intros H. apply safe_mapR. induction H as [|t v tys vs [_ Hv] _ IH]; constructor; [apply Hv|done].
Qed.

Lemma raw_items_wf tys vs : Forall2 raw tys vs → forallb wf_value vs = true.
Proof. induction 1 as [|t v tys vs [Hv _] _ IH]; [done|]. simpl. by rewrite Hv, IH. Qed.

Lemma raw_tuple tys vs : Forall2 raw tys vs → raw (TTuple tys) (VTuple vs).
Proof.
  intros H. split; [exact (raw_items_wf _ _ H)|]. intros [|n]; [done|]. cbn [coerce_inner].
  replace (zlen vs) with (zlen tys) by (unfold zlen; apply Forall2_length in H; lia). rewrite Z.eqb_refl.
  eapply safe_fmap; [by apply safe_zip|done].
Qed.

Lemma raw_list t vs : Forall (raw t) vs → raw (TList t) (VList vs).
Proof.
  intros H. split.
  - simpl. apply forallb_Forall. eapply list.Forall_impl; [exact H|]. by intros v [? _].
  - intros [|n]; [done|]. cbn [coerce_inner]. eapply safe_fmap; [|done]. apply safe_mapR. eapply list.Forall_impl; [exact H|]. intros v [_ Hv]. apply Hv.
Qed.

(** ** Constructors *)

(** A constructor name that evaluation resolves as binding does: it is not the name of
    a type other than a record type, and its qualifier is the enum type itself
    rather than another name for it. *)
Definition plain_constructor (name : string) : Prop :=
  wf_string name = true ∧
  (∀ d, bt_get name (types cat) = Some d → ∃ columns, underlying cat (def_ty d) = Ok (TRecord columns)) ∧
  (∀ q n d, rsplit_once "."%char name = Some (q, n) → bt_get q (types cat) = Some d → ∃ variants, def_ty d = TEnum variants).

Lemma underlying_loop_det n m ty u u' : underlying_loop n cat ty = Ok u → underlying_loop m cat ty = Ok u' → u' = u.
Proof.
  revert m ty. induction n as [|n IH]; intros [|m] ty Hn Hm; try done. cbn [underlying_loop] in *.
  destruct ty; try congruence. apply bind_Ok in Hn as (d & Hd & Hn). rewrite Hd in Hm. by eapply IH.
Qed.

Lemma definition_named id d : definition cat id = Ok d → bt_get (def_name d) (types cat) = Some d.
Proof.
  intros (name & Hin & _)%definition_Ok. destruct Hcat as [[Hw _] _]. unfold wf_catalog in Hw. bool_inv.
  match goal with H : forallb _ (types cat) = true |- _ => rewrite forallb_Forall, list.Forall_forall in H; specialize (H _ Hin) end.
  simpl in *. bool_inv. subst. by apply bt_get_iff.
Qed.

(** The names of a type do not hide a constructor. *)
Lemma plain_constructor_raw name args u :
  plain_constructor name → match u with TRecord _ => False | _ => True end →
  ∀ j id d, definition cat id = Ok d → underlying_loop j cat (def_ty d) = Ok u → coerce_raw d id (VEnum name args 0) = Ok (VEnum name args 0).
Proof.
  intros (_ & Hn & _) Hu j id d Hd Hj. unfold coerce_raw. destruct args as [|[] [|]]; try done.
  destruct (String.eqb_spec name (def_name d)) as [->|]; [|done]. apply definition_named in Hd. destruct (Hn _ Hd) as [columns Hc].
  pose proof (underlying_loop_det _ _ _ _ _ Hj Hc). by subst u.
Qed.

Lemma resolve_coerce variants name tag args display :
  wf_type (TEnum variants) = true → plain_constructor name →
  resolve_constructor cat (SourceEnum variants) name = Ok (tag, args, display) →
  ∃ v, coerce_variant cat variants name 0 = Ok v ∧ v ∈ variants ∧ var_args v = args.
Proof.
  intros Hw (_ & _ & Hq) H. cbn [resolve_constructor] in H. unfold coerce_variant.
  destruct (rsplit_once _ name) as [[q n]|] eqn:Er; apply bind_Ok in H as (x & Hx & H); apply bind_Ok in H as (v & Hv & [= <- <- <-]);
    apply ok_or_Ok in Hv; pose proof (find_Some_elem _ _ _ Hv) as [Hin _]; exists v; (split; [|done]).
  - apply bind_Ok in Hx as (ok & Hx & Hok). destruct ok; [clear Hok|done]. unfold qualifier_matches_enum in Hx. apply bind_Ok in Hx as (d & Hd & Hx).
    rewrite ok_or_Ok in Hd. rewrite Hd. cbn [ok_or mbind result_bind]. destruct (Hq q n d eq_refl Hd) as [expected He].
    rewrite He in *. rewrite underlying_prim in Hx by done. cbn [mbind result_bind] in Hx. apply Ok_inj in Hx. bool_inv.
    assert (Hid : ∃ e, e ∈ expected ∧ var_id e = var_id v).
    { apply list_elem_of_lookup in Hin as [i Hi]. assert (∃ e, expected !! i = Some e) as [e He'].
      { apply lookup_lt_is_Some. apply lookup_lt_Some in Hi. unfold zlen in *. lia. }
      exists e. split; [by eapply list_elem_of_lookup_2|].
      match goal with Hz : forallb _ (zip _ _) = true |- _ => rewrite forallb_Forall, list.Forall_lookup in Hz; specialize (Hz i (e, v)) end.
      rewrite lookup_zip_with, He', Hi in *. simpl in *. match goal with Hz : _ → _ |- _ => specialize (Hz eq_refl) end. by apply Z.eqb_eq. }
    destruct Hid as (e & Hine & Eid). destruct (wf_type_variant _ _ Hw Hin) as (Hne & _).
    replace (existsb _ expected) with true; [by rewrite Hv|]. symmetry. apply existsb_exists. exists e. split; [by apply list_elem_of_In|].
    apply existsb_exists. exists v. split; [by apply list_elem_of_In|]. rewrite Eid. apply andb_true_iff. split; [|by apply Z.eqb_refl].
    by apply negb_true_iff, Z.eqb_neq.
  - cbn [mbind result_bind]. by rewrite Hv.
Qed.

Lemma raw_constructor ty name args vs :
  declared_type ty → plain_constructor name → constructor_arguments cat ty name = Ok args → Forall2 raw args vs →
  raw ty (VEnum name vs 0).
Proof.
  intros Hty Hp H Hvs. unfold constructor_arguments in H. apply bind_Ok in H as (u & Hu & H).
  assert (Hwf : wf_value (VEnum name vs 0) = true) by (cbn [wf_value]; rewrite (proj1 Hp), (raw_items_wf _ _ Hvs); done).
  assert (Hr : raw u (VEnum name vs 0)).
  { split; [exact Hwf|]. intros [|n]; [done|]. cbn [coerce_inner]. destruct u; try discriminate H.
    - apply bind_Ok in H as ([[tag a] display] & H & [= ->]). destruct (declared_underlying _ _ Hty Hu) as [[Hw _] _].
      destruct (resolve_coerce _ _ _ _ _ Hw Hp H) as (v & -> & _ & Ea). cbn [mbind result_bind]. rewrite Ea.
      replace (zlen args) with (zlen vs) by (unfold zlen; apply Forall2_length in Hvs; lia). rewrite Z.eqb_refl. cbn [negb].
      eapply safe_bind; [by apply safe_zip|done].
    - destruct (String.eqb_spec name "None") as [->|]; [injection H as <-; by apply Forall2_nil_inv_l in Hvs as ->|].
      destruct (String.eqb_spec name "Some") as [->|]; [|done]. injection H as <-.
      apply Forall2_cons_inv_l in Hvs as (v & ? & [_ Hv] & ->%Forall2_nil_inv_l & ->). eapply safe_fmap; [apply Hv|done]. }
  eapply raw_through; [exact Hu|exact Hr|]. intros. eapply plain_constructor_raw; [done| |done..]. by destruct u.
Qed.

(** ** Records *)

Lemma foldR_safe (f : ColumnOf ScalarType → result Value) columns acc :
  (∀ c, c ∈ columns → safe (λ _, True) (f c)) →
  safe (λ _, True) (foldR (λ out c, v ← f c; Ok (bt_insert (col_name c) v out)) acc columns).
Proof.
  revert acc. induction columns as [|c columns IH]; intros acc Hf; [done|]. cbn [foldR]. eapply (safe_bind (λ _, True)); [|intros; apply IH; intros; apply Hf; by right].
  eapply safe_bind; [apply Hf; by left|done].
Qed.

Lemma raw_record columns fields :
  bt_sorted fields = true → (∀ k v, (k, v) ∈ fields → ∃ c, c ∈ columns ∧ col_name c = k) →
  Forall (λ c, wf_string (col_name c) = true) columns → NoDup (col_name <$> columns) →
  (∀ c, c ∈ columns → ∃ v, bt_get (col_name c) fields = Some v ∧ raw (col_ty c) v) → raw (TRecord columns) (VRecord fields).
Proof.
  intros Hs Hk Hwn Hn Hc. rewrite list.Forall_forall in Hwn. split.
  - cbn [wf_value]. rewrite Hs. apply forallb_Forall, list.Forall_forall. intros [k v] Hkv. destruct (Hk _ _ Hkv) as (c & Hin & <-).
    destruct (Hc c Hin) as (w & Hw & [Hwf _]). apply bt_get_iff in Hkv; [|done]. cbn [fst snd]. rewrite Hkv in Hw. injection Hw as ->.
    by rewrite (Hwn c Hin), Hwf.
  - intros [|n]; [done|]. cbn [coerce_inner]. eapply safe_bind.
    + apply foldR_safe. intros c Hin. destruct (Hc c Hin) as (v & -> & [_ Hv]). apply Hv.
    + intros out _. replace (existsb _ fields) with false; [done|]. symmetry. apply not_true_iff_false. intros ((k & v) & Hkv & Hx)%existsb_exists.
      apply list_elem_of_In in Hkv. destruct (Hk _ _ Hkv) as (c & Hin & <-). apply negb_true_iff, not_true_iff_false in Hx. apply Hx.
      apply existsb_exists. exists c. split; [by apply list_elem_of_In|]. apply String.eqb_refl.
Qed.
(** ** Evaluation of bound results *)

Definition payload_values (P : MatchValue → Prop) (payload : MatchValuePayload) : Prop :=
  match payload with
  | MVUnit => True
  | MVFields fields => Forall (λ e, P e.2) fields
  | MVPositional items => Forall P items
  end.

Lemma MatchValue_nested_ind (P : MatchValue → Prop) :
  (∀ path, P (MVBinding path)) → (∀ v, P (MVLiteral v)) → (∀ e, P (MVExpression e)) →
  (∀ name payload, payload_values P payload → P (MVConstructor name payload)) →
  (∀ fields, Forall (λ e, P e.2) fields → P (MVRecord fields)) →
  (∀ items, Forall P items → P (MVTuple items)) → (∀ items, Forall P items → P (MVList items)) → ∀ v, P v.
Proof.
  intros Hb Hl He Hc Hr Ht Hli. fix go 1.
  intros [path|v|e|name payload|fields|items|items]; [apply Hb|apply Hl|apply He|apply Hc|apply Hr|apply Ht|apply Hli].
  - destruct payload as [|fields|items]; simpl; [exact I| |].
    + induction fields as [|[n v] fields IH]; constructor; [apply go|exact IH].
    + induction items as [|v items IH]; constructor; [apply go|exact IH].
  - induction fields as [|[n v] fields IH]; constructor; [apply go|exact IH].
  - induction items as [|v items IH]; constructor; [apply go|exact IH].
  - induction items as [|v items IH]; constructor; [apply go|exact IH].
Qed.

(** The literals, expressions and constructor names of a parsed result. *)
Fixpoint value_ok (v : MatchValue) : Prop :=
  match v with
  | MVBinding _ => True
  | MVLiteral v => wf_value v = true
  | MVExpression e => bool_ok names cat e
  | MVConstructor name payload =>
      plain_constructor name ∧
      match payload with
      | MVUnit => True
      | MVFields fields => foldr (λ e P, value_ok e.2 ∧ P) True fields
      | MVPositional items => foldr (λ v P, value_ok v ∧ P) True items
      end
  | MVRecord fields => foldr (λ e P, value_ok e.2 ∧ P) True fields
  | MVTuple items | MVList items => foldr (λ v P, value_ok v ∧ P) True items
  end.

Section bound.
Context `{TL : TextLib} {Laws : TextLibLaws}.
Context (scope : Columns) (bindings : list (string * Value)).
Context (Hscope : scope_ok names scope) (Henv : typed_env cat scope (binding_value bindings)).
Context (Hdecl : ∀ path ty, field_type cat scope path = Ok ty → declared_type ty).
Local Notation evaluates := (λ ty v, safeE (raw ty) (evaluate_result cat bindings ty v)).

(** The field or element was bound at its type. *)
Definition value_sound (v : MatchValue) : Prop :=
  ∀ ty v', declared_type ty → bind_result cat scope ty v = Ok v' → evaluates ty v'.

Lemma expression_sound e ty e' :
  declared_type ty → bool_ok names cat e → bind_value_expression cat scope e ty "match binding" = Ok e' →
  safeE (raw ty) (evaluate_derive cat e' (binding_value bindings)).
Proof.
  intros [Hg _] Hok H. assert ((∃ v, e = BValue v) ∨ (∀ v, e ≠ BValue v)) as [[v ->]|Hne] by (destruct e; eauto; right; done).
  - cbn [bind_value_expression] in H. apply bind_Ok in H as ([v' tv] & Hb & [= <-]).
    destruct (scalar_sound names cat (proj1 Hcat) scope "match binding" Hscope _ Henv v Hok (Some ty) v' tv) as (Hgv & Hsv & Hv); [by intros ? [= <-]|done|].
    cbn [evaluate_derive]. unfold evaluate_scalar_value. eapply safeE_bind; [exact Hv|]. intros o (w & -> & Hw).
    cbn [ok_or]. apply safeE_ret. exact (raw_served tv ty w Hgv Hg (Hsv ty eq_refl) Hw).
  - assert (Hb : ∃ x, require_bool cat ty = Ok x ∧ bind_in_scope cat scope e "match binding" = Ok e').
    { destruct e; try (by destruct (Hne _ eq_refl)); unfold bind_value_expression in H; apply bind_Ok in H as (x & Hx & H); eauto. }
    destruct Hb as ([] & Hrb & Hb). pose proof (bool_sound names cat (proj1 Hcat) e scope _ _ e' Hscope Henv Hok Hb) as Hs.
    assert (Hne' : ∀ v, e' ≠ BValue v).
    { intros v ->. clear -Hb Hne. destruct e; try (by destruct (Hne _ eq_refl)); cbn [bind_in_scope] in Hb;
      repeat (res_inv; repeat match goal with x : (_ * _)%type |- _ => destruct x end; try (case_if_in Hb; [discriminate Hb|])); discriminate Hb. }
    assert (E : evaluate_derive cat e' (binding_value bindings) = ebind (evaluate cat e' (binding_value bindings)) (λ b, eret (VBool b)))
      by (destruct e'; try done; by destruct (Hne' _ eq_refl)).
    rewrite E. eapply safeE_bind; [exact Hs|]. intros b _. apply safeE_ret. by apply raw_bool.
Qed.

Lemma results_sound values tys values' :
  Forall value_sound values → Forall declared_type tys → length values = length tys →
  bind_results (bind_result cat scope) values tys = Ok values' →
  safeE (Forall2 raw tys) (evaluate_results (evaluate_result cat bindings) values' tys).
Proof.
  intros Hv. revert tys values'. induction Hv as [|v values Hv _ IH]; intros [|ty tys] values' Ht Hl H; try done.
  - injection H as <-. apply safeE_ret. constructor.
  - cbn [bind_results] in H. apply bind_Ok in H as (v' & Hv' & H). apply bind_Ok in H as (vs' & Hvs & [= <-]).
    apply list.Forall_cons in Ht as [Hty Ht]. injection Hl as Hl. cbn [evaluate_results].
    eapply safeE_bind; [by apply Hv|]. intros w Hw. eapply safeE_bind; [by apply (IH tys)|]. intros ws Hws. apply safeE_ret. by constructor.
Qed.

Lemma list_sound item values values' :
  Forall value_sound values → declared_type item → mapR (bind_result cat scope item) values = Ok values' →
  safeE (Forall (raw item)) (mapE (evaluate_result cat bindings item) values').
Proof.
  intros Hv Ht. revert values'. induction Hv as [|v values Hv _ IH]; intros values' H; cbn [mapR] in H.
  - injection H as <-. apply safeE_ret. constructor.
  - apply bind_Ok in H as (v' & Hv' & H). apply bind_Ok in H as (vs' & Hvs & [= <-]). cbn [mapE].
    eapply safeE_bind; [by apply Hv|]. intros w Hw. eapply safeE_bind; [by apply IH|]. intros ws Hws. apply safeE_ret. by constructor.
Qed.
(** A supplied field whose value binds soundly. *)
Definition field_sound (e : string * (ScalarType → result MatchValue)) : Prop :=
  ∀ ty v', declared_type ty → e.2 ty = Ok v' → evaluates ty v'.

Lemma remove_field_Some {A} name (supplied : list (string * A)) a rest :
  remove_field name supplied = Some (a, rest) → supplied ≡ₚ (name, a) :: rest.
Proof.
  revert rest. induction supplied as [|[n b] supplied IH]; intros rest H; cbn [remove_field] in H; [done|].
  destruct (String.eqb_spec n name) as [->|]; [by injection H as <- <-|].
  destruct (remove_field name supplied) as [[b' rest']|]; [|done]. injection H as -> <-. rewrite (IH _ eq_refl). apply list.Permutation_swap.
Qed.

Lemma order_fields_sound definitions supplied ordered rest :
  Forall field_sound supplied →
  Forall (λ c, declared_type (col_ty c) ∧ ∀ v, col_default c = Some v → has_type cat (col_ty c) v) definitions →
  order_fields supplied definitions = Ok (ordered, rest) →
  Forall2 (λ c e, e.1 = col_name c ∧ evaluates (col_ty c) e.2) definitions ordered.
Proof.
  intros Hs Hd. revert supplied ordered rest Hs. induction Hd as [|c definitions [Hc Hdef] _ IH]; intros supplied ordered rest Hs H; cbn [order_fields] in H.
  { injection H as <- <-. constructor. }
  apply bind_Ok in H as ([v supplied'] & Hv & H). apply bind_Ok in H as ([ordered' rest'] & H & [= <- <-]).
  assert (Forall field_sound supplied' ∧ evaluates (col_ty c) v) as [Hs' Hev].
  { destruct (remove_field (col_name c) supplied) as [[f r]|] eqn:E.
    - apply remove_field_Some in E. rewrite E in Hs. apply list.Forall_cons in Hs as [Hf Hr].
      apply bind_Ok in Hv as (w & Hw & [= <- <-]). split; [done|]. by apply (Hf (col_ty c)).
    - apply bind_Ok in Hv as (d & Hdf%ok_or_Ok & [= <- <-]). split; [done|]. cbn [evaluate_result]. apply safeE_ret.
      apply raw_has_type; [apply Hc|auto]. }
  constructor; [done|]. by eapply IH.
Qed.

Lemma evaluate_fields_sound definitions suffix ordered acc :
  NoDup (col_name <$> definitions) → NoDup (col_name <$> suffix) → (∀ c, c ∈ suffix → c ∈ definitions) →
  Forall2 (λ c e, e.1 = col_name c ∧ evaluates (col_ty c) e.2) suffix ordered → bt_sorted acc = true →
  (∀ k v, (k, v) ∈ acc → ∃ c, c ∈ definitions ∧ col_name c = k) →
  safeE (λ fields, bt_sorted fields = true ∧ (∀ k v, (k, v) ∈ fields → ∃ c, c ∈ definitions ∧ col_name c = k) ∧
    (∀ c, c ∈ suffix → ∃ v, bt_get (col_name c) fields = Some v ∧ raw (col_ty c) v) ∧
    (∀ k, k ∉ col_name <$> suffix → bt_get k fields = bt_get k acc))
    (evaluate_fields (evaluate_result cat bindings) definitions ordered acc).
Proof.
  intros Hn Hns Hsub Hf. revert acc. induction Hf as [|c [n v] suffix ordered [Hname Hv] _ IH]; intros acc Hs Hk; cbn [evaluate_fields].
  { apply safeE_ret. split_and!; try done. intros c Hc. by apply elem_of_nil in Hc. }
  cbn [fst snd] in Hname, Hv. subst n. apply list.NoDup_cons in Hns as [Hc Hns].
  rewrite (find_column_elem definitions c) by (try done; apply Hsub; by left). cbn [ok_or].
  change (safeE ?P (elift (Ok c) ?k)) with (safeE P (k c)). eapply safeE_bind; [exact Hv|]. intros w Hw.
  eapply safeE_impl; [apply IH; [done| |by apply bt_insert_sorted|]|].
  - intros c' Hc'. apply Hsub. by right.
  - intros k x [[= -> ->]|Hin]%bt_insert_elem; [|by eapply Hk]. exists c. split; [apply Hsub; by left|done].
  - intros fields (Hs' & Hk' & Hin & Hout). split_and!; [done|done| |].
    + intros c' [->|Hc']%elem_of_cons; [|auto]. exists w. rewrite Hout by done. by rewrite bt_get_insert_eq.
    + intros k [Hne Hk2]%not_elem_of_cons. rewrite Hout by done. by apply bt_get_insert_ne.
Qed.

Lemma record_sound ty fields fields' :
  Forall (λ e, value_sound e.2) fields → declared_type ty → bind_record_result cat (bind_result cat scope) ty fields = Ok fields' →
  safeE (raw ty) (evaluate_record cat (evaluate_result cat bindings) ty fields').
Proof.
  intros Hf Hty H. unfold bind_record_result in H. apply bind_Ok in H as (u & Hu & H). destruct u; try discriminate H.
  apply bind_Ok in H as ([ordered rest] & H & E). destruct rest; [|done]. injection E as <-.
  pose proof (declared_underlying _ _ Hty Hu) as Hd. pose proof (proj1 (proj1 Hd)) as Hw. destruct (wf_type_nodup_columns _ Hw) as [Hn _].
  assert (Hsound : Forall field_sound (map (λ '(n, v), (n, λ ty, bind_result cat scope ty v)) fields)).
  { clear -Hf. induction Hf as [|[n v] fields Hv _ IH]; constructor; [exact Hv|exact IH]. }
  apply order_fields_sound in H; [|done|].
  2:{ apply list.Forall_forall. intros c Hc. destruct (declared_column _ _ Hd Hc) as (? & _ & ?). done. }
  unfold evaluate_record. rewrite Hu. change (safeE ?P (elift (Ok (TRecord columns)) ?k)) with (safeE P (k (TRecord columns))).
  cbn beta iota. eapply safeE_bind; [apply (evaluate_fields_sound columns columns); try done; intros ? ? []%elem_of_nil|].
  intros values (Hs & Hk & Hin & _). apply safeE_ret. eapply raw_plain; [exact Hu| |done]. apply raw_record; try done.
  apply list.Forall_forall. intros c Hc. by destruct (wf_type_column _ _ Hw Hc).
Qed.

Lemma payload_sound args payload payload' :
  payload_values value_sound payload → Forall declared_type args → bind_value_payload cat (bind_result cat scope) args payload = Ok payload' →
  safeE (Forall2 raw args) (evaluate_value_payload cat (evaluate_result cat bindings) args payload').
Proof.
  intros Hp Ha H. destruct payload as [|fields|values]; cbn [bind_value_payload] in H.
  - destruct args; [|done]. injection H as <-. apply safeE_ret. constructor.
  - destruct args as [|ty [|]]; try done. apply fmap_Ok in H as (fields' & H & ->). cbn [evaluate_value_payload].
    apply list.Forall_cons in Ha as [Ha _]. eapply safeE_bind; [by eapply record_sound|]. intros v Hv. apply safeE_ret. constructor; [exact Hv|constructor].
  - case_if_in H; [done|]. bool_inv. apply fmap_Ok in H as (values' & H & ->). cbn [evaluate_value_payload].
    eapply results_sound; try done. unfold zlen in *. lia.
Qed.

Lemma constructor_sound ty name payload payload' :
  payload_values value_sound payload → plain_constructor name → declared_type ty →
  bind_constructor_result cat (bind_result cat scope) ty name payload = Ok payload' →
  safeE (raw ty) (evaluate_constructor cat (evaluate_result cat bindings) ty name payload').
Proof.
  intros Hp Hname Hty H. unfold bind_constructor_result in H. apply bind_Ok in H as (named & Hn & H).
  unfold evaluate_constructor. rewrite Hn. change (safeE ?P (elift (Ok named) ?k)) with (safeE P (k named)). cbn beta. destruct named.
  - destruct payload; try done. apply fmap_Ok in H as (fields' & H & ->). by eapply record_sound.
  - apply bind_Ok in H as (args & Ha & H). rewrite Ha. change (safeE ?P (elift (Ok args) ?k)) with (safeE P (k args)). cbn beta.
    eapply safeE_bind; [eapply payload_sound; [done| |done]|].
    + unfold constructor_arguments in Ha. apply bind_Ok in Ha as (u & Hu & Ha). pose proof (declared_underlying _ _ Hty Hu) as Hd.
      destruct u; try discriminate Ha.
      * apply bind_Ok in Ha as ([[tag a] display] & Hr & [= ->]). cbn [resolve_constructor] in Hr.
        destruct (match rsplit_once _ _ with Some _ => _ | None => _ end) as [q n]. apply bind_Ok in Hr as (? & _ & Hr).
        apply bind_Ok in Hr as (v & Hv%ok_or_Ok & [= _ <- _]). apply find_Some_elem in Hv as [Hv _]. by eapply declared_variant.
      * case_if_in Ha; [injection Ha as <-; constructor|]. case_if_in Ha; [|done]. injection Ha as <-. constructor; [by apply declared_option|constructor].
    + intros vs Hvs. apply safeE_ret. by eapply raw_constructor.
Qed.
Lemma all_values_sound v : value_ok v → value_sound v.
Proof.
  induction v as [path|v|e|name payload IH|fields IH|items IH|items IH] using MatchValue_nested_ind;
    intros Hok ty v' Hty H; cbn [bind_result] in H.
  - apply bind_Ok in H as (actual & Ha & H). case_if_in H; [|done]. injection H as <-. unfold binding_type in Ha. apply map_err_Ok in Ha.
    destruct (Henv _ _ Ha) as (w & Hw & Hwt). cbn [evaluate_result]. rewrite Hw. cbn [ok_or]. apply safeE_ret.
    apply raw_has_type; [apply Hty|]. eapply match_same_type_has_type; [done| |done..]. by eapply Hdecl.
  - apply fmap_Ok in H as (w & Hw & ->). cbn [evaluate_result]. apply safeE_ret. apply raw_has_type; [apply Hty|].
    eapply coerce_result; [apply Hcat|apply Hty|exact Hok|exact Hw].
  - apply fmap_Ok in H as (e' & He & ->). cbn [evaluate_result]. by eapply expression_sound.
  - apply fmap_Ok in H as (payload' & Hp & ->). cbn [evaluate_result]. destruct Hok as [Hn Hok]. eapply constructor_sound; [|done|done|exact Hp].
    destruct payload as [|fields|items]; cbn [payload_values] in *; [done|..]; apply foldr_and in Hok; rewrite list.Forall_forall in *; auto.
  - apply fmap_Ok in H as (fields' & Hf & ->). cbn [evaluate_result]. eapply record_sound; [|done|exact Hf]. cbn [value_ok] in Hok.
    apply foldr_and in Hok. rewrite list.Forall_forall in *. auto.
  - apply bind_Ok in H as (u & Hu & H). destruct u; try discriminate H. case_if_in H; [done|]. bool_inv. apply fmap_Ok in H as (vs & Hvs & ->).
    cbn [evaluate_result]. rewrite Hu. change (safeE ?P (elift (Ok (TTuple items0)) ?k)) with (safeE P (k (TTuple items0))). cbn beta iota.
    cbn [value_ok] in Hok. apply foldr_and in Hok. eapply safeE_bind.
    + apply (results_sound items items0 vs); [|by apply declared_items, (declared_underlying _ _ Hty Hu)|unfold zlen in *; lia|done]. rewrite list.Forall_forall in *. auto.
    + intros ws Hws. apply safeE_ret. eapply raw_plain; [exact Hu|by apply raw_tuple|done].
  - apply bind_Ok in H as (u & Hu & H). destruct u as [| | | | | | | | | | | | | |t| | |]; try discriminate H. apply fmap_Ok in H as (vs & Hvs & ->).
    cbn [evaluate_result]. rewrite Hu. change (safeE ?P (elift (Ok (TList t)) ?k)) with (safeE P (k (TList t))). cbn beta iota.
    cbn [value_ok] in Hok. apply foldr_and in Hok. eapply safeE_bind.
    + apply (list_sound t items vs); [|by apply declared_list, (declared_underlying _ _ Hty Hu)|done]. rewrite list.Forall_forall in *. auto.
    + intros ws Hws. apply safeE_ret. eapply raw_plain; [exact Hu|by apply raw_list|done].
Qed.
End bound.

(** ** Bindings of a pattern *)

(** The names that a parsed pattern binds are identifiers. *)
Fixpoint pattern_plain (p : MatchPattern) : Prop :=
  match p with
  | PWildcard => True
  | PBinding name => no_dot name = true
  | PConstructor _ payload _ =>
      match payload with
      | PayUnit => True
      | PayRecord fields _ => foldr (λ e P, pattern_plain e.2 ∧ P) True fields
      | PayPositional ps => foldr (λ p P, pattern_plain p ∧ P) True ps
      end
  | PRecord fields _ => foldr (λ e P, pattern_plain e.2 ∧ P) True fields
  | PTuple ps => foldr (λ p P, pattern_plain p ∧ P) True ps
  end.

(** Names without dots, bound at declared types. *)
Definition scope_declared (bs : Columns) : Prop := Forall (λ c, declared_type (col_ty c) ∧ no_dot (col_name c) = true) bs.

Definition binds_declared (p : MatchPattern) : Prop :=
  ∀ ty p' bs, declared_type ty → bind_nested_pattern cat ty p = Ok (p', bs) → scope_declared bs.

Lemma scope_declared_concat infos : Forall scope_declared infos → scope_declared (concat infos).
Proof. induction 1; [constructor|]. simpl. by apply Forall_app. Qed.

Lemma bind_all_declared ps tys ps' infos :
  Forall binds_declared ps → Forall declared_type tys → bind_all (bind_nested_pattern cat) ps tys = Ok (ps', infos) → Forall scope_declared infos.
Proof.
  intros Hp. revert tys ps' infos. induction Hp as [|p ps Hp _ IH]; intros [|ty tys] ps' infos Ht H; try (by injection H as <- <-).
  cbn [bind_all] in H. apply bind_Ok in H as ([p' info] & Hb & H). apply bind_Ok in H as ([ps1 infos1] & H & [= <- <-]).
  apply list.Forall_cons in Ht as [? ?]. constructor; [by eapply Hp|by eapply IH].
Qed.

Lemma bind_fields_declared definitions fields seen fs infos seen' :
  Forall (λ e, binds_declared e.2) fields → declared_type (TRecord definitions) →
  bind_fields (bind_nested_pattern cat) definitions seen fields = Ok (fs, infos, seen') → Forall scope_declared infos.
Proof.
  intros Hf Hd. revert seen fs infos. induction Hf as [|[n p] fields Hp _ IH]; intros seen fs infos H; cbn [bind_fields] in H.
  { by injection H as <- <- <-. }
  case_if_in H; [done|]. apply bind_Ok in H as (d & Hc%ok_or_Ok & H). apply bind_Ok in H as ([p' info] & Hb & H).
  apply bind_Ok in H as ([[fs' infos'] seen2] & H & [= <- <- <-]). apply find_column_Some in Hc as [Hc _].
  constructor; [eapply Hp; [by eapply declared_column|done]|by eapply IH].
Qed.

Lemma bind_record_declared definitions fields rest fs info :
  Forall (λ e, binds_declared e.2) fields → declared_type (TRecord definitions) →
  bind_record_fields (bind_nested_pattern cat) definitions fields rest = Ok (fs, info) → scope_declared info.
Proof.
  intros Hf Hd H. unfold bind_record_fields in H. apply bind_Ok in H as ([[fs' infos] seen] & Hb & H). case_if_in H; [done|].
  apply bind_Ok in H as (info' & Hc & [= <- <-]). apply combine_patterns_Ok in Hc as [-> _]. apply scope_declared_concat. by eapply bind_fields_declared.
Qed.

Lemma bind_payload_declared args payload payload' info :
  payload_all binds_declared payload → Forall declared_type args →
  bind_payload cat (bind_nested_pattern cat) args payload = Ok (payload', info) → scope_declared info.
Proof.
  intros Hp Ha H. destruct payload as [|fields rest|ps]; cbn [bind_payload] in H.
  - case_if_in H; [|done]. injection H as <- <-. constructor.
  - destruct args as [|ty [|]]; try done. apply bind_Ok in H as (u & Hu & H). destruct u; try discriminate H.
    apply bind_Ok in H as ([fs info'] & H & [= <- <-]). apply list.Forall_cons in Ha as [Ha _].
    eapply bind_record_declared; [done| |done]. by eapply declared_underlying.
  - case_if_in H; [done|]. apply bind_Ok in H as ([ps' infos] & Hb & H). apply bind_Ok in H as (info' & Hc & [= <- <-]).
    apply combine_patterns_Ok in Hc as [-> _]. apply scope_declared_concat. by eapply bind_all_declared.
Qed.

Lemma constructor_declared ty source name tag args display :
  declared_type ty → match_source cat ty = Ok source → resolve_constructor cat source name = Ok (tag, args, display) → Forall declared_type args.
Proof.
  intros Hty Hs H. unfold match_source in Hs. apply bind_Ok in Hs as (u & Hu & Hs). pose proof (declared_underlying _ _ Hty Hu) as Hd.
  destruct u; try discriminate Hs; injection Hs as <-; cbn [resolve_constructor] in H.
  - destruct (match rsplit_once _ _ with Some _ => _ | None => _ end) as [q n]. apply bind_Ok in H as (? & _ & H).
    apply bind_Ok in H as (v & Hv%ok_or_Ok & [= _ <- _]). apply find_Some_elem in Hv as [Hv _]. by eapply declared_variant.
  - case_if_in H; [injection H as _ <- _; constructor|]. case_if_in H; [|done]. injection H as _ <- _. constructor; [by apply declared_option|constructor].
Qed.

Lemma all_binds_declared p : pattern_plain p → binds_declared p.
Proof.
  induction p as [|name|name payload tag Hp|fields rest Hf|ps Hps] using MatchPattern_nested_ind;
    intros Hok ty p' bs Hty H; cbn [bind_nested_pattern pattern_plain] in H, Hok.
  - injection H as <- <-. constructor.
  - injection H as <- <-. constructor; [done|constructor].
  - apply bind_Ok in H as (source & Hs & H). apply bind_Ok in H as ([[t args] dn] & Hr & H).
    apply bind_Ok in H as ([payload' info] & Hpay & [= <- <-]). eapply bind_payload_declared; [|by eapply constructor_declared|done].
    destruct payload as [|fields rest|ps]; cbn [payload_all] in *; [done|..]; apply foldr_and in Hok; rewrite list.Forall_forall in *; auto.
  - apply bind_Ok in H as (u & Hu & H). destruct u; try discriminate H. apply bind_Ok in H as ([fs info] & H & [= <- <-]).
    apply foldr_and in Hok. eapply bind_record_declared; [|by eapply declared_underlying|done]. rewrite list.Forall_forall in *. auto.
  - apply bind_Ok in H as (u & Hu & H). destruct u; try discriminate H. case_if_in H; [done|].
    apply bind_Ok in H as ([ps' infos] & Hb & H). apply bind_Ok in H as (info' & Hc & [= <- <-]).
    apply combine_patterns_Ok in Hc as [-> _]. apply scope_declared_concat. apply foldr_and in Hok.
    eapply bind_all_declared; [|by eapply declared_items, declared_underlying|done]. rewrite list.Forall_forall in *. auto.
Qed.
Lemma bind_arms_declared source_ty source patterns matrix budget arms matrix' budget' :
  declared_type source_ty → match_source cat source_ty = Ok source → Forall pattern_plain patterns →
  bind_arms cat source_ty source patterns matrix budget = Ok (arms, matrix', budget') →
  length arms = length patterns ∧ Forall (λ arm, scope_declared arm.2) arms.
Proof.
  intros Hty Hs Hp. revert matrix budget arms. induction Hp as [|p patterns Hp _ IH]; intros matrix budget arms H; cbn [bind_arms] in H.
  { injection H as <- <- <-. by split. }
  apply bind_Ok in H as ([p' bs] & Hb & H). apply bind_Ok in H as (c & _ & H). apply bind_Ok in H as ([useful b1] & _ & H).
  destruct useful; [|done]. apply bind_Ok in H as ([[arms' m'] b2] & H & [= <- <- <-]). apply IH in H as [Hl Hd].
  split; [simpl; lia|]. constructor; [|done]. apply (all_binds_declared p Hp source_ty p'); [done|].
  destruct p; cbn [bind_top_pattern bind_nested_pattern] in *; try done; [by case_if_in Hb|by case_if_in Hb|by rewrite Hs].
Qed.

Lemma bind_patterns_declared source_ty patterns bound :
  declared_type source_ty → Forall pattern_plain patterns → bind_patterns cat source_ty patterns = Ok bound →
  length bound = length patterns ∧ Forall (λ arm, scope_declared arm.2) bound.
Proof.
  intros Hty Hp H. unfold bind_patterns in H. revert H. generalize MAX_COVERAGE_STEPS. intros steps H.
  apply bind_Ok in H as (source & Hs & H). apply bind_Ok in H as ([[arms matrix] budget] & Ha & H).
  apply bind_Ok in H as ([o budget'] & _ & H). destruct o; [apply bind_Ok in H as (_ & _ & H); done|]. injection H as <-.
  by eapply bind_arms_declared.
Qed.

(** ** Values that a pattern binds *)

Definition wf_bindings (b : list (string * Value)) : Prop := Forall (λ e, wf_value e.2 = true) b.

Lemma unwrapped_wf v : wf_value v = true → wf_value (unwrapped v) = true.
Proof. induction v; simpl; try done. intros. bool_inv. auto. Qed.

Definition matches_wf (p : MatchPattern) : Prop :=
  ∀ v b b', wf_value v = true → wf_bindings b → match_value_pattern v p b = Some b' → wf_bindings b'.

Lemma match_all_wf ps vs b b' :
  Forall matches_wf ps → forallb wf_value vs = true → wf_bindings b → match_all match_value_pattern ps vs b = Some b' → wf_bindings b'.
Proof.
  intros Hp. revert vs b. induction Hp as [|p ps Hp _ IH]; intros [|v vs] b Hv Hb H; try (by injection H as <-).
  simpl in Hv. bool_inv. cbn [match_all] in H. apply bind_Some in H as (b1 & H1' & H). by eapply IH, H; [|eapply Hp].
Qed.

Lemma match_fields_wf record fields b b' :
  Forall (λ e, matches_wf e.2) fields → wf_value (VRecord record) = true → wf_bindings b →
  match_fields match_value_pattern record fields b = Some b' → wf_bindings b'.
Proof.
  intros Hf Hr. revert b. induction Hf as [|[n p] fields Hp _ IH]; intros b Hb H; [by injection H as <-|].
  cbn [match_fields] in H. apply bind_Some in H as (v & Hv & H). apply bind_Some in H as (b1 & H1' & H). eapply IH, H. eapply Hp, H1'; [|done].
  apply bt_get_elem in Hv. simpl in Hr. bool_inv. by eapply wf_entries_elem.
Qed.

Lemma match_payload_wf values payload b b' :
  payload_all matches_wf payload → forallb wf_value values = true → wf_bindings b →
  match_payload match_value_pattern values payload b = Some b' → wf_bindings b'.
Proof.
  intros Hp Hv Hb H. destruct payload as [|fields rest|ps]; cbn [match_payload payload_all] in *.
  - destruct values; [|done]. by injection H as <-.
  - destruct values as [|v [|]]; try done. simpl in Hv. rewrite andb_true_r in Hv. apply unwrapped_wf in Hv.
    destruct (unwrapped v); try done. by eapply match_fields_wf.
  - case_if_in H; [|done]. by eapply match_all_wf.
Qed.

Lemma all_matches_wf p : matches_wf p.
Proof.
  induction p as [|name|name payload tag Hp|fields rest Hf|ps Hps] using MatchPattern_nested_ind;
    intros v b b' Hv Hb H; cbn [match_value_pattern] in H.
  - by injection H as <-.
  - case_if_in H; [done|]. injection H as <-. unfold wf_bindings in *. rewrite list.Forall_forall in *.
    intros e [->|He]%bt_insert_elem; [done|by apply Hb].
  - destruct tag as [tag|]; [|done]. apply unwrapped_wf in Hv.
    destruct tag, (unwrapped v) as [| | | | | | | | | | |n args i| | | | |[w|]|]; try done; simpl in Hv.
    + case_if_in H; [|done]. bool_inv. by eapply match_payload_wf.
    + by eapply match_payload_wf; [| |exact Hb|exact H].
    + eapply match_payload_wf; [done| |exact Hb|exact H]. simpl. by rewrite Hv.
  - apply unwrapped_wf in Hv. destruct (unwrapped v); try done. by eapply match_fields_wf.
  - apply unwrapped_wf in Hv. destruct (unwrapped v); try done. case_if_in H; [|done]. by eapply match_all_wf.
Qed.

Lemma split_dot_no_dot s : no_dot s = true → split_dot s = None.
Proof. induction s as [|c s IH]; [done|]. intros [Hc Hs]%no_dot_cons. cbn [split_dot]. by rewrite Hc, (IH Hs). Qed.

Lemma scope_declared_ok bs : scope_declared bs → scope_ok names bs.
Proof. intros H. eapply list.Forall_impl; [exact H|]. by intros c [[? _] ?]. Qed.

Lemma field_type_loop_declared parts t ty : declared_type t → field_type_loop cat t parts = Ok ty → declared_type ty.
Proof.
  revert t. induction parts as [|part parts IH]; intros t Ht E; cbn [field_type_loop] in E; [by injection E as <-|].
  apply bind_Ok in E as (u & Hu & E). destruct u; try discriminate E. apply bind_Ok in E as (c & Hc%ok_or_Ok & E).
  apply find_column_Some in Hc as [Hc _]. eapply IH; [|exact E]. eapply declared_column; [by eapply declared_underlying|done].
Qed.

Lemma scope_declared_type bs path ty : scope_declared bs → field_type cat bs path = Ok ty → declared_type ty.
Proof.
  intros Hs H. unfold scope_declared in Hs. rewrite list.Forall_forall in Hs.
  apply field_type_cases in H as [(c & Hc & <-)|(_ & first & rest & c & _ & _ & _ & Hc & H)]; apply find_column_Some in Hc as [Hc _];
    [by apply Hs|]. eapply field_type_loop_declared, H. by apply Hs.
Qed.

(** The values that a pattern binds are an environment for its bindings. *)
Lemma bindings_typed_env bs b :
  scope_declared bs → wf_bindings b → (∀ c, c ∈ bs → ∃ w, bt_get (col_name c) b = Some w ∧ inhabits cat (col_ty c) w) →
  typed_env cat bs (binding_value b).
Proof.
  intros Hs Hw Hb path ty H. unfold scope_declared, wf_bindings in *. rewrite list.Forall_forall in Hs. rewrite list.Forall_forall in Hw.
  assert (Hval : ∀ c, c ∈ bs → ∃ w, bt_get (col_name c) b = Some w ∧ has_type cat (col_ty c) w).
  { intros c Hc. destruct (Hb c Hc) as (w & Hg & Hi). exists w. split; [done|]. split; [done|]. apply bt_get_elem in Hg. exact (Hw _ Hg). }
  unfold binding_value. apply field_type_cases in H as [(c & Hc & <-)|(_ & first & rest & c & _ & Hd & _ & Hc & H)];
    apply find_column_Some in Hc as [Hc Hn]; destruct (Hval c Hc) as (w & Hg & Hwt).
  - subst path. rewrite split_dot_no_dot by (by apply Hs). rewrite Hg. exists w. done.
  - rewrite Hd. subst first. rewrite Hg. cbn [mbind option_bind]. destruct (String.eqb_spec rest EmptyString) as [->|].
    + exfalso. cbn [split_dots field_type_loop] in H. apply bind_Ok in H as (u & Hu & H). destruct u; try discriminate H.
      apply bind_Ok in H as (f & Hf%ok_or_Ok & _). apply find_column_Some in Hf as [Hf Hempty].
      destruct (Hs c Hc) as [Hdc _]. by destruct (declared_column _ _ (declared_underlying _ _ Hdc Hu) Hf) as (_ & ? & _).
    + unfold field. eapply (field_type_loop_typed names cat (proj1 Hcat) (col_ty c)); try done. apply Hs. done.
Qed.
(** ** Whole matches *)

Lemma bind_each_lookup {A B} (f : A → Columns → result B) arms bound out j p bs :
  length bound = length arms → bind_each f arms bound = Ok out → bound !! j = Some (p, bs) →
  length out = length bound ∧ ∃ a b, arms !! j = Some a ∧ out !! j = Some b ∧ f a bs = Ok b.
Proof.
  revert bound out j. induction arms as [|a arms IH]; intros [|[q qs] bound] out j Hl H Hj; try done.
  cbn [bind_each] in H. apply bind_Ok in H as (b & Hb & H). apply bind_Ok in H as (out' & H & [= <-]). injection Hl as Hl.
  assert (Hlen : length out' = length bound).
  { clear -H Hl. revert bound out' Hl H. induction arms as [|a arms IH]; intros [|[q qs] bound] out' Hl H; try done; [by injection H as <-|].
    cbn [bind_each] in H. apply bind_Ok in H as (b & _ & H). apply bind_Ok in H as (out & H & [= <-]). injection Hl as Hl. simpl. f_equal. by eapply IH. }
  split; [simpl; lia|]. destruct j as [|j]; simpl in Hj |- *; [injection Hj as <- <-; eauto|].
  destruct (IH bound out' j Hl H Hj) as [_ ?]. done.
Qed.

Section whole.
Context `{TL : TextLib} {Laws : TextLibLaws}.

Lemma evaluate_value_arms_select ty v ps results j b r :
  select_arm v ps = Some (j, b) → results !! j = Some r →
  evaluate_value_arms cat (Some ty) v (zip_with mkMatchValueArm ps results) =
  ebind (evaluate_result cat b ty r) (λ raw, elift (coerce cat raw ty) eret).
Proof.
  revert results j. induction ps as [|p ps IH]; intros [|r0 results] j Hs Hr; try done. cbn [select_arm] in Hs.
  cbn [zip_with evaluate_value_arms mva_pattern mva_result]. destruct (match_bindings v p) as [b0|].
  - injection Hs as <- <-. injection Hr as ->. reflexivity.
  - destruct (select_arm v ps) as [[i b1]|]; [|done]. injection Hs as <- <-. by apply (IH _ i).
Qed.

Lemma evaluate_predicate_arms_select v ps conditions j b e :
  select_arm v ps = Some (j, b) → conditions !! j = Some e →
  evaluate_predicate_arms cat v (zip_with mkMatchArm ps conditions) = evaluate cat e (binding_value b).
Proof.
  revert conditions j. induction ps as [|p ps IH]; intros [|e0 conditions] j Hs He; try done. cbn [select_arm] in Hs.
  cbn [zip_with evaluate_predicate_arms ma_pattern ma_condition]. destruct (match_bindings v p) as [b0|].
  - injection Hs as <- <-. injection He as ->. reflexivity.
  - destruct (select_arm v ps) as [[i b1]|]; [|done]. injection Hs as <- <-. by apply (IH _ i).
Qed.

Lemma select_arm_lookup v ps j b : select_arm v ps = Some (j, b) → ∃ p, ps !! j = Some p ∧ match_bindings v p = Some b.
Proof.
  revert j. induction ps as [|p ps IH]; intros j H; [done|]. cbn [select_arm] in H. destruct (match_bindings v p) as [b0|] eqn:E.
  - injection H as <- <-. by exists p.
  - destruct (select_arm v ps) as [[i b1]|]; [|done]. injection H as <- <-. exact (IH i eq_refl).
Qed.

(** The arm that a bound match selects on a value of its source type. *)
Lemma bound_arm source_ty patterns bound v :
  declared_type source_ty → Forall pattern_plain patterns → bind_patterns cat source_ty patterns = Ok bound → has_type cat source_ty v →
  ∃ j b p bs, select_arm v bound.*1 = Some (j, b) ∧ bound !! j = Some (p, bs) ∧ scope_declared bs ∧ typed_env cat bs (binding_value b).
Proof.
  intros Hty Hp Hb [Hi Hw]. destruct (bind_patterns_declared _ _ _ Hty Hp Hb) as [_ Hd].
  destruct (bind_patterns_select _ _ _ _ _ (proj1 (proj1 Hcat)) (proj1 (proj1 Hty)) Hb Hi) as (j & b & p & bs & Hs & Hj & Hbs).
  exists j, b, p, bs. rewrite list.Forall_lookup in Hd. pose proof (Hd _ _ Hj) as Hdb. split_and!; try done.
  apply bindings_typed_env; [done| |done]. destruct (select_arm_lookup _ _ _ _ Hs) as (q & _ & Hq).
  eapply all_matches_wf; [exact Hw| |exact Hq]. constructor.
Qed.

(** A row of the declared columns. *)
Context (schema : Columns) (Hschema : declared_type (TRecord schema)).

Lemma match_source_value row path ty :
  has_type cat (TRecord schema) (VRecord row) → field_type cat schema path = Ok ty →
  declared_type ty ∧ ∃ v, row_field row path = Some v ∧ has_type cat ty v.
Proof.
  intros Hrow H. split; [|by eapply (row_typed_env names cat (proj1 Hcat) schema row (proj1 Hschema) Hrow)].
  apply field_type_cases in H as [(c & Hc & <-)|(_ & first & rest & c & _ & _ & _ & Hc & H)]; apply find_column_Some in Hc as [Hc _];
    destruct (declared_column _ _ Hschema Hc) as [Hd _]; [done|].
  by eapply field_type_loop_declared.
Qed.

Definition match_ok (d : DeriveMatch) : Prop :=
  Forall (λ arm, pattern_plain (mva_pattern arm) ∧ value_ok (mva_result arm)) (dm_arms d).

Lemma bound_results_safe row d source_ty bound expected d' :
  has_type cat (TRecord schema) (VRecord row) → match_ok d → declared_type expected →
  field_type cat schema (dm_source d) = Ok source_ty → bind_patterns cat source_ty (mva_pattern <$> dm_arms d) = Ok bound →
  bind_match_results cat expected d bound = Ok d' → safeE (has_type cat expected) (evaluate_value_match cat row d').
Proof.
  intros Hrow Hok Hex Hsrc Hbound H. destruct (match_source_value _ _ _ Hrow Hsrc) as (Hdt & v & Hv & Hvt).
  assert (Hpl : Forall pattern_plain (mva_pattern <$> dm_arms d)).
  { apply list.Forall_fmap. eapply list.Forall_impl; [exact Hok|]. by intros arm [? _]. }
  destruct (bind_patterns_declared _ _ _ Hdt Hpl Hbound) as [Hl _]. rewrite length_fmap in Hl.
  destruct (bound_arm _ _ _ _ Hdt Hpl Hbound Hvt) as (j & b & p & bs & Hs & Hj & Hds & Henv).
  unfold bind_match_results in H. apply bind_Ok in H as (results & Hr & [= <-]).
  destruct (bind_each_lookup _ _ _ _ _ _ _ Hl Hr Hj) as (_ & arm & r & Harm & Hrj & Hb).
  unfold evaluate_value_match. cbn [dm_source dm_output_type dm_arms]. rewrite Hv. cbn [ok_or].
  change (safeE ?P (elift (Ok v) ?k)) with (safeE P (k v)). cbn beta.
  rewrite (evaluate_value_arms_select _ _ _ _ _ _ _ Hs Hrj). unfold match_ok in Hok. rewrite list.Forall_lookup in Hok.
  destruct (Hok _ _ Harm) as [_ Hval]. eapply safeE_bind.
  - eapply (all_values_sound bs b (scope_declared_ok _ Hds) Henv (λ path ty, scope_declared_type bs path ty Hds)); [exact Hval|exact Hex|exact Hb].
  - intros raw Hraw. eapply safeE_lift; [apply raw_coerce; [apply Hex|exact Hraw]|]. intros w Hw. by apply safeE_ret.
Qed.
End whole.
End safety.

(** ** Properties *)

(** C27: A match that [bind_derive] or [bind_assignment] accepts, whose results name
    constructors in a way that evaluation resolves as binding does ([match_ok]: no qualifier
    that is an alias of the enum, no constructor named as a type that is not a record;
    others can fail, [bound_constructor_fails]), evaluates, on every row of the
    declared columns and with every budget, to a canonical value of the type of the new
    column or of the assigned field, a type over the declared ones, or to a run-time error.
    Some arm is always selected, its bindings resolve, and the records, tuples, lists and
    constructors that the arm builds fit the type they were bound at. *)
Theorem bound_match_value_safe `{TL : TextLib} {Laws : TextLibLaws} names arguments cat schema d row budget :
  declared_catalog names arguments cat → declared_type names arguments cat (TRecord schema) →
  has_type cat (TRecord schema) (VRecord row) → match_ok names cat d →
  (∀ d' column, bind_match_derive cat schema d = Ok (d', column) → declared_type names arguments cat (col_ty column) →
     safe (λ r, has_type cat (col_ty column) r.1) (evaluate_match_derive cat row d' budget)) ∧
  (∀ expected d', declared_type names arguments cat expected → bind_assignment cat schema expected d = Ok d' →
     safe (λ r, has_type cat expected r.1) (evaluate_match_assignment cat row d' budget)).
Proof.
  intros Hcat Hschema Hrow Hok. split.
  - intros d' column H Hty. unfold bind_match_derive in H. apply bind_Ok in H as (source_ty & Hs & H).
    apply bind_Ok in H as (bound & Hb & H). apply bind_Ok in H as (inferred & _ & H). apply bind_Ok in H as (ty & _ & H).
    apply bind_Ok in H as (d1 & Hd & [= <- <-]). exact (bound_results_safe _ _ _ Hcat schema Hschema row d _ _ _ _ Hrow Hok Hty Hs Hb Hd budget).
  - intros expected d' Hty H. unfold bind_assignment in H. apply bind_Ok in H as (source_ty & Hs & H).
    apply bind_Ok in H as (bound & Hb & H). exact (bound_results_safe _ _ _ Hcat schema Hschema row d _ _ _ _ Hrow Hok Hty Hs Hb H budget).
Qed.

(** A match filter that [bind] accepts evaluates to a boolean or a run-time error. *)
Theorem bound_match_filter_safe `{TL : TextLib} {Laws : TextLibLaws} names arguments cat schema p p' row budget :
  declared_catalog names arguments cat → declared_type names arguments cat (TRecord schema) →
  has_type cat (TRecord schema) (VRecord row) →
  Forall (λ arm, pattern_plain (ma_pattern arm) ∧ bool_ok names cat (ma_condition arm)) (mp_arms p) →
  bind_match_predicate cat schema p = Ok p' → safe (λ _, True) (evaluate_match_predicate cat row p' budget).
Proof.
  intros Hcat Hschema Hrow Hok H. unfold bind_match_predicate in H. apply bind_Ok in H as (source_ty & Hs & H).
  apply bind_Ok in H as (bound & Hb & H). apply bind_Ok in H as (conditions & Hc & [= <-]).
  destruct (match_source_value _ _ _ Hcat schema Hschema _ _ _ Hrow Hs) as (Hdt & v & Hv & Hvt).
  assert (Hpl : Forall pattern_plain (ma_pattern <$> mp_arms p)).
  { apply list.Forall_fmap. eapply list.Forall_impl; [exact Hok|]. by intros arm [? _]. }
  destruct (bind_patterns_declared _ _ _ Hcat _ _ _ Hdt Hpl Hb) as [Hl _]. rewrite length_fmap in Hl.
  destruct (bound_arm _ _ _ Hcat _ _ _ _ Hdt Hpl Hb Hvt) as (j & b & q & bs & Hsel & Hj & Hds & Henv).
  destruct (bind_each_lookup _ _ _ _ _ _ _ Hl Hc Hj) as (_ & arm & e & Harm & Hej & Hbe).
  unfold evaluate_match_predicate. cbn [mp_column mp_arms]. rewrite Hv, (evaluate_predicate_arms_select _ _ _ _ _ _ _ Hsel Hej).
  rewrite list.Forall_lookup in Hok. destruct (Hok _ _ Harm) as [_ Hbool].
  eapply safe_impl; [exact (bool_sound names cat (proj1 Hcat) _ bs _ _ e (scope_declared_ok _ _ _ _ Hds) Henv Hbool Hbe budget)|done].
Qed.

(** [type Color = Red | Green], [type Paint = Color], [type Shape = Shape { side : int } | Dot]. *)
Definition color_variants : list (VariantOf ScalarType) := [EnumVariantDef "Red" [] 11; EnumVariantDef "Green" [] 12].
Definition shape_variants : list (VariantOf ScalarType) :=
  [EnumVariantDef "Shape" [TRecord [Column "side" TInt (Some (VInt 1)) 21]] 22; EnumVariantDef "Dot" [] 23].
Definition shape_catalog : Catalog :=
  mkCatalog [("Color"%string, mkTypeDefinition 1 "Color" (TEnum color_variants)); ("Paint"%string, mkTypeDefinition 2 "Paint" (TRef 1));
             ("Shape"%string, mkTypeDefinition 3 "Shape" (TEnum shape_variants))] 30.
Definition shape_schema : Columns := [Column "color" (TRef 1) None 1; Column "shape" (TRef 3) None 2].
Definition shape_row : list (string * Value) :=
  [("color"%string, VNamed 1 (VEnum "Red" [] 11)); ("shape"%string, VNamed 3 (VEnum "Dot" [] 23))].
Definition shape_names (id : Z) : string :=
  if id =? 11 then "Red" else if id =? 12 then "Green" else if id =? 22 then "Shape" else "Dot".
Definition shape_arguments (id : Z) : list ScalarType :=
  if id =? 22 then [TRecord [Column "side" TInt (Some (VInt 1)) 21]] else [].

(** [derive size = match shape { Shape { side } -> Some(side), Dot -> None }] *)
Definition shape_match : DeriveMatch :=
  mkDeriveMatch "size" "shape"
    [mkMatchValueArm (PConstructor "Shape" (PayRecord [("side"%string, PBinding "side")] false) None)
       (MVConstructor "Some" (MVPositional [MVBinding "side"]));
     mkMatchValueArm (PConstructor "Dot" PayUnit None) (MVConstructor "None" MVUnit)] None.

Lemma shape_declared :
  declared_catalog shape_names shape_arguments shape_catalog ∧
  declared_type shape_names shape_arguments shape_catalog (TRecord shape_schema).
Proof.
  assert (Hside : has_type shape_catalog TInt (VInt 1)) by (split; [exists 1%nat|]; reflexivity).
  split; [split|]; [split; [reflexivity|]| |split; [split; reflexivity|]]; repeat constructor; try done.
  all: match goal with H : _ = Some _ |- _ => injection H as <- end; apply Hside.
Qed.

Lemma bound_match_value_safe_witness :
  ∃ d' column, bind_match_derive shape_catalog shape_schema shape_match = Ok (d', column) ∧ col_ty column = TOption TInt ∧
    safe (λ r, has_type shape_catalog (col_ty column) r.1) (@evaluate_match_derive plain_text shape_catalog shape_row d' 10).
Proof.
  eexists _, _. split; [vm_compute; reflexivity|]. split; [reflexivity|].
  refine (proj1 (@bound_match_value_safe plain_text plain_text_laws shape_names shape_arguments shape_catalog shape_schema shape_match shape_row 10 _ _ _ _) _ _ _ _).
  - apply shape_declared.
  - apply shape_declared.
  - split; [exists 4%nat|]; reflexivity.
  - assert (Hp : ∀ name, wf_string name = true → bt_get name (types shape_catalog) = None → rsplit_once "."%char name = None →
      plain_constructor shape_catalog name).
    { intros name Hw Hn Hr. split; [exact Hw|]. rewrite Hn, Hr. split; intros; discriminate. }
    repeat constructor; apply Hp; reflexivity.
  - vm_compute; reflexivity.
  - repeat constructor.
Defined.

(** Examples of two kinds of result that binding accepts and evaluation rejects with a
    type error.  A constructor qualified by another name of its enum,
    [match color { Red -> Paint.Green, _ -> Paint.Red }] with [type Paint = Color], and
    a record constructor named as its enum, [match shape { Dot -> Shape { side = 2 }, other -> other }]
    with [type Shape = Shape { side : int } | Dot]. *)
Theorem bound_constructor_fails `{TextLib} (budget : Z) :
  let paint := mkDeriveMatch "paint" "color"
    [mkMatchValueArm (PConstructor "Red" PayUnit None) (MVConstructor "Paint.Green" MVUnit);
     mkMatchValueArm PWildcard (MVConstructor "Paint.Red" MVUnit)] None in
  let square := mkDeriveMatch "square" "shape"
    [mkMatchValueArm (PConstructor "Dot" PayUnit None) (MVConstructor "Shape" (MVFields [("side"%string, MVLiteral (VInt 2))]));
     mkMatchValueArm (PBinding "other") (MVBinding "other")] None in
  (∃ d column, bind_match_derive shape_catalog shape_schema paint = Ok (d, column) ∧
     evaluate_match_derive shape_catalog shape_row d budget = Err "E_TYPE") ∧
  (∃ d column, bind_match_derive shape_catalog shape_schema square = Ok (d, column) ∧
     evaluate_match_derive shape_catalog shape_row d budget = Err "E_TYPE").
Proof. split; eexists _, _; (split; [vm_compute; reflexivity|reflexivity]). Qed.
