(* ===== verification/Wire.v ===== *)
(** * Values on the wire

    The transport form of a value, src/src/protocol.rs: [WireValue], the conversions
    [WireValue::from] and [Value::try_from], and the scalar payloads of
    src/src/scalars/serde.rs behind [decode_scalar].  Integers and identifiers travel as
    base-10 text.  The JSON text of a wire value is the serde library's and is not
    modelled; the decimal text of a float is the standard library's, and base64 is a
    third-party engine: both are parameters. *)
From S2P Require Import Prelude Bytes Text Utf8 Decimal Temporal Float64 BTree Scalars Model Coerce Expression EvalOps.

Class WireText := {
  float_to_string : Z → string;           (* [f64::to_string] *)
  float_from_str : string → option Z;     (* [f64::from_str] *)
  base64_engine_encode : list Z → list Z;
  base64_engine_decode : list Z → option (list Z)
}.

Inductive WireValue :=
  | WInt (value : string)
  | WFloat (value : string)
  | WBool (value : bool)
  | WText (value : string)
  | WUuid (value : string)
  | WDate (value : string)
  | WTimestamp (value : string)
  | WDuration (microseconds : string)
  | WDecimal (coefficient : string) (scale : Z)
  | WBytes (base64url : string)
  | WNull
  | WVariant (name variant_id : string) (args : list WireValue)
  | WRecord (fields : list (string * WireValue))
  | WTuple (items : list WireValue)
  | WList (items : list WireValue)
  | WMap (entries : list (string * WireValue))
  | WOption (value : option WireValue)
  | WNamed (type_id : string) (value : WireValue).

(** [to_string] of an integer. *)
Definition int_text (z : Z) : string := of_bytes (show_int z).

(** [str::parse] of a primitive integer whose values satisfy [in_type]; an unsigned type
    takes no minus sign, not even in [-0]. *)
Definition parse_int (in_type : Z → bool) (s : string) : option Z :=
  let '(negative, body) :=
    match as_bytes s with
    | 45 :: body => (true, body)
    | 43 :: body => (false, body)
    | body => (false, body)
    end in
  if bool_decide (body = []) || negb (all_digits body) then None
  else if negative && (parse_digits body =? 0) && negb (in_type (-1)) then None
  else checked in_type (if negative then - parse_digits body else parse_digits body).

Section wire.
Context `{WireText}.

Fixpoint wire_from (v : Value) : WireValue :=
  match v with
  | VInt z => WInt (int_text z)
  | VFloat b => WFloat (float_to_string b)
  | VBool b => WBool b
  | VText s => WText s
  | VUuid u => WUuid (of_bytes (uuid_display u))
  | VDate d => WDate (of_bytes (date_display d))
  | VTimestamp t => WTimestamp (of_bytes (timestamp_display t))
  | VDuration t => WDuration (int_text t)
  | VDecimal d => WDecimal (int_text (coefficient d)) (scale d)
  | VBytes bs => WBytes (of_bytes (to_base64url base64_engine_encode bs))
  | VNull => WNull
  | VEnum name args id => WVariant name (int_text id) (map wire_from args)
  | VRecord fields => WRecord (map (λ '(n, v), (n, wire_from v)) fields)
  | VTuple items => WTuple (map wire_from items)
  | VList items => WList (map wire_from items)
  | VMap entries => WMap (map (λ '(k, v), (k, wire_from v)) entries)
  | VOption o => WOption (option_map wire_from o)
  | VNamed id v => WNamed (int_text id) (wire_from v)
  end.

(** A canonical text payload: it parses and is what the value prints. *)
Definition canonical_text {A} (parse : list Z → result A) (display : A → list Z) (payload : string) : result A :=
  v ← parse (as_bytes payload);
  if bool_decide (of_bytes (display v) = payload) then Ok v else Err "E_SCALAR_LITERAL".

Definition duration_payload (payload : string) : result Z :=
  v ← ok_or (parse_int is_i64 payload) "E_SCALAR_LITERAL";
  if bool_decide (int_text v = payload) then Ok v else Err "E_SCALAR_LITERAL".

Definition decimal_payload (coefficient : string) (scale : Z) : result Decimal :=
  c ← ok_or (parse_int is_i128 coefficient) "E_SCALAR_LITERAL";
  if bool_decide (int_text c = coefficient) then decimal_new c 38 scale else Err "E_SCALAR_LITERAL".

(** [decode_scalar] reports every failure of a payload as a parameter error. *)
Definition decode_scalar {A} (payload : result A) : result A := map_err "E_PARAM_TYPE" payload.

Definition parse_id (s : string) : result Z := ok_or (parse_int is_u64 s) "E_PARAM_TYPE".

(** The loop over the entries of a map, with the previous key. *)
Section entries.
Context (decode : WireValue → result Value).

Definition decode_entries : option string → list (string * WireValue) → list (string * Value) → result (list (string * Value)) :=
  fix go previous entries decoded := match entries with
    | [] => Ok decoded
    | (key, w) :: entries =>
        if str_len key >? MAX_MAP_KEY_BYTES then Err "E_MAP_LIMIT"
        else if match previous with Some p => negb (str_ltb p key) | None => false end then Err "E_DUPLICATE_KEY"
        else v ← decode w; go (Some key) entries (bt_insert key v decoded)
    end.

Definition decode_fields : list (string * WireValue) → list (string * Value) → result (list (string * Value)) :=
  fix go fields decoded := match fields with
    | [] => Ok decoded
    | (name, w) :: fields => v ← decode w; go fields (bt_insert name v decoded)
    end.
End entries.

Fixpoint try_from (w : WireValue) : result Value :=
  match w with
  | WInt s => VInt <$> ok_or (parse_int is_i64 s) "E_PARAM_TYPE"
  | WFloat s =>
      b ← ok_or (float_from_str s) "E_PARAM_TYPE";
      if is_finite b then Ok (VFloat (if is_zero b then 0 else b)) else Err "E_PARAM_TYPE"
  | WBool b => Ok (VBool b)
  | WText s => Ok (VText s)
  | WUuid s => VUuid <$> decode_scalar (canonical_text uuid_from_str uuid_display s)
  | WDate s => VDate <$> decode_scalar (canonical_text date_from_str date_display s)
  | WTimestamp s => VTimestamp <$> decode_scalar (canonical_text timestamp_from_str timestamp_display s)
  | WDuration s => VDuration <$> decode_scalar (duration_payload s)
  | WDecimal c scale => VDecimal <$> decode_scalar (decimal_payload c scale)
  | WBytes s => VBytes <$> decode_scalar (from_base64url base64_engine_decode (as_bytes s))
  | WNull => Ok VNull
  | WVariant name id args => id ← parse_id id; args ← mapR try_from args; Ok (VEnum name args id)
  | WRecord fields => VRecord <$> decode_fields try_from fields []
  | WTuple items => VTuple <$> mapR try_from items
  | WList items => VList <$> mapR try_from items
  | WMap entries =>
      if zlen entries >? MAX_MAP_ENTRIES then Err "E_MAP_LIMIT" else VMap <$> decode_entries try_from None entries []
  | WOption None => Ok (VOption None)
  | WOption (Some w) => v ← try_from w; Ok (VOption (Some v))
  | WNamed id w => id ← parse_id id; v ← try_from w; Ok (VNamed id v)
  end.
End wire.

(** Values that a peer of the first protocol version does not know. *)
Fixpoint requires_v2 (w : WireValue) : bool :=
  match w with
  | WUuid _ | WDate _ | WTimestamp _ | WDuration _ | WDecimal _ _ | WBytes _ | WMap _ => true
  | WNamed _ w | WOption (Some w) => requires_v2 w
  | WVariant _ _ args => existsb requires_v2 args
  | WRecord fields => existsb (λ e, requires_v2 e.2) fields
  | WTuple items | WList items => existsb requires_v2 items
  | _ => false
  end.

Fixpoint requires_map_codec (w : WireValue) : bool :=
  match w with
  | WMap _ => true
  | WNamed _ w | WOption (Some w) => requires_map_codec w
  | WVariant _ _ args => existsb requires_map_codec args
  | WRecord fields => existsb (λ e, requires_map_codec e.2) fields
  | WTuple items | WList items => existsb requires_map_codec items
  | _ => false
  end.
