(* ===== verification/WireLaws.v ===== *)
(** * Transport preserves values

    Every canonical value of every type survives the conversion to the wire form and
    back, and what is decoded from the wire is a well-formed value. *)
From S2P Require Import Prelude Bytes Text Utf8 Decimal Temporal Float64 BTree Scalars Model Coerce OrderedKey Codec Matching Coverage Expression Typing EvalOps Wire.

(** What the standard library and the base64 engine document: the text of a finite
    float parses to the same float, unpadded base64 decodes to what was encoded, in
    ASCII and four characters for three bytes; parsing yields floats, decoding bytes. *)
Class WireTextLaws `{WireText} := {
  float_text_roundtrip b : is_u64 b = true → is_finite b = true → float_from_str (float_to_string b) = Some b;
  base64_roundtrip bs : all_bytes bs = true → base64_engine_decode (base64_engine_encode bs) = Some bs;
  base64_ascii bs : all_bytes bs = true → ascii_bytes (base64_engine_encode bs);
  base64_length bs : all_bytes bs = true → zlen (base64_engine_encode bs) = (4 * zlen bs + 2) / 3;
  float_from_str_bits s b : float_from_str s = Some b → is_u64 b = true;
  base64_decode_bytes l bs : base64_engine_decode l = Some bs → all_bytes bs = true
}.

Lemma ascii_all_bytes l : ascii_bytes l → all_bytes l = true.
Proof.
  unfold ascii_bytes, all_bytes. rewrite !forallb_Forall. intros H. eapply list.Forall_impl; [exact H|].
  intros b Hb. apply is_byte_spec. unrange. lia.
Qed.

Lemma as_bytes_ascii l : ascii_bytes l → as_bytes (of_bytes l) = l.
Proof. intros. by apply as_bytes_of_bytes, ascii_all_bytes. Qed.

Lemma parse_int_text in_type z : in_type z = true → parse_int in_type (int_text z) = Some z.
Proof.
  intros Hz. unfold parse_int, int_text. rewrite as_bytes_ascii by apply show_int_ascii. unfold show_int.
  destruct (Z.ltb_spec z 0).
  - rewrite bool_decide_false by (apply show_nat_nonempty; lia). rewrite show_nat_digits by lia. cbn [orb negb].
    rewrite parse_show_nat by lia. rewrite (proj2 (Z.eqb_neq (- z) 0)) by lia. cbn [andb]. rewrite Z.opp_involutive. unfold checked. by rewrite Hz.
  - pose proof (show_nat_nonempty z ltac:(lia)) as Hne. pose proof (show_nat_digits z ltac:(lia)) as Hd.
    pose proof (parse_show_nat z ltac:(lia)) as Hp. destruct (show_nat z) as [|c l]; [done|].
    assert (Hc : 48 ≤ c ≤ 57). { simpl in Hd. apply andb_true_iff in Hd as [Hd _]. unfold is_digit in Hd. unrange. lia. }
    assert (E : match c :: l with 45 :: body => (true, body) | 43 :: body => (false, body) | body => (false, body) end = (false, c :: l)).
    { destruct c as [|c|c]; [lia| |lia]. do 6 (destruct c as [c|c|]; try lia; try done). }
    rewrite E. rewrite bool_decide_false by done. rewrite Hd. cbn [orb negb andb]. rewrite Hp. unfold checked. by rewrite Hz.
Qed.

Lemma canonical_text_display {A} (parse : list Z → result A) display (v : A) :
  ascii_bytes (display v) → parse (display v) = Ok v → canonical_text parse display (of_bytes (display v)) = Ok v.
Proof. intros Ha Hp. unfold canonical_text. rewrite as_bytes_ascii, Hp by done. cbn [mbind result_bind]. by rewrite bool_decide_true. Qed.

Lemma decimal_payload_text d : wf_decimal d = true → decimal_payload (int_text (coefficient d)) (scale d) = Ok d.
Proof.
  intros Hd. unfold wf_decimal in Hd. bool_inv. unfold decimal_payload. unrange.
  rewrite parse_int_text by (apply is_i128_small; lia). cbn [ok_or mbind result_bind]. rewrite bool_decide_true by done.
  apply decimal_new_Ok. destruct d; simpl in *. split_and!; try done; lia.
Qed.

(** ** Round trip *)

(** Induction on values, through their components. *)
Lemma Value_nested_ind (P : Value → Prop) :
  (∀ v, match v with VEnum _ _ _ | VRecord _ | VTuple _ | VList _ | VMap _ | VOption (Some _) | VNamed _ _ => False | _ => True end → P v) →
  (∀ name args id, Forall P args → P (VEnum name args id)) →
  (∀ fields, Forall (λ e, P e.2) fields → P (VRecord fields)) →
  (∀ items, Forall P items → P (VTuple items)) →
  (∀ items, Forall P items → P (VList items)) →
  (∀ entries, Forall (λ e, P e.2) entries → P (VMap entries)) →
  (∀ v, P v → P (VOption (Some v))) → (∀ id v, P v → P (VNamed id v)) → ∀ v, P v.
Proof.
  intros Hs He Hr Ht Hl Hm Ho Hn. fix go 1.
  intros [z|b|b|t|u|d|t|t|d|bs| |name args id|fields|items|items|entries|[v|]|id v]; try (by apply Hs).
  - apply He. induction args as [|v vs IH]; constructor; [apply go|exact IH].
  - apply Hr. induction fields as [|[n v] fields IH]; constructor; [apply go|exact IH].
  - apply Ht. induction items as [|v vs IH]; constructor; [apply go|exact IH].
  - apply Hl. induction items as [|v vs IH]; constructor; [apply go|exact IH].
  - apply Hm. induction entries as [|[n v] entries IH]; constructor; [apply go|exact IH].
  - apply Ho, go.
  - apply Hn, go.
Qed.

(** The values that coercion produces: finite floats without a negative zero, and
    maps within the limits. *)
Fixpoint transportable (v : Value) : bool :=
  match v with
  | VFloat b => is_finite b && implb (is_zero b) (b =? 0)
  | VEnum _ args _ => forallb transportable args
  | VRecord fields => forallb (λ e, transportable e.2) fields
  | VTuple items | VList items => forallb transportable items
  | VMap entries =>
      (zlen entries <=? MAX_MAP_ENTRIES) && forallb (λ e, (str_len e.1 <=? MAX_MAP_KEY_BYTES) && transportable e.2) entries
  | VOption (Some v) | VNamed _ v => transportable v
  | _ => true
  end.

Lemma forallb_items {A} (f g : A → bool) l P :
  Forall (λ x, f x = true → g x = true → P x) l → forallb f l = true → forallb g l = true → Forall P l.
Proof. induction 1 as [|x l Hx _ IH]; simpl; intros; bool_inv; constructor; auto. Qed.

(** Canonical values of a type are transportable. *)
Lemma conforms_transportable fuel cat ty v :
  wf_catalog cat = true → wf_type ty = true → wf_value v = true → conforms fuel cat ty v = true → transportable v = true.
Proof.
  intros Hcat. revert ty v. induction fuel as [|fuel IH]; intros ty v Ht Hv Hc; [done|]. cbn [conforms] in Hc.
  assert (Hitems : ∀ tys vs, Forall (λ t, wf_type t = true) tys → forallb wf_value vs = true → all2 (conforms fuel cat) tys vs = true → forallb transportable vs = true).
  { induction tys as [|t tys IHt]; intros [|w vs] Hts Hvs H; try done. apply list.Forall_cons in Hts as [? ?]. simpl in *. bool_inv.
    apply andb_true_iff. split; eauto. }
  destruct ty, v as [| | | | | | | | | | |n args i| | | | |[w|]|]; try discriminate Hc; try done; cbn [wf_value] in Hv; cbn [transportable].
  - destruct (find_variant_id variants i) as [variant|] eqn:E; [|done]. apply find_variant_id_Some in E as (Hin & _). bool_inv.
    eapply Hitems; [|done..]. by apply (wf_type_variant variants variant).
  - bool_inv. apply forallb_Forall, list.Forall_forall. intros [k w] Hkw. cbn [snd]. destruct (wf_type_nodup_columns _ Ht) as [Hn _].
    match goal with H : forallb _ columns = true |- _ => rewrite forallb_Forall, list.Forall_forall in H; rename H into Hcols end.
    assert (Hk : k ∈ col_name <$> columns).
    { rewrite (record_keys columns fields); try done; [by apply (list_elem_of_fmap_2 fst _ (k, w))|]. intros c Hc'. specialize (Hcols c Hc').
      cbn beta in Hcols. destruct (bt_get (col_name c) fields); [by eexists|done]. }
    apply list_elem_of_fmap in Hk as (c & -> & Hin). specialize (Hcols c Hin). cbn beta in Hcols.
    rewrite (proj2 (bt_get_iff _ _ _ ltac:(done)) Hkw) in Hcols. eapply IH; [|by eapply wf_entries_elem|exact Hcols].
    by apply (wf_type_column columns c).
  - eapply Hitems; [|done..]. by apply forallb_Forall.
  - exact (IH ty w Ht Hv Hc).
  - apply forallb_Forall, list.Forall_forall. intros w Hw. rewrite forallb_Forall, list.Forall_forall in Hc, Hv. exact (IH ty w Ht (Hv w Hw) (Hc w Hw)).
  - bool_inv. apply andb_true_iff. split; [by apply Z.leb_le|].
    repeat match goal with H : forallb _ entries = true |- _ => rewrite forallb_Forall, list.Forall_forall in H end.
    apply forallb_Forall, list.Forall_forall. intros e He.
    repeat match goal with H : ∀ x, x ∈ entries → _ |- _ => specialize (H e He); cbn beta in H end. bool_inv.
    apply andb_true_iff. split; [by apply Z.leb_le|]. eapply (IH ty); [exact Ht|done|done].
  - bool_inv. destruct (definition cat id) as [d|] eqn:E; [|done]. eapply IH; [|done|done]. by destruct (definition_wf _ _ _ Hcat E).
Qed.

Section laws.
Context `{WT : WireText} {Laws : WireTextLaws}.

Lemma bytes_payload bs : wf_bytes bs = true → from_base64url base64_engine_decode (as_bytes (of_bytes (to_base64url base64_engine_encode bs))) = Ok bs.
Proof.
  intros H. unfold wf_bytes in H. bool_inv. unfold to_base64url. rewrite as_bytes_ascii by (by apply base64_ascii). unfold from_base64url.
  rewrite base64_length by done. destruct (Z.gtb_spec ((4 * zlen bs + 2) / 3) ((MAX_BYTES * 4 + 2) / 3)) as [Hgt|_].
  { assert ((4 * zlen bs + 2) / 3 ≤ (MAX_BYTES * 4 + 2) / 3) by (apply Z.div_le_mono; lia). lia. }
  rewrite base64_roundtrip by done. cbn [ok_or mbind result_bind]. unfold bytes_new. destruct (Z.gtb_spec (zlen bs) MAX_BYTES); [lia|done].
Qed.

Lemma mapR_wire vs : Forall (λ v, try_from (wire_from v) = Ok v) vs → mapR try_from (map wire_from vs) = Ok vs.
Proof. induction 1 as [|v vs Hv _ IH]; [done|]. cbn [map mapR]. rewrite Hv. cbn [mbind result_bind]. by rewrite IH. Qed.

Lemma sorted_snoc (acc m : list (string * Value)) k v :
  bt_sorted (acc ++ (k, v) :: m) = true → bt_insert k v acc = acc ++ [(k, v)].
Proof.
  intros Hs. apply bt_insert_last. apply forallb_Forall, list.Forall_forall. intros e He.
  induction acc as [|e' acc IH]; [by apply elem_of_nil in He|]. destruct e' as [k' v']. cbn [app bt_sorted] in Hs. bool_inv.
  apply elem_of_cons in He as [->|He]; [|by apply IH]. rewrite bt_below_spec in *.
  match goal with Hb : ∀ e, _ → tcmp k' _ = Lt |- _ => specialize (Hb (k, v)) end. cbn [fst] in *.
  match goal with Hb : _ → tcmp k' k = Lt |- _ => rewrite Hb; [done|] end. apply elem_of_app. right. by left.
Qed.

Lemma decode_fields_wire acc m :
  Forall (λ e, try_from (wire_from e.2) = Ok e.2) m → bt_sorted (acc ++ m) = true →
  decode_fields try_from (map (λ '(n, v), (n, wire_from v)) m) acc = Ok (acc ++ m).
Proof.
  intros Hm. revert acc. induction Hm as [|[k v] m Hv _ IH]; intros acc Hs; cbn [map decode_fields]; [by rewrite app_nil_r|].
  cbn [snd] in Hv. rewrite Hv. cbn [mbind result_bind]. rewrite (sorted_snoc _ m) by done.
  rewrite IH; [by rewrite <-app_assoc|by rewrite <-app_assoc].
Qed.

Lemma bt_sorted_suffix (acc m : list (string * Value)) : bt_sorted (acc ++ m) = true → bt_sorted m = true.
Proof. induction acc as [|[k v] acc IH]; [done|]. cbn [app bt_sorted]. intros. bool_inv. auto. Qed.

Lemma decode_entries_wire acc m previous :
  Forall (λ e, try_from (wire_from e.2) = Ok e.2) m → Forall (λ e, str_len e.1 ≤ MAX_MAP_KEY_BYTES) m → bt_sorted (acc ++ m) = true →
  (∀ p, previous = Some p → bt_below p m = true) →
  decode_entries try_from previous (map (λ '(k, v), (k, wire_from v)) m) acc = Ok (acc ++ m).
Proof.
  intros Hm. revert acc previous. induction Hm as [|[k v] m Hv _ IH]; intros acc previous Hk Hs Hp; cbn [map decode_entries]; [by rewrite app_nil_r|].
  apply list.Forall_cons in Hk as [Hk0 Hk]. cbn [fst snd] in *. destruct (Z.gtb_spec (str_len k) MAX_MAP_KEY_BYTES); [lia|].
  replace (match previous with Some p => negb (str_ltb p k) | None => false end) with false.
  - rewrite Hv. cbn [mbind result_bind]. rewrite (sorted_snoc _ m) by done. pose proof (bt_sorted_suffix _ _ Hs) as Hsm. cbn [bt_sorted] in Hsm. bool_inv.
    rewrite (IH (acc ++ [(k, v)])); [by rewrite <-app_assoc|done|by rewrite <-app_assoc|]. by intros p [= <-].
  - destruct previous as [p|]; [|done]. specialize (Hp p eq_refl). rewrite bt_below_spec in Hp.
    specialize (Hp (k, v) ltac:(by left)). unfold str_ltb. cbn [fst] in Hp. change (tcmp p k) with (str_cmp p k) in Hp. by rewrite Hp.
Qed.

(** A value survives the conversion to its wire form and back. *)
Lemma wire_from_try_from v : wf_value v = true → transportable v = true → try_from (wire_from v) = Ok v.
Proof.
  induction v as [v Hv|name args id IH|fields IH|items IH|items IH|entries IH|v IH|id v IH] using Value_nested_ind; intros Hw Ht.
  - destruct v as [z|b|b|t|u|d|t|t|d|bs| | | | | | |[|]|]; try done; cbn [wf_value] in Hw; cbn [wire_from try_from].
    + by rewrite parse_int_text.
    + cbn [transportable] in Ht. bool_inv. rewrite float_text_roundtrip by done. cbn [ok_or mbind result_bind].
      match goal with H : is_finite b = true |- _ => rewrite H end. destruct (is_zero b); [|done]. simpl in *. bool_inv. by subst.
    + unfold decode_scalar. rewrite canonical_text_display; [done| |by apply uuid_print_parse].
      apply uuid_display_ascii. unfold wf_uuid in Hw. by bool_inv.
    + unfold decode_scalar. unrange. rewrite canonical_text_display; [done|by apply date_display_ascii|by apply date_display_parse].
    + unfold decode_scalar. rewrite canonical_text_display; [done|by apply timestamp_display_ascii|].
      apply timestamp_display_parse. destruct (from_epoch_microseconds t) as [t'|] eqn:E; [|done].
      pose proof E as [-> _]%from_epoch_microseconds_Ok. done.
    + unfold decode_scalar, duration_payload. rewrite parse_int_text by done. cbn [ok_or mbind result_bind]. by rewrite bool_decide_true.
    + unfold decode_scalar. by rewrite decimal_payload_text.
    + unfold decode_scalar. by rewrite bytes_payload.
  - cbn [wf_value transportable] in *. bool_inv. cbn [wire_from try_from]. unfold parse_id. rewrite parse_int_text by done.
    cbn [ok_or mbind result_bind]. rewrite mapR_wire; [done|]. by eapply forallb_items.
  - cbn [wf_value transportable] in *. bool_inv. cbn [wire_from try_from].
    match goal with H : forallb (λ kv, wf_string kv.1 && _) fields = true |- _ => rename H into Hwf end.
    rewrite decode_fields_wire; [done| |done]. eapply forallb_items; [|exact Hwf|exact Ht]. eapply list.Forall_impl; [exact IH|].
    intros e He ??. cbn beta in *. bool_inv. auto.
  - cbn [wire_from try_from]. rewrite mapR_wire; [done|]. by eapply forallb_items.
  - cbn [wire_from try_from]. rewrite mapR_wire; [done|]. by eapply forallb_items.
  - cbn [wf_value transportable] in *. bool_inv. cbn [wire_from try_from]. unfold zlen in *. rewrite length_map.
    destruct (Z.gtb_spec (Z.of_nat (length entries)) MAX_MAP_ENTRIES); [lia|].
    match goal with H : forallb (λ e, (str_len e.1 <=? _) && _) entries = true |- _ => rename H into Hlim end.
    match goal with H : forallb (λ kv, wf_string kv.1 && _) entries = true |- _ => rename H into Hwf end.
    rewrite decode_entries_wire; [done| | |done|done].
    + eapply forallb_items; [|exact Hwf|exact Hlim]. eapply list.Forall_impl; [exact IH|]. intros e He ??. cbn beta in *. bool_inv. auto.
    + rewrite forallb_Forall in Hlim. eapply list.Forall_impl; [exact Hlim|]. intros e He. cbn beta in He. by bool_inv.
  - cbn [wire_from try_from option_map]. by rewrite IH.
  - cbn [wf_value transportable] in *. bool_inv. cbn [wire_from try_from]. unfold parse_id. rewrite parse_int_text by done.
    cbn [ok_or mbind result_bind]. by rewrite IH.
Qed.

(** ** Decoded values *)

(** What the Rust types of a [WireValue] guarantee. *)
Fixpoint wf_wire (w : WireValue) : bool :=
  match w with
  | WText s => wf_string s
  | WDecimal _ scale => is_u8 scale
  | WVariant name _ args => wf_string name && forallb wf_wire args
  | WRecord fields => bt_sorted fields && forallb (λ e, wf_string e.1 && wf_wire e.2) fields
  | WMap entries => forallb (λ e, wf_string e.1 && wf_wire e.2) entries
  | WTuple items | WList items => forallb wf_wire items
  | WOption (Some w) | WNamed _ w => wf_wire w
  | _ => true
  end.

Definition canonical (v : Value) : Prop := wf_value v = true ∧ transportable v = true.
Definition decodes (w : WireValue) : Prop := wf_wire w = true → ∀ v, try_from w = Ok v → canonical v.

Lemma safe_result {A} (P : A → Prop) m a : safe P m → m = Ok a → P a.
Proof. by intros H ->. Qed.

Lemma parse_int_in_type in_type s z : parse_int in_type s = Some z → in_type z = true.
Proof.
  unfold parse_int. destruct (match as_bytes s with 45 :: body => _ | 43 :: body => _ | body => _ end) as [negative body].
  destruct (_ || _); [done|]. destruct (_ && _); [done|]. unfold checked. destruct (in_type (if negative then _ else _)) eqn:E; [|done]. by intros [= <-].
Qed.

Lemma canonical_text_Ok {A} (parse : list Z → result A) display payload v (P : A → Prop) :
  (∀ l, safe P (parse l)) → decode_scalar (canonical_text parse display payload) = Ok v → P v.
Proof.
  intros Hp H. unfold decode_scalar in H. apply map_err_Ok in H. unfold canonical_text in H. apply bind_Ok in H as (w & Hw & H).
  case_if_in H; [|done]. injection H as <-. exact (safe_result _ _ _ (Hp _) Hw).
Qed.

Lemma mapR_canonical ws vs : Forall decodes ws → forallb wf_wire ws = true → mapR try_from ws = Ok vs →
  forallb wf_value vs = true ∧ forallb transportable vs = true.
Proof.
  intros Hd. revert vs. induction Hd as [|w ws Hw _ IH]; intros vs Hwf H; cbn [mapR] in H; [by injection H as <-|].
  simpl in Hwf. bool_inv. apply bind_Ok in H as (v & Hv & H). apply bind_Ok in H as (vs' & Hvs & [= <-]).
  destruct (IH vs') as [E1 E2]; [done..|]. destruct (Hw ltac:(done) v Hv) as [C1 C2]. simpl. by rewrite C1, C2, E1, E2.
Qed.

(** The entries decoded so far. *)
Definition canonical_entries (m : list (string * Value)) : Prop :=
  bt_sorted m = true ∧ Forall (λ e, wf_string e.1 = true ∧ canonical e.2) m.

Lemma canonical_entries_insert k v m : canonical_entries m → wf_string k = true → canonical v → canonical_entries (bt_insert k v m).
Proof.
  intros [Hs Hm] Hk Hv. split; [by apply bt_insert_sorted|]. rewrite list.Forall_forall in *. intros e [->|He]%bt_insert_elem; [done|auto].
Qed.

Lemma canonical_entries_forallb m : canonical_entries m →
  bt_sorted m && forallb (λ e, wf_string e.1 && wf_value e.2) m = true ∧ forallb (λ e, transportable e.2) m = true.
Proof.
  intros [-> Hm]. cbn [andb]. rewrite !forallb_Forall. split; (eapply list.Forall_impl; [exact Hm|]); intros e (H1' & H2' & H3'); cbn beta;
    by rewrite ?H1', ?H2', ?H3'.
Qed.

Lemma decode_fields_canonical fields decoded m :
  Forall (λ e, decodes e.2) fields → forallb (λ e, wf_string e.1 && wf_wire e.2) fields = true → canonical_entries decoded →
  decode_fields try_from fields decoded = Ok m → canonical_entries m.
Proof.
  intros Hd. revert decoded. induction Hd as [|[k w] fields Hw _ IH]; intros decoded Hwf Hc H; cbn [decode_fields] in H; [by injection H as <-|].
  simpl in Hwf. bool_inv. apply bind_Ok in H as (v & Hv & H). apply (IH _ ltac:(done) (canonical_entries_insert _ _ _ Hc ltac:(done) (Hw ltac:(done) v Hv)) H).
Qed.

Lemma decode_entries_canonical previous entries decoded m :
  Forall (λ e, decodes e.2) entries → forallb (λ e, wf_string e.1 && wf_wire e.2) entries = true → canonical_entries decoded →
  Forall (λ e, str_len e.1 ≤ MAX_MAP_KEY_BYTES) decoded → decode_entries try_from previous entries decoded = Ok m →
  canonical_entries m ∧ Forall (λ e, str_len e.1 ≤ MAX_MAP_KEY_BYTES) m ∧ (length m ≤ length decoded + length entries)%nat.
Proof.
  intros Hd. revert previous decoded. induction Hd as [|[k w] entries Hw _ IH]; intros previous decoded Hwf Hc Hk H; cbn [decode_entries] in H.
  { injection H as <-. split_and!; [done..|simpl; lia]. }
  simpl in Hwf. bool_inv. do 2 (case_if_in H; [done|]). apply bind_Ok in H as (v & Hv & H).
  apply IH in H as (? & ? & Hl); [|done|by apply canonical_entries_insert; [..|apply (Hw ltac:(done))]|].
  - split_and!; [done..|]. pose proof (bt_insert_length k v decoded). simpl in *. lia.
  - rewrite list.Forall_forall in *. intros e [->|He]%bt_insert_elem; [|auto]. cbn [fst]. bool_inv. done.
Qed.

Lemma WireValue_nested_ind (P : WireValue → Prop) :
  (∀ w, match w with WVariant _ _ _ | WRecord _ | WTuple _ | WList _ | WMap _ | WOption (Some _) | WNamed _ _ => False | _ => True end → P w) →
  (∀ name id args, Forall P args → P (WVariant name id args)) →
  (∀ fields, Forall (λ e, P e.2) fields → P (WRecord fields)) →
  (∀ items, Forall P items → P (WTuple items)) →
  (∀ items, Forall P items → P (WList items)) →
  (∀ entries, Forall (λ e, P e.2) entries → P (WMap entries)) →
  (∀ w, P w → P (WOption (Some w))) → (∀ id w, P w → P (WNamed id w)) → ∀ w, P w.
Proof.
  intros Hs He Hr Ht Hl Hm Ho Hn. fix go 1.
  intros [s|s|b|s|s|s|s|s|c sc|s| |name id args|fields|items|items|entries|[w|]|id w]; try (by apply Hs).
  - apply He. induction args as [|v vs IH]; constructor; [apply go|exact IH].
  - apply Hr. induction fields as [|[n v] fields IH]; constructor; [apply go|exact IH].
  - apply Ht. induction items as [|v vs IH]; constructor; [apply go|exact IH].
  - apply Hl. induction items as [|v vs IH]; constructor; [apply go|exact IH].
  - apply Hm. induction entries as [|[n v] entries IH]; constructor; [apply go|exact IH].
  - apply Ho, go.
  - apply Hn, go.
Qed.

Lemma decode_bytes_canonical s v : decode_scalar (from_base64url base64_engine_decode s) = Ok v → wf_bytes v = true.
Proof.
  unfold decode_scalar. intros H%map_err_Ok. unfold from_base64url in H. case_if_in H; [done|].
  apply bind_Ok in H as (bs & Hb%ok_or_Ok & H). unfold bytes_new in H. case_if_in H; [done|]. injection H as <-.
  unfold wf_bytes. rewrite (base64_decode_bytes _ _ Hb), andb_true_r. bool_inv. apply Z.leb_le. lia.
Qed.

Lemma scalar_decodes w :
  match w with WVariant _ _ _ | WRecord _ | WTuple _ | WList _ | WMap _ | WOption (Some _) | WNamed _ _ => False | _ => True end → decodes w.
Proof.
  intros Hw Hwf v H. destruct w as [s|s|b|s|s|s|s|s|c sc|s| | | | | | |[|]|]; try done; cbn [try_from wf_wire] in *.
  - apply fmap_Ok in H as (z & Hz%ok_or_Ok & ->). split; [exact (parse_int_in_type _ _ _ Hz)|done].
  - apply bind_Ok in H as (b & Hb%ok_or_Ok & H). case_if_in H; [|done]. injection H as <-. unfold canonical. cbn [wf_value transportable].
    pose proof (float_from_str_bits _ _ Hb). destruct (is_zero b) eqn:Ez; [done|]. by rewrite E, Ez.
  - by injection H as <-.
  - by injection H as <-.
  - apply fmap_Ok in H as (u & Hu & ->). split; [|done]. exact (canonical_text_Ok _ _ _ _ (λ u, wf_uuid u = true) uuid_from_str_safe Hu).
  - apply fmap_Ok in H as (u & Hu & ->). split; [|done]. exact (canonical_text_Ok _ _ _ _ (λ d, in_range MIN_DAYS MAX_DAYS d = true) date_from_str_safe Hu).
  - apply fmap_Ok in H as (u & Hu & ->). split; [|done].
    exact (canonical_text_Ok _ _ _ _ (λ t, is_ok (from_epoch_microseconds t) = true) timestamp_from_str_safe Hu).
  - apply fmap_Ok in H as (u & Hu & ->). split; [|done]. unfold decode_scalar, duration_payload in Hu. apply map_err_Ok in Hu.
    apply bind_Ok in Hu as (z & Hz%ok_or_Ok & Hu). case_if_in Hu; [|done]. injection Hu as <-. exact (parse_int_in_type _ _ _ Hz).
  - apply fmap_Ok in H as (d & Hd & ->). split; [|done]. unfold decode_scalar, decimal_payload in Hd. apply map_err_Ok in Hd.
    apply bind_Ok in Hd as (z & _ & Hd). case_if_in Hd; [|done]. cbn [wf_value].
    apply decimal_new_Ok in Hd as (_ & Hs & Hc & ->). unfold wf_decimal. simpl. unrange. bool_inv. apply andb_true_iff. split; [by apply Z.ltb_lt|].
    apply in_range_spec. lia.
  - apply fmap_Ok in H as (bs & Hb & ->). split; [|done]. exact (decode_bytes_canonical _ _ Hb).
  - by injection H as <-.
  - by injection H as <-.
Qed.

Lemma all_decode w : decodes w.
Proof.
  induction w as [w Hw|name id args IH|fields IH|items IH|items IH|entries IH|w IH|id w IH] using WireValue_nested_ind.
  - by apply scalar_decodes.
  - intros Hwf v H. cbn [wf_wire] in Hwf. cbn [try_from] in H. bool_inv. apply bind_Ok in H as (i & Hi%ok_or_Ok & H).
    apply bind_Ok in H as (vs & Hvs & [= <-]). destruct (mapR_canonical _ _ IH ltac:(done) Hvs) as [E1 E2].
    unfold canonical. cbn [wf_value transportable]. rewrite (parse_int_in_type _ _ _ Hi), E1, !andb_true_r. done.
  - intros Hwf v H. cbn [wf_wire] in Hwf. cbn [try_from] in H. bool_inv. apply fmap_Ok in H as (m & Hm & ->).
    apply canonical_entries_forallb, (decode_fields_canonical fields []); done.
  - intros Hwf v H. cbn [try_from] in H. apply fmap_Ok in H as (vs & Hvs & ->). exact (mapR_canonical _ _ IH Hwf Hvs).
  - intros Hwf v H. cbn [try_from] in H. apply fmap_Ok in H as (vs & Hvs & ->). exact (mapR_canonical _ _ IH Hwf Hvs).
  - intros Hwf v H. cbn [wf_wire] in Hwf. cbn [try_from] in H. case_if_in H; [done|]. bool_inv. apply fmap_Ok in H as (m & Hm & ->).
    apply decode_entries_canonical in Hm as (Hc & Hk & Hl); [|done|done|by split|done].
    destruct (canonical_entries_forallb _ Hc) as [E1 E2]. split; [exact E1|]. cbn [transportable]. apply andb_true_iff. split.
    + apply Z.leb_le. unfold zlen in *. simpl in Hl. lia.
    + rewrite forallb_Forall in E2 |- *. rewrite list.Forall_forall in *. intros e He. rewrite (E2 e He), andb_true_r. apply Z.leb_le. auto.
  - intros Hwf v H. cbn [try_from] in H. apply bind_Ok in H as (x & Hx & [= <-]). exact (IH Hwf x Hx).
  - intros Hwf v H. cbn [try_from] in H. apply bind_Ok in H as (i & Hi%ok_or_Ok & H). apply bind_Ok in H as (x & Hx & [= <-]).
    destruct (IH Hwf x Hx) as [E1 E2]. unfold canonical. cbn [wf_value transportable]. by rewrite (parse_int_in_type _ _ _ Hi), E1.
Qed.

(** C28: transport is lossless and safe.  Every well-formed value with finite floats and
    maps within the limits, as coercion produces them, survives: converting it to its
    wire form and decoding that returns the same value, with its types, variants,
    field names and map order.  And whatever is decoded from a wire form that a peer
    sent is such a value. *)
Theorem wire_transport :
  (∀ v, wf_value v = true → transportable v = true → try_from (wire_from v) = Ok v) ∧
  (∀ w v, wf_wire w = true → try_from w = Ok v → wf_value v = true ∧ transportable v = true).
Proof. split; [exact wire_from_try_from|intros w v Hw; by apply all_decode]. Qed.
End laws.

(** ** An engine with these laws *)

(** Three bytes as four sextets, written as the characters from "0" on. *)
Fixpoint sextets (l : list Z) : list Z :=
  match l with
  | a :: b :: c :: l =>
      [48 + a / 4; 48 + (a `mod` 4 * 16 + b / 16); 48 + (b `mod` 16 * 4 + c / 64); 48 + c `mod` 64] ++ sextets l
  | [a; b] => [48 + a / 4; 48 + (a `mod` 4 * 16 + b / 16); 48 + b `mod` 16 * 4]
  | [a] => [48 + a / 4; 48 + a `mod` 4 * 16]
  | [] => []
  end.
Fixpoint unsextets (l : list Z) : list Z :=
  match l with
  | p :: q :: r :: s :: l =>
      [(p - 48) * 4 + (q - 48) / 16; (q - 48) `mod` 16 * 16 + (r - 48) / 4; (r - 48) `mod` 4 * 64 + (s - 48)] ++ unsextets l
  | [p; q; r] => [(p - 48) * 4 + (q - 48) / 16; (q - 48) `mod` 16 * 16 + (r - 48) / 4]
  | [p; q] => [(p - 48) * 4 + (q - 48) / 16]
  | _ => []
  end.

Lemma bytes_three_ind (P : list Z → Prop) :
  P [] → (∀ a, P [a]) → (∀ a b, P [a; b]) → (∀ a b c l, P l → P (a :: b :: c :: l)) → ∀ l, P l.
Proof. intros H0 H1 H2 H3. fix go 1. intros [|a [|b [|c l]]]; [exact H0|apply H1|apply H2|apply H3, go]. Qed.

Lemma sextets_spec l : all_bytes l = true →
  unsextets (sextets l) = l ∧ ascii_bytes (sextets l) ∧ zlen (sextets l) = (4 * zlen l + 2) / 3.
Proof.
  induction l as [|a|a b|a b c l IH] using bytes_three_ind; intros H; unfold all_bytes in H; simpl in H; bool_inv;
    repeat match goal with H : is_byte _ = true |- _ => apply is_byte_spec in H end; unfold zlen in *; simpl length.
  - done.
  - split_and!; [|unfold ascii_bytes; simpl; rewrite !andb_true_iff; repeat split; try done; apply in_range_spec|done].
    + simpl. f_equal. Z.div_mod_to_equations; lia.
    + Z.div_mod_to_equations; lia.
    + Z.div_mod_to_equations; lia.
  - split_and!; [|unfold ascii_bytes; simpl; rewrite !andb_true_iff; repeat split; try done; apply in_range_spec|done].
    + simpl. f_equal; [|f_equal]; Z.div_mod_to_equations; lia.
    + Z.div_mod_to_equations; lia.
    + Z.div_mod_to_equations; lia.
    + Z.div_mod_to_equations; lia.
  - destruct IH as (E & Ha & El); [done|]. split_and!.
    + cbn [sextets app unsextets]. rewrite E. f_equal; [|f_equal; [|f_equal]]; Z.div_mod_to_equations; lia.
    + cbn [sextets app]. repeat (apply ascii_bytes_cons; split; [Z.div_mod_to_equations; lia|]). exact Ha.
    + cbn [sextets app length]. Z.div_mod_to_equations; lia.
Qed.

#[local] Instance example_wire_text : WireText :=
  {| float_to_string := int_text; float_from_str := parse_int is_u64;
     base64_engine_encode := sextets;
     base64_engine_decode := λ l, let bs := unsextets l in if all_bytes bs then Some bs else None |}.

Lemma example_wire_laws : WireTextLaws.
Proof.
  split; simpl.
  - intros b Hb _. by apply parse_int_text.
  - intros bs Hb. destruct (sextets_spec bs Hb) as (-> & _). by rewrite Hb.
  - intros bs Hb. apply sextets_spec, Hb.
  - intros bs Hb. apply sextets_spec, Hb.
  - intros s b. apply parse_int_in_type.
  - intros l bs H. destruct (all_bytes _) eqn:E; [|done]. by injection H as <-.
Qed.

Definition example_wire_value : Value :=
  VRecord [("at"%string, VTimestamp 1709181296789000); ("id"%string, VNamed 7 (VInt (-42)));
           ("raw"%string, VBytes [0; 255; 16; 7]); ("tags"%string, VMap [("a"%string, VFloat 4607182418800017408); ("b"%string, VFloat 0)])].

Lemma wire_transport_witness :
  try_from (wire_from example_wire_value) = Ok example_wire_value ∧
  (∀ v, try_from (WMap [("b"%string, WInt "+1"); ("a"%string, WInt "2")]) = Ok v → wf_value v = true).
Proof.
  destruct (@wire_transport example_wire_text example_wire_laws) as [Hr Hd]. split.
  - apply Hr; reflexivity.
  - intros v Hv. apply (Hd (WMap [("b"%string, WInt "+1"); ("a"%string, WInt "2")]) v); [reflexivity|exact Hv].
Defined.
