(* ===== verification/Access.v ===== *)
(** * Access planning

    Models how src/src/db.rs chooses the rows a query starts from: the comparisons of the
    leading filters against the components of each index, the byte range they bound
    ([index_access_candidate]), the choice among indexes ([plan_access]) and the row IDs
    that the chosen scan yields ([materialize_access_candidates]), over the in-memory row
    source.  The texts of an explained plan, deadlines and counters are left out. *)
From stdpp Require Import sorting.
From S2P Require Import Prelude Bytes Text Decimal Temporal Scalars BTree Model Coerce OrderedKey Matching Catalog Schema Expression IndexPredicate Database Query.

Record IndexConstraint := mkIndexConstraint { cn_column : string; cn_op : CmpOp; cn_value : Value }.
Record RangeLimit := mkRangeLimit { rl_value : Value; rl_inclusive : bool }.
Definition IndexBounds : Type := Bound * Bound.

(** ** Byte ranges *)

(** Trailing [0xFF] bytes are dropped and the last byte left is incremented. *)
Definition prefix_successor (prefix : list Z) : option (list Z) :=
  (fix go (rev : list Z) :=
     match rev with
     | [] => None
     | b :: rest => if b =? 255 then go rest else Some (reverse (b + 1 :: rest))
     end) (reverse prefix).

Definition prefix_bounds (prefix : list Z) : IndexBounds :=
  match prefix with
  | [] => (Unbounded, Unbounded)
  | _ => (Included prefix, match prefix_successor prefix with Some k => Excluded k | None => Unbounded end)
  end.

Definition bound_key (b : Bound) : option (list Z) :=
  match b with Included k | Excluded k => Some k | Unbounded => None end.

Definition is_excluded (b : Bound) : bool := match b with Excluded _ => true | _ => false end.
Definition is_included (b : Bound) : bool := match b with Included _ => true | _ => false end.

Definition stricter_lower (current candidate : Bound) : Bound :=
  match bound_key current, bound_key candidate with
  | None, _ => candidate
  | _, None => current
  | Some l, Some r =>
      match bytes_cmp l r with
      | Lt => candidate
      | Gt => current
      | Eq => if is_excluded current then current else candidate
      end
  end.

Definition stricter_upper (current candidate : Bound) : Bound :=
  match bound_key current, bound_key candidate with
  | None, _ => candidate
  | _, None => current
  | Some l, Some r =>
      match bytes_cmp l r with
      | Lt => current
      | Gt => candidate
      | Eq => if is_excluded current then current else candidate
      end
  end.

Definition bounds_have_values (start end_ : Bound) : bool :=
  match bound_key start, bound_key end_ with
  | Some s, Some e =>
      match bytes_cmp s e with
      | Lt => true
      | Gt => false
      | Eq => is_included start && is_included end_
      end
  | _, _ => true
  end.

Definition page_seek_bounds (start end_ : Bound) (boundary : list Z) (greater : bool) : option IndexBounds :=
  o ← (if greater then next ← prefix_successor boundary; Some (stricter_lower start (Included next), end_)
       else Some (start, stricter_upper end_ (Excluded boundary)));
  if bounds_have_values o.1 o.2 then Some o else None.

Definition encoded_component (cat : Catalog) (ty : ScalarType) (value : Value) (descending : bool) (equality_prefix : list Z)
    : result (list Z) :=
  encoded ← encode_tuple cat [mkComponent ty value descending]; Ok (equality_prefix ++ encoded).

Definition logical_lower (key : list Z) (inclusive : bool) : option Bound :=
  if inclusive then Some (Included key) else Included <$> prefix_successor key.
Definition logical_upper (key : list Z) (inclusive : bool) : option Bound :=
  if inclusive then Some (match prefix_successor key with Some k => Excluded k | None => Unbounded end) else Some (Excluded key).

Definition index_range_bounds (cat : Catalog) (equality_prefix : list Z) (descending : bool) (ty : ScalarType)
    (lower upper : option RangeLimit) : result (option IndexBounds) :=
  let equality_bounds := prefix_bounds equality_prefix in
  let key limit :=
    match limit with
    | Some l => k ← encoded_component cat ty (rl_value l) descending equality_prefix; Ok (Some (k, rl_inclusive l))
    | None => Ok None
    end in
  lower_key ← key lower;
  upper_key ← key upper;
  let first := if descending then upper_key else lower_key in
  let last := if descending then lower_key else upper_key in
  let start := match first with Some (k, inclusive) => logical_lower k inclusive | None => Some equality_bounds.1 end in
  let end_ := match last with Some (k, inclusive) => logical_upper k inclusive | None => Some equality_bounds.2 end in
  Ok (s ← start; e ← end_; Some (s, e)).

(** ** Constraints *)

Fixpoint leading_constraints (stages : list Stage) (constraints : list IndexConstraint) : list IndexConstraint :=
  match stages with
  | StLet _ :: stages => match constraints with [] => leading_constraints stages [] | _ => constraints end
  | StFilter e :: stages =>
      match simple_index_comparison e with
      | Some (column, op, value) => leading_constraints stages (constraints ++ [mkIndexConstraint column op value])
      | None => constraints
      end
  | _ => constraints
  end.
Definition leading_index_constraints (p : Pipeline) : list IndexConstraint := leading_constraints (pl_stages p) [].

Definition constraint_matches (cat : Catalog) (ty : ScalarType) (v : Value) (op : CmpOp) (bound : Value) : result bool :=
  order ← cmp_typed cat ty v bound;
  Ok match op, order with
     | CmpEq, Eq | CmpGt, Gt | CmpLt, Lt => true
     | CmpNe, (Lt | Gt) | CmpGte, (Eq | Gt) | CmpLte, (Lt | Eq) => true
     | _, _ => false
     end.

(** One iteration of [merge_range_bounds]: [current] against a constraint on its side. *)
Definition replaces (cat : Catalog) (ty : ScalarType) (current : option RangeLimit) (value : Value) (inclusive prefer_greater : bool)
    : result bool :=
  match current with
  | None => Ok true
  | Some current =>
      order ← cmp_typed cat ty value (rl_value current);
      Ok ((prefer_greater && bool_decide (order = Gt)) || (negb prefer_greater && bool_decide (order = Lt)) ||
          (bool_decide (order = Eq) && negb inclusive && rl_inclusive current))
  end.

Definition merge_step (cat : Catalog) (ty : ScalarType) (acc : option RangeLimit * option RangeLimit) (c : IndexConstraint)
    : result (option RangeLimit * option RangeLimit) :=
  let '(lower, upper) := acc in
  let side (slot : option RangeLimit) (inclusive prefer_greater : bool) : result (option RangeLimit) :=
    b ← replaces cat ty slot (cn_value c) inclusive prefer_greater;
    Ok (if b : bool then Some (mkRangeLimit (cn_value c) inclusive) else slot) in
  match cn_op c with
  | CmpGt => l ← side lower false true; Ok (l, upper)
  | CmpGte => l ← side lower true true; Ok (l, upper)
  | CmpLt => u ← side upper false false; Ok (lower, u)
  | CmpLte => u ← side upper true false; Ok (lower, u)
  | CmpEq | CmpNe => Ok acc
  end.

Definition merge_range_bounds (cat : Catalog) (ty : ScalarType) (constraints : list IndexConstraint)
    : result (option RangeLimit * option RangeLimit) :=
  foldR (merge_step cat ty) (None, None) constraints.

Definition range_is_empty (cat : Catalog) (ty : ScalarType) (lower upper : option RangeLimit) : result bool :=
  match lower, upper with
  | Some lower, Some upper =>
      order ← cmp_typed cat ty (rl_value lower) (rl_value upper);
      Ok match order with Gt => true | Eq => negb (rl_inclusive lower) || negb (rl_inclusive upper) | Lt => false end
  | _, _ => Ok false
  end.

(** The first constraint that an equality contradicts ends the check. *)
Fixpoint all_match (cat : Catalog) (ty : ScalarType) (equal : Value) (constraints : list IndexConstraint) : result bool :=
  match constraints with
  | [] => Ok true
  | c :: constraints =>
      b ← constraint_matches cat ty equal (cn_op c) (cn_value c);
      if b : bool then all_match cat ty equal constraints else Ok false
  end.

(** The components an index scan can use: an equality prefix, and possibly a range on the next one. *)
Record Matched := mkMatched {
  mt_equality : list (IndexComponentDefinition * Value);
  mt_range : option (option RangeLimit * option RangeLimit);
  mt_impossible : bool
}.

Fixpoint match_components (cat : Catalog) (schema : Columns) (constraints : list IndexConstraint)
    (components : list IndexComponentDefinition) (equality : list (IndexComponentDefinition * Value)) : result Matched :=
  match components with
  | [] => Ok (mkMatched equality None false)
  | c :: components =>
      match List.filter (λ k, String.eqb (cn_column k) (ic_column c)) constraints with
      | [] => Ok (mkMatched equality None false)
      | own =>
          ty ← field_type cat schema (ic_column c);
          match List.find (λ k, match cn_op k with CmpEq => true | _ => false end) own with
          | Some k =>
              possible ← all_match cat ty (cn_value k) own;
              let equality := equality ++ [(c, cn_value k)] in
              if possible : bool then match_components cat schema constraints components equality
              else Ok (mkMatched equality None true)
          | None =>
              '(lower, upper) ← merge_range_bounds cat ty own;
              match lower, upper with
              | None, None => Ok (mkMatched equality None false)
              | _, _ => impossible ← range_is_empty cat ty lower upper; Ok (mkMatched equality (Some (lower, upper)) impossible)
              end
          end
      end
  end.

(** ** Sorting by an index *)

Fixpoint skip_lets (stages : list Stage) (position : nat) : list Stage * nat :=
  match stages with
  | StLet _ :: stages => skip_lets stages (S position)
  | _ => (stages, position)
  end.

Fixpoint skip_filters (stages : list Stage) (position : nat) : option (list Stage * nat) :=
  match stages with
  | StFilter e :: stages => _ ← simple_index_comparison e; skip_filters stages (S position)
  | _ => Some (stages, position)
  end.

Definition index_sort_match (p : Pipeline) (components : list IndexComponentDefinition) (equality_components : nat)
    : option (nat * bool) :=
  let '(stages, position) := skip_lets (pl_stages p) 0 in
  '(stages, position) ← skip_filters stages position;
  match stages with
  | StSort keys :: _ =>
      let fixed := ic_column <$> take equality_components components in
      let keys := List.filter (λ k, negb (existsb (String.eqb (sk_column k)) fixed)) keys in
      match keys with
      | [] => Some (position, false)
      | _ =>
          if Nat.ltb (length components - equality_components) (length keys) then None
          else
            let pairs := zip keys (take (length keys) (drop equality_components components)) in
            if negb (forallb (λ '(k, c), String.eqb (sk_column k) (ic_column c)) pairs) then None
            else
              let exact := forallb (λ '(k, c), Bool.eqb (sk_descending k) (ic_descending c)) pairs in
              let reversed := forallb (λ '(k, c), negb (Bool.eqb (sk_descending k) (ic_descending c))) pairs in
              if exact || reversed then Some (position, reversed) else None
      end
  | _ => None
  end.

(** The order of two rows under sort keys. *)
Fixpoint compare_rows_by_typed_keys (cat : Catalog) (keys : list SortKey) (left right : Fields) : result comparison :=
  match keys with
  | [] => Ok Eq
  | key :: keys =>
      ty ← ok_or (sk_ty key) "E_TYPE";
      l ← ok_or (row_field left (sk_column key)) "E_FIELD";
      r ← ok_or (row_field right (sk_column key)) "E_FIELD";
      ordering ← cmp_typed cat ty l r;
      match rev_if (sk_descending key) ordering with
      | Eq => compare_rows_by_typed_keys cat keys left right
      | ordering => Ok ordering
      end
  end.

(** ** Candidates *)

Record BoundPageOrder := mkBoundPageOrder { po_key : SortKey; po_field_path : list Z; po_ty : ScalarType }.
Record PreparedPage := mkPreparedPage {
  pp_spec : PageSpec;
  pp_order : list BoundPageOrder;
  pp_boundary : option (list Value);
  pp_forward_digest : string;
  pp_backward_digest : string
}.

Inductive QueryAccessKind :=
  FullScan | PrimaryKeyLookup | SecondaryIndexLookup | CompositeLookup | RangeScan | OrderedScan | PageSeek.
Inductive IndexTraversal := TraverseForward | TraverseReverse.
Record IndexRangePlan := mkIndexRangePlan { rp_column : string; rp_lower_inclusive : option bool; rp_upper_inclusive : option bool }.

Record QueryAccessPlan := mkQueryAccessPlan {
  qp_kind : QueryAccessKind;
  qp_equality_prefix : list string;
  qp_range : option IndexRangePlan;
  qp_traversal : option IndexTraversal;
  qp_sort_satisfied : bool;
  qp_page_seek : bool;
  qp_predicate_proven : bool;
  qp_predicate_rejections : list string;
  qp_estimated_rows : Z;
  qp_table_rows : Z
}.

Record PlannedIndexScan := mkPlannedIndexScan { is_shape : string; is_bounds : option IndexBounds; is_reverse : bool }.
Record PlannedAccess := mkPlannedAccess { pa_plan : QueryAccessPlan; pa_index_scan : option PlannedIndexScan; pa_ordered_sort : option nat }.

Record IndexAccessCandidate := mkCandidate {
  ac_plan : QueryAccessPlan;
  ac_index_scan : PlannedIndexScan;
  ac_equality_components : nat;
  ac_has_range : bool;
  ac_component_count : nat;
  ac_index_id : Z;
  ac_ordered_sort : option nat
}.

Section access.
Context `{PredicateText}.

(** The values that a cursor fixes for the leading components of the index. *)
Fixpoint page_bound (cat : Catalog) (schema : Columns) (equality : list (IndexComponentDefinition * Value)) (page : PreparedPage)
    (values : list Value) (components : list IndexComponentDefinition) : result (list Component) :=
  match components with
  | [] => Ok []
  | c :: components =>
      let value :=
        match List.find (λ e, String.eqb (ic_column e.1) (ic_column c)) equality with
        | Some e => Some e.2
        | None =>
            '(position, _) ← list_find (λ o, sk_column (po_key o) = ic_column c) (pp_order page);
            values !! position
        end in
      match value with
      | None => Ok []
      | Some v =>
          ty ← field_type cat schema (ic_column c);
          rest ← page_bound cat schema equality page values components;
          Ok (mkComponent ty v (ic_descending c) :: rest)
      end
  end.

Definition page_boundary (cat : Catalog) (schema : Columns) (components : list IndexComponentDefinition)
    (equality : list (IndexComponentDefinition * Value)) (page : option PreparedPage) (ordered_sort : option (nat * bool))
    : result (option (list Z * bool)) :=
  match page, ordered_sort with
  | Some page, Some (_, reversed) =>
      match pp_boundary page with
      | Some values =>
          bound ← page_bound cat schema equality page values components;
          let required := (length equality + length (List.filter (λ o,
            negb (existsb (λ e, String.eqb (ic_column e.1) (sk_column (po_key o))) equality)) (pp_order page)))%nat in
          if Nat.ltb (length bound) required then Ok None
          else
            key ← encode_tuple cat bound;
            Ok (Some (key, match ps_direction (pp_spec page) with Forward => negb reversed | Backward => reversed end))
      | None => Ok None
      end
  | _, _ => Ok None
  end.

Definition access_bounds (cat : Catalog) (schema : Columns) (components : list IndexComponentDefinition) (m : Matched)
    (page : option PreparedPage) (ordered_sort : option (nat * bool)) : result (option IndexBounds) :=
  if mt_impossible m then Ok None
  else
    let equality := mt_equality m in
    equality_key ← match equality with
                   | [] => Ok []
                   | _ =>
                       bound ← mapR (λ '(c, v), ty ← field_type cat schema (ic_column c); Ok (mkComponent ty v (ic_descending c))) equality;
                       encode_tuple cat bound
                   end;
    boundary ← page_boundary cat schema components equality page ordered_sort;
    match mt_range m with
    | None =>
        if Nat.eqb (length equality) (length components) then Ok (Some (Included equality_key, Included equality_key))
        else
          Ok match boundary with
             | Some (key, greater) => let '(s, e) := prefix_bounds equality_key in page_seek_bounds s e key greater
             | None => Some (prefix_bounds equality_key)
             end
    | Some (lower, upper) =>
        component ← ok_or (components !! length equality) PANIC;
        ty ← field_type cat schema (ic_column component);
        bounds ← index_range_bounds cat equality_key (ic_descending component) ty lower upper;
        Ok match boundary with
           | Some (key, greater) => '(s, e) ← bounds; page_seek_bounds s e key greater
           | None => bounds
           end
    end.

Definition has_index (db : Database) (name shape : string) : bool := bt_mem shape (indexes_of db name).

Definition estimate_index_span (db : Database) (name shape : string) (bounds : IndexBounds) : result Z :=
  p ← ok_or (bt_get shape (indexes_of db name)) "E_STORAGE";
  if range_panics bounds then Err PANIC else Ok (foldl Z.add 0 ((λ e, zlen e.2) <$> posting_range bounds p)).

Definition index_access_candidate (db : Database) (p : Pipeline) (page : option PreparedPage) (d : IndexDefinition)
    (constraints : list IndexConstraint) (estimate_rows : bool) : result (option IndexAccessCandidate) :=
  t ← table db (pl_from p);
  let cat := db_catalog db in
  let components := effective_components d in
  m ← match_components cat (tbl_schema t) constraints components [];
  let equality_components := length (mt_equality m) in
  let ordered_sort := index_sort_match p components equality_components in
  match mt_equality m, mt_range m, ordered_sort with
  | [], None, None => Ok None
  | _, _, _ =>
      let page_seek := match page with Some page => bool_decide (is_Some (pp_boundary page)) | None => false end &&
        bool_decide (is_Some ordered_sort) in
      let kind :=
        if page_seek then PageSeek
        else if bool_decide (is_Some (mt_range m)) then RangeScan
        else if bool_decide (is_Some ordered_sort) then OrderedScan
        else if Nat.eqb equality_components 1 && Nat.eqb (length components) 1 then
          if is_primary_index d (tbl_primary_key t) then PrimaryKeyLookup else SecondaryIndexLookup
        else CompositeLookup in
      range_plan ← match mt_range m with
                   | Some (lower, upper) =>
                       c ← ok_or (components !! equality_components) PANIC;
                       Ok (Some (mkIndexRangePlan (ic_column c) (rl_inclusive <$> lower) (rl_inclusive <$> upper)))
                   | None => Ok None
                   end;
      bounds ← access_bounds cat (tbl_schema t) components m page ordered_sort;
      estimated ← match estimate_rows, bounds with
                  | true, Some bounds => estimate_index_span db (pl_from p) (shape_key d) bounds
                  | _, _ => Ok 0
                  end;
      Ok (Some (mkCandidate
        (mkQueryAccessPlan kind (ic_column <$> take equality_components components) range_plan
           ((λ s, if s.2 : bool then TraverseReverse else TraverseForward) <$> ordered_sort)
           (bool_decide (is_Some ordered_sort)) page_seek false [] estimated (zlen (tbl_rows t)))
        (mkPlannedIndexScan (shape_key d) bounds (match ordered_sort with Some s => s.2 | None => false end))
        equality_components (bool_decide (is_Some (mt_range m))) (length components) (ix_id d) (fst <$> ordered_sort)))
  end.
(** ** The choice of an access *)

Definition MAX_PREDICATE_REJECTIONS : Z := 8.

Section plan.
Context `{TextLib}.

Fixpoint leading_atoms (cat : Catalog) (schema : Columns) (stages : list Stage) (acc : list IndexPredicateAtom)
    : result (list IndexPredicateAtom) :=
  match stages with
  | StLet _ :: stages => leading_atoms cat schema stages acc
  | StFilter e :: stages => acc ← collect_query_atoms cat schema e acc; leading_atoms cat schema stages acc
  | _ => Ok acc
  end.
Definition leading_query_predicate_atoms (db : Database) (name : string) (p : Pipeline) : result (list IndexPredicateAtom) :=
  t ← table db name; leading_atoms (db_catalog db) (tbl_schema t) (pl_stages p) [].

(** More equality components, then a range, then a satisfied sort, then fewer components, then the older index. *)
Definition better (candidate current : IndexAccessCandidate) : bool :=
  let sorted c := bool_decide (is_Some (ac_ordered_sort c)) in
  Nat.ltb (ac_equality_components current) (ac_equality_components candidate) ||
  (Nat.eqb (ac_equality_components candidate) (ac_equality_components current) &&
   ((ac_has_range candidate && negb (ac_has_range current)) ||
    (Bool.eqb (ac_has_range candidate) (ac_has_range current) &&
     ((sorted candidate && negb (sorted current)) ||
      (Bool.eqb (sorted candidate) (sorted current) &&
       (Nat.ltb (ac_component_count candidate) (ac_component_count current) ||
        (Nat.eqb (ac_component_count candidate) (ac_component_count current) && (ac_index_id candidate <? ac_index_id current)))))))).

Definition with_proven (c : IndexAccessCandidate) : IndexAccessCandidate :=
  let p := ac_plan c in
  mkCandidate (mkQueryAccessPlan (qp_kind p) (qp_equality_prefix p) (qp_range p) (qp_traversal p) (qp_sort_satisfied p) (qp_page_seek p)
      true (qp_predicate_rejections p) (qp_estimated_rows p) (qp_table_rows p))
    (ac_index_scan c) (ac_equality_components c) (ac_has_range c) (ac_component_count c) (ac_index_id c) (ac_ordered_sort c).

Definition with_rejections (r : list string) (p : QueryAccessPlan) : QueryAccessPlan :=
  mkQueryAccessPlan (qp_kind p) (qp_equality_prefix p) (qp_range p) (qp_traversal p) (qp_sort_satisfied p) (qp_page_seek p)
    (qp_predicate_proven p) r (qp_estimated_rows p) (qp_table_rows p).

(** One index definition in the loop of [plan_access]. *)
Definition consider (db : Database) (p : Pipeline) (page : option PreparedPage) (estimate_rows : bool)
    (constraints : list IndexConstraint) (query_atoms : list IndexPredicateAtom)
    (acc : list string * option IndexAccessCandidate) (d : IndexDefinition) : result (list string * option IndexAccessCandidate) :=
  let '(rejections, best) := acc in
  let proven := match ix_predicate d with Some predicate => implied_by predicate query_atoms | None => true end in
  if negb proven then
    if zlen rejections <? MAX_PREDICATE_REJECTIONS then
      o ← index_access_candidate db p page d constraints false;
      Ok (match o with Some _ => rejections ++ [shape_key d] | None => rejections end, best)
    else Ok acc
  else if negb (has_index db (pl_from p) (shape_key d)) then Ok acc
  else
    o ← index_access_candidate db p page d constraints estimate_rows;
    Ok (rejections,
        match o with
        | None => best
        | Some candidate =>
            let candidate := match ix_predicate d with Some _ => with_proven candidate | None => candidate end in
            match best with
            | None => Some candidate
            | Some current => if better candidate current then Some candidate else best
            end
        end).

Definition plan_access (db : Database) (p : Pipeline) (page : option PreparedPage) (estimate_rows : bool) : result PlannedAccess :=
  t ← table db (pl_from p);
  let constraints := leading_index_constraints p in
  query_atoms ← leading_query_predicate_atoms db (pl_from p) p;
  '(rejections, best) ← foldR (consider db p page estimate_rows constraints query_atoms) ([], None)
    (definitions_of db (pl_from p)).*2;
  Ok match best with
     | Some best =>
         mkPlannedAccess (match rejections with [] => ac_plan best | _ => with_rejections rejections (ac_plan best) end)
           (Some (ac_index_scan best)) (ac_ordered_sort best)
     | None =>
         mkPlannedAccess (mkQueryAccessPlan FullScan [] None None false false false rejections (zlen (tbl_rows t)) (zlen (tbl_rows t)))
           None None
     end.

(** [plan_access_for_index]: the access through an index that was chosen before. *)
Definition plan_access_for_index (db : Database) (p : Pipeline) (page : option PreparedPage) (shape : string) (estimate_rows : bool)
    : result PlannedAccess :=
  d ← ok_or (List.find (λ d, String.eqb (shape_key d) shape) (definitions_of db (pl_from p)).*2) "E_QUERY";
  proven ← match ix_predicate d with
           | Some predicate => query_atoms ← leading_query_predicate_atoms db (pl_from p) p; Ok (implied_by predicate query_atoms)
           | None => Ok true
           end;
  if negb proven then Err "E_QUERY"
  else if negb (has_index db (pl_from p) shape) then Err "E_QUERY"
  else
    o ← index_access_candidate db p page d (leading_index_constraints p) estimate_rows;
    candidate ← ok_or o "E_QUERY";
    let candidate := match ix_predicate d with Some _ => with_proven candidate | None => candidate end in
    Ok (mkPlannedAccess (ac_plan candidate) (Some (ac_index_scan candidate)) (ac_ordered_sort candidate)).

(** ** The candidate rows *)

Definition saturating_usize (n : Z) : Z := n `min` (2 ^ 64 - 1).

(** How many rows the stages after a satisfied sort can use. *)
Fixpoint needed_rows (stages : list Stage) : option Z :=
  match stages with
  | StTake offset limit :: _ => Some (saturating_usize (offset + limit))
  | StPage spec :: _ => Some (saturating_usize (ps_limit spec + 1))
  | (StLet _ | StDerive _ | StDeriveMatch _ | StSelect _) :: stages => needed_rows stages
  | _ => None
  end.

Definition is_filter (s : Stage) : bool := match s with StFilter _ => true | _ => false end.

Fixpoint row_eligible (cat : Catalog) (stages : list Stage) (fields : Fields) : eval bool :=
  match stages with
  | [] => eret true
  | StFilter e :: stages => ebind (evaluate cat e (row_field fields)) (λ b, if b : bool then row_eligible cat stages fields else eret false)
  | _ :: stages => row_eligible cat stages fields
  end.

Definition get_row (db : Database) (name : string) (id : Z) : result (option Row) :=
  t ← table db name;
  Ok match binary_search (row_id <$> tbl_rows t) id with
     | (true, n) => tbl_rows t !! n
     | (false, _) => None
     end.

(** The loop over the hits of the scan; [residual] holds the stages that are checked before a row counts. *)
Fixpoint select_hits (db : Database) (name : string) (needed : option Z) (residual : option (list Stage)) (hits : list (list Z * Z))
    (seen : bset Z) (selected : list Z) (budget : Z) : result (list Z) :=
  match hits with
  | [] => Ok selected
  | (_, id) :: hits =>
      if bs_mem id seen then Err "E_STORAGE"
      else
        let seen := bs_insert id seen in
        o ← match residual with
            | None => Ok (Some (true, budget))
            | Some stages =>
                row ← get_row db name id;
                match row with
                | None => Ok None
                | Some row => Some <$> row_eligible (db_catalog db) stages (row_fields row) budget
                end
            end;
        match o with
        | None => select_hits db name needed residual hits seen selected budget
        | Some (eligible, budget) =>
            let selected := if eligible : bool then selected ++ [id] else selected in
            if bool_decide (needed = Some (zlen selected)) then Ok selected
            else select_hits db name needed residual hits seen selected budget
        end
  end.

(** [sort_unstable] and [dedup] of row IDs. *)
Fixpoint dedup_ids (l : list Z) : list Z :=
  match l with
  | x :: (y :: _) as l' => if x =? y then dedup_ids l' else x :: dedup_ids l'
  | _ => l
  end.
Definition sort_ids (l : list Z) : list Z := dedup_ids (merge_sort Z.le l).

(** [Vec::with_capacity] panics when its bytes exceed [isize::MAX]; a row ID has eight. *)
Definition capacity_overflows (capacity : Z) : bool := capacity * 8 >? 2 ^ 63 - 1.

Definition materialize_access_candidates (db : Database) (p : Pipeline) (page : option PreparedPage) (access : PlannedAccess)
    : result (option (list Z)) :=
  match pa_index_scan access with
  | None => Ok None
  | Some scan =>
      match is_bounds scan with
      | None => Ok (Some [])
      | Some bounds =>
          let needed := position ← pa_ordered_sort access; needed_rows (drop (S position) (pl_stages p)) in
          if bool_decide (needed = Some 0) then Ok (Some [])
          else if capacity_overflows (default 0 needed) then Err PANIC
          else
            let backward := match page with Some page => match ps_direction (pp_spec page) with Backward => true | Forward => false end
                                          | None => false end in
            let before := match pa_ordered_sort access with Some position => take position (pl_stages p) | None => [] end in
            let residual_before_sort := existsb is_filter before in
            let limit := if residual_before_sort then None else Z.to_nat <$> needed in
            hits ← scan_index db (pl_from p) (is_shape scan) bounds (xorb (is_reverse scan) backward) limit;
            let residual := match needed with Some _ => if residual_before_sort then Some before else None | None => None end in
            selected ← select_hits db (pl_from p) needed residual hits [] [] MAX_COLLECTION_PREDICATE_EVALUATIONS;
            let selected := if backward then reverse selected else selected in
            Ok (Some match pa_ordered_sort access with None => sort_ids selected | Some _ => selected end)
      end
  end.
End plan.
End access.
