(* ===== verification/Stages.v ===== *)
(** * Query stages on materialised rows

    The parts of src/src/db.rs that a query runs on the rows it holds: their size limits,
    projection, sorting, set operations and windows.  Rows are the field maps of
    [Row]; they run without an execution control,
    so deadlines, stream limits and counters are left out.  The JSON length of a row is the serde
    library's and the hash of the bytes written to a hasher is the standard library's:
    both are parameters. *)
From S2P Require Import Prelude Bytes Text Decimal Temporal Scalars Float64 BTree Model Matching Expression Database Query Access Wire.

(** The order of [Vec<String>]. *)
Fixpoint strs_cmp (a b : list string) : comparison :=
  match a, b with
  | [], [] => Eq
  | [], _ => Lt
  | _, [] => Gt
  | x :: a, y :: b => match str_cmp x y with Eq => strs_cmp a b | c => c end
  end.

Lemma strs_cmp_Eq a b : strs_cmp a b = Eq ↔ a = b.
Proof.
  revert b. induction a as [|x a IH]; intros [|y b]; cbn [strs_cmp]; try done. destruct (str_cmp x y) eqn:E.
  - apply str_cmp_Eq in E as ->. rewrite IH. split; [by intros ->|by intros [= ->]].
  - split; [done|]. intros [= -> _]. by rewrite (proj2 (str_cmp_Eq y y) eq_refl) in E.
  - split; [done|]. intros [= -> _]. by rewrite (proj2 (str_cmp_Eq y y) eq_refl) in E.
Qed.

Lemma strs_cmp_antisym a b : strs_cmp b a = CompOpp (strs_cmp a b).
Proof.
  revert b. induction a as [|x a IH]; intros [|y b]; cbn [strs_cmp]; try done. rewrite (str_cmp_antisym x y).
  destruct (str_cmp x y); [apply IH|done..].
Qed.

Lemma strs_cmp_trans a b c : strs_cmp a b = Lt → strs_cmp b c = Lt → strs_cmp a c = Lt.
Proof.
  revert b c. induction a as [|x a IH]; intros [|y b] [|z c]; cbn [strs_cmp]; try done.
  destruct (str_cmp x y) eqn:E1; [|destruct (str_cmp y z) eqn:E2|done]; try done.
  - apply str_cmp_Eq in E1 as ->. destruct (str_cmp y z); [apply IH|done..].
  - apply str_cmp_Eq in E2 as <-. by rewrite E1.
  - by rewrite (str_cmp_trans _ _ _ E1 E2).
Qed.

#[export] Instance strs_order : TotalOrder (list string) :=
  { tcmp := strs_cmp; tcmp_Eq := strs_cmp_Eq; tcmp_antisym := strs_cmp_antisym; tcmp_trans := strs_cmp_trans }.

Class RowJson := { json_len : list (string * WireValue) → result Z }.
Class JsonText := { json_text : Json → string }.

Definition MAX_QUERY_WORKING_ROWS : Z := 250000.
Definition MAX_RESULT_ROWS : Z := 100000.

(** ** Limits *)

Section sizes.
Context `{WireText} `{RowJson}.

Definition materialized_row_size (row : Fields) : result Z :=
  map_err "E_PROTOCOL" (json_len (map (λ '(n, v), (n, wire_from v)) row)).

Definition check_materialized_rows (rows : list Fields) : result Z :=
  foldR (λ encoded row,
    size ← materialized_row_size row;
    let encoded := saturating_usize (encoded + size) in
    if encoded >? GENERAL_WORKING_MAX_BYTES then Err "E_LIMIT" else Ok encoded) 0 rows.

(** The size of the row, if it fits beside what is resident. *)
Definition check_streaming_row_bytes (row : Fields) (resident_bytes : Z) : result Z :=
  row_bytes ← materialized_row_size row;
  if saturating_usize (resident_bytes + row_bytes) >? GENERAL_WORKING_MAX_BYTES then Err "E_LIMIT" else Ok row_bytes.

Definition append_working_row (rows : list Fields) (row : Fields) (resident_bytes : Z) : result (list Fields * Z) :=
  if zlen rows =? MAX_QUERY_WORKING_ROWS then Err "E_LIMIT"
  else row_bytes ← check_streaming_row_bytes row resident_bytes; Ok (rows ++ [row], saturating_usize (resident_bytes + row_bytes)).
End sizes.

(** ** Projection and sorting *)

Definition project_row (row : Fields) (columns : list string) : Fields :=
  foldl (λ out name, match row_field row name with Some v => bt_insert name v out | None => out end) [] columns.
Definition project_rows (rows : list Fields) (columns : list string) : list Fields := (λ row, project_row row columns) <$> rows.

(** [slice::sort_by], a stable sort, with a comparison that can fail.  Which pairs the
    standard library compares is not specified: here every element is compared with
    the later ones up to its place. *)
Fixpoint insert_by {A} (cmp : A → A → result comparison) (x : A) (l : list A) : result (list A) :=
  match l with
  | [] => Ok [x]
  | y :: l' => c ← cmp x y; match c with Gt => l'' ← insert_by cmp x l'; Ok (y :: l'') | _ => Ok (x :: l) end
  end.
Fixpoint sort_by {A} (cmp : A → A → result comparison) (l : list A) : result (list A) :=
  match l with
  | [] => Ok []
  | x :: l => l' ← sort_by cmp l; insert_by cmp x l'
  end.

Definition sort_by_typed (cat : Catalog) (keys : list SortKey) (rows : list Fields) : result (list Fields) :=
  sort_by (compare_rows_by_typed_keys cat keys) rows.

(** ** Set operations *)

(** What is written to a hasher. *)
Inductive HashWrite := HashTag (tag : Z) | HashInt (z : Z) | HashBool (b : bool) | HashStr (s : string).

Class RowHasher := { hash_finish : list HashWrite → Z }.

Fixpoint hash_typed_value (v : Value) : list HashWrite :=
  match v with
  | VInt z => [HashTag 0; HashInt z]
  | VFloat b => [HashTag 1; HashInt (if is_zero b then 0 else b)]
  | VBool b => [HashTag 2; HashBool b]
  | VText s => [HashTag 3; HashStr s]
  | VUuid u => [HashTag 4; HashStr (of_bytes (uuid_display u))]
  | VDate d => [HashTag 5; HashStr (of_bytes (date_display d))]
  | VTimestamp t => [HashTag 6; HashStr (of_bytes (timestamp_display t))]
  | VDuration d => [HashTag 7; HashStr (of_bytes (duration_display d))]
  | VDecimal d => [HashTag 8; HashStr (of_bytes (decimal_display d))]
  | VBytes b => [HashTag 9; HashStr (of_bytes (bytes_display b))]
  | VNull => [HashTag 10]
  | VEnum variant args id =>
      [HashTag 11; HashInt id] ++ (if id =? 0 then [HashStr variant] else []) ++ flat_map hash_typed_value args
  | VRecord fields => [HashTag 12; HashInt (zlen fields)] ++ flat_map (λ '(n, v), HashStr n :: hash_typed_value v) fields
  | VTuple items => [HashTag 13; HashInt (zlen items)] ++ flat_map hash_typed_value items
  | VList items => [HashTag 14; HashInt (zlen items)] ++ flat_map hash_typed_value items
  | VMap entries => [HashTag 17; HashInt (zlen entries)] ++ flat_map (λ '(k, v), HashStr k :: hash_typed_value v) entries
  | VOption o => [HashTag 15; HashBool (bool_decide (is_Some o))] ++ match o with Some v => hash_typed_value v | None => [] end
  | VNamed id v => [HashTag 16; HashInt id] ++ hash_typed_value v
  end.

Section set.
Context `{RowHasher}.

Definition typed_row_hash (row : Fields) (columns : Columns) : Z :=
  hash_finish (flat_map (λ c, HashStr (col_name c) :: match bt_get (col_name c) row with Some v => hash_typed_value v | None => [] end) columns).

Definition typed_rows_equal (left right : Fields) (columns : Columns) : bool :=
  forallb (λ c, match bt_get (col_name c) left, bt_get (col_name c) right with Some l, Some r => cmp_eq l r | _, _ => false end) columns.

(** Rows by their hash: positions in a vector of rows. *)
Definition Buckets : Type := list (Z * list nat).
Definition bucket_push (hash : Z) (position : nat) (b : Buckets) : Buckets :=
  bt_insert hash (default [] (bt_get hash b) ++ [position]) b.

(** [positions.iter().any(..)]; indexing a row out of range panics. *)
Fixpoint any_position (needle : Fields) (rows : list Fields) (columns : Columns) (positions : list nat) : result bool :=
  match positions with
  | [] => Ok false
  | position :: positions =>
      row ← ok_or (rows !! position) PANIC;
      if typed_rows_equal needle row columns then Ok true else any_position needle rows columns positions
  end.
Definition row_in_buckets (needle : Fields) (hash : Z) (rows : list Fields) (buckets : Buckets) (columns : Columns) : result bool :=
  match bt_get hash buckets with Some positions => any_position needle rows columns positions | None => Ok false end.

(** Append a row that is not there yet. *)
Definition push_distinct (columns : Columns) (st : list Fields * Buckets) (row : Fields) : result (list Fields * Buckets) :=
  let '(output, buckets) := st in
  let hash := typed_row_hash row columns in
  present ← row_in_buckets row hash output buckets columns;
  Ok (if present : bool then st else (output ++ [row], bucket_push hash (length output) buckets)).

Definition build_buckets (columns : Columns) (rows : list Fields) : Buckets :=
  (foldl (λ '(n, b) row, (S n, bucket_push (typed_row_hash row columns) n b)) (0%nat, []) rows).2.

Definition apply_set_operation (left right : list Fields) (operator : SetOperator) (columns : Columns) : result (list Fields) :=
  match operator with
  | Union => fst <$> foldR (push_distinct columns) ([], []) (left ++ right)
  | _ =>
      let right_buckets := build_buckets columns right in
      fst <$> foldR (λ st row,
        in_right ← row_in_buckets row (typed_row_hash row columns) right right_buckets columns;
        let include := match operator with Intersect => in_right | _ => negb in_right end in
        if include then push_distinct columns st row else Ok st) ([], []) left
  end.
End set.

(** ** Windows *)

Section window.
Context `{WireText} `{RowJson} `{Base64} `{JsonText}.

(** The values of the partition fields, printed. *)
Fixpoint partition_key (paths : list string) (row : Fields) : result (list string) :=
  match paths with
  | [] => Ok []
  | path :: paths =>
      v ← ok_or (row_field row path) "E_FIELD";
      key ← partition_key paths row;
      Ok (json_text (index_key v) :: key)
  end.

(** Eight bytes for the position of the row and the bytes of its key. *)
Definition key_bytes (key : list string) : Z := foldr (λ s n, str_len s + n) 0 key.

Fixpoint collect_partitions (paths : list string) (position : nat) (rows : list Fields)
    (partitions : list (list string * list nat)) (state_bytes : Z) : result (list (list string * list nat) * Z) :=
  match rows with
  | [] => Ok (partitions, state_bytes)
  | row :: rows =>
      key ← partition_key paths row;
      let state_bytes := saturating_usize (state_bytes + key_bytes key + 8) in
      if state_bytes >? GENERAL_WORKING_MAX_BYTES then Err "E_LIMIT"
      else collect_partitions paths (S position) rows (bt_insert key (default [] (bt_get key partitions) ++ [position]) partitions) state_bytes
  end.

Definition window_value (f : WindowFunction) (row_number rank dense_rank : Z) : Z :=
  match f with RowNumber => row_number | Rank => rank | DenseRank => dense_rank end.

(** Rows are indexed, which panics out of range. *)
Definition row_at (rows : list Fields) (i : nat) : result Fields := ok_or (rows !! i) PANIC.

Definition compare_positions (cat : Catalog) (keys : list SortKey) (rows : list Fields) (i j : nat) : result comparison :=
  l ← row_at rows i; r ← row_at rows j; compare_rows_by_typed_keys cat keys l r.

(** The loop over one sorted partition: [previous] is the row before, if any. *)
Fixpoint number_partition (cat : Catalog) (w : Window) (previous : option nat) (position rank dense_rank : Z) (indexes : list nat)
    (rows : list Fields) : result (list Fields) :=
  match indexes with
  | [] => Ok rows
  | current :: indexes =>
      '(rank, dense_rank) ←
        match previous with
        | None => Ok (rank, dense_rank)
        | Some previous =>
            c ← compare_positions cat (win_order_by w) rows previous current;
            Ok match c with Eq => (rank, dense_rank) | _ => (position + 1, saturating_usize (dense_rank + 1)) end
        end;
      row ← row_at rows current;
      row ← foldR (λ row a,
              let value := window_value (wa_function a) (position + 1) rank dense_rank in
              if is_i64 value then Ok (bt_insert (wa_name a) (VInt value) row) else Err "E_LIMIT") row (win_assignments w);
      number_partition cat w (Some current) (position + 1) rank dense_rank indexes (<[current := row]> rows)
  end.

(** Each partition is sorted and numbered; the rows keep their places. *)
Definition number_partitions (cat : Catalog) (w : Window) (partitions : list (list string * list nat)) (rows : list Fields) : result (list Fields) :=
  foldR (λ rows '(_, indexes),
    sorted ← sort_by (compare_positions cat (win_order_by w) rows) indexes;
    number_partition cat w None 0 1 1 sorted rows) rows partitions.

Definition apply_window (cat : Catalog) (w : Window) (rows : list Fields) : result (list Fields * Z) :=
  '(partitions, state_bytes) ← collect_partitions (win_partition_by w) 0 rows [] 0;
  rows ← number_partitions cat w partitions rows;
  materialized_bytes ← check_materialized_rows rows;
  let peak_bytes := saturating_usize (materialized_bytes + state_bytes) in
  if peak_bytes >? GENERAL_WORKING_MAX_BYTES then Err "E_LIMIT" else Ok (rows, peak_bytes).
End window.
