(* ===== verification/Aggregates.v ===== *)
(** * Aggregation

    The aggregate stage of src/src/db.rs: [bind_aggregate], the accumulators
    ([GroupAccumulator]), the loop over the rows of [aggregate_rows] with its limits, and
    [bind_window].  Groups are keyed by the printed index keys of the group fields;
    deadlines are left out. *)
From S2P Require Import Prelude Bytes Text Decimal Temporal Scalars Float64 FloatArith BTree Model Matching Expression Database Query Access Wire Stages.

Definition MAX_GROUPS : Z := 100000.
Definition MAX_AGGREGATE_OUTPUTS : Z := 256.
Definition MAX_WINDOW_OUTPUTS : Z := 256.
Definition MAX_AGGREGATE_CELLS : Z := 1000000.
Definition MAX_GROUP_WORKING_BYTES : Z := 64 * 1024 * 1024.

Inductive AverageTotal :=
  | TotalFloat (total : Z)
  | TotalDuration (total : Z)
  | TotalDecimal (coefficient scale : Z).

Inductive AggregateState :=
  | StateCount (count : Z)
  | StateCountDistinct (values : bset string)
  | StateAverage (total : option AverageTotal) (count : Z)
  | StateSum (total : option Value)
  | StateMin (current : option Value)
  | StateMax (current : option Value).

Record GroupAccumulator := mkGroupAccumulator { ga_fields : list (string * Value); ga_states : list AggregateState }.

(** ** Binding *)

Section bind.
Context (cat : Catalog) (schema : Columns).

(** The input is bound in place: the assignment that is returned holds it. *)
Definition aggregate_input_type (a : AggregateAssignment) : result (AggregateAssignment * ScalarType) :=
  input ← ok_or (ag_input a) "E_QUERY";
  '(input, ty) ← bind_scalar cat schema "aggregate input" input None;
  Ok (mkAggregateAssignment (ag_name a) (ag_function a) (Some input) (ag_output_type a), ty).

Definition aggregate_type (a : AggregateAssignment) : result (AggregateAssignment * ScalarType) :=
  match ag_function a with
  | Count => Ok (a, TInt)
  | CountDistinct => '(a, _) ← aggregate_input_type a; Ok (a, TInt)
  | Average =>
      '(a, ty) ← aggregate_input_type a;
      u ← underlying cat ty;
      result ← match u with TInt => Ok TFloat | TFloat | TDuration => Ok ty | _ => Err "E_TYPE" end;
      Ok (a, TOption result)
  | DecimalAverage precision scale _ =>
      '(a, ty) ← aggregate_input_type a;
      u ← underlying cat ty;
      match u with TDecimal _ _ => Ok (a, TOption (TDecimal precision scale)) | _ => Err "E_TYPE" end
  | Sum =>
      '(a, ty) ← aggregate_input_type a;
      u ← underlying cat ty;
      match u with TInt | TFloat | TDuration | TDecimal _ _ => Ok (a, ty) | _ => Err "E_TYPE" end
  | Min | Max =>
      '(a, ty) ← aggregate_input_type a;
      ordered ← orderable cat ty;
      if ordered : bool then Ok (a, TOption ty) else Err "E_TYPE"
  end.

Fixpoint bind_groups (paths : list string) (names : bset string) (output : Columns) : result (bset string * Columns) :=
  match paths with
  | [] => Ok (names, output)
  | path :: paths =>
      if bs_mem path names then Err "E_QUERY"
      else ty ← field_type cat schema path; bind_groups paths (bs_insert path names) (output ++ [Column path ty None 0])
  end.

Fixpoint bind_assignments (assignments : list AggregateAssignment) (names : bset string) (output : Columns)
    : result (list AggregateAssignment * Columns) :=
  match assignments with
  | [] => Ok ([], output)
  | a :: assignments =>
      if bs_mem (ag_name a) names then Err "E_FIELD"
      else
        '(a', ty) ← aggregate_type a;
        '(rest, output) ← bind_assignments assignments (bs_insert (ag_name a) names) (output ++ [Column (ag_name a) ty None 0]);
        Ok (mkAggregateAssignment (ag_name a') (ag_function a') (ag_input a') (Some ty) :: rest, output)
  end.

Definition bind_aggregate (agg : Aggregate) : result (Aggregate * Columns) :=
  if zlen (agg_assignments agg) >? MAX_AGGREGATE_OUTPUTS then Err "E_LIMIT"
  else
    '(names, output) ← bind_groups (agg_group_by agg) [] [];
    '(assignments, output) ← bind_assignments (agg_assignments agg) names output;
    Ok (mkAggregate (agg_group_by agg) assignments, output).
End bind.

Definition bind_window (cat : Catalog) (schema : Columns) (w : Window) : result (Columns * Window) :=
  if zlen (win_assignments w) >? MAX_WINDOW_OUTPUTS then Err "E_LIMIT"
  else
    _ ← mapR (field_type cat schema) (win_partition_by w);
    order_by ← mapR (λ key,
      ty ← field_type cat schema (sk_column key);
      ordered ← orderable cat ty;
      if ordered : bool then Ok (mkSortKey (sk_column key) (sk_descending key) (Some ty)) else Err "E_TYPE") (win_order_by w);
    schema ← foldR (λ schema a,
      if existsb (λ c, String.eqb (col_name c) (wa_name a)) schema then Err "E_FIELD"
      else Ok (schema ++ [Column (wa_name a) TInt None 0])) schema (win_assignments w);
    Ok (schema, mkWindow (win_partition_by w) order_by (win_assignments w)).

(** ** Accumulators *)

Definition new_state (f : AggregateFunction) : AggregateState :=
  match f with
  | Count => StateCount 0
  | CountDistinct => StateCountDistinct []
  | Average | DecimalAverage _ _ _ => StateAverage None 0
  | Sum => StateSum None
  | Min => StateMin None
  | Max => StateMax None
  end.
Definition accumulator_new (fields : list (string * Value)) (assignments : list AggregateAssignment) : GroupAccumulator :=
  mkGroupAccumulator fields (map (λ a, new_state (ag_function a)) assignments).

Definition finite (b : Z) : result Z := if is_finite b then Ok b else Err "E_ARITH".

Definition average_step (total : option AverageTotal) (value : Value) : result AverageTotal :=
  match total, value with
  | None, VInt v => Ok (TotalFloat (i64_as_f64 v))
  | None, VFloat v => Ok (TotalFloat v)
  | None, VDuration v => Ok (TotalDuration v)
  | None, VDecimal d => Ok (TotalDecimal (coefficient d) (scale d))
  | Some (TotalFloat total), VInt v => TotalFloat <$> finite (f64_add total (i64_as_f64 v))
  | Some (TotalFloat total), VFloat v => TotalFloat <$> finite (f64_add total v)
  | Some (TotalDuration total), VDuration v => Ok (TotalDuration (total + v))
  | Some (TotalDecimal c s), VDecimal d => if s =? scale d then Ok (TotalDecimal (c + coefficient d) s) else Err "E_TYPE"
  | _, _ => Err "E_TYPE"
  end.

(** A decimal sum that exceeds its type is reported as an arithmetic error. *)
Definition range_as_arith {A} (m : result A) : result A :=
  match m with Err e => Err (if String.eqb e "E_DECIMAL_RANGE" then "E_ARITH" else e) | Ok a => Ok a end.

Definition sum_step (a : AggregateAssignment) (total : option Value) (value : Value) : result Value :=
  match total, value with
  | None, VInt v => Ok (VInt v)
  | None, VFloat v => Ok (VFloat v)
  | None, VDuration v => Ok (VDuration v)
  | None, VDecimal d => Ok (VDecimal d)
  | Some (VInt total), VInt v => VInt <$> ok_or (checked is_i64 (total + v)) "E_ARITH"
  | Some (VFloat total), VFloat v => VFloat <$> finite (f64_add total v)
  | Some (VDuration total), VDuration v => VDuration <$> ok_or (checked is_i64 (total + v)) "E_ARITH"
  | Some (VDecimal total), VDecimal d =>
      result ← checked_add total d;
      ty ← ok_or (ag_output_type a) "E_TYPE";
      match ty with
      | TDecimal precision scale => VDecimal <$> range_as_arith (rescale result precision scale)
      | _ => Err "E_TYPE"
      end
  | _, _ => Err "E_TYPE"
  end.

Definition update_extreme (cat : Catalog) (a : AggregateAssignment) (current : option Value) (value : Value) (minimum : bool) : result (option Value) :=
  match current with
  | None => Ok (Some value)
  | Some existing =>
      output_type ← ok_or (ag_output_type a) "E_TYPE";
      match output_type with
      | TOption input_type =>
          order ← cmp_typed cat input_type value existing;
          let replace := match order with Lt => minimum | Gt => negb minimum | Eq => false end in
          Ok (if replace then Some value else current)
      | _ => Err "E_TYPE"
      end
  end.

Section accumulate.
Context `{TextLib} `{Base64} `{JsonText} (cat : Catalog).

Definition aggregate_input (row : Fields) (a : AggregateAssignment) : result Value :=
  input ← ok_or (ag_input a) "E_QUERY"; evaluate_value cat input (row_field row).

Definition distinct_step (values : bset string) (key : string) (working_bytes : Z) : bset string * Z :=
  if bs_mem key values then (values, working_bytes)
  else (bs_insert key values, saturating_usize (working_bytes + saturating_usize (saturating_usize (str_len key * 2) + 32))).

Definition update_state (row : Fields) (a : AggregateAssignment) (state : AggregateState) (working_bytes : Z) : result (AggregateState * Z) :=
  match state with
  | StateCount count => c ← ok_or (checked is_i64 (count + 1)) "E_ARITH"; Ok (StateCount c, working_bytes)
  | StateCountDistinct values =>
      v ← aggregate_input row a;
      let '(values, working_bytes) := distinct_step values (json_text (index_key v)) working_bytes in
      Ok (StateCountDistinct values, working_bytes)
  | StateAverage total count =>
      v ← aggregate_input row a;
      c ← ok_or (checked is_i64 (count + 1)) "E_ARITH";
      t ← average_step total (unwrapped v);
      Ok (StateAverage (Some t) c, working_bytes)
  | StateSum total => v ← aggregate_input row a; t ← sum_step a total (unwrapped v); Ok (StateSum (Some t), working_bytes)
  | StateMin current => v ← aggregate_input row a; c ← update_extreme cat a current v true; Ok (StateMin c, working_bytes)
  | StateMax current => v ← aggregate_input row a; c ← update_extreme cat a current v false; Ok (StateMax c, working_bytes)
  end.

(** [zip]: the shorter of the two lists ends the loop. *)
Fixpoint update_states (row : Fields) (assignments : list AggregateAssignment) (states : list AggregateState) (working_bytes : Z)
    : result (list AggregateState * Z) :=
  match states, assignments with
  | state :: states, a :: assignments =>
      '(state, working_bytes) ← update_state row a state working_bytes;
      '(states, working_bytes) ← update_states row assignments states working_bytes;
      Ok (state :: states, working_bytes)
  | _, _ => Ok (states, working_bytes)
  end.

Definition accumulator_update (g : GroupAccumulator) (row : Fields) (assignments : list AggregateAssignment) (working_bytes : Z)
    : result (GroupAccumulator * Z) :=
  '(states, working_bytes) ← update_states row assignments (ga_states g) working_bytes;
  Ok (mkGroupAccumulator (ga_fields g) states, working_bytes).

Definition finish_average (a : AggregateAssignment) (total : AverageTotal) (count : Z) : result Value :=
  match total with
  | TotalFloat total => r ← finite (f64_div total (i64_as_f64 count)); Ok (VFloat (if is_zero r then 0 else r))
  | TotalDuration total => VDuration <$> ok_or (checked is_i64 (Z.quot total count)) "E_ARITH"
  | TotalDecimal c s =>
      match ag_function a with
      | DecimalAverage precision target_scale rounding => VDecimal <$> average_coefficients c s count precision target_scale rounding
      | _ => Err "E_TYPE"
      end
  end.

(** The sum of no values. *)
Definition empty_sum (output_type : ScalarType) : result Value :=
  u ← underlying cat output_type;
  match u with
  | TInt => Ok (VInt 0)
  | TFloat => Ok (VFloat 0)
  | TDuration => Ok (VDuration 0)
  | TDecimal precision scale => map_err PANIC (VDecimal <$> decimal_new 0 precision scale)
  | _ => Err "E_TYPE"
  end.

Definition raw_result (a : AggregateAssignment) (output_type : ScalarType) (state : AggregateState) : result Value :=
  match state with
  | StateCount count => Ok (VInt count)
  | StateCountDistinct values => VInt <$> ok_or (checked is_i64 (zlen values)) "E_ARITH"
  | StateAverage None _ => Ok (VOption None)
  | StateAverage (Some total) count => v ← finish_average a total count; Ok (VOption (Some v))
  | StateSum (Some (VFloat b)) => Ok (VFloat (if is_zero b then 0 else b))
  | StateSum (Some v) => Ok v
  | StateSum None => empty_sum output_type
  | StateMin v | StateMax v => Ok (VOption v)
  end.

Fixpoint finish_states (assignments : list AggregateAssignment) (states : list AggregateState) (row : Fields) : result Fields :=
  match states, assignments with
  | state :: states, a :: assignments =>
      output_type ← ok_or (ag_output_type a) "E_TYPE";
      raw ← raw_result a output_type state;
      v ← coerce cat raw output_type;
      finish_states assignments states (bt_insert (ag_name a) v row)
  | _, _ => Ok row
  end.

Definition accumulator_finish (g : GroupAccumulator) (assignments : list AggregateAssignment) : result Fields :=
  finish_states assignments (ga_states g) (foldl (λ row '(n, v), bt_insert n v row) [] (ga_fields g)).

(** ** Groups *)

Definition Groups : Type := list (list string * GroupAccumulator).

Definition check_group_limits (group_count aggregate_count working_bytes : Z) : result unit :=
  if (group_count >? MAX_GROUPS) || (saturating_usize (group_count * (aggregate_count `max` 1)) >? MAX_AGGREGATE_CELLS) then Err "E_LIMIT"
  else if working_bytes >? MAX_GROUP_WORKING_BYTES then Err "E_LIMIT"
  else Ok tt.

Definition new_aggregate_groups (agg : Aggregate) : Groups :=
  match agg_group_by agg with [] => [([], accumulator_new [] (agg_assignments agg))] | _ => [] end.

(** The printed key and the values of the group fields. *)
Fixpoint group_fields (paths : list string) (row : Fields) : result (list string * list (string * Value)) :=
  match paths with
  | [] => Ok ([], [])
  | path :: paths =>
      v ← ok_or (row_field row path) "E_FIELD";
      '(key, values) ← group_fields paths row;
      Ok (json_text (index_key v) :: key, (path, v) :: values)
  end.

Definition aggregate_one_row (agg : Aggregate) (st : Groups * Z) (row : Fields) : result (Groups * Z) :=
  let '(groups, working_bytes) := st in
  '(key, values) ← group_fields (agg_group_by agg) row;
  let next_group_count := saturating_usize (zlen groups + 1) in
  '(groups, working_bytes) ←
    (if bt_mem key groups then Ok (groups, working_bytes)
     else
       let group_bytes := saturating_usize (saturating_usize (key_bytes key * 2) + saturating_usize (zlen (agg_assignments agg) * 32)) in
       let working_bytes := saturating_usize (working_bytes + group_bytes) in
       _ ← check_group_limits next_group_count (zlen (agg_assignments agg)) working_bytes;
       Ok (bt_insert key (accumulator_new values (agg_assignments agg)) groups, working_bytes));
  group ← ok_or (bt_get key groups) PANIC;
  '(group, working_bytes) ← accumulator_update group row (agg_assignments agg) working_bytes;
  let groups := bt_insert key group groups in
  _ ← check_group_limits (zlen groups) (zlen (agg_assignments agg)) working_bytes;
  Ok (groups, working_bytes).

Definition finish_aggregate_groups (groups : Groups) (agg : Aggregate) : result (list Fields) :=
  mapR (λ '(_, group), accumulator_finish group (agg_assignments agg)) groups.

Definition aggregate_rows (agg : Aggregate) (rows : list Fields) : result (list Fields) :=
  '(groups, _) ← foldR (aggregate_one_row agg) (new_aggregate_groups agg, 0) rows;
  finish_aggregate_groups groups agg.
End accumulate.
