(* ===== verification/Ranges.v ===== *)
(** * Byte ranges of an index scan

    The bounds that src/src/db.rs computes from encoded limits ([prefix_successor],
    [prefix_bounds], [index_range_bounds], [page_seek_bounds]) hold exactly the keys they
    are meant to: this file is about byte strings, and about codes that differ at a byte
    when they differ. *)
From stdpp Require Import sets.
From S2P Require Import Prelude Bytes Text Decimal Temporal Scalars BTree Model Coerce OrderedKey Matching Coverage Catalog Schema Expression Typing IndexPredicate Database Query Access.

#[local] Strategy 1000 [MAX_DEPTH cmp_typed encode_value].

Definition ble (a b : list Z) : Prop := bytes_cmp a b ≠ Gt.

Lemma above_included b k : above (Included b) k = true ↔ ble b k.
Proof. unfold above, ble. by destruct (bytes_cmp b k). Qed.

Lemma below_excluded b k : below (Excluded b) k = true ↔ bytes_cmp k b = Lt.
Proof. unfold below. by destruct (bytes_cmp k b). Qed.

Lemma bytes_cmp_app p a b : bytes_cmp (p ++ a) (p ++ b) = bytes_cmp a b.
Proof. induction p as [|x p IH]; simpl; [done|]. by rewrite Z.compare_refl. Qed.

Lemma ble_prefix a b : ble a (a ++ b).
Proof. unfold ble. rewrite <-(app_nil_r a) at 1. rewrite bytes_cmp_app. by destruct b. Qed.

Lemma bytes_lt_le_trans a b c : bytes_cmp a b = Lt → ble b c → bytes_cmp a c = Lt.
Proof.
  unfold ble. intros Hab Hbc. destruct (bytes_cmp b c) eqn:E; [apply bytes_cmp_Eq in E as <-; done|by eapply bytes_cmp_Lt_trans|done].
Qed.

Lemma bytes_lt_le a b : bytes_cmp a b = Lt → ble a b.
Proof. unfold ble. by intros ->. Qed.

(** ** Successors *)

(** A prefix with a successor is some bytes, a byte below the largest, and largest bytes. *)
Lemma prefix_successor_Some p s : prefix_successor p = Some s →
  ∃ q b n, p = q ++ b :: replicate n 255 ∧ b ≠ 255 ∧ s = q ++ [b + 1].
Proof.
  intros Hs. rewrite <-(reverse_involutive p). revert Hs. unfold prefix_successor. generalize (reverse p). clear p. intros p.
  induction p as [|x p IH]; [done|]. simpl. destruct (Z.eqb_spec x 255) as [->|Hx].
  - intros Hs. destruct (IH Hs) as (q & b & n & Hp & Hb & ->). exists q, b, (S n). split_and!; [|done..].
    rewrite reverse_cons, Hp, <-app_assoc. f_equal. simpl. f_equal. by rewrite <-(replicate_cons_app n 255).
  - intros [= <-]. exists (reverse p), x, 0%nat. rewrite !reverse_cons. done.
Qed.

Lemma prefix_successor_None p : prefix_successor p = None → p = replicate (length p) 255.
Proof.
  intros Hs. rewrite <-(reverse_involutive p). revert Hs. unfold prefix_successor. generalize (reverse p). clear p. intros p.
  rewrite length_reverse. induction p as [|x p IH]; [done|]. simpl. destruct (Z.eqb_spec x 255) as [->|Hx]; [|done]. intros Hs.
  rewrite reverse_cons, (IH Hs), <-replicate_cons_app. done.
Qed.

(** Every extension of a prefix is below its successor. *)
Lemma prefix_below p s k : prefix_successor p = Some s → bytes_cmp (p ++ k) s = Lt.
Proof.
  intros (q & b & n & -> & _ & ->)%prefix_successor_Some. rewrite <-app_assoc, bytes_cmp_app. simpl.
  by rewrite (proj2 (Z.compare_lt_iff b (b + 1))) by lia.
Qed.

(** A code above a prefix is at or above its successor, which then exists. *)
Lemma successor_le p k : all_bytes k = true → code_cmp Lt p k → ∃ s, prefix_successor p = Some s ∧ ble s k.
Proof.
  intros Hk Hc. inversion Hc as [|q x y u t c Hne Hlt']; subst. pose proof (proj1 (Z.compare_lt_iff x y) Hlt') as Hlt. clear Hlt'.
  assert (Hy : y < 256). { apply all_bytes_Forall, Forall_app in Hk as [_ Hk]. apply list.Forall_cons in Hk as [Hk _]. lia. }
  destruct (prefix_successor (q ++ x :: u)) as [s|] eqn:Es.
  - exists s. split; [done|]. apply prefix_successor_Some in Es as (q' & b & n & Heq & Hb & ->).
    destruct (decide (length q < length q')%nat) as [Hl|Hl].
    + (* The incremented byte comes after the one that differs. *)
      assert (∃ w, q' = q ++ x :: w) as (w & ->).
      { assert (Hq : q = take (length q) q').
        { apply (f_equal (take (length q))) in Heq. rewrite take_app_length, take_app_le in Heq by lia. done. }
        assert (Hx : q' !! length q = Some x).
        { rewrite <-(lookup_app_l q' (b :: replicate n 255)) by lia. rewrite <-Heq. by apply list_lookup_middle. }
        exists (drop (S (length q)) q'). rewrite Hq at 1. by rewrite (take_drop_middle _ _ _ Hx). }
      rewrite <-app_assoc. unfold ble. rewrite bytes_cmp_app. simpl. by rewrite (proj2 (Z.compare_lt_iff x y)).
    + assert (∃ w, q = q' ++ w) as (w & ->).
      { exists (drop (length q') q). rewrite <-(take_drop (length q') q) at 1. f_equal.
        apply (f_equal (take (length q'))) in Heq. by rewrite take_app_length, take_app_le in Heq by lia. }
      unfold ble. rewrite <-app_assoc, bytes_cmp_app. rewrite <-app_assoc in Heq. apply app_inv_head in Heq.
      destruct w as [|z w]; simpl in *.
      * injection Heq as -> _. destruct (Z.compare_spec (b + 1) y); simpl; [by destruct t|done|lia].
      * injection Heq as -> Hw. assert (x = 255); [|lia].
        assert (Hin : x ∈ replicate n 255) by (rewrite <-Hw; set_solver). by apply elem_of_replicate in Hin as [-> _].
  - apply prefix_successor_None in Es. assert (Hin : x ∈ replicate (length (q ++ x :: u)) 255) by (rewrite <-Es; set_solver).
    apply elem_of_replicate in Hin as [-> _]. lia.
Qed.

Lemma prefix_bounds_hold p k : above (prefix_bounds p).1 (p ++ k) && below (prefix_bounds p).2 (p ++ k) = true.
Proof.
  unfold prefix_bounds. destruct p as [|x p]; [done|]. cbn [fst snd]. apply andb_true_iff. split; [by apply above_included, ble_prefix|].
  destruct (prefix_successor (x :: p)) as [s|] eqn:Es; [|done]. apply below_excluded. by apply prefix_below.
Qed.

(** ** Limits *)

Lemma logical_lower_holds l k b inclusive : logical_lower l inclusive = Some b → all_bytes k = true →
  (∃ t, inclusive = true ∧ k = l ++ t) ∨ code_cmp Lt l k → above b k = true.
Proof.
  unfold logical_lower. destruct inclusive.
  - intros [= <-] _ [(t & _ & ->)|Hc]; apply above_included; [apply ble_prefix|]. by apply bytes_lt_le, code_cmp_bytes.
  - intros Hs Hk [(t & ? & _)|Hc]; [done|]. destruct (successor_le l k Hk Hc) as (s & Hs' & Hle). rewrite Hs' in Hs. injection Hs as <-.
    by apply above_included.
Qed.

Lemma logical_lower_exists l k inclusive : all_bytes k = true → code_cmp Lt l k ∨ inclusive = true → is_Some (logical_lower l inclusive).
Proof.
  unfold logical_lower. intros Hk [Hc| ->]; [|done]. destruct inclusive; [done|]. destruct (successor_le l k Hk Hc) as (s & -> & _). done.
Qed.

Lemma logical_upper_holds l k b inclusive : logical_upper l inclusive = Some b → 
  (∃ t, inclusive = true ∧ k = l ++ t) ∨ code_cmp Lt k l → below b k = true.
Proof.
  unfold logical_upper. destruct inclusive; intros [= <-].
  - destruct (prefix_successor l) as [s|] eqn:Es; [|done]. intros [(t & _ & ->)|Hc]; apply below_excluded; [by apply prefix_below|].
    eapply bytes_lt_le_trans; [by apply code_cmp_bytes|]. apply bytes_lt_le. rewrite <-(app_nil_r l). by apply prefix_below.
  - intros [(t & ? & _)|Hc]; [done|]. by apply below_excluded, code_cmp_bytes.
Qed.

(** ** Keys are bytes *)

Lemma all_bytes_concat l : (∀ a, a ∈ l → all_bytes a = true) → all_bytes (concat l) = true.
Proof.
  intros Hl. induction l as [|a l IH]; [done|]. simpl. rewrite all_bytes_app, (Hl a), IH; [done| |by left]. intros b Hb. apply Hl. by right.
Qed.

Lemma encode_escaped_bytes l : all_bytes l = true → all_bytes (encode_escaped l) = true.
Proof.
  intros Hl. unfold encode_escaped. rewrite all_bytes_app, andb_true_r. apply all_bytes_concat. intros a (b & -> & Hb)%list_elem_of_fmap.
  apply all_bytes_Forall in Hl. rewrite list.Forall_forall in Hl. specialize (Hl b Hb). apply all_bytes_Forall. destruct (b =? 0); repeat constructor; lia.
Qed.

Lemma mapR_bytes {A} (f : A → result (list Z)) l chunks : mapR f l = Ok chunks → (∀ x a, x ∈ l → f x = Ok a → all_bytes a = true) →
  all_bytes (concat chunks) = true.
Proof.
  intros Hm%mapR_Ok Hf. apply all_bytes_concat. intros a Ha. induction Hm as [|x y l k Hx _ IH]; [by apply elem_of_nil in Ha|].
  apply elem_of_cons in Ha as [->|Ha]; [by apply (Hf x); [left|]|]. apply IH; [|done]. intros z b Hz. apply Hf. by right.
Qed.

Lemma encode_value_bytes fuel cat version ty v a : wf_value v = true → encode_value fuel cat version ty v = Ok a → all_bytes a = true.
Proof.
  revert ty v a. induction fuel as [|fuel IH]; intros ty v a Hw He; [done|]. cbn [encode_value] in He.
  assert (Hin : ∀ vs x, forallb wf_value vs = true → x ∈ vs → wf_value x = true).
  { intros vs x. rewrite forallb_Forall, list.Forall_forall. auto. }
  assert (Hzip : ∀ tys vs chunks, forallb wf_value vs = true → mapR (λ '(t, v), encode_value fuel cat version t v) (zip tys vs) = Ok chunks →
    all_bytes (concat chunks) = true).
  { intros tys vs chunks Hvs Hm. apply (mapR_bytes _ _ _ Hm). intros [t x] b Hx. apply IH. apply (Hin vs); [done|].
    by apply elem_of_zip_r in Hx. }
  destruct ty; destruct v; try discriminate He; try (case_if_in He; discriminate He); cbn [wf_value] in Hw;
    try (apply Ok_inj in He as <-; apply be_bytes_all_bytes).
  - case_if_in He; [|done]. apply Ok_inj in He as <-. apply be_bytes_all_bytes.
  - apply Ok_inj in He as <-. by destruct b.
  - apply Ok_inj in He as <-. apply encode_escaped_bytes, as_bytes_all_bytes.
  - apply Ok_inj in He as <-. unfold wf_uuid in Hw. by bool_inv.
  - case_if_in He; [|done]. apply Ok_inj in He as <-. apply be_bytes_all_bytes.
  - apply Ok_inj in He as <-. apply encode_escaped_bytes. unfold wf_bytes in Hw. by bool_inv.
  - apply bind_Ok in He as (vr & _ & He). case_if_in He; [done|]. apply bind_Ok in He as (chunks & Hc & He). apply Ok_inj in He as <-.
    rewrite all_bytes_app, be_bytes_all_bytes. bool_inv. by eapply Hzip.
  - case_if_in He; [done|]. apply fmap_Ok in He as (chunks & Hc & ->). apply (mapR_bytes _ _ _ Hc). intros c b _ Hb.
    apply bind_Ok in Hb as (x & Hx%ok_or_Ok%bt_get_elem & Hb). bool_inv. eapply IH; [|exact Hb]. by eapply wf_entries_elem.
  - case_if_in He; [done|]. apply fmap_Ok in He as (chunks & Hc & ->). by eapply Hzip.
  - destruct o as [v|]; [|by apply Ok_inj in He as <-]. apply fmap_Ok in He as (b & Hb & ->). simpl. by rewrite (IH _ _ _ Hw Hb).
  - apply bind_Ok in He as (chunks & Hc & He). apply Ok_inj in He as <-. rewrite all_bytes_app, andb_true_r. apply (mapR_bytes _ _ _ Hc).
    intros x b Hx (c & Hb & ->)%fmap_Ok. simpl. eapply IH; [|exact Hb]. by eapply Hin.
  - case_if_in He; [done|]. apply bind_Ok in He as (chunks & Hc & He). apply Ok_inj in He as <-. rewrite all_bytes_app, andb_true_r.
    apply (mapR_bytes _ _ _ Hc). intros [k x] b Hx Hb. apply bind_Ok in Hb as (c & Hb & Eb). apply Ok_inj in Eb as <-. simpl. bool_inv.
    rewrite all_bytes_app, encode_escaped_bytes by apply as_bytes_all_bytes. eapply IH; [|exact Hb]. by eapply wf_entries_elem.
  - case_if_in He; [|done]. apply bind_Ok in He as (d & _ & He). bool_inv. by eapply IH.
Qed.

Notation code cat := (encode_component cat MAP_INDEX_KEY_CODEC_VERSION).

Lemma code_bytes cat c a : wf_value (comp_value c) = true → code cat c = Ok a → all_bytes a = true.
Proof.
  unfold encode_component. intros Hw He. apply bind_Ok in He as (b & Hb & <-%Ok_inj). apply encode_value_bytes in Hb; [|done].
  destruct (comp_descending c); [by apply complement_all_bytes|done].
Qed.

(** The codes of two values of a component compare as the values do, the other way round when descending. *)
Lemma code_order cat ty v w descending a b : wf_value v = true → wf_value w = true →
  code cat (mkComponent ty v descending) = Ok a → code cat (mkComponent ty w descending) = Ok b →
  ∃ c, cmp_typed cat ty v w = Ok c ∧ code_cmp (rev_if descending c) a b.
Proof.
  unfold encode_component, cmp_typed. cbn [comp_ty comp_value comp_descending]. intros Hv Hw Ha Hb. apply bind_Ok in Ha as (a' & Ha & <-%Ok_inj). apply bind_Ok in Hb as (b' & Hb & <-%Ok_inj).
  destruct (encode_value_order _ _ _ _ _ _ _ _ Hv Hw Ha Hb) as (c & Hc & Hk). exists c. split; [done|].
  destruct descending; [by apply code_cmp_complement|done].
Qed.

Lemma encode_tuple_codes cat l k : encode_tuple cat l = Ok k → ∃ codes, mapR (code cat) l = Ok codes ∧ k = concat codes.
Proof. intros He. by apply encode_tuple_version_Ok in He as (_ & codes). Qed.

Lemma encode_tuple_single cat c k : encode_tuple cat [c] = Ok k → code cat c = Ok k.
Proof.
  intros (codes & Hm & ->)%encode_tuple_codes. cbn [mapR] in Hm. apply bind_Ok in Hm as (a & Ha & Hm). apply (bind_Ok (Ok [])) in Hm as (r & <-%Ok_inj & <-%Ok_inj).
  simpl. by rewrite app_nil_r.
Qed.

(** ** What a range holds *)

(** The order of two values, however deep they are. *)
Definition ordered (cat : Catalog) (ty : ScalarType) (v w : Value) (c : comparison) : Prop :=
  ∃ n, (MAX_DEPTH ≤ n)%nat ∧ cmp_typed_inner n cat ty v w = Ok c.

Lemma ordered_typed cat ty v w c : cmp_typed cat ty v w = Ok c → ordered cat ty v w c.
Proof. unfold cmp_typed. intros Hc. exists MAX_DEPTH. split; [apply Nat.le_refl|exact Hc]. Qed.

Lemma ordered_inj cat ty v w c d : ordered cat ty v w c → ordered cat ty v w d → c = d.
Proof.
  intros (n & Hn & Hc) (m & Hm & Hd). destruct (cmp_typed_inner_fuel n (n + m) cat ty v w ltac:(lia)) as [E|E]; [congruence|].
  destruct (cmp_typed_inner_fuel m (n + m) cat ty v w ltac:(lia)) as [E'|E']; congruence.
Qed.

(** The value is on the right side of a limit. *)
Definition satisfies_lower (cat : Catalog) (ty : ScalarType) (v : Value) (l : RangeLimit) : Prop :=
  ordered cat ty v (rl_value l) Gt ∨ (ordered cat ty v (rl_value l) Eq ∧ rl_inclusive l = true).
Definition satisfies_upper (cat : Catalog) (ty : ScalarType) (v : Value) (l : RangeLimit) : Prop :=
  ordered cat ty v (rl_value l) Lt ∨ (ordered cat ty v (rl_value l) Eq ∧ rl_inclusive l = true).

Definition within (cat : Catalog) (ty : ScalarType) (v : Value) (lower upper : option RangeLimit) : Prop :=
  (∀ l, lower = Some l → satisfies_lower cat ty v l ∧ wf_value (rl_value l) = true) ∧
  (∀ u, upper = Some u → satisfies_upper cat ty v u ∧ wf_value (rl_value u) = true).

Section range.
Context (cat : Catalog) (ty : ScalarType) (descending : bool) (prefix code_v tail : list Z) (v : Value).
Hypotheses (Hv : wf_value v = true) (Hcode : code cat (mkComponent ty v descending) = Ok code_v)
  (Hbytes : all_bytes (prefix ++ code_v ++ tail) = true).
Notation key := (prefix ++ code_v ++ tail).

Lemma code_cmp_sym c a b : code_cmp c a b → code_cmp (CompOpp c) b a.
Proof. intros [l|p x y s t c' Hne <-]; [constructor|]. rewrite <-Z.compare_antisym. constructor; [|done]. rewrite Z.compare_antisym. by destruct (x ?= y). Qed.

Lemma code_cmp_prefix c p a b : code_cmp c a b → code_cmp c (p ++ a) (p ++ b).
Proof. intros Hc. apply (code_cmp_app Eq c p p a b); [constructor|done]. Qed.

(** The key against the key of a limit. *)
Lemma limit_key l k : wf_value (rl_value l) = true → encoded_component cat ty (rl_value l) descending prefix = Ok k →
  ∃ c, ordered cat ty v (rl_value l) c ∧
    (c = Eq → ∃ t, key = k ++ t) ∧ (rev_if descending c = Gt → code_cmp Lt k key) ∧ (rev_if descending c = Lt → code_cmp Lt key k).
Proof.
  unfold encoded_component. intros Hw He. apply bind_Ok in He as (b & Hb%encode_tuple_single & <-%Ok_inj).
  destruct (code_order cat ty v (rl_value l) descending _ _ Hv Hw Hcode Hb) as (c & Hc & Hk). exists c. split_and!; [by apply ordered_typed|..].
  - intros ->. assert (Hk' : code_cmp Eq code_v b) by (by destruct descending). inversion Hk'; subst; [|done]. exists tail. by rewrite app_assoc.
  - intros E. rewrite E in Hk. apply code_cmp_prefix. rewrite <-(app_nil_r b). apply code_cmp_ne; [done|]. by apply (code_cmp_sym Gt).
  - intros E. rewrite E in Hk. apply code_cmp_prefix. rewrite <-(app_nil_r b). by apply code_cmp_ne.
Qed.

Lemma satisfies_lower_key l k : satisfies_lower cat ty v l → wf_value (rl_value l) = true → encoded_component cat ty (rl_value l) descending prefix = Ok k →
  (∃ t, rl_inclusive l = true ∧ key = k ++ t) ∨ code_cmp Lt (if descending then key else k) (if descending then k else key).
Proof.
  intros Hs Hw Hk. destruct (limit_key l k Hw Hk) as (c & Hc & He & Hg & Hl). destruct Hs as [Hs|[Hs Hi]]; pose proof (ordered_inj _ _ _ _ _ _ Hc Hs) as ->.
  - right. destruct descending; [by apply Hl|by apply Hg].
  - left. destruct (He eq_refl) as [t Ht]. by exists t.
Qed.

Lemma satisfies_upper_key l k : satisfies_upper cat ty v l → wf_value (rl_value l) = true → encoded_component cat ty (rl_value l) descending prefix = Ok k →
  (∃ t, rl_inclusive l = true ∧ key = k ++ t) ∨ code_cmp Lt (if descending then k else key) (if descending then key else k).
Proof.
  intros Hs Hw Hk. destruct (limit_key l k Hw Hk) as (c & Hc & He & Hg & Hl). destruct Hs as [Hs|[Hs Hi]]; pose proof (ordered_inj _ _ _ _ _ _ Hc Hs) as ->.
  - right. destruct descending; [by apply Hg|by apply Hl].
  - left. destruct (He eq_refl) as [t Ht]. by exists t.
Qed.

(** A start that the key is at or above, and an end that it is below. *)
Lemma start_holds o b : (∀ k i, o = Some (k, i) → (∃ t, i = true ∧ key = k ++ t) ∨ code_cmp Lt k key) →
  match o with Some (k, i) => logical_lower k i | None => Some (prefix_bounds prefix).1 end = b → ∃ s, b = Some s ∧ above s key = true.
Proof.
  intros Ho <-. destruct o as [[k i]|].
  - specialize (Ho k i eq_refl). destruct (logical_lower k i) as [s|] eqn:Es.
    + exists s. split; [done|]. by eapply logical_lower_holds.
    + destruct (logical_lower_exists k key i Hbytes) as [? E]; [destruct Ho as [(? & ? & _)|?]; auto|]. congruence.
  - exists (prefix_bounds prefix).1. split; [done|]. by destruct (andb_prop _ _ (prefix_bounds_hold prefix (code_v ++ tail))).
Qed.

Lemma end_holds o b : (∀ k i, o = Some (k, i) → (∃ t, i = true ∧ key = k ++ t) ∨ code_cmp Lt key k) →
  match o with Some (k, i) => logical_upper k i | None => Some (prefix_bounds prefix).2 end = b → ∃ s, b = Some s ∧ below s key = true.
Proof.
  intros Ho <-. destruct o as [[k i]|].
  - specialize (Ho k i eq_refl). destruct (logical_upper k i) as [s|] eqn:Es; [|by unfold logical_upper in Es; destruct i].
    exists s. split; [done|]. by eapply logical_upper_holds.
  - exists (prefix_bounds prefix).2. split; [done|]. by destruct (andb_prop _ _ (prefix_bounds_hold prefix (code_v ++ tail))).
Qed.

Lemma index_range_bounds_hold lower upper o : within cat ty v lower upper → index_range_bounds cat prefix descending ty lower upper = Ok o →
  ∃ b, o = Some b ∧ above b.1 key && below b.2 key = true.
Proof.
  intros [Hl Hu] Hr. unfold index_range_bounds in Hr. apply bind_Ok in Hr as (lk & Hlk & Hr). apply bind_Ok in Hr as (uk & Huk & Hr). apply Ok_inj in Hr.
  assert (HL : ∀ k i, lk = Some (k, i) → (∃ t, i = true ∧ key = k ++ t) ∨ code_cmp Lt (if descending then key else k) (if descending then k else key)).
  { intros k i ->. destruct lower as [l|]; [|done]. apply bind_Ok in Hlk as (k' & Hk' & Heq). injection Heq as -> <-.
    destruct (Hl l eq_refl). by eapply satisfies_lower_key. }
  assert (HU : ∀ k i, uk = Some (k, i) → (∃ t, i = true ∧ key = k ++ t) ∨ code_cmp Lt (if descending then k else key) (if descending then key else k)).
  { intros k i ->. destruct upper as [l|]; [|done]. apply bind_Ok in Huk as (k' & Hk' & Heq). injection Heq as -> <-.
    destruct (Hu l eq_refl). by eapply satisfies_upper_key. }
  destruct (start_holds (if descending then uk else lk) _ ltac:(by destruct descending) eq_refl) as (s & Es & Hs).
  destruct (end_holds (if descending then lk else uk) _ ltac:(by destruct descending) eq_refl) as (e & Ee & He).
  rewrite Es, Ee in Hr. simpl in Hr. subst o. exists (s, e). split; [done|]. simpl. by rewrite Hs, He.
Qed.
End range.

(** ** Bounds are the right way round *)

Lemma ble_trans a b c : ble a b → ble b c → ble a c.
Proof.
  unfold ble. intros Hab Hbc. destruct (bytes_cmp a b) eqn:E; [apply bytes_cmp_Eq in E as ->; done| |done].
  by rewrite (bytes_lt_le_trans a b c).
Qed.

Lemma included_excluded_ok s e : ble s e → range_panics (Included s, Excluded e) = false.
Proof. unfold ble. cbn [range_panics]. by destruct (bytes_cmp s e). Qed.

Lemma successor_prefix_le p a s s' : prefix_successor (p ++ a) = Some s → prefix_successor p = Some s' → ble s s'.
Proof.
  intros Hs Hs'. destruct (decide (a = replicate (length a) 255)) as [Ea|Ea].
  - enough (s = s') as -> by (unfold ble; by rewrite bytes_cmp_refl). rewrite Ea in Hs. revert Hs. generalize (length a). clear -Hs'. intros n Hs.
    assert (prefix_successor (p ++ replicate n 255) = prefix_successor p) as E; [|congruence]. unfold prefix_successor. rewrite reverse_app, reverse_replicate.
    clear. induction n as [|n IH]; [done|]. exact IH.
  - destruct (prefix_successor a) as [sa|] eqn:Esa; [|by apply prefix_successor_None in Esa].
    assert (s = p ++ sa) as ->.
    { apply prefix_successor_Some in Hs as (q & b & n & Eq & Hb & ->), Esa as (q' & b' & n' & -> & Hb' & ->). rewrite app_assoc in Eq.
      assert (n = n' ∧ b = b' ∧ q = p ++ q') as (_ & -> & ->); [|by rewrite app_assoc]. clear -Eq Hb Hb'.
      apply (f_equal reverse) in Eq. rewrite !reverse_app, !reverse_cons, !reverse_replicate, <-!app_assoc in Eq. simpl in Eq. revert n' Eq.
      induction n as [|n IH]; intros [|n'] Eq; simpl in Eq; try (by injection Eq as ? ?).
      - injection Eq as -> Eq. split_and!; [done..|]. apply (f_equal reverse) in Eq. by rewrite reverse_app, !reverse_involutive in Eq.
      - injection Eq as Eq. destruct (IH n' Eq) as (-> & -> & ->). done. }
    apply bytes_lt_le. by apply prefix_below.
Qed.

Lemma prefix_bounds_ok p : range_panics (prefix_bounds p) = false.
Proof.
  unfold prefix_bounds. destruct p as [|x p]; [done|]. destruct (prefix_successor (x :: p)) as [s|] eqn:Es; [|done]. apply included_excluded_ok, bytes_lt_le.
  rewrite <-(app_nil_r (x :: p)). by apply prefix_below.
Qed.

Section bounds_ok.
Context (cat : Catalog) (ty : ScalarType) (descending : bool) (prefix : list Z).

(** The first key of the scan against its last one. *)
Lemma bounds_between first last s e : 
  (∀ k i, first = Some (k, i) → ∃ a, k = prefix ++ a) → (∀ k i, last = Some (k, i) → ∃ a, k = prefix ++ a) →
  (∀ k i k' i', first = Some (k, i) → last = Some (k', i') → all_bytes k' = true ∧ (code_cmp Lt k k' ∨ (k = k' ∧ i = true ∧ i' = true))) →
  match first with Some (k, i) => logical_lower k i | None => Some (prefix_bounds prefix).1 end = Some s →
  match last with Some (k, i) => logical_upper k i | None => Some (prefix_bounds prefix).2 end = Some e →
  range_panics (s, e) = false.
Proof.
  intros Hf Hl Hfl Hs He. destruct first as [[k i]|], last as [[k' i']|].
  - destruct (Hfl k i k' i' eq_refl eq_refl) as [Hb Hc]. assert (Hk' : ∀ c, e = Excluded c → ble k' c).
    { intros c ->. unfold logical_upper in He. destruct i'; injection He as He; [|subst c; unfold ble; by rewrite bytes_cmp_refl].
      destruct (prefix_successor k') as [c'|] eqn:Es; [|done]. injection He as <-. apply bytes_lt_le. rewrite <-(app_nil_r k'). by apply prefix_below. }
    assert (∃ a, s = Included a ∧ ble a k') as (a & -> & Ha).
    { unfold logical_lower in Hs. destruct i.
      - injection Hs as <-. exists k. split; [done|]. destruct Hc as [Hc|(-> & _)]; [by apply bytes_lt_le, code_cmp_bytes|unfold ble; by rewrite bytes_cmp_refl].
      - destruct Hc as [Hc|(_ & ? & _)]; [|done]. destruct (successor_le k k' Hb Hc) as (a & Ea & Hle). rewrite Ea in Hs. injection Hs as <-. by exists a. }
    assert (e = Unbounded ∨ ∃ c, e = Excluded c) as [-> |(c & ->)]; [unfold logical_upper in He; destruct i'; injection He as <-; [destruct (prefix_successor k')|]; eauto|done|].
    apply included_excluded_ok. eapply ble_trans; [done|auto].
  - destruct (Hf k i eq_refl) as [a ->]. injection He as <-. assert (∃ b, s = Included b ∧ (b = prefix ++ a ∨ prefix_successor (prefix ++ a) = Some b)) as (b & -> & Hb).
    { unfold logical_lower in Hs. destruct i; [injection Hs as <-; eauto|]. destruct (prefix_successor (prefix ++ a)); [|done]. injection Hs as <-. eauto. }
    unfold prefix_bounds. destruct prefix as [|x p]; [done|]. cbn [snd]. destruct (prefix_successor (x :: p)) as [c|] eqn:Ec; [|done]. apply included_excluded_ok.
    destruct Hb as [->|Hb]; [by apply bytes_lt_le, prefix_below|by eapply successor_prefix_le].
  - destruct (Hl k' i' eq_refl) as [a ->]. injection Hs as <-. unfold prefix_bounds. destruct prefix as [|x p]; [by destruct e|]. cbn [fst].
    unfold logical_upper in He. destruct i'; injection He as <-; [|apply included_excluded_ok, (ble_prefix (x :: p) a)].
    destruct (prefix_successor _) as [c|] eqn:Ec; [|done]. apply included_excluded_ok. eapply ble_trans; [apply (ble_prefix (x :: p) a)|]. apply bytes_lt_le.
    rewrite <-(app_nil_r ((x :: p) ++ a)). by apply prefix_below.
  - injection Hs as <-. injection He as <-. pose proof (prefix_bounds_ok prefix) as Hp. by destruct (prefix_bounds prefix).
Qed.

(** Limits that do not exclude each other give bounds that [BTreeMap::range] accepts. *)
Lemma index_range_bounds_ok lower upper bounds :
  (∀ l, lower = Some l → wf_value (rl_value l) = true) → (∀ u, upper = Some u → wf_value (rl_value u) = true) → all_bytes prefix = true →
  range_is_empty cat ty lower upper = Ok false → index_range_bounds cat prefix descending ty lower upper = Ok (Some bounds) → range_panics bounds = false.
Proof.
  intros Hwl Hwu Hbytes Hne Hr. unfold index_range_bounds in Hr. apply bind_Ok in Hr as (lk & Hlk & Hr). apply bind_Ok in Hr as (uk & Huk & Hr). apply Ok_inj in Hr.
  apply bind_Some in Hr as (s & Hs & Hr). apply bind_Some in Hr as (e & He & [= <-]).
  assert (HL : ∀ k i, lk = Some (k, i) → ∃ l a, lower = Some l ∧ rl_inclusive l = i ∧ code cat (mkComponent ty (rl_value l) descending) = Ok a ∧ k = prefix ++ a).
  { intros k i ->. destruct lower as [l|]; [|done]. apply bind_Ok in Hlk as (k' & Hk & Hlk). injection Hlk as <- <-. unfold encoded_component in Hk.
    apply bind_Ok in Hk as (a & Ha%encode_tuple_single & Hk). apply Ok_inj in Hk as <-. by exists l, a. }
  assert (HU : ∀ k i, uk = Some (k, i) → ∃ l a, upper = Some l ∧ rl_inclusive l = i ∧ code cat (mkComponent ty (rl_value l) descending) = Ok a ∧ k = prefix ++ a).
  { intros k i ->. destruct upper as [l|]; [|done]. apply bind_Ok in Huk as (k' & Hk & Huk). injection Huk as <- <-. unfold encoded_component in Hk.
    apply bind_Ok in Hk as (a & Ha%encode_tuple_single & Hk). apply Ok_inj in Hk as <-. by exists l, a. }
  assert (HLU : ∀ k i k' i', lk = Some (k, i) → uk = Some (k', i') → all_bytes k = true ∧ all_bytes k' = true ∧
    ((descending = false ∧ code_cmp Lt k k') ∨ (descending = true ∧ code_cmp Lt k' k) ∨ (k = k' ∧ i = true ∧ i' = true))).
  { intros k i k' i' (l & a & El & <- & Ha & ->)%HL (u & b & Eu & <- & Hb & ->)%HU. subst lower upper. specialize (Hwl l eq_refl). specialize (Hwu u eq_refl).
    rewrite !all_bytes_app, Hbytes, (code_bytes cat (mkComponent ty (rl_value l) descending) a Hwl Ha), (code_bytes cat (mkComponent ty (rl_value u) descending) b Hwu Hb). split_and!; [done..|]. destruct (code_order _ _ _ _ _ _ _ Hwl Hwu Ha Hb) as (c & Hc & Hk).
    unfold range_is_empty in Hne. apply bind_Ok in Hne as (c' & Hc' & Hne). assert (c' = c) as -> by congruence. apply Ok_inj in Hne. destruct c; [|clear Hne|done].
    - right. right. assert (a = b) as <-. { apply bytes_cmp_Eq. rewrite (code_cmp_bytes _ _ _ Hk). by destruct descending. } by destruct (rl_inclusive l), (rl_inclusive u).
    - destruct descending; [right; left|left]; (split; [done|]); apply code_cmp_prefix; [|done]. by apply code_cmp_sym in Hk. }
  destruct descending; (eapply bounds_between; [..|exact Hs|exact He]).
  - intros k i (? & a & _ & _ & _ & ->)%HU. by exists a.
  - intros k i (? & a & _ & _ & _ & ->)%HL. by exists a.
  - intros k i k' i' Hk Hk'. destruct (HLU _ _ _ _ Hk' Hk) as (? & ? & [[? _]|[[_ ?]|(<- & -> & ->)]]); auto; done.
  - intros k i (? & a & _ & _ & _ & ->)%HL. by exists a.
  - intros k i (? & a & _ & _ & _ & ->)%HU. by exists a.
  - intros k i k' i' Hk Hk'. destruct (HLU _ _ _ _ Hk Hk') as (? & ? & [[_ ?]|[[? _]|(<- & -> & ->)]]); auto; done.
Qed.
End bounds_ok.
