(* ===== verification/Postings.v ===== *)
(** * Index postings

    The representation invariant of an in-memory index posting of src/src/db.rs (keys in
    byte order, and under each key a non-empty ascending list of row IDs), what each
    posting operation does to the set of (key, row) entries, and the characterisation of
    an index that is built from the rows of a table. *)
From stdpp Require Import gmap sorting.
From S2P Require Import Prelude Bytes Text BTree Model Matching Expression IndexPredicate Database.

Notation ascending := (StronglySorted Z.lt).

(** ** Ascending lists of row IDs *)

Lemma ascending_lt l x y : ascending (x :: l) → y ∈ l → x < y.
Proof. intros [_ Hf]%StronglySorted_inv Hy. by eapply list.Forall_forall in Hf. Qed.

Lemma ascending_NoDup l : ascending l → NoDup l.
Proof.
  induction l as [|x l IH]; intros Hs; [constructor|]. constructor.
  - intros Hx. pose proof (ascending_lt _ _ _ Hs Hx). lia.
  - apply IH. by apply StronglySorted_inv in Hs as [? _].
Qed.

Lemma ascending_ext l k : ascending l → ascending k → (∀ x, x ∈ l ↔ x ∈ k) → l = k.
Proof.
  intros Hl Hk Hx. apply (StronglySorted_unique_strong Z.lt); try done; [lia|].
  apply NoDup_Permutation; auto using ascending_NoDup.
Qed.

Lemma ascending_snoc l x : ascending l → (∀ y, y ∈ l → y < x) → ascending (l ++ [x]).
Proof.
  intros Hl Hx. apply StronglySorted_app_2; [|done|repeat constructor].
  intros y z Hy ->%list_elem_of_singleton. auto.
Qed.

Lemma binary_search_found l id : ascending l → id ∈ l →
  ∃ n, binary_search l id = (true, n) ∧ l !! n = Some id.
Proof.
  induction l as [|x l IH]; intros Hs Hid; [by apply elem_of_nil in Hid|]. simpl.
  apply elem_of_cons in Hid as [<-|Hid]; [rewrite Z.compare_refl; by exists 0%nat|].
  pose proof (ascending_lt _ _ _ Hs Hid) as Hlt. apply StronglySorted_inv in Hs as [Hs _].
  destruct (IH Hs Hid) as (n & Hn & Hl). rewrite (proj2 (Z.compare_lt_iff _ _) Hlt), Hn. by exists (S n).
Qed.

Lemma binary_search_true l id n : binary_search l id = (true, n) → l !! n = Some id.
Proof.
  revert n. induction l as [|x l IH]; intros n; simpl; [done|]. destruct (x ?= id) eqn:E; try done.
  - apply Z.compare_eq_iff in E as ->. by intros [= <-].
  - destruct (binary_search l id) as [b m] eqn:Em. intros [= -> <-]. by apply IH.
Qed.

Lemma binary_search_false l id n : ascending l → binary_search l id = (false, n) → ascending (take n l ++ id :: drop n l).
Proof.
  revert n. induction l as [|x l IH]; intros n Hs; simpl.
  - intros [= <-]. repeat constructor.
  - destruct (x ?= id) eqn:E; try done.
    + destruct (binary_search l id) as [b m] eqn:Em. intros [= -> <-]. simpl.
      pose proof Hs as [Hl Hx]%StronglySorted_inv. constructor; [by apply IH|].
      apply list.Forall_app. rewrite list.Forall_cons. apply Z.compare_lt_iff in E.
      split_and!; auto using Forall_take, Forall_drop.
    + intros [= <-]. simpl. apply Z.compare_gt_iff in E. constructor; [done|].
      apply list.Forall_cons. split; [done|]. apply StronglySorted_inv in Hs as [_ Hx].
      eapply list.Forall_impl; [exact Hx|]. simpl. lia.
Qed.

Lemma binary_search_absent l id : ascending l → id ∉ l → ∃ n, binary_search l id = (false, n).
Proof.
  intros Hs Hid. destruct (binary_search l id) as [[] n] eqn:E; [|by exists n].
  destruct Hid. apply binary_search_true in E. by eapply list_elem_of_lookup_2.
Qed.

Lemma elem_of_insert_at (l : list Z) n id x : x ∈ take n l ++ id :: drop n l ↔ x = id ∨ x ∈ l.
Proof. rewrite <-(take_drop n l) at 3. rewrite !elem_of_app, elem_of_cons. tauto. Qed.

Lemma ascending_delete l n : ascending l → ascending (delete n l).
Proof.
  revert n. induction l as [|x l IH]; intros [|n] Hs; simpl; try done.
  - by apply StronglySorted_inv in Hs as [? _].
  - apply StronglySorted_inv in Hs as [Hs Hx]. constructor; [by apply IH|]. by apply Forall_delete.
Qed.

Lemma elem_of_delete_ascending (l : list Z) n id x : ascending l → l !! n = Some id → x ∈ delete n l ↔ x ∈ l ∧ x ≠ id.
Proof.
  intros Hs Hn. pose proof (ascending_NoDup _ Hs) as Hd. rewrite (delete_take_drop l n).
  rewrite <-(take_drop_middle l n id Hn) in Hd. rewrite <-(take_drop_middle l n id Hn) at 3.
  apply list.NoDup_app in Hd as (_ & Hd1 & [Hd2 _]%list.NoDup_cons).
  rewrite !elem_of_app, elem_of_cons. split.
  - intros [Hx|Hx]; (split; [tauto|]); intros ->; [|done]. apply (Hd1 id Hx). by left.
  - intros [[Hx|[->|Hx]] Hne]; tauto.
Qed.

(** ** Postings *)

(** The row IDs under a key. *)
Definition ids_at (p : IndexPosting) (k : list Z) : list Z := default [] (bt_get k p).

Record posting_wf (p : IndexPosting) : Prop := {
  posting_sorted : bt_sorted p = true;
  posting_nonempty k : bt_get k p ≠ Some [];
  posting_ascending k : ascending (ids_at p k)
}.

Lemma posting_ext p q : posting_wf p → posting_wf q → (∀ k id, id ∈ ids_at p k ↔ id ∈ ids_at q k) → p = q.
Proof.
  intros Hp Hq Hids. apply bt_ext; [apply Hp|apply Hq|]. intros k.
  assert (He : ids_at p k = ids_at q k).
  { apply ascending_ext; [apply Hp|apply Hq|]. intros id. apply Hids. }
  pose proof (posting_nonempty p Hp k). pose proof (posting_nonempty q Hq k). unfold ids_at in He.
  destruct (bt_get k p), (bt_get k q); simpl in He; congruence.
Qed.

Lemma empty_posting_wf : posting_wf [].
Proof. split; [done..|constructor]. Qed.

Lemma ids_at_insert k j ids p : ids_at (bt_insert j ids p) k = if bool_decide (k = j) then ids else ids_at p k.
Proof.
  unfold ids_at. case_bool_decide as Hk; [subst; by rewrite bt_get_insert_eq|by rewrite bt_get_insert_ne].
Qed.

Lemma ids_at_remove k j p : bt_sorted p = true → ids_at (bt_remove j p) k = if bool_decide (k = j) then [] else ids_at p k.
Proof.
  intros Hp. unfold ids_at. rewrite bt_get_remove by done. case_bool_decide as Hk; [subst; by rewrite tcmp_refl|].
  destruct (tcmp k j) eqn:E; try done. by apply tcmp_Eq in E.
Qed.

(** Storing a non-empty ascending list keeps the invariant. *)
Lemma insert_posting_wf p j ids : posting_wf p → ids ≠ [] → ascending ids → posting_wf (bt_insert j ids p).
Proof.
  intros Hp Hne Ha. split.
  - apply bt_insert_sorted, Hp.
  - intros k. rewrite bt_get_insert. destruct (tcmp k j); [congruence|apply Hp..].
  - intros k. rewrite ids_at_insert. case_bool_decide; [done|apply Hp].
Qed.

Lemma remove_posting_wf p j : posting_wf p → posting_wf (bt_remove j p).
Proof.
  intros Hp. split.
  - apply bt_remove_sorted, Hp.
  - intros k. rewrite bt_get_remove by apply Hp. destruct (tcmp k j); [done|apply Hp..].
  - intros k. rewrite ids_at_remove by apply Hp. case_bool_decide; [constructor|apply Hp].
Qed.

(** Storing [ids], or dropping the key when there is none left. *)
Lemma store_posting p j ids : posting_wf p → ascending ids →
  let p' := if bool_decide (ids = []) then bt_remove j p else bt_insert j ids p in
  posting_wf p' ∧ ∀ k, ids_at p' k = if bool_decide (k = j) then ids else ids_at p k.
Proof.
  intros Hp Ha. cbv zeta. case_bool_decide as Hi.
  - subst. split; [by apply remove_posting_wf|]. intros k. by rewrite ids_at_remove by apply Hp.
  - split; [by apply insert_posting_wf|]. intros k. apply ids_at_insert.
Qed.

Lemma posting_push_spec p k id : posting_wf p → (∀ x, x ∈ ids_at p k → x < id) →
  posting_wf (posting_push p k id) ∧
  ∀ j i, i ∈ ids_at (posting_push p k id) j ↔ i ∈ ids_at p j ∨ (j = k ∧ i = id).
Proof.
  intros Hp Hid. unfold posting_push. fold (ids_at p k). split.
  - apply insert_posting_wf; [done|by destruct (ids_at p k)|]. apply ascending_snoc; [apply Hp|done].
  - intros j i. rewrite ids_at_insert. case_bool_decide; subst.
    + rewrite elem_of_app, list_elem_of_singleton. naive_solver.
    + naive_solver.
Qed.

Lemma posting_remove_spec p k id : posting_wf p → id ∈ ids_at p k →
  ∃ p', posting_remove p k id = Ok p' ∧ posting_wf p' ∧
    ∀ j i, i ∈ ids_at p' j ↔ i ∈ ids_at p j ∧ ¬ (j = k ∧ i = id).
Proof.
  intros Hp Hid. pose proof (posting_ascending p Hp k) as Ha.
  destruct (binary_search_found _ _ Ha Hid) as (n & Hn & Hl). unfold posting_remove. unfold ids_at in Hid, Hn, Hl, Ha.
  destruct (bt_get k p) as [ids|] eqn:Eg; simpl in *; [|by apply elem_of_nil in Hid]. rewrite Hn.
  eexists. split; [done|]. destruct (store_posting p k (delete n ids) Hp (ascending_delete _ _ Ha)) as [Hw Hi].
  clear Hn. revert Hw Hi. generalize (if bool_decide (delete n ids = []) then bt_remove k p else bt_insert k (delete n ids) p).
  intros p' Hw Hi.
  split; [exact Hw|]. intros j i. rewrite Hi. clear Hi Hw. case_bool_decide; [subst|tauto].
  rewrite (elem_of_delete_ascending _ _ id) by done. unfold ids_at. rewrite Eg. naive_solver.
Qed.

Lemma posting_add_spec unique p k id : posting_wf p → id ∉ ids_at p k →
  if unique && negb (bool_decide (ids_at p k = [])) then posting_add unique p k id = Err "E_CONSTRAINT"
  else ∃ p', posting_add unique p k id = Ok p' ∧ posting_wf p' ∧
    ∀ j i, i ∈ ids_at p' j ↔ i ∈ ids_at p j ∨ (j = k ∧ i = id).
Proof.
  intros Hp Hid. pose proof (posting_ascending p Hp k) as Ha. unfold posting_add. fold (ids_at p k).
  destruct (unique && _); [done|]. destruct (binary_search_absent _ _ Ha Hid) as [n Hn]. rewrite Hn.
  eexists. split; [done|]. pose proof (binary_search_false _ _ _ Ha Hn) as Ha'. split.
  - apply insert_posting_wf; try done. by destruct (take n (ids_at p k)).
  - intros j i. rewrite ids_at_insert. case_bool_decide; [subst; rewrite elem_of_insert_at; naive_solver|naive_solver].
Qed.

(** No two rows share a key. *)
Definition unique_posting (p : IndexPosting) : Prop := ∀ k i j, i ∈ ids_at p k → j ∈ ids_at p k → i = j.

Lemma unique_posting_singletons p : posting_wf p → unique_posting p ↔ existsb (λ e, 1 <? zlen e.2) p = false.
Proof.
  intros Hp. rewrite <-not_true_iff_false, existsb_exists. setoid_rewrite <-list_elem_of_In. split.
  - intros Hu ([k ids] & Hin & Hlt). simpl in Hlt. apply (bt_get_iff _ _ _ (posting_sorted p Hp)) in Hin.
    pose proof (posting_ascending p Hp k) as Ha. specialize (Hu k). unfold ids_at in *. rewrite Hin in *. simpl in *.
    destruct ids as [|x [|y ids]]; [done..|]. pose proof (ascending_lt _ _ y Ha (list_elem_of_here _ _)).
    enough (x = y) by lia. apply Hu; set_solver.
  - intros Hn k i j. unfold ids_at. destruct (bt_get k p) as [ids|] eqn:E; simpl; [|by intros ?%elem_of_nil].
    destruct ids as [|x [|y ids]]; [by intros ?%elem_of_nil|set_solver|]. destruct Hn.
    exists (k, x :: y :: ids). split; [by apply bt_get_elem|]. simpl. rewrite !zlen_cons. pose proof (zlen_nonneg ids). lia.
Qed.

(** ** An index over rows

    [K] gives the key of a row under an index, [None] when the index leaves the row out. *)
Section index.
Context (K : Row → result (option (list Z))).

Definition build (rows : list Row) : result IndexPosting :=
  foldR (λ p row, o ← K row; Ok match o with Some key => posting_push p key (row_id row) | None => p end) [] rows.

(** The posting holds exactly the keys of the rows. *)
Record posting_of (rows : list Row) (p : IndexPosting) : Prop := {
  posting_of_wf : posting_wf p;
  posting_of_keyed row : row ∈ rows → is_ok (K row) = true;
  posting_of_iff k id : id ∈ ids_at p k ↔ ∃ row, row ∈ rows ∧ row_id row = id ∧ K row = Ok (Some k)
}.

Definition collides (rows : list Row) : Prop :=
  ∃ k r1 r2, r1 ∈ rows ∧ r2 ∈ rows ∧ row_id r1 ≠ row_id r2 ∧ K r1 = Ok (Some k) ∧ K r2 = Ok (Some k).

Lemma posting_of_collides rows p : posting_of rows p → unique_posting p ↔ ¬ collides rows.
Proof.
  intros Hp. split.
  - intros Hu (k & r1 & r2 & H1 & H2 & Hne & Hk1 & Hk2). apply Hne, (Hu k); apply (posting_of_iff _ _ Hp); eauto.
  - intros Hc k i j (r1 & ? & <- & ?)%(posting_of_iff _ _ Hp) (r2 & ? & <- & ?)%(posting_of_iff _ _ Hp).
    destruct (decide (row_id r1 = row_id r2)) as [|Hne]; [done|]. destruct Hc. by exists k, r1, r2.
Qed.

Lemma posting_of_ext rows p q : posting_of rows p → posting_of rows q → p = q.
Proof.
  intros Hp Hq. apply posting_ext; [apply Hp|apply Hq|]. intros k id.
  by rewrite (posting_of_iff _ _ Hp), (posting_of_iff _ _ Hq).
Qed.

Lemma posting_of_snoc rows row p : posting_of rows p → (∀ r, r ∈ rows → row_id r < row_id row) →
  ∀ o, K row = Ok o →
  posting_of (rows ++ [row]) match o with Some key => posting_push p key (row_id row) | None => p end.
Proof.
  intros Hp Hid o Ho. assert (Hlt : ∀ k x, x ∈ ids_at p k → x < row_id row).
  { intros k x (r & Hr & <- & _)%(posting_of_iff _ _ Hp). auto. }
  assert (Hk : ∀ r, r ∈ rows ++ [row] → is_ok (K r) = true).
  { intros r [Hr| ->%list_elem_of_singleton]%elem_of_app; [by apply (posting_of_keyed _ _ Hp)|by rewrite Ho]. }
  destruct o as [key|].
  - destruct (posting_push_spec p key (row_id row) (posting_of_wf _ _ Hp) (Hlt key)) as [Hw Hi]. split; [done..|].
    intros k id. rewrite Hi, (posting_of_iff _ _ Hp). setoid_rewrite elem_of_app. setoid_rewrite list_elem_of_singleton.
    split; [naive_solver|]. intros (r & [Hr| ->] & Hrid & Hrk); [left; eauto|right]. split; congruence.
  - split; [apply Hp|done|]. intros k id. rewrite (posting_of_iff _ _ Hp). setoid_rewrite elem_of_app.
    setoid_rewrite list_elem_of_singleton. split; [naive_solver|]. intros (r & [Hr| ->] & Hrid & Hrk); [eauto|congruence].
Qed.

Lemma posting_of_nil : posting_of [] [].
Proof. split; [apply empty_posting_wf|set_solver|]. intros k id. unfold ids_at. set_solver. Qed.

Lemma build_posting_of rows : ascending (row_id <$> rows) →
  (∀ row, row ∈ rows → is_ok (K row) = true) → ∃ p, build rows = Ok p ∧ posting_of rows p.
Proof.
  induction rows as [|row rows IH] using rev_ind; intros Ha Hk; [by eexists; split; [|apply posting_of_nil]|].
  rewrite fmap_app in Ha. pose proof Ha as (Hlt & Ha' & _)%StronglySorted_app.
  destruct IH as (p & Hb & Hp); [done|intros; apply Hk; set_solver|].
  assert (is_ok (K row) = true) as Hr by (apply Hk; set_solver). destruct (K row) as [o|] eqn:Eo; [|done].
  eexists. split; [|apply (posting_of_snoc _ _ _ Hp); [|exact Eo]].
  - unfold build. rewrite foldR_app. fold (build rows). rewrite Hb. simpl. by rewrite Eo.
  - intros r Hrin. apply Hlt; [by apply list_elem_of_fmap_2|set_solver].
Qed.

Lemma build_keyed rows p : build rows = Ok p → ∀ row, row ∈ rows → is_ok (K row) = true.
Proof.
  unfold build. generalize ([] : IndexPosting). induction rows as [|r rows IH]; intros q Hb row Hin; [by apply elem_of_nil in Hin|].
  simpl in Hb. destruct (K r) as [o|] eqn:E; [|done]. simpl in Hb. apply elem_of_cons in Hin as [->|Hin]; [by rewrite E|eauto].
Qed.

(** Building an index gives the one posting that holds exactly the keys of the rows. *)
Lemma build_iff rows p : ascending (row_id <$> rows) → build rows = Ok p ↔ posting_of rows p.
Proof.
  intros Ha. split.
  - intros Hb. destruct (build_posting_of rows Ha (build_keyed _ _ Hb)) as (q & Hq & Hp). congruence.
  - intros Hp. destruct (build_posting_of rows Ha (posting_of_keyed _ _ Hp)) as (q & Hq & Hp').
    by rewrite (posting_of_ext _ _ _ Hp Hp').
Qed.

(** *** Changes

    The key of one image of a change, and the two passes over an index: the entries of old
    images go, then the entries of new images come; an entry whose key stays is kept. *)
Definition image (row : option Row) : result (option (list Z)) := match row with Some row => K row | None => Ok None end.

Definition remove_step (p : IndexPosting) (c : RowChange) : result IndexPosting :=
  match before c with
  | None => Ok p
  | Some old =>
      o ← K old;
      match o with
      | None => Ok p
      | Some key => new ← image (after c); if bool_decide (new = Some key) then Ok p else posting_remove p key (row_id old)
      end
  end.

Definition add_step (unique : bool) (p : IndexPosting) (c : RowChange) : result IndexPosting :=
  match after c with
  | None => Ok p
  | Some new =>
      o ← K new;
      match o with
      | None => Ok p
      | Some key => old ← image (before c); if bool_decide (old = Some key) then Ok p else posting_add unique p key (row_id new)
      end
  end.

Definition change_keyed (c : RowChange) : Prop := is_ok (image (before c)) = true ∧ is_ok (image (after c)) = true.

(** The entries that a change removes and adds. *)
Definition gone (c : RowChange) (k : list Z) (id : Z) : Prop :=
  ∃ old, before c = Some old ∧ row_id old = id ∧ K old = Ok (Some k) ∧ image (after c) ≠ Ok (Some k).
Definition come (c : RowChange) (k : list Z) (id : Z) : Prop :=
  ∃ new, after c = Some new ∧ row_id new = id ∧ K new = Ok (Some k) ∧ image (before c) ≠ Ok (Some k).

(** Both images carry the row ID of the change. *)
Definition change_ids (c : RowChange) : Prop :=
  (∀ r, before c = Some r → row_id r = change_id c) ∧ (∀ r, after c = Some r → row_id r = change_id c).

Lemma gone_id c k id : change_ids c → gone c k id → id = change_id c.
Proof. intros [Hb _] (r & Hr & <- & _). auto. Qed.
Lemma come_id c k id : change_ids c → come c k id → id = change_id c.
Proof. intros [_ Ha] (r & Hr & <- & _). auto. Qed.

(** A change without an entry leaves the posting as it is. *)
Ltac unchanged p :=
  exists p; split_and!; try done; intros k id; split; [|by intros [? _]]; intros Hid; split; [done|];
  intros (? & ? & ? & ? & ?); congruence.

Ltac same_posting p :=
  exists p; split_and!; try done; intros k id; split; [by left|]; intros [?|(? & ? & ? & ? & ?)]; [done|congruence].

Lemma remove_step_spec p c : posting_wf p → change_keyed c → (∀ k id, gone c k id → id ∈ ids_at p k) →
  ∃ p', remove_step p c = Ok p' ∧ posting_wf p' ∧ ∀ k id, id ∈ ids_at p' k ↔ id ∈ ids_at p k ∧ ¬ gone c k id.
Proof.
  intros Hp [Hb Ha] Hg. unfold remove_step, gone in *. destruct (before c) as [old|]; simpl in Hb; [|unchanged p].
  destruct (K old) as [[key|]|] eqn:Eo; [|unchanged p|done]. simpl.
  destruct (image (after c)) as [new|] eqn:En; [|done]. simpl. case_bool_decide as Hn.
  { exists p. split_and!; [done..|]. intros k id. split; [|tauto]. intros Hi. split; [done|].
    intros (? & [= <-] & _ & HK & Hne). congruence. }
  destruct (posting_remove_spec p key (row_id old) Hp) as (p' & Hr & Hw & Hi).
  { apply Hg. exists old. split_and!; congruence. }
  exists p'. split_and!; [done..|]. intros k id. rewrite Hi. split; intros [Hin Hne]; (split; [done|]).
  - intros (? & [= <-] & <- & HK & _). apply Hne. split; congruence.
  - intros [-> ->]. apply Hne. exists old. split_and!; congruence.
Qed.

(** What the step of the second pass does: it adds the change's entry, or the entry's key is taken. *)
Lemma add_step_spec unique p c : posting_wf p → change_keyed c → (∀ k id, come c k id → id ∉ ids_at p k) →
  (∃ p', add_step unique p c = Ok p' ∧ posting_wf p' ∧ (∀ k id, id ∈ ids_at p' k ↔ id ∈ ids_at p k ∨ come c k id) ∧
     (unique = true → unique_posting p → unique_posting p')) ∨
  (unique = true ∧ add_step unique p c = Err "E_CONSTRAINT" ∧ ∃ k i j, i ∈ ids_at p k ∧ come c k j).
Proof.
  intros Hp [Hb Ha] Hg. unfold add_step, come in *. destruct (after c) as [new|]; simpl in Ha;
    [|left; same_posting p]. destruct (K new) as [[key|]|] eqn:En; [|left; same_posting p|done]. simpl.
  destruct (image (before c)) as [old|] eqn:Eo; [|done]. simpl. case_bool_decide as Hn.
  { left. exists p. split_and!; [done..| |done]. intros k id. split; [tauto|]. intros [|(? & [= <-] & _ & HK & Hne)]; [done|congruence]. }
  assert (Hcome : ∃ r, Some new = Some r ∧ row_id r = row_id new ∧ K r = Ok (Some key) ∧ Ok old ≠ Ok (Some key)).
  { exists new. split_and!; congruence. }
  pose proof (posting_add_spec unique p key (row_id new) Hp (Hg _ _ Hcome)) as Hadd.
  destruct (unique && _) eqn:Eu; [right|left].
  - apply andb_true_iff in Eu as [-> Hne%negb_true_iff%bool_decide_eq_false]. split_and!; [done..|].
    destruct (ids_at p key) as [|i ids] eqn:Ei; [done|]. exists key, i, (row_id new). rewrite Ei. split; [by left|done].
  - destruct Hadd as (p' & Hr & Hw & Hi). exists p'. split_and!; [done..| |].
    + intros k id. rewrite Hi. split; intros [|Hx]; auto; right.
      * destruct Hx as [-> ->]. done.
      * destruct Hx as (? & [= <-] & <- & HK & _). split; congruence.
    + intros -> Hu k i j. simpl in Eu. apply negb_false_iff, bool_decide_eq_true in Eu. rewrite !Hi.
      intros [Hx|[-> ->]] [Hy|[? ->]]; subst; eauto; rewrite Eu in *; by apply elem_of_nil in Hx || apply elem_of_nil in Hy.
Qed.

Definition distinct_changes (cs : list RowChange) : Prop :=
  NoDup (change_id <$> cs) ∧ (∀ c, c ∈ cs → change_ids c) ∧ (∀ c, c ∈ cs → change_keyed c).

Lemma distinct_changes_cons c cs : distinct_changes (c :: cs) →
  change_ids c ∧ change_keyed c ∧ (∀ d, d ∈ cs → change_id d ≠ change_id c) ∧ distinct_changes cs.
Proof.
  intros ([Hn Hd]%list.NoDup_cons & Hi & Hk). split_and!; [apply Hi; by left|apply Hk; by left| |].
  - intros d Hin Heq. apply Hn. rewrite <-Heq. by apply list_elem_of_fmap_2.
  - split_and!; [done|intros; apply Hi; by right|intros; apply Hk; by right].
Qed.

Lemma remove_pass cs p : posting_wf p → distinct_changes cs → (∀ c k id, c ∈ cs → gone c k id → id ∈ ids_at p k) →
  ∃ p', foldR remove_step p cs = Ok p' ∧ posting_wf p' ∧
    ∀ k id, id ∈ ids_at p' k ↔ id ∈ ids_at p k ∧ ¬ ∃ c, c ∈ cs ∧ gone c k id.
Proof.
  revert p. induction cs as [|c cs IH]; intros p Hp Hd Hg; simpl.
  { exists p. split_and!; [done..|]. set_solver. }
  apply distinct_changes_cons in Hd as (Hi & Hk & Hne & Hd).
  destruct (remove_step_spec p c Hp Hk) as (p1 & -> & Hp1 & H1); [intros; apply (Hg c); [by left|done]|]. simpl.
  destruct (IH p1 Hp1 Hd) as (p' & -> & Hp' & H').
  { intros d k id Hin Hgd. rewrite H1. split; [apply (Hg d); [by right|done]|]. intros Hgc.
    apply (Hne d Hin). destruct Hd as (_ & Hids & _). trans id; [symmetry; eauto using gone_id|eauto using gone_id]. }
  exists p'. split_and!; [done..|]. intros k id. rewrite H', H1. setoid_rewrite elem_of_cons. naive_solver.
Qed.

Lemma add_pass unique cs p : posting_wf p → distinct_changes cs → (∀ c k id, c ∈ cs → come c k id → id ∉ ids_at p k) →
  (∃ p', foldR (add_step unique) p cs = Ok p' ∧ posting_wf p' ∧
     (∀ k id, id ∈ ids_at p' k ↔ id ∈ ids_at p k ∨ ∃ c, c ∈ cs ∧ come c k id) ∧
     (unique = true → unique_posting p → unique_posting p')) ∨
  (unique = true ∧ foldR (add_step unique) p cs = Err "E_CONSTRAINT" ∧
     ∃ k i j, i ≠ j ∧ (i ∈ ids_at p k ∨ ∃ c, c ∈ cs ∧ come c k i) ∧ ∃ c, c ∈ cs ∧ come c k j).
Proof.
  revert p. induction cs as [|c cs IH]; intros p Hp Hd Hg; simpl.
  { left. exists p. split_and!; [done..| |done]. set_solver. }
  apply distinct_changes_cons in Hd as (Hi & Hk & Hne & Hd).
  destruct (add_step_spec unique p c Hp Hk) as [(p1 & -> & Hp1 & H1 & Hu1)|(-> & -> & k & i & j & Hx & Hj)];
    [intros; apply (Hg c); [by left|done]| |].
  - simpl. destruct (IH p1 Hp1 Hd) as [(p' & -> & Hp' & H' & Hu')|(-> & -> & k & i & j & Hij & Hx & Hj)].
    + intros d k id Hin Hcd. rewrite H1. intros [Hin'|Hc]; [by apply (Hg d k id); [by right|..]|].
      apply (Hne d Hin). destruct Hd as (_ & Hids & _). trans id; [symmetry; eauto using come_id|eauto using come_id].
    + left. exists p'. split_and!; [done..| |auto]. intros k id. rewrite H', H1. setoid_rewrite elem_of_cons. naive_solver.
    + right. split_and!; [done..|]. exists k, i, j. rewrite H1 in Hx. setoid_rewrite elem_of_cons. naive_solver.
  - right. split_and!; [done..|]. exists k, i, j. split_and!; [|by left|exists c; split; [by left|done]].
    intros ->. apply (Hg c k j); [by left|done..].
Qed.
End index.

(** A posting depends on the keys of its rows only. *)
Lemma posting_of_cong K K' rows p : (∀ r o, r ∈ rows → K r = Ok o → K' r = Ok o) → posting_of K rows p → posting_of K' rows p.
Proof.
  intros HK [Hw Hk Hi]. assert (Heq : ∀ r, r ∈ rows → K' r = K r).
  { intros r Hr. specialize (Hk r Hr). destruct (K r) as [o|] eqn:E; [|done]. by apply HK. }
  split; [done| |].
  - intros r Hr. rewrite Heq by done. auto.
  - intros k id. rewrite Hi. split; intros (r & Hr & Hid & Hr'); exists r; (split_and!; [done..|]);
      [by rewrite Heq|by rewrite <-Heq].
Qed.

(** *** From rows to rows

    [leads rows cs rows']: the changes have different rows, their old images are rows of
    the table, and applying them gives [rows']. *)
Record leads (rows : list Row) (cs : list RowChange) (rows' : list Row) : Prop := {
  leads_before : ascending (row_id <$> rows);
  leads_after : ascending (row_id <$> rows');
  leads_distinct : NoDup (change_id <$> cs);
  leads_ids c : c ∈ cs → change_ids c;
  leads_old c old : c ∈ cs → before c = Some old → old ∈ rows;
  leads_new c : c ∈ cs → before c = None → ∀ r, r ∈ rows → row_id r ≠ change_id c;
  leads_iff r : r ∈ rows' ↔ (∃ c, c ∈ cs ∧ after c = Some r) ∨ (r ∈ rows ∧ ∀ c, c ∈ cs → change_id c ≠ row_id r)
}.

Lemma ascending_row_inj rows r1 r2 : ascending (row_id <$> rows) → r1 ∈ rows → r2 ∈ rows → row_id r1 = row_id r2 → r1 = r2.
Proof.
  induction rows as [|r rows IH]; intros Ha H1 H2 Heq; [by apply elem_of_nil in H1|].
  assert (Hlt : ∀ x, x ∈ rows → row_id r < row_id x).
  { intros x Hx. apply (ascending_lt _ _ _ Ha). by apply list_elem_of_fmap_2. }
  apply StronglySorted_inv in Ha as [Ha _].
  apply elem_of_cons in H1 as [->|H1], H2 as [->|H2]; auto.
  - specialize (Hlt _ H2). lia.
  - specialize (Hlt _ H1). lia.
Qed.

Lemma NoDup_fmap_inj {A B} (f : A → B) l x y : NoDup (f <$> l) → x ∈ l → y ∈ l → f x = f y → x = y.
Proof.
  induction l as [|z l IH]; intros Hn Hx Hy Hf; [by apply elem_of_nil in Hx|]. apply list.NoDup_cons in Hn as [Hz Hn].
  apply elem_of_cons in Hx as [->|Hx], Hy as [->|Hy]; auto.
  - destruct Hz. rewrite Hf. by apply list_elem_of_fmap_2.
  - destruct Hz. rewrite <-Hf. by apply list_elem_of_fmap_2.
Qed.

#[export] Instance result_eq_dec {A} `{EqDecision A} : EqDecision (result A).
Proof. solve_decision. Defined.

Lemma leads_id_before rows cs rows' c r : leads rows cs rows' → c ∈ cs → before c = Some r → row_id r = change_id c.
Proof. intros Hl Hc. apply (leads_ids _ _ _ Hl c Hc). Qed.
Lemma leads_id_after rows cs rows' c r : leads rows cs rows' → c ∈ cs → after c = Some r → row_id r = change_id c.
Proof. intros Hl Hc. apply (leads_ids _ _ _ Hl c Hc). Qed.

Section leads.
Context (K : Row → result (option (list Z))) (rows rows' : list Row) (cs : list RowChange) (p : IndexPosting).
Hypotheses (Hl : leads rows cs rows') (Hp : posting_of K rows p) (Hk : ∀ r, r ∈ rows' → is_ok (K r) = true).

Lemma leads_keyed c : c ∈ cs → change_keyed K c.
Proof.
  intros Hc. split; unfold image.
  - destruct (before c) eqn:E; [|done]. by apply (posting_of_keyed _ _ _ Hp), (leads_old _ _ _ Hl c).
  - destruct (after c) eqn:E; [|done]. apply Hk, (leads_iff _ _ _ Hl). eauto.
Qed.

Lemma leads_distinct_changes : distinct_changes K cs.
Proof. split_and!; [apply Hl|apply Hl|exact leads_keyed]. Qed.

(** A row of the table with the ID of a change is its old image. *)
Lemma leads_image c r : c ∈ cs → r ∈ rows → change_id c = row_id r → before c = Some r.
Proof.
  intros Hc Hr Hid. destruct (before c) as [old|] eqn:E.
  - f_equal. apply (ascending_row_inj rows); [apply Hl|by apply (leads_old _ _ _ Hl c)|done|].
    by rewrite <-Hid, (leads_id_before _ _ _ _ _ Hl Hc E).
  - by destruct (leads_new _ _ _ Hl c Hc E r Hr).
Qed.

(** The entries after both passes are those of the new rows. *)
Lemma leads_entries k id :
  ((id ∈ ids_at p k ∧ ¬ ∃ c, c ∈ cs ∧ gone K c k id) ∨ ∃ c, c ∈ cs ∧ come K c k id) ↔
  ∃ r, r ∈ rows' ∧ row_id r = id ∧ K r = Ok (Some k).
Proof.
  rewrite (posting_of_iff _ _ _ Hp). setoid_rewrite (leads_iff _ _ _ Hl). split.
  - intros [[(r & Hr & <- & HK) Hng]|(c & Hc & new & Ha & <- & HK & _)]; [|by exists new; split_and!; eauto].
    destruct (decide (Exists (λ c, change_id c = row_id r) cs)) as [(c & Hc & Hid)%list.Exists_exists|Hno].
    + pose proof (leads_image c r Hc Hr Hid) as Hb.
      destruct (after c) as [new|] eqn:Ea.
      * destruct (decide (K new = Ok (Some k))) as [HKn|HKn].
        -- exists new. split_and!; eauto. by rewrite <-Hid, (leads_id_after _ _ _ _ _ Hl Hc Ea).
        -- destruct Hng. exists c. split; [done|]. exists r. rewrite Ea. by split_and!.
      * destruct Hng. exists c. split; [done|]. exists r. rewrite Ea. by split_and!.
    + exists r. split_and!; try done. right. split; [done|]. intros c Hc Hid. apply Hno, list.Exists_exists. eauto.
  - intros (r & [(c & Hc & Ha)|[Hr Hn]] & <- & HK).
    + destruct (decide (image K (before c) = Ok (Some k))) as [Hi|Hi].
      * left. unfold image in Hi. destruct (before c) as [old|] eqn:Hb; [|done].
        pose proof (leads_id_before _ _ _ _ _ Hl Hc Hb) as Hib. pose proof (leads_id_after _ _ _ _ _ Hl Hc Ha) as Hia.
        split; [exists old; split_and!; [by apply (leads_old _ _ _ Hl c)|congruence|done]|].
        intros (d & Hd & old' & Hb' & Hid & HK' & Hne).
        assert (d = c) as ->; [|rewrite Ha in Hne; by apply Hne].
        apply (NoDup_fmap_inj change_id cs); [apply Hl|done..|]. pose proof (leads_id_before _ _ _ _ _ Hl Hd Hb'). congruence.
      * right. exists c. split; [done|]. by exists r.
    + left. split; [by exists r|]. intros (c & Hc & old & Hb & Hid & _). apply (Hn c Hc).
      by rewrite <-Hid, (leads_id_before _ _ _ _ _ Hl Hc Hb).
Qed.
(** What is left after the first pass. *)
Definition stripped (p1 : IndexPosting) : Prop :=
  posting_wf p1 ∧ ∀ k id, id ∈ ids_at p1 k ↔ id ∈ ids_at p k ∧ ¬ ∃ c, c ∈ cs ∧ gone K c k id.

Lemma leads_remove : ∃ p1, foldR (remove_step K) p cs = Ok p1 ∧ stripped p1.
Proof.
  apply remove_pass; [apply Hp|apply leads_distinct_changes|]. intros c k id Hc (old & Hb & <- & HK & _).
  apply (posting_of_iff _ _ _ Hp). exists old. split_and!; try done. by apply (leads_old _ _ _ Hl c).
Qed.

Lemma stripped_come p1 c k id : stripped p1 → c ∈ cs → come K c k id → id ∉ ids_at p1 k.
Proof.
  intros [_ Hi] Hc (new & Ha & Hid & HK & Hne) [Hin Hng]%Hi. apply (posting_of_iff _ _ _ Hp) in Hin as (r & Hr & Hrid & HKr).
  assert (Hb : before c = Some r).
  { apply leads_image; try done. by rewrite Hrid, <-Hid, (leads_id_after _ _ _ _ _ Hl Hc Ha). }
  by rewrite Hb in Hne.
Qed.

(** The second pass gives the index of the new rows, or finds two new rows with one key. *)
Lemma leads_add unique p1 : stripped p1 →
  (∃ p', foldR (add_step K unique) p1 cs = Ok p' ∧ posting_of K rows' p' ∧
     (unique = true → unique_posting p → unique_posting p')) ∨
  (unique = true ∧ foldR (add_step K unique) p1 cs = Err "E_CONSTRAINT" ∧ collides K rows').
Proof.
  intros Hs. pose proof Hs as [Hw Hi].
  destruct (add_pass K unique cs p1 Hw leads_distinct_changes) as [(p' & Hf & Hw' & Hi' & Hu)|(-> & Hf & k & i & j & Hij & Hx & Hj)].
  - intros c k id Hc. by apply (stripped_come p1 c).
  - left. exists p'. split_and!; [done| |].
    + split; [done|done|]. intros k id. rewrite Hi', Hi. apply leads_entries.
    + intros -> Hup. apply Hu; [done|]. intros k i j Hx%Hi Hy%Hi. apply (Hup k); [apply Hx|apply Hy].
  - right. split_and!; [done..|]. rewrite Hi in Hx.
    apply leads_entries in Hx as (r1 & Hr1 & <- & HK1).
    destruct (proj1 (leads_entries k j) (or_intror Hj)) as (r2 & Hr2 & <- & HK2). by exists k, r1, r2.
Qed.
End leads.

(** *** Building up changes *)

Lemma leads_nil rows : ascending (row_id <$> rows) → leads rows [] rows.
Proof.
  intros Ha. split; try done; try (by intros ? ?%elem_of_nil); [constructor|by intros ? ? ?%elem_of_nil|].
  intros r. setoid_rewrite elem_of_nil. naive_solver.
Qed.

Lemma leads_snoc rows cs rows1 c rows2 : leads rows cs rows1 → leads rows1 [c] rows2 → change_id c ∉ change_id <$> cs →
  leads rows (cs ++ [c]) rows2.
Proof.
  intros H1 H2 Hc. assert (Hin : c ∈ [c]) by (by left).
  assert (Hne : ∀ d, d ∈ cs → change_id d ≠ change_id c).
  { intros d Hd Heq. apply Hc. rewrite <-Heq. by apply list_elem_of_fmap_2. }
  assert (Hin1 : ∀ r, row_id r = change_id c → r ∈ rows1 ↔ r ∈ rows).
  { intros r Hr. rewrite (leads_iff _ _ _ H1). split.
    - intros [(d & Hd & Ha)|[Hx _]]; [|done]. destruct (Hne d Hd). by rewrite <-(leads_id_after _ _ _ _ _ H1 Hd Ha).
    - intros Hx. right. split; [done|]. rewrite Hr. auto. }
  split.
  - apply H1.
  - apply H2.
  - rewrite fmap_app. apply list.NoDup_app. split_and!; [apply H1| |apply NoDup_singleton].
    intros x Hx ->%list_elem_of_singleton. done.
  - intros d [Hd| ->%list_elem_of_singleton]%elem_of_app; [by apply H1|by apply (leads_ids _ _ _ H2)].
  - intros d old [Hd| ->%list_elem_of_singleton]%elem_of_app Hb; [by apply (leads_old _ _ _ H1 d)|].
    apply Hin1; [by apply (leads_id_before _ _ _ _ _ H2 Hin)|]. by apply (leads_old _ _ _ H2 c).
  - intros d [Hd| ->%list_elem_of_singleton]%elem_of_app Hb r Hr; [by apply (leads_new _ _ _ H1 d)|].
    intros Heq. by apply (leads_new _ _ _ H2 c Hin Hb r); [apply Hin1|].
  - intros r. rewrite (leads_iff _ _ _ H2), (leads_iff _ _ _ H1). setoid_rewrite elem_of_app.
    setoid_rewrite list_elem_of_singleton. split.
    + intros [(d & -> & Ha)|[[(d & Hd & Ha)|[Hr Hn]] Hnc]].
      * left. exists c. auto.
      * left. exists d. auto.
      * right. split; [done|]. intros d [Hd| ->]; auto.
    + intros [(d & [Hd| ->] & Ha)|[Hr Hn]].
      * right. split; [left; eauto|]. intros ? ->. rewrite (leads_id_after _ _ _ _ _ H1 Hd Ha). intros Heq. by apply (Hne d Hd).
      * left. eauto.
      * right. split; [right; split; [done|]; auto|]. intros ? ->. auto.
Qed.

Lemma leads_append rows row : ascending (row_id <$> rows) → (∀ r, r ∈ rows → row_id r < row_id row) →
  leads rows [inserted row] (rows ++ [row]).
Proof.
  intros Ha Hlt. split; try done.
  - rewrite fmap_app. apply ascending_snoc; [done|]. intros y (r & -> & Hr)%list_elem_of_fmap. auto.
  - apply NoDup_singleton.
  - intros c ->%list_elem_of_singleton. split; simpl; [done|]. by intros r [= ->].
  - intros c old ->%list_elem_of_singleton. done.
  - intros c ->%list_elem_of_singleton _ r Hr. specialize (Hlt r Hr). cbn. lia.
  - intros r. rewrite elem_of_app, list_elem_of_singleton. setoid_rewrite list_elem_of_singleton. split.
    + intros [Hr| ->]; [right; split; [done|]; intros c ->; specialize (Hlt r Hr); cbn; lia|left; by eexists].
    + intros [(c & -> & [= ->])|[Hr _]]; auto.
Qed.

Lemma lookup_row_inj (rows : list Row) n m r r' : ascending (row_id <$> rows) → rows !! n = Some r → rows !! m = Some r' →
  row_id r = row_id r' → n = m.
Proof.
  intros Ha Hn Hm Hid. apply (NoDup_lookup (row_id <$> rows) n m (row_id r)); [by apply ascending_NoDup|..];
    rewrite list_lookup_fmap; [by rewrite Hn|by rewrite Hm, Hid].
Qed.

Lemma elem_of_replace (rows : list Row) n old new r : ascending (row_id <$> rows) → rows !! n = Some old → row_id new = row_id old →
  r ∈ <[n := new]> rows ↔ r = new ∨ (r ∈ rows ∧ row_id r ≠ row_id old).
Proof.
  intros Ha Hn Hid. assert (Hl : (n < length rows)%nat) by (by eapply lookup_lt_Some). split.
  - intros [m Hm]%list_elem_of_lookup. destruct (decide (m = n)) as [->|Hne].
    + rewrite list_lookup_insert_eq in Hm by done. left. congruence.
    + rewrite list_lookup_insert_ne in Hm by done. right. split; [by eapply list_elem_of_lookup_2|]. intros Heq.
      apply Hne. by apply (lookup_row_inj rows m n r old).
  - intros [->|[[m Hm]%list_elem_of_lookup Hne]].
    + apply list_elem_of_lookup. exists n. by apply list_lookup_insert_eq.
    + apply list_elem_of_lookup. exists m. rewrite list_lookup_insert_ne; [done|]. intros ->. congruence.
Qed.

Lemma leads_update rows n old new : ascending (row_id <$> rows) → rows !! n = Some old → row_id new = row_id old →
  leads rows [updated old new] (<[n := new]> rows).
Proof.
  intros Ha Hn Hid. split; try done.
  - rewrite list_fmap_insert, Hid. rewrite list_insert_id; [done|]. by rewrite list_lookup_fmap, Hn.
  - apply NoDup_singleton.
  - intros c ->%list_elem_of_singleton. split; simpl; by intros r [= <-].
  - intros c o ->%list_elem_of_singleton [= <-]. by eapply list_elem_of_lookup_2.
  - by intros c ->%list_elem_of_singleton.
  - intros r. rewrite (elem_of_replace _ _ old) by done. setoid_rewrite list_elem_of_singleton. split.
    + intros [->|[Hr Hne]]; [left; by eexists|right; split; [done|]]. intros c ->. cbn. by apply not_eq_sym.
    + intros [(c & -> & [= ->])|[Hr Hne]]; [by left|right; split; [done|]]. intros Heq. by apply (Hne _ eq_refl).
Qed.

(** *** Deleting positions *)

Lemma insert_descending_perm n l : insert_descending n l ≡ₚ n :: l.
Proof. induction l as [|m l IH]; simpl; [done|]. case_match; [done|]. rewrite IH. apply Permutation_swap. Qed.

Lemma sort_descending_perm l : sort_descending l ≡ₚ l.
Proof. induction l as [|n l IH]; simpl; [done|]. by rewrite insert_descending_perm, IH. Qed.

Lemma insert_descending_sorted n l : StronglySorted ge l → StronglySorted ge (insert_descending n l).
Proof.
  induction l as [|m l IH]; intros Hs; simpl; [repeat constructor|]. pose proof Hs as [Hl Hm]%StronglySorted_inv.
  destruct (m <=? n)%nat eqn:E.
  - apply Nat.leb_le in E. constructor; [done|]. apply list.Forall_cons. split; [lia|].
    eapply list.Forall_impl; [exact Hm|]. simpl. lia.
  - apply Nat.leb_gt in E. constructor; [auto|]. rewrite insert_descending_perm. apply list.Forall_cons. split; [lia|done].
Qed.

Lemma sort_descending_sorted l : StronglySorted ge (sort_descending l).
Proof. induction l as [|n l IH]; simpl; [constructor|]. by apply insert_descending_sorted. Qed.

(** Deleting distinct positions from the last one on removes exactly their elements. *)
Lemma elem_of_deletes (rows : list Row) ps r : NoDup ps → StronglySorted ge ps → (∀ n, n ∈ ps → (n < length rows)%nat) →
  r ∈ foldl (λ rows n, delete n rows) rows ps ↔ ∃ m, rows !! m = Some r ∧ m ∉ ps.
Proof.
  revert rows. induction ps as [|h ps IH]; intros rows Hn Hs Hl; simpl.
  { rewrite list_elem_of_lookup. setoid_rewrite elem_of_nil. naive_solver. }
  apply list.NoDup_cons in Hn as [Hh Hn]. apply StronglySorted_inv in Hs as [Hs Hge]. rewrite list.Forall_forall in Hge.
  assert (Hlt : ∀ n, n ∈ ps → (n < h)%nat).
  { intros n Hin. specialize (Hge n Hin). assert (n ≠ h) by (by intros ->). lia. }
  assert (Hh' : (h < length rows)%nat) by (apply Hl; by left).
  rewrite IH; [|done|done|].
  2: { intros n Hin. rewrite length_delete by (by apply lookup_lt_is_Some). specialize (Hlt n Hin). lia. }
  setoid_rewrite not_elem_of_cons. split.
  - intros (m & Hm & Hmp). destruct (decide (m < h)%nat) as [Hmh|Hmh].
    + rewrite list_lookup_delete_lt in Hm by lia. exists m. split_and!; [done|lia|done].
    + rewrite list_lookup_delete_ge in Hm by lia. exists (S m). split_and!; [done|lia|]. intros Hin. specialize (Hlt _ Hin). lia.
  - intros (m & Hm & Hmh & Hmp). destruct (decide (m < h)%nat) as [Hlt'|Hge'].
    + exists m. by rewrite list_lookup_delete_lt by lia.
    + exists (m - 1)%nat. rewrite list_lookup_delete_ge by lia. replace (S (m - 1)) with m by lia. split; [done|].
      intros Hin. specialize (Hlt _ Hin). lia.
Qed.

Lemma ascending_deletes (rows : list Row) ps : ascending (row_id <$> rows) →
  ascending (row_id <$> foldl (λ rows n, delete n rows) rows ps).
Proof.
  revert rows. induction ps as [|n ps IH]; intros rows Ha; simpl; [done|]. apply IH. rewrite list_fmap_delete.
  by apply ascending_delete.
Qed.

Lemma deleted_distinct rows ps olds : ascending (row_id <$> rows) → NoDup ps →
  Forall2 (λ n old, rows !! n = Some old) ps olds → NoDup (change_id <$> (deleted <$> olds)).
Proof.
  intros Ha Hn Ho. assert (Hfm : change_id <$> (deleted <$> olds) = row_id <$> olds) by (rewrite <-list_fmap_compose; done).
  rewrite Hfm. clear Hfm. induction Ho as [|n old ps olds Hr Ho IH]; [constructor|]. apply list.NoDup_cons in Hn as [Hnn Hn].
  apply list.NoDup_cons. split; [|auto]. intros (old' & Hid & [i Hi]%list_elem_of_lookup)%list_elem_of_fmap.
  destruct (Forall2_lookup_r _ _ _ _ _ Ho Hi) as (m & Hm & Hr'). apply Hnn.
  rewrite (lookup_row_inj rows n m old old' Ha Hr Hr' Hid). by eapply list_elem_of_lookup_2.
Qed.

(** Deleting the rows at distinct positions. *)
Lemma leads_deletes rows ps : ascending (row_id <$> rows) → NoDup ps → ∀ olds, Forall2 (λ n old, rows !! n = Some old) ps olds →
  leads rows (deleted <$> olds) (remove_positions rows ps).
Proof.
  intros Ha Hn olds Ho. assert (Hps : ∀ n, n ∈ ps ↔ ∃ old, old ∈ olds ∧ rows !! n = Some old).
  { intros n. split.
    - intros [i Hi]%list_elem_of_lookup. destruct (Forall2_lookup_l _ _ _ _ _ Ho Hi) as (old & Hold & Hr).
      exists old. split; [by eapply list_elem_of_lookup_2|done].
    - intros (old & [i Hi]%list_elem_of_lookup & Hr). destruct (Forall2_lookup_r _ _ _ _ _ Ho Hi) as (m & Hm & Hr').
      rewrite (lookup_row_inj rows n m old old Ha Hr Hr' eq_refl). by eapply list_elem_of_lookup_2. }
  assert (Hold : ∀ old, old ∈ olds → old ∈ rows).
  { intros old [i Hi]%list_elem_of_lookup. destruct (Forall2_lookup_r _ _ _ _ _ Ho Hi) as (m & Hm & Hr).
    by eapply list_elem_of_lookup_2. }
  unfold remove_positions. split.
  - done.
  - by apply ascending_deletes.
  - by apply (deleted_distinct rows ps).
  - intros c (old & -> & Hin)%list_elem_of_fmap. split; simpl; [by intros r [= ->]|done].
  - intros c old (o & -> & Hin)%list_elem_of_fmap [= <-]. auto.
  - intros c (old & -> & Hin)%list_elem_of_fmap. done.
  - intros r. rewrite elem_of_deletes.
    + setoid_rewrite sort_descending_perm. setoid_rewrite Hps. split.
      * intros (m & Hm & Hno). right. split; [by eapply list_elem_of_lookup_2|]. intros c (old & -> & Hin)%list_elem_of_fmap Heq.
        apply Hno. exists old. split; [done|]. rewrite Hm. f_equal.
        apply (ascending_row_inj rows); [done|by eapply list_elem_of_lookup_2|auto|]. by rewrite <-Heq.
      * intros [(c & (old & -> & Hin)%list_elem_of_fmap & [=])|[[m Hm]%list_elem_of_lookup Hne]].
        exists m. split; [done|]. intros (old & Hin & Hm'). apply (Hne (deleted old)); [by apply list_elem_of_fmap_2|].
        cbn. congruence.
    + by rewrite sort_descending_perm.
    + apply sort_descending_sorted.
    + intros n. rewrite sort_descending_perm, Hps. intros (old & _ & Hr). by eapply lookup_lt_Some.
Qed.

(** ** Hits of a scan *)

Lemma entry_hits_elem (e : list Z * list Z) k id : (k, id) ∈ entry_hits e ↔ k = e.1 ∧ id ∈ e.2.
Proof.
  unfold entry_hits. change (List.map (pair e.1) e.2) with (pair e.1 <$> e.2). rewrite list_elem_of_fmap.
  split; [intros (x & [= -> ->] & Hx); auto|]. intros [-> Hid]. eauto.
Qed.

Lemma flat_hits_elem (l : IndexPosting) k id : (k, id) ∈ flat_map entry_hits l ↔ ∃ ids, (k, ids) ∈ l ∧ id ∈ ids.
Proof.
  rewrite list_elem_of_In, in_flat_map. setoid_rewrite <-list_elem_of_In. setoid_rewrite entry_hits_elem. split.
  - intros ([k' ids] & Hin & -> & Hid). eauto.
  - intros (ids & Hin & Hid). by exists (k, ids).
Qed.
