(* ===== verification/Rows.v ===== *)
(** * Row values and generated defaults

    The values that insertion and upsertion store (src/src/db.rs: [coerce_row];
    src/src/db/generated.rs): generated values are well formed and sequences never repeat,
    version-7 UUIDs carry their timestamp, and a materialised row is a canonical record of
    the table's declared columns. *)
From stdpp Require Import gmap sorting.
From S2P Require Import Prelude Bytes Text Decimal Temporal Float64 Scalars BTree Model Coerce OrderedKey Codec Matching Coverage Catalog Schema Expression Typing IndexPredicate Database.

#[local] Strategy 1000 [MAX_DEPTH underlying field_type coerce fill_generated].

(** ** Typed rows *)

(** Every entry is a typed column, and [covered] columns have an entry. *)
Definition partial_row (cat : Catalog) (schema : Columns) (m : Fields) : Prop :=
  bt_sorted m = true ∧ ∀ k v, bt_get k m = Some v → ∃ c, c ∈ schema ∧ col_name c = k ∧ has_type cat (col_ty c) v.

Definition typed_row (cat : Catalog) (schema : Columns) (m : Fields) : Prop := has_type cat (TRecord schema) (VRecord m).

Lemma schema_name_inj schema c c' : wf_type (TRecord schema) = true → c ∈ schema → c' ∈ schema → col_name c = col_name c' → c = c'.
Proof.
  intros Hw. assert (Hn : NoDup (col_name <$> schema)) by (by apply wf_type_nodup_columns).
  clear Hw. induction schema as [|x schema IH]; intros Hc Hc' Heq; [by apply elem_of_nil in Hc|].
  apply list.NoDup_cons in Hn as [Hx Hn]. apply elem_of_cons in Hc as [->|Hc], Hc' as [->|Hc']; auto.
  - destruct Hx. rewrite Heq. by apply list_elem_of_fmap_2.
  - destruct Hx. rewrite <-Heq. by apply list_elem_of_fmap_2.
Qed.

Lemma has_type_le cat ty v f : conforms f cat ty v = true → wf_value v = true → has_type cat ty v.
Proof. split; [by exists f|done]. Qed.

(** One depth bound is enough for all entries. *)
Lemma partial_row_fuel cat schema m : wf_type (TRecord schema) = true → partial_row cat schema m →
  ∃ f, ∀ k v c, (k, v) ∈ m → c ∈ schema → col_name c = k → conforms f cat (col_ty c) v = true.
Proof.
  intros Hw [Hs Hp]. assert (Hm : ∀ k v, (k, v) ∈ m → ∃ c, c ∈ schema ∧ col_name c = k ∧ has_type cat (col_ty c) v).
  { intros k v Hin. apply Hp. by apply bt_get_iff. }
  clear Hs Hp. induction m as [|[k v] m IH]; [exists 0%nat; by intros k v c ?%elem_of_nil|].
  destruct IH as [f Hf]; [intros; apply Hm; by right|]. destruct (Hm k v (list_elem_of_here _ _)) as (c & Hcc & Hk & [[g Hg] _]).
  exists (Nat.max f g). intros k' v' c' [[= -> ->]|Hin]%elem_of_cons Hc' Hk'.
  - rewrite (schema_name_inj schema c' c Hw) by congruence. eapply conforms_le; [|done]. lia.
  - eapply conforms_le; [|by eapply Hf]. lia.
Qed.

Lemma typed_row_iff cat schema m : wf_type (TRecord schema) = true →
  typed_row cat schema m ↔ partial_row cat schema m ∧ ∀ c, c ∈ schema → is_Some (bt_get (col_name c) m).
Proof.
  intros Hw. assert (Hn : NoDup (col_name <$> schema)) by (by apply wf_type_nodup_columns). split.
  - intros Ht. pose proof (has_type_shape _ _ _ Ht) as (m' & [= <-] & Hm).
    destruct Ht as [[[|f] Hc] Hwf]; [done|]. cbn [conforms] in Hc. simpl in Hwf. bool_inv.
    assert (Hkeys : col_name <$> schema ≡ₚ m.*1).
    { apply record_keys; try done. intros c Hcc. destruct (Hm c Hcc) as (v & -> & _). by eexists. }
    split; [split; [done|]|intros c Hcc; destruct (Hm c Hcc) as (v & -> & _); by eexists].
    intros k v Hk. assert (Hin : k ∈ col_name <$> schema).
    { rewrite Hkeys. apply bt_get_elem in Hk. apply list_elem_of_fmap. by exists (k, v). }
    apply list_elem_of_fmap in Hin as (c & -> & Hcc). destruct (Hm c Hcc) as (w & Hw' & Htw). exists c.
    split_and!; [done..|]. congruence.
  - intros [Hrow Hc]. destruct (partial_row_fuel _ _ _ Hw Hrow) as [f Hf]. destruct Hrow as [Hs Hp].
    assert (Hkeys : col_name <$> schema ≡ₚ m.*1).
    { apply NoDup_Permutation; [done|by apply bt_sorted_NoDup|]. intros k. split.
      - intros (c & -> & Hcc)%list_elem_of_fmap. destruct (Hc c Hcc) as [v Hv%bt_get_elem]. apply list_elem_of_fmap.
        by exists (col_name c, v).
      - intros ([k' v] & -> & Hin)%list_elem_of_fmap. destruct (Hp k' v) as (c & Hcc & <- & _); [by apply bt_get_iff|].
        apply list_elem_of_fmap. by exists c. }
    split.
    + exists (S f). cbn [conforms]. apply andb_true_iff. split.
      * apply Permutation_length in Hkeys. rewrite !length_fmap in Hkeys. unfold zlen. apply Z.eqb_eq. lia.
      * apply forallb_Forall, list.Forall_forall. intros c Hcc. destruct (Hc c Hcc) as [v Hv]. rewrite Hv.
        apply (Hf (col_name c)); [by apply bt_get_elem|done..].
    + simpl. rewrite Hs. apply forallb_Forall, list.Forall_forall. intros [k v] Hin.
      destruct (Hp k v) as (c & Hcc & <- & [_ Hv]); [by apply bt_get_iff|]. simpl. rewrite Hv.
      by destruct (wf_type_column _ _ Hw Hcc) as (-> & _).
Qed.

Lemma partial_row_insert cat schema m c v : partial_row cat schema m → c ∈ schema → has_type cat (col_ty c) v →
  partial_row cat schema (bt_insert (col_name c) v m).
Proof.
  intros [Hs Hp] Hc Hv. split; [by apply bt_insert_sorted|]. intros k w. rewrite bt_get_insert.
  destruct (tcmp k (col_name c)) eqn:E; [|apply Hp..]. apply tcmp_Eq in E as ->. intros [= ->]. eauto.
Qed.

Lemma partial_row_remove cat schema m name : partial_row cat schema m → partial_row cat schema (bt_remove name m).
Proof.
  intros [Hs Hp]. split; [by apply bt_remove_sorted|]. intros k w. rewrite bt_get_remove by done.
  destruct (tcmp k name); [done|apply Hp..].
Qed.

Lemma partial_rows_remove cat schema names m : partial_row cat schema m →
  partial_row cat schema (foldl (λ fields name, bt_remove name fields) m names).
Proof. revert m. induction names as [|n names IH]; intros m Hm; [done|]. apply IH. by apply partial_row_remove. Qed.

Lemma bt_get_removes names k (m : Fields) : k ∉ names → bt_get k (foldl (λ fields name, bt_remove name fields) m names) = bt_get k m.
Proof.
  revert m. induction names as [|n names IH]; intros m Hk; [done|]. simpl. apply not_elem_of_cons in Hk as [Hne Hk].
  rewrite IH by done. by apply bt_get_remove_ne.
Qed.

(** ** Generated values *)

(** The state that generating a value leaves as it is. *)
Record core_same (db db' : Database) : Prop := {
  cs_objects : db_objects db' = db_objects db;
  cs_indexes : db_indexes db' = db_indexes db;
  cs_definitions : db_index_definitions db' = db_index_definitions db;
  cs_catalog : db_catalog db' = db_catalog db;
  cs_references : db_reference_definitions db' = db_reference_definitions db;
  cs_states : db_reference_states db' = db_reference_states db
}.

#[export] Instance core_same_preorder : PreOrder core_same.
Proof. split; [done|]. intros a b c [] []. split; congruence. Qed.

(** Counters hold an [i64] or are exhausted, and the clock reading is a timestamp. *)
Definition generation_ok (db : Database) : Prop :=
  Forall (λ e, ∀ z, seq_next e.2 = Some z → is_i64 z = true) (db_sequences db) ∧
  ∀ t, db_sample db = Some t → wf_value (VTimestamp t) = true.

Definition entropy_ok (entropy : nat → option (list Z)) : Prop :=
  ∀ n bytes, entropy n = Some bytes → length bytes = 10%nat ∧ all_bytes bytes = true.

Lemma timestamp_from_system_time_wf nanos t : timestamp_from_system_time nanos = Ok t →
  wf_value (VTimestamp t) = true ∧ t = nanos / 1000.
Proof.
  unfold timestamp_from_system_time. intros (m & [_ ->]%ok_or_Ok%checked_Some & Ht%map_err_Ok)%bind_Ok.
  pose proof Ht as [-> _]%from_epoch_microseconds_Ok. simpl. by rewrite Ht.
Qed.

Lemma byte_lor_land c m b : 0 ≤ b → 0 ≤ c → 0 ≤ m → Z.log2 c < 8 → Z.log2 m < 8 → is_byte (Z.lor c (Z.land b m)) = true.
Proof.
  intros Hb Hc Hm Hlc Hlm. assert (0 ≤ Z.land b m) by (apply Z.land_nonneg; lia).
  assert (0 ≤ Z.lor c (Z.land b m)) by (apply Z.lor_nonneg; lia).
  assert (Hl : Z.log2 (Z.lor c (Z.land b m)) < 8).
  { rewrite Z.log2_lor by lia. apply Z.max_lub_lt; [done|]. eapply Z.le_lt_trans; [apply Z.log2_land; lia|]. lia. }
  unfold is_byte. apply andb_true_iff. split; [apply Z.leb_le; lia|]. apply Z.ltb_lt.
  destruct (Z.eq_dec (Z.lor c (Z.land b m)) 0) as [->|Hne]; [lia|].
  assert (Z.lor c (Z.land b m) < 2 ^ 8) by (apply Z.log2_lt_pow2; lia). lia.
Qed.

(** The layout of a version-7 UUID. *)
Lemma uuid_v7_layout timestamp random u :
  length random = 10%nat → all_bytes random = true → uuid_v7 timestamp random = Ok u →
  wf_uuid u = true ∧ of_be (take 6 u) = timestamp / 1000 ∧ 0 ≤ timestamp / 1000 < 2 ^ 48.
Proof.
  intros Hl Hb Hu. unfold uuid_v7 in Hu. apply bind_Ok in Hu as (ms & [Hms ->]%ok_or_Ok%checked_Some & Hu).
  apply in_range_spec in Hms. destruct (timestamp / 1000 >=? 2 ^ 48) eqn:E; [done|]. apply Ok_inj in Hu as <-.
  assert (timestamp / 1000 < 2 ^ 48) by lia.
  do 10 (destruct random as [|?b random]; [done|]). destruct random; [|done].
  apply all_bytes_Forall in Hb. rewrite !list.Forall_cons in Hb.
  split_and!; [|rewrite take_app_length' by (by rewrite be_bytes_length)|lia|lia].
  - unfold wf_uuid, zlen. rewrite length_app, be_bytes_length, all_bytes_app, be_bytes_all_bytes. simpl.
    rewrite !byte_lor_land by (first [lia | vm_compute; reflexivity]). unfold is_byte.
    rewrite !andb_true_iff, !Z.leb_le, !Z.ltb_lt. lia.
  - rewrite of_be_be_bytes. apply Z.mod_small. lia.
Qed.

Section generation.
Context (clock : Z) (entropy : nat → option (list Z)) (Hentropy : entropy_ok entropy).

Lemma generation_timestamp_spec db t db' : generation_ok db → generation_timestamp clock db = Ok (t, db') →
  wf_value (VTimestamp t) = true ∧ core_same db db' ∧ generation_ok db' ∧ db_sample db' = Some t.
Proof.
  intros [Hs Hsm]. unfold generation_timestamp. destruct (db_sample db) as [s|] eqn:E.
  - intros [= <- <-]. split_and!; try done; [auto|]. split; [done|]. rewrite E. by intros ? [= <-]; apply Hsm.
  - intros (x & [Hx _]%timestamp_from_system_time_wf & [= <- <-])%bind_Ok.
    split_and!; try done. split; [done|]. by intros ? [= <-].
Qed.

Lemma generate_default_spec db g v db' : generation_ok db → generate_default clock entropy db g = Ok (v, db') →
  wf_value v = true ∧ core_same db db' ∧ generation_ok db'.
Proof.
  intros Hg Hd. destruct g as [id| |]; simpl in Hd.
  - apply bind_Ok in Hd as ([name s] & Hs%ok_or_Ok & Hd). apply bind_Ok in Hd as ([z s'] & Hz & [= <- <-]).
    unfold sequence_allocate in Hz. apply bind_Ok in Hz as (y & Hy%ok_or_Ok & [= <- <-]).
    destruct Hg as [Hq Hsm]. rewrite list.Forall_forall in Hq. apply List.find_some in Hs as [Hin%list_elem_of_In _].
    split_and!; [by apply (Hq _ Hin)|done|]. split; [|done]. apply list.Forall_forall.
    intros e [->|He]%bt_insert_elem; [|by apply Hq]. simpl. by intros w [? ->]%checked_Some.
  - apply bind_Ok in Hd as ([u db1] & Hu & [= <- <-]). unfold generation_uuid in Hu.
    apply bind_Ok in Hu as ([t db2] & Ht & Hu). apply bind_Ok in Hu as (random & Hr%ok_or_Ok & Hu).
    apply bind_Ok in Hu as (u' & Hu & [= <- <-]). destruct (generation_timestamp_spec _ _ _ Hg Ht) as (Hwt & Hc & Hok & Hsm).
    destruct (Hentropy _ _ Hr) as [Hl Hb]. split_and!; [by apply (uuid_v7_layout t random)| |].
    + etrans; [exact Hc|]. done.
    + split; [apply Hok|]. simpl. rewrite Hsm. by intros ? [= <-].
  - apply bind_Ok in Hd as ([t db1] & Ht & [= <- <-]). by destruct (generation_timestamp_spec _ _ _ Hg Ht) as (Hwt & Hc & Hok & Hsm).
Qed.
End generation.

(** ** Materialised rows *)

Definition row_type_of (t : Table) : ScalarType :=
  match tbl_row_type t with Some id => TRef id | None => TRecord (tbl_schema t) end.

Definition key_type (ty : ScalarType) : bool := match ty with TInt | TText | TUuid => true | _ => false end.

(** The columns are those of the declared row type, and the primary key has a key type. *)
Record table_typed (cat : Catalog) (t : Table) : Prop := {
  tt_schema : wf_type (TRecord (tbl_schema t)) = true;
  tt_type : wf_type (row_type_of t) = true;
  tt_underlying : ∃ n, underlying_loop n cat (row_type_of t) = Ok (TRecord (tbl_schema t));
  tt_key key : tbl_primary_key t = Some key → ∃ ty u,
    field_type cat (tbl_schema t) key = Ok ty ∧ underlying cat ty = Ok u ∧ key_type u = true
}.

Lemma table_row_type_eq db name t : table db name = Ok t → table_row_type db name = Ok (row_type_of t).
Proof. intros Ht. unfold table_row_type. by rewrite Ht. Qed.

Lemma coerce_record_typed cat t v r : wf_catalog cat = true → table_typed cat t → wf_value v = true →
  coerce cat v (row_type_of t) = Ok r → ∃ fields, unwrapped r = VRecord fields ∧ typed_row cat (tbl_schema t) fields.
Proof.
  intros Hc [Hs Hty [n Hu] _] Hv Hr. destruct (coerce_sound _ _ _ _ Hc Hty Hv Hr) as [Hconf Hw].
  assert (Ht : has_type cat (TRecord (tbl_schema t)) (unwrapped r)).
  { split; [eapply underlying_inhabits; [exact Hu|by eexists]|]. clear -Hw. induction r; simpl in *; try done. bool_inv. auto. }
  pose proof (has_type_shape _ _ _ Ht) as (m & Hm & _). exists m. split; [done|]. unfold typed_row. by rewrite <-Hm.
Qed.

Lemma placeholder_wf g : wf_value (placeholder g) = true.
Proof. destruct g; vm_compute; reflexivity. Qed.

Lemma wf_record_insert (m : Fields) k v : wf_value (VRecord m) = true → wf_string k = true → wf_value v = true →
  wf_value (VRecord (bt_insert k v m)) = true.
Proof.
  simpl. intros Hm Hk Hv. bool_inv. rewrite bt_insert_sorted by done. apply forallb_Forall, list.Forall_forall.
  intros e [->|He]%bt_insert_elem; [simpl; by rewrite Hk, Hv|].
  match goal with H : forallb _ m = true |- _ => rewrite forallb_Forall, list.Forall_forall in H; by apply H end.
Qed.

(** The missing names are those of columns with a generator. *)
Definition missing_generated (t : Table) (missing : list string) : Prop :=
  ∀ k, k ∈ missing → ∃ c, c ∈ tbl_schema t ∧ col_name c = k ∧ is_Some (bt_get (col_id c) (tbl_generated_defaults t)).

Lemma fill_record_wf t m m' missing : wf_type (TRecord (tbl_schema t)) = true → wf_value (VRecord m) = true →
  fill_record t m = (m', missing) → wf_value (VRecord m') = true ∧ missing_generated t missing.
Proof.
  intros Hs. unfold fill_record. assert (Hnil : missing_generated t []) by (by intros k ?%elem_of_nil). revert Hnil.
  assert (Hsub : ∀ c, c ∈ tbl_schema t → c ∈ tbl_schema t) by done. revert Hsub.
  generalize (@nil string) as miss. generalize (tbl_schema t) at 1 3 as l. intros l. revert m.
  induction l as [|c l IH]; intros m miss Hsub Hmiss Hm; simpl; [by intros [= <- <-]|].
  assert (Hc : c ∈ tbl_schema t) by (apply Hsub; by left).
  assert (Hl : ∀ c, c ∈ l → c ∈ tbl_schema t) by (intros; apply Hsub; by right).
  destruct (bt_get (col_name c) m) eqn:E1; [by apply IH|].
  destruct (bt_get (col_id c) (tbl_generated_defaults t)) as [g|] eqn:E2; [|by apply IH]. apply IH; try done.
  - intros k [Hk| ->%list_elem_of_singleton]%elem_of_app; [auto|]. exists c. rewrite E2. by split_and!.
  - apply wf_record_insert; [done|by apply (wf_type_column _ _ Hs Hc)|apply placeholder_wf].
Qed.

Lemma fill_generated_wf fuel t v v' missing : wf_type (TRecord (tbl_schema t)) = true → wf_value v = true →
  fill_generated fuel t v = Ok (v', missing) → wf_value v' = true ∧ missing_generated t missing.
Proof.
  intros Hs. revert v v'. induction fuel as [|fuel IH]; intros v v' Hv Hf; [done|]. cbn [fill_generated] in Hf.
  assert (Hnil : missing_generated t []) by (by intros k ?%elem_of_nil).
  destruct v as [| | | | | | | | | | |n args i|m| | | |o|id v]; try (injection Hf as <- <-; done).
  - destruct args as [|a [|]]; try (injection Hf as <- <-; done). apply bind_Ok in Hf as ([a' ms] & Ha & [= <- <-]).
    simpl in Hv. bool_inv. destruct (IH a a') as [Hw Hg]; [done..|]. split; [|done]. simpl. rewrite Hw. by rewrite !andb_true_iff.
  - destruct (fill_record t m) as [m' ms] eqn:Er. injection Hf as <- <-. by eapply fill_record_wf.
  - apply bind_Ok in Hf as ([a' ms] & Ha & [= <- <-]). simpl in Hv. bool_inv. destruct (IH v a') as [Hw Hg]; [done..|].
    split; [|done]. simpl. by rewrite Hw, !andb_true_iff.
Qed.

(** A row is coerced as it is, or with placeholders that are removed again. *)
Lemma coerce_row_cases db name t values up fields : table db name = Ok t → coerce_row db name values up = Ok fields →
  ∃ cand missing r m, ((cand = values ∧ missing = []) ∨ fill_generated MAX_DEPTH t values = Ok (cand, missing)) ∧
    coerce (db_catalog db) cand (row_type_of t) = Ok r ∧ unwrapped r = VRecord m ∧
    fields = foldl (λ fields name, bt_remove name fields) m missing.
Proof.
  intros Ht. unfold coerce_row. rewrite Ht, (table_row_type_eq _ _ _ Ht). generalize (fill_generated MAX_DEPTH) as fill.
  generalize (coerce (db_catalog db)) as co. intros co fill Hr. simpl in Hr. destruct (tbl_generated_defaults t).
  - apply bind_Ok in Hr as (r & Hco & Hr). exists values, [], r. destruct (unwrapped r) eqn:Eu; try discriminate Hr.
    injection Hr as <-. eexists. split_and!; try done. by left.
  - case_if_in Hr; [done|]. apply bind_Ok in Hr as ([cand missing] & Hf & Hr). apply bind_Ok in Hr as (r & Hco & Hr).
    exists cand, missing, r. destruct (unwrapped r) eqn:Eu; try discriminate Hr.
    injection Hr as <-. eexists. split_and!; try done. by right.
Qed.

Lemma coerce_row_typed db name t values up fields :
  wf_catalog (db_catalog db) = true → table db name = Ok t → table_typed (db_catalog db) t → wf_value values = true →
  coerce_row db name values up = Ok fields →
  partial_row (db_catalog db) (tbl_schema t) fields ∧
  ∀ c, c ∈ tbl_schema t → is_Some (bt_get (col_name c) fields) ∨ is_Some (bt_get (col_id c) (tbl_generated_defaults t)).
Proof.
  intros Hc Ht Htt Hv (cand & missing & r & m & Hcand & Hco & Hm & ->)%(coerce_row_cases _ _ t); [|done].
  pose proof (tt_schema _ _ Htt) as Hs. assert (Hw : wf_value cand = true ∧ missing_generated t missing).
  { destruct Hcand as [[-> ->]|Hf]; [split; [done|by intros k ?%elem_of_nil]|by eapply fill_generated_wf]. }
  destruct Hw as [Hw Hmiss]. destruct (coerce_record_typed _ _ _ _ Hc Htt Hw Hco) as (m' & Hm' & Hty).
  assert (m' = m) as -> by congruence. apply typed_row_iff in Hty as [Hp Hcov]; [|done].
  split; [by apply partial_rows_remove|]. intros c Hcc.
  destruct (decide (col_name c ∈ missing)) as [Hin|Hin]; [right|left; rewrite bt_get_removes; auto].
  destruct (Hmiss _ Hin) as (c' & Hc' & Hn & Hg). by rewrite (schema_name_inj (tbl_schema t) c c').
Qed.

Section materialize.
Context (clock : Z) (entropy : nat → option (list Z)) (Hentropy : entropy_ok entropy).

Lemma generate_columns_spec db t l fields db1 fields' db' :
  wf_catalog (db_catalog db) = true → wf_type (TRecord (tbl_schema t)) = true → (∀ c, c ∈ l → c ∈ tbl_schema t) →
  partial_row (db_catalog db) (tbl_schema t) fields → core_same db db1 → generation_ok db1 →
  foldR (generate_column clock entropy (tbl_generated_defaults t)) (fields, db1) l = Ok (fields', db') →
  partial_row (db_catalog db) (tbl_schema t) fields' ∧ core_same db db' ∧ generation_ok db' ∧
  (∀ k, is_Some (bt_get k fields) → is_Some (bt_get k fields')) ∧
  (∀ c, c ∈ l → is_Some (bt_get (col_id c) (tbl_generated_defaults t)) → is_Some (bt_get (col_name c) fields')).
Proof.
  intros Hc Hs. revert fields db1. induction l as [|c l IH]; intros fields db1 Hsub Hp Hsame Hg Hf; cbn [foldR] in Hf.
  { injection Hf as <- <-. split_and!; try done. by intros c ?%elem_of_nil. }
  assert (Hl : ∀ c, c ∈ l → c ∈ tbl_schema t) by (intros; apply Hsub; by right).
  apply bind_Ok in Hf as ([fields1 db2] & Hstep & Hf).
  assert (Hnext : partial_row (db_catalog db) (tbl_schema t) fields1 ∧ core_same db db2 ∧ generation_ok db2 ∧
    (∀ k, is_Some (bt_get k fields) → is_Some (bt_get k fields1)) ∧
    (is_Some (bt_get (col_id c) (tbl_generated_defaults t)) → is_Some (bt_get (col_name c) fields1))).
  { unfold generate_column, bt_mem in Hstep. destruct (bt_get (col_name c) fields) as [w|] eqn:Ek.
    { injection Hstep as <- <-. split_and!; done. }
    destruct (bt_get (col_id c) (tbl_generated_defaults t)) as [g|];
      [|injection Hstep as <- <-; split_and!; try done; by intros [? ?]].
    apply bind_Ok in Hstep as ([v db3] & Hgen & Hstep). apply bind_Ok in Hstep as (v' & Hv' & [= <- <-]).
    destruct (generate_default_spec clock entropy Hentropy _ _ _ _ Hg Hgen) as (Hwv & Hs3 & Hg3).
    assert (Hs' : core_same db db3) by (by etrans). rewrite (cs_catalog _ _ Hs') in Hv'.
    assert (Hcc : c ∈ tbl_schema t) by (apply Hsub; by left).
    destruct (coerce_sound _ _ _ _ Hc (proj1 (proj2 (proj2 (wf_type_column _ _ Hs Hcc)))) Hwv Hv') as [Hcf Hwf].
    split_and!; [|done|done| |intros _; rewrite bt_get_insert_eq; by eexists].
    - apply partial_row_insert; [done..|]. by eapply has_type_le.
    - intros k Hk. rewrite bt_get_insert. destruct (tcmp k (col_name c)); [by eexists|done..]. }
  destruct Hnext as (Hp1 & Hs1 & Hg1 & Hmono & Hcov). destruct (IH _ _ Hl Hp1 Hs1 Hg1 Hf) as (? & ? & ? & Hmono' & Hcov').
  split_and!; auto. intros c' [->|Hc']%elem_of_cons; auto.
Qed.

(** A materialised row is a record of the table's columns; only counters and the clock
    reading change. *)
Lemma materialize_spec db name t values up fields db' :
  wf_catalog (db_catalog db) = true → table db name = Ok t → table_typed (db_catalog db) t → generation_ok db →
  wf_value values = true → materialize_generated_row clock entropy db name values up = Ok (fields, db') →
  typed_row (db_catalog db) (tbl_schema t) fields ∧ core_same db db' ∧ generation_ok db'.
Proof.
  intros Hc Ht Htt Hg Hv Hm. unfold materialize_generated_row in Hm. apply bind_Ok in Hm as (fields0 & Hr & Hm).
  rewrite Ht in Hm. apply (bind_Ok (Ok t)) in Hm as (t' & [= <-] & Hm). pose proof (tt_schema _ _ Htt) as Hs.
  destruct (coerce_row_typed _ _ _ _ _ _ Hc Ht Htt Hv Hr) as [Hp Hcov]. clear Hr.
  rewrite typed_row_iff by done. destruct (tbl_generated_defaults t) as [|g gs] eqn:Eg.
  { injection Hm as <- <-. split_and!; try done. intros c Hcc. by destruct (Hcov c Hcc) as [|[? ?]]. }
  rewrite <-Eg in *. clear Eg g gs.
  destruct (generate_columns_spec db t (tbl_schema t) fields0 db fields db') as (Hp' & Hs' & Hg' & Hmono & Hnew); try done.
  split_and!; try done. intros c Hcc. destruct (Hcov c Hcc); auto.
Qed.
End materialize.

(** ** Primary keys *)

Lemma wf_unwrapped v : wf_value v = true → wf_value (unwrapped v) = true.
Proof. induction v; simpl; try done. intros Hv. bool_inv. auto. Qed.

Lemma field_wf v path w : wf_value v = true → field v path = Some w → wf_value w = true.
Proof.
  intros Hv. unfold field. assert (Ho : ∀ x, Some v = Some x → wf_value x = true) by congruence. revert Ho.
  generalize (Some v) as o. induction (split_dots path) as [|p ps IH]; intros o Ho; simpl; [apply Ho|].
  apply IH. intros x Hx. destruct o as [y|]; [|done]. simpl in Hx. pose proof (wf_unwrapped y (Ho _ eq_refl)) as Hy.
  destruct (unwrapped y); try done. simpl in Hy. bool_inv. apply bt_get_elem in Hx. by eapply wf_entries_elem.
Qed.

Lemma row_field_wf m path v : wf_value (VRecord m) = true → row_field m path = Some v → wf_value v = true.
Proof.
  intros Hm. assert (Hget : ∀ k w, bt_get k m = Some w → wf_value w = true).
  { intros k w Hk%bt_get_elem. simpl in Hm. bool_inv. by eapply wf_entries_elem. }
  unfold row_field. destruct (bt_get path m) as [w|] eqn:E; [intros [= <-]; eauto|].
  destruct (split_dot path) as [[h tl]|]; [|done]. simpl. destruct (bt_get h m) as [w|] eqn:E2; [|done]. simpl. eauto using field_wf.
Qed.

(** Equal comparison under a key type is equality. *)
Lemma key_cmp_eq n fuel cat ty u v w : underlying_loop n cat ty = Ok u → key_type u = true →
  cmp_typed_inner fuel cat ty v w = Ok Eq → v = w.
Proof.
  revert n ty v w. induction fuel as [|fuel IH]; intros n ty v w Hu Hk Hc; [done|].
  destruct n as [|n]; [done|]. cbn [underlying_loop] in Hu. cbn [cmp_typed_inner] in Hc.
  destruct ty; try (apply Ok_inj in Hu as <-; done).
  - destruct v, w; try discriminate Hc. injection Hc as ->%Z.compare_eq_iff. done.
  - destruct v, w; try discriminate Hc. injection Hc as ->%str_cmp_Eq. done.
  - destruct v, w; try discriminate Hc. injection Hc as ->%bytes_cmp_Eq. done.
  - apply bind_Ok in Hu as (d & Hd & Hu). destruct v, w; try discriminate Hc. rewrite Hd in Hc. simpl in Hc.
    case_if_in Hc; [|done]. bool_inv. subst. f_equal. by eapply IH.
Qed.

(** Rows with the same encoded primary key have the same primary key. *)
Lemma single_index_key_inj db name t key v w a :
  table db name = Ok t → table_typed (db_catalog db) t → tbl_primary_key t = Some key →
  wf_value v = true → wf_value w = true →
  single_index_key db name key v = Ok a → single_index_key db name key w = Ok a → v = w.
Proof.
  intros Ht Htt Hk Hv Hw Ha Hb. unfold single_index_key in Ha, Hb. rewrite Ht in Ha, Hb.
  apply (bind_Ok (Ok t)) in Ha as (t1 & [= <-] & Ha). apply (bind_Ok (Ok t)) in Hb as (t2 & [= <-] & Hb).
  destruct (tt_key _ _ Htt key Hk) as (ty & u & Hty & Hu & Hku). rewrite Hty in Ha, Hb.
  apply (bind_Ok (Ok ty)) in Ha as (ty1 & [= <-] & Ha). apply (bind_Ok (Ok ty)) in Hb as (ty2 & [= <-] & Hb).
  apply encode_tuple_version_Ok in Ha as (_ & la & Ha%mapR_Ok & ->), Hb as (_ & lb & Hb%mapR_Ok & E).
  apply Forall2_cons_inv_l in Ha as (x & la' & Hx & ->%Forall2_nil_inv_l & ->).
  apply Forall2_cons_inv_l in Hb as (y & lb' & Hy & ->%Forall2_nil_inv_l & ->). simpl in E. rewrite !app_nil_r in E. subst y.
  apply bind_Ok in Hx as (x' & Hx & [= ->]). apply bind_Ok in Hy as (y' & Hy & [= ->]). cbn [comp_ty comp_value] in Hx, Hy.
  destruct (encode_value_order _ _ _ _ _ _ _ _ Hv Hw Hx Hy) as (c & Hc & Hcode). apply code_cmp_bytes in Hcode.
  rewrite (proj2 (bytes_cmp_Eq x x) eq_refl) in Hcode. subst c. by eapply key_cmp_eq.
Qed.
