(* ===== verification/Tables.v ===== *)
(** * Consistency of tables and their indexes

    The invariant of the database state of src/src/db.rs: the rows of a table ascend by
    row ID below the next one, and every secondary index holds exactly the keys of the
    table's rows, with at most one row per key where the index is unique or the primary
    key's.  Maintaining an index gives what building it from the new rows would give,
    and fails with [E_CONSTRAINT] when the final rows collide, whatever the order of the
    changes. *)
From stdpp Require Import gmap sorting.
From S2P Require Import Prelude Bytes Text Utf8 Decimal Temporal Float64 Scalars BTree Model Coerce OrderedKey Codec Matching Coverage Catalog Schema Expression Typing IndexPredicate Database Postings Rows.

#[local] Strategy 1000 [MAX_DEPTH underlying field_type encode_tuple coerce].

(** ** Keys of rows *)

Definition tuple_key (cat : Catalog) (schema : Columns) (components : list IndexComponentDefinition) (fields : Fields)
    : result (list Z) :=
  values ← index_values fields components;
  types ← mapR (λ c, field_type cat schema (ic_column c)) components;
  key ← encode_tuple cat (zip_with (λ '(c, ty) v, mkComponent ty v (ic_descending c)) (zip components types) values);
  if 23 + zlen key >? MAX_COMPLETE_INDEX_KEY_BYTES then Err "E_INDEX_KEY_LIMIT" else Ok key.

Definition row_key (cat : Catalog) (schema : Columns) (d : IndexDefinition) (row : Row) : result (option (list Z)) :=
  if includes d (row_fields row) then Some <$> tuple_key cat schema (effective_components d) (row_fields row) else Ok None.

Lemma index_tuple_key_eq db name t components fields : table db name = Ok t →
  index_tuple_key db name components fields = tuple_key (db_catalog db) (tbl_schema t) components fields.
Proof. intros H. unfold index_tuple_key. by rewrite H. Qed.

Lemma included_key_eq db name t d row : table db name = Ok t →
  included_index_tuple_key db name d (row_fields row) = row_key (db_catalog db) (tbl_schema t) d row.
Proof. intros H. unfold included_index_tuple_key, row_key. by erewrite index_tuple_key_eq. Qed.

Lemma image_key_eq db name t d row : table db name = Ok t →
  image_key db name d row = image (row_key (db_catalog db) (tbl_schema t) d) row.
Proof. intros H. destruct row; [by apply included_key_eq|done]. Qed.

Lemma foldR_ext {A S} (f g : S → A → result S) s l : (∀ s x, f s x = g s x) → foldR f s l = foldR g s l.
Proof. intros H. revert s. induction l as [|x l IH]; intros s; simpl; [done|]. rewrite H. destruct (g s x); simpl; auto. Qed.

Lemma remove_old_entry_eq db name t d p c : table db name = Ok t →
  remove_old_entry db name d p c = remove_step (row_key (db_catalog db) (tbl_schema t) d) p c.
Proof.
  intros H. unfold remove_old_entry, remove_step. destruct (before c); [|done].
  by rewrite (included_key_eq _ _ _ _ _ H), (image_key_eq _ _ _ _ _ H).
Qed.

Lemma add_new_entry_eq db name t d unique p c : table db name = Ok t →
  add_new_entry db name d unique p c = add_step (row_key (db_catalog db) (tbl_schema t) d) unique p c.
Proof.
  intros H. unfold add_new_entry, add_step. destruct (after c); [|done].
  by rewrite (included_key_eq _ _ _ _ _ H), (image_key_eq _ _ _ _ _ H).
Qed.

Lemma build_index_eq db name t d : table db name = Ok t →
  build_index db name d = build (row_key (db_catalog db) (tbl_schema t) d) (tbl_rows t).
Proof.
  intros H. unfold build_index, build. rewrite H. simpl. apply foldR_ext. intros p row.
  unfold row_key. destruct (includes d (row_fields row)); [|done]. rewrite (index_tuple_key_eq _ _ _ _ _ H).
  by destruct (tuple_key _ _ _ _).
Qed.

Lemma eachR_Ok {A} (f : A → result unit) l : eachR f l = Ok tt ↔ ∀ x, x ∈ l → f x = Ok tt.
Proof.
  induction l as [|x l IH]; simpl; [set_solver|]. setoid_rewrite elem_of_cons. destruct (f x) as [[]|] eqn:E; simpl.
  - rewrite IH. naive_solver.
  - split; [done|]. intros Hx. rewrite Hx in E; [done|by left].
Qed.

(** *** Keys do not change when the catalog grows *)

Lemma underlying_extends cat cat' ty u : extends cat cat' → underlying cat ty = Ok u → underlying cat' ty = Ok u.
Proof.
  intros [He _]. unfold underlying. generalize MAX_DEPTH. intros fuel. revert ty.
  induction fuel as [|fuel IH]; intros ty Hu; [done|]. cbn [underlying_loop] in *. destruct ty; try done.
  apply bind_Ok in Hu as (d & Hd & Hu). rewrite (He _ _ Hd). cbn [mbind result_bind]. auto.
Qed.

Lemma field_type_loop_extends cat cat' ty parts t : extends cat cat' →
  field_type_loop cat ty parts = Ok t → field_type_loop cat' ty parts = Ok t.
Proof.
  intros He. revert ty. induction parts as [|p parts IH]; intros ty Hf; cbn [field_type_loop] in *; [done|].
  apply bind_Ok in Hf as (u & Hu & Hf). rewrite (underlying_extends _ _ _ _ He Hu). cbn [mbind result_bind].
  destruct u; try done. apply bind_Ok in Hf as (c & Hc & Hf). rewrite Hc. cbn [mbind result_bind]. auto.
Qed.

Lemma field_type_extends cat cat' schema path t : extends cat cat' →
  field_type cat schema path = Ok t → field_type cat' schema path = Ok t.
Proof.
  intros He. unfold field_type. destruct (find_column schema path); [done|]. destruct (split_dots path); [done|].
  intros (f & Hf & Hl)%bind_Ok. rewrite Hf. cbn [mbind result_bind]. by apply (field_type_loop_extends cat).
Qed.

Lemma encode_value_extends fuel cat cat' version ty v a : extends cat cat' →
  OrderedKey.encode_value fuel cat version ty v = Ok a → OrderedKey.encode_value fuel cat' version ty v = Ok a.
Proof.
  intros He. revert ty v a. induction fuel as [|fuel IH]; intros ty v a Hv; [done|]. cbn [OrderedKey.encode_value] in *.
  assert (Hitems : ∀ l k, mapR (λ '(t, v), OrderedKey.encode_value fuel cat version t v) l = Ok k →
    mapR (λ '(t, v), OrderedKey.encode_value fuel cat' version t v) l = Ok k).
  { intros l k. apply mapR_mono. intros [t w] y. apply IH. }
  destruct ty; try exact Hv; destruct v as [| | | | | | | | | | |n args i| | | | |[w|]|]; try discriminate Hv; try exact Hv.
  - apply bind_Ok in Hv as (var & -> & Hv). cbn [mbind result_bind]. case_if_in Hv; [done|].
    apply bind_Ok in Hv as (cs & Hcs & Hv). by rewrite (Hitems _ _ Hcs).
  - case_if_in Hv; [done|]. apply fmap_Ok in Hv as (cs & Hcs & ->). erewrite mapR_mono; [reflexivity| |exact Hcs].
    intros c y (w & Hw & Hy)%bind_Ok. rewrite Hw. cbn [mbind result_bind]. by apply IH.
  - case_if_in Hv; [done|]. apply fmap_Ok in Hv as (cs & Hcs & ->). by rewrite (Hitems _ _ Hcs).
  - apply fmap_Ok in Hv as (cs & Hcs & ->). by rewrite (IH _ _ _ Hcs).
  - apply bind_Ok in Hv as (cs & Hcs & Hv). erewrite mapR_mono; [exact Hv| |exact Hcs]. simpl.
    intros w y (z & Hz & ->)%fmap_Ok. by rewrite (IH _ _ _ Hz).
  - case_if_in Hv; [done|]. apply bind_Ok in Hv as (cs & Hcs & Hv). erewrite mapR_mono; [exact Hv| |exact Hcs].
    intros [k w] y Hy. cbn beta iota in *. apply bind_Ok in Hy as (z & Hz & Hy). by rewrite (IH _ _ _ Hz).
  - case_if_in Hv; [|done]. apply bind_Ok in Hv as (d & Hd & Hv). rewrite (proj1 He _ _ Hd). cbn [mbind result_bind]. auto.
Qed.

Lemma encode_tuple_extends cat cat' cs a : extends cat cat' → encode_tuple cat cs = Ok a → encode_tuple cat' cs = Ok a.
Proof.
  intros He. unfold encode_tuple, encode_tuple_version. case_match; [done|]. intros (l & Hl & ->)%fmap_Ok.
  erewrite mapR_mono; [done| |exact Hl]. intros c y (b & Hb & Hy)%bind_Ok. unfold encode_component.
  by rewrite (encode_value_extends _ _ _ _ _ _ _ He Hb).
Qed.

Lemma row_key_extends cat cat' schema d row o : extends cat cat' → row_key cat schema d row = Ok o → row_key cat' schema d row = Ok o.
Proof.
  intros He. unfold row_key. case_match; [|done]. intros (k & Hk & ->)%fmap_Ok. unfold tuple_key in *.
  apply bind_Ok in Hk as (vs & Hvs & Hk). rewrite Hvs. cbn [mbind result_bind].
  apply bind_Ok in Hk as (tys & Htys & Hk). erewrite (mapR_mono _ _ _ _ _ Htys). cbn [mbind result_bind].
  apply bind_Ok in Hk as (a & Ha & Hk). rewrite (encode_tuple_extends _ _ _ _ He Ha). cbn [mbind result_bind]. by rewrite Hk.
  Unshelve. intros c t Ht. by apply (field_type_extends cat).
Qed.

(** ** The invariant *)

Section consistency.
Context `{TextLib} `{PredicateText} `{Base64}.

(** The indexes [ixs] of a table are those of its definitions, over its rows. *)
Record table_indexed (cat : Catalog) (t : Table) (defs : list (string * IndexDefinition)) (ixs : list (string * IndexPosting))
    : Prop := {
  ti_rows : ascending (row_id <$> tbl_rows t);
  ti_defs_sorted : bt_sorted defs = true;
  ti_sorted : bt_sorted ixs = true;
  ti_shape shape d : bt_get shape defs = Some d → shape = shape_key d;
  ti_partial shape d : bt_get shape defs = Some d → ix_predicate d ≠ None → ix_kind d = Unique;
  ti_defined shape : bt_get shape defs = None → bt_get shape ixs = None;
  ti_posting shape d : bt_get shape defs = Some d → ∃ p, bt_get shape ixs = Some p ∧
    posting_of (row_key cat (tbl_schema t) d) (tbl_rows t) p ∧ (guarded (tbl_primary_key t) d = true → unique_posting p)
}.

(** Row IDs are allocated from [next_row_id] on. *)
Definition next_free (t : Table) : Prop := 0 ≤ tbl_next_row_id t ∧ ∀ r, r ∈ tbl_rows t → 0 ≤ row_id r < tbl_next_row_id t.

Definition indexed (db : Database) (name : string) (t : Table) : Prop :=
  table_indexed (db_catalog db) t (definitions_of db name) (indexes_of db name).

Definition rows_typed (cat : Catalog) (t : Table) : Prop :=
  ∀ r, r ∈ tbl_rows t → typed_row cat (tbl_schema t) (row_fields r).

(** The primary key has its index, under its own name. *)
Definition primary_defined (db : Database) (name : string) (t : Table) : Prop :=
  ∀ key, tbl_primary_key t = Some key → ∃ d, bt_get key (definitions_of db name) = Some d ∧ is_primary_index d (Some key) = true.

Record table_ok (db : Database) (name : string) (t : Table) : Prop := {
  to_indexed : indexed db name t;
  to_primary : primary_defined db name t;
  to_next : next_free t;
  to_typed : table_typed (db_catalog db) t;
  to_rows : rows_typed (db_catalog db) t
}.

Lemma table_Ok db name t : table db name = Ok t ↔ bt_get name (db_objects db) = Some t.
Proof. apply ok_or_Ok. Qed.

(** *** A pass over the indexes of a table *)

(** The index of a definition after a pass, or the error of one of them. *)
Lemma update_indexes_spec f (Q : IndexDefinition → IndexPosting → Prop) (X : IndexDefinition → Prop) e defs cs ixs :
  NoDup defs.*1 → (∀ s d, (s, d) ∈ defs → s = shape_key d) → bt_sorted ixs = true →
  (∀ s d, (s, d) ∈ defs → ∃ p, bt_get s ixs = Some p ∧
     ((∃ p', foldR (f d) p cs = Ok p' ∧ Q d p') ∨ (foldR (f d) p cs = Err e ∧ X d))) →
  (∃ ixs', update_indexes f defs cs ixs = Ok ixs' ∧ bt_sorted ixs' = true ∧
     (∀ s, s ∉ defs.*1 → bt_get s ixs' = bt_get s ixs) ∧
     (∀ s d, (s, d) ∈ defs → ∃ p', bt_get s ixs' = Some p' ∧ Q d p')) ∨
  (update_indexes f defs cs ixs = Err e ∧ ∃ s d, (s, d) ∈ defs ∧ X d).
Proof.
  unfold update_indexes. revert ixs. induction defs as [|[s d] defs IH]; intros ixs Hn Hs Hso Hd; simpl.
  { left. exists ixs. split_and!; [done..|]. set_solver. }
  apply list.NoDup_cons in Hn as [Hsn Hn]. rewrite <-(Hs s d (list_elem_of_here _ _)).
  destruct (Hd s d (list_elem_of_here _ _)) as (p & Hp & [(p' & Hf & HQ)|[Hf HX]]); rewrite Hp; simpl; rewrite Hf; simpl.
  2: { right. split; [done|]. exists s, d. split; [by left|done]. }
  destruct (IH (bt_insert s p' ixs)) as [(ixs' & Hu & Hso' & Hother & Hthis)|(Hu & s' & d' & Hin & HX)];
    [done|set_solver|by apply bt_insert_sorted| | |].
  - intros s' d' Hin. rewrite bt_get_insert_ne; [apply Hd; by right|]. intros ->. apply Hsn, list_elem_of_fmap.
    by exists (s, d').
  - left. exists ixs'. split_and!; [done..| |].
    + intros s' Hs'. simpl in Hs'. apply not_elem_of_cons in Hs' as [Hne Hs'].
      rewrite Hother by done. by rewrite bt_get_insert_ne.
    + intros s' d' [[= -> ->]|Hin]%elem_of_cons; [|auto]. exists p'. split; [|done].
      rewrite Hother by done. by rewrite bt_get_insert_eq.
  - right. split; [done|]. exists s', d'. split; [by right|done].
Qed.

(** What the two passes do to the indexes of a consistent table. *)
Section candidate.
Context (db : Database) (name : string) (t : Table) (cs : list RowChange) (rows' : list Row).
Hypotheses (Ht : table db name = Ok t) (Hi : indexed db name t) (Hl : leads (tbl_rows t) cs rows').

Notation K := (row_key (db_catalog db) (tbl_schema t)).
Notation defs := (definitions_of db name).

Definition rows_keyed : Prop := ∀ s d r, bt_get s defs = Some d → r ∈ rows' → is_ok (K d r) = true.

Lemma defs_elem s d : (s, d) ∈ defs ↔ bt_get s defs = Some d.
Proof. symmetry. apply bt_get_iff, Hi. Qed.

Lemma check_change_Ok c : change_ids c →
  check_change db name defs c = Ok tt ↔ ∀ s d r, bt_get s defs = Some d → after c = Some r → is_ok (K d r) = true.
Proof.
  intros [Hb Ha]. unfold check_change.
  assert (match before c, after c with
      | Some o, Some n => if row_id o =? row_id n then Ok tt else Err "E_INDEX" | _, _ => Ok tt end = Ok tt) as ->.
  { destruct (before c) as [o|], (after c) as [n|]; try done. rewrite (Hb o), (Ha n), Z.eqb_refl; done. }
  simpl. destruct (after c) as [r|]; [|split; [intros; done|done]]. rewrite eachR_Ok. split.
  - intros Hx s d r' Hd [= <-]. apply defs_elem in Hd. specialize (Hx _ Hd). simpl in Hx.
    rewrite (included_key_eq _ _ _ _ _ Ht) in Hx. by destruct (K d r).
  - intros Hx [s d] Hd%defs_elem. rewrite (included_key_eq _ _ _ _ _ Ht). specialize (Hx s d r Hd eq_refl). by destruct (K d r).
Qed.

Lemma checks_keyed : eachR (check_change db name defs) cs = Ok tt ↔ rows_keyed.
Proof.
  rewrite eachR_Ok. split.
  - intros Hc s d r Hd [(c & Hin & Ha)|[Hr _]]%(leads_iff _ _ _ Hl).
    + specialize (Hc c Hin). rewrite check_change_Ok in Hc by (by apply (leads_ids _ _ _ Hl)). eauto.
    + destruct (ti_posting _ _ _ _ Hi s d Hd) as (p & _ & Hp & _). by apply (posting_of_keyed _ _ _ Hp).
  - intros Hk c Hc. apply check_change_Ok; [by apply (leads_ids _ _ _ Hl)|]. intros s d r Hd Ha.
    apply (Hk s d r Hd), (leads_iff _ _ _ Hl). eauto.
Qed.

(** The index of every definition over the new rows. *)
Definition indexed_after (ixs : list (string * IndexPosting)) : Prop :=
  bt_sorted ixs = true ∧ (∀ s, bt_get s defs = None → bt_get s ixs = None) ∧
  ∀ s d, bt_get s defs = Some d → ∃ p, bt_get s ixs = Some p ∧ posting_of (K d) rows' p ∧
    (guarded (tbl_primary_key t) d = true → unique_posting p).

Definition collision : Prop := ∃ s d, bt_get s defs = Some d ∧ guarded (tbl_primary_key t) d = true ∧ collides (K d) rows'.

Lemma defs_none s : bt_get s defs = None → s ∉ defs.*1.
Proof. intros Hn ([s' d] & -> & Hin)%list_elem_of_fmap. apply defs_elem in Hin. simpl in Hn. congruence. Qed.

Lemma indexed_after_unique ixs : indexed_after ixs → ¬ collision.
Proof.
  intros (_ & _ & Hp) (s & d & Hd & Hg & Hc). destruct (Hp s d Hd) as (p & _ & Hpo & Hu).
  by apply (posting_of_collides _ _ _ Hpo) in Hc; [|auto].
Qed.

Lemma candidate_indexes_cases : rows_keyed →
  (∃ ixs, candidate_indexes db name t cs = Ok ixs ∧ indexed_after ixs) ∨
  (candidate_indexes db name t cs = Err "E_CONSTRAINT" ∧ collision).
Proof.
  intros Hk. unfold candidate_indexes. rewrite (proj2 checks_keyed Hk). simpl.
  assert (Hdefs : NoDup defs.*1) by (apply bt_sorted_NoDup, Hi).
  assert (Hshape : ∀ s d, (s, d) ∈ defs → s = shape_key d) by (intros s d ?%defs_elem; by apply (ti_shape _ _ _ _ Hi)).
  destruct (update_indexes_spec (remove_old_entry db name)
    (λ d p1, ∃ p, posting_of (K d) (tbl_rows t) p ∧ (guarded (tbl_primary_key t) d = true → unique_posting p) ∧ stripped (K d) cs p p1)
    (λ _, False) "E_INDEX" defs cs (indexes_of db name)) as [(ixs1 & -> & Hs1 & Hn1 & Hr1)|(_ & _ & _ & _ & [])];
    [done|done|apply Hi| |].
  { intros s d Hd%defs_elem. destruct (ti_posting _ _ _ _ Hi s d Hd) as (p & Hp & Hpo & Hu). exists p. split; [done|]. left.
    destruct (leads_remove (K d) (tbl_rows t) rows' cs p Hl Hpo) as (p1 & Hf & Hst); [intros; by eapply Hk|]. exists p1.
    split; [|by exists p]. rewrite <-Hf. apply foldR_ext. intros. by apply remove_old_entry_eq. }
  simpl. destruct (update_indexes_spec (λ d, add_new_entry db name d (guarded (tbl_primary_key t) d))
    (λ d p', posting_of (K d) rows' p' ∧ (guarded (tbl_primary_key t) d = true → unique_posting p'))
    (λ d, guarded (tbl_primary_key t) d = true ∧ collides (K d) rows') "E_CONSTRAINT" defs cs ixs1)
    as [(ixs2 & -> & Hs2 & Hn2 & Hr2)|(-> & s & d & Hd%defs_elem & HX)]; [done|done|done| | |].
  - intros s d Hd. destruct (Hr1 s d Hd) as (p1 & Hp1 & p & Hpo & Hu & Hst). exists p1. split; [done|].
    apply defs_elem in Hd. rewrite (foldR_ext _ _ _ _ (λ p c, add_new_entry_eq db name t d _ p c Ht)).
    destruct (leads_add (K d) (tbl_rows t) rows' cs p Hl Hpo (λ r, Hk s d r Hd) (guarded (tbl_primary_key t) d) p1 Hst)
      as [(p' & Hf & Hpo' & Hu')|(Hg & Hf & Hc)]; [left|right; auto]. exists p'. auto.
  - left. exists ixs2. split; [done|]. split_and!; [done| |].
    + intros s Hs. rewrite Hn2, Hn1 by (by apply defs_none). by apply (ti_defined _ _ _ _ Hi).
    + intros s d Hd%defs_elem. exact (Hr2 s d Hd).
  - right. split; [done|]. exists s, d. done.
Qed.
End candidate.

(** *** The primary index *)

(** The primary index without a predicate is stored under the key's name. *)
Lemma primary_shape d key : is_primary_index d (Some key) = true → ix_predicate d = None → shape_key d = key.
Proof.
  unfold is_primary_index, shape_key. intros Hp ->. destruct (effective_components d) as [|c [|]]; try done.
  apply andb_true_iff in Hp as [Hd%negb_true_iff [= ->]%bool_decide_eq_true]. unfold index_shape_key. simpl. by rewrite Hd.
Qed.

Lemma append_self (a b : string) : a = a +:+ b → b = EmptyString.
Proof. induction a as [|c a IH]; intros Heq; [exact (eq_sym Heq)|]. injection Heq as Heq. auto. Qed.

(** The index under the primary key's name leaves no row out. *)
Lemma primary_total d key : is_primary_index d (Some key) = true → key = shape_key d → ix_predicate d = None.
Proof.
  intros Hp Hs. destruct (ix_predicate d) as [p|] eqn:E; [|done]. exfalso. unfold shape_key in Hs. rewrite E in Hs.
  unfold is_primary_index in Hp. destruct (effective_components d) as [|c [|]]; try done.
  apply andb_true_iff in Hp as [Hd%negb_true_iff [= ->]%bool_decide_eq_true].
  unfold index_shape_key in Hs. simpl in Hs. rewrite Hd in Hs. change ("" +:+ ic_column c) with (ic_column c) in Hs.
  apply append_self in Hs. done.
Qed.

(** Indexes over the primary key with a predicate sort after the primary index itself. *)
Lemma bytes_cmp_prefix a b : bytes_cmp (a ++ b) a ≠ Lt.
Proof. induction a as [|x a IH]; simpl; [by destruct b|]. by rewrite Z.compare_refl. Qed.

Lemma primary_first d key : is_primary_index d (Some key) = true → str_cmp (shape_key d) key ≠ Lt.
Proof.
  intros Hp. destruct (ix_predicate d) as [p|] eqn:E.
  - unfold is_primary_index in Hp. unfold shape_key. rewrite E. destruct (effective_components d) as [|c [|]]; try done.
    apply andb_true_iff in Hp as [Hd%negb_true_iff [= ->]%bool_decide_eq_true]. unfold index_shape_key. simpl. rewrite Hd.
    change ("" +:+ ic_column c) with (ic_column c). unfold str_cmp. rewrite as_bytes_app. apply bytes_cmp_prefix.
  - rewrite (primary_shape _ _ Hp E), str_cmp_refl. done.
Qed.
End consistency.
