(* ===== verification/Predicates.v ===== *)
(** * Filters and index predicates

    What a filter that holds says of a row: the comparisons that access planning takes from
    it ([simple_index_comparison]) and the atoms it guarantees ([collect_query_atoms]) hold of
    the row; and a partial index whose predicate is implied by such atoms has the row. *)
From Stdlib Require Import Ascii.
From stdpp Require Import sets.
From S2P Require Import Prelude Bytes Text Decimal Temporal Float64 FloatArith Scalars BTree Model Coerce OrderedKey Matching Coverage Catalog Schema Expression Typing EvalOps Soundness IndexPredicate Database Query Access Ranges Postings Rows Tables.

#[local] Strategy 1000 [MAX_DEPTH underlying field_type cmp_typed coerce].

#[global] Instance CmpOp_eq_dec : EqDecision CmpOp.
Proof. solve_decision. Defined.

(** ** Binding keeps the head of an expression *)

Definition same_head (a b : ScalarExpression) : bool :=
  match a, b with
  | SReference p, SReference q => String.eqb p q
  | SParameter _ _, SParameter _ _ | SLiteral _, SLiteral _ | SAscribed _ _, SAscribed _ _ | SCall _ _, SCall _ _
  | SLength _, SLength _ | SNegate _ _, SNegate _ _ | SArithmetic _ _ _ _, SArithmetic _ _ _ _ => true
  | _, _ => false
  end.

Ltac bind_inv H :=
  repeat lazymatch type of H with
  | _ ≫= _ = Ok _ => apply bind_Ok in H as (? & _ & H)
  | (if ?b then _ else _) = Ok _ => destruct b
  | check_expected ?o ?e ?t = Ok _ => unfold check_expected in H
  | Err _ = Ok _ => discriminate H
  | Ok _ = Ok _ => first [injection H as <- <- | injection H as <-]
  | match ?x with _ => _ end = Ok _ => destruct x
  end.

Lemma bind_scalar_head cat scope kind e expected e' ty : bind_scalar cat scope kind e expected = Ok (e', ty) → same_head e e' = true.
Proof.
  destruct e; cbn [bind_scalar]; intros Hb; bind_inv Hb; try done. all: try apply String.eqb_refl.
Qed.

(** ** Equality of canonical values *)

(** A sorted map that another holds entirely, of the same size, is that map. *)
Lemma bt_sub_eq {V} (a b : list (string * V)) : bt_sorted a = true → bt_sorted b = true → zlen a = zlen b →
  (∀ k x, (k, x) ∈ a → bt_get k b = Some x) → a = b.
Proof.
  intros Ha Hb Hl Hs. assert (Hp : a ≡ₚ b).
  { apply submseteq_length_Permutation; [|unfold zlen in Hl; lia]. apply NoDup_submseteq; [by eapply NoDup_fmap_1, bt_sorted_NoDup|].
    intros [k x] Hin. by apply bt_get_elem, Hs. }
  apply bt_ext; [done..|]. intros k. destruct (bt_get k a) as [x|] eqn:E; [symmetry; by apply Hs, bt_get_elem|].
  destruct (bt_get k b) as [y|] eqn:E'; [|done]. apply bt_get_elem in E'. rewrite <-Hp in E'. apply bt_get_iff in E'; [congruence|done].
Qed.

Section equal.
Context (conf : ScalarType → Value → bool).
Hypothesis IH : ∀ t v w, wf_type t = true → wf_value v = true → wf_value w = true → conf t v = true → conf t w = true → cmp_eq v w = true → v = w.

Lemma equal_items tys vs ws : Forall (λ t, wf_type t = true) tys → forallb wf_value vs = true → forallb wf_value ws = true →
  all2 conf tys vs = true → all2 conf tys ws = true → all2 cmp_eq vs ws = true → vs = ws.
Proof.
  revert vs ws. induction tys as [|t tys IHt]; intros [|v vs] [|w ws] Ht Hv Hw Cv Cw Hc; try done. cbn [all2 forallb] in *. bool_inv.
  apply list.Forall_cons in Ht as [Ht Hts]. f_equal; [by apply (IH t)|by apply IHt].
Qed.

Lemma equal_list t vs ws : wf_type t = true → forallb wf_value vs = true → forallb wf_value ws = true →
  forallb (conf t) vs = true → forallb (conf t) ws = true → all2 cmp_eq vs ws = true → vs = ws.
Proof.
  intros Ht. revert ws. induction vs as [|v vs IHv]; intros [|w ws] Hv Hw Cv Cw Hc; try done. cbn [all2 forallb] in *. bool_inv.
  f_equal; [by apply (IH t)|by apply IHv].
Qed.

(** Entries of one map against another, with a type for each key. *)
Lemma equal_entries (ty : string → option ScalarType) l r : bt_sorted l = true → bt_sorted r = true → zlen l = zlen r →
  forallb (λ kv, wf_string kv.1 && wf_value kv.2) l = true → forallb (λ kv, wf_string kv.1 && wf_value kv.2) r = true →
  (∀ k t, ty k = Some t → wf_type t = true) →
  (∀ k v, (k, v) ∈ l → ∃ t, ty k = Some t ∧ conf t v = true) → (∀ k v t, (k, v) ∈ r → ty k = Some t → conf t v = true) →
  forallb (λ kv, match bt_get kv.1 r with Some w => cmp_eq kv.2 w | None => false end) l = true → l = r.
Proof.
  intros Sl Sr Hz Wl Wr Ht Cl Cr Hc. apply bt_sub_eq; try done. intros k x Hin. rewrite forallb_Forall, list.Forall_forall in Hc.
  specialize (Hc _ Hin). simpl in Hc. destruct (bt_get k r) as [y|] eqn:Ey; [|done]. f_equal. symmetry. apply bt_get_elem in Ey.
  destruct (Cl k x Hin) as (t & Hk & Ct). apply (IH t); try done; [by eapply Ht|by eapply (wf_entries_elem l)|by eapply (wf_entries_elem r)|by eapply Cr].
Qed.

Lemma equal_record columns l r : wf_type (TRecord columns) = true → wf_value (VRecord l) = true → wf_value (VRecord r) = true →
  zlen l = zlen columns → zlen r = zlen columns →
  forallb (λ c, match bt_get (col_name c) l with Some v => conf (col_ty c) v | None => false end) columns = true →
  forallb (λ c, match bt_get (col_name c) r with Some v => conf (col_ty c) v | None => false end) columns = true →
  forallb (λ kv, match bt_get kv.1 r with Some w => cmp_eq kv.2 w | None => false end) l = true → l = r.
Proof.
  intros Ht Wl Wr Zl Zr Cl Cr. simpl in Wl, Wr. bool_inv. rewrite forallb_Forall, list.Forall_forall in Cl, Cr.
  assert (Hfind : ∀ k c, find_column columns k = Some c → c ∈ columns ∧ col_name c = k) by (intros k c; apply find_column_Some).
  apply (equal_entries (λ k, col_ty <$> find_column columns k)); try done; [lia|..].
  - intros k t. destruct (find_column columns k) as [c|] eqn:E; [|done]. intros [= <-]. apply Hfind in E as [Hc _].
    by destruct (wf_type_column _ _ Ht Hc) as (_ & _ & ? & _).
  - intros k v Hin. assert (Hk : k ∈ col_name <$> columns).
    { rewrite (record_keys columns l); [by apply (list_elem_of_fmap_2 fst _ (k, v))|by apply wf_type_nodup_columns|done|lia|].
      intros c Hc. specialize (Cl c Hc). simpl in Cl. by destruct (bt_get (col_name c) l). }
    apply list_elem_of_fmap in Hk as (c & -> & Hc). exists (col_ty c).
    rewrite (find_column_elem columns c) by (try done; by apply wf_type_nodup_columns). split; [done|]. specialize (Cl c Hc). simpl in Cl.
    apply bt_get_iff in Hin; [|done]. by rewrite Hin in Cl.
  - intros k v t Hin. destruct (find_column columns k) as [c|] eqn:E; [|done]. intros [= <-]. apply Hfind in E as [Hc <-].
    specialize (Cr c Hc). simpl in Cr. apply bt_get_iff in Hin; [|done]. by rewrite Hin in Cr.
Qed.

Lemma equal_enum variants n i args n' i' args' lv rv : wf_type (TEnum variants) = true →
  forallb wf_value args = true → forallb wf_value args' = true →
  find_variant_id variants i = Some lv → find_variant_id variants i' = Some rv → n = var_name lv → n' = var_name rv →
  all2 conf (var_args lv) args = true → all2 conf (var_args rv) args' = true →
  cmp_eq (VEnum n args i) (VEnum n' args' i') = true → VEnum n args i = VEnum n' args' i'.
Proof.
  intros Ht Wl Wr (Hl & <- & _)%find_variant_id_Some (Hr & <- & _)%find_variant_id_Some -> -> Cl Cr Hc. cbn [cmp_eq] in Hc.
  apply andb_true_iff in Hc as [Hid Hc]. destruct (wf_type_variant _ _ Ht Hl) as (Hl0 & _ & _ & _ & Ha).
  destruct (wf_type_variant _ _ Ht Hr) as (Hr0 & _). destruct (Z.eqb_spec (var_id lv) 0), (Z.eqb_spec (var_id rv) 0); try done.
  simpl in Hid. apply Z.eqb_eq in Hid. assert (lv = rv) as <-.
  { by apply (NoDup_fmap_key var_id variants); [apply wf_type_nodup_variants|..]. }
  f_equal. by apply (equal_items (var_args lv)).
Qed.
End equal.

Lemma cmp_eq_conforms fuel cat ty v w : wf_catalog cat = true → wf_type ty = true → wf_value v = true → wf_value w = true →
  conforms fuel cat ty v = true → conforms fuel cat ty w = true → cmp_eq v w = true → v = w.
Proof.
  intros Hcat. revert ty v w. induction fuel as [|fuel IH]; intros ty v w Ht Hv Hw Cv Cw Hc; [done|]. cbn [conforms] in Cv, Cw.
  destruct ty; destruct v as [| | | | | | | | | | |n args i| | | | |[v|]|]; try discriminate Cv;
    destruct w as [| | | | | | | | | | |n' args' i'| | | | |[w|]|]; try discriminate Cw; try discriminate Hc; try done;
    try (cbn [cmp_eq] in Hc; bool_inv; by subst).
  - cbn [cmp_eq wf_value] in *. bool_inv. f_equal. apply float_canonical_eq; try done. apply Z.compare_eq. rewrite ordered_bits_compare by done.
    unfold f64_eq, f64_partial_cmp in Hc. case_if_in Hc; [done|]. by destruct (scaled bits ?= scaled bits0).
  - by destruct b, b0.
  - cbn [cmp_eq] in Hc. unfold decimal_eqb in Hc. bool_inv. destruct d, d0; simpl in *; congruence.
  - destruct (find_variant_id variants i) as [lv|] eqn:El; [|done]. destruct (find_variant_id variants i') as [rv|] eqn:Er; [|done].
    cbn [wf_value] in Hv, Hw. bool_inv. by eapply (equal_enum (conforms fuel cat) IH variants _ _ _ _ _ _ lv rv).
  - cbn [cmp_eq] in Hc. bool_inv. f_equal. by apply (equal_record (conforms fuel cat) IH columns).
  - f_equal. apply (equal_items (conforms fuel cat) IH items); try done. by apply forallb_Forall.
  - do 2 f_equal. by apply (IH ty).
  - f_equal. by apply (equal_list (conforms fuel cat) IH ty).
  - cbn [cmp_eq wf_value] in *. bool_inv. f_equal. apply (equal_entries (conforms fuel cat) IH (λ _, Some ty)); try done; [by intros ? ? [= <-]|..].
    + intros k x Hin. exists ty. split; [done|]. match goal with Hf : forallb (λ kv, (str_len _ <=? _) && _) entries = true |- _ =>
        rewrite forallb_Forall, list.Forall_forall in Hf; specialize (Hf _ Hin); simpl in Hf end. by bool_inv.
    + intros k x t Hin [= <-]. match goal with Hf : forallb (λ kv, (str_len _ <=? _) && _) entries0 = true |- _ =>
        rewrite forallb_Forall, list.Forall_forall in Hf; specialize (Hf _ Hin); simpl in Hf end. by bool_inv.
  - cbn [cmp_eq wf_value] in *. bool_inv. subst. destruct (definition cat id) as [d|] eqn:Ed; [|done]. f_equal.
    destruct (definition_wf _ _ _ Hcat Ed) as (? & _). by apply (IH (def_ty d)).
Qed.

Lemma cmp_eq_typed cat ty v w : wf_catalog cat = true → wf_type ty = true → has_type cat ty v → has_type cat ty w → cmp_eq v w = true → v = w.
Proof.
  intros Hcat Ht [[f Hf] Hv] [[g Hg] Hw]. apply (cmp_eq_conforms (f + g) cat ty); try done; (eapply conforms_le; [|done]; lia).
Qed.

Lemma bind_pure {A B} (a : A) (f : A → result B) : (x ← Ok a; f x) = f a.
Proof. done. Qed.

Lemma ordered_sym cat ty v w c : has_type cat ty v → has_type cat ty w → ordered cat ty v w c → ordered cat ty w v (CompOpp c).
Proof.
  intros [[f Hf] Hv] [[g Hg] Hw] (n & Hn & Hc). exists (n + f + g)%nat. split; [lia|].
  destruct (cmp_typed_inner_fuel n (n + f + g) cat ty v w ltac:(lia)) as [E|E]; [congruence|]. rewrite Hc in E.
  destruct (encode_value_total (n + f + g) cat ty v) as [a Ha]; [eapply conforms_le; [|done]; lia|].
  destruct (encode_value_total (n + f + g) cat ty w) as [b Hb]; [eapply conforms_le; [|done]; lia|].
  destruct (encode_value_order _ _ _ _ _ _ _ _ Hv Hw Ha Hb) as (c1 & Hc1 & Hk1).
  destruct (encode_value_order _ _ _ _ _ _ _ _ Hw Hv Hb Ha) as (c2 & Hc2 & Hk2). rewrite Hc2. f_equal. rewrite E in Hc1. injection Hc1 as <-.
  by rewrite <-(code_cmp_bytes _ _ _ Hk2), bytes_cmp_antisym, (code_cmp_bytes _ _ _ Hk1).
Qed.

(** ** What a constraint says *)

(** The field of the row is on the side of the value that the operator asks for. *)
Definition holds (cat : Catalog) (scope : Columns) (fields : Fields) (c : IndexConstraint) : Prop :=
  ∃ ty v, field_type cat scope (cn_column c) = Ok ty ∧ row_field fields (cn_column c) = Some v ∧ has_type cat ty v ∧ has_type cat ty (cn_value c) ∧
    match cn_op c with
    | CmpEq => v = cn_value c
    | CmpNe => v ≠ cn_value c
    | CmpGt => ordered cat ty v (cn_value c) Gt
    | CmpLt => ordered cat ty v (cn_value c) Lt
    | CmpGte => ordered cat ty v (cn_value c) Gt ∨ ordered cat ty v (cn_value c) Eq
    | CmpLte => ordered cat ty v (cn_value c) Lt ∨ ordered cat ty v (cn_value c) Eq
    end.

(** An atom whose path is its column's, and whose value has the column's type. *)
Definition atom_ok (cat : Catalog) (scope : Columns) (a : IndexPredicateAtom) : Prop :=
  field_path_ids cat scope (atom_column a) = Ok (atom_path a) ∧
  match a with AEqual column _ ty v => field_type cat scope column = Ok ty ∧ has_type cat ty v | _ => True end.

(** A comparison whose operands carry no type ascription, or an equality. *)
Definition direct (e : BoolExpression) : Prop :=
  match e with
  | BCompare l op r _ => op = CmpEq ∨ (strip_ascription l = l ∧ strip_ascription r = r)
  | _ => True
  end.

(** ** Parsed filters *)

(** Literals are Rust values and ascribed types are good. *)
Fixpoint operand_ok (names : Z → string) (e : ScalarExpression) : Prop :=
  match e with
  | SLiteral v => wf_value v = true
  | SAscribed e ty => operand_ok names e ∧ good_type names ty
  | SNegate e _ => operand_ok names e
  | _ => True
  end.

Fixpoint filter_ok (names : Z → string) (e : BoolExpression) : Prop :=
  match e with
  | BCompare l _ r _ => operand_ok names l ∧ operand_ok names r
  | BAnd l r => filter_ok names l ∧ filter_ok names r
  | _ => True
  end.

(** ** Operands *)

Section operands.
Context (names : Z → string) (cat : Catalog) (Hcat : good_catalog names cat).
Notation good := (good_type names).
Context `{TextLib} (scope : Columns) (kind : string) (fields : Fields).
Hypotheses (Hscope : good (TRecord scope)) (Hrow : typed_row cat scope fields).
Notation bind := (bind_scalar cat scope kind).
Notation eval e := (evaluate_scalar cat e (row_field fields)).

Lemma column_good path ty : field_type cat scope path = Ok ty → good ty.
Proof.
  intros Hty. apply field_type_cases in Hty as [(c & Hc & <-)|(_ & first & rest & c & _ & _ & _ & Hc & Hty)]; apply find_column_Some in Hc as [Hc _].
  - by eapply good_column.
  - eapply field_type_loop_good; [done| |done]. by eapply good_column.
Qed.

Lemma column_value path ty : field_type cat scope path = Ok ty → ∃ v, row_field fields path = Some v ∧ has_type cat ty v.
Proof. apply (row_typed_env names cat Hcat _ _ Hscope Hrow). Qed.

(** Two types with the same canonical values. *)
Definition same_values (a b : ScalarType) : Prop := ∀ v, has_type cat a v ↔ has_type cat b v.

Lemma same_type_values a b : good a → good b → same_type a b = true → same_values a b.
Proof. intros Ha Hb Hs v. split; apply (same_type_has_type names); try done. by apply same_type_sym. Qed.

Lemma check_expected_type t e ty e' ty' : check_expected (Some t) e ty = Ok (e', ty') → e' = e ∧ ty' = ty ∧ same_type ty t = true.
Proof. unfold check_expected. destruct (same_type ty t) eqn:E; [|done]. by intros [= <- <-]. Qed.

Lemma coerce_same t v w : good t → has_type cat t v → coerce cat v t = Ok w → w = v.
Proof. intros Hg Hv Hc. pose proof (coerce_has_type names cat Hcat t v Hg Hv) as Hs. by rewrite Hc in Hs. Qed.

Lemma evalue_Ok {A B} (m : Expression.eval (option A)) (none : B) (k : A → Expression.eval B) b r :
  evalue m none k b = Ok r → ∃ o b', m b = Ok (o, b') ∧ match o with Some a => k a b' = Ok r | None => r = (none, b') end.
Proof. unfold evalue, ebind. intros ([o b'] & Hm & Hk)%bind_Ok. exists o, b'. split; [done|]. destruct o; [done|]. by injection Hk as <-. Qed.

Lemma ascribed_Ok e t b x b' : eval (SAscribed e t) b = Ok (Some x, b') → ∃ y, eval e b = Ok (Some y, b') ∧ coerce cat y t = Ok x.
Proof.
  cbn [evaluate_scalar]. intros (o & b1 & He & Hk)%evalue_Ok. destruct o as [y|]; [|done]. unfold elift, eret in Hk.
  apply bind_Ok in Hk as (z & Hz & [= <- <-]). by exists y.
Qed.

Lemma stripped e u t : strip_ascription e = SAscribed u t → False.
Proof. by induction e. Qed.

(** The side of a comparison that is a column, possibly under ascriptions. *)
Lemma reference_static e t e' ty column : operand_ok names e → bind e (Some t) = Ok (e', ty) → strip_ascription e' = SReference column →
  ∃ cty, field_type cat scope column = Ok cty ∧ good ty ∧ same_type ty t = true ∧ same_values cty ty ∧ (strip_ascription e' = e' → ty = cty) ∧
    is_constant e = false ∧ infer_scalar cat scope kind e = Ok (Some ty).
Proof.
  revert t e' ty. induction e as [path|n0 t0|v0|e IH a|n0 l0|e0 ?|e0 ? t0|l0 ? o0 r0 ? t0]; intros t e' ty Hok Hb Hs;
    pose proof (bind_scalar_head _ _ _ _ _ _ _ Hb) as Hh; destruct e'; try discriminate Hh; try discriminate Hs.
  - apply String.eqb_eq in Hh as <-. injection Hs as ->. cbn [bind_scalar] in Hb. apply bind_Ok in Hb as (rt & Hrt & Hb).
    apply check_expected_type in Hb as (_ & -> & Hst). pose proof Hrt as Hft%reference_type_Ok. exists rt. split_and!; try done; [by eapply column_good|].
    cbn [infer_scalar]. by rewrite Hrt.
  - destruct Hok as [Hok Ha]. cbn [bind_scalar] in Hb. apply bind_Ok in Hb as ([v tv] & Hv & Hb). apply check_expected_type in Hb as ([= -> ->] & -> & Hst).
    cbn [strip_ascription] in Hs. destruct (IH a v tv Hok Hv Hs) as (cty & Hc & Hgv & Hsa & Hsv & _ & Hk & _).
    exists cty. split_and!; try done; [|intros E; by apply stripped in E]. intros w. by rewrite (Hsv w), (same_type_values tv a Hgv Ha Hsa w).
Qed.

Lemma reference_eval e t e' ty column b x b' : operand_ok names e → bind e (Some t) = Ok (e', ty) → strip_ascription e' = SReference column →
  eval e' b = Ok (Some x, b') → row_field fields column = Some x.
Proof.
  revert t e' ty b x b'. induction e as [path|n0 t0|v0|e IH a|n0 l0|e0 ?|e0 ? t0|l0 ? o0 r0 ? t0]; intros t e' ty b x b' Hok Hb Hs He;
    pose proof (bind_scalar_head _ _ _ _ _ _ _ Hb) as Hh; destruct e'; try discriminate Hh; try discriminate Hs.
  - injection Hs as ->. cbn [evaluate_scalar] in He. unfold eret in He. by injection He.
  - destruct Hok as [Hok Ha]. cbn [bind_scalar] in Hb. apply bind_Ok in Hb as ([v tv] & Hv & Hb). apply check_expected_type in Hb as ([= -> ->] & -> & Hst).
    cbn [strip_ascription] in Hs. apply ascribed_Ok in He as (y & Hy & Hx). pose proof (IH a v tv _ _ _ Hok Hv Hs Hy) as Hw.
    destruct (reference_static _ _ _ _ _ Hok Hv Hs) as (cty & Hc & Hgv & Hsa & Hsv & _). destruct (column_value column cty Hc) as (w & Hw' & Hwt).
    assert (y = w) as -> by congruence. assert (x = w) as ->; [|done]. apply (coerce_same a); [done| |done].
    by apply (same_type_values tv a Hgv Ha Hsa), Hsv.
Qed.

(** The side that is a literal. *)
Lemma literal_constant e t e' ty v : bind e (Some t) = Ok (e', ty) → strip_ascription e' = SLiteral v → is_constant e = true.
Proof.
  revert t e' ty. induction e as [path|n0 t0|v0|e IH a|n0 l0|e0 ?|e0 ? t0|l0 ? o0 r0 ? t0]; intros t e' ty Hb Hs;
    pose proof (bind_scalar_head _ _ _ _ _ _ _ Hb) as Hh; destruct e'; try discriminate Hh; try discriminate Hs; [done|].
  cbn [bind_scalar] in Hb. apply bind_Ok in Hb as ([w tv] & Hv & Hb). apply check_expected_type in Hb as ([= -> ->] & _ & _).
  exact (IH _ _ _ Hv Hs).
Qed.

Lemma literal_side e t e' ty v : operand_ok names e → good t → bind e (Some t) = Ok (e', ty) → strip_ascription e' = SLiteral v →
  good ty ∧ has_type cat ty v ∧ same_type ty t = true ∧ (strip_ascription e' = e' → ty = t) ∧
    ∀ b x b', eval e' b = Ok (Some x, b') → x = v.
Proof.
  revert t e' ty. induction e as [path|n0 t0|v0|e IH a|n0 l0|e0 ?|e0 ? t0|l0 ? o0 r0 ? t0]; intros t e' ty Hok Ht Hb Hs;
    pose proof (bind_scalar_head _ _ _ _ _ _ _ Hb) as Hh; destruct e'; try discriminate Hh; try discriminate Hs.
  - injection Hs as ->. cbn [bind_scalar] in Hb. apply bind_Ok in Hb as (w & Hw & Hb). apply check_expected_type in Hb as ([= ->] & -> & Hst).
    split_and!; try done.
    + exact (coerce_result names cat Hcat _ _ _ Ht Hok Hw).
    + intros b x b'. cbn [evaluate_scalar]. unfold eret. by intros [= -> _].
  - destruct Hok as [Hok Ha]. cbn [bind_scalar] in Hb. apply bind_Ok in Hb as ([w tv] & Hv & Hb).
    apply check_expected_type in Hb as ([= -> ->] & -> & Hst'). cbn [strip_ascription] in Hs.
    destruct (IH a w tv Hok Ha Hv Hs) as (Hgv & Hvt & Hst & _ & Hev).
    assert (Hva : has_type cat a v) by (by apply (same_type_values tv a Hgv Ha Hst)). split_and!; try done.
    + intros E. by apply stripped in E.
    + intros b x b' (y & Hy & Hx)%ascribed_Ok. specialize (Hev _ _ _ Hy) as ->. by apply (coerce_same a).
Qed.

(** A literal, or the negation of one. *)
Lemma is_literal_typed e t e' ty : operand_ok names e → good t → bind e (Some t) = Ok (e', ty) → is_literal e' = true →
  good ty ∧ same_type ty t = true ∧ ∀ values b x b', evaluate_scalar cat e' values b = Ok (Some x, b') → has_type cat ty x.
Proof.
  revert t e' ty. induction e as [path|n0 t0|v0|e IH a|n0 l0|e0 ?|e0 IH t0|l0 ? o0 r0 ? t0]; intros t e' ty Hok Ht Hb Hl;
    pose proof (bind_scalar_head _ _ _ _ _ _ _ Hb) as Hh; destruct e'; try discriminate Hh; try discriminate Hl.
  - cbn [bind_scalar] in Hb. apply bind_Ok in Hb as (w & Hw & Hb). apply check_expected_type in Hb as ([= ->] & -> & Hst).
    split_and!; try done. intros values b x b'. cbn [evaluate_scalar]. unfold eret. intros [= -> _]. exact (coerce_result names cat Hcat _ _ _ Ht Hok Hw).
  - cbn [bind_scalar] in Hb. apply bind_Ok in Hb as (o & Ho & Hb). cbn [expected_or ok_or] in Hb. apply (bind_Ok (Ok t)) in Hb as (t1 & [= <-] & Hb).
    apply bind_Ok in Hb as (un & Hn & Hb). apply bind_Ok in Hb as ([v tv] & Hv & Hb). apply check_expected_type in Hb as ([= -> ->] & -> & Hst).
    destruct (IH t v tv Hok Ht Hv Hl) as (Hgv & Hst' & Hev). split_and!; try done. intros values b x b'. cbn [evaluate_scalar].
    intros (o' & b1 & He & Hk)%evalue_Ok. destruct o' as [y|]; [|done]. unfold elift, eret in Hk. apply bind_Ok in Hk as (raw & Hraw & Hk).
    apply bind_Ok in Hk as (z & Hz & [= -> <-]). unfold require_negatable in Hn. apply require_underlying_Ok in Hn as (u & Hu & Hn).
    assert (Hy : has_type cat u (unwrapped y)).
    { apply (underlying_has_type cat t); [done|]. apply (same_type_values tv t Hgv Ht Hst'). by eapply Hev. }
    pose proof (negate_value_safe cat u y Hn Hy) as Hsafe. rewrite Hraw in Hsafe.
    pose proof (coerce_arithmetic_result_safe names cat Hcat t u raw (proj1 Ht) Hu Hsafe) as Hs. by rewrite Hz in Hs.
Qed.
(** ** Comparisons *)

Lemma compare_bound l op r t e' : bind_in_scope cat scope (BCompare l op r t) kind = Ok e' →
  ∃ l' r' lt rt il ir expected, e' = BCompare l' op r' (Some lt) ∧ infer_scalar cat scope kind l = Ok il ∧ infer_scalar cat scope kind r = Ok ir ∧
    (if is_constant l then expected_or ir il else expected_or il ir) = Some expected ∧
    bind l (Some expected) = Ok (l', lt) ∧ bind r (Some expected) = Ok (r', rt) ∧ same_type lt rt = true.
Proof.
  cbn [bind_in_scope]. intros (il & Hil & Hb)%bind_Ok. apply bind_Ok in Hb as (ir & Hir & Hb). apply bind_Ok in Hb as (ex & Hex%ok_or_Ok & Hb).
  apply bind_Ok in Hb as ([l' lt] & Hl & Hb). apply bind_Ok in Hb as ([r' rt] & Hr & Hb). destruct (same_type lt rt) eqn:Es; [|done].
  cbn [negb] in Hb. apply bind_Ok in Hb as (o & _ & Hb). case_if_in Hb; [done|]. injection Hb as <-. exists l', r', lt, rt, il, ir, ex. done.
Qed.

Lemma compare_true l op r t b b' : evaluate_resolved cat (BCompare l op r t) (row_field fields) b = Ok (true, b') →
  ∃ x y b1, eval l b = Ok (Some x, b1) ∧ eval r b1 = Ok (Some y, b') ∧ compare cat x op y t = Ok true.
Proof.
  cbn [evaluate_resolved]. intros (o & b1 & Hl & Hk)%evalue_Ok. destruct o as [x|]; [|done]. apply evalue_Ok in Hk as (o & b2 & Hr & Hk).
  destruct o as [y|]; [|done]. unfold elift, eret in Hk. apply bind_Ok in Hk as (z & Hz & [= -> ->]). by exists x, y, b1.
Qed.

Lemma compare_ordered x op y ty : op ≠ CmpEq → op ≠ CmpNe → compare cat x op y (Some ty) = Ok true →
  ∃ c, ordered cat ty x y c ∧ match op with CmpGt => c = Gt | CmpLt => c = Lt | CmpGte => c = Gt ∨ c = Eq | CmpLte => c = Lt ∨ c = Eq | _ => False end.
Proof.
  intros He Hn Hc. unfold compare in Hc. change (ok_or (Some ty) "E_TYPE") with (Ok ty) in Hc.
  destruct op; try done; rewrite bind_pure in Hc; apply bind_Ok in Hc as (c & Hc & Hk);
    exists c; (split; [by apply ordered_typed|]); destruct c; try discriminate Hk; auto.
Qed.

(** The value that planning takes from a comparison has the column's type. *)
Lemma compare_typed e e' column op v : filter_ok names e → bind_in_scope cat scope e kind = Ok e' →
  simple_index_comparison e' = Some (column, op, v) → ∃ ty, field_type cat scope column = Ok ty ∧ has_type cat ty v.
Proof.
  intros Hok Hb Hs. destruct e as [|l cop r t| | | | | | | | |]; try (cbn [bind_in_scope] in Hb; bind_inv Hb; discriminate Hs).
  destruct Hok as [Hokl Hokr]. apply compare_bound in Hb as (l' & r' & lt & rt & il & ir & ex & -> & Hil & Hir & Hex & Hl & Hr & Hst).
  cbn [simple_index_comparison] in Hs.
  destruct (strip_ascription l') as [lp| |lv| | | | |] eqn:El; try discriminate Hs; destruct (strip_ascription r') as [rp| |rv| | | | |] eqn:Er; try discriminate Hs.
  - destruct (reference_static _ _ _ _ _ Hokl Hl El) as (cty & Hcty & Hgl & _ & Hsv & _ & Hk & Hinf). rewrite Hk in Hex. rewrite Hil in Hinf.
    injection Hinf as ->. injection Hex as <-. destruct (literal_side _ _ _ _ _ Hokr Hgl Hr Er) as (Hgr & Hvr & _).
    assert (column = lp ∧ v = rv) as [-> ->] by (destruct cop; first [discriminate Hs|by injection Hs as <- <- <-]). exists cty. split; [done|]. by apply Hsv, (same_type_values lt rt).
  - pose proof (literal_constant _ _ _ _ _ Hl El) as Hk. rewrite Hk in Hex.
    destruct (reference_static _ _ _ _ _ Hokr Hr Er) as (cty & Hcty & Hgr & _ & Hsv & _ & _ & Hinf). rewrite Hir in Hinf.
    injection Hinf as ->. injection Hex as <-. destruct (literal_side _ _ _ _ _ Hokl Hgr Hl El) as (Hgl & Hvl & _).
    assert (column = rp ∧ v = lv) as [-> ->] by (destruct cop; first [discriminate Hs|by injection Hs as <- <- <-]). exists cty. split; [done|]. by apply Hsv, (same_type_values lt rt).
Qed.

(** A comparison that holds is the constraint that planning takes from it. *)
Lemma compare_holds e e' column op v b b' : filter_ok names e → bind_in_scope cat scope e kind = Ok e' → direct e' →
  simple_index_comparison e' = Some (column, op, v) → evaluate cat e' (row_field fields) b = Ok (true, b') →
  holds cat scope fields (mkIndexConstraint column op v).
Proof.
  intros Hok Hb Hd Hs He. destruct e as [|l cop r t| | | | | | | | |]; try (cbn [bind_in_scope] in Hb; bind_inv Hb; discriminate Hs).
  destruct Hok as [Hokl Hokr]. apply compare_bound in Hb as (l' & r' & lt & rt & il & ir & ex & -> & Hil & Hir & Hex & Hl & Hr & Hst).
  apply compare_true in He as (x & y & b1 & Hx & Hy & Hc). cbn [simple_index_comparison] in Hs. cbn [direct] in Hd.
  destruct (strip_ascription l') as [lp| |lv| | | | |] eqn:El; try discriminate Hs; destruct (strip_ascription r') as [rp| |rv| | | | |] eqn:Er; try discriminate Hs.
  - destruct (reference_static _ _ _ _ _ Hokl Hl El) as (cty & Hcty & Hgl & _ & Hsv & Hdir & Hk & Hinf). rewrite Hk in Hex. rewrite Hil in Hinf.
    injection Hinf as ->. injection Hex as <-. destruct (literal_side _ _ _ _ _ Hokr Hgl Hr Er) as (Hgr & Hvr & _ & _ & Hlv).
    pose proof (reference_eval _ _ _ _ _ _ _ _ Hokl Hl El Hx) as Hev. pose proof (Hlv _ _ _ Hy) as ->. assert (Hvc : has_type cat cty rv) by (by apply Hsv, (same_type_values lt rt)).
    destruct (column_value lp cty Hcty) as (w & Hw & Hwt). assert (x = w) as -> by congruence.
    assert (Hsame : cop = CmpEq ∨ lt = cty) by (destruct Hd as [?|[Hd _]]; [by left|right; apply Hdir; congruence]).
    assert (Heq : column = lp ∧ op = cop ∧ v = rv ∧ cop ≠ CmpNe) by (destruct cop; first [discriminate Hs|by injection Hs as <- <- <-]). destruct Heq as (-> & -> & -> & Hne).
    exists cty, w. split_and!; try done. cbn [cn_op cn_value]. destruct (decide (cop = CmpEq)) as [->|Hneq].
    + apply (cmp_eq_typed cat cty); [apply Hcat|by apply (column_good lp)|done|done|]. cbn [compare] in Hc. by injection Hc.
    + destruct Hsame as [?| ->]; [done|]. destruct (compare_ordered _ _ _ _ Hneq Hne Hc) as (c & Ho & Hcc).
      destruct cop; try done; try (by subst c); by destruct Hcc as [-> | ->]; auto.
  - pose proof (literal_constant _ _ _ _ _ Hl El) as Hk. rewrite Hk in Hex.
    destruct (reference_static _ _ _ _ _ Hokr Hr Er) as (cty & Hcty & Hgr & _ & Hsv & Hdir & _ & Hinf). rewrite Hir in Hinf.
    injection Hinf as ->. injection Hex as <-. destruct (literal_side _ _ _ _ _ Hokl Hgr Hl El) as (Hgl & Hvl & _ & Hlt & Hlv).
    pose proof (reference_eval _ _ _ _ _ _ _ _ Hokr Hr Er Hy) as Hev. pose proof (Hlv _ _ _ Hx) as ->. assert (Hvc : has_type cat cty lv) by (by apply Hsv, (same_type_values lt rt)).
    destruct (column_value rp cty Hcty) as (w & Hw & Hwt). assert (y = w) as -> by congruence.
    assert (Hsame : cop = CmpEq ∨ lt = cty) by (destruct Hd as [?|[Hd Hd']]; [by left|right; rewrite (Hlt ltac:(congruence)); apply Hdir; congruence]).
    assert (Heq : column = rp ∧ v = lv ∧ cop ≠ CmpNe) by (destruct cop; first [discriminate Hs|by injection Hs as <- <- <-]).
    destruct Heq as (-> & -> & Hne). exists cty, w. split_and!; try done. cbn [cn_op cn_value]. destruct (decide (cop = CmpEq)) as [->|Hneq].
    + injection Hs as <-. symmetry. apply (cmp_eq_typed cat cty); [apply Hcat|by apply (column_good rp)|done|done|]. cbn [compare] in Hc. by injection Hc.
    + destruct Hsame as [?| ->]; [done|]. destruct (compare_ordered _ _ _ _ Hneq Hne Hc) as (c & Ho & Hcc).
      apply ordered_sym in Ho; [|done..]. destruct cop; try done; injection Hs as <-; try (by subst c); by destruct Hcc as [-> | ->]; auto.
Qed.
(** ** Atoms *)

Lemma is_literal_eval e values values' b x b1 b2 : is_literal e = true → evaluate_scalar cat e values b = Ok (Some x, b1) →
  evaluate_scalar cat e values' b2 = Ok (Some x, b2).
Proof.
  revert b x b1. induction e as [path|n0 t0|v0|e IH a|n0 l0|e0 ?|e IH t|l0 ? o0 r0 ? t0]; intros b x b1 Hl He; try discriminate Hl.
  - cbn [evaluate_scalar] in *. unfold eret in *. by injection He as ->.
  - cbn [evaluate_scalar] in *. apply evalue_Ok in He as (o & b3 & He & Hk). destruct o as [y|]; [|done]. unfold evalue, ebind, elift, eret in *.
    rewrite (IH _ _ _ Hl He). cbn [mbind result_bind]. apply bind_Ok in Hk as (raw & -> & Hk). cbn [mbind result_bind].
    apply bind_Ok in Hk as (z & -> & [= -> _]). done.
Qed.

(** The value that an equality of a column with a literal compares with. *)
Lemma equality_value l r t e' column r' vt value : operand_ok names l → operand_ok names r →
  bind_in_scope cat scope (BCompare l CmpEq r t) kind = Ok e' → e' = BCompare (SReference column) CmpEq r' (Some vt) → is_literal r' = true →
  evaluate_value cat r' (λ _, None) = Ok value → field_type cat scope column = Ok vt ∧ good vt ∧ has_type cat vt value.
Proof.
  intros Hokl Hokr Hb He Hlit Hv. apply compare_bound in Hb as (l' & r0 & lt & rt & il & ir & ex & -> & Hil & Hir & Hex & Hl & Hr & Hst).
  injection He as -> -> ->. destruct (reference_static _ _ _ _ _ Hokl Hl eq_refl) as (cty & Hcty & Hgl & _ & Hsv & Hdir & Hk & Hinf).
  specialize (Hdir eq_refl) as ->. rewrite Hk in Hex. rewrite Hil in Hinf. injection Hinf as ->. injection Hex as <-.
  destruct (is_literal_typed _ _ _ _ Hokr Hgl Hr Hlit) as (Hgr & Hs & Hty). split_and!; [done..|].
  unfold evaluate_value in Hv. apply fmap_Ok in Hv as ([x b] & Hv & ->). unfold evaluate_scalar_value, ebind in Hv.
  apply bind_Ok in Hv as ([o b1] & Ho & Hv). unfold elift, eret in Hv. apply bind_Ok in Hv as (y & ->%ok_or_Ok & [= <- <-]).
  apply (same_type_values cty rt Hgl Hgr Hst). by eapply Hty.
Qed.

(** What binding an index predicate gives. *)
Lemma collect_atoms_ok e e' acc atoms : filter_ok names e → bind_in_scope cat scope e kind = Ok e' → collect_atoms cat scope e' acc = Ok atoms →
  Forall (atom_ok cat scope) acc → Forall (atom_ok cat scope) atoms.
Proof.
  revert e' acc atoms. induction e as [|l cop r t| | | | |v|v| |l IHl r IHr|]; intros e' acc atoms Hok Hb Hc Hacc;
    try (cbn [bind_in_scope] in Hb; bind_inv Hb; discriminate Hc).
  - destruct Hok as [Hokl Hokr]. pose proof Hb as Hb'. apply compare_bound in Hb' as (l' & r' & lt & rt & il & ir & ex & -> & _).
    cbn [collect_atoms] in Hc. destruct l' as [column| | | | | | |]; try discriminate Hc. destruct cop; try discriminate Hc. destruct (is_literal r') eqn:El; [|done].
    apply bind_Ok in Hc as (p & Hp & Hc). apply bind_Ok in Hc as (value & Hv & Hc).
    destruct (equality_value _ _ _ _ _ _ _ _ Hokl Hokr Hb eq_refl El Hv) as (Hft & Hg & Hty).
    assert (Heq : ∀ v, coerce cat value lt = Ok v → atom_ok cat scope (AEqual column p lt v)).
    { intros v Hcv. apply (coerce_same lt) in Hcv as ->; [by split|done..]. }
    destruct value as [| | | | | | | | | | | | | | | |[]|]; lazymatch type of Hc with Ok _ = _ => idtac | _ => apply bind_Ok in Hc as (cv & Hcv & Hc) end; apply Ok_inj in Hc as <-;
      apply Forall_app; (split; [done|]); (constructor; [|constructor]); try (by apply Heq); by split.
  - cbn [bind_in_scope] in Hb. bind_inv Hb. cbn [collect_atoms] in Hc. destruct s; try discriminate Hc. apply bind_Ok in Hc as (p & Hp & [= <-]).
    apply Forall_app. split; [done|]. constructor; [by split|constructor].
  - cbn [bind_in_scope] in Hb. bind_inv Hb. cbn [collect_atoms] in Hc. destruct s; try discriminate Hc. apply bind_Ok in Hc as (p & Hp & [= <-]).
    apply Forall_app. split; [done|]. constructor; [by split|constructor].
  - destruct Hok as [Hokl Hokr]. cbn [bind_in_scope] in Hb. apply bind_Ok in Hb as (l' & Hl & Hb). apply bind_Ok in Hb as (r' & Hr & [= <-]).
    cbn [collect_atoms] in Hc. apply bind_Ok in Hc as (acc1 & H1' & H2'). eauto.
Qed.
(** The atoms that a filter guarantees hold of a row that it accepts. *)
Lemma collect_query_atoms_hold e e' acc atoms b b' : filter_ok names e → bind_in_scope cat scope e kind = Ok e' →
  collect_query_atoms cat scope e' acc = Ok atoms → evaluate cat e' (row_field fields) b = Ok (true, b') →
  Forall (λ a, atom_ok cat scope a ∧ atom_matches fields a = true) acc → Forall (λ a, atom_ok cat scope a ∧ atom_matches fields a = true) atoms.
Proof.
  revert e' acc atoms b b'. induction e as [|l cop r t| | | | |v|v| |l IHl r IHr|]; intros e' acc atoms b b' Hok Hb Hc He Hacc;
    try (cbn [bind_in_scope] in Hb; bind_inv Hb; by injection Hc as <-).
  - destruct Hok as [Hokl Hokr]. pose proof Hb as Hb'. apply compare_bound in Hb' as (l' & r' & lt & rt & il & ir & ex & -> & _).
    cbn [collect_query_atoms] in Hc. destruct l' as [column| | | | | | |]; try (by injection Hc as <-). destruct cop; try (by injection Hc as <-).
    destruct (is_literal r') eqn:El; [|by injection Hc as <-]. apply bind_Ok in Hc as (p & Hp & Hc). apply bind_Ok in Hc as (value & Hv & Hc).
    destruct (equality_value _ _ _ _ _ _ _ _ Hokl Hokr Hb eq_refl El Hv) as (Hft & Hg & Hty).
    apply compare_true in He as (x & y & b1 & Hx & Hy & Heq). cbn [evaluate_scalar] in Hx. unfold eret in Hx. injection Hx as Hx _.
    assert (y = value) as ->.
    { unfold evaluate_value in Hv. apply fmap_Ok in Hv as ([z bz] & Hv & ->). unfold evaluate_scalar_value, ebind in Hv.
      apply bind_Ok in Hv as ([o bo] & Ho & Hv). unfold elift, eret in Hv. apply bind_Ok in Hv as (z' & ->%ok_or_Ok & [= <- <-]).
      pose proof (is_literal_eval _ _ (row_field fields) _ _ _ b1 El Ho) as Hz. simpl. congruence. }
    cbn [compare] in Heq. injection Heq as Heq. destruct (column_value column lt Hft) as (w & Hw & Hwt). assert (x = w) as -> by congruence.
    assert (w = value) as -> by (apply (cmp_eq_typed cat lt); [apply Hcat|apply Hg|done..]).
    assert (Hadd : ∀ l, Forall (λ a, atom_ok cat scope a ∧ atom_matches fields a = true) l →
      Forall (λ a, atom_ok cat scope a ∧ atom_matches fields a = true) (acc ++ l)) by (intros l0 Hl0; by apply Forall_app).
    assert (Hnone : unwrapped value = VOption None → atom_matches fields (AIsNone column p) = true)
      by (intros E; unfold atom_matches; cbn [atom_column]; by rewrite Hw, E).
    assert (Hsome : ∀ o, unwrapped value = VOption (Some o) → atom_matches fields (AIsSome column p) = true)
      by (intros o E; unfold atom_matches; cbn [atom_column]; by rewrite Hw, E).
    assert (Hequal : ∀ cv, coerce cat value lt = Ok cv → atom_ok cat scope (AEqual column p lt cv) ∧ atom_matches fields (AEqual column p lt cv) = true).
    { intros cv Hcv. apply (coerce_same lt) in Hcv as ->; [|done..]. split; [by split|]. unfold atom_matches. cbn [atom_column]. by rewrite Hw. }
    destruct (unwrapped value) as [| | | | | | | | | | | | | | | |[o|]|] eqn:Eu; cbv beta iota in Hc;
      lazymatch type of Hc with Ok _ = _ => idtac | _ => apply bind_Ok in Hc as (cv & Hcv & Hc) end; apply Ok_inj in Hc as <-;
      apply Hadd; repeat constructor; try (by apply Hequal); try done; eauto.
  - cbn [bind_in_scope] in Hb. bind_inv Hb. cbn [collect_query_atoms] in Hc. destruct s; try (by injection Hc as <-). apply bind_Ok in Hc as (p & Hp & [= <-]).
    apply Forall_app. split; [done|]. constructor; [|constructor]. split; [by split|]. unfold evaluate in He. cbn [evaluate_resolved evaluate_scalar] in He.
    apply evalue_Ok in He as (o & b1 & [= <- <-] & Hk). unfold atom_matches. cbn [atom_column]. destruct (row_field fields path) as [w|]; [|done].
    destruct (unwrapped w) as [| | | | | | | | | | | | | | | |[o|]|]; try discriminate Hk; done.
  - cbn [bind_in_scope] in Hb. bind_inv Hb. cbn [collect_query_atoms] in Hc. destruct s; try (by injection Hc as <-). apply bind_Ok in Hc as (p & Hp & [= <-]).
    apply Forall_app. split; [done|]. constructor; [|constructor]. split; [by split|]. unfold evaluate in He. cbn [evaluate_resolved evaluate_scalar] in He.
    apply evalue_Ok in He as (o & b1 & [= <- <-] & Hk). unfold atom_matches. cbn [atom_column]. destruct (row_field fields path) as [w|]; [|done].
    destruct (unwrapped w) as [| | | | | | | | | | | | | | | |[o|]|]; try discriminate Hk; done.
  - destruct Hok as [Hokl Hokr]. cbn [bind_in_scope] in Hb. apply bind_Ok in Hb as (l' & Hl & Hb). apply bind_Ok in Hb as (r' & Hr & [= <-]).
    cbn [collect_query_atoms] in Hc. apply bind_Ok in Hc as (acc1 & H1' & H2'). unfold evaluate in He. cbn [evaluate_resolved] in He. unfold ebind in He.
    apply bind_Ok in He as ([[] b1] & Hel & He); [|done]. eauto.
Qed.
End operands.

(** ** Field paths

    Within a well-formed record, a path of stable IDs determines the dotted path. *)

Lemma split_dots_inj p q : split_dots p = split_dots q → p = q.
Proof.
  revert q. induction p as [|c p IH]; intros q Hq.
  - destruct (split_dots_cases q EmptyString [] (eq_sym Hq)) as [[_ ->]|(rest & E & _)]; [done|].
    by destruct (split_dots_nonempty rest).
  - destruct q as [|c' q].
    { destruct (split_dots_cases (String c p) EmptyString [] Hq) as [[_ ?]|(rest & E & _)]; [done|]. by destruct (split_dots_nonempty rest). }
    cbn [split_dots] in Hq. destruct (split_dots p) as [|x xs] eqn:Ep; [by apply split_dots_nonempty in Ep|].
    destruct (split_dots q) as [|y ys] eqn:Eq; [by apply split_dots_nonempty in Eq|].
    destruct (Ascii.eqb_spec c "."%char) as [->|Hc], (Ascii.eqb_spec c' "."%char) as [->|Hc'].
    + f_equal. apply IH. rewrite Eq. by injection Hq as -> ->.
    + by injection Hq.
    + by injection Hq.
    + injection Hq as -> -> ->. f_equal. by apply IH.
Qed.

Lemma field_path_ids_cons cat columns x ps ids : field_path_ids_loop cat columns (x :: ps) = Ok ids →
  ∃ f, f ∈ columns ∧ col_name f = x ∧
    match ps with
    | [] => ids = [col_id f]
    | _ => ∃ nested rest, underlying cat (col_ty f) = Ok (TRecord nested) ∧ field_path_ids_loop cat nested ps = Ok rest ∧ ids = col_id f :: rest
    end.
Proof.
  cbn [field_path_ids_loop]. intros (f & Hf%ok_or_Ok & Hp)%bind_Ok. apply find_column_Some in Hf as [Hf Hn]. exists f. split_and!; [done..|].
  destruct ps as [|p ps]; [by injection Hp as <-|]. apply bind_Ok in Hp as (u & Hu & Hp). destruct u; try done.
  apply bind_Ok in Hp as (rest & Hr & [= <-]). eauto.
Qed.

Lemma field_path_ids_nil cat columns ps : field_path_ids_loop cat columns ps = Ok [] → ps = [].
Proof.
  destruct ps as [|x ps]; [done|]. intros (f & _ & _ & H)%field_path_ids_cons. destruct ps; [done|]. naive_solver.
Qed.

Lemma field_path_ids_inj cat columns p q ids : wf_catalog cat = true → wf_type (TRecord columns) = true →
  field_path_ids cat columns p = Ok ids → field_path_ids cat columns q = Ok ids → p = q.
Proof.
  intros Hcat Hw Hp Hq. apply split_dots_inj. unfold field_path_ids in *. revert columns ids Hw Hp Hq.
  generalize (split_dots p) (split_dots q). intros ps. induction ps as [|x ps IH]; intros qs columns ids Hw Hp Hq.
  { injection Hp as <-. symmetry. by eapply field_path_ids_nil. }
  destruct qs as [|y qs]. { injection Hq as <-. by eapply field_path_ids_nil. }
  apply field_path_ids_cons in Hp as (f & Hf & <- & Hp), Hq as (g & Hg & <- & Hq).
  assert (col_id f = col_id g). { destruct ps, qs; naive_solver. }
  assert (f = g) as <- by (eapply NoDup_fmap_key; [apply (wf_type_nodup_columns _ Hw)|done..]). f_equal.
  destruct ps as [|p' ps], qs as [|q' qs]; [done| | |].
  - destruct Hq as (n & [|] & _ & Hq & E); [|congruence]. symmetry. by eapply field_path_ids_nil.
  - destruct Hp as (n & [|] & _ & Hp & E); [|congruence]. by eapply field_path_ids_nil.
  - destruct Hp as (n & r & Hu & Hp & ->), Hq as (n' & r' & Hu' & Hq & [= <-]). rewrite Hu in Hu'. injection Hu' as <-.
    apply (IH _ n r); try done. destruct (wf_type_column _ _ Hw Hf) as (_ & _ & Hct & _). by eapply underlying_wf.
Qed.

(** ** Implication *)

Section implied.
Context (cat : Catalog) (scope : Columns).
Hypotheses (Hcat : wf_catalog cat = true) (Hscope : wf_type (TRecord scope) = true).

(** A partial index whose predicate the query's atoms imply has every row that the query accepts. *)
Lemma implied_matches p query fields : Forall (atom_ok cat scope) (atoms p) →
  Forall (λ a, atom_ok cat scope a ∧ atom_matches fields a = true) query →
  (∀ path ty v, field_type cat scope path = Ok ty → row_field fields path = Some v → wf_type ty = true ∧ has_type cat ty v) →
  implied_by p query = true → matches p fields = true.
Proof.
  intros Hp Hq Hty Hi. unfold implied_by in Hi. unfold matches. rewrite forallb_Forall, list.Forall_forall in Hi |- *.
  rewrite list.Forall_forall in Hp, Hq. intros a Ha. specialize (Hi a Ha). apply existsb_exists in Hi as (q & Hqin & He).
  apply list_elem_of_In in Hqin. destruct (Hp a Ha) as [Hpa Hva]. destruct (Hq q Hqin) as [[Hpq Hvq] Hm].
  unfold equivalent in He. apply andb_true_iff in He as [Hpath%bool_decide_eq_true He].
  assert (Hcol : atom_column a = atom_column q) by (eapply (field_path_ids_inj cat scope); [done..|exact Hpa|by rewrite Hpath]).
  unfold atom_matches in *. rewrite Hcol. destruct (row_field fields (atom_column q)) as [w|] eqn:Ew; [|done].
  destruct a as [ca pa ta va|ca pa|ca pa], q as [cq pq tq vq|cq pq|cq pq]; try done. cbn [atom_column] in *. subst cq.
  destruct Hva as [Hta Hva], Hvq as [Htq Hvq]. assert (tq = ta) as -> by congruence. destruct (Hty _ _ _ Hta Ew) as [Hwt Hw].
  assert (va = vq) as -> by (by apply (cmp_eq_typed cat ta)). done.
Qed.
End implied.

(** ** Binding an index predicate *)

Section bound.
Context `{TextLib} `{PredicateText}.

Lemma insert_atom_elem x l a : a ∈ insert_atom x l → a = x ∨ a ∈ l.
Proof.
  induction l as [|y l IH]; simpl; [set_solver|]. destruct (atom_cmp x y); set_solver.
Qed.

Lemma sort_atoms_elem l a : a ∈ sort_atoms l → a ∈ l.
Proof. unfold sort_atoms. induction l as [|x l IH]; simpl; [done|]. intros [->|?]%insert_atom_elem; set_solver. Qed.

Lemma dedup_after_elem k l a : a ∈ dedup_after k l → a ∈ l.
Proof. revert k. induction l as [|x l IH]; intros k; simpl; [done|]. destruct (equivalent x k); [intros ?%IH; by right|]. rewrite !list.elem_of_cons. intros [?|?%IH]; auto. Qed.

Lemma normalize_elem l p a : normalize l = Ok p → a ∈ atoms p → a ∈ l.
Proof.
  unfold normalize. intros Hn. case_if_in Hn; [|done]. injection Hn as <-. simpl. intros Ha. apply sort_atoms_elem. unfold dedup in Ha.
  destruct (sort_atoms l) as [|x k]; [done|]. apply list.elem_of_cons in Ha as [->|Ha]; [by left|right; by eapply dedup_after_elem].
Qed.

(** The literals of a parsed predicate are Rust values. *)
Fixpoint wf_operand (e : ScalarExpression) : bool :=
  match e with SLiteral v => wf_value v | SNegate e _ => wf_operand e | _ => true end.
Fixpoint wf_predicate (e : BoolExpression) : bool :=
  match e with BCompare _ _ r _ => wf_operand r | BAnd l r => wf_predicate l && wf_predicate r | _ => true end.

Lemma literal_operand_ok names e : is_literal e = true → wf_operand e = true → operand_ok names e.
Proof. by induction e. Qed.

Lemma shape_filter_ok names e : validate_shape e = Ok tt → wf_predicate e = true → filter_ok names e.
Proof.
  induction e as [v|l op r t|c i|i c n|c x e _|c x e _|v|v|e _|l IHl r IHr|l _ r _]; try done; intros Hs Hw.
  - cbn [validate_shape] in Hs. destruct l; try done. destruct op; try done. case_if_in Hs; [|done]. split; [done|]. by apply literal_operand_ok.
  - cbn [validate_shape] in Hs. apply bind_Ok in Hs as ([] & ? & ?). apply andb_true_iff in Hw as []. split; auto.
Qed.

Lemma predicate_bind_ok names cat scope e p : good_catalog names cat → good_type names (TRecord scope) → wf_predicate e = true →
  predicate_bind cat scope e = Ok p → Forall (atom_ok cat scope) (atoms p).
Proof.
  intros Hcat Hs Hw Hb. unfold predicate_bind in Hb. apply bind_Ok in Hb as ([] & Hok & Hb). apply (shape_filter_ok names _) in Hok; [|done]. apply bind_Ok in Hb as (e' & He & Hb).
  apply bind_Ok in Hb as (l & Hl & Hb). case_if_in Hb; [done|]. apply list.Forall_forall. intros a Ha%(normalize_elem _ _ _ Hb).
  pose proof (collect_atoms_ok names cat Hcat scope "field" Hs e e' [] l Hok He Hl (Forall_nil_2 _)) as Hf.
  rewrite list.Forall_forall in Hf. auto.
Qed.

End bound.

(** ** Growth of the catalog *)

Lemma has_type_extends cat cat' ty v : extends cat cat' → has_type cat ty v → has_type cat' ty v.
Proof. intros He [[f Hf] Hw]. split; [|done]. exists f. by eapply conforms_mono. Qed.

Lemma field_path_ids_extends cat cat' columns path ids : extends cat cat' →
  field_path_ids cat columns path = Ok ids → field_path_ids cat' columns path = Ok ids.
Proof.
  intros He. unfold field_path_ids. revert columns ids. induction (split_dots path) as [|p ps IH]; intros columns ids Hp; [done|].
  cbn [field_path_ids_loop] in *. apply bind_Ok in Hp as (f & -> & Hp). cbn [mbind result_bind]. destruct ps as [|q ps]; [done|].
  apply bind_Ok in Hp as (u & Hu & Hp). rewrite (underlying_extends _ _ _ _ He Hu). cbn [mbind result_bind]. destruct u; try done.
  apply bind_Ok in Hp as (l & Hl & Hp). by rewrite (IH _ _ Hl).
Qed.

Lemma atom_ok_extends cat cat' scope a : extends cat cat' → atom_ok cat scope a → atom_ok cat' scope a.
Proof.
  intros He [Hp Hv]. split; [by eapply field_path_ids_extends|]. destruct a; try done. destruct Hv as [Ht Hv].
  split; [by eapply field_type_extends|by eapply has_type_extends].
Qed.

(** The predicate of an index fits the table's columns. *)
Definition predicate_ok (cat : Catalog) (scope : Columns) (d : IndexDefinition) : Prop :=
  ∀ p, ix_predicate d = Some p → Forall (atom_ok cat scope) (atoms p).

Lemma predicate_ok_extends cat cat' scope d : extends cat cat' → predicate_ok cat scope d → predicate_ok cat' scope d.
Proof. intros He Hd p Hp. specialize (Hd p Hp). revert Hd. apply Forall_impl. intros a. by apply atom_ok_extends. Qed.
