(* ===== verification/StageLaws.v ===== *)
(** * Sorting and set operations are exact

    [sort_by_typed] of src/src/db.rs is a stable sort by the bound keys, and
    [apply_set_operation], which works with hashes of rows, computes the set operation on
    rows themselves for every hash function. *)
From stdpp Require Import sorting.
From S2P Require Import Prelude Bytes Text Decimal Temporal Scalars Float64 BTree Model Coerce OrderedKey Codec Matching Coverage Expression Typing Database Query Access Tables Predicates Wire WireLaws Stages.

#[local] Strategy 1000 [MAX_DEPTH underlying field_type cmp_typed coerce].

(** ** Stable sorting *)

Lemma StronglySorted_in_impl {A} (R S : A → A → Prop) l : StronglySorted R l → (∀ x y, x ∈ l → y ∈ l → R x y → S x y) → StronglySorted S l.
Proof.
  induction 1 as [|x l _ IH Hx]; intros HRS; constructor; [apply IH; intros; apply HRS; [by right..|done]|].
  rewrite list.Forall_forall in Hx |- *. intros y Hy. apply HRS; [by left|by right|by apply Hx].
Qed.

Lemma filter_in_iff {A} (P Q : A → Prop) `{∀ x, Decision (P x), ∀ x, Decision (Q x)} (l : list A) : (∀ x, x ∈ l → P x ↔ Q x) → filter P l = filter Q l.
Proof.
  induction l as [|x l IH]; intros HPQ; [done|]. rewrite !filter_cons, IH by (intros; apply HPQ; by right).
  destruct (HPQ x ltac:(by left)). destruct (decide (P x)), (decide (Q x)); naive_solver.
Qed.

(** A comparison function that orders by some key. *)
Class Preorder_cmp {A} (c : A → A → comparison) : Prop := {
  pc_antisym x y : c y x = CompOpp (c x y);
  pc_trans x y z : c x y ≠ Gt → c y z ≠ Gt → c x z ≠ Gt
}.

Section sort.
Context {A} (c : A → A → comparison) `{!Preorder_cmp c}.

Lemma pc_refl x : c x x = Eq.
Proof. pose proof (pc_antisym x x) as E. by destruct (c x x). Qed.

Lemma pc_Eq_l x y z : c x y = Eq → c x z = c y z.
Proof.
  intros E. assert (E' : c y x = Eq) by (by rewrite pc_antisym, E).
  destruct (c x z) eqn:E1, (c y z) eqn:E2; try done; exfalso.
  - apply (pc_trans z x y); [rewrite (pc_antisym x z), E1; done|by rewrite E|by rewrite (pc_antisym y z), E2].
  - apply (pc_trans y x z); [by rewrite E'|by rewrite E1|done].
  - assert (c z x ≠ Gt) by (apply (pc_trans z y x); [rewrite (pc_antisym y z), E2; done|by rewrite E']). by rewrite (pc_antisym x z), E1 in *.
  - assert (c z x ≠ Gt) by (apply (pc_trans z y x); [rewrite (pc_antisym y z), E2; done|by rewrite E']). by rewrite (pc_antisym x z), E1 in *.
  - apply (pc_trans x y z); [by rewrite E|by rewrite E2|done].
  - apply (pc_trans x y z); [by rewrite E|by rewrite E2|done].
Qed.

(** Sorted, with the elements that compare equal in their original order. *)
Record stable_sort (l l' : list A) : Prop := {
  ss_perm : l' ≡ₚ l;
  ss_sorted : StronglySorted (λ x y, c x y ≠ Gt) l';
  ss_stable x : filter (λ y, c x y = Eq) l' = filter (λ y, c x y = Eq) l
}.

Context (cmp : A → A → result comparison).

Lemma insert_by_stable x l l' :
  (∀ y r, y ∈ l → cmp x y = Ok r → r = c x y) → StronglySorted (λ x y, c x y ≠ Gt) l → insert_by cmp x l = Ok l' → stable_sort (x :: l) l'.
Proof.
  revert l'. induction l as [|y l IH]; intros l' Hc Hs H; cbn [insert_by] in H.
  { injection H as <-. split; [done|repeat constructor|done]. }
  apply bind_Ok in H as (r & Hr & H). apply Hc in Hr; [|by left]. inversion Hs as [|? ? Hs' Hy]; subst.
  assert (Hhere : c x y ≠ Gt → l' = x :: y :: l → stable_sort (x :: y :: l) l').
  { intros Hne ->. split; [done| |done]. constructor; [done|]. constructor; [done|]. eapply list.Forall_impl; [exact Hy|]. intros z Hz. by eapply pc_trans. }
  destruct (c x y) eqn:E; [apply Hhere; [done|by injection H]|apply Hhere; [done|by injection H]|].
  apply bind_Ok in H as (l'' & H & [= <-]). destruct (IH l'') as [Hp Hso Hst]; [intros z r Hz; apply Hc; by right|done|done|]. split.
  - rewrite Hp. apply list.Permutation_swap.
  - constructor; [done|]. rewrite Hp. constructor; [by rewrite pc_antisym, E|done].
  - intros z. rewrite filter_cons, Hst, !filter_cons. destruct (decide (c z y = Eq)) as [Ey|]; [|done].
    destruct (decide (c z x = Eq)) as [Ex|]; [|done]. exfalso. rewrite <-(pc_Eq_l z x y Ex), Ey in E. done.
Qed.

Lemma sort_by_stable l l' :
  (∀ x y r, x ∈ l → y ∈ l → cmp x y = Ok r → r = c x y) → sort_by cmp l = Ok l' → stable_sort l l'.
Proof.
  revert l'. induction l as [|x l IH]; intros l' Hc H; cbn [sort_by] in H.
  { injection H as <-. split; [done|constructor|done]. }
  apply bind_Ok in H as (l1 & H1 & H). destruct (IH l1) as [Hp Hs Hst]; [intros y z r Hy Hz; apply Hc; by right|done|].
  apply insert_by_stable in H as [Hp' Hs' Hst']; [|intros y r Hy; apply Hc; [by left|right; by rewrite <-Hp]|done]. split; [by rewrite Hp', Hp|done|].
  intros z. rewrite Hst', !filter_cons. by rewrite Hst.
Qed.

Lemma insert_by_safe x l : (∀ y, y ∈ l → safe (λ _, True) (cmp x y)) → safe (λ l', l' ≡ₚ x :: l) (insert_by cmp x l).
Proof.
  induction l as [|y l IH]; intros Hc; cbn [insert_by]; [by apply safe_Ok|]. eapply safe_bind; [apply Hc; by left|]. intros r _.
  destruct r; [by apply safe_Ok|by apply safe_Ok|]. eapply safe_bind; [apply IH; intros z Hz; apply Hc; by right|].
  intros l' Hp. apply safe_Ok. rewrite Hp. apply list.Permutation_swap.
Qed.

Lemma sort_by_safe l : (∀ x y, x ∈ l → y ∈ l → safe (λ _, True) (cmp x y)) → safe (λ l', l' ≡ₚ l) (sort_by cmp l).
Proof.
  induction l as [|x l IH]; intros Hc; cbn [sort_by]; [by apply safe_Ok|]. eapply safe_bind; [apply IH; intros y z Hy Hz; apply Hc; by right|].
  intros l' Hp. eapply safe_impl; [apply insert_by_safe|intros l'' ->; by rewrite Hp]. intros y Hy. apply Hc; [by left|]. right. by rewrite <-Hp.
Qed.

Lemma insert_by_total x l : (∀ y, y ∈ l → ∃ r, cmp x y = Ok r) → ∃ l', insert_by cmp x l = Ok l'.
Proof.
  induction l as [|y l IH]; intros Hc; cbn [insert_by]; [by eexists|]. destruct (Hc y ltac:(by left)) as [r ->]. rewrite bind_pure.
  destruct IH as [l' ->]; [intros z Hz; apply Hc; by right|]. destruct r; by eexists.
Qed.

Lemma sort_by_total l : (∀ x y, x ∈ l → y ∈ l → cmp x y = Ok (c x y)) → ∃ l', sort_by cmp l = Ok l' ∧ stable_sort l l'.
Proof.
  intros Hc. assert (∃ l', sort_by cmp l = Ok l') as [l' E]; [|exists l'; split; [done|]; eapply sort_by_stable; [|exact E]; intros x y r Hx Hy Hr; rewrite Hc in Hr by done; by injection Hr].
  induction l as [|x l IH]; cbn [sort_by]; [by eexists|]. destruct IH as [l1 E]; [intros y z Hy Hz; apply Hc; by right|]. rewrite E, bind_pure.
  apply insert_by_total. intros y Hy. exists (c x y). apply Hc; [by left|]. right. eapply sort_by_stable in E as [Hp _ _]; [by rewrite <-Hp|].
  intros u v r Hu Hv Hr. rewrite Hc in Hr by (by right). by injection Hr.
Qed.
End sort.

#[export] Instance bytes_preorder {A} (code : A → list Z) : Preorder_cmp (λ x y, bytes_cmp (code x) (code y)).
Proof.
  split; [intros; apply bytes_cmp_antisym|]. intros x y z.
  destruct (bytes_cmp (code x) (code y)) eqn:E1; [|destruct (bytes_cmp (code y) (code z)) eqn:E2|done]; intros _.
  - by apply bytes_cmp_Eq in E1 as ->.
  - apply bytes_cmp_Eq in E2 as <-. by rewrite E1.
  - by rewrite (bytes_cmp_Lt_trans _ _ _ E1 E2).
  - done.
Qed.

#[export] Instance rev_preorder {A} b (c : A → A → comparison) : Preorder_cmp c → Preorder_cmp (λ x y, rev_if b (c x y)).
Proof.
  intros Hc. destruct b; [|done]. split; cbn [rev_if]; intros x y; [by rewrite (pc_antisym x y)|]. intros z.
  rewrite <-!pc_antisym. intros H1 H2. by apply (pc_trans z y x).
Qed.

#[export] Instance then_preorder {A} (c d : A → A → comparison) : Preorder_cmp c → Preorder_cmp d → Preorder_cmp (λ x y, then_cmp (c x y) (d x y)).
Proof.
  intros Hc Hd. split; [intros x y; rewrite (pc_antisym x y), (pc_antisym (c:=d) x y); by destruct (c x y), (d x y)|]. intros x y z H1 H2.
  destruct (c x y) eqn:E; cbn [then_cmp] in H1; [|clear H1|done].
  - rewrite (pc_Eq_l c x y z E). destruct (c y z); cbn [then_cmp] in *; [by apply (pc_trans x y z)|done..].
  - assert (Hxz : c x z ≠ Gt) by (apply (pc_trans x y z); [by rewrite E|by destruct (c y z)]).
    destruct (c x z) eqn:E2; cbn [then_cmp]; [|done..]. rewrite (pc_Eq_l c x z y E2) in E. by rewrite (pc_antisym z y), E in H2.
Qed.

(** ** The typed order of rows *)

Section typed_order.
Context (cat : Catalog).

(** The ordered encoding of the value that a sort key selects. *)
Definition key_code (key : SortKey) (row : Fields) : list Z :=
  match sk_ty key, row_field row (sk_column key) with
  | Some ty, Some v => match OrderedKey.encode_value MAX_DEPTH cat MAP_INDEX_KEY_CODEC_VERSION ty v with Ok a => a | Err _ => [] end
  | _, _ => []
  end.

Fixpoint codes_cmp (keys : list SortKey) (l r : Fields) : comparison :=
  match keys with
  | [] => Eq
  | key :: keys => then_cmp (rev_if (sk_descending key) (bytes_cmp (key_code key l) (key_code key r))) (codes_cmp keys l r)
  end.

(** The row has a canonical value of the bound type for every sort key. *)
Definition sortable (keys : list SortKey) (row : Fields) : Prop :=
  ∀ key, key ∈ keys → ∃ ty v, sk_ty key = Some ty ∧ row_field row (sk_column key) = Some v ∧ wf_value v = true ∧ conforms MAX_DEPTH cat ty v = true.

Lemma compare_rows_codes keys l r : sortable keys l → sortable keys r → compare_rows_by_typed_keys cat keys l r = Ok (codes_cmp keys l r).
Proof.
  induction keys as [|key keys IH]; intros Hl Hr; [done|]. cbn [compare_rows_by_typed_keys codes_cmp].
  destruct (Hl key ltac:(by left)) as (ty & v & Ety & Ev & Wv & Cv), (Hr key ltac:(by left)) as (ty' & w & Ety' & Ew & Ww & Cw).
  rewrite Ety in Ety'. injection Ety' as <-. unfold key_code. rewrite Ety, Ev, Ew. cbn [ok_or]. rewrite !bind_pure.
  rewrite IH; [|intros k Hk; apply Hl; by right|intros k Hk; apply Hr; by right].
  unfold cmp_typed. revert Cv Cw. generalize MAX_DEPTH. intros fuel Cv Cw.
  destruct (encode_value_total _ _ _ _ Cv) as [a Ha], (encode_value_total _ _ _ _ Cw) as [b Hb]. rewrite Ha, Hb.
  destruct (encode_value_order _ _ _ _ _ _ _ _ Wv Ww Ha Hb) as (c & -> & <-%code_cmp_bytes). rewrite bind_pure.
  by destruct (rev_if (sk_descending key) (bytes_cmp a b)).
Qed.

#[export] Instance codes_cmp_preorder keys : Preorder_cmp (codes_cmp keys).
Proof. induction keys as [|key keys IH]; [done|]. cbn [codes_cmp]. apply then_preorder; [apply rev_preorder, bytes_preorder|done]. Qed.

Definition same_keys (keys : list SortKey) (l r : Fields) : bool :=
  match compare_rows_by_typed_keys cat keys l r with Ok Eq => true | _ => false end.

(** Sorting is a stable sort by the bound keys.  On rows that have canonical values
    for the keys it always returns: a permutation of the rows, ascending in the typed
    order of the keys with their directions, in which rows with equal keys keep their
    order. *)
Theorem sort_by_typed_stable keys rows : (∀ row, row ∈ rows → sortable keys row) →
  ∃ rows', sort_by_typed cat keys rows = Ok rows' ∧ rows' ≡ₚ rows ∧
    StronglySorted (λ l r, ∃ c, compare_rows_by_typed_keys cat keys l r = Ok c ∧ c ≠ Gt) rows' ∧
    ∀ row, row ∈ rows → filter (same_keys keys row) rows' = filter (same_keys keys row) rows.
Proof.
  intros Hs. assert (Hc : ∀ l r, l ∈ rows → r ∈ rows → compare_rows_by_typed_keys cat keys l r = Ok (codes_cmp keys l r))
    by (intros l r Hl Hr; apply compare_rows_codes; by apply Hs).
  destruct (sort_by_total (codes_cmp keys) (compare_rows_by_typed_keys cat keys) rows Hc) as (rows' & E & [Hp Hso Hst]).
  exists rows'. split_and!; [done|done| |].
  - apply (StronglySorted_in_impl _ _ _ Hso). intros l r Hl Hr Hle. rewrite Hp in Hl, Hr. rewrite Hc by done. by eexists.
  - intros row Hrow. assert (Hsame : ∀ r, r ∈ rows → same_keys keys row r ↔ codes_cmp keys row r = Eq).
    { intros r Hr. unfold same_keys. rewrite Hc by done. by destruct (codes_cmp keys row r). }
    rewrite (filter_in_iff _ (λ r, codes_cmp keys row r = Eq) rows Hsame), <-Hst. apply filter_in_iff. intros r Hr. apply Hsame. by rewrite <-Hp.
Qed.
End typed_order.

(** ** Set operations *)

Lemma f64_eq_refl b : is_finite b = true → f64_eq b b = true.
Proof.
  intros Hf. unfold f64_eq, f64_partial_cmp. replace (is_nan b) with false; [by rewrite Z.compare_refl|].
  unfold is_finite, is_nan in *. by destruct (f64_exponent b =? 2047).
Qed.

Lemma cmp_eq_refl v : wf_value v = true → transportable v = true → cmp_eq v v = true.
Proof.
  assert (Hall : ∀ vs, Forall (λ v, wf_value v = true → transportable v = true → cmp_eq v v = true) vs → forallb wf_value vs = true →
    forallb transportable vs = true → all2 cmp_eq vs vs = true).
  { induction 1 as [|x vs Hx _ IH]; intros; [done|]. simpl in *. bool_inv. apply andb_true_iff. auto. }
  assert (Hent : ∀ m, Forall (λ e, wf_value e.2 = true → transportable e.2 = true → cmp_eq e.2 e.2 = true) m → bt_sorted m = true →
    forallb (λ kv, wf_string kv.1 && wf_value kv.2) m = true → forallb (λ e, transportable e.2) m = true →
    (zlen m =? zlen m) && forallb (λ kv, match bt_get kv.1 m with Some w => cmp_eq kv.2 w | None => false end) m = true).
  { intros m Hm Hs Hw Ht. rewrite Z.eqb_refl. apply forallb_Forall, list.Forall_forall. intros [k x] Hin. cbn [fst snd].
    rewrite (proj2 (bt_get_iff k x m Hs) Hin). rewrite list.Forall_forall in Hm. apply (Hm _ Hin); [by eapply wf_entries_elem|].
    rewrite forallb_Forall, list.Forall_forall in Ht. exact (Ht _ Hin). }
  induction v as [v Hs|name args id IH|fields IH|items IH|items IH|entries IH|v IH|id v IH] using Value_nested_ind; cbn [wf_value transportable cmp_eq]; intros Hw Ht; bool_inv.
  - destruct v as [| | | | | | | | | | | | | | | |[|]|]; cbn [transportable wf_value] in *; try done; cbn [cmp_eq]; bool_inv; rewrite ?Z.eqb_refl; try done.
    + by apply f64_eq_refl.
    + apply Bool.eqb_reflx.
    + apply String.eqb_refl.
    + by apply bool_decide_eq_true.
    + unfold decimal_eqb. by rewrite !Z.eqb_refl.
    + by apply bool_decide_eq_true.
  - rewrite Hall, Z.eqb_refl, String.eqb_refl by done. by destruct (_ || _).
  - by apply Hent.
  - by apply Hall.
  - by apply Hall.
  - apply Hent; [done..|]. apply forallb_Forall. match goal with H : forallb _ entries = true |- _ => apply forallb_Forall in H; eapply list.Forall_impl; [exact H|] end.
    intros e He. cbn beta in He. by bool_inv.
  - auto.
  - rewrite Z.eqb_refl. auto.
Qed.

(** The rows kept from [input], in the order of their first occurrence and once each. *)
Inductive first_occurrences {A} (keep : A → Prop) : list A → list A → Prop :=
  | first_nil : first_occurrences keep [] []
  | first_new input output x : first_occurrences keep input output → keep x → x ∉ input → first_occurrences keep (input ++ [x]) (output ++ [x])
  | first_skip input output x : first_occurrences keep input output → ¬ keep x ∨ x ∈ input → first_occurrences keep (input ++ [x]) output.

Lemma first_occurrences_elem {A} (keep : A → Prop) input output x : first_occurrences keep input output → x ∈ output ↔ x ∈ input ∧ keep x.
Proof.
  induction 1 as [|input output y _ IH Hk Hn|input output y _ IH Hs].
  - rewrite elem_of_nil. naive_solver.
  - rewrite !elem_of_app, IH, !list_elem_of_singleton. naive_solver.
  - rewrite elem_of_app, IH, list_elem_of_singleton. naive_solver.
Qed.

Lemma first_occurrences_NoDup {A} (keep : A → Prop) input output : first_occurrences keep input output → NoDup output.
Proof.
  induction 1 as [|input output y Hf IH Hk Hn|]; [constructor| |done]. apply list.NoDup_app. split_and!; [done| |apply list.NoDup_singleton].
  intros x Hx ->%list_elem_of_singleton. by apply Hn, (first_occurrences_elem _ _ _ _ Hf).
Qed.

Section sets.
Context `{RowHasher} (cat : Catalog) (columns : Columns).
Hypothesis Hcat : wf_catalog cat = true.
Hypothesis Hcolumns : ∀ c, c ∈ columns → wf_type (col_ty c) = true.

(** A row of exactly the columns, with canonical values of their types. *)
Record typed_row (row : Fields) : Prop := {
  tr_sorted : bt_sorted row = true;
  tr_typed c : c ∈ columns → ∃ v, bt_get (col_name c) row = Some v ∧ has_type cat (col_ty c) v;
  tr_only n v : bt_get n row = Some v → n ∈ col_name <$> columns
}.

Lemma typed_rows_equal_iff l r : typed_row l → typed_row r → typed_rows_equal l r columns = true ↔ l = r.
Proof.
  intros Hl Hr. unfold typed_rows_equal. rewrite forallb_Forall, list.Forall_forall. split.
  - intros Hall. apply bt_ext; [apply Hl|apply Hr|]. intros k.
    assert (Hk : k ∈ col_name <$> columns → bt_get k l = bt_get k r).
    { intros (c & -> & Hc)%list_elem_of_fmap. specialize (Hall c Hc). cbn beta in Hall.
      destruct (tr_typed l Hl c Hc) as (v & Ev & Tv), (tr_typed r Hr c Hc) as (w & Ew & Tw). rewrite Ev, Ew in *.
      f_equal. by apply (cmp_eq_typed cat (col_ty c)); [|apply Hcolumns|..]. }
    destruct (bt_get k l) as [v|] eqn:E1; [by apply Hk, (tr_only l Hl k v)|].
    destruct (bt_get k r) as [v|] eqn:E2; [|done]. by apply Hk, (tr_only r Hr k v).
  - intros <- c Hc. destruct (tr_typed l Hl c Hc) as (v & Ev & [[fuel Hf] Wv]). rewrite Ev. apply cmp_eq_refl; [done|].
    by apply (conforms_transportable fuel cat (col_ty c)); [|apply Hcolumns|..].
Qed.

(** The buckets hold the positions of the rows under their hashes. *)
Record indexed (rows : list Fields) (b : Buckets) : Prop := {
  ix_rows hash ps i : bt_get hash b = Some ps → i ∈ ps → ∃ row, rows !! i = Some row;
  ix_positions i row : rows !! i = Some row → ∃ ps, bt_get (typed_row_hash row columns) b = Some ps ∧ i ∈ ps
}.

Lemma indexed_push rows b row : indexed rows b → indexed (rows ++ [row]) (bucket_push (typed_row_hash row columns) (length rows) b).
Proof.
  intros Hi. unfold bucket_push. split.
  - intros h ps i. destruct (decide (h = typed_row_hash row columns)) as [->|Hne].
    + rewrite bt_get_insert_eq. intros [= <-] [Hin| ->%list_elem_of_singleton]%elem_of_app; [|exists row; by rewrite lookup_app_r, Nat.sub_diag].
      destruct (bt_get _ b) as [ps|] eqn:E; [|by apply elem_of_nil in Hin]. destruct (ix_rows _ _ Hi _ ps i E Hin) as [r Hr]. exists r. by apply lookup_app_l_Some.
    + rewrite bt_get_insert_ne by done. intros E Hin. destruct (ix_rows _ _ Hi _ ps i E Hin) as [r Hr]. exists r. by apply lookup_app_l_Some.
  - intros i r [Hr|[Hlen Hr]]%lookup_app_Some.
    + destruct (ix_positions _ _ Hi i r Hr) as (ps & E & Hin). destruct (decide (typed_row_hash r columns = typed_row_hash row columns)) as [Eh|Hne].
      * rewrite Eh, bt_get_insert_eq. rewrite Eh in E. rewrite E. eexists. split; [done|]. apply elem_of_app. by left.
      * rewrite bt_get_insert_ne by done. by exists ps.
    + apply list_lookup_singleton_Some in Hr as [Hi0 <-]. rewrite bt_get_insert_eq. eexists. split; [done|]. apply elem_of_app. right.
      apply list_elem_of_singleton. lia.
Qed.

Lemma any_position_spec needle rows ps : (∀ i, i ∈ ps → ∃ row, rows !! i = Some row) → typed_row needle → (∀ row, row ∈ rows → typed_row row) →
  ∃ b, any_position needle rows columns ps = Ok b ∧ (b = true ↔ ∃ i, i ∈ ps ∧ rows !! i = Some needle).
Proof.
  intros Hps Hn Hr. induction ps as [|i ps IH]; cbn [any_position].
  - exists false. split; [done|]. split; [done|]. intros (i & Hi & _). by apply elem_of_nil in Hi.
  - destruct (Hps i ltac:(by left)) as [row Hrow]. rewrite Hrow. cbn [ok_or]. rewrite bind_pure.
    pose proof (typed_rows_equal_iff needle row Hn (Hr row ltac:(by apply (list_elem_of_lookup_2 _ i)))) as Heq.
    destruct (typed_rows_equal needle row columns).
    + exists true. split; [done|]. split; [|done]. intros _. exists i. split; [by left|]. rewrite Hrow. f_equal. symmetry. by apply Heq.
    + destruct IH as (b & -> & Hb); [intros j Hj; apply Hps; by right|]. exists b. split; [done|]. rewrite Hb. split.
      * intros (j & Hj & E). exists j. split; [by right|done].
      * intros (j & [->|Hj]%elem_of_cons & E); [|by exists j]. exfalso. rewrite Hrow in E. injection E as ->. by discriminate (proj2 Heq eq_refl).
Qed.

Lemma row_in_buckets_spec needle rows b : indexed rows b → typed_row needle → (∀ row, row ∈ rows → typed_row row) →
  ∃ r, row_in_buckets needle (typed_row_hash needle columns) rows b columns = Ok r ∧ (r = true ↔ needle ∈ rows).
Proof.
  intros Hi Hn Hr. unfold row_in_buckets. destruct (bt_get _ b) as [ps|] eqn:E.
  - destruct (any_position_spec needle rows ps) as (r & -> & Hb); [intros i Hin; exact (ix_rows _ _ Hi _ ps i E Hin)|done|done|]. exists r. split; [done|]. rewrite Hb, list_elem_of_lookup.
    split; [naive_solver|]. intros [i Hin]. exists i. split; [|done]. destruct (ix_positions _ _ Hi i needle Hin) as (ps' & E' & Hin'). congruence.
  - exists false. split; [done|]. split; [done|]. intros [i Hin]%list_elem_of_lookup. destruct (ix_positions _ _ Hi i needle Hin) as (ps & E' & _). congruence.
Qed.

Lemma build_buckets_indexed rows : indexed rows (build_buckets columns rows).
Proof.
  assert (Hfold : ∀ done b, indexed done b → ∀ rest,
    indexed (done ++ rest) (foldl (λ '(n, b) row, (S n, bucket_push (typed_row_hash row columns) n b)) (length done, b) rest).2).
  { intros done b Hi rest. revert done b Hi. induction rest as [|row rest IH]; intros done b Hi; cbn [foldl]; [by rewrite app_nil_r|].
    replace (S (length done)) with (length (done ++ [row])) by (rewrite length_app; simpl; lia).
    replace (done ++ row :: rest) with ((done ++ [row]) ++ rest) by (by rewrite <-app_assoc). by apply IH, indexed_push. }
  apply (Hfold [] []). split; [done|]. intros i row Hrow. by rewrite lookup_nil in Hrow.
Qed.

(** The loop that keeps the rows that satisfy [include], once each. *)
Lemma keep_rows_spec (keep : Fields → Prop) (include : Fields → result bool) :
  (∀ row, typed_row row → ∃ b, include row = Ok b ∧ (b = true ↔ keep row)) →
  ∀ rest input output b, Forall typed_row rest → Forall typed_row output → indexed output b → first_occurrences keep input output →
  ∃ output' b', foldR (λ st row, i ← include row; if i : bool then push_distinct columns st row else Ok st) (output, b) rest = Ok (output', b') ∧
    first_occurrences keep (input ++ rest) output'.
Proof.
  intros Hinc. induction rest as [|row rest IH]; intros input output b Hrest Hout Hi Hf; cbn [foldR]; [exists output, b; by rewrite app_nil_r|].
  apply list.Forall_cons in Hrest as [Hrow Hrest]. destruct (Hinc row Hrow) as (i & -> & Hk). rewrite bind_pure.
  replace (input ++ row :: rest) with ((input ++ [row]) ++ rest) by (by rewrite <-app_assoc).
  destruct i; [|rewrite bind_pure; apply IH; try done; apply first_skip; [done|left; by intros ?%Hk]].
  unfold push_distinct. destruct (row_in_buckets_spec row output b Hi Hrow) as (p & -> & Hp); [by apply list.Forall_forall|]. rewrite !bind_pure.
  destruct p; [apply IH; try done; apply first_skip; [done|right; by apply (first_occurrences_elem _ _ _ _ Hf), Hp]|].
  apply IH; [done|by apply list.Forall_app; split; [|constructor]|by apply indexed_push|]. apply first_new; [done|by apply Hk|].
  intros Hin. discriminate (proj2 Hp). apply (first_occurrences_elem _ _ _ _ Hf). split; [done|by apply Hk].
Qed.

(** C25: the set operations are exact whatever the hash function is, collisions included.
    On rows of the same columns they always return: [union] the rows of both sides,
    [intersect] the rows of the left side that are on the right, [except] those that are
    not; each row once, in the order of first occurrence.  No position in a bucket is
    out of range. *)
Theorem set_operation_exact left right operator : Forall typed_row left → Forall typed_row right →
  ∃ output, apply_set_operation left right operator columns = Ok output ∧ NoDup output ∧
    (∀ row, row ∈ output ↔ match operator with
       | Union => row ∈ left ∨ row ∈ right
       | Intersect => row ∈ left ∧ row ∈ right
       | Except => row ∈ left ∧ row ∉ right
       end) ∧
    match operator with
    | Union => first_occurrences (λ _, True) (left ++ right) output
    | Intersect => first_occurrences (λ row, row ∈ right) left output
    | Except => first_occurrences (λ row, row ∉ right) left output
    end.
Proof.
  intros Hl Hr. assert (Hnil : indexed [] []) by (split; [done|intros i row Hrow; by rewrite lookup_nil in Hrow]).
  assert (Hright : ∀ row, typed_row row → ∃ b, row_in_buckets row (typed_row_hash row columns) right (build_buckets columns right) columns = Ok b ∧ (b = true ↔ row ∈ right))
    by (intros row Hrow; apply row_in_buckets_spec; [apply build_buckets_indexed|done|by apply list.Forall_forall]).
  destruct operator; cbn [apply_set_operation].
  - destruct (keep_rows_spec (λ _, True) (λ _, Ok true) ltac:(intros; by exists true) (left ++ right) [] [] []) as (output & b & E & Hf);
      [by apply list.Forall_app|constructor|done|constructor|]. exists output. cbn [app] in Hf.
    split_and!; [|by eapply first_occurrences_NoDup| |done].
    + transitivity (fst <$> Ok (output, b)); [|done]. rewrite <-E. by f_equal.
    + intros row. rewrite (first_occurrences_elem _ _ _ _ Hf), elem_of_app. naive_solver.
  - destruct (keep_rows_spec (λ row, row ∈ right) _ Hright left [] [] []) as (output & b & E & Hf); [done|constructor|done|constructor|].
    exists output. split_and!; [|by eapply first_occurrences_NoDup| |done].
    + transitivity (fst <$> Ok (output, b)); [|done]. rewrite <-E. by f_equal.
    + intros row. by rewrite (first_occurrences_elem _ _ _ _ Hf).
  - destruct (keep_rows_spec (λ row, row ∉ right) (λ row, b ← row_in_buckets row (typed_row_hash row columns) right (build_buckets columns right) columns; Ok (negb b)))
      with (rest := left) (input := @nil Fields) (output := @nil Fields) (b := @nil (Z * list nat)) as (output & b & E & Hf); [|done|constructor|done|constructor|].
    { intros row Hrow. destruct (Hright row Hrow) as (b & -> & Hb). exists (negb b). split; [done|]. rewrite <-Hb. by destruct b. }
    exists output. split_and!; [|by eapply first_occurrences_NoDup| |done].
    + transitivity (fst <$> Ok (output, b)); [|done]. rewrite <-E. f_equal. apply foldR_ext. intros st row. cbn beta. by destruct (row_in_buckets _ _ _ _ _).
    + intros row. by rewrite (first_occurrences_elem _ _ _ _ Hf).
Qed.
End sets.

(** ** Witnesses *)

Definition example_score (name : string) (score : Z) : Fields := [("name", VText name); ("score", VInt score)].
Definition example_scores : list Fields := [example_score "x" 1; example_score "y" 2; example_score "z" 1].
Definition example_by_score : list SortKey := [mkSortKey "score" true (Some TInt)].

Lemma example_sortable row : row ∈ example_scores → sortable default_catalog example_by_score row.
Proof.
  intros Hrow key ->%list_elem_of_singleton. exists TInt.
  repeat (apply elem_of_cons in Hrow as [->|Hrow]; [eexists; split_and!; [done|vm_compute; reflexivity|vm_compute; reflexivity..]|]). by apply elem_of_nil in Hrow.
Qed.

Lemma sort_by_typed_stable_witness : (∀ row, row ∈ example_scores → sortable default_catalog example_by_score row) ∧
  sort_by_typed default_catalog example_by_score example_scores = Ok [example_score "y" 2; example_score "x" 1; example_score "z" 1].
Proof.
  split; [exact example_sortable|]. destruct (sort_by_typed_stable default_catalog example_by_score example_scores example_sortable) as (rows & E & _).
  vm_compute in E. injection E as <-. vm_compute. reflexivity.
Defined.

Definition example_columns : Columns := [Column "name" TText None 1; Column "score" TInt None 2].

Lemma example_typed_row name score : wf_string name = true → is_i64 score = true → typed_row default_catalog example_columns (example_score name score).
Proof.
  intros Hn Hs. split; [reflexivity| |].
  - intros c [->|[->|Hc%elem_of_nil]%elem_of_cons]%elem_of_cons; [eexists; split; [reflexivity|split; [by exists 1%nat|done]]..|done].
  - intros n v Hg%bt_get_elem. repeat (apply elem_of_cons in Hg as [[= -> _]|Hg]; [cbn; repeat (apply elem_of_cons; first [by left|right])|]). by apply elem_of_nil in Hg.
Qed.

(** Every row has the same hash. *)
#[local] Instance colliding_hasher : RowHasher := { hash_finish _ := 0 }.

Lemma set_operation_exact_witness :
  Forall (typed_row default_catalog example_columns) [example_score "x" 1; example_score "y" 2; example_score "x" 1] ∧
  apply_set_operation [example_score "x" 1; example_score "y" 2; example_score "x" 1] [example_score "y" 2] Except example_columns = Ok [example_score "x" 1].
Proof.
  assert (Hl : Forall (typed_row default_catalog example_columns) [example_score "x" 1; example_score "y" 2; example_score "x" 1])
    by (repeat (apply list.Forall_cons; split; [by apply example_typed_row|]); constructor).
  assert (Hr : Forall (typed_row default_catalog example_columns) [example_score "y" 2]) by (repeat (apply list.Forall_cons; split; [by apply example_typed_row|]); constructor).
  split; [exact Hl|].
  destruct (set_operation_exact default_catalog example_columns ltac:(reflexivity) ltac:(intros c Hc; repeat (apply elem_of_cons in Hc as [->|Hc]; [reflexivity|]); by apply elem_of_nil in Hc)
    _ _ Except Hl Hr) as (output & E & _). vm_compute in E. injection E as <-. vm_compute. reflexivity.
Defined.
