(* ===== verification/Paging.v ===== *)
(** * Pages and cursors

    The authenticated cursors of src/src/pagination.rs and the page stage of src/src/db.rs:
    [prepare_page] checks the shape of a paginated query and binds the cursor it resumes
    from, [apply_page] cuts the page out of the sorted rows and makes the cursors to its
    neighbours.  The JSON text of a payload, the MAC and the digest are third-party
    libraries and parameters; so is the canonical text of a pipeline ([PlanText]), of
    which nothing is assumed. *)
From Stdlib Require Import Ascii.
From S2P Require Import Prelude Bytes Text Decimal BTree Model Matching Expression IndexPredicate Database Query Access Wire.

Definition MAX_PAGE_LIMIT : Z := 1000.
Definition MAX_CURSOR_BYTES : Z := 8192.
Definition MAX_CURSOR_PAYLOAD_BYTES : Z := 6144.
Definition MAX_CURSOR_SORT_KEYS : Z := 16.

Definition LEGACY_CURSOR_PREFIX : string := "u1".
Definition PRODUCTION_CURSOR_PREFIX : string := "u2".
Definition MAP_CURSOR_PREFIX : string := "u3".
Definition LEGACY_CURSOR_CODEC_VERSION : Z := 1.
Definition PRODUCTION_CURSOR_CODEC_VERSION : Z := 2.
Definition MAP_CURSOR_CODEC_VERSION : Z := 3.

#[export] Instance PageDirection_eq_dec : EqDecision PageDirection.
Proof. solve_decision. Defined.

Record SchemaInfo := mkSchemaInfo { si_revision : Z; si_hash : string }.
#[export] Instance SchemaInfo_eq_dec : EqDecision SchemaInfo.
Proof. solve_decision. Defined.

Record CursorIdentity := mkCursorIdentity { ci_instance_id : list Z; ci_secret : list Z }.

Record CursorKey := mkCursorKey { ck_field_path : list Z; ck_column : string; ck_descending : bool; ck_value : WireValue }.

Record CursorPayload := mkCursorPayload {
  cp_codec : Z;
  cp_database : string;
  cp_schema_revision : string;
  cp_schema_hash : string;
  cp_snapshot_sequence : string;
  cp_plan_digest : string;
  cp_direction : PageDirection;
  cp_limit : Z;
  cp_keys : list CursorKey
}.

Record CursorExpectation := mkCursorExpectation {
  ce_schema : SchemaInfo;
  ce_snapshot_sequence : Z;
  ce_plan_digest : string;
  ce_direction : PageDirection;
  ce_limit : Z
}.

(** [serde_json::to_vec] and [from_slice] of a payload, and HMAC-SHA256, which takes a
    key of any length. *)
Class CursorLib := {
  payload_to_vec : CursorPayload → option (list Z);
  payload_from_slice : list Z → option CursorPayload;
  hmac_sha256 : list Z → list Z → list Z
}.

(** The canonical text of a pipeline and the hexadecimal SHA-256 digest of a text. *)
Class PlanText := { format_pipeline : Pipeline → string; sha256_hex : string → string }.

(** ** Cursors *)

Section cursor.
Context `{WireText} `{CursorLib}.

Definition base64_text (bs : list Z) : string := of_bytes (base64_engine_encode bs).

(** The prefix and codec version for the values at the boundary. *)
Definition cursor_codec (keys : list CursorKey) : string * Z :=
  if existsb (λ k, requires_map_codec (ck_value k)) keys then (MAP_CURSOR_PREFIX, MAP_CURSOR_CODEC_VERSION)
  else if existsb (λ k, requires_v2 (ck_value k)) keys then (PRODUCTION_CURSOR_PREFIX, PRODUCTION_CURSOR_CODEC_VERSION)
  else (LEGACY_CURSOR_PREFIX, LEGACY_CURSOR_CODEC_VERSION).

Definition cursor_payload (identity : CursorIdentity) (schema : SchemaInfo) (snapshot_sequence : Z) (plan_digest : string)
    (direction : PageDirection) (limit : Z) (keys : list CursorKey) : CursorPayload :=
  mkCursorPayload (cursor_codec keys).2 (base64_text (ci_instance_id identity)) (int_text (si_revision schema)) (si_hash schema)
    (int_text snapshot_sequence) plan_digest direction limit keys.

Definition cursor_token (prefix : string) (payload signature : list Z) : string :=
  (prefix ++ "." ++ base64_text payload ++ "." ++ base64_text signature)%string.

Definition cursor_encode (identity : CursorIdentity) (schema : SchemaInfo) (snapshot_sequence : Z) (plan_digest : string)
    (direction : PageDirection) (limit : Z) (keys : list CursorKey) : result string :=
  if zlen keys >? MAX_CURSOR_SORT_KEYS then Err "E_CURSOR_LIMIT"
  else
    payload ← ok_or (payload_to_vec (cursor_payload identity schema snapshot_sequence plan_digest direction limit keys)) "E_CURSOR_CODEC";
    if zlen payload >? MAX_CURSOR_PAYLOAD_BYTES then Err "E_CURSOR_LIMIT"
    else
      let token := cursor_token (cursor_codec keys).1 payload (hmac_sha256 (ci_secret identity) payload) in
      if str_len token >? MAX_CURSOR_BYTES then Err "E_CURSOR_LIMIT" else Ok token.

Definition prefix_codec (prefix : string) : option Z :=
  if String.eqb prefix LEGACY_CURSOR_PREFIX then Some LEGACY_CURSOR_CODEC_VERSION
  else if String.eqb prefix PRODUCTION_CURSOR_PREFIX then Some PRODUCTION_CURSOR_CODEC_VERSION
  else if String.eqb prefix MAP_CURSOR_PREFIX then Some MAP_CURSOR_CODEC_VERSION
  else None.

Definition verify_signature (secret payload signature : list Z) : result () :=
  if bool_decide (hmac_sha256 secret payload = signature) then Ok () else Err "E_CURSOR_INTEGRITY".

Definition cursor_parse_u64 (value : string) : result Z := ok_or (parse_int is_u64 value) "E_CURSOR_CODEC".

Definition cursor_decode (identity : CursorIdentity) (token : string) (expected : CursorExpectation) : result (list CursorKey) :=
  if str_len token >? MAX_CURSOR_BYTES then Err "E_CURSOR_LIMIT"
  else
    let parts := split_dots token in
    expected_codec ← ok_or (prefix ← head parts; prefix_codec prefix) "E_CURSOR_CODEC";
    match parts with
    | [_; payload_text; signature_text] =>
        payload ← ok_or (base64_engine_decode (as_bytes payload_text)) "E_CURSOR_CODEC";
        if zlen payload >? MAX_CURSOR_PAYLOAD_BYTES then Err "E_CURSOR_LIMIT"
        else
          signature ← ok_or (base64_engine_decode (as_bytes signature_text)) "E_CURSOR_CODEC";
          _ ← verify_signature (ci_secret identity) payload signature;
          payload ← ok_or (payload_from_slice payload) "E_CURSOR_CODEC";
          if negb (cp_codec payload =? expected_codec) then Err "E_CURSOR_CODEC"
          else if zlen (cp_keys payload) >? MAX_CURSOR_SORT_KEYS then Err "E_CURSOR_LIMIT"
          else if negb ((cursor_codec (cp_keys payload)).2 =? expected_codec) then Err "E_CURSOR_CODEC"
          else
            database ← ok_or (base64_engine_decode (as_bytes (cp_database payload))) "E_CURSOR_CODEC";
            if bool_decide (database ≠ ci_instance_id identity) then Err "E_CURSOR_DATABASE"
            else
              schema_revision ← cursor_parse_u64 (cp_schema_revision payload);
              if bool_decide (mkSchemaInfo schema_revision (cp_schema_hash payload) ≠ ce_schema expected) then Err "E_CURSOR_SCHEMA"
              else if bool_decide (cp_plan_digest payload ≠ ce_plan_digest expected) || bool_decide (cp_direction payload ≠ ce_direction expected) ||
                      negb (cp_limit payload =? ce_limit expected) then Err "E_CURSOR_QUERY"
              else
                snapshot_sequence ← cursor_parse_u64 (cp_snapshot_sequence payload);
                if negb (snapshot_sequence =? ce_snapshot_sequence expected) then Err "E_CURSOR_STALE"
                else Ok (cp_keys payload)
    | _ => Err "E_CURSOR_CODEC"
    end.
End cursor.

(** ** Preparing a page *)

(** What a cursor is bound to beside the query: fields of the database that its model
    leaves out. *)
Record Snapshot := mkSnapshot { sn_identity : CursorIdentity; sn_schema : SchemaInfo; sn_sequence : Z }.

Definition replace_or_append_column (schema : Columns) (column : ColumnOf ScalarType) : Columns :=
  match list_find (λ c, col_name c = col_name column) schema with
  | Some (i, _) => <[i := column]> schema
  | None => schema ++ [column]
  end.

Definition is_page (s : Stage) : bool := match s with StPage _ => true | _ => false end.
Definition is_lookup (s : Stage) : bool := match s with StLookup _ => true | _ => false end.
Definition is_select (s : Stage) : bool := match s with StSelect _ => true | _ => false end.
Definition is_sort (s : Stage) : bool := match s with StSort _ => true | _ => false end.
Definition unpageable (s : Stage) : bool := match s with StTake _ _ | StAggregate _ | StWindow _ => true | _ => false end.

(** The positions of the stages that satisfy a test, ascending. *)
Fixpoint positions (test : Stage → bool) (position : nat) (stages : list Stage) : list nat :=
  match stages with
  | [] => []
  | s :: stages => if test s then position :: positions test (S position) stages else positions test (S position) stages
  end.

(** A stage that replaces the field [name]. *)
Definition derives (name : string) (s : Stage) : bool :=
  match s with
  | StDerive d => String.eqb (de_name d) name
  | StDeriveMatch d => String.eqb (dm_name d) name
  | _ => false
  end.

Section prepare.
Context `{TextLib} `{WireText} `{CursorLib} `{PlanText}.

Definition page_plan_digest (p : Pipeline) (direction : PageDirection) : string :=
  let canonical := mkPipeline (pl_from p) ((λ s, match s with StPage page => StPage (mkPageSpec (ps_limit page) direction None) | s => s end) <$> pl_stages p) in
  let text := match direction with Forward => "forward" | Backward => "backward" end in
  ("sha256:" ++ sha256_hex (format_pipeline canonical ++ String "010"%char "page_direction " ++ text))%string.

(** The leading components that an equality fixes. *)
Fixpoint equality_prefix (constraints : list IndexConstraint) (components : list IndexComponentDefinition) : nat :=
  match components with
  | [] => 0
  | c :: components =>
      if existsb (λ k, String.eqb (cn_column k) (ic_column c) && match cn_op k with CmpEq => true | _ => false end) constraints
      then S (equality_prefix constraints components) else 0
  end.

Definition page_unique_index (db : Database) (p : Pipeline) (sort_position : nat) (keys : list SortKey) : bool :=
  let constraints := leading_index_constraints p in
  match leading_query_predicate_atoms db (pl_from p) p with
  | Err _ => false
  | Ok query_atoms =>
      existsb (λ '(_, d),
        is_unique (ix_kind d) &&
        match ix_predicate d with Some predicate => implied_by predicate query_atoms | None => true end &&
        let components := effective_components d in
        let equality_components := equality_prefix constraints components in
        let fixed := ic_column <$> take equality_components components in
        let visible := List.filter (λ k, negb (existsb (String.eqb (sk_column k)) fixed)) keys in
        Nat.eqb (length visible) (length components - equality_components) &&
        match index_sort_match p components equality_components with Some (position, _) => Nat.eqb position sort_position | None => false end)
        (definitions_of db (pl_from p))
  end.

(** The columns after a stage before the final sort. *)
Definition page_columns (cat : Catalog) (schema : Columns) (s : Stage) : result Columns :=
  match s with
  | StDerive d => ty ← ok_or (de_output_type d) "E_TYPE"; Ok (replace_or_append_column schema (Column (de_name d) ty None 0))
  | StDeriveMatch d => ty ← ok_or (dm_output_type d) "E_TYPE"; Ok (replace_or_append_column schema (Column (dm_name d) ty None 0))
  | StSelect columns => mapR (λ name, ty ← field_type cat schema name; Ok (Column name ty None 0)) columns
  | _ => Ok schema
  end.

(** The keys of the final sort, bound at their place in the pipeline. *)
Definition page_order (cat : Catalog) (table_schema : Columns) (before : list Stage) (keys : list SortKey) : result (list BoundPageOrder) :=
  schema ← foldR (page_columns cat) table_schema before;
  mapR (λ key,
    ty ← field_type cat schema (sk_column key);
    let field_path := match field_path_ids cat table_schema (sk_column key) with Ok path => path | Err _ => [] end in
    Ok (mkBoundPageOrder key field_path ty)) keys.

(** The values of a cursor, as values of the sort fields. *)
Definition bind_boundary (cat : Catalog) (order : list BoundPageOrder) (keys : list CursorKey) : result (list Value) :=
  if negb (Nat.eqb (length keys) (length order)) then Err "E_CURSOR_QUERY"
  else mapR (λ '(k, o),
    if negb (String.eqb (ck_column k) (sk_column (po_key o))) || bool_decide (ck_field_path k ≠ po_field_path o) ||
       negb (Bool.eqb (ck_descending k) (sk_descending (po_key o))) then Err "E_CURSOR_QUERY"
    else v ← map_err "E_CURSOR_CODEC" (try_from (ck_value k)); coerce cat v (po_ty o)) (zip keys order).

(** The shape of a paginated query: its page and its sort. *)
Definition page_shape (db : Database) (p : Pipeline) : result (option (PageSpec * list BoundPageOrder)) :=
  let stages := pl_stages p in
  match positions is_page 0 stages with
  | [] => Ok None
  | [page_position] =>
      if existsb is_lookup (take page_position stages) then Err "E_PAGE_SHAPE"
      else if existsb (λ s, negb (is_lookup s || is_select s)) (drop (S page_position) stages) then Err "E_PAGE_SHAPE"
      else
        spec ← (match stages !! page_position with Some (StPage spec) => Ok spec | _ => Err PANIC end);
        if negb (in_range 1 MAX_PAGE_LIMIT (ps_limit spec)) then Err "E_PAGE_SHAPE"
        else if existsb unpageable stages then Err "E_PAGE_SHAPE"
        else
          sort_position ← ok_or (list.last (positions is_sort 0 (take page_position stages))) "E_PAGE_ORDER";
          if existsb (λ s, negb (is_select s)) (drop (S sort_position) (take page_position stages)) then Err "E_PAGE_SHAPE"
          else
            keys ← (match stages !! sort_position with Some (StSort keys) => Ok keys | _ => Err PANIC end);
            if (zlen keys =? 0) || (zlen keys >? MAX_CURSOR_SORT_KEYS) then Err "E_PAGE_ORDER"
            else
              t ← table db (pl_from p);
              let before := take sort_position stages in
              let primary_proof :=
                match tbl_primary_key t with
                | Some key => bool_decide (sk_column <$> list.last keys = Some key) && negb (existsb (derives key) before)
                | None => false
                end in
              if negb primary_proof && negb (page_unique_index db p sort_position keys) then Err "E_PAGE_ORDER"
              else order ← page_order (db_catalog db) (tbl_schema t) before keys; Ok (Some (spec, order))
  | _ => Err "E_PAGE_SHAPE"
  end.

Definition prepare_page (sn : Snapshot) (db : Database) (p : Pipeline) : result (option PreparedPage) :=
  shape ← page_shape db p;
  match shape with
  | None => Ok None
  | Some (spec, order) =>
      let forward_digest := page_plan_digest p Forward in
      let backward_digest := page_plan_digest p Backward in
      let expected_digest := match ps_direction spec with Forward => forward_digest | Backward => backward_digest end in
      boundary ←
        match ps_cursor spec with
        | None => Ok None
        | Some cursor =>
            keys ← cursor_decode (sn_identity sn) cursor
                     (mkCursorExpectation (sn_schema sn) (sn_sequence sn) expected_digest (ps_direction spec) (ps_limit spec));
            Some <$> bind_boundary (db_catalog db) order keys
        end;
      Ok (Some (mkPreparedPage spec order boundary forward_digest backward_digest))
  end.

(** ** Cutting out the page *)

Fixpoint compare_page_boundary (cat : Catalog) (row : Fields) (order : list BoundPageOrder) (boundary : list Value) : result comparison :=
  match order, boundary with
  | key :: order, b :: boundary =>
      v ← ok_or (row_field row (sk_column (po_key key))) "E_CURSOR_QUERY";
      comparison ← map_err "E_CURSOR_CODEC" (cmp_typed cat (po_ty key) v b);
      match rev_if (sk_descending (po_key key)) comparison with
      | Eq => compare_page_boundary cat row order boundary
      | comparison => Ok comparison
      end
  | _, _ => Ok Eq
  end.

Definition page_eligible (cat : Catalog) (page : PreparedPage) (row : Fields) : result bool :=
  match pp_boundary page with
  | None => Ok true
  | Some boundary =>
      order ← compare_page_boundary cat row (pp_order page) boundary;
      Ok (match ps_direction (pp_spec page) with Forward => bool_decide (order = Gt) | Backward => bool_decide (order = Lt) end)
  end.

(** The first eligible rows, up to the bound. *)
Fixpoint select_page (eligible : Fields → result bool) (bound : Z) (rows selected : list Fields) : result (list Fields) :=
  match rows with
  | [] => Ok selected
  | row :: rows =>
      b ← eligible row;
      if b : bool then
        let selected := selected ++ [row] in
        if zlen selected =? bound then Ok selected else select_page eligible bound rows selected
      else select_page eligible bound rows selected
  end.

Record PageInfo := mkPageInfo {
  pi_limit : Z;
  pi_direction : PageDirection;
  pi_snapshot_sequence : string;
  pi_next_cursor : option string;
  pi_previous_cursor : option string;
  pi_has_more : bool
}.

Definition next_page (i : PageInfo) : option PageSpec := (λ cursor, mkPageSpec (pi_limit i) Forward (Some cursor)) <$> pi_next_cursor i.
Definition previous_page (i : PageInfo) : option PageSpec := (λ cursor, mkPageSpec (pi_limit i) Backward (Some cursor)) <$> pi_previous_cursor i.

Definition cursor_key (row : Fields) (o : BoundPageOrder) : result CursorKey :=
  v ← ok_or (row_field row (sk_column (po_key o))) "E_CURSOR_CODEC";
  Ok (mkCursorKey (po_field_path o) (sk_column (po_key o)) (sk_descending (po_key o)) (wire_from v)).

Definition cursor_for_row (sn : Snapshot) (page : PreparedPage) (direction : PageDirection) (row : Fields) : result string :=
  keys ← mapR (cursor_key row) (pp_order page);
  cursor_encode (sn_identity sn) (sn_schema sn) (sn_sequence sn)
    (match direction with Forward => pp_forward_digest page | Backward => pp_backward_digest page end)
    direction (ps_limit (pp_spec page)) keys.

(** A cursor at a row that is there, when it leads anywhere. *)
Definition page_cursor (sn : Snapshot) (page : PreparedPage) (direction : PageDirection) (wanted : bool) (row : option Fields) : result (option string) :=
  match row with
  | Some row => if wanted then Some <$> cursor_for_row sn page direction row else Ok None
  | None => Ok None
  end.

Definition apply_page (sn : Snapshot) (cat : Catalog) (rows : list Fields) (page : PreparedPage) : result (list Fields * PageInfo) :=
  let limit := ps_limit (pp_spec page) in
  let direction := ps_direction (pp_spec page) in
  let bound := saturating_usize (limit + 1) in
  selected ← match direction with
             | Forward => select_page (page_eligible cat page) bound rows []
             | Backward => reverse <$> select_page (page_eligible cat page) bound (reverse rows) []
             end;
  let has_more := zlen selected >? limit in
  let selected := if has_more then match direction with Forward => removelast selected | Backward => tail selected end else selected in
  let resumed := bool_decide (is_Some (pp_boundary page)) in
  previous_cursor ← page_cursor sn page Backward (match direction with Forward => resumed | Backward => has_more end) (head selected);
  next_cursor ← page_cursor sn page Forward (match direction with Forward => has_more | Backward => resumed end) (list.last selected);
  Ok (selected, mkPageInfo limit direction (int_text (sn_sequence sn)) next_cursor previous_cursor has_more).
End prepare.
