(* ===== verification/Targets.v ===== *)
(** * Targets of updates and deletes

    How src/src/db.rs selects the rows that an update or delete changes: binding of the
    target pipeline, access through an index where there is one, and the evaluation of its
    stages, one row at a time with an early end, or stage by stage where a sort needs all
    rows.  Rows are read from memory, in table order; deadlines and counters are left out. *)
From S2P Require Import Prelude Bytes Text Decimal Temporal Scalars Float64 BTree Model Matching Expression IndexPredicate Query MatchResult Database Access Wire Stages Paging.

Section targets.
Context `{TextLib} `{PredicateText} `{Base64} `{WireText} `{RowJson}.

(** ** Binding *)

Definition bind_sort_key (cat : Catalog) (schema : Columns) (key : SortKey) : result SortKey :=
  ty ← field_type cat schema (sk_column key);
  ordered ← orderable cat ty;
  if ordered : bool then Ok (mkSortKey (sk_column key) (sk_descending key) (Some ty)) else Err "E_TYPE".

Definition bind_target_stage (cat : Catalog) (schema : Columns) (stage : Stage) : result Stage :=
  match stage with
  | StFilter e => StFilter <$> Expression.bind cat schema e
  | StFilterMatch m => StFilterMatch <$> bind_match_predicate cat schema m
  | StSort keys => StSort <$> mapR (bind_sort_key cat schema) keys
  | StTake offset limit => Ok stage
  | StPage _ => Err "E_PAGE_SHAPE"
  | _ => Err "E_QUERY"
  end.

Definition bind_mutation_target (cat : Catalog) (schema : Columns) (target : Pipeline) : result Pipeline :=
  stages ← mapR (bind_target_stage cat schema) (pl_stages target); Ok (mkPipeline (pl_from target) stages).

(** ** One row at a time *)

Record StreamingTakeState := mkTakeState { tk_seen : Z; tk_emitted : Z }.

(** [apply_streaming_prefix]: the row that comes out, if one does, whether no later row can,
    and the states of the [take] stages, one per stage. *)
Fixpoint apply_streaming_prefix (cat : Catalog) (resident_bytes : Z) (stages : list Stage) (states : list StreamingTakeState) (exhausted : bool)
    (row : Fields) : eval (option Fields * bool * list StreamingTakeState) :=
  match stages, states with
  | stage :: stages, state :: states =>
      let next exhausted row := apply_streaming_prefix cat resident_bytes stages states exhausted row in
      let continue_ state exhausted row := ebind (next exhausted row) (λ '(o, e, states), eret (o, e, state :: states)) in
      match stage with
      | StLet _ | StSort _ => continue_ state exhausted row
      | StFilter e => ebind (evaluate cat e (row_field row)) (λ b, if b : bool then continue_ state exhausted row else eret (None, exhausted, state :: states))
      | StFilterMatch m => ebind (evaluate_match_predicate cat row m) (λ b, if b : bool then continue_ state exhausted row else eret (None, exhausted, state :: states))
      | StDeriveMatch d =>
          ebind (evaluate_match_derive cat row d) (λ value,
            let row := bt_insert (dm_name d) value row in
            elift (check_streaming_row_bytes row resident_bytes) (λ _, continue_ state exhausted row))
      | StDerive d =>
          elift (ok_or (de_output_type d) "E_TYPE") (λ ty,
            ebind (evaluate_derive cat (de_expression d) (row_field row)) (λ raw,
              elift (coerce cat raw ty) (λ value,
                let row := bt_insert (de_name d) value row in
                elift (check_streaming_row_bytes row resident_bytes) (λ _, continue_ state exhausted row))))
      | StSelect columns =>
          let row := project_row row columns in
          elift (check_streaming_row_bytes row resident_bytes) (λ _, continue_ state exhausted row)
      | StTake offset limit =>
          if tk_seen state <? offset then eret (None, exhausted, mkTakeState (saturating_usize (tk_seen state + 1)) (tk_emitted state) :: states)
          else if tk_emitted state >=? limit then eret (None, true, state :: states)
          else
            let state := mkTakeState (saturating_usize (tk_seen state + 1)) (saturating_usize (tk_emitted state + 1)) in
            continue_ state (exhausted || (tk_emitted state =? limit)) row
      | _ => elift (Err PANIC) eret
      end
  | _, _ => eret (Some row, exhausted, states)
  end.

(** The loop of the streaming selection; [selected] are the rows so far. *)
Fixpoint select_streaming (cat : Catalog) (stages : list Stage) (states : list StreamingTakeState) (rows : list Row) (selected : list Z) : eval (list Z) :=
  match rows with
  | [] => eret selected
  | row :: rows =>
      ebind (apply_streaming_prefix cat (saturating_usize (zlen selected * 8)) stages states false (row_fields row)) (λ '(o, exhausted, states),
        elift (match o with
               | Some _ => if zlen selected =? MAX_QUERY_WORKING_ROWS then Err "E_LIMIT" else Ok (selected ++ [row_id row])
               | None => Ok selected
               end) (λ selected,
          if exhausted : bool then eret selected else select_streaming cat stages states rows selected))
  end.

Definition initial_takes (stages : list Stage) : list StreamingTakeState := replicate (length stages) (mkTakeState 0 0).

(** ** Stage by stage *)

Fixpoint filter_rows (f : Row → eval bool) (rows : list Row) : eval (list Row) :=
  match rows with
  | [] => eret []
  | row :: rows => ebind (f row) (λ b, ebind (filter_rows f rows) (λ rows, eret (if b : bool then row :: rows else rows)))
  end.

Definition sort_rows (cat : Catalog) (keys : list SortKey) (rows : list Row) : result (list Row) :=
  sort_by (λ l r, compare_rows_by_typed_keys cat keys (row_fields l) (row_fields r)) rows.

Fixpoint select_staged (cat : Catalog) (ordered_sort : option nat) (position : nat) (stages : list Stage) (rows : list Row) : eval (list Row) :=
  match stages with
  | [] => eret rows
  | stage :: stages =>
      let next rows := select_staged cat ordered_sort (S position) stages rows in
      match stage with
      | StFilter e => ebind (filter_rows (λ row, evaluate cat e (row_field (row_fields row))) rows) next
      | StFilterMatch m => ebind (filter_rows (λ row, evaluate_match_predicate cat (row_fields row) m) rows) next
      | StSort keys => if bool_decide (ordered_sort = Some position) then next rows else elift (sort_rows cat keys rows) next
      | StTake offset limit => next (take (Z.to_nat limit) (drop (Z.to_nat offset) rows))
      | _ => elift (Err PANIC) eret
      end
  end.

(** ** The target *)

Fixpoint blocking_sort (ordered_sort : option nat) (position : nat) (stages : list Stage) : bool :=
  match stages with
  | [] => false
  | stage :: stages => is_sort stage && negb (bool_decide (ordered_sort = Some position)) || blocking_sort ordered_sort (S position) stages
  end.

Fixpoint get_rows (db : Database) (name : string) (ids : list Z) : result (list Row) :=
  match ids with
  | [] => Ok []
  | id :: ids => o ← get_row db name id; rows ← get_rows db name ids; Ok (match o with Some row => row :: rows | None => rows end)
  end.

(** The sort needs all rows in memory. *)
Definition select_sorted (cat : Catalog) (ordered_sort : option nat) (stages : list Stage) (working_rows : Z) (rows : list Row) : result (list Z) :=
  if working_rows >? MAX_QUERY_WORKING_ROWS then Err "E_LIMIT"
  else
    bytes ← check_materialized_rows (row_fields <$> rows);
    rows ← fst <$> select_staged cat ordered_sort 0 stages rows MAX_COLLECTION_PREDICATE_EVALUATIONS;
    Ok (row_id <$> (rows : list Row)).

Definition mutation_target_ids (db : Database) (target : Pipeline) : result (list Z) :=
  t ← table db (pl_from target);
  access ← plan_access db target None false;
  candidates ← materialize_access_candidates db target None access;
  if match candidates with Some ids => zlen ids >? MAX_QUERY_WORKING_ROWS | None => false end then Err "E_LIMIT"
  else
    rows ← match candidates with Some ids => get_rows db (pl_from target) ids | None => Ok (tbl_rows t) end;
    if negb (blocking_sort (pa_ordered_sort access) 0 (pl_stages target)) then
      fst <$> select_streaming (db_catalog db) (pl_stages target) (initial_takes (pl_stages target)) rows [] MAX_COLLECTION_PREDICATE_EVALUATIONS
    else
      select_sorted (db_catalog db) (pa_ordered_sort access) (pl_stages target) (match candidates with Some ids => zlen ids | None => zlen (tbl_rows t) end) rows.

(** ** The statements *)

(** [Statement::Update] and [Statement::Delete] with their target pipelines. *)
Definition update_target (db : Database) (target : Pipeline) (assignments : list SetAssignment) : result Database :=
  t ← table db (pl_from target);
  target ← bind_mutation_target (db_catalog db) (tbl_schema t) target;
  _ ← bind_update_operation db (pl_from target) assignments;
  targets ← mutation_target_ids db target;
  update db (pl_from target) targets assignments.

Definition delete_target (db : Database) (target : Pipeline) : result Database :=
  t ← table db (pl_from target);
  target ← bind_mutation_target (db_catalog db) (tbl_schema t) target;
  targets ← mutation_target_ids db target;
  delete_rows db (pl_from target) targets.
End targets.
