(* ===== verification/Execution.v ===== *)
(** * Execution of queries

    [query_from_output] of src/src/db.rs after the pipeline is prepared: the access to the
    table, the stages that handle one row at a time while the rows are read (the streaming
    prefix, with an aggregation right after it), and the stages on the rows that are left;
    lookups and [exists] filters, which run queries of their own.  The rows are collected and
    returned (no row sink).

    Queries that a query runs (the right side of a set operation, a lookup, [exists]) are
    prepared and executed by the same function: they are the argument [nested], which gets
    the index shape that [exists] forces, and the pipeline. *)
From S2P Require Import Prelude Bytes Text Decimal Temporal Scalars Float64 BTree Model Matching Expression IndexPredicate Query MatchResult Database Access Wire Stages Aggregates Paging Targets.

Definition MAX_LOOKUP_DRIVERS : Z := 10000.
Definition MAX_EXISTS_DRIVERS : Z := 10000.

(** ** References to the outer row *)

Fixpoint replace_outer_scalar (outer : Fields) (shadowed : bool) (e : ScalarExpression) : result ScalarExpression :=
  match e with
  | SReference path =>
      if negb shadowed && String.eqb path "outer" then Ok (SLiteral (VRecord outer))
      else match (if shadowed then None else strip_prefix "outer." path) with
           | Some field => value ← ok_or (row_field outer field) "E_FIELD"; Ok (SLiteral value)
           | None => Ok e
           end
  | SParameter _ _ | SLiteral _ => Ok e
  | SAscribed value ty => value ← replace_outer_scalar outer shadowed value; Ok (SAscribed value ty)
  | SCall name arguments => arguments ← mapR (replace_outer_scalar outer shadowed) arguments; Ok (SCall name arguments)
  | SLength value => value ← replace_outer_scalar outer shadowed value; Ok (SLength value)
  | SNegate value ty => value ← replace_outer_scalar outer shadowed value; Ok (SNegate value ty)
  | SArithmetic l op r ty =>
      l ← replace_outer_scalar outer shadowed l;
      r ← replace_outer_scalar outer shadowed r;
      Ok (SArithmetic l op r ty)
  end.

Fixpoint replace_outer_bool (outer : Fields) (shadowed : bool) (e : BoolExpression) : result BoolExpression :=
  let scalar := replace_outer_scalar outer shadowed in
  match e with
  | BValue value => BValue <$> scalar value
  | BIsSome value => BIsSome <$> scalar value
  | BIsNone value => BIsNone <$> scalar value
  | BCompare l op r ty => l ← scalar l; r ← scalar r; Ok (BCompare l op r ty)
  | BContains collection item => collection ← scalar collection; item ← scalar item; Ok (BContains collection item)
  | BMembership item collection negated => item ← scalar item; collection ← scalar collection; Ok (BMembership item collection negated)
  | BAny collection binding predicate =>
      collection ← scalar collection;
      predicate ← replace_outer_bool outer (shadowed || String.eqb binding "outer") predicate;
      Ok (BAny collection binding predicate)
  | BAll collection binding predicate =>
      collection ← scalar collection;
      predicate ← replace_outer_bool outer (shadowed || String.eqb binding "outer") predicate;
      Ok (BAll collection binding predicate)
  | BNot value => BNot <$> replace_outer_bool outer shadowed value
  | BAnd l r => l ← replace_outer_bool outer shadowed l; r ← replace_outer_bool outer shadowed r; Ok (BAnd l r)
  | BOr l r => l ← replace_outer_bool outer shadowed l; r ← replace_outer_bool outer shadowed r; Ok (BOr l r)
  end.

Definition replace_outer_references (outer : Fields) (e : BoolExpression) : result BoolExpression := replace_outer_bool outer false e.

Definition ex_pipeline (e : ExistsFilter) : Pipeline := match e with mkExistsFilter p _ _ _ _ _ => p end.
Definition ex_negated (e : ExistsFilter) : bool := match e with mkExistsFilter _ n _ _ _ _ => n end.
Definition ex_correlations (e : ExistsFilter) : list ExistsCorrelation := match e with mkExistsFilter _ _ c _ _ _ => c end.
Definition ex_index_target (e : ExistsFilter) : option string := match e with mkExistsFilter _ _ _ _ t _ => t end.
Definition ex_index_shape (e : ExistsFilter) : option string := match e with mkExistsFilter _ _ _ _ _ s => s end.

(** ** The streaming prefix *)

(** The stage has to see all rows, or comes after one that does. *)
Definition blocks (ordered_sort : option nat) (paged : bool) (final_sort : option nat) (position : nat) (stage : Stage) : bool :=
  match stage with
  | StFilterExists _ | StLookup _ | StAggregate _ | StWindow _ | StSetOperation _ | StPage _ => true
  | StSort _ => negb (bool_decide (ordered_sort = Some position))
  | StSelect _ => paged && match final_sort with Some sort => bool_decide (sort < position)%nat | None => false end
  | _ => false
  end.

Fixpoint streaming_end (ordered_sort : option nat) (paged : bool) (final_sort : option nat) (position : nat) (stages : list Stage) : nat :=
  match stages with
  | [] => position
  | stage :: stages =>
      if blocks ordered_sort paged final_sort position stage then position else streaming_end ordered_sort paged final_sort (S position) stages
  end.

(** A loop over rows that keeps what the step yields. *)
Fixpoint each_row {X} (step : X → eval (option X)) (rows : list X) : eval (list X) :=
  match rows with
  | [] => eret []
  | row :: rows => ebind (step row) (λ o, ebind (each_row step rows) (λ rows, eret (match o with Some row => row :: rows | None => rows end)))
  end.

Section execution.
Context `{TextLib} `{PredicateText} `{Base64} `{WireText} `{RowJson} `{RowHasher} `{JsonText} `{CursorLib} `{PlanText}.

(** The loop over the rows read: [consume] takes a row that comes out of the prefix, and
    [resident] is the size of what it has kept. *)
Fixpoint stream_rows {A} (resident : A → Z) (consume : A → Fields → result A) (cat : Catalog) (stages : list Stage)
    (states : list StreamingTakeState) (rows : list Fields) (acc : A) : eval A :=
  match rows with
  | [] => eret acc
  | row :: rows =>
      ebind (apply_streaming_prefix cat (resident acc) stages states false row) (λ '(o, exhausted, states),
        elift (match o with Some row => consume acc row | None => Ok acc end) (λ acc,
          if exhausted : bool then eret acc else stream_rows resident consume cat stages states rows acc))
  end.

(** ** Stages on the rows that are left *)

(** What a stage does to a single row. *)
Definition row_step (cat : Catalog) (stage : Stage) (row : Fields) : eval (option Fields) :=
  match stage with
  | StFilter e => ebind (evaluate cat e (row_field row)) (λ b, eret (if b : bool then Some row else None))
  | StFilterMatch m => ebind (evaluate_match_predicate cat row m) (λ b, eret (if b : bool then Some row else None))
  | StDeriveMatch d => ebind (evaluate_match_derive cat row d) (λ value, eret (Some (bt_insert (dm_name d) value row)))
  | StDerive d =>
      elift (ok_or (de_output_type d) "E_TYPE") (λ ty,
        ebind (evaluate_derive cat (de_expression d) (row_field row)) (λ raw,
          elift (coerce cat raw ty) (λ value, eret (Some (bt_insert (de_name d) value row)))))
  | StSelect columns => eret (Some (project_row row columns))
  | _ => eret (Some row)
  end.

Section nested.
Context (nested : option string → Pipeline → result (list Fields)).

Definition lookup_pipeline (l : Lookup) (key : Value) : Pipeline :=
  mkPipeline (lk_table l)
    [StFilter (BCompare (SReference (lk_target_key l)) CmpEq (SLiteral key) None);
     StSort [mkSortKey (lk_target_key l) false None];
     StTake 0 (saturating_usize (lk_limit l + 1))].

(** The loop over the driver rows; [working_bytes] as the code keeps it. *)
Fixpoint lookup_rows (l : Lookup) (working_bytes : Z) (rows : list Fields) : result (list Fields) :=
  match rows with
  | [] => Ok []
  | row :: rows =>
      previous_row_bytes ← materialized_row_size row;
      key ← ok_or (row_field row (lk_source_key l)) "E_FIELD";
      found ← nested None (lookup_pipeline l key);
      if zlen found >? lk_limit l then Err "E_RELATION_LIMIT"
      else
        let row := bt_insert (lk_name l) (VList (VRecord <$> found)) row in
        working_bytes ← check_streaming_row_bytes row (Z.max 0 (working_bytes - previous_row_bytes));
        rows ← lookup_rows l working_bytes rows;
        Ok (row :: rows)
  end.

Definition apply_lookup (l : Lookup) (rows : list Fields) : result (list Fields) :=
  if zlen rows >? MAX_LOOKUP_DRIVERS then Err "E_LIMIT"
  else working_bytes ← check_materialized_rows rows; lookup_rows l working_bytes rows.

(** The stages of the inner query with the outer row's values in place. *)
Definition exists_stage (outer : Fields) (stage : Stage) : result Stage :=
  match stage with StFilter e => StFilter <$> replace_outer_references outer e | _ => Err PANIC end.

Definition evaluate_exists (e : ExistsFilter) (outer : Fields) : result bool :=
  stages ← mapR (exists_stage outer) (pl_stages (ex_pipeline e));
  target ← ok_or (ex_index_target e) PANIC;
  correlation ← ok_or (find (λ c, String.eqb (ec_target c) target) (ex_correlations e)) PANIC;
  bound ← ok_or (row_field outer (ec_outer correlation)) "E_FIELD";
  shape ← ok_or (ex_index_shape e) PANIC;
  found ← nested (Some shape)
    (mkPipeline (pl_from (ex_pipeline e))
       (StFilter (BCompare (SReference target) CmpEq (SLiteral bound) None) :: stages ++ [StSort [mkSortKey target false None]; StTake 0 1]));
  Ok (negb (bool_decide (found = []))).

Definition filter_exists (e : ExistsFilter) (rows : list Fields) : result (list Fields) :=
  if zlen rows >? MAX_EXISTS_DRIVERS then Err "E_LIMIT"
  else foldR (λ kept row, matched ← evaluate_exists e row; Ok (if xorb matched (ex_negated e) then kept ++ [row] else kept)) [] rows.

Definition combine_rows (s : SetOperation) (rows : list Fields) : result (list Fields) :=
  other ← nested None (so_pipeline s);
  let combined_rows := saturating_usize (zlen rows + zlen other) in
  if combined_rows >? MAX_QUERY_WORKING_ROWS then Err "E_LIMIT"
  else
    left_bytes ← check_materialized_rows rows;
    right_bytes ← check_materialized_rows other;
    let membership_bytes := saturating_usize (combined_rows * 24) in
    if saturating_usize (saturating_usize (left_bytes + right_bytes) + membership_bytes) >? GENERAL_WORKING_MAX_BYTES then Err "E_LIMIT"
    else apply_set_operation rows other (so_operator s) (so_columns s).

(** The rows, the selections put off until after the page, and the page once it is cut. *)
Record Working := mkWorking { wk_rows : list Fields; wk_deferred : list (list string); wk_page : option PageInfo }.
Definition with_working_rows (w : Working) (rows : list Fields) : Working := mkWorking rows (wk_deferred w) (wk_page w).

Definition run_stage (sn : Snapshot) (cat : Catalog) (ordered_sort : option nat) (page : option PreparedPage) (final_sort : option nat)
    (position : nat) (stage : Stage) (w : Working) : eval Working :=
  let rows := wk_rows w in
  let done_ rows := eret (with_working_rows w rows) in
  match stage with
  | StLet _ => eret w
  | StFilter _ | StFilterMatch _ | StDeriveMatch _ => ebind (each_row (row_step cat stage) rows) done_
  | StDerive d => elift (ok_or (de_output_type d) "E_TYPE") (λ _, ebind (each_row (row_step cat stage) rows) done_)
  | StFilterExists e => elift (filter_exists e rows) done_
  | StLookup l => elift (apply_lookup l rows) done_
  | StAggregate agg => elift (aggregate_rows cat agg rows) done_
  | StWindow window => elift (fst <$> apply_window cat window rows) done_
  | StSetOperation s => elift (combine_rows s rows) done_
  | StSelect columns =>
      if bool_decide (is_Some page) && negb (bool_decide (is_Some (wk_page w)))
         && match final_sort with Some sort => bool_decide (sort < position)%nat | None => false end
      then eret (mkWorking rows (wk_deferred w ++ [columns]) (wk_page w))
      else done_ (project_rows rows columns)
  | StSort keys => if bool_decide (ordered_sort = Some position) then eret w else elift (sort_by_typed cat keys rows) done_
  | StTake offset limit => done_ (take (Z.to_nat limit) (drop (Z.to_nat offset) rows))
  | StPage _ =>
      elift (ok_or page PANIC) (λ page,
        elift (apply_page sn cat rows page) (λ '(rows, info), eret (mkWorking (foldl project_rows rows (wk_deferred w)) [] (Some info))))
  end.

Fixpoint run_stages (sn : Snapshot) (cat : Catalog) (ordered_sort : option nat) (page : option PreparedPage) (final_sort : option nat)
    (position : nat) (stages : list Stage) (w : Working) : eval Working :=
  match stages with
  | [] => eret w
  | stage :: stages =>
      ebind (run_stage sn cat ordered_sort page final_sort position stage w) (λ w,
        elift (check_materialized_rows (wk_rows w)) (λ _, run_stages sn cat ordered_sort page final_sort (S position) stages w))
  end.

Fixpoint deferred_selects (columns : list (list string)) (rows : list Fields) : result (list Fields) :=
  match columns with
  | [] => Ok rows
  | c :: columns => let rows := project_rows rows c in bytes ← check_materialized_rows rows; deferred_selects columns rows
  end.

(** ** A query *)

(** The rows after the streaming prefix, and where the other stages start. *)
Definition read_rows (cat : Catalog) (stages : list Stage) (end_ : nat) (rows : list Fields) : eval (list Fields * nat) :=
  let prefix := take end_ stages in
  match stages !! end_ with
  | Some (StAggregate agg) =>
      ebind (stream_rows (λ _, 0) (aggregate_one_row cat agg) cat prefix (initial_takes prefix) rows (new_aggregate_groups agg, 0)) (λ '(groups, _),
        elift (finish_aggregate_groups cat groups agg) (λ rows,
          elift (check_materialized_rows rows) (λ _, eret (rows, S end_))))
  | _ =>
      ebind (stream_rows snd (λ '(rows, bytes) row, append_working_row rows row bytes) cat prefix (initial_takes prefix) rows ([], 0)) (λ '(rows, _), eret (rows, end_))
  end.

Definition run_query (sn : Snapshot) (cat : Catalog) (page : option PreparedPage) (ordered_sort : option nat) (stages : list Stage) (rows : list Fields)
    : eval (list Fields * option PageInfo) :=
  let final_sort := list.last (positions is_sort 0 stages) in
  let end_ := streaming_end ordered_sort (bool_decide (is_Some page)) final_sort 0 stages in
  ebind (read_rows cat stages end_ rows) (λ '(rows, start),
    elift (check_materialized_rows rows) (λ _,
      ebind (run_stages sn cat ordered_sort page final_sort start (drop start stages) (mkWorking rows [] None)) (λ w,
        elift (deferred_selects (wk_deferred w) (wk_rows w)) (λ rows,
          elift (if zlen rows >? MAX_RESULT_ROWS then Err "E_LIMIT" else Ok rows) (λ rows, eret (rows, wk_page w)))))).

Definition query_prepared (sn : Snapshot) (db : Database) (forced_index_shape : option string) (p : Pipeline) : result (list Fields * option PageInfo) :=
  page ← prepare_page sn db p;
  t ← table db (pl_from p);
  access ← match forced_index_shape with
           | Some shape => plan_access_for_index db p page shape true
           | None => plan_access db p page true
           end;
  candidates ← materialize_access_candidates db p page access;
  if match candidates with Some ids => zlen ids >? MAX_QUERY_WORKING_ROWS | None => false end then Err "E_LIMIT"
  else
    rows ← match candidates with Some ids => get_rows db (pl_from p) ids | None => Ok (tbl_rows t) end;
    fst <$> run_query sn (db_catalog db) page (pa_ordered_sort access) (pl_stages p) (row_fields <$> (rows : list Row)) MAX_COLLECTION_PREDICATE_EVALUATIONS.
End nested.
End execution.
