(* ===== verification/Streaming.v ===== *)
(** * Streaming

    Shared by the proofs on updates and queries: evaluation depends on its budget only in
    whether it runs out ([metered]), and a loop that takes each row through all stages, with
    counters for the [take] stages and an early end, computes what evaluating the stages one
    after the other computes ([loop_staged]). *)
From S2P Require Import Prelude Bytes Text Decimal Temporal Scalars Float64 BTree Model Matching Expression IndexPredicate Query MatchResult Database MatchSafety Wire Access Stages Predicates Aggregates Paging Targets Execution.

(** ** Budgets *)

(** The computation answers [a] at cost [c], to every budget that covers the cost. *)
Definition costs {A} (m : eval A) (a : A) (c : Z) : Prop := 0 ≤ c ∧ ∀ j, c ≤ j → m j = Ok (a, j - c).

(** A computation that answers has a cost, and does not overdraw its budget. *)
Definition metered {A} (m : eval A) : Prop := ∀ k a k', m k = Ok (a, k') → ∃ c, costs m a c ∧ k' = k - c ∧ (0 ≤ k → 0 ≤ k').

Create HintDb metered.

Lemma costs_ret {A} (a : A) : costs (eret a) a 0.
Proof. split; [lia|]. intros j _. unfold eret. by rewrite Z.sub_0_r. Qed.

Lemma costs_bind {A B} (m : eval A) (f : A → eval B) a b c d : costs m a c → costs (f a) b d → costs (ebind m f) b (c + d).
Proof. intros [Hc Hm] [Hd Hf]. split; [lia|]. intros j Hj. unfold ebind. rewrite Hm, bind_pure, Hf by lia. do 2 f_equal. lia. Qed.

Lemma costs_fun {A} (m : eval A) a a' c c' : costs m a c → costs m a' c' → a = a' ∧ c = c'.
Proof. intros [_ H1] [_ H2]. specialize (H1 (Z.max c c') ltac:(lia)). specialize (H2 (Z.max c c') ltac:(lia)). rewrite H1 in H2. injection H2 as ->. split; [done|lia]. Qed.

Lemma ebind_run {A B} (m : eval A) (f : A → eval B) k a k' : m k = Ok (a, k') → ebind m f k = f a k'.
Proof. unfold ebind. by intros ->. Qed.

Lemma ebind_Err {A B} (m : eval A) (f : A → eval B) k e : m k = Err e → ebind m f k = Err e.
Proof. unfold ebind. by intros ->. Qed.

Lemma ebind_assoc {A B C} (m : eval A) (f : A → eval B) (g : B → eval C) k : ebind (ebind m f) g k = ebind m (λ a, ebind (f a) g) k.
Proof. unfold ebind. by destruct (m k) as [[a k']|e]. Qed.

Lemma costs_ext {A} (m m' : eval A) a c : (∀ k, m k = m' k) → costs m a c → costs m' a c.
Proof. intros E [Hc Hm]. split; [done|]. intros j Hj. by rewrite <-E, Hm. Qed.

Lemma metered_costs {A} (m : eval A) k a k' : metered m → m k = Ok (a, k') → costs m a (k - k') ∧ (0 ≤ k → k - k' ≤ k).
Proof. intros Hm (c & Hc & -> & Hk)%Hm. replace (k - (k - c)) with c by lia. split; [done|lia]. Qed.

Lemma costs_bind_inv {A B} (m : eval A) (f : A → eval B) b c : metered m → (∀ a, metered (f a)) → costs (ebind m f) b c →
  ∃ a c1 c2, costs m a c1 ∧ costs (f a) b c2 ∧ c = c1 + c2.
Proof.
  intros Hm Hf [_ Hc]. specialize (Hc c ltac:(lia)). apply bind_Ok in Hc as ([a k] & (c1 & H1 & -> & _)%Hm & (c2 & H2 & E & _)%Hf). exists a, c1, c2. split_and!; [done..|lia].
Qed.

Lemma metered_ret {A} (a : A) : metered (eret a).
Proof. intros k b k' [= -> ->]. exists 0. split; [apply costs_ret|lia]. Qed.

Lemma metered_bind {A B} (m : eval A) (f : A → eval B) : metered m → (∀ a, metered (f a)) → metered (ebind m f).
Proof.
  intros Hm Hf k b k' ([a k1] & (c & Hc & -> & ?)%Hm & (d & Hd & -> & ?)%Hf)%bind_Ok. exists (c + d). split; [by eapply costs_bind|lia].
Qed.

Lemma costs_lift {A B} (m : result A) (f : A → eval B) a b c : m = Ok a → costs (f a) b c → costs (elift m f) b c.
Proof. intros -> [Hc Hf]. split; [done|]. intros j Hj. unfold elift. by rewrite bind_pure, Hf. Qed.

Lemma costs_lift_inv {A B} (m : result A) (f : A → eval B) b c : costs (elift m f) b c → ∃ a, m = Ok a ∧ costs (f a) b c.
Proof.
  intros [Hc Hm]. destruct m as [a|e]; [|by specialize (Hm c ltac:(lia))]. exists a. split; [done|]. split; [done|]. intros j Hj. by rewrite <-Hm.
Qed.

Lemma metered_lift {A B} (m : result A) (f : A → eval B) : (∀ a, metered (f a)) → metered (elift m f).
Proof. intros Hf k b k' (a & -> & (c & Hc & Hk)%Hf)%bind_Ok. exists c. split; [by eapply costs_lift|done]. Qed.

Lemma metered_value {A B} (m : eval (option A)) (none : B) (f : A → eval B) : metered m → (∀ a, metered (f a)) → metered (evalue m none f).
Proof. intros Hm Hf. apply metered_bind; [done|]. intros [a|]; [done|apply metered_ret]. Qed.

Lemma metered_consume : metered consume_collection_predicate.
Proof.
  intros k [] k' Hk. unfold consume_collection_predicate in *. destruct (k =? 0) eqn:E; [done|]. injection Hk as <-. exists 1. split; [|lia]. split; [lia|].
  intros j Hj. by rewrite (proj2 (Z.eqb_neq j 0)) by lia.
Qed.
#[export] Hint Resolve metered_ret metered_bind metered_lift metered_value metered_consume : metered.

(** One step for the head of the computation. *)
Ltac metered :=
  repeat first
    [ apply metered_ret | apply metered_consume | assumption | by auto with metered
    | apply metered_bind | apply metered_value | apply metered_lift
    | progress intros
    | match goal with |- metered (match ?x with _ => _ end) => destruct x end
    | match goal with |- metered (match ?x with _ => _ end _) => destruct x end ].

Section metered.
Context `{TextLib} (cat : Catalog).

Lemma metered_each {A B} (f : A → B) l : metered (consume_each f l).
Proof. induction l; cbn [consume_each]; metered. Qed.
#[local] Hint Resolve metered_each : metered.

Lemma metered_map name entries key : metered (map_function name entries key).
Proof. unfold map_function. metered. Qed.
#[local] Hint Resolve metered_map : metered.

Lemma metered_membership item items : metered (membership item items).
Proof. induction items; cbn [membership]; metered. Qed.
#[local] Hint Resolve metered_membership : metered.

Fixpoint metered_scalar e values : metered (evaluate_scalar cat e values).
Proof.
  destruct e as [| | | |name arguments| | |]; cbn [evaluate_scalar]; [| | | |destruct arguments as [|a1 [|a2 [|a3 arguments]]]| | |].
  all: metered.
Qed.
#[local] Hint Resolve metered_scalar : metered.

Lemma metered_evaluate e values : metered (evaluate cat e values).
Proof.
  revert values. induction e; intros values; cbn [evaluate evaluate_resolved]; metered.
  all: match goal with |- metered (_ ?l) => induction l; metered end.
Qed.
#[local] Hint Resolve metered_evaluate : metered.

Lemma metered_predicate_arms value arms : metered (evaluate_predicate_arms cat value arms).
Proof. induction arms; cbn [evaluate_predicate_arms]; metered. Qed.

#[local] Hint Resolve metered_predicate_arms : metered.

Lemma metered_match row p : metered (evaluate_match_predicate cat row p).
Proof. unfold evaluate_match_predicate. destruct (row_field row (mp_column p)); [apply metered_predicate_arms|apply metered_ret]. Qed.

Lemma metered_derive e values : metered (evaluate_derive cat e values).
Proof. unfold evaluate_derive. destruct e; unfold evaluate_scalar_value; metered. Qed.
#[local] Hint Resolve metered_derive : metered.

Lemma metered_results ev values tys : Forall (λ v, ∀ ty, metered (ev ty v)) values → metered (evaluate_results ev values tys).
Proof. intros Hv. revert tys. induction Hv as [|v values Hv _ IH]; intros [|ty tys]; cbn [evaluate_results]; metered. Qed.

Lemma metered_fields (ev : ScalarType → MatchValue → eval Value) definitions fields values : Forall (λ e, ∀ ty, metered (ev ty e.2)) fields →
  metered (evaluate_fields ev definitions fields values).
Proof. intros Hv. revert values. induction Hv as [|[n v] fields Hv _ IH]; intros values; cbn [evaluate_fields]; [metered|]. cbn [snd] in Hv. metered. Qed.

Lemma metered_record (ev : ScalarType → MatchValue → eval Value) expected fields : Forall (λ e, ∀ ty, metered (ev ty e.2)) fields → metered (evaluate_record cat ev expected fields).
Proof. intros Hv. unfold evaluate_record. apply metered_lift. intros u. destruct u; metered. by apply metered_fields. Qed.

Lemma metered_result bindings expected v : metered (evaluate_result cat bindings expected v).
Proof.
  revert expected. induction v as [path|v|e|name payload IH|fields IH|items IH|items IH] using MatchValue_nested_ind; intros expected; cbn [evaluate_result]; [metered..| | | |].
  - unfold evaluate_constructor, evaluate_value_payload. destruct payload; cbn [payload_values] in IH; metered; by first [apply metered_record|apply metered_results|apply metered_fields].
  - by apply metered_record.
  - metered. by apply metered_results.
  - apply metered_lift. intros u. destruct u; metered. match goal with |- metered (mapE (evaluate_result _ _ ?t) _) => induction IH; cbn [mapE]; metered end.
Qed.
#[local] Hint Resolve metered_result : metered.

Lemma metered_value_arms output_type value arms : metered (evaluate_value_arms cat output_type value arms).
Proof. induction arms; cbn [evaluate_value_arms]; metered. Qed.

Lemma metered_match_derive row d : metered (evaluate_match_derive cat row d).
Proof. apply metered_lift. intros v. apply metered_value_arms. Qed.
End metered.

#[export] Hint Resolve metered_evaluate metered_match metered_derive metered_match_derive : metered.

(** ** Loops over rows *)

(** Counts are [usize] values. *)
Definition sized (stage : Stage) : Prop :=
  match stage with StTake offset limit => 0 ≤ offset < 2 ^ 64 ∧ 0 ≤ limit < 2 ^ 64 | _ => True end.

Lemma metered_each_row {X} (f : X → eval (option X)) rows : (∀ x, metered (f x)) → metered (each_row f rows).
Proof. intros Hf. induction rows; cbn [each_row]; metered. Qed.

Section loop.
(** What a stage other than [take] does to a row, and what is done with a row that comes out. *)
Context {X A : Type} (step : Stage → X → eval (option X)) (consume : A → X → result A).
Context (metered_step : ∀ s x, metered (step s x)).

(** A row through all stages. *)
Fixpoint through (stages : list Stage) (states : list StreamingTakeState) (exhausted : bool) (x : X) : eval (option X * bool * list StreamingTakeState) :=
  match stages, states with
  | stage :: stages, state :: states =>
      let continue_ state exhausted x := ebind (through stages states exhausted x) (λ '(o, e, states), eret (o, e, state :: states)) in
      match stage with
      | StTake offset limit =>
          if tk_seen state <? offset then eret (None, exhausted, mkTakeState (saturating_usize (tk_seen state + 1)) (tk_emitted state) :: states)
          else if tk_emitted state >=? limit then eret (None, true, state :: states)
          else
            let state := mkTakeState (saturating_usize (tk_seen state + 1)) (saturating_usize (tk_emitted state + 1)) in
            continue_ state (exhausted || (tk_emitted state =? limit)) x
      | _ => ebind (step stage x) (λ o, match o with Some x => continue_ state exhausted x | None => eret (None, exhausted, state :: states) end)
      end
  | _, _ => eret (Some x, exhausted, states)
  end.

(** The rows one by one, until no later one can come out. *)
Fixpoint loop (stages : list Stage) (states : list StreamingTakeState) (xs : list X) (acc : A) : eval A :=
  match xs with
  | [] => eret acc
  | x :: xs =>
      ebind (through stages states false x) (λ '(o, exhausted, states),
        elift (match o with Some x => consume acc x | None => Ok acc end) (λ acc, if exhausted : bool then eret acc else loop stages states xs acc))
  end.

(** The stages one by one. *)
Fixpoint staged (stages : list Stage) (xs : list X) : eval (list X) :=
  match stages with
  | [] => eret xs
  | StTake offset limit :: stages => staged stages (take (Z.to_nat limit) (drop (Z.to_nat offset) xs))
  | stage :: stages => ebind (each_row (step stage) xs) (staged stages)
  end.

Lemma metered_through stages states exhausted x : metered (through stages states exhausted x).
Proof.
  revert states exhausted x. induction stages as [|s stages IH]; intros states exhausted x; cbn [through]; [metered|]. destruct states; [metered|].
  destruct s; metered.
Qed.
#[local] Hint Resolve metered_through : metered.

Lemma metered_loop stages states xs acc : metered (loop stages states xs acc).
Proof. revert states acc. induction xs; intros states acc; cbn [loop]; metered. Qed.
#[local] Hint Resolve metered_loop : metered.

Lemma metered_loop_staged stages xs : metered (staged stages xs).
Proof. revert xs. induction stages as [|s stages IH]; intros xs; cbn [staged]; [metered|]. destruct s; try apply IH; (apply metered_bind; [by apply metered_each_row|done]). Qed.

(** The flag that no later row comes out is only ever raised. *)
Definition raise_flag {B C} (m : eval (B * bool * C)) : eval (B * bool * C) := ebind m (λ '(o, _, out), eret (o, true, out)).

Lemma through_flag stages states x k : through stages states true x k = raise_flag (through stages states false x) k.
Proof.
  revert states x k. induction stages as [|s stages IH]; intros states x k; [done|]. destruct states as [|st states]; [done|].
  assert (Hc : ∀ fl st' y k', ebind (through stages states true y) (λ '(o, e, out), eret (o, e, st' :: out)) k' =
    raise_flag (ebind (through stages states fl y) (λ '(o, e, out), eret (o, e, st' :: out))) k').
  { intros fl st' y k'. unfold raise_flag, ebind. destruct fl; rewrite ?IH; unfold raise_flag, ebind; by destruct (through stages states false y k') as [[[[? ?] ?] ?]|]. }
  assert (Hf : ∀ (m : eval (option X)), ebind m (λ o, match o with Some y => ebind (through stages states true y) (λ '(o, e, out), eret (o, e, st :: out)) | None => eret (None, true, st :: states) end) k =
    raise_flag (ebind m (λ o, match o with Some y => ebind (through stages states false y) (λ '(o, e, out), eret (o, e, st :: out)) | None => eret (None, false, st :: states) end)) k).
  { intros m. unfold raise_flag at 1. unfold ebind at 1 3 4. destruct (m k) as [[[y|] k']|e]; [apply Hc|done..]. }
  destruct s; cbn [through]; first [apply Hf|idtac].
  destruct (tk_seen st <? offset); [done|]. destruct (tk_emitted st >=? limit); [done|]. cbn [orb]. apply Hc.
Qed.

Lemma costs_flag stages states x o e out c fl : costs (through stages states false x) (o, e, out) c → costs (through stages states fl x) (o, fl || e, out) c.
Proof. intros [Hc Hm]. destruct fl; [|by split]. split; [done|]. intros j Hj. rewrite through_flag. unfold raise_flag, ebind. by rewrite Hm. Qed.

(** What the loop does with the answer for a row. *)
Definition after_row (stages : list Stage) (xs : list X) (acc : A) : option X * bool * list StreamingTakeState → eval A :=
  λ '(o, exhausted, states),
    elift (match o with Some x => consume acc x | None => Ok acc end) (λ acc, if exhausted : bool then eret acc else loop stages states xs acc).

Lemma metered_after stages xs acc a : metered (after_row stages xs acc a).
Proof. destruct a as [[o e] states]. unfold after_row. metered. Qed.

Lemma loop_cons stages states x xs acc : loop stages states (x :: xs) acc = ebind (through stages states false x) (after_row stages xs acc).
Proof. done. Qed.

Lemma loop_cons_inv stages states x xs acc acc' d : costs (loop stages states (x :: xs) acc) acc' d →
  ∃ o ex states' acc1 d1 d2, costs (through stages states false x) (o, ex, states') d1 ∧ match o with Some x => consume acc x | None => Ok acc end = Ok acc1 ∧
    costs (if ex : bool then eret acc1 else loop stages states' xs acc1) acc' d2 ∧ d = d1 + d2.
Proof.
  rewrite loop_cons. intros Ho. apply costs_bind_inv in Ho as ([[o ex] states'] & d1 & d2 & Ha & Ho & ->); [|apply metered_through|intros; apply metered_after].
  apply costs_lift_inv in Ho as (acc1 & Hc & Ho). by exists o, ex, states', acc1, d1, d2.
Qed.

Lemma loop_cons_costs stages states x xs acc acc' o ex states' acc1 d1 d2 : costs (through stages states false x) (o, ex, states') d1 →
  match o with Some x => consume acc x | None => Ok acc end = Ok acc1 → costs (if ex : bool then eret acc1 else loop stages states' xs acc1) acc' d2 →
  costs (loop stages states (x :: xs) acc) acc' (d1 + d2).
Proof. intros Ht Hc Hl. rewrite loop_cons. eapply costs_bind; [done|]. by eapply costs_lift. Qed.

(** *** Fusion: a stage before the loop, or inside it *)

Definition is_take (s : Stage) : bool := match s with StTake _ _ => true | _ => false end.

Lemma through_step s stages st states exhausted x : is_take s = false → through (s :: stages) (st :: states) exhausted x =
  ebind (step s x) (λ o, match o with Some x => ebind (through stages states exhausted x) (λ '(o, e, out), eret (o, e, st :: out)) | None => eret (None, exhausted, st :: states) end).
Proof. by destruct s. Qed.

Lemma each_cons_inv (f : X → eval (option X)) x xs xs' c : (∀ x, metered (f x)) → costs (each_row f (x :: xs)) xs' c →
  ∃ o rest c1 c2, costs (f x) o c1 ∧ costs (each_row f xs) rest c2 ∧ xs' = match o with Some x => x :: rest | None => rest end ∧ c = c1 + c2.
Proof.
  intros Hf Hr. cbn [each_row] in Hr. apply costs_bind_inv in Hr as (o & c1 & c2 & Hb & Hr & ->); [|done|by intros; apply metered_bind; [by apply metered_each_row|intros; apply metered_ret]].
  apply costs_bind_inv in Hr as (rest & c3 & c4 & Hr & He & ->); [|by apply metered_each_row|intros; apply metered_ret].
  destruct (costs_fun _ _ _ _ _ He (costs_ret _)) as [-> ->]. exists o, rest, c1, c3. split_and!; [done..|lia].
Qed.

Lemma fuse_step s stages st states xs xs' acc acc' c d : is_take s = false →
  costs (each_row (step s) xs) xs' c → costs (loop stages states xs' acc) acc' d →
  ∃ e, e ≤ c + d ∧ costs (loop (s :: stages) (st :: states) xs acc) acc' e.
Proof.
  intros Hs. revert xs' states acc c d. induction xs as [|x xs IH]; intros xs' states acc c d Hr Ho.
  { destruct (costs_fun _ _ _ _ _ Hr (costs_ret [])) as [-> ->]. exists d. split; [lia|done]. }
  apply each_cons_inv in Hr as (o & rest & c1 & c2 & Hx & Hr & -> & ->); [|done]. pose proof (proj1 Hx). pose proof (proj1 Hr). destruct o as [y|].
  - apply loop_cons_inv in Ho as (o & ex & states' & acc1 & d1 & d2 & Ha & Hc & Ho & ->).
    assert (Ha' : costs (through (s :: stages) (st :: states) false x) (o, ex, st :: states') (c1 + (d1 + 0))).
    { rewrite through_step by done. eapply costs_bind; [done|]. eapply costs_bind; [done|]. apply costs_ret. }
    destruct ex; [exists (c1 + (d1 + 0) + d2); split; [lia|by eapply loop_cons_costs]|].
    destruct (IH _ _ _ _ _ Hr Ho) as (e & Hle & Hcost). exists (c1 + (d1 + 0) + e). split; [lia|by eapply loop_cons_costs].
  - destruct (IH _ _ _ _ _ Hr Ho) as (e & Hle & Hcost). exists (c1 + 0 + e). split; [lia|]. eapply (loop_cons_costs _ _ _ _ _ _ None false); [|done|done].
    rewrite through_step by done. eapply costs_bind; [done|]. apply costs_ret.
Qed.

Lemma fuse_take offset limit stages seen emitted states xs acc acc' d : sized (StTake offset limit) → 0 ≤ seen < 2 ^ 64 → 0 ≤ emitted < 2 ^ 64 →
  costs (loop stages states (take (Z.to_nat (limit - emitted)) (drop (Z.to_nat (offset - seen)) xs)) acc) acc' d →
  ∃ e, e ≤ d ∧ costs (loop (StTake offset limit :: stages) (mkTakeState seen emitted :: states) xs acc) acc' e.
Proof.
  intros Ht. revert seen emitted states acc d. induction xs as [|x xs IH]; intros seen emitted states acc d Hseen Hem Ho.
  { rewrite drop_nil, take_nil in Ho. exists d. split; [lia|done]. }
  destruct Ht as [Hoff Hlim]. assert (Hsat : ∀ x, 0 ≤ x < 2 ^ 64 → x ≤ saturating_usize (x + 1) < 2 ^ 64) by (intros; unfold saturating_usize; lia).
  destruct (seen <? offset) eqn:E1.
  { replace (Z.to_nat (offset - seen)) with (S (Z.to_nat (offset - (seen + 1)))) in Ho by lia. cbn [drop] in Ho.
    assert (Es : saturating_usize (seen + 1) = seen + 1) by (unfold saturating_usize; lia). rewrite <-Es in Ho.
    assert (Hseen' := Hsat seen Hseen). apply IH in Ho as (e & Hle & Hcost); [|lia|done]. exists (0 + e). split; [lia|].
    eapply (loop_cons_costs _ _ _ _ _ _ None false); [|done|done]. cbn [through tk_seen tk_emitted]. rewrite E1. apply costs_ret. }
  replace (Z.to_nat (offset - seen)) with 0%nat in Ho by lia. cbn [drop] in Ho. destruct (emitted >=? limit) eqn:E2.
  { replace (Z.to_nat (limit - emitted)) with 0%nat in Ho by lia. cbn [take] in Ho. exists (0 + d). split; [lia|].
    eapply (loop_cons_costs _ _ _ _ _ _ None true); [|done|exact Ho]. cbn [through tk_seen tk_emitted]. rewrite E1, E2. apply costs_ret. }
  replace (Z.to_nat (limit - emitted)) with (S (Z.to_nat (limit - (emitted + 1)))) in Ho by lia. cbn [take] in Ho.
  apply loop_cons_inv in Ho as (o & ex & states' & acc1 & d1 & d2 & Ha & Hc & Ho & ->).
  assert (Es : saturating_usize (emitted + 1) = emitted + 1) by (unfold saturating_usize; lia).
  assert (Ha' : costs (through (StTake offset limit :: stages) (mkTakeState seen emitted :: states) false x)
    (o, (emitted + 1 =? limit) || ex, mkTakeState (saturating_usize (seen + 1)) (emitted + 1) :: states') (d1 + 0)).
  { cbn [through tk_seen tk_emitted]. rewrite E1, E2, Es. cbn [orb]. eapply costs_bind; [by apply costs_flag|]. apply costs_ret. }
  destruct (emitted + 1 =? limit) eqn:E3.
  - replace (Z.to_nat (limit - (emitted + 1))) with 0%nat in Ho by lia. cbn [take] in Ho. exists (d1 + 0 + d2). split; [lia|]. eapply loop_cons_costs; [done|done|]. by destruct ex.
  - destruct ex; [exists (d1 + 0 + d2); split; [lia|by eapply loop_cons_costs]|].
    assert (Hseen' := Hsat seen Hseen). rewrite <-(drop_0 xs) in Ho. replace 0%nat with (Z.to_nat (offset - saturating_usize (seen + 1))) in Ho by lia.
    apply IH in Ho as (e & Hle & Hcost); [|lia..]. exists (d1 + 0 + e). split; [lia|by eapply loop_cons_costs].
Qed.

Lemma loop_all xs acc acc' : foldR consume acc xs = Ok acc' → costs (loop [] [] xs acc) acc' 0.
Proof.
  revert acc. induction xs as [|x xs IH]; intros acc Hf; cbn [foldR] in Hf; [injection Hf as <-; apply costs_ret|]. apply bind_Ok in Hf as (acc1 & Hc & Hf).
  change 0 with (0 + 0). eapply (loop_cons_costs _ _ _ _ _ _ (Some x) false); [apply costs_ret|done|by apply IH].
Qed.

(** The loop does what evaluating the stages one after the other does, at no greater cost. *)
Theorem loop_staged stages xs xs' acc acc' c : Forall sized stages → costs (staged stages xs) xs' c → foldR consume acc xs' = Ok acc' →
  ∃ e, e ≤ c ∧ costs (loop stages (initial_takes stages) xs acc) acc' e.
Proof.
  intros Hs. revert xs c. induction Hs as [|s stages Ht Hs IH]; intros xs c Hc Hf.
  { destruct (costs_fun _ _ _ _ _ Hc (costs_ret _)) as [-> ->]. exists 0. split; [lia|]. by apply loop_all. }
  destruct (is_take s) eqn:Et.
  - destruct s; try done. cbn [staged] in Hc. destruct (IH _ _ Hc Hf) as (e & Hle & He). edestruct (fuse_take offset limit stages 0 0) as (e' & Hle' & He'); [done|lia|lia| |].
    { rewrite !Z.sub_0_r. exact He. } exists e'. split; [lia|done].
  - assert (Hc' : costs (ebind (each_row (step s) xs) (staged stages)) xs' c) by (by destruct s).
    apply costs_bind_inv in Hc' as (mid & c1 & c2 & Hmid & Hc' & ->); [|by apply metered_each_row|intros; apply metered_loop_staged].
    destruct (IH _ _ Hc' Hf) as (e & Hle & He). destruct (fuse_step s stages (mkTakeState 0 0) _ _ _ _ _ _ _ Et Hmid He) as (e' & Hle' & He'). exists e'. split; [lia|done].
Qed.
End loop.
