(* ===== verification/PagingLaws.v ===== *)
(** * Cursors resume where they were made, and pages partition the rows

    A cursor of src/src/pagination.rs is read back by the database that made it, for the
    query, schema and commit it was made for, and nothing else.  Following the cursors of
    the pages of a query visits every row once, in order, and ends; every page leads back
    to the one before it. *)
From Stdlib Require Import Ascii.
From stdpp Require Import sorting.
From S2P Require Import Prelude Bytes Text Utf8 Decimal Temporal Float64 BTree Scalars Model Coerce OrderedKey Codec Matching Coverage Expression IndexPredicate Typing EvalOps Database Query Access Tables Predicates Wire WireLaws Stages StageLaws Paging.

#[local] Strategy 1000 [MAX_DEPTH underlying field_type cmp_typed coerce].

(** ** What the libraries document *)

(** The levels of nesting of a wire value. *)
Fixpoint nesting (w : WireValue) : nat :=
  match w with
  | WVariant _ _ args => S (foldr (λ w n, Nat.max (nesting w) n) 0%nat args)
  | WRecord fields => S (foldr (λ e n, Nat.max (nesting e.2) n) 0%nat fields)
  | WTuple items | WList items => S (foldr (λ w n, Nat.max (nesting w) n) 0%nat items)
  | WMap entries => S (foldr (λ e n, Nat.max (nesting e.2) n) 0%nat entries)
  | WOption (Some w) | WNamed _ w => S (nesting w)
  | _ => 0%nat
  end.

(** serde_json reads up to 128 levels of objects and arrays; a wire value takes at most
    three levels for each of its own, and a payload three more. *)
Definition readable (keys : list CursorKey) : Prop := ∀ k, k ∈ keys → (nesting (ck_value k) ≤ 40)%nat.

(** What serde_json, the MAC and the base64 engine document: JSON that was written is
    read back, output consists of bytes, the URL-safe alphabet has no dot. *)
Class CursorLibLaws `{WireText} `{CursorLib} := {
  payload_roundtrip p bs : readable (cp_keys p) → payload_to_vec p = Some bs → payload_from_slice bs = Some p;
  payload_all_bytes p bs : payload_to_vec p = Some bs → all_bytes bs = true;
  hmac_all_bytes secret bs : all_bytes (hmac_sha256 secret bs) = true;
  base64_no_dot bs : all_bytes bs = true → 46 ∉ base64_engine_encode bs
}.

(** ** Cursors *)

Section cursors.
Context `{WT : WireText} {WL : WireTextLaws} `{CL : CursorLib} {CLL : CursorLibLaws}.

Lemma base64_text_decode bs : all_bytes bs = true → base64_engine_decode (as_bytes (base64_text bs)) = Some bs.
Proof. intros Hb. unfold base64_text. rewrite as_bytes_ascii by (by apply base64_ascii). by apply base64_roundtrip. Qed.

Lemma no_dot_bytes l : ascii_bytes l → 46 ∉ l → no_dot (of_bytes l) = true.
Proof.
  induction l as [|b l IH]; intros Ha Hd; [done|]. apply ascii_bytes_cons in Ha as [Hb Ha]. rewrite not_elem_of_cons in Hd. destruct Hd as [Hne Hd].
  specialize (IH Ha Hd). unfold no_dot in *. cbn [of_bytes rsplit_once]. destruct (rsplit_once _ _) as [[? ?]|]; [done|].
  destruct (Ascii.eqb_spec (ascii_of_byte b) ".") as [E|]; [|done]. exfalso. apply Hne. apply (f_equal byte_of_ascii) in E.
  unfold byte_of_ascii, ascii_of_byte in E. rewrite N_ascii_embedding in E by lia. change (Z.of_N (N_of_ascii ".")) with 46 in E. lia.
Qed.

Lemma split_token prefix payload signature : no_dot prefix = true → all_bytes payload = true → all_bytes signature = true →
  split_dots (cursor_token prefix payload signature) = [prefix; base64_text payload; base64_text signature].
Proof.
  intros Hp Hb Hs. assert (Hn : ∀ bs, all_bytes bs = true → no_dot (base64_text bs) = true)
    by (intros bs Hbs; apply no_dot_bytes; [by apply base64_ascii|by apply base64_no_dot]).
  unfold cursor_token. rewrite !append_cons, !append_nil. rewrite split_dots_app by done. rewrite split_dots_app by auto.
  by rewrite split_dots_no_dot by auto.
Qed.

Lemma cursor_codec_prefix keys : no_dot (cursor_codec keys).1 = true ∧ prefix_codec (cursor_codec keys).1 = Some (cursor_codec keys).2.
Proof. unfold cursor_codec. destruct (existsb _ _); [done|]. by destruct (existsb _ _). Qed.

Lemma cursor_encode_Ok identity schema sequence digest direction limit keys token :
  cursor_encode identity schema sequence digest direction limit keys = Ok token →
  zlen keys ≤ MAX_CURSOR_SORT_KEYS ∧ ∃ payload, payload_to_vec (cursor_payload identity schema sequence digest direction limit keys) = Some payload ∧
    zlen payload ≤ MAX_CURSOR_PAYLOAD_BYTES ∧ str_len token ≤ MAX_CURSOR_BYTES ∧
    token = cursor_token (cursor_codec keys).1 payload (hmac_sha256 (ci_secret identity) payload).
Proof.
  unfold cursor_encode. intros H. case_if_in H; [done|]. apply bind_Ok in H as (payload & Hp%ok_or_Ok & H). case_if_in H; [done|].
  cbv zeta in H. case_if_in H; [done|]. injection H as <-. bool_inv. split; [lia|]. exists payload. split_and!; [done|lia|lia|done].
Qed.

Lemma cursor_decode_cases identity schema sequence digest direction limit keys token identity' expected :
  all_bytes (ci_instance_id identity) = true → is_u64 (si_revision schema) = true → is_u64 sequence = true → readable keys →
  cursor_encode identity schema sequence digest direction limit keys = Ok token →
  ∃ payload, payload_to_vec (cursor_payload identity schema sequence digest direction limit keys) = Some payload ∧
    cursor_decode identity' token expected =
      if bool_decide (hmac_sha256 (ci_secret identity') payload ≠ hmac_sha256 (ci_secret identity) payload) then Err "E_CURSOR_INTEGRITY"
      else if bool_decide (ci_instance_id identity ≠ ci_instance_id identity') then Err "E_CURSOR_DATABASE"
      else if bool_decide (schema ≠ ce_schema expected) then Err "E_CURSOR_SCHEMA"
      else if bool_decide (digest ≠ ce_plan_digest expected ∨ direction ≠ ce_direction expected ∨ limit ≠ ce_limit expected) then Err "E_CURSOR_QUERY"
      else if bool_decide (sequence ≠ ce_snapshot_sequence expected) then Err "E_CURSOR_STALE"
      else Ok keys.
Proof.
  intros Hid Hrev Hseq Hread (Hk & payload & Hp & Hpl & Htl & ->)%cursor_encode_Ok. exists payload. split; [done|].
  pose proof (payload_all_bytes _ _ Hp) as Hpb. destruct (cursor_codec_prefix keys) as [Hnd Hpc].
  unfold cursor_decode. replace (str_len _ >? MAX_CURSOR_BYTES) with false by (symmetry; rewrite Z.gtb_ltb; by apply Z.ltb_ge).
  rewrite split_token by (done || apply hmac_all_bytes). cbn [hd_error mbind option_bind]. rewrite Hpc. cbn [ok_or]. rewrite bind_pure.
  rewrite !base64_text_decode by (done || apply hmac_all_bytes). cbn [ok_or]. rewrite !bind_pure.
  replace (zlen payload >? _) with false by (symmetry; rewrite Z.gtb_ltb; by apply Z.ltb_ge). unfold verify_signature.
  destruct (decide (hmac_sha256 (ci_secret identity') payload = hmac_sha256 (ci_secret identity) payload)) as [E|E];
    [rewrite (bool_decide_true _ E), (bool_decide_false (_ ≠ _)) by (by intros ?)|rewrite (bool_decide_false _ E), (bool_decide_true (_ ≠ _)) by done; done].
  rewrite bind_pure. rewrite (payload_roundtrip (cursor_payload identity schema sequence digest direction limit keys) payload Hread Hp). cbn [ok_or]. rewrite bind_pure.
  unfold cursor_payload. cbn [cp_codec cp_keys cp_database cp_schema_revision cp_schema_hash cp_plan_digest cp_direction cp_limit cp_snapshot_sequence].
  rewrite Z.eqb_refl. replace (zlen keys >? _) with false by (symmetry; rewrite Z.gtb_ltb; by apply Z.ltb_ge). cbn [negb].
  rewrite base64_text_decode by done. cbn [ok_or]. rewrite bind_pure. case_match; [done|]. unfold cursor_parse_u64. rewrite !parse_int_text by done. cbn [ok_or]. rewrite !bind_pure.
  replace (mkSchemaInfo (si_revision schema) (si_hash schema)) with schema by (by destruct schema). case_match; [done|].
  replace (_ || _ || _) with (bool_decide (digest ≠ ce_plan_digest expected ∨ direction ≠ ce_direction expected ∨ limit ≠ ce_limit expected)).
  - case_match; [done|]. destruct (Z.eqb_spec sequence (ce_snapshot_sequence expected)) as [E'|E']; cbn [negb]; [by rewrite bool_decide_false by (by intros ?)|by rewrite bool_decide_true].
  - destruct (Z.eqb_spec limit (ce_limit expected)) as [El|El]; repeat case_bool_decide; naive_solver.
Qed.

(** C29: a cursor is accepted exactly where it was made.  Whoever decodes a token that
    [encode] returned gets, in this order: an integrity error if its secret does not
    authenticate the payload, a database error in another database instance, a schema error
    under another schema, a query error for another query, direction or page size, and
    [E_CURSOR_STALE] once another commit has happened; and otherwise the sort keys that were
    encoded. *)
Theorem cursor_decode_encoded identity schema sequence digest direction limit keys token identity' expected :
  all_bytes (ci_instance_id identity) = true → is_u64 (si_revision schema) = true → is_u64 sequence = true → readable keys →
  cursor_encode identity schema sequence digest direction limit keys = Ok token →
  ∃ payload, payload_to_vec (cursor_payload identity schema sequence digest direction limit keys) = Some payload ∧
    cursor_decode identity' token expected =
      if bool_decide (hmac_sha256 (ci_secret identity') payload ≠ hmac_sha256 (ci_secret identity) payload) then Err "E_CURSOR_INTEGRITY"
      else if bool_decide (ci_instance_id identity ≠ ci_instance_id identity') then Err "E_CURSOR_DATABASE"
      else if bool_decide (schema ≠ ce_schema expected) then Err "E_CURSOR_SCHEMA"
      else if bool_decide (digest ≠ ce_plan_digest expected ∨ direction ≠ ce_direction expected ∨ limit ≠ ce_limit expected) then Err "E_CURSOR_QUERY"
      else if bool_decide (sequence ≠ ce_snapshot_sequence expected) then Err "E_CURSOR_STALE"
      else Ok keys.
Proof. apply cursor_decode_cases. Qed.
End cursors.

(** ** Other pages of the same query *)

Definition turn_stage (spec : PageSpec) (s : Stage) : Stage := match s with StPage _ => StPage spec | s => s end.
(** The query with another page. *)
Definition turn (spec : PageSpec) (p : Pipeline) : Pipeline := mkPipeline (pl_from p) (turn_stage spec <$> pl_stages p).

(** Reduce the conditionals whose tests a hypothesis decides. *)
Ltac rewrite_if := repeat match goal with H : ?b = ?c |- context [if ?b then _ else _] => match type of b with bool => rewrite H end end.

Section turn.
Context (spec : PageSpec).

Lemma existsb_turn test stages : (∀ s, test (turn_stage spec s) = test s) → existsb test (turn_stage spec <$> stages) = existsb test stages.
Proof. intros Ht. induction stages as [|s stages IH]; [done|]. cbn. by rewrite Ht, IH. Qed.

Lemma positions_turn test n stages : (∀ s, test (turn_stage spec s) = test s) → positions test n (turn_stage spec <$> stages) = positions test n stages.
Proof. intros Ht. revert n. induction stages as [|s stages IH]; intros n; [done|]. cbn. by rewrite Ht, IH. Qed.

Lemma leading_constraints_turn stages acc : leading_constraints (turn_stage spec <$> stages) acc = leading_constraints stages acc.
Proof.
  revert acc. induction stages as [|s stages IH]; intros acc; [done|]. destruct s; cbn; try done; [by destruct acc|].
  destruct (simple_index_comparison e) as [[[? ?] ?]|]; [apply IH|done].
Qed.

Lemma leading_atoms_turn `{TextLib} cat schema stages acc : leading_atoms cat schema (turn_stage spec <$> stages) acc = leading_atoms cat schema stages acc.
Proof. revert acc. induction stages as [|s stages IH]; intros acc; [done|]. destruct s; cbn; try done. destruct (collect_query_atoms _ _ _ _); [apply IH|done]. Qed.

Lemma skip_lets_turn stages n : skip_lets (turn_stage spec <$> stages) n = (turn_stage spec <$> (skip_lets stages n).1, (skip_lets stages n).2).
Proof. revert n. induction stages as [|s stages IH]; intros n; [done|]. by destruct s; cbn. Qed.

Lemma skip_filters_turn (stages : list Stage) n :
  skip_filters (turn_stage spec <$> stages) n = (λ '(stages, n), (turn_stage spec <$> (stages : list Stage), n)) <$> skip_filters stages n.
Proof. revert n. induction stages as [|s stages IH]; intros n; [done|]. destruct s; cbn; try done. destruct (simple_index_comparison e); cbn; [apply IH|done]. Qed.

Lemma index_sort_match_turn p components n : index_sort_match (turn spec p) components n = index_sort_match p components n.
Proof.
  unfold index_sort_match. cbn [turn pl_stages]. rewrite skip_lets_turn. destruct (skip_lets (pl_stages p) 0) as [stages position]. cbn [fst snd].
  rewrite skip_filters_turn. destruct (skip_filters stages position) as [[[|s stages'] position']|]; [done| |done]. cbn. by destruct s.
Qed.

Lemma page_unique_index_turn `{TextLib} db p n keys : page_unique_index db (turn spec p) n keys = page_unique_index db p n keys.
Proof.
  unfold page_unique_index. unfold leading_index_constraints, leading_query_predicate_atoms. cbn [turn pl_stages pl_from].
  rewrite leading_constraints_turn. destruct (table db (pl_from p)) as [t|]; cbn [mbind result_bind]; [|done]. rewrite leading_atoms_turn.
  destruct (leading_atoms _ _ _ _); [|done]. induction (definitions_of db (pl_from p)) as [|[k d] ds IH]; [done|]. cbn [existsb].
  rewrite IH, index_sort_match_turn. done.
Qed.

Lemma page_order_turn cat schema before keys : page_order cat schema (turn_stage spec <$> before) keys = page_order cat schema before keys.
Proof.
  unfold page_order. f_equal. revert schema. induction before as [|s before IH]; intros schema; [done|]. cbn.
  replace (page_columns cat schema (turn_stage spec s)) with (page_columns cat schema s) by (by destruct s).
  destruct (page_columns cat schema s); [apply IH|done].
Qed.

Lemma page_shape_turn `{TextLib} db p spec0 order : page_shape db p = Ok (Some (spec0, order)) → ps_limit spec = ps_limit spec0 →
  page_shape db (turn spec p) = Ok (Some (spec, order)).
Proof.
  unfold page_shape. cbn [turn pl_stages pl_from]. intros Hs Hl. rewrite positions_turn by (by intros []).
  destruct (positions is_page 0 (pl_stages p)) as [|i [|]]; [done| |done].
  rewrite <-!fmap_take, <-!fmap_drop, !existsb_turn by (by intros []). case_if_in Hs; [done|]. case_if_in Hs; [done|].
  rewrite list_lookup_fmap. destruct (pl_stages p !! i) as [[]|]; try done. cbn [turn_stage fmap option_fmap option_map mbind result_bind] in *.
  case_if_in Hs; [done|]. case_if_in Hs; [done|]. apply bind_Ok in Hs as (j & Hj & Hs). case_if_in Hs; [done|].
  apply bind_Ok in Hs as (keys & Hk & Hs). case_if_in Hs; [done|]. apply bind_Ok in Hs as (t & Ht & Hs). case_if_in Hs; [done|].
  apply bind_Ok in Hs as (order' & Ho & Hs). injection Hs as -> ->. rewrite Hl. rewrite_if.
  rewrite positions_turn by (by intros []). rewrite Hj, bind_pure, <-!fmap_drop, existsb_turn by (by intros []). rewrite_if.
  rewrite list_lookup_fmap. destruct (pl_stages p !! j) as [[]|]; try done. cbn [turn_stage fmap option_fmap option_map] in *. rewrite Hk, bind_pure. rewrite_if.
  rewrite Ht, bind_pure, <-fmap_take, page_unique_index_turn, page_order_turn, Ho, bind_pure.
  destruct (tbl_primary_key t); [rewrite existsb_turn by (by intros [])|]; by rewrite_if.
Qed.
End turn.

Lemma positions_elem test n stages i s : stages !! i = Some s → test s = true → (n + i)%nat ∈ positions test n stages.
Proof.
  revert n i. induction stages as [|s' stages IH]; intros n [|i] Hi Ht; try done.
  - injection Hi as ->. cbn. rewrite Ht, Nat.add_0_r. by left.
  - cbn. specialize (IH (S n) i Hi Ht). rewrite Nat.add_succ_comm in IH. destruct (test s'); [by right|done].
Qed.

Lemma page_shape_inv `{TextLib} db p spec order : page_shape db p = Ok (Some (spec, order)) →
  1 ≤ ps_limit spec ≤ MAX_PAGE_LIMIT ∧ ∀ spec', StPage spec' ∈ pl_stages p → spec' = spec.
Proof.
  unfold page_shape. intros Hs. destruct (positions is_page 0 (pl_stages p)) as [|i [|]] eqn:Ep; [done| |done].
  case_if_in Hs; [done|]. case_if_in Hs; [done|]. destruct (pl_stages p !! i) as [[]|] eqn:Ei; try done. rewrite bind_pure in Hs.
  case_if_in Hs; [done|]. case_if_in Hs; [done|]. apply bind_Ok in Hs as (j & Hj & Hs). case_if_in Hs; [done|].
  apply bind_Ok in Hs as (keys & Hk & Hs). case_if_in Hs; [done|]. apply bind_Ok in Hs as (t & Ht & Hs). case_if_in Hs; [done|].
  apply bind_Ok in Hs as (order' & Ho & Hs). injection Hs as -> ->. bool_inv. unrange. split; [done|].
  intros spec' (j' & Hj')%list_elem_of_lookup. pose proof (positions_elem is_page 0 _ j' _ Hj' eq_refl) as Hin. rewrite Ep in Hin.
  apply list_elem_of_singleton in Hin as E'. cbn in E'. subst j'. rewrite Ei in Hj'. by injection Hj'.
Qed.

Lemma page_plan_digest_turn `{PlanText} spec spec0 p direction : ps_limit spec = ps_limit spec0 → (∀ spec', StPage spec' ∈ pl_stages p → spec' = spec0) →
  page_plan_digest (turn spec p) direction = page_plan_digest p direction.
Proof.
  intros Hl Hp. unfold page_plan_digest. cbn [turn pl_stages pl_from]. rewrite <-list_fmap_compose.
  replace ((_ ∘ turn_stage spec) <$> pl_stages p) with ((λ s, match s with StPage page => StPage (mkPageSpec (ps_limit page) direction None) | s => s end) <$> pl_stages p); [done|].
  apply list_fmap_ext. intros i s Hi%list_elem_of_lookup_2. destruct s; try done. cbn. by rewrite (Hp _ Hi), Hl.
Qed.

(** [pages] cuts the rows into pages of [n], the last one with what is left. *)
Inductive paged {A} (n : nat) : list A → list (list A) → Prop :=
  | paged_last rows : (length rows ≤ n)%nat → paged n rows [rows]
  | paged_more page rows pages : length page = n → rows ≠ [] → paged n rows pages → paged n (page ++ rows) (page :: pages).

(** ** One page *)

(** [query_from_output] at the page stage. *)
Definition read_page `{TextLib} `{WireText} `{CursorLib} `{PlanText} (sn : Snapshot) (db : Database) (p : Pipeline) (rows : list Fields)
    : result (list Fields * PageInfo) :=
  page ← prepare_page sn db p;
  match page with Some page => apply_page sn (db_catalog db) rows page | None => Err "E_PAGE_SHAPE" end.

Lemma select_page_all (eligible : Fields → result bool) (e : Fields → bool) bound rows selected :
  (∀ row, row ∈ rows → eligible row = Ok (e row)) → (length selected < bound)%nat →
  select_page eligible (Z.of_nat bound) rows selected = Ok (selected ++ take (bound - length selected) (filter e rows)).
Proof.
  revert selected. induction rows as [|row rows IH]; intros selected He Hb; cbn [select_page]; [by rewrite filter_nil, take_nil, app_nil_r|].
  rewrite (He row) by (by left). rewrite bind_pure, filter_cons. destruct (e row) eqn:Er.
  - rewrite decide_True by done. cbv zeta. unfold zlen. rewrite length_app. cbn [length]. destruct (Z.eqb_spec (Z.of_nat (length selected + 1)) (Z.of_nat bound)).
    + replace (bound - length selected)%nat with 1%nat by lia. cbn. by rewrite take_0.
    + rewrite IH; [|intros; apply He; by right|rewrite length_app; cbn; lia]. rewrite length_app, <-app_assoc. cbn [app length].
      replace (bound - length selected)%nat with (S (bound - (length selected + 1))) by lia. done.
  - rewrite decide_False by (intros []). apply IH; [intros; apply He; by right|done].
Qed.

Section pages.
Context `{TL : TextLib} `{WT : WireText} {WL : WireTextLaws} `{CL : CursorLib} {CLL : CursorLibLaws} `{PT : PlanText}.
Context (sn : Snapshot) (db : Database) (p : Pipeline) (page : PreparedPage) (rows : list Fields).

Definition page_keys : list SortKey := po_key <$> pp_order page.

(** A prepared query whose rows come to its page stage sorted by the page's keys, no two
    of them with the same keys, and whose cursors fit. *)
Record paginated : Prop := {
  pq_catalog : wf_catalog (db_catalog db) = true;
  pq_identity : all_bytes (ci_instance_id (sn_identity sn)) = true;
  pq_revision : is_u64 (si_revision (sn_schema sn)) = true;
  pq_sequence : is_u64 (sn_sequence sn) = true;
  pq_prepared : prepare_page sn db p = Ok (Some page);
  pq_bound o : o ∈ pp_order page → sk_ty (po_key o) = Some (po_ty o) ∧ wf_type (po_ty o) = true;
  pq_sortable row : row ∈ rows → sortable (db_catalog db) page_keys row;
  pq_sorted : StronglySorted (λ l r, compare_rows_by_typed_keys (db_catalog db) page_keys l r = Ok Lt) rows;
  pq_readable row o v : row ∈ rows → o ∈ pp_order page → row_field row (sk_column (po_key o)) = Some v → (nesting (wire_from v) ≤ 40)%nat;
  pq_cursors row direction : row ∈ rows → is_ok (cursor_for_row sn page direction row) = true
}.

Context (Hp : paginated).

Definition token (direction : PageDirection) (row : Fields) : string :=
  match cursor_for_row sn page direction row with Ok token => token | Err _ => EmptyString end.

(** The values of the row that the keys select. *)
Definition boundary_of (row : Fields) (order : list BoundPageOrder) (boundary : list Value) : Prop :=
  Forall2 (λ o v, row_field row (sk_column (po_key o)) = Some v) order boundary.

Lemma bind_boundary_keys row order keys : row ∈ rows → order ⊆ pp_order page → mapR (cursor_key row) order = Ok keys →
  readable keys ∧ ∃ boundary, bind_boundary (db_catalog db) order keys = Ok boundary ∧ boundary_of row order boundary.
Proof.
  intros Hrow. revert keys. induction order as [|o order IH]; intros keys Hsub Hk; cbn [mapR] in Hk.
  { injection Hk as <-. split; [by intros k ?%elem_of_nil|]. exists []; split; [done|constructor]. }
  apply bind_Ok in Hk as (k & Hk & H'). apply bind_Ok in H' as (ks & Hks & [= <-]). destruct (IH ks) as (Hr & boundary & Hb & Hv); [intros o' Ho'; apply Hsub; by right|done|].
  unfold cursor_key in Hk. apply bind_Ok in Hk as (v & Hf%ok_or_Ok & [= <-]). assert (Ho : o ∈ pp_order page) by (apply Hsub; by left). split.
  { intros k [->|Hin]%elem_of_cons; [|by apply Hr]. cbn. by eapply pq_readable. }
  exists (v :: boundary). split; [|by constructor]. unfold bind_boundary in *. cbn [length Nat.eqb zip]. destruct (negb (length ks =? length order)%nat); [done|].
  cbn [zip zip_with mapR ck_column ck_field_path ck_descending ck_value]. rewrite String.eqb_refl, bool_decide_false by (by intros ?).
  rewrite eqb_reflx. cbn [negb orb]. destruct (pq_sortable Hp row Hrow (po_key o)) as (ty & v' & Ety & Ev & Wv & Cv); [unfold page_keys; by apply list_elem_of_fmap_2|].
  rewrite Hf in Ev. injection Ev as <-. destruct (pq_bound Hp o Ho) as [Eo Wo]. rewrite Ety in Eo. injection Eo as ->.
  rewrite wire_from_try_from; [|done|eapply conforms_transportable; [apply Hp|exact Wo|done|exact Cv]]. cbn [map_err]. rewrite bind_pure.
  rewrite coerce_stable by (done || apply Hp). rewrite bind_pure. by rewrite Hb.
Qed.

Lemma token_spec direction row : row ∈ rows → cursor_for_row sn page direction row = Ok (token direction row).
Proof. intros Hrow. pose proof (pq_cursors Hp row direction Hrow) as Hc. unfold token. by destruct (cursor_for_row _ _ _ _). Qed.

Lemma page_prepared : page_shape db p = Ok (Some (pp_spec page, pp_order page)) ∧ pp_forward_digest page = page_plan_digest p Forward ∧
  pp_backward_digest page = page_plan_digest p Backward.
Proof.
  pose proof (pq_prepared Hp) as H'. unfold prepare_page in H'. apply bind_Ok in H' as ([[spec order]|] & Hs & H'); [|done].
  cbv zeta in H'. apply bind_Ok in H' as (b & _ & [= <-]). done.
Qed.

Definition at_page (direction : PageDirection) (cursor : option string) : PageSpec := mkPageSpec (ps_limit (pp_spec page)) direction cursor.

Lemma prepare_resumed direction row : row ∈ rows → ∃ boundary, boundary_of row (pp_order page) boundary ∧
  prepare_page sn db (turn (at_page direction (Some (token direction row))) p) =
    Ok (Some (mkPreparedPage (at_page direction (Some (token direction row))) (pp_order page) (Some boundary) (pp_forward_digest page) (pp_backward_digest page))).
Proof.
  intros Hrow. destruct page_prepared as (Hs & Hf & Hb). pose proof (token_spec direction row Hrow) as Ht. unfold cursor_for_row in Ht.
  apply bind_Ok in Ht as (keys & Hk & Ht). destruct (bind_boundary_keys row (pp_order page) keys Hrow ltac:(done) Hk) as (Hr & boundary & Hbound & Hv).
  exists boundary. split; [done|]. unfold prepare_page. erewrite page_shape_turn; [|exact Hs|done]. rewrite bind_pure. cbv zeta.
  destruct (page_shape_inv _ _ _ _ Hs) as [_ Honly]. rewrite !(page_plan_digest_turn _ (pp_spec page)) by done. rewrite <-Hf, <-Hb.
  cbn [at_page ps_cursor ps_direction ps_limit].
  destruct (cursor_decode_cases _ _ _ _ _ _ _ _ (sn_identity sn) (mkCursorExpectation (sn_schema sn) (sn_sequence sn)
    (match direction with Forward => pp_forward_digest page | Backward => pp_backward_digest page end) direction (ps_limit (pp_spec page)))
    (pq_identity Hp) (pq_revision Hp) (pq_sequence Hp) Hr Ht) as (payload & _ & ->).
  cbn [ce_schema ce_snapshot_sequence ce_plan_digest ce_direction ce_limit]. rewrite !bool_decide_false by naive_solver. rewrite bind_pure, Hbound. done.
Qed.
(** *** The rows on a side of the boundary *)

Lemma compare_boundary row other order boundary c : (∀ o, o ∈ order → sk_ty (po_key o) = Some (po_ty o)) → boundary_of other order boundary →
  compare_rows_by_typed_keys (db_catalog db) (po_key <$> order) row other = Ok c → compare_page_boundary (db_catalog db) row order boundary = Ok c.
Proof.
  intros Hty Hb. revert c. induction Hb as [|o b order boundary Hob Hb IH]; intros c Hc; [done|]. cbn [fmap list_fmap compare_rows_by_typed_keys] in Hc.
  cbn [compare_page_boundary]. rewrite (Hty o) in Hc by (by left). cbn [ok_or] in Hc. rewrite bind_pure in Hc.
  apply bind_Ok in Hc as (v & Hv%ok_or_Ok & Hc). rewrite Hob in Hc. cbn [ok_or] in Hc. rewrite bind_pure in Hc. apply bind_Ok in Hc as (r & Hr & Hc).
  rewrite Hv. cbn [ok_or]. rewrite bind_pure, Hr. cbn [map_err]. rewrite bind_pure. destruct (rev_if (sk_descending (po_key o)) r); [|done..].
  apply IH; [intros o' Ho'; apply Hty; by right|done].
Qed.

Definition side (direction : PageDirection) (boundary row : Fields) : bool :=
  match direction with
  | Forward => bool_decide (codes_cmp (db_catalog db) page_keys row boundary = Gt)
  | Backward => bool_decide (codes_cmp (db_catalog db) page_keys row boundary = Lt)
  end.

Lemma rows_cmp l r : l ∈ rows → r ∈ rows → compare_rows_by_typed_keys (db_catalog db) page_keys l r = Ok (codes_cmp (db_catalog db) page_keys l r).
Proof. intros. apply compare_rows_codes; by apply Hp. Qed.

Lemma eligible_side direction x boundary spec fd bd row : x ∈ rows → row ∈ rows → boundary_of x (pp_order page) boundary → ps_direction spec = direction →
  page_eligible (db_catalog db) (mkPreparedPage spec (pp_order page) (Some boundary) fd bd) row = Ok (side direction x row).
Proof.
  intros Hx Hrow Hb Hd. unfold page_eligible. cbn [pp_boundary pp_order pp_spec]. rewrite Hd.
  erewrite compare_boundary; [|intros o Ho; by apply (pq_bound Hp)|exact Hb|by apply rows_cmp]. rewrite bind_pure. by destruct direction.
Qed.

Lemma rows_sorted : StronglySorted (λ l r, codes_cmp (db_catalog db) page_keys l r = Lt) rows.
Proof.
  apply (StronglySorted_in_impl _ _ _ (pq_sorted Hp)). intros l r Hl Hr Hlt. rewrite rows_cmp in Hlt by done. by injection Hlt.
Qed.

Lemma filter_all {A} (e : A → bool) (l : list A) : (∀ x, x ∈ l → e x = true) → filter e l = l.
Proof. induction l as [|x l IH]; intros He; [done|]. rewrite filter_cons, (He x) by (by left). rewrite decide_True by done. f_equal. apply IH. intros; apply He. by right. Qed.

Lemma filter_none {A} (e : A → bool) (l : list A) : (∀ x, x ∈ l → e x = false) → filter e l = [].
Proof. induction l as [|x l IH]; intros He; [done|]. rewrite filter_cons, (He x) by (by left). rewrite decide_False by (by intros []). apply IH. intros; apply He. by right. Qed.

Lemma split_sides pre x post : rows = pre ++ x :: post →
  (∀ row, row ∈ pre → codes_cmp (db_catalog db) page_keys row x = Lt) ∧ (∀ row, row ∈ post → codes_cmp (db_catalog db) page_keys row x = Gt).
Proof.
  intros Hr. pose proof rows_sorted as Hs. rewrite Hr in Hs. apply StronglySorted_app in Hs as (Hpre & _ & Hs). split.
  - intros row Hrow. apply Hpre; [done|by left].
  - inversion Hs as [|? ? _ Hall]; subst. rewrite list.Forall_forall in Hall. intros row Hrow. rewrite (pc_antisym x row). by rewrite Hall.
Qed.

Lemma filter_forward pre x post : rows = pre ++ x :: post → filter (side Forward x) rows = post.
Proof.
  intros Hr. destruct (split_sides pre x post Hr) as [H1' H2']. rewrite Hr, list.filter_app, filter_cons.
  rewrite (filter_none _ pre), (filter_all _ post) by (intros row Hrow; cbn [side]; by (rewrite ?H1', ?H2' by done)).
  rewrite decide_False; [done|]. cbn [side]. rewrite (pc_refl (codes_cmp (db_catalog db) page_keys) x). by intros [].
Qed.

Lemma filter_backward pre x post : rows = pre ++ x :: post → filter (side Backward x) (reverse rows) = reverse pre.
Proof.
  intros Hr. destruct (split_sides pre x post Hr) as [H1' H2']. rewrite Hr, reverse_app, reverse_cons, !list.filter_app.
  rewrite (filter_none _ (reverse post)), (filter_all _ (reverse pre)) by (intros row Hrow; rewrite elem_of_reverse in Hrow; cbn [side]; by (rewrite ?H1', ?H2' by done)).
  cbn [app]. rewrite filter_cons, decide_False; [done|]. cbn [side]. rewrite (pc_refl (codes_cmp (db_catalog db) page_keys) x). by intros [].
Qed.
(** *** The pages *)

Definition page_size : nat := Z.to_nat (ps_limit (pp_spec page)).

Lemma page_size_spec : (1 ≤ page_size)%nat ∧ ps_limit (pp_spec page) = Z.of_nat page_size ∧ saturating_usize (ps_limit (pp_spec page) + 1) = Z.of_nat (S page_size).
Proof.
  destruct page_prepared as (Hs & _). destruct (page_shape_inv _ _ _ _ Hs) as [[H1' H2'] _]. unfold page_size, saturating_usize, MAX_PAGE_LIMIT in *. lia.
Qed.

Lemma page_cursor_token page' direction wanted row : pp_order page' = pp_order page → pp_forward_digest page' = pp_forward_digest page →
  pp_backward_digest page' = pp_backward_digest page → ps_limit (pp_spec page') = ps_limit (pp_spec page) → (∀ r, row = Some r → r ∈ rows) →
  page_cursor sn page' direction wanted row = Ok (if wanted then token direction <$> row else None).
Proof.
  intros E1 E2 E3 E4 Hrow. unfold page_cursor. destruct row as [row|]; [|by destruct wanted]. destruct wanted; [|done].
  replace (cursor_for_row sn page' direction row) with (cursor_for_row sn page direction row) by (unfold cursor_for_row; by rewrite E1, E2, E3, E4).
  by rewrite token_spec by (by apply Hrow).
Qed.

Lemma forward_cut (post : list Fields) n : let more := zlen (take (S n) post) >? Z.of_nat n in
  more = (n <? length post)%nat ∧ (if more then removelast (take (S n) post) else take (S n) post) = take n post.
Proof.
  cbv zeta. unfold zlen. rewrite length_take. assert (E : (Z.of_nat (S n `min` length post) >? Z.of_nat n) = (n <? length post)%nat).
  { destruct (Nat.ltb_spec n (length post)); [apply Z.gtb_lt; lia|]. rewrite Z.gtb_ltb. apply Z.ltb_ge. lia. }
  rewrite E. split; [done|]. destruct (Nat.ltb_spec n (length post)); [by apply removelast_firstn|]. by rewrite !take_ge by lia.
Qed.

Lemma backward_cut (pre : list Fields) n : let selected := reverse (take (S n) (reverse pre)) in let more := zlen selected >? Z.of_nat n in
  more = (n <? length pre)%nat ∧ (if more then tail selected else selected) = drop (length pre - n) pre.
Proof.
  cbv zeta. unfold zlen. rewrite length_reverse, length_take, length_reverse.
  assert (E : (Z.of_nat (S n `min` length pre) >? Z.of_nat n) = (n <? length pre)%nat).
  { destruct (Nat.ltb_spec n (length pre)); [apply Z.gtb_lt; lia|]. rewrite Z.gtb_ltb. apply Z.ltb_ge. lia. }
  rewrite E. split; [done|]. rewrite reverse_take, reverse_involutive, length_reverse. destruct (Nat.ltb_spec n (length pre)).
  - replace (length pre - n)%nat with (S (length pre - S n)) by lia. generalize (length pre - S n)%nat. intros m. clear. revert m.
    induction pre as [|x pre IH]; intros [|m]; try done. cbn. apply IH.
  - replace (length pre - S n)%nat with 0%nat by lia. by replace (length pre - n)%nat with 0%nat by lia.
Qed.

(** Where a forward page starts. *)
Definition resumes (pre : list Fields) (cursor : option string) : Prop :=
  match cursor with None => pre = [] | Some cursor => ∃ x, list.last pre = Some x ∧ cursor = token Forward x end.

Lemma prepare_forward pre post cursor : rows = pre ++ post → resumes pre cursor → ∃ boundary e,
  let page' := mkPreparedPage (at_page Forward cursor) (pp_order page) boundary (pp_forward_digest page) (pp_backward_digest page) in
  prepare_page sn db (turn (at_page Forward cursor) p) = Ok (Some page') ∧ bool_decide (is_Some boundary) = bool_decide (is_Some cursor) ∧
  (∀ row, row ∈ rows → page_eligible (db_catalog db) page' row = Ok (e row)) ∧ filter (λ row, Is_true (e row)) rows = post.
Proof.
  intros Hr Hc. destruct cursor as [cursor|]; cbn [resumes] in Hc.
  - destruct Hc as (x & (pre' & ->)%last_Some & ->). rewrite <-app_assoc in Hr. cbn [app] in Hr.
    assert (Hx : x ∈ rows) by (rewrite Hr; apply elem_of_app; right; by left).
    destruct (prepare_resumed Forward x Hx) as (boundary & Hv & ->). exists (Some boundary), (side Forward x). cbv zeta. split_and!; [done|done| |by eapply filter_forward].
    intros row Hrow. by apply eligible_side.
  - subst pre. exists None, (λ _, true). cbv zeta. split_and!; [|done|done|by rewrite (filter_all (λ _, true)) by done].
    destruct page_prepared as (Hs & Hf & Hb). unfold prepare_page. erewrite page_shape_turn; [|exact Hs|done]. rewrite bind_pure. cbv zeta.
    destruct (page_shape_inv _ _ _ _ Hs) as [_ Honly]. rewrite !(page_plan_digest_turn _ (pp_spec page)) by done. by rewrite <-Hf, <-Hb.
Qed.

Lemma forward_page pre post cursor : rows = pre ++ post → resumes pre cursor →
  read_page sn db (turn (at_page Forward cursor) p) rows = Ok (take page_size post,
    mkPageInfo (ps_limit (pp_spec page)) Forward (int_text (sn_sequence sn))
      (if (page_size <? length post)%nat then token Forward <$> list.last (take page_size post) else None)
      (if bool_decide (is_Some cursor) then token Backward <$> head (take page_size post) else None) (page_size <? length post)%nat).
Proof.
  intros Hr Hc. destruct page_size_spec as (Hn & El & Eb). destruct (prepare_forward pre post cursor Hr Hc) as (boundary & e & Hprep & Hres & He & Hfilter).
  unfold read_page. rewrite Hprep, bind_pure. unfold apply_page. cbn [pp_spec at_page ps_limit ps_direction pp_boundary]. rewrite Eb.
  rewrite (select_page_all _ e) by (done || (cbn; lia)). cbn [app length]. rewrite bind_pure, Nat.sub_0_r, Hfilter. cbv zeta.
  destruct (forward_cut post page_size) as [Em Ecut]. rewrite <-El in Em, Ecut. rewrite Ecut, Em, Hres.
  assert (Hin : ∀ r, r ∈ take page_size post → r ∈ rows) by (intros r Hr'; rewrite Hr; apply elem_of_app; right; rewrite <-(take_drop page_size post); apply elem_of_app; by left).
  rewrite !page_cursor_token by (try done; intros r Hr'; apply Hin; first [by apply last_Some_elem_of|by apply head_Some_elem_of]). by rewrite !bind_pure.
Qed.

Lemma backward_page pre x post : rows = pre ++ x :: post →
  read_page sn db (turn (at_page Backward (Some (token Backward x))) p) rows = Ok (drop (length pre - page_size) pre,
    mkPageInfo (ps_limit (pp_spec page)) Backward (int_text (sn_sequence sn))
      (token Forward <$> list.last (drop (length pre - page_size) pre))
      (if (page_size <? length pre)%nat then token Backward <$> head (drop (length pre - page_size) pre) else None) (page_size <? length pre)%nat).
Proof.
  intros Hr. destruct page_size_spec as (Hn & El & Eb). assert (Hx : x ∈ rows) by (rewrite Hr; apply elem_of_app; right; by left).
  destruct (prepare_resumed Backward x Hx) as (boundary & Hv & Hprep).
  unfold read_page. rewrite Hprep, bind_pure. unfold apply_page. cbn [pp_spec at_page ps_limit ps_direction pp_boundary]. rewrite Eb.
  rewrite (select_page_all _ (side Backward x)) by ((cbn; lia) || (intros row Hrow; rewrite elem_of_reverse in Hrow; by apply eligible_side)).
  cbn [app length fmap result_fmap]. rewrite bind_pure, Nat.sub_0_r, (filter_backward pre x post Hr). cbv zeta.
  destruct (backward_cut pre page_size) as [Em Ecut]. rewrite <-El in Em, Ecut. rewrite Ecut, Em.
  assert (Hin : ∀ r, r ∈ drop (length pre - page_size) pre → r ∈ rows) by (intros r Hr'; rewrite Hr; apply elem_of_app; left; rewrite <-(take_drop (length pre - page_size) pre); apply elem_of_app; by right).
  rewrite !page_cursor_token by (try done; intros r Hr'; apply Hin; first [by apply last_Some_elem_of|by apply head_Some_elem_of]). by rewrite !bind_pure.
Qed.
(** *** Following the cursors *)

(** A client that reads a page and follows [next_page] until there is none. *)
Fixpoint walk (fuel : nat) (spec : PageSpec) : result (list (list Fields * PageInfo)) :=
  match fuel with
  | O => Err "out of fuel"
  | S fuel =>
      '(selected, info) ← read_page sn db (turn spec p) rows;
      match next_page info with
      | None => Ok [(selected, info)]
      | Some spec => rest ← walk fuel spec; Ok ((selected, info) :: rest)
      end
  end.

(** [after] is the page that follows [before], and its [info] leads back. *)
Definition adjacent (before after : list Fields) (info : PageInfo) : Prop :=
  ∃ pre post x, rows = pre ++ before ++ after ++ post ∧ length before = page_size ∧ head after = Some x ∧
    take page_size (after ++ post) = after ∧ previous_page info = Some (at_page Backward (Some (token Backward x))).

Lemma walk_from fuel pre post cursor : rows = pre ++ post → resumes pre cursor → (length post < fuel)%nat →
  ∃ info rest, walk fuel (at_page Forward cursor) = Ok ((take page_size post, info) :: rest) ∧
    paged page_size post (take page_size post :: rest.*1) ∧
    (is_Some cursor → previous_page info = (λ x, at_page Backward (Some (token Backward x))) <$> head (take page_size post)) ∧
    ∀ i before after info', (take page_size post :: rest.*1) !! i = Some before → rest !! i = Some (after, info') → adjacent before after info'.
Proof.
  destruct page_size_spec as (Hn & El & _). revert pre post cursor. induction fuel as [|fuel IH]; intros pre post cursor Hr Hc Hf; [lia|].
  cbn [walk]. rewrite (forward_page pre post cursor Hr Hc), bind_pure. unfold next_page. cbn [pi_next_cursor pi_limit].
  destruct (Nat.ltb_spec page_size (length post)) as [Hlt|Hge].
  - destruct (list.last (take page_size post)) as [x|] eqn:Elast; [|apply last_None in Elast; apply (f_equal length) in Elast; rewrite length_take in Elast; cbn in Elast; lia].
    cbn [fmap option_fmap option_map]. fold (at_page Forward (Some (token Forward x))).
    destruct (IH (pre ++ take page_size post) (drop page_size post) (Some (token Forward x))) as (info & rest & Hw & Hpaged & Hprev & Hadj).
    { by rewrite <-app_assoc, take_drop. } { exists x. split; [|done]. by rewrite last_app, Elast. } { rewrite length_drop. lia. }
    rewrite Hw, bind_pure. eexists _, _. split_and!; [done| | |].
    + rewrite <-(take_drop page_size post) at 1. cbn [fmap list_fmap fst]. apply paged_more; [rewrite length_take; lia| |done].
      intros E%(f_equal length). rewrite length_drop in E. cbn in E. lia.
    + intros Hs. unfold previous_page. cbn [pi_previous_cursor pi_limit]. rewrite bool_decide_true by done. by destruct (head (take page_size post)).
    + intros [|i] before after info' Hb Ha; [|by apply (Hadj i)]. cbn in Hb, Ha. injection Hb as <-. injection Ha as <- <-.
      destruct (drop page_size post) as [|y rest'] eqn:Ed; [apply (f_equal length) in Ed; rewrite length_drop in Ed; cbn in Ed; lia|].
      exists pre, (drop page_size (y :: rest')), y. split_and!.
      * rewrite take_drop, <-Ed, take_drop. done.
      * rewrite length_take. lia.
      * destruct page_size; [lia|done].
      * rewrite take_drop. done.
      * rewrite Hprev by done. destruct page_size; [lia|done].
  - cbn [fmap option_fmap option_map]. eexists _, []. split_and!; [done| | |done].
    + rewrite take_ge by lia. by apply paged_last.
    + intros Hs. unfold previous_page. cbn [pi_previous_cursor pi_limit]. rewrite bool_decide_true by done. by destruct (head (take page_size post)).
Qed.
End pages.

(** C15: following the cursors of a paginated query ends and visits every row once.  The
    query has passed [prepare_page], its rows come sorted by the keys of the page with no
    two equal, and its cursors fit the limits.  Then reading the first page and following
    [next_page] ends within as many steps as there are rows, every cursor is accepted, and
    the pages cut the rows, in order, into full pages and a last one; and from every page
    but the first, [previous_page] reads exactly the page before it, whose [next_page]
    reads it again. *)
Theorem page_traversal `{TL : TextLib} `{WT : WireText} `{!WireTextLaws} `{CL : CursorLib} `{!CursorLibLaws} `{PT : PlanText} sn db p page rows :
  paginated sn db p page rows →
  ∃ visited, walk sn db p rows (S (length rows)) (at_page page Forward None) = Ok visited ∧ paged (page_size page) rows visited.*1 ∧
    ∀ i before after info, visited.*1 !! i = Some before → visited !! S i = Some (after, info) →
      ∃ back info', previous_page info = Some back ∧ read_page sn db (turn back p) rows = Ok (before, info') ∧
      ∃ forth info'', next_page info' = Some forth ∧ read_page sn db (turn forth p) rows = Ok (after, info'').
Proof.
  intros Hp. destruct (page_size_spec _ _ _ _ _ Hp) as (Hn & _).
  destruct (walk_from _ _ _ _ _ Hp (S (length rows)) [] rows None eq_refl eq_refl ltac:(lia)) as (info & rest & Hw & Hpaged & _ & Hadj).
  eexists. split; [exact Hw|]. split; [exact Hpaged|]. intros i before after info' Hb Ha. destruct (Hadj i before after info' Hb Ha) as (pre & post & x & Hr & Hl & Hx & Ht & ->).
  destruct after as [|x' after]; [done|]. injection Hx as ->. rewrite app_assoc in Hr.
  assert (Eback : drop (length (pre ++ before) - page_size page) (pre ++ before) = before)
    by (rewrite length_app, Hl, Nat.add_sub; apply drop_app_length).
  pose proof (backward_page _ _ _ _ _ Hp (pre ++ before) x (after ++ post) Hr) as Hback. rewrite Eback in Hback.
  eexists _, _. split; [done|]. split; [exact Hback|]. destruct (list.last before) as [y|] eqn:Ey; [|apply last_None in Ey as ->; cbn in Hl; lia].
  exists (at_page page Forward (Some (token sn page Forward y))). eexists. split; [done|].
  erewrite (forward_page _ _ _ _ _ Hp (pre ++ before) ((x :: after) ++ post)); [by rewrite Ht|exact Hr|].
  exists y. by rewrite last_app, Ey.
Qed.

(** ** Witnesses *)

(** Libraries that satisfy the laws: payloads with small integer keys, each string with
    its length before it. *)
Definition put_text (s : string) : list Z := str_len s :: as_bytes s.
Definition get_text (l : list Z) : option (string * list Z) :=
  match l with n :: l => Some (of_bytes (take (Z.to_nat n) l), drop (Z.to_nat n) l) | [] => None end.
Definition get_byte (l : list Z) : option (Z * list Z) := match l with b :: l => Some (b, l) | [] => None end.

Definition put_key (k : CursorKey) : list Z :=
  zlen (ck_field_path k) :: ck_field_path k ++ put_text (ck_column k) ++ [if ck_descending k then 1 else 0] ++ match ck_value k with WInt s => put_text s | _ => [] end.
Fixpoint get_keys (n : nat) (l : list Z) : option (list CursorKey) :=
  match n with
  | O => Some []
  | S n =>
      '(length, l) ← get_byte l; let path := take (Z.to_nat length) l in
      '(column, l) ← get_text (drop (Z.to_nat length) l); '(descending, l) ← get_byte l; '(value, l) ← get_text l;
      keys ← get_keys n l; Some (mkCursorKey path column (descending =? 1) (WInt value) :: keys)
  end.

Definition put_payload (p : CursorPayload) : list Z :=
  [cp_codec p] ++ put_text (cp_database p) ++ put_text (cp_schema_revision p) ++ put_text (cp_schema_hash p) ++ put_text (cp_snapshot_sequence p) ++
  put_text (cp_plan_digest p) ++ [match cp_direction p with Forward => 1 | Backward => 0 end; cp_limit p; zlen (cp_keys p)] ++ flat_map put_key (cp_keys p).
Definition get_payload (l : list Z) : option CursorPayload :=
  '(codec, l) ← get_byte l; '(database, l) ← get_text l; '(revision, l) ← get_text l; '(hash, l) ← get_text l; '(sequence, l) ← get_text l;
  '(digest, l) ← get_text l; '(direction, l) ← get_byte l; '(limit, l) ← get_byte l; '(n, l) ← get_byte l; keys ← get_keys (Z.to_nat n) l;
  Some (mkCursorPayload codec database revision hash sequence digest (if direction =? 1 then Forward else Backward) limit keys).

Definition key_eqb (k l : CursorKey) : bool :=
  bool_decide (ck_field_path k = ck_field_path l) && String.eqb (ck_column k) (ck_column l) && Bool.eqb (ck_descending k) (ck_descending l) &&
  match ck_value k, ck_value l with WInt s, WInt t => String.eqb s t | _, _ => false end.
Definition payload_eqb (p q : CursorPayload) : bool :=
  (cp_codec p =? cp_codec q) && String.eqb (cp_database p) (cp_database q) && String.eqb (cp_schema_revision p) (cp_schema_revision q) &&
  String.eqb (cp_schema_hash p) (cp_schema_hash q) && String.eqb (cp_snapshot_sequence p) (cp_snapshot_sequence q) &&
  String.eqb (cp_plan_digest p) (cp_plan_digest q) && bool_decide (cp_direction p = cp_direction q) && (cp_limit p =? cp_limit q) &&
  all2 key_eqb (cp_keys p) (cp_keys q).

Lemma key_eqb_eq k l : key_eqb k l = true → k = l.
Proof.
  unfold key_eqb. intros H. bool_inv. destruct k as [? ? ? []], l as [? ? ? []]; cbn in *; try done. bool_inv. subst.
  match goal with H : Bool.eqb _ _ = true |- _ => apply eqb_prop in H end. by subst.
Qed.

Lemma payload_eqb_eq p q : payload_eqb p q = true → p = q.
Proof.
  assert (Hk : ∀ ks ls, all2 key_eqb ks ls = true → ks = ls).
  { induction ks as [|k ks IH]; intros [|l ls] H; try done. cbn in H. bool_inv. f_equal; [by apply key_eqb_eq|by apply IH]. }
  unfold payload_eqb. intros H. bool_inv. destruct p, q; cbn in *. by f_equal; [..|apply Hk].
Qed.

#[local] Instance example_cursor_lib : CursorLib :=
  {| payload_to_vec p := let bs := put_payload p in
       if all_bytes bs && match get_payload bs with Some q => payload_eqb q p | None => false end then Some bs else None;
     payload_from_slice := get_payload;
     hmac_sha256 secret payload := [foldl (λ h b, (h * 31 + b) `mod` 251) 7 (secret ++ payload)] |}.

#[local] Existing Instances example_wire_text example_wire_laws.
#[local] Instance example_page_text : TextLib := {| to_lowercase := id; to_uppercase := id; trim := id; float_debug _ := EmptyString |}.
#[local] Instance example_plan_text : PlanText := {| format_pipeline := pl_from; sha256_hex := id |}.

Lemma sextets_range l b : all_bytes l = true → b ∈ sextets l → 48 ≤ b.
Proof.
  induction l as [|a|a b'|a b' c l IH] using bytes_three_ind; intros H Hb; unfold all_bytes in H; simpl in H; bool_inv;
    repeat match goal with H : is_byte _ = true |- _ => apply is_byte_spec in H end; cbn [sextets app] in Hb;
    repeat (apply elem_of_cons in Hb as [->|Hb]; [Z.div_mod_to_equations; lia|]); [by apply elem_of_nil in Hb..|by apply IH].
Qed.

#[local] Instance example_cursor_laws : CursorLibLaws.
Proof.
  split.
  - intros p bs _ H. cbn [payload_to_vec payload_from_slice example_cursor_lib] in *. cbv zeta in H. destruct (get_payload (put_payload p)) as [q|] eqn:E.
    + case_if_in H; [|done]. injection H as <-. rewrite E. bool_inv. f_equal. by apply payload_eqb_eq.
    + by rewrite andb_false_r in H.
  - intros p bs H. cbn [payload_to_vec example_cursor_lib] in H. cbv zeta in H. case_if_in H; [|done]. injection H as <-. by apply andb_true_iff in E as [E _].
  - intros secret bs. cbn. rewrite andb_true_r. apply is_byte_spec. generalize (secret ++ bs). intros text.
    assert (Hg : ∀ l h, 0 ≤ h < 251 → 0 ≤ foldl (λ h b, (h * 31 + b) `mod` 251) h l < 251).
    { intros l. induction l as [|b l' IH]; intros h Hh; [exact Hh|]. cbn. apply IH. apply Z.mod_pos_bound. lia. }
    specialize (Hg text 7 ltac:(lia)). lia.
  - intros bs Hb Hin%sextets_range; [lia|done].
Qed.

Definition example_snapshot : Snapshot := mkSnapshot (mkCursorIdentity (replicate 16 7) (replicate 32 9)) (mkSchemaInfo 3 "sha256:test") 8.
Definition example_key : CursorKey := mkCursorKey [1] "id" false (WInt "42").

Lemma cursor_decode_encoded_witness : ∃ token,
  cursor_encode (sn_identity example_snapshot) (sn_schema example_snapshot) 8 "plan" Forward 20 [example_key] = Ok token ∧
  cursor_decode (sn_identity example_snapshot) token (mkCursorExpectation (sn_schema example_snapshot) 8 "plan" Forward 20) = Ok [example_key] ∧
  cursor_decode (sn_identity example_snapshot) token (mkCursorExpectation (sn_schema example_snapshot) 9 "plan" Forward 20) = Err "E_CURSOR_STALE".
Proof.
  eexists. split; [vm_compute; reflexivity|].
  assert (Hr : readable [example_key]) by (intros k ->%list_elem_of_singleton; cbn; lia). split.
  - edestruct (cursor_decode_encoded (sn_identity example_snapshot) (sn_schema example_snapshot) 8 "plan" Forward 20 [example_key]) as (payload & Hp & ->);
      [reflexivity..|exact Hr|vm_compute; reflexivity|]. vm_compute in Hp. injection Hp as <-. vm_compute. reflexivity.
  - edestruct (cursor_decode_encoded (sn_identity example_snapshot) (sn_schema example_snapshot) 8 "plan" Forward 20 [example_key]) as (payload & Hp & ->);
      [reflexivity..|exact Hr|vm_compute; reflexivity|]. vm_compute in Hp. injection Hp as <-. vm_compute. reflexivity.
Defined.

(** Five rows by descending score, two on a page. *)
Definition example_game (id score : Z) : Fields := [("id", VInt id); ("score", VInt score)].
Definition example_games : list Fields := [example_game 3 9; example_game 1 5; example_game 4 5; example_game 2 1; example_game 5 0].
Definition example_game_columns : Columns := [Column "id" TInt None 1; Column "score" TInt None 2].
Definition example_game_db : Database :=
  mkDatabase [] [] [] None 0 [("games", mkTable 1 "games" example_game_columns [] 1 None (Some "id") [])] [] [] default_catalog empty_write_set.
Definition example_game_query : Pipeline :=
  mkPipeline "games" [StSort [mkSortKey "score" true (Some TInt); mkSortKey "id" false (Some TInt)]; StPage (mkPageSpec 2 Forward None); StSelect ["id"]].
Definition example_game_page : PreparedPage :=
  mkPreparedPage (mkPageSpec 2 Forward None)
    [mkBoundPageOrder (mkSortKey "score" true (Some TInt)) [2] TInt; mkBoundPageOrder (mkSortKey "id" false (Some TInt)) [1] TInt] None
    (page_plan_digest example_game_query Forward) (page_plan_digest example_game_query Backward).

Lemma example_paginated : paginated example_snapshot example_game_db example_game_query example_game_page example_games.
Proof.
  assert (Hcase : ∀ P : Fields → Prop, P (example_game 3 9) → P (example_game 1 5) → P (example_game 4 5) → P (example_game 2 1) → P (example_game 5 0) → ∀ row, row ∈ example_games → P row).
  { intros P ????? row Hrow. repeat (apply elem_of_cons in Hrow as [->|Hrow]; [done|]). by apply elem_of_nil in Hrow. }
  split; try reflexivity.
  - intros o Ho. by repeat (apply elem_of_cons in Ho as [->|Ho]; [by split|]); apply elem_of_nil in Ho.
  - apply Hcase; intros key Hk; repeat (apply elem_of_cons in Hk as [->|Hk]; [exists TInt; eexists; split_and!; [done|vm_compute; reflexivity..]|]); by apply elem_of_nil in Hk.
  - repeat (apply SSorted_cons; [|repeat (apply list.Forall_cons; split; [vm_compute; reflexivity|]); constructor]). constructor.
  - intros row o v Hrow Ho Hv. revert row Hrow Hv. apply (Hcase (λ row, _ → _)); intros Hv; repeat (apply elem_of_cons in Ho as [->|Ho]; [vm_compute in Hv; injection Hv as <-; cbn; lia|]); by apply elem_of_nil in Ho.
  - intros row d. revert row. apply Hcase; destruct d; vm_compute; reflexivity.
Qed.

Lemma page_traversal_witness : paginated example_snapshot example_game_db example_game_query example_game_page example_games ∧
  ∃ visited, walk example_snapshot example_game_db example_game_query example_games 6 (at_page example_game_page Forward None) = Ok visited ∧
    visited.*1 = [[example_game 3 9; example_game 1 5]; [example_game 4 5; example_game 2 1]; [example_game 5 0]].
Proof.
  split; [exact example_paginated|]. destruct (page_traversal _ _ _ _ _ example_paginated) as (visited & Hw & _). exists visited. split; [exact Hw|].
  vm_compute in Hw. injection Hw as <-. vm_compute. reflexivity.
Defined.
