(* ===== verification/WindowLaws.v ===== *)
(** * Windows rank by counting

    [apply_window] of src/src/db.rs numbers each partition with running counters; here its
    results are the counts that define [row_number], [rank] and [dense_rank]. *)
From stdpp Require Import sorting.
From S2P Require Import Prelude Bytes Text Decimal Temporal Scalars Float64 BTree Model Coerce OrderedKey Codec Matching Coverage Expression Typing EvalOps Database Query Access Tables Predicates Wire WireLaws Stages StageLaws.

#[local] Strategy 1000 [MAX_DEPTH underlying field_type cmp_typed coerce].

(** ** Counting in a sorted partition *)

Definition count {A} (f : A → bool) (l : list A) : Z := zlen (List.filter f l).

Lemma count_perm {A} (f : A → bool) l k : l ≡ₚ k → count f l = count f k.
Proof.
  unfold count, zlen. intros Hp. f_equal.
  induction Hp as [|x l k _ IH|x y l|l k m _ IH1 _ IH2]; simpl; [done|by destruct (f x); simpl; rewrite IH|by destruct (f x), (f y)|congruence].
Qed.

Lemma count_app {A} (f : A → bool) l k : count f (l ++ k) = count f l + count f k.
Proof. unfold count. rewrite List.filter_app. apply zlen_app. Qed.

Lemma count_ext {A} (f g : A → bool) l : (∀ x, x ∈ l → f x = g x) → count f l = count g l.
Proof.
  unfold count. intros Hfg. f_equal. induction l as [|x l IH]; [done|]. simpl. rewrite (Hfg x) by (by left). rewrite IH; [done|]. intros y Hy. apply Hfg. by right.
Qed.

Lemma count_none {A} (f : A → bool) l : (∀ x, x ∈ l → f x = false) → count f l = 0.
Proof. intros Hf. rewrite (count_ext f (λ _, false)) by done. unfold count. clear Hf. by induction l as [|x l IH]. Qed.

Lemma count_all {A} (f : A → bool) l : (∀ x, x ∈ l → f x = true) → count f l = zlen l.
Proof. intros Hf. rewrite (count_ext f (λ _, true)) by done. unfold count. f_equal. induction l as [|x l IH]; [done|]. simpl. f_equal. apply IH. intros y Hy. apply Hf. by right. Qed.

Section ranks.
Context (c : nat → nat → comparison) `{!Preorder_cmp c}.

Definition is_lt (i j : nat) : bool := match c i j with Lt => true | _ => false end.
Definition is_eq (i j : nat) : bool := match c i j with Eq => true | _ => false end.

(** The order of a stable sort: ties by position. *)
Definition before (i j : nat) : bool := is_lt i j || (is_eq i j && (i <? j)%nat).

(** The first of the rows that compare equal to it. *)
Definition leader (peers : list nat) (i : nat) : bool := forallb (λ j, implb (is_eq j i) (i <=? j)%nat) peers.

Definition row_number_of (peers : list nat) (i : nat) : Z := 1 + count (λ j, before j i) peers.
Definition rank_of (peers : list nat) (i : nat) : Z := 1 + count (λ j, is_lt j i) peers.
Definition dense_rank_of (peers : list nat) (i : nat) : Z := 1 + count (λ j, is_lt j i && leader peers j) peers.

(** The running counters of the loop over a sorted partition. *)
Fixpoint numbers (previous : option nat) (position rank dense : Z) (indexes : list nat) : list (nat * (Z * Z * Z)) :=
  match indexes with
  | [] => []
  | i :: indexes =>
      let '(rank, dense) :=
        match previous with
        | Some p => if is_eq p i then (rank, dense) else (position + 1, saturating_usize (dense + 1))
        | None => (rank, dense)
        end in
      (i, (position + 1, rank, dense)) :: numbers (Some i) (position + 1) rank dense indexes
  end.

Lemma is_eq_l i j k : is_eq i j = true → c i k = c j k.
Proof. unfold is_eq. destruct (c i j) eqn:E; [|done..]. intros _. by apply pc_Eq_l. Qed.

Lemma is_eq_sym i j : is_eq i j = is_eq j i.
Proof. unfold is_eq. rewrite (pc_antisym i j). by destruct (c i j). Qed.

Lemma is_eq_r i j k : is_eq i j = true → c k i = c k j.
Proof. intros E. rewrite (pc_antisym i k), (pc_antisym j k). f_equal. by apply is_eq_l. Qed.

Lemma before_asym i j : before i j = true → before j i = false.
Proof.
  unfold before, is_lt, is_eq. rewrite (pc_antisym i j). destruct (c i j); cbn [CompOpp orb andb]; [|done..]. intros H%Nat.ltb_lt. apply Nat.ltb_ge. lia.
Qed.

Lemma before_not_eq_lt i j : before i j = true → is_eq i j = false → is_lt i j = true.
Proof. unfold before. destruct (is_lt i j), (is_eq i j); done. Qed.

Lemma before_le i j : before i j = true → c i j ≠ Gt.
Proof. unfold before, is_lt, is_eq. by destruct (c i j). Qed.

Lemma le_lt_lt i j k : c i j ≠ Gt → is_lt j k = true → is_lt i k = true.
Proof.
  intros Hle Hlt. unfold is_lt in *. destruct (c j k) eqn:E; [done| |done]. destruct (c i k) eqn:E2; [|done|].
  - exfalso. by rewrite (pc_Eq_l c i k j E2), (pc_antisym j k), E in Hle.
  - exfalso. apply (pc_trans i j k); [done|by rewrite E|done].
Qed.

Section sorted.
Context (l : list nat).
Hypothesis Hsorted : StronglySorted (λ i j, before i j = true) l.

Lemma sorted_split pre i post : l = pre ++ i :: post → (∀ j, j ∈ pre → before j i = true) ∧ (∀ j, j ∈ post → before i j = true).
Proof.
  intros ->. clear -Hsorted. induction pre as [|p pre IH]; inversion Hsorted as [|? ? Hs Hp]; subst.
  - split; [intros j Hj; by apply elem_of_nil in Hj|]. by apply list.Forall_forall.
  - destruct (IH Hs) as [H1 H2]. split; [|done]. intros j [->|Hj]%elem_of_cons; [|by apply H1].
    rewrite list.Forall_forall in Hp. apply Hp. apply elem_of_app. right. by left.
Qed.

(** Only rows before [i] count. *)
Lemma count_split f pre i post : l = pre ++ i :: post → (∀ j, f j = true → before j i = true) → count f l = count f pre.
Proof.
  intros E Hf. destruct (sorted_split pre i post E) as [_ Hpost]. rewrite E, count_app.
  rewrite (count_none f (i :: post)); [lia|]. intros j Hj. destruct (f j) eqn:Ej; [|done]. exfalso. apply Hf in Ej.
  apply elem_of_cons in Hj as [->|Hj]; [by pose proof (before_asym i i Ej); congruence|]. apply Hpost, before_asym in Hj. congruence.
Qed.

Lemma row_number_position pre i post : l = pre ++ i :: post → row_number_of l i = zlen pre + 1.
Proof.
  intros E. unfold row_number_of. rewrite (count_split _ pre i post E) by done.
  rewrite count_all; [lia|]. by apply (sorted_split pre i post E).
Qed.

Lemma lt_before j i : is_lt j i = true → before j i = true.
Proof. unfold before. by intros ->. Qed.

Lemma rank_split pre i post : l = pre ++ i :: post → rank_of l i = 1 + count (λ j, is_lt j i) pre.
Proof. intros E. unfold rank_of. by rewrite (count_split _ pre i post E) by (intros j; apply lt_before). Qed.

Lemma dense_split pre i post : l = pre ++ i :: post → dense_rank_of l i = 1 + count (λ j, is_lt j i && leader l j) pre.
Proof. intros E. unfold dense_rank_of. rewrite (count_split _ pre i post E); [done|]. intros j [Hj _]%andb_prop. by apply lt_before. Qed.

Lemma count_le {A} (f : A → bool) k : count f k ≤ zlen k.
Proof. unfold count, zlen. pose proof (List.filter_length_le f k). lia. Qed.

Lemma count_add {A} (f g : A → bool) k : (∀ x, x ∈ k → f x && g x = false) → count f k + count g k = count (λ x, f x || g x) k.
Proof.
  unfold count, zlen. induction k as [|x k IH]; intros Hfg; [done|]. simpl. specialize (Hfg x ltac:(by left)) as Hx.
  specialize (IH (λ y Hy, Hfg y ltac:(by right))). destruct (f x), (g x); simpl in *; try done; lia.
Qed.

Definition one_leader (pre : list nat) (i : nat) : Prop := count (λ j, is_eq j i && leader l j) pre = 1.

(** A row that ties with the one before it shares its ranks. *)
Lemma tie_step pre p i post : l = pre ++ p :: i :: post → is_eq p i = true →
  rank_of l i = rank_of l p ∧ dense_rank_of l i = dense_rank_of l p ∧ (one_leader (pre ++ [p]) p → one_leader (pre ++ [p; i]) i).
Proof.
  intros E Heq. assert (Hlt : ∀ j, is_lt j i = is_lt j p) by (intros j; unfold is_lt; by rewrite (is_eq_r p i j Heq)).
  assert (Hj : ∀ j, is_eq j i = is_eq j p) by (intros j; unfold is_eq; by rewrite (is_eq_r p i j Heq)).
  split_and!; [unfold rank_of; f_equal; by apply count_ext|unfold dense_rank_of; f_equal; apply count_ext; intros j _; by rewrite Hlt|].
  unfold one_leader. intros Hone. replace (pre ++ [p; i]) with ((pre ++ [p]) ++ [i]) by (by rewrite <-app_assoc). rewrite count_app.
  rewrite (count_ext _ (λ j, is_eq j p && leader l j)) by (intros j _; by rewrite Hj). rewrite Hone, count_none; [done|].
  intros j ->%list_elem_of_singleton. apply andb_false_intro2. unfold leader. apply not_true_is_false. rewrite forallb_Forall, list.Forall_forall. intros Hall.
  specialize (Hall p ltac:(rewrite E; apply elem_of_app; right; by left)). cbn beta in Hall. rewrite Heq in Hall. cbn [implb] in Hall.
  destruct (sorted_split (pre ++ [p]) i post) as [Hb _]; [by rewrite <-app_assoc|]. specialize (Hb p ltac:(apply elem_of_app; right; by left)).
  unfold before in Hb. rewrite Heq in Hb. unfold is_lt, is_eq in *. destruct (c p i); try done. cbn [orb andb] in Hb. apply Nat.ltb_lt in Hb. apply Nat.leb_le in Hall. lia.
Qed.

Lemma leader_fresh pre i post : l = pre ++ i :: post → (∀ j, j ∈ pre → is_lt j i = true) → leader l i = true ∧ one_leader (pre ++ [i]) i.
Proof.
  intros E Hlt. assert (Hpre : ∀ j, j ∈ pre → is_eq j i = false) by (intros j Hj; specialize (Hlt j Hj); unfold is_lt, is_eq in *; by destruct (c j i)).
  destruct (sorted_split pre i post E) as [_ Hpost]. assert (Hl : leader l i = true).
  { unfold leader. apply forallb_Forall, list.Forall_forall. intros j Hj. rewrite E in Hj. apply elem_of_app in Hj as [Hj|[->|Hj]%elem_of_cons].
    - by rewrite Hpre.
    - destruct (is_eq i i); [|done]. apply Nat.leb_le. lia.
    - specialize (Hpost j Hj). rewrite is_eq_sym. unfold before, is_lt, is_eq in *. destruct (c i j); [|done..]. cbn [orb andb implb] in *.
      apply Nat.ltb_lt in Hpost. apply Nat.leb_le. lia. }
  split; [done|]. unfold one_leader. rewrite count_app, count_none by (intros j Hj; by rewrite Hpre).
  unfold count. simpl. rewrite Hl. unfold is_eq. by rewrite pc_refl.
Qed.

(** A row that does not tie starts a new rank. *)
Lemma new_step pre p i post : l = pre ++ p :: i :: post → is_eq p i = false → one_leader (pre ++ [p]) p →
  rank_of l i = zlen pre + 2 ∧ dense_rank_of l i = dense_rank_of l p + 1 ∧ one_leader (pre ++ [p; i]) i.
Proof.
  intros E Hne Hone. assert (E' : l = (pre ++ [p]) ++ i :: post) by (by rewrite <-app_assoc).
  destruct (sorted_split (pre ++ [p]) i post E') as [Hpre _]. destruct (sorted_split pre p (i :: post) E) as [Hp _].
  assert (Hle : ∀ j, j ∈ pre ++ [p] → c j p ≠ Gt).
  { intros j [Hj| ->%list_elem_of_singleton]%elem_of_app; [by apply before_le, Hp|by rewrite pc_refl]. }
  assert (Hlt : ∀ j, j ∈ pre ++ [p] → is_lt j i = true).
  { intros j Hj. apply (le_lt_lt j p i); [by apply Hle|]. apply before_not_eq_lt; [|done]. apply Hpre, elem_of_app. right. by left. }
  split_and!.
  - rewrite (rank_split (pre ++ [p]) i post E'), count_all by done. rewrite zlen_app. unfold zlen at 2. simpl. lia.
  - rewrite (dense_split (pre ++ [p]) i post E'), (dense_split pre p (i :: post) E).
    rewrite (count_ext _ (λ j, is_lt j p && leader l j || is_eq j p && leader l j)) by
      (intros j Hj; rewrite (Hlt j Hj); specialize (Hle j Hj); unfold is_lt, is_eq; destruct (c j p), (leader l j); done).
    rewrite <-count_add by (intros j _; unfold is_lt, is_eq; by destruct (c j p), (leader l j)). rewrite Hone.
    rewrite count_app, (count_none _ [p]); [lia|]. intros j ->%list_elem_of_singleton. unfold is_lt. by rewrite pc_refl.
  - replace (pre ++ [p; i]) with ((pre ++ [p]) ++ [i]) by (by rewrite <-app_assoc). by apply (leader_fresh (pre ++ [p]) i post).
Qed.

Definition ranks_of (i : nat) : nat * (Z * Z * Z) := (i, (row_number_of l i, rank_of l i, dense_rank_of l i)).

Lemma numbers_from rest pre p : zlen l < 2 ^ 64 → l = pre ++ p :: rest → one_leader (pre ++ [p]) p →
  numbers (Some p) (zlen pre + 1) (rank_of l p) (dense_rank_of l p) rest = map ranks_of rest.
Proof.
  intros Hlen. revert pre p. induction rest as [|i rest IH]; intros pre p E Hone; [done|]. cbn [numbers map].
  assert (E' : l = (pre ++ [p]) ++ i :: rest) by (by rewrite <-app_assoc).
  assert (Hrow : row_number_of l i = zlen pre + 1 + 1) by (rewrite (row_number_position (pre ++ [p]) i rest E'), zlen_app; unfold zlen at 2; simpl; lia).
  assert (Hz : zlen (pre ++ [p]) + 1 = zlen pre + 1 + 1) by (rewrite zlen_app; unfold zlen at 2; simpl; lia).
  assert (Hd : dense_rank_of l i < 2 ^ 64).
  { rewrite (dense_split (pre ++ [p]) i rest E'). pose proof (count_le (λ j, is_lt j i && leader l j) (pre ++ [p])). rewrite E', zlen_app, zlen_cons in Hlen.
    pose proof (zlen_nonneg rest). lia. }
  destruct (is_eq p i) eqn:Heq.
  - destruct (tie_step pre p i rest E Heq) as (H1 & H2 & H3). unfold ranks_of at 1. rewrite Hrow, H1, H2. f_equal. rewrite <-Hz, <-H1, <-H2. apply IH; [done|].
    rewrite <-app_assoc. by apply H3.
  - destruct (new_step pre p i rest E Heq Hone) as (H1 & H2 & H3). unfold ranks_of at 1. rewrite Hrow, H1, H2.
    replace (saturating_usize (dense_rank_of l p + 1)) with (dense_rank_of l p + 1) by (unfold saturating_usize; lia).
    replace (zlen pre + 1 + 1) with (zlen pre + 2) by lia. f_equal. rewrite <-H2. rewrite <-H1 at 2. replace (zlen pre + 2) with (zlen (pre ++ [p]) + 1) by lia.
    apply IH; [done|]. by rewrite <-app_assoc.
Qed.

Lemma numbers_sorted : zlen l < 2 ^ 64 → numbers None 0 1 1 l = map ranks_of l.
Proof.
  intros Hlen. assert (Hl : ∀ i rest, l = i :: rest → numbers None 0 1 1 (i :: rest) = map ranks_of (i :: rest)).
  { intros i rest E. cbn [numbers map]. unfold ranks_of at 1.
    rewrite (row_number_position [] i rest E), (rank_split [] i rest E), (dense_split [] i rest E).
    f_equal. pose proof (numbers_from rest [] i Hlen E) as Hn. rewrite (rank_split [] i rest E), (dense_split [] i rest E) in Hn. apply Hn.
    apply (leader_fresh [] i rest E). intros j Hj. by apply elem_of_nil in Hj. }
  destruct l as [|i rest] eqn:E; [done|]. by apply Hl.
Qed.
End sorted.

(** A stable sort of ascending positions orders them by [before]. *)
Lemma stable_before l l' : StronglySorted lt l → stable_sort c l l' → StronglySorted (λ i j, before i j = true) l'.
Proof.
  intros Hl [_ Hs Hst]. assert (Hf : ∀ x, StronglySorted lt (filter (λ y, c x y = Eq) l')).
  { intros x. rewrite Hst. clear -Hl. induction Hl as [|i l _ IH Hi]; [constructor|]. rewrite filter_cons. destruct (decide _); [|done]. constructor; [done|].
    rewrite list.Forall_forall in Hi |- *. intros j [_ Hj]%list_elem_of_filter. by apply Hi. }
  clear Hst. induction Hs as [|i l' _ IH Hi]; constructor.
  - apply IH. intros x. specialize (Hf x). rewrite filter_cons in Hf. destruct (decide _); [by inversion Hf|done].
  - rewrite list.Forall_forall in Hi |- *. intros j Hj. specialize (Hi j Hj). unfold before, is_lt, is_eq. destruct (c i j) eqn:E; [|done..].
    specialize (Hf i). rewrite filter_cons in Hf. destruct (decide _) as [_|Hn]; [|by rewrite pc_refl in Hn]. inversion Hf as [|? ? _ Hall]; subst.
    rewrite list.Forall_forall in Hall. apply Nat.ltb_lt, Hall, list_elem_of_filter. done.
Qed.

Lemma ranks_of_perm l k i : l ≡ₚ k → ranks_of l i = ranks_of k i.
Proof.
  intros Hp. unfold ranks_of, row_number_of, rank_of, dense_rank_of. rewrite !(count_perm _ l k Hp).
  do 3 f_equal. apply count_ext. intros j _. f_equal. unfold leader. apply eq_true_iff_eq. rewrite !forallb_Forall. by rewrite Hp.
Qed.
End ranks.

#[export] Instance comap_preorder {A B} (f : A → B) (c : B → B → comparison) : Preorder_cmp c → Preorder_cmp (λ x y, c (f x) (f y)).
Proof. intros [H1 H2]. split; [intros; apply H1|]. intros x y z. apply H2. Qed.

(** ** The window stage *)

Section window.
Context (cat : Catalog) (w : Window) (rows0 : list Fields).

Definition row0 (i : nat) : Fields := default [] (rows0 !! i).
Definition order (i j : nat) : comparison := codes_cmp cat (win_order_by w) (row0 i) (row0 j).

#[export] Instance order_preorder : Preorder_cmp order.
Proof. apply (comap_preorder row0 (codes_cmp cat (win_order_by w))), _. Qed.

(** The assigned names are new: no sort key reads through one of them. *)
Definition fresh_names : Prop := ∀ a key, a ∈ win_assignments w → key ∈ win_order_by w →
  wa_name a ≠ sk_column key ∧ ∀ head tail, split_dot (sk_column key) = Some (head, tail) → wa_name a ≠ head.

Hypothesis Hsortable : ∀ row, row ∈ rows0 → sortable cat (win_order_by w) row.
Hypothesis Hfresh : fresh_names.

Definition stamp (n : Z * Z * Z) (row : Fields) : Fields :=
  let '(row_number, rank, dense_rank) := n in
  foldl (λ row a, bt_insert (wa_name a) (VInt (window_value (wa_function a) row_number rank dense_rank)) row) row (win_assignments w).

Definition in_i64 (n : Z * Z * Z) : Prop := let '(a, b, d) := n in is_i64 a = true ∧ is_i64 b = true ∧ is_i64 d = true.

Lemma row_field_insert name v row path : name ≠ path → (∀ head tail, split_dot path = Some (head, tail) → name ≠ head) →
  row_field (bt_insert name v row) path = row_field row path.
Proof.
  intros H1 H2. unfold row_field. rewrite bt_get_insert_ne by done. destruct (bt_get path row); [done|].
  destruct (split_dot path) as [[head tail]|] eqn:E; [|done]. cbn. by rewrite bt_get_insert_ne by (intros ->; by apply (H2 _ _ eq_refl)).
Qed.

Lemma stamp_field n row key : key ∈ win_order_by w → row_field (stamp n row) (sk_column key) = row_field row (sk_column key).
Proof.
  destruct n as [[a b] d]. unfold stamp. intros Hkey. assert (Hall : ∀ x, x ∈ win_assignments w → x ∈ win_assignments w) by done. revert Hall.
  generalize (win_assignments w) at 1 3. intros l. revert row. induction l as [|x l IH]; intros row Hl; [done|]. cbn [foldl].
  rewrite IH by (intros y Hy; apply Hl; by right). destruct (Hfresh x key) as [? ?]; [apply Hl; by left|done|]. by apply row_field_insert.
Qed.

Lemma stamp_foldR a b d row : in_i64 (a, b, d) →
  foldR (λ row x, let value := window_value (wa_function x) a b d in if is_i64 value then Ok (bt_insert (wa_name x) (VInt value) row) else Err "E_LIMIT")
    row (win_assignments w) = Ok (stamp (a, b, d) row).
Proof.
  intros (Ha & Hb & Hd). unfold stamp. revert row. induction (win_assignments w) as [|x l IH]; intros row; [done|]. cbn [foldR foldl].
  assert (is_i64 (window_value (wa_function x) a b d) = true) as -> by (by destruct (wa_function x)). by rewrite bind_pure.
Qed.

(** Rows that sort like the original ones. *)
Definition agree (rows : list Fields) : Prop :=
  length rows = length rows0 ∧ ∀ i row, rows !! i = Some row → ∀ key, key ∈ win_order_by w → row_field row (sk_column key) = row_field (row0 i) (sk_column key).

Lemma codes_agree keys l l' r r' : (∀ key, key ∈ keys → row_field l (sk_column key) = row_field l' (sk_column key)) →
  (∀ key, key ∈ keys → row_field r (sk_column key) = row_field r' (sk_column key)) → codes_cmp cat keys l r = codes_cmp cat keys l' r'.
Proof.
  induction keys as [|key keys IH]; intros Hl Hr; [done|]. cbn [codes_cmp]. unfold key_code. rewrite (Hl key), (Hr key) by (by left).
  f_equal. apply IH; intros k Hk; [apply Hl|apply Hr]; by right.
Qed.

Lemma compare_agree rows i j : agree rows → (i < length rows0)%nat → (j < length rows0)%nat → compare_positions cat (win_order_by w) rows i j = Ok (order i j).
Proof.
  intros [Hlen Hag] Hi Hj. unfold compare_positions, row_at. destruct (lookup_lt_is_Some_2 rows i) as [l Hl]; [lia|]. destruct (lookup_lt_is_Some_2 rows j) as [r Hr]; [lia|].
  rewrite Hl, Hr. cbn [ok_or]. rewrite !bind_pure. assert (Hs : ∀ i row, rows !! i = Some row → sortable cat (win_order_by w) row).
  { intros k row Hk key Hkey. rewrite (Hag k row Hk key Hkey). unfold row0. assert (k < length rows0)%nat as [r0 E]%lookup_lt_is_Some_2
      by (rewrite <-Hlen; by eapply lookup_lt_Some). rewrite E. apply (Hsortable r0); [by eapply list_elem_of_lookup_2|done]. }
  rewrite compare_rows_codes by (by eapply Hs). f_equal. unfold order. apply codes_agree; [by apply Hag|by apply Hag].
Qed.

(** *** One partition *)

Definition write_ranks (rows : list Fields) (ranks : list (nat * (Z * Z * Z))) : list Fields := foldl (λ rows '(i, n), alter (stamp n) i rows) rows ranks.

Lemma agree_stamp rows i n : agree rows → agree (alter (stamp n) i rows).
Proof.
  intros [Hlen Hag]. split; [by rewrite length_alter|]. intros j row Hj key Hkey. destruct (decide (j = i)) as [->|Hne].
  - rewrite list_lookup_alter_eq in Hj. destruct (rows !! i) as [r|] eqn:E; [|done]. injection Hj as <-. rewrite stamp_field by done. exact (Hag i r E key Hkey).
  - rewrite list_lookup_alter_ne in Hj by done. exact (Hag j row Hj key Hkey).
Qed.

Lemma number_partition_spec indexes previous position rank dense rows : agree rows →
  (∀ i, i ∈ indexes → (i < length rows0)%nat) → (∀ p, previous = Some p → (p < length rows0)%nat) →
  (∀ e, e ∈ numbers order previous position rank dense indexes → in_i64 e.2) →
  number_partition cat w previous position rank dense indexes rows = Ok (write_ranks rows (numbers order previous position rank dense indexes)).
Proof.
  revert previous position rank dense rows. induction indexes as [|i indexes IH]; intros previous position rank dense rows Hag Hin Hp Hnum; [done|].
  cbn [number_partition numbers] in *. assert (Hi : (i < length rows0)%nat) by (apply Hin; by left).
  set (next := match previous with Some p => if is_eq order p i then (rank, dense) else (position + 1, saturating_usize (dense + 1)) | None => (rank, dense) end) in *.
  assert (Hnext : (match previous with None => Ok (rank, dense) | Some previous => c ← compare_positions cat (win_order_by w) rows previous i;
    Ok match c with Eq => (rank, dense) | _ => (position + 1, saturating_usize (dense + 1)) end end) = Ok next).
  { destruct previous as [p|]; [|done]. rewrite compare_agree by (try done; by apply Hp). rewrite bind_pure. unfold next, is_eq. by destruct (order p i). }
  rewrite Hnext, bind_pure. destruct next as [rank' dense']. unfold row_at. destruct Hag as [Hlen Hag].
  destruct (lookup_lt_is_Some_2 rows i) as [row Hrow]; [lia|]. rewrite Hrow. cbn [ok_or]. rewrite bind_pure.
  rewrite stamp_foldR by (apply (Hnum (i, (position + 1, rank', dense'))); by left). rewrite bind_pure.
  replace (<[i:=stamp (position + 1, rank', dense') row]> rows) with (alter (stamp (position + 1, rank', dense')) i rows).
  - rewrite IH; [done|by apply agree_stamp|intros j Hj; apply Hin; by right|by intros p [= <-]|intros e He; apply Hnum; by right].
  - apply list_eq. intros j. destruct (decide (j = i)) as [->|Hne].
    + rewrite list_lookup_alter_eq, list_lookup_insert_eq by lia. by rewrite Hrow.
    + by rewrite list_lookup_alter_ne, list_lookup_insert_ne by done.
Qed.

Lemma write_ranks_lookup ranks rows i : NoDup ranks.*1 →
  (∀ n, (i, n) ∈ ranks → write_ranks rows ranks !! i = stamp n <$> rows !! i) ∧ (i ∉ ranks.*1 → write_ranks rows ranks !! i = rows !! i).
Proof.
  revert rows. induction ranks as [|[j m] ranks IH]; intros rows Hnd; [split; [intros n Hn; by apply elem_of_nil in Hn|done]|].
  cbn [write_ranks foldl fmap list_fmap] in *. apply list.NoDup_cons in Hnd as [Hj Hnd]. destruct (IH (alter (stamp m) j rows) Hnd) as [H1 H2]. split.
  - intros n [[= -> ->]|Hn]%elem_of_cons; [unfold write_ranks in H2; rewrite H2 by done; by rewrite list_lookup_alter_eq|].
    unfold write_ranks in H1. rewrite (H1 n Hn), list_lookup_alter_ne; [done|]. intros ->. apply Hj. by apply (list_elem_of_fmap_2 fst _ (i, n)).
  - intros Hi. unfold write_ranks in H2. rewrite H2 by (intros ?; apply Hi; by right). rewrite list_lookup_alter_ne; [done|]. intros ->. apply Hi. by left.
Qed.

Lemma write_ranks_length ranks rows : length (write_ranks rows ranks) = length rows.
Proof. revert rows. induction ranks as [|[j m] ranks IH]; intros rows; [done|]. cbn. unfold write_ranks in IH. by rewrite IH, length_alter. Qed.

Hypothesis Hsmall : zlen rows0 * 8 ≤ GENERAL_WORKING_MAX_BYTES.

Lemma counts_i64 (l : list nat) i : zlen l * 8 ≤ GENERAL_WORKING_MAX_BYTES → in_i64 (ranks_of order l i).2.
Proof.
  intros Hl. assert (Hc : ∀ f, is_i64 (1 + count f l) = true).
  { intros f. pose proof (count_le f l) as Hle. pose proof (zlen_nonneg (List.filter f l)). unfold count, GENERAL_WORKING_MAX_BYTES in *. apply in_range_spec. lia. }
  split_and!; apply Hc.
Qed.

(** The ranks within the partition [peers], in the order of the sort. *)
Lemma partition_step peers rows : agree rows → StronglySorted lt peers → (∀ i, i ∈ peers → (i < length rows0)%nat) → zlen peers ≤ zlen rows0 →
  ∃ sorted, (s ← sort_by (compare_positions cat (win_order_by w) rows) peers; number_partition cat w None 0 1 1 s rows) =
    Ok (write_ranks rows (map (ranks_of order peers) sorted)) ∧ sorted ≡ₚ peers.
Proof.
  intros Hag Hs Hin Hlen. destruct (sort_by_total order (compare_positions cat (win_order_by w) rows) peers) as (sorted & E & Hst).
  { intros i j Hi Hj. by apply compare_agree; [|apply Hin..]. }
  exists sorted. rewrite E, bind_pure. pose proof (ss_perm _ _ _ Hst) as Hp. split; [|done].
  assert (Hz : zlen sorted = zlen peers) by (unfold zlen; by rewrite Hp). unfold GENERAL_WORKING_MAX_BYTES in *.
  assert (Hn : numbers order None 0 1 1 sorted = map (ranks_of order peers) sorted).
  { rewrite (numbers_sorted order sorted); [|by apply (stable_before order peers)|lia]. apply List.map_ext. intros i. by apply ranks_of_perm. }
  rewrite number_partition_spec; [by rewrite Hn|done|intros i Hi; apply Hin; by rewrite <-Hp|done|]. rewrite Hn.
  intros e (i & <- & _)%list_elem_of_In%List.in_map_iff. apply counts_i64. unfold GENERAL_WORKING_MAX_BYTES. lia.
Qed.
End window.

(** *** All partitions *)

Section partitions.
Context `{WireText} `{RowJson} `{Base64} `{JsonText}.
Context (cat : Catalog) (w : Window) (rows0 : list Fields).

Definition partition_of (i : nat) : result (list string) := partition_key (win_partition_by w) (row0 rows0 i).

(** The rows of the partition with this key, and those of the partition of row [i]. *)
Definition in_partition (key : list string) (j : nat) : bool := match partition_of j with Ok k => bool_decide (k = key) | Err _ => false end.
Definition members (key : list string) (n : nat) : list nat := List.filter (in_partition key) (seq 0 n).
Definition peers (i : nat) : list nat := match partition_of i with Ok key => members key (length rows0) | Err _ => [] end.

Record collected (n : nat) (partitions : list (list string * list nat)) (bytes : Z) : Prop := {
  co_sorted : bt_sorted partitions = true;
  co_members key : default [] (bt_get key partitions) = members key n;
  co_bytes : 8 * Z.of_nat n ≤ bytes
}.

Lemma members_S key n : members key (S n) = members key n ++ if in_partition key n then [n] else [].
Proof. unfold members. rewrite seq_S, List.filter_app. simpl. by destruct (in_partition key n). Qed.

Lemma key_bytes_nonneg key : 0 ≤ key_bytes key.
Proof. induction key as [|s key IH]; simpl; [done|]. unfold str_len at 1. pose proof (zlen_nonneg (as_bytes s)). lia. Qed.

Lemma collect_partitions_spec : (∀ i, (i < length rows0)%nat → is_ok (partition_of i) = true) → ∀ rest n partitions bytes,
  rest = drop n rows0 → (n ≤ length rows0)%nat → bytes ≤ GENERAL_WORKING_MAX_BYTES → collected n partitions bytes →
  match collect_partitions (win_partition_by w) n rest partitions bytes with
  | Ok (partitions, bytes) => collected (length rows0) partitions bytes ∧ bytes ≤ GENERAL_WORKING_MAX_BYTES
  | Err e => e = "E_LIMIT"
  end.
Proof.
  intros Hok. induction rest as [|row rest IH]; intros n partitions bytes Hrest Hn Hb Hco; cbn [collect_partitions].
  - assert (n = length rows0) as <-; [|done]. apply (f_equal length) in Hrest. rewrite length_drop in Hrest. simpl in Hrest. lia.
  - assert (Hrow : rows0 !! n = Some row) by (rewrite <-(Nat.add_0_r n), <-lookup_drop, <-Hrest; done).
    assert (Hlt : (n < length rows0)%nat) by (by eapply lookup_lt_Some). specialize (Hok n Hlt) as Hkey. unfold partition_of, row0 in Hkey. rewrite Hrow in Hkey. cbn [default from_option id] in Hkey.
    destruct (partition_key (win_partition_by w) row) as [key|] eqn:E; [|done]. rewrite bind_pure. pose proof (key_bytes_nonneg key) as Hkb. destruct Hco as [H1' H2' H3'].
    destruct (_ >? GENERAL_WORKING_MAX_BYTES) eqn:Hle; [done|]. rewrite Z.gtb_ltb in Hle. apply Z.ltb_ge in Hle.
    assert (Hsat : saturating_usize (bytes + key_bytes key + 8) = bytes + key_bytes key + 8) by (unfold saturating_usize, GENERAL_WORKING_MAX_BYTES in *; lia).
    rewrite Hsat in *. apply IH; [|done|lia|].
    + rewrite <-(Nat.add_1_r n), <-drop_drop, <-Hrest. done.
    + split; [by apply bt_insert_sorted| |lia]. intros k. rewrite members_S. unfold in_partition, partition_of, row0. rewrite Hrow. cbn [default from_option id]. rewrite E.
      case_bool_decide as Hk; [subst k; rewrite bt_get_insert_eq; cbn [default from_option id]; by rewrite H2'|]. rewrite bt_get_insert_ne by done. by rewrite H2', app_nil_r.
Qed.

Notation order := (order cat w rows0).
Notation agree := (agree w rows0).

Lemma members_spec key n i : i ∈ members key n ↔ (i < n)%nat ∧ partition_of i = Ok key.
Proof.
  unfold members. rewrite list_elem_of_In, List.filter_In, List.in_seq. unfold in_partition.
  destruct (partition_of i) as [k|]; [rewrite bool_decide_eq_true|]; split; intros [? ?]; split; try done; try lia; congruence.
Qed.

Lemma members_ascending key n : StronglySorted lt (members key n).
Proof.
  induction n as [|n IH]; [constructor|]. rewrite members_S. destruct (in_partition key n); [|by rewrite app_nil_r].
  apply StronglySorted_app. split_and!; [|done|repeat constructor]. intros i j [Hi _]%members_spec ->%list_elem_of_singleton. done.
Qed.

Lemma members_length key n : zlen (members key n) ≤ Z.of_nat n.
Proof. unfold zlen, members. pose proof (List.filter_length_le (in_partition key) (seq 0 n)) as Hle. rewrite length_seq in Hle. lia. Qed.

(** What the stage makes of row [i]. *)
Definition ranked (i : nat) (row : Fields) : Fields :=
  stamp w (row_number_of order (peers i) i, rank_of order (peers i) i, dense_rank_of order (peers i) i) row.

Lemma peers_members key i : i ∈ members key (length rows0) → peers i = members key (length rows0).
Proof. intros [_ E]%members_spec. unfold peers. by rewrite E. Qed.

Record numbered (finished : list (list string * list nat)) (rows : list Fields) : Prop := {
  nu_length : length rows = length rows0;
  nu_finished key ps i row : (key, ps) ∈ finished → i ∈ ps → rows0 !! i = Some row → rows !! i = Some (ranked i row);
  nu_rest i row : (∀ key ps, (key, ps) ∈ finished → i ∉ ps) → rows0 !! i = Some row → rows !! i = Some row
}.

Hypothesis Hsortable : ∀ row, row ∈ rows0 → sortable cat (win_order_by w) row.
Hypothesis Hfresh : fresh_names w.

Lemma numbered_agree finished rows : numbered finished rows → agree rows.
Proof.
  intros Hnu. split; [apply Hnu|]. intros i row Hrow key Hkey. assert (i < length rows0)%nat as [row' E]%lookup_lt_is_Some_2
    by (rewrite <-(nu_length _ _ Hnu); by eapply lookup_lt_Some). unfold row0. rewrite E. cbn [default from_option id].
  destruct (decide (Exists (λ e, i ∈ e.2) finished)) as [([k ps] & Hin & Hi)%list.Exists_exists|Hn].
  - rewrite (nu_finished _ _ Hnu k ps i row' Hin Hi E) in Hrow. injection Hrow as <-. by apply stamp_field.
  - rewrite (nu_rest _ _ Hnu i row') in Hrow; [by injection Hrow as <-| |done]. intros k ps Hin Hi. apply Hn, list.Exists_exists. by exists (k, ps).
Qed.

Lemma numbered_step finished key ps rows : zlen rows0 * 8 ≤ GENERAL_WORKING_MAX_BYTES → numbered finished rows → ps = members key (length rows0) →
  (∀ k qs, (k, qs) ∈ finished → k ≠ key ∧ qs = members k (length rows0)) →
  ∃ rows', (s ← sort_by (compare_positions cat (win_order_by w) rows) ps; number_partition cat w None 0 1 1 s rows) = Ok rows' ∧
    numbered (finished ++ [(key, ps)]) rows'.
Proof.
  intros Hsmall Hnu -> Hfin. destruct (partition_step cat w rows0 Hsortable Hfresh Hsmall (members key (length rows0)) rows) as (sorted & -> & Hp);
    [by eapply numbered_agree|apply members_ascending|by intros i [? _]%members_spec|apply members_length|].
  eexists. split; [done|]. set (ranks := map (ranks_of order (members key (length rows0))) sorted).
  assert (Hfst : ranks.*1 = sorted) by (unfold ranks; clear; induction sorted as [|i l IH]; [done|]; cbn [map fmap list_fmap]; f_equal; exact IH).
  assert (Hnd : NoDup ranks.*1).
  { rewrite Hfst, Hp. unfold members. apply NoDup_ListNoDup, List.NoDup_filter, List.seq_NoDup. }
  split; [by rewrite write_ranks_length, (nu_length _ _ Hnu)| |].
  - intros k qs i row Hin Hi Hrow. destruct (write_ranks_lookup w ranks rows i Hnd) as [Hw1 Hw2]. apply elem_of_app in Hin as [Hin|Hin].
    + destruct (Hfin k qs Hin) as [Hne ->]. rewrite Hw2; [by apply (nu_finished _ _ Hnu k (members k (length rows0)))|]. rewrite Hfst, Hp.
      intros [_ E1]%members_spec. apply members_spec in Hi as [_ E2]. rewrite E1 in E2. by injection E2.
    + apply list_elem_of_singleton in Hin as [= -> ->]. unfold ranked. rewrite (peers_members key i Hi).
      rewrite (Hw1 (row_number_of order (members key (length rows0)) i, rank_of order (members key (length rows0)) i, dense_rank_of order (members key (length rows0)) i)).
      * rewrite (nu_rest _ _ Hnu i row); [done| |done]. intros k qs Hin Hk. destruct (Hfin k qs Hin) as [Hne ->].
        apply members_spec in Hk as [_ E1]. apply members_spec in Hi as [_ E2]. rewrite E1 in E2. by injection E2.
      * unfold ranks. apply list_elem_of_In, List.in_map_iff. exists i. split; [done|]. apply list_elem_of_In. by rewrite Hp.
  - intros i row Hn Hrow. destruct (write_ranks_lookup w ranks rows i Hnd) as [_ Hw2]. rewrite Hw2.
    + apply (nu_rest _ _ Hnu); [|done]. intros k qs Hin. apply (Hn k qs), elem_of_app. by left.
    + rewrite Hfst, Hp. apply (Hn key), elem_of_app. right. by left.
Qed.

Lemma number_partitions_spec partitions rows finished : zlen rows0 * 8 ≤ GENERAL_WORKING_MAX_BYTES → numbered finished rows →
  NoDup (finished ++ partitions).*1 → (∀ k qs, (k, qs) ∈ finished ++ partitions → qs = members k (length rows0)) →
  ∃ rows', number_partitions cat w partitions rows = Ok rows' ∧ numbered (finished ++ partitions) rows'.
Proof.
  intros Hsmall. revert rows finished. induction partitions as [|[key ps] partitions IH]; intros rows finished Hnu Hnd Hmem.
  - exists rows. by rewrite app_nil_r.
  - unfold number_partitions. cbn [foldR]. destruct (numbered_step finished key ps rows Hsmall Hnu) as (rows1 & -> & Hnu1).
    + apply Hmem, elem_of_app. right. by left.
    + intros k qs Hin. split; [|apply Hmem, elem_of_app; by left]. intros ->. rewrite fmap_app in Hnd. apply list.NoDup_app in Hnd as (_ & Hd & _).
      apply (Hd key); [by apply (list_elem_of_fmap_2 fst _ (key, qs))|by left].
    + rewrite bind_pure. replace (finished ++ (key, ps) :: partitions) with ((finished ++ [(key, ps)]) ++ partitions) in * by (by rewrite <-app_assoc).
      by apply IH.
Qed.

Lemma partition_key_ok paths row : (∀ path, path ∈ paths → is_Some (row_field row path)) → is_ok (partition_key paths row) = true.
Proof.
  induction paths as [|path paths IH]; intros Hp; [done|]. cbn [partition_key]. destruct (Hp path ltac:(by left)) as [v ->]. cbn [ok_or]. rewrite bind_pure.
  specialize (IH (λ p Hin, Hp p ltac:(by right))). by destruct (partition_key paths row).
Qed.

Lemma materialized_error rows e : check_materialized_rows rows = Err e → e = "E_LIMIT" ∨ e = "E_PROTOCOL".
Proof.
  unfold check_materialized_rows. generalize 0. induction rows as [|row rows IH]; intros n; cbn [foldR]; [done|]. unfold materialized_row_size.
  destruct (json_len _) as [size|]; cbn [map_err]; [|intros [= <-]; by right]. rewrite bind_pure. destruct (_ >? _); [intros [= <-]; by left|]. rewrite bind_pure. apply IH.
Qed.

(** C24: the window functions are the counts that define them.  Over rows with the fields
    of the window, each row stays in its place and gets, within the rows of its
    partition: as [row_number] one plus the rows before it, ties in the order of the
    input; as [rank] one plus the rows with a smaller key; as [dense_rank] one plus the
    distinct smaller keys.  The stage fails only for the size of its rows. *)
Theorem window_counts : (∀ row path, row ∈ rows0 → path ∈ win_partition_by w → is_Some (row_field row path)) →
  match apply_window cat w rows0 with
  | Ok (rows, _) => length rows = length rows0 ∧ ∀ i row, rows0 !! i = Some row → rows !! i = Some (ranked i row)
  | Err e => e = "E_LIMIT" ∨ e = "E_PROTOCOL"
  end.
Proof.
  intros Hpath. assert (Hok : ∀ i, (i < length rows0)%nat → is_ok (partition_of i) = true).
  { intros i [row E]%lookup_lt_is_Some_2. apply partition_key_ok. unfold row0. rewrite E. intros path Hin. apply Hpath; [by eapply list_elem_of_lookup_2|done]. }
  unfold apply_window. pose proof (collect_partitions_spec Hok rows0 0 [] 0 ltac:(done) ltac:(lia) ltac:(done) ltac:(by split)) as Hco.
  destruct (collect_partitions _ _ _ _ _) as [[partitions bytes]|]; [|by left]. destruct Hco as [[Hs Hm Hb] Hmax]. rewrite bind_pure.
  assert (Hmem : ∀ k qs, (k, qs) ∈ partitions → qs = members k (length rows0)) by (intros k qs Hin%bt_get_iff; [|done]; by rewrite <-Hm, Hin).
  destruct (number_partitions_spec partitions rows0 []) as (rows & -> & Hnu); [unfold zlen; lia| |by apply bt_sorted_NoDup|done|].
  { split; [done| |done]. intros key ps i row Hin. by apply elem_of_nil in Hin. }
  rewrite bind_pure. destruct (check_materialized_rows rows) as [size|] eqn:Em; [|by apply materialized_error in Em]. rewrite bind_pure. destruct (_ >? _); [by left|].
  split; [apply Hnu|]. intros i row Hrow. assert (Hi : (i < length rows0)%nat) by (by eapply lookup_lt_Some). specialize (Hok i Hi).
  destruct (partition_of i) as [key|] eqn:Ek; [|done]. assert (Hin : i ∈ members key (length rows0)) by (by apply members_spec).
  rewrite <-Hm in Hin. destruct (bt_get key partitions) as [ps|] eqn:E; [|by apply elem_of_nil in Hin].
  apply (nu_finished _ _ Hnu key ps); [by apply bt_get_elem|done|done].
Qed.
End partitions.

(** ** Witness *)

Fixpoint example_json (j : Json) : string :=
  match j with
  | JNull => "null"
  | JBool b => if b then "true" else "false"
  | JNum z => int_text z
  | JStr s => "'" +:+ s +:+ "'"
  | JDecimal c s => c +:+ "e-" +:+ int_text s
  | JArr items => "[" +:+ String.concat "," (map example_json items) +:+ "]"
  end.

#[local] Instance example_json_text : JsonText := { json_text := example_json }.
#[local] Instance example_row_json : RowJson := { json_len row := Ok (zlen row) }.
#[local] Instance example_base64 : Base64 := { base64_encode := sextets }.
#[local] Existing Instance example_wire_text.

Definition example_window : Window :=
  mkWindow ["team"] [mkSortKey "score" true (Some TInt)]
    [mkWindowAssignment "place" RowNumber; mkWindowAssignment "rank" Rank; mkWindowAssignment "tier" DenseRank].
Definition example_result (score : Z) (team : string) : Fields := [("score", VInt score); ("team", VText team)].
Definition example_results : list Fields :=
  [example_result 3 "a"; example_result 5 "b"; example_result 4 "a"; example_result 4 "a"; example_result 1 "b"].

Lemma window_counts_witness :
  (∀ row, row ∈ example_results → sortable default_catalog (win_order_by example_window) row) ∧ fresh_names example_window ∧
  fst <$> apply_window default_catalog example_window example_results = Ok
    [stamp example_window (3, 3, 2) (example_result 3 "a"); stamp example_window (1, 1, 1) (example_result 5 "b");
     stamp example_window (1, 1, 1) (example_result 4 "a"); stamp example_window (2, 1, 1) (example_result 4 "a");
     stamp example_window (2, 2, 2) (example_result 1 "b")].
Proof.
  assert (Hs : ∀ row, row ∈ example_results → sortable default_catalog (win_order_by example_window) row).
  { intros row Hrow key ->%list_elem_of_singleton. exists TInt.
    repeat (apply elem_of_cons in Hrow as [->|Hrow]; [eexists; split_and!; [done|vm_compute; reflexivity..]|]). by apply elem_of_nil in Hrow. }
  assert (Hf : fresh_names example_window).
  { intros a key Ha ->%list_elem_of_singleton. repeat (apply elem_of_cons in Ha as [->|Ha]; [by split|]). by apply elem_of_nil in Ha. }
  split; [exact Hs|]. split; [exact Hf|].
  pose proof (window_counts default_catalog example_window example_results Hs Hf) as Hw.
  destruct (apply_window default_catalog example_window example_results) as [[rows bytes]|e] eqn:E; [|vm_compute in E; discriminate E].
  assert (Hp : ∀ row path, row ∈ example_results → path ∈ win_partition_by example_window → is_Some (row_field row path)).
  { intros row path Hrow ->%list_elem_of_singleton. repeat (apply elem_of_cons in Hrow as [->|Hrow]; [by eexists|]). by apply elem_of_nil in Hrow. }
  destruct (Hw Hp) as [Hlen Hrows]. change (fst <$> Ok (rows, bytes)) with (Ok rows). f_equal. apply list_eq. intros i.
  do 5 (destruct i as [|i]; [erewrite Hrows by reflexivity; vm_compute; reflexivity|]). rewrite (lookup_ge_None_2 rows); [done|]. rewrite Hlen. simpl. lia.
Defined.
