(* ===== verification/GroupKeys.v ===== *)
(** * Printed index keys identify values

    [Value::index_key] of src/src/model.rs, by which groups and window partitions are
    keyed and distinct values are counted: on the canonical values of a type the key
    determines the value. *)
From S2P Require Import Prelude Bytes Text Utf8 Decimal Temporal Scalars Float64 BTree Model Coerce OrderedKey Codec Matching Coverage Expression Typing EvalOps Database Query Access Tables Predicates Wire WireLaws Stages StageLaws.

#[local] Strategy 1000 [MAX_DEPTH underlying field_type cmp_typed coerce].

(** What the libraries document: base64 is ASCII and reversible, and distinct JSON values
    print differently. *)
Class KeyTextLaws `{Base64} `{JsonText} : Prop := {
  base64_encode_inj a b : all_bytes a = true → all_bytes b = true → base64_encode a = base64_encode b → a = b;
  base64_encode_ascii a : all_bytes a = true → ascii_bytes (base64_encode a);
  json_text_inj a b : json_text a = json_text b → a = b
}.

Lemma of_bytes_inj a b : ascii_bytes a → ascii_bytes b → of_bytes a = of_bytes b → a = b.
Proof. intros Ha Hb E. by rewrite <-(as_bytes_ascii a Ha), E, as_bytes_ascii. Qed.

Lemma display_inj {A} (parse : list Z → result A) display (u v : A) : ascii_bytes (display u) → ascii_bytes (display v) →
  parse (display u) = Ok u → parse (display v) = Ok v → of_bytes (display u) = of_bytes (display v) → u = v.
Proof. intros Au Av Pu Pv E. apply of_bytes_inj in E; [|done..]. rewrite E, Pv in Pu. by injection Pu. Qed.

Lemma show_int_inj a b : of_bytes (show_int a) = of_bytes (show_int b) → a = b.
Proof.
  intros E. pose proof (parse_int_text (λ _, true) a eq_refl) as Ea. pose proof (parse_int_text (λ _, true) b eq_refl) as Eb.
  unfold int_text in Ea, Eb. rewrite E, Eb in Ea. by injection Ea.
Qed.

Lemma timestamp_canonical t : is_ok (from_epoch_microseconds t) = true → timestamp_from_str (timestamp_display t) = Ok t.
Proof.
  intros Ht. apply timestamp_display_parse. destruct (from_epoch_microseconds t) as [t'|] eqn:E; [|done]. by pose proof E as [-> _]%from_epoch_microseconds_Ok.
Qed.

Section keys.
Context `{KeyTextLaws}.

Definition keyed_alike (v w : Value) : Prop :=
  wf_value v = true → wf_value w = true → transportable v = true → transportable w = true → index_key v = index_key w → cmp_eq v w = true.

Lemma keyed_alike_all vs ws : Forall (λ v, ∀ w, keyed_alike v w) vs → forallb wf_value vs = true → forallb wf_value ws = true →
  forallb transportable vs = true → forallb transportable ws = true → index_key <$> vs = index_key <$> ws → all2 cmp_eq vs ws = true.
Proof.
  intros Hvs. revert ws. induction Hvs as [|v vs Hv _ IH]; intros [|w ws] Wv Ww Tv Tw E; try done.
  cbn [fmap list_fmap] in E. injection E as E1 E2. simpl in *. bool_inv. apply andb_true_iff. split; [by apply Hv|by apply IH].
Qed.

Lemma keyed_alike_entries m n : Forall (λ e, ∀ w, keyed_alike e.2 w) m → bt_sorted n = true →
  forallb (λ kv, wf_string kv.1 && wf_value kv.2) m = true → forallb (λ kv, wf_string kv.1 && wf_value kv.2) n = true →
  forallb (λ e, transportable e.2) m = true → forallb (λ e, transportable e.2) n = true →
  (λ e, JArr [JStr e.1; index_key e.2]) <$> m = (λ e, JArr [JStr e.1; index_key e.2]) <$> n →
  (zlen m =? zlen n) && forallb (λ kv, match bt_get kv.1 n with Some w => cmp_eq kv.2 w | None => false end) m = true.
Proof.
  intros Hm Hs Wm Wn Tm Tn E. assert (Hlen : zlen m = zlen n).
  { unfold zlen. f_equal. apply (f_equal length) in E. by rewrite !length_fmap in E. }
  rewrite Hlen, Z.eqb_refl. apply forallb_Forall, list.Forall_forall. intros [k v] Hin. cbn [fst snd].
  apply list_elem_of_lookup in Hin as Hi. destruct Hi as [i Hi]. apply (f_equal (.!! i)) in E. rewrite !list_lookup_fmap, Hi in E.
  destruct (n !! i) as [[k' w]|] eqn:En; [|done]. cbn in E. injection E as <- Ek. apply list_elem_of_lookup_2 in En.
  rewrite (proj2 (bt_get_iff k w n Hs) En). rewrite list.Forall_forall in Hm. apply (Hm _ Hin w); [by apply (wf_entries_elem m k v)|by apply (wf_entries_elem n k w)| | |done].
  - rewrite forallb_Forall, list.Forall_forall in Tm. exact (Tm _ Hin).
  - rewrite forallb_Forall, list.Forall_forall in Tn. exact (Tn _ En).
Qed.

Lemma map_transportable (m : list (string * Value)) : forallb (λ e, (str_len e.1 <=? MAX_MAP_KEY_BYTES) && transportable e.2) m = true →
  forallb (λ e, transportable e.2) m = true.
Proof. rewrite !forallb_Forall. intros Hm. eapply list.Forall_impl; [exact Hm|]. intros e He. cbn beta in He. by bool_inv. Qed.

Lemma index_key_alike v w : keyed_alike v w.
Proof.
  revert w. induction v as [v Hs|name args id IH|fields IH|items IH|items IH|entries IH|v IH|id v IH] using Value_nested_ind; intros w Wv Ww Tv Tw E.
  - destruct v as [z|b|b|t|u|d|t|t|d|bs| | | | | | |[|]|]; try done; destruct w as [z'|b'|b'|t'|u'|d'|t'|t'|d'|bs'| | | | | | |[|]|]; cbn [index_key] in E; try discriminate E;
      cbn [wf_value transportable] in *; cbn [cmp_eq].
    + injection E as E. apply show_int_inj in E as ->. apply Z.eqb_refl.
    + bool_inv. injection E as E. assert (b = b') as <-.
      { destruct (is_zero b), (is_zero b'); simpl in *; bool_inv; congruence. }
      by apply f64_eq_refl.
    + injection E as ->. apply Bool.eqb_reflx.
    + injection E as ->. apply String.eqb_refl.
    + injection E as E. apply bool_decide_eq_true. unfold wf_uuid in *. 
      apply (display_inj uuid_from_str uuid_display) in E; [done|apply uuid_display_ascii; by bool_inv..|by apply uuid_print_parse|by apply uuid_print_parse].
    + injection E as E. unrange. apply (display_inj date_from_str date_display) in E as ->; [apply Z.eqb_refl|by apply date_display_ascii..|by apply date_display_parse|by apply date_display_parse].
    + injection E as E. apply Z.eqb_eq.
      apply (display_inj timestamp_from_str timestamp_display) in E; [done|by apply timestamp_display_ascii..|by apply timestamp_canonical|by apply timestamp_canonical].
    + injection E as E. apply show_int_inj in E as ->. apply Z.eqb_refl.
    + injection E as E Es. apply show_int_inj in E. unfold decimal_eqb. by rewrite E, Es, !Z.eqb_refl.
    + injection E as E. unfold wf_bytes, to_base64url in *. bool_inv. apply bool_decide_eq_true.
      apply base64_encode_inj; [done..|]. apply of_bytes_inj; [by apply base64_encode_ascii..|done].
    + done.
    + match goal with w : Value |- _ => by destruct w as [| | | | | | | | | | | | | | | |[|]|] end.
    + done.
  - destruct w as [| | | | | | | | | | |name' args' id'| | | | |[|]|]; try discriminate E. cbn [index_key] in E. injection E as <- En Ea. cbn [wf_value transportable] in *. bool_inv.
    cbn [cmp_eq]. rewrite (keyed_alike_all args args') by done. destruct (id =? 0) eqn:Eid; cbn [orb]; rewrite Z.eqb_refl; [|done].
    rewrite En, String.eqb_refl. done.
  - destruct w as [| | | | | | | | | | | |fields'| | | |[|]|]; try discriminate E. cbn [index_key] in E. injection E as E. cbn [wf_value transportable] in *. bool_inv.
    cbn [cmp_eq]. by apply keyed_alike_entries.
  - destruct w as [| | | | | | | | | | | | |items'| | |[|]|]; try discriminate E. cbn [index_key] in E. injection E as E. by apply keyed_alike_all.
  - destruct w as [| | | | | | | | | | | | | |items'| |[|]|]; try discriminate E. cbn [index_key] in E. injection E as E. by apply keyed_alike_all.
  - destruct w as [| | | | | | | | | | | | | | |entries'|[|]|]; try discriminate E. cbn [index_key] in E. injection E as E. cbn [wf_value transportable] in *. bool_inv.
    cbn [cmp_eq]. apply keyed_alike_entries; try done; by apply map_transportable.
  - destruct w as [| | | | | | | | | | | | | | | |[w|]|]; try discriminate E; cbn [index_key] in E; injection E as E; [by apply IH|]. by destruct v as [| | | | | | | | | | | | | | | |[|]|].
  - destruct w as [| | | | | | | | | | | | | | | |[|]|id' w]; try discriminate E. cbn [index_key] in E. injection E as <- E. cbn [wf_value transportable] in *. bool_inv.
    cbn [cmp_eq]. rewrite Z.eqb_refl. by apply IH.
Qed.

(** The printed key of a canonical value of a type determines the value. *)
Lemma index_key_typed cat ty v w : wf_catalog cat = true → wf_type ty = true → has_type cat ty v → has_type cat ty w →
  json_text (index_key v) = json_text (index_key w) → v = w.
Proof.
  intros Hcat Ht Hv Hw E%json_text_inj. apply (cmp_eq_typed cat ty); try done. destruct Hv as [[f Hf] Wv], Hw as [[g Hg] Ww].
  apply index_key_alike; try done; by eapply conforms_transportable.
Qed.
End keys.
