(* ===== verification/Grouping.v ===== *)
(** * Grouping is exact

    The single pass of [aggregate_rows] of src/src/db.rs over all rows leaves in the
    accumulators of each group what a pass over the rows of that group alone leaves. *)
From stdpp Require Import sorting.
From S2P Require Import Prelude Bytes Text Decimal Temporal Scalars Float64 FloatArith BTree Model Coerce OrderedKey Codec Matching Coverage Expression Typing EvalOps Database Query Access Ranges Tables Predicates Wire WireLaws Stages StageLaws GroupKeys Aggregates.

#[local] Strategy 1000 [MAX_DEPTH underlying field_type cmp_typed coerce].

Section groups.
Context `{TextLib} `{Base64} `{JsonText} (cat : Catalog) (agg : Aggregate).
Notation assignments := (agg_assignments agg).

(** ** The accumulated bytes only bound the state *)

Lemma update_state_bytes row a state n m : fst <$> update_state cat row a state n = fst <$> update_state cat row a state m.
Proof.
  destruct state as [c|values|t c|t|c|c]; cbn [update_state].
  - by destruct (ok_or _ _).
  - destruct (aggregate_input cat row a) as [v|]; [|done]. rewrite !bind_pure. unfold distinct_step. by destruct (bs_mem _ values).
  - destruct (aggregate_input cat row a) as [v|]; [|done]. rewrite !bind_pure. destruct (ok_or _ _); [|done]. rewrite !bind_pure. by destruct (average_step t (unwrapped v)).
  - destruct (aggregate_input cat row a) as [v|]; [|done]. rewrite !bind_pure. by destruct (sum_step a t (unwrapped v)).
  - destruct (aggregate_input cat row a) as [v|]; [|done]. rewrite !bind_pure. by destruct (update_extreme cat a c v true).
  - destruct (aggregate_input cat row a) as [v|]; [|done]. rewrite !bind_pure. by destruct (update_extreme cat a c v false).
Qed.

(** One row into one accumulator. *)
Definition step (row : Fields) (a : AggregateAssignment) (state : AggregateState) : result AggregateState := fst <$> update_state cat row a state 0.

Lemma update_state_step row a state n state' m : update_state cat row a state n = Ok (state', m) → step row a state = Ok state'.
Proof. intros E. unfold step. by rewrite (update_state_bytes row a state 0 n), E. Qed.

Lemma update_states_steps row l states n states' m : length states = length l → update_states cat row l states n = Ok (states', m) →
  length states' = length l ∧ ∀ i a s, l !! i = Some a → states !! i = Some s → ∃ s', states' !! i = Some s' ∧ step row a s = Ok s'.
Proof.
  revert states n states' m. induction l as [|a l IH]; intros [|s states] n states' m Hlen E; try done; cbn [update_states] in E.
  - injection E as <- <-. done.
  - apply bind_Ok in E as ([s' n1] & E1 & E). apply bind_Ok in E as ([states1 n2] & E2 & [= <- <-]).
    destruct (IH states n1 states1 n2) as [Hl Hs]; [by injection Hlen|done|]. split; [simpl; by rewrite Hl|].
    intros [|i] b t; cbn [lookup list_lookup]; [|apply Hs]. intros [= <-] [= <-]. exists s'. split; [done|]. by eapply update_state_step.
Qed.

(** ** What a group holds *)

Definition group_key (row : Fields) : result (list string) := fst <$> group_fields (agg_group_by agg) row.
Definition in_group (key : list string) (row : Fields) : bool := match group_key row with Ok k => bool_decide (k = key) | Err _ => false end.
Definition group_rows (key : list string) (rows : list Fields) : list Fields := List.filter (in_group key) rows.

(** One accumulator over the rows of a group. *)
Definition run (a : AggregateAssignment) (rows : list Fields) : result AggregateState := foldR (λ s row, step row a s) (new_state (ag_function a)) rows.

Definition has_states (rows : list Fields) (states : list AggregateState) : Prop :=
  length states = length assignments ∧ ∀ i a, assignments !! i = Some a → ∃ s, states !! i = Some s ∧ run a rows = Ok s.

Record group_of (key : list string) (rows : list Fields) (g : GroupAccumulator) : Prop := {
  go_states : has_states (group_rows key rows) (ga_states g);
  go_fields row : row ∈ group_rows key rows → ∃ first, first ∈ group_rows key rows ∧ group_fields (agg_group_by agg) first = Ok (key, ga_fields g);
  go_empty : group_rows key rows = [] → agg_group_by agg = [] ∧ key = [] ∧ ga_fields g = []
}.

Record grouped (rows : list Fields) (groups : Groups) : Prop := {
  gr_sorted : bt_sorted groups = true;
  gr_groups key g : bt_get key groups = Some g → group_of key rows g;
  gr_keys row : row ∈ rows → ∃ key, group_key row = Ok key ∧ is_Some (bt_get key groups);
  gr_all : agg_group_by agg = [] → is_Some (bt_get [] groups)
}.

Lemma has_states_snoc rows states row states' n m : has_states rows states → update_states cat row assignments states n = Ok (states', m) → has_states (rows ++ [row]) states'.
Proof.
  intros [Hlen Hs] E. destruct (update_states_steps row assignments states n states' m Hlen E) as [Hlen' Hst]. split; [done|].
  intros i a Ha. destruct (Hs i a Ha) as (s & Hsi & Hrun). destruct (Hst i a s Ha Hsi) as (s' & Hs' & Estep). exists s'. split; [done|].
  unfold run in *. rewrite foldR_app, Hrun, bind_pure. cbn [foldR]. by rewrite Estep.
Qed.

Lemma has_states_new : has_states [] (map (λ a, new_state (ag_function a)) assignments).
Proof. split; [by rewrite length_map|]. intros i a Ha. exists (new_state (ag_function a)). split; [|done]. change (map ?f ?l) with (f <$> l). by rewrite list_lookup_fmap, Ha. Qed.

Lemma group_rows_snoc key rows row : group_rows key (rows ++ [row]) = group_rows key rows ++ if in_group key row then [row] else [].
Proof. unfold group_rows. rewrite List.filter_app. simpl. by destruct (in_group key row). Qed.

Lemma in_group_key key row : in_group key row = true ↔ group_key row = Ok key.
Proof.
  unfold in_group. destruct (group_key row) as [k|]; [|done]. rewrite bool_decide_eq_true. split; [by intros ->|by intros [= ->]].
Qed.

Lemma group_rows_elem key rows row : row ∈ group_rows key rows ↔ row ∈ rows ∧ group_key row = Ok key.
Proof. unfold group_rows. by rewrite list_elem_of_In, List.filter_In, in_group_key, list_elem_of_In. Qed.

Definition open_group (groups : Groups) (key : list string) (values : list (string * Value)) : Groups :=
  if bt_mem key groups then groups else bt_insert key (accumulator_new values assignments) groups.

Lemma one_row_Ok groups n row groups' n' : aggregate_one_row cat agg (groups, n) row = Ok (groups', n') →
  ∃ key values g states' n1 n2, group_fields (agg_group_by agg) row = Ok (key, values) ∧ bt_get key (open_group groups key values) = Some g ∧
    update_states cat row assignments (ga_states g) n1 = Ok (states', n2) ∧
    groups' = bt_insert key (mkGroupAccumulator (ga_fields g) states') (open_group groups key values).
Proof.
  unfold aggregate_one_row. intros E. apply bind_Ok in E as ([key values] & Ek & E). apply bind_Ok in E as ([groups1 n1] & E1 & E).
  assert (groups1 = open_group groups key values) as ->.
  { unfold open_group. destruct (bt_mem key groups); [by injection E1|]. by apply bind_Ok in E1 as (u & _ & [= <- _]). }
  apply bind_Ok in E as (g & Eg & E). apply bind_Ok in E as ([g' n2] & Eu & E). apply bind_Ok in E as (u & _ & [= <- _]).
  unfold accumulator_update in Eu. apply bind_Ok in Eu as ([states' n3] & Eu & [= <- <-]). apply ok_or_Ok in Eg. by exists key, values, g, states', n1, n3.
Qed.

(** The accumulator that a row of the group finds. *)
Lemma opened_group rows groups row key values g : grouped rows groups → group_fields (agg_group_by agg) row = Ok (key, values) →
  bt_get key (open_group groups key values) = Some g →
  has_states (group_rows key rows) (ga_states g) ∧ (group_rows key rows = [] → ga_fields g = values) ∧
  (∀ r, r ∈ group_rows key rows → ∃ first, first ∈ group_rows key rows ∧ group_fields (agg_group_by agg) first = Ok (key, ga_fields g)).
Proof.
  intros Hg Ek. unfold open_group, bt_mem. destruct (bt_get key groups) as [g0|] eqn:E0.
  - rewrite E0. intros [= <-]. destruct (gr_groups _ _ Hg key g0 E0) as [H1' H2' H3']. split_and!; [done| |done]. intros Hnil. destruct (H3' Hnil) as (Hby & _ & ->).
    rewrite Hby in Ek. by injection Ek.
  - rewrite bt_get_insert_eq. intros [= <-]. assert (Hnil : group_rows key rows = []).
    { destruct (group_rows key rows) as [|r l] eqn:E; [done|]. assert (r ∈ group_rows key rows) as [Hr Hk]%group_rows_elem by (rewrite E; by left).
      destruct (gr_keys _ _ Hg r Hr) as (k & Hk' & [g' Hg']). rewrite Hk in Hk'. injection Hk' as <-. congruence. }
    rewrite Hnil. split_and!; [apply has_states_new|done|]. intros r Hr. by apply elem_of_nil in Hr.
Qed.

Lemma open_group_other groups key values k : k ≠ key → bt_get k (open_group groups key values) = bt_get k groups.
Proof. intros Hk. unfold open_group. destruct (bt_mem key groups); [done|]. by apply bt_get_insert_ne. Qed.

Lemma one_row_grouped rows groups n row groups' n' : grouped rows groups → aggregate_one_row cat agg (groups, n) row = Ok (groups', n') → grouped (rows ++ [row]) groups'.
Proof.
  intros Hg E. destruct (one_row_Ok _ _ _ _ _ E) as (key & values & g & states' & n1 & n2 & Ek & Eg & Eu & ->).
  destruct (opened_group rows groups row key values g Hg Ek Eg) as (Hs & Hf & Hfirst). assert (Hkey : group_key row = Ok key) by (unfold group_key; by rewrite Ek).
  assert (Hin : in_group key row = true) by (by apply in_group_key). split.
  - apply bt_insert_sorted. unfold open_group. destruct (bt_mem key groups); [apply Hg|apply bt_insert_sorted, Hg].
  - intros k g'. destruct (decide (k = key)) as [->|Hne].
    + rewrite bt_get_insert_eq. intros [= <-]. cbn [ga_states ga_fields]. split; rewrite group_rows_snoc, Hin; cbn [ga_states ga_fields].
      * by eapply has_states_snoc.
      * intros _ _. destruct (group_rows key rows) as [|r l] eqn:El.
        { exists row. split; [by left|]. by rewrite Ek, Hf. }
        destruct (Hfirst r ltac:(by left)) as (first & Hfi & Efi). exists first. split; [apply elem_of_app; by left|done].
      * by destruct (group_rows key rows).
    + rewrite bt_get_insert_ne, open_group_other by done. intros Hg'. destruct (gr_groups _ _ Hg k g' Hg') as [H1' H2' H3'].
      assert (Hout : in_group k row = false) by (apply not_true_is_false; intros Hk%in_group_key; rewrite Hkey in Hk; by injection Hk as ->).
      split; rewrite group_rows_snoc, Hout, app_nil_r; done.
  - intros r [Hr| ->%list_elem_of_singleton]%elem_of_app.
    + destruct (gr_keys _ _ Hg r Hr) as (k & Hk & Hsome). exists k. split; [done|]. destruct (decide (k = key)) as [->|Hne]; [rewrite bt_get_insert_eq; by eexists|].
      by rewrite bt_get_insert_ne, open_group_other by done.
    + exists key. split; [done|]. rewrite bt_get_insert_eq. by eexists.
  - intros Hby. destruct (decide ([] = key)) as [<-|Hne]; [rewrite bt_get_insert_eq; by eexists|]. rewrite bt_get_insert_ne, open_group_other by done. by apply Hg.
Qed.

Lemma rows_grouped rows groups n done groups' n' : grouped done groups → foldR (aggregate_one_row cat agg) (groups, n) rows = Ok (groups', n') → grouped (done ++ rows) groups'.
Proof.
  revert groups n done. induction rows as [|row rows IH]; intros groups n done Hg E; cbn [foldR] in E; [injection E as <- _; by rewrite app_nil_r|].
  apply bind_Ok in E as ([groups1 n1] & E1 & E). replace (done ++ row :: rows) with ((done ++ [row]) ++ rows) by (by rewrite <-app_assoc).
  eapply IH; [by eapply one_row_grouped|done].
Qed.

Lemma new_groups_grouped : grouped [] (new_aggregate_groups agg).
Proof.
  unfold new_aggregate_groups. split.
  - by destruct (agg_group_by agg).
  - intros key g. destruct (agg_group_by agg) eqn:E; [|done]. intros Hg%bt_get_elem%list_elem_of_singleton. injection Hg as -> ->. cbn. split; cbn.
    + apply has_states_new.
    + intros row Hrow. by apply elem_of_nil in Hrow.
    + done.
  - intros row Hrow. by apply elem_of_nil in Hrow.
  - intros ->. by eexists.
Qed.
End groups.
