(* ===== verification/AggregateLaws.v ===== *)
(** * Aggregation is exact

    What the accumulators of src/src/db.rs hold after the rows of a group, by aggregate
    function, and from it that a bound aggregate computes, for every combination of group
    values, the aggregates of the rows that have these values. *)
From stdpp Require Import sorting countable.
From S2P Require Import Prelude Bytes Text Decimal Temporal Scalars Float64 FloatArith BTree Model Coerce OrderedKey Codec Matching Coverage Expression Typing EvalOps Soundness Catalog Schema Database Query Access Ranges Tables Predicates Wire WireLaws Stages StageLaws GroupKeys Aggregates Grouping.

#[local] Strategy 1000 [MAX_DEPTH underlying field_type cmp_typed coerce].

(** ** The values of the functions *)

Definition sumZ (l : list Z) : Z := foldr Z.add 0 l.

Lemma sumZ_app l k : sumZ (l ++ k) = sumZ l + sumZ k.
Proof. induction l as [|x l IH]; simpl; lia. Qed.

(** The floats added from left to right. *)
Definition float_total (bs : list Z) : Z := match bs with [] => 0 | b :: bs => foldl f64_add b bs end.
Definition normal_zero (b : Z) : Z := if is_zero b then 0 else b.
Definition as_float (v : Value) : Z := match v with VInt z => i64_as_f64 z | VFloat b => b | _ => 0 end.

(** The sum of the (unwrapped) inputs of underlying type [u]. *)
Definition sum_of (u : ScalarType) (vs : list Value) (raw : Value) : Prop :=
  match u with
  | TInt => ∃ zs, vs = VInt <$> zs ∧ raw = VInt (sumZ zs)
  | TDuration => ∃ zs, vs = VDuration <$> zs ∧ raw = VDuration (sumZ zs)
  | TFloat => ∃ bs, vs = VFloat <$> bs ∧ raw = VFloat (normal_zero (float_total bs))
  | TDecimal _ s => ∃ ds, vs = VDecimal <$> ds ∧ raw = VDecimal (mkDecimal (sumZ (coefficient <$> ds)) s)
  | _ => False
  end.

(** Their average, which needs an input. *)
Definition average_of (f : AggregateFunction) (u : ScalarType) (vs : list Value) (raw : Value) : Prop :=
  match u with
  | TInt | TFloat => raw = VFloat (normal_zero (f64_div (float_total (as_float <$> vs)) (i64_as_f64 (zlen vs))))
  | TDuration => ∃ zs, vs = VDuration <$> zs ∧ raw = VDuration (Z.quot (sumZ zs) (zlen vs))
  | TDecimal _ s => ∃ ds d p s' r, vs = VDecimal <$> ds ∧ f = DecimalAverage p s' r ∧
      average_coefficients (sumZ (coefficient <$> ds)) s (zlen vs) p s' r = Ok d ∧ raw = VDecimal d
  | _ => False
  end.

(** The least or the greatest of the inputs in the order of their type. *)
Definition extreme_of (cat : Catalog) (ty : ScalarType) (minimum : bool) (vs : list Value) (m : Value) : Prop :=
  m ∈ vs ∧ ∀ v, v ∈ vs → ∃ c, ordered cat ty m v c ∧ c ≠ if minimum then Gt else Lt.

Definition optional (vs : list Value) (P : Value → Prop) (raw : Value) : Prop :=
  match vs with [] => raw = VOption None | _ => ∃ v, raw = VOption (Some v) ∧ P v end.

(** The aggregate [f] over the rows of a group, whose inputs are values of type [ty]
    with the underlying type [u]. *)
Definition aggregate_of (cat : Catalog) (f : AggregateFunction) (ty u : ScalarType) (inputs : list Value) (raw : Value) : Prop :=
  match f with
  | Count => True
  | CountDistinct => ∃ distinct, NoDup distinct ∧ (∀ v, v ∈ distinct ↔ v ∈ inputs) ∧ raw = VInt (zlen distinct)
  | Sum => sum_of u (unwrapped <$> inputs) raw
  | Average | DecimalAverage _ _ _ => optional inputs (average_of f u (unwrapped <$> inputs)) raw
  | Min => optional inputs (extreme_of cat ty true inputs) raw
  | Max => optional inputs (extreme_of cat ty false inputs) raw
  end.

(** ** What the accumulators hold *)

Definition sum_state (u : ScalarType) (vs : list Value) (total : Value) : Prop :=
  match u with
  | TInt => ∃ zs, vs = VInt <$> zs ∧ total = VInt (sumZ zs) ∧ is_i64 (sumZ zs) = true
  | TDuration => ∃ zs, vs = VDuration <$> zs ∧ total = VDuration (sumZ zs) ∧ is_i64 (sumZ zs) = true
  | TFloat => ∃ bs, vs = VFloat <$> bs ∧ total = VFloat (float_total bs) ∧ is_finite (float_total bs) = true ∧ is_u64 (float_total bs) = true
  | TDecimal p s => ∃ ds, vs = VDecimal <$> ds ∧ total = VDecimal (mkDecimal (sumZ (coefficient <$> ds)) s) ∧ fits (mkDecimal (sumZ (coefficient <$> ds)) s) p s
  | _ => False
  end.

Definition average_state (u : ScalarType) (vs : list Value) (total : AverageTotal) : Prop :=
  match u with
  | TInt | TFloat => total = TotalFloat (float_total (as_float <$> vs)) ∧ is_finite (float_total (as_float <$> vs)) = true ∧ is_u64 (float_total (as_float <$> vs)) = true
  | TDuration => ∃ zs, vs = VDuration <$> zs ∧ total = TotalDuration (sumZ zs)
  | TDecimal _ s => ∃ ds, vs = VDecimal <$> ds ∧ total = TotalDecimal (sumZ (coefficient <$> ds)) s
  | _ => False
  end.

Definition state_of `{Base64} `{JsonText} (cat : Catalog) (f : AggregateFunction) (ty u : ScalarType) (inputs : list Value) (s : AggregateState) : Prop :=
  match f, s with
  | CountDistinct, StateCountDistinct values =>
      bt_sorted values = true ∧ ∀ k, bs_mem k values = true ↔ ∃ v, v ∈ inputs ∧ k = json_text (index_key v)
  | (Average | DecimalAverage _ _ _), StateAverage t n =>
      n = zlen inputs ∧ is_i64 n = true ∧ match t with None => inputs = [] | Some total => inputs ≠ [] ∧ average_state u (unwrapped <$> inputs) total end
  | Sum, StateSum t => match t with None => inputs = [] | Some total => inputs ≠ [] ∧ sum_state u (unwrapped <$> inputs) total end
  | Min, StateMin o => match o with None => inputs = [] | Some m => extreme_of cat ty true inputs m end
  | Max, StateMax o => match o with None => inputs = [] | Some m => extreme_of cat ty false inputs m end
  | _, _ => False
  end.

Lemma float_total_snoc bs b : bs ≠ [] → float_total (bs ++ [b]) = f64_add (float_total bs) b.
Proof. destruct bs as [|x bs]; [done|]. intros _. cbn [float_total app]. by rewrite foldl_app. Qed.

Lemma fmap_snoc {A B} (f : A → B) l x : f <$> (l ++ [x]) = (f <$> l) ++ [f x].
Proof. by rewrite fmap_app. Qed.

Lemma finite_safe b : safe (λ r, r = b ∧ is_finite b = true) (finite b).
Proof. unfold finite. by destruct (is_finite b) eqn:E. Qed.

Section steps.
Context (names : Z → string) (cat : Catalog) (Hcat : good_catalog names cat).

Lemma decimal_has_type p s d : has_type cat (TDecimal p s) (VDecimal d) → fits d p s.
Proof.
  intros [[[|f] Hc] Hw]; [done|]. cbn [conforms wf_value] in *. bool_inv. apply wf_decimal_spec in Hw as [_ Hd]. destruct (validate_type p s) as [u|] eqn:Ev; [|done].
  apply validate_type_Ok in Ev as [Hp Hs]. subst s. split_and!; lia.
Qed.

(** Two decimals of a type, added within it. *)
Lemma decimal_add_safe p s d e : fits d p s → fits e p s →
  safe (λ x, x = mkDecimal (coefficient d + coefficient e) s ∧ fits x p s) (r ← checked_add d e; range_as_arith (rescale r p s)).
Proof.
  intros Hd He. pose proof (fits_wf _ _ _ Hd) as Wd. destruct Hd as (Hp & Hs & Ed & Hcd), He as (_ & _ & Ee & Hce).
  pose proof (checked_add_safe d e Wd ltac:(congruence)) as Hadd. destruct (checked_add d e) as [r|] eqn:Er; [|done]. rewrite bind_pure. simpl in Hadd.
  assert (r = mkDecimal (coefficient d + coefficient e) s) as ->.
  { unfold checked_add in Er. rewrite Ed, Ee, Z.eqb_refl in Er. cbn [negb] in Er. apply bind_Ok in Er as (c & Hc & Er).
    apply ok_or_Ok, checked_Some in Hc as [_ ->]. apply map_err_Ok, decimal_new_Ok in Er as (_ & _ & _ & ->). done. }
  pose proof (rescale_safe (mkDecimal (coefficient d + coefficient e) s) p s ltac:(lia)) as Hr.
  destruct (rescale _ p s) as [x|err] eqn:Ex; cbn [range_as_arith]; [|cbn [safe] in *; by destruct (String.eqb err "E_DECIMAL_RANGE")].
  split; [|done]. apply rescale_iff in Ex as [(_ & _ & Esc & _) Hc]; [|done|lia]. cbn [scale coefficient] in Hc. pose proof (pow10_pos s).
  apply Z.mul_cancel_r in Hc; [|lia]. destruct x as [cx sx]. cbn [scale coefficient] in *. by subst.
Qed.

(** One more value of type [u] into a sum. *)
Lemma sum_step_safe a u vs t v : has_type cat u v →
  match u with TInt | TFloat | TDuration => True | TDecimal _ _ => ag_output_type a = Some u | _ => False end →
  match t with None => vs = [] | Some total => vs ≠ [] ∧ sum_state u vs total end →
  safe (sum_state u (vs ++ [v])) (sum_step a t v).
Proof.
  intros Hv Hu Ht. pose proof (has_type_shape _ _ _ Hv) as Hs. destruct t as [total|].
  - destruct Ht as [Hne Ht]. destruct u; try done; cbn [sum_state] in Ht.
    + destruct Hs as (z & -> & Hz), Ht as (zs & -> & -> & Hi). cbn [sum_step]. apply checked_i64_safe; [done|]. intros Hok. exists (zs ++ [z]).
      rewrite fmap_snoc, sumZ_app. simpl. rewrite Z.add_0_r. done.
    + destruct Hs as (b & -> & Hf & Hb & _), Ht as (bs & -> & -> & Hi & Hu64). cbn [sum_step]. assert (bs ≠ []) by (by intros ->).
      eapply safe_fmap; [apply finite_safe|]. intros r [-> Hfin]. exists (bs ++ [b]). rewrite fmap_snoc, float_total_snoc by done.
      split_and!; try done. by apply f64_add_u64.
    + destruct Hs as (z & -> & Hz), Ht as (zs & -> & -> & Hi). cbn [sum_step]. apply checked_i64_safe; [done|]. intros Hok. exists (zs ++ [z]).
      rewrite fmap_snoc, sumZ_app. simpl. rewrite Z.add_0_r. done.
    + destruct Hs as (d & -> & Hsc & Hd), Ht as (ds & -> & -> & Hfit). rename Hu into Hout. cbn [sum_step].
      pose proof (decimal_add_safe precision scale _ _ Hfit (decimal_has_type _ _ _ Hv)) as Hadd. rewrite Hout. cbn [ok_or].
      destruct (checked_add _ d) as [r|]; [|done]. rewrite !bind_pure in *. eapply safe_fmap; [exact Hadd|]. intros x [-> Hx]. exists (ds ++ [d]).
      rewrite !fmap_snoc, sumZ_app. simpl. rewrite Z.add_0_r. done.
  - subst vs. cbn [app]. destruct u; try done.
    + destruct Hs as (z & -> & Hz). exists [z]. simpl. rewrite Z.add_0_r. done.
    + destruct Hs as (b & -> & Hf & Hb & _). by exists [b].
    + destruct Hs as (z & -> & Hz). exists [z]. simpl. rewrite Z.add_0_r. done.
    + destruct Hs as (d & -> & <- & Hd). exists [d]. simpl. rewrite Z.add_0_r. pose proof (decimal_has_type _ _ _ Hv) as Hfit. destruct d. done.
Qed.

Lemma as_float_finite u v : has_type cat u v → match u with TInt | TFloat => True | _ => False end →
  is_finite (as_float v) = true ∧ is_u64 (as_float v) = true ∧ average_step None v = Ok (TotalFloat (as_float v)) ∧
  ∀ total, average_step (Some (TotalFloat total)) v = TotalFloat <$> finite (f64_add total (as_float v)).
Proof.
  intros Hv Hu. pose proof (has_type_shape _ _ _ Hv) as Hs. destruct u; try done.
  - destruct Hs as (z & -> & Hz). by destruct (i64_as_f64_finite z Hz) as (? & ? & _).
  - by destruct Hs as (b & -> & ? & ? & _).
Qed.

(** One more value of type [u] into an average. *)
Lemma average_step_safe u vs t v : has_type cat u v → match u with TInt | TFloat | TDuration | TDecimal _ _ => True | _ => False end →
  match t with None => vs = [] | Some total => vs ≠ [] ∧ average_state u vs total end → safe (average_state u (vs ++ [v])) (average_step t v).
Proof.
  intros Hv Hu Ht. assert (Hfloat : match u with TInt | TFloat => True | _ => False end → safe (average_state u (vs ++ [v])) (average_step t v)).
  { intros Hu'. destruct (as_float_finite u v Hv Hu') as (Hf & Hb & Hnone & Hsome). assert (Hst : ∀ total, total = TotalFloat (float_total (as_float <$> (vs ++ [v]))) →
      is_finite (float_total (as_float <$> (vs ++ [v]))) = true → is_u64 (float_total (as_float <$> (vs ++ [v]))) = true → average_state u (vs ++ [v]) total) by (by destruct u).
    destruct t as [total|]; [|subst vs; rewrite Hnone; by apply Hst]. destruct Ht as [Hne Ht].
    assert (total = TotalFloat (float_total (as_float <$> vs)) ∧ is_u64 (float_total (as_float <$> vs)) = true) as [-> Hbs] by (destruct u; try done; by destruct Ht as (? & ? & ?)).
    rewrite Hsome. eapply safe_fmap; [apply finite_safe|]. intros r [-> Hr].
    assert (E : float_total (as_float <$> (vs ++ [v])) = f64_add (float_total (as_float <$> vs)) (as_float v)) by (rewrite fmap_snoc, float_total_snoc; [done|by destruct vs]).
    apply Hst; rewrite E; [done|done|by apply f64_add_u64]. }
  pose proof (has_type_shape _ _ _ Hv) as Hs. destruct u; try done; try (by apply Hfloat).
  - destruct Hs as (z & -> & Hz). destruct t as [total|]; [|subst vs; exists [z]; simpl; by rewrite Z.add_0_r].
    destruct Ht as [_ (zs & -> & ->)]. exists (zs ++ [z]). rewrite fmap_snoc, sumZ_app. simpl. by rewrite Z.add_0_r.
  - destruct Hs as (d & -> & Hsc & Hd). destruct t as [total|]; [|subst vs scale; exists [d]; simpl; by rewrite Z.add_0_r].
    destruct Ht as [_ (ds & -> & ->)]. cbn [average_step]. rewrite Hsc, Z.eqb_refl. exists (ds ++ [d]). rewrite !fmap_snoc, sumZ_app. simpl. by rewrite Z.add_0_r.
Qed.

(** ** Extremes *)

(** Values of one type have an order, however deep they are, and it is transitive. *)
Lemma extreme_codes ty (vs : list Value) : Forall (has_type cat ty) vs →
  ∃ code : Value → list Z, ∀ v w, v ∈ vs → w ∈ vs → ordered cat ty v w (bytes_cmp (code v) (code w)).
Proof.
  intros Hvs. assert (∃ n, (MAX_DEPTH ≤ n)%nat ∧ Forall (λ v, conforms n cat ty v = true) vs) as (n & Hn & Hc).
  { induction Hvs as [|v vs [[f Hf] _] _ (n & Hn & IH)]; [by exists MAX_DEPTH|]. exists (n + f)%nat. split; [revert Hn; generalize MAX_DEPTH; lia|]. constructor.
    - eapply conforms_le; [|done]. lia.
    - eapply list.Forall_impl; [exact IH|]. intros w Hw. cbn beta in *. eapply conforms_le; [|exact Hw]. lia. }
  exists (λ v, match OrderedKey.encode_value n cat MAP_INDEX_KEY_CODEC_VERSION ty v with Ok a => a | Err _ => [] end).
  intros v w Hv Hw. rewrite list.Forall_forall in Hc, Hvs. destruct (encode_value_total _ _ _ _ (Hc v Hv)) as [a Ha], (encode_value_total _ _ _ _ (Hc w Hw)) as [b Hb].
  rewrite Ha, Hb. destruct (encode_value_order _ _ _ _ _ _ _ _ (proj2 (Hvs v Hv)) (proj2 (Hvs w Hw)) Ha Hb) as (c & Hcmp & <-%code_cmp_bytes). by exists n.
Qed.

Lemma extreme_step ty minimum a vs m v : Forall (has_type cat ty) (vs ++ [v]) → ag_output_type a = Some (TOption ty) →
  match m with None => vs = [] | Some m => extreme_of cat ty minimum vs m end →
  safe (λ o, ∃ r, o = Some r ∧ extreme_of cat ty minimum (vs ++ [v]) r) (update_extreme cat a m v minimum).
Proof.
  intros Hall Hout Hm. destruct (extreme_codes ty _ Hall) as [code Hcode]. set (cmp := λ v w, bytes_cmp (code v) (code w)) in *.
  assert (Hv : v ∈ vs ++ [v]) by (apply elem_of_app; right; by left). assert (Hin : ∀ w, w ∈ vs → w ∈ vs ++ [v]) by (intros w Hw; apply elem_of_app; by left).
  destruct m as [m|]; cbn [update_extreme].
  - destruct Hm as [Hmin Hm]. rewrite Hout. cbn [ok_or]. rewrite bind_pure. rewrite list.Forall_forall in Hall.
    eapply safe_bind; [apply safe_and; [eapply cmp_typed_has_type; apply Hall; auto|]; intros c Hc; exact Hc|]. intros c [_ Hc]. apply safe_Ok.
    apply ordered_typed in Hc. assert (c = cmp v m) as -> by (by eapply ordered_inj; [exact Hc|apply Hcode; auto]).
    assert (Hle : ∀ w, w ∈ vs → cmp m w ≠ if minimum then Gt else Lt).
    { intros w Hw. destruct (Hm w Hw) as (c & Hc' & Hne). assert (cmp m w = c) as -> by (eapply ordered_inj; [apply Hcode; auto|exact Hc']). done. }
    assert (Hnew : ∀ r, r ∈ vs ++ [v] → (∀ w, w ∈ vs → cmp r w ≠ if minimum then Gt else Lt) → (cmp r v ≠ if minimum then Gt else Lt) → extreme_of cat ty minimum (vs ++ [v]) r).
    { intros r Hr H1' H2'. split; [done|]. intros w Hw. exists (cmp r w). split; [by apply Hcode|]. apply elem_of_app in Hw as [Hw| ->%list_elem_of_singleton]; auto. }
    pose proof (bytes_preorder code : Preorder_cmp cmp) as Hpc. assert (Hflip : ∀ x y, cmp x y = CompOpp (cmp y x)) by (intros; apply pc_antisym).
    assert (Hself : cmp v v = Eq) by apply bytes_cmp_refl.
    destruct minimum; destruct (cmp v m) eqn:E; cbn [negb]; eexists; (split; [reflexivity|]); apply Hnew; auto;
      try (by rewrite Hflip, E); try (by rewrite Hself).
    + intros w Hw. apply (pc_trans v m w); [by rewrite E|by apply Hle].
    + intros w Hw Hlt. apply (pc_trans w m v); [|by rewrite Hflip, E|by rewrite Hflip, Hlt].
      specialize (Hle w Hw). rewrite Hflip. by destruct (cmp m w).
  - subst vs. apply safe_Ok. exists v. split; [done|]. split; [done|]. intros w ->%list_elem_of_singleton. exists (cmp v v). split; [by apply Hcode|].
    unfold cmp. rewrite bytes_cmp_refl. by destruct minimum.
Qed.

(** ** Runs over the rows of a group *)

Section runs.
Context `{TL : TextLib} {Laws : TextLibLaws} `{B64 : Base64} `{JT : JsonText}.
Context (schema : Columns) (Hscope : scope_ok names schema).

(** The input of the assignment is a bound expression of type [ty]. *)
Definition bound_input (a : AggregateAssignment) (ty : ScalarType) : Prop :=
  ∃ e e', ag_input a = Some e' ∧ expr_ok names cat e ∧ bind_scalar cat schema "aggregate input" e None = Ok (e', ty).

(** What binding leaves in an assignment whose inputs have the type [ty], with the
    underlying type [u].  A decimal sum has to be of the decimal type itself: see
    [named_decimal_sum_fails]. *)
Definition well_bound (a : AggregateAssignment) (ty u : ScalarType) : Prop :=
  match ag_function a with
  | Count => ag_output_type a = Some TInt
  | CountDistinct => bound_input a ty ∧ ag_output_type a = Some TInt
  | Average => bound_input a ty ∧ underlying cat ty = Ok u ∧
      match u with TInt => ag_output_type a = Some (TOption TFloat) | TFloat | TDuration => ag_output_type a = Some (TOption ty) | _ => False end
  | DecimalAverage p s _ => bound_input a ty ∧ underlying cat ty = Ok u ∧ match u with TDecimal _ _ => True | _ => False end ∧
      0 ≤ s ∧ ag_output_type a = Some (TOption (TDecimal p s))
  | Sum => bound_input a ty ∧ underlying cat ty = Ok u ∧ ag_output_type a = Some ty ∧
      match u with TInt | TFloat | TDuration => True | TDecimal p s => ty = u ∧ is_ok (validate_type p s) = true ∧ 0 ≤ s | _ => False end
  | Min | Max => bound_input a ty ∧ ag_output_type a = Some (TOption ty)
  end.

Lemma input_safe a ty row : bound_input a ty → typed_env cat schema (row_field row) → good_type names ty ∧ safe (has_type cat ty) (aggregate_input cat row a).
Proof.
  intros (e & e' & Ha & Hok & Hb) Henv. destruct (bound_value names cat Hcat schema "aggregate input" Hscope (row_field row) Henv e e' ty Hok Hb) as [Hg Hs].
  split; [done|]. unfold aggregate_input. rewrite Ha. cbn [ok_or]. rewrite bind_pure. unfold evaluate_value, evaluate_scalar_value, ebind.
  specialize (Hs MAX_COLLECTION_PREDICATE_EVALUATIONS). destruct (evaluate_scalar cat e' (row_field row) _) as [[o n]|]; [|done].
  destruct Hs as (v & Ho & Hv). cbn [fst] in Ho. rewrite Ho. exact Hv.
Qed.

Lemma mapR_snoc {A B} (f : A → result B) l x : mapR f (l ++ [x]) = (ys ← mapR f l; y ← f x; Ok (ys ++ [y])).
Proof.
  induction l as [|z l IH]; cbn [mapR app]; [by destruct (f x)|]. destruct (f z) as [y|]; [|done]. rewrite !bind_pure, IH.
  destruct (mapR f l); [|done]. rewrite !bind_pure. by destruct (f x).
Qed.

Definition inputs_of (a : AggregateAssignment) (rows : list Fields) : result (list Value) := mapR (λ row, aggregate_input cat row a) rows.

(** One more input. *)
Lemma state_step a ty u inputs s v row : well_bound a ty u → good_type names ty → ag_function a ≠ Count → Forall (has_type cat ty) (inputs ++ [v]) →
  state_of cat (ag_function a) ty u inputs s → aggregate_input cat row a = Ok v →
  safe (state_of cat (ag_function a) ty u (inputs ++ [v])) (step cat row a s).
Proof.
  intros Hw Hg Hf Hin Hs Hrow. unfold step, well_bound in *.
  assert (Hv : has_type cat ty v) by (rewrite list.Forall_forall in Hin; apply Hin, elem_of_app; right; by left).
  assert (Hunder : ∀ t, underlying cat ty = Ok t → has_type cat t (unwrapped v)) by (intros t Ht; by eapply underlying_has_type).
  assert (Havg : ∀ t n, underlying cat ty = Ok u → match u with TInt | TFloat | TDuration | TDecimal _ _ => True | _ => False end →
    (n = zlen inputs ∧ is_i64 n = true ∧ match t with None => inputs = [] | Some total => inputs ≠ [] ∧ average_state u (unwrapped <$> inputs) total end) →
    safe (λ r, ∃ t' n', r = StateAverage (Some t') n' ∧ n' = zlen (inputs ++ [v]) ∧ is_i64 n' = true ∧ average_state u (unwrapped <$> (inputs ++ [v])) t')
      (fst <$> update_state cat row a (StateAverage t n) 0)).
  { intros t n Hu Hnum (-> & _ & Ht). cbn [update_state]. rewrite Hrow, bind_pure. destruct (checked is_i64 (zlen inputs + 1)) as [n'|] eqn:En; [|done].
    apply checked_Some in En as [Hi ->]. cbn [ok_or]. rewrite bind_pure. eapply safe_fmap; [|intros r Hr; exact Hr].
    eapply safe_bind; [apply (average_step_safe u (unwrapped <$> inputs) t (unwrapped v)); [by apply Hunder|done|]|].
    - destruct t as [total|]; [|by subst inputs]. destruct Ht as [Hne Ht]. split; [by destruct inputs|done].
    - intros t' Ht'. apply safe_Ok. cbn [fst]. exists t', (zlen inputs + 1). rewrite fmap_snoc, zlen_app. done. }
  destruct (ag_function a) as [| | |p q r| | |] eqn:Ef; try done; destruct s as [c|values|t n|t|o|o]; try done.
  - cbn [update_state]. rewrite Hrow, bind_pure. destruct Hs as [Hso Hmem]. unfold distinct_step.
    assert (Hkey : ∀ k, (∃ w, w ∈ inputs ++ [v] ∧ k = json_text (index_key w)) ↔ k = json_text (index_key v) ∨ bs_mem k values = true).
    { intros k. rewrite Hmem. setoid_rewrite elem_of_app. setoid_rewrite list_elem_of_singleton. naive_solver. }
    destruct (bs_mem _ values) eqn:Em; (split; [try done|intros k; rewrite Hkey]).
    + split; [by right|]. by intros [->|?].
    + by apply bt_insert_sorted.
    + by rewrite bs_mem_insert.
  - destruct Hw as (_ & Hu & Hnum). eapply safe_impl; [apply (Havg t n Hu); [by destruct u|done]|]. intros r (t' & n' & -> & -> & Hi & Ht'). split_and!; [done|done|by destruct inputs|done].
  - destruct Hw as (_ & Hu & Hnum & _). eapply safe_impl; [apply (Havg t n Hu); [by destruct u|done]|]. intros r' (t' & n' & -> & -> & Hi & Ht'). split_and!; [done|done|by destruct inputs|done].
  - destruct Hw as (_ & Hu & Hout & Hnum). cbn [update_state]. rewrite Hrow, bind_pure. eapply safe_fmap; [|intros r Hr; exact Hr].
    eapply safe_bind; [apply (sum_step_safe a u (unwrapped <$> inputs) t (unwrapped v)); [by apply Hunder| |]|].
    + destruct u; try done. by destruct Hnum as [-> _].
    + destruct t as [total|]; cbn [state_of] in Hs; [|by rewrite Hs]. destruct Hs as [Hne Ht]. split; [by destruct inputs|done].
    + intros t' Ht'. apply safe_Ok. cbn [fst state_of]. rewrite fmap_snoc. by split; [destruct inputs|].
  - destruct Hw as [_ Hout]. cbn [update_state]. rewrite Hrow, bind_pure. eapply safe_fmap; [|intros r Hr; exact Hr]. eapply safe_bind; [by apply (extreme_step ty true a inputs)|].
    intros r (m & -> & Hm). by apply safe_Ok.
  - destruct Hw as [_ Hout]. cbn [update_state]. rewrite Hrow, bind_pure. eapply safe_fmap; [|intros r Hr; exact Hr]. eapply safe_bind; [by apply (extreme_step ty false a inputs)|].
    intros r (m & -> & Hm). by apply safe_Ok.
Qed.

Lemma well_bound_input a ty u : well_bound a ty u → ag_function a ≠ Count → bound_input a ty.
Proof. unfold well_bound. by destruct (ag_function a); [done|intros [? ?] _..]. Qed.

Lemma run_safe a ty u rows : well_bound a ty u → ag_function a ≠ Count → (∀ row, row ∈ rows → typed_env cat schema (row_field row)) →
  safe (λ s, ∃ inputs, inputs_of a rows = Ok inputs ∧ Forall (has_type cat ty) inputs ∧ state_of cat (ag_function a) ty u inputs s) (run cat a rows).
Proof.
  intros Hw Hf. induction rows as [|row rows IH] using rev_ind; intros Henv.
  - apply safe_Ok. exists []. split_and!; [done|constructor|]. destruct (ag_function a); try done. cbn [state_of new_state]. split; [done|]. intros k. cbn. split; [done|]. intros (v & Hv & _). by apply elem_of_nil in Hv.
  - unfold run. rewrite foldR_app. eapply safe_bind; [apply IH; intros r Hr; apply Henv, elem_of_app; by left|]. intros s (inputs & Hi & Hall & Hs).
    destruct (input_safe a ty row) as [Hg Hv]; [by eapply well_bound_input|apply Henv, elem_of_app; right; by left|].
    destruct (aggregate_input cat row a) as [v|e] eqn:Ev; cbn [foldR].
    + eapply safe_bind; [apply (state_step a ty u inputs s v row); try done; apply list.Forall_app; by split; [|constructor]|].
      intros s' Hs'. apply safe_Ok. exists (inputs ++ [v]). split_and!; [unfold inputs_of in *; by rewrite mapR_snoc, Hi, bind_pure, Ev|apply list.Forall_app; by split; [|constructor]|done].
    + assert (step cat row a s = Err e) as ->; [|done]. unfold step. destruct (ag_function a); try done; destruct s; try done; cbn [update_state]; by rewrite Ev.
Qed.

Lemma run_count a rows : ag_function a = Count → safe (λ s, s = StateCount (zlen rows) ∧ is_i64 (zlen rows) = true) (run cat a rows).
Proof.
  intros Hf. induction rows as [|row rows IH] using rev_ind; unfold run in *; [by rewrite Hf|]. rewrite foldR_app. eapply safe_bind; [exact IH|]. intros s [-> _].
  cbn [foldR]. unfold step. cbn [update_state]. destruct (checked is_i64 (zlen rows + 1)) as [n|] eqn:E; [|done]. apply checked_Some in E as [? ->]. apply safe_Ok. by rewrite zlen_app.
Qed.

(** ** Results *)

Lemma average_coefficients_safe c q n p s r : 0 ≤ s → safe (λ d, fits d p s) (average_coefficients c q n p s r).
Proof.
  intros Hs. unfold average_coefficients. eapply safe_bind; [apply validate_type_safe|]. intros _ _. destruct (if _ >=? _ then _ else _) as [x y].
  eapply safe_bind; [apply round_ratio_safe|]. intros z _. by apply from_bigint_safe.
Qed.

Lemma coerce_option_raw ty u v : wf_type ty = true → underlying cat ty = Ok u → raw_of u v → safe (has_type cat (TOption ty)) (coerce cat (VOption (Some v)) (TOption ty)).
Proof.
  intros Ht Hu Hr. unfold coerce, underlying in *. revert Hu. generalize MAX_DEPTH at 1. intros k Hu. generalize MAX_DEPTH. intros n.
  assert (Hs : safe (λ _, True) (coerce_inner n cat (VOption (Some v)) (TOption ty))).
  { destruct n as [|n]; [done|]. cbn [coerce_inner]. eapply safe_fmap; [by eapply (coerce_raw_of_safe names cat Hcat n k ty u v)|done]. }
  destruct (coerce_inner n cat (VOption (Some v)) (TOption ty)) as [r|] eqn:E; [|done].
  destruct (coerce_inner_sound n cat (VOption (Some v)) (TOption ty) r (proj1 Hcat) Ht (proj1 Hr) E) as [Hc Hw]. split; [by exists n|done].
Qed.

Lemma coerce_typed ty v : good_type names ty → has_type cat ty v → safe (has_type cat ty) (coerce cat v ty).
Proof. intros Hg Hv. eapply safe_impl; [by eapply coerce_has_type|]. by intros r ->. Qed.

Lemma coerce_none ty : safe (has_type cat (TOption ty)) (coerce cat (VOption None) (TOption ty)).
Proof. unfold coerce. generalize MAX_DEPTH. intros [|n]; [done|]. by apply option_has_type. Qed.

(** The aggregate is the raw result, and its output is a value of the output type. *)
Definition delivers (f : AggregateFunction) (ty u output : ScalarType) (inputs : list Value) (raw : Value) : Prop :=
  aggregate_of cat f ty u inputs raw ∧ safe (has_type cat output) (coerce cat raw output).

Lemma int_delivered n : is_i64 n = true → safe (has_type cat TInt) (coerce cat (VInt n) TInt).
Proof. intros Hn. apply coerce_typed; [done|]. by apply prim_has_type. Qed.

(** Distinct keys stand for distinct values. *)
Lemma distinct_values `{!KeyTextLaws} ty inputs (values : bset string) : wf_type ty = true → Forall (has_type cat ty) inputs → bt_sorted values = true →
  (∀ k, bs_mem k values = true ↔ ∃ v, v ∈ inputs ∧ k = json_text (index_key v)) →
  ∃ distinct, NoDup distinct ∧ (∀ v, v ∈ distinct ↔ v ∈ inputs) ∧ zlen values = zlen distinct.
Proof.
  intros Ht Hall Hs Hmem. assert (Hk : ∀ k, k ∈ values.*1 ↔ ∃ v, v ∈ inputs ∧ k = json_text (index_key v)).
  { intros k. rewrite <-Hmem. unfold bs_mem, bt_mem. split.
    - intros ([k' []] & -> & Hin)%list_elem_of_fmap. cbn [fst]. by rewrite (proj2 (bt_get_iff k' tt values Hs) Hin).
    - destruct (bt_get k values) as [[]|] eqn:E; [|done]. intros _. apply bt_get_elem in E. by apply (list_elem_of_fmap_2 fst _ (k, tt)). }
  assert (∃ distinct, (λ v, json_text (index_key v)) <$> distinct = values.*1 ∧ ∀ v, v ∈ distinct → v ∈ inputs) as (distinct & Hd & Hin).
  { assert (Hsub : ∀ k, k ∈ values.*1 → ∃ v, v ∈ inputs ∧ k = json_text (index_key v)) by (intros k; by apply Hk). revert Hsub. clear. induction (values.*1) as [|k ks IH]; intros Hsub.
    - exists []. split; [done|]. intros v Hv. by apply elem_of_nil in Hv.
    - destruct IH as (distinct & E & Hin); [intros k' Hk'; apply Hsub; by right|]. destruct (Hsub k ltac:(by left)) as (v & Hv & ->). exists (v :: distinct).
      split; [cbn [fmap list_fmap]; by rewrite <-E|]. intros w [->|Hw]%elem_of_cons; auto. }
  exists distinct. split_and!.
  - apply (NoDup_fmap_1 (λ v, json_text (index_key v))). rewrite Hd. by apply bt_sorted_NoDup.
  - intros v. split; [apply Hin|]. intros Hv. assert (Hkv : json_text (index_key v) ∈ values.*1) by (apply Hk; by exists v). rewrite <-Hd in Hkv.
    apply list_elem_of_fmap in Hkv as (w & E & Hw). rewrite list.Forall_forall in Hall. rewrite (index_key_typed cat ty v w); [done|apply Hcat|done|by apply Hall|by apply Hall, Hin|done].
  - unfold zlen. f_equal. apply (f_equal length) in Hd. by rewrite !length_fmap in Hd.
Qed.

Lemma normal_zero_typed b : is_finite b = true → is_u64 b = true → has_type cat TFloat (VFloat (normal_zero b)).
Proof. intros Hf Hb. apply prim_has_type. unfold normal_zero. destruct (is_zero b) eqn:E; [done|]. by rewrite E. Qed.

Lemma sum_result a ty u inputs s : good_type names ty → well_bound a ty u → ag_function a = Sum →
  state_of cat Sum ty u inputs s → safe (delivers Sum ty u ty inputs) (raw_result cat a ty s).
Proof.
  intros Hg Hw Hf Hs. unfold well_bound in Hw. rewrite Hf in Hw. destruct Hw as (_ & Hu & _ & Hnum). destruct s as [| | |t| |]; try done.
  assert (Hgo : ∀ raw, sum_of u (unwrapped <$> inputs) raw → raw_of u raw → safe (delivers Sum ty u ty inputs) (Ok raw)).
  { intros raw H1' H2'. apply safe_Ok. split; [done|]. by apply (coerce_raw_of names cat Hcat ty u raw); [apply Hg|..]. }
  destruct t as [total|]; cbn [state_of] in Hs; cbn [raw_result].
  - destruct Hs as [_ Hs]. destruct u; try done.
    + destruct Hs as (zs & E & -> & Hi). apply Hgo; [by exists zs|by split].
    + destruct Hs as (bs & E & -> & Hfin & Hb). apply Hgo; [by exists bs|]. unfold normal_zero. by destruct (is_zero _).
    + destruct Hs as (zs & E & -> & Hi). apply Hgo; [by exists zs|by split].
    + destruct Hs as (ds & E & -> & Hfit). apply Hgo; [by exists ds|]. split; [by eapply fits_wf|done].
  - rewrite Hs in *. unfold empty_sum. rewrite Hu, bind_pure. destruct u; try done.
    + apply Hgo; [by exists []|done].
    + apply Hgo; [by exists []|done].
    + apply Hgo; [by exists []|done].
    + destruct Hnum as (_ & Hval & Hs0). destruct (validate_type precision scale) as [[]|] eqn:Ev; [|done]. apply validate_type_Ok in Ev.
      assert (decimal_new 0 precision scale = Ok (mkDecimal 0 scale)) as E by (apply decimal_new_Ok; pose proof (pow10_pos precision); split_and!; lia || done).
      rewrite E. apply Hgo; [by exists []|]. split; [|done]. apply (fits_wf _ precision scale). split_and!; simpl; lia.
Qed.

Lemma average_result a ty u inputs total : good_type names ty → is_i64 (zlen inputs) = true → well_bound a ty u → inputs ≠ [] → Forall (has_type cat ty) inputs →
  ag_function a = Average ∨ (∃ p s r, ag_function a = DecimalAverage p s r) → average_state u (unwrapped <$> inputs) total →
  ∃ output, ag_output_type a = Some output ∧
    safe (λ v, average_of (ag_function a) u (unwrapped <$> inputs) v ∧ safe (has_type cat output) (coerce cat (VOption (Some v)) output)) (finish_average a total (zlen inputs)).
Proof.
  intros Hg Hi64 Hw Hne Hin Hf Ht. unfold well_bound in Hw. assert (Hlen : zlen (unwrapped <$> inputs) = zlen inputs) by (unfold zlen; by rewrite length_fmap).
  destruct Hf as [Hf|(p & s & r & Hf)]; rewrite Hf in *.
  - destruct Hw as (_ & Hu & Hout). assert (Hfloat : match u with TInt | TFloat => True | _ => False end → ∀ output, ag_output_type a = Some output →
      (∀ b, is_finite b = true → is_u64 b = true → safe (has_type cat output) (coerce cat (VOption (Some (VFloat (normal_zero b)))) output)) →
      ∃ output, ag_output_type a = Some output ∧
        safe (λ v, average_of Average u (unwrapped <$> inputs) v ∧ safe (has_type cat output) (coerce cat (VOption (Some v)) output)) (finish_average a total (zlen inputs))).
    { intros Hk output Eo Hco. exists output. split; [done|].
      assert (total = TotalFloat (float_total (as_float <$> (unwrapped <$> inputs))) ∧ is_u64 (float_total (as_float <$> (unwrapped <$> inputs))) = true) as [-> Hb]
        by (destruct u; try done; by destruct Ht as (? & ? & ?)).
      cbn [finish_average]. eapply safe_bind; [apply finite_safe|]. intros b [-> Hfin]. apply safe_Ok. change (if is_zero ?b then 0 else ?b) with (normal_zero b).
      assert (Hq : ∀ n, is_i64 n = true → is_u64 (f64_div (float_total (as_float <$> (unwrapped <$> inputs))) (i64_as_f64 n)) = true)
        by (intros n Hn; apply f64_div_u64; by apply i64_as_f64_finite).
      split; [destruct u; try done; cbn [average_of]; by rewrite Hlen|]. by apply Hco, Hq. }
    destruct u; try done.
    + apply (Hfloat I _ Hout). intros b Hb1 Hb2. apply coerce_typed; [done|]. apply option_has_type. intros v [= <-]. by apply normal_zero_typed.
    + apply (Hfloat I _ Hout). intros b Hb1 Hb2. apply (coerce_option_raw ty TFloat); [apply Hg|done|]. apply has_type_raw with cat; [|done]. by apply normal_zero_typed.
    + eexists. split; [exact Hout|]. destruct Ht as (zs & E & ->). cbn [finish_average]. apply checked_i64_safe; [done|]. intros Hi. split; [exists zs; by rewrite Hlen|].
      apply (coerce_option_raw ty TDuration); [apply Hg|done|by split].
  - destruct Hw as (_ & Hu & Hk & Hs & Hout). eexists. split; [exact Hout|]. destruct u; try done. destruct Ht as (ds & E & ->). cbn [finish_average]. rewrite Hf.
    eapply safe_fmap; [apply safe_and; [by apply (average_coefficients_safe (sumZ (coefficient <$> ds)) scale (zlen inputs) p s r)|intros d Hd; exact Hd]|].
    intros d [Hfit Hd]. split; [exists ds, d, p, s, r; by rewrite Hlen|]. apply coerce_typed.
    + split; [|done]. destruct Hfit as (Hp & Hsp & _). simpl. apply andb_true_iff. split; apply in_range_spec; lia.
    + apply option_has_type. intros v [= <-]. by apply prim_has_type.
Qed.

Lemma raw_safe `{!KeyTextLaws} a ty u inputs s : good_type names ty → well_bound a ty u → ag_function a ≠ Count → Forall (has_type cat ty) inputs →
  state_of cat (ag_function a) ty u inputs s →
  ∃ output, ag_output_type a = Some output ∧ safe (delivers (ag_function a) ty u output inputs) (raw_result cat a output s).
Proof.
  intros Hg Hw Hf Hin Hs.
  assert (Hext : ∀ minimum o, match o with None => inputs = [] | Some m => extreme_of cat ty minimum inputs m end →
    optional inputs (extreme_of cat ty minimum inputs) (VOption o) ∧ safe (has_type cat (TOption ty)) (coerce cat (VOption o) (TOption ty))).
  { intros minimum [m|] Hm; [|subst inputs; split; [done|apply coerce_none]]. destruct Hm as [Hm1 Hm2]. split.
    - destruct inputs; [by apply elem_of_nil in Hm1|]. by exists m.
    - apply coerce_typed; [exact Hg|]. apply option_has_type. intros v [= <-]. rewrite list.Forall_forall in Hin. by apply Hin. }
  assert (Havg : ∀ t n, ag_function a = Average ∨ (∃ p q r, ag_function a = DecimalAverage p q r) → s = StateAverage t n →
    (n = zlen inputs ∧ is_i64 n = true ∧ match t with None => inputs = [] | Some total => inputs ≠ [] ∧ average_state u (unwrapped <$> inputs) total end) →
    ∃ output, ag_output_type a = Some output ∧ safe (delivers (ag_function a) ty u output inputs) (raw_result cat a output s)).
  { intros t n Hk -> (-> & Hi & Ht). assert (Hagg : ∀ raw, optional inputs (average_of (ag_function a) u (unwrapped <$> inputs)) raw → aggregate_of cat (ag_function a) ty u inputs raw)
      by (by destruct Hk as [->|(p & q & r & ->)]). destruct t as [total|].
    - destruct Ht as [Hne Ht]. destruct (average_result a ty u inputs total Hg Hi Hw Hne Hin Hk Ht) as (output & Ho & Hs'). exists output. split; [done|]. cbn [raw_result].
      eapply safe_bind; [exact Hs'|]. intros v [Hv Hc]. apply safe_Ok. split; [|done]. apply Hagg. destruct inputs; [done|]. by exists v.
    - subst inputs. assert (∃ output, ag_output_type a = Some (TOption output)) as [output Ho].
      { unfold well_bound in Hw. destruct Hk as [E|(p & q & r & E)]; rewrite E in Hw; [|by destruct Hw as (_ & _ & _ & _ & ?); eexists].
        destruct Hw as (_ & _ & Ho). destruct u; try done; by eexists. }
      exists (TOption output). split; [done|]. apply safe_Ok. split; [by apply Hagg|]. apply coerce_none. }
  destruct (ag_function a) as [| | |p q r| | |] eqn:Ef; try done; destruct s as [c|values|t n|t|o|o]; try done.
  - unfold well_bound in Hw. rewrite Ef in Hw. destruct Hw as [_ Ho]. exists TInt. split; [done|]. destruct Hs as [Hso Hmem]. cbn [raw_result].
    destruct (distinct_values ty inputs values) as (distinct & Hnd & Hd & Hlen); [apply Hg|done|done|done|]. apply checked_i64_safe; [done|]. intros Hi.
    split; [exists distinct; by rewrite Hlen|by apply int_delivered].
  - apply (Havg t n); [by left|done|done].
  - apply (Havg t n); [right; by exists p, q, r|done|done].
  - exists ty. split; [unfold well_bound in Hw; rewrite Ef in Hw; by destruct Hw as (_ & _ & ? & _)|]. by apply (sum_result a ty u inputs (StateSum t)).
  - exists (TOption ty). split; [unfold well_bound in Hw; rewrite Ef in Hw; by destruct Hw as (_ & ?)|]. apply safe_Ok. by apply (Hext true).
  - exists (TOption ty). split; [unfold well_bound in Hw; rewrite Ef in Hw; by destruct Hw as (_ & ?)|]. apply safe_Ok. by apply (Hext false).
Qed.

(** ** Groups *)

Context (example : Fields) (Hexample : typed_env cat schema (row_field example)).
Context `{!KeyTextLaws}.

(** The value [v] is the aggregate of the rows, as a value of the output type. *)
Definition aggregated (a : AggregateAssignment) (rows : list Fields) (v : Value) : Prop :=
  ∃ output raw, ag_output_type a = Some output ∧ coerce cat raw output = Ok v ∧ has_type cat output v ∧
    match ag_function a with
    | Count => raw = VInt (zlen rows)
    | f => ∃ ty u inputs, well_bound a ty u ∧ inputs_of a rows = Ok inputs ∧ Forall (has_type cat ty) inputs ∧ aggregate_of cat f ty u inputs raw
    end.

Definition finish_one (a : AggregateAssignment) (s : AggregateState) : result Value :=
  output ← ok_or (ag_output_type a) "E_TYPE"; raw ← raw_result cat a output s; coerce cat raw output.

Lemma finish_one_safe a ty u rows s : well_bound a ty u → (∀ row, row ∈ rows → typed_env cat schema (row_field row)) → run cat a rows = Ok s →
  safe (aggregated a rows) (finish_one a s).
Proof.
  intros Hw Henv Hrun. unfold finish_one. assert (ag_function a = Count ∨ ag_function a ≠ Count) as [Hf|Hf] by (destruct (ag_function a); by auto).
  - pose proof (run_count a rows Hf) as Hc. rewrite Hrun in Hc. destruct Hc as [-> Hi]. unfold well_bound in Hw. rewrite Hf in Hw. rewrite Hw. cbn [ok_or]. rewrite bind_pure.
    cbn [raw_result]. rewrite bind_pure. eapply safe_impl; [apply safe_and; [by apply int_delivered|intros v Hv; exact Hv]|]. intros v [Ht Hv].
    exists TInt, (VInt (zlen rows)). by rewrite Hf.
  - pose proof (run_safe a ty u rows Hw Hf Henv) as Hc. rewrite Hrun in Hc. destruct Hc as (inputs & Hin & Hall & Hs).
    destruct (input_safe a ty example) as [Hg _]; [by eapply well_bound_input|done|].
    destruct (raw_safe a ty u inputs s Hg Hw Hf Hall Hs) as (output & Ho & Hr). rewrite Ho. cbn [ok_or]. rewrite bind_pure. eapply safe_bind; [exact Hr|]. intros raw [Hagg Hc].
    eapply safe_impl; [apply safe_and; [exact Hc|intros v Hv; exact Hv]|]. intros v [Ht Hv]. exists output, raw. split_and!; [done..|].
    destruct (ag_function a); try done; by exists ty, u, inputs.
Qed.

Lemma finish_states_safe rows l states row : (∀ i a s, l !! i = Some a → states !! i = Some s → safe (aggregated a rows) (finish_one a s)) → length states = length l →
  NoDup (ag_name <$> l) →
  safe (λ out, (∀ a, a ∈ l → ∃ v, bt_get (ag_name a) out = Some v ∧ aggregated a rows v) ∧ ∀ n, n ∉ ag_name <$> l → bt_get n out = bt_get n row) (finish_states cat l states row).
Proof.
  revert states row. induction l as [|a l IH]; intros [|s states] row Hone Hlen Hnd; try done; cbn [finish_states].
  - apply safe_Ok. split; [|done]. intros a Ha. by apply elem_of_nil in Ha.
  - cbn [fmap list_fmap] in Hnd. apply list.NoDup_cons in Hnd as [Hn Hnd]. pose proof (Hone 0%nat a s eq_refl eq_refl) as Hs. unfold finish_one in Hs.
    destruct (ok_or (ag_output_type a) "E_TYPE") as [output|]; [|exact Hs]. rewrite bind_pure in Hs. rewrite bind_pure. destruct (raw_result cat a output s) as [raw|]; [|exact Hs]. rewrite bind_pure in Hs. rewrite bind_pure.
    destruct (coerce cat raw output) as [v|]; [|exact Hs]. rewrite bind_pure. eapply safe_impl; [apply IH; [intros i; apply (Hone (S i))|by injection Hlen|done]|].
    intros out [H1' H2']. split.
    + intros b [->|Hb]%elem_of_cons; [|by apply H1']. exists v. split; [|done]. rewrite H2' by done. apply bt_get_insert_eq.
    + intros n Hin. rewrite H2' by (intros ?; apply Hin; by right). apply bt_get_insert_ne. intros ->. apply Hin. by left.
Qed.

(** What binding guarantees of an aggregate. *)
Record bound_aggregate (agg : Aggregate) : Prop := {
  ba_paths path : path ∈ agg_group_by agg → ∃ ty, field_type cat schema path = Ok ty;
  ba_names : NoDup (agg_group_by agg ++ (ag_name <$> agg_assignments agg));
  ba_assignments a : a ∈ agg_assignments agg → ∃ ty u, well_bound a ty u
}.

Section loop.
Context (agg : Aggregate) (Hagg : bound_aggregate agg).

Lemma run_next a rows row s : a ∈ agg_assignments agg → (∀ r, r ∈ rows ++ [row] → typed_env cat schema (row_field r)) → run cat a rows = Ok s →
  safe (λ _, True) (step cat row a s).
Proof.
  intros Ha Henv Hrun. destruct (ba_assignments _ Hagg a Ha) as (ty & u & Hw).
  assert (Hs : safe (λ _, True) (run cat a (rows ++ [row]))).
  { assert (ag_function a = Count ∨ ag_function a ≠ Count) as [Hf|Hf] by (destruct (ag_function a); by auto).
    - eapply safe_impl; [by apply run_count|done].
    - eapply safe_impl; [by eapply run_safe|done]. }
  unfold run in Hs, Hrun. rewrite foldR_app, Hrun, bind_pure in Hs. cbn [foldR] in Hs. by destruct (step cat row a s).
Qed.

Lemma update_states_safe row l states n : (∀ i a s, l !! i = Some a → states !! i = Some s → safe (λ _, True) (step cat row a s)) →
  safe (λ _, True) (update_states cat row l states n).
Proof.
  revert states n. induction l as [|a l IH]; intros [|s states] n Hone; try done. cbn [update_states].
  pose proof (Hone 0%nat a s eq_refl eq_refl) as Hs. unfold step in Hs. rewrite (update_state_bytes cat row a s 0 n) in Hs.
  destruct (update_state cat row a s n) as [[s' m]|]; [|exact Hs]. rewrite bind_pure. eapply safe_bind; [apply IH; intros i; apply (Hone (S i))|]. by intros [states' k] _.
Qed.

(** The key and the values that a row has for the group fields. *)
Lemma group_fields_typed row paths : typed_env cat schema (row_field row) → (∀ path, path ∈ paths → ∃ ty, field_type cat schema path = Ok ty) →
  ∃ values, group_fields paths row = Ok ((λ e, json_text (index_key e.2)) <$> values, values) ∧ values.*1 = paths ∧ ∀ path v, (path, v) ∈ values → row_field row path = Some v.
Proof.
  intros Henv. induction paths as [|path paths IH]; intros Hp; [exists []; split_and!; [done..|]; intros path v Hin; by apply elem_of_nil in Hin|].
  destruct IH as (values & E & Hfst & Hv); [intros q Hq; apply Hp; by right|]. destruct (Hp path ltac:(by left)) as [ty Hty]. destruct (Henv path ty Hty) as (v & Ev & _).
  exists ((path, v) :: values). cbn [group_fields]. rewrite Ev. cbn [ok_or]. rewrite bind_pure, E, bind_pure. split_and!; [done|by rewrite <-Hfst|].
  intros q w [[= -> ->]|Hin]%elem_of_cons; [done|by apply Hv].
Qed.

Lemma check_limits_safe n m k : safe (λ _, True) (check_group_limits n m k).
Proof. unfold check_group_limits. by repeat case_match. Qed.

Lemma one_row_safe rows groups n row : grouped cat agg rows groups → (∀ r, r ∈ rows ++ [row] → typed_env cat schema (row_field r)) →
  safe (λ st, grouped cat agg (rows ++ [row]) st.1) (aggregate_one_row cat agg (groups, n) row).
Proof.
  intros Hg Henv. eapply safe_impl; [apply (safe_and (λ _, True) (λ st, grouped cat agg (rows ++ [row]) st.1))|by intros ? [_ ?]].
  - destruct (group_fields_typed row (agg_group_by agg)) as (values & Ek & _ & _); [apply Henv, elem_of_app; right; by left|apply Hagg|].
    set (key := (λ e, json_text (index_key e.2)) <$> values) in *. unfold aggregate_one_row. rewrite Ek, bind_pure.
    eapply (safe_bind (λ st, st.1 = open_group agg groups key values)).
    { unfold open_group. destruct (bt_mem key groups); [done|]. eapply safe_bind; [apply check_limits_safe|]. by intros [] _. }
    intros [groups1 n1] Hopen. cbn [fst] in Hopen. subst groups1. assert (is_Some (bt_get key (open_group agg groups key values))) as [g Eg].
    { unfold open_group, bt_mem. destruct (bt_get key groups) as [g|] eqn:E; [rewrite E; by eexists|]. rewrite bt_get_insert_eq. by eexists. }
    rewrite Eg. cbn [ok_or]. rewrite bind_pure. destruct (opened_group cat agg rows groups row key values g Hg Ek Eg) as ([Hlen Hs] & _).
    unfold accumulator_update. pose proof (update_states_safe row (agg_assignments agg) (ga_states g) n1) as Hu.
    destruct (update_states cat row (agg_assignments agg) (ga_states g) n1) as [[states n2]|].
    + rewrite !bind_pure. eapply safe_bind; [apply check_limits_safe|]. by intros [] _.
    + apply Hu. intros i a s Ha Hsi. destruct (Hs i a Ha) as (s' & Hs' & Hrun). rewrite Hsi in Hs'. injection Hs' as <-.
      apply (run_next a (group_rows agg key rows) row s); [by eapply list_elem_of_lookup_2| |done].
      intros r Hr. apply Henv. apply elem_of_app in Hr as [Hr|Hr]; apply elem_of_app; [left; by apply group_rows_elem in Hr as [Hr _]|by right].
  - intros [groups' n'] E. by eapply one_row_grouped.
Qed.

Lemma all_rows_safe done rows groups n : grouped cat agg done groups → (∀ r, r ∈ done ++ rows → typed_env cat schema (row_field r)) →
  safe (λ st, grouped cat agg (done ++ rows) st.1) (foldR (aggregate_one_row cat agg) (groups, n) rows).
Proof.
  revert done groups n. induction rows as [|row rows IH]; intros done groups n Hg Henv; cbn [foldR]; [apply safe_Ok; by rewrite app_nil_r|].
  replace (done ++ row :: rows) with ((done ++ [row]) ++ rows) in * by (by rewrite <-app_assoc).
  eapply safe_bind; [apply (one_row_safe done); [done|intros r Hr; apply Henv, elem_of_app; by left]|]. intros [groups' n'] Hg'. by apply IH.
Qed.

Lemma group_fields_ext paths r1 r2 : (∀ path, path ∈ paths → row_field r1 path = row_field r2 path) → group_fields paths r1 = group_fields paths r2.
Proof.
  induction paths as [|path paths IH]; intros Hp; [done|]. cbn [group_fields]. rewrite (Hp path) by (by left). by rewrite IH by (intros q Hq; apply Hp; by right).
Qed.

(** Two rows are in one group exactly when they agree on the group fields. *)
Lemma same_group r1 r2 key : typed_env cat schema (row_field r1) → typed_env cat schema (row_field r2) → group_key agg r1 = Ok key →
  group_key agg r2 = Ok key ↔ ∀ path, path ∈ agg_group_by agg → row_field r2 path = row_field r1 path.
Proof.
  intros T1 T2 E1. split; [|intros Hp; unfold group_key in *; by rewrite (group_fields_ext _ r2 r1 Hp)]. unfold group_key in *.
  assert (Hpaths : ∀ path, path ∈ agg_group_by agg → ∃ ty, field_type cat schema path = Ok ty) by apply Hagg.
  intros E2. rewrite <-E1 in E2. clear E1. revert E2 Hpaths. induction (agg_group_by agg) as [|p paths IH]; intros E2 Hpaths path Hin; [by apply elem_of_nil in Hin|].
  destruct (Hpaths p ltac:(by left)) as [ty Hty]. destruct (T1 p ty Hty) as (v & Ev & Hv), (T2 p ty Hty) as (w & Ew & Hw).
  cbn [group_fields] in E2. rewrite Ev, Ew in E2. cbn [ok_or] in E2. rewrite !bind_pure in E2.
  destruct (group_fields_typed r1 paths T1) as (vs1 & F1 & _); [intros q Hq; apply Hpaths; by right|].
  destruct (group_fields_typed r2 paths T2) as (vs2 & F2 & _); [intros q Hq; apply Hpaths; by right|]. rewrite F1, F2, !bind_pure in *.
  injection E2 as Ek Erest. apply elem_of_cons in Hin as [->|Hin].
  - rewrite Ev, Ew. f_equal. apply (index_key_typed cat ty); [apply Hcat|by apply (field_type_good names cat Hcat schema p)|done..].
  - apply IH; [cbn; by rewrite Erest|intros q Hq; apply Hpaths; by right|done].
Qed.

Lemma collected_other (values : list (string * Value)) row path : path ∉ values.*1 →
  bt_get path (foldl (λ row '(n, v), bt_insert n v row) row values) = bt_get path row.
Proof.
  revert row. induction values as [|[n v] values IH]; intros row Hp; [done|]. cbn [foldl]. rewrite IH by (intros ?; apply Hp; by right).
  apply bt_get_insert_ne. intros ->. apply Hp. by left.
Qed.

Lemma collected_field (values : list (string * Value)) row path v : NoDup values.*1 → (path, v) ∈ values →
  bt_get path (foldl (λ row '(n, v), bt_insert n v row) row values) = Some v.
Proof.
  revert row. induction values as [|[n w] values IH]; intros row Hnd Hin; [by apply elem_of_nil in Hin|]. cbn [foldl fmap list_fmap] in *.
  apply list.NoDup_cons in Hnd as [Hn Hnd]. apply elem_of_cons in Hin as [[= -> ->]|Hin]; [|by apply IH]. rewrite collected_other by done. apply bt_get_insert_eq.
Qed.

(** What an output row says of the group with this key. *)
Record group_output (rows : list Fields) (key : list string) (out : Fields) : Prop := {
  gout_members row : row ∈ rows → row ∈ group_rows agg key rows ↔ ∀ path, path ∈ agg_group_by agg → row_field row path = bt_get path out;
  gout_values a : a ∈ agg_assignments agg → ∃ v, bt_get (ag_name a) out = Some v ∧ aggregated a (group_rows agg key rows) v
}.

Lemma finish_group_safe rows key g : (∀ r, r ∈ rows → typed_env cat schema (row_field r)) → group_of cat agg key rows g →
  safe (group_output rows key) (accumulator_finish cat g (agg_assignments agg)).
Proof.
  intros Henv [[Hlen Hs] Hfields Hempty]. unfold accumulator_finish.
  pose proof (ba_names _ Hagg) as Hnames. apply list.NoDup_app in Hnames as (Hby & Hdisj & Hnd).
  eapply safe_impl; [apply (finish_states_safe (group_rows agg key rows) (agg_assignments agg) (ga_states g)); [|done|done]|].
  - intros i a s Ha Hsi. destruct (Hs i a Ha) as (s' & Hs' & Hrun). rewrite Hsi in Hs'. injection Hs' as <-.
    destruct (ba_assignments _ Hagg a) as (ty & u & Hw); [by eapply list_elem_of_lookup_2|]. apply (finish_one_safe a ty u); [done| |done].
    intros r Hr. apply Henv. by apply group_rows_elem in Hr as [Hr _].
  - intros out [Hv Hother]. split; [|done]. intros row Hrow.
    destruct (group_rows agg key rows) as [|r l] eqn:El.
    + destruct (Hempty eq_refl) as (Hnone & -> & _). exfalso. assert (Hin : row ∈ group_rows agg [] rows) by (apply group_rows_elem; split; [done|]; unfold group_key; by rewrite Hnone).
      rewrite El in Hin. by apply elem_of_nil in Hin.
    + destruct (Hfields r ltac:(by left)) as (first & Hfirst & Ef). rewrite <-El in *. apply group_rows_elem in Hfirst as [Hfirst Ekey].
      rewrite group_rows_elem, (same_group first row key); [|by apply Henv|by apply Henv|done].
      assert (Hout : ∀ path, path ∈ agg_group_by agg → row_field first path = bt_get path out).
      { intros path Hpath. destruct (group_fields_typed first (agg_group_by agg)) as (values & Ev & Hfst & Hval); [by apply Henv|apply Hagg|].
        rewrite Ef in Ev. injection Ev as _ <-. rewrite Hother by (by apply Hdisj). rewrite <-Hfst in Hpath, Hby. apply list_elem_of_fmap in Hpath as ([p v] & -> & Hin). cbn [fst].
        rewrite (collected_field (ga_fields g) [] p v) by done. by apply Hval. }
      split; [intros [_ Hp] path Hpath; rewrite Hp by done; by apply Hout|]. intros Hp. split; [done|]. intros path Hpath. rewrite Hp by done. symmetry. by apply Hout.
Qed.

Lemma mapR_safe {A B} (f : A → result B) (P : A → B → Prop) l : (∀ x, x ∈ l → safe (P x) (f x)) → safe (Forall2 P l) (mapR f l).
Proof.
  induction l as [|x l IH]; intros Hf; cbn [mapR]; [by apply safe_Ok|]. eapply safe_bind; [apply Hf; by left|]. intros y Hy.
  eapply safe_bind; [apply IH; intros z Hz; apply Hf; by right|]. intros ys Hys. apply safe_Ok. by constructor.
Qed.

(** One output row for each group. *)
Definition grouped_output (rows out : list Fields) : Prop :=
  ∃ keys, NoDup keys ∧ (∀ row, row ∈ rows → ∃ key, key ∈ keys ∧ row ∈ group_rows agg key rows) ∧
    (if decide (agg_group_by agg = []) then keys = [[]] else ∀ key, key ∈ keys → group_rows agg key rows ≠ []) ∧
    Forall2 (group_output rows) keys out.

Lemma grouped_keys rows groups : grouped cat agg rows groups →
  if decide (agg_group_by agg = []) then groups.*1 = [[]] else ∀ key, key ∈ groups.*1 → group_rows agg key rows ≠ [].
Proof.
  intros Hg. assert (Hkey : ∀ key, key ∈ groups.*1 → group_rows agg key rows = [] → agg_group_by agg = [] ∧ key = []).
  { intros key ([k g] & -> & Hin)%list_elem_of_fmap Hnil. cbn [fst] in *. apply (bt_get_iff k g groups (gr_sorted _ _ _ _ Hg)) in Hin.
    destruct (gr_groups _ _ _ _ Hg k g Hin) as [_ _ He]. by destruct (He Hnil) as (? & ? & _). }
  destruct (decide _) as [Hby|Hby]; [|intros key Hin Hnil; by destruct (Hkey key Hin Hnil)].
  assert (Hall : ∀ key, key ∈ groups.*1 → key = []).
  { intros key Hin. destruct (group_rows agg key rows) as [|r l] eqn:E; [by apply Hkey|]. assert (r ∈ group_rows agg key rows) as [_ Hr]%group_rows_elem by (rewrite E; by left).
    unfold group_key in Hr. rewrite Hby in Hr. by injection Hr. }
  destruct (gr_all _ _ _ _ Hg Hby) as [g Hin%bt_get_elem]. pose proof (bt_sorted_NoDup groups (gr_sorted _ _ _ _ Hg)) as Hnd.
  apply (list_elem_of_fmap_2 fst) in Hin. cbn [fst] in Hin. destruct (groups.*1) as [|k1 [|k2 l]]; [by apply elem_of_nil in Hin|by rewrite (Hall k1 ltac:(by left))|].
  exfalso. apply list.NoDup_cons in Hnd as [Hn _]. apply Hn. rewrite (Hall k1 ltac:(by left)), (Hall k2 ltac:(right; by left)). by left.
Qed.

Lemma aggregate_rows_safe rows : (∀ r, r ∈ rows → typed_env cat schema (row_field r)) → safe (grouped_output rows) (aggregate_rows cat agg rows).
Proof.
  intros Henv. unfold aggregate_rows. eapply safe_bind; [apply (all_rows_safe []); [apply new_groups_grouped|done]|]. intros [groups n] Hg. cbn [fst app] in Hg.
  unfold finish_aggregate_groups. eapply safe_impl; [apply (mapR_safe _ (λ e, group_output rows e.1))|].
  - intros [key g] Hin. apply finish_group_safe; [done|]. apply (gr_groups _ _ _ _ Hg). apply bt_get_iff; [apply Hg|done].
  - intros out Hout. exists groups.*1. split_and!.
    + apply bt_sorted_NoDup, Hg.
    + intros row Hrow. destruct (gr_keys _ _ _ _ Hg row Hrow) as (key & Hkey & [g Eg%bt_get_elem]). exists key. split; [by apply (list_elem_of_fmap_2 fst _ (key, g))|by apply group_rows_elem].
    + by apply grouped_keys.
    + by apply Forall2_fmap_l.
Qed.
End loop.

(** ** Binding *)

Lemma bind_groups_Ok paths (ns : bset string) columns ns' columns' : bind_groups cat schema paths ns columns = Ok (ns', columns') →
  NoDup paths ∧ (∀ path, path ∈ paths → bs_mem path ns = false ∧ ∃ ty, field_type cat schema path = Ok ty) ∧ (∀ n, bs_mem n ns' = true ↔ n ∈ paths ∨ bs_mem n ns = true).
Proof.
  revert ns columns. induction paths as [|path paths IH]; intros ns columns E; cbn [bind_groups] in E.
  - injection E as <- <-. split_and!; [constructor|intros p Hp; by apply elem_of_nil in Hp|]. intros n. rewrite elem_of_nil. naive_solver.
  - destruct (bs_mem path ns) eqn:Em; [done|]. apply bind_Ok in E as (ty & Hty & E). apply IH in E as (Hnd & Hp & Hn).
    assert (Hfresh : ∀ p, p ∈ paths → p ≠ path ∧ bs_mem p ns = false).
    { intros p Hin. destruct (Hp p Hin) as [Hmem _]. split.
      - intros ->. by rewrite (proj2 (bs_mem_insert path path ns) (or_introl eq_refl)) in Hmem.
      - apply not_true_is_false. intros Ht. by rewrite (proj2 (bs_mem_insert p path ns) (or_intror Ht)) in Hmem. }
    split_and!.
    + apply list.NoDup_cons. split; [|done]. intros Hin. by destruct (Hfresh path Hin).
    + intros p [->|Hin]%elem_of_cons; [by eauto|]. split; [by apply Hfresh|by apply Hp].
    + intros n. rewrite Hn, bs_mem_insert, elem_of_cons. naive_solver.
Qed.

(** The inputs of the query text, and scales that fit a byte. *)
Definition source_ok (a : AggregateAssignment) : Prop :=
  (∀ e, ag_input a = Some e → expr_ok names cat e) ∧ match ag_function a with DecimalAverage _ s _ => 0 ≤ s | _ => True end.

(** A sum of decimals is of a valid decimal type that is not a named type. *)
Definition plain_sum (a : AggregateAssignment) : Prop :=
  ag_function a = Sum → ∀ ty p s, ag_output_type a = Some ty → underlying cat ty = Ok (TDecimal p s) → ty = TDecimal p s ∧ is_ok (validate_type p s) = true ∧ 0 ≤ s.

Definition typed_output (a : AggregateAssignment) (ty : ScalarType) : AggregateAssignment :=
  mkAggregateAssignment (ag_name a) (ag_function a) (ag_input a) (Some ty).

Lemma input_type_bound a b ty : source_ok a → aggregate_input_type cat schema a = Ok (b, ty) →
  ag_name b = ag_name a ∧ ag_function b = ag_function a ∧ ∀ t, bound_input (typed_output b t) ty.
Proof.
  intros [Hok _] E. unfold aggregate_input_type in E. apply bind_Ok in E as (e & He%ok_or_Ok & E). apply bind_Ok in E as ([e' t'] & Hb & [= <- <-]).
  split_and!; [done..|]. intros t. exists e, e'. split_and!; [done|by apply Hok|done].
Qed.

Lemma aggregate_type_bound a b ty : source_ok a → aggregate_type cat schema a = Ok (b, ty) → plain_sum (typed_output b ty) →
  ag_name b = ag_name a ∧ ∃ t u, well_bound (typed_output b ty) t u.
Proof.
  intros Hok E Hplain. unfold aggregate_type in E. unfold well_bound. cbn [typed_output ag_function ag_output_type].
  destruct (ag_function a) as [| | |p q r| | |] eqn:Ef.
  1: { injection E as <- <-. rewrite Ef. split; [done|]. by exists TInt, TInt. }
  all: apply bind_Ok in E as ([b' t] & Hb & E); destruct (input_type_bound a b' t Hok Hb) as (Hname & Hfun & Hin).
  - injection E as <- <-. rewrite Hfun, Ef. split; [done|]. by exists t, t.
  - apply bind_Ok in E as (u & Hu & E). apply bind_Ok in E as (res & Hr & [= <- <-]). rewrite Hfun, Ef. split; [done|]. exists t, u. destruct u; try done; by injection Hr as <-.
  - apply bind_Ok in E as (u & Hu & E). destruct u; try done. injection E as <- <-. rewrite Hfun, Ef. split; [done|]. eexists t, _. split_and!; try done.
    destruct Hok as [_ Hok]. by rewrite Ef in Hok.
  - apply bind_Ok in E as (u & Hu & E). assert (E' : Ok (b', t) = Ok (b, ty)) by (by destruct u). injection E' as <- <-. rewrite Hfun, Ef. split; [done|].
    exists t, u. split_and!; try done. destruct u; try done. apply (Hplain ltac:(cbn; congruence) t precision scale); done.
  - apply bind_Ok in E as (o & _ & E). destruct o; [|done]. injection E as <- <-. rewrite Hfun, Ef. split; [done|]. by exists t, t.
  - apply bind_Ok in E as (o & _ & E). destruct o; [|done]. injection E as <- <-. rewrite Hfun, Ef. split; [done|]. by exists t, t.
Qed.

Lemma bind_assignments_Ok l (ns : bset string) columns l' columns' : Forall source_ok l → bind_assignments cat schema l ns columns = Ok (l', columns') → Forall plain_sum l' →
  ag_name <$> l' = ag_name <$> l ∧ NoDup (ag_name <$> l) ∧ (∀ n, n ∈ ag_name <$> l → bs_mem n ns = false) ∧ ∀ a, a ∈ l' → ∃ t u, well_bound a t u.
Proof.
  intros Hok. revert ns columns l' columns'. induction Hok as [|a l Ha Hl IH]; intros ns columns l' columns' E Hp; cbn [bind_assignments] in E.
  - injection E as <- <-. split_and!; [done|constructor|intros n Hn; by apply elem_of_nil in Hn|intros a Ha; by apply elem_of_nil in Ha].
  - destruct (bs_mem (ag_name a) ns) eqn:Em; [done|]. apply bind_Ok in E as ([b ty] & Hb & E). apply bind_Ok in E as ([rest columns1] & Er & [= <- <-]).
    apply list.Forall_cons in Hp as [Hp Hprest]. destruct (aggregate_type_bound a b ty Ha Hb Hp) as [Hname Hw].
    destruct (IH _ _ _ _ Er Hprest) as (Hnames & Hnd & Hmem & Hrest).
    assert (Hfresh : ∀ n, n ∈ ag_name <$> l → n ≠ ag_name a ∧ bs_mem n ns = false).
    { intros n Hn. specialize (Hmem n Hn). split.
      - intros ->. by rewrite (proj2 (bs_mem_insert (ag_name a) (ag_name a) ns) (or_introl eq_refl)) in Hmem.
      - apply not_true_is_false. intros Ht. by rewrite (proj2 (bs_mem_insert n (ag_name a) ns) (or_intror Ht)) in Hmem. }
    cbn [fmap list_fmap ag_name]. split_and!.
    + by rewrite Hname, <-Hnames.
    + apply list.NoDup_cons. split; [|done]. intros Hin. by destruct (Hfresh _ Hin).
    + intros n [->|Hn]%elem_of_cons; [done|by apply Hfresh].
    + intros a' [->|Ha']%elem_of_cons; [exact Hw|by apply Hrest].
Qed.

Lemma bind_aggregate_bound agg0 agg columns : Forall source_ok (agg_assignments agg0) → bind_aggregate cat schema agg0 = Ok (agg, columns) →
  Forall plain_sum (agg_assignments agg) → bound_aggregate agg.
Proof.
  intros Hok E Hp. unfold bind_aggregate in E. destruct (_ >? _); [done|]. apply bind_Ok in E as ([ns c1] & Eg & E). apply bind_Ok in E as ([l c2] & Ea & [= <- <-]).
  destruct (bind_groups_Ok _ _ _ _ _ Eg) as (Hnd & Hpath & Hmem). destruct (bind_assignments_Ok _ _ _ _ _ Hok Ea Hp) as (Hnames & Hnda & Hfresh & Hw).
  split; cbn [agg_group_by agg_assignments]; [intros path Hin; by apply Hpath| |done]. rewrite Hnames. apply list.NoDup_app. split_and!; [done| |done].
  intros n Hn Hn'. apply Hfresh in Hn'. by rewrite (proj2 (Hmem n) (or_introl Hn)) in Hn'.
Qed.
End runs.
End steps.

(** C23: aggregation is exact, for aggregates whose sums are not over a named decimal type
    (these fail, [named_decimal_sum_fails]).  A bound aggregate over rows of the declared
    columns yields, or fails with a run-time error (a limit, an overflow) that is neither a
    type error nor a missing field nor a panic: one row for each group of input rows.  The rows of a group
    are exactly those that agree with the output row on the group fields; there is one
    group, empty or not, when there are no group fields, and no empty group otherwise.
    Each assigned field is the count, the number of distinct values, the sum, the average
    or an extreme of the inputs from exactly these rows, as a value of the bound type. *)
Theorem aggregation_exact `{TL : TextLib} {Laws : TextLibLaws} `{KeyTextLaws} names cat schema agg0 agg columns rows example :
  good_catalog names cat → scope_ok names schema → Forall (source_ok names cat) (agg_assignments agg0) →
  bind_aggregate cat schema agg0 = Ok (agg, columns) → Forall (plain_sum cat) (agg_assignments agg) →
  typed_env cat schema (row_field example) → (∀ row, row ∈ rows → typed_env cat schema (row_field row)) →
  match aggregate_rows cat agg rows with
  | Ok out => grouped_output names cat schema agg rows out
  | Err code => internal_error code = false
  end.
Proof.
  intros Hcat Hscope Hok Hb Hp Hex Hrows. apply (aggregate_rows_safe names cat Hcat schema Hscope example Hex agg); [|done].
  by eapply bind_aggregate_bound.
Qed.

(** C40: [sum] over a field of a named decimal type passes binding and fails on the second row.
    The ungrouped aggregate that assigns this sum is bound, for every name of a decimal
    type; the accumulator matches the output type against the decimal type without resolving
    the name, so over two or more rows with values of the field it fails: with a type error,
    unless adding the first two values fails already. *)
Theorem named_decimal_sum_fails `{TextLib} `{Base64} `{JsonText} cat schema name path id p s :
  field_type cat schema path = Ok (TRef id) → underlying cat (TRef id) = Ok (TDecimal p s) →
  ∃ agg columns, bind_aggregate cat schema (mkAggregate [] [mkAggregateAssignment name Sum (Some (SReference path)) None]) = Ok (agg, columns) ∧
    ∀ r1 r2 rest v1 v2 d1 d2, row_field r1 path = Some v1 → row_field r2 path = Some v2 → unwrapped v1 = VDecimal d1 → unwrapped v2 = VDecimal d2 →
      aggregate_rows cat agg (r1 :: r2 :: rest) = match checked_add d1 d2 with Ok _ => Err "E_TYPE" | Err code => Err code end.
Proof.
  intros Hf Hu. set (a := mkAggregateAssignment name Sum (Some (SReference path)) (Some (TRef id))). exists (mkAggregate [] [a]), [Column name (TRef id) None 0]. split.
  { unfold bind_aggregate. cbn [agg_assignments agg_group_by bind_groups]. change (zlen [_] >? MAX_AGGREGATE_OUTPUTS) with false. cbn iota. rewrite bind_pure.
    cbn [bind_assignments]. unfold aggregate_type, aggregate_input_type. cbn [ag_function ag_input ok_or]. rewrite bind_pure.
    assert (bind_scalar cat schema "aggregate input" (SReference path) None = Ok (SReference path, TRef id)) as ->.
    { cbn [bind_scalar]. unfold reference_type. by rewrite Hf. }
    rewrite !bind_pure. cbv beta iota. by rewrite Hu. }
  intros r1 r2 rest v1 v2 d1 d2 E1 E2 U1 U2. unfold aggregate_rows. cbn [foldR].
  set (agg := mkAggregate [] [a]). pose (group := (λ t, [([], mkGroupAccumulator [] [StateSum t])]) : option Value → Groups).
  assert (Hstep : ∀ row v t, row_field row path = Some v →
    aggregate_one_row cat agg (group t, 0) row = (total ← sum_step a t (unwrapped v); Ok (group (Some total), 0))).
  { intros row v t Ev. assert (Ein : aggregate_input cat row a = Ok v) by (unfold aggregate_input, evaluate_value, evaluate_scalar_value; cbn; by rewrite Ev).
    unfold aggregate_one_row, accumulator_update. cbn [agg agg_group_by group_fields]. rewrite bind_pure.
    change (bt_mem [] (group t)) with true. cbn iota. rewrite bind_pure. change (bt_get [] (group t)) with (Some (mkGroupAccumulator [] [StateSum t])). cbn [ok_or ga_states ga_fields agg_assignments].
    rewrite bind_pure. change (agg_assignments agg) with [a]. cbn [ga_states ga_fields update_states update_state]. rewrite Ein, bind_pure. by destruct (sum_step a t (unwrapped v)). }
  change (new_aggregate_groups agg) with (group None).
  rewrite (Hstep r1 v1 None E1), U1. cbn [sum_step]. rewrite !bind_pure. rewrite (Hstep r2 v2 _ E2), U2. cbn [sum_step].
  by destruct (checked_add d1 d2).
Qed.

(** ** Witnesses *)

(** An injective text for JSON values: the binary digits of their code. *)
Fixpoint digits_of (p : positive) : string :=
  match p with xH => "1" | xO p => "0" +:+ digits_of p | xI p => "1" +:+ digits_of p end.

Lemma digits_of_nonempty p : digits_of p ≠ "".
Proof. by destruct p. Qed.

Lemma digits_of_inj p q : digits_of p = digits_of q → p = q.
Proof.
  revert q. induction p as [p IH|p IH|]; intros [q|q|] E; cbn in E; try done; injection E as E.
  - f_equal. by apply IH.
  - by destruct p.
  - f_equal. by apply IH.
  - by destruct q.
Qed.

#[local] Instance coded_json : JsonText := { json_text j := digits_of (countable.encode j) }.
#[local] Instance sextet_base64 : Base64 := { base64_encode := sextets }.

#[local] Instance coded_laws : KeyTextLaws.
Proof.
  split; cbn.
  - intros a b Ha Hb E. destruct (sextets_spec a Ha) as (<- & _), (sextets_spec b Hb) as (<- & _). by rewrite E.
  - intros a Ha. apply sextets_spec, Ha.
  - intros a b E%digits_of_inj. by apply encode_inj in E.
Qed.

#[local] Existing Instance plain_text.
#[local] Existing Instance plain_text_laws.

Definition score_columns : Columns := [Column "score" TInt None 1; Column "team" TText None 2].
Definition score_row (score : Z) (team : string) : Fields := [("score", VInt score); ("team", VText team)].
Definition score_aggregate : Aggregate :=
  mkAggregate ["team"] [mkAggregateAssignment "total" Sum (Some (SReference "score")) None;
                        mkAggregateAssignment "kinds" CountDistinct (Some (SReference "score")) None].
Definition score_bound : Aggregate :=
  mkAggregate ["team"] [mkAggregateAssignment "total" Sum (Some (SReference "score")) (Some TInt);
                        mkAggregateAssignment "kinds" CountDistinct (Some (SReference "score")) (Some TInt)].

Lemma score_env score team : is_i64 score = true → wf_string team = true → typed_env default_catalog score_columns (row_field (score_row score team)).
Proof.
  intros Hs Ht. apply (row_typed_env (λ _, "")); [done|done|]. split; [by exists 2%nat|]. unfold score_row. cbn [wf_value forallb fst snd]. by rewrite Hs, Ht.
Qed.

Definition score_rows : list Fields := [score_row 3 "a"; score_row 5 "b"; score_row 3 "a"].

Lemma aggregation_exact_witness :
  (∃ columns, bind_aggregate default_catalog score_columns score_aggregate = Ok (score_bound, columns)) ∧
  match aggregate_rows default_catalog score_bound score_rows with
  | Ok out => grouped_output (λ _, "") default_catalog score_columns score_bound score_rows out
  | Err code => internal_error code = false
  end ∧
  aggregate_rows default_catalog score_bound score_rows =
    Ok [[("kinds", VInt 1); ("team", VText "a"); ("total", VInt 6)]; [("kinds", VInt 1); ("team", VText "b"); ("total", VInt 5)]].
Proof.
  split; [eexists; vm_compute; reflexivity|]. split; [|vm_compute; reflexivity].
  eapply (aggregation_exact (λ _, "") default_catalog score_columns score_aggregate score_bound _ score_rows (score_row 3 "a")).
  - split; [reflexivity|constructor].
  - repeat constructor.
  - repeat constructor; cbn; intros e [= <-]; exact I.
  - vm_compute; reflexivity.
  - apply list.Forall_forall. intros a Ha Hf ty p s Ho Hu.
    repeat (apply elem_of_cons in Ha as [->|Ha]; [injection Ho as <-; vm_compute in Hu; discriminate Hu|]). by apply elem_of_nil in Ha.
  - by apply score_env.
  - intros row Hrow. repeat (apply elem_of_cons in Hrow as [->|Hrow]; [by apply score_env|]). by apply elem_of_nil in Hrow.
Defined.

(** A sum over a column of type [Money], a name for a decimal type. *)
Definition money_columns : Columns := [Column "price" (TRef 1) None 1].
Definition money_row (cents : Z) : Fields := [("price", VNamed 1 (VDecimal (mkDecimal cents 2)))].

Lemma named_decimal_sum_fails_witness : ∃ agg columns,
  bind_aggregate example_catalog money_columns (mkAggregate [] [mkAggregateAssignment "total" Sum (Some (SReference "price")) None]) = Ok (agg, columns) ∧
  aggregate_rows example_catalog agg [money_row 150; money_row 250] = Err "E_TYPE".
Proof.
  destruct (named_decimal_sum_fails example_catalog money_columns "total" "price" 1 10 2) as (agg & columns & Hb & Hr); [reflexivity|vm_compute; reflexivity|].
  exists agg, columns. split; [exact Hb|]. rewrite (Hr (money_row 150) (money_row 250) [] (VNamed 1 (VDecimal (mkDecimal 150 2))) (VNamed 1 (VDecimal (mkDecimal 250 2))) (mkDecimal 150 2) (mkDecimal 250 2)); reflexivity.
Defined.
