(* ===== verification/References.v ===== *)
(** * References between tables

    The invariant behind src/src/db/reference.rs: every reference of a stored row has its
    target, and the reverse postings hold exactly the reference keys of the source
    table's rows.  [reference_candidate] checks the changes of one statement against the
    final rows, and keeps the invariant. *)
From Stdlib Require Import Ascii.
From stdpp Require Import gmap sorting.
From S2P Require Import Prelude Bytes Text Decimal Temporal Float64 Scalars BTree Model Coerce OrderedKey Codec Matching Coverage Catalog Schema Expression Typing EvalOps Soundness IndexPredicate Database Query Access Ranges Postings Rows Tables Predicates.

#[local] Strategy 1000 [MAX_DEPTH underlying field_type encode_tuple coerce].

(** ** Keys identify values *)

Lemma cmp_typed_eq fuel cat ty v w : wf_catalog cat = true → wf_type ty = true → has_type cat ty v → has_type cat ty w →
  cmp_typed_inner fuel cat ty v w = Ok Eq → v = w.
Proof.
  intros Hcat Ht [[f Hv] Wv] [[g Hw] Ww] Hc. apply (cmp_typed_Eq (fuel + f + g) cat ty); try done.
  - eapply conforms_le; [|exact Hv]. lia.
  - eapply conforms_le; [|exact Hw]. lia.
  - destruct (cmp_typed_inner_fuel fuel (fuel + f + g) cat ty v w) as [E| ->]; [lia|congruence|done].
Qed.

Lemma encode_tuple_inj cat l r a : wf_catalog cat = true → OrderedKey.same_shape l r →
  Forall (λ c, wf_type (comp_ty c) = true ∧ has_type cat (comp_ty c) (comp_value c)) l →
  Forall (λ c, has_type cat (comp_ty c) (comp_value c)) r →
  encode_tuple cat l = Ok a → encode_tuple cat r = Ok a → l = r.
Proof.
  intros Hcat Hs Hl Hr Ha Hb. apply encode_tuple_version_Ok in Ha as (_ & la & Ha & ->), Hb as (_ & lb & Hb & E).
  assert (Hwl : wf_components l = true) by (apply forallb_Forall; revert Hl; apply Forall_impl; by intros c (_ & _ & ?)).
  assert (Hwr : wf_components r = true) by (apply forallb_Forall; revert Hr; apply Forall_impl; by intros c (_ & ?)).
  destruct (components_code _ _ _ _ _ _ Hs Hwl Hwr Ha Hb) as (c & Hc & Hk).
  assert (c = Eq) as -> by (rewrite <-(code_cmp_bytes _ _ _ Hk), E; apply bytes_cmp_refl).
  clear -Hcat Hs Hl Hr Hc. revert Hc. unfold cmp_components, cmp_typed. generalize MAX_DEPTH. intros fuel Hc.
  induction Hs as [|x y l r [Ht Hd] _ IH]; [done|]. apply list.Forall_cons in Hl as [[Hwx Hx] Hl]. apply list.Forall_cons in Hr as [Hy Hr].
  cbn [zip zip_with lexR] in Hc. apply bind_Ok in Hc as (c & Hxy & Hc). destruct c; try discriminate Hc.
  f_equal; [|by apply IH]. apply fmap_Ok in Hxy as (c & Hxy & Ec).
  assert (c = Eq) as -> by (by destruct (comp_descending x), c).
  destruct x as [tx vx dx], y as [ty vy dy]; simpl in *; subst. f_equal.
  by eapply cmp_typed_eq.
Qed.

(** ** Names of variants

    Variant IDs are allocated once, so they determine variant names across the catalog
    and the tables. *)

Fixpoint variant_pairs (ty : ScalarType) : list (Z * string) :=
  match ty with
  | TEnum variants => flat_map (λ v, flat_map variant_pairs (var_args v) ++ [(var_id v, var_name v)]) variants
  | TRecord columns => flat_map (λ c, variant_pairs (col_ty c)) columns
  | TTuple items => flat_map variant_pairs items
  | TOption t | TList t | TMap t => variant_pairs t
  | _ => []
  end.

Lemma sublist_flat_map {A B} (f g : A → list B) l : (∀ x, x ∈ l → f x `sublist_of` g x) → flat_map f l `sublist_of` flat_map g l.
Proof.
  induction l as [|x l IH]; intros Hl; simpl; [done|]. apply sublist_app; [apply Hl; by left|]. apply IH. intros y Hy. apply Hl. by right.
Qed.

Lemma fmap_flat_map {A B C} (h : B → C) (f : A → list B) l : h <$> flat_map f l = flat_map (λ x, h <$> f x) l.
Proof. induction l as [|x l IH]; simpl; [done|]. by rewrite fmap_app, IH. Qed.

Lemma variant_pairs_sublist : ∀ ty, (variant_pairs ty).*1 `sublist_of` type_ids ty.
Proof.
  fix go 1. intros [| | | | | | | |p s| |vs|cs|items|t|t|t|name|id]; try apply sublist_nil_l; cbn [variant_pairs type_ids]; try apply go;
    rewrite fmap_flat_map.
  - induction vs as [|[n args i] vs IH]; simpl; [done|]. apply sublist_app; [|done]. rewrite fmap_app. apply sublist_app; [|done].
    rewrite fmap_flat_map. clear IH. induction args as [|t args IH]; simpl; [done|]. by apply sublist_app.
  - induction cs as [|[n t d i] cs IH]; simpl; [done|]. apply sublist_app; [|done]. apply sublist_inserts_r. apply go.
  - induction items as [|t items IH]; simpl; [done|]. by apply sublist_app.
Qed.

Lemma forallb_flat_map {A B} (p : B → bool) (f : A → list B) l : forallb p (flat_map f l) = forallb (λ x, forallb p (f x)) l.
Proof. induction l as [|x l IH]; simpl; [done|]. by rewrite forallb_app, IH. Qed.

Lemma variants_named_pairs names : ∀ ty, variants_named names ty = forallb (λ e, String.eqb e.2 (names e.1)) (variant_pairs ty).
Proof.
  fix go 1. intros [| | | | | | | |p s| |vs|cs|items|t|t|t|name|id]; try reflexivity; cbn [variant_pairs variants_named]; try apply go;
    rewrite forallb_flat_map.
  - induction vs as [|[n args i] vs IH]; simpl; [done|]. rewrite IH, forallb_app. simpl. rewrite andb_true_r, (andb_comm (forallb _ (flat_map _ _))). do 2 f_equal.
    rewrite forallb_flat_map. clear IH. induction args as [|t args IH]; simpl; [done|]. by rewrite go, IH.
  - induction cs as [|[n t d i] cs IH]; simpl; [done|]. by rewrite go, IH.
  - induction items as [|t items IH]; simpl; [done|]. by rewrite go, IH.
Qed.

Definition ids_below (n : Z) (ty : ScalarType) : Prop := Forall (λ i, i < n) (type_ids ty).

Lemma ids_below_le n m ty : n ≤ m → ids_below n ty → ids_below m ty.
Proof. intros Hle. apply Forall_impl. lia. Qed.

Lemma variant_pairs_ids ty e : e ∈ variant_pairs ty → e.1 ∈ type_ids ty.
Proof. intros He. eapply elem_of_sublist; [by apply list_elem_of_fmap_2|apply variant_pairs_sublist]. Qed.

(** The names of a new type, whose IDs are new, extend the known ones. *)
Lemma names_extend names n ty : NoDup (type_ids ty) → Forall (λ i, n ≤ i) (type_ids ty) →
  ∃ names', variants_named names' ty = true ∧ ∀ ty', ids_below n ty' → variants_named names ty' = true → variants_named names' ty' = true.
Proof.
  intros Hnd Hge. set (m := list_to_map (variant_pairs ty) : gmap Z string).
  exists (λ i, if i <? n then names i else default EmptyString (m !! i)). split.
  - rewrite variants_named_pairs. apply forallb_Forall, list.Forall_forall. intros [i s] He. simpl.
    assert (Hn : n ≤ i). { rewrite list.Forall_forall in Hge. apply (Hge i). by apply (variant_pairs_ids _ (i, s)). }
    rewrite (proj2 (Z.ltb_ge _ _) Hn). unfold m. rewrite (elem_of_list_to_map_1 _ i s); [by apply String.eqb_eq| |done].
    eapply sublist_NoDup; [done|apply variant_pairs_sublist].
  - intros ty' Hb. rewrite !variants_named_pairs, !forallb_Forall, !list.Forall_forall. intros Hs e He. specialize (Hs e He).
    unfold ids_below in Hb. rewrite list.Forall_forall in Hb. by rewrite (proj2 (Z.ltb_lt _ _) (Hb _ (variant_pairs_ids _ _ He))).
Qed.

(** ** The invariant *)

(** A reference key depends on the database through its catalog only. *)
Definition key_of (cat : Catalog) (d : ReferenceDefinition) (source : bool) (row : Row) : result (option (list Z)) :=
  o ← reference_values (rd_components d) (row_fields row) source;
  match o with
  | None => Ok None
  | Some values =>
      key ← encode_tuple cat (zip_with (λ c v, mkComponent (rc_target_type c) v false) (rd_components d) values);
      if zlen key + 23 >? MAX_COMPLETE_INDEX_KEY_BYTES then Err "E_INDEX_KEY_LIMIT" else Ok (Some key)
  end.

Lemma reference_key_eq db d row source : reference_key db d (row_fields row) source = key_of (db_catalog db) d source row.
Proof. done. Qed.

Lemma key_of_extends cat cat' d source row o : extends cat cat' → key_of cat d source row = Ok o → key_of cat' d source row = Ok o.
Proof.
  intros He. unfold key_of. intros (vs & -> & Hk)%bind_Ok. cbn [mbind result_bind]. destruct vs as [vs|]; [|done].
  apply bind_Ok in Hk as (k & Hk & Hl). by rewrite (encode_tuple_extends _ _ _ _ He Hk).
Qed.

(** The source and target columns of a component have the same type, up to one option. *)
Definition component_typed (cat : Catalog) (source target : Columns) (c : ReferenceComponent) : Prop :=
  field_type cat target (rc_target_column c) = Ok (rc_target_type c) ∧
  ∃ ty, field_type cat source (rc_column c) = Ok ty ∧
    match rc_mode c with
    | RefExact => same_type ty (rc_target_type c) = true
    | RefOptional => ∃ inner, ty = TOption inner ∧ same_type inner (rc_target_type c) = true
    end.

(** Every reference of the source rows is to values of a target row. *)
Definition satisfied (components : list ReferenceComponent) (source target : list Row) : Prop :=
  ∀ r vs, r ∈ source → reference_values components (row_fields r) true = Ok (Some vs) →
    ∃ r', r' ∈ target ∧ reference_values components (row_fields r') false = Ok (Some vs).

(** [ix], under the shape [s], is the index of the target table that the reference was bound to. *)
Definition is_target (db : Database) (name : string) (t : Table) (d : ReferenceDefinition) (s : string) (ix : IndexDefinition) : Prop :=
  bt_get s (definitions_of db name) = Some ix ∧ ix_predicate ix = None ∧
  match rd_target d with
  | PrimaryKey => tbl_primary_key t = Some s ∧ is_primary_index ix (Some s) = true
  | UniqueIndex id => ix_id ix = id
  end.

Record reference_ok (db : Database) (id : Z) (d : ReferenceDefinition) (ns nt s : string) (ts tg : Table) (ix : IndexDefinition)
    (p : IndexPosting) : Prop := {
  ro_id : rd_id d = id;
  ro_source : bt_get ns (db_objects db) = Some ts ∧ tbl_id ts = rd_table_id d;
  ro_target : bt_get nt (db_objects db) = Some tg ∧ tbl_id tg = rd_target_table_id d;
  ro_index : is_target db nt tg d s ix;
  ro_columns : Forall2 (λ c ic, ic_column ic = rc_target_column c) (rd_components d) (effective_components ix);
  ro_typed : Forall (component_typed (db_catalog db) (tbl_schema ts) (tbl_schema tg)) (rd_components d);
  ro_state : bt_get id (db_reference_states db) = Some p;
  ro_posting : posting_of (key_of (db_catalog db) d true) (tbl_rows ts) p;
  ro_satisfied : satisfied (rd_components d) (tbl_rows ts) (tbl_rows tg)
}.

(** What the schema statements keep: names and IDs identify tables and indexes, index
    components and predicates fit the table's columns, and variant IDs have one name. *)
Record schema_ok (db : Database) : Prop := {
  so_sorted : bt_sorted (db_objects db) = true;
  so_name name t : bt_get name (db_objects db) = Some t → tbl_name t = name ∧ tbl_id t < next_id (db_catalog db);
  so_id n1 t1 n2 t2 : bt_get n1 (db_objects db) = Some t1 → bt_get n2 (db_objects db) = Some t2 → tbl_id t1 = tbl_id t2 → n1 = n2;
  so_index name t s d : bt_get name (db_objects db) = Some t → bt_get s (definitions_of db name) = Some d →
    ix_components d ≠ [] ∧ ix_id d < next_id (db_catalog db) ∧
    Forall (λ c, field_path_ids (db_catalog db) (tbl_schema t) (ic_column c) = Ok (ic_field_path c)) (ix_components d) ∧
    predicate_ok (db_catalog db) (tbl_schema t) d;
  so_index_id name t s1 d1 s2 d2 : bt_get name (db_objects db) = Some t → bt_get s1 (definitions_of db name) = Some d1 →
    bt_get s2 (definitions_of db name) = Some d2 → ix_id d1 = ix_id d2 → s1 = s2;
  so_ids : ids_unique (db_catalog db) ∧ ∀ name t, bt_get name (db_objects db) = Some t → ids_below (next_id (db_catalog db)) (TRecord (tbl_schema t));
  so_names : ∃ names, good_catalog names (db_catalog db) ∧
    ∀ name t, bt_get name (db_objects db) = Some t → variants_named names (TRecord (tbl_schema t)) = true
}.

Record linked (db : Database) : Prop := {
  ln_schema : schema_ok db;
  ln_sorted : bt_sorted (db_reference_definitions db) = true;
  ln_bound id : id ∈ (db_reference_definitions db).*1 → id < next_id (db_catalog db);
  ln_reference id d : bt_get id (db_reference_definitions db) = Some d → ∃ ns nt s ts tg ix p, reference_ok db id d ns nt s ts tg ix p
}.

Section keys.
Context (names : Z → string) (cat : Catalog) (Hcat : good_catalog names cat).

Lemma column_typed schema fields path ty v : good_type names (TRecord schema) → typed_row cat schema fields →
  field_type cat schema path = Ok ty → row_field fields path = Some v → good_type names ty ∧ has_type cat ty v.
Proof.
  intros Hg Hrow Hty Hv. split.
  - apply field_type_cases in Hty as [(c & Hc & <-)|(_ & first & rest & c & _ & _ & _ & Hc & Hty)]; apply find_column_Some in Hc as [Hc _].
    + by eapply good_column.
    + eapply field_type_loop_good; [done| |done]. by eapply good_column.
  - destruct (row_typed_env names cat Hcat _ _ Hg Hrow path ty Hty) as (w & Hw & Hwt). congruence.
Qed.

Lemma same_type_value a b v : good_type names a → good_type names b → same_type a b = true → has_type cat a v → has_type cat b v.
Proof. apply same_type_has_type. Qed.

(** The values that a reference compares have the target columns' types. *)
Lemma reference_values_typed source target components fields (side : bool) vs :
  good_type names (TRecord source) → good_type names (TRecord target) → Forall (component_typed cat source target) components →
  typed_row cat (if side then source else target) fields → reference_values components fields side = Ok (Some vs) →
  Forall2 (λ c v, wf_type (rc_target_type c) = true ∧ has_type cat (rc_target_type c) v) components vs.
Proof.
  intros Hs Ht Hc Hrow. revert vs. induction Hc as [|c components (Htc & ty & Hty & Hmode) _ IH]; intros vs Hvs.
  { injection Hvs as <-. constructor. }
  cbn [reference_values] in Hvs. apply bind_Ok in Hvs as (v & Hv%ok_or_Ok & Hvs).
  assert (Hrest : ∀ w, option_map (cons w) <$> reference_values components fields side = Ok (Some vs) →
    wf_type (rc_target_type c) = true → has_type cat (rc_target_type c) w →
    Forall2 (λ c v, wf_type (rc_target_type c) = true ∧ has_type cat (rc_target_type c) v) (c :: components) vs).
  { intros w (o & Ho & E)%fmap_Ok Hw1 Hw2. destruct o as [l|]; [|done]. injection E as ->. constructor; [done|]. by apply IH. }
  assert (Hgt : good_type names (rc_target_type c)).
  { apply field_type_cases in Htc as [(k & Hk & <-)|(_ & first & rest & k & _ & _ & _ & Hk & Htc)]; apply find_column_Some in Hk as [Hk _];
      [by eapply good_column|]. eapply field_type_loop_good; [done| |done]. by eapply good_column. }
  destruct side; cbn match in Hvs.
  - destruct (column_typed _ _ _ _ _ Hs Hrow Hty Hv) as [Hgty Hvt]. destruct (rc_mode c).
    + apply (Hrest v Hvs); [apply Hgt|]. by eapply same_type_value.
    + destruct Hmode as (inner & -> & Hsame). pose proof (has_type_shape _ _ _ Hvt) as (o & -> & Hin).
      destruct o as [w|]; [|done]. apply (Hrest w Hvs); [apply Hgt|]. eapply same_type_value; [|done..|by apply Hin]. exact Hgty.
  - destruct (column_typed _ _ _ _ _ Ht Hrow Htc Hv) as [_ Hvt]. by apply (Hrest v Hvs); [apply Hgt|].
Qed.
Lemma tuple_values_inj {A} (f : A → Value → Component) (ty : A → ScalarType) (l : list A) vs ws key :
  (∀ a v, comp_ty (f a v) = ty a ∧ comp_value (f a v) = v) → (∀ a v w, comp_descending (f a v) = comp_descending (f a w)) →
  Forall2 (λ a v, wf_type (ty a) = true ∧ has_type cat (ty a) v) l vs → Forall2 (λ a v, wf_type (ty a) = true ∧ has_type cat (ty a) v) l ws →
  encode_tuple cat (zip_with f l vs) = Ok key → encode_tuple cat (zip_with f l ws) = Ok key → vs = ws.
Proof.
  intros Hf Hd Hv Hw Ha Hb. assert (E : zip_with f l vs = zip_with f l ws).
  { apply (encode_tuple_inj cat _ _ key); try done; [apply Hcat| | |].
    - clear Ha Hb. revert ws Hw. induction Hv as [|a v l vs _ _ IH]; intros ws Hw; [apply Forall2_nil_inv_l in Hw as ->; constructor|].
      apply Forall2_cons_inv_l in Hw as (w & ws' & _ & Hw & ->). constructor; [|by apply IH].
      rewrite (proj1 (Hf a v)), (proj1 (Hf a w)). split; [done|]. apply Hd.
    - clear -Hf Hv. induction Hv as [|a v l vs Ha _ IH]; simpl; constructor; [|done]. by rewrite (proj1 (Hf a v)), (proj2 (Hf a v)).
    - clear -Hf Hw. induction Hw as [|a v l vs [_ Ha] _ IH]; simpl; constructor; [|done]. by rewrite (proj1 (Hf a v)), (proj2 (Hf a v)). }
  clear Ha Hb. revert ws Hw E. induction Hv as [|a v l vs _ _ IH]; intros ws Hw E; [by apply Forall2_nil_inv_l in Hw as ->|].
  apply Forall2_cons_inv_l in Hw as (w & ws' & _ & Hw & ->). simpl in E. injection E as E1 E. f_equal; [|by apply IH].
  by rewrite <-(proj2 (Hf a v)), <-(proj2 (Hf a w)), E1.
Qed.

Lemma Forall2_zip {A B C} (P : A → C → Prop) (Q : A → B → Prop) l k vs : Forall2 P l vs → Forall2 Q l k →
  Forall2 (λ e v, P e.1 v) (zip l k) vs.
Proof.
  intros Hp. revert k. induction Hp as [|a v l vs Ha _ IH]; intros k Hq; [by apply Forall2_nil_inv_l in Hq as ->|].
  apply Forall2_cons_inv_l in Hq as (b & k' & _ & Hq & ->). simpl. constructor; auto.
Qed.

(** The key of a target row under the target index, in terms of the reference. *)
Lemma target_tuple_key source target components ecs fields values types : Forall (component_typed cat source target) components →
  Forall2 (λ c ic, ic_column ic = rc_target_column c) components ecs →
  index_values fields ecs = Ok values → mapR (λ c, field_type cat target (ic_column c)) ecs = Ok types →
  reference_values components fields false = Ok (Some values) ∧
  zip_with (λ '(c, ty) v, mkComponent ty v (ic_descending c)) (zip ecs types) values =
    zip_with (λ '(c, ic) v, mkComponent (rc_target_type c) v (ic_descending ic)) (zip components ecs) values.
Proof.
  intros Hc He. revert values types Hc. induction He as [|c ic components ecs Hcol _ IH]; intros values types Hc Hv Ht.
  { injection Hv as <-. done. }
  apply list.Forall_cons in Hc as [(Htc & _) Hc]. cbn [index_values mapR] in Hv. unfold index_values in IH, Hv. cbn [mapR] in Hv, Ht.
  apply bind_Ok in Hv as (v & Hv & Hvs). apply bind_Ok in Hvs as (vs & Hvs & [= <-]).
  apply bind_Ok in Ht as (ty & Hty & Hts). apply bind_Ok in Hts as (tys & Hts & [= <-]).
  destruct (IH vs tys Hc Hvs Hts) as [IH1 IH2]. apply bind_Ok in Hv as (v' & Hv & Hx). apply bind_Ok in Hx as ([] & _ & [= ->]).
  rewrite Hcol in Hv, Hty. rewrite Htc in Hty. injection Hty as <-. split.
  - cbn [reference_values]. rewrite Hv. cbn [mbind result_bind]. by rewrite IH1.
  - simpl. by rewrite IH2.
Qed.

(** A target row under the boundary of a source row has the values that the source row references. *)
Lemma boundary_values source target components ix r r' vs b :
  good_type names (TRecord source) → good_type names (TRecord target) → Forall (component_typed cat source target) components →
  Forall2 (λ c ic, ic_column ic = rc_target_column c) components (effective_components ix) →
  typed_row cat source (row_fields r) → typed_row cat target (row_fields r') →
  reference_values components (row_fields r) true = Ok (Some vs) →
  encode_tuple cat (zip_with (λ '(c, ic) v, mkComponent (rc_target_type c) v (ic_descending ic))
    (zip components (effective_components ix)) vs) = Ok b →
  row_key cat target ix r' = Ok (Some b) → reference_values components (row_fields r') false = Ok (Some vs).
Proof.
  intros Hs Ht Hc He Hr Hr' Hvs Hb Hk. unfold row_key in Hk. destruct (includes ix (row_fields r')); [|done].
  apply fmap_Ok in Hk as (k & Hk & [= <-]). unfold tuple_key in Hk. apply bind_Ok in Hk as (values & Hval & Hk).
  apply bind_Ok in Hk as (types & Htypes & Hk). apply bind_Ok in Hk as (key & Hkey & Hk). case_if_in Hk; [done|]. injection Hk as ->.
  destruct (target_tuple_key source target components _ _ _ _ Hc He Hval Htypes) as [Hv' Ez]. rewrite Ez in Hkey.
  rewrite Hv'. do 2 f_equal. symmetry.
  eapply (tuple_values_inj _ (λ e, rc_target_type e.1)); [| | | |exact Hb|exact Hkey]; [by intros [] ?; split|by intros []| |].
  - eapply (Forall2_zip (λ a v, wf_type (rc_target_type a) = true ∧ has_type cat (rc_target_type a) v)); [|exact He].
    by eapply (reference_values_typed source target _ _ true).
  - eapply (Forall2_zip (λ a v, wf_type (rc_target_type a) = true ∧ has_type cat (rc_target_type a) v)); [|exact He].
    by eapply (reference_values_typed source target _ _ false).
Qed.

Lemma key_of_Some d side row k : key_of cat d side row = Ok (Some k) → ∃ vs, reference_values (rd_components d) (row_fields row) side = Ok (Some vs) ∧
  encode_tuple cat (zip_with (λ c v, mkComponent (rc_target_type c) v false) (rd_components d) vs) = Ok k ∧
  (zlen k + 23 >? MAX_COMPLETE_INDEX_KEY_BYTES) = false.
Proof.
  unfold key_of. intros ([vs|] & Hvs & Hk)%bind_Ok; [|done]. apply bind_Ok in Hk as (key & Hkey & Hk). case_if_in Hk; [done|].
  injection Hk as ->. eauto.
Qed.

(** Equal keys come from equal values, whichever side they were taken from. *)
Lemma key_of_values source target d side side' r r' k vs :
  good_type names (TRecord source) → good_type names (TRecord target) → Forall (component_typed cat source target) (rd_components d) →
  typed_row cat (if side : bool then source else target) (row_fields r) → typed_row cat (if side' : bool then source else target) (row_fields r') →
  key_of cat d side r = Ok (Some k) → key_of cat d side' r' = Ok (Some k) →
  reference_values (rd_components d) (row_fields r) side = Ok (Some vs) → reference_values (rd_components d) (row_fields r') side' = Ok (Some vs).
Proof.
  intros Hs Ht Hc Hr Hr' (us & Hu & Ha & _)%key_of_Some (ws & Hw & Hb & _)%key_of_Some Hvs. rewrite Hu in Hvs. injection Hvs as ->.
  rewrite Hw. do 2 f_equal. symmetry. eapply (tuple_values_inj (λ c v, mkComponent (rc_target_type c) v false) rc_target_type); [by split|done| | |exact Ha|exact Hb].
  - by eapply (reference_values_typed source target _ _ side).
  - by eapply (reference_values_typed source target _ _ side').
Qed.

(** Equal values have equal keys. *)
Lemma key_of_same d side side' r r' k vs :
  reference_values (rd_components d) (row_fields r) side = Ok (Some vs) → reference_values (rd_components d) (row_fields r') side' = Ok (Some vs) →
  key_of cat d side r = Ok (Some k) → key_of cat d side' r' = Ok (Some k).
Proof. unfold key_of. by intros -> ->. Qed.
End keys.

(** ** The index of the target *)

Lemma find_least {K A} `{TotalOrder K} (p : K * A → bool) (m : list (K * A)) k a : bt_sorted m = true → bt_get k m = Some a → p (k, a) = true →
  (∀ j b, bt_get j m = Some b → p (j, b) = true → tcmp j k ≠ Lt) → List.find p m = Some (k, a).
Proof.
  intros Hs Hk Hp Hle. apply bt_get_iff in Hk; [|done]. assert (Hle' : ∀ j b, (j, b) ∈ m → p (j, b) = true → tcmp j k ≠ Lt).
  { intros j b Hj. apply Hle. by apply bt_get_iff. } clear Hle.
  induction m as [|[j b] m IH]; [by apply elem_of_nil in Hk|]. simpl in Hs. apply andb_true_iff in Hs as [Hb Hs]. simpl.
  apply elem_of_cons in Hk as [[= <- <-]|Hk]; [by rewrite Hp|]. destruct (p (j, b)) eqn:Ej.
  - exfalso. apply (Hle' j b); [by left|done|]. unfold bt_below in Hb. rewrite forallb_Forall, list.Forall_forall in Hb.
    specialize (Hb _ Hk). simpl in Hb. by destruct (tcmp j k).
  - apply IH; try done. intros i c Hi. apply Hle'. by right.
Qed.

Section references.
Context `{TextLib} `{PredicateText} `{Base64}.

Lemma reference_target_index_eq db d nt tg s ix : schema_ok db → bt_get nt (db_objects db) = Some tg → tbl_id tg = rd_target_table_id d →
  indexed db nt tg → is_target db nt tg d s ix → reference_target_index db d = Ok (tg, ix).
Proof.
  intros Hso Hnt Hid Hi (Hs & _ & Ht). unfold reference_target_index.
  rewrite (find_unique _ (db_objects db) (nt, tg)); [|by apply bt_get_iff; [apply Hso|]|by apply Z.eqb_eq|].
  2:{ intros [n t] Hin E. apply bt_get_iff in Hin; [|apply Hso]. simpl in E. apply Z.eqb_eq in E.
      assert (n = nt) as -> by (apply (so_id _ Hso n t nt tg Hin Hnt); congruence). congruence. }
  cbn [ok_or mbind result_bind]. rewrite (proj1 (so_name _ Hso _ _ Hnt)).
  rewrite (find_least _ (definitions_of db nt) s ix); [done|apply Hi|done| |].
  - simpl. destruct (rd_target d); [|by apply Z.eqb_eq]. by destruct Ht as [-> ?].
  - intros j ix' Hj. simpl. destruct (rd_target d) as [|id].
    + destruct Ht as [-> _]. intros Hp. rewrite (ti_shape _ _ _ _ Hi j ix' Hj). by apply primary_first.
    + intros Ej%Z.eqb_eq. assert (j = s) as -> by (apply (so_index_id _ Hso nt tg j ix' s ix); congruence). simpl; by rewrite str_cmp_refl.
Qed.

(** ** The keys that a statement's changes remove, add and reference *)

Record collected (db : Database) (d : ReferenceDefinition) (source target : bool) (cs : list RowChange) (k : ReferenceKeys) : Prop := {
  cl_removed c r : target = true → c ∈ cs → before c = Some r →
    ∃ key, key_of (db_catalog db) d false r = Ok (Some key) ∧ bs_mem key (rk_removed_targets k) = true;
  cl_new key : bs_mem key (rk_new_targets k) = true →
    ∃ c r, target = true ∧ c ∈ cs ∧ after c = Some r ∧ key_of (db_catalog db) d false r = Ok (Some key);
  cl_keyed c r : source = true → c ∈ cs → after c = Some r →
    ∃ o, key_of (db_catalog db) d true r = Ok o ∧ ∀ key, o = Some key → bt_mem key (rk_source_keys k) = true;
  cl_source key b : bt_get key (rk_source_keys k) = Some b →
    ∃ c r, source = true ∧ c ∈ cs ∧ after c = Some r ∧ key_of (db_catalog db) d true r = Ok (Some key) ∧
      reference_target_boundary db d (row_fields r) = Ok (Some b)
}.

Lemma target_key_Ok db d row key : target_key db d row = Ok key → key_of (db_catalog db) d false row = Ok (Some key).
Proof. unfold target_key. rewrite reference_key_eq. intros (o & Ho & ->%ok_or_Ok)%bind_Ok. done. Qed.

Lemma keyed_iff {A B} (P : Prop) (f : A → result B) r key key' : f r = Ok key →
  (key' = key ∨ P) ↔ (P ∨ true = true ∧ ∃ r', Some r = Some r' ∧ f r' = Ok key').
Proof. intros Hf. split; [intros [->|]; eauto|]. intros [?|[_ (r' & [= <-] & Hr')]]; [by right|]. left. congruence. Qed.

Lemma unkeyed_iff {A B} (P : Prop) (f : A → result B) b key : P ↔ (P ∨ b = true ∧ ∃ r, None = Some r ∧ f r = Ok key).
Proof. split; [by left|]. by intros [?|[_ (r & [=] & _)]]. Qed.

Lemma unset_iff {A B} (P : Prop) (f : A → result B) o key : P ↔ (P ∨ false = true ∧ ∃ r, o = Some r ∧ f r = Ok key).
Proof. split; [by left|]. by intros [?|[[=] _]]. Qed.

(** Each of the three collected sets grows by the keys of one change. *)
Lemma collect_change_spec db d source target k c k' : collect_change db d source target k c = Ok k' →
  (∀ key, bs_mem key (rk_removed_targets k') = true ↔
    bs_mem key (rk_removed_targets k) = true ∨ target = true ∧ ∃ r, before c = Some r ∧ target_key db d r = Ok key) ∧
  (target = true → ∀ r, before c = Some r → is_ok (target_key db d r) = true) ∧
  (∀ key, bs_mem key (rk_new_targets k') = true ↔
    bs_mem key (rk_new_targets k) = true ∨ target = true ∧ ∃ r, after c = Some r ∧ target_key db d r = Ok key) ∧
  match source, after c with
  | true, Some r => ∃ o, key_of (db_catalog db) d true r = Ok o ∧
      match o with
      | Some key => ∃ b, reference_target_boundary db d (row_fields r) = Ok (Some b) ∧ rk_source_keys k' = bt_insert key b (rk_source_keys k)
      | None => rk_source_keys k' = rk_source_keys k
      end
  | _, _ => rk_source_keys k' = rk_source_keys k
  end.
Proof.
  unfold collect_change. intros (k1 & Hk1 & Hk)%bind_Ok.
  assert (Htargets : rk_source_keys k1 = rk_source_keys k ∧
    (∀ key, bs_mem key (rk_removed_targets k1) = true ↔
      bs_mem key (rk_removed_targets k) = true ∨ target = true ∧ ∃ r, before c = Some r ∧ target_key db d r = Ok key) ∧
    (target = true → ∀ r, before c = Some r → is_ok (target_key db d r) = true) ∧
    (∀ key, bs_mem key (rk_new_targets k1) = true ↔
      bs_mem key (rk_new_targets k) = true ∨ target = true ∧ ∃ r, after c = Some r ∧ target_key db d r = Ok key)).
  { destruct target; [|injection Hk1 as <-; split_and!; try done; intros; apply unset_iff].
    apply bind_Ok in Hk1 as (k2 & Hk2 & Hk1).
    assert (Hremoved : rk_source_keys k2 = rk_source_keys k ∧ rk_new_targets k2 = rk_new_targets k ∧
      (∀ key, bs_mem key (rk_removed_targets k2) = true ↔
        bs_mem key (rk_removed_targets k) = true ∨ true = true ∧ ∃ r, before c = Some r ∧ target_key db d r = Ok key) ∧
      (true = true → ∀ r, before c = Some r → is_ok (target_key db d r) = true)).
    { destruct (before c) as [r|]; [|injection Hk2 as <-; split_and!; try done; intros; apply unkeyed_iff].
      apply bind_Ok in Hk2 as (key & Hkey & Hk2). apply bind_Ok in Hk2 as (bytes & _ & [= <-]). cbn [rk_source_keys rk_new_targets rk_removed_targets].
      split_and!; [done|done| |intros _ r' [= <-]; by rewrite Hkey]. intros key'. rewrite bs_mem_insert. by apply keyed_iff. }
    destruct Hremoved as (Hs & Hn & Hr & Hok). destruct (after c) as [r|].
    - apply bind_Ok in Hk1 as (key & Hkey & Hk1). apply bind_Ok in Hk1 as (bytes & _ & [= <-]). cbn [rk_source_keys rk_new_targets rk_removed_targets].
      split_and!; [done..|]. intros key'. rewrite bs_mem_insert, Hn. by apply keyed_iff.
    - injection Hk1 as <-. split_and!; [done..|]. intros key'. rewrite Hn. apply unkeyed_iff. }
  destruct Htargets as (Hs & Hr & Hok & Hn). destruct source; [destruct (after c) as [r|]|]; try (injection Hk as <-; split_and!; [done..|by rewrite Hs]).
  apply bind_Ok in Hk as (o & Ho & Hk). rewrite reference_key_eq in Ho. destruct o as [key|].
  - apply bind_Ok in Hk as (b & Hb & Hk). apply bind_Ok in Hk as (boundary & ->%ok_or_Ok & Hk).
    apply bind_Ok in Hk as (b1 & _ & Hk). apply bind_Ok in Hk as (b2 & _ & [= <-]). cbn [rk_source_keys rk_new_targets rk_removed_targets].
    split_and!; [done..|]. exists (Some key). split; [done|]. exists boundary. by rewrite Hs.
  - injection Hk as <-. split_and!; [done..|]. by exists None.
Qed.

Lemma collect_changes db d source target cs k :
  foldR (collect_change db d source target) (mkReferenceKeys [] [] [] 0) cs = Ok k → collected db d source target cs k.
Proof.
  revert k. induction cs as [|c cs IH] using rev_ind; intros k Hk.
  { injection Hk as <-. split; try done; intros; by (exfalso; eapply elem_of_nil). }
  rewrite foldR_app in Hk. apply bind_Ok in Hk as (k1 & Hk1 & Hk). apply bind_Ok in Hk as (k2 & Hk & [= <-]).
  specialize (IH _ Hk1). apply collect_change_spec in Hk as (Hr & Hok & Hn & Hs). split.
  - intros c' r Ht [Hc|Hc]%elem_of_app Hb; [|apply list_elem_of_singleton in Hc as ->].
    + destruct (cl_removed _ _ _ _ _ _ IH c' r Ht Hc Hb) as (key & Hkey & Hm). exists key. split; [done|]. apply Hr. by left.
    + specialize (Hok Ht r Hb). destruct (target_key db d r) as [key|] eqn:Ek; [|done]. exists key. split; [by apply target_key_Ok|].
      apply Hr. right. eauto.
  - intros key [Hm|[Ht (r & Ha & Hkey)]]%Hn.
    + destruct (cl_new _ _ _ _ _ _ IH key Hm) as (c' & r & Ht & Hc & Ha & Hkey). exists c', r. split_and!; try done. apply elem_of_app. by left.
    + exists c, r. split_and!; try done; [apply elem_of_app; right; by apply list_elem_of_singleton|by apply target_key_Ok].
  - intros c' r Hsrc [Hc|Hc]%elem_of_app Ha; [|apply list_elem_of_singleton in Hc as ->].
    + destruct (cl_keyed _ _ _ _ _ _ IH c' r Hsrc Hc Ha) as (o & Ho & Hmem). exists o. split; [done|]. intros key Hkey. specialize (Hmem key Hkey).
      rewrite Hsrc in Hs. destruct (after c); [|by rewrite Hs]. destruct Hs as ([k0|] & _ & Hs); [|by rewrite Hs].
      destruct Hs as (b & _ & ->). rewrite bt_mem_insert. by destruct (tcmp key k0).
    + rewrite Hsrc, Ha in Hs. destruct Hs as (o & Ho & Hs). exists o. split; [done|]. intros key ->. destruct Hs as (b & _ & ->).
      by rewrite bt_mem_insert, tcmp_refl.
  - assert (Hold : ∀ key b, bt_get key (rk_source_keys k1) = Some b → ∃ c' r, source = true ∧ c' ∈ cs ++ [c] ∧ after c' = Some r ∧
      key_of (db_catalog db) d true r = Ok (Some key) ∧ reference_target_boundary db d (row_fields r) = Ok (Some b)).
    { intros key b Hb. destruct (cl_source _ _ _ _ _ _ IH key b Hb) as (c' & r & Hsrc & Hc & Ha & Hk & Hbd). exists c', r. split_and!; try done.
      apply elem_of_app. by left. }
    intros key b Hb. destruct source; [|rewrite Hs in Hb; by apply Hold]. destruct (after c) as [r|] eqn:Ea; [|rewrite Hs in Hb; by apply Hold].
    destruct Hs as ([k0|] & Hk0 & Hs); [|rewrite Hs in Hb; by apply Hold]. destruct Hs as (b0 & Hb0 & Hs). rewrite Hs in Hb.
    destruct (decide (key = k0)) as [->|Hne]; [|rewrite bt_get_insert_ne in Hb by done; by apply Hold].
    rewrite bt_get_insert_eq in Hb. injection Hb as <-. exists c, r. split_and!; try done. apply elem_of_app. right. by apply list_elem_of_singleton.
Qed.

(** ** Reverse postings *)

Lemma ids_insert_spec id l : ascending l → ascending (ids_insert id l) ∧ ∀ x, x ∈ ids_insert id l ↔ x ∈ l ∨ x = id.
Proof.
  intros Ha. unfold ids_insert. destruct (binary_search l id) as [[|] n] eqn:E.
  - apply binary_search_true in E. split; [done|]. intros x. split; [by left|]. intros [?| ->]; [done|]. by eapply list_elem_of_lookup_2.
  - split; [by apply binary_search_false|]. intros x. rewrite elem_of_insert_at. naive_solver.
Qed.

Lemma ids_remove_spec id l : ascending l → ascending (ids_remove id l) ∧ ∀ x, x ∈ ids_remove id l ↔ x ∈ l ∧ x ≠ id.
Proof.
  intros Ha. unfold ids_remove. destruct (binary_search l id) as [[|] n] eqn:E.
  - apply binary_search_true in E. split; [by apply ascending_delete|]. intros x. by apply elem_of_delete_ascending.
  - split; [done|]. intros x. split; [|by intros [? _]]. intros Hx. split; [done|]. intros ->.
    destruct (binary_search_found l id Ha Hx) as (m & Hm & _). congruence.
Qed.

Lemma source_add_spec p k id : posting_wf p →
  posting_wf (source_add p k id) ∧ ∀ j x, x ∈ ids_at (source_add p k id) j ↔ x ∈ ids_at p j ∨ (j = k ∧ x = id).
Proof.
  intros Hp. unfold source_add. change (default [] (bt_get k p)) with (ids_at p k).
  destruct (ids_insert_spec id (ids_at p k) (posting_ascending _ Hp k)) as [Ha Hi]. split.
  - apply insert_posting_wf; [done| |done]. intros E. specialize (Hi id). rewrite E in Hi. apply (elem_of_nil id), Hi. by right.
  - intros j x. rewrite ids_at_insert. case_bool_decide as Hj; [subst; rewrite Hi|]; naive_solver.
Qed.

Lemma source_remove_spec p k id : posting_wf p →
  posting_wf (source_remove p k id) ∧ ∀ j x, x ∈ ids_at (source_remove p k id) j ↔ x ∈ ids_at p j ∧ ¬ (j = k ∧ x = id).
Proof.
  intros Hp. unfold source_remove. destruct (bt_get k p) as [ids|] eqn:Ek.
  - assert (Hids : ids_at p k = ids) by (unfold ids_at; by rewrite Ek).
    destruct (ids_remove_spec id ids) as [Ha Hi]; [rewrite <-Hids; apply Hp|].
    destruct (store_posting p k _ Hp Ha) as [Hw Hs]. split; [done|]. intros j x. rewrite Hs. clear Hs. destruct (decide (j = k)) as [->|Hj].
    + rewrite bool_decide_eq_true_2, Hi, Hids by done. naive_solver.
    + rewrite bool_decide_eq_false_2 by done. naive_solver.
  - split; [done|]. intros j x. split; [|by intros [? _]]. intros Hx. split; [done|]. intros [-> _]. unfold ids_at in Hx. rewrite Ek in Hx. by apply elem_of_nil in Hx.
Qed.

Section pass.
Context (db : Database) (d : ReferenceDefinition).
Notation K := (key_of (db_catalog db) d true).

Lemma remove_sources cs p p' : posting_wf p → foldR (λ p c, with_source_key db d (before c) source_remove p) p cs = Ok p' →
  posting_wf p' ∧ ∀ j x, x ∈ ids_at p' j ↔ x ∈ ids_at p j ∧ ¬ ∃ c r, c ∈ cs ∧ before c = Some r ∧ K r = Ok (Some j) ∧ row_id r = x.
Proof.
  revert p. induction cs as [|c cs IH]; intros p Hp Hf; cbn [foldR] in Hf.
  { injection Hf as <-. split; [done|]. intros j x. split; [|by intros [? _]]. intros Hx. split; [done|]. by intros (? & ? & ?%elem_of_nil & _). }
  apply bind_Ok in Hf as (p1 & Hp1 & Hf).
  assert (Hone : posting_wf p1 ∧ ∀ j x, x ∈ ids_at p1 j ↔ x ∈ ids_at p j ∧ ¬ ∃ r, before c = Some r ∧ K r = Ok (Some j) ∧ row_id r = x).
  { unfold with_source_key in Hp1. destruct (before c) as [r|]; [|injection Hp1 as <-; split; [done|]; naive_solver].
    apply bind_Ok in Hp1 as (o & Ho & [= <-]). rewrite reference_key_eq in Ho. destruct o as [key|].
    - destruct (source_remove_spec p key (row_id r) Hp) as [Hw Hs]. split; [done|]. intros j x. rewrite Hs. split; intros [Hx Hn]; (split; [done|]).
      + intros (r' & [= <-] & Hk & <-). apply Hn. split; congruence.
      + intros [-> ->]. apply Hn. eauto.
    - split; [done|]. intros j x. split; [|by intros [? _]]. intros Hx. split; [done|]. intros (r' & [= <-] & Hk & _). congruence. }
  destruct Hone as [Hw1 Hs1]. destruct (IH p1 Hw1 Hf) as [Hw Hs]. split; [done|]. intros j x. rewrite Hs, Hs1. split.
  - intros [[Hx Hn1] Hn]. split; [done|]. intros (c' & r & [->|Hc]%elem_of_cons & Hb & Hk & Hid); [apply Hn1|apply Hn]; eauto 6.
  - intros [Hx Hn]. split_and!; [done| |]; intros Hex; apply Hn; [destruct Hex as (r & ?); exists c, r|destruct Hex as (c' & r & Hc & ?); exists c', r];
      (split; [by (left || right)|done]).
Qed.

Lemma add_sources cs p p' : posting_wf p → foldR (λ p c, with_source_key db d (after c) source_add p) p cs = Ok p' →
  posting_wf p' ∧ ∀ j x, x ∈ ids_at p' j ↔ x ∈ ids_at p j ∨ ∃ c r, c ∈ cs ∧ after c = Some r ∧ K r = Ok (Some j) ∧ row_id r = x.
Proof.
  revert p. induction cs as [|c cs IH]; intros p Hp Hf; cbn [foldR] in Hf.
  { injection Hf as <-. split; [done|]. intros j x. split; [by left|]. intros [?|(? & ? & ?%elem_of_nil & _)]; done. }
  apply bind_Ok in Hf as (p1 & Hp1 & Hf).
  assert (Hone : posting_wf p1 ∧ ∀ j x, x ∈ ids_at p1 j ↔ x ∈ ids_at p j ∨ ∃ r, after c = Some r ∧ K r = Ok (Some j) ∧ row_id r = x).
  { unfold with_source_key in Hp1. destruct (after c) as [r|]; [|injection Hp1 as <-; split; [done|]; naive_solver].
    apply bind_Ok in Hp1 as (o & Ho & [= <-]). rewrite reference_key_eq in Ho. destruct o as [key|].
    - destruct (source_add_spec p key (row_id r) Hp) as [Hw Hs]. split; [done|]. intros j x. rewrite Hs. split; (intros [?|Hx]; [by left|right]).
      + destruct Hx as [-> ->]. eauto.
      + destruct Hx as (r' & [= <-] & Hk & <-). split; congruence.
    - split; [done|]. intros j x. split; [by left|]. intros [?|(r' & [= <-] & Hk & _)]; [done|congruence]. }
  destruct Hone as [Hw1 Hs1]. destruct (IH p1 Hw1 Hf) as [Hw Hs]. split; [done|]. intros j x. rewrite Hs, Hs1. split.
  - intros [[?|(r & ?)]|(c' & r & Hc & ?)]; [by left|right; exists c, r|right; exists c', r]; (split; [by (left || right)|done]).
  - intros [?|(c' & r & [->|Hc]%elem_of_cons & ?)]; [by left; left|left; right; eauto|right; eauto 6].
Qed.

(** The reverse postings of the new rows. *)
Lemma sources_posting rows cs rows' p p1 p2 : leads rows cs rows' → posting_of K rows p →
  (∀ c r, c ∈ cs → after c = Some r → is_ok (K r) = true) →
  foldR (λ p c, with_source_key db d (before c) source_remove p) p cs = Ok p1 →
  foldR (λ p c, with_source_key db d (after c) source_add p) p1 cs = Ok p2 → posting_of K rows' p2.
Proof.
  intros Hl Hp Hok H1' H2'. destruct (remove_sources cs p p1 (posting_of_wf _ _ _ Hp) H1') as [Hw1 Hs1].
  destruct (add_sources cs p1 p2 Hw1 H2') as [Hw2 Hs2]. split; [done| |].
  - intros r [(c & Hc & Ha)|[Hr _]]%(leads_iff _ _ _ Hl); [eauto|by apply (posting_of_keyed _ _ _ Hp)].
  - intros k id. rewrite Hs2, Hs1, (posting_of_iff _ _ _ Hp). split.
    + intros [[(r & Hr & Hid & Hk) Hn]|(c & r & Hc & Ha & Hk & Hid)].
      * exists r. split_and!; [|done..]. apply (leads_iff _ _ _ Hl). right. split; [done|]. intros c Hc Heq. apply Hn.
        exists c, r. split_and!; try done. destruct (before c) as [old|] eqn:Eb.
        -- f_equal. apply (ascending_row_inj rows); [apply Hl|by eapply leads_old|done|]. rewrite <-Heq. by eapply leads_id_before.
        -- exfalso. by apply (leads_new _ _ _ Hl c Hc Eb r Hr).
      * exists r. split_and!; [|done..]. apply (leads_iff _ _ _ Hl). left. eauto.
    + intros (r & [(c & Hc & Ha)|[Hr Hn]]%(leads_iff _ _ _ Hl) & Hid & Hk).
      * right. exists c, r. done.
      * left. split; [by exists r|]. intros (c & r' & Hc & Hb & _ & Hid'). apply (Hn c Hc). rewrite <-(leads_id_before _ _ _ c r' Hl Hc Hb). congruence.
Qed.
End pass.

(** ** One reference under the changes of a statement *)

Lemma bytes_cmp_between b k : above (Included b) k && below (Included b) k = true ↔ k = b.
Proof.
  unfold above, below. split.
  - intros [Ha Hb]%andb_true_iff. rewrite (bytes_cmp_antisym b k) in Hb. destruct (bytes_cmp b k) eqn:E; try done. symmetry. by apply bytes_cmp_Eq.
  - intros ->. by rewrite bytes_cmp_refl.
Qed.

(** A scan at one key finds the rows of that key. *)
Lemma scan_point db name t shape d b hits : indexed db name t → bt_get shape (definitions_of db name) = Some d →
  scan_index db name shape (Included b, Included b) false None = Ok hits →
  ∀ id, (∃ k, (k, id) ∈ hits) ↔ ∃ r, r ∈ tbl_rows t ∧ row_id r = id ∧ row_key (db_catalog db) (tbl_schema t) d r = Ok (Some b).
Proof.
  intros Hi Hd Hs id. destruct (ti_posting _ _ _ _ Hi shape d Hd) as (p & Hp & Hpo & _). unfold scan_index in Hs. rewrite Hp in Hs.
  cbn [mbind result_bind ok_or range_panics] in Hs. rewrite bytes_cmp_refl in Hs. injection Hs as <-. rewrite <-(posting_of_iff _ _ _ Hpo). setoid_rewrite flat_hits_elem. unfold posting_range.
  setoid_rewrite list_elem_of_In. setoid_rewrite filter_In. cbn [fst snd]. setoid_rewrite bytes_cmp_between. setoid_rewrite <-list_elem_of_In.
  split.
  - intros (k & ids & [Hin ->] & Hid). apply bt_get_iff in Hin; [|apply Hpo]. unfold ids_at. by rewrite Hin.
  - unfold ids_at. destruct (bt_get b p) as [ids|] eqn:E; [|by intros ?%elem_of_nil]. intros Hid. exists b, ids. split; [|done]. split; [|done]. by apply bt_get_elem.
Qed.

Definition tables_ok (db : Database) : Prop := ∀ name t, bt_get name (db_objects db) = Some t → table_ok db name t.

(** The changes of the table [name], whose rows become [rows']. *)
Section change.
Context (db : Database) (name : string) (t : Table) (cs : list RowChange) (rows' : list Row).
Hypotheses (Hso : schema_ok db) (Htabs : tables_ok db) (Hname : bt_get name (db_objects db) = Some t) (Hlead : leads (tbl_rows t) cs rows').
Hypothesis (Htyped : ∀ r, r ∈ rows' → typed_row (db_catalog db) (tbl_schema t) (row_fields r)).

(** The rows of the table [n] afterwards. *)
Definition rows_after (n : string) (u : Table) : list Row := if bool_decide (n = name) then rows' else tbl_rows u.

Lemma rows_after_typed n u r : bt_get n (db_objects db) = Some u → r ∈ rows_after n u → typed_row (db_catalog db) (tbl_schema u) (row_fields r).
Proof.
  intros Hn. unfold rows_after. case_bool_decide as E; [subst n; assert (u = t) as -> by congruence; apply Htyped|]. by apply (to_rows _ _ _ (Htabs n u Hn)).
Qed.

Lemma rows_after_elem n u r : bt_get n (db_objects db) = Some u → r ∈ rows_after n u ↔
  (n = name ∧ ∃ c, c ∈ cs ∧ after c = Some r) ∨ (r ∈ tbl_rows u ∧ (n = name → ∀ c, c ∈ cs → change_id c ≠ row_id r)).
Proof.
  intros Hn. unfold rows_after. case_bool_decide as E; [subst n; assert (u = t) as -> by congruence; rewrite (leads_iff _ _ _ Hlead)|]; naive_solver.
Qed.

Lemma table_id_name n u : bt_get n (db_objects db) = Some u → (tbl_id u =? tbl_id t) = bool_decide (n = name).
Proof.
  intros Hn. case_bool_decide as E; [subst n; rewrite Z.eqb_eq; congruence|]. apply Z.eqb_neq. intros Eid. by apply E, (so_id _ Hso n u name t).
Qed.

(** What the checks of one reference establish, for the collected keys. *)
Lemma validate_checks id d ns nt s ts tg ix p : reference_ok db id d ns nt s ts tg ix p → validate_reference db (tbl_id t) cs d = Ok tt →
  (ns ≠ name ∧ nt ≠ name) ∨ ∃ k, collected db d (bool_decide (ns = name)) (bool_decide (nt = name)) cs k ∧
  (∀ key, bs_mem key (rk_removed_targets k) = true →
    check_removed db d k (if bool_decide (ns = name) then change_id <$> cs else []) key = Ok tt) ∧
  (∀ key b, bt_get key (rk_source_keys k) = Some b →
    check_source db tg s (bool_decide (nt = name)) (change_id <$> cs) k (key, b) = Ok tt).
Proof.
  intros [Hid [Hns Hnsid] [Hnt Hntid] Hix _ _ _ _ _] Hv. unfold validate_reference in Hv.
  rewrite <-Hnsid, <-Hntid, (table_id_name _ _ Hns), (table_id_name _ _ Hnt) in Hv.
  pose proof (to_indexed _ _ _ (Htabs _ _ Hnt)) as Hi. rewrite (reference_target_index_eq db d nt tg s ix) in Hv by done.
  destruct (negb (bool_decide (ns = name)) && negb (bool_decide (nt = name))) eqn:E.
  { left. apply andb_true_iff in E as [E1%negb_true_iff%bool_decide_eq_false E2%negb_true_iff%bool_decide_eq_false]. done. }
  right. cbn [mbind result_bind] in Hv. apply bind_Ok in Hv as (k & Hk & Hv). apply bind_Ok in Hv as ([] & Hr & Hs).
  pose proof (proj1 (eachR_Ok _ _) Hr) as Hr'. pose proof (proj1 (eachR_Ok _ _) Hs) as Hs'. clear Hr Hs. exists k. split_and!; [by apply collect_changes| |].
  - intros key Hm. apply Hr'. unfold bs_mem, bt_mem in Hm. destruct (bt_get key _) as [[]|] eqn:Eg; [|done]. apply bt_get_elem in Eg.
    by apply (list_elem_of_fmap_2 fst) in Eg.
  - intros key b Hb. destruct Hix as (Hsix & _). rewrite <-(ti_shape _ _ _ _ Hi s ix Hsix) in Hs'. apply Hs'. by apply bt_get_elem.
Qed.

(** A new source row, whose key is collected, has its target. *)
Lemma new_source_satisfied id d ns nt s ts tg ix p k key b vs c r : reference_ok db id d ns nt s ts tg ix p →
  collected db d (bool_decide (ns = name)) (bool_decide (nt = name)) cs k →
  (∀ key b, bt_get key (rk_source_keys k) = Some b → check_source db tg s (bool_decide (nt = name)) (change_id <$> cs) k (key, b) = Ok tt) →
  ns = name → c ∈ cs → after c = Some r → key_of (db_catalog db) d true r = Ok (Some key) → bt_get key (rk_source_keys k) = Some b →
  reference_values (rd_components d) (row_fields r) true = Ok (Some vs) →
  ∃ r', r' ∈ rows_after nt tg ∧ reference_values (rd_components d) (row_fields r') false = Ok (Some vs).
Proof.
  intros [Hid [Hns Hnsid] [Hnt Hntid] Hix Hcols Htys Hst Hpo Hsat] Hcl Hs Hnn Hc Ha Hkey Hb Hvs.
  destruct (so_names _ Hso) as (names & Hcat & Hnames).
  assert (Hgs : good_type names (TRecord (tbl_schema ts))) by (split; [apply (to_typed _ _ _ (Htabs _ _ Hns))|by eapply Hnames]).
  assert (Hgt : good_type names (TRecord (tbl_schema tg))) by (split; [apply (to_typed _ _ _ (Htabs _ _ Hnt))|by eapply Hnames]).
  assert (Hafter : ∀ c' r', c' ∈ cs → after c' = Some r' → ns = name → typed_row (db_catalog db) (tbl_schema ts) (row_fields r')).
  { intros c' r' Hc' Ha' Hn. apply (rows_after_typed ns); [done|]. apply rows_after_elem; [done|]. left. eauto. }
  specialize (Hs key b Hb). unfold check_source in Hs. cbn [fst snd] in Hs. destruct (bs_mem key (rk_new_targets k)) eqn:En.
  - destruct (cl_new _ _ _ _ _ _ Hcl key En) as (c' & r' & Htn%bool_decide_eq_true & Hc' & Ha' & Hkey'). exists r'.
    assert (Hr' : r' ∈ rows_after nt tg) by (apply rows_after_elem; [done|]; left; eauto). split; [done|].
    eapply (key_of_values names _ Hcat (tbl_schema ts) (tbl_schema tg) d true false r r' key); try done.
    + exact (Hafter c r Hc Ha Hnn).
    + exact (rows_after_typed nt tg r' Hnt Hr').
  - apply bind_Ok in Hs as (hits & Hhits & Hs). destruct (existsb _ hits) eqn:Ex; [|done]. apply existsb_exists in Ex as ([kk hid] & Hin & Hun).
    apply list_elem_of_In in Hin. pose proof Hix as (Hsix & _). rewrite (proj1 (so_name _ Hso _ _ Hnt)) in Hhits.
    destruct (proj1 (scan_point db nt tg s ix b hits (to_indexed _ _ _ (Htabs _ _ Hnt)) Hsix Hhits hid)) as (r' & Hr' & Hrid & Hrk); [by exists kk|].
    exists r'. split.
    + apply rows_after_elem; [done|]. right. split; [done|]. intros Htn c' Hc' Eid. rewrite bool_decide_eq_true_2 in Hun by done. simpl in Hun.
      apply negb_true_iff in Hun. rewrite <-not_true_iff_false, existsb_exists in Hun. apply Hun. exists hid. split; [|apply Z.eqb_refl].
      apply list_elem_of_In, list_elem_of_fmap. exists c'. split; [congruence|done].
    + destruct (cl_source _ _ _ _ _ _ Hcl key b Hb) as (c0 & r0 & Hs0%bool_decide_eq_true & Hc0 & Ha0 & Hkey0 & Hbd0).
      assert (Hvs0 : reference_values (rd_components d) (row_fields r0) true = Ok (Some vs)).
      { eapply (key_of_values names _ Hcat (tbl_schema ts) (tbl_schema tg) d true true r r0 key); try done; [exact (Hafter c r Hc Ha Hnn)|exact (Hafter c0 r0 Hc0 Ha0 Hs0)]. }
      unfold reference_target_boundary in Hbd0. rewrite Hvs0 in Hbd0. cbn [mbind result_bind] in Hbd0.
      rewrite (reference_target_index_eq db d nt tg s ix) in Hbd0; [|done|done|done|apply (Htabs _ _ Hnt)|done]. cbn [mbind result_bind] in Hbd0.
      apply fmap_Ok in Hbd0 as (b0 & Hb0 & [= <-]).
      eapply (boundary_values names _ Hcat (tbl_schema ts) (tbl_schema tg) _ ix r0 r'); try done; [exact (Hafter c0 r0 Hc0 Ha0 Hs0)|by apply (to_rows _ _ _ (Htabs _ _ Hnt))].
Qed.

Lemma reference_satisfied id d ns nt s ts tg ix p : reference_ok db id d ns nt s ts tg ix p →
  validate_reference db (tbl_id t) cs d = Ok tt → satisfied (rd_components d) (rows_after ns ts) (rows_after nt tg).
Proof.
  intros Hro Hv. pose proof Hro as [Hid [Hns Hnsid] [Hnt Hntid] Hix Hcols Htys Hst Hpo Hsat].
  destruct (validate_checks _ _ _ _ _ _ _ _ _ Hro Hv) as [[Hn1 Hn2]|(k & Hcl & Hrm & Hsr)].
  { unfold rows_after. rewrite !bool_decide_eq_false_2 by done. exact Hsat. }
  intros r vs Hr Hvs. apply rows_after_elem in Hr as [(Hn & c & Hc & Ha)|[Hr Hun]]; [| |done].
  - destruct (cl_keyed _ _ _ _ _ _ Hcl c r (bool_decide_eq_true_2 _ Hn) Hc Ha) as (o & Ho & Hmem).
    assert (∃ key, o = Some key) as (key & ->).
    { unfold key_of in Ho. rewrite Hvs in Ho. cbn [mbind result_bind] in Ho. apply bind_Ok in Ho as (key & _ & Ho). case_if_in Ho; [done|].
      injection Ho as <-. eauto. }
    specialize (Hmem key eq_refl). unfold bt_mem in Hmem. destruct (bt_get key (rk_source_keys k)) as [b|] eqn:Eb; [|done].
    by eapply (new_source_satisfied id d ns nt s ts tg ix p k key b vs c r).
  - destruct (Hsat r vs Hr Hvs) as (r' & Hr' & Hvs'). destruct (decide (nt = name)) as [Htn|Htn].
    2:{ exists r'. split; [|done]. apply rows_after_elem; [done|]. right. split; [done|]. by intros ?. }
    destruct (decide (row_id r' ∈ change_id <$> cs)) as [Hch|Hch].
    2:{ exists r'. split; [|done]. apply rows_after_elem; [done|]. right. split; [done|]. intros _ c Hc Eid. apply Hch.
        rewrite <-Eid. by apply list_elem_of_fmap_2. }
    apply list_elem_of_fmap in Hch as (c & Eid & Hc). assert (tg = t) as -> by congruence.
    assert (Hb : before c = Some r').
    { destruct (before c) as [old|] eqn:Eb; [|exfalso; by apply (leads_new _ _ _ Hlead c Hc Eb r' Hr')]. f_equal.
      apply (ascending_row_inj (tbl_rows t)); [apply Hlead|by eapply leads_old|done|]. rewrite Eid. by eapply leads_id_before. }
    destruct (cl_removed _ _ _ _ _ _ Hcl c r' (bool_decide_eq_true_2 _ Htn) Hc Hb) as (key & Hkey & Hm).
    specialize (Hrm key Hm). unfold check_removed in Hrm. destruct (bs_mem key (rk_new_targets k)) eqn:En.
    + destruct (so_names _ Hso) as (names & Hcat & Hnames).
      assert (Hgs : good_type names (TRecord (tbl_schema ts))) by (split; [apply (to_typed _ _ _ (Htabs _ _ Hns))|by eapply Hnames]).
      assert (Hgt : good_type names (TRecord (tbl_schema t))) by (split; [apply (to_typed _ _ _ (Htabs _ _ Hnt))|by eapply Hnames]).
      destruct (cl_new _ _ _ _ _ _ Hcl key En) as (c' & r2 & _ & Hc' & Ha' & Hkey'). exists r2.
      assert (Hr2 : r2 ∈ rows_after nt t) by (apply rows_after_elem; [done|]; left; eauto). split; [done|].
      eapply (key_of_values names _ Hcat (tbl_schema ts) (tbl_schema t) d false false r' r2 key); try done.
      * exact (to_rows _ _ _ (Htabs _ _ Hnt) r' Hr').
      * exact (rows_after_typed nt t r2 Hnt Hr2).
    + exfalso. apply bind_Ok in Hrm as (b & Hb' & Hrm). enough (b = true) as -> by done.
      destruct (bt_mem key (rk_source_keys k)); [by injection Hb'|]. unfold memory_reference_source_exists in Hb'.
      rewrite Hid, Hst in Hb'. cbn [ok_or mbind result_bind] in Hb'. injection Hb' as <-. apply existsb_exists. exists (row_id r).
      assert (Hk : key_of (db_catalog db) d true r = Ok (Some key)) by (by eapply (key_of_same _ d false true r' r)).
      split.
      * apply list_elem_of_In. change (row_id r ∈ ids_at p key). apply (posting_of_iff _ _ _ Hpo). eauto.
      * apply negb_true_iff, not_true_iff_false. rewrite existsb_exists. intros (i & Hi%list_elem_of_In & Er%Z.eqb_eq).
        case_bool_decide as Hsn; [|by apply elem_of_nil in Hi]. apply list_elem_of_fmap in Hi as (c' & Ei & Hc'). apply (Hun Hsn c' Hc'). congruence.
Qed.
End change.

(** ** All references under the changes of a statement *)

Definition candidate_step (db : Database) (t : Table) (cs : list RowChange) (states : list (Z * IndexPosting)) (e : Z * ReferenceDefinition)
    : result (list (Z * IndexPosting)) :=
  if negb (rd_table_id e.2 =? tbl_id t) then Ok states
  else
    p ← ok_or (bt_get (rd_id e.2) states) "E_STORAGE";
    p ← foldR (λ p c, with_source_key db e.2 (before c) source_remove p) p cs;
    p ← foldR (λ p c, with_source_key db e.2 (after c) source_add p) p cs;
    Ok (bt_insert (rd_id e.2) p states).

(** What becomes of the reverse postings of one reference. *)
Definition state_after (db : Database) (t : Table) (cs : list RowChange) (d : ReferenceDefinition) (old new : option IndexPosting) : Prop :=
  if rd_table_id d =? tbl_id t then ∃ p p1 p2, old = Some p ∧
    foldR (λ p c, with_source_key db d (before c) source_remove p) p cs = Ok p1 ∧
    foldR (λ p c, with_source_key db d (after c) source_add p) p1 cs = Ok p2 ∧ new = Some p2
  else new = old.

Lemma candidate_states db t cs defs states states' : NoDup defs.*1 → (∀ id d, (id, d) ∈ defs → rd_id d = id) →
  foldR (candidate_step db t cs) states defs = Ok states' →
  (∀ id, id ∉ defs.*1 → bt_get id states' = bt_get id states) ∧
  ∀ id d, (id, d) ∈ defs → state_after db t cs d (bt_get id states) (bt_get id states').
Proof.
  revert states. induction defs as [|[id d] defs IH]; intros states Hnd Hids Hf; cbn [foldR] in Hf.
  { injection Hf as <-. split; [done|]. by intros id d ?%elem_of_nil. }
  apply bind_Ok in Hf as (s1 & Hs1 & Hf). apply list.NoDup_cons in Hnd as [Hni Hnd].
  destruct (IH s1 Hnd (λ i e Hi, Hids i e (list_elem_of_further _ _ _ Hi)) Hf) as [Hother Hthis]. clear IH.
  assert (Hid : rd_id d = id) by (apply Hids; by left).
  assert (Hs : (∀ j, j ≠ id → bt_get j s1 = bt_get j states) ∧ state_after db t cs d (bt_get id states) (bt_get id s1)).
  { unfold candidate_step in Hs1. unfold state_after. cbn [snd] in Hs1. destruct (rd_table_id d =? tbl_id t); cbn [negb] in Hs1; [|by injection Hs1 as <-].
    rewrite Hid in Hs1. apply bind_Ok in Hs1 as (p & Hp%ok_or_Ok & Hs1). apply bind_Ok in Hs1 as (p1 & Hp1 & Hs1).
    apply bind_Ok in Hs1 as (p2 & Hp2 & [= <-]). split; [intros j Hj; by apply bt_get_insert_ne|]. exists p, p1, p2. by rewrite bt_get_insert_eq. }
  destruct Hs as [Hne Heq]. split.
  - intros j [Hj1 Hj2]%not_elem_of_cons. rewrite Hother by done. by apply Hne.
  - intros j e [[= -> ->]|Hin]%elem_of_cons; [by rewrite Hother|]. rewrite <-Hne; [by apply Hthis|].
    intros ->. apply Hni. by apply (list_elem_of_fmap_2 fst) in Hin.
Qed.

Lemma reference_candidate_spec db name t cs states : linked db → bt_get name (db_objects db) = Some t →
  reference_candidate db name cs = Ok states →
  ∀ id d, bt_get id (db_reference_definitions db) = Some d →
    (cs = [] ∨ validate_reference db (tbl_id t) cs d = Ok tt) ∧ state_after db t cs d (bt_get id (db_reference_states db)) (bt_get id states).
Proof.
  intros [Hso Hs _ Hro] Hname Hc id d Hd. unfold reference_candidate, validate_source_reference_changes in Hc.
  destruct cs as [|c cs].
  { injection Hc as <-. split; [by left|]. destruct (Hro id d Hd) as (ns & nt & s & ts & tg & ix & p & [_ _ _ _ _ _ Hst _ _]). unfold state_after.
    case_match; [|done]. exists p, p, p. done. }
  destruct (db_reference_definitions db) as [|e defs] eqn:Edefs; [done|]. rewrite <-Edefs in *.
  apply bind_Ok in Hc as ([] & Hv & Hc). rewrite (proj2 (table_Ok db name t) Hname) in Hv, Hc. cbn [mbind result_bind] in Hv, Hc.
  assert (Hin : (id, d) ∈ db_reference_definitions db) by (by apply bt_get_elem).
  split; [right; apply (proj1 (eachR_Ok _ _) Hv), (list_elem_of_fmap_2 snd _ _ Hin)|].
  eapply (candidate_states db t (c :: cs) (db_reference_definitions db)).
  - by apply bt_sorted_NoDup.
  - intros i f Hi%bt_get_iff; [|done]. by destruct (Hro i f Hi) as (? & ? & ? & ? & ? & ? & ? & [? _ _ _ _ _ _ _ _]).
  - rewrite <-Hc. apply foldR_ext. intros st [i f]. done.
  - done.
Qed.

(** The schema does not depend on the rows. *)
Lemma schema_ok_rows db db' : schema_ok db → db_catalog db' = db_catalog db → db_index_definitions db' = db_index_definitions db →
  bt_sorted (db_objects db') = true →
  (∀ n u', bt_get n (db_objects db') = Some u' → ∃ u rows next, bt_get n (db_objects db) = Some u ∧ u' = with_rows rows next u) → schema_ok db'.
Proof.
  intros [Hs Hn Hid Hix Hixid [Hids Hbelow] Hnames] Ec Ed Hs' Htab.
  assert (Hdef : ∀ n, definitions_of db' n = definitions_of db n) by (intros n; unfold definitions_of; by rewrite Ed). split; [done|..].
  - intros n u' (u & rows & next & Hu & ->)%Htab. rewrite Ec. exact (Hn n u Hu).
  - intros n1 t1 n2 t2 (u1 & rows1 & next1 & Hu1 & ->)%Htab (u2 & rows2 & next2 & Hu2 & ->)%Htab E. exact (Hid n1 u1 n2 u2 Hu1 Hu2 E).
  - intros n u' s d (u & rows & next & Hu & ->)%Htab. rewrite Hdef, Ec. exact (Hix n u s d Hu).
  - intros n u' s1 d1 s2 d2 (u & rows & next & Hu & ->)%Htab. rewrite !Hdef. exact (Hixid n u s1 d1 s2 d2 Hu).
  - rewrite Ec. split; [done|]. intros n u' (u & rows & next & Hu & ->)%Htab. exact (Hbelow n u Hu).
  - rewrite Ec. destruct Hnames as (names & Hcat & Hnames). exists names. split; [done|].
    intros n u' (u & rows & next & Hu & ->)%Htab. exact (Hnames n u Hu).
Qed.

(** References read the tables, the indexes' definitions, the catalog and the references only. *)
Lemma linked_same db db' : db_objects db' = db_objects db → db_index_definitions db' = db_index_definitions db →
  db_catalog db' = db_catalog db → db_reference_definitions db' = db_reference_definitions db →
  db_reference_states db' = db_reference_states db → linked db → linked db'.
Proof.
  intros Eo Ed Ec Er Es [Hso Hs Hb Hro]. split; [|by rewrite Er|by rewrite Er, Ec|].
  - apply (schema_ok_rows db); try done; rewrite Eo; [apply Hso|]. intros n u' Hu. exists u', (tbl_rows u'), (tbl_next_row_id u').
    split; [done|]. by destruct u'.
  - intros id d. rewrite Er. intros Hd. destruct (Hro id d Hd) as (ns & nt & s & ts & tg & ix & p & []).
    exists ns, nt, s, ts, tg, ix, p. split; unfold is_target, definitions_of; by rewrite ?Eo, ?Ed, ?Ec, ?Es.
Qed.

(** A mutation that [reference_candidate] accepts keeps every reference. *)
Lemma linked_mutated db db' name t cs rows' next : linked db → tables_ok db → bt_get name (db_objects db) = Some t → leads (tbl_rows t) cs rows' →
  (∀ r, r ∈ rows' → typed_row (db_catalog db) (tbl_schema t) (row_fields r)) →
  reference_candidate db name cs = Ok (db_reference_states db') →
  db_reference_definitions db' = db_reference_definitions db → db_catalog db' = db_catalog db → db_index_definitions db' = db_index_definitions db →
  db_objects db' = bt_insert name (with_rows rows' next t) (db_objects db) → linked db'.
Proof.
  intros Hl Htabs Hname Hlead Hty Hc Er Ec Ed Eo. pose proof Hl as [Hso Hs Hb Hro].
  assert (Hget : ∀ n u, bt_get n (db_objects db) = Some u →
    ∃ u', bt_get n (db_objects db') = Some u' ∧ (∃ k, u' = with_rows (rows_after name rows' n u) k u)).
  { intros n u Hn. rewrite Eo. unfold rows_after. case_bool_decide as E.
    - subst n. assert (u = t) as -> by congruence. rewrite bt_get_insert_eq. eauto.
    - rewrite bt_get_insert_ne by done. exists u. split; [done|]. exists (tbl_next_row_id u). by destruct u. }
  split; [|by rewrite Er|by rewrite Er, Ec|].
  - apply (schema_ok_rows db); try done; [rewrite Eo; apply bt_insert_sorted, Hso|]. intros n u'. rewrite Eo.
    destruct (decide (n = name)) as [->|Hne]; [rewrite bt_get_insert_eq; intros [= <-]; eauto|]. rewrite bt_get_insert_ne by done.
    intros Hu. exists u', (tbl_rows u'), (tbl_next_row_id u'). split; [done|]. by destruct u'.
  - intros id d. rewrite Er. intros Hd. destruct (Hro id d Hd) as (ns & nt & s & ts & tg & ix & p & Hok).
    destruct (reference_candidate_spec db name t cs _ Hl Hname Hc id d Hd) as [Hv Hst].
    pose proof Hok as [Hid [Hns Hnsid] [Hnt Hntid] (Hx1 & Hx2 & Hx3) Hcols Htys Hstate Hpo Hsat].
    destruct (Hget ns ts Hns) as (ts' & Hts' & k1 & ->). destruct (Hget nt tg Hnt) as (tg' & Htg' & k2 & ->).
    assert (Hsat' : satisfied (rd_components d) (rows_after name rows' ns ts) (rows_after name rows' nt tg)).
    { destruct Hv as [->|Hv]; [|by eapply reference_satisfied].
      intros r vs Hr Hvs. apply (rows_after_elem db name t [] rows') in Hr as [(_ & ? & ?%elem_of_nil & _)|[Hr _]]; [done| |done..].
      destruct (Hsat r vs Hr Hvs) as (r' & Hr' & Hvs'). exists r'. split; [|done]. apply (rows_after_elem db name t [] rows'); [done..|].
      right. split; [done|]. by intros _ ? ?%elem_of_nil. }
    assert (Hpost : ∃ p', bt_get id (db_reference_states db') = Some p' ∧ posting_of (key_of (db_catalog db) d true) (rows_after name rows' ns ts) p').
    { unfold state_after in Hst. rewrite <-Hnsid, (table_id_name db name t Hso Hname _ _ Hns) in Hst. unfold rows_after.
      case_bool_decide as E; [|exists p; by rewrite Hst]. subst ns. assert (ts = t) as -> by congruence.
      destruct Hst as (p0 & p1 & p2 & E0 & Hp1 & Hp2 & ->). assert (p0 = p) as -> by congruence. exists p2. split; [done|].
      eapply (sources_posting db d (tbl_rows t) cs); try done. intros c r Hcc Ha. destruct Hv as [->|Hv]; [by apply elem_of_nil in Hcc|].
      destruct (validate_checks db name t cs Hso Htabs Hname _ _ _ _ _ _ _ _ _ Hok Hv) as [[? _]|(k & Hcl & _)]; [done|].
      destruct (cl_keyed _ _ _ _ _ _ Hcl c r (bool_decide_eq_true_2 _ eq_refl) Hcc Ha) as (o & -> & _). done. }
    destruct Hpost as (p' & Hp' & Hpo'). exists ns, nt, s, (with_rows (rows_after name rows' ns ts) k1 ts), (with_rows (rows_after name rows' nt tg) k2 tg), ix, p'. split; try done; rewrite ?Ec; try done.
    unfold is_target, definitions_of. rewrite Ed. done.
Qed.
End references.
