(* ===== verification/Mutations.v ===== *)
(** * Mutations keep the database consistent

    The invariant of the database state of src/src/db.rs, and that the row mutations keep
    it: inserting, upserting and deleting rows, one at a time or in batches, leave every
    table with the rows, indexes and references that belong together. *)
From stdpp Require Import gmap sorting.
From S2P Require Import Prelude Bytes Text Decimal Temporal Float64 Scalars BTree Model Coerce OrderedKey Codec Matching Coverage Catalog Schema Expression Typing IndexPredicate Database Postings Rows Tables References.

#[local] Strategy 1000 [MAX_DEPTH underlying field_type encode_tuple coerce].

Section consistency.
Context `{TextLib} `{PredicateText} `{Base64}.

Record consistent (db : Database) : Prop := {
  co_catalog : wf_catalog (db_catalog db) = true;
  co_generation : generation_ok db;
  co_table name t : bt_get name (db_objects db) = Some t → table_ok db name t;
  co_free name : bt_get name (db_objects db) = None → definitions_of db name = [] ∧ indexes_of db name = [];
  co_linked : linked db
}.

(** *** What a mutation leaves as it was *)

(** The parts of the database that consistency reads, outside the table [name]. *)
Record same_but (name : string) (db db' : Database) : Prop := {
  sb_catalog : db_catalog db' = db_catalog db;
  sb_definitions : db_index_definitions db' = db_index_definitions db;
  sb_objects n : n ≠ name → bt_get n (db_objects db') = bt_get n (db_objects db);
  sb_indexes n : n ≠ name → indexes_of db' n = indexes_of db n;
  sb_sequences : db_sequences db' = db_sequences db;
  sb_sample : db_sample db' = db_sample db
}.

(** The rows of a table became [rows'], by the changes [cs], and its indexes and references followed. *)
Record mutated (db : Database) (name : string) (t : Table) (cs : list RowChange) (rows' : list Row) (next : Z) (db' : Database) : Prop := {
  mu_same : same_but name db db';
  mu_objects : db_objects db' = bt_insert name (with_rows rows' next t) (db_objects db);
  mu_states : reference_candidate db name cs = Ok (db_reference_states db');
  mu_references : db_reference_definitions db' = db_reference_definitions db;
  mu_indexed : indexed db' name (with_rows rows' next t)
}.

Lemma mutated_table db name t cs rows' next db' : mutated db name t cs rows' next db' →
  bt_get name (db_objects db') = Some (with_rows rows' next t).
Proof. intros [_ -> _ _ _]. apply bt_get_insert_eq. Qed.

Lemma consistent_update name db db' t cs rows' next' : consistent db → table db name = Ok t → leads (tbl_rows t) cs rows' →
  mutated db name t cs rows' next' db' →
  next_free (with_rows rows' next' t) → (∀ r, r ∈ rows' → typed_row (db_catalog db) (tbl_schema t) (row_fields r)) →
  consistent db'.
Proof.
  intros [Hc Hg Ht Hf Hln] Htab%table_Ok Hl Hmu Hn Hr. pose proof (mutated_table _ _ _ _ _ _ _ Hmu) as Hget.
  pose proof Hmu as [[Sc Sd So Si Sq Ss] Eo Est Erf Hi]. pose proof (Ht _ _ Htab) as [_ Hpk _ Hty _].
  assert (Hdef : ∀ n, definitions_of db' n = definitions_of db n) by (intros n; unfold definitions_of; by rewrite Sd).
  split; [by rewrite Sc|split; [rewrite Sq; apply Hg|rewrite Ss; apply Hg]| | |by eapply (linked_mutated db db')].
  - intros n t'. destruct (decide (n = name)) as [->|Hne].
    + rewrite Hget. intros [= <-]. split; [done| |done| |].
      * intros key. rewrite Hdef. apply Hpk.
      * rewrite Sc. destruct Hty. by split.
      * unfold rows_typed. rewrite Sc. exact Hr.
    + rewrite So by done. intros Hb. destruct (Ht _ _ Hb) as [Hi' ? ? ? ?].
      split; [|unfold primary_defined; by rewrite Hdef|done|by rewrite Sc|unfold rows_typed; by rewrite Sc].
      unfold indexed in *. by rewrite Sc, Hdef, Si.
  - intros n Hb. destruct (decide (n = name)) as [->|Hne]; [congruence|]. rewrite Hdef, Si by done. apply Hf. by rewrite <-So.
Qed.

Lemma core_same_table db db' name : core_same db db' → table db' name = table db name.
Proof. intros [E]. unfold table. by rewrite E. Qed.

Lemma consistent_core db db' : core_same db db' → generation_ok db' → consistent db → consistent db'.
Proof.
  intros [Eo Ei Ed Ec Er Es] Hg [Hc _ Ht Hf Hln]. split; [by rewrite Ec|done| | |by eapply linked_same].
  - intros n t. rewrite Eo. intros Hb. destruct (Ht n t Hb) as [Hi ? ? ? ?]. unfold indexed, primary_defined, definitions_of, indexes_of, rows_typed in *.
    split; unfold indexed, primary_defined, definitions_of, indexes_of, rows_typed; by rewrite ?Ec, ?Ei, ?Ed.
  - intros n. rewrite Eo. unfold definitions_of, indexes_of. rewrite Ei, Ed. apply Hf.
Qed.

Lemma indexed_next db name t rows n m : indexed db name (with_rows rows n t) → indexed db name (with_rows rows m t).
Proof. intros []. by split. Qed.

(** Recording writes only adds to the pending writes. *)
Lemma record_index_changes_state name defs cs db db' : record_index_changes name defs cs db = Ok db' →
  ∃ w, db' = set_pending_writes w db.
Proof.
  unfold record_index_changes, record_reference_changes. intros (e & _ & Hr)%bind_Ok.
  apply bind_Ok in Hr as (t & _ & Hr). apply bind_Ok in Hr as (e' & _ & Hr). apply Ok_inj in Hr as <-.
  eexists. unfold set_pending_writes. simpl. reflexivity.
Qed.

Lemma indexed_after_indexed db name t rows' ixs next :
  indexed db name t → ascending (row_id <$> rows') → indexed_after db name t rows' ixs →
  table_indexed (db_catalog db) (with_rows rows' next t) (definitions_of db name) ixs.
Proof.
  intros Hi Ha (Hs & Hn & Hp). split; simpl; [done|apply Hi|done|apply Hi|apply Hi|done|exact Hp].
Qed.

Lemma sorted_all_none {A} (m : list (string * A)) : (∀ k, bt_get k m = None) → m = [].
Proof. destruct m as [|[k a] m]; [done|]. intros Hk. specialize (Hk k). simpl in Hk. by rewrite str_cmp_refl in Hk. Qed.

Lemma replace_replaced db name t cs rows' db' :
  table db name = Ok t → indexed db name t → leads (tbl_rows t) cs rows' →
  replace_rows_and_indexes db name rows' cs = Ok db' → mutated db name t cs rows' (tbl_next_row_id t) db'.
Proof.
  intros Ht Hi Hl Hr. unfold replace_rows_and_indexes in Hr. rewrite Ht in Hr. simpl in Hr.
  apply bind_Ok in Hr as (ixs & Hc & Hr). apply bind_Ok in Hr as (states & Hst & Hr).
  apply record_index_changes_state in Hr as [w ->].
  assert (Hk : rows_keyed db name t rows').
  { unfold candidate_indexes in Hc. apply bind_Ok in Hc as ([] & Hc & _). by apply (checks_keyed db name t cs rows' Ht Hi Hl) in Hc. }
  destruct (candidate_indexes_cases db name t cs rows' Ht Hi Hl Hk) as [(ixs' & Hc' & Ha)|[Hc' _]]; [|congruence].
  rewrite Hc in Hc'. injection Hc' as <-.
  pose proof (indexed_after_indexed db name t rows' ixs (tbl_next_row_id t) Hi (leads_after _ _ _ Hl) Ha) as Hix.
  destruct (definitions_of db name) as [|e defs] eqn:Ed.
  - split; [split; try done|done|exact Hst|done|].
    + intros n Hn. by apply bt_get_insert_ne.
    + unfold indexed, definitions_of, indexes_of in *. simpl in *. rewrite Ed.
      enough (default [] (bt_get name (db_indexes db)) = ixs) as -> by done.
      trans ([] : list (string * IndexPosting)); [|symmetry]; apply sorted_all_none; intros k.
      * apply (ti_defined _ _ _ _ Hi). by rewrite Ed.
      * by apply (ti_defined _ _ _ _ Hix).
  - split; [split; try done|done|exact Hst|done|].
    + intros n Hn. by apply bt_get_insert_ne.
    + intros n Hn. unfold indexes_of. simpl. by rewrite bt_get_insert_ne.
    + unfold indexed, definitions_of, indexes_of in *. simpl in *. rewrite Ed, bt_get_insert_eq. exact Hix.
Qed.

(** *** Inserting a row *)

Lemma posting_push_unique p key id : posting_wf p → unique_posting p → ids_at p key = [] → unique_posting (posting_push p key id).
Proof.
  intros Hp Hu Hk k i j. destruct (posting_push_spec p key id Hp) as [_ Hi]; [rewrite Hk; by intros x ?%elem_of_nil|].
  rewrite !Hi. intros [Hx|[-> ->]] [Hy|[? ->]]; subst; eauto; rewrite Hk in *; by apply elem_of_nil in Hx || apply elem_of_nil in Hy.
Qed.

Lemma bt_mem_ids p key : posting_wf p → bt_mem key p = false → ids_at p key = [].
Proof. intros Hp. unfold bt_mem, ids_at. by destruct (bt_get key p). Qed.

(** The entries of a new row, pushed into the indexes that include it. *)
Lemma push_entries db name fields id defs ixs entries ixs' :
  NoDup defs.*1 → (∀ s d, (s, d) ∈ defs → s = shape_key d) → bt_sorted ixs = true →
  mapR (λ '(_, d), key ← index_tuple_key db name (effective_components d) fields; Ok (shape_key d, key))
    (List.filter (λ e, includes e.2 fields) defs) = Ok entries →
  foldR (λ indexes '(shape, key),
    p ← ok_or (bt_get shape indexes) PANIC; Ok (bt_insert shape (posting_push p key id) indexes)) ixs entries = Ok ixs' →
  bt_sorted ixs' = true ∧ (∀ s, s ∉ defs.*1 → bt_get s ixs' = bt_get s ixs) ∧
  ∀ s d, (s, d) ∈ defs →
    if includes d fields then ∃ key p, index_tuple_key db name (effective_components d) fields = Ok key ∧
      bt_get s ixs = Some p ∧ bt_get s ixs' = Some (posting_push p key id)
    else bt_get s ixs' = bt_get s ixs.
Proof.
  revert ixs entries. induction defs as [|[s d] defs IH]; intros ixs entries Hn Hs Hso He Hf.
  { simpl in He. injection He as <-. simpl in Hf. injection Hf as <-. split_and!; [done..|]. set_solver. }
  apply list.NoDup_cons in Hn as [Hsn Hn]. assert (Hs' : ∀ s d, (s, d) ∈ defs → s = shape_key d) by set_solver.
  pose proof (Hs s d (list_elem_of_here _ _)) as Hsd. simpl in He.
  destruct (includes d fields) eqn:Ei; simpl in He.
  - apply bind_Ok in He as (e & Hk & He). apply bind_Ok in Hk as (key & Hk & [= <-]). apply bind_Ok in He as (es & He & [= <-]).
    simpl in Hf. apply bind_Ok in Hf as (ixs1 & Hp & Hf). apply bind_Ok in Hp as (p & Hp%ok_or_Ok & [= <-]). rewrite <-Hsd in *.
    destruct (IH _ _ Hn Hs' (bt_insert_sorted _ _ _ Hso) He Hf) as (Hs2 & Hother & Hthis).
    split_and!; [done| |].
    + intros s' [Hne Hnin]%not_elem_of_cons. rewrite Hother by done. by apply bt_get_insert_ne.
    + intros s' d' [[= -> ->]|Hin]%elem_of_cons.
      * rewrite Ei. exists key, p. split_and!; [done..|]. rewrite Hother by done. apply bt_get_insert_eq.
      * assert (s' ≠ s) by (intros ->; apply Hsn, list_elem_of_fmap; by exists (s, d')).
        specialize (Hthis s' d' Hin). by rewrite bt_get_insert_ne in Hthis.
  - destruct (IH _ _ Hn Hs' Hso He Hf) as (Hs2 & Hother & Hthis). split_and!; [done| |].
    + intros s' [_ Hnin]%not_elem_of_cons. auto.
    + intros s' d' [[= -> ->]|Hin]%elem_of_cons; [rewrite Ei; auto|by apply Hthis].
Qed.

(** The key of a row under the primary index is the key of its primary-key field. *)
Lemma primary_tuple_key db name t d key fields v bytes b :
  table db name = Ok t → is_primary_index d (Some key) = true →
  row_field fields key = Some v → single_index_key db name key v = Ok bytes →
  index_tuple_key db name (effective_components d) fields = Ok b → b = bytes.
Proof.
  intros Ht Hp Hv Hs Hi. unfold is_primary_index in Hp. destruct (effective_components d) as [|c [|]] eqn:Ec; try done.
  apply andb_true_iff in Hp as [Hd%negb_true_iff [= Hkey]%bool_decide_eq_true]. subst key.
  rewrite (index_tuple_key_eq _ _ _ _ _ Ht) in Hi. unfold single_index_key in Hs. rewrite Ht in Hs.
  apply bind_Ok in Hi as (vs & Hvs%mapR_Ok & Hi). apply bind_Ok in Hi as (tys & Htys%mapR_Ok & Hi).
  apply bind_Ok in Hi as (k & Hk & Hi). apply (bind_Ok (Ok t)) in Hs as (t' & [= <-] & Hs). apply bind_Ok in Hs as (ty & Hty & Hs).
  apply Forall2_cons_inv_l in Hvs as (v' & vs' & Hv' & ->%Forall2_nil_inv_l & ->).
  apply Forall2_cons_inv_l in Htys as (ty' & tys' & Hty' & ->%Forall2_nil_inv_l & ->).
  apply bind_Ok in Hv' as (v'' & Hv''%ok_or_Ok & Hv'). apply bind_Ok in Hv' as (_ & _ & [= ->]).
  assert (v' = v) as -> by congruence. assert (ty' = ty) as -> by congruence.
  cbn [zip zip_with] in Hk. rewrite Hd, Hs in Hk. case_match; congruence.
Qed.

Lemma ascending_rows_snoc t row : ascending (row_id <$> tbl_rows t) → (∀ r, r ∈ tbl_rows t → row_id r < row_id row) →
  ascending (row_id <$> (tbl_rows t ++ [row])).
Proof.
  intros Ha Hlt. rewrite fmap_app. apply ascending_snoc; [done|]. intros y (r & -> & Hr)%list_elem_of_fmap. auto.
Qed.

(** The checks of [insert_fields]: no entry of a guarded index has the key of the new row. *)
Lemma insert_checks db name t fields :
  table db name = Ok t → indexed db name t →
  match tbl_primary_key t with
  | Some key =>
      v ← ok_or (row_field fields key) "E_FIELD";
      bytes ← single_index_key db name key v;
      match primary_posting db name key with Some p => if bt_mem bytes p then Err "E_CONSTRAINT" else Ok tt | None => Ok tt end
  | None => Ok tt
  end = Ok tt →
  eachR (λ '(_, d),
        if is_unique (ix_kind d) && includes d fields then
          key ← index_tuple_key db name (effective_components d) fields;
          match primary_posting db name (shape_key d) with
          | Some p => if bt_mem key p then Err "E_CONSTRAINT" else Ok tt
          | None => Ok tt
          end
        else Ok tt) (definitions_of db name) = Ok tt →
  ∀ s d p key, bt_get s (definitions_of db name) = Some d → bt_get s (indexes_of db name) = Some p →
    guarded (tbl_primary_key t) d = true → includes d fields = true →
    index_tuple_key db name (effective_components d) fields = Ok key → bt_mem key p = false.
Proof.
  intros Ht Hi Hpk Huq s d p key Hd Hp Hg Hin Hkey. pose proof (ti_shape _ _ _ _ Hi _ _ Hd) as Hs.
  assert (Hpp : primary_posting db name s = Some p).
  { unfold primary_posting. unfold indexes_of in Hp. by destruct (bt_get name (db_indexes db)). }
  unfold guarded in Hg. destruct (is_unique (ix_kind d)) eqn:Eu; simpl in Hg.
  - pose proof (proj1 (eachR_Ok _ _) Huq (s, d) (proj2 (defs_elem db name t Hi s d) Hd)) as Hx. clear Huq. rename Hx into Huq. simpl in Huq.
    rewrite Eu, Hin in Huq. simpl in Huq. rewrite Hkey in Huq. simpl in Huq. rewrite <-Hs, Hpp in Huq.
    by destruct (bt_mem key p).
  - assert (Hnp : ix_predicate d = None).
    { destruct (ix_predicate d) eqn:E; [|done]. rewrite (ti_partial _ _ _ _ Hi s d Hd) in Eu by congruence. done. }
    destruct (tbl_primary_key t) as [pk|] eqn:Epk; [|unfold is_primary_index in Hg; repeat case_match; try done;
      apply andb_true_iff in Hg as [_ Hg]; by case_bool_decide].
    apply bind_Ok in Hpk as (v & Hv%ok_or_Ok & Hpk). apply bind_Ok in Hpk as (bytes & Hb & Hpk).
    rewrite <-(primary_shape d pk Hg Hnp), <-Hs, Hpp in Hpk.
    rewrite (primary_tuple_key db name t d pk fields v bytes key Ht Hg Hv Hb Hkey). by destruct (bt_mem bytes p).
Qed.

Lemma record_table_watermark_state name old new db : ∃ w, record_table_watermark name old new db = set_pending_writes w db.
Proof. unfold record_table_watermark. case_match; [|by eexists]. exists (db_pending_writes db). by destruct db. Qed.

Definition push_all (id : Z) (ixs : list (string * IndexPosting)) (entries : list (string * list Z))
    : result (list (string * IndexPosting)) :=
  foldR (λ indexes '(shape, key),
    p ← ok_or (bt_get shape indexes) PANIC; Ok (bt_insert shape (posting_push p key id) indexes)) ixs entries.

(** The indexes after the entries of a new row were pushed. *)
Lemma pushed_indexes db name t fields entries ixs :
  table db name = Ok t → indexed db name t → next_free t →
  (∀ s d p key, bt_get s (definitions_of db name) = Some d → bt_get s (indexes_of db name) = Some p →
    guarded (tbl_primary_key t) d = true → includes d fields = true →
    index_tuple_key db name (effective_components d) fields = Ok key → bt_mem key p = false) →
  mapR (λ '(_, d), key ← index_tuple_key db name (effective_components d) fields; Ok (shape_key d, key))
    (List.filter (λ e, includes e.2 fields) (definitions_of db name)) = Ok entries →
  push_all (tbl_next_row_id t) (indexes_of db name) entries = Ok ixs →
  indexed_after db name t (tbl_rows t ++ [mkRow (tbl_next_row_id t) fields]) ixs.
Proof.
  intros Ht Hi [_ Hnf] Hfree He Hixs. set (row := mkRow (tbl_next_row_id t) fields) in *.
  assert (Hd : NoDup (definitions_of db name).*1) by (apply bt_sorted_NoDup, Hi).
  assert (Hshape : ∀ s d, (s, d) ∈ definitions_of db name → s = shape_key d).
  { intros s d Hin%(defs_elem db name t Hi). by apply (ti_shape _ _ _ _ Hi). }
  destruct (push_entries db name fields _ _ _ _ _ Hd Hshape (ti_sorted _ _ _ _ Hi) He Hixs) as (Hs & Hother & Hthis).
  split_and!; [done| |].
  - intros s Hsn. rewrite Hother by (by apply (defs_none db name t Hi)). by apply (ti_defined _ _ _ _ Hi).
  - intros s d Hsd. destruct (ti_posting _ _ _ _ Hi s d Hsd) as (p & Hp & Hpo & Hu).
    specialize (Hthis s d (proj2 (defs_elem db name t Hi s d) Hsd)).
    assert (Hlt : ∀ r, r ∈ tbl_rows t → row_id r < row_id row) by (intros r Hr; by apply Hnf).
    pose proof (posting_of_snoc _ _ row p Hpo Hlt) as Hsnoc. unfold row_key at 1 in Hsnoc. simpl in Hsnoc.
    destruct (includes d fields) eqn:Einc.
    + destruct Hthis as (key & p' & Hkey & Hp' & Hget). assert (p' = p) as -> by congruence.
      exists (posting_push p key (tbl_next_row_id t)). split_and!; [done| |].
      * apply (Hsnoc (Some key)). by rewrite <-(index_tuple_key_eq _ _ _ _ _ Ht), Hkey.
      * intros Hg. apply posting_push_unique; [apply Hpo|auto|]. apply bt_mem_ids; [apply Hpo|]. by eapply Hfree.
    + exists p. rewrite Hthis. split_and!; [done| |done]. by apply (Hsnoc None).
Qed.

(** A table without indexes in memory has no definitions. *)
Lemma unindexed_definitions db name t : indexed db name t → bt_get name (db_indexes db) = None → definitions_of db name = [].
Proof.
  intros Hi Hn. apply sorted_all_none. intros k. destruct (bt_get k (definitions_of db name)) as [d|] eqn:Ek; [|done].
  destruct (ti_posting _ _ _ _ Hi k d Ek) as (p & Hp & _). unfold indexes_of in Hp. by rewrite Hn in Hp.
Qed.

Lemma insert_fields_appended db name t fields db' id :
  table db name = Ok t → indexed db name t → next_free t →
  insert_fields db name fields = Ok (db', id) → id = tbl_next_row_id t ∧
  let row := mkRow (tbl_next_row_id t) fields in mutated db name t [inserted row] (tbl_rows t ++ [row]) (tbl_next_row_id t + 1) db'.
Proof.
  intros Ht Hi Hnf Hf. unfold insert_fields in Hf. rewrite Ht in Hf. cbn [mbind result_bind] in Hf.
  apply bind_Ok in Hf as ([] & _ & Hf). apply bind_Ok in Hf as ([] & Hpk & Hf). apply bind_Ok in Hf as ([] & Huq & Hf).
  apply bind_Ok in Hf as (next & Hnext & Hf). apply bind_Ok in Hf as (entries & He & Hf). apply bind_Ok in Hf as (states & Hst & Hf).
  apply bind_Ok in Hf as (db1 & Hdb1 & Hf). apply bind_Ok in Hf as (db2 & Hdb2 & Hf). injection Hf as <- <-.
  apply ok_or_Ok, checked_Some in Hnext as [_ ->]. split; [done|].
  pose proof (insert_checks db name t fields Ht Hi Hpk Huq) as Hfree. clear Hpk Huq.
  pose proof (pushed_indexes db name t fields entries) as Hpush.
  destruct (record_table_watermark_state name (tbl_next_row_id t) (tbl_next_row_id t + 1) db2) as [w ->].
  apply record_index_changes_state in Hdb2 as [w' ->].
  assert (Hres : ∀ ixs, push_all (tbl_next_row_id t) (indexes_of db name) entries = Ok ixs →
    table_indexed (db_catalog db) (with_rows (tbl_rows t ++ [mkRow (tbl_next_row_id t) fields]) (tbl_next_row_id t + 1) t)
      (definitions_of db name) ixs).
  { intros ixs Hixs. apply (indexed_after_indexed db name t); [done| |by apply Hpush].
    apply ascending_rows_snoc; [apply Hi|]. intros r Hr. by apply Hnf. }
  destruct (bt_get name (db_indexes db)) as [m|] eqn:Em.
  - apply bind_Ok in Hdb1 as (ixs & Hixs & [= <-]). split; [split; try done|done|exact Hst|done|].
    + intros n Hn. by apply bt_get_insert_ne.
    + intros n Hn. unfold indexes_of. simpl. by rewrite bt_get_insert_ne.
    + unfold indexed, definitions_of, indexes_of in *. simpl in *. rewrite bt_get_insert_eq. apply Hres. by rewrite Em.
  - injection Hdb1 as <-. split; [split; try done|done|exact Hst|done|].
    + intros n Hn. by apply bt_get_insert_ne.
    + unfold indexed. apply Hres. rewrite (unindexed_definitions db name t Hi Em) in He. injection He as <-. done.
Qed.

(** *** Growth of the catalog *)

Lemma table_indexed_extends cat cat' t defs ixs : extends cat cat' → table_indexed cat t defs ixs → table_indexed cat' t defs ixs.
Proof.
  intros He [? ? ? ? ? ? Hp]. split; try done. intros s d Hd. destruct (Hp s d Hd) as (p & ? & ? & ?).
  exists p. split_and!; [done| |done]. eapply posting_of_cong; [|done]. intros. by eapply row_key_extends.
Qed.

(** ** Row mutations *)

Lemma same_but_watermark name old new db : same_but name db (record_table_watermark name old new db).
Proof. destruct (record_table_watermark_state name old new db) as [w ->]. by split. Qed.

Lemma same_but_trans name db1 db2 db3 : same_but name db1 db2 → same_but name db2 db3 → same_but name db1 db3.
Proof.
  intros [a1 b1 c1 d1 e1 f1] [a2 b2 c2 d2 e2 f2]. split; [congruence|congruence| | |congruence|congruence].
  - intros n Hn. by rewrite c2, c1.
  - intros n Hn. by rewrite d2, d1.
Qed.

Lemma consistent_lookup db name t : consistent db → table db name = Ok t → table_ok db name t.
Proof. intros Hc Ht%table_Ok. by apply (co_table _ Hc). Qed.

Lemma insert_fields_consistent db name t fields db' id : consistent db → table db name = Ok t →
  typed_row (db_catalog db) (tbl_schema t) fields → insert_fields db name fields = Ok (db', id) → consistent db'.
Proof.
  intros Hc Ht Hty Hf. destruct (consistent_lookup _ _ _ Hc Ht) as [Hi _ Hn _ Hr].
  destruct (insert_fields_appended _ _ _ _ _ _ Ht Hi Hn Hf) as [_ Hmu].
  eapply consistent_update; try done.
  - apply leads_append; [apply Hi|]. intros r Hin. by apply Hn.
  - destruct Hn as [Hn Hb]. split; simpl; [lia|]. intros r [Hin| ->%list_elem_of_singleton]%elem_of_app; [|simpl; lia].
    specialize (Hb r Hin). lia.
  - intros r [Hin| ->%list_elem_of_singleton]%elem_of_app; [by apply Hr|done].
Qed.

(** After [replace_rows_and_indexes] and a new row ID bound. *)
Lemma replace_consistent db name t cs rows' db' : consistent db → table db name = Ok t →
  leads (tbl_rows t) cs rows' → (∀ r, r ∈ rows' → typed_row (db_catalog db) (tbl_schema t) (row_fields r)) →
  (∀ r, r ∈ rows' → 0 ≤ row_id r < tbl_next_row_id t) →
  replace_rows_and_indexes db name rows' cs = Ok db' → consistent db'.
Proof.
  intros Hc Ht Hl Hty Hb Hr. destruct (consistent_lookup _ _ _ Hc Ht) as [Hi _ Hn _ _].
  pose proof (replace_replaced _ _ _ _ _ _ Ht Hi Hl Hr) as Hmu.
  eapply consistent_update; try done. split; [apply Hn|done].
Qed.

Lemma replace_next_consistent db name t cs rows' next db1 db2 : consistent db → table db name = Ok t →
  leads (tbl_rows t) cs rows' → (∀ r, r ∈ rows' → typed_row (db_catalog db) (tbl_schema t) (row_fields r)) →
  0 ≤ next → (∀ r, r ∈ rows' → 0 ≤ row_id r < next) →
  replace_rows_and_indexes db name rows' cs = Ok db1 → set_next_row_id name next db1 = Ok db2 →
  consistent (record_table_watermark name (tbl_next_row_id t) next db2).
Proof.
  intros Hc Ht Hl Hty Hn0 Hb Hr Hset. destruct (consistent_lookup _ _ _ Hc Ht) as [Hi _ Hn _ _].
  pose proof (replace_replaced _ _ _ _ _ _ Ht Hi Hl Hr) as Hmu. pose proof (mutated_table _ _ _ _ _ _ _ Hmu) as Htab.
  destruct Hmu as [Hs Ho Hst Hrf Hix]. unfold set_next_row_id in Hset. rewrite Htab in Hset. simpl in Hset. injection Hset as <-.
  destruct (record_table_watermark_state name (tbl_next_row_id t) next
    (set_table name (with_rows rows' next (with_rows rows' (tbl_next_row_id t) t)) db1)) as [w ->].
  apply (consistent_update name db _ t cs rows' next); try done. split; try done.
  - eapply same_but_trans; [exact Hs|]. split; try done. intros n Hne. by apply bt_get_insert_ne.
  - simpl. by rewrite Ho, bt_insert_insert.
  - destruct Hix. by split.
Qed.

Section generating.
Context (clock : Z) (entropy : nat → option (list Z)) (Hentropy : entropy_ok entropy).

(** What materialising a row in a consistent database gives. *)
Lemma materialize_consistent db name t values up fields db' : consistent db → table db name = Ok t → wf_value values = true →
  materialize_generated_row clock entropy db name values up = Ok (fields, db') →
  typed_row (db_catalog db) (tbl_schema t) fields ∧ core_same db db' ∧ consistent db'.
Proof.
  intros Hc Ht Hv Hm. destruct (consistent_lookup _ _ _ Hc Ht) as [_ _ _ Htt _].
  destruct (materialize_spec clock entropy Hentropy _ _ _ _ _ _ _ (co_catalog _ Hc) Ht Htt (co_generation _ Hc) Hv Hm) as (Hty & Hs & Hg).
  split_and!; [done..|]. by apply (consistent_core db).
Qed.

Lemma insert_consistent db name values db' : consistent db → wf_value values = true →
  insert clock entropy db name values = Ok db' → consistent db'.
Proof.
  intros Hc Hv Hi. unfold insert in Hi. apply bind_Ok in Hi as (t & Ht & Hi). apply bind_Ok in Hi as ([fields db1] & Hm & Hi).
  apply bind_Ok in Hi as ([db2 id] & Hf & [= <-]).
  destruct (materialize_consistent _ _ _ _ _ _ _ Hc Ht Hv Hm) as (Hty & Hs & Hc1).
  eapply (insert_fields_consistent db1 name t); try done; [by rewrite (core_same_table db)|by rewrite (cs_catalog _ _ Hs)].
Qed.

Lemma materialize_rows_consistent db name t values up rows db' : consistent db → table db name = Ok t →
  forallb wf_value values = true → materialize_rows clock entropy db name values up = Ok (rows, db') →
  Forall (typed_row (db_catalog db) (tbl_schema t)) rows ∧ core_same db db' ∧ consistent db'.
Proof.
  unfold materialize_rows. revert db rows. induction values as [|v values IH]; intros db rows Hc Ht Hv Hm; cbn [mapS] in Hm.
  { injection Hm as <- <-. split_and!; [constructor|done|done]. }
  simpl in Hv. bool_inv. apply bind_Ok in Hm as ([fields db1] & Hm1 & Hm). apply bind_Ok in Hm as ([rest db2] & Hm2 & [= <- <-]).
  edestruct (materialize_consistent db) as (Hty & Hs & Hc1); [done..|].
  destruct (IH db1 rest) as (Hall & Hs' & Hc2); [done|by rewrite (core_same_table db)|done..|].
  rewrite (cs_catalog _ _ Hs) in Hall. split_and!; [by constructor|by etrans|done].
Qed.

Lemma leads_number rows cs rows1 first fs : leads rows cs rows1 →
  (∀ r, r ∈ rows1 → row_id r < first) → (∀ c, c ∈ cs → change_id c < first) →
  leads rows (cs ++ (inserted <$> number_rows first fs)) (rows1 ++ number_rows first fs).
Proof.
  revert cs rows1 first. induction fs as [|f fs IH]; intros cs rows1 first Hl Hr Hc; simpl; [by rewrite !app_nil_r|].
  rewrite (cons_middle (inserted (mkRow first f))), (cons_middle (mkRow first f)), !app_assoc. apply IH.
  - apply (leads_snoc _ _ rows1); [done|apply leads_append; [apply Hl|done]|].
    intros (c & Heq & Hin)%list_elem_of_fmap. specialize (Hc c Hin). cbn in Heq. lia.
  - intros r [Hin| ->%list_elem_of_singleton]%elem_of_app; [specialize (Hr r Hin); lia|simpl; lia].
  - intros c [Hin| ->%list_elem_of_singleton]%elem_of_app; [specialize (Hc c Hin); lia|cbn; lia].
Qed.

Lemma number_rows_elem first fs r : r ∈ number_rows first fs → first ≤ row_id r < first + zlen fs ∧ row_fields r ∈ fs.
Proof.
  revert first. induction fs as [|f fs IH]; intros first; simpl; [by intros ?%elem_of_nil|]. rewrite zlen_cons.
  pose proof (zlen_nonneg fs). intros [->|Hin]%elem_of_cons; simpl; [split; [lia|by left]|].
  destruct (IH _ Hin). split; [lia|by right].
Qed.

Lemma insert_many_consistent db name values db' : consistent db → wf_value values = true →
  insert_many clock entropy db name values = Ok db' → consistent db'.
Proof.
  intros Hc Hv Hi. unfold insert_many in Hi. apply bind_Ok in Hi as (t & Ht & Hi). apply bind_Ok in Hi as (l & Hl & Hi).
  case_if_in Hi; [done|]. apply bind_Ok in Hi as ([fields db1] & Hm & Hi). apply bind_Ok in Hi as (t1 & Ht1 & Hi).
  apply bind_Ok in Hi as (next & [_ ->]%ok_or_Ok%checked_Some & Hi). apply bind_Ok in Hi as (db2 & Hr & Hi).
  apply bind_Ok in Hi as (db3 & Hset & [= <-]).
  assert (Hwl : forallb wf_value l = true) by (destruct values; simpl in Hl; try done; by injection Hl as <-).
  destruct (materialize_rows_consistent _ _ _ _ _ _ _ Hc Ht Hwl Hm) as (Hall & Hs & Hc1).
  rewrite (core_same_table db) in Ht1 by done. assert (t1 = t) as -> by congruence. clear Ht1.
  destruct (consistent_lookup _ _ _ Hc Ht) as [Hix _ [Hn0 Hn] _ Hrows]. rewrite list.Forall_forall in Hall.
  pose proof (zlen_nonneg fields) as Hz.
  eapply (replace_next_consistent db1 name t (inserted <$> number_rows (tbl_next_row_id t) fields)); try done.
  - by rewrite (core_same_table db).
  - apply (leads_number (tbl_rows t) [] (tbl_rows t)); [apply leads_nil, Hix|intros r Hin; by apply Hn|by intros c ?%elem_of_nil].
  - rewrite (cs_catalog _ _ Hs). intros r [Hin|Hin]%elem_of_app; [by apply Hrows|]. by apply Hall, (number_rows_elem _ _ _ Hin).
  - lia.
  - intros r [Hin|Hin]%elem_of_app; [specialize (Hn r Hin); lia|]. apply number_rows_elem in Hin as [? _]. lia.
Qed.

Lemma row_position_Ok rows id n : row_position rows id = Ok n → ∃ r, rows !! n = Some r ∧ row_id r = id.
Proof.
  unfold row_position. destruct (binary_search _ _) as [[] m] eqn:E; [|done]. intros [= <-].
  apply binary_search_true in E. rewrite list_lookup_fmap in E. destruct (rows !! m) as [r|]; [|done].
  injection E as <-. by exists r.
Qed.

(** A row of the updated table: the new one, or an old one. *)
Lemma replaced_row (rows : list Row) n old new r : rows !! n = Some old → r ∈ <[n := new]> rows → r = new ∨ r ∈ rows.
Proof.
  intros Hn [m Hm]%list_elem_of_lookup. destruct (decide (m = n)) as [->|Hne].
  - rewrite list_lookup_insert_eq in Hm by (by eapply lookup_lt_Some). left. congruence.
  - rewrite list_lookup_insert_ne in Hm by done. right. by eapply list_elem_of_lookup_2.
Qed.

Lemma upsert_consistent db name values db' a : consistent db → wf_value values = true →
  upsert clock entropy db name values = Ok (db', a) → consistent db'.
Proof.
  intros Hc Hv Hu. unfold upsert in Hu. apply bind_Ok in Hu as (t & Ht & Hu). apply bind_Ok in Hu as (key & _ & Hu).
  apply bind_Ok in Hu as ([fields db1] & Hm & Hu). apply bind_Ok in Hu as (v & _ & Hu). apply bind_Ok in Hu as (bytes & _ & Hu).
  destruct (materialize_consistent _ _ _ _ _ _ _ Hc Ht Hv Hm) as (Hty & Hs & Hc1).
  assert (Ht1 : table db1 name = Ok t) by (by rewrite (core_same_table db)). rewrite <-(cs_catalog _ _ Hs) in Hty.
  assert (Hins : (x ← insert_fields db1 name fields; let '(db, _) := x in Ok (db, Inserted)) = Ok (db', a) → consistent db').
  { intros ([db2 id] & Hf & [= <- <-])%bind_Ok. by eapply insert_fields_consistent. }
  destruct (primary_posting db1 name key) as [p|]; [|by apply Hins]. destruct (posting_front p bytes) as [id|]; [|by apply Hins].
  clear Hins. apply bind_Ok in Hu as (t' & Ht' & Hu). assert (t' = t) as -> by congruence. clear Ht'.
  apply bind_Ok in Hu as (n & Hn & Hu). apply bind_Ok in Hu as (old & Hold%ok_or_Ok & Hu). apply bind_Ok in Hu as (db2 & Hr & [= <- <-]).
  destruct (row_position_Ok _ _ _ Hn) as (r & Hrn & Hid). assert (r = old) as -> by congruence.
  destruct (consistent_lookup _ _ _ Hc1 Ht1) as [Hix _ [Hn0 Hnx] _ Hrows].
  apply (replace_consistent db1 name t [updated old (mkRow id fields)] (<[n := mkRow id fields]> (tbl_rows t))); try done.
  - apply leads_update; [apply Hix|done|done].
  - intros r [->|Hin]%(replaced_row _ _ old); [done|by apply Hrows|done].
  - intros r [->|Hin]%(replaced_row _ _ old); [|by apply Hnx|done]. simpl. rewrite <-Hid. apply Hnx. by eapply list_elem_of_lookup_2.
Qed.

(** The batch of [upsert_many]: typed rows whose primary keys differ. *)
Lemma upsert_rows_consistent db name t key values fields db' : consistent db → table db name = Ok t →
  forallb wf_value values = true → upsert_rows clock entropy db name key values = Ok (fields, db') →
  Forall (typed_row (db_catalog db) (tbl_schema t)) fields ∧ core_same db db' ∧ consistent db' ∧
  NoDup ((λ f, index_key <$> row_field f key) <$> fields) ∧ Forall (λ f, is_Some (row_field f key)) fields.
Proof.
  intros Hc Ht Hv Hu. unfold upsert_rows in Hu. apply bind_Ok in Hu as ([[rows seen] db1] & Hf & [= <- <-]). revert Hf.
  set (I := λ (s : list Fields * gset Json * Database), let '(rows, seen, db1) := s in
    Forall (typed_row (db_catalog db) (tbl_schema t)) rows ∧ core_same db db1 ∧ consistent db1 ∧
    NoDup ((λ f, index_key <$> row_field f key) <$> rows) ∧ Forall (λ f, ∃ v, row_field f key = Some v ∧ index_key v ∈ seen) rows).
  assert (HI : I ([], ∅, db)) by (split_and!; try done; constructor).
  enough (Hgoal : ∀ values s s', forallb wf_value values = true → I s → foldR (collect_row clock entropy name key) s values = Ok s' → I s').
  { intros Hf. destruct (Hgoal _ _ _ Hv HI Hf) as (? & ? & ? & ? & Hx). split_and!; try done.
    eapply list.Forall_impl; [exact Hx|]. intros f (v & -> & _). by eexists. }
  clear -Ht Hentropy. intros values. induction values as [|v values IH]; intros s s' Hv HI Hf; cbn [foldR] in Hf; [by injection Hf as <-|].
  simpl in Hv. bool_inv. apply bind_Ok in Hf as (s1 & Hs1 & Hf). eapply IH; [done| |exact Hf].
  destruct s as [[rows seen] db1]. destruct HI as (Hall & Hs & Hc1 & Hnd & Hseen). unfold collect_row in Hs1.
  apply bind_Ok in Hs1 as ([row db2] & Hm & Hs1). apply bind_Ok in Hs1 as (k & Hk%ok_or_Ok & Hs1).
  case_bool_decide as Hin; [done|]. injection Hs1 as <-.
  destruct (materialize_consistent db1 name t v true row db2) as (Hty & Hs' & Hc2); try done; [by rewrite (core_same_table db)|].
  rewrite (cs_catalog _ _ Hs) in Hty. split_and!.
  - apply list.Forall_app. split; [done|]. by constructor.
  - by etrans.
  - done.
  - rewrite fmap_app. apply list.NoDup_app. split_and!; [done| |apply NoDup_singleton]. intros x Hx ->%list_elem_of_singleton.
    apply list_elem_of_fmap in Hx as (f & Heq & Hfin). rewrite list.Forall_forall in Hseen.
    destruct (Hseen f Hfin) as (w & Hw & Hws). rewrite Hk, Hw in Heq. simpl in Heq. injection Heq as Heq. apply Hin. by rewrite Heq.
  - apply list.Forall_app. split; [eapply list.Forall_impl; [exact Hseen|]; intros f (w & ? & ?); exists w; set_solver|].
    constructor; [|constructor]. exists k. set_solver.
Qed.

Section upserting.
Context (db : Database) (name key : string) (t : Table) (p : IndexPosting).
Hypotheses (Hc : consistent db) (Ht : table db name = Ok t) (Hk : tbl_primary_key t = Some key)
  (Hp : primary_posting db name key = Some p).

(** The row that the primary index has under a key. *)
Lemma front_row bytes id : posting_front p bytes = Some id →
  ∃ d r, r ∈ tbl_rows t ∧ row_id r = id ∧ row_key (db_catalog db) (tbl_schema t) d r = Ok (Some bytes) ∧
    bt_get key (definitions_of db name) = Some d.
Proof.
  intros Hf. destruct (consistent_lookup _ _ _ Hc Ht) as [Hi Hpk _ _ _]. destruct (Hpk key Hk) as (d & Hd & _).
  destruct (ti_posting _ _ _ _ Hi key d Hd) as (p' & Hp' & Hpo & _).
  assert (p' = p) as ->.
  { unfold primary_posting in Hp. unfold indexes_of in Hp'. destruct (bt_get name (db_indexes db)); simpl in *; congruence. }
  assert (Hin : id ∈ ids_at p bytes).
  { unfold posting_front in Hf. unfold ids_at. destruct (bt_get bytes p) as [[|x ids]|]; try done. injection Hf as ->. by left. }
  apply (posting_of_iff _ _ _ Hpo) in Hin as (r & Hr & Hid & Hrk). by exists d, r.
Qed.

Lemma front_inj b1 b2 id : posting_front p b1 = Some id → posting_front p b2 = Some id → b1 = b2.
Proof.
  intros (d1 & r1 & Hr1 & Hid1 & Hk1 & Hd1)%front_row (d2 & r2 & Hr2 & Hid2 & Hk2 & Hd2)%front_row.
  destruct (consistent_lookup _ _ _ Hc Ht) as [Hi _ _ _ _]. assert (d1 = d2) as -> by congruence.
  assert (r1 = r2) as -> by (apply (ascending_row_inj (tbl_rows t)); [apply Hi|congruence..]). congruence.
Qed.

(** The changes so far: new rows, and rows found under the keys of earlier fields. *)
Definition batch_change (fs : list Fields) (next : Z) (c : RowChange) : Prop :=
  tbl_next_row_id t ≤ change_id c < next ∨
  ∃ f v bytes, f ∈ fs ∧ row_field f key = Some v ∧ single_index_key db name key v = Ok bytes ∧ posting_front p bytes = Some (change_id c).

Record upserted (fs : list Fields) (s : UpsertState) : Prop := {
  us_leads : leads (tbl_rows t) (up_changes s) (up_rows s);
  us_next : tbl_next_row_id t ≤ up_next s;
  us_ids r : r ∈ up_rows s → 0 ≤ row_id r < up_next s;
  us_typed r : r ∈ up_rows s → typed_row (db_catalog db) (tbl_schema t) (row_fields r);
  us_changes c : c ∈ up_changes s → batch_change fs (up_next s) c
}.

Lemma upsert_step_upserted fs f s s' : upserted fs s → typed_row (db_catalog db) (tbl_schema t) f →
  Forall (typed_row (db_catalog db) (tbl_schema t)) fs →
  (∀ g, g ∈ fs → index_key <$> row_field g key ≠ index_key <$> row_field f key) →
  upsert_step db name key p s f = Ok s' → upserted (fs ++ [f]) s'.
Proof.
  intros [Hl Hn Hids Htyp Hch] Hf Hfs Hne Hs. destruct (consistent_lookup _ _ _ Hc Ht) as [Hi _ [Hn0 Hnx] Htt _].
  unfold upsert_step in Hs. apply bind_Ok in Hs as (v & Hv%ok_or_Ok & Hs). apply bind_Ok in Hs as (bytes & Hb & Hs).
  assert (Hch' : ∀ m c, up_next s ≤ m → c ∈ up_changes s → batch_change (fs ++ [f]) m c).
  { intros m c Hm Hin. destruct (Hch c Hin) as [?|(g & w & b & Hg & Hx)]; [left; lia|]. right. exists g, w, b. set_solver. }
  destruct (posting_front p bytes) as [id|] eqn:Ef.
  - apply bind_Ok in Hs as (n & Hpos & Hs). apply bind_Ok in Hs as (old & Hold%ok_or_Ok & [= <-]).
    destruct (row_position_Ok _ _ _ Hpos) as (r & Hrn & Hid). assert (r = old) as -> by congruence.
    assert (Hfresh : id ∉ change_id <$> up_changes s).
    { intros (c & -> & Hin)%list_elem_of_fmap. destruct (front_row _ _ Ef) as (d & r & Hr & Hrid & _).
      destruct (Hch c Hin) as [Hlt|(g & w & b & Hg & Hw & Hwb & Hfront)]; [specialize (Hnx r Hr); lia|].
      rewrite (front_inj _ _ _ Ef Hfront) in Hb. rewrite list.Forall_forall in Hfs.
      assert (w = v) as -> by exact (single_index_key_inj db name t key w v b Ht Htt Hk
        (row_field_wf _ _ _ (proj2 (Hfs g Hg)) Hw) (row_field_wf _ _ _ (proj2 Hf) Hv) Hwb Hb).
      apply (Hne g Hg). by rewrite Hv, Hw. }
    split; simpl.
    + apply (leads_snoc _ _ (up_rows s)); [done|by apply leads_update; [apply Hl|done|]|cbn; by rewrite Hid].
    + done.
    + intros r [->|Hin]%(replaced_row _ _ old); [|by apply Hids|done]. simpl. rewrite <-Hid. apply Hids. by eapply list_elem_of_lookup_2.
    + intros r [->|Hin]%(replaced_row _ _ old); [done|by apply Htyp|done].
    + intros c [Hin| ->%list_elem_of_singleton]%elem_of_app; [apply Hch'; [lia|done]|]. right. exists f, v, bytes.
      split_and!; try done; [set_solver|]. by rewrite Ef, <-Hid.
  - apply bind_Ok in Hs as (next & [_ ->]%ok_or_Ok%checked_Some & [= <-]). split; simpl.
    + apply (leads_snoc _ _ (up_rows s)); [done|apply leads_append; [apply Hl|intros r Hin; by apply Hids]|].
      intros (c & Heq & Hin)%list_elem_of_fmap. cbn in Heq. destruct (Hch c Hin) as [Hlt|(g & w & b & _ & _ & _ & Hfront)]; [lia|].
      destruct (front_row _ _ Hfront) as (d & r & Hr & Hrid & _). specialize (Hnx r Hr). lia.
    + lia.
    + intros r [Hin| ->%list_elem_of_singleton]%elem_of_app; [specialize (Hids r Hin); lia|simpl; lia].
    + intros r [Hin| ->%list_elem_of_singleton]%elem_of_app; [by apply Htyp|done].
    + intros c [Hin| ->%list_elem_of_singleton]%elem_of_app; [apply Hch'; [lia|done]|left; cbn; lia].
Qed.

Lemma upsert_steps_upserted fs s s' : Forall (typed_row (db_catalog db) (tbl_schema t)) fs →
  NoDup ((λ f, index_key <$> row_field f key) <$> fs) → upserted [] s →
  foldR (upsert_step db name key p) s fs = Ok s' → upserted fs s'.
Proof.
  revert s'. induction fs as [|f fs IH] using rev_ind; intros s' Hty Hnd Hs Hf; [by injection Hf as <-|].
  rewrite foldR_app in Hf. apply bind_Ok in Hf as (s1 & Hs1 & Hf). simpl in Hf. apply bind_Ok in Hf as (s2 & Hs2 & [= <-]).
  apply list.Forall_app in Hty as [Hfs [Hff _]%list.Forall_cons]. rewrite fmap_app in Hnd. apply list.NoDup_app in Hnd as (Hnd & Hx & _).
  apply (upsert_step_upserted fs f s1 s2); [by apply IH|done|done| |exact Hs2]. intros g Hg Heq.
  apply (Hx (index_key <$> row_field g key)).
  - apply list_elem_of_fmap. by exists g.
  - rewrite Heq. simpl. by left.
Qed.
End upserting.

Lemma upsert_many_consistent db name values db' actions : consistent db → wf_value values = true →
  upsert_many clock entropy db name values = Ok (db', actions) → consistent db'.
Proof.
  intros Hc Hv Hu. unfold upsert_many in Hu. apply bind_Ok in Hu as (t & Ht & Hu). apply bind_Ok in Hu as (key & Hk%ok_or_Ok & Hu).
  apply bind_Ok in Hu as (l & Hl & Hu). case_if_in Hu; [done|]. apply bind_Ok in Hu as ([fields db1] & Hm & Hu).
  apply bind_Ok in Hu as (t1 & Ht1 & Hu). apply bind_Ok in Hu as (p & Hp%ok_or_Ok & Hu). apply bind_Ok in Hu as (s & Hs & Hu).
  apply bind_Ok in Hu as (db2 & Hr & Hu). apply bind_Ok in Hu as (db3 & Hset & [= <- <-]).
  assert (Hwl : forallb wf_value l = true) by (destruct values; simpl in Hl; try done; by injection Hl as <-).
  destruct (upsert_rows_consistent _ _ _ _ _ _ _ Hc Ht Hwl Hm) as (Hall & Hsame & Hc1 & Hnd & _).
  assert (Ht1' : table db1 name = Ok t) by (by rewrite (core_same_table db)). assert (t1 = t) as -> by congruence.
  rewrite <-(cs_catalog _ _ Hsame) in Hall. destruct (consistent_lookup _ _ _ Hc1 Ht1') as [Hix _ [Hn0 Hnx] _ Hrows].
  assert (Hs0 : upserted db1 name key t p [] (mkUpsertState (tbl_rows t) (tbl_next_row_id t) [] [])).
  { split; simpl; [apply leads_nil, Hix|lia|done|done|by intros c ?%elem_of_nil]. }
  pose proof (upsert_steps_upserted db1 name key t p Hc1 Ht1' Hk Hp fields _ _ Hall Hnd Hs0 Hs) as [Hlead Hnext Hids Htyp _].
  apply (replace_next_consistent db1 name t (up_changes s) (up_rows s) (up_next s) db2 db3); try done. lia.
Qed.
End generating.

(** What a delete does to the rows of its table. *)
Lemma delete_rows_Ok db name targets db' : consistent db → NoDup targets → delete_rows db name targets = Ok db' →
  ∃ t olds rows', table db name = Ok t ∧ row_id <$> olds = targets ∧ leads (tbl_rows t) (deleted <$> olds) rows' ∧
    replace_rows_and_indexes db name rows' (deleted <$> olds) = Ok db'.
Proof.
  intros Hc Hnd Hd. unfold delete_rows in Hd. apply bind_Ok in Hd as (t & Ht & Hd). apply bind_Ok in Hd as (ps & Hps%mapR_Ok & Hd).
  apply bind_Ok in Hd as (cs & Hcs%mapR_Ok & Hr). destruct (consistent_lookup _ _ _ Hc Ht) as [Hix _ _ _ _].
  assert (Hps' : NoDup ps).
  { clear -Hps Hnd. induction Hps as [|id n targets ps Hpos Hps IH]; [constructor|]. apply list.NoDup_cons in Hnd as [Hin Hnd].
    constructor; [|auto]. intros [i Hi]%list_elem_of_lookup. destruct (Forall2_lookup_r _ _ _ _ _ Hps Hi) as (id' & Hid' & Hpos').
    destruct (row_position_Ok _ _ _ Hpos) as (r & Hr & Hrid), (row_position_Ok _ _ _ Hpos') as (r' & Hr' & Hrid').
    apply Hin. assert (r = r') as -> by congruence. rewrite <-Hrid, Hrid'. by eapply list_elem_of_lookup_2. }
  assert (Holds : ∃ olds, cs = deleted <$> olds ∧ Forall2 (λ n old, tbl_rows t !! n = Some old) ps olds).
  { clear -Hcs. induction Hcs as [|n c ps cs Hn Hcs IH]; [exists []; by split|]. destruct IH as (olds & -> & Ho).
    apply bind_Ok in Hn as (old & Hold%ok_or_Ok & [= <-]). exists (old :: olds). split; [done|]. by constructor. }
  destruct Holds as (olds & -> & Ho). exists t, olds, (remove_positions (tbl_rows t) ps). split_and!; [done| |by apply leads_deletes, Ho; [apply Hix|]|done].
  clear -Hps Ho. revert olds Ho. induction Hps as [|id n targets ps Hpos _ IH]; intros olds Ho; inversion Ho as [|? old ? olds' Hold Ho']; subst; [done|].
  rewrite fmap_cons, (IH _ Ho'). f_equal. destruct (row_position_Ok _ _ _ Hpos) as (r & Hr & Hrid). congruence.
Qed.

Lemma delete_rows_consistent db name targets db' : consistent db → NoDup targets →
  delete_rows db name targets = Ok db' → consistent db'.
Proof.
  intros Hc Hnd Hd. destruct (delete_rows_Ok _ _ _ _ Hc Hnd Hd) as (t & olds & rows' & Ht & _ & Hl & Hr). destruct (consistent_lookup _ _ _ Hc Ht) as [_ _ [_ Hnx] _ Hrows].
  assert (Hsub : ∀ r, r ∈ rows' → r ∈ tbl_rows t) by (intros r [(c & (o & -> & _)%list_elem_of_fmap & [=])|[Hin _]]%(leads_iff _ _ _ Hl); done).
  apply (replace_consistent db name t (deleted <$> olds) rows'); auto.
Qed.
End consistency.
