(* ===== verification/Updates.v ===== *)
(** * Updates

    What the update statement does: assigning to a path of a typed row keeps the row typed,
    changes the path and nothing beside it, and the rows of an updated table keep the
    database consistent. *)
From Stdlib Require Import Ascii Sorting.Sorted.
From S2P Require Import Prelude Bytes Text Decimal Temporal Float64 Scalars BTree Model Coerce OrderedKey Codec Matching Coverage Catalog Schema Expression Typing EvalOps Soundness IndexPredicate Query MatchResult MatchSafety Database Postings Rows Tables Predicates References Mutations.

#[local] Strategy 1000 [MAX_DEPTH underlying field_type coerce].

(** ** Paths *)

(** The components of one path start those of the other exactly when they overlap. *)
Lemma split_dots_prefix p q : split_dots p `prefix_of` split_dots q → paths_overlap p q = true.
Proof.
  intros [rest Hq]. revert q Hq. unfold paths_overlap. enough (Hd : ∀ q, split_dots q = split_dots p ++ rest → q = p ∨ dotted_prefix q p = true).
  { intros q [->| ->]%Hd; [by rewrite String.eqb_refl|by rewrite orb_true_r]. }
  remember (split_dots p) as l eqn:Hp. revert p Hp. induction l as [|a l IH]; intros p Hp q Hq; [by destruct (split_dots_nonempty p)|].
  destruct (split_dots_cases p a l (eq_sym Hp)) as [[-> ->]|(p' & -> & -> & _)].
  - destruct (split_dots_cases q a rest Hq) as [[_ ->]|(q' & _ & -> & _)]; [by left|right]. unfold dotted_prefix. by rewrite strip_prefix_app.
  - destruct (split_dots_cases q a _ Hq) as [[E _]|(q' & E & -> & _)]; [by destruct (app_eq_nil _ _ E) as [?%split_dots_nonempty _]|].
    destruct (IH p' eq_refl q' (eq_sym E)) as [->|Hd]; [by left|right]. unfold dotted_prefix in *.
    destruct (strip_prefix p' q') as [s|] eqn:Es; [|done]. apply strip_prefix_Some in Es as ->.
    replace (a +:+ String "."%char (p' +:+ s)) with ((a +:+ String "."%char p') +:+ s); [by rewrite strip_prefix_app|]. clear. induction a as [|c a IH]; [done|]. by rewrite !append_cons, IH.
Qed.

Lemma paths_overlap_sym p q : paths_overlap p q = paths_overlap q p.
Proof. unfold paths_overlap. rewrite String.eqb_sym. destruct (String.eqb q p), (dotted_prefix p q), (dotted_prefix q p); done. Qed.

Definition apart (p q : list string) : Prop := ¬ p `prefix_of` q ∧ ¬ q `prefix_of` p.

Lemma paths_apart p q : paths_overlap p q = false → apart (split_dots p) (split_dots q).
Proof.
  intros Ho. split; intros Hp%split_dots_prefix; [by rewrite Hp in Ho|]. rewrite paths_overlap_sym in Hp. by rewrite Hp in Ho.
Qed.

(** ** Assigning inside a value *)

Lemma set_nested_through p path new v v' : set_nested_field (p :: path) new v = Ok v' →
  ∃ fields w w', unwrapped v = VRecord fields ∧ bt_get p fields = Some w ∧ set_nested_field path new w = Ok w' ∧ unwrapped v' = VRecord (bt_insert p w' fields).
Proof.
  revert v'. induction v as [| | | | | | | | | | | |fields| | | | |id v IH]; intros v' Hs; cbn in Hs; try done.
  - apply bind_Ok in Hs as (w & Hw%ok_or_Ok & Hs). apply bind_Ok in Hs as (w' & Hw' & [= <-]). by exists fields, w, w'.
  - apply fmap_Ok in Hs as (v1 & Hs & ->). exact (IH v1 Hs).
Qed.

Lemma set_nested_same path new v v' : set_nested_field path new v = Ok v' → foldl field_step (Some v') path = Some new.
Proof.
  revert v v'. induction path as [|p path IH]; intros v v' Hs; [by injection Hs as <-|].
  apply set_nested_through in Hs as (fields & w & w' & _ & _ & Hs & Hv'). cbn [foldl]. unfold field_step at 2. cbn. rewrite Hv', bt_get_insert_eq. by eapply IH.
Qed.

Lemma set_nested_apart path new v v' q : set_nested_field path new v = Ok v' → apart path q → foldl field_step (Some v') q = foldl field_step (Some v) q.
Proof.
  revert v v' q. induction path as [|p path IH]; intros v v' q Hs [H1' H2']; [by destruct (H1' (prefix_nil q))|].
  destruct q as [|x q]; [by destruct (H2' (prefix_nil _))|]. apply set_nested_through in Hs as (fields & w & w' & Hv & Hw & Hs & Hv').
  cbn [foldl]. unfold field_step at 2 4. cbn. rewrite Hv, Hv'. destruct (decide (p = x)) as [->|Hne].
  - rewrite bt_get_insert_eq, Hw. eapply IH; [done|]. split; intros Hp; [by apply H1', prefix_cons|by apply H2', prefix_cons].
  - by rewrite bt_get_insert_ne.
Qed.

(** A row at a path, by its components. *)
Definition value_at (row : Fields) (path : string) : option Value :=
  match split_dots path with [] => None | head :: tail => v ← bt_get head row; foldl field_step (Some v) tail end.

Lemma split_dot_dots path head tail : split_dot path = Some (head, tail) → split_dots path = head :: split_dots tail.
Proof.
  revert head. induction path as [|c path IH]; intros head Hs; [done|]. cbn [split_dot split_dots] in *. destruct (Ascii.eqb c "."%char); [by injection Hs as <- <-|].
  destruct (split_dot path) as [[h r]|]; [|done]. injection Hs as <- <-. by rewrite (IH h eq_refl).
Qed.

Lemma row_field_at row path : (∀ k, is_Some (bt_get k row) → no_dot k = true) → row_field row path = value_at row path.
Proof.
  intros Hn. unfold row_field, value_at. destruct (split_dots path) as [|head tail] eqn:E; [by destruct (split_dots_nonempty path)|].
  destruct (split_dots_cases path head tail E) as [[-> ->]|(rest & -> & -> & Hs)].
  - destruct (bt_get head row) as [v|] eqn:Eh; [done|]. cbn. destruct (split_dot head) as [[h r]|] eqn:Es; [|done].
    apply split_dot_dots in Es. rewrite E in Es. injection Es as _ Es. by destruct (split_dots_nonempty r).
  - destruct (bt_get _ row) as [v|] eqn:Eh.
    { pose proof (split_dots_no_dot _ (Hn _ (mk_is_Some _ _ Eh))) as Hd. rewrite E in Hd. injection Hd as _ Hd. by destruct (split_dots_nonempty rest). }
    rewrite Hs. cbn. by destruct (bt_get head row).
Qed.

(** ** Assigning to a row *)

Lemma set_row_same row path new row' : set_row_field row path new = Ok row' → value_at row' path = Some new.
Proof.
  unfold set_row_field, value_at. destruct (split_dots path) as [|head tail]; [done|]. intros (v & Hv%ok_or_Ok & Hs)%bind_Ok.
  apply bind_Ok in Hs as (v' & Hs & [= <-]). rewrite bt_get_insert_eq. cbn. by eapply set_nested_same.
Qed.

Lemma set_row_apart row path new row' q : set_row_field row path new = Ok row' → paths_overlap path q = false → value_at row' q = value_at row q.
Proof.
  intros Hs Ho%paths_apart. unfold set_row_field, value_at in *. destruct (split_dots path) as [|head tail]; [done|]. apply bind_Ok in Hs as (v & Hv%ok_or_Ok & Hs).
  apply bind_Ok in Hs as (v' & Hs & [= <-]). destruct (split_dots q) as [|x q'] eqn:Eq; [done|]. destruct (decide (head = x)) as [->|Hne].
  - rewrite bt_get_insert_eq, Hv. cbn. eapply set_nested_apart; [done|]. destruct Ho as [H1' H2']. split; intros Hp; [by apply H1', prefix_cons|by apply H2', prefix_cons].
  - by rewrite bt_get_insert_ne.
Qed.

Lemma typed_row_insert cat schema row c v : wf_type (TRecord schema) = true → typed_row cat schema row → c ∈ schema → has_type cat (col_ty c) v →
  typed_row cat schema (bt_insert (col_name c) v row).
Proof.
  intros Hw Hr Hc Hv. apply typed_row_iff in Hr as [[Hs Hp] Hcov]; [|done]. apply typed_row_iff; [done|]. split; [split; [by apply bt_insert_sorted|]|].
  - intros k w. destruct (decide (k = col_name c)) as [->|Hne]; [rewrite bt_get_insert_eq|rewrite bt_get_insert_ne by done; apply Hp]. intros [= <-]. by exists c.
  - intros c' Hc'. destruct (decide (col_name c' = col_name c)) as [->|Hne]; [by rewrite bt_get_insert_eq|]. rewrite bt_get_insert_ne by done. by apply Hcov.
Qed.

Section typed.
Context (names : Z → string) (cat : Catalog) (Hcat : good_catalog names cat).

(** An assigned value keeps the names around its record. *)
Lemma set_nested_wrapped n ty columns v p path new v' : wf_type ty = true → underlying_loop n cat ty = Ok (TRecord columns) → has_type cat ty v →
  set_nested_field (p :: path) new v = Ok v' → has_type cat (TRecord columns) (unwrapped v') → has_type cat ty v'.
Proof.
  revert ty v v'. induction n as [|n IH]; intros ty v v' Hw Hu Hv Hs Hr; [done|]. cbn [underlying_loop] in Hu. destruct ty; try done.
  - injection Hu as ->. apply has_type_shape in Hv as (m & -> & _). cbn [set_nested_field] in Hs. apply bind_Ok in Hs as (w & _ & Hs). by apply bind_Ok in Hs as (w' & _ & [= <-]).
  - apply bind_Ok in Hu as (d & Hd & Hu). destruct Hv as [[[|f] Hc] Hwf]; [done|]. cbn [conforms] in Hc. destruct v as [| | | | | | | | | | | | | | | | |tid v]; try done.
    rewrite Hd in Hc. cbn in Hwf. bool_inv. subst tid. cbn [set_nested_field] in Hs. apply fmap_Ok in Hs as (v1 & Hs & ->). cbn [unwrapped] in Hr.
    destruct (IH (def_ty d) v v1) as [[g Hg] Hw1]; [by apply (definition_wf _ _ _ (proj1 Hcat) Hd)|done|by split; [exists f|]|done|done|].
    split; [|cbn; by apply andb_true_iff]. exists (S g). cbn [conforms]. by rewrite Hd, Hg, Z.eqb_refl.
Qed.

(** Assigning a value of the type of the path keeps the type. *)
Lemma set_nested_typed path ty t v new v' : good_type names ty → has_type cat ty v → field_type_loop cat ty path = Ok t → has_type cat t new →
  set_nested_field path new v = Ok v' → has_type cat ty v'.
Proof.
  revert ty v v'. induction path as [|p path IH]; intros ty v v' Hg Hv Hf Hn Hs; cbn [field_type_loop] in Hf; [by injection Hf as ->; injection Hs as <-|].
  apply bind_Ok in Hf as (u & Hu & Hf). destruct u; try done. apply bind_Ok in Hf as (c & Hc%ok_or_Ok & Hf). apply find_column_Some in Hc as [Hc <-].
  pose proof (underlying_has_type _ _ _ _ Hu Hv) as Hs'. unfold underlying in Hu. pose proof (good_underlying names cat _ _ _ Hcat Hg Hu) as Hgu.
  destruct (set_nested_through _ _ _ _ _ Hs) as (fields & w & w' & Hfields & Hw & Hsw & Hv'). rewrite Hfields in Hs'.
  eapply set_nested_wrapped; [apply Hg|exact Hu|done|exact Hs|]. rewrite Hv'. apply typed_row_insert; [apply Hgu|done|done|].
  apply has_type_shape in Hs' as (m & [= <-] & Hm). destruct (Hm c Hc) as (w1 & Hw1 & Htw). assert (w1 = w) as -> by congruence.
  eapply IH; [by eapply good_column|exact Htw|done..].
Qed.

Lemma set_row_typed schema row path ty new row' : good_type names (TRecord schema) → Forall (λ c, no_dot (col_name c) = true) schema → typed_row cat schema row → field_type cat schema path = Ok ty → has_type cat ty new →
  set_row_field row path new = Ok row' → typed_row cat schema row'.
Proof.
  intros Hg Hd Hr Hf Hn Hs. unfold set_row_field in Hs. destruct (split_dots path) as [|head tail] eqn:E; [done|]. apply bind_Ok in Hs as (v & Hv%ok_or_Ok & Hs).
  apply bind_Ok in Hs as (v' & Hs & [= <-]).
  assert (Hc : ∃ c, find_column schema head = Some c ∧ field_type_loop cat (col_ty c) tail = Ok ty).
  { unfold field_type in Hf. destruct (find_column schema path) as [c|] eqn:Ec.
    - injection Hf as <-. destruct (find_column_Some _ _ _ Ec) as [Hc Hn']. rewrite list.Forall_forall in Hd. specialize (Hd c Hc).
      rewrite Hn' in Hd. rewrite (split_dots_no_dot _ Hd) in E. injection E as <- <-. by exists c.
    - rewrite E in Hf. apply bind_Ok in Hf as (c & Hc%ok_or_Ok & Hf). eauto. }
  destruct Hc as (c & Hc & Hl). apply find_column_Some in Hc as [Hc <-]. apply typed_row_insert; [apply Hg|done|done|].
  pose proof (has_type_shape _ _ _ Hr) as (m & [= <-] & Hm). destruct (Hm c Hc) as (w & Hw & Htw). assert (w = v) as -> by congruence.
  eapply set_nested_typed; [by eapply good_column|exact Htw|done..].
Qed.
End typed.


(** A typed record is coerced to itself. *)
Lemma coerce_row_id cat n fuel ty schema fields r : wf_catalog cat = true → wf_type ty = true → underlying_loop n cat ty = Ok (TRecord schema) →
  typed_row cat schema fields → coerce_inner fuel cat (VRecord fields) ty = Ok r → unwrapped r = VRecord fields.
Proof.
  intros Hcat. revert fuel ty r. induction n as [|n IH]; intros fuel ty r Hw Hu Ht Hr; [done|]. cbn [underlying_loop] in Hu. destruct ty; try done.
  - injection Hu as ->. destruct Ht as [[f Hf] Hwf]. destruct (coerce_inner_fuel fuel (Nat.max fuel f) cat (VRecord fields) (TRecord schema) ltac:(lia)) as [E|E]; [by rewrite E in Hr|].
    rewrite <-E, (coerce_inner_stable (Nat.max fuel f)) in Hr; [by injection Hr as <-|done..|]. eapply conforms_le; [|exact Hf]. lia.
  - apply bind_Ok in Hu as (d & Hd & Hu). destruct fuel as [|fuel]; [done|]. cbn [coerce_inner] in Hr. rewrite Hd in Hr. cbn [mbind result_bind coerce_raw] in Hr.
    apply fmap_Ok in Hr as (r' & Hr & ->). cbn [unwrapped]. eapply IH; [|exact Hu|done|exact Hr]. by apply (definition_wf _ _ _ Hcat Hd).
Qed.

Lemma coerce_typed_row cat t fields r : wf_catalog cat = true → table_typed cat t → typed_row cat (tbl_schema t) fields →
  coerce cat (VRecord fields) (row_type_of t) = Ok r → unwrapped r = VRecord fields.
Proof. intros Hc [_ Hw [n Hu] _] Ht. unfold coerce. generalize MAX_DEPTH. intros fuel. by eapply coerce_row_id. Qed.

(** ** Values of the Rust types *)

Lemma wf_record_get (m : Fields) k v : wf_value (VRecord m) = true → bt_get k m = Some v → wf_string k = true ∧ wf_value v = true.
Proof.
  cbn. intros Hm Hk%bt_get_elem. apply andb_true_iff in Hm as [_ Hm]. rewrite forallb_Forall, list.Forall_forall in Hm.
  specialize (Hm _ Hk). cbn in Hm. by apply andb_true_iff in Hm.
Qed.

Lemma set_nested_wf path new v v' : wf_value v = true → wf_value new = true → set_nested_field path new v = Ok v' → wf_value v' = true.
Proof.
  intros Hv Hn. revert v v' Hv. induction path as [|p path IH]; intros v v' Hv Hs; [by injection Hs as <-|].
  revert v' Hv Hs. induction v as [| | | | | | | | | | | |fields| | | | |id v IHv]; intros v' Hv Hs; try done.
  - cbn [set_nested_field] in Hs. apply bind_Ok in Hs as (w & Hw%ok_or_Ok & Hs). apply bind_Ok in Hs as (w' & Hs & [= <-]).
    destruct (wf_record_get _ _ _ Hv Hw) as [Hp Hww]. apply wf_record_insert; [done..|]. by eapply IH.
  - cbn [set_nested_field] in Hs. apply fmap_Ok in Hs as (v1 & Hs & ->). cbn in Hv |- *. apply andb_true_iff in Hv as [Hi Hv]. rewrite Hi. exact (IHv _ Hv Hs).
Qed.

Lemma set_row_wf row path new row' : wf_value (VRecord row) = true → wf_value new = true → set_row_field row path new = Ok row' → wf_value (VRecord row') = true.
Proof.
  intros Hr Hn Hs. unfold set_row_field in Hs. destruct (split_dots path) as [|head tail]; [done|]. apply bind_Ok in Hs as (v & Hv%ok_or_Ok & Hs).
  apply bind_Ok in Hs as (v' & Hs & [= <-]). destruct (wf_record_get _ _ _ Hr Hv) as [Hh Hw]. exact (wf_record_insert _ _ _ Hr Hh (set_nested_wf _ _ _ _ Hw Hn Hs)).
Qed.

Lemma set_fields_wf row values row' : wf_value (VRecord row) = true → Forall (λ e, wf_value e.2 = true) values → set_fields row values = Ok row' → wf_value (VRecord row') = true.
Proof.
  intros Hr Hv. revert row Hr. induction Hv as [|e values He Hv IH]; intros row Hr Hs; cbn in Hs; [by injection Hs as <-|].
  apply bind_Ok in Hs as (row1 & H1' & Hs). eapply IH; [|exact Hs]. exact (set_row_wf _ _ _ _ Hr He H1').
Qed.

(** ** Evaluating and binding assignments *)

Section update.
Context `{TextLib} `{PredicateText} `{Base64}.

Lemma ebind_Ok {A B} (m : eval A) (k : A → eval B) b r : ebind m k b = Ok r → ∃ a b', m b = Ok (a, b') ∧ k a b' = Ok r.
Proof. unfold ebind. intros ([a b'] & Hm & Hk)%bind_Ok. eauto. Qed.

Lemma elift_Ok {A B} (m : result A) (k : A → eval B) b r : elift m k b = Ok r → ∃ a, m = Ok a ∧ k a b = Ok r.
Proof. unfold elift. by intros (a & Hm & Hk)%bind_Ok; eauto. Qed.

(** The value of one assignment on a row: evaluated, and coerced to the type of its path. *)
Definition assigned (cat : Catalog) (schema : Columns) (original : Fields) (a : SetAssignment) (v : Value) : Prop :=
  ∃ expected b raw b', field_type cat schema (sa_path a) = Ok expected ∧ evaluate_set cat original (sa_value a) b = Ok (raw, b') ∧ coerce cat raw expected = Ok v.

Lemma evaluate_sets_Ok cat schema original l b values b' : evaluate_sets cat schema original l b = Ok (values, b') →
  Forall2 (λ a e, e.1 = sa_path a ∧ assigned cat schema original a e.2) l values.
Proof.
  revert b values b'. induction l as [|a l IH]; intros b values b' He; cbn [evaluate_sets] in He; [injection He as <- _; constructor|].
  apply elift_Ok in He as (expected & Hf & He). apply ebind_Ok in He as (raw & b1 & Hr & He). apply elift_Ok in He as (v & Hv & He).
  apply ebind_Ok in He as (rest & b2 & Hrest & [= <- _]). constructor; [|by eapply IH]. split; [done|]. by exists expected, b, raw, b1.
Qed.

(** What binding an update guarantees: the paths have types and do not overlap. *)
Lemma bind_sets_Ok cat schema paths l l' : bind_sets cat schema paths l = Ok l' →
  Forall2 (λ a a', sa_path a' = sa_path a ∧ ∃ expected, field_type cat schema (sa_path a) = Ok expected ∧ bind_set_value cat schema expected (sa_value a) = Ok (sa_value a')) l l' ∧
  Forall (λ a, ∀ p, p ∈ paths → paths_overlap p (sa_path a) = false) l' ∧ StronglySorted (λ a a', paths_overlap (sa_path a) (sa_path a') = false) l'.
Proof.
  revert paths l'. induction l as [|a l IH]; intros paths l' Hb; cbn [bind_sets] in Hb; [injection Hb as <-; split_and!; constructor|].
  case_if_in Hb; [done|]. apply bind_Ok in Hb as (expected & Hf & Hb). apply bind_Ok in Hb as (v & Hv & Hb). apply bind_Ok in Hb as (rest & Hr & [= <-]).
  destruct (IH _ _ Hr) as (Hall & Hp & Hs). split_and!.
  - constructor; [|done]. split; [done|]. by exists expected.
  - constructor.
    + intros p Hin. cbn. apply not_true_is_false. intros Ho. assert (Hx : existsb (λ earlier, paths_overlap earlier (sa_path a)) paths = true); [|congruence].
      apply existsb_exists. exists p. by rewrite <-list_elem_of_In.
    + eapply list.Forall_impl; [exact Hp|]. intros a' Ha' p Hin. apply Ha', elem_of_app. by left.
  - constructor; [done|]. eapply list.Forall_impl; [exact Hp|]. intros a' Ha'. cbn. apply Ha', elem_of_app. right. by apply list_elem_of_singleton.
Qed.

Lemma set_fields_apart row values row' q : set_fields row values = Ok row' → Forall (λ e, paths_overlap e.1 q = false) values → value_at row' q = value_at row q.
Proof.
  intros Hs Hv. revert row Hs. induction Hv as [|e values He _ IH]; intros row Hs; cbn in Hs; [by injection Hs as <-|].
  apply bind_Ok in Hs as (row1 & H1' & Hs). rewrite (IH _ Hs). by eapply set_row_apart.
Qed.

(** Simultaneous assignment: every path has its value afterwards. *)
Lemma set_fields_same row values row' e : set_fields row values = Ok row' → StronglySorted (λ e e', paths_overlap e.1 e'.1 = false) values →
  e ∈ values → value_at row' e.1 = Some e.2.
Proof.
  intros Hs Hv. revert row Hs. induction Hv as [|x values Hv IH Hx]; intros row Hs He; cbn in Hs; [by apply elem_of_nil in He|].
  apply bind_Ok in Hs as (row1 & H1' & Hs). apply elem_of_cons in He as [->|He]; [|by eapply IH].
  rewrite (set_fields_apart _ _ _ _ Hs); [by eapply set_row_same|]. eapply list.Forall_impl; [exact Hx|]. cbn. intros e' Hp. by rewrite paths_overlap_sym.
Qed.

(** *** Rows *)

Lemma update_row_Ok cat schema row_type l before b after b' : update_row cat schema row_type l before b = Ok (after, b') →
  ∃ values fields checked, Forall2 (λ a e, e.1 = sa_path a ∧ assigned cat schema (row_fields before) a e.2) l values ∧
    set_fields (row_fields before) values = Ok fields ∧ coerce cat (VRecord fields) row_type = Ok checked ∧
    unwrapped checked = VRecord (row_fields after) ∧ row_id after = row_id before.
Proof.
  unfold update_row. intros Hu. apply ebind_Ok in Hu as (values & b1 & Hv & Hu). apply elift_Ok in Hu as (fields & Hs & Hu). apply elift_Ok in Hu as (checked & Hc & Hu).
  apply evaluate_sets_Ok in Hv. destruct (unwrapped checked) eqn:E; try done. injection Hu as <- _. by exists values, fields, checked.
Qed.

(** Evaluating a bound assignment gives a value of the Rust types. *)
Definition values_wf (cat : Catalog) (schema : Columns) (a : SetAssignment) : Prop :=
  ∀ row b raw b', typed_row cat schema row → evaluate_set cat row (sa_value a) b = Ok (raw, b') → wf_value raw = true.
Definition wf_assignment (a : SetAssignment) : Prop :=
  ∀ names cat schema expected v, good_catalog names cat → good_type names (TRecord schema) → field_type cat schema (sa_path a) = Ok expected →
    bind_set_value cat schema expected (sa_value a) = Ok v → values_wf cat schema (mkSetAssignment (sa_path a) v).

Lemma bound_values_wf names cat schema l l' : good_catalog names cat → good_type names (TRecord schema) → Forall wf_assignment l →
  bind_sets cat schema [] l = Ok l' → Forall (values_wf cat schema) l'.
Proof.
  intros Hcat Hg Hl (Hall & _ & _)%bind_sets_Ok. induction Hall as [|a [path v] l l' (Hp & expected & Hf & Hv) _ IH]; [constructor|]. cbn in Hp, Hv. subst path.
  apply list.Forall_cons in Hl as [Ha Hl]. constructor; [|by apply IH]. by eapply Ha.
Qed.

Section table.
Context (names : Z → string) (cat : Catalog) (t : Table) (l : list SetAssignment).
Context (Hcat : good_catalog names cat) (Hg : good_type names (TRecord (tbl_schema t))) (Htt : table_typed cat t) (Hl : Forall (values_wf cat (tbl_schema t)) l).

Lemma path_type_good path ty : field_type cat (tbl_schema t) path = Ok ty → good_type names ty.
Proof using Hcat Hg.
  unfold field_type. destruct (find_column _ path) as [c|] eqn:Ec; [intros [= <-]; apply find_column_Some in Ec as [Hc _]; by eapply good_column|].
  destruct (split_dots path) as [|first parts]; [done|]. intros (c & Hc%ok_or_Ok & Hf)%bind_Ok. apply find_column_Some in Hc as [Hc _].
  eapply field_type_loop_good; [exact Hcat| |exact Hf]. by eapply good_column.
Qed.

Lemma assigned_typed row a v : typed_row cat (tbl_schema t) row → values_wf cat (tbl_schema t) a → assigned cat (tbl_schema t) row a v →
  ∃ expected, field_type cat (tbl_schema t) (sa_path a) = Ok expected ∧ has_type cat expected v.
Proof using Hcat Hg.
  intros Hr Ha (expected & b & raw & b' & Hf & He & Hc). exists expected. split; [done|].
  eapply coerce_result; [exact Hcat|by eapply path_type_good| |exact Hc]. by eapply Ha.
Qed.

Lemma values_typed row values : typed_row cat (tbl_schema t) row → Forall2 (λ a e, e.1 = sa_path a ∧ assigned cat (tbl_schema t) row a e.2) l values →
  Forall (λ e, ∃ ty, field_type cat (tbl_schema t) e.1 = Ok ty ∧ has_type cat ty e.2) values.
Proof using Hcat Hg Hl.
  intros Hr Hall. clear Htt. induction Hall as [|a e l values [Hp Ha] _ IH]; [constructor|]. apply list.Forall_cons in Hl as [Hla Hl']. constructor; [|by apply IH].
  rewrite Hp. by eapply assigned_typed.
Qed.

(** An updated row is typed. *)
Lemma update_row_typed row_type before b after b' : row_type = row_type_of t → typed_row cat (tbl_schema t) (row_fields before) →
  update_row cat (tbl_schema t) row_type l before b = Ok (after, b') → row_id after = row_id before ∧ typed_row cat (tbl_schema t) (row_fields after).
Proof using All.
  intros -> Hr Hu. apply update_row_Ok in Hu as (values & fields & checked & Hv & Hs & Hc & Hw & Hid). split; [done|]. apply values_typed in Hv; [|done].
  assert (Hwf : wf_value (VRecord fields) = true).
  { eapply set_fields_wf; [apply Hr| |exact Hs]. eapply list.Forall_impl; [exact Hv|]. by intros e (ty & _ & [_ ?]). }
  destruct (coerce_record_typed _ _ _ _ (proj1 Hcat) Htt Hwf Hc) as (fields' & Hf & Hty). congruence.
Qed.

(** *** Targets *)

Record updating (targets : list Z) (rows : list Row) (changes : list RowChange) : Prop := {
  up_leads : leads (tbl_rows t) changes rows;
  up_ids : row_id <$> rows = row_id <$> tbl_rows t;
  up_typed r : r ∈ rows → typed_row cat (tbl_schema t) (row_fields r);
  up_change_ids : change_id <$> changes = targets;
  up_updated c : c ∈ changes → ∃ old new b b', c = updated old new ∧ old ∈ tbl_rows t ∧ update_row cat (tbl_schema t) (row_type_of t) l old b = Ok (new, b')
}.

Lemma update_targets_updating done_ targets rows changes b rows' changes' b' : NoDup (done_ ++ targets) → updating done_ rows changes →
  update_targets cat (tbl_schema t) (row_type_of t) l targets rows changes b = Ok (rows', changes', b') → updating (done_ ++ targets) rows' changes'.
Proof using All.
  revert done_ rows changes b. induction targets as [|id targets IH]; intros done_ rows changes b Hnd [Hld Hids Hty Hch Hup] Hu; cbn [update_targets] in Hu.
  { injection Hu as <- <- _. rewrite app_nil_r. by split. }
  apply elift_Ok in Hu as (n & Hn & Hu). apply elift_Ok in Hu as (before & Hbf%ok_or_Ok & Hu). apply ebind_Ok in Hu as (after & b1 & Hr & Hu).
  destruct (row_position_Ok _ _ _ Hn) as (r & Hrn & Hid). assert (r = before) as -> by congruence.
  assert (Hin : before ∈ rows) by (by eapply list_elem_of_lookup_2). destruct (update_row_typed _ before b after b1 eq_refl (Hty _ Hin) Hr) as [Hida Htya].
  assert (Hfresh : id ∉ change_id <$> changes).
  { rewrite Hch. intros Hd. rewrite list.NoDup_app in Hnd. destruct Hnd as (_ & Hx & _). apply (Hx id Hd). by left. }
  assert (Hold : before ∈ tbl_rows t).
  { destruct (proj1 (leads_iff _ _ _ Hld before) Hin) as [(c & Hc & Ha)|[? _]]; [|done]. destruct Hfresh. rewrite <-Hid.
    rewrite (leads_id_after _ _ _ _ _ Hld Hc Ha). by apply list_elem_of_fmap_2. }
  replace (done_ ++ id :: targets) with ((done_ ++ [id]) ++ targets) in * by (by rewrite <-app_assoc). eapply IH; [done| |exact Hu]. split.
  - apply (leads_snoc _ _ rows); [done|by apply leads_update; [apply Hld|done|]|cbn; by rewrite Hid].
  - rewrite list_fmap_insert, Hida, list_insert_id; [done|]. by rewrite list_lookup_fmap, Hbf.
  - intros r [->|Hir]%(replaced_row _ _ before); [done|by apply Hty|done].
  - rewrite fmap_app, Hch. cbn. by rewrite Hid.
  - intros c [Hc| ->%list_elem_of_singleton]%elem_of_app; [by apply Hup|]. by exists before, after, b, b1.
Qed.
End table.

(** A literal of the Rust types. *)
Lemma literal_assignment_wf path v : wf_value v = true → wf_assignment (mkSetAssignment path (SetExpression (BValue (SLiteral v)))).
Proof.
  intros Hv names cat schema expected v' Hcat Hg Hf Hb row b raw b' _ He. cbn [sa_value sa_path bind_set_value bind_value_expression bind_scalar] in *.
  apply fmap_Ok in Hb as (e & Hb & ->). apply bind_Ok in Hb as ([e' ty] & Hb & [= <-]). apply bind_Ok in Hb as (w & Hw & Hb).
  apply (check_expected_Ok cat) in Hb as (-> & _ & _). cbn in He. injection He as <- _.
  assert (Ht : good_type names expected) by (by eapply (path_type_good names cat (mkTable 0 "" schema [] 0 None None []))).
  by apply (coerce_result names cat Hcat expected v w Ht Hv Hw).
Qed.

(** *** The statement *)

Lemma update_Ok db name targets l db' : consistent db → NoDup targets → Forall wf_assignment l → update db name targets l = Ok db' →
  ∃ names t l' rows changes, good_catalog names (db_catalog db) ∧ good_type names (TRecord (tbl_schema t)) ∧ table db name = Ok t ∧
    bind_sets (db_catalog db) (tbl_schema t) [] l = Ok l' ∧ Forall (values_wf (db_catalog db) (tbl_schema t)) l' ∧
    updating (db_catalog db) t l' targets rows changes ∧ replace_rows_and_indexes db name rows changes = Ok db'.
Proof.
  intros Hc Hnd Hl Hu. unfold update, bind_update_operation in Hu. apply bind_Ok in Hu as ([[schema row_type] l'] & Hb & Hu).
  apply bind_Ok in Hb as (t & Ht & Hb). apply bind_Ok in Hb as (l1 & Hb & [= <- <- <-]). rewrite Ht in Hu. cbn [mbind result_bind] in Hu.
  apply bind_Ok in Hu as ([[rows changes] b] & Ht' & Hr). destruct (consistent_lookup _ _ _ Hc Ht) as [Hix _ _ Htt Hrows].
  destruct (so_names _ (ln_schema _ (co_linked _ Hc))) as (names & Hgc & Hnames). assert (Hg : good_type names (TRecord (tbl_schema t))).
  { split; [apply Htt|]. eapply Hnames. by apply table_Ok. }
  pose proof (bound_values_wf _ _ _ _ _ Hgc Hg Hl Hb) as Hv. exists names, t, l1, rows, changes. split_and!; [done..| |exact Hr].
  eapply (update_targets_updating names _ t l1 Hgc Hg Htt Hv [] targets (tbl_rows t) []); [done| |exact Ht'].
  split; [apply leads_nil, Hix|done|done|done|]. by intros c ?%elem_of_nil.
Qed.

Lemma update_consistent db name targets l db' : consistent db → NoDup targets → Forall wf_assignment l → update db name targets l = Ok db' → consistent db'.
Proof.
  intros Hc Hnd Hl Hu. destruct (update_Ok _ _ _ _ _ Hc Hnd Hl Hu) as (names & t & l' & rows & changes & _ & _ & Ht & _ & _ & [Hld Hids Hty _ _] & Hr).
  destruct (consistent_lookup _ _ _ Hc Ht) as [_ _ [_ Hnx] _ _]. eapply replace_consistent; [exact Hc|exact Ht|exact Hld|done| |exact Hr].
  intros r Hin. assert (Hi : row_id r ∈ row_id <$> tbl_rows t) by (rewrite <-Hids; by apply list_elem_of_fmap_2).
  apply list_elem_of_fmap in Hi as (r' & -> & Hr'). by apply Hnx.
Qed.

(** What an update does to a row: the assigned paths have the values that their expressions
    have on the row before, and the paths beside them are as they were. *)
Definition row_updated (cat : Catalog) (schema : Columns) (l : list SetAssignment) (before after : Fields) : Prop :=
  (∀ a, a ∈ l → ∃ v, assigned cat schema before a v ∧ row_field after (sa_path a) = Some v) ∧
  (∀ path, (∀ a, a ∈ l → paths_overlap (sa_path a) path = false) → row_field after path = row_field before path).

Lemma typed_keys_no_dot cat schema row k : wf_type (TRecord schema) = true → Forall (λ c, no_dot (col_name c) = true) schema → typed_row cat schema row →
  is_Some (bt_get k row) → no_dot k = true.
Proof.
  intros Hw Hd Hr [v Hk]. apply typed_row_iff in Hr as [[_ Hp] _]; [|done]. destruct (Hp k v Hk) as (c & Hc & <- & _). rewrite list.Forall_forall in Hd. by apply Hd.
Qed.

Lemma set_fields_typed names cat schema row values row' : good_catalog names cat → good_type names (TRecord schema) → Forall (λ c, no_dot (col_name c) = true) schema →
  Forall (λ e, ∃ ty, field_type cat schema e.1 = Ok ty ∧ has_type cat ty e.2) values → typed_row cat schema row → set_fields row values = Ok row' → typed_row cat schema row'.
Proof.
  intros Hcat Hg Hd Hv. revert row. induction Hv as [|e values (ty & Hf & Ht) _ IH]; intros row Hr Hs; cbn in Hs; [by injection Hs as <-|].
  apply bind_Ok in Hs as (row1 & H1' & Hs). eapply IH; [|exact Hs]. by eapply set_row_typed.
Qed.

Lemma update_row_updated names cat t paths l l0 before b after b' : good_catalog names cat → good_type names (TRecord (tbl_schema t)) → table_typed cat t →
  Forall (λ c, no_dot (col_name c) = true) (tbl_schema t) → Forall (values_wf cat (tbl_schema t)) l → bind_sets cat (tbl_schema t) paths l0 = Ok l →
  typed_row cat (tbl_schema t) (row_fields before) → update_row cat (tbl_schema t) (row_type_of t) l before b = Ok (after, b') →
  row_updated cat (tbl_schema t) l (row_fields before) (row_fields after).
Proof.
  intros Hcat Hg Htt Hd Hv Hb Hr Hu. apply update_row_Ok in Hu as (values & fields & checked & Hvs & Hs & Hc & Hw & _).
  pose proof (values_typed names cat t l Hcat Hg Hv _ _ Hr Hvs) as Hvt. pose proof (set_fields_typed _ _ _ _ _ _ Hcat Hg Hd Hvt Hr Hs) as Hty.
  rewrite (coerce_typed_row _ _ _ _ (proj1 Hcat) Htt Hty Hc) in Hw. injection Hw as Hw. rewrite <-Hw. destruct Htt as [Hsc _ _ _].
  assert (Hat : ∀ row path, typed_row cat (tbl_schema t) row → row_field row path = value_at row path).
  { intros row path Hrow. apply row_field_at. intros k. by eapply typed_keys_no_dot. }
  apply bind_sets_Ok in Hb as (_ & _ & Hss). split.
  - intros a Ha. apply list_elem_of_lookup in Ha as [i Hi]. destruct (Forall2_lookup_l _ _ _ _ _ Hvs Hi) as ([path v] & Hiv & Hp & Has). cbn in Hp, Has. subst path.
    exists v. split; [done|]. rewrite Hat by done. eapply (set_fields_same _ _ _ (sa_path a, v) Hs); [|by eapply list_elem_of_lookup_2].
    clear -Hss Hvs. induction Hvs as [|a [p v] l values [Hp _] Hvs IH]; [constructor|]. apply StronglySorted_inv in Hss as [Hss Hf]. constructor; [by apply IH|].
    clear IH Hss. cbn in Hp. subst p. induction Hvs as [|a' [p' v'] l values [Hp' _] _ IH]; [constructor|]. apply list.Forall_cons in Hf as [Hf1 Hf]. cbn in Hp'. subst p'. constructor; [done|by apply IH].
  - intros path Hp. rewrite !Hat by done. eapply set_fields_apart; [exact Hs|]. clear -Hvs Hp.
    induction Hvs as [|a e l values [He _] _ IH]; [constructor|]. constructor; [rewrite He; apply Hp; by left|]. apply IH. intros a' Ha'. apply Hp. by right.
Qed.
End update.
