(* ===== verification/Links.v ===== *)
(** * Schema statements keep the references

    Growth of the catalog, new indexes and new tables keep what src/src/db/reference.rs
    relies on, and [create_reference] establishes it: the reference it adds is satisfied by
    the rows that are there. *)
From stdpp Require Import gmap sorting.
From S2P Require Import Prelude Bytes Text Decimal Temporal Float64 Scalars BTree Model Coerce OrderedKey Codec Matching Coverage Catalog Schema Expression Typing EvalOps Soundness IndexPredicate Database Query Access Ranges Postings Rows Tables Predicates References.

#[local] Strategy 1000 [MAX_DEPTH underlying field_type encode_tuple coerce].

(** ** Growth of the catalog *)

Lemma underlying_loop_extends n cat cat' ty u : extends cat cat' → underlying_loop n cat ty = Ok u → underlying_loop n cat' ty = Ok u.
Proof.
  intros [He _]. revert ty. induction n as [|n IH]; intros ty Hu; [done|]. cbn [underlying_loop] in *. destruct ty; try done.
  apply bind_Ok in Hu as (d & Hd & Hu). rewrite (He _ _ Hd). cbn [mbind result_bind]. auto.
Qed.

Lemma table_typed_extends cat cat' t : extends cat cat' → table_typed cat t → table_typed cat' t.
Proof.
  intros He [? ? [n Hn] Hk]. split; [done|done|exists n; by eapply underlying_loop_extends|].
  intros key Hkey. destruct (Hk key Hkey) as (ty & u & ? & ? & ?). exists ty, u. split_and!; [|by eapply underlying_extends|done].
  by eapply field_type_extends.
Qed.

Lemma allocate_wf cat id cat' : wf_catalog cat = true → allocate cat = Ok (id, cat') →
  wf_catalog cat' = true ∧ extends cat cat' ∧ types cat' = types cat.
Proof.
  intros Hw. unfold allocate. intros (n & [Hn ->]%ok_or_Ok%checked_Some & [= <- <-])%bind_Ok.
  split_and!; [|by apply extends_same_types|done]. unfold wf_catalog in *. cbn [types next_id]. bool_inv.
  rewrite !andb_true_iff. split_and!; try done; [|apply Z.leb_le; lia].
  match goal with H : forallb _ (types cat) = true |- _ => revert H; apply forallb_impl end.
  intros e _ He. bool_inv. rewrite !andb_true_iff. split_and!; try done; [by apply String.eqb_eq|by apply Z.leb_le|apply Z.ltb_lt; lia].
Qed.

Lemma advance_wf cat n : wf_catalog cat = true → 0 ≤ n → is_u64 (next_id cat + n) = true →
  wf_catalog (mkCatalog (types cat) (next_id cat + n)) = true.
Proof.
  intros Hw Hn Hu. unfold wf_catalog in *. cbn [types next_id]. bool_inv.
  rewrite !andb_true_iff. split_and!; try done; [|apply Z.leb_le; lia].
  match goal with H : forallb _ (types cat) = true |- _ => revert H; apply forallb_impl end.
  intros e _ He. bool_inv. rewrite !andb_true_iff. split_and!; try done; [by apply String.eqb_eq|by apply Z.leb_le|apply Z.ltb_lt; lia].
Qed.

Record grows (cat cat' : Catalog) : Prop := {
  gr_extends : extends cat cat';
  gr_wf : wf_catalog cat' = true;
  gr_next : next_id cat ≤ next_id cat';
  gr_ids : ids_unique cat';
  gr_names names : good_catalog names cat → ∃ names', good_catalog names' cat' ∧
    ∀ ty, ids_below (next_id cat) ty → variants_named names ty = true → variants_named names' ty = true
}.

Lemma grows_trans cat1 cat2 cat3 : grows cat1 cat2 → grows cat2 cat3 → grows cat1 cat3.
Proof.
  intros [E1 _ N1 _ G1] [E2 W2 N2 I2 G2]. split; [by etrans|done|lia|done|]. intros names Hn.
  destruct (G1 names Hn) as (names1 & Hn1 & H1). destruct (G2 names1 Hn1) as (names2 & Hn2 & H2). exists names2. split; [done|].
  intros ty Hb Hv. apply H2; [eapply ids_below_le; [|done]; lia|]. by apply H1.
Qed.

(** Taking IDs leaves the types as they are. *)
Lemma grows_next cat cat' : wf_catalog cat' = true → ids_unique cat → types cat' = types cat → next_id cat ≤ next_id cat' → grows cat cat'.
Proof.
  intros Hw [Hnd Hf] Et Hn. split; [by apply extends_same_types|done|done| |].
  - unfold ids_unique, catalog_ids. rewrite Et. split; [done|]. revert Hf. apply Forall_impl. lia.
  - intros names [_ Hv]. exists names. split; [split; [done|by rewrite Et]|done].
Qed.

Lemma allocate_grows cat id cat' : wf_catalog cat = true → ids_unique cat → allocate cat = Ok (id, cat') →
  grows cat cat' ∧ id = next_id cat ∧ next_id cat' = id + 1.
Proof.
  intros Hw Hids Ha. destruct (allocate_wf _ _ _ Hw Ha) as (Hw' & _ & Et).
  unfold allocate in Ha. apply bind_Ok in Ha as (n & [Hn ->]%ok_or_Ok%checked_Some & [= <- <-]).
  split; [|done]. apply grows_next; try done. simpl. lia.
Qed.

(** The IDs of a declared type, and of what it stands for, are below the next ID. *)
Lemma definition_ids_below cat e : ids_unique cat → e ∈ types cat → ids_below (next_id cat) (def_ty e.2).
Proof.
  intros [_ Hb] He. rewrite list.Forall_forall in Hb. apply list.Forall_forall. intros i Hi. apply (Hb i).
  apply list_elem_of_In, in_flat_map. exists e. rewrite in_app_iff, <-!list_elem_of_In. auto.
Qed.

(** Declaring a type: its IDs are new, so its variants can be named beside the known ones. *)
Lemma define_grows cat name ty cat' : wf_catalog cat = true → ids_unique cat → wf_source ty = true →
  define cat name ty = (Ok tt, cat') → grows cat cat'.
Proof.
  intros Hw Hids Hs Hd. destruct (wf_catalog_parts _ Hw) as (_ & _ & H1' & _).
  destruct (define_cases _ _ _ _ _ Hw Hs Hd) as [(d & _ & Hn & Et & He & Hw' & _ & Hp & Hlt)|[[e [=]] _]].
  split; [done|done|lia|apply (ids_unique_extend cat); try done; lia|]. intros names [_ Hf].
  assert (Hnew : type_ids (def_ty d) ++ [def_id d] ≡ₚ seqZ (next_id cat) (next_id cat' - next_id cat)).
  { apply (Permutation_app_inv_r (catalog_ids cat)). rewrite <-Hp. unfold catalog_ids. rewrite Et.
    by rewrite (flat_map_Permutation _ _ _ (bt_insert_perm _ _ _ Hn)). }
  destruct (names_extend names (next_id cat) (def_ty d)) as (names' & Hv & Hk).
  - eapply (sublist_NoDup _ (type_ids (def_ty d) ++ [def_id d])); [rewrite Hnew; apply NoDup_seqZ|by apply sublist_inserts_r].
  - apply list.Forall_forall. intros i Hi. assert (Hin : i ∈ seqZ (next_id cat) (next_id cat' - next_id cat)) by (rewrite <-Hnew; set_solver).
    apply elem_of_seqZ in Hin. lia.
  - exists names'. split; [split; [done|]|done]. rewrite Et. rewrite list.Forall_forall in Hf |- *. intros e [->|Hin]%bt_insert_elem; [done|].
    apply Hk; [by apply definition_ids_below|by apply Hf].
Qed.

Lemma resolve_wf cat ty fuel ty' cat' : wf_catalog cat = true → wf_source ty = true → resolve cat ty fuel = Ok (ty', cat') →
  wf_type ty' = true ∧ wf_catalog cat' = true ∧ ∃ n, allocated cat cat' n (type_ids ty').
Proof.
  intros Hw Hs. unfold resolve. intros ([ty1 cat1] & Hr & Hn)%bind_Ok. apply bind_Ok in Hn as (ty2 & Hn & [= <- <-]).
  destruct (wf_catalog_parts _ Hw) as (_ & Hu & H1' & _).
  destruct (resolve_inner_spec _ _ _ _ _ Hu Hr) as (n & _ & Ha). pose proof Ha as (Hn0 & -> & Hu' & Hids).
  pose proof (advance_wf cat n Hw Hn0 Hu') as Hw'.
  assert (Hw1 : wf_type ty1 = true).
  { eapply (resolve_inner_wf fuel (types cat)); [by apply wf_catalog_defs_u64|by split|done|exact Hr|]. rewrite Hids. by apply seqZ_good_ids. }
  apply normalize_defaults_wf in Hn as [Hw2 Eids]; [|done..]. split_and!; [done..|]. exists n. by rewrite Eids.
Qed.

(** Resolving a type takes the IDs that the type then has. *)
Lemma resolve_grows cat ty fuel ty' cat' : wf_catalog cat = true → ids_unique cat → wf_source ty = true → resolve cat ty fuel = Ok (ty', cat') →
  grows cat cat' ∧ ids_below (next_id cat') ty' ∧ ∀ names, good_catalog names cat → ∃ names', good_catalog names' cat' ∧
    variants_named names' ty' = true ∧ ∀ u, ids_below (next_id cat) u → variants_named names u = true → variants_named names' u = true.
Proof.
  intros Hw Hids Hs Hr. destruct (resolve_wf _ _ _ _ _ Hw Hs Hr) as (_ & Hw' & n & Hn & -> & _ & Eids).
  assert (Hg : grows cat (mkCatalog (types cat) (next_id cat + n))) by (apply grows_next; try done; simpl; lia).
  split_and!; [done| |].
  - unfold ids_below. rewrite Eids. apply list.Forall_forall. intros i Hi%elem_of_seqZ. simpl. lia.
  - intros names [_ Hf]. destruct (names_extend names (next_id cat) ty') as (names' & Hv & Hk).
    + rewrite Eids. apply NoDup_seqZ.
    + rewrite Eids. apply list.Forall_forall. intros i Hi%elem_of_seqZ. lia.
    + exists names'. split_and!; try done. split; [done|]. rewrite list.Forall_forall in Hf |- *. intros e Hin. apply Hk; [by apply definition_ids_below|by apply Hf].
Qed.

Lemma underlying_ids_below n cat ty u : wf_catalog cat = true → ids_unique cat → ids_below (next_id cat) ty → underlying_loop n cat ty = Ok u →
  ids_below (next_id cat) u.
Proof.
  intros Hw Hids. revert ty. induction n as [|n IH]; intros ty Hb Hu; [done|]. cbn [underlying_loop] in Hu.
  destruct ty; try (by injection Hu as <-). apply bind_Ok in Hu as (d & Hd & Hu). apply (IH (def_ty d)); [|done].
  apply definition_Ok in Hd as (name & Hin & _). exact (definition_ids_below cat (name, d) Hids Hin).
Qed.

Section links.
Context `{TextLib} `{PredicateText} `{Base64}.

(** ** What a schema statement keeps *)

Definition same_table (t t' : Table) : Prop :=
  tbl_id t' = tbl_id t ∧ tbl_name t' = tbl_name t ∧ tbl_schema t' = tbl_schema t ∧ tbl_rows t' = tbl_rows t ∧
  tbl_primary_key t' = tbl_primary_key t.

Record kept (db db' : Database) : Prop := {
  kp_grows : grows (db_catalog db) (db_catalog db');
  kp_table n t : bt_get n (db_objects db) = Some t → ∃ t', bt_get n (db_objects db') = Some t' ∧ same_table t t';
  kp_index n s d : bt_get n (db_objects db) ≠ None → bt_get s (definitions_of db n) = Some d → bt_get s (definitions_of db' n) = Some d
}.

Lemma component_typed_extends cat cat' source target c : extends cat cat' → component_typed cat source target c → component_typed cat' source target c.
Proof.
  intros He [Ht (ty & Hs & Hm)]. split; [by eapply field_type_extends|]. exists ty. split; [by eapply field_type_extends|done].
Qed.

Lemma reference_ok_kept db db' id d ns nt s ts tg ix p : kept db db' → bt_get id (db_reference_states db') = bt_get id (db_reference_states db) →
  reference_ok db id d ns nt s ts tg ix p → ∃ ts' tg', reference_ok db' id d ns nt s ts' tg' ix p.
Proof.
  intros [Hg Htab Hidx] Est [Hid [Hns Hnsid] [Hnt Hntid] (Hx1 & Hx2 & Hx3) Hcols Htys Hst Hpo Hsat].
  destruct (Htab ns ts Hns) as (ts' & Hts' & Ei & _ & Es & Er & _). destruct (Htab nt tg Hnt) as (tg' & Htg' & Ei' & _ & Es' & Er' & Ep').
  exists ts', tg'. split; [done|by rewrite Ei|by rewrite Ei'| |done| |by rewrite Est| |].
  - split_and!; [apply Hidx; [by rewrite Hnt|done]|done|by rewrite Ep'].
  - rewrite Es, Es'. revert Htys. apply Forall_impl. intros c. apply component_typed_extends, Hg.
  - rewrite Er. revert Hpo. apply posting_of_cong. intros r o _. apply key_of_extends, Hg.
  - by rewrite Er, Er'.
Qed.

Lemma linked_kept db db' : linked db → kept db db' → schema_ok db' → db_reference_definitions db' = db_reference_definitions db →
  db_reference_states db' = db_reference_states db → linked db'.
Proof.
  intros [Hso Hs Hb Hro] Hk Hso' Ed Es. split; [done|by rewrite Ed| |].
  - intros id. rewrite Ed. intros Hin. pose proof (gr_next _ _ (kp_grows _ _ Hk)). specialize (Hb id Hin). lia.
  - intros id d. rewrite Ed. intros Hd. destruct (Hro id d Hd) as (ns & nt & s & ts & tg & ix & p & Hok).
    destruct (reference_ok_kept db db' _ _ _ _ _ _ _ _ _ Hk ltac:(by rewrite Es) Hok) as (ts' & tg' & Hok'). by exists ns, nt, s, ts', tg', ix, p.
Qed.

(** The properties of the tables that are there survive growth of the catalog. *)
Lemma names_grow db cat' : schema_ok db → grows (db_catalog db) cat' →
  ∃ names, good_catalog names cat' ∧ ∀ name t, bt_get name (db_objects db) = Some t → variants_named names (TRecord (tbl_schema t)) = true.
Proof.
  intros Hso Hg. destruct (so_names _ Hso) as (names & Hgc & Hnames). destruct (gr_names _ _ Hg names Hgc) as (names' & Hgc' & Hk).
  exists names'. split; [done|]. intros n t Ht. apply Hk; [by apply (proj2 (so_ids _ Hso) n)|by eapply Hnames].
Qed.

Lemma paths_grow db cat' name t s d : schema_ok db → grows (db_catalog db) cat' → bt_get name (db_objects db) = Some t →
  bt_get s (definitions_of db name) = Some d → ix_components d ≠ [] ∧ ix_id d < next_id cat' ∧
    Forall (λ c, field_path_ids cat' (tbl_schema t) (ic_column c) = Ok (ic_field_path c)) (ix_components d) ∧
    predicate_ok cat' (tbl_schema t) d.
Proof.
  intros Hso Hg Ht Hd. destruct (so_index _ Hso name t s d Ht Hd) as (Hn & Hi & Hp & Hpr). pose proof (gr_next _ _ Hg).
  split_and!; [done|lia| |by eapply predicate_ok_extends; [apply Hg|]].
  revert Hp. apply Forall_impl. intros c. apply field_path_ids_extends, Hg.
Qed.

(** Growth of the catalog under tables and indexes that stay as they are. *)
Lemma schema_same db db' : schema_ok db → grows (db_catalog db) (db_catalog db') → bt_sorted (db_objects db') = true →
  (∀ n t', bt_get n (db_objects db') = Some t' → ∃ t, bt_get n (db_objects db) = Some t ∧ same_table t t') →
  (∀ n, definitions_of db' n = definitions_of db n) → schema_ok db'.
Proof.
  intros Hso Hg Hs Htab Hdef. pose proof (gr_next _ _ Hg) as Hle. split; [done|..].
  - intros n t' (t & Ht & -> & -> & _)%Htab. destruct (so_name _ Hso n t Ht). split; [done|lia].
  - intros n1 t1 n2 t2 (u1 & Hu1 & -> & _)%Htab (u2 & Hu2 & -> & _)%Htab. exact (so_id _ Hso n1 u1 n2 u2 Hu1 Hu2).
  - intros n t' s d (t & Ht & _ & _ & -> & _)%Htab. rewrite Hdef. by apply paths_grow.
  - intros n t' s1 d1 s2 d2 (t & Ht & _)%Htab. rewrite !Hdef. exact (so_index_id _ Hso n t s1 d1 s2 d2 Ht).
  - split; [apply Hg|]. intros n t' (t & Ht & _ & _ & -> & _)%Htab. eapply ids_below_le; [exact Hle|]. by apply (proj2 (so_ids _ Hso) n).
  - destruct (names_grow db _ Hso Hg) as (names & Hgc & Hn). exists names. split; [done|]. intros n t' (t & Ht & _ & _ & -> & _)%Htab. by eapply Hn.
Qed.

Lemma linked_same_tables db db' : linked db → grows (db_catalog db) (db_catalog db') → bt_sorted (db_objects db') = true →
  (∀ n t', bt_get n (db_objects db') = Some t' → ∃ t, bt_get n (db_objects db) = Some t ∧ same_table t t') →
  (∀ n t, bt_get n (db_objects db) = Some t → ∃ t', bt_get n (db_objects db') = Some t' ∧ same_table t t') →
  (∀ n, definitions_of db' n = definitions_of db n) → db_reference_definitions db' = db_reference_definitions db →
  db_reference_states db' = db_reference_states db → linked db'.
Proof.
  intros Hl Hg Hs Htab Htab' Hdef Ed Es. apply (linked_kept db); try done.
  - split; [done..|]. intros n s d _. by rewrite Hdef.
  - by apply (schema_same db); [apply Hl|..].
Qed.

Lemma same_table_refl t : same_table t t.
Proof. done. Qed.

(** *** A new index *)

Lemma linked_index db db' name t d : linked db → bt_get name (db_objects db) = Some t → grows (db_catalog db) (db_catalog db') →
  db_objects db' = db_objects db →
  (∀ n, n ≠ name → definitions_of db' n = definitions_of db n) →
  definitions_of db' name = bt_insert (shape_key d) d (definitions_of db name) → bt_get (shape_key d) (definitions_of db name) = None →
  ix_components d ≠ [] → next_id (db_catalog db) ≤ ix_id d < next_id (db_catalog db') →
  Forall (λ c, field_path_ids (db_catalog db) (tbl_schema t) (ic_column c) = Ok (ic_field_path c)) (ix_components d) →
  predicate_ok (db_catalog db) (tbl_schema t) d →
  db_reference_definitions db' = db_reference_definitions db → db_reference_states db' = db_reference_states db → linked db'.
Proof.
  intros Hl Ht Hg Eo Hother Hdef Hnew Hne [Hid Hid'] Hp Hpr Ed Es. pose proof (ln_schema _ Hl) as Hso. pose proof (gr_next _ _ Hg) as Hle.
  assert (Hget : ∀ n s e, bt_get s (definitions_of db' n) = Some e →
    bt_get s (definitions_of db n) = Some e ∨ (n = name ∧ s = shape_key d ∧ e = d)).
  { intros n s e. destruct (decide (n = name)) as [->|Hn]; [|rewrite Hother by done; auto]. rewrite Hdef.
    destruct (decide (s = shape_key d)) as [->|Hs]; [rewrite bt_get_insert_eq; intros [= <-]; auto|rewrite bt_get_insert_ne by done; auto]. }
  apply (linked_kept db); try done.
  - split; [done|intros n u; rewrite Eo; by exists u|]. intros n s e _ He. destruct (decide (n = name)) as [->|Hn]; [|by rewrite Hother].
    rewrite Hdef, bt_get_insert_ne; [done|]. intros ->. congruence.
  - destruct (names_grow db _ Hso Hg) as (names & Hgc & Hn). split; rewrite ?Eo.
    + apply Hso.
    + intros n u Hu. destruct (so_name _ Hso n u Hu). split; [done|lia].
    + apply Hso.
    + intros n u s e Hu [He|(-> & -> & ->)]%Hget; [by eapply paths_grow|]. assert (u = t) as -> by congruence.
      split_and!; [done..| |by eapply predicate_ok_extends; [apply Hg|]].
      revert Hp. apply Forall_impl. intros c. apply field_path_ids_extends, Hg.
    + intros n u s1 e1 s2 e2 Hu [He1|(-> & -> & ->)]%Hget [He2|(E & -> & ->)]%Hget Heq; [..|done].
      * by eapply (so_index_id _ Hso n u).
      * destruct (so_index _ Hso _ _ _ _ Hu He1) as (_ & ? & _). lia.
      * destruct (so_index _ Hso _ _ _ _ Hu He2) as (_ & ? & _). lia.
    + split; [apply Hg|]. intros n u Hu. eapply ids_below_le; [exact Hle|]. by apply (proj2 (so_ids _ Hso) n).
    + by exists names.
Qed.

(** *** A new table *)

Lemma linked_add db db' name t : linked db → bt_get name (db_objects db) = None → definitions_of db name = [] →
  grows (db_catalog db) (db_catalog db') →
  db_objects db' = bt_insert name t (db_objects db) → db_index_definitions db' = db_index_definitions db →
  tbl_name t = name → next_id (db_catalog db) ≤ tbl_id t < next_id (db_catalog db') →
  ids_below (next_id (db_catalog db')) (TRecord (tbl_schema t)) →
  (∃ names, good_catalog names (db_catalog db') ∧ variants_named names (TRecord (tbl_schema t)) = true ∧
    ∀ n u, bt_get n (db_objects db) = Some u → variants_named names (TRecord (tbl_schema u)) = true) →
  db_reference_definitions db' = db_reference_definitions db → db_reference_states db' = db_reference_states db → linked db'.
Proof.
  intros Hl Hfree Hdn Hg Eo Ei Hname [Hid Hid'] Hbelow (names & Hgc & Hnt & Hnames) Ed Es. pose proof (ln_schema _ Hl) as Hso.
  pose proof (gr_next _ _ Hg) as Hle. assert (Hdef : ∀ n, definitions_of db' n = definitions_of db n) by (intros n; unfold definitions_of; by rewrite Ei).
  assert (Hget : ∀ n u, bt_get n (db_objects db') = Some u → (n ≠ name ∧ bt_get n (db_objects db) = Some u) ∨ (n = name ∧ u = t)).
  { intros n u. rewrite Eo. destruct (decide (n = name)) as [->|Hn]; [rewrite bt_get_insert_eq; intros [= <-]; auto|rewrite bt_get_insert_ne by done; auto]. }
  apply (linked_kept db); try done.
  - split; [done| |intros n s e _; by rewrite Hdef]. intros n u Hu. exists u. split; [|done]. rewrite Eo, bt_get_insert_ne; [done|]. intros ->. congruence.
  - split.
    + rewrite Eo. apply bt_insert_sorted, Hso.
    + intros n u [[_ Hu]|[-> ->]]%Hget; [|done]. destruct (so_name _ Hso n u Hu). split; [done|lia].
    + intros n1 u1 n2 u2 [[Hn1 Hu1]|[-> ->]]%Hget [[Hn2 Hu2]|[E2 ->]]%Hget Heq; [..|done].
      * by eapply (so_id _ Hso).
      * destruct (so_name _ Hso n1 u1 Hu1). lia.
      * destruct (so_name _ Hso n2 u2 Hu2). lia.
    + intros n u s e [[_ Hu]|[-> ->]]%Hget; rewrite Hdef; [by apply paths_grow|by rewrite Hdn].
    + intros n u s1 e1 s2 e2 [[_ Hu]|[-> ->]]%Hget; rewrite !Hdef; [by apply (so_index_id _ Hso n u)|by rewrite Hdn].
    + split; [apply Hg|]. intros n u [[_ Hu]|[-> ->]]%Hget; [|done]. eapply ids_below_le; [exact Hle|]. by apply (proj2 (so_ids _ Hso) n).
    + exists names. split; [done|]. intros n u [[_ Hu]|[-> ->]]%Hget; [by eapply Hnames|done].
Qed.

(** *** A new reference *)

Lemma reference_component_spec db ts tg e c : reference_component db ts tg e = Ok c →
  component_typed (db_catalog db) (tbl_schema ts) (tbl_schema tg) c ∧
  field_path_ids (db_catalog db) (tbl_schema tg) (rc_target_column c) = Ok (rc_target_field_path c).
Proof.
  destruct e as [column target_column]. unfold reference_component. intros (st & Hst & Hc)%bind_Ok. apply bind_Ok in Hc as (tt' & Htt & Hc).
  apply bind_Ok in Hc as (mode & Hm & Hc). apply bind_Ok in Hc as (p & _ & Hc). apply bind_Ok in Hc as (q & Hq & [= <-]).
  split; [|done]. split; [done|]. exists st. split; [done|]. simpl. destruct (same_type st tt') eqn:Es; [by injection Hm as <-|].
  destruct st; try done. destruct (same_type st tt') eqn:Es'; [|done]. injection Hm as <-. eauto.
Qed.

Lemma min_id_elem l x : min_id l = Some x → x ∈ l.
Proof.
  destruct l as [|y l]; [done|]. simpl. intros [= <-]. revert y. induction l as [|z l IH]; intros y; simpl; [by left|].
  specialize (IH (y `min` z)). apply elem_of_cons in IH as [->|IH]; [|set_solver]. destruct (Z.min_spec y z) as [[_ ->]|[_ ->]]; set_solver.
Qed.

(** The target of a bound reference is an index of the target table over the columns it names. *)
Lemma bind_reference_spec db spec d : wf_catalog (db_catalog db) = true → schema_ok db → tables_ok db → bind_reference db spec = Ok d →
  ∃ ts tg s ix, (bt_get (rs_table spec) (db_objects db) = Some ts ∧ tbl_id ts = rd_table_id d) ∧
    (bt_get (rs_target_table spec) (db_objects db) = Some tg ∧ tbl_id tg = rd_target_table_id d) ∧
    is_target db (rs_target_table spec) tg d s ix ∧
    Forall2 (λ c ic, ic_column ic = rc_target_column c) (rd_components d) (effective_components ix) ∧
    Forall (component_typed (db_catalog db) (tbl_schema ts) (tbl_schema tg)) (rd_components d).
Proof.
  intros Hw Hso Htabs Hb. unfold bind_reference in Hb. case_if_in Hb; [done|]. case_if_in Hb; [done|].
  apply bind_Ok in Hb as (ts & Hts%table_Ok & Hb). apply bind_Ok in Hb as (tg & Htg%table_Ok & Hb).
  apply bind_Ok in Hb as (comps & Hcomps%mapR_Ok & Hb). apply bind_Ok in Hb as (key & Hkey & [= <-]).
  assert (Hspec : Forall (λ c, component_typed (db_catalog db) (tbl_schema ts) (tbl_schema tg) c ∧
      field_path_ids (db_catalog db) (tbl_schema tg) (rc_target_column c) = Ok (rc_target_field_path c)) comps).
  { clear -Hcomps. induction Hcomps as [|e c l k Hc _ IH]; constructor; [by eapply reference_component_spec|done]. }
  destruct (Htabs _ _ Htg) as [Hi Hpk _ Htt _]. pose proof (tt_schema _ _ Htt) as Hws. cbn [rd_table_id rd_target_table_id rd_components].
  assert (∃ s ix, is_target db (rs_target_table spec) tg (mkReferenceDefinition 0 (tbl_id ts) (tbl_id tg) key comps) s ix ∧
    Forall2 (λ c ic, ic_column ic = rc_target_column c) comps (effective_components ix)) as (s & ix & ? & ?).
  2:{ exists ts, tg, s, ix. split_and!; try done. revert Hspec. apply Forall_impl. by intros ? [? _]. }
  match type of Hkey with (if ?b then _ else _) = _ => destruct b eqn:Eb end.
  - destruct comps as [|c [|]]; try done. destruct (tbl_primary_key tg) as [k|] eqn:Ek; [|done].
    destruct (field_path_ids (db_catalog db) (tbl_schema tg) k) as [path|] eqn:Ep; [|done]. apply bool_decide_eq_true in Eb as ->.
    injection Hkey as <-. apply list.Forall_cons in Hspec as [[_ Hc] _]. pose proof (field_path_ids_inj _ _ _ _ _ Hw Hws Ep Hc) as ->.
    destruct (Hpk _ Ek) as (ix & Hix & Hp). exists (rc_target_column c), ix. split.
    + split_and!; [done| |done]. apply (primary_total ix _ Hp). by apply (ti_shape _ _ _ _ Hi).
    + unfold is_primary_index in Hp. destruct (effective_components ix) as [|ic [|]]; try done.
      apply andb_true_iff in Hp as [_ Hp%bool_decide_eq_true]. constructor; [congruence|constructor].
  - apply fmap_Ok in Hkey as (id & Hid%ok_or_Ok & ->). apply min_id_elem, list_elem_of_fmap in Hid as ([s ix] & -> & Hin).
    apply list_elem_of_In, filter_In in Hin as [Hin%list_elem_of_In Hf]. simpl in Hf. apply andb_true_iff in Hf as [Hf Hall]. apply andb_true_iff in Hf as [_ Hnp].
    apply bt_get_iff in Hin; [|apply Hi]. exists s, ix. split.
    + split_and!; [done|by destruct (ix_predicate ix)|done].
    + destruct (so_index _ Hso _ _ _ _ Htg Hin) as (Hne & _ & Hpaths & _). assert (Ee : effective_components ix = ix_components ix).
      { unfold effective_components. by destruct (ix_components ix). }
      rewrite Ee in *. apply all2_Forall2 in Hall. clear -Hall Hspec Hpaths Hw Hws. induction Hall as [|ic c l k Hic _ IH]; constructor.
      * apply list.Forall_cons in Hspec as [[_ Hc] _]. apply list.Forall_cons in Hpaths as [Hp _]. apply bool_decide_eq_true in Hic.
        eapply (field_path_ids_inj _ (tbl_schema tg)); [done..|exact Hp|by rewrite Hic].
      * apply IH; [by apply list.Forall_cons in Hspec as [_ ?]|by apply list.Forall_cons in Hpaths as [_ ?]].
Qed.

Lemma posting_of_add K rows p r o : posting_of K rows p → K r = Ok o →
  posting_of K (rows ++ [r]) match o with Some key => source_add p key (row_id r) | None => p end.
Proof.
  intros [Hw Hk Hi] Ho. assert (Hk' : ∀ x, x ∈ rows ++ [r] → is_ok (K x) = true).
  { intros x [Hx| ->%list_elem_of_singleton]%elem_of_app; [by apply Hk|by rewrite Ho]. }
  destruct o as [key|]; [destruct (source_add_spec p key (row_id r) Hw) as [Hw' Hs]|]; split; try done; intros k id.
  - rewrite Hs, Hi. split.
    + intros [(x & Hx & ? & ?)|[-> ->]]; [exists x|exists r]; (split_and!; [set_solver|done..]).
    + intros (x & [Hx| ->%list_elem_of_singleton]%elem_of_app & Hid & Hx'); [left; by exists x|right]. split; congruence.
  - rewrite Hi. split.
    + intros (x & Hx & ? & ?). exists x. split_and!; [set_solver|done..].
    + intros (x & [Hx| ->%list_elem_of_singleton]%elem_of_app & Hid & Hx'); [by exists x|congruence].
Qed.

(** The rows of the source table, one after another: the postings hold their keys, and each finds a target. *)
Lemma build_rows db d target index rows seen p p' :
  foldR (λ p row,
    o ← reference_key db d (row_fields row) true;
    match o with
    | None => Ok p
    | Some key =>
        b ← reference_target_boundary db d (row_fields row);
        boundary ← ok_or b PANIC;
        hits ← scan_index db target (shape_key index) (Included boundary, Included boundary) false None;
        match hits with
        | [] => Err "E_CONSTRAINT"
        | _ => Ok (source_add p key (row_id row))
        end
    end) p rows = Ok p' →
  posting_of (key_of (db_catalog db) d true) seen p →
  posting_of (key_of (db_catalog db) d true) (seen ++ rows) p' ∧
  ∀ r, r ∈ rows → ∃ o, key_of (db_catalog db) d true r = Ok o ∧ ∀ k, o = Some k → ∃ b h hits, reference_target_boundary db d (row_fields r) = Ok (Some b) ∧
    scan_index db target (shape_key index) (Included b, Included b) false None = Ok (h :: hits).
Proof.
  revert seen p. induction rows as [|r rows IH]; intros seen p Hf Hp.
  { injection Hf as <-. rewrite app_nil_r. split; [done|]. by intros r ?%elem_of_nil. }
  cbn [foldR] in Hf. apply bind_Ok in Hf as (p1 & Hr & Hf). apply bind_Ok in Hr as (o & Ho & Hr). rewrite reference_key_eq in Ho.
  assert (p1 = match o with Some key => source_add p key (row_id r) | None => p end ∧ ∀ k, o = Some k → ∃ b h hits,
    reference_target_boundary db d (row_fields r) = Ok (Some b) ∧
    scan_index db target (shape_key index) (Included b, Included b) false None = Ok (h :: hits)) as [-> Hhit].
  { destruct o as [key|]; [|by injection Hr as <-]. apply bind_Ok in Hr as (b & Hb & Hr). apply bind_Ok in Hr as (b' & ->%ok_or_Ok & Hr).
    apply bind_Ok in Hr as ([|h hits] & Hh & Hr); [done|]. injection Hr as <-. split; [done|]. intros k _. eauto. }
  destruct (IH (seen ++ [r]) _ Hf) as [Hp' Hh]; [by apply posting_of_add|]. rewrite <-app_assoc in Hp'. split; [done|].
  intros x [->|Hx]%elem_of_cons; [by exists o|by apply Hh].
Qed.

(** [build_reference_state] accepts the rows that satisfy the reference, and indexes them. *)
Lemma build_reference_ok db spec d ts tg s ix p : wf_catalog (db_catalog db) = true → schema_ok db → tables_ok db →
  bt_get (rs_table spec) (db_objects db) = Some ts → bt_get (rs_target_table spec) (db_objects db) = Some tg →
  tbl_id tg = rd_target_table_id d → is_target db (rs_target_table spec) tg d s ix →
  Forall2 (λ c ic, ic_column ic = rc_target_column c) (rd_components d) (effective_components ix) →
  Forall (component_typed (db_catalog db) (tbl_schema ts) (tbl_schema tg)) (rd_components d) →
  build_reference_state db d (rs_table spec) (rs_target_table spec) = Ok p →
  posting_of (key_of (db_catalog db) d true) (tbl_rows ts) p ∧ satisfied (rd_components d) (tbl_rows ts) (tbl_rows tg).
Proof.
  intros Hw Hso Htabs Hts Htg Hid Hix Hcols Htys Hb. destruct (Htabs _ _ Htg) as [Hi _ _ Htt Hrows].
  assert (Htarget : reference_target_index db d = Ok (tg, ix)) by (by eapply reference_target_index_eq).
  unfold build_reference_state in Hb. rewrite Htarget in Hb. cbn [mbind result_bind] in Hb. rewrite (proj2 (table_Ok _ _ _) Hts) in Hb.
  cbn [mbind result_bind] in Hb. destruct (build_rows _ _ _ _ _ [] _ _ Hb (posting_of_nil _)) as [Hpo Hh]. split; [done|].
  intros r vs Hr Hvs. destruct (Hh r Hr) as (o & Ho & Hk). unfold key_of in Ho. rewrite Hvs in Ho. cbn [mbind result_bind] in Ho.
  apply bind_Ok in Ho as (key & _ & Ho). case_if_in Ho; [done|]. injection Ho as <-. destruct (Hk key eq_refl) as (b & [kk hid] & hits & Hbd & Hhits).
  pose proof Hix as (Hsix & _). rewrite <-(ti_shape _ _ _ _ Hi s ix Hsix) in Hhits.
  destruct (proj1 (scan_point db _ tg s ix b _ Hi Hsix Hhits hid)) as (r' & Hr' & Hrid & Hrk); [exists kk; by left|].
  exists r'. split; [done|]. destruct (so_names _ Hso) as (names & Hcat & Hnames).
  unfold reference_target_boundary in Hbd. rewrite Hvs in Hbd. cbn [mbind result_bind] in Hbd. rewrite Htarget in Hbd. cbn [mbind result_bind] in Hbd.
  apply fmap_Ok in Hbd as (b0 & Hb0 & [= <-]).
  eapply (boundary_values names _ Hcat (tbl_schema ts) (tbl_schema tg) _ ix r r'); try done.
  - split; [apply (to_typed _ _ _ (Htabs _ _ Hts))|by eapply Hnames].
  - split; [apply Htt|by eapply Hnames].
  - by apply (to_rows _ _ _ (Htabs _ _ Hts)).
  - by apply Hrows.
Qed.

Lemma create_reference_linked db spec db' : wf_catalog (db_catalog db) = true → tables_ok db → linked db → create_reference db spec = Ok db' → linked db'.
Proof.
  intros Hw Htabs Hl Hc. pose proof Hl as [Hso Hs Hb Hro]. unfold create_reference in Hc. apply bind_Ok in Hc as (d & Hd & Hc). case_if_in Hc; [done|].
  apply bind_Ok in Hc as (p & Hp & Hc). apply bind_Ok in Hc as ([id cat] & Ha & [= <-]).
  destruct (allocate_grows _ _ _ Hw (proj1 (so_ids _ Hso)) Ha) as (Hg & -> & Hnext).
  destruct (bind_reference_spec _ _ _ Hw Hso Htabs Hd) as (ts & tg & s & ix & [Hts Hsid] & [Htg Htid] & Hix & Hcols & Htys).
  destruct (build_reference_ok _ _ _ _ _ _ _ _ Hw Hso Htabs Hts Htg Htid Hix Hcols Htys Hp) as [Hpo Hsat].
  assert (Hk : ∀ defs states, kept db (set_references defs states (set_catalog cat db))) by (intros; split; [done|intros n t Ht; by exists t|done]).
  split.
  - apply (schema_same db); try done; [apply Hso|]. intros n t Ht. by exists t.
  - apply bt_insert_sorted, Hs.
  - cbn. intros i ([j e] & -> & [[= -> _]|Hin]%bt_insert_elem)%list_elem_of_fmap; simpl; [lia|].
    assert (j < next_id (db_catalog db)); [|lia]. apply Hb, list_elem_of_fmap. by exists (j, e).
  - cbn [set_references db_reference_definitions]. intros i e. destruct (decide (i = next_id (db_catalog db))) as [->|Hne].
    + rewrite bt_get_insert_eq. intros [= <-]. exists (rs_table spec), (rs_target_table spec), s, ts, tg, ix, p. split; try done.
      * cbn. revert Htys. apply Forall_impl. intros c. apply component_typed_extends, Hg.
      * apply bt_get_insert_eq.
      * revert Hpo. apply posting_of_cong. intros r o _ Hr. exact (key_of_extends _ _ d true r o (gr_extends _ _ Hg) Hr).
    + rewrite bt_get_insert_ne by done. intros He. destruct (Hro i e He) as (ns & nt & s' & ts' & tg' & ix' & p' & Hok).
      destruct (reference_ok_kept _ _ _ _ _ _ _ _ _ _ _ (Hk (bt_insert (next_id (db_catalog db))
        (mkReferenceDefinition (next_id (db_catalog db)) (rd_table_id d) (rd_target_table_id d) (rd_target d) (rd_components d))
        (db_reference_definitions db)) (bt_insert (next_id (db_catalog db)) p (db_reference_states db)))
        (bt_get_insert_ne _ _ _ _ Hne) Hok) as (ts'' & tg'' & Hok'). by exists ns, nt, s', ts'', tg'', ix', p'.
Qed.

Lemma grows_refl db : schema_ok db → wf_catalog (db_catalog db) = true → grows (db_catalog db) (db_catalog db).
Proof. intros Hso Hw. apply grows_next; [done|apply Hso|done|done]. Qed.

Lemma drop_reference_linked db spec db' : wf_catalog (db_catalog db) = true → linked db → drop_reference db spec = Ok db' → linked db'.
Proof.
  intros Hw Hl Hc. pose proof Hl as [Hso Hs Hb Hro]. unfold drop_reference in Hc. apply bind_Ok in Hc as (d & _ & Hc).
  apply bind_Ok in Hc as ([id ?] & _ & [= <-]). pose proof (grows_refl db Hso Hw) as Hg. split.
  - apply (schema_same db); try done; [apply Hso|]. intros n t Ht. by exists t.
  - apply bt_remove_sorted, Hs.
  - cbn. intros i (e & -> & Hin%bt_remove_elem)%list_elem_of_fmap. apply Hb, list_elem_of_fmap. by exists e.
  - cbn [set_references db_reference_definitions]. intros i e. destruct (decide (i = id)) as [->|Hne]; [rewrite bt_get_remove, tcmp_refl by exact Hs; done|].
    rewrite bt_get_remove_ne by done. intros He. destruct (Hro i e He) as (ns & nt & s & ts & tg & ix & p & Hok).
    destruct (reference_ok_kept db (set_references (bt_remove id (db_reference_definitions db)) (bt_remove id (db_reference_states db)) db)
      i e ns nt s ts tg ix p) as (ts' & tg' & Hok'); [split; [done|intros n t Ht; by exists t|done]|by apply bt_get_remove_ne|done|].
    by exists ns, nt, s, ts', tg', ix, p.
Qed.
End links.
