(* ===== verification/Invariant.v ===== *)
(** * The invariant of the database

    Every statement of [Database.execute] keeps the consistency of src/src/db.rs: the schema
    operations here, the row mutations in Mutations; so every database that statements reach
    from the empty one is consistent, whatever they are and whichever of them fail. *)
From stdpp Require Import gmap sorting.
From S2P Require Import Prelude Bytes Text Decimal Temporal Float64 Scalars BTree Model Coerce OrderedKey Codec Matching Coverage Catalog Schema Expression Typing EvalOps Soundness IndexPredicate Database Query Access Ranges Postings Rows Tables Predicates References Mutations Updates Links.

#[local] Strategy 1000 [MAX_DEPTH underlying field_type coerce fill_generated].

Section invariant.
Context `{TextLib} `{PredicateText} `{Base64}.

Lemma consistent_ids db : consistent db → ids_unique (db_catalog db).
Proof. intros Hc. apply (so_ids _ (ln_schema _ (co_linked _ Hc))). Qed.

Lemma consistent_catalog db cat' : consistent db → grows (db_catalog db) cat' → consistent (set_catalog cat' db).
Proof.
  intros [Hc Hg Ht Hf Hl] Hgr. pose proof (gr_extends _ _ Hgr) as He. split; [apply Hgr|done| |done|].
  - intros n t Hb. destruct (Ht n t Hb) as [Hi Hp Hn Htt Hr].
    split; [by eapply table_indexed_extends|done|done|by eapply table_typed_extends|].
    intros r Hin. eapply has_type_extends; [done|]. by apply Hr.
  - apply (linked_same_tables db); try done; [apply Hl|..]; intros n t Hb; by exists t.
Qed.

Lemma consistent_allocate db id cat : consistent db → allocate (db_catalog db) = Ok (id, cat) → consistent (set_catalog cat db).
Proof. intros Hc Ha. apply consistent_catalog; [done|]. by eapply allocate_grows; [apply Hc|apply consistent_ids|]. Qed.

(** ** Sequences and types *)

Lemma create_sequence_consistent db name start db' : consistent db → is_i64 start = true →
  create_sequence db name start = Ok db' → consistent db'.
Proof.
  intros Hc Hs Hd. unfold create_sequence in Hd. case_if_in Hd; [done|]. apply bind_Ok in Hd as ([id cat] & Ha & [= <-]).
  eapply (consistent_core (set_catalog cat db)); [done| |by eapply consistent_allocate].
  destruct (co_generation _ Hc) as [Hq Hsm]. split; [|done]. simpl. apply list.Forall_forall. rewrite list.Forall_forall in Hq.
  intros e [->|Hin]%bt_insert_elem; [simpl; by intros z [= <-]|by apply Hq].
Qed.

Lemma define_type_consistent db name ty db' : consistent db → wf_source ty = true →
  define_type db name ty = Ok db' → consistent db'.
Proof.
  intros Hc Hs Hd. unfold define_type in Hd. case_if_in Hd; [done|]. destruct (define (db_catalog db) name ty) as [r cat'] eqn:Ed.
  apply bind_Ok in Hd as ([] & -> & [= <-]).
  apply consistent_catalog; [done|]. eapply define_grows; [apply Hc|by apply consistent_ids|done..].
Qed.

(** References are no part of what the tables rely on. *)
Lemma references_consistent db defs states : consistent db → linked (set_references defs states db) → consistent (set_references defs states db).
Proof. intros [? ? Ht ? _] Hl. split; try done. intros n t Hb. destruct (Ht n t Hb). by split. Qed.

Lemma create_reference_consistent db spec db' : consistent db → create_reference db spec = Ok db' → consistent db'.
Proof.
  intros Hc Hd. assert (Hl : linked db') by (eapply create_reference_linked; [apply Hc|exact (co_table _ Hc)|apply Hc|done]).
  unfold create_reference in Hd. apply bind_Ok in Hd as (d & _ & Hd). case_if_in Hd; [done|].
  apply bind_Ok in Hd as (state & _ & Hd). apply bind_Ok in Hd as ([id cat] & Ha & [= <-]).
  apply references_consistent; [by eapply consistent_allocate|done].
Qed.

Lemma drop_reference_consistent db spec db' : consistent db → drop_reference db spec = Ok db' → consistent db'.
Proof.
  intros Hc Hd. assert (Hl : linked db') by (eapply drop_reference_linked; [apply Hc..|done]).
  unfold drop_reference in Hd. apply bind_Ok in Hd as (d & _ & Hd). apply bind_Ok in Hd as ([id ?] & _ & [= <-]).
  by apply references_consistent.
Qed.

(** ** Indexes *)

(** Two definitions that differ only in their IDs have the same keys. *)
Lemma row_key_with_id cat schema id d r : row_key cat schema (with_index_id id d) r = row_key cat schema d r.
Proof. done. Qed.

Lemma posting_of_same_keys K K' rows p : (∀ r, K r = K' r) → posting_of K rows p → posting_of K' rows p.
Proof. intros HK. apply posting_of_cong. intros r o _ <-. by rewrite HK. Qed.

(** The definition that [create_index] adds. *)
Definition new_definition (t : Table) (components : list IndexComponentDefinition) (unique : bool) (bound : option IndexPredicate)
    : IndexDefinition :=
  mkIndexDefinition 0 (tbl_id t) "" [] components (if unique then Unique else Ordinary) bound.

(** The predicate that [create_index] binds. *)
Definition bound_predicate (db : Database) (t : Table) (predicate : option BoolExpression) (bound : option IndexPredicate) : Prop :=
  match predicate with
  | Some e => ∃ p, bound = Some p ∧ predicate_bind (db_catalog db) (tbl_schema t) e = Ok p
  | None => bound = None
  end.

Lemma create_index_Ok db name t specs unique predicate db' : table db name = Ok t →
  create_index db name specs unique predicate = Ok db' →
  ∃ components bound posting id cat, let d := new_definition t components unique bound in
    (bound ≠ None → unique = true) ∧ bound_predicate db t predicate bound ∧ bt_mem (shape_key d) (indexes_of db name) = false ∧
    build_index db name d = Ok posting ∧ (unique = true → existsb (λ e, 1 <? zlen e.2) posting = false) ∧
    allocate (db_catalog db) = Ok (id, cat) ∧
    zlen specs ≠ 0 ∧
    db' = set_indexes (insert_under name (shape_key d) posting (db_indexes db))
      (set_index_definitions (insert_under name (shape_key d) (with_index_id id d) (db_index_definitions db)) (set_catalog cat db)) ∧
    index_components db t specs = Ok components.
Proof.
  intros Ht Hc. unfold create_index in Hc. apply bind_Ok in Hc as (bound & Hb & Hc). case_if_in Hc; [done|].
  rewrite Ht in Hc. apply (bind_Ok (Ok t)) in Hc as (t' & [= <-] & Hc). apply bind_Ok in Hc as (comps & Hcomps & Hc).
  change (mkIndexDefinition 0 (tbl_id t) "" [] comps (if unique then Unique else Ordinary) bound) with
    (new_definition t comps unique bound) in Hc.
  case_if_in Hc; [done|]. apply bind_Ok in Hc as (posting & Hp & Hc). case_if_in Hc; [done|].
  apply bind_Ok in Hc as ([id cat] & Ha & [= <-]). exists comps, bound, posting, id, cat. split_and!; try done.
  - destruct predicate; [|by injection Hb as <-]. by destruct unique.
  - unfold bound_predicate. destruct predicate; [|by injection Hb as <-]. destruct unique; [|done]. rewrite Ht in Hb.
    apply (bind_Ok (Ok t)) in Hb as (t' & [= <-] & Hb). apply fmap_Ok in Hb as (p & ? & ->). eauto.
  - intros ->. done.
  - intros Hz. rewrite Hz in E. done.
Qed.

Lemma indexes_of_insert_under {A} name key (x : A) m n :
  default [] (bt_get n (insert_under name key x m)) =
  if bool_decide (n = name) then bt_insert key x (default [] (bt_get name m)) else default [] (bt_get n m).
Proof.
  unfold insert_under. case_bool_decide as Hn; [subst; by rewrite bt_get_insert_eq|by rewrite bt_get_insert_ne].
Qed.

(** A new index over a table without rows, or whose primary index is defined, is unique when it must be. *)
Lemma new_index_unique db name t components unique bound posting :
  table db name = Ok t → indexed db name t → tbl_rows t = [] ∨ primary_defined db name t →
  let d := new_definition t components unique bound in
  (bound ≠ None → unique = true) → bt_mem (shape_key d) (indexes_of db name) = false →
  posting_of (row_key (db_catalog db) (tbl_schema t) d) (tbl_rows t) posting →
  (unique = true → existsb (λ e, 1 <? zlen e.2) posting = false) →
  guarded (tbl_primary_key t) d = true → unique_posting posting.
Proof.
  intros Ht Hi Hor d Hbound Hnew Hpo Huniq Hg. destruct unique.
  { apply unique_posting_singletons; [apply Hpo|auto]. }
  destruct Hor as [Hnil|Hpk].
  { intros k i j (r & Hr & _)%(posting_of_iff _ _ _ Hpo). rewrite Hnil in Hr. by apply elem_of_nil in Hr. }
  exfalso. unfold guarded in Hg. simpl in Hg. unfold bt_mem in Hnew.
  destruct (tbl_primary_key t) as [key|] eqn:Ek.
  - assert (Hs : shape_key d = key) by (apply primary_shape; [done|]; destruct bound; [by specialize (Hbound ltac:(done))|done]).
    destruct (Hpk key Ek) as (d' & Hd' & _). rewrite <-Hs in Hd'. destruct (ti_posting _ _ _ _ Hi _ _ Hd') as (p & Hp & _).
    by rewrite Hp in Hnew.
  - unfold is_primary_index in Hg. destruct (effective_components d) as [|c [|]]; try done.
    apply andb_true_iff in Hg as [_ Hg]. by apply bool_decide_eq_true in Hg.
Qed.

(** One more definition, with its index. *)
Lemma table_indexed_insert cat t defs ixs d posting id : table_indexed cat t defs ixs →
  (ix_predicate d ≠ None → ix_kind d = Unique) → posting_of (row_key cat (tbl_schema t) d) (tbl_rows t) posting →
  (guarded (tbl_primary_key t) d = true → unique_posting posting) →
  table_indexed cat t (bt_insert (shape_key d) (with_index_id id d) defs) (bt_insert (shape_key d) posting ixs).
Proof.
  intros Hi Hpred Hpo Hu. split.
  - apply Hi.
  - apply bt_insert_sorted, Hi.
  - apply bt_insert_sorted, Hi.
  - intros s d'. rewrite bt_get_insert. destruct (tcmp s (shape_key d)) eqn:E; [|apply Hi..]. apply tcmp_Eq in E as ->. by intros [= <-].
  - intros s d'. rewrite bt_get_insert. destruct (tcmp s (shape_key d)) eqn:E; [|apply Hi..]. by intros [= <-].
  - intros s. rewrite !bt_get_insert. destruct (tcmp s (shape_key d)); [done|apply Hi..].
  - intros s d'. rewrite !bt_get_insert. destruct (tcmp s (shape_key d)); [|apply Hi..]. intros [= <-]. by exists posting.
Qed.

(** The components carry the paths of their columns. *)
Lemma index_components_spec db t specs comps : index_components db t specs = Ok comps → length comps = length specs ∧
  Forall (λ c, field_path_ids (db_catalog db) (tbl_schema t) (ic_column c) = Ok (ic_field_path c)) comps.
Proof.
  unfold index_components. intros ([seen defs] & Hf & [= <-])%bind_Ok.
  assert (Hg : ∀ specs s0 d0 s1 d1, foldR (λ '(seen, definitions) c,
    if bs_mem (cs_column c) seen then Err "E_INDEX_SHAPE"
    else
      _ ← field_type (db_catalog db) (tbl_schema t) (cs_column c);
      path ← field_path_ids (db_catalog db) (tbl_schema t) (cs_column c);
      Ok (bs_insert (cs_column c) seen, definitions ++ [mkIndexComponent (cs_column c) path (cs_descending c)])) (s0, d0) specs = Ok (s1, d1) →
    Forall (λ c, field_path_ids (db_catalog db) (tbl_schema t) (ic_column c) = Ok (ic_field_path c)) d0 →
    length d1 = (length d0 + length specs)%nat ∧ Forall (λ c, field_path_ids (db_catalog db) (tbl_schema t) (ic_column c) = Ok (ic_field_path c)) d1).
  { clear. intros specs. induction specs as [|c specs IH]; intros s0 d0 s1 d1 Hf Hd; [injection Hf as <- <-; split; [simpl; lia|done]|].
    cbn [foldR] in Hf. apply bind_Ok in Hf as ([s2 d2] & Hc & Hf). case_if_in Hc; [done|]. apply bind_Ok in Hc as (ty & _ & Hc).
    apply bind_Ok in Hc as (path & Hp & [= <- <-]). destruct (IH _ _ _ _ Hf) as [-> Hd1]; [|split; [rewrite length_app; simpl; lia|done]].
    apply Forall_app. split; [done|]. by repeat constructor. }
  by destruct (Hg _ _ _ _ _ Hf ltac:(constructor)).
Qed.

(** What [create_index] leaves: one more definition with its index, over the same tables. *)
Record index_created (db : Database) (name : string) (t : Table) (d : IndexDefinition) (db' : Database) : Prop := {
  ic_indexed : indexed db' name t;
  ic_grows : grows (db_catalog db) (db_catalog db');
  ic_objects : db_objects db' = db_objects db;
  ic_sequences : db_sequences db' = db_sequences db;
  ic_sample : db_sample db' = db_sample db;
  ic_other n : n ≠ name → definitions_of db' n = definitions_of db n ∧ indexes_of db' n = indexes_of db n;
  ic_definitions : definitions_of db' name = bt_insert (shape_key d) d (definitions_of db name);
  ic_new : bt_get (shape_key d) (definitions_of db name) = None;
  ic_components : ix_components d ≠ [];
  ic_id : next_id (db_catalog db) ≤ ix_id d < next_id (db_catalog db');
  ic_paths : Forall (λ c, field_path_ids (db_catalog db) (tbl_schema t) (ic_column c) = Ok (ic_field_path c)) (ix_components d);
  ic_predicate : predicate_ok (db_catalog db) (tbl_schema t) d;
  ic_references : db_reference_definitions db' = db_reference_definitions db;
  ic_states : db_reference_states db' = db_reference_states db
}.

Definition wf_index_predicate (predicate : option BoolExpression) : Prop :=
  match predicate with Some e => wf_predicate e = true | None => True end.

Lemma bound_predicate_ok db name t predicate bound d : table db name = Ok t → schema_ok db → wf_type (TRecord (tbl_schema t)) = true →
  wf_index_predicate predicate → bound_predicate db t predicate bound → ix_predicate d = bound → predicate_ok (db_catalog db) (tbl_schema t) d.
Proof.
  intros Ht%table_Ok Hso Hw Hwp Hb Hd p Hp. rewrite Hp in Hd. subst bound. unfold bound_predicate in Hb. destruct predicate as [e|]; [|done]. destruct Hb as (p' & [= <-] & Hb).
  destruct (so_names _ Hso) as (names & Hg & Hn). eapply (predicate_bind_ok names); [done| |done|exact Hb]. split; [done|by eapply Hn].
Qed.

Lemma create_index_created db name t specs unique predicate db' :
  wf_catalog (db_catalog db) = true → ids_unique (db_catalog db) → table db name = Ok t → indexed db name t →
  tbl_rows t = [] ∨ primary_defined db name t → schema_ok db → wf_type (TRecord (tbl_schema t)) = true → wf_index_predicate predicate →
  create_index db name specs unique predicate = Ok db' →
  ∃ id components bound, bound_predicate db t predicate bound ∧ index_components db t specs = Ok components ∧
    index_created db name t (with_index_id id (new_definition t components unique bound)) db'.
Proof.
  intros Hw Hids Ht Hi Hor Hso Hwt Hwp (comps & bound & posting & id & cat & Hb & Hpn & Hnew & Hbuild & Hu & Ha & Hne & -> & Hcomps)%(create_index_Ok _ _ t); [|done].
  exists id, comps, bound. split_and!; [done..|]. set (d := new_definition t comps unique bound) in *.
  destruct (allocate_grows _ _ _ Hw Hids Ha) as (Hg & Eid & Hnext). pose proof (gr_extends _ _ Hg) as He. rewrite (build_index_eq _ _ _ _ Ht) in Hbuild.
  apply build_iff in Hbuild; [|apply Hi].
  pose proof (new_index_unique db name t comps unique bound posting Ht Hi Hor Hb Hnew Hbuild Hu) as Huniq.
  assert (Hnone : bt_get (shape_key d) (definitions_of db name) = None).
  { destruct (bt_get (shape_key d) (definitions_of db name)) as [d'|] eqn:E; [|done].
    destruct (ti_posting _ _ _ _ Hi _ _ E) as (p & Hp & _). unfold bt_mem in Hnew. by rewrite Hp in Hnew. }
  assert (Hdefs : ∀ n, definitions_of (set_indexes (insert_under name (shape_key d) posting (db_indexes db))
      (set_index_definitions (insert_under name (shape_key d) (with_index_id id d) (db_index_definitions db)) (set_catalog cat db))) n =
      if bool_decide (n = name) then bt_insert (shape_key d) (with_index_id id d) (definitions_of db name) else definitions_of db n).
  { intros n. apply indexes_of_insert_under. }
  assert (Hixs : ∀ n, indexes_of (set_indexes (insert_under name (shape_key d) posting (db_indexes db))
      (set_index_definitions (insert_under name (shape_key d) (with_index_id id d) (db_index_definitions db)) (set_catalog cat db))) n =
      if bool_decide (n = name) then bt_insert (shape_key d) posting (indexes_of db name) else indexes_of db n).
  { intros n. apply indexes_of_insert_under. }
  split; try done.
  - unfold indexed. rewrite Hdefs, Hixs, bool_decide_true by done. apply (table_indexed_extends (db_catalog db)); [done|].
    apply table_indexed_insert; try done. simpl. intros Hbn. by rewrite (Hb Hbn).
  - intros n Hn. by rewrite Hdefs, Hixs, !bool_decide_false.
  - by rewrite Hdefs, bool_decide_true.
  - destruct (index_components_spec _ _ _ _ Hcomps) as [Hlen _]. simpl. intros ->. apply Hne. unfold zlen. by rewrite <-Hlen.
  - simpl. lia.
  - by destruct (index_components_spec _ _ _ _ Hcomps).
  - by eapply bound_predicate_ok.
Qed.

(** A new index leaves the references as they were. *)
Lemma index_created_linked db name t d db' : linked db → table db name = Ok t → index_created db name t d db' → linked db'.
Proof.
  intros Hl Ht%table_Ok [_ ? ? _ _ Hother ? ? ? ? ? ? ? ?]. eapply (linked_index db); try done. intros n Hn. by destruct (Hother n Hn).
Qed.

Lemma create_index_consistent db name specs unique predicate db' : consistent db → wf_index_predicate predicate →
  create_index db name specs unique predicate = Ok db' → consistent db'.
Proof.
  intros Hc Hwp Hd. assert (Ht : ∃ t, table db name = Ok t).
  { unfold create_index in Hd. apply bind_Ok in Hd as (b & _ & Hd). case_if_in Hd; [done|]. apply bind_Ok in Hd as (t & Ht & _). by exists t. }
  destruct Ht as [t Ht]. destruct (consistent_lookup _ _ _ Hc Ht) as [Hi Hpk Hn Htt Hr].
  destruct (create_index_created _ _ _ _ _ _ _ (co_catalog _ Hc) (consistent_ids _ Hc) Ht Hi (or_intror Hpk) (ln_schema _ (co_linked _ Hc)) (tt_schema _ _ Htt) Hwp Hd) as (id & comps & bound & _ & _ & Hcr).
  pose proof (index_created_linked _ _ _ _ _ (co_linked _ Hc) Ht Hcr) as Hl.
  destruct Hcr as [Hix Hg Eo Eq Es Hother Hdefs Hnew _ _ _ _ _]. pose proof (gr_extends _ _ Hg) as He.
  split; [apply Hg|split; [rewrite Eq; apply (co_generation _ Hc)|rewrite Es; apply (co_generation _ Hc)]| | |done].
  - intros n t'. rewrite Eo. intros Hb. destruct (decide (n = name)) as [->|Hne].
    + apply table_Ok in Ht. assert (t' = t) as -> by congruence. split; [done| |done|by eapply table_typed_extends|].
      * intros key Hkey. destruct (Hpk key Hkey) as (d & Hd' & Hp). exists d. split; [|done]. rewrite Hdefs, bt_get_insert_ne; [done|].
        intros ->. by rewrite Hnew in Hd'.
      * intros r Hin. eapply has_type_extends; [done|]. by apply Hr.
    + destruct (Hother n Hne) as [Ed Ei]. destruct (co_table _ Hc n t' Hb) as [Hi' Hpk' Hn' Htt' Hr']. unfold indexed in *.
      split; [unfold indexed; rewrite Ed, Ei; by eapply table_indexed_extends|unfold primary_defined; by rewrite Ed|done| |].
      * by eapply table_typed_extends.
      * intros r Hin. eapply has_type_extends; [done|]. by apply Hr'.
  - intros n. rewrite Eo. intros Hb. destruct (decide (n = name)) as [->|Hne].
    + apply table_Ok in Ht. congruence.
    + destruct (Hother n Hne) as [-> ->]. by apply (co_free _ Hc).
Qed.

(** ** Tables *)

(** A table without rows and indexes. *)
Lemma empty_indexed cat t : tbl_rows t = [] → table_indexed cat t [] [].
Proof. intros Hr. split; rewrite ?Hr; try done. constructor. Qed.

(** The single component of the primary index. *)
Lemma index_components_single db t key comps : index_components db t [mkComponentSpec key false] = Ok comps →
  ∃ path, comps = [mkIndexComponent key path false].
Proof.
  unfold index_components. simpl. intros ([seen defs] & Hf & [= <-])%bind_Ok. apply bind_Ok in Hf as ([s1 d1] & Hf & [= <- <-]).
  apply bind_Ok in Hf as (ty & _ & Hf). apply bind_Ok in Hf as (path & _ & [= <- <-]). by exists path.
Qed.

(** A table that is added under a free name. *)
Lemma consistent_add db name t db' : consistent db → bt_get name (db_objects db) = None →
  extends (db_catalog db) (db_catalog db') → wf_catalog (db_catalog db') = true →
  db_objects db' = bt_insert name t (db_objects db) → db_sequences db' = db_sequences db → db_sample db' = db_sample db →
  (∀ n, n ≠ name → definitions_of db' n = definitions_of db n ∧ indexes_of db' n = indexes_of db n) →
  table_ok db' name t → linked db' → consistent db'.
Proof.
  intros Hc Hfree He Hw Eo Eq Es Hother Hok Hl.
  split; [done|split; [rewrite Eq; apply (co_generation _ Hc)|rewrite Es; apply (co_generation _ Hc)]| | |done].
  - intros n t'. rewrite Eo, bt_get_insert. destruct (tcmp n name) eqn:E; [apply tcmp_Eq in E as ->; by intros [= <-]|..];
      (assert (Hne : n ≠ name) by (intros ->; by rewrite tcmp_refl in E)); intros Hb; destruct (Hother n Hne) as [Ed Ei];
      destruct (co_table _ Hc n t' Hb) as [Hi' Hpk' Hn' Htt' Hr'];
      (split; [unfold indexed; rewrite Ed, Ei; by eapply table_indexed_extends|unfold primary_defined; by rewrite Ed|done|by eapply table_typed_extends|]);
      intros r Hin; (eapply has_type_extends; [done|]); by apply Hr'.
  - intros n. rewrite Eo, bt_get_insert. destruct (tcmp n name) eqn:E; [done|..];
      (assert (Hne : n ≠ name) by (intros ->; by rewrite tcmp_refl in E)); intros Hb; destruct (Hother n Hne) as [-> ->];
      by apply (co_free _ Hc).
Qed.

Lemma create_table_consistent db name columns row_type key db' : consistent db →
  wf_type (TRecord columns) = true →
  wf_type match row_type with Some id => TRef id | None => TRecord columns end = true →
  (∃ n, underlying_loop n (db_catalog db) match row_type with Some id => TRef id | None => TRecord columns end = Ok (TRecord columns)) →
  ids_below (next_id (db_catalog db)) (TRecord columns) →
  (∃ names, good_catalog names (db_catalog db) ∧ variants_named names (TRecord columns) = true ∧
    ∀ n u, bt_get n (db_objects db) = Some u → variants_named names (TRecord (tbl_schema u)) = true) →
  create_table db name columns row_type key = Ok db' → consistent db'.
Proof.
  intros Hc Hcols Hrt Hund Hbelow (names & Hnames) Hd. unfold create_table in Hd. case_if_in Hd; [done|]. case_if_in Hd; [done|].
  apply bind_Ok in Hd as ([] & Hkey & Hd). apply bind_Ok in Hd as ([id cat] & Ha & Hd).
  destruct (allocate_grows _ _ _ (co_catalog _ Hc) (consistent_ids _ Hc) Ha) as (Hg & Hid & Hnext).
  pose proof (gr_wf _ _ Hg) as Hw. pose proof (gr_extends _ _ Hg) as He. destruct (allocate_wf _ _ _ (co_catalog _ Hc) Ha) as (_ & _ & Et).
  set (t := mkTable id name columns [] 0 row_type key []) in *. set (db1 := set_table name t (set_catalog cat db)) in *.
  assert (Hfree : bt_get name (db_objects db) = None) by (unfold bt_mem in E; by destruct (bt_get name (db_objects db))).
  destruct (co_free _ Hc name Hfree) as [Hdn Hin].
  assert (Hix : indexed db1 name t).
  { unfold indexed. replace (definitions_of db1 name) with (definitions_of db name) by done.
    replace (indexes_of db1 name) with (indexes_of db name) by done. rewrite Hdn, Hin. by apply empty_indexed. }
  assert (Htt : table_typed cat t).
  { apply (table_typed_extends (db_catalog db)); [done|]. split; [done|done|done|]. simpl. intros k ->.
    apply bind_Ok in Hkey as (ty & Hty & Hkey). apply bind_Ok in Hkey as (u & Hu & Hkey). exists ty, u. split_and!; try done. by destruct u. }
  assert (Hl1 : linked db1).
  { apply (linked_add db _ name t); try done; [apply Hc|simpl; lia|eapply ids_below_le; [|done]; apply Hg|].
    exists names. destruct Hnames as ([_ Hn] & ? & ?). split_and!; [split; [done|cbn; by rewrite Et]|done..]. }
  destruct key as [key|].
  - assert (Ht : table db1 name = Ok t) by (apply table_Ok, bt_get_insert_eq).
    destruct (create_index_created db1 name t _ _ None _ Hw (gr_ids _ _ Hg) Ht Hix (or_introl eq_refl) (ln_schema _ Hl1) (tt_schema _ _ Htt) I Hd)
      as (iid & comps & bound & -> & (path & ->)%index_components_single & Hcr).
    pose proof (index_created_linked _ _ _ _ _ Hl1 Ht Hcr) as Hl. destruct Hcr as [Hi' Hg' Eo Eq Es Hother Hdefs _ _ _ _ _ _ _].
    pose proof (gr_extends _ _ Hg') as He'. apply (consistent_add db name t); try done; [by etrans|apply Hg'|]. split.
    + done.
    + intros k [= <-]. rewrite Hdefs. replace (definitions_of db1 name) with (definitions_of db name) by done. rewrite Hdn.
      match goal with |- context [bt_insert (shape_key ?x) ?x []] => set (d := x) end.
      assert (Hprim : is_primary_index d (Some key) = true) by (unfold is_primary_index; simpl; by rewrite bool_decide_true).
      exists d. split; [|done]. pose proof (primary_shape d key Hprim eq_refl) as Hsh. clearbody d. rewrite Hsh. apply bt_get_insert_eq.
    + split; [done|]. by intros r ?%elem_of_nil.
    + by eapply table_typed_extends.
    + by intros r ?%elem_of_nil.
  - injection Hd as <-. apply (consistent_add db name t); try done. split; try done.
    + split; [done|]. by intros r ?%elem_of_nil.
    + by intros r ?%elem_of_nil.
Qed.

Lemma create_plain_table_consistent db name columns db' : consistent db → wf_source (TRecord columns) = true →
  create_plain_table db name columns = Ok db' → consistent db'.
Proof.
  intros Hc Hs Hd. unfold create_plain_table in Hd. apply bind_Ok in Hd as ([ty cat] & Hr & Hd).
  destruct (resolve_wf _ _ _ _ _ (co_catalog _ Hc) Hs Hr) as (Hty & _).
  destruct (resolve_grows _ _ _ _ _ (co_catalog _ Hc) (consistent_ids _ Hc) Hs Hr) as (Hg & Hb & Hn). destruct ty; try discriminate Hd.
  apply (create_table_consistent (set_catalog cat db) name columns0 None None); try done; [by apply consistent_catalog|by exists 1%nat|].
  pose proof (ln_schema _ (co_linked _ Hc)) as Hso. destruct (so_names _ Hso) as (names & Hgc & Hnames).
  destruct (Hn names Hgc) as (names' & Hgc' & Hv & Hk). exists names'. split_and!; [done..|]. intros n u Hu.
  apply Hk; [by apply (proj2 (so_ids _ Hso) n)|by eapply Hnames].
Qed.

(** Setting the generators of a table. *)
Definition with_defaults (g : list (Z * BoundGeneratedDefault)) (t : Table) : Table :=
  mkTable (tbl_id t) (tbl_name t) (tbl_schema t) (tbl_rows t) (tbl_next_row_id t) (tbl_row_type t) (tbl_primary_key t) g.

Lemma consistent_defaults db name t g : consistent db → bt_get name (db_objects db) = Some t →
  consistent (set_table name (with_defaults g t) db).
Proof.
  intros Hc Ht. destruct (co_table _ Hc name t Ht) as [Hi Hp Hn [? ? ? ?] Hr]. split; try apply Hc.
  - intros n t'. cbn [set_table set_objects db_objects]. rewrite bt_get_insert. destruct (tcmp n name) eqn:E.
    + apply tcmp_Eq in E as ->. intros [= <-]. split; [by destruct Hi|done|done|done|done].
    + intros Hb. by destruct (co_table _ Hc n t' Hb).
    + intros Hb. by destruct (co_table _ Hc n t' Hb).
  - intros n. cbn [set_table set_objects db_objects]. rewrite bt_get_insert. destruct (tcmp n name); [done|apply (co_free _ Hc)..].
  - pose proof (ln_schema _ (co_linked _ Hc)) as Hso. apply (linked_same_tables db); try done.
    + apply Hc.
    + change (grows (db_catalog db) (db_catalog db)). apply grows_refl; [done|apply Hc].
    + apply bt_insert_sorted, Hso.
    + intros n t'. cbn [set_table set_objects db_objects]. destruct (decide (n = name)) as [->|Hne].
      * rewrite bt_get_insert_eq. intros [= <-]. by exists t.
      * rewrite bt_get_insert_ne by done. by exists t'.
    + intros n t'. cbn [set_table set_objects db_objects]. destruct (decide (n = name)) as [->|Hne].
      * intros Ht'. rewrite bt_get_insert_eq. exists (with_defaults g t). split; [done|]. by assert (t' = t) as -> by congruence.
      * rewrite bt_get_insert_ne by done. by exists t'.
Qed.

Lemma create_typed_table_consistent db name row_type key defaults db' : consistent db →
  create_typed_table db name row_type key defaults = Ok db' → consistent db'.
Proof.
  intros Hc Hd. unfold create_typed_table in Hd. apply bind_Ok in Hd as (def & Hdef%ok_or_Ok & Hd).
  apply bind_Ok in Hd as (ty & Hty & Hd). destruct ty; try discriminate Hd. apply bind_Ok in Hd as (g & _ & Hd).
  apply bind_Ok in Hd as (db1 & Hct & Hd). apply bind_Ok in Hd as (t & Ht%ok_or_Ok & [= <-]).
  apply (consistent_defaults db1); [|done]. apply bt_get_elem in Hdef.
  pose proof (definition_elem _ _ _ (co_catalog _ Hc) Hdef) as Hd.
  destruct (definition_wf _ _ _ (co_catalog _ Hc) Hd) as (Hw & Hu & _).
  eapply (create_table_consistent db name columns (Some (def_id def)) key); try done.
  - unfold underlying in Hty. by eapply underlying_wf; [apply (co_catalog _ Hc)| |exact Hty].
  - unfold underlying in Hty. exists (S MAX_DEPTH). cbn [underlying_loop]. rewrite Hd. exact Hty.
  - unfold underlying in Hty. eapply underlying_ids_below; [apply Hc|by apply consistent_ids| |exact Hty].
    exact (definition_ids_below _ (_, def) (consistent_ids _ Hc) Hdef).
  - destruct (so_names _ (ln_schema _ (co_linked _ Hc))) as (names & Hgc & Hnames). exists names. split_and!; [done| |done].
    unfold underlying in Hty. eapply (good_underlying names); [done| |exact Hty]. split; [done|].
    destruct Hgc as [_ Hf]. rewrite list.Forall_forall in Hf. exact (Hf _ Hdef).
Qed.

(** ** Statements *)

(** What the front end guarantees of a statement: values of the Rust types, resolved
    sources, and an update or delete that selects a row at most once (which the selection
    of its target ensures: [mutation_targets_distinct] of TargetLaws.v). *)
Definition wf_statement (s : Statement) : Prop :=
  match s with
  | CreateSequence _ start => is_i64 start = true
  | DefineType _ ty => wf_source ty = true
  | CreateTable _ columns => wf_source (TRecord columns) = true
  | Insert _ v | InsertMany _ v | Upsert _ v | UpsertMany _ v => wf_value v = true
  | Update _ targets assignments => NoDup targets ∧ Forall wf_assignment assignments
  | Delete _ targets => NoDup targets
  | CreateIndex _ _ _ predicate => wf_index_predicate predicate
  | _ => True
  end.

Lemma execute_statement_consistent clock entropy db s db' : entropy_ok entropy → consistent db → wf_statement s →
  execute_statement clock entropy db s = Ok db' → consistent db'.
Proof.
  intros He Hc Hw Hx. destruct s; cbn [execute_statement wf_statement] in *.
  - by eapply create_sequence_consistent.
  - by eapply define_type_consistent.
  - by eapply create_plain_table_consistent.
  - by eapply create_typed_table_consistent.
  - by eapply create_reference_consistent.
  - by eapply drop_reference_consistent.
  - by eapply create_index_consistent.
  - by eapply insert_consistent.
  - by eapply insert_many_consistent.
  - apply fmap_Ok in Hx as ([db1 a] & Hx & ->). by eapply upsert_consistent.
  - apply fmap_Ok in Hx as ([db1 a] & Hx & ->). by eapply upsert_many_consistent.
  - destruct Hw. by eapply update_consistent.
  - by eapply delete_rows_consistent.
Qed.

Lemma begin_generation_consistent db : consistent db → consistent (begin_generation_request db).
Proof.
  intros Hc. apply (consistent_core db); [done| |done]. destruct (co_generation _ Hc) as [Hq _]. split; [done|]. by intros t [=].
Qed.

Lemma execute_consistent clock entropy db s : entropy_ok entropy → consistent db → wf_statement s →
  consistent (execute clock entropy db s).2.
Proof.
  intros He Hc Hw. unfold execute. destruct (execute_statement clock entropy _ s) as [db'|e] eqn:E; [|done].
  by eapply execute_statement_consistent; [done|by apply begin_generation_consistent|..].
Qed.

Lemma default_linked : linked default_database.
Proof.
  split; try done; [|by intros i ?%elem_of_nil]. split; try done.
  - by split; [split; constructor|].
  - exists (λ _, EmptyString). split; [by split; [|constructor]|done].
Qed.

Lemma default_consistent : consistent default_database.
Proof. split; try done. exact default_linked. Qed.

(** A statement runs at some time, with the operating system's entropy. *)
Inductive step : Database → Database → Prop :=
  | step_execute clock entropy db s : entropy_ok entropy → wf_statement s → step db (execute clock entropy db s).2.

Lemma reachable_consistent db : rtc step default_database db → consistent db.
Proof.
  intros Hr. assert (Hgen : ∀ a b, rtc step a b → consistent a → consistent b).
  { induction 1 as [|a b c [clock entropy a' s He Hw] _ IH]; [done|]. intros Hc. by apply IH, execute_consistent. }
  by eapply Hgen, default_consistent.
Qed.

(** ** Properties *)

Lemma consistent_indexes_exact db name t shape d : consistent db → table db name = Ok t → bt_get shape (definitions_of db name) = Some d →
  ∃ p, bt_get shape (indexes_of db name) = Some p ∧ build_index db name d = Ok p ∧
    (guarded (tbl_primary_key t) d = true → ∀ key i j, i ∈ ids_at p key → j ∈ ids_at p key → i = j).
Proof.
  intros Hc Ht Hd. destruct (consistent_lookup _ _ _ Hc Ht) as [Hi _ _ _ _].
  destruct (ti_posting _ _ _ _ Hi shape d Hd) as (p & Hp & Hpo & Hu). exists p. split_and!; [done| |done].
  rewrite (build_index_eq _ _ _ _ Ht). apply build_iff; [apply Hi|done].
Qed.

Lemma consistent_references_hold db id d : consistent db → bt_get id (db_reference_definitions db) = Some d →
  ∃ source target ts tg, (table db source = Ok ts ∧ tbl_id ts = rd_table_id d) ∧ (table db target = Ok tg ∧ tbl_id tg = rd_target_table_id d) ∧
    ∀ r, r ∈ tbl_rows ts → reference_values (rd_components d) (row_fields r) true = Ok None ∨
      ∃ vs r', reference_values (rd_components d) (row_fields r) true = Ok (Some vs) ∧
        r' ∈ tbl_rows tg ∧ reference_values (rd_components d) (row_fields r') false = Ok (Some vs).
Proof.
  intros Hc Hd. destruct (ln_reference _ (co_linked _ Hc) id d Hd) as (ns & nt & s & ts & tg & ix & p & Hok).
  destruct Hok as [_ [Hts Hsid] [Htg Htid] _ _ _ _ Hpo Hsat]. exists ns, nt, ts, tg. rewrite !table_Ok. split_and!; try done.
  intros r Hin. pose proof (posting_of_keyed _ _ _ Hpo r Hin) as Hk. unfold key_of in Hk.
  destruct (reference_values (rd_components d) (row_fields r) true) as [[vs|]|] eqn:E; [right|by left|done].
  destruct (Hsat r vs Hin E) as (r' & Hr' & Hv). by exists vs, r'.
Qed.

(** C4: in every database that statements can reach, the index of each definition is the
    one that building it from the table's rows gives, and it has at most one row per key
    when it is unique or the primary key's: no sequence of inserts, upserts, deletes and
    schema changes, whichever of them fail, lets an index drift from its table. *)
Theorem reachable_indexes_exact db name t shape d :
  rtc step default_database db → table db name = Ok t → bt_get shape (definitions_of db name) = Some d →
  ∃ p, bt_get shape (indexes_of db name) = Some p ∧ build_index db name d = Ok p ∧
    (guarded (tbl_primary_key t) d = true → ∀ key i j, i ∈ ids_at p key → j ∈ ids_at p key → i = j).
Proof. intros Hr. apply consistent_indexes_exact. by apply reachable_consistent. Qed.

(** C8: in every database that statements can reach, a stored row is a canonical value of
    the table's declared columns, its row ID was allocated before [next_row_id], and the
    rows of a table are in ascending order of distinct row IDs. *)
Theorem reachable_rows_typed db name t :
  rtc step default_database db → table db name = Ok t →
  StronglySorted Z.lt (row_id <$> tbl_rows t) ∧
  ∀ r, r ∈ tbl_rows t → 0 ≤ row_id r < tbl_next_row_id t ∧
    ∃ fuel, conforms fuel (db_catalog db) (TRecord (tbl_schema t)) (VRecord (row_fields r)) = true.
Proof.
  intros Hr Ht. destruct (consistent_lookup _ _ _ (reachable_consistent _ Hr) Ht) as [Hi _ [_ Hn] _ Hty].
  split; [apply Hi|]. intros r Hin. split; [by apply Hn|]. apply (Hty r Hin).
Qed.

(** C5: referential integrity.  In every database that statements can reach, each reference
    is between two tables that are there, and every row of its source table either has an
    absent optional component, so that it refers to nothing, or refers to values that some
    row of the target table has: no insert, upsert, delete or schema statement, in any
    order and whichever of them fail, leaves a dangling reference. *)
Theorem reachable_references_hold db id d :
  rtc step default_database db → bt_get id (db_reference_definitions db) = Some d →
  ∃ source target ts tg, (table db source = Ok ts ∧ tbl_id ts = rd_table_id d) ∧ (table db target = Ok tg ∧ tbl_id tg = rd_target_table_id d) ∧
    ∀ r, r ∈ tbl_rows ts → reference_values (rd_components d) (row_fields r) true = Ok None ∨
      ∃ vs r', reference_values (rd_components d) (row_fields r) true = Ok (Some vs) ∧
        r' ∈ tbl_rows tg ∧ reference_values (rd_components d) (row_fields r') false = Ok (Some vs).
Proof. intros Hr. apply consistent_references_hold. by apply reachable_consistent. Qed.

(** The key of a row under the primary index depends on its primary-key field only. *)
Lemma primary_key_of_row cat schema d key r1 r2 k : is_primary_index d (Some key) = true → ix_predicate d = None →
  row_field (row_fields r1) key = row_field (row_fields r2) key →
  row_key cat schema d r1 = Ok (Some k) → row_key cat schema d r2 = Ok (Some k).
Proof.
  intros Hp Hn Heq Hk. unfold row_key, includes in *. rewrite Hn in *. apply fmap_Ok in Hk as (k' & Hk & [= <-]).
  enough (tuple_key cat schema (effective_components d) (row_fields r2) = tuple_key cat schema (effective_components d) (row_fields r1))
    as -> by (by rewrite Hk). unfold is_primary_index in Hp.
  destruct (effective_components d) as [|c [|]]; try done. apply andb_true_iff in Hp as [_ [= ->]%bool_decide_eq_true].
  unfold tuple_key. assert (index_values (row_fields r2) [c] = index_values (row_fields r1) [c]) as ->; [|done].
  unfold index_values, index_component_value. cbn [mapR]. by rewrite Heq.
Qed.

Lemma consistent_primary_unique db name t key r1 r2 : consistent db → table db name = Ok t → tbl_primary_key t = Some key →
  r1 ∈ tbl_rows t → r2 ∈ tbl_rows t → row_field (row_fields r1) key = row_field (row_fields r2) key → r1 = r2.
Proof.
  intros Hc Ht Hk H1' H2' Heq. destruct (consistent_lookup _ _ _ Hc Ht) as [Hi Hp _ _ _].
  destruct (Hp key Hk) as (d & Hd & Hprim). destruct (ti_posting _ _ _ _ Hi key d Hd) as (p & _ & Hpo & Hu).
  pose proof (primary_total d key Hprim (ti_shape _ _ _ _ Hi _ _ Hd)) as Hnp.
  assert (Hg : guarded (tbl_primary_key t) d = true) by (unfold guarded; rewrite Hk, Hprim; apply orb_true_r).
  apply (ascending_row_inj (tbl_rows t)); [apply Hi|done..|].
  assert (Hk1 : ∃ k, row_key (db_catalog db) (tbl_schema t) d r1 = Ok (Some k)).
  { pose proof (posting_of_keyed _ _ _ Hpo r1 H1') as Hok. unfold row_key, includes in *. rewrite Hnp in *.
    destruct (tuple_key _ _ _ _) as [k|]; [by exists k|done]. }
  destruct Hk1 as [k Hk1]. pose proof (primary_key_of_row _ _ _ _ _ _ _ Hprim Hnp Heq Hk1) as Hk2.
  apply (Hu Hg k); apply (posting_of_iff _ _ _ Hpo); eauto.
Qed.

(** C7: in every database that statements can reach, two rows of a table that agree on its
    primary key are the same row. *)
Theorem reachable_primary_keys_unique db name t key r1 r2 :
  rtc step default_database db → table db name = Ok t → tbl_primary_key t = Some key →
  r1 ∈ tbl_rows t → r2 ∈ tbl_rows t → row_field (row_fields r1) key = row_field (row_fields r2) key → r1 = r2.
Proof. intros Hr. apply consistent_primary_unique. by apply reachable_consistent. Qed.

(** C9: the index maintenance of one statement is atomic: with changes that lead from the
    table's rows to [rows'], all of whose keys exist, it fails with [E_CONSTRAINT] exactly
    when two of the new rows have one key under an index that must be unique, whatever the
    order of the changes (two rows may swap their keys), and otherwise gives for every
    definition the index that building it from [rows'] gives. *)
Theorem candidate_indexes_exact db name t cs rows' :
  rtc step default_database db → table db name = Ok t → leads (tbl_rows t) cs rows' → rows_keyed db name t rows' →
  (collision db name t rows' ∧ candidate_indexes db name t cs = Err "E_CONSTRAINT") ∨
  (¬ collision db name t rows' ∧ ∃ ixs, candidate_indexes db name t cs = Ok ixs ∧
     ∀ shape d, bt_get shape (definitions_of db name) = Some d → ∃ p, bt_get shape ixs = Some p ∧
       build (row_key (db_catalog db) (tbl_schema t) d) rows' = Ok p).
Proof.
  intros Hr Ht Hl Hk. destruct (consistent_lookup _ _ _ (reachable_consistent _ Hr) Ht) as [Hi _ _ _ _].
  destruct (candidate_indexes_cases db name t cs rows' Ht Hi Hl Hk) as [(ixs & Hc & Ha)|[Hc Hcol]]; [right|by left].
  split; [by eapply indexed_after_unique|]. exists ixs. split; [done|]. intros shape d Hd.
  destruct Ha as (_ & _ & Ha). destruct (Ha shape d Hd) as (p & Hp & Hpo & _). exists p. split; [done|].
  apply build_iff; [apply Hl|done].
Qed.
End invariant.

(** ** An example *)

Definition example_text : TextLib :=
  {| to_lowercase s := s; to_uppercase s := s; trim s := s; float_debug _ := ""%string |}.
Definition example_predicates : PredicateText :=
  {| atom_payload_key _ := []; predicate_digest _ := ""%string |}.
Definition example_base64 : Base64 := {| base64_encode b := b |}.

Definition no_entropy : nat → option (list Z) := λ _, None.

Definition user (id : Z) (name : string) : Value := VRecord [("id", VInt id); ("name", VText name)]%string.

Definition user_type : ScalarType := TRecord [Column "id" TInt None 0; Column "name" TText None 0]%string.

Definition example_script : list Statement :=
  [ DefineType "User" user_type;
    TypedTable "users" "User" (Some "id"%string) [];
    CreateIndex "users" [mkComponentSpec "name" false] true None;
    InsertMany "users" (VList [user 7 "ann"; user 3 "bob"]);
    Insert "users" (user 7 "cat") ].

#[local] Existing Instances example_text example_predicates example_base64.

Definition run (db : Database) (s : Statement) : Database := (execute 0 no_entropy db s).2.
Definition example_database : Database := foldl run default_database example_script.

Lemma run_reachable l db : Forall wf_statement l → rtc step db (foldl run db l).
Proof.
  revert db. induction l as [|s l IH]; intros db Hl; simpl; [done|]. apply list.Forall_cons in Hl as [Hs Hl].
  eapply rtc_l; [|by apply IH]. by apply step_execute.
Qed.

Lemma example_reachable : rtc step default_database example_database.
Proof. apply run_reachable. repeat constructor. Qed.

Definition example_users : Table := Eval vm_compute in
  match table example_database "users" with Ok t => t | Err _ => mkTable 0 "" [] [] 0 None None [] end.
Definition example_names : IndexDefinition :=
  mkIndexDefinition 6 4 "" [] [mkIndexComponent "name" [2] false] Unique None.

Lemma example_users_eq : table example_database "users" = Ok example_users.
Proof. vm_compute. reflexivity. Qed.

Lemma reachable_indexes_exact_witness : ∃ p, bt_get "name"%string (indexes_of example_database "users") = Some p ∧
  build_index example_database "users" example_names = Ok p ∧
  (guarded (tbl_primary_key example_users) example_names = true → ∀ key i j, i ∈ ids_at p key → j ∈ ids_at p key → i = j).
Proof.
  apply (reachable_indexes_exact example_database "users" example_users "name" example_names example_reachable example_users_eq).
  vm_compute. reflexivity.
Defined.

Lemma reachable_rows_typed_witness : StronglySorted Z.lt (row_id <$> tbl_rows example_users).
Proof. exact (proj1 (reachable_rows_typed example_database "users" example_users example_reachable example_users_eq)). Defined.

Definition example_row (id : Z) (n : Z) (name : string) : Row := mkRow n [("id", VInt id); ("name", VText name)]%string.

Lemma reachable_primary_keys_unique_witness : example_row 3 1 "bob" = example_row 3 1 "bob".
Proof.
  apply (reachable_primary_keys_unique example_database "users" example_users "id" (example_row 3 1 "bob") (example_row 3 1 "bob")
    example_reachable example_users_eq eq_refl); [right; left|right; left|reflexivity].
Defined.

(** The two rows swap their unique names. *)
Definition example_swap : list RowChange :=
  [updated (example_row 7 0 "ann") (example_row 7 0 "bob"); updated (example_row 3 1 "bob") (example_row 3 1 "ann")].
Definition example_swapped : list Row := [example_row 7 0 "bob"; example_row 3 1 "ann"].

Lemma example_swap_leads : leads (tbl_rows example_users) example_swap example_swapped.
Proof.
  apply (leads_snoc _ [updated (example_row 7 0 "ann") (example_row 7 0 "bob")] [example_row 7 0 "bob"; example_row 3 1 "bob"]).
  - apply (leads_update (tbl_rows example_users) 0); [repeat constructor|done|done].
  - apply (leads_update [example_row 7 0 "bob"; example_row 3 1 "bob"] 1); [repeat constructor|done|done].
  - cbn. set_solver.
Qed.

Lemma candidate_indexes_exact_witness :
  (collision example_database "users" example_users example_swapped ∧
     candidate_indexes example_database "users" example_users example_swap = Err "E_CONSTRAINT") ∨
  (¬ collision example_database "users" example_users example_swapped ∧
     ∃ ixs, candidate_indexes example_database "users" example_users example_swap = Ok ixs ∧
     ∀ shape d, bt_get shape (definitions_of example_database "users") = Some d → ∃ p, bt_get shape ixs = Some p ∧
       build (row_key (db_catalog example_database) (tbl_schema example_users) d) example_swapped = Ok p).
Proof.
  apply (candidate_indexes_exact example_database "users" example_users example_swap example_swapped example_reachable
    example_users_eq example_swap_leads).
  apply (checks_keyed example_database "users" example_users example_swap example_swapped example_users_eq
    (to_indexed _ _ _ (consistent_lookup _ _ _ (reachable_consistent _ example_reachable) example_users_eq)) example_swap_leads).
  vm_compute. reflexivity.
Defined.

(** Posts refer to their authors: the second post and the deletion of the first user are refused. *)
Definition post (id : Z) (author : Z) : Value := VRecord [("author", VInt author); ("id", VInt id)]%string.

Definition post_type : ScalarType := TRecord [Column "id" TInt None 0; Column "author" TInt None 0]%string.

Definition reference_script : list Statement :=
  [ DefineType "Post" post_type;
    TypedTable "posts" "Post" (Some "id"%string) [];
    CreateReference (mkReferenceSpec "posts" ["author"] "users" ["id"])%string;
    Insert "posts" (post 1 7);
    Insert "posts" (post 2 99);
    Delete "users" [0] ].

Definition reference_database : Database := foldl run example_database reference_script.

Lemma reference_reachable : rtc step default_database reference_database.
Proof.
  etrans; [apply example_reachable|]. apply run_reachable. constructor; [by vm_compute|]. constructor; [exact I|]. constructor; [exact I|].
  constructor; [by vm_compute|]. constructor; [by vm_compute|]. constructor; [apply NoDup_singleton|constructor].
Qed.

Definition example_reference : Z * ReferenceDefinition := Eval vm_compute in
  match db_reference_definitions reference_database with e :: _ => e | [] => (0, mkReferenceDefinition 0 0 0 PrimaryKey []) end.

Example reference_rows : (length ∘ tbl_rows) <$> table reference_database "posts" = Ok 1%nat ∧
  (length ∘ tbl_rows) <$> table reference_database "users" = Ok 2%nat.
Proof. vm_compute. done. Qed.

Lemma reachable_references_hold_witness : ∃ source target ts tg,
  (table reference_database source = Ok ts ∧ tbl_id ts = rd_table_id example_reference.2) ∧
  (table reference_database target = Ok tg ∧ tbl_id tg = rd_target_table_id example_reference.2) ∧
    ∀ r, r ∈ tbl_rows ts → reference_values (rd_components example_reference.2) (row_fields r) true = Ok None ∨
      ∃ vs r', reference_values (rd_components example_reference.2) (row_fields r) true = Ok (Some vs) ∧
        r' ∈ tbl_rows tg ∧ reference_values (rd_components example_reference.2) (row_fields r') false = Ok (Some vs).
Proof.
  apply (reachable_references_hold reference_database example_reference.1 example_reference.2 reference_reachable).
  vm_compute. reflexivity.
Defined.
