(* ===== verification/Effects.v ===== *)
(** * Effects of statements

    What single operations of src/src/db.rs and src/src/db/generated.rs do, as seen from
    outside: the pending write set is the net difference of the rows, an index scan reads
    exactly the rows whose keys are in range in key order, an upsert replaces the row with
    its primary key or adds one, a sequence counts without repeating. *)
From stdpp Require Import gmap sorting.
From S2P Require Import Prelude Bytes Text Decimal Temporal Float64 Scalars BTree Model Coerce OrderedKey Codec Matching Coverage Catalog Schema Expression Typing IndexPredicate Database Postings Rows Tables References Mutations Updates Links Invariant.

#[local] Strategy 1000 [MAX_DEPTH underlying field_type coerce fill_generated].

(** ** Pending writes *)

(** The rows of all tables, by table name and row ID. *)
Notation Store := (gmap (string * Z) Row).

(** [h] leads from one store to another: every change has the current row as its old image. *)
Inductive history : Store → list (string * RowChange) → Store → Prop :=
  | history_nil σ : history σ [] σ
  | history_cons σ name c h σ' :
      before c = σ !! (name, change_id c) → (before c ≠ None ∨ after c ≠ None) →
      history (match after c with Some r => <[(name, change_id c) := r]> σ | None => delete (name, change_id c) σ end) h σ' →
      history σ ((name, c) :: h) σ'.

(** The recorded changes are the difference between two stores. *)
Definition net (σ0 σ : Store) (ws : gmap (string * Z) RowChange) : Prop :=
  ∀ k, match ws !! k with
       | Some c => before c = σ0 !! k ∧ after c = σ !! k ∧ (before c ≠ None ∨ after c ≠ None)
       | None => σ0 !! k = σ !! k
       end.

Lemma record_row_change_net σ0 σ name ws c : net σ0 σ ws → before c = σ !! (name, change_id c) → (before c ≠ None ∨ after c ≠ None) →
  net σ0 (match after c with Some r => <[(name, change_id c) := r]> σ | None => delete (name, change_id c) σ end)
    (record_row_change name ws c).
Proof.
  intros Hn Hb Hne k. unfold record_row_change. set (key := (name, change_id c)) in *. pose proof (Hn key) as Hkey. specialize (Hn k).
  destruct (decide (k = key)) as [->|Hk].
  - destruct (ws !! key) as [e|] eqn:Ee.
    + destruct Hkey as (Heb & Hea & _). destruct (before e) as [o|] eqn:Eb, (after c) as [n|] eqn:Ea; simplify_map_eq; auto.
    + simplify_map_eq. split_and!; [congruence| |done]. destruct (after c); by simplify_map_eq.
  - assert (Hσ : match after c with Some r => <[key := r]> σ | None => delete key σ end !! k = σ !! k) by (destruct (after c); by simplify_map_eq).
    rewrite Hσ. destruct (ws !! key) as [e|] eqn:Ee; [destruct (before e), (after c)|]; by simplify_map_eq.
Qed.

(** C22: the write set that a transaction hands to storage is the net effect of its
    changes: after any valid history of row changes, an entry has the row before the
    transaction as its old image and the current row as its new one, never neither, and a
    row without an entry is as it was; a row that was inserted and deleted again leaves no
    entry. *)
Theorem write_set_net σ0 σ h σ' db :
  net σ0 σ (ws_rows (db_pending_writes db)) → history σ h σ' →
  net σ0 σ' (ws_rows (db_pending_writes (foldl (λ db '(name, c), record_row_changes name [c] db) db h))).
Proof.
  intros Hn Hh. revert db Hn. induction Hh as [|σ name c h σ' Hb Hne Hh IH]; intros db Hn; simpl; [done|].
  apply IH. by apply record_row_change_net.
Qed.

Definition sample_row (id z : Z) : Row := mkRow id [("a"%string, VInt z)].

Lemma write_set_net_witness :
  net ∅ {[("t"%string, 0) := sample_row 0 2]}
    (ws_rows (db_pending_writes (foldl (λ db '(name, c), record_row_changes name [c] db) default_database
      [("t"%string, inserted (sample_row 0 1)); ("t"%string, inserted (sample_row 1 1));
       ("t"%string, updated (sample_row 0 1) (sample_row 0 2)); ("t"%string, deleted (sample_row 1 1))]))).
Proof.
  apply (write_set_net ∅ ∅ [("t"%string, inserted (sample_row 0 1)); ("t"%string, inserted (sample_row 1 1));
       ("t"%string, updated (sample_row 0 1) (sample_row 0 2)); ("t"%string, deleted (sample_row 1 1))]).
  - intros k. reflexivity.
  - apply history_cons; [reflexivity|right; discriminate|]. apply history_cons; [reflexivity|right; discriminate|].
    apply history_cons; [reflexivity|right; discriminate|]. apply history_cons; [reflexivity|left; discriminate|]. apply history_nil.
Defined.

(** ** Sequences *)

(** [n] allocations in a row. *)
Fixpoint allocations (n : nat) (s : Sequence) : result (list Z * Sequence) :=
  match n with
  | O => Ok ([], s)
  | S n => '(v, s) ← sequence_allocate s; '(vs, s) ← allocations n s; Ok (v :: vs, s)
  end.

Lemma allocations_spec n s v : seq_next s = Some v → is_i64 v = true →
  (v + Z.of_nat n ≤ 2 ^ 63 → ∃ s', allocations n s = Ok (seqZ v (Z.of_nat n), s')) ∧
  (2 ^ 63 < v + Z.of_nat n → allocations n s = Err "E_ARITH").
Proof.
  revert s v. induction n as [|n IH]; intros s v Hs Hv.
  { apply in_range_spec in Hv. split; [intros _; by exists s|lia]. }
  cbn [allocations]. unfold sequence_allocate. rewrite Hs. cbn [ok_or mbind result_bind].
  destruct (checked is_i64 (v + 1)) as [w|] eqn:Ew.
  - apply checked_Some in Ew as [Hw ->]. destruct (IH (mkSequence (seq_id s) (seq_name s) (seq_start s) (Some (v + 1))) (v + 1) eq_refl Hw) as [Hok Herr].
    split; intros Hle.
    + destruct Hok as [s' Hs']; [lia|]. rewrite Hs'. exists s'. cbn [mbind result_bind]. rewrite (seqZ_cons v (Z.of_nat (S n))) by lia.
      do 3 f_equal. f_equal; lia.
    + rewrite Herr by lia. done.
  - assert (Hmax : v = 2 ^ 63 - 1).
    { apply in_range_spec in Hv. destruct (decide (v = 2 ^ 63 - 1)) as [|Hne]; [done|]. exfalso.
      assert (is_i64 (v + 1) = true) as Hf by (apply in_range_spec; lia). unfold checked in Ew. by rewrite Hf in Ew. }
    destruct n as [|n]; split; intros Hle; try lia.
    + exists (mkSequence (seq_id s) (seq_name s) (seq_start s) None). done.
    + cbn [allocations]. unfold sequence_allocate. done.
Qed.

(** a sequence hands out consecutive integers from its start and never repeats or wraps
    around: [n] allocations give [start], [start + 1], ... while they fit in an [i64],
    which includes the greatest [i64], and fail with [E_ARITH] afterwards. *)
Theorem sequence_consecutive db name start db' n :
  create_sequence db name start = Ok db' → is_i64 start = true →
  ∃ s, bt_get name (db_sequences db') = Some s ∧
    (start + Z.of_nat n ≤ 2 ^ 63 → ∃ s', allocations n s = Ok (seqZ start (Z.of_nat n), s')) ∧
    (2 ^ 63 < start + Z.of_nat n → allocations n s = Err "E_ARITH").
Proof.
  intros Hc Hs. unfold create_sequence in Hc. case_if_in Hc; [done|]. apply bind_Ok in Hc as ([id cat] & _ & [= <-]).
  eexists. split; [apply bt_get_insert_eq|]. by apply allocations_spec.
Qed.

Lemma sequence_consecutive_witness : ∃ s, bt_get "ids"%string (db_sequences (match create_sequence default_database "ids" (2 ^ 63 - 2) with
    Ok db => db | Err _ => default_database end)) = Some s ∧
    (2 ^ 63 - 2 + Z.of_nat 3 ≤ 2 ^ 63 → ∃ s', allocations 3 s = Ok (seqZ (2 ^ 63 - 2) (Z.of_nat 3), s')) ∧
    (2 ^ 63 < 2 ^ 63 - 2 + Z.of_nat 3 → allocations 3 s = Err "E_ARITH").
Proof. apply (sequence_consecutive default_database "ids" (2 ^ 63 - 2) _ 3); reflexivity. Defined.

(** ** Version-7 UUIDs *)

(** [uuid_v7] succeeds exactly on timestamps whose Unix milliseconds fit in 48 bits, and
    then gives sixteen bytes that start with those milliseconds, carry version 7 and the
    RFC variant, and keep the other 74 entropy bits. *)
Theorem uuid_v7_correct timestamp random :
  length random = 10%nat → all_bytes random = true →
  match uuid_v7 timestamp random with
  | Ok u => wf_uuid u = true ∧ of_be (take 6 u) = timestamp / 1000 ∧ Z.shiftr (nth 6 u 0) 4 = 7 ∧ Z.shiftr (nth 8 u 0) 6 = 2 ∧
      Z.land (nth 6 u 0) 15 = Z.land (nth 0 random 0) 15 ∧ nth 7 u 0 = nth 1 random 0 ∧
      Z.land (nth 8 u 0) 63 = Z.land (nth 2 random 0) 63 ∧ drop 9 u = drop 3 random
  | Err e => e = "E_GENERATION"%string ∧ ¬ (0 ≤ timestamp / 1000 < 2 ^ 48)
  end.
Proof.
  intros Hl Hb. destruct (uuid_v7 timestamp random) as [u|e] eqn:E.
  - destruct (uuid_v7_layout _ _ _ Hl Hb E) as (Hw & Hms & _). split_and!; [done|done|..];
      unfold uuid_v7 in E; apply bind_Ok in E as (ms & _ & E); (case_if_in E; [done|]); apply Ok_inj in E as <-;
      cbn [be_bytes app nth drop].
    + by rewrite Z.shiftr_lor, Z.shiftr_land, Z.land_0_r.
    + by rewrite Z.shiftr_lor, Z.shiftr_land, Z.land_0_r.
    + by rewrite Z.land_lor_distr_l, <-Z.land_assoc.
    + done.
    + by rewrite Z.land_lor_distr_l, <-Z.land_assoc.
    + done.
  - unfold uuid_v7 in E. destruct (checked is_u64 (timestamp / 1000)) as [ms|] eqn:Em; simpl in E.
    + apply checked_Some in Em as [_ ->]. case_if_in E; [|done]. injection E as <-. split; [done|]. lia.
    + injection E as <-. split; [done|]. intros Hr. unfold checked in Em.
      assert (is_u64 (timestamp / 1000) = true) as Hf by (apply in_range_spec; lia). by rewrite Hf in Em.
Qed.

Lemma uuid_v7_correct_witness :
  match uuid_v7 (0x010203040506 * 1000 + 999) (replicate 10 255) with
  | Ok u => wf_uuid u = true ∧ of_be (take 6 u) = 0x010203040506
  | Err _ => False
  end.
Proof.
  pose proof (uuid_v7_correct (0x010203040506 * 1000 + 999) (replicate 10 255) eq_refl eq_refl) as Hu.
  destruct (uuid_v7 _ _) as [u|e] eqn:E.
  - exact (conj (proj1 Hu) (proj1 (proj2 Hu))).
  - apply (proj2 Hu). vm_compute. by split.
Defined.

Section effects.
Context `{TextLib} `{PredicateText} `{Base64}.

(** ** Index scans *)

(** The order of hits: by key, forward or backward, and by row ID under one key. *)
Definition hit_before (backward : bool) (a b : list Z * Z) : Prop :=
  (if backward then bytes_cmp b.1 a.1 = Lt else bytes_cmp a.1 b.1 = Lt) ∨ (a.1 = b.1 ∧ a.2 < b.2).

(** Entries in strict key order give hits in order. *)
Lemma hits_sorted (reverse_order : bool) (l : IndexPosting) :
  StronglySorted (λ a b : list Z * list Z, if reverse_order then bytes_cmp b.1 a.1 = Lt else bytes_cmp a.1 b.1 = Lt) l →
  Forall (λ e : list Z * list Z, ascending e.2) l → StronglySorted (hit_before reverse_order) (flat_map entry_hits l).
Proof.
  induction l as [|[k ids] l IH]; intros Hs Ha; simpl; [constructor|]. apply StronglySorted_inv in Hs as [Hs Hk].
  apply list.Forall_cons in Ha as [Hids Ha]. apply StronglySorted_app_2; [|..|by apply IH].
  - intros [k1 i1] [k2 i2] [-> Hi1]%entry_hits_elem (ids2 & Hin & Hi2)%flat_hits_elem. left.
    rewrite list.Forall_forall in Hk. exact (Hk _ Hin).
  - simpl in Hids. clear -Hids. unfold entry_hits. induction ids as [|i ids IHi]; simpl; [constructor|].
    constructor; [apply IHi; by apply StronglySorted_inv in Hids as [? _]|].
    apply list.Forall_forall. intros [k' j] [-> Hj]%(entry_hits_elem (k, ids)). right. split; [done|]. simpl. by eapply ascending_lt.
Qed.

Lemma bt_sorted_strong (p : IndexPosting) : bt_sorted p = true → StronglySorted (λ a b : list Z * list Z, bytes_cmp a.1 b.1 = Lt) p.
Proof.
  induction p as [|[k ids] p IH]; intros Hs; [constructor|]. simpl in Hs. apply andb_true_iff in Hs as [Hb Hs].
  constructor; [auto|]. apply list.Forall_forall. intros e He. by apply (proj1 (bt_below_spec _ _) Hb).
Qed.

Lemma StronglySorted_filter {A} (R : A → A → Prop) (f : A → bool) l : StronglySorted R l → StronglySorted R (List.filter f l).
Proof.
  induction l as [|x l IH]; intros Hs; simpl; [constructor|]. apply StronglySorted_inv in Hs as [Hs Hx].
  destruct (f x); [|auto]. constructor; [auto|]. apply list.Forall_forall. intros y Hy%list_elem_of_In. apply filter_In in Hy as [Hy _].
  rewrite list.Forall_forall in Hx. by apply Hx, list_elem_of_In.
Qed.

Lemma StronglySorted_reverse {A} (R : A → A → Prop) l : StronglySorted R l → StronglySorted (λ a b, R b a) (reverse l).
Proof.
  induction l as [|x l IH]; intros Hs; [constructor|]. rewrite reverse_cons. apply StronglySorted_inv in Hs as [Hs Hx].
  apply StronglySorted_app_2; [|by apply IH|repeat constructor]. intros a b Ha ->%list_elem_of_singleton.
  rewrite list.Forall_forall in Hx. apply Hx. by apply elem_of_reverse.
Qed.

(** The hits of a scan, in a consistent database. *)
Lemma scan_hits db name t shape d bounds reverse_order limit : consistent db → table db name = Ok t → bt_get shape (definitions_of db name) = Some d →
  range_panics bounds = false → ∃ all, scan_index db name shape bounds reverse_order limit = Ok match limit with Some (S n) => take (S n) all | _ => all end ∧
    StronglySorted (hit_before reverse_order) all ∧
    ∀ k id, (k, id) ∈ all ↔ above bounds.1 k && below bounds.2 k = true ∧
      ∃ r, r ∈ tbl_rows t ∧ row_id r = id ∧ row_key (db_catalog db) (tbl_schema t) d r = Ok (Some k).
Proof.
  intros Hc Ht Hd Hpn. destruct (consistent_lookup _ _ _ Hc Ht) as [Hi _ _ _ _].
  destruct (ti_posting _ _ _ _ Hi shape d Hd) as (p & Hp & Hpo & _). unfold scan_index. rewrite Hp, Hpn. simpl.
  eexists. split; [by destruct limit as [[|n]|]|].
  pose proof (StronglySorted_filter _ (λ e, above bounds.1 e.1 && below bounds.2 e.1) _
    (bt_sorted_strong p (posting_sorted _ (posting_of_wf _ _ _ Hpo)))) as Hsort.
  assert (Hasc : Forall (λ e : list Z * list Z, ascending e.2) (posting_range bounds p)).
  { apply list.Forall_forall. intros [k ids] Hin%list_elem_of_In. apply filter_In in Hin as [Hin%list_elem_of_In _]. simpl.
    apply bt_get_iff in Hin; [|apply Hpo]. pose proof (posting_ascending _ (posting_of_wf _ _ _ Hpo) k) as Ha.
    unfold ids_at in Ha. by rewrite Hin in Ha. }
  split.
  - destruct reverse_order; apply hits_sorted; try done; [by apply StronglySorted_reverse|].
    apply list.Forall_forall. intros e. rewrite elem_of_reverse, list.Forall_forall in *. apply Hasc.
  - intros k id. rewrite flat_hits_elem.
    assert (Hin : ∀ ids, (k, ids) ∈ (if reverse_order then reverse (posting_range bounds p) else posting_range bounds p) ↔
      above bounds.1 k && below bounds.2 k = true ∧ bt_get k p = Some ids).
    { intros ids. assert ((k, ids) ∈ (if reverse_order then reverse (posting_range bounds p) else posting_range bounds p) ↔
        (k, ids) ∈ posting_range bounds p) as -> by (destruct reverse_order; [apply elem_of_reverse|done]).
      unfold posting_range. rewrite list_elem_of_In, filter_In, <-list_elem_of_In. simpl.
      rewrite <-(bt_get_iff k ids p) by apply Hpo. tauto. }
    setoid_rewrite Hin.
    pose proof (posting_of_iff _ _ _ Hpo k id) as Hiff. unfold ids_at in Hiff. rewrite <-Hiff. split.
    + intros (ids & [Hb Hg] & Hid). rewrite Hg. done.
    + intros [Hb Hid]. destruct (bt_get k p) as [ids|]; [eauto|]. by apply elem_of_nil in Hid.
Qed.

(** In every database that statements can reach, an index scan whose bounds are not the
    wrong way round always answers, and it reads exactly the rows of the table that the index includes with a key within the
    bounds, in key order (or reverse key order) with the rows of one key by row ID; a limit
    cuts the answer to its first hits. *)
Theorem scan_index_exact db name t shape d bounds reverse_order limit :
  rtc step default_database db → table db name = Ok t → bt_get shape (definitions_of db name) = Some d →
  range_panics bounds = false → ∃ all, scan_index db name shape bounds reverse_order limit = Ok match limit with Some (S n) => take (S n) all | _ => all end ∧
    StronglySorted (hit_before reverse_order) all ∧
    ∀ k id, (k, id) ∈ all ↔ above bounds.1 k && below bounds.2 k = true ∧
      ∃ r, r ∈ tbl_rows t ∧ row_id r = id ∧ included_index_tuple_key db name d (row_fields r) = Ok (Some k).
Proof.
  intros Hr Ht Hd Hb. destruct (scan_hits db name t shape d bounds reverse_order limit (reachable_consistent _ Hr) Ht Hd Hb) as (all & Hs & Hsort & Hall).
  exists all. split_and!; [done..|]. intros k id. rewrite Hall. by setoid_rewrite (included_key_eq db name t d _ Ht).
Qed.

(** ** Upserts *)

(** The key of a row under the primary index is the encoded key of its primary-key field. *)
Lemma primary_row_key db name t d key r b : table db name = Ok t → is_primary_index d (Some key) = true →
  row_key (db_catalog db) (tbl_schema t) d r = Ok (Some b) →
  ∃ v, row_field (row_fields r) key = Some v ∧ single_index_key db name key v = Ok b.
Proof.
  intros Ht Hp Hk. unfold row_key in Hk. destruct (includes d (row_fields r)); [|done]. apply fmap_Ok in Hk as (k & Hk & [= <-]).
  unfold is_primary_index in Hp. destruct (effective_components d) as [|c [|]]; try done.
  apply andb_true_iff in Hp as [Hd%negb_true_iff [= Hkey]%bool_decide_eq_true]. subst key.
  apply bind_Ok in Hk as (vs & Hvs%mapR_Ok & Hk). apply bind_Ok in Hk as (tys & Htys%mapR_Ok & Hk).
  apply bind_Ok in Hk as (a & Ha & Hk).
  apply Forall2_cons_inv_l in Hvs as (v & vs' & Hv & ->%Forall2_nil_inv_l & ->).
  apply Forall2_cons_inv_l in Htys as (ty & tys' & Hty & ->%Forall2_nil_inv_l & ->).
  apply bind_Ok in Hv as (v' & Hv'%ok_or_Ok & Hv). apply bind_Ok in Hv as (_ & _ & [= ->]).
  exists v. split; [done|]. unfold single_index_key. rewrite Ht. apply bind_Ok. exists t. split; [done|]. apply bind_Ok. exists ty.
  split; [done|]. cbn [zip zip_with] in Ha. rewrite Hd in Ha. rewrite Ha. case_match; congruence.
Qed.

Section upsert.
Context (db : Database) (name key : string) (t : Table) (v : Value) (bytes : list Z).
Hypotheses (Hc : consistent db) (Ht : table db name = Ok t) (Hk : tbl_primary_key t = Some key)
  (Hv : wf_value v = true) (Hb : single_index_key db name key v = Ok bytes).

Lemma primary_posting_row d r : r ∈ tbl_rows t → is_primary_index d (Some key) = true →
  row_key (db_catalog db) (tbl_schema t) d r = Ok (Some bytes) → row_field (row_fields r) key = Some v.
Proof.
  intros Hr Hp Hrk. destruct (consistent_lookup _ _ _ Hc Ht) as [_ _ _ Htt Hrows].
  destruct (primary_row_key db name t d key r bytes Ht Hp Hrk) as (w & Hw & Hwb). rewrite Hw. f_equal.
  exact (single_index_key_inj db name t key w v bytes Ht Htt Hk (row_field_wf _ _ _ (proj2 (Hrows r Hr)) Hw) Hv Hwb Hb).
Qed.

(** The row that the primary index finds is the row with the key. *)
Lemma front_has_key p id : primary_posting db name key = Some p → posting_front p bytes = Some id →
  ∃ r, r ∈ tbl_rows t ∧ row_id r = id ∧ row_field (row_fields r) key = Some v.
Proof.
  intros Hp Hf. destruct (front_row db name key t p Hc Ht Hk Hp bytes id Hf) as (d & r & Hr & Hid & Hrk & Hd).
  exists r. split_and!; try done. destruct (consistent_lookup _ _ _ Hc Ht) as [_ Hpk _ _ _].
  destruct (Hpk key Hk) as (d' & Hd' & Hprim). apply (primary_posting_row d r Hr); [congruence|done].
Qed.

(** When it finds none, no row has the key. *)
Lemma front_none p : primary_posting db name key = Some p → posting_front p bytes = None →
  ∀ r, r ∈ tbl_rows t → row_field (row_fields r) key ≠ Some v.
Proof.
  intros Hp Hf r Hr Hrv. destruct (consistent_lookup _ _ _ Hc Ht) as [Hi Hpk _ Htt Hrows].
  destruct (Hpk key Hk) as (d & Hd & Hprim). destruct (ti_posting _ _ _ _ Hi key d Hd) as (p' & Hp' & Hpo & _).
  assert (p' = p) as ->.
  { unfold primary_posting in Hp. unfold indexes_of in Hp'. destruct (bt_get name (db_indexes db)); simpl in *; congruence. }
  pose proof (primary_total d key Hprim (ti_shape _ _ _ _ Hi _ _ Hd)) as Hnp.
  pose proof (posting_of_keyed _ _ _ Hpo r Hr) as Hok.
  assert (Hrk : ∃ k, row_key (db_catalog db) (tbl_schema t) d r = Ok (Some k)).
  { unfold row_key, includes in *. rewrite Hnp in *. destruct (tuple_key _ _ _ _) as [k|]; [by exists k|done]. }
  destruct Hrk as [k Hrk]. destruct (primary_row_key db name t d key r k Ht Hprim Hrk) as (w & Hw & Hwb).
  assert (k = bytes) as -> by congruence. assert (Hin : row_id r ∈ ids_at p bytes) by (apply (posting_of_iff _ _ _ Hpo); eauto).
  unfold ids_at in Hin. unfold posting_front in Hf. pose proof (posting_nonempty _ (posting_of_wf _ _ _ Hpo) bytes).
  destruct (bt_get bytes p) as [[|x ids]|]; try done. by apply elem_of_nil in Hin.
Qed.
End upsert.

(** An upsert acts on the row with the given primary key: when there is one, that row
    alone is replaced, under its row ID and in its place; when there is none, the new row is
    appended under the next row ID; the answer says which. *)
Theorem upsert_effect clock entropy db name t key values db' a :
  rtc step default_database db → entropy_ok entropy → wf_value values = true →
  table db name = Ok t → tbl_primary_key t = Some key → upsert clock entropy db name values = Ok (db', a) →
  ∃ fields db1 v t', materialize_generated_row clock entropy db name values true = Ok (fields, db1) ∧
    row_field fields key = Some v ∧ table db' name = Ok t' ∧
    match a with
    | Updated => ∃ n old, tbl_rows t !! n = Some old ∧ row_field (row_fields old) key = Some v ∧
        tbl_rows t' = <[n := mkRow (row_id old) fields]> (tbl_rows t)
    | Inserted => (∀ r, r ∈ tbl_rows t → row_field (row_fields r) key ≠ Some v) ∧
        tbl_rows t' = tbl_rows t ++ [mkRow (tbl_next_row_id t) fields]
    end.
Proof.
  intros Hr He Hv Ht Hk Hu. pose proof (reachable_consistent _ Hr) as Hc. unfold upsert in Hu. rewrite Ht in Hu.
  apply (bind_Ok (Ok t)) in Hu as (t0 & [= <-] & Hu). rewrite Hk in Hu. apply (bind_Ok (Ok key)) in Hu as (k0 & [= <-] & Hu).
  apply bind_Ok in Hu as ([fields db1] & Hm & Hu). apply bind_Ok in Hu as (v & Hfv%ok_or_Ok & Hu). apply bind_Ok in Hu as (bytes & Hb & Hu).
  destruct (materialize_consistent clock entropy He _ _ _ _ _ _ _ Hc Ht Hv Hm) as (Hty & Hs & Hc1).
  assert (Ht1 : table db1 name = Ok t) by (by rewrite (core_same_table db)).
  assert (Hwv : wf_value v = true) by (eapply row_field_wf; [apply Hty|done]).
  exists fields, db1, v. destruct (consistent_lookup _ _ _ Hc1 Ht1) as [Hi Hpk Hnf _ _].
  assert (Hins : ∀ x, insert_fields db1 name fields = Ok x → table x.1 name =
    Ok (with_rows (tbl_rows t ++ [mkRow (tbl_next_row_id t) fields]) (tbl_next_row_id t + 1) t)).
  { intros [db2 id] Hf. apply table_Ok. by eapply mutated_table, insert_fields_appended. }
  assert (Hpp : ∃ p, primary_posting db1 name key = Some p).
  { destruct (Hpk key Hk) as (d & Hd & _). destruct (ti_posting _ _ _ _ Hi key d Hd) as (p & Hp & _). exists p.
    unfold primary_posting. unfold indexes_of in Hp. by destruct (bt_get name (db_indexes db1)). }
  destruct Hpp as [p Hp]. rewrite Hp in Hu. destruct (posting_front p bytes) as [id|] eqn:Ef.
  - apply bind_Ok in Hu as (t1 & Ht1' & Hu). assert (t1 = t) as -> by congruence. clear Ht1'.
    apply bind_Ok in Hu as (n & Hn & Hu). apply bind_Ok in Hu as (old & Hold%ok_or_Ok & Hu). apply bind_Ok in Hu as (db2 & Hrep & [= <- <-]).
    destruct (row_position_Ok _ _ _ Hn) as (r & Hrn & Hid). assert (r = old) as -> by congruence.
    assert (Hl : leads (tbl_rows t) [updated old (mkRow id fields)] (<[n := mkRow id fields]> (tbl_rows t)))
      by (apply leads_update; [apply Hi|done|done]).
    pose proof (mutated_table _ _ _ _ _ _ _ (replace_replaced _ _ _ _ _ _ Ht1 Hi Hl Hrep)) as Htab.
    exists (with_rows (<[n := mkRow id fields]> (tbl_rows t)) (tbl_next_row_id t) t). split_and!; try done; [by apply table_Ok|].
    exists n, old. split_and!; [done| |by rewrite Hid].
    destruct (front_has_key db1 name key t v bytes Hc1 Ht1 Hk Hwv Hb p id Hp Ef) as (r & Hr' & Hrid & Hrv).
    assert (r = old) as ->; [|done]. apply (ascending_row_inj (tbl_rows t)); [apply Hi|done|by eapply list_elem_of_lookup_2|congruence].
  - apply bind_Ok in Hu as ([db2 id] & Hf & [= <- <-]). eexists. split; [done|]. split; [done|]. split; [exact (Hins _ Hf)|].
    split; [|done]. exact (front_none db1 name key t v bytes Hc1 Ht1 Hk Hb p Hp Ef).
Qed.

(** C18: an update is a simultaneous assignment.  On success the table has the same rows, in
    the same order and under the same row IDs; the rows that are not targets are unchanged;
    and in a target row every assigned path has the value that its expression has on the
    row before the update, coerced to the type of the path, while every path that overlaps
    no assigned one is as it was. *)
Theorem update_effect db name t targets assignments db' :
  rtc step default_database db → table db name = Ok t → Forall (λ c, no_dot (col_name c) = true) (tbl_schema t) →
  NoDup targets → Forall wf_assignment assignments → update db name targets assignments = Ok db' →
  ∃ t' bound, table db' name = Ok t' ∧ bind_sets (db_catalog db) (tbl_schema t) [] assignments = Ok bound ∧
    row_id <$> tbl_rows t' = row_id <$> tbl_rows t ∧
    (∀ r, r ∈ tbl_rows t → row_id r ∉ targets → r ∈ tbl_rows t') ∧
    (∀ id, id ∈ targets → ∃ before after, (before ∈ tbl_rows t ∧ row_id before = id) ∧ (after ∈ tbl_rows t' ∧ row_id after = id) ∧
       row_updated (db_catalog db) (tbl_schema t) bound (row_fields before) (row_fields after)).
Proof.
  intros Hr Ht Hd Hnd Hl Hu. pose proof (reachable_consistent _ Hr) as Hc.
  destruct (update_Ok _ _ _ _ _ Hc Hnd Hl Hu) as (names & t0 & bound & rows & changes & Hcat & Hg & Ht0 & Hb & Hv & Hup & Hrep).
  assert (t0 = t) as -> by congruence. destruct (consistent_lookup _ _ _ Hc Ht) as [Hi _ _ Htt Hrows]. destruct Hup as [Hld Hids Hty Hch Hup].
  pose proof (mutated_table _ _ _ _ _ _ _ (replace_replaced _ _ _ _ _ _ Ht Hi Hld Hrep)) as Htab.
  exists (with_rows rows (tbl_next_row_id t) t), bound. split_and!; [by apply table_Ok|done|done|..].
  - intros r Hin Hnt. apply (leads_iff _ _ _ Hld). right. split; [done|]. intros c Hcin Heq. apply Hnt. rewrite <-Hch, <-Heq. by apply list_elem_of_fmap_2.
  - intros id Hid. rewrite <-Hch in Hid. apply list_elem_of_fmap in Hid as (c & -> & Hcin). destruct (Hup c Hcin) as (old & new & b & b' & -> & Hold & Hrow).
    destruct (update_row_typed names _ t bound Hcat Hg Htt Hv _ old b new b' eq_refl (Hrows _ Hold) Hrow) as [Hidn _].
    exists old, new. split_and!; [done|done| |done|].
    + apply (leads_iff _ _ _ Hld). left. by exists (updated old new).
    + eapply (update_row_updated names); try done. by apply Hrows.
Qed.
End effects.

(** ** Examples *)

#[local] Existing Instances example_text example_predicates example_base64.

Lemma scan_index_exact_witness : ∃ all,
  scan_index example_database "users" "name" (Unbounded, Unbounded) true (Some 1%nat) = Ok (take 1 all) ∧
  StronglySorted (hit_before true) all ∧
  ∀ k id, (k, id) ∈ all ↔ above Unbounded k && below Unbounded k = true ∧
    ∃ r, r ∈ tbl_rows example_users ∧ row_id r = id ∧
      included_index_tuple_key example_database "users" example_names (row_fields r) = Ok (Some k).
Proof.
  apply (scan_index_exact example_database "users" example_users "name" example_names (Unbounded, Unbounded) true (Some 1%nat)
    example_reachable example_users_eq); vm_compute; reflexivity.
Defined.

Definition example_upserted : Database * UpsertAction :=
  match upsert 0 no_entropy example_database "users" (user 3 "dan") with Ok x => x | Err _ => (default_database, Inserted) end.

Lemma example_upserted_eq : upsert 0 no_entropy example_database "users" (user 3 "dan") = Ok (example_upserted.1, Updated).
Proof.
  assert (Hb : match upsert 0 no_entropy example_database "users" (user 3 "dan") with Ok (_, Updated) => true | _ => false end = true)
    by (vm_compute; reflexivity).
  unfold example_upserted. revert Hb. generalize (upsert 0 no_entropy example_database "users" (user 3 "dan")).
  by intros [[db' []]|e].
Qed.

Lemma upsert_effect_witness : ∃ fields db1 v t',
  materialize_generated_row 0 no_entropy example_database "users" (user 3 "dan") true = Ok (fields, db1) ∧
  row_field fields "id" = Some v ∧ table example_upserted.1 "users" = Ok t' ∧
  ∃ n old, tbl_rows example_users !! n = Some old ∧ row_field (row_fields old) "id" = Some v ∧
    tbl_rows t' = <[n := mkRow (row_id old) fields]> (tbl_rows example_users).
Proof.
  apply (upsert_effect 0 no_entropy example_database "users" example_users "id" (user 3 "dan") example_upserted.1 Updated
    example_reachable); [discriminate|reflexivity|exact example_users_eq|reflexivity|exact example_upserted_eq].
Defined.

(** Set the name of the first user, and its key to another one. *)
Definition example_assignments : list SetAssignment :=
  [mkSetAssignment "name" (SetExpression (BValue (SLiteral (VText "zoe")))); mkSetAssignment "id" (SetExpression (BValue (SLiteral (VInt 9))))].
Definition example_updated : Database :=
  match update example_database "users" [0] example_assignments with Ok db => db | Err _ => default_database end.

Lemma example_updated_eq : update example_database "users" [0] example_assignments = Ok example_updated.
Proof.
  assert (Hb : is_ok (update example_database "users" [0] example_assignments) = true) by (vm_compute; reflexivity).
  unfold example_updated. revert Hb. generalize (update example_database "users" [0] example_assignments). by intros [db'|e].
Qed.

Lemma update_effect_witness : ∃ t', table example_updated "users" = Ok t' ∧ row_id <$> tbl_rows t' = row_id <$> tbl_rows example_users ∧
  ∃ after, after ∈ tbl_rows t' ∧ row_id after = 0.
Proof.
  destruct (update_effect example_database "users" example_users [0] example_assignments example_updated example_reachable example_users_eq) as (t' & bound & Ht & _ & Hi & _ & Hx).
  - repeat constructor.
  - apply NoDup_singleton.
  - repeat constructor; by apply literal_assignment_wf.
  - exact example_updated_eq.
  - exists t'. split; [exact Ht|]. split; [exact Hi|]. destruct (Hx 0) as (before & after & _ & Ha & _); [by apply list_elem_of_singleton|]. by exists after.
Defined.
