(* ===== verification/Planning.v ===== *)
(** * Planned access

    What the access planning of src/src/db.rs promises: the index scan that [plan_access]
    chooses meets every row that the query's leading filters accept, and where the plan
    says that the scan satisfies the sort, the rows come in the order of its keys. *)
From stdpp Require Import sets sorting.
From S2P Require Import Prelude Bytes Text Decimal Temporal Float64 Scalars BTree Model Coerce OrderedKey Matching Coverage Catalog Schema Expression Typing EvalOps Soundness IndexPredicate Database Query Access Ranges Postings Rows Tables Predicates References Mutations Links Invariant Effects.

#[local] Strategy 1000 [MAX_DEPTH underlying field_type cmp_typed coerce].

(** ** The order of typed values *)

(** Finitely many values of a type are ordered as byte strings. *)
Lemma ordered_codes cat ty l : Forall (has_type cat ty) l →
  ∃ f : Value → list Z, ∀ x y, x ∈ l → y ∈ l → ordered cat ty x y (bytes_cmp (f x) (f y)).
Proof.
  intros Hl. assert (∃ n, (MAX_DEPTH ≤ n)%nat ∧ ∀ x, x ∈ l → conforms n cat ty x = true) as (n & Hn & Hc).
  { induction Hl as [|x l [[f Hx] _] _ (n & Hn & IH)]; [exists MAX_DEPTH; split; [apply Nat.le_refl|by intros x ?%elem_of_nil]|].
    exists (n + f)%nat. split; [lia|]. intros y [->|Hy]%list.elem_of_cons; (eapply conforms_le; [|eauto]); lia. }
  exists (λ x, default [] (match encode_value n cat MAP_INDEX_KEY_CODEC_VERSION ty x with Ok a => Some a | Err _ => None end)).
  intros x y Hx Hy. rewrite list.Forall_forall in Hl. destruct (Hl x Hx) as [_ Wx], (Hl y Hy) as [_ Wy].
  destruct (encode_value_total n cat ty x (Hc x Hx)) as [a Ha], (encode_value_total n cat ty y (Hc y Hy)) as [b Hb].
  rewrite Ha, Hb. destruct (encode_value_order _ _ _ _ _ _ _ _ Wx Wy Ha Hb) as (c & Hc' & Hk). exists n. split; [done|].
  simpl. by rewrite Hc', (code_cmp_bytes _ _ _ Hk).
Qed.

Lemma ordered_refl cat ty v c : has_type cat ty v → ordered cat ty v v c → c = Eq.
Proof.
  intros Hv Hc. destruct (ordered_codes cat ty [v]) as (f & Hf); [by constructor|]. rewrite (ordered_inj _ _ _ _ _ _ Hc (Hf v v ltac:(by left) ltac:(by left))).
  apply bytes_cmp_refl.
Qed.

Lemma ordered_equal cat ty v w : wf_catalog cat = true → wf_type ty = true → has_type cat ty v → has_type cat ty w → ordered cat ty v w Eq → v = w.
Proof. intros ? ? ? ? (n & _ & Hc). by eapply cmp_typed_eq. Qed.

(** A value between two limits shows that they do not exclude each other. *)
Lemma limits_compatible cat ty v l u c : has_type cat ty v → has_type cat ty (rl_value l) → has_type cat ty (rl_value u) →
  satisfies_lower cat ty v l → satisfies_upper cat ty v u → ordered cat ty (rl_value l) (rl_value u) c →
  match c with Gt => true | Eq => negb (rl_inclusive l) || negb (rl_inclusive u) | Lt => false end = false.
Proof.
  intros Hv Hl Hu Hsl Hsu Hc. destruct (ordered_codes cat ty [v; rl_value l; rl_value u]) as (f & Hf); [by repeat (apply Forall_cons_2; [done|])|].
  set (fv := f v) in *. set (fl := f (rl_value l)) in *. set (fu := f (rl_value u)) in *.
  assert (Hvl := Hf v (rl_value l) ltac:(set_solver) ltac:(set_solver)). assert (Hvu := Hf v (rl_value u) ltac:(set_solver) ltac:(set_solver)).
  assert (Hlu := Hf (rl_value l) (rl_value u) ltac:(set_solver) ltac:(set_solver)). fold fv fl fu in Hvl, Hvu, Hlu.
  rewrite (ordered_inj _ _ _ _ _ _ Hc Hlu). clear Hc Hlu.
  assert (H1' : bytes_cmp fl fv = Lt ∨ (fl = fv ∧ rl_inclusive l = true)).
  { destruct Hsl as [Hs|[Hs Hi]]; pose proof (ordered_inj _ _ _ _ _ _ Hvl Hs) as E; [left|right].
    - rewrite bytes_cmp_antisym, E. done.
    - by apply bytes_cmp_Eq in E. }
  assert (H2' : bytes_cmp fv fu = Lt ∨ (fv = fu ∧ rl_inclusive u = true)).
  { destruct Hsu as [Hs|[Hs Hi]]; pose proof (ordered_inj _ _ _ _ _ _ Hvu Hs) as E; [by left|right]. by apply bytes_cmp_Eq in E. }
  destruct H1' as [H1'|[-> Hi]], H2' as [H2'|[E Hi']]; rewrite <-?E.
  - by rewrite (bytes_cmp_Lt_trans _ _ _ H1' H2').
  - by rewrite H1'.
  - by rewrite H2'.
  - by rewrite bytes_cmp_refl, Hi, Hi'.
Qed.

(** ** Leading filters *)

Fixpoint leading_filters (stages : list Stage) : list BoolExpression :=
  match stages with
  | StLet _ :: stages => leading_filters stages
  | StFilter e :: stages => e :: leading_filters stages
  | _ => []
  end.

(** A filter as [prepare_pipeline] leaves it: bound in the table's columns, its parsed form
    with Rust values and well-formed ascriptions, and without ascriptions on the operands
    of an ordering. *)
Definition bound_filter (cat : Catalog) (schema : Columns) `{TextLib} (e' : BoolExpression) : Prop :=
  ∃ e, (∀ names, good_catalog names cat → filter_ok names e) ∧ Expression.bind cat schema e = Ok e' ∧ direct e'.

(** The filter accepts the row. *)
Definition accepts (cat : Catalog) `{TextLib} (fields : Fields) (e : BoolExpression) : Prop :=
  ∃ b b', evaluate cat e (row_field fields) b = Ok (true, b').

Section constraints.
Context (names : Z → string) (cat : Catalog) (Hcat : good_catalog names cat).
Context `{TextLib} (schema : Columns) (fields : Fields).
Hypotheses (Hschema : good_type names (TRecord schema)) (Hrow : typed_row cat schema fields).
Notation holds := (holds cat schema fields).

Lemma leading_constraints_hold stages acc : Forall (bound_filter cat schema) (leading_filters stages) →
  Forall (accepts cat fields) (leading_filters stages) → Forall holds acc → Forall holds (leading_constraints stages acc).
Proof.
  revert acc. induction stages as [|s stages IH]; intros acc Hb Ha Hacc; [done|]. destruct s; try done; cbn [leading_constraints leading_filters] in *.
  - destruct acc; auto.
  - apply list.Forall_cons in Hb as [(e0 & Hok & Hb & Hd) Hbs], Ha as [(b & b' & Ha) Has].
    destruct (simple_index_comparison e) as [[[column op] v]|] eqn:Es; [|done]. apply IH; [done..|]. apply Forall_app. split; [done|].
    constructor; [|constructor]. by eapply (compare_holds names cat Hcat schema "field" fields Hschema Hrow e0); [apply Hok|..].
Qed.

Lemma leading_atoms_hold stages acc l : Forall (bound_filter cat schema) (leading_filters stages) →
  Forall (accepts cat fields) (leading_filters stages) → leading_atoms cat schema stages acc = Ok l →
  Forall (λ a, atom_ok cat schema a ∧ atom_matches fields a = true) acc → Forall (λ a, atom_ok cat schema a ∧ atom_matches fields a = true) l.
Proof.
  revert acc. induction stages as [|s stages IH]; intros acc Hb Ha Hl Hacc; [by injection Hl as <-|].
  destruct s; try (by injection Hl as <-); cbn [leading_atoms leading_filters] in *; [by eapply IH|].
  apply list.Forall_cons in Hb as [(e0 & Hok & Hb & Hd) Hbs], Ha as [(b & b' & Ha) Has].
  apply bind_Ok in Hl as (acc' & Hacc' & Hl). eapply IH; [done..|].
  by eapply (collect_query_atoms_hold names cat Hcat schema "field" fields Hschema Hrow e0); [apply Hok|..].
Qed.

(** ** Matching the components *)

(** The values of an equality prefix are the row's. *)
Definition prefix_of_row (l : list (IndexComponentDefinition * Value)) : Prop :=
  Forall (λ e, row_field fields (ic_column e.1) = Some e.2) l.

Lemma holds_typed c ty v : holds c → field_type cat schema (cn_column c) = Ok ty → row_field fields (cn_column c) = Some v →
  has_type cat ty v ∧ has_type cat ty (cn_value c).
Proof. intros (ty' & v' & Hty & Hv & ? & ? & _) Hty' Hv'. rewrite Hty in Hty'. injection Hty' as <-. rewrite Hv in Hv'. by injection Hv' as <-. Qed.

Lemma constraint_matches_row c ty v b : holds c → field_type cat schema (cn_column c) = Ok ty → row_field fields (cn_column c) = Some v →
  constraint_matches cat ty v (cn_op c) (cn_value c) = Ok b → b = true.
Proof.
  intros Hh Hty Hv Hm. pose proof (holds_typed c ty v Hh Hty Hv) as [Tv Tc]. pose proof (column_good names cat Hcat schema Hschema _ _ Hty) as [Hwt _].
  destruct Hh as (ty' & v' & Hty' & Hv' & _ & _ & Hh). rewrite Hty in Hty'. injection Hty' as <-. rewrite Hv in Hv'. injection Hv' as <-.
  unfold constraint_matches in Hm. apply bind_Ok in Hm as (o & Ho%ordered_typed & Hm). apply Ok_inj in Hm as <-.
  destruct (cn_op c).
  - rewrite <-Hh in Ho. by rewrite (ordered_refl _ _ _ _ Tv Ho).
  - destruct o; try done. destruct Hh. by apply (ordered_equal cat ty); try done; apply Hcat.
  - by rewrite (ordered_inj _ _ _ _ _ _ Ho Hh).
  - destruct Hh as [Hh|Hh]; by rewrite (ordered_inj _ _ _ _ _ _ Ho Hh).
  - by rewrite (ordered_inj _ _ _ _ _ _ Ho Hh).
  - destruct Hh as [Hh|Hh]; by rewrite (ordered_inj _ _ _ _ _ _ Ho Hh).
Qed.

Lemma all_match_row own ty v b : Forall (λ c, holds c ∧ field_type cat schema (cn_column c) = Ok ty ∧ row_field fields (cn_column c) = Some v) own →
  all_match cat ty v own = Ok b → b = true.
Proof.
  induction 1 as [|c own (Hh & Hty & Hv) _ IH]; intros Hm; [by injection Hm as <-|]. cbn [all_match] in Hm.
  apply bind_Ok in Hm as (b' & Hb & Hm). rewrite (constraint_matches_row c ty v b' Hh Hty Hv Hb) in Hm. auto.
Qed.

(** Both limits come from constraints, so the row's value is within them. *)
Definition within_typed (ty : ScalarType) (v : Value) (limits : option RangeLimit * option RangeLimit) : Prop :=
  (∀ l, limits.1 = Some l → satisfies_lower cat ty v l ∧ has_type cat ty (rl_value l)) ∧
  (∀ u, limits.2 = Some u → satisfies_upper cat ty v u ∧ has_type cat ty (rl_value u)).

Lemma merge_step_row ty v acc c acc' : has_type cat ty v → within_typed ty v acc → holds c → field_type cat schema (cn_column c) = Ok ty →
  row_field fields (cn_column c) = Some v → merge_step cat ty acc c = Ok acc' → within_typed ty v acc'.
Proof.
  intros Tv [Hl Hu] Hh Hty Hv Hm. pose proof (holds_typed c ty v Hh Hty Hv) as [_ Tc].
  destruct Hh as (ty' & v' & Hty' & Hv' & _ & _ & Hh). rewrite Hty in Hty'. injection Hty' as <-. rewrite Hv in Hv'. injection Hv' as <-.
  destruct acc as [lower upper]. cbn [fst snd] in Hl, Hu. unfold merge_step in Hm.
  destruct (cn_op c); try (injection Hm as <-; done);
    apply bind_Ok in Hm as (slot & Hs & Hm); apply Ok_inj in Hm as <-; apply bind_Ok in Hs as (b & _ & Hs); apply Ok_inj in Hs as <-;
    destruct b; (split; cbn [fst snd]; [try exact Hl|try exact Hu]); intros ? [= <-]; (split; [|done]); unfold satisfies_lower, satisfies_upper;
    cbn [rl_value rl_inclusive]; tauto.
Qed.

Lemma merge_range_row ty v own limits : has_type cat ty v →
  Forall (λ c, holds c ∧ field_type cat schema (cn_column c) = Ok ty ∧ row_field fields (cn_column c) = Some v) own →
  merge_range_bounds cat ty own = Ok limits → within_typed ty v limits.
Proof.
  intros Tv Hown. unfold merge_range_bounds. assert (Hacc : within_typed ty v (None, None)) by done. revert Hacc. generalize (None : option RangeLimit, None : option RangeLimit).
  induction Hown as [|c own (Hh & Hty & Hv) _ IH]; intros acc Hacc Hm; [by injection Hm as <-|]. cbn [foldR] in Hm.
  apply bind_Ok in Hm as (acc' & Hs & Hm). eapply IH; [|exact Hm]. by eapply merge_step_row.
Qed.

Lemma range_nonempty ty v lower upper b : has_type cat ty v → within_typed ty v (lower, upper) → range_is_empty cat ty lower upper = Ok b → b = false.
Proof.
  intros Tv [Hl Hu] He. unfold range_is_empty in He. destruct lower as [l|], upper as [u|]; try (by injection He as <-).
  apply bind_Ok in He as (o & Ho%ordered_typed & He). apply Ok_inj in He as <-. destruct (Hl l eq_refl), (Hu u eq_refl). eapply (limits_compatible cat ty v l u); [done..|exact Ho].
Qed.

(** What [match_components] found, seen from a row that satisfies the constraints. *)
Record matched_row (components : list IndexComponentDefinition) (m : Matched) : Prop := {
  mr_possible : mt_impossible m = false;
  mr_columns : (mt_equality m).*1 = take (length (mt_equality m)) components;
  mr_values : prefix_of_row (mt_equality m);
  mr_range lower upper : mt_range m = Some (lower, upper) → ∃ c ty v, components !! length (mt_equality m) = Some c ∧
    field_type cat schema (ic_column c) = Ok ty ∧ row_field fields (ic_column c) = Some v ∧ has_type cat ty v ∧ within_typed ty v (lower, upper)
}.

Lemma own_constraints constraints column ty : Forall holds constraints → field_type cat schema column = Ok ty →
  ∃ v, row_field fields column = Some v ∧ has_type cat ty v ∧
    Forall (λ c, holds c ∧ field_type cat schema (cn_column c) = Ok ty ∧ row_field fields (cn_column c) = Some v)
      (List.filter (λ k, String.eqb (cn_column k) column) constraints).
Proof.
  intros Hh Hty. destruct (column_value names cat Hcat schema fields Hschema Hrow column ty Hty) as (v & Hv & Tv). exists v. split_and!; [done..|].
  rewrite list.Forall_forall in Hh |- *. intros c Hc%list_elem_of_In. apply filter_In in Hc as [Hc%list_elem_of_In E%String.eqb_eq]. rewrite E. auto.
Qed.

Lemma match_components_row constraints components equality m rest : Forall holds constraints → prefix_of_row equality →
  components = equality.*1 ++ rest → match_components cat schema constraints rest equality = Ok m → matched_row components m.
Proof.
  intros Hh. revert equality. induction rest as [|c rest IH]; intros equality Hp Hc Hm; cbn [match_components] in Hm.
  { injection Hm as <-. split; try done. cbn [mt_equality]. rewrite Hc, app_nil_r, firstn_all2; [done|]. rewrite length_fmap. lia. }
  assert (Hnone : matched_row components (mkMatched equality None false)).
  { split; try done. cbn [mt_equality]. rewrite Hc, take_app_length'; [done|]. by rewrite length_fmap. }
  pose proof (own_constraints constraints (ic_column c)) as Hown. destruct (List.filter _ constraints) as [|k own] eqn:Ef; [by injection Hm as <-|].
  apply bind_Ok in Hm as (ty & Hty & Hm). destruct (Hown ty Hh Hty) as (v & Hv & Tv & Hall). clear Hown.
  destruct (List.find _ (k :: own)) as [q|] eqn:Eq.
  - apply find_some in Eq as [Hq%list_elem_of_In Heq]. apply bind_Ok in Hm as (possible & Hpos & Hm).
    assert (cn_value q = v) as Eqv.
    { rewrite list.Forall_forall in Hall. destruct (Hall q Hq) as ((ty' & v' & _ & Hv' & _ & _ & Hop) & _ & Hvq). destruct (cn_op q); try done. congruence. }
    rewrite Eqv in *. rewrite (all_match_row _ _ _ _ Hall Hpos) in Hm. eapply IH; [| |exact Hm].
    + apply Forall_app. split; [done|]. by repeat constructor.
    + rewrite fmap_app, <-app_assoc. done.
  - apply bind_Ok in Hm as ([lower upper] & Hmr & Hm). pose proof (merge_range_row _ _ _ _ Tv Hall Hmr) as Hw.
    assert (Hm' : m = mkMatched equality None false ∨ ∃ b, range_is_empty cat ty lower upper = Ok b ∧ m = mkMatched equality (Some (lower, upper)) b).
    { destruct lower, upper; try (by left; injection Hm as <-); right; apply bind_Ok in Hm as (b & Hb & Hm); apply Ok_inj in Hm as <-; eauto. }
    destruct Hm' as [-> |(b & Hb & ->)]; [done|]. rewrite (range_nonempty _ _ _ _ _ Tv Hw Hb). split; try done; cbn [mt_equality].
    + rewrite Hc, take_app_length'; [done|]. by rewrite length_fmap.
    + intros l u [= <- <-]. exists c, ty, v. split_and!; try done. rewrite Hc, lookup_app_r, length_fmap, Nat.sub_diag; [done|]. by rewrite length_fmap.
Qed.
End constraints.

(** ** The key of a row *)

Section key.
Context (names : Z → string) (cat : Catalog) (Hcat : good_catalog names cat) (schema : Columns) (fields : Fields).
Hypotheses (Hschema : good_type names (TRecord schema)) (Hrow : typed_row cat schema fields).

(** The code of the row's value of a component. *)
Definition component_code (c : IndexComponentDefinition) (a : list Z) : Prop :=
  ∃ ty v, field_type cat schema (ic_column c) = Ok ty ∧ row_field fields (ic_column c) = Some v ∧ has_type cat ty v ∧
    code cat (mkComponent ty v (ic_descending c)) = Ok a.

Lemma component_code_inj c a b : component_code c a → component_code c b → a = b.
Proof. intros (ty & v & Hty & Hv & _ & Ha) (ty' & v' & Hty' & Hv' & _ & Hb). congruence. Qed.

Lemma component_code_bytes c a : component_code c a → all_bytes a = true.
Proof. intros (ty & v & _ & _ & [_ Hw] & Ha). by eapply code_bytes; [|exact Ha]. Qed.

Lemma tuple_key_codes components key : tuple_key cat schema components fields = Ok key →
  ∃ codes, Forall2 component_code components codes ∧ key = concat codes.
Proof.
  unfold tuple_key. intros (values & Hv & (types & Ht & (k & Hk & Hlim)%bind_Ok)%bind_Ok)%bind_Ok. case_if_in Hlim; [done|]. apply Ok_inj in Hlim as <-.
  apply encode_tuple_codes in Hk as (codes & Hm & ->). exists codes. split; [|done]. apply mapR_Ok in Hm, Hv, Ht. clear E. revert types codes Ht Hm.
  unfold index_values in Hv. induction Hv as [|c v components values Hc _ IH]; intros types codes Ht Hm.
  - inversion Ht; subst. inversion Hm; subst. constructor.
  - inversion Ht as [|? ty ? types' Hty Ht']; subst. cbn [zip zip_with] in Hm. inversion Hm as [|? a ? codes' Ha Hm']; subst. constructor; [|by eapply IH].
    unfold index_component_value in Hc. apply bind_Ok in Hc as (w & Hw%ok_or_Ok & Hc). apply bind_Ok in Hc as (_ & _ & Hc). apply Ok_inj in Hc as <-.
    exists ty, w. split_and!; try done. destruct (column_value names cat Hcat schema fields Hschema Hrow _ _ Hty) as (w' & Hw' & ?). congruence.
Qed.

(** The key that the equality prefix fixes. *)
Definition prefix_key (equality : list (IndexComponentDefinition * Value)) : result (list Z) :=
  match equality with
  | [] => Ok []
  | _ =>
      bound ← mapR (λ '(c, v), ty ← field_type cat schema (ic_column c); Ok (mkComponent ty v (ic_descending c))) equality;
      encode_tuple cat bound
  end.

Lemma prefix_key_codes equality key : prefix_of_row fields equality → prefix_key equality = Ok key →
  ∃ codes, Forall2 component_code equality.*1 codes ∧ key = concat codes.
Proof.
  intros Hp. destruct equality as [|e l]; [intros [= <-]; by exists []|]. unfold prefix_key. intros (bound & Hb & (codes & Hm & ->)%encode_tuple_codes)%bind_Ok.
  exists codes. split; [|done]. apply mapR_Ok in Hb, Hm. revert codes Hm Hp. induction Hb as [|[c v] b l' bound Hc _ IH]; intros codes Hm Hp.
  - inversion Hm; subst. constructor.
  - inversion Hm as [|? a ? codes' Ha Hm']; subst. apply list.Forall_cons in Hp as [Hv Hp]. cbn [fst snd] in Hv. rewrite fmap_cons. constructor; [|by apply IH].
    apply bind_Ok in Hc as (ty & Hty & Hc). apply Ok_inj in Hc as <-. exists ty, v. split_and!; try done.
    destruct (column_value names cat Hcat schema fields Hschema Hrow _ _ Hty) as (w' & Hw' & ?). cbn [fst] in *. congruence.
Qed.

Lemma codes_split components codes k codes' : Forall2 component_code components codes → Forall2 component_code (take k components) codes' →
  concat codes = concat codes' ++ concat (drop k codes).
Proof.
  intros Hc Hp. assert (codes' = take k codes) as ->.
  { revert k codes' Hp. induction Hc as [|c a components codes Ha _ IH]; intros k codes' Hp; destruct k as [|k]; cbn [take] in *; inversion Hp as [|? ? ? ? Hb Hp']; subst; try done.
    f_equal; [by eapply component_code_inj|by apply IH]. }
  by rewrite <-concat_app, take_drop.
Qed.

Lemma row_codes_bytes components codes : Forall2 component_code components codes → all_bytes (concat codes) = true.
Proof.
  intros Hc. apply all_bytes_concat. intros a Ha. apply list_elem_of_lookup in Ha as [i Ha]. destruct (Forall2_lookup_r _ _ _ _ _ Hc Ha) as (c & _ & Hca).
  by eapply component_code_bytes.
Qed.

(** The bounds of the scan hold the key of every row that satisfies the constraints. *)
Lemma access_bounds_row components m sort key o : matched_row cat schema fields components m → tuple_key cat schema components fields = Ok key →
  access_bounds cat schema components m None sort = Ok o → ∃ b, o = Some b ∧ above b.1 key && below b.2 key = true.
Proof.
  intros [Hpos Hcol Hval Hrange] Hk Ha. unfold access_bounds in Ha. rewrite Hpos in Ha. cbv beta iota zeta in Ha.
  apply bind_Ok in Ha as (ek & Hek & Ha). change (prefix_key (mt_equality m) = Ok ek) in Hek. apply (bind_Ok (Ok None)) in Ha as (bd & [= <-] & Ha).
  apply tuple_key_codes in Hk as (codes & Hc & ->). apply prefix_key_codes in Hek as (pcodes & Hp & ->); [|done].
  pose proof Hp as Hlen%Forall2_length. rewrite length_fmap in Hlen. rewrite Hcol in Hp. pose proof (codes_split _ _ _ _ Hc Hp) as Hsplit.
  destruct (mt_range m) as [[lower upper]|].
  - destruct (Hrange lower upper eq_refl) as (c & ty & v & Hl & Hty & Hv & Tv & Hw). rewrite Hl in Ha. apply (bind_Ok (Ok c)) in Ha as (c' & [= <-] & Ha).
    rewrite Hty in Ha. apply (bind_Ok (Ok ty)) in Ha as (ty' & [= <-] & Ha). apply bind_Ok in Ha as (bounds & Hb & Ha). apply Ok_inj in Ha as <-.
    destruct (Forall2_lookup_l _ _ _ _ _ Hc Hl) as (a & Hla & ty'' & v'' & Hty'' & Hv'' & _ & Hcode). assert (ty'' = ty) as -> by congruence. assert (v'' = v) as -> by congruence.
    rewrite (drop_S _ _ _ Hla) in Hsplit. cbn [concat] in Hsplit. rewrite Hsplit. eapply (index_range_bounds_hold cat ty (ic_descending c)); [apply Tv|exact Hcode|..|exact Hb].
    + rewrite <-Hsplit. by eapply row_codes_bytes.
    + destruct Hw as [Hlo Hup]. split; intros l El; [destruct (Hlo l El) as [? []]|destruct (Hup l El) as [? []]]; done.
  - destruct (Nat.eqb_spec (length (mt_equality m)) (length components)) as [E|_]; apply Ok_inj in Ha as <-.
    + rewrite drop_ge in Hsplit by (rewrite E; apply Forall2_length in Hc; lia). rewrite Hsplit, app_nil_r. eexists. split; [done|]. cbn [fst snd above below].
      by rewrite bytes_cmp_refl.
    + eexists. split; [done|]. rewrite Hsplit. apply prefix_bounds_hold.
Qed.
End key.

(** ** Bounds are the right way round *)

Definition typed_constraint (cat : Catalog) (schema : Columns) (c : IndexConstraint) : Prop :=
  ∃ ty, field_type cat schema (cn_column c) = Ok ty ∧ has_type cat ty (cn_value c).

Lemma leading_constraints_typed names cat schema `{TextLib} stages acc : good_catalog names cat → good_type names (TRecord schema) →
  Forall (bound_filter cat schema) (leading_filters stages) → Forall (typed_constraint cat schema) acc →
  Forall (typed_constraint cat schema) (leading_constraints stages acc).
Proof.
  intros Hcat Hschema. revert acc. induction stages as [|s stages IH]; intros acc Hb Hacc; [done|]. destruct s; try done; cbn [leading_constraints leading_filters] in *.
  - destruct acc; auto.
  - apply list.Forall_cons in Hb as [(e0 & Hok & Hb & Hd) Hbs]. destruct (simple_index_comparison e) as [[[column op] v]|] eqn:Es; [|done].
    apply IH; [done|]. apply Forall_app. split; [done|]. constructor; [|constructor]. by eapply (compare_typed names cat Hcat schema "field" [] Hschema e0); [apply Hok|..].
Qed.

Definition wf_limits (limits : option RangeLimit * option RangeLimit) : Prop :=
  (∀ l, limits.1 = Some l → wf_value (rl_value l) = true) ∧ (∀ u, limits.2 = Some u → wf_value (rl_value u) = true).

Lemma merge_range_wf cat ty own limits : Forall (λ c, wf_value (cn_value c) = true) own → merge_range_bounds cat ty own = Ok limits → wf_limits limits.
Proof.
  intros Hown. unfold merge_range_bounds. assert (Hacc : wf_limits (None, None)) by done. revert Hacc. generalize (None : option RangeLimit, None : option RangeLimit).
  induction Hown as [|c own Hw _ IH]; intros acc Hacc Hm; [by injection Hm as <-|]. cbn [foldR] in Hm. apply bind_Ok in Hm as (acc' & Hs & Hm). eapply IH; [|exact Hm].
  destruct acc as [lower upper], Hacc as [Hl Hu]. cbn [fst snd] in Hl, Hu. unfold merge_step in Hs.
  destruct (cn_op c); try (injection Hs as <-; done);
    apply bind_Ok in Hs as (slot & Hslot & Hs); apply Ok_inj in Hs as <-; apply bind_Ok in Hslot as (b & _ & Hslot); apply Ok_inj in Hslot as <-;
    destruct b; (split; cbn [fst snd]; [try exact Hl|try exact Hu]); by intros ? [= <-].
Qed.

(** What [match_components] found, when it is not a contradiction. *)
Record matched_static (cat : Catalog) (schema : Columns) (components : list IndexComponentDefinition) (m : Matched) : Prop := {
  ms_values : Forall (λ e, wf_value e.2 = true) (mt_equality m);
  ms_range limits c ty : mt_range m = Some limits → mt_impossible m = false → components !! length (mt_equality m) = Some c → field_type cat schema (ic_column c) = Ok ty →
    wf_limits limits ∧ range_is_empty cat ty limits.1 limits.2 = Ok false
}.

Lemma match_components_static cat schema constraints components equality m rest : Forall (typed_constraint cat schema) constraints →
  Forall (λ e, wf_value e.2 = true) equality → components = equality.*1 ++ rest →
  match_components cat schema constraints rest equality = Ok m → matched_static cat schema components m.
Proof.
  intros Hh. assert (Hwf : Forall (λ c, wf_value (cn_value c) = true) constraints) by (revert Hh; apply Forall_impl; by intros c (ty & _ & _ & ?)).
  revert equality. induction rest as [|c rest IH]; intros equality Hp Hc Hm; cbn [match_components] in Hm; [by injection Hm as <-|].
  assert (Hnone : ∀ b, matched_static cat schema components (mkMatched equality None b)) by done.
  assert (Hown : Forall (λ c, wf_value (cn_value c) = true) (List.filter (λ k, String.eqb (cn_column k) (ic_column c)) constraints)).
  { rewrite list.Forall_forall in Hwf |- *. intros k Hk%list_elem_of_In. apply filter_In in Hk as [Hk _]. by apply Hwf, list_elem_of_In. }
  destruct (List.filter _ constraints) as [|k own]; [by injection Hm as <-|]. apply bind_Ok in Hm as (ty & Hty & Hm).
  destruct (List.find _ (k :: own)) as [q|] eqn:Eq.
  - apply find_some in Eq as [Hq%list_elem_of_In _]. rewrite list.Forall_forall in Hown. specialize (Hown q Hq). apply bind_Ok in Hm as (possible & Hpos & Hm).
    assert (Hp' : Forall (λ e : IndexComponentDefinition * Value, wf_value e.2 = true) (equality ++ [(c, cn_value q)])) by (apply Forall_app; split; [done|by repeat constructor]).
    destruct possible; [|by injection Hm as <-]. eapply IH; [exact Hp'| |exact Hm]. by rewrite fmap_app, <-app_assoc.
  - apply bind_Ok in Hm as ([lower upper] & Hmr & Hm). pose proof (merge_range_wf _ _ _ _ Hown Hmr) as Hw.
    assert (Hm' : m = mkMatched equality None false ∨ ∃ b, range_is_empty cat ty lower upper = Ok b ∧ m = mkMatched equality (Some (lower, upper)) b).
    { destruct lower, upper; try (by left; injection Hm as <-); right; apply bind_Ok in Hm as (b & Hb & Hm); apply Ok_inj in Hm as <-; eauto. }
    destruct Hm' as [-> |(b & Hb & ->)]; [done|]. split; [done|]. intros limits c' ty' [= <-] Hi Hl Hty'. cbn [mt_equality mt_impossible] in *. subst b.
    rewrite Hc, lookup_app_r, length_fmap, Nat.sub_diag in Hl by (by rewrite length_fmap). injection Hl as <-. by assert (ty' = ty) as -> by congruence.
Qed.

Lemma prefix_key_bytes cat schema equality key : Forall (λ e, wf_value e.2 = true) equality → prefix_key cat schema equality = Ok key → all_bytes key = true.
Proof.
  intros Hw. destruct equality as [|e l]; [by intros [= <-]|]. unfold prefix_key. intros (bound & Hb & (codes & Hm & ->)%encode_tuple_codes)%bind_Ok.
  eapply mapR_bytes; [exact Hm|]. intros c a Hc Ha. eapply code_bytes; [|exact Ha]. apply mapR_Ok in Hb. apply list_elem_of_lookup in Hc as [i Hi].
  destruct (Forall2_lookup_r _ _ _ _ _ Hb Hi) as ([c' v] & Hv & Hcv). apply bind_Ok in Hcv as (ty & _ & Hcv). apply Ok_inj in Hcv as <-.
  rewrite Forall_lookup in Hw. exact (Hw _ _ Hv).
Qed.

Lemma page_seek_bounds_ok s e key greater b : page_seek_bounds s e key greater = Some b → range_panics b = false.
Proof.
  unfold page_seek_bounds. intros (o & _ & Hb)%bind_Some. case_if_in Hb; [|done]. injection Hb as <-. destruct o as [s' e']. cbn [fst snd] in E.
  unfold bounds_have_values in E. cbn [range_panics]. destruct s', e'; try done; cbn [Access.bound_key is_included] in E; by destruct (bytes_cmp _ _).
Qed.

Lemma access_bounds_ok cat schema components m page sort b : matched_static cat schema components m →
  access_bounds cat schema components m page sort = Ok (Some b) → range_panics b = false.
Proof.
  intros [Hv Hrange] Ha. unfold access_bounds in Ha. destruct (mt_impossible m); [done|]. cbv beta iota zeta in Ha.
  apply bind_Ok in Ha as (ek & Hek & Ha). change (prefix_key cat schema (mt_equality m) = Ok ek) in Hek. apply bind_Ok in Ha as (bd & _ & Ha).
  pose proof (prefix_key_bytes _ _ _ _ Hv Hek) as Hbytes. destruct (mt_range m) as [[lower upper]|].
  - apply bind_Ok in Ha as (c & Hc%ok_or_Ok & Ha). apply bind_Ok in Ha as (ty & Hty & Ha). apply bind_Ok in Ha as (bounds & Hb & Ha). apply Ok_inj in Ha.
    destruct (Hrange _ c ty eq_refl eq_refl Hc Hty) as [[Hl Hu] Hne].
    destruct bd as [[key greater]|]; [apply bind_Some in Ha as ([s e] & _ & Ha); by eapply page_seek_bounds_ok|]. subst bounds.
    by eapply (index_range_bounds_ok cat ty (ic_descending c) ek lower upper).
  - case_if_in Ha; [injection Ha as <-; cbn [range_panics]; by rewrite bytes_cmp_refl|]. apply Ok_inj in Ha. destruct bd as [[key greater]|].
    + destruct (prefix_bounds ek) as [s e]. by eapply page_seek_bounds_ok.
    + injection Ha as <-. apply prefix_bounds_ok.
Qed.

(** ** The chosen scan *)

Section chosen.
Context `{TextLib} `{PredicateText}.

(** The parts of a candidate for an index. *)
Record candidate_for (db : Database) (p : Pipeline) (page : option PreparedPage) (t : Table) (d : IndexDefinition) (scan : PlannedIndexScan)
    (sort : option nat) (m : Matched) : Prop := {
  cf_matched : match_components (db_catalog db) (tbl_schema t) (leading_index_constraints p) (effective_components d) [] = Ok m;
  cf_shape : is_shape scan = shape_key d;
  cf_bounds : access_bounds (db_catalog db) (tbl_schema t) (effective_components d) m page
    (index_sort_match p (effective_components d) (length (mt_equality m))) = Ok (is_bounds scan);
  cf_sort : sort = fst <$> index_sort_match p (effective_components d) (length (mt_equality m));
  cf_reverse : is_reverse scan = match index_sort_match p (effective_components d) (length (mt_equality m)) with Some s => s.2 | None => false end
}.

Lemma index_access_candidate_for db p page t d estimate c : table db (pl_from p) = Ok t →
  index_access_candidate db p page d (leading_index_constraints p) estimate = Ok (Some c) → ∃ m, candidate_for db p page t d (ac_index_scan c) (ac_ordered_sort c) m.
Proof.
  intros Ht Hc. unfold index_access_candidate in Hc. rewrite Ht in Hc. apply (bind_Ok (Ok t)) in Hc as (t' & [= <-] & Hc). apply bind_Ok in Hc as (m & Hm & Hc).
  cbv zeta in Hc. exists m. destruct (index_sort_match p (effective_components d) (length (mt_equality m))) as [[n b]|] eqn:Es; destruct (mt_equality m) eqn:Ee, (mt_range m); try discriminate Hc;
    apply bind_Ok in Hc as (? & _ & Hc); apply bind_Ok in Hc as (bounds & Hb & Hc); apply bind_Ok in Hc as (? & _ & Hc); injection Hc as <-; split; rewrite ?Ee, ?Es; done.
Qed.

(** An index of the table whose predicate the leading filters imply. *)
Definition usable (db : Database) (p : Pipeline) (page : option PreparedPage) (t : Table) (scan : PlannedIndexScan) (sort : option nat) : Prop :=
  ∃ d m, bt_get (shape_key d) (definitions_of db (pl_from p)) = Some d ∧
    (∀ predicate, ix_predicate d = Some predicate → ∃ atoms,
      leading_atoms (db_catalog db) (tbl_schema t) (pl_stages p) [] = Ok atoms ∧ implied_by predicate atoms = true) ∧
    candidate_for db p page t d scan sort m.

Lemma definition_shape db name t d : indexed db name t → d ∈ (definitions_of db name).*2 → bt_get (shape_key d) (definitions_of db name) = Some d.
Proof.
  intros Hi ([s d'] & -> & Hin)%list_elem_of_fmap. apply bt_get_iff in Hin; [|apply Hi]. cbn [snd]. by rewrite <-(ti_shape _ _ _ _ Hi _ _ Hin).
Qed.

Lemma foldR_elem {A S} (P : S → Prop) (f : S → A → result S) s l s' : P s → (∀ s x s', x ∈ l → P s → f s x = Ok s' → P s') →
  foldR f s l = Ok s' → P s'.
Proof.
  revert s. induction l as [|x l IH]; intros s Hs Hf Hl; [by injection Hl as <-|]. cbn [foldR] in Hl. apply bind_Ok in Hl as (s1 & H1' & Hl).
  eapply IH; [|intros ? y ? Hy; apply Hf; by right|exact Hl]. by eapply (Hf s x); [left|..].
Qed.

Definition best_usable (db : Database) (p : Pipeline) (page : option PreparedPage) (t : Table) (acc : list string * option IndexAccessCandidate) : Prop :=
  ∀ c, acc.2 = Some c → usable db p page t (ac_index_scan c) (ac_ordered_sort c).

Lemma consider_usable db p page t estimate atoms acc d acc' : table db (pl_from p) = Ok t →
  leading_atoms (db_catalog db) (tbl_schema t) (pl_stages p) [] = Ok atoms → bt_get (shape_key d) (definitions_of db (pl_from p)) = Some d →
  best_usable db p page t acc → consider db p page estimate (leading_index_constraints p) atoms acc d = Ok acc' → best_usable db p page t acc'.
Proof.
  intros Ht Ha Hd Hacc Hc. destruct acc as [rej best]. unfold consider in Hc. cbv zeta in Hc.
  destruct (match ix_predicate d with Some _ => _ | None => true end) eqn:Epr; cbn [negb] in Hc.
  - case_if_in Hc; [by injection Hc as <-|]. apply bind_Ok in Hc as (o & Ho & Hc). apply Ok_inj in Hc as <-. unfold best_usable in *. cbn [snd] in *. destruct o as [c|]; [|done].
    destruct (index_access_candidate_for _ _ _ _ _ _ _ Ht Ho) as [m Hm].
    assert (Hu : ∀ c', match ix_predicate d with Some _ => with_proven c | None => c end = c' → usable db p page t (ac_index_scan c') (ac_ordered_sort c')).
    { intros c' <-. exists d, m. split_and!; try done; [|by destruct (ix_predicate d)]. intros q Eq. exists atoms. by rewrite Eq in Epr. }
    intros c' Hc'. destruct best as [cur|]; [|injection Hc' as Hc'; by apply Hu]. destruct (better _ cur); [injection Hc' as Hc'; by apply Hu|by apply Hacc].
  - case_if_in Hc; [|by injection Hc as <-]. apply bind_Ok in Hc as (o & Ho & Hc). apply Ok_inj in Hc as <-. exact Hacc.
Qed.

Lemma plan_access_usable db p page t estimate access scan : table db (pl_from p) = Ok t → indexed db (pl_from p) t →
  plan_access db p page estimate = Ok access → pa_index_scan access = Some scan → usable db p page t scan (pa_ordered_sort access).
Proof.
  intros Ht Hi Hp Hs. unfold plan_access in Hp. rewrite Ht in Hp. apply (bind_Ok (Ok t)) in Hp as (t' & [= <-] & Hp).
  apply bind_Ok in Hp as (atoms & Ha & Hp). unfold leading_query_predicate_atoms in Ha. rewrite Ht in Ha. apply (bind_Ok (Ok t)) in Ha as (t' & [= <-] & Ha).
  apply bind_Ok in Hp as ([rejections best] & Hf & Hp). apply Ok_inj in Hp as <-.
  apply (foldR_elem (best_usable db p page t)) in Hf; [|done|].
  - destruct best as [c|]; [|done]. cbn [pa_index_scan pa_ordered_sort] in *. injection Hs as <-. by apply Hf.
  - intros acc d acc' Hd. eapply consider_usable; [done..|]. by eapply definition_shape.
Qed.

Lemma plan_access_for_index_usable db p page t shape estimate access scan : table db (pl_from p) = Ok t → indexed db (pl_from p) t →
  plan_access_for_index db p page shape estimate = Ok access → pa_index_scan access = Some scan → usable db p page t scan (pa_ordered_sort access).
Proof.
  intros Ht Hi Hp Hs. unfold plan_access_for_index in Hp. apply bind_Ok in Hp as (d & Hd%ok_or_Ok & Hp). apply find_some in Hd as [Hd%list_elem_of_In Es%String.eqb_eq].
  apply bind_Ok in Hp as (proven & Hproven & Hp). case_if_in Hp; [done|]. case_if_in Hp; [done|]. apply bind_Ok in Hp as (o & Ho & Hp).
  apply bind_Ok in Hp as (c & ->%ok_or_Ok & Hp). apply Ok_inj in Hp as <-. destruct (index_access_candidate_for _ _ _ _ _ _ _ Ht Ho) as [m Hm].
  exists d, m. split_and!; [by eapply definition_shape| |].
  - intros q Eq. rewrite Eq in Hproven. apply bind_Ok in Hproven as (atoms & Ha & Hproven). apply Ok_inj in Hproven. exists atoms.
    unfold leading_query_predicate_atoms in Ha. rewrite Ht in Ha. apply (bind_Ok (Ok t)) in Ha as (t' & [= <-] & Ha). split; [done|]. by destruct (implied_by q atoms), proven.
  - cbn [pa_index_scan pa_ordered_sort] in *. injection Hs as <-. by destruct (ix_predicate d).
Qed.
End chosen.

(** ** Candidates *)

Section candidates.
Context `{TextLib} `{PredicateText} `{Base64}.
Context (db : Database) (p : Pipeline) (t : Table).
Hypotheses (Hdb : consistent db) (Ht : table db (pl_from p) = Ok t).
Notation cat := (db_catalog db).
Notation schema := (tbl_schema t).
Hypothesis (Hbound : Forall (bound_filter cat schema) (leading_filters (pl_stages p))).

Definition accepted (r : Row) : Prop := Forall (accepts cat (row_fields r)) (leading_filters (pl_stages p)).

Lemma schema_names : ∃ names, good_catalog names cat ∧ good_type names (TRecord schema).
Proof.
  destruct (so_names _ (ln_schema _ (co_linked _ Hdb))) as (names & Hg & Hn). exists names. split; [done|].
  destruct (consistent_lookup _ _ _ Hdb Ht) as [_ _ _ Htt _]. split; [apply Htt|]. eapply Hn. by apply table_Ok.
Qed.

Lemma stored_typed r : r ∈ tbl_rows t → typed_row cat schema (row_fields r).
Proof. destruct (consistent_lookup _ _ _ Hdb Ht) as [_ _ _ _ Hr]. apply Hr. Qed.

Lemma accepted_matched r d scan sort m : r ∈ tbl_rows t → accepted r → candidate_for db p None t d scan sort m →
  matched_row cat schema (row_fields r) (effective_components d) m.
Proof.
  intros Hr Ha Hc. destruct schema_names as (names & Hg & Hs). pose proof (stored_typed r Hr) as Hty.
  apply (match_components_row names cat Hg schema (row_fields r) Hs Hty (leading_index_constraints p) _ [] m (effective_components d)); [|constructor|done|apply Hc].
  apply (leading_constraints_hold names cat Hg schema (row_fields r) Hs Hty); [done|done|constructor].
Qed.

Lemma accepted_included r d : r ∈ tbl_rows t → accepted r → bt_get (shape_key d) (definitions_of db (pl_from p)) = Some d →
  (∀ predicate, ix_predicate d = Some predicate → ∃ atoms, leading_atoms cat schema (pl_stages p) [] = Ok atoms ∧ implied_by predicate atoms = true) →
  includes d (row_fields r) = true.
Proof.
  intros Hr Ha Hd Himp. destruct schema_names as (names & Hg & Hs). pose proof (stored_typed r Hr) as Hty. unfold includes.
  destruct (ix_predicate d) as [q|] eqn:Eq; [|done]. destruct (Himp q eq_refl) as (atoms & Hl & Hi).
  destruct (so_index _ (ln_schema _ (co_linked _ Hdb)) _ _ _ _ (proj1 (table_Ok _ _ _) Ht) Hd) as (_ & _ & _ & Hpr).
  apply (implied_matches cat schema (proj1 Hg) (proj1 Hs) q atoms); [by apply Hpr| | |done].
  - apply (leading_atoms_hold names cat Hg schema (row_fields r) Hs Hty (pl_stages p) []); [done|done|done|constructor].
  - intros path ty v Hpt Hv. destruct (column_typed names cat Hg schema (row_fields r) path ty v Hs Hty Hpt Hv) as [[] ?]. done.
Qed.

(** The bounds of a planned scan are accepted by [BTreeMap::range]. *)
Lemma candidate_bounds_ok page d scan sort m b : candidate_for db p page t d scan sort m → is_bounds scan = Some b → range_panics b = false.
Proof.
  intros Hc Hb. destruct schema_names as (names & Hg & Hs). pose proof (cf_bounds _ _ _ _ _ _ _ _ Hc) as Ha. rewrite Hb in Ha.
  eapply access_bounds_ok; [|exact Ha]. eapply (match_components_static _ _ (leading_index_constraints p) _ []); [|constructor|done|apply Hc].
  by eapply (leading_constraints_typed names); [..|done|constructor].
Qed.

(** Every accepted row is in the index, within the bounds of the scan. *)
Lemma accepted_in_bounds r d scan sort m : r ∈ tbl_rows t → accepted r → bt_get (shape_key d) (definitions_of db (pl_from p)) = Some d →
  (∀ predicate, ix_predicate d = Some predicate → ∃ atoms, leading_atoms cat schema (pl_stages p) [] = Ok atoms ∧ implied_by predicate atoms = true) →
  candidate_for db p None t d scan sort m →
  ∃ b k, is_bounds scan = Some b ∧ row_key cat schema d r = Ok (Some k) ∧ above b.1 k && below b.2 k = true.
Proof.
  intros Hr Ha Hd Himp Hc. destruct schema_names as (names & Hg & Hs). pose proof (stored_typed r Hr) as Hty.
  destruct (consistent_lookup _ _ _ Hdb Ht) as [Hi _ _ _ _]. destruct (ti_posting _ _ _ _ Hi _ d Hd) as (q & _ & Hpo & _).
  pose proof (posting_of_keyed _ _ _ Hpo r Hr) as Hk. unfold row_key in *. rewrite (accepted_included r d Hr Ha Hd Himp) in *.
  destruct (tuple_key cat schema (effective_components d) (row_fields r)) as [k|] eqn:Ek; [|done].
  destruct (access_bounds_row names cat Hg schema (row_fields r) Hs Hty _ _ _ _ _ (accepted_matched r d scan sort m Hr Ha Hc) Ek (cf_bounds _ _ _ _ _ _ _ _ Hc)) as (b & Hb & Hin).
  by exists b, k.
Qed.
End candidates.
