(* ===== verification/Candidates.v ===== *)
(** * Candidate rows

    The rows that [materialize_access_candidates] of src/src/db.rs reads for a planned
    access: in table order, or in the order of the sort that the index satisfies. *)
From stdpp Require Import gmap sets sorting relations.
From S2P Require Import Prelude Bytes Text Decimal Temporal Float64 Scalars BTree Model Coerce OrderedKey Matching Coverage Catalog Schema Expression Typing EvalOps Soundness IndexPredicate Database Query Access Ranges Postings Rows Tables Predicates References Mutations Links Invariant Effects Planning.

#[local] Strategy 1000 [MAX_DEPTH underlying field_type cmp_typed coerce].

(** ** Sorting by keys of an index *)

(** A sort key as [prepare_pipeline] leaves it. *)
Definition key_bound (cat : Catalog) (schema : Columns) (k : SortKey) : Prop :=
  ∃ ty, sk_ty k = Some ty ∧ field_type cat schema (sk_column k) = Ok ty.

(** The key sorts by the component, in its direction or in the other one. *)
Definition sorts_by (reversed : bool) (k : SortKey) (c : IndexComponentDefinition) : Prop :=
  sk_column k = ic_column c ∧ sk_descending k = xorb reversed (ic_descending c).

Section order.
Context (cat : Catalog) (schema : Columns) (left right : Fields).
Notation compare keys := (compare_rows_by_typed_keys cat keys left right).

(** One key of the comparison. *)
Lemma compare_key k keys c a b : key_bound cat schema k → sk_column k = ic_column c →
  component_code cat schema left c a → component_code cat schema right c b →
  ∃ o, code_cmp (rev_if (ic_descending c) o) a b ∧
    compare (k :: keys) = match rev_if (sk_descending k) o with Eq => compare keys | o => Ok o end.
Proof.
  intros (ty & Hk & Hty) Hcol (ty1 & v & Hty1 & Hv & [_ Wv] & Ha) (ty2 & w & Hty2 & Hw & [_ Ww] & Hb). rewrite Hcol in Hty.
  assert (ty1 = ty) as -> by congruence. assert (ty2 = ty) as -> by congruence. destruct (code_order _ _ _ _ _ _ _ Wv Ww Ha Hb) as (o & Ho & Hc).
  exists o. split; [done|]. cbn [compare_rows_by_typed_keys]. rewrite Hk, Hcol, Hv, Hw. cbn [ok_or]. by rewrite !bind_pure, Ho.
Qed.

Lemma compare_keys reversed keys components codes1 codes2 tail1 tail2 : Forall (key_bound cat schema) keys →
  Forall2 (sorts_by reversed) keys components → Forall2 (component_code cat schema left) components codes1 →
  Forall2 (component_code cat schema right) components codes2 →
  ∃ o, compare keys = Ok o ∧ (o ≠ Eq → bytes_cmp (concat codes1 ++ tail1) (concat codes2 ++ tail2) = rev_if reversed o).
Proof.
  intros Hb Hs. revert codes1 codes2 Hb. induction Hs as [|k c keys components [Hcol Hdesc] _ IH]; intros codes1 codes2 Hb H1' H2'; [by exists Eq|].
  apply list.Forall_cons in Hb as [Hk Hb]. inversion H1' as [|? a ? codes1' Ha Hc1]; subst. inversion H2' as [|? b ? codes2' Hb' Hc2]; subst.
  destruct (compare_key k keys c a b Hk Hcol Ha Hb') as (o & Hcode & ->). rewrite Hdesc. cbn [concat]. rewrite <-!app_assoc.
  assert (Hne : ∀ x, x ≠ Eq → rev_if (ic_descending c) o = x → bytes_cmp (a ++ concat codes1' ++ tail1) (b ++ concat codes2' ++ tail2) = x).
  { intros x Hx E. rewrite E in Hcode. inversion Hcode as [|q y z s t c' Hyz Hcmp]; subst; [done|]. rewrite <-!app_assoc, bytes_cmp_app. cbn [app bytes_cmp].
    by destruct (y ?= z) eqn:Eyz. }
  destruct (decide (o = Eq)) as [->|Ho].
  - assert (a = b) as <-. { assert (rev_if (ic_descending c) Eq = Eq) as E by (by destruct (ic_descending c)). rewrite E in Hcode. inversion Hcode as [|? ? ? ? ? ? Hyz Hcmp]; subst; [done|]. by apply Z.compare_eq_iff in Hcmp. }
    destruct (IH codes1' codes2' Hb Hc1 Hc2) as (o' & -> & Ho'). exists o'. split; [by destruct (xorb _ _)|]. by rewrite bytes_cmp_app.
  - exists (rev_if (xorb reversed (ic_descending c)) o). split; [by destruct o, (xorb reversed (ic_descending c))|]. intros _.
    apply Hne; [by destruct o, reversed, (ic_descending c)|by destruct o, reversed, (ic_descending c)].
Qed.

(** Keys on which the rows agree do not matter. *)
Lemma compare_fixed (fixed : string → bool) keys : Forall (key_bound cat schema) keys →
  (∀ k, k ∈ keys → fixed (sk_column k) = true → ∃ c a, sk_column k = ic_column c ∧ component_code cat schema left c a ∧ component_code cat schema right c a) →
  compare keys = compare (List.filter (λ k, negb (fixed (sk_column k))) keys).
Proof.
  induction keys as [|k keys IH]; intros Hb Hf; [done|]. apply list.Forall_cons in Hb as [Hk Hb]. cbn [List.filter].
  assert (IH' : compare keys = compare (List.filter (λ k, negb (fixed (sk_column k))) keys)) by (apply IH; [done|]; intros q Hq; apply Hf; by right).
  destruct (fixed (sk_column k)) eqn:E; cbn [negb].
  - destruct (Hf k ltac:(by left) E) as (c & a & Hcol & H1' & H2'). destruct (compare_key k keys c a a Hk Hcol H1' H2') as (o & Hc & ->).
    assert (o = Eq) as ->. { apply code_cmp_bytes in Hc. rewrite bytes_cmp_refl in Hc. by destruct o, (ic_descending c). }
    destruct (sk_descending k); done.
  - cbn [compare_rows_by_typed_keys]. by rewrite IH'.
Qed.
End order.

(** ** The sort that an index satisfies *)

Lemma skip_lets_spec stages n rest m : skip_lets stages n = (rest, m) → ∃ pre, stages = pre ++ rest ∧ m = (n + length pre)%nat.
Proof.
  revert n. induction stages as [|s stages IH]; intros n Hs; [injection Hs as <- <-; exists []; split; [done|simpl; lia]|].
  destruct s as [b| | | | | | | | | | | | |]; try (injection Hs as <- <-; exists []; split; [done|simpl; lia]). cbn [skip_lets] in Hs.
  destruct (IH _ Hs) as (pre & -> & ->). exists (StLet b :: pre). split; [done|]. simpl. lia.
Qed.

Lemma skip_filters_spec stages n rest m : skip_filters stages n = Some (rest, m) → ∃ pre, stages = pre ++ rest ∧ m = (n + length pre)%nat.
Proof.
  revert n. induction stages as [|s stages IH]; intros n Hs; [injection Hs as <- <-; exists []; split; [done|simpl; lia]|].
  destruct s as [|e| | | | | | | | | | | |]; try (injection Hs as <- <-; exists []; split; [done|simpl; lia]). cbn [skip_filters] in Hs. apply bind_Some in Hs as (x & _ & Hs).
  destruct (IH _ Hs) as (pre & -> & ->). exists (StFilter e :: pre). split; [done|]. simpl. lia.
Qed.

Definition is_fixed (components : list IndexComponentDefinition) (column : string) : bool := existsb (String.eqb column) (ic_column <$> components).

Lemma pairs_sort (reversed : bool) (keys : list SortKey) (components : list IndexComponentDefinition) : length keys = length components →
  forallb (λ '(k, c), String.eqb (sk_column k) (ic_column c)) (zip keys components) = true →
  forallb (λ '(k, c), if reversed then negb (Bool.eqb (sk_descending k) (ic_descending c)) else Bool.eqb (sk_descending k) (ic_descending c))
    (zip keys components) = true → Forall2 (sorts_by reversed) keys components.
Proof.
  revert components. induction keys as [|k keys IH]; intros [|c components] Hl Hc Hd; try done. cbn [zip zip_with forallb] in *.
  apply andb_true_iff in Hc as [Hc%String.eqb_eq Hcs], Hd as [Hd Hds]. constructor; [|apply IH; auto]. split; [done|].
  by destruct reversed, (sk_descending k), (ic_descending c).
Qed.

Lemma index_sort_match_spec p components e position reversed : index_sort_match p components e = Some (position, reversed) →
  ∃ keys, pl_stages p !! position = Some (StSort keys) ∧
    let rest := List.filter (λ k, negb (is_fixed (take e components) (sk_column k))) keys in
    Forall2 (sorts_by reversed) rest (take (length rest) (drop e components)).
Proof.
  unfold index_sort_match. intros Hs. destruct (skip_lets (pl_stages p) 0) as [s1 n1] eqn:E1. apply skip_lets_spec in E1 as (pre1 & Hp & ->).
  apply bind_Some in Hs as ([s2 n2] & E2 & Hs). apply skip_filters_spec in E2 as (pre2 & -> & ->).
  destruct s2 as [|[| | | | | | | | | | |keys| |] s2]; try discriminate Hs. exists keys.
  assert (Hat : pl_stages p !! (0 + length pre1 + length pre2)%nat = Some (StSort keys)).
  { rewrite Hp, lookup_app_r, lookup_app_r by lia. by replace (0 + length pre1 + length pre2 - length pre1 - length pre2)%nat with 0%nat by lia. }
  cbv zeta. change (List.filter (λ k, negb (is_fixed (take e components) (sk_column k))) keys) with
    (List.filter (λ k, negb (existsb (String.eqb (sk_column k)) (ic_column <$> take e components))) keys).
  destruct (List.filter _ keys) as [|k rest]; [by injection Hs as <- <-; split; [|constructor]|].
  case_if_in Hs; [done|]. apply Nat.ltb_ge in E. case_if_in Hs; [done|]. apply negb_false_iff in E0. case_if_in Hs; [|done]. injection Hs as <- <-. split; [done|].
  assert (Hl : length (k :: rest) = length (take (length (k :: rest)) (drop e components))) by (rewrite length_take, length_drop; lia).
  apply pairs_sort; [done|done|]. destruct (forallb (λ '(k, c), negb (Bool.eqb (sk_descending k) (ic_descending c))) _) eqn:Er; [exact Er|].
  rewrite orb_false_r in E1. exact E1.
Qed.

(** Rows with the values of the same equality prefix have the same leading codes. *)
Lemma same_prefix_codes cat schema left right equality components codes1 codes2 :
  equality.*1 = take (length equality) components → prefix_of_row left equality → prefix_of_row right equality →
  Forall2 (component_code cat schema left) components codes1 → Forall2 (component_code cat schema right) components codes2 →
  take (length equality) codes1 = take (length equality) codes2.
Proof.
  intros Hcol Hv1 Hv2 Hc1 Hc2. unfold prefix_of_row in Hv1, Hv2. rewrite Forall_lookup in Hv1, Hv2. apply list_eq. intros i.
  destruct (decide (i < length equality)%nat) as [Hi|Hi]; [rewrite !lookup_take_lt by done|by rewrite !lookup_take_ge by lia].
  destruct (codes1 !! i) as [a|] eqn:Ea; [|apply lookup_ge_None in Ea; symmetry; apply lookup_ge_None; apply Forall2_length in Hc1, Hc2; lia].
  destruct (Forall2_lookup_r _ _ _ _ _ Hc1 Ea) as (c & Hci & H1'). destruct (Forall2_lookup_l _ _ _ _ _ Hc2 Hci) as (b & -> & H2'). f_equal.
  assert (equality.*1 !! i = Some c) as Hx by (by rewrite Hcol, lookup_take_lt). rewrite list_lookup_fmap in Hx.
  destruct (equality !! i) as [[c' v]|] eqn:Hv; [|done]. injection Hx as ->. specialize (Hv1 _ _ Hv). specialize (Hv2 _ _ Hv). cbn [fst snd] in Hv1, Hv2.
  destruct H1' as (ty & w & Hty & Hw & _ & Hcode), H2' as (ty' & w' & Hty' & Hw' & _ & Hcode'). congruence.
Qed.

(** ** Hits and rows *)

Section candidates.
Context `{TextLib} `{PredicateText} `{Base64}.
Context (db : Database) (p : Pipeline) (t : Table).
Hypotheses (Hdb : consistent db) (Ht : table db (pl_from p) = Ok t).
Notation cat := (db_catalog db).
Notation schema := (tbl_schema t).
Hypothesis (Hbound : Forall (bound_filter cat schema) (leading_filters (pl_stages p))).
Notation accepted := (accepted db p).

(** The rows are in the order of the sort keys; the comparison of two rows answers. *)
Definition in_order (keys : list SortKey) (r1 r2 : Row) : Prop :=
  accepted r1 → accepted r2 → ∃ c, compare_rows_by_typed_keys cat keys (row_fields r1) (row_fields r2) = Ok c ∧ c ≠ Gt.

Lemma accepted_order r1 r2 d scan sort m position reversed k1 k2 i1 i2 : r1 ∈ tbl_rows t → r2 ∈ tbl_rows t →
  candidate_for db p None t d scan sort m →
  index_sort_match p (effective_components d) (length (mt_equality m)) = Some (position, reversed) →
  row_key cat schema d r1 = Ok (Some k1) → row_key cat schema d r2 = Ok (Some k2) → hit_before reversed (k1, i1) (k2, i2) →
  ∃ keys, pl_stages p !! position = Some (StSort keys) ∧ (Forall (key_bound cat schema) keys → in_order keys r1 r2).
Proof.
  intros Hr1 Hr2 Hc Hs Hk1 Hk2 Hh. destruct (index_sort_match_spec _ _ _ _ _ Hs) as (keys & Hat & Hsorts). exists keys. split; [done|]. intros Hb Ha1 Ha2. cbv zeta in Hsorts.
  destruct (schema_names db p t Hdb Ht) as (names & Hg & Hsch). pose proof (stored_typed db p t Hdb Ht r1 Hr1) as Hty1. pose proof (stored_typed db p t Hdb Ht r2 Hr2) as Hty2.
  destruct (accepted_matched db p t Hdb Ht Hbound r1 d scan sort m Hr1 Ha1 Hc) as [_ Hcol Hv1 _].
  destruct (accepted_matched db p t Hdb Ht Hbound r2 d scan sort m Hr2 Ha2 Hc) as [_ _ Hv2 _].
  unfold row_key in Hk1, Hk2. case_if_in Hk1; [|done]. case_if_in Hk2; [|done]. apply fmap_Ok in Hk1 as (k & Hk1 & [= <-]), Hk2 as (k' & Hk2 & [= <-]).
  apply (tuple_key_codes names cat Hg schema _ Hsch Hty1) in Hk1 as (c1 & Hc1 & ->). apply (tuple_key_codes names cat Hg schema _ Hsch Hty2) in Hk2 as (c2 & Hc2 & ->).
  set (e := length (mt_equality m)) in *. set (components := effective_components d) in *.
  set (rest := List.filter (λ k, negb (is_fixed (take e components) (sk_column k))) keys) in *.
  assert (Hsame : take e c1 = take e c2) by exact (same_prefix_codes cat schema _ _ (mt_equality m) _ _ _ Hcol Hv1 Hv2 Hc1 Hc2).
  rewrite (compare_fixed cat schema _ _ (is_fixed (take e components)) keys Hb).
  2:{ intros k _ Hf. apply existsb_exists in Hf as (col & Hcin%list_elem_of_In & Ecol%String.eqb_eq). apply list_elem_of_fmap in Hcin as (c & -> & Hcin).
      apply list_elem_of_lookup in Hcin as [i Hi]. assert (i < e)%nat by (apply lookup_lt_Some in Hi; rewrite length_take in Hi; lia). rewrite lookup_take_lt in Hi by done.
      destruct (Forall2_lookup_l _ _ _ _ _ Hc1 Hi) as (a & Ea & H1'). destruct (Forall2_lookup_l _ _ _ _ _ Hc2 Hi) as (b & Eb & H2').
      assert (a = b) as <-. { assert (take e c1 !! i = take e c2 !! i) as E' by (by rewrite Hsame). rewrite !lookup_take_lt, Ea, Eb in E' by done. by injection E'. }
      by exists c, a. }
  fold rest. apply (Forall2_drop _ _ _ e) in Hc1 as Hd1. apply (Forall2_drop _ _ _ e) in Hc2 as Hd2. apply (Forall2_take _ _ _ (length rest)) in Hd1 as Ht1, Hd2 as Ht2.
  assert (Hbr : Forall (key_bound cat schema) rest).
  { rewrite list.Forall_forall in Hb |- *. intros k Hk%list_elem_of_In. apply filter_In in Hk as [Hk _]. by apply Hb, list_elem_of_In. }
  destruct (compare_keys cat schema _ _ reversed rest _ _ _ (concat (drop (length rest) (drop e c1))) (concat (drop (length rest) (drop e c2))) Hbr Hsorts Ht1 Ht2) as (o & Ho & Hcmp).
  exists o. split; [done|]. intros ->. specialize (Hcmp ltac:(done)). rewrite <-!concat_app, !take_drop in Hcmp.
  assert (Hkey : bytes_cmp (concat c1) (concat c2) = rev_if reversed Gt).
  { rewrite <-(take_drop e c1), <-(take_drop e c2), !concat_app, Hsame, bytes_cmp_app. exact Hcmp. }
  destruct Hh as [Hh|[Hh _]]; cbn [fst snd] in Hh.
  - destruct reversed; [rewrite bytes_cmp_antisym in Hh|]; rewrite Hkey in Hh; done.
  - rewrite Hh, bytes_cmp_refl in Hkey. by destruct reversed.
Qed.

(** *** The rows of the hits *)

Definition hit_row (d : IndexDefinition) (h : list Z * Z) (r : Row) : Prop :=
  r ∈ tbl_rows t ∧ row_id r = h.2 ∧ row_key cat schema d r = Ok (Some h.1).

Lemma hit_row_inj d h h' r : hit_row d h r → hit_row d h' r → h = h'.
Proof. intros (_ & E & Hk) (_ & E' & Hk'). destruct h, h'. cbn [fst snd] in *. congruence. Qed.

Lemma hits_NoDup reversed (all : list (list Z * Z)) : StronglySorted (hit_before reversed) all → NoDup all.
Proof.
  induction all as [|h all IH]; intros Hs; [constructor|]. apply StronglySorted_inv in Hs as [Hs Hh]. constructor; [|auto]. intros Hin.
  rewrite list.Forall_forall in Hh. destruct (Hh h Hin) as [E|[_ E]]; [|lia]. destruct reversed; by rewrite bytes_cmp_refl in E.
Qed.

Lemma hit_rows_NoDup d all rows : Forall2 (hit_row d) all rows → NoDup all → NoDup rows ∧ NoDup (row_id <$> rows).
Proof.
  intros Hf Hn. assert (NoDup rows) as Hrows.
  { apply NoDup_alt. intros i j r Hi Hj. destruct (Forall2_lookup_r _ _ _ _ _ Hf Hi) as (h & Hhi & Hr). destruct (Forall2_lookup_r _ _ _ _ _ Hf Hj) as (h' & Hhj & Hr').
    rewrite (hit_row_inj _ _ _ _ Hr Hr') in Hhi. by eapply NoDup_lookup. }
  split; [done|]. apply NoDup_fmap_2_strong; [|done]. intros r1 r2 H1' H2' E. apply list_elem_of_lookup in H1' as [i Hi], H2' as [j Hj].
  destruct (Forall2_lookup_r _ _ _ _ _ Hf Hi) as (_ & _ & Hr1 & _). destruct (Forall2_lookup_r _ _ _ _ _ Hf Hj) as (_ & _ & Hr2 & _).
  destruct (consistent_lookup _ _ _ Hdb Ht) as [Hx _ _ _ _]. apply (ascending_row_inj (tbl_rows t)); [apply Hx|done..].
Qed.

Lemma hit_rows_ids d all rows : Forall2 (hit_row d) all rows → all.*2 = row_id <$> rows.
Proof. induction 1 as [|h r all rows (_ & E & _) _ IH]; [done|]. rewrite !fmap_cons, IH, E. done. Qed.

Lemma hits_rows d (all : list (list Z * Z)) : (∀ k id, (k, id) ∈ all → ∃ r, r ∈ tbl_rows t ∧ row_id r = id ∧ row_key cat schema d r = Ok (Some k)) →
  ∃ rows, Forall2 (hit_row d) all rows.
Proof.
  induction all as [|[k id] all IH]; intros Hall; [by exists []|]. destruct IH as [rows Hrows]; [intros k' i' Hin; apply Hall; by right|].
  destruct (Hall k id ltac:(by left)) as (r & Hr). exists (r :: rows). by constructor.
Qed.

Lemma get_row_stored r : r ∈ tbl_rows t → get_row db (pl_from p) (row_id r) = Ok (Some r).
Proof.
  intros Hr. destruct (consistent_lookup _ _ _ Hdb Ht) as [Hx _ _ _ _]. unfold get_row. rewrite Ht, bind_pure.
  destruct (binary_search_found (row_id <$> tbl_rows t) (row_id r)) as (n & -> & Hn); [apply Hx|by apply list_elem_of_fmap_2|]. f_equal.
  rewrite list_lookup_fmap in Hn. destruct (tbl_rows t !! n) as [r'|] eqn:E; [|done]. injection Hn as Hn. f_equal.
  apply (ascending_row_inj (tbl_rows t)); [apply Hx|by eapply list_elem_of_lookup_2|done|done].
Qed.

(** *** Choosing among the hits *)

(** The filters among the stages accept the row, or one of them rejects it. *)
Definition decides (stages : list Stage) (r : Row) (b : bool) : Prop :=
  ∃ budget budget', row_eligible cat stages (row_fields r) budget = Ok (b, budget').

(** The first [n] rows that the stages accept. *)
Inductive picks (stages : list Stage) : nat → list Row → list Row → Prop :=
  | picks_end n : picks stages n [] []
  | picks_full l : picks stages 0 l []
  | picks_take n r l k : decides stages r true → picks stages n l k → picks stages (S n) (r :: l) (r :: k)
  | picks_skip n r l k : decides stages r false → picks stages (S n) l k → picks stages (S n) (r :: l) k.

Lemma row_eligible_plain stages fields b : existsb is_filter stages = false → row_eligible cat stages fields b = Ok (true, b).
Proof. induction stages as [|s stages IH]; [done|]. intros Hs. apply orb_false_iff in Hs as [Hf Hs]. destruct s; try done; by apply IH. Qed.

Lemma picks_plain stages n l k : existsb is_filter stages = false → picks stages n (take n l) k → picks stages n l k.
Proof.
  intros Hs. remember (take n l) as l' eqn:El. intros Hp. revert l El. induction Hp as [n|l'|n r l' k Hd _ IH|n r l' k (b & b' & Hd) _ _]; intros l El.
  - destruct l as [|r l]; [constructor|]. destruct n; [constructor|done].
  - constructor.
  - destruct l as [|r' l]; [done|]. injection El as <- El. constructor; [done|]. by apply IH.
  - by rewrite row_eligible_plain in Hd.
Qed.

Lemma select_hits_all name hits seen selected budget : NoDup hits.*2 → (∀ id, id ∈ hits.*2 → bs_mem id seen = false) →
  select_hits db name None None hits seen selected budget = Ok (selected ++ hits.*2).
Proof.
  revert seen selected. induction hits as [|[k id] hits IH]; intros seen selected Hn Hseen; [cbn; by rewrite app_nil_r|]. rewrite fmap_cons in *. cbn [snd] in *.
  apply list.NoDup_cons in Hn as [Hid Hn]. cbn [select_hits]. rewrite (Hseen id) by (by left). rewrite bind_pure. rewrite bool_decide_false by done.
  rewrite IH; [by rewrite <-app_assoc|done|]. intros i Hi. rewrite bs_mem_insert_eqb, Hseen by (by right). rewrite orb_false_r. apply Z.eqb_neq. by intros ->.
Qed.

Lemma select_hits_picks d before residual n hits rows seen selected budget out : Forall2 (hit_row d) hits rows →
  residual = (if existsb is_filter before then Some before else None) → zlen selected < n →
  select_hits db (pl_from p) (Some n) residual hits seen selected budget = Ok out →
  ∃ chosen, out = selected ++ (row_id <$> chosen) ∧ picks before (Z.to_nat (n - zlen selected)) rows chosen.
Proof.
  intros Hf Hres. revert seen selected budget. induction Hf as [|[k id] r hits rows Hr _ IH]; intros seen selected budget Hn Hs.
  { injection Hs as <-. exists []. split; [by rewrite app_nil_r|constructor]. }
  cbn [select_hits] in Hs. case_if_in Hs; [done|]. apply bind_Ok in Hs as (o & Ho & Hs). destruct Hr as (Hin & E' & _). cbn [snd] in E'. subst id.
  assert (∃ b budget', o = Some (b, budget') ∧ decides before r b) as (b & budget' & -> & Hd).
  { rewrite Hres in Ho. destruct (existsb is_filter before) eqn:Eb.
    - rewrite (get_row_stored r Hin), bind_pure in Ho. apply fmap_Ok in Ho as ([b b'] & Hb & ->). exists b, b'. split; [done|]. by exists budget, b'.
    - apply Ok_inj in Ho as <-. exists true, budget. split; [done|]. exists 0, 0. by apply row_eligible_plain. }
  destruct b.
  - assert (Hlen : zlen (selected ++ [row_id r]) = zlen selected + 1) by (unfold zlen; rewrite length_app; simpl; lia). case_bool_decide as En.
    + injection Hs as <-. injection En as ->. exists [r]. split; [done|]. rewrite Hlen. replace (Z.to_nat (zlen selected + 1 - zlen selected)) with 1%nat by lia. constructor; [done|constructor].
    + destruct (IH _ _ _ ltac:(rewrite Hlen; assert (n ≠ zlen selected + 1) by (intros ->; by rewrite Hlen in En); lia) Hs) as (chosen & -> & Hp).
      exists (r :: chosen). split; [by rewrite <-app_assoc|]. rewrite Hlen in Hp. replace (Z.to_nat (n - zlen selected)) with (S (Z.to_nat (n - (zlen selected + 1)))) by lia. by constructor.
  - rewrite bool_decide_false in Hs by (intros [= ->]; lia). destruct (IH _ _ _ Hn Hs) as (chosen & -> & Hp). exists chosen. split; [done|].
    destruct (Z.to_nat (n - zlen selected)) eqn:En; [lia|]. by constructor.
Qed.
End candidates.

(** ** Row IDs in order *)

Lemma dedup_ids_strict l : StronglySorted Z.lt l → dedup_ids l = l.
Proof.
  induction l as [|x l IH]; intros Hs; [done|]. apply StronglySorted_inv in Hs as [Hs Hx]. cbn [dedup_ids]. destruct l as [|y l]; [done|].
  apply list.Forall_cons in Hx as [Hxy _]. rewrite (proj2 (Z.eqb_neq x y)) by lia. by rewrite IH.
Qed.

Lemma sort_ids_spec l : NoDup l → StronglySorted Z.lt (sort_ids l) ∧ sort_ids l ≡ₚ l.
Proof.
  intros Hn. assert (Hp : merge_sort Z.le l ≡ₚ l) by apply merge_sort_Permutation.
  assert (Hs : StronglySorted Z.lt (merge_sort Z.le l)).
  { assert (Hle : StronglySorted Z.le (merge_sort Z.le l)) by (apply StronglySorted_merge_sort; apply _). assert (Hn' : NoDup (merge_sort Z.le l)) by (by rewrite Hp).
    revert Hle Hn'. generalize (merge_sort Z.le l). intros k. induction k as [|x k IH]; intros Hle Hn'; [constructor|].
    apply StronglySorted_inv in Hle as [Hle Hx]. apply list.NoDup_cons in Hn' as [Hin Hn']. constructor; [auto|]. rewrite list.Forall_forall in Hx |- *. intros y Hy.
    specialize (Hx y Hy). assert (x ≠ y) by (by intros ->). lia. }
  unfold sort_ids. rewrite dedup_ids_strict by done. done.
Qed.

(** A set of rows of a table, in the table's order. *)
Lemma ids_sublist (rows sub : list Row) : StronglySorted Z.lt (row_id <$> rows) → NoDup (row_id <$> sub) → (∀ r, r ∈ sub → r ∈ rows) →
  ∃ sub', sublist sub' rows ∧ sort_ids (row_id <$> sub) = row_id <$> sub' ∧ sub' ≡ₚ sub.
Proof.
  intros Hs Hn Hsub. exists (filter (λ r, row_id r ∈ row_id <$> sub) rows).
  assert (Hinj : ∀ a b, a ∈ rows → b ∈ rows → row_id a = row_id b → a = b) by (intros; by eapply ascending_row_inj).
  assert (Hnd : NoDup rows) by (by eapply NoDup_fmap_1, ascending_NoDup).
  assert (Hperm : filter (λ r, row_id r ∈ row_id <$> sub) rows ≡ₚ sub).
  { apply NoDup_Permutation; [by apply list.NoDup_filter|by eapply NoDup_fmap_1|]. intros r. rewrite list_elem_of_filter. split.
    - intros [(r' & E & Hr')%list_elem_of_fmap Hr]. by rewrite (Hinj r r' Hr (Hsub r' Hr') E).
    - intros Hr. split; [by apply list_elem_of_fmap_2|by apply Hsub]. }
  split_and!; [apply sublist_filter| |done].
  destruct (sort_ids_spec _ Hn) as [Hs1 Hp1]. apply ascending_ext; [done| |].
  - clear -Hs. induction rows as [|r rows IH]; [constructor|]. rewrite fmap_cons in Hs. apply StronglySorted_inv in Hs as [Hs Hr]. rewrite filter_cons.
    case_decide; [|auto]. rewrite fmap_cons. constructor; [auto|]. rewrite list.Forall_forall in Hr |- *. intros x (r' & -> & Hr'%list_elem_of_filter)%list_elem_of_fmap.
    apply Hr, list_elem_of_fmap_2, Hr'.
  - intros x. by rewrite Hp1, Hperm.
Qed.

(** ** Planned access *)

Section planned.
Context `{TextLib} `{PredicateText} `{Base64}.

(** How many rows the stages after the sort of the plan can use. *)
Definition needed (p : Pipeline) (access : PlannedAccess) : option Z :=
  position ← pa_ordered_sort access; needed_rows (drop (S position) (pl_stages p)).

(** The candidates [rows] in the order that the plan promises. *)
Definition promised_order (db : Database) (p : Pipeline) (t : Table) (access : PlannedAccess) (rows : list Row) : Prop :=
  match pa_ordered_sort access with
  | None => sublist rows (tbl_rows t)
  | Some position => ∃ keys, pl_stages p !! position = Some (StSort keys) ∧
      (Forall (key_bound (db_catalog db) (tbl_schema t)) keys → StronglySorted (in_order db p keys) rows)
  end.

(** The answer of [materialize_access_candidates]: all the candidates, or where the stages
    after the sort use at most [n] rows, the first [n] that pass the filters before it. *)
Definition reads (db : Database) (p : Pipeline) (access : PlannedAccess) (rows : list Row) (answer : result (option (list Z))) : Prop :=
  match needed p access with
  | None => answer = Ok (Some (row_id <$> rows))
  | Some n => 0 ≤ n → ∀ o, answer = Ok o → ∃ chosen, o = Some (row_id <$> chosen) ∧
      picks db (take (default 0%nat (pa_ordered_sort access)) (pl_stages p)) (Z.to_nat n) rows chosen
  end.

Lemma hits_order {A B} (R : A → A → Prop) (Q : B → B → Prop) (P : A → B → Prop) l k :
  (∀ a a' b b', P a b → P a' b' → R a a' → Q b b') → Forall2 P l k → StronglySorted R l → StronglySorted Q k.
Proof.
  intros HQ Hf. induction Hf as [|a b l k Hab Hf IH]; intros Hs; [constructor|]. apply StronglySorted_inv in Hs as [Hs Ha]. constructor; [auto|].
  rewrite Forall_lookup in Ha. apply Forall_lookup. intros i b' Hi. destruct (Forall2_lookup_r _ _ _ _ _ Hf Hi) as (a' & Hai & Hab'). eauto.
Qed.

(** What the scan of a usable index meets. *)
Record scanned (db : Database) (p : Pipeline) (t : Table) (d : IndexDefinition) (bounds : IndexBounds) (reversed : bool)
    (all : list (list Z * Z)) (rows : list Row) : Prop := {
  sc_scan limit : scan_index db (pl_from p) (shape_key d) bounds reversed limit = Ok match limit with Some (S n) => take (S n) all | _ => all end;
  sc_rows : Forall2 (hit_row db t d) all rows;
  sc_sorted : StronglySorted (hit_before reversed) all;
  sc_distinct : NoDup rows ∧ NoDup (row_id <$> rows);
  sc_stored r : r ∈ rows → r ∈ tbl_rows t;
  sc_accepted r : r ∈ tbl_rows t → accepted db p r → r ∈ rows
}.

Lemma usable_scanned db p t d scan sort m bounds reversed : consistent db → table db (pl_from p) = Ok t →
  Forall (bound_filter (db_catalog db) (tbl_schema t)) (leading_filters (pl_stages p)) →
  bt_get (shape_key d) (definitions_of db (pl_from p)) = Some d →
  (∀ predicate, ix_predicate d = Some predicate → ∃ atoms,
    leading_atoms (db_catalog db) (tbl_schema t) (pl_stages p) [] = Ok atoms ∧ implied_by predicate atoms = true) →
  candidate_for db p None t d scan sort m → is_bounds scan = Some bounds → ∃ all rows, scanned db p t d bounds reversed all rows.
Proof.
  intros Hdb Ht Hb Hd Himp Hc Eb. destruct (scan_hits db (pl_from p) t (shape_key d) d bounds reversed None Hdb Ht Hd (candidate_bounds_ok db p t Hdb Ht Hb None d scan sort m bounds Hc Eb)) as (all & Hall & Hs & Hiff).
  destruct (hits_rows db t d all) as [rows Hrows]; [intros k id Hin; by apply Hiff|]. exists all, rows. split; try done.
  - intros limit. unfold scan_index in *. apply bind_Ok in Hall as (q & -> & Hall). rewrite bind_pure. case_if_in Hall; [done|]. apply Ok_inj in Hall as <-. done.
  - by eapply (hit_rows_NoDup db p t); [..|by eapply hits_NoDup].
  - intros r Hr. apply list_elem_of_lookup in Hr as [i Hi]. by destruct (Forall2_lookup_r _ _ _ _ _ Hrows Hi) as (_ & _ & ? & _).
  - intros r Hr Ha. destruct (accepted_in_bounds db p t Hdb Ht Hb r d scan sort m Hr Ha Hd Himp Hc) as (b & k & Eb' & Hk & Hin). assert (b = bounds) as -> by congruence.
    assert (Hh : (k, row_id r) ∈ all) by (apply Hiff; eauto). apply list_elem_of_lookup in Hh as [i Hi]. destruct (Forall2_lookup_l _ _ _ _ _ Hrows Hi) as (r' & Hr' & Hst & E & _).
    destruct (consistent_lookup _ _ _ Hdb Ht) as [Hx _ _ _ _]. assert (r = r') as -> by (apply (ascending_row_inj (tbl_rows t)); [apply Hx|done..]). by eapply list_elem_of_lookup_2.
Qed.

(** An index without the sort: the candidates are read in table order. *)
Lemma scanned_table_order db p t d bounds reversed all rows limit budget : consistent db → table db (pl_from p) = Ok t →
  limit = None ∨ limit = Some 0%nat → scanned db p t d bounds reversed all rows →
  ∃ rows', sublist rows' (tbl_rows t) ∧ rows' ≡ₚ rows ∧
    (hits ← scan_index db (pl_from p) (shape_key d) bounds reversed limit; selected ← select_hits db (pl_from p) None None hits [] [] budget;
     Ok (Some (sort_ids selected))) = Ok (Some (row_id <$> rows')).
Proof.
  intros Hdb Ht Hl [Hscan Hrows _ [_ Hn] Hst _]. destruct (consistent_lookup _ _ _ Hdb Ht) as [Hx _ _ _ _].
  destruct (ids_sublist (tbl_rows t) rows) as (rows' & Hsub & Hids & Hp); [apply Hx|done..|]. exists rows'. split_and!; [done..|].
  rewrite Hscan, bind_pure. replace (match limit with Some (S n) => take (S n) all | _ => all end) with all by (by destruct Hl as [-> | ->]).
  rewrite <-(hit_rows_ids db t d all rows Hrows) in *. rewrite select_hits_all; [|done|done]. rewrite bind_pure. cbn [app]. by rewrite Hids.
Qed.
(** An index that satisfies the sort: the accepted rows come in the order of its keys. *)
Lemma scanned_sorted db p t d scan sort m position reversed bounds all rows : consistent db → table db (pl_from p) = Ok t →
  Forall (bound_filter (db_catalog db) (tbl_schema t)) (leading_filters (pl_stages p)) → candidate_for db p None t d scan sort m →
  index_sort_match p (effective_components d) (length (mt_equality m)) = Some (position, reversed) → scanned db p t d bounds reversed all rows →
  ∃ keys, pl_stages p !! position = Some (StSort keys) ∧ (Forall (key_bound (db_catalog db) (tbl_schema t)) keys → StronglySorted (in_order db p keys) rows).
Proof.
  intros Hdb Ht Hb Hc Es [_ Hrows Hs _ _ _]. destruct (index_sort_match_spec _ _ _ _ _ Es) as (keys & Hat & _). exists keys. split; [done|]. intros Hk.
  eapply hits_order; [|exact Hrows|exact Hs]. intros [k1 i1] [k2 i2] r1 r2 (Hr1 & _ & Hk1) (Hr2 & _ & Hk2) Hh.
  destruct (accepted_order db p t Hdb Ht Hb r1 r2 d scan sort m position reversed k1 k2 i1 i2 Hr1 Hr2 Hc Es Hk1 Hk2 Hh) as (keys' & Hat' & Ho).
  assert (keys' = keys) as -> by congruence. auto.
Qed.

Lemma scanned_picks db p t d bounds reversed all rows position n budget o : consistent db → table db (pl_from p) = Ok t → scanned db p t d bounds reversed all rows → 0 < n →
  let before := take position (pl_stages p) in
  (hits ← scan_index db (pl_from p) (shape_key d) bounds reversed (if existsb is_filter before then None else Some (Z.to_nat n));
   selected ← select_hits db (pl_from p) (Some n) (if existsb is_filter before then Some before else None) hits [] [] budget;
   Ok (Some selected)) = Ok o →
  ∃ chosen, o = Some (row_id <$> chosen) ∧ picks db before (Z.to_nat n) rows chosen.
Proof.
  intros Hdb Ht Hsc Hn before. rewrite (sc_scan _ _ _ _ _ _ _ _ Hsc), bind_pure. intros (selected & Hsel & Ho)%bind_Ok. apply Ok_inj in Ho as <-.
  pose proof (sc_rows _ _ _ _ _ _ _ _ Hsc) as Hrows. destruct (existsb is_filter before) eqn:Ef.
  - destruct (select_hits_picks db p t Hdb Ht d before (Some before) n all rows [] [] budget selected) as (chosen & -> & Hp); [done|by rewrite Ef|done|done|].
    exists chosen. split; [done|]. unfold zlen in Hp. cbn [length] in Hp. by rewrite Z.sub_0_r in Hp.
  - destruct (Z.to_nat n) as [|k] eqn:En; [lia|]. rewrite <-En in *.
    destruct (select_hits_picks db p t Hdb Ht d before None n (take (Z.to_nat n) all) (take (Z.to_nat n) rows) [] [] budget selected) as (chosen & -> & Hp); [by apply Forall2_take|by rewrite Ef|done|done|].
    exists chosen. split; [done|]. unfold zlen in Hp. cbn [length] in Hp. rewrite Z.sub_0_r in Hp. by apply picks_plain.
Qed.

Lemma usable_candidates db p t access scan : consistent db → table db (pl_from p) = Ok t →
  Forall (bound_filter (db_catalog db) (tbl_schema t)) (leading_filters (pl_stages p)) →
  usable db p None t scan (pa_ordered_sort access) → pa_index_scan access = Some scan →
  ∃ rows, NoDup rows ∧ (∀ r, r ∈ rows → r ∈ tbl_rows t) ∧ (∀ r, r ∈ tbl_rows t → accepted db p r → r ∈ rows) ∧
    promised_order db p t access rows ∧ reads db p access rows (materialize_access_candidates db p None access).
Proof.
  intros Hdb Ht Hb (d & m & Hd & Himp & Hc) Hs. unfold materialize_access_candidates. rewrite Hs.
  pose proof (cf_sort _ _ _ _ _ _ _ _ Hc) as Hsort. pose proof (cf_reverse _ _ _ _ _ _ _ _ Hc) as Hrev.
  destruct (is_bounds scan) as [bounds|] eqn:Eb.
  2:{ exists []. split_and!; [constructor|by intros r ?%elem_of_nil| |..].
      - intros r Hr Ha. destruct (accepted_in_bounds db p t Hdb Ht Hb r d scan _ m Hr Ha Hd Himp Hc) as (b & k & Hbs & _). congruence.
      - unfold promised_order. rewrite Hsort. destruct (index_sort_match _ _ _) as [[position reversed]|] eqn:Es; [|apply sublist_nil_l].
        destruct (index_sort_match_spec _ _ _ _ _ Es) as (keys & Hat & _). exists keys. split; [done|constructor].
      - unfold reads. destruct (needed p access); [|done]. intros _ o [= <-]. exists []. split; [done|constructor]. }
  cbn [xorb]. rewrite xorb_false_r, (cf_shape _ _ _ _ _ _ _ _ Hc).
  destruct (usable_scanned db p t d scan _ m bounds (is_reverse scan) Hdb Ht Hb Hd Himp Hc Eb) as (all & rows & Hsc). unfold promised_order, reads, needed.
  destruct (index_sort_match p (effective_components d) (length (mt_equality m))) as [[position reversed]|] eqn:Es; rewrite Hsort; cbn [fmap option_fmap option_map fst snd mbind option_bind default] in *.
  - rewrite Hrev in *. exists rows. split_and!; try apply Hsc; [by eapply scanned_sorted|]. destruct (needed_rows (drop (S position) (pl_stages p))) as [n|] eqn:En.
    + intros Hn o Ho. case_bool_decide as E0; [injection Ho as <-; injection E0 as ->; exists []; split; [done|constructor]|].
      case_if_in Ho; [done|]. eapply scanned_picks; [done|done|done|assert (n ≠ 0) by congruence; lia|]. destruct (existsb is_filter _); exact Ho.
    + rewrite bool_decide_false by done. cbn [fmap option_fmap option_map]. replace (if existsb is_filter (take position (pl_stages p)) then None else None) with (None : option nat) by (by destruct (existsb _ _)).
      rewrite (sc_scan _ _ _ _ _ _ _ _ Hsc), bind_pure, select_hits_all; [|rewrite (hit_rows_ids db t d all rows (sc_rows _ _ _ _ _ _ _ _ Hsc)); apply Hsc|done].
      rewrite bind_pure. cbn [app]. by rewrite (hit_rows_ids db t d all rows (sc_rows _ _ _ _ _ _ _ _ Hsc)).
  - rewrite bool_decide_false by done. cbn [existsb fmap option_fmap option_map]. destruct (scanned_table_order db p t d bounds (is_reverse scan) all rows None MAX_COLLECTION_PREDICATE_EVALUATIONS Hdb Ht (or_introl eq_refl) Hsc) as (rows' & Hsub & Hp & Hr).
    exists rows'. split_and!; [rewrite Hp; apply Hsc|intros r; rewrite Hp; apply Hsc|intros r ? ?; rewrite Hp; by apply Hsc|done|exact Hr].
Qed.
(** C11: in every database that statements can reach, for every index of the table, with or
    without a page cursor, the bounds that planning computes are never the wrong way round,
    so [BTreeMap::range] does not panic on them: whenever planning finds a candidate, the
    estimate of its span and the scan of its bounds succeed, in both directions. *)
Theorem candidate_bounds_never_panic db p page t shape d c bounds :
  rtc step default_database db → table db (pl_from p) = Ok t → bt_get shape (definitions_of db (pl_from p)) = Some d →
  Forall (bound_filter (db_catalog db) (tbl_schema t)) (leading_filters (pl_stages p)) →
  index_access_candidate db p page d (leading_index_constraints p) false = Ok (Some c) → is_bounds (ac_index_scan c) = Some bounds →
  range_panics bounds = false ∧
  (∃ c', index_access_candidate db p page d (leading_index_constraints p) true = Ok (Some c') ∧ ac_index_scan c' = ac_index_scan c) ∧
  ∀ reverse_order limit, ∃ hits, scan_index db (pl_from p) (is_shape (ac_index_scan c)) bounds reverse_order limit = Ok hits.
Proof.
  intros Hr%reachable_consistent Ht Hd Hb Hc Eb. destruct (index_access_candidate_for _ _ _ _ _ _ _ Ht Hc) as [m Hm].
  pose proof (candidate_bounds_ok db p t Hr Ht Hb page d _ _ m bounds Hm Eb) as Hpanic. destruct (consistent_lookup _ _ _ Hr Ht) as [Hi _ _ _ _].
  pose proof (ti_shape _ _ _ _ Hi _ _ Hd) as ->. destruct (ti_posting _ _ _ _ Hi _ _ Hd) as (q & Hq & _). split_and!; [done| |].
  - unfold index_access_candidate in *. rewrite Ht, bind_pure in *. cbv zeta in *. apply bind_Ok in Hc as (m' & -> & Hc). rewrite bind_pure.
    destruct (mt_equality m') as [|e l], (mt_range m') as [[lower upper]|], (index_sort_match _ _ _) as [os|]; try discriminate Hc;
      apply bind_Ok in Hc as (range_plan & -> & Hc); rewrite bind_pure; apply bind_Ok in Hc as (b & -> & Hc); rewrite !bind_pure in *; injection Hc as <-;
      cbn [ac_index_scan is_bounds] in Eb; subst b; unfold estimate_index_span; rewrite Hq; cbn [ok_or]; rewrite bind_pure, Hpanic, bind_pure; eauto.
  - intros reverse_order limit. rewrite (cf_shape _ _ _ _ _ _ _ _ Hm).
    destruct (scan_hits db (pl_from p) t (shape_key d) d bounds reverse_order limit Hr Ht Hd Hpanic) as (all & Hs & _). eauto.
Qed.

(** C39: a [take] after a sort that the index satisfies reserves room for all the rows it may
    take: with a count of [2^60] or more the reservation panics, however few rows there are. *)
Theorem huge_take_panics db p page access scan bounds position offset limit rest :
  pa_index_scan access = Some scan → is_bounds scan = Some bounds → pa_ordered_sort access = Some position →
  drop (S position) (pl_stages p) = StTake offset limit :: rest → 2 ^ 60 ≤ offset + limit →
  materialize_access_candidates db p page access = Err PANIC.
Proof.
  intros Hs Hb Hp Hd Hn. unfold materialize_access_candidates. rewrite Hs, Hb, Hp. cbn [mbind option_bind]. rewrite Hd. cbn [needed_rows default].
  change (2 ^ 60) with 1152921504606846976 in Hn.
  assert (1152921504606846976 ≤ saturating_usize (offset + limit)) by (unfold saturating_usize; change (2 ^ 64 - 1) with 18446744073709551615; lia).
  assert (Hc : capacity_overflows (saturating_usize (offset + limit)) = true).
  { unfold capacity_overflows. change (2 ^ 63 - 1) with 9223372036854775807. apply Z.gtb_lt. lia. }
  rewrite bool_decide_false by (intros [= E]; lia). unfold default. cbn [from_option]. unfold id. by rewrite Hc.
Qed.

(** C10: in every database that statements can reach, an access through an index, planned or
    forced, loses no row that the query's leading filters accept: the candidates it reads
    are distinct rows of the table with every accepted one among them.  Without a satisfied
    sort they are read in table order, as a full scan would; with one, the accepted rows come
    in the order of the sort keys, and where the later stages use at most [n] rows the answer
    is the first [n] that pass.  A scan of all candidates always answers. *)
Theorem planned_access_exact db p t shape estimate access scan :
  rtc step default_database db → table db (pl_from p) = Ok t →
  Forall (bound_filter (db_catalog db) (tbl_schema t)) (leading_filters (pl_stages p)) →
  plan_access db p None estimate = Ok access ∨ plan_access_for_index db p None shape estimate = Ok access →
  pa_index_scan access = Some scan →
  ∃ rows, NoDup rows ∧ (∀ r, r ∈ rows → r ∈ tbl_rows t) ∧ (∀ r, r ∈ tbl_rows t → accepted db p r → r ∈ rows) ∧
    promised_order db p t access rows ∧ reads db p access rows (materialize_access_candidates db p None access).
Proof.
  intros Hr%reachable_consistent Ht Hb Hp Hs. destruct (consistent_lookup _ _ _ Hr Ht) as [Hi _ _ _ _].
  eapply usable_candidates; [done..| |done]. destruct Hp as [Hp|Hp]; [by eapply plan_access_usable|by eapply plan_access_for_index_usable].
Qed.
End planned.

(** ** An example *)

#[local] Existing Instances example_text example_predicates example_base64.

(** The last name after "ann". *)
Definition after_ann : BoolExpression := BCompare (SReference "name") CmpGt (SLiteral (VText "ann")) None.
Definition example_filter : BoolExpression := Eval vm_compute in
  match Expression.bind (db_catalog example_database) (tbl_schema example_users) after_ann with Ok e => e | Err _ => after_ann end.
Definition example_query : Pipeline :=
  mkPipeline "users" [StFilter example_filter; StSort [mkSortKey "name" true (Some TText)]; StTake 0 1].
Definition example_access : PlannedAccess := Eval vm_compute in
  match plan_access example_database example_query None true with
  | Ok a => a
  | Err _ => mkPlannedAccess (mkQueryAccessPlan FullScan [] None None false false false [] 0 0) None None
  end.

Lemma example_filter_bound : Forall (bound_filter (db_catalog example_database) (tbl_schema example_users)) (leading_filters (pl_stages example_query)).
Proof. constructor; [|constructor]. exists after_ann. split; [by split|]. split; [vm_compute; reflexivity|]. by right. Qed.

Definition example_candidate : IndexAccessCandidate := Eval vm_compute in
  match index_access_candidate example_database example_query None example_names (leading_index_constraints example_query) false with
  | Ok (Some c) => c
  | _ => mkCandidate (pa_plan example_access) (mkPlannedIndexScan "" None false) 0 false 0 0 None
  end.

Lemma candidate_bounds_never_panic_witness : range_panics (Included [97; 110; 110; 0; 1], Unbounded) = false ∧
  ∀ reverse_order limit, ∃ hits, scan_index example_database "users" "name" (Included [97; 110; 110; 0; 1], Unbounded) reverse_order limit = Ok hits.
Proof.
  destruct (candidate_bounds_never_panic example_database example_query None example_users "name" example_names example_candidate
    (Included [97; 110; 110; 0; 1], Unbounded) example_reachable example_users_eq) as (Hp & _ & Hs); [| | | |split; [exact Hp|exact Hs]].
  - vm_compute. reflexivity.
  - exact example_filter_bound.
  - vm_compute. reflexivity.
  - reflexivity.
Defined.

Lemma planned_access_exact_witness : ∃ rows, example_row 3 1 "bob" ∈ rows ∧
  promised_order example_database example_query example_users example_access rows ∧
  reads example_database example_query example_access rows (materialize_access_candidates example_database example_query None example_access).
Proof.
  destruct (planned_access_exact example_database example_query example_users "" true example_access
    (mkPlannedIndexScan "name" (Some (Included [97; 110; 110; 0; 1], Unbounded)) true) example_reachable example_users_eq) as (rows & _ & _ & Ha & Ho & Hr).
  - exact example_filter_bound.
  - left. vm_compute. reflexivity.
  - vm_compute. reflexivity.
  - exists rows. split; [|by split]. apply Ha; [right; by left|]. constructor; [|constructor]. exists 1, 1. vm_compute. reflexivity.
Defined.

(** Every name, in order, with no limit to speak of: the plan is made, and reading it panics. *)
Definition example_all_names : Pipeline := mkPipeline "users" [StSort [mkSortKey "name" false (Some TText)]; StTake 0 (2 ^ 64 - 1)].

Lemma huge_take_panics_witness : ∃ access, plan_access example_database example_all_names None true = Ok access ∧
  materialize_access_candidates example_database example_all_names None access = Err PANIC.
Proof.
  eexists. split; [vm_compute; reflexivity|]. eapply (huge_take_panics example_database example_all_names None); [reflexivity..|]. vm_compute. discriminate.
Defined.
