(* ===== verification/TargetLaws.v ===== *)
(** * Selection of targets

    What src/src/db.rs promises about the rows that an update or delete changes.  The
    streaming loop, which handles one row at a time and stops early, selects what evaluating
    stage by stage selects ([loop_staged] of Streaming.v); and the candidates of an index, which hold every row the leading filters
    accept, give the rows of a full scan. *)
From stdpp Require Import sorting relations.
From S2P Require Import Prelude Bytes Text Decimal Temporal Scalars Float64 BTree Model Coerce OrderedKey Codec Matching Catalog Schema Expression Typing EvalOps Soundness IndexPredicate Query MatchResult Database Wire Access Stages Ranges Postings Rows Tables Predicates Paging References Mutations Updates Links Invariant Effects Planning Candidates Targets Execution Streaming WireLaws.

(** ** One row at a time *)

Section streaming.
Context `{TextLib} `{PredicateText} `{Base64} `{WireText} `{RowJson} (cat : Catalog).

(** The stages that binding admits in a target; counts are [usize] values. *)
Definition targetable (stage : Stage) : Prop :=
  match stage with
  | StFilter _ | StFilterMatch _ | StSort _ => True
  | StTake offset limit => 0 ≤ offset < 2 ^ 64 ∧ 0 ≤ limit < 2 ^ 64
  | _ => False
  end.

Lemma metered_filter f rows : (∀ r, metered (f r)) → metered (filter_rows f rows).
Proof. intros Hf. induction rows; cbn [filter_rows]; metered. Qed.

(** *** Stage by stage *)

Lemma metered_staged ordered_sort position stages rows : Forall targetable stages → metered (select_staged cat ordered_sort position stages rows).
Proof.
  intros Hs. revert position rows. induction Hs as [|s stages Ht _ IH]; intros position rows; cbn [select_staged]; [metered|].
  destruct s; try done; try (case_bool_decide; metered; fail); (apply metered_bind; [|done]); apply metered_filter; intros; (apply metered_evaluate || apply metered_match).
Qed.

Definition decision (s : Stage) (r : Row) : eval bool :=
  match s with
  | StFilter e => evaluate cat e (row_field (row_fields r))
  | StFilterMatch m => evaluate_match_predicate cat (row_fields r) m
  | _ => eret true
  end.

Lemma metered_decision s r : metered (decision s r).
Proof. destruct s; cbn [decision]; (apply metered_evaluate || apply metered_match || apply metered_ret). Qed.

(** *** The loop *)

(** The decision as a step of the loop, and what the loop does with a selected row. *)
Definition target_step (s : Stage) (r : Row) : eval (option Row) := ebind (decision s r) (λ b, eret (if b : bool then Some r else None)).
Definition select_row (selected : list Z) (r : Row) : result (list Z) :=
  if zlen selected =? MAX_QUERY_WORKING_ROWS then Err "E_LIMIT" else Ok (selected ++ [row_id r]).

Lemma metered_target_step s r : metered (target_step s r).
Proof. apply metered_bind; [apply metered_decision|intros; apply metered_ret]. Qed.

Lemma prefix_through bytes stages states exhausted r k : Forall targetable stages →
  apply_streaming_prefix cat bytes stages states exhausted (row_fields r) k =
  ebind (through target_step stages states exhausted r) (λ '(o, e, out), eret (row_fields <$> o, e, out)) k.
Proof.
  intros Hs. revert states exhausted k. induction Hs as [|s stages Ht _ IH]; intros states exhausted k; [done|]. destruct states as [|st states]; [done|].
  assert (Hc : ∀ st' ex k', ebind (apply_streaming_prefix cat bytes stages states ex (row_fields r)) (λ '(o, e, out), eret (o, e, st' :: out)) k' =
    ebind (ebind (through target_step stages states ex r) (λ '(o, e, out), eret (o, e, st' :: out))) (λ '(o, e, out), eret (row_fields <$> o, e, out)) k').
  { intros st' ex k'. unfold ebind at 1. rewrite IH. unfold ebind. by destruct (through _ _ _ _ _ k') as [[[[o e] out] k2]|]. }
  assert (Hf : ∀ m : eval bool, ebind m (λ b, if b : bool then ebind (apply_streaming_prefix cat bytes stages states exhausted (row_fields r)) (λ '(o, e, out), eret (o, e, st :: out))
                                               else eret (None, exhausted, st :: states)) k =
    ebind (ebind (ebind m (λ b, eret (if b : bool then Some r else None))) (λ o, match o with Some x => ebind (through target_step stages states exhausted x) (λ '(o, e, out), eret (o, e, st :: out))
                                                                                 | None => eret (None, exhausted, st :: states) end)) (λ '(o, e, out), eret (row_fields <$> o, e, out)) k).
  { intros m. rewrite !ebind_assoc. destruct (m k) as [[b k']|e] eqn:Em; [|by rewrite !(ebind_Err _ _ _ _ Em)].
    rewrite !(ebind_run _ _ _ _ _ Em). destruct b; [apply Hc|done]. }
  destruct s; try done; cbn [apply_streaming_prefix through]; first [apply Hf|idtac].
  - apply Hc.
  - destruct (tk_seen st <? offset); [done|]. destruct (tk_emitted st >=? limit); [done|]. apply Hc.
Qed.

Lemma through_same stages states exhausted r k r' e out k' : through target_step stages states exhausted r k = Ok (Some r', e, out, k') → r' = r.
Proof.
  revert states exhausted k e out. induction stages as [|s stages IH]; intros states exhausted k e out Ht; [by injection Ht as <-|]. destruct states as [|st states]; [by injection Ht as <-|].
  assert (Hc : ∀ st' ex k1, ebind (through target_step stages states ex r) (λ '(o, e, out), eret (o, e, st' :: out)) k1 = Ok (Some r', e, out, k') → r' = r).
  { intros st' ex k1 ([[[o e1] out1] k2] & Hx & Hy)%bind_Ok. injection Hy as -> _ _ ->. by eapply IH. }
  destruct (is_take s) eqn:Es.
  - destruct s; try done. cbn [through] in Ht. destruct (_ <? _); [done|]. destruct (_ >=? _); [done|]. by eapply Hc.
  - rewrite through_step in Ht by done. apply bind_Ok in Ht as ([o k1] & Ho & Ht). apply bind_Ok in Ho as ([[] k2] & _ & [= <- <-]); [|done]. by eapply Hc.
Qed.

Lemma streaming_loop stages states rows selected k : Forall targetable stages →
  select_streaming cat stages states rows selected k = loop target_step select_row stages states rows selected k.
Proof.
  intros Hs. revert states selected k. induction rows as [|r rows IH]; intros states selected k; [done|]. cbn [select_streaming loop].
  unfold ebind at 1. rewrite prefix_through by done. unfold ebind at 1 2. destruct (through _ _ _ _ r k) as [[[[o e] out] k']|] eqn:Et; [|done].
  destruct o as [r'|]; [apply through_same in Et as ->|]; cbn; unfold elift; [unfold select_row; destruct (_ =? _); [done|]|]; rewrite ?bind_pure; (destruct e; [done|apply IH]).
Qed.

Lemma filter_each f rows k : filter_rows f rows k = each_row (λ r, ebind (f r) (λ b, eret (if b : bool then Some r else None))) rows k.
Proof.
  revert k. induction rows as [|r rows IH]; intros k; [done|]. cbn [filter_rows each_row]. unfold ebind at 1 3 4. destruct (f r k) as [[b k']|]; [|done]. cbn.
  unfold ebind. rewrite IH. by destruct (each_row _ rows k') as [[l k2]|], b.
Qed.

Lemma each_same (f : Row → eval (option Row)) rows k : (∀ r k, f r k = Ok (Some r, k)) → each_row f rows k = Ok (rows, k).
Proof. intros Hf. revert k. induction rows as [|r rows IH]; intros k; [done|]. cbn [each_row]. unfold ebind. rewrite Hf. cbn. by rewrite IH. Qed.

Lemma staged_each ordered_sort position stages rows k : Forall targetable stages → blocking_sort ordered_sort position stages = false →
  select_staged cat ordered_sort position stages rows k = staged target_step stages rows k.
Proof.
  intros Hs. revert position rows k. induction Hs as [|s stages Ht _ IH]; intros position rows k Hb; [done|]. cbn [blocking_sort] in Hb. apply orb_false_iff in Hb as [Hb1 Hb].
  destruct s; try done; cbn [select_staged staged].
  - unfold ebind. rewrite filter_each. change (each_row _ rows k) with (each_row (target_step (StFilter e)) rows k). destruct (each_row _ rows k) as [[l k']|]; [|done]. by apply IH.
  - unfold ebind. rewrite filter_each. change (each_row _ rows k) with (each_row (target_step (StFilterMatch m)) rows k). destruct (each_row _ rows k) as [[l k']|]; [|done]. by apply IH.
  - cbn [is_sort andb] in Hb1. apply negb_false_iff in Hb1. rewrite Hb1. unfold ebind. rewrite each_same by done. by apply IH.
  - by apply IH.
Qed.

Lemma select_all rows selected : zlen selected + zlen rows ≤ MAX_QUERY_WORKING_ROWS → foldR select_row selected rows = Ok (selected ++ (row_id <$> rows)).
Proof.
  revert selected. induction rows as [|r rows IH]; intros selected Hn; [by rewrite app_nil_r|]. rewrite zlen_cons in Hn. pose proof (zlen_nonneg rows). cbn [foldR].
  unfold select_row at 2. rewrite (proj2 (Z.eqb_neq _ _)) by lia. rewrite bind_pure, IH; [by rewrite <-app_assoc|]. rewrite zlen_app. unfold zlen at 2. cbn [length]. lia.
Qed.

(** The loop selects what evaluating stage by stage selects, at no greater cost. *)
Lemma streaming_staged ordered_sort position stages rows rows' selected c : Forall targetable stages → blocking_sort ordered_sort position stages = false →
  costs (select_staged cat ordered_sort position stages rows) rows' c → zlen selected + zlen rows' ≤ MAX_QUERY_WORKING_ROWS →
  ∃ e, e ≤ c ∧ costs (select_streaming cat stages (initial_takes stages) rows selected) (selected ++ (row_id <$> rows')) e.
Proof.
  intros Hs Hb Hc Hn. destruct (loop_staged target_step select_row metered_target_step stages rows rows' selected (selected ++ (row_id <$> rows')) c) as (e & Hle & He).
  - eapply list.Forall_impl; [exact Hs|]. by intros [].
  - eapply costs_ext; [|exact Hc]. intros k. by apply staged_each.
  - by apply select_all.
  - exists e. split; [done|]. eapply costs_ext; [|exact He]. intros k. symmetry. by apply streaming_loop.
Qed.

(** *** Fewer candidates *)

Lemma filter_elem f rows rows' c r : (∀ r, metered (f r)) → costs (filter_rows f rows) rows' c → r ∈ rows' ↔ r ∈ rows ∧ ∃ d, costs (f r) true d.
Proof.
  intros Hf. revert rows' c. induction rows as [|r' rows IH]; intros rows' c Hr; cbn [filter_rows] in Hr.
  { destruct (costs_fun _ _ _ _ _ Hr (costs_ret [])) as [-> _]. split; [by intros ?%elem_of_nil|by intros [?%elem_of_nil _]]. }
  apply costs_bind_inv in Hr as (b & c1 & c2 & Hb & Hr & ->); [|done|by intros; apply metered_bind; [by apply metered_filter|intros; apply metered_ret]].
  apply costs_bind_inv in Hr as (rest & c3 & c4 & Hr & He & ->); [|by apply metered_filter|intros; apply metered_ret].
  destruct (costs_fun _ _ _ _ _ He (costs_ret _)) as [-> _]. specialize (IH _ _ Hr). rewrite elem_of_cons. destruct b; [rewrite elem_of_cons|]; split; rewrite ?IH.
  - intros [->|[? ?]]; eauto.
  - intros [[->|?] ?]; eauto.
  - intros [? ?]; eauto.
  - intros [[->|?] [d Hd]]; [|eauto]. by destruct (costs_fun _ _ _ _ _ Hd Hb).
Qed.

Lemma filter_sublist f rows rows' k k' : filter_rows f rows k = Ok (rows', k') → sublist rows' rows.
Proof.
  revert rows' k k'. induction rows as [|r rows IH]; intros rows' k k' Hr; cbn [filter_rows] in Hr; [by injection Hr as <- _|].
  apply bind_Ok in Hr as ([b k1] & _ & Hr). apply bind_Ok in Hr as ([rest k2] & Hr & [= <- _]). destruct b; constructor; by eapply IH.
Qed.

Lemma filter_narrow f full rows full' c : (∀ r, metered (f r)) → sublist rows full → costs (filter_rows f full) full' c →
  ∃ rows' e, e ≤ c ∧ costs (filter_rows f rows) rows' e ∧ sublist rows' full'.
Proof.
  intros Hf Hs. revert full' c. induction Hs as [|r rows full Hs IH|r rows full Hs IH]; intros full' c Hr.
  { exists full', c. split; [lia|]. split; [done|]. destruct (costs_fun _ _ _ _ _ Hr (costs_ret [])) as [-> _]. done. }
  all: cbn [filter_rows] in Hr; apply costs_bind_inv in Hr as (b & c1 & c2 & Hb & Hr & ->); [|done|by intros; apply metered_bind; [by apply metered_filter|intros; apply metered_ret]].
  all: apply costs_bind_inv in Hr as (rest & c3 & c4 & Hr & He & ->); [|by apply metered_filter|intros; apply metered_ret].
  all: destruct (costs_fun _ _ _ _ _ He (costs_ret _)) as [-> ->]; destruct (IH _ _ Hr) as (rows' & e & Hle & Hrows & Hsub); pose proof (proj1 Hb).
  - exists (if b then r :: rows' else rows'), (c1 + (e + 0)). split; [lia|]. split; [|destruct b; [by constructor|done]].
    cbn [filter_rows]. eapply costs_bind; [done|]. eapply costs_bind; [done|]. apply costs_ret.
  - exists rows', e. split; [lia|]. split; [done|]. destruct b; [by constructor|done].
Qed.

Lemma sublist_full {A} (l k : list A) : NoDup k → sublist l k → (∀ x, x ∈ k → x ∈ l) → l = k.
Proof.
  intros Hk Hs. induction Hs as [|x l k Hs IH|x l k Hs IH]; intros Hin; [done|..]; apply list.NoDup_cons in Hk as [Hx Hk].
  - f_equal. apply IH; [done|]. intros y Hy. destruct (proj1 (elem_of_cons _ _ _) (Hin y ltac:(by right))) as [->|]; done.
  - destruct Hx. assert (x ∈ l) by (apply Hin; by left). by eapply (elem_of_submseteq l); [|apply sublist_submseteq].
Qed.

(** Rows that a leading filter rejects make no difference to the selection. *)
Lemma staged_narrow ordered_sort position stages full rows out c : Forall targetable stages → NoDup full → sublist rows full →
  (∀ r, r ∈ full → Forall (accepts cat (row_fields r)) (leading_filters stages) → r ∈ rows) →
  costs (select_staged cat ordered_sort position stages full) out c →
  ∃ e, e ≤ c ∧ costs (select_staged cat ordered_sort position stages rows) out e.
Proof.
  intros Hs. revert position full rows c. induction Hs as [|s stages Ht Hs IH]; intros position full rows c Hn Hsub Hin Hc.
  { assert (rows = full) as -> by (apply sublist_full; [done..|]; intros r Hr; by apply Hin). exists c. split; [lia|done]. }
  assert (Hsame : leading_filters (s :: stages) = [] → ∃ e, e ≤ c ∧ costs (select_staged cat ordered_sort position (s :: stages) rows) out e).
  { intros E. assert (rows = full) as -> by (apply sublist_full; [done..|]; intros r Hr; apply Hin; [done|by rewrite E]). exists c. split; [lia|done]. }
  destruct s; try done; try (by apply Hsame). clear Hsame. cbn [select_staged] in Hc.
  assert (Hm : ∀ r, metered (decision (StFilter e) r)) by (intros; apply metered_decision).
  apply costs_bind_inv in Hc as (full' & c1 & c2 & Hf & Hc & ->); [|by apply metered_filter|intros; by apply metered_staged].
  destruct (filter_narrow _ _ _ _ _ Hm Hsub Hf) as (rows' & d & Hd & Hrows & Hsub').
  destruct (IH (S position) full' rows' c2) as (d' & Hd' & Hout); [|done| |done|].
  - eapply sublist_NoDup; [done|]. eapply filter_sublist, Hf. reflexivity.
  - intros r Hr Ha. apply (filter_elem _ _ _ _ _ Hm Hf) in Hr as [Hr [k Hk]]. apply (filter_elem _ _ _ _ _ Hm Hrows). split; [|by exists k].
    apply Hin; [done|]. constructor; [|done]. exists k, (k - k). by apply Hk.
  - exists (d + d'). split; [lia|]. cbn [select_staged]. by eapply costs_bind.
Qed.
(** *** What is selected *)

Lemma insert_by_perm {A} (cmp : A → A → result comparison) x l l' : insert_by cmp x l = Ok l' → l' ≡ₚ x :: l.
Proof.
  revert l'. induction l as [|y l IH]; intros l' Hl; cbn [insert_by] in Hl; [by injection Hl as <-|]. apply bind_Ok in Hl as (r & _ & Hl).
  destruct r; [by injection Hl as <-..|]. apply bind_Ok in Hl as (l'' & Hl & [= <-]). rewrite (IH _ Hl). apply list.Permutation_swap.
Qed.

Lemma sort_by_perm {A} (cmp : A → A → result comparison) l l' : sort_by cmp l = Ok l' → l' ≡ₚ l.
Proof.
  revert l'. induction l as [|x l IH]; intros l' Hl; cbn [sort_by] in Hl; [by injection Hl as <-|]. apply bind_Ok in Hl as (l1 & Hl1 & Hl).
  rewrite (insert_by_perm _ _ _ _ Hl). by rewrite (IH _ Hl1).
Qed.

Lemma staged_submseteq ordered_sort position stages rows out k k' : select_staged cat ordered_sort position stages rows k = Ok (out, k') → out ⊆+ rows.
Proof.
  revert position rows k. induction stages as [|s stages IH]; intros position rows k Hc; [by injection Hc as <- _|].
  assert (Hfilter : ∀ f, ebind (filter_rows f rows) (select_staged cat ordered_sort (S position) stages) k = Ok (out, k') → out ⊆+ rows).
  { intros f ([mid k1] & Hmid & Hc')%bind_Ok. rewrite (IH _ _ _ Hc'). by eapply sublist_submseteq, filter_sublist. }
  destruct s; try done; cbn [select_staged] in Hc; [by eapply Hfilter..| |].
  - case_bool_decide; [by eapply IH|]. apply bind_Ok in Hc as (mid & Hm%sort_by_perm & Hc). rewrite <-Hm. by eapply IH.
  - rewrite (IH _ _ _ Hc). apply sublist_submseteq. etrans; [apply sublist_take|apply sublist_drop].
Qed.

Lemma streaming_sublist stages states rows selected out k k' : select_streaming cat stages states rows selected k = Ok (out, k') →
  ∃ sub, sublist sub rows ∧ out = selected ++ (row_id <$> sub).
Proof.
  revert states selected k. induction rows as [|r rows IH]; intros states selected k Hs.
  { injection Hs as <- _. exists []. split; [done|by rewrite app_nil_r]. }
  cbn [select_streaming] in Hs. apply bind_Ok in Hs as ([[[o ex] states'] k1] & _ & Hs). apply bind_Ok in Hs as (selected' & Hsel & Hs).
  assert (∃ own, sublist own [r] ∧ selected' = selected ++ (row_id <$> own)) as (own & Hown & ->).
  { destruct o; [|exists []; injection Hsel as <-; split; [apply sublist_nil_l|by rewrite app_nil_r]]. case_if_in Hsel; [done|]. injection Hsel as <-. by exists [r]. }
  destruct ex.
  - injection Hs as <- _. exists own. split; [|done]. etrans; [exact Hown|]. apply sublist_skip, sublist_nil_l.
  - destruct (IH _ _ _ Hs) as (sub & Hsub & ->). exists (own ++ sub). split; [by apply (sublist_app own [r])|]. by rewrite fmap_app, app_assoc.
Qed.

(** *** Sizes *)

Lemma materialized_sublist rows full a a' b : (∀ fields n, json_len fields = Ok n → 0 ≤ n) → sublist rows full →
  let f := λ encoded row, size ← materialized_row_size row; let encoded := saturating_usize (encoded + size) in if encoded >? GENERAL_WORKING_MAX_BYTES then Err "E_LIMIT" else Ok encoded in
  a' ≤ a → a ≤ GENERAL_WORKING_MAX_BYTES → foldR f a full = Ok b → ∃ b', foldR f a' rows = Ok b'.
Proof.
  intros Hlen Hs f. revert a a'. induction Hs as [|r rows full Hs IH|r rows full Hs IH]; intros a a' Ha Hmax Hf; [by eexists|..]; cbn [foldR] in *.
  all: apply bind_Ok in Hf as (a1 & (n & Hn & Ha1)%bind_Ok & Hf); cbv zeta in Ha1; case_if_in Ha1; [done|]; injection Ha1 as <-.
  all: assert (0 ≤ n) by (unfold materialized_row_size in Hn; destruct (json_len _) as [m|e] eqn:Ej; [|done]; injection Hn as <-; by eapply Hlen).
  - assert (Hle : saturating_usize (a' + n) ≤ saturating_usize (a + n)) by (unfold saturating_usize; lia).
    assert (f a' r = Ok (saturating_usize (a' + n))) as ->.
    { unfold f. rewrite Hn, bind_pure. cbv zeta. destruct (saturating_usize (a' + n) >? _) eqn:E'; [lia|done]. }
    rewrite bind_pure. eapply IH; [done|lia|done].
  - apply (IH (saturating_usize (a + n))); [|lia|done]. etrans; [exact Ha|]. unfold saturating_usize. change GENERAL_WORKING_MAX_BYTES with 67108864 in *. lia.
Qed.

Lemma check_sublist rows full b : (∀ fields n, json_len fields = Ok n → 0 ≤ n) → sublist rows full →
  check_materialized_rows (row_fields <$> full) = Ok b → ∃ b', check_materialized_rows (row_fields <$> rows) = Ok b'.
Proof. intros Hlen Hs. apply (materialized_sublist (row_fields <$> rows) (row_fields <$> full) 0 0 b Hlen); [by apply fmap_sublist|lia|done]. Qed.
End streaming.

(** ** The target *)

Section exact.
Context `{TextLib} `{PredicateText} `{Base64} `{WireText} `{RowJson}.

Lemma get_rows_stored db p t rows : consistent db → table db (pl_from p) = Ok t → (∀ r, r ∈ rows → r ∈ tbl_rows t) → get_rows db (pl_from p) (row_id <$> rows) = Ok rows.
Proof.
  intros Hdb Ht Hrows. induction rows as [|r rows IH]; [done|]. rewrite fmap_cons. cbn [get_rows].
  rewrite (get_row_stored db p t Hdb Ht r), bind_pure, IH by (try (intros; apply Hrows); by constructor). done.
Qed.

(** The candidates of a plan that satisfies no sort. *)
Lemma unordered_candidates db p t shape estimate access : consistent db → table db (pl_from p) = Ok t →
  Forall (bound_filter (db_catalog db) (tbl_schema t)) (leading_filters (pl_stages p)) →
  plan_access db p None estimate = Ok access ∨ plan_access_for_index db p None shape estimate = Ok access → pa_ordered_sort access = None →
  ∃ o rows, materialize_access_candidates db p None access = Ok o ∧ o = (_ ← pa_index_scan access; Some (row_id <$> rows)) ∧
    match o with Some ids => get_rows db (pl_from p) ids | None => Ok (tbl_rows t) end = Ok rows ∧
    sublist rows (tbl_rows t) ∧ ∀ r, r ∈ tbl_rows t → accepted db p r → r ∈ rows.
Proof.
  intros Hdb Ht Hb Hp Ho. destruct (pa_index_scan access) as [scan|] eqn:Es.
  - destruct (consistent_lookup _ _ _ Hdb Ht) as [Hi _ _ _ _]. destruct (usable_candidates db p t access scan Hdb Ht Hb) as (rows & _ & Hsub & Hacc & Hord & Hreads); [by destruct Hp; [eapply plan_access_usable|eapply plan_access_for_index_usable]|done|].
    unfold promised_order in Hord. unfold reads, needed in Hreads. rewrite Ho in Hord, Hreads. exists (Some (row_id <$> rows)), rows. split_and!; [done|done|by eapply get_rows_stored|done|done].
  - exists None, (tbl_rows t). unfold materialize_access_candidates. by rewrite Es.
Qed.

(** *** No row twice *)

Lemma select_hits_NoDup db name needed residual hits seen selected budget out : NoDup selected → (∀ id, id ∈ selected → bs_mem id seen = true) →
  select_hits db name needed residual hits seen selected budget = Ok out → NoDup out.
Proof.
  revert seen selected budget. induction hits as [|[key id] hits IH]; intros seen selected budget Hn Hseen Hs; cbn [select_hits] in Hs; [by injection Hs as <-|].
  destruct (bs_mem id seen) eqn:Ei; [done|]. apply bind_Ok in Hs as (o & _ & Hs).
  assert (Hold : ∀ i, i ∈ selected → bs_mem i (bs_insert id seen) = true) by (intros i Hi; by rewrite bs_mem_insert_eqb, (Hseen i Hi), orb_true_r).
  destruct o as [[eligible budget']|]; [|by eapply IH].
  assert (Hnew : NoDup (if eligible then selected ++ [id] else selected)).
  { destruct eligible; [|done]. apply list.NoDup_app. split_and!; [done| |apply NoDup_singleton]. intros i Hi ->%list_elem_of_singleton. apply Hseen in Hi. congruence. }
  case_bool_decide; [by injection Hs as <-|]. eapply IH; [exact Hnew| |exact Hs]. intros i Hi. destruct eligible; [|by apply Hold].
  apply elem_of_app in Hi as [Hi| ->%list_elem_of_singleton]; [by apply Hold|]. by rewrite bs_mem_insert_eqb, Z.eqb_refl.
Qed.

Lemma candidates_NoDup db p access ids : materialize_access_candidates db p None access = Ok (Some ids) → NoDup ids.
Proof.
  unfold materialize_access_candidates. destruct (pa_index_scan access) as [scan|]; [|done]. destruct (is_bounds scan) as [bounds|]; [|intros [= <-]; constructor].
  cbv zeta. case_bool_decide; [intros [= <-]; constructor|]. destruct (capacity_overflows _); [done|]. intros (hits & _ & Hs)%bind_Ok. apply bind_Ok in Hs as (selected & Hs & [= <-]).
  apply select_hits_NoDup in Hs; [|constructor|by intros i ?%elem_of_nil]. destruct (pa_ordered_sort access); [done|]. by destruct (sort_ids_spec selected Hs) as [_ ->].
Qed.

Lemma get_rows_sublist db name t ids rows : table db name = Ok t → get_rows db name ids = Ok rows → sublist (row_id <$> rows) ids ∧ ∀ r, r ∈ rows → r ∈ tbl_rows t.
Proof.
  intros Ht. revert rows. induction ids as [|id ids IH]; intros rows Hr; cbn [get_rows] in Hr; [injection Hr as <-; split; [done|by intros r ?%elem_of_nil]|].
  apply bind_Ok in Hr as (o & Ho & Hr). apply bind_Ok in Hr as (rest & Hrest & [= <-]). destruct (IH _ Hrest) as [Hs Hin].
  destruct o as [r|]; [|split; [by constructor|done]]. unfold get_row in Ho. rewrite Ht, bind_pure in Ho. destruct (binary_search _ id) as [[] n] eqn:E; [|done].
  injection Ho as Ho. apply binary_search_true in E. rewrite list_lookup_fmap, Ho in E. injection E as <-. split; [by constructor|].
  intros r' [->|Hr']%elem_of_cons; [by eapply list_elem_of_lookup_2|by apply Hin].
Qed.

(** However the target is executed, with a satisfied sort or without, every row that it
    selects is in the table and is selected once. *)
Lemma mutation_targets_distinct db target t ids : consistent db → table db (pl_from target) = Ok t → mutation_target_ids db target = Ok ids →
  NoDup ids ∧ ∀ id, id ∈ ids → id ∈ row_id <$> tbl_rows t.
Proof.
  intros Hdb Ht Hm. unfold mutation_target_ids in Hm. rewrite Ht, bind_pure in Hm. apply bind_Ok in Hm as (access & _ & Hm). apply bind_Ok in Hm as (o & Hmat & Hm).
  case_if_in Hm; [done|]. apply bind_Ok in Hm as (rows & Hrows & Hm).
  assert (NoDup (row_id <$> rows) ∧ ∀ r, r ∈ rows → r ∈ tbl_rows t) as [Hnd Hin].
  { destruct (consistent_lookup _ _ _ Hdb Ht) as [Hi _ _ _ _]. destruct o as [cand|]; [|injection Hrows as <-; split; [exact (ascending_NoDup _ (ti_rows _ _ _ _ Hi))|done]].
    destruct (get_rows_sublist _ _ _ _ _ Ht Hrows) as [Hs Hin]. split; [|done]. eapply sublist_NoDup; [|exact Hs]. by eapply candidates_NoDup. }
  assert (∃ out, ids = row_id <$> out ∧ out ⊆+ rows) as (out & -> & Hout).
  { destruct (negb _).
    - apply fmap_Ok in Hm as ([out k'] & Hs & ->). apply streaming_sublist in Hs as (sub & Hsub & ->). exists sub. split; [done|by apply sublist_submseteq].
    - unfold select_sorted in Hm. case_if_in Hm; [done|]. apply bind_Ok in Hm as (b & _ & Hm). apply bind_Ok in Hm as (out & Hs & [= <-]).
      apply fmap_Ok in Hs as ([out' k'] & Hs & ->). exists out'. split; [done|]. by eapply staged_submseteq. }
  split.
  - apply submseteq_Permutation in Hout as [rest E']. rewrite E', fmap_app in Hnd. by apply list.NoDup_app in Hnd as [? _].
  - intros id (r & -> & Hr)%list_elem_of_fmap. apply list_elem_of_fmap_2, Hin. by eapply elem_of_submseteq.
Qed.

(** Updates and deletes preserve the invariant of the database without any assumption on the
    rows they select. *)
Theorem targeted_statements_consistent db target assignments db' : consistent db → Forall wf_assignment assignments →
  update_target db target assignments = Ok db' ∨ delete_target db target = Ok db' → consistent db'.
Proof.
  intros Hdb Hl [Hx|Hx].
  - unfold update_target in Hx. apply bind_Ok in Hx as (t & Ht & Hx). apply bind_Ok in Hx as (bound & Hb & Hx). apply bind_Ok in Hx as (x & _ & Hx). apply bind_Ok in Hx as (ids & Hi & Hx).
    assert (pl_from bound = pl_from target) as E by (by apply bind_Ok in Hb as (stages & _ & [= <-])).
    apply (update_consistent db (pl_from bound) ids assignments db'); try done. eapply mutation_targets_distinct; [done| |done]. by rewrite E.
  - unfold delete_target in Hx. apply bind_Ok in Hx as (t & Ht & Hx). apply bind_Ok in Hx as (bound & Hb & Hx). apply bind_Ok in Hx as (ids & Hi & Hx).
    assert (pl_from bound = pl_from target) as E by (by apply bind_Ok in Hb as (stages & _ & [= <-])).
    eapply delete_rows_consistent; [done| |exact Hx]. eapply mutation_targets_distinct; [done| |done]. by rewrite E.
Qed.

(** C20: a delete with a target pipeline removes exactly the rows that the target selects.  On
    success the bound target has selected distinct rows of the table, the table keeps every
    other row as it was and none of these, and the database is as consistent as before. *)
Theorem delete_target_effect db target t db' :
  rtc step default_database db → table db (pl_from target) = Ok t → delete_target db target = Ok db' →
  ∃ bound ids t', bind_mutation_target (db_catalog db) (tbl_schema t) target = Ok bound ∧ mutation_target_ids db bound = Ok ids ∧
    NoDup ids ∧ (∀ id, id ∈ ids → id ∈ row_id <$> tbl_rows t) ∧
    table db' (pl_from target) = Ok t' ∧ (∀ r, r ∈ tbl_rows t' ↔ r ∈ tbl_rows t ∧ row_id r ∉ ids) ∧ consistent db'.
Proof.
  intros Hc%reachable_consistent Ht Hx. unfold delete_target in Hx. rewrite Ht, bind_pure in Hx. apply bind_Ok in Hx as (bound & Hb & Hx). apply bind_Ok in Hx as (ids & Hi & Hx).
  assert (pl_from bound = pl_from target) as E by (by apply bind_Ok in Hb as (stages & _ & [= <-])). rewrite E in Hx.
  destruct (mutation_targets_distinct db bound t ids Hc) as [Hnd Hin]; [by rewrite E|done|].
  destruct (delete_rows_Ok _ _ _ _ Hc Hnd Hx) as (t0 & olds & rows' & Ht0 & Hids & Hl & Hr). assert (t0 = t) as -> by congruence.
  destruct (consistent_lookup _ _ _ Hc Ht) as [Hix _ _ _ _].
  exists bound, ids, (with_rows rows' (tbl_next_row_id t) t). split_and!; [done..| | |by eapply delete_rows_consistent].
  - apply table_Ok. exact (mutated_table _ _ _ _ _ _ _ (replace_replaced _ _ _ _ _ _ Ht Hix Hl Hr)).
  - intros r. cbn [with_rows tbl_rows]. rewrite (leads_iff _ _ _ Hl), <-Hids. split.
    + intros [(c & (o & -> & _)%list_elem_of_fmap & [=])|[Hr' Hne]]. split; [done|]. intros (o & Eo & Ho)%list_elem_of_fmap. apply (Hne (deleted o)); [by apply list_elem_of_fmap_2|]. done.
    + intros [Hr' Hne]. right. split; [done|]. intros c (o & -> & Ho)%list_elem_of_fmap Eo. apply Hne. rewrite <-Eo. by apply (list_elem_of_fmap_2 row_id).
Qed.

(** C21: the rows that an update or delete changes are the rows that its target describes.
    Where no index satisfies a sort of the target and the table fits the working limits,
    every way of execution (through the candidates of an index or a scan, row by row with
    an early end or stage by stage) succeeds whenever evaluating the stages one after the
    other on the whole table does, and selects the same row IDs in the same order; they are
    rows of the table, each selected once. *)
Theorem mutation_targets_exact db target t access bytes out left :
  (∀ fields n, json_len fields = Ok n → 0 ≤ n) →
  rtc step default_database db → table db (pl_from target) = Ok t →
  Forall targetable (pl_stages target) → Forall (bound_filter (db_catalog db) (tbl_schema t)) (leading_filters (pl_stages target)) →
  plan_access db target None false = Ok access → pa_ordered_sort access = None →
  zlen (tbl_rows t) ≤ MAX_QUERY_WORKING_ROWS → check_materialized_rows (row_fields <$> tbl_rows t) = Ok bytes →
  select_staged (db_catalog db) None 0 (pl_stages target) (tbl_rows t) MAX_COLLECTION_PREDICATE_EVALUATIONS = Ok (out, left) →
  mutation_target_ids db target = Ok (row_id <$> out) ∧ NoDup (row_id <$> out) ∧ ∀ r, r ∈ out → r ∈ tbl_rows t.
Proof.
  intros Hlen Hr%reachable_consistent Ht Hst Hb Hp Ho Hn Hbytes Hsel. pose proof (staged_submseteq _ _ _ _ _ _ _ _ Hsel) as Hin.
  destruct (consistent_lookup _ _ _ Hr Ht) as [Hi _ _ _ _]. pose proof (ascending_NoDup _ (ti_rows _ _ _ _ Hi)) as Hnd.
  split; [|split; [|intros r Hr'; by eapply elem_of_submseteq]].
  2:{ apply submseteq_Permutation in Hin as [rest E]. rewrite E, fmap_app in Hnd. by apply list.NoDup_app in Hnd as [? _]. }
  destruct (unordered_candidates db target t EmptyString false access Hr Ht Hb (or_introl Hp) Ho) as (o & rows & Hmat & Eo & Hrows & Hsub & Hacc).
  destruct (metered_costs _ _ _ _ (metered_staged _ _ _ _ _ Hst) Hsel) as [Hc Hk].
  destruct (staged_narrow _ _ _ _ _ _ _ _ Hst (NoDup_fmap_1 _ _ Hnd) Hsub Hacc Hc) as (e & He & Hcost).
  assert (Hlenr : zlen rows ≤ zlen (tbl_rows t)) by (apply sublist_length in Hsub; unfold zlen; lia).
  assert (Hleno : zlen out ≤ zlen (tbl_rows t)) by (apply submseteq_length in Hin; unfold zlen; lia).
  assert (Hcount : match o with Some ids => zlen ids | None => zlen (tbl_rows t) end ≤ MAX_QUERY_WORKING_ROWS).
  { subst o. destruct (pa_index_scan access); [|done]. cbn. unfold zlen in *. rewrite length_fmap. lia. }
  unfold mutation_target_ids. rewrite Ht, bind_pure, Hp, bind_pure, Hmat, bind_pure.
  replace (match o with Some ids => zlen ids >? MAX_QUERY_WORKING_ROWS | None => false end) with false by (destruct o; [symmetry; lia|done]).
  rewrite Hrows, bind_pure, Ho. specialize (Hk ltac:(done)). destruct (blocking_sort None 0 (pl_stages target)) eqn:Eb; cbn [negb].
  - destruct (check_sublist _ _ _ Hlen Hsub Hbytes) as [bytes' Hb']. unfold select_sorted. rewrite Z.gtb_ltb, (proj2 (Z.ltb_ge _ _)) by done.
    rewrite Hb', bind_pure, (proj2 Hcost) by lia. done.
  - destruct (streaming_staged _ None 0 _ _ _ [] _ Hst Eb Hcost) as (e' & He' & Hstream); [unfold zlen at 1; cbn [length]; lia|].
    rewrite (proj2 Hstream) by lia. done.
Qed.
End exact.

(** ** An example *)

#[local] Existing Instances example_text example_predicates example_base64 example_wire_text.
#[local] Instance example_row_sizes : RowJson := { json_len row := Ok (zlen row) }.

(** One user with a name after "ann". *)
Definition example_target : Pipeline := mkPipeline "users" [StFilter example_filter; StTake 0 1].
Definition example_target_access : PlannedAccess := Eval vm_compute in
  match plan_access example_database example_target None false with
  | Ok a => a
  | Err _ => mkPlannedAccess (mkQueryAccessPlan FullScan [] None None false false false [] 0 0) None None
  end.

Lemma mutation_targets_exact_witness : mutation_target_ids example_database example_target = Ok [1].
Proof.
  eapply proj1, (mutation_targets_exact example_database example_target example_users example_target_access _ [example_row 3 1 "bob"]).
  - intros fields n [= <-]. apply zlen_nonneg.
  - exact example_reachable.
  - exact example_users_eq.
  - repeat constructor; lia.
  - constructor; [|constructor]. exists after_ann. split; [by split|]. split; [vm_compute; reflexivity|]. by right.
  - vm_compute. reflexivity.
  - reflexivity.
  - vm_compute. discriminate.
  - vm_compute. reflexivity.
  - vm_compute. reflexivity.
Defined.

(** The same selection, as it is written. *)
Definition example_delete : Pipeline := mkPipeline "users" [StFilter after_ann; StTake 0 1].
Definition example_rest : Database :=
  match delete_target example_database example_delete with Ok db => db | Err _ => default_database end.

Lemma delete_target_effect_witness : ∃ t', table example_rest "users" = Ok t' ∧ example_row 7 0 "ann" ∈ tbl_rows t' ∧ example_row 3 1 "bob" ∉ tbl_rows t'.
Proof.
  destruct (delete_target_effect example_database example_delete example_users example_rest example_reachable example_users_eq) as (bound & ids & t' & Hb & Hi & _ & _ & Ht' & Hr & _).
  { assert (Hok : is_ok (delete_target example_database example_delete) = true) by (vm_compute; reflexivity).
    unfold example_rest. revert Hok. by destruct (delete_target example_database example_delete). }
  assert (Eb : Ok bound = Ok example_target) by (rewrite <-Hb; vm_compute; reflexivity). apply Ok_inj in Eb as ->.
  assert (Ei : Ok ids = Ok [1]) by (rewrite <-Hi; vm_compute; reflexivity). apply Ok_inj in Ei as ->.
  exists t'. split; [exact Ht'|]. split.
  - apply Hr. split; [by left|]. by intros ?%list_elem_of_singleton.
  - intros [_ Hn]%Hr. apply Hn. by left.
Defined.
