(* ===== verification/ExecutionLaws.v ===== *)
(** * Queries compute what their stages mean

    Execution reads candidates of an index instead of the table, takes rows through the
    streaming prefix one at a time, stops early, aggregates while it reads, and checks
    limits as it goes.  Its answer is the one of evaluating the stages one after the other
    on the whole table ([pipeline_meaning]). *)
From stdpp Require Import sorting relations.
From S2P Require Import Prelude Bytes Text Decimal Temporal Scalars Float64 BTree Model Coerce OrderedKey Codec Matching Catalog Schema Expression Typing EvalOps Soundness IndexPredicate Query MatchResult Database Wire Access Stages Aggregates Ranges Postings Rows Tables Predicates Paging References Mutations Updates Links Invariant Effects Planning Candidates Targets Execution Streaming TargetLaws WireLaws.

#[local] Strategy 1000 [MAX_DEPTH underlying field_type coerce].

Section meaning.
Context `{TextLib} `{PredicateText} `{Base64} `{WireText} `{RowJson} `{RowHasher} `{JsonText} `{CursorLib} `{PlanText}.
Context (nested : option string → Pipeline → result (list Fields)) (cat : Catalog).

(** What a stage makes of the rows; a page is not part of it. *)
Definition stage_meaning (s : Stage) (rows : list Fields) : eval (list Fields) :=
  match s with
  | StTake offset limit => eret (take (Z.to_nat limit) (drop (Z.to_nat offset) rows))
  | StSort keys => elift (sort_by_typed cat keys rows) eret
  | StFilterExists e => elift (filter_exists nested e rows) eret
  | StLookup l => elift (apply_lookup nested l rows) eret
  | StAggregate agg => elift (aggregate_rows cat agg rows) eret
  | StWindow w => elift (fst <$> apply_window cat w rows) eret
  | StSetOperation s => elift (combine_rows nested s rows) eret
  | StPage _ => elift (Err PANIC) eret
  | s => each_row (row_step cat s) rows
  end.

Fixpoint pipeline_meaning (stages : list Stage) (rows : list Fields) : eval (list Fields) :=
  match stages with
  | [] => eret rows
  | s :: stages => ebind (stage_meaning s rows) (pipeline_meaning stages)
  end.

(** A stage as preparation leaves it, in a query without a page. *)
Definition prepared_stage (s : Stage) : Prop :=
  sized s ∧ match s with StDerive d => is_Some (de_output_type d) | StPage _ => False | _ => True end.

(** Stages that neither change rows nor look at other queries. *)
Definition plain_stage (s : Stage) : bool :=
  match s with StLet _ | StFilter _ | StFilterMatch _ | StSort _ | StTake _ _ => true | _ => false end.

Lemma metered_row_step s row : metered (row_step cat s row).
Proof. destruct s; cbn [row_step]; metered. Qed.
#[local] Hint Resolve metered_row_step : metered.

Lemma metered_stage s rows : metered (stage_meaning s rows).
Proof. destruct s; cbn [stage_meaning]; first [apply metered_ret|apply metered_lift; intros; apply metered_ret|apply metered_each_row; intros; apply metered_row_step]. Qed.

Lemma metered_pipeline stages rows : metered (pipeline_meaning stages rows).
Proof. revert rows. induction stages as [|s stages IH]; intros rows; [apply metered_ret|]. apply metered_bind; [apply metered_stage|done]. Qed.

Lemma meaning_app stages stages' rows out c : costs (pipeline_meaning (stages ++ stages') rows) out c →
  ∃ mid c1 c2, costs (pipeline_meaning stages rows) mid c1 ∧ costs (pipeline_meaning stages' mid) out c2 ∧ c = c1 + c2.
Proof.
  revert rows c. induction stages as [|s stages IH]; intros rows c Hc; [exists rows, 0, c; split_and!; [apply costs_ret|done|lia]|].
  apply costs_bind_inv in Hc as (mid & c1 & c2 & Hm & Hc & ->); [|apply metered_stage|intros; apply metered_pipeline].
  destruct (IH _ _ Hc) as (mid' & c3 & c4 & Hm' & Ho & ->). exists mid', (c1 + c3), c4. split_and!; [by eapply costs_bind|done|lia].
Qed.

(** ** Limits *)

(** A limit of the engine was met, or a row has no JSON form. *)
Definition limit_error {A} (r : result A) : Prop := r = Err "E_LIMIT" ∨ r = Err "E_PROTOCOL".

Lemma size_limited row : (∃ n, materialized_row_size row = Ok n) ∨ limit_error (materialized_row_size row).
Proof. unfold materialized_row_size. destruct (json_len _) as [n|e]; [left; by eexists|right; by right]. Qed.

Lemma check_limited rows : (∃ n, check_materialized_rows rows = Ok n) ∨ limit_error (check_materialized_rows rows).
Proof.
  unfold check_materialized_rows. generalize 0. induction rows as [|row rows IH]; intros a; [left; by eexists|]. cbn [foldR].
  destruct (size_limited row) as [[n ->]|[-> | ->]]; [|right; by left|right; by right]. rewrite bind_pure. cbv zeta. case_match; [right; by left|]. rewrite bind_pure. apply IH.
Qed.

Lemma streaming_limited row bytes : (∃ n, check_streaming_row_bytes row bytes = Ok n) ∨ limit_error (check_streaming_row_bytes row bytes).
Proof.
  unfold check_streaming_row_bytes. destruct (size_limited row) as [[n ->]|[-> | ->]]; [|right; by left|right; by right]. rewrite bind_pure.
  case_match; [right; by left|left; by eexists].
Qed.

(** The result is [a], up to [R], or a limit is met, which cannot be when [tight]. *)
Definition within {A B} (tight : Prop) (R : A → B → Prop) (r : result A) (b : B) : Prop := (∃ a, r = Ok a ∧ R a b) ∨ (¬ tight ∧ limit_error r).

Lemma within_bind {A B C D} tight (R : A → B → Prop) (S : C → D → Prop) (m : result A) (f : A → result C) b d :
  within tight R m b → (∀ a, R a b → within tight S (f a) d) → within tight S (m ≫= f) d.
Proof. intros [(a & -> & Hr)|[Ht [-> | ->]]] Hf; [by apply Hf|right; split; [done|by left]|right; split; [done|by right]]. Qed.

Lemma within_check tight rows : (tight → ∃ n, check_materialized_rows rows = Ok n) → within tight (λ n (_ : unit), check_materialized_rows rows = Ok n) (check_materialized_rows rows) ().
Proof. intros Ht. destruct (check_limited rows) as [[n E]|E]; [left; by exists n|right; split; [|done]]. intros [n' E']%Ht. rewrite E' in E. by destruct E. Qed.

(** ** The streaming prefix *)

Definition streamable (s : Stage) : bool := negb (blocks None false None 0 s).

Lemma within_Ok {A} tight (r : result A) a : r = Ok a → within tight eq r a.
Proof. intros ->. left. by exists a. Qed.

Lemma within_checked {A B} (tight : Prop) (R : A → B → Prop) row bytes (f : Z → result A) b : ¬ tight → (∀ n, within tight R (f n) b) →
  within tight R (n ← check_streaming_row_bytes row bytes; f n) b.
Proof. intros Ht Hf. destruct (streaming_limited row bytes) as [[n ->]|[-> | ->]]; [apply Hf|right; split; [done|by left]|right; split; [done|by right]]. Qed.

Lemma prefix_within (tight : Prop) bytes stages states exhausted row k x : (tight → forallb plain_stage stages = true) → forallb streamable stages = true →
  through (row_step cat) stages states exhausted row k = Ok x → within tight eq (apply_streaming_prefix cat bytes stages states exhausted row k) x.
Proof.
  intros Ht Hs. revert states exhausted row k x Ht Hs. induction stages as [|s stages IH]; intros states exhausted row k x Ht Hs Hx; [by apply within_Ok|].
  destruct states as [|st states]; [by apply within_Ok|]. apply andb_true_iff in Hs as [Hs1 Hs].
  assert (Hc : ∀ st' ex r k', ebind (through (row_step cat) stages states ex r) (λ '(o, e, out), eret (o, e, st' :: out)) k' = Ok x →
    within tight eq (ebind (apply_streaming_prefix cat bytes stages states ex r) (λ '(o, e, out), eret (o, e, st' :: out)) k') x).
  { intros st' ex r k' (y & Hy & Hx')%bind_Ok. eapply within_bind; [apply IH; [|done|exact Hy]|by intros ? ->; apply within_Ok]. intros Hti. specialize (Ht Hti). by apply andb_true_iff in Ht as [_ Ht]. }
  destruct s; try discriminate Hs1; cbn [apply_streaming_prefix].
  - by apply Hc.
  - rewrite through_step in Hx by done. cbn [row_step] in Hx. rewrite ebind_assoc in Hx. apply bind_Ok in Hx as ([b k'] & Hb & Hx). rewrite (ebind_run _ _ _ _ _ Hb). destruct b; [by apply Hc|by apply within_Ok].
  - rewrite through_step in Hx by done. cbn [row_step] in Hx. rewrite ebind_assoc in Hx. apply bind_Ok in Hx as ([b k'] & Hb & Hx). rewrite (ebind_run _ _ _ _ _ Hb). destruct b; [by apply Hc|by apply within_Ok].
  - assert (Hnt : ¬ tight) by (intros Hti; by specialize (Ht Hti)). rewrite through_step in Hx by done. cbn [row_step] in Hx.
    apply bind_Ok in Hx as ([o k1] & Ho & Hx). apply bind_Ok in Ho as (ty & Hty & Ho). apply bind_Ok in Ho as ([raw k2] & Hraw & Ho). apply bind_Ok in Ho as (value & Hv & [= <- <-]).
    unfold elift at 1. rewrite Hty, bind_pure, (ebind_run _ _ _ _ _ Hraw). unfold elift at 1. rewrite Hv, bind_pure. cbv zeta. apply within_checked; [done|]. intros n. by apply Hc.
  - assert (Hnt : ¬ tight) by (intros Hti; by specialize (Ht Hti)). rewrite through_step in Hx by done. cbn [row_step] in Hx.
    apply bind_Ok in Hx as ([o k1] & Ho & Hx). apply bind_Ok in Ho as ([value k2] & Hv & [= <- <-]).
    rewrite (ebind_run _ _ _ _ _ Hv). cbv zeta. apply within_checked; [done|]. intros n. by apply Hc.
  - assert (Hnt : ¬ tight) by (intros Hti; by specialize (Ht Hti)). rewrite through_step in Hx by done. cbn [row_step] in Hx. apply within_checked; [done|]. intros n. by apply Hc.
  - cbn [through] in Hx. destruct (tk_seen st <? offset); [by apply within_Ok|]. destruct (tk_emitted st >=? limit); [by apply within_Ok|]. by apply Hc.
Qed.

Section stream.
Context {A B : Type} (tight : Prop) (R : A → B → Prop) (P : B → Prop) (resident : A → Z) (consume : A → Fields → result A) (consume0 : B → Fields → result B).
Context (consume_within : ∀ a b row b', R a b → consume0 b row = Ok b' → P b' → within tight R (consume a row) b').
Context (consume_back : ∀ b row b', consume0 b row = Ok b' → P b' → P b).

Lemma loop_back stages states rows b k out k' : loop (row_step cat) consume0 stages states rows b k = Ok (out, k') → P out → P b.
Proof.
  revert states b k. induction rows as [|row rows IH]; intros states b k Hl Hp; [by injection Hl as <- _|]. cbn [loop] in Hl.
  apply bind_Ok in Hl as ([[[o ex] states'] k1] & _ & Hl). apply bind_Ok in Hl as (b1 & Hc & Hl).
  assert (P b1) by (destruct ex; [by injection Hl as <- _|by eapply IH]). destruct o; [by eapply consume_back|by injection Hc as <-].
Qed.

Lemma stream_within stages states rows a b k out k' : (tight → forallb plain_stage stages = true) → forallb streamable stages = true → R a b → P out →
  loop (row_step cat) consume0 stages states rows b k = Ok (out, k') →
  within tight (λ x y, R x.1 y.1 ∧ x.2 = y.2) (stream_rows resident consume cat stages states rows a k) (out, k').
Proof.
  intros Ht Hs. revert states a b k. induction rows as [|row rows IH]; intros states a b k Hr Hp Hl.
  { injection Hl as <- <-. left. by exists (a, k). }
  cbn [loop] in Hl. apply bind_Ok in Hl as ([[[o ex] states'] k1] & Hth & Hl). apply bind_Ok in Hl as (b1 & Hc & Hl).
  cbn [stream_rows]. eapply within_bind; [by eapply prefix_within|]. intros ? ->. cbv beta iota. unfold elift.
  assert (Hp1 : P b1) by (destruct ex; [by injection Hl as <- _|by eapply loop_back]).
  eapply (within_bind _ R).
  - destruct o as [r|]; [by eapply consume_within|]. injection Hc as <-. left. by exists a.
  - intros a1 Ha1. destruct ex; [injection Hl as <- <-; left; by exists (a1, k1)|by eapply IH].
Qed.
End stream.

(** *** Sizes *)

Definition size (row : Fields) : Z := match materialized_row_size row with Ok n => n | Err _ => 0 end.
Definition total (rows : list Fields) : Z := foldr (λ row n, size row + n) 0 rows.

Lemma total_perm rows rows' : rows ≡ₚ rows' → total rows = total rows'.
Proof. unfold total. induction 1; cbn [foldr]; lia. Qed.

Lemma total_app rows rows' : total (rows ++ rows') = total rows + total rows'.
Proof. unfold total. induction rows as [|r rows IH]; cbn [app foldr]; lia. Qed.

(** Sizes are lengths. *)
Context (json_nonneg : ∀ fields n, json_len fields = Ok n → 0 ≤ n).

Lemma size_nonneg row : 0 ≤ size row.
Proof. unfold size, materialized_row_size. destruct (json_len _) as [n|e] eqn:E; [by eapply json_nonneg|done]. Qed.

Lemma total_nonneg rows : 0 ≤ total rows.
Proof. unfold total. induction rows as [|r rows IH]; cbn [foldr]; [done|]. pose proof (size_nonneg r). lia. Qed.

Lemma check_total rows n : check_materialized_rows rows = Ok n → Forall (λ row, is_ok (materialized_row_size row) = true) rows ∧ total rows ≤ GENERAL_WORKING_MAX_BYTES.
Proof.
  unfold check_materialized_rows. assert (Hgen : ∀ a, 0 ≤ a ≤ GENERAL_WORKING_MAX_BYTES → foldR (λ encoded row, size ← materialized_row_size row; let encoded := saturating_usize (encoded + size) in
    if encoded >? GENERAL_WORKING_MAX_BYTES then Err "E_LIMIT" else Ok encoded) a rows = Ok n → Forall (λ row, is_ok (materialized_row_size row) = true) rows ∧ a + total rows ≤ GENERAL_WORKING_MAX_BYTES).
  { induction rows as [|row rows IH]; intros a Ha Hf; [split; [constructor|unfold total; cbn; lia]|]. cbn [foldR] in Hf. apply bind_Ok in Hf as (a1 & (m & Hm & Ha1)%bind_Ok & Hf).
    cbv zeta in Ha1. case_if_in Ha1; [done|]. injection Ha1 as <-. pose proof (size_nonneg row) as Hs. assert (Es : size row = m) by (unfold size; by rewrite Hm). rewrite Es in Hs.
    assert (Esat : saturating_usize (a + m) = a + m) by (unfold saturating_usize in *; change GENERAL_WORKING_MAX_BYTES with 67108864 in *; lia). rewrite Esat in *.
    destruct (IH (a + m)) as [Hok Ht]; [lia|done|]. split; [constructor; [by rewrite Hm|done]|]. change (total (row :: rows)) with (size row + total rows). lia. }
  intros Hf. destruct (Hgen 0) as [Hok Ht]; [done|done|]. split; [done|lia].
Qed.

Lemma total_check rows : Forall (λ row, is_ok (materialized_row_size row) = true) rows → total rows ≤ GENERAL_WORKING_MAX_BYTES → ∃ n, check_materialized_rows rows = Ok n.
Proof.
  intros Hok Ht. unfold check_materialized_rows. assert (Hgen : ∀ a, 0 ≤ a → a + total rows ≤ GENERAL_WORKING_MAX_BYTES → ∃ n, foldR (λ encoded row, size ← materialized_row_size row; let encoded := saturating_usize (encoded + size) in
    if encoded >? GENERAL_WORKING_MAX_BYTES then Err "E_LIMIT" else Ok encoded) a rows = Ok n); [|apply Hgen; [done|lia]].
  clear Ht. induction Hok as [|row rows Hr _ IH]; intros a Ha Ht; [by eexists|]. cbn [foldR]. change (total (row :: rows)) with (size row + total rows) in Ht. pose proof (size_nonneg row). pose proof (total_nonneg rows).
  destruct (materialized_row_size row) as [m|] eqn:Em; [|done]. assert (Es : size row = m) by (unfold size; by rewrite Em). rewrite bind_pure. cbv zeta.
  assert (Esat : saturating_usize (a + m) = a + m) by (unfold saturating_usize; change GENERAL_WORKING_MAX_BYTES with 67108864 in *; lia). rewrite Esat.
  destruct (a + m >? _) eqn:E; [lia|]. rewrite bind_pure. apply IH; lia.
Qed.

Lemma check_submseteq rows full : rows ⊆+ full → (∃ n, check_materialized_rows full = Ok n) → ∃ n, check_materialized_rows rows = Ok n.
Proof.
  intros [rest Hp]%submseteq_Permutation [n (Hok & Ht)%check_total]. apply total_check.
  - rewrite Hp in Hok. by apply list.Forall_app in Hok as [? _].
  - rewrite (total_perm _ _ Hp), total_app in Ht. pose proof (total_nonneg rest). lia.
Qed.

Lemma check_snoc rows row n : check_materialized_rows rows = Ok n → check_materialized_rows (rows ++ [row]) = (size ← check_streaming_row_bytes row n; Ok (saturating_usize (n + size))).
Proof.
  unfold check_materialized_rows. intros E. rewrite foldR_app, E, bind_pure. cbn [foldR]. unfold check_streaming_row_bytes. destruct (materialized_row_size row) as [m|e]; [|done]. rewrite !bind_pure. cbv zeta.
  by destruct (saturating_usize (n + m) >? _).
Qed.

(** *** Collecting rows *)

Definition collect (rows : list Fields) (row : Fields) : result (list Fields) := Ok (rows ++ [row]).
Definition collected (x : list Fields * Z) (rows : list Fields) : Prop := x.1 = rows ∧ check_materialized_rows rows = Ok x.2.
Definition fits (tight : Prop) (rows : list Fields) : Prop := tight → (∃ n, check_materialized_rows rows = Ok n) ∧ zlen rows ≤ MAX_QUERY_WORKING_ROWS.

Lemma collect_within tight x rows row rows' : collected x rows → collect rows row = Ok rows' → fits tight rows' →
  within tight collected ((λ '(rows, bytes) row, append_working_row rows row bytes) x row) rows'.
Proof.
  intros [E Hc] [= <-] Hf. destruct x as [acc bytes]. cbn [fst snd] in E, Hc. subst acc. unfold append_working_row.
  destruct (zlen rows =? MAX_QUERY_WORKING_ROWS) eqn:En.
  { right. split; [|by left]. intros [_ Hn]%Hf. rewrite zlen_app in Hn. unfold zlen at 2 in Hn. cbn [length] in Hn. lia. }
  pose proof (check_snoc rows row bytes Hc) as Hs. destruct (streaming_limited row bytes) as [[n E]|Hl].
  - rewrite E, bind_pure in *. left. eexists. split; [done|]. by split.
  - right. split; [|by destruct Hl as [-> | ->]; [left|right]]. intros [[m Hm] _]%Hf. rewrite Hm in Hs. by destruct Hl as [E | E]; rewrite E in Hs.
Qed.

Lemma collect_back tight rows row rows' : collect rows row = Ok rows' → fits tight rows' → fits tight rows.
Proof.
  intros [= <-] Hf Ht. destruct (Hf Ht) as [[n Hc] Hn]. rewrite zlen_app in Hn. pose proof (zlen_nonneg [row]). split; [|lia].
  unfold check_materialized_rows in Hc. rewrite foldR_app in Hc. apply bind_Ok in Hc as (m & Hm & _). by exists m.
Qed.

Lemma collect_all rows acc : foldR collect acc rows = Ok (acc ++ rows).
Proof. revert acc. induction rows as [|r rows IH]; intros acc; [by rewrite app_nil_r|]. cbn [foldR]. unfold collect at 2. rewrite bind_pure, IH. by rewrite <-app_assoc. Qed.

(** ** Stages on collected rows *)

Lemma each_row_pure {X} (f : X → X) rows k : each_row (λ x, eret (Some (f x))) rows k = Ok (f <$> rows, k).
Proof. revert k. induction rows as [|x rows IH]; intros k; [done|]. cbn [each_row]. unfold ebind at 1. cbn [eret mbind result_bind]. by rewrite (ebind_run _ _ _ _ _ (IH k)). Qed.

Lemma prefix_meaning stages rows k : forallb streamable stages = true → staged (row_step cat) stages rows k = pipeline_meaning stages rows k.
Proof.
  revert rows k. induction stages as [|s stages IH]; intros rows k Hs; [done|]. apply andb_true_iff in Hs as [Hs1 Hs].
  assert (Hb : ∀ m : eval (list Fields), ebind m (staged (row_step cat) stages) k = ebind m (pipeline_meaning stages) k).
  { intros m. unfold ebind. destruct (m k) as [[l k']|]; [by apply IH|done]. }
  destruct s; try discriminate Hs1; cbn [staged pipeline_meaning stage_meaning]; first [apply Hb|by apply IH].
Qed.

Lemma run_stage_meaning sn final_sort position s rows rows' k k' : prepared_stage s → stage_meaning s rows k = Ok (rows', k') →
  run_stage nested sn cat None None final_sort position s (mkWorking rows [] None) k = Ok (mkWorking rows' [] None, k').
Proof.
  intros [_ Hp] Hm.
  assert (Hl : ∀ m : result (list Fields), elift m eret k = Ok (rows', k') → elift m (λ rows, eret (with_working_rows (mkWorking rows [] None) rows)) k = Ok (mkWorking rows' [] None, k')).
  { intros [l|e]; [|done]. by intros [= -> ->]. }
  destruct s; cbn [run_stage stage_meaning wk_rows wk_page] in *; try done; try by apply Hl.
  - pose proof (each_row_pure (λ row : Fields, row) rows k) as E. assert (Ok (rows', k') = Ok ((λ row : Fields, row) <$> rows, k)) as Er by (rewrite <-Hm; exact E).
    injection Er as -> ->. by rewrite list_fmap_id.
  - by rewrite (ebind_run _ _ _ _ _ Hm).
  - by rewrite (ebind_run _ _ _ _ _ Hm).
  - destruct Hp as [ty Hty]. unfold elift at 1. rewrite Hty. cbn [ok_or mbind result_bind]. by rewrite (ebind_run _ _ _ _ _ Hm).
  - by rewrite (ebind_run _ _ _ _ _ Hm).
  - pose proof (each_row_pure (λ row, project_row row fields) rows k) as E. assert (Ok (rows', k') = Ok ((λ row, project_row row fields) <$> rows, k)) as Er by (rewrite <-Hm; exact E).
    by injection Er as -> ->.
  - by injection Hm as <- <-.
Qed.

(** Plain stages drop and reorder rows. *)
Lemma each_row_sublist {X} (f : X → eval (option X)) rows rows' k k' : (∀ x k y k', f x k = Ok (Some y, k') → y = x) → each_row f rows k = Ok (rows', k') → sublist rows' rows.
Proof.
  intros Hf. revert rows' k. induction rows as [|x rows IH]; intros rows' k Hr; cbn [each_row] in Hr; [by injection Hr as <- _|].
  apply bind_Ok in Hr as ([o k1] & Ho & Hr). apply bind_Ok in Hr as ([rest k2] & Hr & Hy). injection Hy as <- ->. destruct o as [y|]; [apply Hf in Ho as ->|]; constructor; by eapply IH.
Qed.

Lemma plain_submseteq s rows rows' k k' : plain_stage s = true → stage_meaning s rows k = Ok (rows', k') → rows' ⊆+ rows.
Proof.
  intros Hp Hm.
  assert (Hf : ∀ f, (∀ x k y k', f x k = Ok (Some y, k') → y = x) → each_row f rows k = Ok (rows', k') → rows' ⊆+ rows) by (intros f Hf Hr; by eapply sublist_submseteq, each_row_sublist).
  destruct s; try discriminate Hp; cbn [stage_meaning] in Hm.
  - eapply Hf; [|exact Hm]. by intros x k1 y k2 [= -> _].
  - eapply Hf; [|exact Hm]. intros x k1 y k2 ([[] k3] & _ & Hy)%bind_Ok; [by injection Hy as -> _|done].
  - eapply Hf; [|exact Hm]. intros x k1 y k2 ([[] k3] & _ & Hy)%bind_Ok; [by injection Hy as -> _|done].
  - apply bind_Ok in Hm as (l & Hs & Hy). injection Hy as <- _. unfold sort_by_typed in Hs. apply sort_by_perm in Hs. by rewrite Hs.
  - injection Hm as <- _. apply sublist_submseteq. etrans; [apply sublist_take|apply sublist_drop].
Qed.

Lemma pipeline_submseteq stages rows rows' k k' : forallb plain_stage stages = true → pipeline_meaning stages rows k = Ok (rows', k') → rows' ⊆+ rows.
Proof.
  revert rows k. induction stages as [|s stages IH]; intros rows k Hp Hm; [by injection Hm as <- _|]. apply andb_true_iff in Hp as [Hp1 Hp].
  apply bind_Ok in Hm as ([mid k1] & H1' & Hm). rewrite (IH _ _ Hp Hm). by eapply plain_submseteq.
Qed.

(** The rows of a query that cannot meet a limit before its result. *)
Definition roomy (stages : list Stage) (rows : list Fields) : Prop :=
  forallb plain_stage stages = true ∧ (∃ n, check_materialized_rows rows = Ok n) ∧ zlen rows ≤ MAX_QUERY_WORKING_ROWS.

Lemma run_stages_within (tight : Prop) sn final_sort position stages rows out c k : Forall prepared_stage stages → (tight → roomy stages rows) →
  costs (pipeline_meaning stages rows) out c → c ≤ k →
  within tight (λ x y, x = (mkWorking y.1 [] None, y.2)) (run_stages nested sn cat None None final_sort position stages (mkWorking rows [] None) k) (out, k - c).
Proof.
  intros Hs. revert position rows c k. induction Hs as [|s stages Hp Hs IH]; intros position rows c k Ht Hc Hk.
  { destruct (costs_fun _ _ _ _ _ Hc (costs_ret _)) as [-> ->]. left. eexists. split; [done|]. by rewrite Z.sub_0_r. }
  apply costs_bind_inv in Hc as (mid & c1 & c2 & Hm & Hc & ->); [|apply metered_stage|intros; apply metered_pipeline].
  pose proof (proj1 Hc). pose proof (proj2 Hm k ltac:(lia)) as Hmk. cbn [run_stages]. rewrite (ebind_run _ _ _ _ _ (run_stage_meaning sn final_sort position s rows mid k _ Hp Hmk)). unfold elift. cbn [wk_rows].
  assert (Hroom : tight → roomy stages mid).
  { intros (Hpl & Hck & Hn)%Ht. apply andb_true_iff in Hpl as [Hpl1 Hpl]. pose proof (plain_submseteq _ _ _ _ _ Hpl1 Hmk) as Hsub. split; [done|]. split; [by eapply check_submseteq|].
    apply submseteq_length in Hsub. unfold zlen in *. lia. }
  eapply within_bind; [apply within_check; intros Hti; apply (Hroom Hti)|]. intros n _. replace (k - (c1 + c2)) with (k - c1 - c2) by lia. apply IH; [done|done|lia].
Qed.

(** ** A query *)

Lemma streaming_end_spec final_sort position stages : ∃ prefix rest, stages = prefix ++ rest ∧
  streaming_end None false final_sort position stages = (position + length prefix)%nat ∧ forallb streamable prefix = true.
Proof.
  revert position. induction stages as [|s stages IH]; intros position; [by exists [], []; rewrite Nat.add_0_r|]. cbn [streaming_end].
  destruct (blocks None false final_sort position s) eqn:Eb; [by exists [], (s :: stages); rewrite Nat.add_0_r|].
  destruct (IH (S position)) as (prefix & rest & -> & -> & Hp). exists (s :: prefix), rest. split; [done|]. split; [cbn [length]; lia|]. cbn [forallb]. rewrite Hp, andb_true_r.
  unfold streamable. destruct s; done.
Qed.

Lemma loop_meaning {A} (consume : A → Fields → result A) prefix rows mid acc acc' c : Forall prepared_stage prefix → forallb streamable prefix = true →
  costs (pipeline_meaning prefix rows) mid c → foldR consume acc mid = Ok acc' →
  ∃ e, e ≤ c ∧ costs (loop (row_step cat) consume prefix (initial_takes prefix) rows acc) acc' e.
Proof.
  intros Hp Hs Hc Hf. apply (loop_staged (row_step cat) consume metered_row_step prefix rows mid acc acc' c); [| |done].
  - eapply list.Forall_impl; [exact Hp|]. by intros s' [? _].
  - eapply costs_ext; [|exact Hc]. intros k. symmetry. by apply prefix_meaning.
Qed.

(** Reading, and aggregating while reading. *)
Lemma read_within (tight : Prop) prefix rest rows out c k : let stages := prefix ++ rest in Forall prepared_stage stages → forallb streamable prefix = true → (tight → roomy stages rows) →
  costs (pipeline_meaning stages rows) out c → c ≤ k →
  ∃ mid start c1 c2, costs (pipeline_meaning (drop start stages) mid) out c2 ∧ c1 + c2 ≤ c ∧ Forall prepared_stage (drop start stages) ∧ (tight → roomy (drop start stages) mid) ∧
    within tight (λ x y, x = y) (read_rows cat stages (length prefix) rows k) (mid, start, k - c1).
Proof.
  intros stages Hp Hs Ht Hc Hk. apply meaning_app in Hc as (mid & c1 & c2 & Hm & Hc & ->). pose proof (proj1 Hm). pose proof (proj1 Hc).
  apply list.Forall_app in Hp as [Hp1 Hp2]. assert (Htp : tight → forallb plain_stage prefix = true ∧ roomy rest mid).
  { intros (Hpl & Hck & Hn)%Ht. unfold stages in Hpl. rewrite forallb_app in Hpl. apply andb_true_iff in Hpl as [Hpl1 Hpl2]. split; [done|]. split; [done|].
    pose proof (pipeline_submseteq _ _ _ _ _ Hpl1 (proj2 Hm k ltac:(lia))) as Hsub. split; [by eapply check_submseteq|]. apply submseteq_length in Hsub. unfold zlen in *. lia. }
  assert (Hcollect : ∃ mid start c3 c4, costs (pipeline_meaning (drop start stages) mid) out c4 ∧ c3 + c4 ≤ c1 + c2 ∧ Forall prepared_stage (drop start stages) ∧ (tight → roomy (drop start stages) mid) ∧
    within tight (λ x y, x = y) (ebind (stream_rows snd (λ '(rows, bytes) row, append_working_row rows row bytes) cat prefix (initial_takes prefix) rows ([], 0)) (λ '(rows, _), eret (rows, length prefix)) k) (mid, start, k - c3)).
  { destruct (loop_meaning collect prefix rows mid [] mid c1 Hp1 Hs Hm) as (e & Hle & He); [by rewrite collect_all|]. exists mid, (length prefix), e, c2.
    unfold stages. rewrite drop_app_length. split_and!; [done|lia|done|by intros [_ ?]%Htp|]. eapply within_bind.
    - eapply (stream_within tight collected (fits tight) snd _ collect); [intros ? ? ? ?; apply collect_within|apply collect_back|by intros [? _]%Htp|done|by split| |exact (proj2 He k ltac:(lia))].
      intros Hti. destruct (Htp Hti) as [_ (_ & Hck & Hn)]. done.
    - intros [[acc bytes] k'] [[Ea _] Ek]. cbn in Ea, Ek |- *. subst. by apply within_Ok. }
  assert (Et : take (length prefix) stages = prefix) by apply take_app_length. assert (El : stages !! length prefix = head rest) by (unfold stages; rewrite lookup_app_r, Nat.sub_diag by lia; by destruct rest).
  unfold read_rows. cbv zeta. rewrite Et, El. destruct rest as [|s rest]; [exact Hcollect|]. cbn [head].
  destruct s; try exact Hcollect. clear Hcollect. assert (Hnt : ¬ tight) by (by intros [_ [? _]]%Htp).
  apply costs_bind_inv in Hc as (rows2 & c3 & c4 & Hagg & Hc & ->); [|apply metered_stage|intros; apply metered_pipeline].
  apply costs_lift_inv in Hagg as (rows3 & Hagg & Hr). destruct (costs_fun _ _ _ _ _ Hr (costs_ret _)) as [-> ->].
  unfold aggregate_rows in Hagg. apply bind_Ok in Hagg as ([groups w] & Hf & Hfin).
  destruct (loop_meaning (aggregate_one_row cat a) prefix rows mid (new_aggregate_groups a, 0) (groups, w) c1 Hp1 Hs Hm Hf) as (e & Hle & He).
  exists rows3, (S (length prefix)), e, c4. assert (Hd : drop (S (length prefix)) stages = rest) by (unfold stages; rewrite cons_middle, app_assoc; replace (S (length prefix)) with (length (prefix ++ [StAggregate a])) by (rewrite length_app; cbn; lia); apply drop_app_length).
  rewrite Hd. apply list.Forall_cons in Hp2 as [_ Hp2]. split_and!; [done|lia|done|done|].
  eapply within_bind.
  - eapply (stream_within tight eq (λ _, True) (λ _, 0) _ (aggregate_one_row cat a)); [intros a1 b1 row b' -> Hb _; by apply within_Ok|done|done|done|done|done|exact (proj2 He k ltac:(lia))].
  - intros [x k'] [Ex Ek]. cbn in Ex, Ek. subst x k'. cbv beta iota. unfold elift. rewrite Hfin, bind_pure.
    destruct (check_limited rows3) as [[n ->]|[-> | ->]]; [by apply within_Ok|right; split; [done|by left]|right; split; [done|by right]].
Qed.

Lemma run_query_within (tight : Prop) sn stages rows out c k : Forall prepared_stage stages → (tight → roomy stages rows ∧ zlen out ≤ MAX_RESULT_ROWS) →
  costs (pipeline_meaning stages rows) out c → c ≤ k →
  within tight (λ x y, x.1 = (y, None)) (run_query nested sn cat None None stages rows k) out.
Proof.
  intros Hp Ht Hc Hk. unfold run_query. change (bool_decide (is_Some None)) with false.
  destruct (streaming_end_spec (list.last (positions is_sort 0 stages)) 0 stages) as (prefix & rest & Es & -> & Hs). rewrite Nat.add_0_l.
  assert (Ht' : tight → roomy (prefix ++ rest) rows) by (rewrite <-Es; by intros [? _]%Ht). rewrite Es in Hp, Hc.
  destruct (read_within tight prefix rest rows out c k Hp Hs Ht' Hc Hk) as (mid & start & c1 & c2 & Hc2 & Hle & Hp2 & Hroom & Hread). rewrite <-Es in *. pose proof (proj1 Hc2).
  eapply within_bind; [exact Hread|]. intros ? ->. cbv beta iota. unfold elift at 1.
  eapply within_bind; [apply within_check; by intros (_ & ? & _)%Hroom|]. intros n _.
  eapply within_bind; [apply run_stages_within; [done|done|exact Hc2|lia]|]. intros ? ->. cbn [fst snd wk_deferred wk_rows wk_page deferred_selects]. unfold elift. rewrite bind_pure.
  destruct (zlen out >? MAX_RESULT_ROWS) eqn:E; [|left; eexists; by split]. right. split; [|by left]. intros [_ ?]%Ht. lia.
Qed.

(** ** Fewer candidates *)

Lemma filter_fields e rows k : each_row (row_step cat (StFilter e)) (row_fields <$> rows) k =
  ('(rows', k') ← filter_rows (decision cat (StFilter e)) rows k; Ok (row_fields <$> (rows' : list Row), k')).
Proof.
  revert k. induction rows as [|r rows IH]; intros k; [done|]. rewrite fmap_cons. cbn [each_row filter_rows row_step decision]. rewrite !ebind_assoc.
  destruct (evaluate cat e (row_field (row_fields r)) k) as [[b k1]|x] eqn:E; [|by rewrite (ebind_Err _ _ _ _ E), (ebind_Err _ _ _ _ E)].
  rewrite !(ebind_run _ _ _ _ _ E). rewrite (ebind_run (eret _) _ _ _ _ eq_refl). unfold ebind. rewrite IH. destruct (filter_rows _ rows k1) as [[l k2]|]; [|done]. by destruct b.
Qed.

Lemma costs_filter e rows out c : costs (each_row (row_step cat (StFilter e)) (row_fields <$> rows)) out c →
  ∃ rows', out = row_fields <$> rows' ∧ costs (filter_rows (decision cat (StFilter e)) rows) rows' c.
Proof.
  intros [Hc Hm]. pose proof (Hm c ltac:(lia)) as Hcc. rewrite filter_fields in Hcc. apply bind_Ok in Hcc as ([rows' k'] & Hf & Hy). injection Hy as <- ->. exists rows'. split; [done|].
  destruct (metered_costs _ _ _ _ (metered_filter _ rows (metered_decision cat (StFilter e))) Hf) as [Hcost _]. by replace (c - (c - c)) with c in Hcost by lia.
Qed.

Lemma filter_costs e rows rows' c : costs (filter_rows (decision cat (StFilter e)) rows) rows' c → costs (each_row (row_step cat (StFilter e)) (row_fields <$> rows)) (row_fields <$> rows') c.
Proof. intros [Hc Hm]. split; [done|]. intros j Hj. rewrite filter_fields. by rewrite Hm. Qed.

(** Rows that a leading filter rejects make no difference to the answer. *)
Lemma meaning_narrow stages full rows out c : NoDup full → sublist rows full →
  (∀ r, r ∈ full → Forall (accepts cat (row_fields r)) (leading_filters stages) → r ∈ rows) →
  costs (pipeline_meaning stages (row_fields <$> full)) out c → ∃ e, e ≤ c ∧ costs (pipeline_meaning stages (row_fields <$> rows)) out e.
Proof.
  revert full rows c. induction stages as [|s stages IH]; intros full rows c Hn Hsub Hin Hc.
  { assert (rows = full) as -> by (apply sublist_full; [done..|]; intros r Hr; by apply Hin). exists c. split; [lia|done]. }
  assert (Hsame : leading_filters (s :: stages) = [] → ∃ e, e ≤ c ∧ costs (pipeline_meaning (s :: stages) (row_fields <$> rows)) out e).
  { intros E. assert (rows = full) as -> by (apply sublist_full; [done..|]; intros r Hr; apply Hin; [done|by rewrite E]). exists c. split; [lia|done]. }
  apply costs_bind_inv in Hc as (mid & c1 & c2 & Hm & Hc & ->); [|apply metered_stage|intros; apply metered_pipeline].
  assert (Hm' : ∀ e r, metered (decision cat (StFilter e) r)) by (intros; apply metered_decision).
  destruct s; try (by apply Hsame); clear Hsame.
  - assert (mid = row_fields <$> full ∧ c1 = 0) as [-> ->].
    { apply (costs_fun _ _ _ _ _ Hm). split; [lia|]. intros j _. rewrite Z.sub_0_r. rewrite <-(list_fmap_id (row_fields <$> full)) at 2. apply (each_row_pure (λ row : Fields, row)). }
    destruct (IH _ _ _ Hn Hsub Hin Hc) as (e & He & Hout). exists (0 + e). split; [lia|]. eapply costs_bind; [|exact Hout]. split; [lia|]. intros j _. rewrite Z.sub_0_r.
    rewrite <-(list_fmap_id (row_fields <$> rows)) at 2. apply (each_row_pure (λ row : Fields, row)).
  - apply costs_filter in Hm as (full' & -> & Hf). destruct (filter_narrow _ _ _ _ _ (Hm' e) Hsub Hf) as (rows' & d & Hd & Hrows & Hsub').
    destruct (IH full' rows' c2) as (d' & Hd' & Hout); [|done| |done|].
    + eapply sublist_NoDup; [done|]. eapply filter_sublist, Hf. reflexivity.
    + intros r Hr Ha. apply (filter_elem _ _ _ _ _ (Hm' e) Hf) in Hr as [Hr [k Hk]]. apply (filter_elem _ _ _ _ _ (Hm' e) Hrows). split; [|by exists k].
      apply Hin; [done|]. constructor; [|done]. exists k, (k - k). by apply Hk.
    + exists (d + d'). split; [lia|]. eapply costs_bind; [by apply filter_costs|exact Hout].
Qed.
End meaning.

Section exact.
Context `{TextLib} `{PredicateText} `{Base64} `{WireText} `{RowJson} `{RowHasher} `{JsonText} `{CursorLib} `{PlanText}.

Lemma no_page sn db p : Forall prepared_stage (pl_stages p) → prepare_page sn db p = Ok None.
Proof.
  intros Hs. unfold prepare_page, page_shape. assert (Hpos : ∀ n, positions is_page n (pl_stages p) = []); [|cbv zeta; rewrite Hpos; reflexivity].
  induction Hs as [|s stages [_ Hp] _ IH]; intros n; [done|]. cbn [positions]. destruct s; try done; apply IH.
Qed.

(** C19: a query computes what its stages mean.  For a prepared query without a page, with
    bound leading filters and a plan, chosen or forced, that satisfies no sort by an index:
    if evaluating the stages one after the other on the whole table gives the rows [out],
    then execution, which reads index candidates, takes each row through the streaming
    prefix, stops early and aggregates while it reads, answers with exactly these rows in
    this order.  It can fail only by a limit (or a row without JSON form), and does not when
    the stages are filters, matches, sorts and takes, the rows of the table fit the working
    limits and [out] the result limit. *)
Theorem query_prepared_exact nested sn db forced p t access out left :
  (∀ fields n, json_len fields = Ok n → 0 ≤ n) →
  rtc step default_database db → table db (pl_from p) = Ok t →
  Forall prepared_stage (pl_stages p) → Forall (bound_filter (db_catalog db) (tbl_schema t)) (leading_filters (pl_stages p)) →
  match forced with Some shape => plan_access_for_index db p None shape true | None => plan_access db p None true end = Ok access →
  pa_ordered_sort access = None →
  pipeline_meaning nested (db_catalog db) (pl_stages p) (row_fields <$> tbl_rows t) MAX_COLLECTION_PREDICATE_EVALUATIONS = Ok (out, left) →
  query_prepared nested sn db forced p = Ok (out, None) ∨
  limit_error (query_prepared nested sn db forced p) ∧ ¬ (roomy (pl_stages p) (row_fields <$> tbl_rows t) ∧ zlen out ≤ MAX_RESULT_ROWS).
Proof.
  intros Hlen Hr%reachable_consistent Ht Hp Hb Hpl Ho Hm. set (tight := roomy (pl_stages p) (row_fields <$> tbl_rows t) ∧ zlen out ≤ MAX_RESULT_ROWS).
  assert (Hplan : plan_access db p None true = Ok access ∨ plan_access_for_index db p None (default EmptyString forced) true = Ok access) by (destruct forced; auto).
  destruct (consistent_lookup _ _ _ Hr Ht) as [Hi _ _ _ _]. pose proof (ascending_NoDup _ (ti_rows _ _ _ _ Hi)) as Hnd.
  destruct (unordered_candidates db p t _ true access Hr Ht Hb Hplan Ho) as (o & rows & Hmat & Eo & Hrows & Hsub & Hacc).
  destruct (metered_costs _ _ _ _ (metered_pipeline _ _ _ _) Hm) as [Hc Hk].
  destruct (meaning_narrow _ _ _ _ _ _ _ (NoDup_fmap_1 _ _ Hnd) Hsub Hacc Hc) as (e & He & Hcost). specialize (Hk ltac:(done)).
  assert (Hroom : tight → roomy (pl_stages p) (row_fields <$> rows) ∧ zlen out ≤ MAX_RESULT_ROWS).
  { intros [(Hpl' & Hck & Hn) Hout]. split; [|done]. pose proof (fmap_sublist row_fields _ _ Hsub) as Hfs. split; [done|]. split; [by eapply check_submseteq, Hck; [|apply sublist_submseteq]|].
    apply sublist_length in Hfs. unfold zlen in *. lia. }
  unfold query_prepared. rewrite no_page, bind_pure, Ht, bind_pure, Hpl, bind_pure, Hmat, bind_pure by done.
  destruct (match o with Some ids => zlen ids >? MAX_QUERY_WORKING_ROWS | None => false end) eqn:Ecount.
  { right. split; [by left|]. intros [(_ & _ & Hn) _]%Hroom. subst o. destruct (pa_index_scan access); [|done]. cbn in Ecount. unfold zlen in *. rewrite length_fmap in Ecount. rewrite length_fmap in Hn. lia. }
  rewrite Hrows, bind_pure, Ho.
  destruct (run_query_within nested (db_catalog db) Hlen tight sn (pl_stages p) (row_fields <$> rows) out e MAX_COLLECTION_PREDICATE_EVALUATIONS Hp Hroom Hcost ltac:(lia)) as [([x k'] & E & Ex)|[Hnt Hl]].
  - left. rewrite E. cbn in Ex |- *. by rewrite Ex.
  - right. split; [|done]. destruct Hl as [E|E]; rewrite E; [by left|by right].
Qed.
End exact.

(** ** An example *)

#[local] Existing Instances example_text example_predicates example_base64 example_wire_text.
#[local] Instance query_row_sizes : RowJson := { json_len row := Ok (zlen row) }.

(** The names after "ann", in descending order, one of them. *)
Definition example_names_query : Pipeline := mkPipeline "users" [StFilter example_filter; StSort [mkSortKey "id" true (Some TInt)]; StTake 0 1].
#[local] Instance example_hasher : RowHasher := { hash_finish _ := 0 }.
#[local] Instance example_texts : JsonText := { json_text _ := EmptyString }.
#[local] Instance example_cursors : CursorLib := {| payload_to_vec _ := None; payload_from_slice _ := None; hmac_sha256 _ _ := [] |}.
#[local] Instance example_plans : PlanText := {| format_pipeline := pl_from; sha256_hex := id |}.

Definition example_names_access : PlannedAccess := Eval vm_compute in
  match plan_access example_database example_names_query None true with
  | Ok a => a
  | Err _ => mkPlannedAccess (mkQueryAccessPlan FullScan [] None None false false false [] 0 0) None None
  end.

Definition query_snapshot : Snapshot := mkSnapshot (mkCursorIdentity [] []) (mkSchemaInfo 0 "") 0.

Lemma query_prepared_exact_witness : query_prepared (λ _ _, Err "E_QUERY") query_snapshot example_database None example_names_query = Ok ([row_fields (example_row 3 1 "bob")], None).
Proof.
  destruct (query_prepared_exact (λ _ _, Err "E_QUERY") query_snapshot example_database None example_names_query example_users example_names_access [row_fields (example_row 3 1 "bob")] 100000) as [E|[_ Hn]].
  - intros fields n [= <-]. apply zlen_nonneg.
  - exact example_reachable.
  - exact example_users_eq.
  - repeat constructor; lia.
  - constructor; [|constructor]. exists after_ann. split; [by split|]. split; [vm_compute; reflexivity|]. by right.
  - vm_compute. reflexivity.
  - reflexivity.
  - vm_compute. reflexivity.
  - exact E.
  - destruct Hn. split; [|vm_compute; discriminate]. split; [reflexivity|]. split; [eexists; vm_compute; reflexivity|vm_compute; discriminate].
Defined.
