(* ===== verification/PageOrder.v ===== *)
(** * The order of a page separates rows

    [prepare_page] of src/src/db.rs accepts a page only behind a sort that it can prove
    unique: one that ends in the primary key, or covers what the leading equalities leave
    of a unique index.  The proof is right: rows of the table that agree on the sort are
    the same row. *)
From stdpp Require Import gmap sets sorting relations.
From S2P Require Import Prelude Bytes Text Decimal Temporal Float64 Scalars BTree Model Coerce OrderedKey Matching Coverage Catalog Schema Expression Typing EvalOps Soundness IndexPredicate Database Query Access Ranges Postings Rows Tables Predicates References Mutations Links Invariant Effects Planning Candidates Wire WireLaws Paging PagingLaws.

#[local] Strategy 1000 [MAX_DEPTH underlying field_type cmp_typed coerce].

(** Two rows with equal sort keys have equal values there. *)
Lemma compare_equal names cat schema keys left right : good_catalog names cat → good_type names (TRecord schema) →
  typed_row cat schema left → typed_row cat schema right → Forall (key_bound cat schema) keys →
  compare_rows_by_typed_keys cat keys left right = Ok Eq → ∀ k, k ∈ keys → row_field left (sk_column k) = row_field right (sk_column k).
Proof.
  intros Hg Hs Hl Hr Hb. induction Hb as [|k keys (ty & Hk & Hty) _ IH]; intros Hc k' Hin; [by apply elem_of_nil in Hin|]. cbn [compare_rows_by_typed_keys] in Hc.
  destruct (column_value names cat Hg schema left Hs Hl _ _ Hty) as (v & Hv & Tv), (column_value names cat Hg schema right Hs Hr _ _ Hty) as (w & Hw & Tw).
  rewrite Hk, Hv, Hw in Hc. cbn [ok_or] in Hc. rewrite !bind_pure in Hc. apply bind_Ok in Hc as (o & Ho & Hc).
  destruct (rev_if (sk_descending k) o) eqn:Eo; [|done..]. apply elem_of_cons in Hin as [->|Hin]; [|by apply IH].
  assert (o = Eq) as -> by (by destruct o, (sk_descending k)). apply ordered_typed in Ho. rewrite Hv, Hw. f_equal.
  destruct (column_good names cat Hg schema Hs _ _ Hty) as [Hwt _]. by eapply ordered_equal; [apply Hg|exact Hwt|..].
Qed.

(** An index key depends on the values of its components. *)
Lemma tuple_key_same cat schema components left right : (∀ c, c ∈ components → row_field left (ic_column c) = row_field right (ic_column c)) →
  tuple_key cat schema components left = tuple_key cat schema components right.
Proof.
  intros Hc. unfold tuple_key, index_values. f_equal. induction components as [|c components IH]; [done|]. cbn [mapR].
  replace (index_component_value left c) with (index_component_value right c) by (unfold index_component_value; by rewrite (Hc c) by (by left)).
  rewrite IH; [done|]. intros c' Hc'. apply Hc. by right.
Qed.

Lemma equality_prefix_fixed constraints components c : c ∈ take (equality_prefix constraints components) components →
  ∃ k, k ∈ constraints ∧ cn_column k = ic_column c ∧ cn_op k = CmpEq.
Proof.
  induction components as [|c' components IH]; cbn [equality_prefix]; [by intros ?%elem_of_nil|]. destruct (existsb _ constraints) eqn:E; [|by intros ?%elem_of_nil].
  intros [->|Hc]%elem_of_cons; [|by apply IH]. apply existsb_exists in E as (k & Hk%list_elem_of_In & E). bool_inv. exists k. split_and!; [done|done|by destruct (cn_op k)].
Qed.

Section unique.
Context `{TextLib} `{PredicateText} `{Base64}.
Context (db : Database) (p : Pipeline) (t : Table).
Hypotheses (Hdb : consistent db) (Ht : table db (pl_from p) = Ok t).
Hypothesis (Hbound : Forall (bound_filter (db_catalog db) (tbl_schema t)) (leading_filters (pl_stages p))).
Context (r1 r2 : Row) (Hr1 : r1 ∈ tbl_rows t) (Hr2 : r2 ∈ tbl_rows t) (Ha1 : accepted db p r1) (Ha2 : accepted db p r2).

Lemma constraint_agrees k : k ∈ leading_index_constraints p → cn_op k = CmpEq → row_field (row_fields r1) (cn_column k) = row_field (row_fields r2) (cn_column k).
Proof.
  intros Hk Hop. destruct (schema_names db p t Hdb Ht) as (names & Hg & Hs).
  assert (Hv : ∀ r, r ∈ tbl_rows t → accepted db p r → row_field (row_fields r) (cn_column k) = Some (cn_value k)); [|by rewrite !Hv].
  intros r Hr Ha. pose proof (leading_constraints_hold names _ Hg _ _ Hs (stored_typed db p t Hdb Ht r Hr) (pl_stages p) [] Hbound Ha ltac:(constructor)) as Hall.
  rewrite list.Forall_forall in Hall. destruct (Hall k Hk) as (ty & v & _ & Hv & _ & _ & Heq). rewrite Hop in Heq. by subst v.
Qed.

(** Rows that agree on the components of a unique index that covers them are one row. *)
Lemma unique_index_same shape d : bt_get shape (definitions_of db (pl_from p)) = Some d → is_unique (ix_kind d) = true →
  (∀ predicate, ix_predicate d = Some predicate → ∃ atoms, leading_atoms (db_catalog db) (tbl_schema t) (pl_stages p) [] = Ok atoms ∧ implied_by predicate atoms = true) →
  (∀ c, c ∈ effective_components d → row_field (row_fields r1) (ic_column c) = row_field (row_fields r2) (ic_column c)) → r1 = r2.
Proof.
  intros Hd Hu Himp Hsame. destruct (consistent_lookup _ _ _ Hdb Ht) as [Hi _ _ _ _]. pose proof (ti_shape _ _ _ _ Hi _ _ Hd) as Es. rewrite Es in Hd.
  destruct (ti_posting _ _ _ _ Hi _ d Hd) as (q & _ & Hpo & Hun). specialize (Hun ltac:(unfold guarded; by rewrite Hu)).
  apply (ascending_row_inj (tbl_rows t)); [apply Hi|done..|].
  pose proof (accepted_included db p t Hdb Ht Hbound r1 d Hr1 Ha1 Hd Himp) as I1. pose proof (accepted_included db p t Hdb Ht Hbound r2 d Hr2 Ha2 Hd Himp) as I2.
  pose proof (posting_of_keyed _ _ _ Hpo r1 Hr1) as Hk. pose proof (tuple_key_same (db_catalog db) (tbl_schema t) _ _ _ Hsame) as Hkey.
  destruct (row_key (db_catalog db) (tbl_schema t) d r1) as [o|] eqn:E1; [|done]. assert (E2 := E1). unfold row_key in E1, E2. rewrite I1 in E1, E2.
  apply fmap_Ok in E1 as (k & Ek & ->). apply (Hun k); apply (posting_of_iff _ _ _ Hpo); [exists r1|exists r2]; split_and!; try done; unfold row_key.
  - by rewrite I1, Ek.
  - by rewrite I2, <-Hkey, Ek.
Qed.

Lemma page_unique_same position keys : pl_stages p !! position = Some (StSort keys) → page_unique_index db p position keys = true →
  (∀ k, k ∈ keys → row_field (row_fields r1) (sk_column k) = row_field (row_fields r2) (sk_column k)) → r1 = r2.
Proof.
  intros Hat Hu Hkeys. unfold page_unique_index, leading_query_predicate_atoms in Hu. rewrite Ht, bind_pure in Hu.
  destruct (leading_atoms _ _ _ _) as [atoms|] eqn:Hl; [|done]. apply existsb_exists in Hu as ([shape d] & Hin%list_elem_of_In & Hu). cbv zeta in Hu. bool_inv.
  destruct (consistent_lookup _ _ _ Hdb Ht) as [Hi _ _ _ _]. apply (bt_get_iff _ _ _ (ti_defs_sorted _ _ _ _ Hi)) in Hin as Hd.
  apply (unique_index_same shape d Hd); [done| |].
  { intros predicate Hp. rewrite Hp in *. by exists atoms. }
  set (components := effective_components d) in *. set (e := equality_prefix (leading_index_constraints p) components) in *.
  destruct (index_sort_match p components e) as [[position' reversed]|] eqn:Es; [|done]. match goal with H : Nat.eqb position' position = true |- _ => apply Nat.eqb_eq in H as -> end.
  destruct (index_sort_match_spec _ _ _ _ _ Es) as (keys' & Hat' & Hsorts). rewrite Hat in Hat'. injection Hat' as <-. cbv zeta in Hsorts. unfold is_fixed in Hsorts.
  match goal with H : Nat.eqb (length _) _ = true |- _ => apply Nat.eqb_eq in H as Hlen end. rewrite (take_ge (drop e components)) in Hsorts by (rewrite length_drop; lia).
  intros c Hc. rewrite <-(take_drop e components) in Hc. apply elem_of_app in Hc as [Hc|Hc].
  - destruct (equality_prefix_fixed _ _ _ Hc) as (k & Hk & <- & Hop). by apply constraint_agrees.
  - apply list_elem_of_lookup in Hc as [i Hc]. destruct (Forall2_lookup_r _ _ _ _ _ Hsorts Hc) as (k & Hk & <- & _). apply Hkeys.
    apply list_elem_of_lookup_2, list_elem_of_In, filter_In in Hk as [Hk _]. by apply list_elem_of_In.
Qed.
End unique.

Lemma page_shape_unique `{TextLib} db p spec order : page_shape db p = Ok (Some (spec, order)) → ∃ position keys t,
  pl_stages p !! position = Some (StSort keys) ∧ po_key <$> order = keys ∧ table db (pl_from p) = Ok t ∧
  ((∃ key k, tbl_primary_key t = Some key ∧ k ∈ keys ∧ sk_column k = key) ∨ page_unique_index db p position keys = true).
Proof.
  unfold page_shape. intros Hs. destruct (positions is_page 0 (pl_stages p)) as [|i [|]] eqn:Ep; [done| |done].
  case_if_in Hs; [done|]. case_if_in Hs; [done|]. destruct (pl_stages p !! i) as [[]|] eqn:Ei; try done. rewrite bind_pure in Hs.
  case_if_in Hs; [done|]. case_if_in Hs; [done|]. apply bind_Ok in Hs as (j & Hj & Hs). case_if_in Hs; [done|].
  apply bind_Ok in Hs as (keys & Hk & Hs). case_if_in Hs; [done|]. apply bind_Ok in Hs as (t & Ht & Hs). case_if_in Hs; [done|].
  apply bind_Ok in Hs as (order' & Ho & Hs). injection Hs as -> ->. exists j, keys, t. destruct (pl_stages p !! j) as [[]|]; try done. injection Hk as ->. split_and!; [done| |done|].
  - unfold page_order in Ho. apply bind_Ok in Ho as (schema & _ & Ho). apply mapR_Ok in Ho. clear -Ho. induction Ho as [|k o keys order Hk _ IH]; [done|].
    apply bind_Ok in Hk as (ty & _ & [= <-]). cbn. by rewrite IH.
  - apply andb_false_iff in E5 as [Ep'|Ep']; apply negb_false_iff in Ep'; [left|by right]. destruct (tbl_primary_key t) as [key|]; [|done]. bool_inv.
    match goal with H : sk_column <$> _ = Some key |- _ => apply fmap_Some in H as (k & Hk & ->) end. exists (sk_column k), k. split_and!; [done|by apply last_Some_elem_of|done].
Qed.

(** C16: the sort of an accepted page is unique.  In every database that statements reach,
    for a query that [prepare_page] accepts and whose filters and sort are bound in the
    columns of its table, two rows of the table that the leading filters accept and that
    compare equal under the keys of the page are the same row; so no cursor skips or
    repeats a row. *)
Theorem page_order_unique `{TextLib} `{PredicateText} `{Base64} `{WireText} `{CursorLib} `{PlanText} sn db p t page r1 r2 :
  rtc step default_database db → table db (pl_from p) = Ok t →
  Forall (bound_filter (db_catalog db) (tbl_schema t)) (leading_filters (pl_stages p)) →
  prepare_page sn db p = Ok (Some page) → Forall (key_bound (db_catalog db) (tbl_schema t)) (po_key <$> pp_order page) →
  r1 ∈ tbl_rows t → r2 ∈ tbl_rows t → accepted db p r1 → accepted db p r2 →
  compare_rows_by_typed_keys (db_catalog db) (po_key <$> pp_order page) (row_fields r1) (row_fields r2) = Ok Eq → r1 = r2.
Proof.
  intros Hdb%reachable_consistent Ht Hbound Hp Hb Hr1 Hr2 Ha1 Ha2 Hc. destruct (schema_names db p t Hdb Ht) as (names & Hg & Hs).
  pose proof (compare_equal names _ _ _ _ _ Hg Hs (stored_typed db p t Hdb Ht r1 Hr1) (stored_typed db p t Hdb Ht r2 Hr2) Hb Hc) as Hsame.
  unfold prepare_page in Hp. apply bind_Ok in Hp as ([[spec order]|] & Hshape & Hp); [|done]. cbv zeta in Hp. apply bind_Ok in Hp as (boundary & _ & [= <-]). cbn [pp_order] in *.
  destruct (page_shape_unique _ _ _ _ Hshape) as (position & keys & t' & Hat & Hk & Ht' & Hproof). rewrite Ht in Ht'. injection Ht' as <-. rewrite Hk in Hsame.
  destruct Hproof as [(key & k & Hkey & Hin & <-)|Hu]; [|by eapply page_unique_same].
  eapply consistent_primary_unique; [exact Hdb|exact Ht|exact Hkey|done|done|by apply Hsame].
Qed.

(** ** A witness *)

#[local] Existing Instances example_text example_predicates example_base64 example_wire_text example_cursor_lib example_plan_text.

(** Pages of names, by their unique index. *)
Definition example_name_pages : Pipeline :=
  mkPipeline "users" [StFilter example_filter; StSort [mkSortKey "name" true (Some TText)]; StPage (mkPageSpec 2 Forward None)].

Lemma page_order_unique_witness :
  page_unique_index example_database example_name_pages 1 [mkSortKey "name" true (Some TText)] = true ∧ example_row 3 1 "bob" = example_row 3 1 "bob".
Proof.
  split; [vm_compute; reflexivity|].
  eapply (page_order_unique example_snapshot example_database example_name_pages example_users _ (example_row 3 1 "bob") (example_row 3 1 "bob") example_reachable example_users_eq).
  - exact example_filter_bound.
  - vm_compute. reflexivity.
  - constructor; [|constructor]. exists TText. split; [reflexivity|vm_compute; reflexivity].
  - right. by left.
  - right. by left.
  - constructor; [|constructor]. exists 1, 1. vm_compute. reflexivity.
  - constructor; [|constructor]. exists 1, 1. vm_compute. reflexivity.
  - vm_compute. reflexivity.
Defined.
