(* ===== verification/Receipts.v ===== *)
(** * Receipts of idempotent requests

    The receipts of src/src/idempotency.rs with their capacity (idempotency/capacity.rs)
    and retention policy (idempotency/retention.rs), and the statement summaries of
    src/src/script.rs that a receipt carries.  The JSON text of a receipt is the serde
    library's and a parameter; the plans, pages and counters of a response are left out. *)
From stdpp Require Import sorting.
From S2P Require Import Prelude Bytes Text BTree Model Expression Database Access Paging.

Definition MAX_IDEMPOTENCY_KEY_BYTES : Z := 256.
Definition MAX_IDEMPOTENCY_RECEIPT_BYTES : Z := 1024 * 1024.
Definition MAX_IDEMPOTENCY_RECEIPTS : Z := 10000.
Definition MAX_IDEMPOTENCY_TOTAL_BYTES : Z := 64 * 1024 * 1024.
Definition MAX_IDEMPOTENCY_PRUNE_RECEIPTS : Z := 1000.
Definition DURABLE_CODEC_OVERHEAD : Z := 6.
Definition MAX_SCRIPT_STATEMENTS : Z := 4096.

(** ** Statement summaries *)

Inductive StatementKind :=
  | KCreateSequence | KDefineType | KCreateTable | KTable | KCreateIndex | KCreateReference | KDropReference
  | KInsert | KInsertMany | KUpsert | KUpsertMany | KUpdate | KDelete
  | KMigration | KExplain | KExplainAnalyze | KQuery | KExpect.

Record StatementSummary := mkStatementSummary { ss_index : Z; ss_kind : StatementKind; ss_affected_rows : option Z }.

Definition is_dml (k : StatementKind) : bool :=
  match k with KInsert | KInsertMany | KUpsert | KUpsertMany | KUpdate | KDelete => true | _ => false end.

(** A summary that does not fit its place: [i] summaries come before it. *)
Definition bad_summary (i : Z) (previous : option StatementSummary) (s : StatementSummary) : bool :=
  negb (ss_index s =? i + 1) || negb (Bool.eqb (bool_decide (is_Some (ss_affected_rows s))) (is_dml (ss_kind s))) ||
  match ss_kind s with
  | KExpect => match previous with Some p => bool_decide (ss_affected_rows p = None) | None => true end
  | _ => false
  end.
Fixpoint bad_summaries (i : Z) (previous : option StatementSummary) (l : list StatementSummary) : bool :=
  match l with [] => false | s :: l => bad_summary i previous s || bad_summaries (i + 1) (Some s) l end.
Definition validate_summaries (l : list StatementSummary) : result () :=
  if (zlen l >? MAX_SCRIPT_STATEMENTS) || bad_summaries 0 None l then Err "E_LIMIT" else Ok ().

Definition satisfies (actual : Z) (op : CmpOp) (expected : Z) : bool :=
  match op with
  | CmpEq => actual =? expected
  | CmpNe => negb (actual =? expected)
  | CmpGt => actual >? expected
  | CmpGte => actual >=? expected
  | CmpLt => actual <? expected
  | CmpLte => actual <=? expected
  end.

(** ** Receipts *)

Record QueryResponse := mkQueryResponse {
  qr_ok : bool;
  qr_message : string;
  qr_rows : list Fields;
  qr_error : option string;
  qr_warnings : list string;
  qr_schema : option SchemaInfo;
  qr_affected_rows : option Z;
  qr_statements : list StatementSummary
}.

Definition ok_message (message : string) : QueryResponse := mkQueryResponse true message [] None [] None None [].
Definition with_warnings (w : list string) (r : QueryResponse) : QueryResponse :=
  mkQueryResponse (qr_ok r) (qr_message r) (qr_rows r) (qr_error r) w (qr_schema r) (qr_affected_rows r) (qr_statements r).
Definition with_response_schema (s : option SchemaInfo) (r : QueryResponse) : QueryResponse :=
  mkQueryResponse (qr_ok r) (qr_message r) (qr_rows r) (qr_error r) (qr_warnings r) s (qr_affected_rows r) (qr_statements r).
Definition with_statements (l : list StatementSummary) (r : QueryResponse) : QueryResponse :=
  mkQueryResponse (qr_ok r) (qr_message r) (qr_rows r) (qr_error r) (qr_warnings r) (qr_schema r) (qr_affected_rows r) l.

Record IdempotencyReceipt := mkIdempotencyReceipt {
  ir_digest : string;
  ir_committed_sequence : Z;
  ir_completed_at_unix_ms : Z;
  ir_response : QueryResponse
}.

Definition ReceiptMap : Type := list (string * IdempotencyReceipt).

Class ReceiptJson := { receipt_to_vec : IdempotencyReceipt → option (list Z) }.

Definition validate_key (key : string) : result () :=
  if (str_len key =? 0) || (str_len key >? MAX_IDEMPOTENCY_KEY_BYTES) then Err "E_IDEMPOTENCY_KEY" else Ok ().

Definition lower_hex (b : Z) : bool := in_range 48 57 b || in_range 97 102 b.
Definition digest_prefix : list Z := as_bytes "sha256:".
Definition validate_digest (digest : string) : result () :=
  let bytes := as_bytes digest in
  if bool_decide (take 7 bytes = digest_prefix) && (zlen (drop 7 bytes) =? 64) && forallb lower_hex (drop 7 bytes) then Ok ()
  else Err "E_IDEMPOTENCY_DIGEST".

Inductive ReceiptCapacityState := Normal | Warning | Full.
#[export] Instance ReceiptCapacityState_eq_dec : EqDecision ReceiptCapacityState.
Proof. solve_decision. Defined.

Definition CAPACITY_WARNING : string :=
  "Idempotency receipt capacity was at least 80% used at this commit; inspect receipts status and preview explicit pruning before confirming it.".

(** The state of [ReceiptCapacity::from_usage]. *)
Definition capacity_state (count encoded_bytes max_count max_encoded_bytes : Z) : ReceiptCapacityState :=
  if (count >=? max_count) || (encoded_bytes >=? max_encoded_bytes) then Full
  else if (count * 100 >=? max_count * 80) || (encoded_bytes * 100 >=? max_encoded_bytes * 80) then Warning
  else Normal.

Section receipts.
Context `{ReceiptJson}.

Definition encoded_receipt (r : IdempotencyReceipt) : result (list Z) := ok_or (receipt_to_vec r) "E_STORAGE".
Definition receipt_encoded_len (r : IdempotencyReceipt) : result Z :=
  encoded ← encoded_receipt r; Ok (saturating_usize (zlen encoded + DURABLE_CODEC_OVERHEAD)).

Definition validate_receipt (sequence : Z) (total : Z) (e : string * IdempotencyReceipt) : result Z :=
  let '(key, receipt) := e in
  _ ← map_err "E_STORAGE" (validate_key key);
  _ ← map_err "E_STORAGE" (validate_digest (ir_digest receipt));
  _ ← map_err "E_STORAGE" (validate_summaries (qr_statements (ir_response receipt)));
  if negb (qr_ok (ir_response receipt)) || bool_decide (is_Some (qr_error (ir_response receipt))) then Err "E_STORAGE"
  else if ir_committed_sequence receipt >? sequence then Err "E_STORAGE"
  else
    encoded ← receipt_encoded_len receipt;
    if encoded >? MAX_IDEMPOTENCY_RECEIPT_BYTES then Err "E_STORAGE"
    else ok_or (checked is_u64 (total + encoded)) "E_STORAGE".

Definition validate_receipts (receipts : ReceiptMap) (sequence : Z) : result Z :=
  if zlen receipts >? MAX_IDEMPOTENCY_RECEIPTS then Err "E_STORAGE"
  else
    total ← foldR (validate_receipt sequence) 0 receipts;
    if total >? MAX_IDEMPOTENCY_TOTAL_BYTES then Err "E_STORAGE" else Ok total.

Definition add_receipt_size (total : Z) (e : string * IdempotencyReceipt) : result Z :=
  n ← receipt_encoded_len e.2; ok_or (checked is_u64 (total + n)) "E_IDEMPOTENCY_CAPACITY".

(** The receipt as it will be stored, with its warning when the capacity runs out. *)
Definition prepare_new_receipt (receipts : ReceiptMap) (receipt : IdempotencyReceipt) : result IdempotencyReceipt :=
  encoded_len ← receipt_encoded_len receipt;
  if encoded_len >? MAX_IDEMPOTENCY_RECEIPT_BYTES then Err "E_IDEMPOTENCY_LIMIT"
  else
    total ← foldR add_receipt_size 0 receipts;
    let projected := capacity_state (saturating_usize (zlen receipts + 1)) (saturating_usize (total + encoded_len))
                       MAX_IDEMPOTENCY_RECEIPTS MAX_IDEMPOTENCY_TOTAL_BYTES in
    '(receipt, encoded_len) ←
      (if bool_decide (projected ≠ Normal) then
         let receipt := mkIdempotencyReceipt (ir_digest receipt) (ir_committed_sequence receipt) (ir_completed_at_unix_ms receipt)
                          (with_warnings (qr_warnings (ir_response receipt) ++ [CAPACITY_WARNING]) (ir_response receipt)) in
         n ← receipt_encoded_len receipt; Ok (receipt, n)
       else Ok (receipt, encoded_len));
    if encoded_len >? MAX_IDEMPOTENCY_RECEIPT_BYTES then Err "E_IDEMPOTENCY_LIMIT"
    else if (zlen receipts >=? MAX_IDEMPOTENCY_RECEIPTS) || (saturating_usize (total + encoded_len) >? MAX_IDEMPOTENCY_TOTAL_BYTES)
    then Err "E_IDEMPOTENCY_CAPACITY" else Ok receipt.
End receipts.

(** ** Pruning *)

Record IdempotencyPruneOptions := mkPruneOptions {
  po_completed_before_unix_ms : option Z;
  po_committed_through_sequence : option Z;
  po_max_receipts : Z
}.

Record ReceiptRetentionPolicy := mkRetentionPolicy { rp_min_age_seconds : Z; rp_max_receipts : Z }.

Definition policy_validate (p : ReceiptRetentionPolicy) : result () :=
  if (rp_min_age_seconds p =? 0) || bool_decide (checked is_u64 (rp_min_age_seconds p * 1000) = None) then Err "E_CONFIG"
  else if (rp_max_receipts p =? 0) || (rp_max_receipts p >? MAX_IDEMPOTENCY_PRUNE_RECEIPTS) then Err "E_CONFIG"
  else Ok ().

(** The cutoff, if the window does not reach before the epoch, and what to prune. *)
Definition selection_at (p : ReceiptRetentionPolicy) (now_unix_ms : Z) : result (option Z * IdempotencyPruneOptions) :=
  _ ← policy_validate p;
  let cutoff := checked is_u64 (now_unix_ms - rp_min_age_seconds p * 1000) in
  Ok (cutoff, mkPruneOptions (Some (default 0 cutoff)) None (rp_max_receipts p)).

(** The order of receipts: by commit, then by time, then by key. *)
Definition receipt_cmp (a b : string * IdempotencyReceipt) : comparison :=
  then_cmp (ir_committed_sequence a.2 ?= ir_committed_sequence b.2)
    (then_cmp (ir_completed_at_unix_ms a.2 ?= ir_completed_at_unix_ms b.2) (str_cmp a.1 b.1)).
Definition receipt_le (a b : string * IdempotencyReceipt) : Prop := receipt_cmp a b ≠ Gt.
#[export] Instance receipt_le_dec a b : Decision (receipt_le a b).
Proof. unfold receipt_le. apply _. Defined.

Definition prunable (o : IdempotencyPruneOptions) (e : string * IdempotencyReceipt) : bool :=
  match po_completed_before_unix_ms o with Some cutoff => ir_completed_at_unix_ms e.2 <? cutoff | None => true end &&
  match po_committed_through_sequence o with Some cutoff => ir_committed_sequence e.2 <=? cutoff | None => true end.

Definition idempotency_prune_selection (receipts : ReceiptMap) (o : IdempotencyPruneOptions) : result (list string) :=
  if bool_decide (po_completed_before_unix_ms o = None) && bool_decide (po_committed_through_sequence o = None) then Err "E_IDEMPOTENCY_PRUNE"
  else if (po_max_receipts o =? 0) || (po_max_receipts o >? MAX_IDEMPOTENCY_PRUNE_RECEIPTS) then Err "E_IDEMPOTENCY_PRUNE"
  else Ok (fst <$> take (Z.to_nat (po_max_receipts o)) (merge_sort receipt_le (List.filter (prunable o) receipts))).
