(* ===== verification/Engine.v ===== *)
(** * The engine: atomic requests, durable commits and idempotency

    The request path of src/src/engine.rs: a script works on a candidate of the committed
    database, the candidate is committed to the durable store together with the receipt of
    the request, and published.  The language front end and the database are behind the
    interface [Executor].  The store is the third-party redb: the engine sees the outcome
    of a commit, which the environment chooses; what a definite failure, an uncertain one
    and a success leave in the file is [w_disk], the state that reopening the database
    finds.  Deadlines, profiles and file locks are left out. *)
From S2P Require Import Prelude Bytes Text BTree Model Expression Database Access Wire Paging Receipts.

(** What the engine asks of the language and the database.  [outside] is what a request
    draws from outside, the clock and the entropy; [take_write_set] empties the pending row
    changes of a candidate.  Executing from the full candidate and, for a single row
    mutation, from the rows that the mutation needs are both [execute_on]. *)
Class Executor := {
  stmt : Type;
  dbstate : Type;
  outside : Type;
  parse : string → result (list stmt);
  bind_parameters : list stmt → list (string * Value) → result (list stmt);
  kind : stmt → StatementKind;
  expectation : stmt → option (CmpOp * Z);
  is_mutating : stmt → bool;
  changes_schema : stmt → bool;
  declares_generated_defaults : stmt → bool;
  reads_page : stmt → bool;
  begin_request : dbstate → dbstate;
  execute_on : outside → dbstate → stmt → result (dbstate * QueryResponse);
  read_from : dbstate → stmt → result QueryResponse;
  schema_info : dbstate → SchemaInfo;
  advance_schema_revision : dbstate → result dbstate;
  take_write_set : dbstate → dbstate;
  has_migration_history : dbstate → bool;
  has_generated_defaults : dbstate → bool;
  has_references : dbstate → bool;
  requires_map_storage : dbstate → bool;
  requires_partial_index_storage : dbstate → bool
}.

Section engine.
Context `{Executor} `{ReceiptJson}.

(** ** State *)

Inductive StorageMode := Memory | Redb | LegacyWal | LegacyWalSnapshot.
#[export] Instance StorageMode_eq_dec : EqDecision StorageMode.
Proof. solve_decision. Defined.

(** [CommittedView]: the database of a commit, its number and the receipts. *)
Record Committed := mkCommitted { cm_db : dbstate; cm_sequence : Z; cm_receipts : ReceiptMap }.

(** What an open store supports, and whether a migration is unfinished in it. *)
Record Backend := mkBackend {
  bk_generated_defaults : bool;
  bk_production_scalars : bool;
  bk_references : bool;
  bk_maps : bool;
  bk_partial_indexes : bool;
  bk_unfinished : result bool
}.

Record Engine := mkEngine {
  en_committed : Committed;
  en_wal : bool;
  en_snapshot : bool;
  en_snapshot_every : Z;
  en_writes_since_snapshot : Z;
  en_write_failed : bool;
  en_read_reopen_required : bool;
  en_read_only : bool;
  en_snapshot_execution : bool;
  en_durable : option Backend;
  en_storage_mode : StorageMode
}.

(** The process and the file. *)
Record World := mkWorld { w_engine : Engine; w_disk : Committed }.

(** What happens outside during one request: the clock, reading the rows of the candidate,
    the outcome of the commit and of the calls after it. *)
Inductive CommitOutcome := Done | Definite (code : string) | Uncertain (applied : bool).
Record Environment := mkEnvironment {
  ev_outside : outside;
  ev_now : result Z;
  ev_materialize : result ();
  ev_commit : CommitOutcome;
  ev_view : bool;
  ev_wal : bool;
  ev_checkpoint : result ()
}.

(** ** Computations on the world *)

Definition M (A : Type) : Type := World → result A * World.
#[export] Instance M_ret : MRet M := λ A a w, (Ok a, w).
#[export] Instance M_bind : MBind M := λ A B f m w, match m w with (Ok a, w) => f a w | (Err e, w) => (Err e, w) end.
Definition fail {A} (code : string) : M A := λ w, (Err code, w).
Definition lift {A} (r : result A) : M A := λ w, (r, w).
Definition get_engine : M Engine := λ w, (Ok (w_engine w), w).
Definition put_engine (f : Engine → Engine) : M () := λ w, (Ok (), mkWorld (f (w_engine w)) (w_disk w)).
Definition put_disk (c : Committed) : M () := λ w, (Ok (), mkWorld (w_engine w) c).

Definition with_committed (c : Committed) (e : Engine) : Engine :=
  mkEngine c (en_wal e) (en_snapshot e) (en_snapshot_every e) (en_writes_since_snapshot e + 1) (en_write_failed e) (en_read_reopen_required e)
    (en_read_only e) (en_snapshot_execution e) (en_durable e) (en_storage_mode e).
(** The handle is dropped: no more writes, and no reads where the view is lost. *)
Definition without_store (reopen : bool) (e : Engine) : Engine :=
  mkEngine (en_committed e) (en_wal e) (en_snapshot e) (en_snapshot_every e) (en_writes_since_snapshot e) true (reopen || en_read_reopen_required e)
    (en_read_only e) (en_snapshot_execution e) None (en_storage_mode e).
Definition with_write_failed (e : Engine) : Engine :=
  mkEngine (en_committed e) (en_wal e) (en_snapshot e) (en_snapshot_every e) (en_writes_since_snapshot e) true (en_read_reopen_required e)
    (en_read_only e) (en_snapshot_execution e) (en_durable e) (en_storage_mode e).
Definition with_snapshot_taken (e : Engine) : Engine :=
  mkEngine (en_committed e) (en_wal e) (en_snapshot e) (en_snapshot_every e) 0 (en_write_failed e) (en_read_reopen_required e)
    (en_read_only e) (en_snapshot_execution e) (en_durable e) (en_storage_mode e).

(** ** Commit *)

Definition supports (f : Backend → bool) (e : Engine) : bool := match en_durable e with Some b => f b | None => false end.

Definition checkpoint (ev : Environment) : M () :=
  e ← get_engine;
  if en_write_failed e then fail "E_STORAGE"
  else if en_snapshot e then _ ← lift (map_err "E_CHECKPOINT" (ev_checkpoint ev)); put_engine with_snapshot_taken
  else mret ().

(** Publish the next view; a failed checkpoint only warns. *)
Definition publish (ev : Environment) (next : Committed) (response : QueryResponse) : M QueryResponse := λ w,
  let e := with_committed next (w_engine w) in
  let w := mkWorld e (w_disk w) in
  if (en_snapshot_every e >? 0) && (en_writes_since_snapshot e >=? en_snapshot_every e) then
    match checkpoint ev w with
    | (Ok _, w) => (Ok response, w)
    | (Err code, w) => (Ok (with_warnings (qr_warnings response ++ [code]) response), w)
    end
  else (Ok response, w).

Definition commit_to_store (ev : Environment) (next : Committed) (response : QueryResponse) : M QueryResponse :=
  match ev_commit ev with
  | Done =>
      _ ← put_disk next;
      if ev_view ev then publish ev next response
      else _ ← put_engine (without_store true); fail "E_STORAGE_REOPEN_REQUIRED"
  | Definite code =>
      if String.eqb code "E_STORAGE_UPGRADE_REQUIRED" || String.eqb code "E_BACKUP_JOURNAL_FULL" then fail code else fail "E_STORAGE"
  | Uncertain applied =>
      _ ← (if applied then put_disk next else mret ());
      _ ← put_engine (without_store false); fail "E_STORAGE"
  end.

Definition commit_candidate (ev : Environment) (candidate : dbstate) (sequence : Z) (has_source : bool) (response : QueryResponse)
    (receipt_state : option ReceiptMap) : M QueryResponse :=
  e ← get_engine;
  if bool_decide (en_storage_mode e ≠ Memory) && negb (supports bk_generated_defaults e) && has_generated_defaults candidate
  then fail "E_STORAGE_UPGRADE_REQUIRED"
  else if has_references candidate && bool_decide (en_storage_mode e ≠ Memory) && negb (supports bk_references e)
  then fail "E_STORAGE_UPGRADE_REQUIRED"
  else
    let next := mkCommitted (take_write_set candidate) sequence (default (cm_receipts (en_committed e)) receipt_state) in
    match en_durable e with
    | Some b =>
        if requires_map_storage candidate && negb (bk_maps b) then fail "E_STORAGE_UPGRADE_REQUIRED"
        else if requires_partial_index_storage candidate && negb (bk_partial_indexes b) then fail "E_STORAGE_UPGRADE_REQUIRED"
        else commit_to_store ev next response
    | None =>
        if en_wal e then
          if negb has_source then fail "E_CONFIG"
          else if ev_wal ev then publish ev next response
          else _ ← put_engine with_write_failed; fail "E_STORAGE"
        else publish ev next response
    end.

(** ** Scripts *)

(** Every [expect] follows a row mutation. *)
Fixpoint preflight_expectations (previous : option stmt) (statements : list stmt) : bool :=
  match statements with
  | [] => true
  | s :: statements =>
      match expectation s with
      | Some _ => match previous with Some p => is_dml (kind p) | None => false end
      | None => true
      end && preflight_expectations (Some s) statements
  end.
Definition preflight (statements : list stmt) : result () :=
  if zlen statements >? MAX_SCRIPT_STATEMENTS then Err "E_LIMIT"
  else if preflight_expectations None statements then Ok () else Err "E_EXPECTATION_CONTEXT".

(** The candidate so far, if the script mutates; the last response; the summaries. *)
Definition Progress : Type := option dbstate * QueryResponse * list StatementSummary.

Definition run_statement (o : outside) (committed : dbstate) (include_summaries : bool) (index : Z) (p : Progress) (s : stmt) : result Progress :=
  let '(candidate, response, summaries) := p in
  match expectation s with
  | Some (op, affected) =>
      actual ← ok_or (qr_affected_rows response) "E_EXPECTATION_CONTEXT";
      if negb (satisfies actual op affected) then Err "E_EXPECTATION"
      else Ok (candidate, response, summaries ++ [mkStatementSummary index (kind s) None])
  | None =>
      '(candidate, response) ←
        match candidate with
        | Some db => '(db, response) ← execute_on o db s; Ok (Some db, response)
        | None => response ← read_from committed s; Ok (None, response)
        end;
      Ok (candidate, response,
          if include_summaries then summaries ++ [mkStatementSummary index (kind s) (qr_affected_rows response)] else summaries)
  end.

Fixpoint run_statements (o : outside) (committed : dbstate) (include_summaries : bool) (index : Z) (p : Progress) (statements : list stmt) : result Progress :=
  match statements with
  | [] => Ok p
  | s :: statements => p ← run_statement o committed include_summaries index p s; run_statements o committed include_summaries (index + 1) p statements
  end.

Record PendingIdempotency := mkPending { pd_key : string; pd_digest : string }.

Definition unfinished_maintenance (e : Engine) : result bool := match en_durable e with Some b => bk_unfinished b | None => Ok false end.

Definition legacy (m : StorageMode) : bool := match m with LegacyWal | LegacyWalSnapshot => true | _ => false end.

(** The refusals before a script runs. *)
Definition admit_script (e : Engine) (statements : list stmt) : result () :=
  let mutating := existsb is_mutating statements in
  _ ← preflight statements;
  if legacy (en_storage_mode e) && existsb (λ s, bool_decide (is_Some (expectation s))) statements then Err "E_CONFIG"
  else if en_read_reopen_required e then Err "E_STORAGE_REOPEN_REQUIRED"
  else if mutating && en_read_only e then Err "E_READ_ONLY"
  else if mutating && en_snapshot_execution e then Err "E_READ_SNAPSHOT"
  else if existsb changes_schema statements && has_migration_history (cm_db (en_committed e)) then Err "E_MIGRATION"
  else if mutating && en_write_failed e then Err "E_STORAGE"
  else if mutating then unfinished ← unfinished_maintenance e; if unfinished : bool then Err "E_MAINTENANCE_REQUIRED" else Ok ()
  else Ok ().

(** The receipt of the request and the receipts with it. *)
Definition receipt_of (ev : Environment) (receipts : ReceiptMap) (sequence : Z) (response : QueryResponse) (i : PendingIdempotency)
    : result (IdempotencyReceipt * ReceiptMap) :=
  now ← ev_now ev;
  receipt ← prepare_new_receipt receipts (mkIdempotencyReceipt (pd_digest i) sequence now response);
  Ok (receipt, bt_insert (pd_key i) receipt receipts).

Definition try_execute_statements (ev : Environment) (statements : list stmt) (idempotency : option PendingIdempotency) : M QueryResponse :=
  e ← get_engine;
  _ ← lift (admit_script e statements);
  let committed := en_committed e in
  candidate ← lift (if existsb is_mutating statements then _ ← ev_materialize ev; Ok (Some (begin_request (cm_db committed))) else Ok None);
  let include_summaries := zlen statements >? 1 in
  '(candidate, response, summaries) ← lift (run_statements (ev_outside ev) (cm_db committed) include_summaries 1 (candidate, ok_message "ok", []) statements);
  _ ← lift (if include_summaries then validate_summaries summaries else Ok ());
  let response := with_statements summaries response in
  response ←
    match candidate with
    | None => mret response
    | Some db =>
        db ← lift (if existsb changes_schema statements then advance_schema_revision db else Ok db);
        sequence ← lift (ok_or (checked is_u64 (cm_sequence committed + 1)) "E_LIMIT");
        let db := take_write_set db in
        match idempotency with
        | Some i =>
            let response := with_response_schema (Some (schema_info db)) response in
            '(receipt, receipts) ← lift (receipt_of ev (cm_receipts committed) sequence response i);
            commit_candidate ev db sequence true (with_warnings (qr_warnings (ir_response receipt)) response) (Some receipts)
        | None => commit_candidate ev db sequence true response None
        end
    end;
  e ← get_engine;
  mret (with_response_schema (Some (schema_info (cm_db (en_committed e)))) response).

Record Request := mkRequest { rq_source : string; rq_parameters : list (string * Value); rq_expected_schema : option SchemaInfo }.

(** Parsing and binding a request, with the refusals that depend on the store. *)
Definition prepare_request (e : Engine) (r : Request) (idempotent : bool) : result (list stmt) :=
  if match rq_expected_schema r with Some s => bool_decide (s ≠ schema_info (cm_db (en_committed e))) | None => false end then Err "E_SCHEMA_CHANGED"
  else
    statements ← parse (rq_source r);
    if bool_decide (en_storage_mode e ≠ Memory) && negb (supports bk_generated_defaults e) && existsb declares_generated_defaults statements
    then Err "E_STORAGE_UPGRADE_REQUIRED"
    else if existsb (λ p, value_requires_protocol_v2 p.2) (rq_parameters r) &&
            (match en_durable e with Some b => negb (bk_production_scalars b) | None => false end || en_wal e || en_snapshot e) &&
            existsb is_mutating statements
    then Err "E_STORAGE_UPGRADE_REQUIRED"
    else
      statements ← bind_parameters statements (rq_parameters r);
      let mutating := existsb is_mutating statements in
      if existsb reads_page statements && (negb (zlen statements =? 1) || mutating) then Err "E_PAGE_SHAPE"
      else if idempotent && negb mutating then Err "E_IDEMPOTENCY_NOT_MUTATION"
      else if negb (zlen (rq_parameters r) =? 0) && mutating && en_wal e then Err "E_CONFIG"
      else Ok statements.

Definition try_execute (ev : Environment) (r : Request) (idempotency : option PendingIdempotency) : M QueryResponse :=
  e ← get_engine;
  statements ← lift (prepare_request e r (bool_decide (is_Some idempotency)));
  try_execute_statements ev statements idempotency.

(** ** Idempotent requests *)

Record IdempotentExecution := mkIdempotentExecution {
  ie_response : QueryResponse;
  ie_replayed : bool;
  ie_digest : string;
  ie_committed_sequence : Z;
  ie_durable : bool
}.

Definition execute_idempotent (ev : Environment) (key digest : string) (r : Request) : M IdempotentExecution :=
  _ ← lift (validate_key key);
  _ ← lift (validate_digest digest);
  e ← get_engine;
  let durability := bool_decide (is_Some (en_durable e)) in
  match bt_get key (cm_receipts (en_committed e)) with
  | Some receipt =>
      if negb (String.eqb (ir_digest receipt) digest) then fail "E_IDEMPOTENCY_CONFLICT"
      else mret (mkIdempotentExecution (ir_response receipt) true (ir_digest receipt) (ir_committed_sequence receipt) durability)
  | None =>
      if en_wal e then fail "E_CONFIG"
      else
        response ← try_execute ev r (Some (mkPending key digest));
        e ← get_engine;
        match bt_get key (cm_receipts (en_committed e)) with
        | Some receipt => mret (mkIdempotentExecution response false (ir_digest receipt) (ir_committed_sequence receipt) durability)
        | None => fail PANIC
        end
  end.

(** ** Pruning *)

(** [prune_idempotency_receipts]: how many receipts it removed. *)
Definition prune_receipts (ev : Environment) (o : IdempotencyPruneOptions) : M Z :=
  e ← get_engine;
  if en_read_only e then fail "E_READ_ONLY"
  else if en_wal e then fail "E_CONFIG"
  else if en_write_failed e then fail "E_STORAGE"
  else
    unfinished ← lift (unfinished_maintenance e);
    if unfinished : bool then fail "E_MAINTENANCE_REQUIRED"
    else
      let receipts := cm_receipts (en_committed e) in
      keys ← lift (idempotency_prune_selection receipts o);
      _ ← lift (foldR (λ total key, receipt ← ok_or (bt_get key receipts) PANIC; add_receipt_size total (key, receipt)) 0 keys);
      match keys with
      | [] => mret 0
      | _ =>
          _ ← lift (ev_materialize ev);
          sequence ← lift (ok_or (checked is_u64 (cm_sequence (en_committed e) + 1)) "E_LIMIT");
          _ ← commit_candidate ev (cm_db (en_committed e)) sequence false (ok_message "idempotency receipts pruned")
                (Some (foldl (λ m key, bt_remove key m) receipts keys));
          mret (zlen keys)
      end.

Definition apply_retention (ev : Environment) (policy : ReceiptRetentionPolicy) (now_unix_ms : Z) : M Z :=
  '(_, options) ← lift (selection_at policy now_unix_ms);
  prune_receipts ev options.

(** ** Opening the store *)

Definition open_redb (b : Backend) (w : World) : World :=
  mkWorld (mkEngine (w_disk w) false false 0 0 false false false false (Some b) Redb) (w_disk w).
End engine.
