(* ===== verification/EngineLaws.v ===== *)
(** * Requests are executed once

    What the engine of src/src/engine.rs guarantees over a durable store: the receipts it
    keeps are always ones it accepts when it opens the store, and a request with an
    idempotency key takes effect at most once, however often it is retried and whatever
    happens to the commits and the process in between. *)
From stdpp Require Import sorting relations.
From S2P Require Import Prelude Bytes Text BTree Model Expression Database Access Predicates Wire Paging Receipts Engine.

(** ** Valid receipts *)

Section receipts.
Context `{ReceiptJson}.

Definition receipt_size (e : string * IdempotencyReceipt) : Z := match receipt_encoded_len e.2 with Ok n => n | Err _ => 0 end.
Definition total_size (l : ReceiptMap) : Z := foldr (λ e n, receipt_size e + n) 0 l.

(** A receipt that [validate_receipts] accepts in a database of this sequence. *)
Record entry_ok (sequence : Z) (e : string * IdempotencyReceipt) : Prop := {
  eo_key : validate_key e.1 = Ok ();
  eo_digest : validate_digest (ir_digest e.2) = Ok ();
  eo_summaries : validate_summaries (qr_statements (ir_response e.2)) = Ok ();
  eo_ok : qr_ok (ir_response e.2) = true;
  eo_error : qr_error (ir_response e.2) = None;
  eo_sequence : ir_committed_sequence e.2 ≤ sequence;
  eo_encoded : receipt_encoded_len e.2 = Ok (receipt_size e);
  eo_size : receipt_size e ≤ MAX_IDEMPOTENCY_RECEIPT_BYTES
}.

Record receipts_ok (receipts : ReceiptMap) (sequence : Z) : Prop := {
  ro_sorted : bt_sorted receipts = true;
  ro_count : zlen receipts ≤ MAX_IDEMPOTENCY_RECEIPTS;
  ro_entries : Forall (entry_ok sequence) receipts;
  ro_total : total_size receipts ≤ MAX_IDEMPOTENCY_TOTAL_BYTES
}.

Lemma receipt_size_nonneg e : 0 ≤ receipt_size e.
Proof.
  unfold receipt_size, receipt_encoded_len. destruct (encoded_receipt e.2) as [l|]; [|done]. cbn. unfold saturating_usize, DURABLE_CODEC_OVERHEAD. pose proof (zlen_nonneg l). lia.
Qed.

Lemma total_size_cons e l : total_size (e :: l) = receipt_size e + total_size l.
Proof. done. Qed.

Lemma total_size_nonneg l : 0 ≤ total_size l.
Proof. induction l as [|e l IH]; [done|]. rewrite total_size_cons. pose proof (receipt_size_nonneg e). lia. Qed.

Lemma total_size_perm l k : l ≡ₚ k → total_size l = total_size k.
Proof. induction 1; rewrite ?total_size_cons; [done|lia..]. Qed.

Lemma total_size_sublist l k : l `sublist_of` k → total_size l ≤ total_size k.
Proof. induction 1 as [|e l k _ IH|e l k _ IH]; rewrite ?total_size_cons; [done|lia|]. pose proof (receipt_size_nonneg e). lia. Qed.

Lemma validate_fold sequence l acc : Forall (entry_ok sequence) l → 0 ≤ acc → acc + total_size l ≤ 2 ^ 64 - 1 →
  foldR (validate_receipt sequence) acc l = Ok (acc + total_size l).
Proof.
  intros Hl. revert acc. induction Hl as [|[key r] l [Hk Hd Hs Ho He Hq Hn Hz] _ IH]; intros acc Ha Hb; cbn [foldR]; [by rewrite Z.add_0_r|].
  rewrite total_size_cons in *. pose proof (total_size_nonneg l). pose proof (receipt_size_nonneg (key, r)). cbn [fst snd] in *.
  unfold validate_receipt. rewrite Hk, Hd, Hs, Ho, He. cbn [map_err]. rewrite !bind_pure. cbn [negb orb]. rewrite bool_decide_false by (by intros []).
  replace (ir_committed_sequence r >? sequence) with false by (symmetry; rewrite Z.gtb_ltb; by apply Z.ltb_ge). rewrite Hn, bind_pure.
  replace (_ >? MAX_IDEMPOTENCY_RECEIPT_BYTES) with false by (symmetry; rewrite Z.gtb_ltb; by apply Z.ltb_ge).
  unfold checked. replace (is_u64 _) with true by (symmetry; apply in_range_spec; lia). cbn [ok_or]. rewrite bind_pure, IH by lia. f_equal. lia.
Qed.

Lemma receipts_ok_valid receipts sequence : receipts_ok receipts sequence → validate_receipts receipts sequence = Ok (total_size receipts).
Proof.
  intros [_ Hc He Ht]. unfold validate_receipts. replace (zlen receipts >? _) with false by (symmetry; rewrite Z.gtb_ltb; by apply Z.ltb_ge).
  pose proof (total_size_nonneg receipts). unfold MAX_IDEMPOTENCY_TOTAL_BYTES in *. rewrite validate_fold by (done || lia). rewrite bind_pure, Z.add_0_l.
  by replace (total_size receipts >? _) with false by (symmetry; rewrite Z.gtb_ltb; apply Z.ltb_ge; lia).
Qed.

Lemma add_fold l acc : Forall (λ e, receipt_encoded_len e.2 = Ok (receipt_size e)) l → 0 ≤ acc → acc + total_size l ≤ 2 ^ 64 - 1 →
  foldR add_receipt_size acc l = Ok (acc + total_size l).
Proof.
  intros Hl. revert acc. induction Hl as [|e l Hn _ IH]; intros acc Ha Hb; cbn [foldR]; [by rewrite Z.add_0_r|].
  rewrite total_size_cons in *. pose proof (total_size_nonneg l). pose proof (receipt_size_nonneg e).
  unfold add_receipt_size. rewrite Hn, bind_pure. unfold checked. replace (is_u64 _) with true by (symmetry; apply in_range_spec; lia).
  cbn [ok_or]. rewrite bind_pure, IH by lia. f_equal. lia.
Qed.

(** What a prepared receipt is: the response with at most a warning added, within the limits. *)
Lemma prepare_new_receipt_ok receipts sequence receipt receipt' : receipts_ok receipts sequence → prepare_new_receipt receipts receipt = Ok receipt' →
  (∃ w, receipt' = mkIdempotencyReceipt (ir_digest receipt) (ir_committed_sequence receipt) (ir_completed_at_unix_ms receipt) (with_warnings w (ir_response receipt))) ∧
  (∀ key, receipt_encoded_len receipt' = Ok (receipt_size (key, receipt')) ∧ receipt_size (key, receipt') ≤ MAX_IDEMPOTENCY_RECEIPT_BYTES ∧
     total_size receipts + receipt_size (key, receipt') ≤ MAX_IDEMPOTENCY_TOTAL_BYTES) ∧ zlen receipts < MAX_IDEMPOTENCY_RECEIPTS.
Proof.
  intros [_ Hc He Ht] Hp. unfold prepare_new_receipt in Hp. apply bind_Ok in Hp as (n & Hn & Hp). case_if_in Hp; [done|].
  apply bind_Ok in Hp as (total & Htot & Hp). pose proof (total_size_nonneg receipts). unfold MAX_IDEMPOTENCY_TOTAL_BYTES, MAX_IDEMPOTENCY_RECEIPT_BYTES, MAX_IDEMPOTENCY_RECEIPTS in *.
  rewrite add_fold in Htot; [|eapply list.Forall_impl; [exact He|by intros e []]|lia|lia]. rewrite Z.add_0_l in Htot. injection Htot as <-. cbv zeta in Hp.
  apply bind_Ok in Hp as ([r m] & Hr & Hp). case_if_in Hp; [done|]. case_if_in Hp; [done|]. injection Hp as ->. bool_inv.
  assert (Hm : receipt_encoded_len receipt' = Ok m ∧ ∃ w, receipt' = mkIdempotencyReceipt (ir_digest receipt) (ir_committed_sequence receipt) (ir_completed_at_unix_ms receipt) (with_warnings w (ir_response receipt))).
  { case_if_in Hr; [apply bind_Ok in Hr as (m' & Hm' & [= <- <-]); eauto|]. injection Hr as <- <-. split; [done|]. exists (qr_warnings (ir_response receipt)). by destruct receipt as [? ? ? []]. }
  destruct Hm as [Hm Hw]. split; [done|]. split; [|lia]. intros key. unfold receipt_size. cbn [snd]. rewrite Hm. unfold saturating_usize in *. split_and!; [done|lia|].
  assert (0 ≤ m) by (pose proof (receipt_size_nonneg (key, receipt')) as Hz; unfold receipt_size in Hz; cbn [snd] in Hz; by rewrite Hm in Hz). lia.
Qed.

Lemma entry_ok_later s s' e : s ≤ s' → entry_ok s e → entry_ok s' e.
Proof. intros Hs []. split; try done. lia. Qed.

Lemma receipts_ok_later m s s' : s ≤ s' → receipts_ok m s → receipts_ok m s'.
Proof. intros Hs [Hso Hc He Ht]. split; try done. eapply list.Forall_impl; [exact He|]. intros e. by apply entry_ok_later. Qed.

Lemma bt_insert_Forall {A} (P : string * A → Prop) k a m : Forall P m → P (k, a) → Forall P (bt_insert k a m).
Proof. rewrite !list.Forall_forall. intros Hm Hk e [->|He]%bt_insert_elem; auto. Qed.

Lemma bt_remove_sublist {A} k (m : list (string * A)) : bt_remove k m `sublist_of` m.
Proof. induction m as [|[j a] m IH]; [done|]. cbn. destruct (str_cmp k j); by constructor. Qed.

Lemma removed_sublist (keys : list string) (m : ReceiptMap) : foldl (λ m key, bt_remove key m) m keys `sublist_of` m.
Proof. revert m. induction keys as [|k keys IH]; intros m; [done|]. cbn. etrans; [apply IH|apply bt_remove_sublist]. Qed.

Lemma removed_sorted (keys : list string) (m : ReceiptMap) : bt_sorted m = true → bt_sorted (foldl (λ m key, bt_remove key m) m keys) = true.
Proof. revert m. induction keys as [|k keys IH]; intros m Hm; [done|]. cbn. apply IH. by apply bt_remove_sorted. Qed.

Lemma removed_get (keys : list string) (m : ReceiptMap) k : k ∉ keys → bt_get k (foldl (λ m key, bt_remove key m) m keys) = bt_get k m.
Proof.
  revert m. induction keys as [|j keys IH]; intros m Hk; [done|]. cbn. rewrite not_elem_of_cons in Hk. destruct Hk as [Hne Hk]. rewrite IH by done. by apply bt_get_remove_ne.
Qed.

Lemma removed_ok keys m s : receipts_ok m s → receipts_ok (foldl (λ m key, bt_remove key m) m keys) s.
Proof.
  intros [Hso Hc He Ht]. pose proof (removed_sublist keys m) as Hsub. split; [by apply removed_sorted| | |].
  - apply sublist_length in Hsub. unfold zlen in *. lia.
  - rewrite list.Forall_forall in He |- *. intros e Hin. apply He. by eapply elem_of_sublist.
  - apply total_size_sublist in Hsub. lia.
Qed.

Lemma insert_ok m s key receipt : receipts_ok m s → bt_get key m = None → entry_ok s (key, receipt) → zlen m < MAX_IDEMPOTENCY_RECEIPTS →
  total_size m + receipt_size (key, receipt) ≤ MAX_IDEMPOTENCY_TOTAL_BYTES → receipts_ok (bt_insert key receipt m) s.
Proof.
  intros [Hso Hc He Ht] Hk Hr Hn Hz. split; [by apply bt_insert_sorted| |by apply bt_insert_Forall|].
  - unfold zlen in *. rewrite bt_insert_length_new by done. lia.
  - rewrite (total_size_perm _ _ (bt_insert_perm _ _ _ Hk)). rewrite total_size_cons. lia.
Qed.
End receipts.

(** ** The engine over a store *)

(** What the engine relies on: a statement that succeeds answers with success, and the
    pending row changes are no part of the schema. *)
Class ExecutorLaws `{Executor} := {
  execute_succeeds o db s db' r : execute_on o db s = Ok (db', r) → qr_ok r = true ∧ qr_error r = None;
  schema_of_written db : schema_info (take_write_set db) = schema_info db
}.

Section engine.
Context `{EX : Executor} {Laws : ExecutorLaws} `{RJ : ReceiptJson}.

Definition committed_ok (c : Committed) : Prop := receipts_ok (cm_receipts c) (cm_sequence c).

(** An engine over a store.  While it holds the store, the file is what it has
    committed; once it has let go of the store, it does not write. *)
Record stored (w : World) : Prop := {
  st_mode : en_storage_mode (w_engine w) = Redb;
  st_wal : en_wal (w_engine w) = false;
  st_snapshot : en_snapshot (w_engine w) = false;
  st_store : match en_durable (w_engine w) with
             | Some _ => en_write_failed (w_engine w) = false ∧ w_disk w = en_committed (w_engine w)
             | None => en_write_failed (w_engine w) = true
             end;
  st_committed : committed_ok (en_committed (w_engine w));
  st_disk : committed_ok (w_disk w)
}.

Lemma M_bind_eq {A B} (m : M A) (f : A → M B) w : (m ≫= f) w = match m w with (Ok a, w) => f a w | (Err e, w) => (Err e, w) end.
Proof. done. Qed.

Lemma M_bind_lift {A B} (r : result A) (f : A → M B) w : (lift r ≫= f) w = match r with Ok a => f a w | Err e => (Err e, w) end.
Proof. by destruct r. Qed.

Lemma M_bind_assoc {A B C} (m : M A) (f : A → M B) (g : B → M C) w : ((m ≫= f) ≫= g) w = (m ≫= λ a, f a ≫= g) w.
Proof. rewrite !M_bind_eq. by destruct (m w) as [[] ]. Qed.

(** What a commit can do: refuse, publish, or leave the file in one of the two states and
    let go of the store. *)
Inductive commit_result {A} (w : World) (next : Committed) (answer : A) : result A → World → Prop :=
  | commit_refused code : commit_result w next answer (Err code) w
  | commit_published :
      commit_result w next answer (Ok answer) (mkWorld (with_committed next (w_engine w)) next)
  | commit_lost code reopen (applied : bool) :
      commit_result w next answer (Err code) (mkWorld (without_store reopen (w_engine w)) (if applied then next else w_disk w)).

Lemma publish_stored ev next response w : en_snapshot (w_engine w) = false → en_write_failed (w_engine w) = false →
  publish ev next response w = (Ok response, mkWorld (with_committed next (w_engine w)) (w_disk w)).
Proof.
  intros Hs Hf. unfold publish. destruct (_ && _); [|done]. unfold checkpoint. rewrite M_bind_eq. cbn. by rewrite Hf, Hs.
Qed.

Lemma commit_cases ev candidate sequence has_source response receipt_state w b : stored w → en_durable (w_engine w) = Some b →
  let next := mkCommitted (take_write_set candidate) sequence (default (cm_receipts (en_committed (w_engine w))) receipt_state) in
  commit_result w next response (commit_candidate ev candidate sequence has_source response receipt_state w).1
    (commit_candidate ev candidate sequence has_source response receipt_state w).2.
Proof.
  intros [Hm Hw Hs Hst _ _] Hd. rewrite Hd in Hst. destruct Hst as [Hf Hdisk]. cbv zeta. unfold commit_candidate. rewrite M_bind_eq. cbn [get_engine]. rewrite Hd.
  destruct (_ && _ && has_generated_defaults candidate); [constructor|]. destruct (_ && _ && negb (supports bk_references _)); [constructor|].
  destruct (requires_map_storage candidate && _); [constructor|]. destruct (requires_partial_index_storage candidate && _); [constructor|].
  unfold commit_to_store. destruct (ev_commit ev) as [|code|applied].
  - rewrite M_bind_eq. cbn [put_disk]. destruct (ev_view ev).
    + rewrite publish_stored by done. cbn [fst snd w_engine w_disk]. apply commit_published.
    + rewrite M_bind_eq. cbn. apply (commit_lost w _ _ _ true true).
  - destruct (_ || _); constructor.
  - rewrite M_bind_eq. destruct applied; cbn; [apply (commit_lost w _ _ _ false true)|apply (commit_lost w _ _ _ false false)].
Qed.

Lemma commit_result_stored {A} w next (answer : A) res w' b : stored w → en_durable (w_engine w) = Some b → committed_ok next →
  commit_result w next answer res w' → stored w'.
Proof.
  intros [Hm Hw Hs Hst Hc Hdk] Hd Hn Hr. rewrite Hd in Hst. destruct Hst as [Hf Hdisk]. destruct Hr as [code| |code reopen applied].
  - split; try done. by rewrite Hd.
  - split; cbn; try done. rewrite Hd. done.
  - split; cbn; try done. by destruct applied.
Qed.
(** *** Scripts *)

Lemma run_statements_ok o committed include index db r sums statements candidate r' sums' :
  run_statements o committed include index (Some db, r, sums) statements = Ok (candidate, r', sums') → qr_ok r = true → qr_error r = None →
  is_Some candidate ∧ qr_ok r' = true ∧ qr_error r' = None.
Proof.
  revert index db r sums. induction statements as [|s statements IH]; intros index db r sums Hr Ho He; cbn [run_statements] in Hr.
  { injection Hr as <- <- <-. by split. }
  apply bind_Ok in Hr as ([[c1 r1] s1] & Hs & Hr). unfold run_statement in Hs. destruct (expectation s) as [[op n]|].
  - apply bind_Ok in Hs as (actual & _ & Hs). case_if_in Hs; [done|]. injection Hs as <- <- <-. by eapply IH.
  - apply bind_Ok in Hs as ([c2 r2] & Hx & Hs). apply bind_Ok in Hx as ([db2 r3] & Hx & [= <- <-]). injection Hs as <- <- <-.
    destruct (execute_succeeds _ _ _ _ _ Hx). by eapply IH.
Qed.

Lemma run_statements_read o committed include index r sums statements candidate r' sums' :
  run_statements o committed include index (None, r, sums) statements = Ok (candidate, r', sums') → candidate = None.
Proof.
  revert index r sums. induction statements as [|s statements IH]; intros index r sums Hr; cbn [run_statements] in Hr; [by injection Hr|].
  apply bind_Ok in Hr as ([[c1 r1] s1] & Hs & Hr). unfold run_statement in Hs. destruct (expectation s) as [[op n]|].
  - apply bind_Ok in Hs as (actual & _ & Hs). case_if_in Hs; [done|]. injection Hs as <- <- <-. by eapply IH.
  - apply bind_Ok in Hs as ([c2 r2] & Hx & Hs). apply bind_Ok in Hx as (r3 & _ & [= <- <-]). injection Hs as <- <- <-. by eapply IH.
Qed.

(** A script of one statement has no summaries. *)
Lemma run_single o committed index p statements c r sums : zlen statements ≤ 1 → preflight statements = Ok () → p.2 = [] →
  run_statements o committed false index p statements = Ok (c, r, sums) → sums = [].
Proof.
  intros Hl Hp Hs Hr. destruct statements as [|s [|]]; [by injection Hr as ->| |unfold zlen in Hl; cbn in Hl; lia].
  unfold preflight in Hp. case_if_in Hp; [done|]. cbn in Hp. cbn [run_statements] in Hr. apply bind_Ok in Hr as (p' & Hr & [= ->]).
  unfold run_statement in Hr. destruct p as [[c0 r0] s0]. cbn in Hs. subst s0. destruct (expectation s); [done|].
  apply bind_Ok in Hr as ([c1 r1] & _ & [= -> -> ->]). done.
Qed.

Lemma admit_mutating e statements : admit_script e statements = Ok () → existsb is_mutating statements = true →
  preflight statements = Ok () ∧ en_write_failed e = false.
Proof.
  unfold admit_script. cbv zeta. intros Ha Hm. apply bind_Ok in Ha as ([] & Hp & Ha). rewrite Hm in Ha. cbn [andb] in Ha. split; [done|].
  repeat (case_if_in Ha; [done|]). done.
Qed.

(** The database that a mutating script makes of another. *)
Definition script_outcome (o : outside) (db : dbstate) (statements : list stmt) : result dbstate :=
  '(candidate, _, _) ← run_statements o db (zlen statements >? 1) 1 (Some (begin_request db), ok_message "ok", []) statements;
  db ← ok_or candidate PANIC;
  db ← (if existsb changes_schema statements then advance_schema_revision db else Ok db);
  Ok (take_write_set db).

(** A response that a receipt may carry. *)
Definition good_response (r : QueryResponse) : Prop := qr_ok r = true ∧ qr_error r = None ∧ validate_summaries (qr_statements r) = Ok ().

(** The receipts and the answer of a commit. *)
Inductive commit_receipts (committed : Committed) (db : dbstate) (r : QueryResponse) : option PendingIdempotency → ReceiptMap → QueryResponse → Prop :=
  | plain_receipts : commit_receipts committed db r None (cm_receipts committed) r
  | keyed_receipts i now receipt :
      prepare_new_receipt (cm_receipts committed)
        (mkIdempotencyReceipt (pd_digest i) (cm_sequence committed + 1) now (with_response_schema (Some (schema_info db)) r)) = Ok receipt →
      commit_receipts committed db r (Some i) (bt_insert (pd_key i) receipt (cm_receipts committed))
        (with_warnings (qr_warnings (ir_response receipt)) (with_response_schema (Some (schema_info db)) r)).

(** A mutating script is refused, or its outcome goes into one commit with its receipt. *)
Inductive script_result (ev : Environment) (statements : list stmt) (idempotency : option PendingIdempotency) (w : World) : result QueryResponse → World → Prop :=
  | script_refused code : script_result ev statements idempotency w (Err code) w
  | script_committed b db r receipts answer res w' :
      en_durable (w_engine w) = Some b →
      script_outcome (ev_outside ev) (cm_db (en_committed (w_engine w))) statements = Ok db →
      good_response r → commit_receipts (en_committed (w_engine w)) db r idempotency receipts answer →
      commit_result w (mkCommitted (take_write_set db) (cm_sequence (en_committed (w_engine w)) + 1) receipts) answer res w' →
      script_result ev statements idempotency w (with_response_schema (Some (schema_info (cm_db (en_committed (w_engine w'))))) <$> res) w'.

Lemma commit_script ev statements idempotency w b db r receipts answer state : stored w → en_durable (w_engine w) = Some b →
  script_outcome (ev_outside ev) (cm_db (en_committed (w_engine w))) statements = Ok db →
  good_response r → commit_receipts (en_committed (w_engine w)) db r idempotency receipts answer → receipts = default (cm_receipts (en_committed (w_engine w))) state →
  let x := (response ← commit_candidate ev db (cm_sequence (en_committed (w_engine w)) + 1) true answer state;
            e ← get_engine; mret (M:=M) (with_response_schema (Some (schema_info (cm_db (en_committed e)))) response)) w in
  script_result ev statements idempotency w x.1 x.2.
Proof.
  intros Hst Hb Ho Hr Hcr ->. cbv zeta. rewrite M_bind_eq.
  pose proof (commit_cases ev db (cm_sequence (en_committed (w_engine w)) + 1) true answer state w b Hst Hb) as Hc. cbv zeta in Hc.
  destruct (commit_candidate _ _ _ _ _ _ _) as [res w']. cbn [fst snd] in Hc.
  pose proof (script_committed ev statements idempotency w b db r _ answer res w' Hb Ho Hr Hcr Hc) as Hs. by destruct res.
Qed.

Lemma script_cases ev statements idempotency w : stored w → existsb is_mutating statements = true →
  let x := try_execute_statements ev statements idempotency w in script_result ev statements idempotency w x.1 x.2.
Proof.
  intros Hst Hm. cbv zeta. unfold try_execute_statements. rewrite M_bind_eq. cbn [get_engine]. rewrite M_bind_lift.
  destruct (admit_script _ statements) as [[]|code] eqn:Ea; [|constructor]. rewrite M_bind_lift, Hm.
  destruct (admit_mutating _ _ Ea Hm) as [Hpre Hf]. destruct (en_durable (w_engine w)) as [b|] eqn:Ed; [|pose proof (st_store _ Hst) as Hx; rewrite Ed, Hf in Hx; done].
  destruct (ev_materialize ev) as [[]|code]; cbn [mbind result_bind]; [|constructor]. rewrite M_bind_lift.
  destruct (run_statements _ _ _ _ _ statements) as [[[c r] sums]|code] eqn:Er; [|constructor].
  destruct (run_statements_ok _ _ _ _ _ _ _ _ _ _ _ Er ltac:(done) ltac:(done)) as ([db ->] & Hok & Herr). rewrite M_bind_lift.
  destruct (if zlen statements >? 1 then validate_summaries sums else Ok ()) as [[]|code] eqn:Ev; [|constructor].
  assert (Hsums : validate_summaries sums = Ok ()).
  { destruct (zlen statements >? 1) eqn:Ez; [done|]. rewrite Z.gtb_ltb in Ez. apply Z.ltb_ge in Ez. by rewrite (run_single _ _ _ (_, _, _) _ _ _ _ Ez Hpre eq_refl Er). }
  assert (Hgood : good_response (with_statements sums r)) by done. cbv zeta.
  rewrite M_bind_assoc, M_bind_lift. destruct (if existsb changes_schema statements then advance_schema_revision db else Ok db) as [db'|code] eqn:Edb; [|constructor].
  assert (Ho : script_outcome (ev_outside ev) (cm_db (en_committed (w_engine w))) statements = Ok (take_write_set db')) by (unfold script_outcome; rewrite Er; cbn; by rewrite Edb).
  rewrite M_bind_assoc, M_bind_lift. destruct (ok_or _ _) as [seq|code] eqn:Es; [|constructor]. apply ok_or_Ok, checked_Some in Es as [_ ->].
  destruct idempotency as [i|]; [|by eapply (commit_script _ _ _ _ b _ (with_statements sums r) _ _ None Hst Ed Ho Hgood); [constructor|]].
  rewrite M_bind_assoc, M_bind_lift. destruct (receipt_of _ _ _ _ _) as [[receipt receipts]|code] eqn:Erec; [|constructor].
  unfold receipt_of in Erec. apply bind_Ok in Erec as (now & _ & Erec). apply bind_Ok in Erec as (receipt' & Hp & [= -> <-]).
  eapply (commit_script _ _ _ _ b _ (with_statements sums r) _ _ (Some _) Hst Ed Ho Hgood); [|done]. by eapply keyed_receipts.
Qed.

(** The database of the commit of a script. *)
Definition script_commits (ev : Environment) (statements : list stmt) (w : World) (db : dbstate) : Prop :=
  ∃ db', script_outcome (ev_outside ev) (cm_db (en_committed (w_engine w))) statements = Ok db' ∧ db = take_write_set db'.

(** A mutating script with an idempotency key: it is refused, or its effect and its
    receipt go into one commit. *)
Lemma idempotent_script ev statements key digest w : stored w → existsb is_mutating statements = true →
  bt_get key (cm_receipts (en_committed (w_engine w))) = None → validate_key key = Ok () → validate_digest digest = Ok () →
  let '(res, w') := try_execute_statements ev statements (Some (mkPending key digest)) w in
  ((∃ code, res = Err code) ∧ w' = w) ∨
  ∃ b db receipt, en_durable (w_engine w) = Some b ∧ ir_digest receipt = digest ∧ script_commits ev statements w db ∧
    let next := mkCommitted db (cm_sequence (en_committed (w_engine w)) + 1) (bt_insert key receipt (cm_receipts (en_committed (w_engine w)))) in
    ir_committed_sequence receipt = cm_sequence next ∧ committed_ok next ∧ commit_result w next (ir_response receipt) res w'.
Proof.
  intros Hst Hm Hk Vk Vd. pose proof (script_cases ev statements (Some (mkPending key digest)) w Hst Hm) as Hs. cbv zeta in Hs.
  destruct (try_execute_statements _ _ _ _) as [res w']. cbn [fst snd] in Hs. destruct Hs as [code|b db r receipts answer res w' Hb Ho (Hok & Herr & Hsums) Hcr Hc]; [left; by eauto|]. right.
  inversion Hcr as [|i now receipt Hp]; subst. cbn [pd_key pd_digest] in *. destruct (prepare_new_receipt_ok _ _ _ _ (st_committed _ Hst) Hp) as ([ws Hrec] & Hsize & Hcount).
  destruct (Hsize key) as (Hn & Hz & Ht). cbn [ir_digest ir_committed_sequence ir_completed_at_unix_ms ir_response] in Hrec.
  exists b, (take_write_set db), receipt. split; [done|]. split; [by rewrite Hrec|]. split; [by exists db|]. cbv zeta. split; [by rewrite Hrec|]. split.
  - apply insert_ok; [eapply receipts_ok_later; [|exact (st_committed _ Hst)]; cbn; lia|exact Hk| |exact Hcount|exact Ht].
    split; cbn [fst snd]; try done; rewrite ?Hrec; cbn; try done; by rewrite <-Hrec.
  - destruct Hc as [code| |code reopen applied]; cbn; [constructor| |apply commit_lost].
    replace (Ok _) with (Ok (ir_response receipt)); [apply commit_published|]. rewrite Hrec. cbn. by rewrite schema_of_written.
Qed.

(** A request without a key: the receipts stay as they are. *)
Lemma plain_script ev statements w : stored w →
  let w' := (try_execute_statements ev statements None w).2 in
  w' = w ∨ ∃ b db answer res, en_durable (w_engine w) = Some b ∧ script_commits ev statements w db ∧
    commit_result (A:=QueryResponse) w (mkCommitted db (cm_sequence (en_committed (w_engine w)) + 1) (cm_receipts (en_committed (w_engine w)))) answer res w'.
Proof.
  intros Hst. cbv zeta. destruct (existsb is_mutating statements) eqn:Hm.
  - pose proof (script_cases ev statements None w Hst Hm) as Hs. cbv zeta in Hs. destruct (try_execute_statements _ _ _ _) as [res w']. cbn [fst snd] in *.
    destruct Hs as [code|b db r receipts answer res w' Hb Ho _ Hcr Hc]; [by left|right]. inversion Hcr; subst. exists b, (take_write_set db). do 2 eexists. split_and!; [done|by exists db|exact Hc].
  - unfold try_execute_statements. rewrite M_bind_eq. cbn [get_engine]. rewrite M_bind_lift. destruct (admit_script _ statements) as [[]|code]; [|by left].
    rewrite Hm, !M_bind_lift. left. destruct (run_statements _ _ _ _ _ statements) as [[[c r] sums]|code] eqn:Er; [|done].
    assert (c = None) as -> by (by eapply run_statements_read).
    rewrite M_bind_lift. by destruct (if zlen statements >? 1 then validate_summaries sums else Ok ()).
Qed.

(** The database of the commit of a request. *)
Definition request_commits (ev : Environment) (r : Request) (idempotent : bool) (w : World) (db : dbstate) : Prop :=
  ∃ statements, prepare_request (w_engine w) r idempotent = Ok statements ∧ script_commits ev statements w db.

(** *** Events *)

Inductive event :=
  | Execute (ev : Environment) (r : Request)
  | Idempotent (ev : Environment) (key digest : string) (r : Request)
  | Prune (ev : Environment) (o : IdempotencyPruneOptions)
  | Retain (ev : Environment) (policy : ReceiptRetentionPolicy) (now_unix_ms : Z)
  | Reopen (b : Backend).

Definition run_event (x : event) (w : World) : World :=
  match x with
  | Execute ev r => (try_execute ev r None w).2
  | Idempotent ev key digest r => (execute_idempotent ev key digest r w).2
  | Prune ev o => (prune_receipts ev o w).2
  | Retain ev policy now => (apply_retention ev policy now w).2
  | Reopen b => open_redb b w
  end.

(** The keys whose receipts the event may remove. *)
Definition pruned (x : event) (w : World) : list string :=
  let selected o := match idempotency_prune_selection (cm_receipts (en_committed (w_engine w))) o with Ok keys => keys | Err _ => [] end in
  match x with
  | Prune _ o => selected o
  | Retain _ policy now => match selection_at policy now with Ok (_, o) => selected o | Err _ => [] end
  | _ => []
  end.

(** The database of the commit of an event. *)
Definition event_commits (x : event) (w : World) (db : dbstate) : Prop :=
  match x with
  | Execute ev r => request_commits ev r false w db
  | Idempotent ev _ _ r => request_commits ev r true w db
  | Prune _ _ | Retain _ _ _ => db = take_write_set (cm_db (en_committed (w_engine w)))
  | Reopen _ => False
  end.

(** The file after an event: as before, or with one more commit, whose receipts are the
    ones before with the receipt of the request, or without the pruned ones. *)
Inductive event_result (x : event) (w : World) : World → Prop :=
  | event_nothing : event_result x w w
  | event_reopened b : event_result x w (open_redb b w)
  | event_commit b db receipts A (answer : A) res w' :
      en_durable (w_engine w) = Some b →
      let next := mkCommitted db (cm_sequence (en_committed (w_engine w)) + 1) receipts in
      committed_ok next → commit_result w next answer res w' → event_commits x w db →
      match x with
      | Idempotent _ key digest _ => ∃ receipt, receipts = bt_insert key receipt (cm_receipts (en_committed (w_engine w))) ∧
          bt_get key (cm_receipts (en_committed (w_engine w))) = None ∧ ir_digest receipt = digest ∧ ir_committed_sequence receipt = cm_sequence next
      | Prune _ _ | Retain _ _ _ => receipts = foldl (λ m key, bt_remove key m) (cm_receipts (en_committed (w_engine w))) (pruned x w)
      | _ => receipts = cm_receipts (en_committed (w_engine w))
      end → event_result x w w'.

Lemma prune_cases ev o w : stored w → let w' := (prune_receipts ev o w).2 in
  w' = w ∨ ∃ b keys answer res, en_durable (w_engine w) = Some b ∧ idempotency_prune_selection (cm_receipts (en_committed (w_engine w))) o = Ok keys ∧
    commit_result (A:=QueryResponse) w (mkCommitted (take_write_set (cm_db (en_committed (w_engine w)))) (cm_sequence (en_committed (w_engine w)) + 1)
      (foldl (λ m key, bt_remove key m) (cm_receipts (en_committed (w_engine w))) keys)) answer res w'.
Proof.
  intros Hst. cbv zeta. unfold prune_receipts. rewrite M_bind_eq. cbn [get_engine]. destruct (en_read_only _); [by left|]. destruct (en_wal _); [by left|].
  destruct (en_write_failed (w_engine w)) eqn:Hf; [by left|]. destruct (en_durable (w_engine w)) as [b|] eqn:Ed; [|pose proof (st_store _ Hst) as Hx; rewrite Ed, Hf in Hx; done].
  rewrite M_bind_lift. destruct (unfinished_maintenance _) as [[]|]; [by left| |by left]. rewrite M_bind_lift.
  destruct (idempotency_prune_selection _ _) as [keys|] eqn:Ek; [|by left]. rewrite M_bind_lift. destruct (foldR _ 0 keys); [|by left].
  destruct keys as [|k keys]; [by left|]. rewrite M_bind_lift. destruct (ev_materialize ev); [|by left]. rewrite M_bind_lift.
  destruct (ok_or _ _) as [seq|] eqn:Es; [|by left]. apply ok_or_Ok, checked_Some in Es as [_ ->]. right. rewrite M_bind_eq.
  pose proof (commit_cases ev (cm_db (en_committed (w_engine w))) (cm_sequence (en_committed (w_engine w)) + 1) false (ok_message "idempotency receipts pruned")
    (Some (foldl (λ m key, bt_remove key m) (cm_receipts (en_committed (w_engine w))) (k :: keys))) w b Hst Ed) as Hc. cbv zeta in Hc. cbn [default from_option id] in Hc.
  destruct (commit_candidate _ _ _ _ _ _ _) as [res w'] eqn:Ec. cbn [fst snd] in Hc. exists b, (k :: keys), (ok_message "idempotency receipts pruned"), res. split_and!; [done..|]. by destruct res.
Qed.
(** The answer to a request is the one that the receipt records for it. *)
Definition answers (digest : string) (a : IdempotentExecution) (receipt : IdempotencyReceipt) : Prop :=
  ie_response a = ir_response receipt ∧ ie_digest a = ir_digest receipt ∧ ir_digest receipt = digest ∧ ie_committed_sequence a = ir_committed_sequence receipt.

Lemma request_cases ev key digest r w : stored w →
  let '(res, w') := execute_idempotent ev key digest r w in
  (w' = w ∧ ∀ a, res = Ok a → ∃ receipt, bt_get key (cm_receipts (en_committed (w_engine w))) = Some receipt ∧ answers digest a receipt) ∨
  ∃ b db receipt res', en_durable (w_engine w) = Some b ∧ ir_digest receipt = digest ∧ bt_get key (cm_receipts (en_committed (w_engine w))) = None ∧
    request_commits ev r true w db ∧ let next := mkCommitted db (cm_sequence (en_committed (w_engine w)) + 1) (bt_insert key receipt (cm_receipts (en_committed (w_engine w)))) in
    ir_committed_sequence receipt = cm_sequence next ∧ committed_ok next ∧ commit_result w next (ir_response receipt) res' w' ∧
    ∀ a, res = Ok a → answers digest a receipt ∧ w_disk w' = next.
Proof.
  intros Hst. unfold execute_idempotent. rewrite M_bind_lift. destruct (validate_key key) as [[]|] eqn:Vk; [|by left].
  rewrite M_bind_lift. destruct (validate_digest digest) as [[]|] eqn:Vd; [|by left]. rewrite M_bind_eq. cbn [get_engine].
  destruct (bt_get key _) as [receipt|] eqn:Ek.
  { destruct (String.eqb_spec (ir_digest receipt) digest); cbn; left; (split; [done|]); [intros a [= <-]; by exists receipt|done]. }
  rewrite (st_wal _ Hst), M_bind_eq. unfold try_execute. rewrite M_bind_eq. cbn [get_engine]. rewrite M_bind_lift.
  destruct (prepare_request _ r _) as [statements|] eqn:Ep; [|by left].
  assert (Hm : existsb is_mutating statements = true).
  { unfold prepare_request in Ep. case_if_in Ep; [done|]. apply bind_Ok in Ep as (s0 & _ & Ep). case_if_in Ep; [done|]. case_if_in Ep; [done|].
    apply bind_Ok in Ep as (s1 & _ & Ep). cbv zeta in Ep. case_if_in Ep; [done|]. case_if_in Ep; [done|]. case_if_in Ep; [done|]. injection Ep as ->.
    rewrite bool_decide_true in * by done. cbn [andb] in *. by destruct (existsb is_mutating statements). }
  pose proof (idempotent_script ev statements key digest w Hst Hm Ek Vk Vd) as Hs. destruct (try_execute_statements _ _ _ _) as [res w'].
  destruct Hs as [[[code ->] ->]|(b & db & receipt & Hb & Hd & Hdb & Hseq & Hok & Hc)]; [by left|].
  assert (Hrc : request_commits ev r true w db) by (by exists statements).
  destruct Hc as [code| |code reopen applied]; rewrite ?M_bind_eq; cbn; rewrite ?bt_get_insert_eq; cbn; right; exists b, db, receipt.
  - exists (Err code). split_and!; try done. constructor.
  - exists (Ok (ir_response receipt)). split_and!; try done; [constructor|]. by intros a [= <-].
  - exists (Err code). split_and!; try done. apply commit_lost.
Qed.

Lemma event_cases x w : stored w → event_result x w (run_event x w).
Proof.
  intros Hst. destruct x as [ev r|ev key digest r|ev o|ev policy now|b]; cbn [run_event].
  - unfold try_execute. rewrite M_bind_eq. cbn [get_engine]. rewrite M_bind_lift. destruct (prepare_request _ _ _) as [statements|] eqn:Ep; [|constructor].
    destruct (plain_script ev statements w Hst) as [->|(b & db & answer & res & Hb & Hdb & Hc)]; [constructor|]. eapply event_commit; [done| |exact Hc|by exists statements|done].
    unfold committed_ok. cbn. eapply receipts_ok_later; [|exact (st_committed _ Hst)]. lia.
  - pose proof (request_cases ev key digest r w Hst) as Hr. destruct (execute_idempotent _ _ _ _ _) as [res w'].
    destruct Hr as [[-> _]|(b & db & receipt & res' & Hb & Hd & Hk & Hdb & Hs & Hok & Hc & _)]; [constructor|]. eapply event_commit; [done|done|exact Hc|done|]. by exists receipt.
  - destruct (prune_cases ev o w Hst) as [->|(b & keys & answer & res & Hb & Hk & Hc)]; [constructor|]. eapply event_commit; [done| |exact Hc|done|].
    + unfold committed_ok. cbn. apply removed_ok. eapply receipts_ok_later; [|exact (st_committed _ Hst)]. lia.
    + unfold pruned. by rewrite Hk.
  - unfold apply_retention. rewrite M_bind_lift. destruct (selection_at policy now) as [[cutoff o]|] eqn:Es; [|constructor].
    destruct (prune_cases ev o w Hst) as [->|(b & keys & answer & res & Hb & Hk & Hc)]; [constructor|]. eapply event_commit; [done| |exact Hc|done|].
    + unfold committed_ok. cbn. apply removed_ok. eapply receipts_ok_later; [|exact (st_committed _ Hst)]. lia.
    + unfold pruned. by rewrite Es, Hk.
  - constructor.
Qed.

Lemma open_stored b w : committed_ok (w_disk w) → stored (open_redb b w).
Proof. intros Hd. by split. Qed.

Lemma event_stored x w : stored w → stored (run_event x w).
Proof.
  intros Hst. destruct (event_cases x w Hst) as [|b|b db receipts A answer res w' Hb next Hok Hc _ _]; [done|by apply open_stored, Hst|by eapply commit_result_stored].
Qed.

(** *** Traces *)

Definition run_events (xs : list event) (w : World) : World := foldl (λ w x, run_event x w) w xs.

(** No event prunes the receipt of the key. *)
Fixpoint keeps (key : string) (xs : list event) (w : World) : Prop :=
  match xs with
  | [] => True
  | x :: xs => key ∉ pruned x w ∧ keeps key xs (run_event x w)
  end.

(** The event is a request with the key, and the file has another commit after it. *)
Definition requests (key : string) (x : event) : bool := match x with Idempotent _ k _ _ => String.eqb k key | _ => false end.
Definition takes_effect (key : string) (x : event) (w : World) : bool :=
  requests key x && negb (cm_sequence (w_disk (run_event x w)) =? cm_sequence (w_disk w)).
Fixpoint effects (key : string) (xs : list event) (w : World) : nat :=
  match xs with
  | [] => 0
  | x :: xs => (if takes_effect key x w then 1 else 0) + effects key xs (run_event x w)
  end.

(** The answers to the requests with the key, each with the digest of its request. *)
Definition event_answer (key : string) (x : event) (w : World) : option (string * IdempotentExecution) :=
  match x with
  | Idempotent ev k digest r => if String.eqb k key then match (execute_idempotent ev k digest r w).1 with Ok a => Some (digest, a) | Err _ => None end else None
  | _ => None
  end.
Fixpoint all_answers (key : string) (xs : list event) (w : World) : list (string * IdempotentExecution) :=
  match xs with
  | [] => []
  | x :: xs => option_list (event_answer key x w) ++ all_answers key xs (run_event x w)
  end.

Definition disk_receipt (key : string) (w : World) : option IdempotencyReceipt := bt_get key (cm_receipts (w_disk w)).

(** What the process would replay is in the file. *)
Definition replay_stored (key : string) (w : World) : Prop :=
  ∀ receipt, bt_get key (cm_receipts (en_committed (w_engine w))) = Some receipt → disk_receipt key w = Some receipt.
(** After a commit the file has the new receipts or the old ones; while the process holds
    the store it replays what the file has. *)
Lemma commit_result_disk {A} w next (answer : A) res w' : commit_result w next answer res w' → w_disk w = en_committed (w_engine w) →
  w_disk w' = w_disk w ∧ en_committed (w_engine w') = en_committed (w_engine w) ∨ w_disk w' = next ∧ (en_committed (w_engine w') = next ∨ en_committed (w_engine w') = en_committed (w_engine w)).
Proof. intros [code| |code reopen []] Hd; cbn; auto. Qed.

Lemma durable_disk w b : stored w → en_durable (w_engine w) = Some b → w_disk w = en_committed (w_engine w).
Proof. intros Hst Hb. pose proof (st_store _ Hst) as Hs. rewrite Hb in Hs. by destruct Hs. Qed.

(** The receipt of a key that the event does not prune, in the commit it attempts. *)
Lemma event_next_get key x w db receipts : key ∉ pruned x w →
  match x with
  | Idempotent _ k digest _ => ∃ receipt, receipts = bt_insert k receipt (cm_receipts (en_committed (w_engine w))) ∧
      bt_get k (cm_receipts (en_committed (w_engine w))) = None ∧ ir_digest receipt = digest ∧ ir_committed_sequence receipt = db
  | Prune _ _ | Retain _ _ _ => receipts = foldl (λ m key, bt_remove key m) (cm_receipts (en_committed (w_engine w))) (pruned x w)
  | _ => receipts = cm_receipts (en_committed (w_engine w))
  end →
  if requests key x then is_Some (bt_get key receipts) ∧ bt_get key (cm_receipts (en_committed (w_engine w))) = None
  else bt_get key receipts = bt_get key (cm_receipts (en_committed (w_engine w))).
Proof.
  intros Hp Hx. destruct x as [ev r|ev k digest r|ev o|ev policy now|b]; cbn [requests]; try (subst; done); try (subst; by apply removed_get).
  destruct Hx as (receipt & -> & Hk & _). destruct (String.eqb_spec k key) as [->|Hne]; [by rewrite bt_get_insert_eq|]. apply bt_get_insert_ne. congruence.
Qed.

(** One event, for a key whose receipt it does not prune. *)
Lemma event_key key x w : stored w → replay_stored key w → key ∉ pruned x w →
  let w' := run_event x w in
  replay_stored key w' ∧ (∀ receipt, disk_receipt key w = Some receipt → disk_receipt key w' = Some receipt) ∧
  (takes_effect key x w = true → disk_receipt key w = None ∧ is_Some (disk_receipt key w')) ∧
  (is_Some (disk_receipt key w') → disk_receipt key w = None → takes_effect key x w = true).
Proof.
  intros Hst Hrep Hpr. cbv zeta. pose proof (event_cases x w Hst) as Hr.
  unfold takes_effect. destruct Hr as [|b|b db receipts A answer res w' Hb next Hok Hc _ Hx].
  - rewrite Z.eqb_refl, andb_false_r. split_and!; [done..|]. by intros [? ->].
  - cbn [w_disk open_redb]. rewrite Z.eqb_refl, andb_false_r. unfold replay_stored, disk_receipt. cbn. split_and!; [done..|]. by intros [? ->].
  - pose proof (durable_disk w b Hst Hb) as Hd. apply (event_next_get key) in Hx; [|done]. unfold replay_stored, disk_receipt in *.
    destruct (commit_result_disk _ _ _ _ _ Hc Hd) as [[-> ->]|[-> Hcm]].
    + rewrite Z.eqb_refl, andb_false_r. split_and!; [done..|]. by intros [? ->].
    + rewrite Hd in *. cbn [next cm_sequence cm_receipts] in *. replace (_ + 1 =? _) with false by (symmetry; apply Z.eqb_neq; lia). cbn [negb]. rewrite andb_true_r.
      destruct (requests key x).
      * destruct Hx as [Hs Hn]. rewrite Hn. split_and!; try done. destruct Hcm as [->| ->]; cbn; [done|by rewrite Hn].
      * rewrite Hx. split_and!; [|done..|by intros [? ->]]. destruct Hcm as [->| ->]; cbn; by rewrite ?Hx.
Qed.

(** An answer is the one of the receipt in the file. *)
Lemma event_answered key x w digest a : stored w → replay_stored key w → event_answer key x w = Some (digest, a) →
  ∃ receipt, disk_receipt key (run_event x w) = Some receipt ∧ answers digest a receipt.
Proof.
  intros Hst Hrep Ha. destruct x as [|ev k digest' r| | |]; try done. cbn [event_answer run_event] in *. destruct (String.eqb_spec k key) as [->|]; [|done].
  pose proof (request_cases ev key digest' r w Hst) as Hr. destruct (execute_idempotent _ _ _ _ _) as [[a'|] w']; [|done]. injection Ha as -> ->. cbn [snd].
  destruct Hr as [[-> Hr]|(b & db & receipt & res' & _ & _ & _ & _ & _ & _ & _ & Hr)].
  - destruct (Hr a eq_refl) as (receipt & Hk & Hans). exists receipt. split; [by apply Hrep|done].
  - destruct (Hr a eq_refl) as [Hans Hd]. exists receipt. split; [|done]. unfold disk_receipt. rewrite Hd. apply bt_get_insert_eq.
Qed.

Lemma open_replays key b w : replay_stored key (open_redb b w).
Proof. by intros receipt. Qed.

Lemma events_stored xs w : stored w → stored (run_events xs w).
Proof. revert w. induction xs as [|x xs IH]; intros w Hw; [done|]. cbn. by apply IH, event_stored. Qed.

(** A history in which the receipt of the key is not pruned. *)
Lemma trace_key key xs w : stored w → replay_stored key w → keeps key xs w →
  let w' := run_events xs w in
  (∀ receipt, disk_receipt key w = Some receipt → disk_receipt key w' = Some receipt) ∧
  effects key xs w = match disk_receipt key w, disk_receipt key w' with None, Some _ => 1%nat | _, _ => 0%nat end ∧
  (∀ digest a, (digest, a) ∈ all_answers key xs w → ∃ receipt, disk_receipt key w' = Some receipt ∧ answers digest a receipt).
Proof.
  cbv zeta. revert w. induction xs as [|x xs IH]; intros w Hst Hrep Hk.
  { cbn. split_and!; [done|by destruct (disk_receipt key w)|]. by intros digest a Ha%elem_of_nil. }
  destruct Hk as [Hp Hk]. destruct (event_key key x w Hst Hrep Hp) as (Hrep' & Hkeep & Ht & Hn).
  destruct (IH _ (event_stored x w Hst) Hrep' Hk) as (IH1 & IH2 & IH3). change (run_events (x :: xs) w) with (run_events xs (run_event x w)).
  cbn [effects all_answers]. rewrite IH2. split_and!; [auto| |].
  - destruct (disk_receipt key w) as [receipt|] eqn:Ed.
    + rewrite (Hkeep _ eq_refl). destruct (takes_effect key x w); [by destruct (Ht eq_refl)|done].
    + destruct (disk_receipt key (run_event x w)) as [receipt|] eqn:Ed'.
      * by rewrite (IH1 _ eq_refl), Hn.
      * destruct (takes_effect key x w); [by destruct (Ht eq_refl) as [_ []]|done].
  - intros digest a [Ha|Ha]%elem_of_app; [|auto]. destruct (event_answer key x w) as [a'|] eqn:Ea; [|by apply elem_of_nil in Ha].
    apply list_elem_of_singleton in Ha as <-. destruct (event_answered _ _ _ _ _ Hst Hrep Ea) as (receipt & Hr & Hans). eauto.
Qed.
End engine.
